(* ===== verification/_CoqProject ===== *)
-Q . S2P
Prelude.v
RustDecimal.v
Dec.v
DecimalText.v
Allocate.v
Ratio.v
TreeTypes.v
Arena.v
ArenaCheck.v
ArenaWf.v
ArenaOps.v
Members.v
Unilevel.v
ArenaWalk.v
ArenaRestore.v
SlotMap.v
Binary.v
Navigator.v
CommissionTypes.v
Walk.v
WalkSpec.v
WalkPrepare.v
Currency.v
WalkOrder.v
Calculators.v
TreeExamples.v
CommissionExamples.v
ArenaPrune.v
Matrix.v
MatrixSpec.v
MatrixRestore.v
MatrixRemove.v
MatrixPromote.v
MatrixPromoteRun.v
MatrixTheorems.v
MatrixCalculator.v
Board.v
MatrixExamples.v
BinaryCommission.v
BinaryLegs.v
BinaryCalc.v
BinaryCycle.v
BinaryTheorems.v
BoardEngine.v
BoardWf.v
BoardCycle.v
BoardCascade.v
BoardRequests.v
BoardRestore.v
BoardTheorems.v
BoardExamples.v
Rank.v
RankFix.v
RankFaults.v
RankTheorems.v
RankExamples.v
Collector.v
Generation.v
GenerationSpec.v
GenerationTheorems.v
Stairstep.v
StairstepGroups.v
StairstepPay.v
StairstepTheorems.v
PeriodExamples.v
Streamline.v
StreamTree.v
StreamSpec.v
StreamRefine.v
StreamRestore.v
StreamlineTheorems.v
StreamlineChanges.v
StreamlineCommission.v
StreamlinePay.v
StreamlineCalc.v
StreamlineExamples.v
PlanConfig.v
PlanValidate.v
PlanSpec.v
PlanTheorems.v
