(* ===== verification/Prelude.v ===== *)
(** * MLMForge network engine: a verification library

    MLMForge computes commissions for multi-level marketing networks. Its core is
    the Rust crate [src/engine/network-engine]: trees of distributors, exact
    decimal arithmetic, and the calculators that turn a period's volume into
    earnings. This library models that crate and proves what makes it correct.

    ** The program

    - Trees. Every tree keeps its nodes in an arena ([tree/arena.rs]): slots with
      a placement edge (parent, children) and a sponsorship edge (sponsor,
      sponsored), an index from user to slot, a free list and a root. The unilevel
      tree ([tree/unilevel.rs]) is an arena; the binary tree ([tree/binary.rs])
      adds a left and a right slot per node; the matrix tree ([tree/matrix.rs])
      adds [width] slots per node, breadth-first spillover, and a holding tank for
      members waiting to be placed again. All are read through one interface
      ([tree/navigator.rs]).
    - Numbers. Money and volume are decimals ([decimal.rs]) whose operations are
      exact or refuse, except for four named divisions that round once.
    - Commissions. The level calculators ([commission/unilevel.rs],
      [commission/matrix.rs]) share the walk up the placement tree
      ([commission/walk.rs]) and the assembly of its result
      ([commission/walk_order.rs], [commission/finalize.rs], [currency.rs]); the
      binary calculator ([commission/binary.rs]) matches leg volumes; the board
      calculator ([commission/board_plan.rs]) pays cycle events; the generation
      calculator ([commission/generation.rs]) numbers the leaders above a source and
      pays each the rate of its number; the stairstep calculator
      ([commission/stairstep.rs]) pays levels inside a breakaway group and overrides
      on the volume of the groups below; the streamline calculator
      ([commission/streamline.rs]) walks every unfrozen stream, and gives a level to
      the next ancestor whose rank reaches the level's threshold.
    - Plans. A compensation plan ([config/]) is checked once, before the engine keeps
      it ([config/validate.rs], [config/minor_units.rs]); the calculators rely on
      what the check promises.
    - Boards. The board engine ([board_plan/engine.rs], [board_plan/board.rs])
      seats members on small boards. A full board cycles: it splits into one board
      per child of its top, and the top member re-enters another board or waits;
      re-entries cascade. Its cycle events are what the board calculator pays.
    - Streams. The streamline engine ([streamline/engine.rs]) keeps chains of
      members, each a unilevel tree that grows at its bottom, with an owner; ranks
      open, freeze or destroy a user's streams.
    - Ranks. A distributor holds the highest rank whose criteria they meet
      ([rank/]); criteria read the ranks of others, so the evaluator repeats passes
      over everyone until no rank changes.

    ** The files

    - [Prelude]: outcomes of Rust code, the monad and its lemmas, the [returns]
      judgement (what holds of a result, what holds of an error, and that there is
      no panic or divergence), lists, sorting, [u32] arithmetic.
    - [RustDecimal], [Dec], [DecimalText], [Allocate], [Ratio]: the [rust_decimal]
      crate as an interface with laws and a reference implementation [Ref];
      [decimal.rs] on top of it, and the integer keys of [serde_helpers.rs].
    - [TreeTypes], [Arena], [ArenaCheck]: the node and error types, [tree/arena.rs]
      (storage, removal, re-sponsoring, traversals) and its restore checks.
      [ArenaWf] states the invariant and shows that placing and removing a leaf
      keep it; [ArenaOps] executes the writes; [ArenaPrune] splits the invariant into
      its placement and sponsorship halves and is the removal of a whole set of
      nodes; [ArenaWalk] the traversals; [ArenaRestore] the checks; [Members] the
      abstract network an arena represents.
    - [Unilevel], [Binary], [Matrix]: the three trees. [SlotMap] relates an arena
      to a map of child slots; [MatrixSpec], [MatrixRestore], [MatrixRemove],
      [MatrixPromote] and [MatrixPromoteRun] (the promoting removal: what it keeps, and
      that it finishes) and [MatrixTheorems] are the theory of the matrix tree. [Navigator] is the read
      interface, a class with laws that each tree's invariant discharges.
    - [CommissionTypes], [Walk], [WalkSpec], [WalkPrepare], [Currency],
      [WalkOrder], [Calculators], [MatrixCalculator]: configuration and result
      records, the level walk, its preparation, assembly, and the two level
      calculators, proved against the navigator's laws.
    - [Collector]: what every calculator that collects walks maintains, and that
      assembly keeps it. [Generation] (the code), [GenerationSpec] and
      [GenerationTheorems]: the generation calculator. [Stairstep] (the code and its
      configuration's wire form), [StairstepGroups], [StairstepPay] and
      [StairstepTheorems]: the stairstep calculator.
    - [BinaryCommission] (the code) and [BinaryLegs], [BinaryCalc],
      [BinaryCycle], [BinaryTheorems] (its theory): the binary calculator.
    - [Board]: a single board, its index arithmetic and the cycle payouts.
      [BoardEngine] is the engine, with its errors and results. [BoardWf] states
      its invariant and the counts that bound cycles;
      [BoardCycle] is one cycle, [BoardCascade] the recursion as a sequence of
      cycles, [BoardRequests] the requests, [BoardRestore] the
      restore checks and [BoardTheorems] the results.
    - [Streamline]: the streamline engine. [StreamTree] relates a tree to
      the list of its members from the top, [StreamSpec] states every
      request on such lists and keeps their invariant, [StreamRefine] is the
      simulation, [StreamRestore] the restore checks, [StreamlineTheorems] and
      [StreamlineChanges] the results. [StreamlineCommission] is the streamline
      calculator, [StreamlinePay] states whom a stream pays and [StreamlineCalc] has
      the results.
    - [Rank]: the ladder's configuration, the criteria, the passes and the
      evaluation of a period. [RankFix] shows the criteria monotone in the ranks of
      others and that the passes climb to the least fixpoint, [RankFaults]
      states the criteria without loops and [RankTheorems] has the results.
    - [PlanConfig]: the whole compensation plan. [PlanValidate] is its validation,
      message by message; [PlanSpec] states each check on exact values and
      [PlanTheorems] has the results.
    - [TreeExamples], [CommissionExamples], [MatrixExamples], [BoardExamples],
      [RankExamples], [PeriodExamples] (binary, generation and stairstep),
      [StreamlineExamples]: concrete trees, plans, periods and engines on which the
      theorems are evaluated.

    ** What the theorems show

    - Trees: every request keeps the invariant; a restored snapshot is accepted
      exactly when it satisfies it; the unilevel and binary trees refine the
      abstract network of members, errors included; the queries return exactly
      what they say; spillover always finds the first free slot breadth first; a
      matrix removal that promotes a child always finishes, keeps everybody else
      below the promoted child, hands its recruits to its sponsor and reports exactly
      who moved where; the holding tank neither loses nor invents members.
    - Boards: every engine that construction or an accepted restore and any
      requests produce keeps the invariant a restore checks; adding always finds a
      seat; no request loses or invents a member; a cascade is a finite sequence of
      cycles whose number the seated and the waiting members bound, whatever the
      configured depth.
    - Streams: the engine refines lists of members, replies and refusals included;
      each member is on one stream; a removal closes the gap and passes owned
      streams on; an allowance leaves exactly the allowed number of active streams;
      a reachable engine can be restored. A stream whose owner does not stand on it
      takes one recruit of that owner and refuses the next.
    - Ranks: the passes always end, at the least assignment in which everyone holds
      the highest rank they meet, whatever the order of evaluation; they fail only
      when there is none, with an error that is true of the inputs.
    - Decimals: each operation returns the exact value, or its one rounding, or
      refuses because no decimal holds it; an allocation hands out the whole; a text
      is parsed to exactly its value or refused for a true reason, and what is written
      is read back.
    - Calculators: on a well-formed tree they never panic or diverge, each error is
      true of the inputs (a numeric error of the unilevel, matrix, binary and streamline
      calculators is about an exact result of theirs that no decimal holds; of the
      numeric errors of the generation and stairstep calculators nothing is said),
      each earning is the exact product rounded once, walks and earnings agree, caps are respected to the last minor unit, the closed form of
      the cycle steps equals the loop, and what is carried forward is exact. The
      generation calculator pays exactly what a numbering without limits owes; the
      stairstep groups partition the network and their volume, and the overrides are
      exactly what each group owes; the streamline calculator seats each level at the
      first ancestor left that reaches its rank, and pays the exact product.
    - Plans: validation always answers; it accepts a plan exactly when every number,
      name and table is as the calculators assume, and validating again changes
      nothing; on an accepted plan no calculator blames the configuration.

    ** Modelling conventions

    A [Result] is [Ok] or [Err]; a panic ([expect], a failed index, an overflow) is
    [Panic]. A loop over a queue or a chain runs on fuel, the number of slots plus
    one (a slot is visited at most once in a well-formed tree), the number of
    tank entries plus one, the board's last index plus three, the configured
    cascade depth, or the code's own bound on rank passes; running out is [Hang], and the theorems show that it does not
    happen. A [HashMap] is a finite
    map; where the code iterates one, the passes are proved independent of the
    order or the order is written out. A random identifier is drawn from a
    parameter, assumed not to repeat. A call that changes [&mut self] and then
    fails returns the changed state with its error. [u8], [u16] and [u32] values are [N] with
    the wrap, check or panic written where the code can leave the range; an
    arena's slot numbers are [nat]. Decimals are any type with the operations and
    laws of [RustDecimal]. An error is its variant with its fields; the texts of
    plan validation's and of the streamline calculator's configuration errors are
    written out, as those errors are nothing else. Other error texts, log lines,
    debug assertions and [Debug] output are left out.

    ** Not modelled

    - [serde]: how JSON objects become records. The model starts from the records and,
      for numbers and integer keys, from their texts.
    - The worker process (JSON protocol, signals, dispatch) and the Go services
      around the engine: I/O and glue. *)

From stdpp Require Import base numbers list gmap sorting strings.
From Stdlib Require Import ZArith Lia.

(** ** Outcomes of Rust code

    [Ok] and [Err] are the two variants of [Result]. [Panic] is a Rust panic:
    a failed [expect], an index out of bounds, a failed [assert!] or an integer
    overflow. [Hang] is an exhausted loop bound: the loops that are not
    structurally recursive run on fuel, and a theorem that a function returns
    excludes it. *)
Inductive outcome (E A : Type) : Type :=
| Ok (a : A)
| Err (e : E)
| Panic
| Hang.
Arguments Ok {E A} a.
Arguments Err {E A} e.
Arguments Panic {E A}.
Arguments Hang {E A}.

#[export] Instance outcome_ret E : MRet (outcome E) := fun A a => Ok a.
#[export] Instance outcome_bind E : MBind (outcome E) := fun A B f m =>
  match m with
  | Ok a => f a
  | Err e => Err e
  | Panic => Panic
  | Hang => Hang
  end.
#[export] Instance outcome_fmap E : FMap (outcome E) := fun A B f m =>
  match m with
  | Ok a => Ok (f a)
  | Err e => Err e
  | Panic => Panic
  | Hang => Hang
  end.
Arguments outcome_ret _ _ _ /.
Arguments outcome_bind _ _ _ _ !_ /.
Arguments outcome_fmap _ _ _ _ !_ /.

(** [Result::map_err]. *)
Definition map_err {E F A} (f : E → F) (m : outcome E A) : outcome F A :=
  match m with
  | Ok a => Ok a
  | Err e => Err (f e)
  | Panic => Panic
  | Hang => Hang
  end.

(** [Option::ok_or]. *)
Definition ok_or {E A} (o : option A) (e : E) : outcome E A :=
  match o with Some a => Ok a | None => Err e end.

(** [Option::expect], and indexing: [None] is a panic. *)
Definition expect {E A} (o : option A) : outcome E A :=
  match o with Some a => Ok a | None => Panic end.

(** [assert!]. *)
Definition assert_that {E} (b : bool) : outcome E unit :=
  if b then Ok () else Panic.

(** An early [return Err(e)] under a condition. *)
Definition refuse_if {E} (b : bool) (e : E) : outcome E unit :=
  if b then Err e else Ok ().

(** A [for] loop whose body may leave the function early. *)
Fixpoint for_each {E A} (f : A → outcome E unit) (l : list A) : outcome E unit :=
  match l with
  | [] => Ok ()
  | x :: l' => f x ;; for_each f l'
  end.

(** A [for] loop that threads a mutable state. *)
Fixpoint fold_outcome {E S A} (f : S → A → outcome E S) (s : S) (l : list A)
    : outcome E S :=
  match l with
  | [] => Ok s
  | x :: l' => s' ← f s x; fold_outcome f s' l'
  end.

(** [iter().map(..).collect::<Result<Vec<_>, _>>()]. *)
Fixpoint map_outcome {E A B} (f : A → outcome E B) (l : list A) : outcome E (list B) :=
  match l with
  | [] => Ok []
  | x :: l' => y ← f x; ys ← map_outcome f l'; Ok (y :: ys)
  end.

(** ** Tactics *)

(** Case analysis on the first scrutinee of a bind, with its equation. *)
Ltac case_outcome H :=
  match type of H with
  | context [mbind _ ?m] => let E := fresh "E" in destruct m eqn:E; simplify_eq/=
  end.

(** Peel every bind of an equation [_ = Ok _]. *)
Ltac inv_ok H := repeat (case_outcome H); simplify_eq/=.

Create HintDb mlm.

Section outcome_lemmas.
Context {E : Type}.

Lemma bind_ok {A B} (m : outcome E A) (f : A → outcome E B) b :
  (m ≫= f) = Ok b ↔ ∃ a, m = Ok a ∧ f a = Ok b.
Proof. destruct m; simpl; naive_solver. Qed.

Lemma bind_unit_ok (m : outcome E unit) {B} (k : outcome E B) b :
  (m ;; k) = Ok b ↔ m = Ok () ∧ k = Ok b.
Proof. rewrite bind_ok. split; [intros ([] & ? & ?) | intros []]; eauto. Qed.

Lemma ok_or_ok {A} (o : option A) (e : E) a : ok_or o e = Ok a ↔ o = Some a.
Proof. destruct o; simpl; naive_solver. Qed.

Lemma expect_ok {A} (o : option A) a : @expect E A o = Ok a ↔ o = Some a.
Proof. destruct o; simpl; naive_solver. Qed.

Lemma assert_that_ok b : @assert_that E b = Ok () ↔ b = true.
Proof. destruct b; simpl; naive_solver. Qed.

Lemma refuse_if_ok b (e : E) : refuse_if b e = Ok () ↔ b = false.
Proof. destruct b; simpl; naive_solver. Qed.

Lemma refuse_bool {A} (b : bool) (e : E) (k : outcome E A) : (refuse_if b e;; k) = if b then Err e else k.
Proof. by destruct b. Qed.

Lemma refuse_decide {A} (P : Prop) `{!Decision P} (e : E) (k : outcome E A) :
  (refuse_if (bool_decide P) e;; k) = if decide P then Err e else k.
Proof. by rewrite refuse_bool; case_bool_decide; case_decide. Qed.

Lemma for_each_ok {A} (f : A → outcome E unit) l :
  for_each f l = Ok () ↔ ∀ x, x ∈ l → f x = Ok ().
Proof.
  induction l as [|x l IH]; simpl; [by split; [set_solver|]|].
  rewrite bind_unit_ok, IH. set_solver.
Qed.

Lemma map_outcome_ok {A B} (f : A → outcome E B) l ys :
  map_outcome f l = Ok ys ↔ Forall2 (λ x y, f x = Ok y) l ys.
Proof.
  revert ys. induction l as [|x l IH]; intros ys; simpl.
  - split; [intros [= <-]; constructor | by inversion 1].
  - rewrite bind_ok. setoid_rewrite bind_ok. setoid_rewrite IH. split.
  + intros (y & Hy & ys' & Hys & [= <-]). by constructor.
  + inversion 1; simplify_eq. naive_solver.
Qed.

Lemma map_outcome_total {A B} (P : A → B → Prop) (f : A → outcome E B) l :
  (∀ x, x ∈ l → ∃ y, f x = Ok y ∧ P x y) →
  ∃ ys, map_outcome f l = Ok ys ∧ Forall2 P l ys.
Proof.
  induction l as [|x l IH]; simpl; intros Hf; [eauto|].
  destruct (Hf x) as (y & Hy & HP); [left|].
  destruct IH as (ys & Hys & HPs); [intros z Hz; apply Hf; by right|].
  rewrite Hy, Hys. eauto.
Qed.

Lemma fold_outcome_app {S A} (f : S → A → outcome E S) s l k :
  fold_outcome f s (l ++ k) = (s' ← fold_outcome f s l; fold_outcome f s' k).
Proof.
  revert s. induction l as [|x l IH]; intros s; simpl; [done|].
  destruct (f s x); simpl; auto.
Qed.

Lemma fold_outcome_ext {S A} (f g : S → A → outcome E S) s l :
  (∀ s x, f s x = g s x) → fold_outcome f s l = fold_outcome g s l.
Proof.
  intros Hfg. revert s. induction l as [|x l IH]; intros s; simpl; [done|].
  rewrite Hfg. by destruct (g s x); simpl.
Qed.

(** Loop invariants: one that the body preserves holds at the end, and a loop
    whose body always succeeds under the invariant succeeds. *)
Lemma fold_outcome_inv {S A} (P : S → Prop) (f : S → A → outcome E S) l s s' :
  P s → (∀ s x s', x ∈ l → P s → f s x = Ok s' → P s') →
  fold_outcome f s l = Ok s' → P s'.
Proof.
  revert s. induction l as [|x l IH]; simpl; intros s Hs Hf Heq; [by simplify_eq|].
  apply bind_ok in Heq as (s1 & H1 & H2).
  eapply IH; [|set_solver|exact H2]. eapply Hf; eauto; set_solver.
Qed.

Lemma fold_outcome_total {S A} (P : S → Prop) (f : S → A → outcome E S) l s :
  P s → (∀ s x, x ∈ l → P s → ∃ s', f s x = Ok s' ∧ P s') →
  ∃ s', fold_outcome f s l = Ok s' ∧ P s'.
Proof.
  revert s. induction l as [|x l IH]; simpl; intros s Hs Hf; [eauto|].
  destruct (Hf s x) as (s1 & H1 & H2); [set_solver|done|].
  rewrite H1. simpl. apply IH; set_solver.
Qed.
End outcome_lemmas.

(** *** Partial correctness of a computation

    [returns P Q m]: [m] neither panics nor hangs, a result satisfies [P] and an
    error satisfies [Q]. *)
Definition returns {E A} (P : A → Prop) (Q : E → Prop) (m : outcome E A) : Prop :=
  match m with Ok a => P a | Err e => Q e | Panic | Hang => False end.

Section returns.
Context {E : Type} (Q : E → Prop).

Lemma returns_impl {A} (P P' : A → Prop) (m : outcome E A) :
  returns P Q m → (∀ a, P a → P' a) → returns P' Q m.
Proof. destruct m; simpl; auto. Qed.

Lemma returns_ok {A} (P : A → Prop) (m : outcome E A) a : returns P Q m → m = Ok a → P a.
Proof. by intros H ->. Qed.

Lemma returns_bind {A B} (P : A → Prop) (P' : B → Prop) (m : outcome E A) (k : A → outcome E B) :
  returns P Q m → (∀ a, P a → returns P' Q (k a)) → returns P' Q (m ≫= k).
Proof. destruct m; simpl; auto. Qed.

(** A guard, and a check whose only result is that it passed. *)
Lemma returns_guard {B} (P : B → Prop) (b : bool) (e : E) (k : outcome E B) :
  (b = true → Q e) → (b = false → returns P Q k) → returns P Q (refuse_if b e;; k).
Proof. destruct b; simpl; auto. Qed.

Lemma returns_seq {B} (R : Prop) (P : B → Prop) (m : outcome E unit) (k : outcome E B) :
  returns (λ _, R) Q m → (R → returns P Q k) → returns P Q (m;; k).
Proof. destruct m; simpl; auto. Qed.

Lemma returns_map_err {F A} (P : A → Prop) (Q' : F → Prop) (g : F → E) (m : outcome F A) :
  returns P Q' m → (∀ e, Q' e → Q (g e)) → returns P Q (map_err g m).
Proof. destruct m; simpl; auto. Qed.

(** A loop, with an invariant on the elements done. *)
Lemma returns_fold {S A} (P : list A → S → Prop) (f : S → A → outcome E S) (l : list A) s : P [] s →
  (∀ pre x post s, l = pre ++ x :: post → P pre s → returns (P (pre ++ [x])) Q (f s x)) →
  returns (P l) Q (fold_outcome f s l).
Proof.
  intros Hs Hf.
  cut (∀ post pre s, l = pre ++ post → P pre s → returns (P l) Q (fold_outcome f s post)).
  { intros H. by apply (H l [] s). }
  clear s Hs. induction post as [|x post IH]; intros pre s Hl Hp; cbn [fold_outcome].
  - rewrite app_nil_r in Hl. by subst.
  - eapply returns_bind; [by eapply Hf|]. intros s' Hs'. eapply (IH (pre ++ [x])); [|done].
    by rewrite <- app_assoc.
Qed.

Lemma returns_map {A B} (P : A → B → Prop) (f : A → outcome E B) (l : list A) :
  (∀ x, x ∈ l → returns (P x) Q (f x)) → returns (Forall2 P l) Q (map_outcome f l).
Proof.
  induction l as [|x l IH]; intros Hf; cbn [map_outcome]; [constructor|].
  eapply returns_bind; [apply Hf; left|]. intros y Hy.
  eapply returns_bind; [apply IH; intros z Hz; apply Hf; by right|]. intros ys Hys. by constructor.
Qed.

Lemma returns_for_each {A} (P : A → Prop) (f : A → outcome E unit) (l : list A) :
  (∀ x, x ∈ l → returns (λ _, P x) Q (f x)) → returns (λ _, Forall P l) Q (for_each f l).
Proof.
  induction l as [|x l IH]; intros Hf; cbn [for_each]; [constructor|].
  eapply returns_bind; [apply Hf; left|]. intros ? Hx.
  eapply returns_impl; [apply IH; intros z Hz; apply Hf; by right|]. intros ? Hl. by constructor.
Qed.
End returns.

(** Weaker promises on both sides. *)
Lemma returns_weaken {E A} (P P' : A → Prop) (Q Q' : E → Prop) (m : outcome E A) :
  returns P Q m → (∀ a, P a → P' a) → (∀ e, Q e → Q' e) → returns P' Q' m.
Proof. destruct m; simpl; auto. Qed.

(** ** Sequences of requests

    [run exec s os] applies requests in order: a refused one leaves the state as
    it was and reports its error, and a panic ends the run. *)
Section run.
Context {E O : Type}.

Fixpoint run {S R} (exec : S → O → outcome E (S * R)) (s : S) (os : list O)
  : outcome E (S * list (R + E)) :=
  match os with
  | [] => Ok (s, [])
  | o :: os' =>
  match exec s o with
  | Ok (s', r) => '(s'', rs) ← run exec s' os'; Ok (s'', inl r :: rs)
  | Err e => '(s'', rs) ← run exec s os'; Ok (s'', inr e :: rs)
  | Panic => Panic
  | Hang => Hang
  end
  end.

(** Two machines related by an abstraction function that commutes with every
    request give the same reports on every sequence. *)
Lemma run_refines {S S' R} (I : S → Prop) (abs : S → S')
  (exec : S → O → outcome E (S * R)) (spec : S' → O → outcome E (S' * R)) :
  (∀ s o s' r, I s → exec s o = Ok (s', r) → I s') →
  (∀ s o, I s → prod_map abs id <$> exec s o = spec (abs s) o) →
  ∀ os s, I s → prod_map abs id <$> run exec s os = run spec (abs s) os.
Proof.
  intros Hinv Hsim. induction os as [|o os IH]; intros s Hs; simpl; [done|].
  rewrite <- (Hsim s o Hs). destruct (exec s o) as [[s' r]|e| |] eqn:He; simpl; [| |done..].
  - rewrite <- (IH s') by eauto. by destruct (run exec s' os) as [[]| | |].
  - rewrite <- (IH s) by done. by destruct (run exec s os) as [[]| | |].
Qed.
End run.

(** ** Orderings and [sort_by]

    Rust's [sort_by] is stable. An insertion sort that places an element before
    the first one it does not exceed computes the same list. *)

(** [Ordering::then_with]. *)
Definition then_with (c1 c2 : comparison) : comparison :=
  match c1 with Eq => c2 | _ => c1 end.

(** [Option]'s [Ord]: [None] sorts first. *)
Definition option_compare {A} (f : A → A → comparison) (x y : option A) : comparison :=
  match x, y with
  | None, None => Eq
  | None, Some _ => Lt
  | Some _, None => Gt
  | Some a, Some b => f a b
  end.

Section sort_by.
Context {A : Type} (cmp : A → A → comparison).

Definition cmp_leb (x y : A) : bool := match cmp x y with Gt => false | _ => true end.

Fixpoint insert_by (x : A) (l : list A) : list A :=
  match l with
  | [] => [x]
  | y :: l' => if cmp_leb x y then x :: y :: l' else y :: insert_by x l'
  end.

Definition sort_by (l : list A) : list A := foldr insert_by [] l.

Lemma insert_by_perm x l : insert_by x l ≡ₚ x :: l.
Proof.
  induction l as [|y l IH]; simpl; [done|].
  destruct (cmp_leb x y); [done|]. rewrite IH. apply Permutation_swap.
Qed.

Lemma sort_by_perm l : sort_by l ≡ₚ l.
Proof.
  induction l as [|x l IH]; simpl; [done|]. by rewrite insert_by_perm, IH.
Qed.

(** A comparator whose induced relation is a total preorder. *)
Context (Htotal : ∀ x y, cmp_leb x y = true ∨ cmp_leb y x = true).
Context (Htrans : ∀ x y z, cmp_leb x y = true → cmp_leb y z = true → cmp_leb x z = true).

Lemma insert_by_sorted x l :
  StronglySorted (λ x y, cmp_leb x y = true) l →
  StronglySorted (λ x y, cmp_leb x y = true) (insert_by x l).
Proof using Htotal Htrans.
  induction 1 as [|y l Hl IH Hy]; simpl; [repeat constructor|].
  destruct (cmp_leb x y) eqn:E.
  - constructor; [by constructor|]. constructor; [done|].
    eapply Forall_impl; [exact Hy|]. eauto.
  - constructor; [done|]. rewrite insert_by_perm. constructor; [|done].
    destruct (Htotal x y); congruence.
Qed.

Lemma sort_by_sorted l : StronglySorted (λ x y, cmp_leb x y = true) (sort_by l).
Proof using Htotal Htrans. induction l; simpl; [constructor | by apply insert_by_sorted]. Qed.

(** With a comparator that separates the elements, the sorted list does not
    depend on the input order. *)
Lemma sort_by_unique l k :
  (∀ x y, x ∈ l → y ∈ l → cmp_leb x y = true → cmp_leb y x = true → x = y) →
  l ≡ₚ k → sort_by l = sort_by k.
Proof using Htotal Htrans.
  intros Hanti Hp.
  assert (Hs : sort_by l ≡ₚ sort_by k) by (by rewrite !sort_by_perm).
  assert (Ha : ∀ x y, x ∈ sort_by l → y ∈ sort_by l →
  cmp_leb x y = true → cmp_leb y x = true → x = y).
  { intros x y. rewrite sort_by_perm. auto. }
  revert Hs Ha. generalize (sort_by_sorted l), (sort_by_sorted k).
  generalize (sort_by l), (sort_by k). clear l k Hanti Hp.
  induction l as [|x l IH]; intros k Hl Hk Hp Ha.
  { by apply Permutation_nil_l in Hp as ->. }
  destruct k as [|y k]; [by apply Permutation_nil_r in Hp|].
  apply StronglySorted_inv in Hl as [Hl Hx], Hk as [Hk Hy].
  rewrite Forall_forall in Hx, Hy.
  assert (x = y) as <-.
  { assert (x ∈ y :: k) as [->|Hxk]%elem_of_cons by (rewrite <- Hp; left); [done|].
  assert (y ∈ x :: l) as [->|Hyl]%elem_of_cons by (rewrite Hp; left); [done|].
  apply Ha; [left|by right|auto..]. }
  f_equal. apply IH; [done..|by apply (inj (cons x))|].
  intros u v Hu Hv. apply Ha; by right.
Qed.
End sort_by.

(** *** Comparators

    What [Ord] promises of a comparator, and the comparators built from keys. *)
Class Comparator {A : Type} (cmp : A → A → comparison) := {
  cmp_flip x y : cmp y x = CompOpp (cmp x y);
  cmp_lt_trans x y z : cmp x y = Lt → cmp y z = Lt → cmp x z = Lt;
  cmp_eq_l x y z : cmp x y = Eq → cmp x z = cmp y z;
}.

Section comparators.
Context {A B : Type}.

#[export] Instance N_comparator : Comparator N.compare.
Proof.
  split; intros.
  - apply N.compare_antisym.
  - rewrite N.compare_lt_iff in *. lia.
  - apply N.compare_eq in H as ->. done.
Qed.

#[export] Instance Z_comparator : Comparator Z.compare.
Proof.
  split; intros.
  - apply Z.compare_antisym.
  - rewrite Z.compare_lt_iff in *. lia.
  - apply Z.compare_eq in H as ->. done.
Qed.

#[export] Instance string_comparator : Comparator String.compare.
Proof.
  split.
  - intros x y. apply String.compare_antisym.
  - induction x as [|c x IH]; intros [|d y] [|e z]; simpl; try done.
    unfold Ascii.compare. intros H1 H2.
    destruct (N.compare_spec (Ascii.N_of_ascii c) (Ascii.N_of_ascii d)) as [->| |]; [| |done].
    + destruct (N.compare_spec (Ascii.N_of_ascii d) (Ascii.N_of_ascii e)); [by eapply IH|done|done].
    + destruct (N.compare_spec (Ascii.N_of_ascii d) (Ascii.N_of_ascii e)) as [<-| |]; [| |done].
      * by rewrite (proj2 (N.compare_lt_iff _ _) H).
      * by rewrite (proj2 (N.compare_lt_iff _ _) (N.lt_trans _ _ _ H H0)).
  - intros x y z ->%String.compare_eq_iff. done.
Qed.

(** Comparing by a key. *)
#[export] Instance on_key_comparator (f : A → B) (cmp : B → B → comparison) :
  Comparator cmp → Comparator (λ x y, cmp (f x) (f y)).
Proof.
  intros H. split; intros.
  - apply cmp_flip.
  - by eapply cmp_lt_trans.
  - by apply cmp_eq_l.
Qed.

#[export] Instance then_with_comparator (c1 c2 : A → A → comparison) :
  Comparator c1 → Comparator c2 → Comparator (λ x y, then_with (c1 x y) (c2 x y)).
Proof.
  intros H1 H2. split.
  - intros x y. rewrite (cmp_flip (cmp := c1) x y), (cmp_flip (cmp := c2) x y). by destruct (c1 x y).
  - intros x y z. destruct (c1 x y) eqn:E1; simpl; [|intros _|done].
    + rewrite (cmp_eq_l (cmp := c1) x y z E1). destruct (c1 y z); simpl; [|done|done].
      apply cmp_lt_trans.
    + destruct (c1 y z) eqn:E2; simpl; [| |done].
      * pose proof (cmp_flip (cmp := c1) y z) as Hf. rewrite E2 in Hf. simpl in Hf.
        pose proof (cmp_eq_l (cmp := c1) z y x Hf) as He.
        rewrite (cmp_flip (cmp := c1) z x), He, <- (cmp_flip (cmp := c1) y x), E1. done.
      * by rewrite (cmp_lt_trans x y z E1 E2).
  - intros x y z. destruct (c1 x y) eqn:E1; simpl; [|done|done]. intros E2.
    by rewrite (cmp_eq_l (cmp := c1) x y z E1), (cmp_eq_l (cmp := c2) x y z E2).
Qed.

#[export] Instance option_comparator (cmp : A → A → comparison) :
  Comparator cmp → Comparator (option_compare cmp).
Proof.
  intros H. split.
  - intros [x|] [y|]; simpl; try done. apply cmp_flip.
  - intros [x|] [y|] [z|]; simpl; try done. apply cmp_lt_trans.
  - intros [x|] [y|] [z|]; simpl; try done. apply cmp_eq_l.
Qed.
End comparators.

Section comparator_sort.
Context {A : Type} (cmp : A → A → comparison) `{!Comparator cmp}.

Lemma cmp_leb_total x y : cmp_leb cmp x y = true ∨ cmp_leb cmp y x = true.
Proof. unfold cmp_leb. rewrite (cmp_flip x y). destruct (cmp x y); simpl; auto. Qed.

Lemma cmp_leb_trans x y z : cmp_leb cmp x y = true → cmp_leb cmp y z = true → cmp_leb cmp x z = true.
Proof.
  unfold cmp_leb. destruct (cmp x y) eqn:E1; [| |done].
  - by rewrite (cmp_eq_l x y z E1).
  - destruct (cmp y z) eqn:E2; [| |done]; intros _ _.
    + pose proof (cmp_flip y z) as Hf. rewrite E2 in Hf. simpl in Hf.
      rewrite (cmp_flip z x), (cmp_eq_l z y x Hf), <- (cmp_flip y x). by rewrite E1.
    + by rewrite (cmp_lt_trans x y z E1 E2).
Qed.

Lemma cmp_leb_antisym x y : cmp_leb cmp x y = true → cmp_leb cmp y x = true → cmp x y = Eq.
Proof. unfold cmp_leb. rewrite (cmp_flip x y). by destruct (cmp x y). Qed.

Lemma sort_sorted l : StronglySorted (λ x y, cmp_leb cmp x y = true) (sort_by cmp l).
Proof. apply sort_by_sorted; [apply cmp_leb_total|apply cmp_leb_trans]. Qed.

Lemma sort_unique l k : (∀ x y, x ∈ l → y ∈ l → cmp x y = Eq → x = y) → l ≡ₚ k →
  sort_by cmp l = sort_by cmp k.
Proof.
  intros Hsep. apply sort_by_unique; [apply cmp_leb_total|apply cmp_leb_trans|].
  intros x y Hx Hy H1 H2. apply Hsep; [done..|]. by apply cmp_leb_antisym.
Qed.
End comparator_sort.

(** ** Lists *)

Lemma list_filter_fmap {A B} (f : A → B) (P : B → Prop) `{!∀ x, Decision (P x)} (l : list A) :
  filter P (f <$> l) = f <$> filter (λ x, P (f x)) l.
Proof.
  induction l as [|x l IH]; [done|]. rewrite fmap_cons, !filter_cons.
  destruct (decide (P (f x))); simpl; by rewrite IH.
Qed.

Lemma filter_all_false {A} (P : A → Prop) `{!∀ x, Decision (P x)} (l : list A) :
  (∀ x, x ∈ l → ¬ P x) → filter P l = [].
Proof.
  induction l as [|x l IH]; intros Hl; [done|].
  rewrite filter_cons_False by (apply Hl; left). apply IH. intros y Hy. apply Hl. by right.
Qed.

Lemma filter_all_true {A} (P : A → Prop) `{!∀ x, Decision (P x)} (l : list A) :
  Forall P l → filter P l = l.
Proof. induction 1 as [|x l Hx _ IH]; [done|]. rewrite filter_cons_True by done. by rewrite IH. Qed.

Lemma filter_iff_in {A} (P Q : A → Prop) `{!∀ x, Decision (P x), !∀ x, Decision (Q x)} (l : list A) :
  (∀ x, x ∈ l → P x ↔ Q x) → filter P l = filter Q l.
Proof.
  induction l as [|x l IH]; intros Hl; [done|]. pose proof (Hl x ltac:(left)). rewrite !filter_cons.
  rewrite IH by (intros y Hy; apply Hl; by right). destruct (decide (P x)), (decide (Q x)); tauto.
Qed.

Lemma lookup_map_Some {A B} (f : A → B) (l : list A) i x :
  l !! i = Some x → map f l !! i = Some (f x).
Proof. intros H. change (f <$> l) with (map f l). by rewrite list_lookup_fmap, H. Qed.

Lemma elem_of_map {A B} (f : A → B) (l : list A) y :
  y ∈ map f l ↔ ∃ x, y = f x ∧ x ∈ l.
Proof. apply list_elem_of_fmap. Qed.

Lemma elem_of_concat {A} (x : A) (ls : list (list A)) : x ∈ concat ls ↔ ∃ l, l ∈ ls ∧ x ∈ l.
Proof.
  induction ls as [|l ls IH]; simpl; [setoid_rewrite elem_of_nil; naive_solver|].
  rewrite elem_of_app, IH. setoid_rewrite elem_of_cons. naive_solver.
Qed.

(** [iter().enumerate()]. *)
Definition enumerate {A} (l : list A) : list (nat * A) := zip (seq 0 (length l)) l.

Lemma elem_of_enumerate {A} (l : list A) i x : (i, x) ∈ enumerate l ↔ l !! i = Some x.
Proof.
  unfold enumerate. rewrite list_elem_of_lookup. setoid_rewrite lookup_zip_Some.
  setoid_rewrite lookup_seq. split.
  - intros (j & [-> _] & H). exact H.
  - intros H. exists i. split; [|done]. split; [done|]. by eapply lookup_lt_Some.
Qed.

Lemma length_enumerate {A} (l : list A) : length (enumerate l) = length l.
Proof. unfold enumerate. rewrite length_zip_with, length_seq. lia. Qed.

Lemma enumerate_snd {A} (l : list A) : (enumerate l).*2 = l.
Proof. unfold enumerate. apply snd_zip. by rewrite length_seq. Qed.

Lemma enumerate_lookup {A} (l : list A) k : enumerate l !! k = (λ x, (k, x)) <$> l !! k.
Proof.
  unfold enumerate. destruct (l !! k) as [x|] eqn:Hk; simpl.
  - apply lookup_zip_Some. rewrite lookup_seq. split; [split; [done|]|done]. by eapply lookup_lt_Some.
  - apply lookup_ge_None. rewrite length_zip_with, length_seq. apply lookup_ge_None in Hk. lia.
Qed.

Lemma enumerate_fmap {A B} (f : A → B) (l : list A) : enumerate (f <$> l) = prod_map id f <$> enumerate l.
Proof.
  apply list_eq. intros k. rewrite list_lookup_fmap, !enumerate_lookup, list_lookup_fmap. by destruct (l !! k).
Qed.

(** Sorting commutes with a map that keeps the comparisons. *)
Lemma insert_by_fmap {A B} (f : A → B) (c : A → A → comparison) (c' : B → B → comparison) x (l : list A) :
  (∀ y, y ∈ l → c' (f x) (f y) = c x y) → insert_by c' (f x) (f <$> l) = f <$> insert_by c x l.
Proof.
  induction l as [|y l IH]; intros Hc; [done|]. rewrite fmap_cons. cbn [insert_by]. unfold cmp_leb.
  rewrite (Hc y) by left. destruct (c x y); [done|done|]. rewrite fmap_cons. f_equal. apply IH.
  intros z Hz. apply Hc. by right.
Qed.

Lemma sort_by_fmap {A B} (f : A → B) (c : A → A → comparison) (c' : B → B → comparison) (l : list A) :
  (∀ x y, x ∈ l → y ∈ l → c' (f x) (f y) = c x y) → sort_by c' (f <$> l) = f <$> sort_by c l.
Proof.
  induction l as [|x l IH]; intros Hc; [done|]. rewrite fmap_cons. unfold sort_by. cbn [foldr].
  fold (sort_by c' (f <$> l)). fold (sort_by c l). rewrite IH by (intros; apply Hc; by right).
  apply insert_by_fmap. intros y Hy. apply Hc; [left|]. right. by rewrite sort_by_perm in Hy.
Qed.

(** A loop of insertions. *)
Section insert_all.
Context `{Countable K} {A V : Type} (f : A → K) (g : A → V).

Definition insert_all (m : gmap K V) (l : list A) : gmap K V := foldl (λ m e, <[f e := g e]> m) m l.

Lemma insert_all_notin m (l : list A) k : k ∉ f <$> l → insert_all m l !! k = m !! k.
Proof.
  revert m. induction l as [|e l IH]; intros m Hk; [done|]. rewrite fmap_cons, not_elem_of_cons in Hk.
  destruct Hk as [H1 H2]. unfold insert_all. cbn [foldl]. fold (insert_all (<[f e:=g e]> m) l).
  rewrite IH by done. by apply lookup_insert_ne.
Qed.

Lemma insert_all_in m (l : list A) e : NoDup (f <$> l) → e ∈ l → insert_all m l !! f e = Some (g e).
Proof.
  revert m. induction l as [|x l IH]; intros m Hnd He; [by apply elem_of_nil in He|].
  rewrite fmap_cons in Hnd. apply NoDup_cons in Hnd as [Hx Hnd].
  unfold insert_all. cbn [foldl]. fold (insert_all (<[f x:=g x]> m) l).
  apply elem_of_cons in He as [->|He]; [|by apply IH].
  rewrite insert_all_notin by done. apply lookup_insert_eq.
Qed.

Lemma insert_all_Some (l : list A) k v : NoDup (f <$> l) →
  insert_all ∅ l !! k = Some v ↔ ∃ e, e ∈ l ∧ f e = k ∧ g e = v.
Proof.
  intros Hnd. split.
  - intros Hk. destruct (decide (k ∈ f <$> l)) as [(e & -> & He)%list_elem_of_fmap|Hn].
  + rewrite (insert_all_in _ _ _ Hnd He) in Hk. simplify_eq. eauto.
  + by rewrite (insert_all_notin _ _ _ Hn), lookup_empty in Hk.
  - intros (e & He & <- & <-). by apply insert_all_in.
Qed.
End insert_all.

(** ** UUIDs

    A [Uuid] is a 128-bit value; [Ord] compares the bytes, which is the numeric
    order. [Uuid::nil()] is zero. *)
Abbreviation Uuid := N.
Definition nil_uuid : Uuid := 0%N.
Definition is_nil (u : Uuid) : bool := bool_decide (u = nil_uuid).

(** ** [u32] and [u64] arithmetic

    Overflow is a panic: a debug build panics, a release build wraps, and a
    theorem that excludes [Panic] covers both. *)
Definition u32_max : N := 4294967295%N.
Definition u32_add {E} (a b : N) : outcome E N :=
  if (a + b <=? u32_max)%N then Ok (a + b)%N else Panic.
Definition u32_sub {E} (a b : N) : outcome E N :=
  if (b <=? a)%N then Ok (a - b)%N else Panic.
Definition u32_checked_add (a b : N) : option N :=
  if (a + b <=? u32_max)%N then Some (a + b)%N else None.
Definition u64_max : N := 18446744073709551615%N.
Definition u64_add {E} (a b : N) : outcome E N :=
  if (a + b <=? u64_max)%N then Ok (a + b)%N else Panic.
