(* ===== verification/RustDecimal.v ===== *)
(** * The [rust_decimal] crate as an interface

    The engine's numbers wrap [rust_decimal::Decimal], which is not part of
    the repository. [DecimalOps] names what the engine calls, [DecimalLaws]
    states the documented behaviour the proofs rely on, and [Ref] is a concrete
    implementation that satisfies it, so that every theorem stated against the
    interface can be evaluated. *)

From stdpp Require Import base numbers list strings pretty.
From Stdlib Require Import ZArith Lia.
From S2P Require Import Prelude.
#[local] Open Scope Z_scope.

(** The two rounding strategies the engine uses. *)
Inductive RoundingStrategy := MidpointNearestEven | MidpointAwayFromZero.

Class DecimalOps (D : Type) := {
  (** the signed coefficient, and the number of decimal places *)
  mantissa : D → Z;
  scale : D → Z;
  (** [from_i128_with_scale] panics ([None]) where [try_from] fails *)
  from_i128_with_scale : Z → Z → option D;
  try_from_i128_with_scale : Z → Z → option D;
  from_usize : Z → D;
  checked_div : D → D → option D;
  round_dp_with_strategy : D → Z → RoundingStrategy → D;
  normalize : D → D;
  dcompare : D → D → comparison;
  (** [Display] *)
  display : D → string;
  DZERO : D;
  DONE : D;
}.

(** A coefficient and scale a [Decimal] can hold: 96 bits, 28 places. *)
Definition holds (m s : Z) : Prop := Z.abs m < 2 ^ 96 ∧ 0 ≤ s ≤ 28.
#[export] Instance holds_dec m s : Decision (holds m s).
Proof. unfold holds. apply _. Defined.

(** Every [Decimal] is a whole number of 10^-28: [units d] is how many. *)
Definition units {D} `{!DecimalOps D} (d : D) : Z := mantissa d * 10 ^ (28 - scale d).

(** [u] rounded to a multiple of [k > 0], ties away from zero, in multiples. *)
Definition round_away (u k : Z) : Z := Z.sgn u * ((2 * Z.abs u + k) / (2 * k)).

(** [u] rounded to a multiple of [k > 0], ties to the even multiple. *)
Definition round_even (u k : Z) : Z :=
  let q := u / k in
  let r := u mod k in
  if 2 * r <? k then q
  else if k <? 2 * r then q + 1
  else if Z.even q then q else q + 1.

Definition round_by (st : RoundingStrategy) : Z → Z → Z :=
  match st with
  | MidpointNearestEven => round_even
  | MidpointAwayFromZero => round_away
  end.

Class DecimalLaws (D : Type) `{!DecimalOps D} := {
  decimal_holds (d : D) : holds (mantissa d) (scale d);
  try_from_holds m s : holds m s →
    ∃ d : D, try_from_i128_with_scale m s = Some d ∧ mantissa d = m ∧ scale d = s;
  try_from_fails m s : ¬ holds m s → try_from_i128_with_scale m s = @None D;
  from_is_try_from m s : from_i128_with_scale m s = @try_from_i128_with_scale D _ m s;
  from_usize_units n : 0 ≤ n < 2 ^ 64 → units (from_usize n : D) = n * 10 ^ 28;
  compare_units (a b : D) : dcompare a b = (units a ?= units b);
  normalize_units (d : D) : units (normalize d) = units d;
  normalize_minimal (d : D) :
    scale (normalize d) = 0 ∨ mantissa (normalize d) mod 10 ≠ 0;
  round_keeps (d : D) p st : scale d ≤ p → round_dp_with_strategy d p st = d;
  round_units (d : D) p st : 0 ≤ p < scale d →
    units (round_dp_with_strategy d p st) =
      round_by st (units d) (10 ^ (28 - p)) * 10 ^ (28 - p);
  checked_div_zero (a b : D) : units b = 0 → checked_div a b = None;
  zero_units : units (DZERO : D) = 0;
  one_units : units (DONE : D) = 10 ^ 28;
}.

(** ** Generic facts about rounding *)

Lemma pow10_pos n : 0 ≤ n → 0 < 10 ^ n.
Proof. intros. apply Z.pow_pos_nonneg; lia. Qed.
#[export] Hint Resolve pow10_pos : mlm.

Lemma pow10_split a b : 0 ≤ a → 0 ≤ b → 10 ^ (a + b) = 10 ^ a * 10 ^ b.
Proof. intros. apply Z.pow_add_r; lia. Qed.

Lemma round_away_scale u k c : 0 < k → 0 < c → round_away (u * c) (k * c) = round_away u k.
Proof.
  intros Hk Hc. unfold round_away. rewrite Z.sgn_mul, (Z.sgn_pos c), Z.mul_1_r by lia.
  rewrite Z.abs_mul, (Z.abs_eq c) by lia.
  replace (2 * (Z.abs u * c) + k * c) with ((2 * Z.abs u + k) * c) by lia.
  replace (2 * (k * c)) with ((2 * k) * c) by lia.
  rewrite Z.div_mul_cancel_r by lia. done.
Qed.

Lemma round_even_scale u k c : 0 < k → 0 < c → round_even (u * c) (k * c) = round_even u k.
Proof.
  intros Hk Hc. unfold round_even.
  rewrite Z.div_mul_cancel_r, Z.mul_mod_distr_r by lia.
  replace (2 * (u mod k * c) <? k * c) with (2 * (u mod k) <? k)
    by (apply eq_bool_prop_intro; rewrite !Is_true_true, !Z.ltb_lt; nia).
  replace (k * c <? 2 * (u mod k * c)) with (k <? 2 * (u mod k))
    by (apply eq_bool_prop_intro; rewrite !Is_true_true, !Z.ltb_lt; nia).
  done.
Qed.

Lemma round_by_scale st u k c : 0 < k → 0 < c → round_by st (u * c) (k * c) = round_by st u k.
Proof. destruct st; [apply round_even_scale | apply round_away_scale]. Qed.

(** Rounding is within half a unit. *)
Lemma round_by_close st u k : 0 < k → Z.abs (2 * (u - k * round_by st u k)) ≤ k.
Proof.
  intros Hk. destruct st; simpl; unfold round_even, round_away.
  - pose proof (Z.div_mod u k ltac:(lia)). pose proof (Z.mod_pos_bound u k Hk).
    destruct (Z.ltb_spec (2 * (u mod k)) k); [lia|].
    destruct (Z.ltb_spec k (2 * (u mod k))); [lia|].
    destruct (Z.even (u / k)); lia.
  - pose proof (Z.div_mod (2 * Z.abs u + k) (2 * k) ltac:(lia)).
    pose proof (Z.mod_pos_bound (2 * Z.abs u + k) (2 * k) ltac:(lia)).
    destruct (Z.sgn_spec u) as [[? ->]|[[? ->]|[? ->]]]; lia.
Qed.

Lemma round_by_exact st u k : 0 < k → round_by st (u * k) k = u.
Proof.
  intros Hk. pose proof (round_by_close st (u * k) k Hk).
  set (r := round_by st (u * k) k) in *. nia.
Qed.

Lemma round_by_abs_le st u k : 2 ≤ k → Z.abs (round_by st u k) ≤ Z.abs u.
Proof.
  intros Hk. pose proof (round_by_close st u k ltac:(lia)) as Hc.
  destruct (decide (u = 0)) as [->|Hu].
  - rewrite <- (Z.mul_0_l k), round_by_exact by lia. lia.
  - set (r := round_by st u k) in *. destruct (decide (r = 0)) as [->|]; [lia|].
    assert (k * Z.abs r ≤ Z.abs u + Z.abs (u - k * r)) by lia. nia.
Qed.

(** Rounding keeps the sign: a non-negative value rounds to a non-negative one. *)
Lemma round_by_nonneg st u k : 0 < k → 0 ≤ u → 0 ≤ round_by st u k.
Proof.
  intros Hk Hu. pose proof (round_by_close st u k Hk).
  set (r := round_by st u k) in *. nia.
Qed.

(** ** A reference implementation *)
Module Ref.

Record rdec := RD { rd_m : Z; rd_s : Z; rd_ok : bool_decide (holds rd_m rd_s) }.

Definition rd_zero : rdec := RD 0 0 I.
Definition rd_one : rdec := RD 1 0 I.

Definition rd_make (m s : Z) : option rdec :=
  match decide (holds m s) with
  | left H => Some (RD m s (bool_decide_pack _ H))
  | right _ => None
  end.

(** The value m·10^-s, for closed examples. *)
Definition of_mantissa (m s : Z) : rdec := default rd_zero (rd_make m s).

Definition rd_units (d : rdec) : Z := rd_m d * 10 ^ (28 - rd_s d).

Definition rd_round (d : rdec) (p : Z) (st : RoundingStrategy) : rdec :=
  if rd_s d <=? p then d
  else default rd_zero (rd_make (round_by st (rd_m d) (10 ^ (rd_s d - p))) p).

Fixpoint rd_strip (n : nat) (m s : Z) : Z * Z :=
  match n with
  | O => (m, s)
  | S n' => if (0 <? s) && (m mod 10 =? 0) then rd_strip n' (m / 10) (s - 1) else (m, s)
  end.

Definition rd_normalize (d : rdec) : rdec :=
  let '(m, s) := rd_strip (Z.to_nat (rd_s d)) (rd_m d) (rd_s d) in
  default rd_zero (rd_make m s).

(** The quotient rounded half to even at the largest scale that holds it. *)
Fixpoint rd_div_at (n : nat) (neg : bool) (num den sa sb : Z) : option rdec :=
  let s := Z.of_nat n in
  let q := round_even (num * 10 ^ (s + sb)) (den * 10 ^ sa) in
  match rd_make (if neg then - q else q) s with
  | Some d => Some d
  | None => match n with
        | O => None
        | S n' => rd_div_at n' neg num den sa sb
        end
  end.

Definition rd_div (a b : rdec) : option rdec :=
  if rd_m b =? 0 then None
  else rd_div_at 28 (xorb (rd_m a <? 0) (rd_m b <? 0))
     (Z.abs (rd_m a)) (Z.abs (rd_m b)) (rd_s a) (rd_s b).

(** Decimal notation: the sign, the integer part, and the places of the scale. *)
Definition rd_display (d : rdec) : string :=
  let m := Z.abs (rd_m d) in
  let k := 10 ^ rd_s d in
  let whole := pretty (Z.to_N (m / k)) in
  let frac := pretty (Z.to_N (m mod k)) in
  let zeros := Nat.iter (Z.to_nat (rd_s d) - String.length frac) (String.append "0") "" in
  String.append (if rd_m d <? 0 then "-" else "")
  (if rd_s d =? 0 then whole else String.append whole (String.append "." (String.append zeros frac))).

#[export] Instance rdec_ops : DecimalOps rdec := {
  mantissa := rd_m;
  scale := rd_s;
  from_i128_with_scale := rd_make;
  try_from_i128_with_scale := rd_make;
  from_usize n := default rd_zero (rd_make n 0);
  checked_div := rd_div;
  round_dp_with_strategy := rd_round;
  normalize := rd_normalize;
  dcompare a b := rd_units a ?= rd_units b;
  display := rd_display;
  DZERO := rd_zero;
  DONE := rd_one;
}.

Lemma rd_make_some m s : holds m s →
  ∃ d, rd_make m s = Some d ∧ rd_m d = m ∧ rd_s d = s.
Proof. intros H. unfold rd_make. case_decide; [by eexists | done]. Qed.

Lemma rd_holds d : holds (rd_m d) (rd_s d).
Proof. exact (bool_decide_unpack _ (rd_ok d)). Qed.

Lemma rd_strip_spec n m s : s = Z.of_nat n → holds m s →
  let '(m', s') := rd_strip n m s in
  holds m' s' ∧ m' * 10 ^ (28 - s') = m * 10 ^ (28 - s) ∧ (s' = 0 ∨ m' mod 10 ≠ 0).
Proof.
  revert m s. induction n as [|n IH]; intros m s Hs Hh; simpl; [naive_solver lia|].
  destruct (Z.ltb_spec 0 s); simpl; [|naive_solver lia].
  destruct (Z.eqb_spec (m mod 10) 0) as [Hm|]; [|naive_solver].
  assert (Hq : m = 10 * (m / 10)) by (pose proof (Z.div_mod m 10); lia).
  specialize (IH (m / 10) (s - 1) ltac:(lia)). destruct (rd_strip _ _ _) as [m' s'].
  destruct IH as (? & Hu & ?); [unfold holds in *; lia|].
  split_and!; [done| |done]. rewrite Hu.
  replace (28 - (s - 1)) with (1 + (28 - s)) by lia.
  rewrite pow10_split by (unfold holds in *; lia).
  transitivity (10 * (m / 10) * 10 ^ (28 - s)); [lia | by rewrite <- Hq].
Qed.

#[export] Instance rdec_laws : DecimalLaws rdec.
Proof.
  split.
  - exact rd_holds.
  - exact rd_make_some.
  - intros m s H. simpl. unfold rd_make. by case_decide.
  - done.
  - intros n Hn. unfold units. simpl. destruct (rd_make_some n 0) as (d & -> & <- & Hs).
    { pose proof (Z.pow_lt_mono_r 2 64 96). split; lia. }
    simpl. by rewrite Hs.
  - done.
  - intros d. simpl. unfold units; simpl. unfold rd_normalize.
    pose proof (rd_holds d) as Hh.
    pose proof (rd_strip_spec (Z.to_nat (rd_s d)) (rd_m d) (rd_s d)
      ltac:(unfold holds in *; lia) Hh) as Hs.
    destruct (rd_strip _ _ _) as [m s]. destruct Hs as (H1 & H2 & _).
    destruct (rd_make_some m s H1) as (d' & -> & <- & <-). done.
  - intros d. simpl. unfold rd_normalize. pose proof (rd_holds d) as Hh.
    pose proof (rd_strip_spec (Z.to_nat (rd_s d)) (rd_m d) (rd_s d)
      ltac:(unfold holds in *; lia) Hh) as Hs.
    destruct (rd_strip _ _ _) as [m s]. destruct Hs as (H1 & _ & H2).
    destruct (rd_make_some m s H1) as (d' & -> & <- & <-). done.
  - intros d p st H. simpl. unfold rd_round.
    destruct (Z.leb_spec (rd_s d) p); [done | simpl in *; lia].
  - intros d p st [H1 H2]. simpl in *. unfold units; simpl. unfold rd_round.
    destruct (Z.leb_spec (rd_s d) p); [lia|].
    pose proof (rd_holds d) as [Hm Hs].
    assert (H10 : 10 ^ 1 ≤ 10 ^ (rd_s d - p)) by (apply Z.pow_le_mono_r; lia).
    destruct (rd_make_some (round_by st (rd_m d) (10 ^ (rd_s d - p))) p) as (d' & -> & E1 & E2).
    { pose proof (round_by_abs_le st (rd_m d) (10 ^ (rd_s d - p))).
      split; lia. }
    simpl. rewrite E1, E2. f_equal.
    replace (28 - p) with ((rd_s d - p) + (28 - rd_s d)) by lia.
    rewrite pow10_split by lia. symmetry. apply round_by_scale; apply pow10_pos; lia.
  - intros a b H. simpl. unfold rd_div. unfold units in H; simpl in H.
    pose proof (rd_holds b) as [_ Hs]. pose proof (pow10_pos (28 - rd_s b) ltac:(lia)).
    destruct (Z.eqb_spec (rd_m b) 0); [reflexivity | nia].
  - unfold units. simpl. lia.
  - unfold units. simpl. lia.
Qed.
End Ref.
