(* ===== verification/Dec.v ===== *)
(** * Exact decimals: [decimal.rs]

    [Dec] and [AuthoredDec] are newtypes around [rust_decimal::Decimal]. Every
    operation either returns the exact result or a [NumericError], except for
    the four named divisions, which round once. The wide integers are
    [bnum]'s [I512] and [U1024]: fixed-width integers, here [Z] with the wrap
    written out, so that exactness includes the absence of overflow. *)

From stdpp Require Import base numbers list sorting gmap.
From Stdlib Require Import ZArith Lia.
From S2P Require Import Prelude RustDecimal.
#[local] Open Scope Z_scope.

(** ** Fixed-width integers *)

Definition wrap_signed (w z : Z) : Z := (z + 2 ^ (w - 1)) mod 2 ^ w - 2 ^ (w - 1).
Definition i512 (z : Z) : Z := wrap_signed 512 z.
Definition u1024 (z : Z) : Z := z mod 2 ^ 1024.

Definition in_i512 (z : Z) : Prop := Z.abs z < 2 ^ 511.

(** [i128]'s checked operations: [None] when the result needs more bits. *)
Definition i128_checked (z : Z) : option Z :=
  if (- 2 ^ 127 <=? z) && (z <? 2 ^ 127) then Some z else None.

Definition MAX_SCALE : Z := 28.
Definition ENVELOPE_MAX_SCALE : Z := 10.
Definition PAYOUT_SCALE : Z := 13.
Definition ENVELOPE_LIMIT : Z := 1000000000000000.

Section types.
Context (D : Type).

(** [Dec] is the decimal itself; [AuthoredDec] wraps one. *)
Record AuthoredDec := Authored { dec : D }.

Inductive NumericOp :=
| OpAdd
| OpSub
| OpMul
| OpDivRatio
| OpMulDivTrunc (divisor : D) (scale : Z)
| OpMulDivRatio (first second divisor : D)
| OpFloorDiv
| OpAllocate (scale : Z).

Inductive NumericErrorKind :=
| Overflow
| Precision
| DivisionByZero
| Negative
| NotWholeUnits.

Record NumericError := mkNumericError {
  err_op : NumericOp;
  err_lhs : D;
  err_rhs : D;
  err_kind : NumericErrorKind;
}.
End types.
Arguments Authored {D} _.
Arguments dec {D} _.
Arguments OpAdd {D}.
Arguments OpSub {D}.
Arguments OpMul {D}.
Arguments OpDivRatio {D}.
Arguments OpMulDivTrunc {D} _ _.
Arguments OpMulDivRatio {D} _ _ _.
Arguments OpFloorDiv {D}.
Arguments OpAllocate {D} _.
Arguments mkNumericError {D} _ _ _ _.
Arguments err_op {D} _.
Arguments err_kind {D} _.

#[export] Instance NumericErrorKind_eq_dec : EqDecision NumericErrorKind.
Proof. solve_decision. Defined.

(** ** Operations *)
Section ops.
Context {D : Type} `{!DecimalOps D}.
Implicit Types a b c d : D.

Definition is_zero (d : D) : bool := mantissa d =? 0.
Definition is_negative (d : D) : bool :=
  match dcompare d DZERO with Lt => true | _ => false end.
Definition dec_ltb a b : bool := match dcompare a b with Lt => true | _ => false end.
Definition dec_leb a b : bool := match dcompare a b with Gt => false | _ => true end.
Definition dec_min a b : D := if dec_leb a b then a else b.
(** [Ord::max]: the second operand when they compare equal. *)
Definition dec_max a b : D := if dec_leb a b then b else a.
(** [==]: by value, whatever the scales. *)
Definition dec_eqb a b : bool := match dcompare a b with Eq => true | _ => false end.

Definition pow10 (n : Z) : Z := i512 (10 ^ n).

Definition fits_96_bits (m : Z) : bool := Z.abs m <? 2 ^ 96.

(** The loop of [fit]: drop a trailing zero while the value does not fit. *)
Fixpoint fit_strip (n : nat) (m s : Z) : Z * Z :=
  match n with
  | O => (m, s)
  | S n' =>
  if (0 <? s) && ((MAX_SCALE <? s) || negb (fits_96_bits m)) && (Z.rem m 10 =? 0)
  then fit_strip n' (Z.quot m 10) (s - 1)
  else (m, s)
  end.

(** [I512::TEN.checked_pow]. *)
Definition checked_pow10 (s : Z) : option Z :=
  if 10 ^ s <? 2 ^ 511 then Some (10 ^ s) else None.

Definition fit (m s : Z) : outcome NumericErrorKind D :=
  let '(m, s) := fit_strip (Z.to_nat s) m s in
  if (s <=? MAX_SCALE) && fits_96_bits m then
  m' ← expect (i128_checked m);
  expect (from_i128_with_scale m' s)
  else if match checked_pow10 s with
      | None => true
      | Some p => fits_96_bits (Z.quot m p)
      end
  then Err Precision
  else Err Overflow.

Definition wide (d : D) : Z * Z := (mantissa d, scale d).

(** [10i128.checked_pow(n)], then a checked multiplication. *)
Definition i128_scale (m n : Z) : option Z :=
  p ← i128_checked (10 ^ n); i128_checked (m * p).

Definition fast_add a b (negate_b : bool) : option D :=
  let s := Z.max (scale a) (scale b) in
  ma ← i128_scale (mantissa a) (s - scale a);
  mb ← i128_scale (mantissa b) (s - scale b);
  mb ← (if negate_b then i128_checked (- mb) else Some mb);
  m ← i128_checked (ma + mb);
  try_from_i128_with_scale m s.

Definition fast_mul a b : option D :=
  m ← i128_checked (mantissa a * mantissa b);
  try_from_i128_with_scale m (scale a + scale b).

Definition error a (op : NumericOp D) (rhs : D) (kind : NumericErrorKind) : NumericError D :=
  mkNumericError op a rhs kind.

Definition wide_add a b (op : NumericOp D) : outcome (NumericError D) D :=
  let '(ma, sa) := wide a in
  let '(mb, sb) := wide b in
  let s := Z.max sa sb in
  let x := i512 (ma * pow10 (s - sa)) in
  let y := i512 (mb * pow10 (s - sb)) in
  let m := match op with OpSub => i512 (x - y) | _ => i512 (x + y) end in
  map_err (error a op b) (fit m s).

Definition try_add a b : outcome (NumericError D) D :=
  match fast_add a b false with
  | Some sum => Ok sum
  | None => wide_add a b OpAdd
  end.

Definition try_sub a b : outcome (NumericError D) D :=
  match fast_add a b true with
  | Some diff => Ok diff
  | None => wide_add a b OpSub
  end.

Definition try_mul a b : outcome (NumericError D) D :=
  match fast_mul a b with
  | Some product => Ok product
  | None =>
  let '(ma, sa) := wide a in
  let '(mb, sb) := wide b in
  map_err (error a OpMul b) (fit (i512 (ma * mb)) (sa + sb))
  end.

(** [values.into_iter().try_fold(Dec::ZERO, Dec::try_add)]. *)
Definition sum (values : list D) : outcome (NumericError D) D :=
  fold_outcome try_add DZERO values.

(** A value at a common scale, in wide integers. *)
Definition at_common (common : Z) (x : D) : Z :=
  let '(m, s) := wide x in i512 (m * pow10 (common - s)).

Definition max_scale (l : list D) (init : Z) : Z :=
  foldr (λ d acc, Z.max (scale d) acc) init l.

Definition sum_exceeds (values : list D) (bound : D) : bool :=
  let common := max_scale values (scale bound) in
  let total := foldl (λ t v, i512 (t + at_common common v)) 0 values in
  at_common common bound <? total.

Definition div_ratio a b : outcome (NumericError D) D :=
  if is_zero b then Err (error a OpDivRatio b DivisionByZero)
  else ok_or (checked_div a b) (error a OpDivRatio b Overflow).

Definition mul_div_trunc a b c (sc : Z) : outcome (NumericError D) D :=
  let op := OpMulDivTrunc c sc in
  if is_zero c then Err (error a op b DivisionByZero)
  else if MAX_SCALE <? sc then Err (error a op b Precision)
  else
  let '(ma, sa) := wide a in
  let '(mb, sb) := wide b in
  let '(mc, s_c) := wide c in
  let shift := (s_c + sc) - (sa + sb) in
  let '(num, den) :=
  if 0 <=? shift
  then (i512 (i512 (ma * mb) * pow10 shift), mc)
  else (i512 (ma * mb), i512 (mc * pow10 (Z.abs shift))) in
  map_err (error a op b) (fit (Z.quot num den) sc).

(** [Dec::round_minor]: ties away from zero. *)
Definition round_minor d (places : Z) : D := round_dp_with_strategy d places MidpointAwayFromZero.

Definition floor_div a b : outcome (NumericError D) D :=
  if is_zero b then Err (error a OpFloorDiv b DivisionByZero)
  else
  let '(ma, sa) := wide a in
  let '(mb, sb) := wide b in
  let '(num, den) :=
  if sa <=? sb
  then (i512 (ma * pow10 (sb - sa)), mb)
  else (ma, i512 (mb * pow10 (sa - sb))) in
  let q := Z.quot num den in
  let q := if negb (Z.rem num den =? 0) && negb (Bool.eqb (num <? 0) (den <? 0))
         then i512 (q - 1) else q in
  map_err (error a OpFloorDiv b) (fit q 0).
End ops.

(** ** Exactness of [fit] *)

Lemma i512_id z : in_i512 z → i512 z = z.
Proof.
  unfold in_i512, i512, wrap_signed. intros H.
  replace (512 - 1) with 511 by lia.
  rewrite Z.mod_small; [lia|].
  assert (2 ^ 512 = 2 * 2 ^ 511) by reflexivity. lia.
Qed.

(** The integer [m] at scale [s] is a value a [Decimal] can hold. *)
Definition representable (m s : Z) : Prop :=
  ∃ m' s', holds m' s' ∧ m * 10 ^ s' = m' * 10 ^ s.

Lemma fit_strip_spec n m s : s = Z.of_nat n →
  let '(m', s') := fit_strip n m s in
  0 ≤ s' ≤ s ∧ m = m' * 10 ^ (s - s') ∧
  (0 < s' → MAX_SCALE < s' ∨ fits_96_bits m' = false → Z.rem m' 10 ≠ 0).
Proof.
  revert m s. induction n as [|n IH]; intros m s Hs; simpl.
  { rewrite Z.sub_diag. lia. }
  destruct (Z.ltb_spec 0 s); [|lia]. simpl.
  destruct ((MAX_SCALE <? s) || negb (fits_96_bits m)) eqn:Hc; simpl.
  2: { rewrite Z.sub_diag. split_and!; try lia. intros _.
       apply orb_false_iff in Hc as [?%Z.ltb_ge ?%negb_false_iff]. intros [|]; [lia|congruence]. }
  destruct (Z.eqb_spec (Z.rem m 10) 0) as [Hm|]; [|rewrite Z.sub_diag; lia].
  assert (Hq : m = 10 * Z.quot m 10) by (pose proof (Z.quot_rem' m 10); lia).
  specialize (IH (Z.quot m 10) (s - 1) ltac:(lia)).
  destruct (fit_strip _ _ _) as [m' s']. destruct IH as (? & Hu & ?).
  split_and!; [lia|lia| |done].
  replace (s - s') with (1 + (s - 1 - s')) by lia.
  rewrite pow10_split by lia. lia.
Qed.

(** A stripped value that does not fit has no smaller representation. *)
Lemma strip_not_representable m s : 0 ≤ s →
  ¬ (s ≤ MAX_SCALE ∧ fits_96_bits m = true) →
  (0 < s → MAX_SCALE < s ∨ fits_96_bits m = false → Z.rem m 10 ≠ 0) →
  ¬ representable m s.
Proof.
  unfold MAX_SCALE, fits_96_bits. intros Hs Hno Hrem (m' & s' & [Hm' Hs'] & Heq).
  destruct (decide (s ≤ s')) as [Hle|Hgt].
  - replace s' with (s + (s' - s)) in Heq by lia. rewrite pow10_split in Heq by lia.
    pose proof (pow10_pos s ltac:(lia)). pose proof (pow10_pos (s' - s) ltac:(lia)).
    assert (m' = m * 10 ^ (s' - s)) by nia.
    apply Hno. split; [lia|]. apply Z.ltb_lt. nia.
  - replace s with (s' + (1 + (s - s' - 1))) in Heq by lia.
    rewrite !pow10_split in Heq by lia. pose proof (pow10_pos s' ltac:(lia)).
    assert (Hm : m = (m' * 10 ^ (s - s' - 1)) * 10) by nia.
    apply Hrem; [lia| |rewrite Hm; apply Z.rem_mul; lia].
    destruct (decide (28 < s)); [by left|right].
    destruct (Z.abs m <? 2 ^ 96) eqn:E; [|done]. exfalso. apply Hno. split; [lia|done].
Qed.

Lemma representable_shift m s k : 0 ≤ s → 0 ≤ k →
  representable (m * 10 ^ k) (s + k) ↔ representable m s.
Proof.
  intros. unfold representable. rewrite pow10_split by lia.
  pose proof (pow10_pos k ltac:(lia)).
  split; intros (m' & s' & ? & Heq); exists m', s'; (split; [done|]); nia.
Qed.

Section fit_lemmas.
Context {D : Type} `{!DecimalOps D} `{!DecimalLaws D}.
Implicit Types d : D.

Lemma i128_checked_some z : Z.abs z < 2 ^ 127 → i128_checked z = Some z.
Proof.
  intros H. unfold i128_checked.
  destruct (Z.leb_spec (- 2 ^ 127) z), (Z.ltb_spec z (2 ^ 127)); simpl; auto; lia.
Qed.

Lemma i128_checked_inv z z' : i128_checked z = Some z' → z' = z.
Proof. unfold i128_checked. destruct (_ && _); congruence. Qed.

Lemma fit_ok m s : 0 ≤ s → representable m s →
  ∃ d : D, fit m s = Ok d ∧ mantissa d * 10 ^ s = m * 10 ^ scale d.
Proof.
  intros Hs Hr. unfold fit.
  pose proof (fit_strip_spec (Z.to_nat s) m s ltac:(lia)) as Hf.
  destruct (fit_strip _ _ _) as [m' s']. destruct Hf as (Hs' & Hm & Hstop).
  destruct ((s' <=? MAX_SCALE) && fits_96_bits m') eqn:E.
  - apply andb_true_iff in E as [E1%Z.leb_le E2]. unfold MAX_SCALE, fits_96_bits in *.
    apply Z.ltb_lt in E2.
    rewrite i128_checked_some by (pose proof (Z.pow_lt_mono_r 2 96 127); lia). simpl.
    rewrite from_is_try_from.
    destruct (try_from_holds (D := D) m' s') as (d & -> & <- & <-); [split; lia|].
    exists d. split; [done|]. rewrite Hm. replace s with (s - scale d + scale d) at 1 by lia.
    rewrite pow10_split by lia. lia.
  - exfalso. eapply (strip_not_representable m' s'); [lia| |done|].
    + intros [E1 E2]. apply andb_false_iff in E as [E%Z.leb_gt|E]; [lia|congruence].
    + apply (representable_shift m' s' (s - s')); [lia..|].
      rewrite <- Hm. by replace (s' + (s - s')) with s by lia.
Qed.

Lemma fit_err m s : 0 ≤ s → Z.abs m < 2 ^ 511 → ¬ representable m s →
  @fit D _ m s = Err (if fits_96_bits (Z.quot m (10 ^ s)) then Precision else Overflow).
Proof.
  intros Hs Hm511 Hr. unfold fit.
  pose proof (fit_strip_spec (Z.to_nat s) m s ltac:(lia)) as Hf.
  destruct (fit_strip _ _ _) as [m' s']. destruct Hf as (Hs' & Hm & Hstop).
  pose proof (pow10_pos s' ltac:(lia)). pose proof (pow10_pos (s - s') ltac:(lia)).
  assert (Hq : Z.quot m (10 ^ s) = Z.quot m' (10 ^ s')).
  { replace s with (s' + (s - s')) by lia. rewrite pow10_split, Hm by lia.
    apply Z.quot_mul_cancel_r; lia. }
  destruct ((s' <=? MAX_SCALE) && fits_96_bits m') eqn:E.
  - exfalso. apply Hr. apply andb_true_iff in E as [E1%Z.leb_le E2%Z.ltb_lt].
    exists m', s'. split; [split; unfold MAX_SCALE in *; lia|].
    rewrite Hm. replace s with (s - s' + s') at 2 by lia. rewrite pow10_split by lia. lia.
  - rewrite Hq. unfold checked_pow10. destruct (Z.ltb_spec (10 ^ s') (2 ^ 511)).
    + destruct (fits_96_bits (Z.quot m' (10 ^ s'))); reflexivity.
    + assert (Hz : Z.quot m' (10 ^ s') = 0).
      { apply Z.quot_small_iff; [lia|]. rewrite Z.abs_eq with (n := 10 ^ s') by lia.
        assert (Z.abs m' ≤ Z.abs m) by (rewrite Hm, Z.abs_mul; nia). lia. }
      by rewrite Hz.
Qed.

(** [fit] decides representability. *)
Lemma representable_em m s : 0 ≤ s → representable m s ∨ ¬ representable m s.
Proof.
  intros Hs. pose proof (fit_strip_spec (Z.to_nat s) m s ltac:(lia)) as Hf.
  destruct (fit_strip _ _ _) as [m' s']. destruct Hf as (Hs' & Hm & Hstop).
  replace s with (s' + (s - s')) by lia. rewrite Hm, representable_shift by lia.
  destruct (decide (s' ≤ MAX_SCALE ∧ fits_96_bits m' = true)) as [[E1 E2]|]; [left|right].
  - exists m', s'. split; [|done]. apply Z.ltb_lt in E2. split; unfold MAX_SCALE in *; lia.
  - apply strip_not_representable; auto; lia.
Qed.

Lemma fit_inv m s d : 0 ≤ s → Z.abs m < 2 ^ 511 →
  fit m s = Ok d → mantissa d * 10 ^ s = m * 10 ^ scale d.
Proof.
  intros Hs Hm Hf. destruct (representable_em m s Hs) as [Hr|Hr].
  - destruct (fit_ok m s Hs Hr) as (d' & ? & ?). congruence.
  - rewrite (fit_err m s Hs Hm Hr) in Hf. done.
Qed.
End fit_lemmas.

(** ** Addition, subtraction and multiplication are exact or refused *)
Section exact_ops.
Context {D : Type} `{!DecimalOps D} `{!DecimalLaws D}.
Implicit Types a b c d : D.

Lemma scale_range d : 0 ≤ scale d ≤ 28.
Proof. apply decimal_holds. Qed.

Lemma mantissa_range d : Z.abs (mantissa d) < 2 ^ 96.
Proof. apply decimal_holds. Qed.

Lemma pow10_scale_pos d : 0 < 10 ^ scale d.
Proof. apply pow10_pos. pose proof (scale_range d). lia. Qed.

Lemma pow10_unscale_pos d : 0 < 10 ^ (28 - scale d).
Proof. apply pow10_pos. pose proof (scale_range d). lia. Qed.

Lemma pow10_le_28 n : 0 ≤ n ≤ 28 → 0 < 10 ^ n < 2 ^ 94.
Proof.
  intros. split; [apply pow10_pos; lia|].
  apply Z.le_lt_trans with (10 ^ 28); [apply Z.pow_le_mono_r; lia | reflexivity].
Qed.

Lemma pow10_le_150 n : 0 ≤ n ≤ 150 → 0 < 10 ^ n < 2 ^ 500.
Proof.
  intros. split; [apply pow10_pos; lia|].
  apply Z.le_lt_trans with (10 ^ 150); [apply Z.pow_le_mono_r; lia | reflexivity].
Qed.

Lemma pow10_id n : 0 ≤ n ≤ 150 → pow10 n = 10 ^ n.
Proof.
  intros H. unfold pow10. apply i512_id. unfold in_i512.
  pose proof (pow10_le_150 n H). assert (2 ^ 500 < 2 ^ 511) by reflexivity. lia.
Qed.

Lemma abs_mul_lt x y p q : Z.abs x < p → Z.abs y < q → Z.abs (x * y) < p * q.
Proof. intros. rewrite Z.abs_mul. nia. Qed.

(** A coefficient moved to a larger scale, in range for the wide integers. *)
Lemma scaled_range d k : 0 ≤ k ≤ 28 → Z.abs (mantissa d * 10 ^ k) < 2 ^ 190.
Proof.
  intros Hk. pose proof (pow10_le_28 k Hk). pose proof (mantissa_range d).
  change (2 ^ 190) with (2 ^ 96 * 2 ^ 94). apply abs_mul_lt; lia.
Qed.

Lemma scaled_range_at d s : scale d ≤ s ≤ 28 →
  Z.abs (mantissa d * 10 ^ (s - scale d)) < 2 ^ 190.
Proof. intros. apply scaled_range. pose proof (scale_range d). lia. Qed.

Lemma at_scale_id d k : 0 ≤ k ≤ 28 → i512 (mantissa d * pow10 k) = mantissa d * 10 ^ k.
Proof.
  intros Hk. rewrite pow10_id by lia. apply i512_id. unfold in_i512.
  pose proof (scaled_range d k Hk). assert (2 ^ 190 < 2 ^ 511) by reflexivity. lia.
Qed.

Lemma units_at d s : scale d ≤ s ≤ 28 →
  mantissa d * 10 ^ (s - scale d) * 10 ^ (28 - s) = units d.
Proof.
  intros. pose proof (scale_range d). unfold units.
  replace (28 - scale d) with ((s - scale d) + (28 - s)) by lia.
  rewrite pow10_split by lia. lia.
Qed.

Lemma units_scale d : units d * 10 ^ scale d = mantissa d * 10 ^ 28.
Proof.
  pose proof (scale_range d). unfold units.
  rewrite <- Z.mul_assoc, <- pow10_split by lia. do 2 f_equal. lia.
Qed.

Lemma cross_mul x y z p q r : p ≠ 0 → x * p = y * q → y * r = z * p → x * r = z * q.
Proof.
  intros Hp H1 H2. apply (Z.mul_cancel_r _ _ p Hp).
  replace (x * r * p) with (x * p * r) by ring. rewrite H1.
  replace (y * q * r) with (y * r * q) by ring. rewrite H2. ring.
Qed.

Lemma fit_units m s d : 0 ≤ s → Z.abs m < 2 ^ 511 →
  fit m s = Ok d → units d * 10 ^ s = m * 10 ^ 28.
Proof.
  intros Hs Hm Hf. pose proof (fit_inv m s d Hs Hm Hf) as Heq.
  pose proof (units_scale d). pose proof (scale_range d).
  pose proof (pow10_scale_pos d). eapply cross_mul; eauto; lia.
Qed.

(** The specification shared by the exact operations: [r] is [u]·10^-[s]
    exactly, or an error of the right kind because no [Decimal] holds it. *)
Definition exact_or_refused (r : outcome (NumericError D) D)
  (op : NumericOp D) (a b : D) (u s : Z) : Prop :=
  match r with
  | Ok c => units c * 10 ^ s = u * 10 ^ 28
  | Err e =>
  ¬ representable u s ∧
  e = mkNumericError op a b
        (if fits_96_bits (Z.quot u (10 ^ s)) then Precision else Overflow)
  | Panic | Hang => False
  end.

Lemma fit_exact m s op a b : 0 ≤ s → Z.abs m < 2 ^ 511 →
  exact_or_refused (map_err (error a op b) (fit m s)) op a b m s.
Proof.
  intros Hs Hm. destruct (representable_em m s Hs) as [Hr|Hr].
  - destruct (fit_ok (D := D) m s Hs Hr) as (d & Hd & _). rewrite Hd. simpl.
    by apply fit_units.
  - rewrite fit_err by done. simpl. by split.
Qed.

(** Moving the exact value to scale 28, the scale [units] is stated at. *)
Lemma exact_shift r op a b m s : 0 ≤ s ≤ 28 →
  exact_or_refused r op a b m s → exact_or_refused r op a b (m * 10 ^ (28 - s)) 28.
Proof.
  intros Hs. pose proof (pow10_pos (28 - s) ltac:(lia)). pose proof (pow10_pos s ltac:(lia)).
  assert (Hp : 10 ^ 28 = 10 ^ s * 10 ^ (28 - s)).
  { rewrite <- pow10_split by lia. f_equal; lia. }
  destruct r as [c|e| |]; simpl; auto.
  - rewrite Hp. nia.
  - intros [Hr ->]. split.
    + rewrite <- (representable_shift m s (28 - s)) in Hr by lia.
      by replace (s + (28 - s)) with 28 in Hr by lia.
    + do 2 f_equal. rewrite Hp, Z.quot_mul_cancel_r by lia. done.
Qed.

Lemma i128_scale_inv m n m' : i128_scale m n = Some m' → m' = m * 10 ^ n.
Proof.
  unfold i128_scale. intros (p & Hp & Hm)%bind_Some.
  apply i128_checked_inv in Hp as ->. by apply i128_checked_inv in Hm.
Qed.

Lemma try_from_units m s d : try_from_i128_with_scale m s = Some d →
  units d * 10 ^ s = m * 10 ^ 28.
Proof.
  intros Hd. destruct (decide (holds m s)) as [Hh|Hh].
  - destruct (try_from_holds (D := D) m s Hh) as (d' & Hd' & <- & <-).
    simplify_eq. apply units_scale.
  - rewrite try_from_fails in Hd by done. done.
Qed.

Lemma fast_add_exact a b (neg : bool) c : fast_add a b neg = Some c →
  units c = units a + (if neg then - units b else units b).
Proof.
  unfold fast_add. set (s := Z.max (scale a) (scale b)).
  intros (ma & Ha & (mb & Hb & (mb' & Hn & (m & Hm & Hc)%bind_Some)%bind_Some)%bind_Some)%bind_Some.
  apply i128_scale_inv in Ha, Hb. apply i128_checked_inv in Hm.
  apply try_from_units in Hc.
  pose proof (scale_range a). pose proof (scale_range b).
  pose proof (units_at a s ltac:(lia)). pose proof (units_at b s ltac:(lia)).
  assert (Hp : 10 ^ 28 = 10 ^ s * 10 ^ (28 - s)).
  { rewrite <- pow10_split by lia. f_equal; lia. }
  assert (mb' = if neg then - mb else mb) by (destruct neg; [by apply i128_checked_inv in Hn | congruence]).
  pose proof (pow10_pos s ltac:(lia)). rewrite Hp in Hc.
  destruct neg; subst; nia.
Qed.

Lemma wide_add_exact a b (op : NumericOp D) (neg : bool) :
  op = (if neg then OpSub else OpAdd) →
  exact_or_refused (wide_add a b op) op a b
  (units a + (if neg then - units b else units b)) 28.
Proof.
  intros Hop. unfold wide_add, wide. set (s := Z.max (scale a) (scale b)).
  pose proof (scale_range a). pose proof (scale_range b).
  rewrite !at_scale_id by lia.
  pose proof (scaled_range_at a s ltac:(lia)) as Hra.
  pose proof (scaled_range_at b s ltac:(lia)) as Hrb.
  assert (Hbig : 2 * 2 ^ 190 < 2 ^ 511) by reflexivity.
  rewrite <- (units_at a s), <- (units_at b s) by lia.
  set (x := mantissa a * 10 ^ (s - scale a)) in *.
  set (y := mantissa b * 10 ^ (s - scale b)) in *.
  replace (x * _ + _) with ((x + (if neg then - y else y)) * 10 ^ (28 - s))
  by (destruct neg; ring).
  apply exact_shift; [lia|]. subst op.
  destruct neg; rewrite i512_id by (unfold in_i512; lia).
  - rewrite Z.add_opp_r. apply fit_exact; lia.
  - apply fit_exact; lia.
Qed.
End exact_ops.

(** ** The specifications of the arithmetic *)
Section arithmetic.
Context {D : Type} `{!DecimalOps D} `{!DecimalLaws D}.
Implicit Types a b c d : D.

Lemma exact_op_ok c op a b u : units c = u → exact_or_refused (Ok c) op a b u 28.
Proof. intros <-. done. Qed.

Lemma try_add_spec a b :
  exact_or_refused (try_add a b) OpAdd a b (units a + units b) 28.
Proof.
  unfold try_add. destruct (fast_add a b false) eqn:Hf.
  - apply exact_op_ok. by apply fast_add_exact in Hf.
  - by apply (wide_add_exact a b OpAdd false).
Qed.

(** [Dec::try_add] never rounds: it returns the exact sum, or refuses
    because no [Decimal] holds it, with [Precision] when the integer part
    still fits 96 bits and [Overflow] otherwise. It never panics. *)
Theorem try_add_exact a b :
  exact_or_refused (try_add a b) OpAdd a b (units a + units b) 28.
Proof. exact (try_add_spec a b). Qed.

(** [Dec::try_sub] is exact or refused, like [try_add]. *)
Theorem try_sub_exact a b :
  exact_or_refused (try_sub a b) OpSub a b (units a - units b) 28.
Proof.
  unfold try_sub. rewrite <- Z.add_opp_r. destruct (fast_add a b true) eqn:Hf.
  - apply exact_op_ok. by apply fast_add_exact in Hf.
  - by apply (wide_add_exact a b OpSub true).
Qed.

Lemma product_range a b : Z.abs (mantissa a * mantissa b) < 2 ^ 192.
Proof.
  change (2 ^ 192) with (2 ^ 96 * 2 ^ 96).
  apply abs_mul_lt; apply mantissa_range.
Qed.

Lemma try_mul_at_scale a b :
  exact_or_refused (try_mul a b) OpMul a b (mantissa a * mantissa b) (scale a + scale b).
Proof.
  pose proof (scale_range a). pose proof (scale_range b). unfold try_mul.
  destruct (fast_mul a b) as [c|] eqn:Hf.
  - unfold fast_mul in Hf. apply bind_Some in Hf as (m & Hm & Hc).
    apply i128_checked_inv in Hm as ->. by apply try_from_units in Hc.
  - unfold wide. pose proof (product_range a b).
    assert (2 ^ 192 < 2 ^ 511) by reflexivity.
    rewrite i512_id by (unfold in_i512; lia). apply fit_exact; lia.
Qed.

Lemma units_product a b :
  units a * units b * 10 ^ (scale a + scale b) = mantissa a * mantissa b * 10 ^ 56.
Proof.
  pose proof (scale_range a). pose proof (scale_range b).
  rewrite pow10_split by lia. replace (10 ^ 56) with (10 ^ 28 * 10 ^ 28) by reflexivity.
  transitivity ((units a * 10 ^ scale a) * (units b * 10 ^ scale b)); [ring|].
  rewrite !units_scale. ring.
Qed.

Lemma try_mul_spec a b :
  match try_mul a b with
  | Ok c => units c * 10 ^ 28 = units a * units b
  | Err e => ¬ representable (mantissa a * mantissa b) (scale a + scale b) ∧
         (err_kind e = Precision ∨ err_kind e = Overflow)
  | Panic | Hang => False
  end.
Proof.
  pose proof (try_mul_at_scale a b) as H. unfold exact_or_refused in H.
  destruct (try_mul a b) as [c|e| |]; try done.
  - pose proof (scale_range a). pose proof (scale_range b).
    pose proof (pow10_pos (scale a + scale b)) as Hp. specialize (Hp ltac:(lia)).
    apply (Z.mul_cancel_r _ _ (10 ^ (scale a + scale b))); [lia|].
    rewrite units_product. replace (10 ^ 56) with (10 ^ 28 * 10 ^ 28) by reflexivity.
    replace (units c * 10 ^ 28 * _) with (units c * 10 ^ (scale a + scale b) * 10 ^ 28) by ring.
    rewrite H. ring.
  - destruct H as [? ->]. split; [done|]. simpl. destruct (fits_96_bits _); auto.
Qed.

(** [Dec::try_mul] returns the exact product or refuses: on success the
    result's value times 10^28 is the product of the operands' values, and a
    refusal means no [Decimal] holds that product. *)
Theorem try_mul_exact a b :
  match try_mul a b with
  | Ok c => units c * 10 ^ 28 = units a * units b
  | Err e => ¬ representable (mantissa a * mantissa b) (scale a + scale b) ∧
         (err_kind e = Precision ∨ err_kind e = Overflow)
  | Panic | Hang => False
  end.
Proof. exact (try_mul_spec a b). Qed.

(** Totals of exact values. *)
Definition total_units (l : list D) : Z := foldr (λ d t, units d + t) 0 l.

Lemma total_units_app l k : total_units (l ++ k) = total_units l + total_units k.
Proof. induction l; simpl; lia. Qed.

Lemma sum_from a l :
  match fold_outcome try_add a l with
  | Ok c => units c = units a + total_units l
  | Err _ => ∃ pre post, l = pre ++ post ∧ ¬ representable (units a + total_units pre) 28
  | Panic | Hang => False
  end.
Proof.
  revert a. induction l as [|x l IH]; intros a; simpl; [lia|].
  pose proof (try_add_spec a x) as H. unfold exact_or_refused in H.
  destruct (try_add a x) as [s|e| |]; simpl;
  [|exists [x], l; simpl; rewrite Z.add_0_r; naive_solver|done|done].
  assert (Hs : units s = units a + units x) by lia.
  specialize (IH s). destruct (fold_outcome _ s l) as [c|e| |]; [lia| |done|done].
  destruct IH as (pre & post & -> & ?). exists (x :: pre), post. split; [done|]. simpl.
  by replace (units a + (units x + total_units pre)) with (units s + total_units pre) by lia.
Qed.

Lemma sum_spec l :
  match sum l with
  | Ok c => units c = total_units l
  | Err _ => ∃ pre post, l = pre ++ post ∧ ¬ representable (total_units pre) 28
  | Panic | Hang => False
  end.
Proof.
  pose proof (sum_from DZERO l) as H. unfold sum. rewrite zero_units in H. exact H.
Qed.

(** [Dec::sum] returns the exact total of its inputs, and refuses only
    when some prefix of them has a total no [Decimal] holds. *)
Theorem sum_exact l :
  match sum l with
  | Ok c => units c = total_units l
  | Err _ => ∃ pre post, l = pre ++ post ∧ ¬ representable (total_units pre) 28
  | Panic | Hang => False
  end.
Proof. exact (sum_spec l). Qed.

Lemma quot_adjust_floor num den : den ≠ 0 →
  (if negb (Z.rem num den =? 0) && negb (Bool.eqb (num <? 0) (den <? 0))
  then Z.quot num den - 1 else Z.quot num den) = num / den.
Proof.
  intros Hd. pose proof (Z.quot_rem' num den) as Hqr.
  pose proof (Z.rem_bound_abs num den Hd) as Hb.
  pose proof (Z.rem_sign_nz num den Hd) as Hsg.
  destruct (Z.eqb_spec (Z.rem num den) 0) as [Hz|Hz]; simpl.
  - apply Z.div_unique_exact; lia.
  - specialize (Hsg Hz).
    destruct (Z.ltb_spec num 0), (Z.ltb_spec den 0); simpl;
      [apply Z.div_unique with (Z.rem num den) | apply Z.div_unique with (Z.rem num den + den)
      | apply Z.div_unique with (Z.rem num den + den) | apply Z.div_unique with (Z.rem num den)]; lia.
Qed.
End arithmetic.

(** ** Comparisons and quotients in wide integers *)
Section wide_ops.
Context {D : Type} `{!DecimalOps D} `{!DecimalLaws D}.
Implicit Types a b c d : D.

Lemma at_common_exact common d : scale d ≤ common ≤ 28 →
  at_common common d = mantissa d * 10 ^ (common - scale d) ∧
  Z.abs (at_common common d) < 2 ^ 190 ∧
  at_common common d * 10 ^ (28 - common) = units d.
Proof.
  intros H. pose proof (scale_range d). unfold at_common, wide.
  rewrite at_scale_id by lia. split_and!; [done | by apply scaled_range_at | by apply units_at].
Qed.

Lemma max_scale_bounds l init : 0 ≤ init ≤ 28 →
  init ≤ max_scale l init ≤ 28 ∧ ∀ d, d ∈ l → scale d ≤ max_scale l init.
Proof.
  intros Hi. induction l as [|x l [IH1 IH2]]; simpl; [split; [lia|set_solver]|].
  pose proof (scale_range x). split; [lia|].
  intros d [->|Hd]%elem_of_cons; [lia|]. specialize (IH2 d Hd). lia.
Qed.

(** The wide accumulator of a list at a common scale is its exact total. *)
Lemma fold_at_common common l t : common ≤ 28 →
  (∀ d, d ∈ l → scale d ≤ common) →
  Z.abs t + Z.of_nat (length l) * 2 ^ 190 < 2 ^ 511 →
  foldl (λ t v, i512 (t + at_common common v)) t l * 10 ^ (28 - common)
  = t * 10 ^ (28 - common) + total_units l ∧
  Z.abs (foldl (λ t v, i512 (t + at_common common v)) t l)
  ≤ Z.abs t + Z.of_nat (length l) * 2 ^ 190.
Proof.
  intros Hc. revert t. induction l as [|x l IH]; intros t Hl Hb; simpl; [lia|].
  destruct (at_common_exact common x) as (_ & Hx & Hu); [split; [set_solver|lia]|].
  simpl in Hb. rewrite Nat2Z.inj_succ in Hb |- *.
  rewrite i512_id by (unfold in_i512; lia).
  destruct (IH (t + at_common common x)) as [IH1 IH2]; [set_solver|lia|].
  rewrite IH1. split; [rewrite <- Hu; ring | lia].
Qed.

(** [Dec::sum_exceeds] compares the exact sum with the bound: neither the
    common-scale coefficients nor their running total overflow the 512-bit
    accumulator, for any list a [Vec] can hold. *)
Theorem sum_exceeds_exact values bound :
  Z.of_nat (length values) < 2 ^ 64 →
  sum_exceeds values bound = (units bound <? total_units values).
Proof.
  intros Hlen. unfold sum_exceeds. pose proof (scale_range bound) as Hb.
  destruct (max_scale_bounds values (scale bound) Hb) as [Hc Hv].
  set (common := max_scale values (scale bound)) in *.
  assert (2 ^ 64 * 2 ^ 190 < 2 ^ 511) by reflexivity.
  destruct (fold_at_common common values 0) as [Hf _]; [lia|done|lia|].
  destruct (at_common_exact common bound) as (_ & _ & Hu); [lia|].
  pose proof (pow10_pos (28 - common) ltac:(lia)).
  rewrite Z.mul_0_l, Z.add_0_l in Hf. rewrite <- Hf, <- Hu.
  set (t := foldl _ 0 values). set (b := at_common common bound).
  apply eq_bool_prop_intro; rewrite !Is_true_true, !Z.ltb_lt. nia.
Qed.

(** Comparisons are those of the values. *)
Lemma dec_leb_units a b : dec_leb a b = (units a <=? units b).
Proof. unfold dec_leb, Z.leb. by rewrite compare_units. Qed.

Lemma dec_ltb_units a b : dec_ltb a b = (units a <? units b).
Proof. unfold dec_ltb, Z.ltb. by rewrite compare_units. Qed.

Lemma dec_eqb_units a b : dec_eqb a b = (units a =? units b).
Proof. unfold dec_eqb. rewrite compare_units. destruct (Z.compare_spec (units a) (units b)); lia. Qed.

Lemma dec_min_units a b : units (dec_min a b) = Z.min (units a) (units b).
Proof. unfold dec_min. rewrite dec_leb_units. destruct (Z.leb_spec (units a) (units b)); lia. Qed.

Lemma dec_max_units a b : units (dec_max a b) = Z.max (units a) (units b).
Proof. unfold dec_max. rewrite dec_leb_units. destruct (Z.leb_spec (units a) (units b)); lia. Qed.

Lemma is_zero_units d : is_zero d = true ↔ units d = 0.
Proof.
  unfold is_zero, units. pose proof (pow10_unscale_pos d). rewrite Z.eqb_eq. nia.
Qed.

Lemma nonzero_units d : units d ≠ 0 → is_zero d = false ∧ mantissa d ≠ 0.
Proof.
  intros H. split; [|unfold units in H; nia].
  destruct (is_zero d) eqn:E; [|done]. by apply is_zero_units in E.
Qed.

(** A quotient of two values is the quotient of the coefficients once both
    are at one scale: [k] extra places move between numerator and divisor. *)
Lemma quot_balance x y p q p' q' : 0 < p → 0 < q → 0 < p' → 0 < q' →
  p * q' = p' * q → y ≠ 0 → Z.quot (x * p) (y * q) = Z.quot (x * p') (y * q').
Proof.
  intros Hp Hq Hp' Hq' Heq Hy.
  rewrite <- (Z.quot_mul_cancel_r (x * p) (y * q) q') by lia.
  rewrite <- (Z.quot_mul_cancel_r (x * p') (y * q') q) by lia.
  f_equal; [transitivity (x * (p * q')); [ring|rewrite Heq; ring] | ring].
Qed.

Lemma abs_quot_le num den : den ≠ 0 → Z.abs (Z.quot num den) ≤ Z.abs num.
Proof.
  intros Hd. rewrite <- Z.quot_abs by done.
  apply Z.quot_le_upper_bound; [lia|]. pose proof (Z.abs_nonneg num). nia.
Qed.

Lemma pow10_le_84 k : 0 ≤ k ≤ 84 → 0 < 10 ^ k < 2 ^ 300.
Proof.
  intros Hk. split; [apply pow10_pos; lia|].
  apply Z.le_lt_trans with (10 ^ 84); [apply Z.pow_le_mono_r; lia | reflexivity].
Qed.

(** Multiplying by a power of ten stays in the wide range. *)
Lemma wide_shift_id x k : Z.abs x < 2 ^ 192 → 0 ≤ k ≤ 84 →
  i512 (x * pow10 k) = x * 10 ^ k ∧ Z.abs (x * 10 ^ k) < 2 ^ 511.
Proof.
  intros Hx Hk. pose proof (pow10_le_84 k Hk). rewrite pow10_id by lia.
  assert (2 ^ 192 * 2 ^ 300 < 2 ^ 511) by reflexivity.
  pose proof (abs_mul_lt x (10 ^ k) _ (2 ^ 300) Hx).
  split; [apply i512_id; unfold in_i512|]; lia.
Qed.

(** The truncated quotient of values, from the coefficients. *)
Lemma quot_units a b c sc : 0 ≤ sc →
  Z.quot (units a * units b * 10 ^ sc) (units c * 10 ^ 28) =
  Z.quot (mantissa a * mantissa b * 10 ^ (56 - scale a - scale b + sc))
     (mantissa c * 10 ^ (56 - scale c)).
Proof.
  intros Hsc. pose proof (scale_range a). pose proof (scale_range b). pose proof (scale_range c).
  f_equal; unfold units.
  - replace (56 - scale a - scale b + sc) with ((28 - scale a) + ((28 - scale b) + sc)) by lia.
    rewrite !pow10_split by lia. ring.
  - replace (56 - scale c) with ((28 - scale c) + 28) by lia.
    rewrite pow10_split by lia. ring.
Qed.

Lemma fit_quot num den op a b s u : den ≠ 0 → 0 ≤ s → Z.abs num < 2 ^ 511 →
  Z.quot num den = u →
  exact_or_refused (map_err (error a op b) (fit (Z.quot num den) s)) op a b u s.
Proof.
  intros Hd Hs Hn <-. apply fit_exact; [done|]. pose proof (abs_quot_le num den Hd). lia.
Qed.

(** E3, [Dec::mul_div_trunc]: with a non-zero divisor and a scale of at
    most 28, the result is a·b/c truncated toward zero at [sc] places, or a
    refusal because no [Decimal] holds that truncation. *)
Theorem mul_div_trunc_exact a b c sc :
  units c ≠ 0 → 0 ≤ sc ≤ 28 →
  exact_or_refused (mul_div_trunc a b c sc) (OpMulDivTrunc c sc) a b
  (Z.quot (units a * units b * 10 ^ sc) (units c * 10 ^ 28)) sc.
Proof.
  intros Hc Hsc. destruct (nonzero_units c Hc) as [Hz Hmc]. unfold mul_div_trunc.
  rewrite Hz. destruct (Z.ltb_spec MAX_SCALE sc) as [?|_]; [unfold MAX_SCALE in *; lia|].
  unfold wide. pose proof (scale_range a). pose proof (scale_range b). pose proof (scale_range c).
  pose proof (product_range a b) as Hab. pose proof (mantissa_range c) as Hmcr.
  assert (2 ^ 192 < 2 ^ 511) by reflexivity. assert (2 ^ 96 < 2 ^ 192) by reflexivity.
  rewrite (i512_id (mantissa a * mantissa b)) by (unfold in_i512; lia).
  set (shift := scale c + sc - (scale a + scale b)).
  rewrite quot_units by lia. destruct (Z.leb_spec 0 shift) as [Hs|Hs].
  - destruct (wide_shift_id (mantissa a * mantissa b) shift) as [-> ?]; [lia..|].
    apply fit_quot; [done|lia|done|]. rewrite <- (Z.mul_1_r (mantissa c)) at 1.
    apply quot_balance; try (apply pow10_pos); try lia.
    rewrite <- pow10_split by lia. rewrite Z.mul_1_r. f_equal. unfold shift. lia.
  - destruct (wide_shift_id (mantissa c) (Z.abs shift)) as [-> ?]; [lia..|].
    pose proof (pow10_pos (Z.abs shift) ltac:(lia)).
    apply fit_quot; [apply Z.neq_mul_0; lia|lia|lia|].
    rewrite <- (Z.mul_1_r (mantissa a * mantissa b)) at 1.
    apply quot_balance; try (apply pow10_pos); try lia.
    rewrite <- pow10_split by lia. rewrite Z.mul_1_l. f_equal. unfold shift. lia.
Qed.

Lemma div_balance x y p q p' q' : 0 < p → 0 < q → 0 < p' → 0 < q' →
  p * q' = p' * q → y ≠ 0 → (x * p) / (y * q) = (x * p') / (y * q').
Proof.
  intros Hp Hq Hp' Hq' Heq Hy.
  rewrite <- (Z.div_mul_cancel_r (x * p) (y * q) q') by lia.
  rewrite <- (Z.div_mul_cancel_r (x * p') (y * q') q) by lia.
  f_equal; [transitivity (x * (p * q')); [ring|rewrite Heq; ring] | ring].
Qed.

Lemma floor_div_spec a b : units b ≠ 0 →
  exact_or_refused (floor_div a b) OpFloorDiv a b (units a / units b) 0.
Proof.
  intros Hb. destruct (nonzero_units b Hb) as [Hz Hmb]. unfold floor_div. rewrite Hz.
  unfold wide. pose proof (scale_range a). pose proof (scale_range b).
  pose proof (mantissa_range a). pose proof (mantissa_range b).
  assert (2 ^ 96 < 2 ^ 192) by reflexivity. assert (2 ^ 192 < 2 ^ 511) by reflexivity.
  assert (Hfin : ∀ num den, den ≠ 0 → Z.abs num < 2 ^ 511 - 1 → num / den = units a / units b →
    exact_or_refused (map_err (error a OpFloorDiv b) (fit
    (if negb (Z.rem num den =? 0) && negb (Bool.eqb (num <? 0) (den <? 0))
    then i512 (Z.quot num den - 1) else Z.quot num den) 0)) OpFloorDiv a b (units a / units b) 0).
  { intros num den Hd Hn Hq. pose proof (abs_quot_le num den Hd).
    rewrite (i512_id (Z.quot num den - 1)) by (unfold in_i512; lia).
    rewrite quot_adjust_floor, Hq by done. apply fit_exact; [lia|]. rewrite <- Hq.
    rewrite <- quot_adjust_floor by done. destruct (_ && _); lia. }
  unfold units. destruct (Z.leb_spec (scale a) (scale b)) as [Hs|Hs].
  - destruct (wide_shift_id (mantissa a) (scale b - scale a)) as [-> ?]; [lia..|].
    apply Hfin; [done| |].
    + pose proof (scaled_range a (scale b - scale a)).
      assert (2 ^ 190 < 2 ^ 511 - 1) by reflexivity. lia.
    + unfold units. rewrite <- (Z.mul_1_r (mantissa b)) at 1.
      apply div_balance; try (apply pow10_pos); try lia.
      rewrite <- pow10_split by lia. rewrite Z.mul_1_r. f_equal. lia.
  - destruct (wide_shift_id (mantissa b) (scale a - scale b)) as [-> ?]; [lia..|].
    pose proof (pow10_pos (scale a - scale b)).
    apply Hfin; [apply Z.neq_mul_0; lia|lia|]. unfold units.
    rewrite <- (Z.mul_1_r (mantissa a)) at 1.
    apply div_balance; try (apply pow10_pos); try lia.
    rewrite <- pow10_split by lia. rewrite Z.mul_1_l. f_equal. lia.
Qed.
(** E4, [Dec::floor_div]: with a non-zero divisor the result is the
    floor of the exact quotient, for every combination of signs, or a refusal
    because the floor needs more than 96 bits. *)
Theorem floor_div_exact a b : units b ≠ 0 →
  exact_or_refused (floor_div a b) OpFloorDiv a b (units a / units b) 0.
Proof. exact (floor_div_spec a b). Qed.

(** ** What a refusal says

    [refused op u s e]: [e] reports the operation [op], whose exact result
    [u]·10^-[s] no [Decimal] holds, with the kind the code gives it: [Precision]
    when the integer part fits 96 bits, [Overflow] otherwise. *)
Definition refused (op : NumericOp D) (u s : Z) (e : NumericError D) : Prop :=
  ¬ representable u s ∧ err_op e = op ∧
  err_kind e = if fits_96_bits (Z.quot u (10 ^ s)) then Precision else Overflow.

Lemma refused_rescale op u s k e : 0 ≤ s → 0 ≤ k → refused op (u * 10 ^ k) (s + k) e ↔ refused op u s e.
Proof.
  intros Hs Hk. unfold refused. rewrite representable_shift, pow10_split by lia.
  pose proof (pow10_pos s ltac:(lia)). pose proof (pow10_pos k ltac:(lia)). by rewrite Z.quot_mul_cancel_r by lia.
Qed.

Lemma exact_refused r op a b u s : exact_or_refused r op a b u s →
  returns (λ c, units c * 10 ^ s = u * 10 ^ 28) (refused op u s) r.
Proof. destruct r as [c|e| |]; simpl; [done| |done..]. by intros [H ->]. Qed.

(** The operations as [returns] judgements. *)
Lemma refuses_add a b : returns (λ c, units c = units a + units b) (refused OpAdd (units a + units b) 28) (try_add a b).
Proof. eapply returns_impl; [apply (exact_refused _ _ _ _ _ _ (try_add_spec a b))|]. intros c. cbn beta. lia. Qed.

Lemma refuses_sub a b : returns (λ c, units c = units a - units b) (refused OpSub (units a - units b) 28) (try_sub a b).
Proof. eapply returns_impl; [apply (exact_refused _ _ _ _ _ _ (try_sub_exact a b))|]. intros c. cbn beta. lia. Qed.

Lemma refuses_mul a b :
  returns (λ c, units c * 10 ^ 28 = units a * units b) (refused OpMul (units a * units b) 56) (try_mul a b).
Proof.
  pose proof (try_mul_spec a b) as Hok. pose proof (exact_refused _ _ _ _ _ _ (try_mul_at_scale a b)) as H.
  destruct (try_mul a b) as [c|e| |]; try done. cbn [returns] in H |- *. unfold units.
  pose proof (scale_range a). pose proof (scale_range b).
  apply (refused_rescale _ _ _ ((28 - scale a) + (28 - scale b))) in H; [|lia..].
  rewrite pow10_split in H by lia. replace (scale a + scale b + _) with 56 in H by lia.
  by replace (mantissa a * _ * _) with (mantissa a * mantissa b * (10 ^ (28 - scale a) * 10 ^ (28 - scale b))) by ring.
Qed.

Lemma refuses_floor_div a b : units b ≠ 0 →
  returns (λ c, units c = (units a / units b) * 10 ^ 28) (refused OpFloorDiv (units a / units b) 0) (floor_div a b).
Proof.
  intros Hb. eapply returns_impl; [apply (exact_refused _ _ _ _ _ _ (floor_div_spec a b Hb))|].
  intros c. cbn beta. by rewrite Z.mul_1_r.
Qed.

(** A decimal's own value is never refused. *)
Lemma not_refused op d e : ¬ refused op (units d) 28 e.
Proof.
  intros [H _]. apply H. exists (mantissa d), (scale d). split; [split; [apply mantissa_range|apply scale_range]|]. apply units_scale.
Qed.

(** A running total that stops at a prefix. *)
Definition sum_refused (start : Z) (l : list D) (e : NumericError D) : Prop :=
  ∃ pre post, l = pre ++ post ∧ pre ≠ [] ∧ refused OpAdd (start + total_units pre) 28 e.

Lemma refuses_sum_from a l :
  returns (λ c, units c = units a + total_units l) (sum_refused (units a) l) (fold_outcome try_add a l).
Proof.
  revert a. induction l as [|x l IH]; intros a; cbn [fold_outcome]; [simpl; lia|].
  eapply returns_bind.
  - eapply returns_weaken; [apply refuses_add|intros c Hc; exact Hc|].
    intros e He. exists [x], l. simpl. by rewrite Z.add_0_r.
  - intros s Hs. eapply returns_weaken; [apply IH|intros c Hc; cbn beta in *; change (total_units (x :: l)) with (units x + total_units l); lia|].
    intros e (pre & post & -> & _ & He). exists (x :: pre), post. split_and!; [done..|].
    cbn [total_units foldr]. fold (total_units pre). by rewrite Z.add_assoc, <- Hs.
Qed.

Lemma refuses_sum l : returns (λ c, units c = total_units l) (sum_refused 0 l) (sum l).
Proof. pose proof (refuses_sum_from DZERO l) as H. by rewrite zero_units in H. Qed.

(** A product taken factor by factor, left to right: the exact product of some
    prefix of at least two factors is held by no [Decimal]. *)
Definition product_units (fs : list D) : Z := foldr (λ d p, units d * p) 1 fs.
Definition product_refused (fs : list D) (e : NumericError D) : Prop :=
  ∃ pre post, fs = pre ++ post ∧ (2 ≤ length pre)%nat ∧
  refused OpMul (product_units pre) (28 * Z.of_nat (length pre)) e.

Lemma product_units_app l k : product_units (l ++ k) = product_units l * product_units k.
Proof. induction l; simpl; lia. Qed.

(** The product of the factors so far, exactly. *)
Definition is_product (x : D) (fs : list D) : Prop :=
  fs ≠ [] ∧ units x * 10 ^ (28 * (Z.of_nat (length fs) - 1)) = product_units fs.

Lemma is_product_one d : is_product d [d].
Proof. split; [done|]. simpl. lia. Qed.

Lemma refuses_factor x d fs post : is_product x fs →
  returns (λ c, is_product c (fs ++ [d])) (product_refused (fs ++ d :: post)) (try_mul x d).
Proof.
  intros [Hne Hx]. assert (Hl : 1 ≤ Z.of_nat (length fs)) by (destruct fs; [done|simpl; lia]).
  eapply returns_weaken; [apply refuses_mul| |].
  - intros c Hc. cbn beta in Hc. split; [by destruct fs|]. rewrite product_units_app, <- Hx, length_app. cbn [length].
    replace (28 * (Z.of_nat (length fs + 1) - 1)) with (28 + 28 * (Z.of_nat (length fs) - 1)) by lia.
    rewrite pow10_split, Z.mul_assoc, Hc by lia. simpl. ring.
  - intros e He. exists (fs ++ [d]), post. rewrite <- app_assoc, length_app. cbn [length].
    split_and!; [done|lia|]. rewrite product_units_app, <- Hx.
    apply (refused_rescale _ _ _ (28 * (Z.of_nat (length fs) - 1))) in He; [|lia..].
    replace (28 * Z.of_nat (length fs + 1)) with (56 + 28 * (Z.of_nat (length fs) - 1)) by lia.
    simpl. by replace (units x * _ * _) with (units x * units d * 10 ^ (28 * (Z.of_nat (length fs) - 1))) by ring.
Qed.

(** Weaker forms, for callers that say nothing of a refusal. *)
Lemma returns_try_add a b : returns (λ c, units c = units a + units b) (λ _, True) (try_add a b).
Proof. by eapply returns_weaken; [apply refuses_add|..]. Qed.

Lemma returns_try_sub a b : returns (λ c, units c = units a - units b) (λ _, True) (try_sub a b).
Proof. by eapply returns_weaken; [apply refuses_sub|..]. Qed.

Lemma returns_try_mul a b : returns (λ c, units c * 10 ^ 28 = units a * units b) (λ _, True) (try_mul a b).
Proof. by eapply returns_weaken; [apply refuses_mul|..]. Qed.

Lemma returns_sum l : returns (λ c, units c = total_units l) (λ _, True) (sum l).
Proof. by eapply returns_weaken; [apply refuses_sum|..]. Qed.

Lemma returns_floor_div a b : units b ≠ 0 →
  returns (λ c, units c = (units a / units b) * 10 ^ 28) (λ _, True) (floor_div a b).
Proof. intros Hb. by eapply returns_weaken; [apply refuses_floor_div|..]. Qed.
End wide_ops.

(** ** Witnesses: the theorems at concrete decimals *)
Module DecWitness.
Import Ref.

Definition price : rdec := of_mantissa 1999 2.
Definition rate : rdec := of_mantissa 125 3.
Definition minus_seven : rdec := of_mantissa (-7) 0.

Lemma try_add_exact_witness :
  try_add price rate = Ok (of_mantissa 20115 3) ∧
  exact_or_refused (try_add price rate) OpAdd price rate (units price + units rate) 28.
Proof. split; [vm_compute; reflexivity | apply (try_add_exact price rate)]. Defined.

Lemma try_sub_exact_witness :
  try_sub rate price = Ok (of_mantissa (-19865) 3) ∧
  exact_or_refused (try_sub rate price) OpSub rate price (units rate - units price) 28.
Proof. split; [vm_compute; reflexivity | apply (try_sub_exact rate price)]. Defined.

Lemma try_mul_exact_witness :
  try_mul price rate = Ok (of_mantissa 249875 5) ∧
  units (of_mantissa 249875 5) * 10 ^ 28 = units price * units rate.
Proof.
  assert (E : try_mul price rate = Ok (of_mantissa 249875 5)) by (vm_compute; reflexivity).
  split; [exact E|]. pose proof (try_mul_exact price rate) as H. rewrite E in H. exact H.
Defined.

Lemma sum_exact_witness :
  sum [price; rate; minus_seven] = Ok (of_mantissa 13115 3) ∧
  units (of_mantissa 13115 3) = total_units [price; rate; minus_seven].
Proof.
  assert (E : sum [price; rate; minus_seven] = Ok (of_mantissa 13115 3)) by (vm_compute; reflexivity).
  split; [exact E|]. pose proof (sum_exact [price; rate; minus_seven]) as H.
  rewrite E in H. exact H.
Defined.

Lemma sum_exceeds_exact_witness :
  sum_exceeds [price; price] price = (units price <? total_units [price; price]).
Proof. apply (sum_exceeds_exact [price; price] price). vm_compute. reflexivity. Defined.

Lemma mul_div_trunc_exact_witness :
  mul_div_trunc price rate minus_seven 4 = Ok (of_mantissa (-3569) 4) ∧
  exact_or_refused (mul_div_trunc price rate minus_seven 4) (OpMulDivTrunc minus_seven 4) price rate
  (Z.quot (units price * units rate * 10 ^ 4) (units minus_seven * 10 ^ 28)) 4.
Proof.
  split; [vm_compute; reflexivity|].
  apply (mul_div_trunc_exact price rate minus_seven 4); [vm_compute; discriminate | lia].
Defined.

Lemma floor_div_exact_witness :
  floor_div price minus_seven = Ok (of_mantissa (-3) 0) ∧
  exact_or_refused (floor_div price minus_seven) OpFloorDiv price minus_seven
  (units price / units minus_seven) 0.
Proof.
  split; [vm_compute; reflexivity|].
  apply (floor_div_exact price minus_seven). vm_compute. discriminate.
Defined.
End DecWitness.
