(* ===== verification/DecimalText.v ===== *)
(** * Decimals as text: the parser of [decimal.rs]

    [parse_exact] reads a JSON number into the decimal it names, or says why it
    cannot; [AuthoredDec] adds the envelope of authored values. A [&str] is the list
    of its bytes: the code cuts it at ASCII characters only. [number_text] is the
    grammar of JSON numbers with the value m·10^(x - p) a text names. The integer keys
    of [serde_helpers.rs] are here too. *)

From stdpp Require Import base numbers list gmap strings pretty.
From Stdlib Require Import ZArith Lia Ascii.
From S2P Require Import Prelude RustDecimal Dec.
#[local] Open Scope Z_scope.

(** ** What the parser uses of [str] and [i64] *)
Abbreviation str := (list ascii).

Definition is_ascii_digit (c : ascii) : bool := ((48 <=? nat_of_ascii c) && (nat_of_ascii c <=? 57))%nat.
Definition all_digits (s : str) : bool := match s with [] => false | _ => forallb is_ascii_digit s end.

Definition is_minus (c : ascii) : bool := bool_decide (c = "-"%char).
Definition is_dot (c : ascii) : bool := bool_decide (c = "."%char).
Definition is_e (c : ascii) : bool := bool_decide (c = "e"%char ∨ c = "E"%char).
Definition is_sign (c : ascii) : bool := bool_decide (c = "+"%char ∨ c = "-"%char).

Definition strip_prefix (p : ascii → bool) (s : str) : option str :=
  match s with c :: rest => if p c then Some rest else None | [] => None end.
Definition starts_with (c : ascii) (s : str) : bool := match s with c' :: _ => bool_decide (c' = c) | [] => false end.

(** The text before and after the first character that satisfies [p]. *)
Fixpoint split_once (p : ascii → bool) (s : str) : option (str * str) :=
  match s with
  | [] => None
  | c :: rest => if p c then Some ([], rest) else '(a, b) ← split_once p rest; Some (c :: a, b)
  end.

Fixpoint trim_start_zeros (s : str) : str :=
  match s with c :: rest => if bool_decide (c = "0"%char) then trim_start_zeros rest else s | [] => [] end.

Definition digit (c : ascii) : Z := Z.of_nat (nat_of_ascii c) - 48.
Definition digits_value (s : str) : Z := foldl (λ v c, 10 * v + digit c) 0 s.

Definition i64_max : Z := 2 ^ 63 - 1.
Definition i64_checked (z : Z) : option Z := if (- 2 ^ 63 <=? z) && (z <=? i64_max) then Some z else None.
Definition i64_saturate (z : Z) : Z := Z.max (- 2 ^ 63) (Z.min i64_max z).
(** [s.len() as i64] *)
Definition len (s : str) : Z := wrap_signed 64 (Z.of_nat (length s)).

(** [str::parse::<i64>().ok()]: an optional sign and digits, within the range. *)
Definition parse_i64 (s : str) : option Z :=
  let ds := default s (strip_prefix is_sign s) in
  if all_digits ds then i64_checked (if starts_with "-" s then - digits_value ds else digits_value ds) else None.

(** [I512::parse_str_radix] in base ten: it panics on what it cannot hold. *)
Definition parse_str_radix (s : str) : option Z :=
  if all_digits s && (digits_value s <? 2 ^ 511) then Some (digits_value s) else None.

(** ** The parser *)
Record ParseDecError := mkParseDecError { text : string; reason : string; unrepresentable : bool }.

Definition RANGE : string := "the value is beyond the decimal range".
Definition PRECISION : string := "the value needs more than 28 decimal places or 96 bits of digits".

(** The slices [parse_exact] cuts its text into. *)
Record slices := mkSlices { negative : bool; whole : str; fraction : option str; exponent : option str }.

Definition cut (s : str) : slices :=
  let '(body, neg) := match strip_prefix is_minus s with Some rest => (rest, true) | None => (s, false) end in
  let '(m, e) := match split_once is_e body with Some (m, e) => (m, Some e) | None => (body, None) end in
  let '(w, f) := match split_once is_dot m with Some (w, f) => (w, Some f) | None => (m, None) end in
  mkSlices neg w f e.

Definition exponent_digits (e : str) : str := default e (strip_prefix is_sign e).

Definition is_json (n : slices) : bool :=
  negb (negb (all_digits (whole n)) || ((1 <? length (whole n))%nat && starts_with "0" (whole n))
    || (if fraction n is Some f then negb (all_digits f) else false)
    || (if exponent n is Some e then negb (all_digits (exponent_digits e)) else false)).

(** The loop that drops trailing zeros, on the digits from the last to the first. *)
Fixpoint drop_zeros (rdigits : str) (sc : Z) : str * Z :=
  match rdigits with
  | c :: rest => if (MAX_SCALE <? sc) && bool_decide (c = "0"%char) then drop_zeros rest (sc - 1) else (rdigits, sc)
  | [] => ([], sc)
  end.

Section parse.
Context {D : Type} `{!DecimalOps D}.

(** The end of [parse_exact]: the digits at a scale of zero or more. *)
Definition hold (txt : string) (neg : bool) (ds : str) (sc : Z) : outcome ParseDecError D :=
  let refuse r := mkParseDecError txt r true in
  let '(rdigits, sc) := drop_zeros (rev ds) sc in
  if MAX_SCALE <? sc then Err (refuse PRECISION)
  else if (150 <? length rdigits)%nat then Err (refuse RANGE)
  else
  m ← expect (parse_str_radix (rev rdigits));
  map_err (λ kind, refuse (if bool_decide (kind = Overflow) then RANGE else PRECISION))
    (fit (if neg then i512 (- m) else m) sc).

(** The exponent as [parse_exact] reads it. *)
Definition parsed_exponent (e : option str) : option Z := if e is Some e then parse_i64 e else Some 0.
Definition exponent_is_negative (e : option str) : bool := if e is Some e then starts_with "-" e else false.

(** The digits without leading zeros, moved to a scale of zero or more. *)
Definition place (txt : string) (n : slices) (ds : str) : outcome ParseDecError D :=
  let refuse r := mkParseDecError txt r true in
  e ← ok_or (parsed_exponent (exponent n)) (refuse (if exponent_is_negative (exponent n) then PRECISION else RANGE));
  sc ← ok_or (i64_checked (len (default [] (fraction n)) - e)) (refuse PRECISION);
  if sc <? -60 then Err (refuse RANGE)
  else if sc <? 0 then
    room ← expect (i64_checked (len ds - sc));
    if 60 <? room then Err (refuse RANGE) else hold txt (negative n) (ds ++ replicate (Z.to_nat (- sc)) "0"%char) 0
  else hold txt (negative n) ds sc.

Definition read (txt : string) (n : slices) : outcome ParseDecError (D * Z) :=
  let frac := default [] (fraction n) in
  let written_scale := match parsed_exponent (exponent n) with
    | Some e => Z.max (i64_saturate (len frac - e)) 0
    | None => if exponent_is_negative (exponent n) then i64_max else 0
    end in
  match trim_start_zeros (whole n ++ frac) with
  | [] => Ok (DZERO, written_scale)
  | ds => value ← place txt n ds; Ok (value, written_scale)
  end.

Definition parse_exact (txt : string) : outcome ParseDecError (D * Z) :=
  let n := cut (String.list_ascii_of_string txt) in
  if is_json n then read txt n else Err (mkParseDecError txt "not a JSON number" false).

(** [Dec::from_str] *)
Definition dec_from_str (txt : string) : outcome ParseDecError D := fst <$> parse_exact txt.

Definition within_envelope (value : D) (written_scale : Z) (txt : string) : outcome ParseDecError (AuthoredDec D) :=
  let refuse r := mkParseDecError txt r false in
  if ENVELOPE_MAX_SCALE <? written_scale then Err (refuse "an authored value may have at most 10 decimal places")
  else if ENVELOPE_LIMIT * 10 ^ 28 <=? Z.abs (units value) then
    Err (refuse "an authored value must have an absolute value below 10^15")
  else Ok (Authored value).

(** [AuthoredDec::from_str] *)
Definition authored_from_str (txt : string) : outcome ParseDecError (AuthoredDec D) :=
  '(value, written_scale) ← parse_exact txt; within_envelope value written_scale txt.

(** [Display] of both types *)
Definition to_string (d : D) : string := display (normalize d).
End parse.

(** ** Integer keys: [serde_helpers.rs]

    [parse_u8_keys] turns the string keys of a JSON object into numbers. The object is
    the list of its entries in the order of a [BTreeMap]; an entry's value is any type. *)
Section keys.
Context {A : Type}.
#[local] Open Scope string_scope.

(** [str::parse::<u8>], on digits *)
Definition parse_u8 (s : str) : outcome string N :=
  if (digits_value s <? 256)%Z then Ok (Z.to_N (digits_value s)) else Err "number too large to fit in target type".

Definition insert_key (out : gmap N A) (entry : string * A) : outcome string (gmap N A) :=
  let '(k, v) := entry in
  let ks := String.list_ascii_of_string k in
  refuse_if (negb (all_digits ks)) ("invalid integer key '" +:+ k +:+ "': expected decimal digits only");;
  key ← map_err (λ e, "invalid integer key '" +:+ k +:+ "': " +:+ e) (parse_u8 ks);
  if out !! key is Some _ then Err ("duplicate integer key " +:+ pretty key +:+ ": the map spells it more than one way")
  else Ok (<[key := v]> out).

Definition parse_u8_keys (raw : list (string * A)) : outcome string (gmap N A) := fold_outcome insert_key ∅ raw.

(** [rank_keyed_u8_map], after the outer map was read *)
Definition rank_keyed (raw : list (string * list (string * A))) : outcome string (list (string * gmap N A)) :=
  map_outcome (λ e, parsed ← parse_u8_keys e.2; Ok (e.1, parsed)) raw.
End keys.

(** ** The grammar *)
Definition digits (s : str) : Prop := s ≠ [] ∧ Forall (λ c, is_ascii_digit c = true) s.

Inductive sign_part : str → Z → Prop :=
| no_sign : sign_part [] 1
| minus : sign_part ["-"%char] (-1).

Definition int_part (s : str) : Prop := digits s ∧ ∀ rest, s = "0"%char :: rest → rest = [].

Inductive frac_part : str → str → Prop :=
| no_frac : frac_part [] []
| some_frac f : digits f → frac_part ("."%char :: f) f.

Inductive exp_part : str → Z → Prop :=
| no_exp : exp_part [] 0
| exp_plain c e : is_e c = true → digits e → exp_part (c :: e) (digits_value e)
| exp_plus c e : is_e c = true → digits e → exp_part (c :: "+"%char :: e) (digits_value e)
| exp_minus c e : is_e c = true → digits e → exp_part (c :: "-"%char :: e) (- digits_value e).

(** [s] is a JSON number worth m·10^(x - p): [p] digits follow its point, and its
    exponent is [x]. *)
Inductive number_text (s : str) (m p x : Z) : Prop :=
| number_text_intro sg k w ft f et :
    s = sg ++ w ++ ft ++ et → sign_part sg k → int_part w → frac_part ft f → exp_part et x →
    m = k * digits_value (w ++ f) → p = Z.of_nat (length f) → number_text s m p x.

(** ** Slices *)
Section slices.
Implicit Types (s a b w f e : str) (c : ascii) (p : ascii → bool).

Lemma split_once_at p a c b : Forall (λ c, p c = false) a → p c = true → split_once p (a ++ c :: b) = Some (a, b).
Proof. intros Ha Hc. induction Ha as [|c' a H _ IH]; cbn; [by rewrite Hc|]. rewrite H. by rewrite IH. Qed.

Lemma split_once_none p s : Forall (λ c, p c = false) s → split_once p s = None.
Proof. intros Hs. induction Hs as [|c s H _ IH]; cbn; [done|]. rewrite H. by rewrite IH. Qed.

Lemma split_once_inv p s : match split_once p s with Some (a, b) => ∃ c, p c = true ∧ s = a ++ c :: b | None => True end.
Proof.
  induction s as [|c s IH]; cbn; [done|]. destruct (p c) eqn:E; [by exists c|].
  destruct (split_once p s) as [[a b]|]; cbn; [|done]. destruct IH as (c' & H & ->). by exists c'.
Qed.

Lemma all_digits_spec s : all_digits s = true ↔ digits s.
Proof.
  unfold digits, all_digits. rewrite Forall_forall. destruct s as [|c s]; [naive_solver|].
  rewrite forallb_forall. setoid_rewrite list_elem_of_In. naive_solver.
Qed.

(** A digit is no separator. *)
Lemma digit_plain c : is_ascii_digit c = true → is_minus c = false ∧ is_dot c = false ∧ is_e c = false ∧ is_sign c = false.
Proof.
  unfold is_ascii_digit, is_minus, is_dot, is_e, is_sign. intros [H1%Nat.leb_le H2%Nat.leb_le]%andb_true_iff.
  split_and!; apply bool_decide_eq_false; intros Hc; destruct_or?; subst c; vm_compute in H1, H2; lia.
Qed.

Lemma digits_plain p s : (∀ c, is_ascii_digit c = true → p c = false) → digits s → Forall (λ c, p c = false) s.
Proof. intros Hp [_ H]. eapply Forall_impl; [exact H|]. cbn. exact Hp. Qed.

Lemma digits_head s p : (∀ c, is_ascii_digit c = true → p c = false) → digits s → ∀ t, strip_prefix p (s ++ t) = None.
Proof.
  intros Hp Hs t. destruct s as [|c s]; [by destruct Hs|]. cbn. destruct Hs as [_ Hs]. rewrite Hp; [done|]. by inversion Hs.
Qed.

Definition exponent_value (e : option str) : Z :=
  if e is Some e then (if starts_with "-" e then - digits_value (exponent_digits e) else digits_value (exponent_digits e)) else 0.

Definition coefficient (n : slices) : Z := (if negative n then -1 else 1) * digits_value (whole n ++ default [] (fraction n)).
Definition places (n : slices) : Z := Z.of_nat (length (default [] (fraction n))).

Lemma is_json_spec n : is_json n = true ↔
  int_part (whole n) ∧ (if fraction n is Some f then digits f else True) ∧ (if exponent n is Some e then digits (exponent_digits e) else True).
Proof.
  destruct n as [ng w f e]. unfold is_json, int_part. cbn [whole fraction exponent]. rewrite <- !all_digits_spec.
  assert (H0 : ((1 <? length w)%nat && starts_with "0" w = false ↔ ∀ rest, w = "0"%char :: rest → rest = [])).
  { destruct w as [|c [|c' w]]; cbn; [naive_solver..|]. rewrite bool_decide_eq_false. naive_solver. }
  rewrite negb_true_iff, !orb_false_iff, H0, negb_false_iff.
  destruct f as [f|], e as [e|]; rewrite <- ?all_digits_spec, ?negb_false_iff; naive_solver.
Qed.

Lemma sign_cases e : digits (exponent_digits e) →
  (digits e ∧ exponent_value (Some e) = digits_value e) ∨
  (∃ r, digits r ∧ (e = "+"%char :: r ∧ exponent_value (Some e) = digits_value r ∨ e = "-"%char :: r ∧ exponent_value (Some e) = - digits_value r)).
Proof.
  unfold exponent_value, exponent_digits. destruct e as [|c r]; cbn; [by intros []|].
  destruct (is_sign c) eqn:Hc; cbn; intros Hr.
  - right. exists r. split; [done|]. apply bool_decide_eq_true in Hc as [->| ->]; cbn; [by left|by right].
  - left. split; [done|]. apply bool_decide_eq_false in Hc. rewrite bool_decide_eq_false_2 by naive_solver. done.
Qed.

(** [cut] finds the parts of a number, *)
Lemma cut_number s (m p x : Z) : number_text s m p x → let n := cut s in
  is_json n = true ∧ m = coefficient n ∧ p = places n ∧ x = exponent_value (exponent n).
Proof.
  intros [sg k w ft f et -> Hsg Hw Hft Het -> ->]. cbn zeta.
  assert (He : Forall (λ c, is_e c = false) (w ++ ft)).
  { apply Forall_app. split; [apply digits_plain; [apply digit_plain|apply Hw]|]. destruct Hft as [|f Hf]; [done|]. constructor; [done|]. apply digits_plain; [apply digit_plain|done]. }
  assert (Hd : Forall (λ c, is_dot c = false) w) by (apply digits_plain; [apply digit_plain|apply Hw]).
  assert (E : ∃ fo eo, cut (sg ++ w ++ ft ++ et) = mkSlices (bool_decide (k = -1)) w fo eo ∧ default [] fo = f ∧ (if fo is Some f then digits f else True) ∧
    (if eo is Some e then digits (exponent_digits e) else True) ∧ exponent_value eo = x).
  { assert (Hx : ∃ eo, match split_once is_e ((w ++ ft) ++ et) with Some (m, e) => (m, Some e) | None => ((w ++ ft) ++ et, None) end = (w ++ ft, eo) ∧
      (if eo is Some e then digits (exponent_digits e) else True) ∧ exponent_value eo = x).
    { destruct Het as [|c e Hc Hes|c e Hc Hes|c e Hc Hes]; [exists None; rewrite app_nil_r, split_once_none by done; done|rewrite split_once_at by done; eexists; split; [done|]..]; [|done..].
      unfold exponent_value, exponent_digits. destruct e as [|c' e]; [by destruct Hes|]. cbn. destruct (digit_plain c') as (Hm & _ & _ & ->); [by destruct Hes as [_ [? _]%Forall_cons]|].
      cbn. unfold is_minus in Hm. rewrite Hm. done. }
    destruct Hx as (eo & Hx & Hed & <-).
    assert (Hm : ∃ fo, match split_once is_dot (w ++ ft) with Some (w, f) => (w, Some f) | None => (w ++ ft, None) end = (w, fo) ∧ default [] fo = f ∧
      (if fo is Some f then digits f else True)).
    { destruct Hft as [|f Hf]; [exists None; by rewrite app_nil_r, split_once_none|]. exists (Some f). by rewrite split_once_at. }
    destruct Hm as (fo & Hm & Hf & Hfd). exists fo, eo. split_and!; try done. unfold cut.
    assert (Hs : strip_prefix is_minus (w ++ ft ++ et) = None) by (apply digits_head; [apply digit_plain|apply Hw]).
    rewrite <- app_assoc in Hx.
    assert (Hb : match strip_prefix is_minus (sg ++ w ++ ft ++ et) with Some rest => (rest, true) | None => (sg ++ w ++ ft ++ et, false) end =
      (w ++ ft ++ et, bool_decide (k = -1))) by (destruct Hsg; [cbn [app]; by rewrite Hs|done]).
    by rewrite Hb, Hx, Hm. }
  destruct E as (fo & eo & -> & Hf & Hfo & Heo & Hx). rewrite is_json_spec. cbn. unfold coefficient, places. cbn. rewrite Hf.
  split_and!; try done. by destruct Hsg.
Qed.

(** and nothing else passes the guard. *)
Lemma cut_json s : is_json (cut s) = true → let n := cut s in number_text s (coefficient n) (places n) (exponent_value (exponent n)).
Proof.
  rewrite is_json_spec. cbn zeta. unfold cut, coefficient, places.
  destruct (match strip_prefix is_minus s with Some rest => (rest, true) | None => (s, false) end) as [body neg] eqn:E1.
  destruct (match split_once is_e body with Some (m, e) => (m, Some e) | None => (body, None) end) as [m eo] eqn:E2.
  destruct (match split_once is_dot m with Some (w, f) => (w, Some f) | None => (m, None) end) as [w fo] eqn:E3.
  cbn. intros (Hw & Hf & He).
  assert (Hs : ∃ sg, s = sg ++ body ∧ sign_part sg (if neg then -1 else 1)).
  { unfold strip_prefix in E1. destruct s as [|c r]; [simplify_eq; exists []; split; [done|constructor]|]. destruct (is_minus c) eqn:Hc; simplify_eq; [|exists []; split; [done|constructor]].
    apply bool_decide_eq_true in Hc as ->. eexists [_]; split; [done|constructor]. }
  assert (Hm : ∃ et, body = m ++ et ∧ exp_part et (exponent_value eo)).
  { pose proof (split_once_inv is_e body) as Hi. destruct (split_once is_e body) as [[m' e']|]; simplify_eq; [|exists []; rewrite app_nil_r; split; [done|constructor]].
    destruct Hi as (c & Hc & ->). exists (c :: e'). split; [done|]. destruct (sign_cases e' He) as [[Hd ->]|(r & Hd & [[-> ->]|[-> ->]])]; by constructor. }
  assert (Hft : ∃ ft, m = w ++ ft ∧ frac_part ft (default [] fo)).
  { pose proof (split_once_inv is_dot m) as Hi. destruct (split_once is_dot m) as [[w' f']|]; simplify_eq; [|exists []; rewrite app_nil_r; split; [done|constructor]].
    destruct Hi as (c & Hc%bool_decide_eq_true & ->). subst c. eexists; split; [done|]. by constructor. }
  destruct Hs as (sg & -> & Hsg), Hm as (et & -> & Het), Hft as (ft & -> & Hft).
  econstructor; [|exact Hsg|exact Hw|exact Hft|exact Het|done|done]. by rewrite <- app_assoc.
Qed.
End slices.

(** ** Values m·10^k *)
Section values.
Context {D : Type} `{!DecimalOps D, !DecimalLaws D}.
Implicit Types (d : D) (m k a b : Z).

(** [d] is exactly m·10^k. *)
Definition named d m k : Prop := units d * 10 ^ Z.max 0 (- (k + 28)) = m * 10 ^ Z.max 0 (k + 28).

(** The absolute value of m·10^k is at least [u]. *)
Definition at_least u m k : Prop := u * 10 ^ Z.max 0 (- k) ≤ Z.abs m * 10 ^ Z.max 0 k.

#[export] Instance at_least_dec u m k : Decision (at_least u m k).
Proof. unfold at_least. apply _. Defined.

(** The integer part of m·10^k needs more than 96 bits. *)
Abbreviation beyond := (at_least (2 ^ 96)).

Lemma named_at d m k a b : 0 ≤ a → 0 ≤ b → k + 28 = a - b → named d m k ↔ units d * 10 ^ b = m * 10 ^ a.
Proof.
  intros Ha Hb Hk. unfold named. set (c := Z.min a b).
  replace a with (Z.max 0 (k + 28) + c) by lia. replace b with (Z.max 0 (- (k + 28)) + c) by lia.
  rewrite !pow10_split by lia. pose proof (pow10_pos c ltac:(lia)). rewrite !Z.mul_assoc. rewrite Z.mul_cancel_r by lia. done.
Qed.

Lemma at_least_at u m k a b : 0 ≤ a → 0 ≤ b → k = a - b → at_least u m k ↔ u * 10 ^ b ≤ Z.abs m * 10 ^ a.
Proof.
  intros Ha Hb Hk. unfold at_least. set (c := Z.min a b).
  replace a with (Z.max 0 k + c) by lia. replace b with (Z.max 0 (- k) + c) by lia.
  rewrite !pow10_split by lia. pose proof (pow10_pos c ltac:(lia)). rewrite !Z.mul_assoc. rewrite <- Z.mul_le_mono_pos_r by lia. done.
Qed.

Lemma named_shift d m k t : 0 ≤ t → named d (m * 10 ^ t) k ↔ named d m (k + t).
Proof.
  intros Ht. rewrite (named_at d _ k (Z.max 0 (k + 28)) (Z.max 0 (- (k + 28)))), (named_at d m (k + t) (t + Z.max 0 (k + 28)) (Z.max 0 (- (k + 28)))) by lia.
  rewrite (pow10_split t) by lia. rewrite Z.mul_assoc. done.
Qed.

Lemma at_least_shift u m k t : 0 ≤ t → at_least u (m * 10 ^ t) k ↔ at_least u m (k + t).
Proof.
  intros Ht. rewrite (at_least_at u _ k (Z.max 0 k) (Z.max 0 (- k))), (at_least_at u m (k + t) (t + Z.max 0 k) (Z.max 0 (- k))) by lia.
  rewrite (pow10_split t) by lia. rewrite Z.abs_mul, (Z.abs_eq (10 ^ t)), Z.mul_assoc by auto with mlm lia. done.
Qed.

Lemma named_value d d' m k : named d m k → named d' m k → units d = units d'.
Proof.
  unfold named. intros H1 H2. pose proof (pow10_pos (Z.max 0 (- (k + 28))) ltac:(lia)). nia.
Qed.

Lemma units_small d : Z.abs (units d) < 2 ^ 96 * 10 ^ 28.
Proof.
  unfold units. pose proof (mantissa_range d). pose proof (scale_range d).
  assert (10 ^ (28 - scale d) ≤ 10 ^ 28) by (apply Z.pow_le_mono_r; lia). pose proof (pow10_unscale_pos d).
  rewrite Z.abs_mul, (Z.abs_eq (10 ^ _)) by lia. nia.
Qed.

(** The absolute value of a decimal against a bound. *)
Lemma named_least d m k u : 0 ≤ u → named d m k → at_least u m k ↔ u * 10 ^ 28 ≤ Z.abs (units d).
Proof.
  intros Hu Hn. rewrite (named_at d m k (28 + Z.max 0 k) (Z.max 0 (- k))) in Hn by lia.
  unfold at_least. pose proof (pow10_pos (Z.max 0 (- k)) ltac:(lia)) as Hp. pose proof (pow10_pos 28 ltac:(lia)).
  rewrite pow10_split in Hn by lia. apply (f_equal Z.abs) in Hn. rewrite !Z.abs_mul in Hn.
  rewrite (Z.abs_eq (10 ^ Z.max 0 (- k))), (Z.abs_eq (10 ^ 28)), (Z.abs_eq (10 ^ Z.max 0 k)) in Hn by auto with mlm lia.
  rewrite (Z.mul_le_mono_pos_r _ _ (10 ^ 28)) by lia. rewrite (Z.mul_le_mono_pos_r (u * 10 ^ 28) _ _ Hp), Hn.
  set (x := 10 ^ 28) in *. set (y := 10 ^ Z.max 0 (- k)) in *. set (z := 10 ^ Z.max 0 k) in *.
  replace (u * y * x) with (u * x * y) by ring. replace (Z.abs m * z * x) with (Z.abs m * (x * z)) by ring. done.
Qed.

Lemma beyond_unnamed m k : beyond m k → ∀ d, ¬ named d m k.
Proof. intros Hb d Hn. pose proof (units_small d). apply (named_least d m k) in Hb; [lia..|done]. Qed.

(** At least 10^29, which is more than 2^96. *)
Lemma beyond_digits m k j : 0 ≤ j → 10 ^ j ≤ Z.abs m → 29 ≤ j + k → beyond m k.
Proof.
  intros Hj Hm Hk. unfold at_least. etrans; [|apply Z.mul_le_mono_nonneg_r; [|exact Hm]; auto with mlm lia].
  rewrite <- pow10_split by lia. replace (j + Z.max 0 k) with ((j + k) + Z.max 0 (- k)) by lia. rewrite pow10_split by lia.
  pose proof (pow10_pos (Z.max 0 (- k)) ltac:(lia)). assert (10 ^ 29 ≤ 10 ^ (j + k)) by (apply Z.pow_le_mono_r; lia).
  apply Z.mul_le_mono_nonneg_r; [lia|]. etrans; [|done]. by vm_compute.
Qed.

(** A digit other than zero below the 28th place. *)
Lemma deep_unnamed m k t m' : 0 ≤ t → m = m' * 10 ^ t → m' mod 10 ≠ 0 → k + t < -28 → ∀ d, ¬ named d m k.
Proof.
  intros Ht -> Hm Hk d Hn. rewrite (named_at d _ k 0 (- (k + 28))) in Hn by lia. rewrite Z.pow_0_r, Z.mul_1_r in Hn.
  replace (- (k + 28)) with ((- (k + 28) - t - 1) + 1 + t) in Hn by lia. rewrite !pow10_split in Hn by lia.
  pose proof (pow10_pos t ltac:(lia)). rewrite Z.mul_assoc in Hn. apply Z.mul_cancel_r in Hn; [|lia]. apply Hm. rewrite <- Hn, Z.mul_assoc. apply Z.mod_mul. lia.
Qed.

Lemma short_unnamed m k j : m ≠ 0 → 0 ≤ j → Z.abs m < 10 ^ j → k + 28 ≤ - j → ∀ d, ¬ named d m k.
Proof.
  intros Hm Hj Hl Hk d Hn. rewrite (named_at d _ k 0 (- (k + 28))) in Hn by lia. rewrite Z.pow_0_r, Z.mul_1_r in Hn.
  assert (10 ^ j ≤ 10 ^ (- (k + 28))) by (apply Z.pow_le_mono_r; lia). subst m.
  pose proof (pow10_pos j Hj). rewrite Z.abs_mul, (Z.abs_eq (10 ^ _)) in Hl by lia. assert (units d ≠ 0) by (intros E; rewrite E in Hm; lia). nia.
Qed.

Lemma named_representable d m s : 0 ≤ s → named d m (- s) → representable m s.
Proof.
  intros Hs Hn. rewrite (named_at d m (- s) 28 s) in Hn by lia. exists (mantissa d), (scale d). split; [apply decimal_holds|].
  pose proof (units_scale d). pose proof (pow10_pos 28 ltac:(lia)). nia.
Qed.
End values.
Abbreviation beyond := (at_least (2 ^ 96)).

(** ** Digits *)
Section digits.
Implicit Types (s t : str) (c : ascii).
Abbreviation numeric s := (Forall (λ c, is_ascii_digit c = true) s).

Lemma digits_value_app s t : digits_value (s ++ t) = digits_value s * 10 ^ Z.of_nat (length t) + digits_value t.
Proof.
  induction t as [|c t IH] using rev_ind; [rewrite app_nil_r; cbn; lia|].
  unfold digits_value in *. rewrite app_assoc, !foldl_snoc, IH, length_app, Nat2Z.inj_add, pow10_split by lia. cbn [length]. lia.
Qed.

Lemma digit_range c : is_ascii_digit c = true → 0 ≤ digit c ≤ 9 ∧ (c ≠ "0"%char → digit c ≠ 0).
Proof.
  unfold is_ascii_digit, digit. intros [H1%Nat.leb_le H2%Nat.leb_le]%andb_true_iff. split; [lia|]. intros Hc H. apply Hc.
  rewrite <- (ascii_nat_embedding c). by replace (nat_of_ascii c) with 48%nat by lia.
Qed.

Lemma digits_value_range s : numeric s → 0 ≤ digits_value s < 10 ^ Z.of_nat (length s).
Proof.
  induction s as [|c s IH] using rev_ind; [cbn; lia|]. intros [Hs [Hc _]%Forall_cons]%Forall_app. specialize (IH Hs).
  apply digit_range in Hc as [Hc _]. rewrite digits_value_app, length_app, Nat2Z.inj_add, pow10_split by lia. change (digits_value [c]) with (10 * 0 + digit c). cbn [length]. lia.
Qed.

Lemma digits_value_cons c s : digits_value (c :: s) = digit c * 10 ^ Z.of_nat (length s) + digits_value s.
Proof. change (c :: s) with ([c] ++ s). rewrite digits_value_app. done. Qed.

(** No leading zero: the value has as many digits as are written. *)
Lemma digits_value_least c s : numeric (c :: s) → c ≠ "0"%char → 10 ^ Z.of_nat (length s) ≤ digits_value (c :: s).
Proof.
  intros [Hc Hs]%Forall_cons Hz. rewrite digits_value_cons. apply digits_value_range in Hs. apply digit_range in Hc as [Hr Hn]. specialize (Hn Hz).
  pose proof (pow10_pos (Z.of_nat (length s)) ltac:(lia)). nia.
Qed.

Lemma digits_value_zeros s j : digits_value (s ++ replicate j "0"%char) = digits_value s * 10 ^ Z.of_nat j.
Proof.
  rewrite digits_value_app, length_replicate. assert (digits_value (replicate j "0"%char) = 0) as ->; [|lia].
  induction j as [|j IH]; [done|]. cbn [replicate]. rewrite digits_value_cons, IH. done.
Qed.

Lemma trim_spec s : numeric s → let t := trim_start_zeros s in
  digits_value t = digits_value s ∧ numeric t ∧ (length t ≤ length s)%nat ∧ head t ≠ Some "0"%char.
Proof.
  induction s as [|c s IH]; [done|]. intros H. pose proof (Forall_inv_tail H) as Hs. specialize (IH Hs). cbn zeta in *. cbn [trim_start_zeros].
  case_bool_decide as Hc; [|split_and!; [done..|cbn; congruence]]. subst c. rewrite digits_value_cons. destruct IH as (-> & ? & ? & ?).
  split_and!; [done..|cbn; lia|done].
Qed.

Lemma digits_value_last c s : is_ascii_digit c = true → c ≠ "0"%char → digits_value (s ++ [c]) mod 10 ≠ 0.
Proof.
  intros Hc Hz. rewrite digits_value_app. change (digits_value [c]) with (10 * 0 + digit c). cbn [length]. apply digit_range in Hc as [Hr Hn]. specialize (Hn Hz).
  change (10 ^ Z.of_nat 1) with 10. rewrite Z.add_comm, Z.mod_add, Z.mod_small by lia. lia.
Qed.

Lemma drop_zeros_spec r sc : let '(r', sc') := drop_zeros r sc in ∃ t : Z,
  0 ≤ t ∧ sc' = sc - t ∧ (0 < t → 28 ≤ sc') ∧ digits_value (rev r) = digits_value (rev r') * 10 ^ t ∧
  (numeric r → numeric r') ∧ Z.of_nat (length r) = Z.of_nat (length r') + t ∧ (28 < sc' → head r' ≠ Some "0"%char).
Proof.
  revert sc. induction r as [|c r IH]; intros sc; cbn [drop_zeros]; [exists 0; cbn; split_and!; auto; lia|].
  destruct ((MAX_SCALE <? sc) && bool_decide (c = "0"%char)) eqn:E.
  - apply andb_true_iff in E as [E ->%bool_decide_eq_true]. apply Z.ltb_lt in E. unfold MAX_SCALE in E. specialize (IH (sc - 1)). destruct (drop_zeros r (sc - 1)) as [r' sc'].
    destruct IH as (t & Ht & -> & H28 & Hv & Hn & Hl & Hh). exists (t + 1). split_and!; [lia..| |by intros ?%Forall_inv_tail; auto|cbn; lia|done].
    cbn [rev]. rewrite digits_value_app, Hv, pow10_split by lia. change (digits_value ["0"%char]) with 0. change (10 ^ Z.of_nat (length ["0"%char])) with 10.
    change (10 ^ 1) with 10. ring.
  - exists 0. split_and!; [lia..|rewrite Z.pow_0_r; lia|done|lia|]. intros Hs Hh. cbn in Hh. injection Hh as ->.
    apply andb_false_iff in E as [E|E]; [apply Z.ltb_ge in E; unfold MAX_SCALE in E; lia|done].
Qed.
End digits.
Abbreviation numeric s := (Forall (λ c, is_ascii_digit c = true) s).

(** ** The parser is exact *)
Section exact.
Context {D : Type} `{!DecimalOps D, !DecimalLaws D}.
Implicit Types (d : D) (m k p x : Z) (txt : string).

(** A refusal that is true of m·10^k: no decimal is that value, and [RANGE] is said
    only of one that is too large. *)
Definition refused (e : ParseDecError) txt m k : Prop :=
  text e = txt ∧ unrepresentable e = true ∧ (∀ d, ¬ named d m k) ∧ (reason e = RANGE ∧ beyond m k ∨ reason e = PRECISION).

Lemma refused_range txt m k : beyond m k → refused (mkParseDecError txt RANGE true) txt m k.
Proof. intros Hb. split_and!; [done..|by apply beyond_unnamed|by left]. Qed.

Lemma refused_precision txt m k : (∀ d, ¬ named d m k) → refused (mkParseDecError txt PRECISION true) txt m k.
Proof. intros Hn. split_and!; [done..|by right]. Qed.

Lemma refused_shift e txt m k t : 0 ≤ t → refused e txt (m * 10 ^ t) k ↔ refused e txt m (k + t).
Proof. intros Ht. unfold refused. rewrite at_least_shift by done. setoid_rewrite named_shift; done. Qed.

Definition signed (neg : bool) (v : Z) : Z := (if neg then -1 else 1) * v.

Lemma abs_signed neg v : 0 ≤ v → Z.abs (signed neg v) = v.
Proof. unfold signed. destruct neg; lia. Qed.

Lemma fit_named txt m sc : 0 ≤ sc → Z.abs m < 2 ^ 511 →
  returns (λ d, named d m (- sc)) (λ e, refused e txt m (- sc))
    (map_err (λ kind, mkParseDecError txt (if bool_decide (kind = Overflow) then RANGE else PRECISION) true) (fit m sc)).
Proof.
  intros Hs Hm. destruct (representable_em m sc Hs) as [Hr|Hr].
  - destruct (fit_ok (D := D) m sc Hs Hr) as (d & Hd & _). rewrite Hd. cbn. rewrite (named_at d m _ 28 sc) by lia. by apply fit_units.
  - rewrite fit_err by done. cbn. assert (Hn : ∀ d, ¬ named d m (- sc)) by (intros d Hn; apply Hr; by eapply named_representable).
    destruct (fits_96_bits (Z.quot m (10 ^ sc))) eqn:E; cbn; [by apply refused_precision|]. apply refused_range.
    rewrite (at_least_at _ _ _ 0 sc) by lia. unfold fits_96_bits in E. apply Z.ltb_ge in E. pose proof (pow10_pos sc Hs).
    rewrite <- Z.quot_abs, (Z.abs_eq (10 ^ sc)), Z.quot_div_nonneg in E by lia. rewrite Z.pow_0_r, Z.mul_1_r.
    etrans; [apply Z.mul_le_mono_nonneg_r; [lia|exact E]|]. rewrite Z.mul_comm. apply Z.mul_div_le. lia.
Qed.

(** The end of the parser, on digits that do not begin with a zero. *)
Lemma hold_spec txt neg (ds : str) sc : 0 ≤ sc → numeric ds → 0 < digits_value ds → head ds ≠ Some "0"%char →
  returns (λ d, named d (signed neg (digits_value ds)) (- sc)) (λ e, refused e txt (signed neg (digits_value ds)) (- sc)) (hold txt neg ds sc).
Proof.
  intros Hsc Hds Hpos Hz. unfold hold. pose proof (drop_zeros_spec (rev ds) sc) as Hd. destruct (drop_zeros (rev ds) sc) as [r sc'].
  destruct Hd as (t & Ht & -> & H28 & Hv & Hn & Hl & Hh). rewrite rev_involutive in Hv. specialize (Hn (Forall_rev Hds)). rewrite length_rev in Hl.
  set (v := digits_value (rev r)) in *. pose proof (digits_value_range (rev r) (Forall_rev Hn)) as Hr. fold v in Hr. rewrite length_rev in Hr.
  pose proof (pow10_pos t Ht). assert (Hv0 : 0 < v) by nia.
  assert (Hm : signed neg (digits_value ds) = signed neg v * 10 ^ t) by (rewrite Hv; unfold signed; ring).
  destruct (Z.ltb_spec MAX_SCALE (sc - t)) as [Hbig|Hsmall]; unfold MAX_SCALE in *.
  { cbn. apply refused_precision. apply (deep_unnamed _ _ t (signed neg v)); [done..| |lia]. destruct r as [|c r]; [cbn in v; lia|].
    apply Forall_cons in Hn as [Hc _]. unfold v. cbn [rev]. intros Hmod. apply (digits_value_last c (rev r) Hc); [intros ->; by apply Hh|].
    unfold signed in Hmod. destruct neg; [|by rewrite Z.mul_1_l in Hmod]. apply Z.mod_opp_l_z in Hmod; [|lia]. replace (- (-1 * digits_value (rev r ++ [c]))) with (digits_value (rev r ++ [c])) in Hmod by ring. done. }
  destruct (Nat.ltb_spec 150 (length r)) as [Hlong|Hshort].
  { apply refused_range. destruct ds as [|c ds']; [cbn in Hpos; lia|]. cbn [length] in Hl.
    apply (beyond_digits _ _ (Z.of_nat (length ds'))); [lia| |lia]. rewrite abs_signed by lia. apply digits_value_least; [done|]. intros ->. by apply Hz. }
  assert (Hv511 : v < 2 ^ 500) by (pose proof (pow10_le_150 (Z.of_nat (length r)) ltac:(lia)); lia).
  assert (2 ^ 500 < 2 ^ 511) by done. unfold parse_str_radix. fold v.
  assert (Had : all_digits (rev r) = true).
  { apply all_digits_spec. split; [|by apply Forall_rev]. intros Hnil. unfold v in Hv0. rewrite Hnil in Hv0. cbn in Hv0. lia. }
  rewrite Had, (proj2 (Z.ltb_lt v (2 ^ 511))) by lia.
  cbn [andb expect]. cbn. assert (E : (if neg then i512 (- v) else v) = signed neg v).
  { unfold signed. destruct neg; [rewrite i512_id by (unfold in_i512; lia)|]; lia. }
  rewrite E. pose proof (fit_named txt (signed neg v) (sc - t) ltac:(lia) ltac:(rewrite abs_signed; lia)) as Hf.
  rewrite Hm. replace (- (sc - t)) with (- sc + t) in Hf by lia. eapply returns_weaken; [exact Hf|..].
  - intros d. by rewrite named_shift.
  - intros e. by rewrite refused_shift.
Qed.

(** The number of places a text is written with, as far as [i64] counts. *)
Definition written_places p x : Z := Z.min i64_max (Z.max 0 (p - x)).

Lemma len_id (s : str) : Z.of_nat (length s) < 2 ^ 62 → len s = Z.of_nat (length s).
Proof. intros H. unfold len, wrap_signed. change (64 - 1) with 63. rewrite Z.mod_small; lia. Qed.

Lemma i64_checked_spec z : match i64_checked z with Some z' => z' = z ∧ - 2 ^ 63 ≤ z ≤ i64_max | None => z < - 2 ^ 63 ∨ i64_max < z end.
Proof. unfold i64_checked. destruct (Z.leb_spec (- 2 ^ 63) z), (Z.leb_spec z i64_max); cbn; lia. Qed.

Lemma parsed_exponent_spec (e : option str) : (if e is Some e then digits (exponent_digits e) else True) →
  parsed_exponent e = i64_checked (exponent_value e) ∧ (exponent_is_negative e = true → exponent_value e ≤ 0) ∧ (exponent_is_negative e = false → 0 ≤ exponent_value e).
Proof.
  destruct e as [e|]; [|done]. intros He. unfold parsed_exponent, exponent_value, parse_i64. fold (exponent_digits e).
  rewrite (proj2 (all_digits_spec _) He). destruct He as [_ He%digits_value_range]. cbn. destruct (starts_with "-" e); naive_solver lia.
Qed.

Lemma written_scale_spec (frac : str) e x : Z.of_nat (length frac) < 2 ^ 62 → parsed_exponent e = i64_checked x →
  (exponent_is_negative e = true → x ≤ 0) → (exponent_is_negative e = false → 0 ≤ x) →
  match parsed_exponent e with
  | Some e => Z.max (i64_saturate (len frac - e)) 0
  | None => if exponent_is_negative e then i64_max else 0
  end = written_places (Z.of_nat (length frac)) x.
Proof.
  intros Hl -> H1 H2. rewrite len_id by done. pose proof (i64_checked_spec x) as Hx. unfold written_places, i64_saturate, i64_max in *.
  destruct (i64_checked x); [lia|]. destruct (exponent_is_negative e); [specialize (H1 eq_refl)|specialize (H2 eq_refl)]; lia.
Qed.

Lemma place_spec txt (n : slices) c (ds : str) : parsed_exponent (exponent n) = i64_checked (exponent_value (exponent n)) →
  (exponent_is_negative (exponent n) = true → exponent_value (exponent n) ≤ 0) → (exponent_is_negative (exponent n) = false → 0 ≤ exponent_value (exponent n)) →
  numeric (c :: ds) → c ≠ "0"%char → Z.of_nat (length (c :: ds)) < 2 ^ 62 → places n < 2 ^ 62 →
  let m := signed (negative n) (digits_value (c :: ds)) in let k := exponent_value (exponent n) - places n in
  returns (λ d, named d m k) (λ e, refused e txt m k) (place txt n (c :: ds)).
Proof.
  intros Hp Hneg Hpos Hnt Hc Hlen Hplaces. cbn zeta. unfold place. rewrite Hp. unfold places in *. set (frac := default [] (fraction n)) in *.
  set (x := exponent_value (exponent n)) in *. set (p := Z.of_nat (length frac)) in *. rewrite (len_id frac) by lia. fold p.
  pose proof (digits_value_least c ds Hnt Hc) as Hlo. pose proof (digits_value_range _ Hnt) as [_ Hhi]. pose proof (pow10_pos (Z.of_nat (length ds)) ltac:(lia)).
  set (v := digits_value (c :: ds)) in *. set (l := Z.of_nat (length (c :: ds))) in *. assert (Hl : l = Z.of_nat (length ds) + 1) by (unfold l; cbn [length]; lia).
  assert (Ha : Z.abs (signed (negative n) v) = v) by (apply abs_signed; lia). set (m := signed (negative n) v) in *.
  assert (Hbeyond : 29 ≤ l - 1 + (x - p) → beyond m (x - p)) by (intros; apply (beyond_digits _ _ (l - 1)); rewrite ?Ha; [lia|replace (l - 1) with (Z.of_nat (length ds)) by lia; done|done]).
  assert (Hshort : x - p + 28 ≤ - l → ∀ d, ¬ named d m (x - p)) by (intros; apply (short_unnamed _ _ l); rewrite ?Ha; lia).
  pose proof (i64_checked_spec x) as Hx. destruct (i64_checked x) as [e|]; cbn.
  2: { destruct (exponent_is_negative (exponent n)); [apply refused_precision, Hshort|apply refused_range, Hbeyond]; unfold i64_max in *; naive_solver lia. }
  destruct Hx as [-> Hx]. pose proof (i64_checked_spec (p - x)) as Hs. destruct (i64_checked (p - x)) as [sc|]; cbn.
  2: { apply refused_precision, Hshort. unfold i64_max in *. lia. }
  destruct Hs as [-> Hs]. destruct (Z.ltb_spec (p - x) (-60)) as [Hr|Hr]; [cbn; apply refused_range, Hbeyond; lia|].
  destruct (Z.ltb_spec (p - x) 0) as [Hn|Hn].
  - rewrite (len_id (c :: ds)) by lia. fold l. pose proof (i64_checked_spec (l - (p - x))) as Hroom. destruct (i64_checked (l - (p - x))) as [room|]; cbn; [|unfold i64_max in *; lia].
    destruct Hroom as [-> _]. destruct (Z.ltb_spec 60 (l - (p - x))); [cbn; apply refused_range, Hbeyond; lia|].
    pose proof (hold_spec txt (negative n) ((c :: ds) ++ replicate (Z.to_nat (- (p - x))) "0"%char) 0 ltac:(lia)) as Hhold.
    rewrite digits_value_zeros, Z2Nat.id in Hhold by lia. fold v in Hhold. replace (- (p - x)) with (x - p) in * by lia.
    assert (Hm : signed (negative n) (v * 10 ^ (x - p)) = m * 10 ^ (x - p)) by (unfold m, signed; ring). rewrite Hm in Hhold.
    pose proof (pow10_pos (x - p) ltac:(lia)). change (- 0) with 0 in Hhold.
    eapply returns_weaken; [apply Hhold; [apply Forall_app; split; [done|by apply Forall_replicate]|nia|cbn; congruence]|..].
    + intros d. cbn beta. by rewrite named_shift by lia.
    + intros e. cbn beta. by rewrite refused_shift by lia.
  - replace (x - p) with (- (p - x)) by lia. apply hold_spec; [done..|fold v; lia|cbn; congruence].
Qed.

Lemma read_spec txt (n : slices) : is_json n = true → Z.of_nat (length (whole n ++ default [] (fraction n))) < 2 ^ 62 →
  returns (λ '(d, ws), named d (coefficient n) (exponent_value (exponent n) - places n) ∧ ws = written_places (places n) (exponent_value (exponent n)))
    (λ e, refused e txt (coefficient n) (exponent_value (exponent n) - places n)) (read txt n).
Proof.
  rewrite is_json_spec. intros ([Hw _] & Hf & He) Hlen. apply parsed_exponent_spec in He as (Hp & Hneg & Hpos).
  assert (Hnum : numeric (whole n ++ default [] (fraction n))).
  { apply Forall_app. split; [apply Hw|]. destruct (fraction n) as [f|]; [apply Hf|constructor]. }
  unfold coefficient. fold (signed (negative n) (digits_value (whole n ++ default [] (fraction n)))). pose proof Hlen as Hlen'. rewrite length_app in Hlen'.
  unfold read. rewrite (written_scale_spec _ (exponent n) (exponent_value (exponent n))) by (done || lia). fold (places n).
  destruct (trim_spec _ Hnum) as (Hv & Hnt & Hlt & Hh). rewrite <- Hv.
  destruct (trim_start_zeros (whole n ++ default [] (fraction n))) as [|c ds] eqn:Ht.
  { cbn. split; [|done]. unfold named. rewrite zero_units. unfold signed, digits_value. cbn. lia. }
  eapply returns_bind; [apply place_spec; try done; [intros ->; by apply Hh|lia|unfold places; lia]|]. cbn. done.
Qed.

Lemma cut_length (s : str) : (length (whole (cut s) ++ default [] (fraction (cut s))) ≤ length s)%nat.
Proof.
  unfold cut. destruct (match strip_prefix is_minus s with Some rest => (rest, true) | None => (s, false) end) as [body neg] eqn:E1.
  assert (length body ≤ length s)%nat.
  { unfold strip_prefix in E1. destruct s as [|c r]; [by simplify_eq|]. destruct (is_minus c); simplify_eq; cbn; lia. }
  pose proof (split_once_inv is_e body) as H2. destruct (split_once is_e body) as [[mt e]|] eqn:E2; cbn; [destruct H2 as (c & _ & Hb)|set (mt := body)].
  - pose proof (split_once_inv is_dot mt) as H3. destruct (split_once is_dot mt) as [[w f]|]; cbn; rewrite Hb in *; rewrite ?length_app in *; cbn in *; [destruct H3 as (? & _ & ->); rewrite !length_app in *; cbn in *|]; lia.
  - pose proof (split_once_inv is_dot mt) as H3. destruct (split_once is_dot mt) as [[w f]|]; cbn; rewrite ?length_app; cbn; [destruct H3 as (? & _ & H3); unfold mt in H3; rewrite H3, ?length_app in *; cbn in *|unfold mt]; lia.
Qed.

Lemma ascii_length txt : length (String.list_ascii_of_string txt) = String.length txt.
Proof. induction txt as [|c txt IH]; cbn; [done|]. by rewrite IH. Qed.

(** [txt] is a JSON number worth m·10^(x - p). *)
Definition json txt m p x : Prop := number_text (String.list_ascii_of_string txt) m p x.

Lemma parse_number txt m p x : Z.of_nat (String.length txt) < 2 ^ 62 → json txt m p x →
  returns (λ '(d, ws), named d m (x - p) ∧ ws = written_places p x) (λ e, refused e txt m (x - p)) (parse_exact txt).
Proof.
  intros Hl (Hj & -> & -> & ->)%cut_number. unfold parse_exact. rewrite Hj. apply read_spec; [done|].
  pose proof (cut_length (String.list_ascii_of_string txt)) as Hc. rewrite ascii_length in Hc. lia.
Qed.

Lemma parse_cases txt : (∃ m p x, json txt m p x) ∨ (∀ m p x, ¬ json txt m p x) ∧ parse_exact (D := D) txt = Err (mkParseDecError txt "not a JSON number" false).
Proof.
  unfold parse_exact. destruct (is_json (cut (String.list_ascii_of_string txt))) eqn:E; [left|right].
  - do 3 eexists. by apply cut_json.
  - split; [|done]. intros m p x (H & _)%cut_number. congruence.
Qed.

(** ** The envelope *)

(** What the envelope admits is held exactly. *)
Lemma envelope_held m p x : p - x ≤ 10 → ¬ at_least (10 ^ 15) m (x - p) → ∃ d, named d m (x - p).
Proof.
  intros Hp Hl. unfold at_least in Hl. set (k := x - p) in *. set (s := Z.max 0 (- k)) in *.
  assert (Hh : holds (m * 10 ^ Z.max 0 k) s).
  { split; [|lia]. rewrite Z.abs_mul, (Z.abs_eq (10 ^ _)) by auto with mlm lia. assert (10 ^ s ≤ 10 ^ 10) by (apply Z.pow_le_mono_r; lia).
    assert (10 ^ 15 * 10 ^ 10 < 2 ^ 96) by done. nia. }
  destruct (try_from_holds (D := D) _ _ Hh) as (d & _ & Hm & Hs). exists d.
  rewrite (named_at d m k (28 + Z.max 0 k) s) by lia. unfold units. rewrite Hm, Hs, pow10_split by lia.
  rewrite <- Z.mul_assoc, <- (pow10_split (28 - s)) by lia. replace (28 - s + s) with 28 by lia. ring.
Qed.

Lemma written_places_least p x j : 0 ≤ j < i64_max → j < written_places p x ↔ j < p - x.
Proof. unfold written_places. lia. Qed.

Lemma authored_number txt m p x : Z.of_nat (String.length txt) < 2 ^ 62 → json txt m p x →
  returns (λ a, named (dec a) m (x - p) ∧ p - x ≤ 10 ∧ ¬ at_least (10 ^ 15) m (x - p))
    (λ e, text e = txt ∧ (10 < p - x ∨ at_least (10 ^ 15) m (x - p))) (authored_from_str (D := D) txt).
Proof.
  intros Hl Hj. pose proof (parse_number txt m p x Hl Hj) as H. unfold authored_from_str. destruct (parse_exact txt) as [[d ws]|e| |]; cbn in *; [|..|done|done].
  - destruct H as [Hd ->]. unfold within_envelope. destruct (Z.ltb_spec ENVELOPE_MAX_SCALE (written_places p x)) as [Hw|Hw]; cbn.
    { split; [done|]. left. by apply written_places_least in Hw. }
    pose proof (named_least d m (x - p) (10 ^ 15) ltac:(lia) Hd) as Hn. change ENVELOPE_LIMIT with (10 ^ 15).
    destruct (Z.leb_spec (10 ^ 15 * 10 ^ 28) (Z.abs (units d))) as [Hb|Hb]; cbn; [split; [done|right; by apply Hn]|].
    split_and!; [done| |rewrite Hn; lia]. apply Z.nlt_ge. rewrite <- (written_places_least p x 10) by (unfold i64_max; lia). unfold ENVELOPE_MAX_SCALE in Hw. lia.
  - destruct H as (Ht & _ & Hn & _). split; [done|]. destruct (Z.le_gt_cases (p - x) 10) as [Hp|]; [|by left]. right.
    destruct (decide (at_least (10 ^ 15) m (x - p))) as [|Ha]; [done|]. destruct (envelope_held m p x Hp Ha) as [d Hd]. by destruct (Hn d).
Qed.
End exact.

(** ** The results *)
Section results.
Context {D : Type} `{!DecimalOps D, !DecimalLaws D}.
Implicit Types (d : D) (txt : string) (m p x : Z).

(** Plain notation: a sign, the integer part without leading zeros, and the digits of
    the scale after a point. *)
Definition displayed d : Prop := ∃ sg k w ft f, display d = String.string_of_list_ascii (sg ++ w ++ ft) ∧
  sign_part sg k ∧ int_part w ∧ frac_part ft f ∧ mantissa d = k * digits_value (w ++ f) ∧ scale d = Z.of_nat (length f).

Lemma own_name d : named d (mantissa d) (0 - scale d).
Proof. pose proof (scale_range d). rewrite (named_at d _ _ (28 - scale d) 0) by lia. unfold units. lia. Qed.

Lemma int_part_length (w f : str) v : int_part w → numeric f → digits_value (w ++ f) = v → v < 2 ^ 96 → (length w ≤ 29)%nat.
Proof.
  intros [[Hne Hw] H0] Hf <- Hv. destruct w as [|c w]; [done|]. destruct (decide (c = "0"%char)) as [->|Hc]; [rewrite (H0 w eq_refl); cbn; lia|].
  pose proof (digits_value_least c w Hw Hc). pose proof (digits_value_range f Hf). rewrite digits_value_app in Hv. pose proof (pow10_pos (Z.of_nat (length f)) ltac:(lia)).
  cbn [length]. destruct (Nat.le_gt_cases (length w) 28) as [|Hg]; [lia|].
  assert (10 ^ 29 ≤ 10 ^ Z.of_nat (length w)) by (apply Z.pow_le_mono_r; lia). assert (2 ^ 96 < 10 ^ 29) by done.
  assert (digits_value (c :: w) ≤ digits_value (c :: w) * 10 ^ Z.of_nat (length f)) by nia. lia.
Qed.

Lemma displayed_json d : displayed d → Z.of_nat (String.length (display d)) < 2 ^ 62 ∧ json (display d) (mantissa d) (scale d) 0.
Proof.
  intros (sg & k & w & ft & f & Hd & Hsg & Hw & Hft & Hm & Hs). split.
  - rewrite <- ascii_length, Hd, String.list_ascii_of_string_of_list_ascii, !length_app. pose proof (scale_range d). pose proof (mantissa_range d).
    assert (Hf : numeric f) by (destruct Hft as [|f [_ Hf]]; [constructor|done]).
    assert (Hv : 0 ≤ digits_value (w ++ f)) by (apply digits_value_range, Forall_app; split; [apply Hw|done]).
    pose proof (int_part_length w f _ Hw Hf eq_refl ltac:(destruct Hsg; lia)).
    assert (length sg ≤ 1 ∧ length ft ≤ 1 + length f)%nat as [? ?] by (split; [destruct Hsg|destruct Hft]; cbn; lia). lia.
  - unfold json. rewrite Hd, String.list_ascii_of_string_of_list_ascii.
    apply (number_text_intro _ _ _ _ sg k w ft f []); [by rewrite app_nil_r|done..|constructor|done|done].
Qed.

(** A value with at most ten places is normalized to at most ten. *)
Lemma normal_places d m k : named d m k → -10 ≤ k → scale (normalize d) ≤ 10.
Proof.
  intros Hn Hk. rewrite (named_at d m k (k + 10 + 18) 0), Z.pow_0_r, Z.mul_1_r, <- normalize_units in Hn by lia. unfold units in Hn.
  pose proof (scale_range (normalize d)) as Hs. destruct (Z.le_gt_cases (scale (normalize d)) 10) as [|Hg]; [done|]. exfalso.
  destruct (normalize_minimal d) as [|Hmin]; [lia|]. apply Hmin. rewrite pow10_split in Hn by lia.
  assert (H18 : 10 ^ 18 = 10 ^ (28 - scale (normalize d)) * 10 ^ (scale (normalize d) - 11) * 10).
  { change 10 with (10 ^ 1) at 4. rewrite <- !pow10_split by lia. f_equal. lia. }
  rewrite H18 in Hn.
  pose proof (pow10_unscale_pos (normalize d)). set (q := 10 ^ (28 - scale (normalize d))) in *. set (r := 10 ^ (scale (normalize d) - 11)) in *.
  assert (E : mantissa (normalize d) = (m * 10 ^ (k + 10) * r) * 10) by (apply (Z.mul_cancel_r _ _ q); [lia|]; rewrite Hn; ring).
  rewrite E. apply Z.mod_mul. lia.
Qed.

(** C5. Parsing a decimal is exact or refuses for a reason that is true. A text is
    accepted only when it is a JSON number, and the decimal is then exactly its value,
    with the number of places it was written with; a text refused as not a JSON number
    is none; and any other refusal is of a number no decimal equals, called beyond the
    range only when its integer part needs more than 96 bits. *)
Theorem parse_exact_exact txt : Z.of_nat (String.length txt) < 2 ^ 62 →
  match parse_exact txt with
  | Ok (d, ws) => ∃ m p x, json txt m p x ∧ named (d : D) m (x - p) ∧ ws = written_places p x
  | Err e =>
    if unrepresentable e then ∃ m p x, json txt m p x ∧ refused (D := D) e txt m (x - p)
    else e = mkParseDecError txt "not a JSON number" false ∧ ∀ m p x, ¬ json txt m p x
  | Panic | Hang => False
  end.
Proof.
  intros Hl. destruct (parse_cases (D := D) txt) as [(m & p & x & Hj)|[Hn ->]]; [|done].
  pose proof (parse_number (D := D) txt m p x Hl Hj) as H. destruct (parse_exact txt) as [[d ws]|e| |]; cbn in H; [naive_solver| |done..].
  pose proof H as (_ & -> & _). by exists m, p, x.
Qed.

(** C6. An authored value is held to its envelope: a text is accepted exactly when it
    is a JSON number written with at most ten decimal places and below 10^15 in
    absolute value, and what is kept is exactly that number. *)
Theorem authored_from_str_exact txt : Z.of_nat (String.length txt) < 2 ^ 62 →
  match authored_from_str (D := D) txt with
  | Ok a => ∃ m p x, json txt m p x ∧ named (dec a) m (x - p) ∧ p - x ≤ 10 ∧ Z.abs (units (dec a)) < 10 ^ 15 * 10 ^ 28
  | Err e => text e = txt ∧ ∀ m p x, json txt m p x → 10 < p - x ∨ at_least (10 ^ 15) m (x - p)
  | Panic | Hang => False
  end.
Proof.
  intros Hl. destruct (parse_cases (D := D) txt) as [(m & p & x & Hj)|[Hn E]].
  - pose proof (authored_number (D := D) txt m p x Hl Hj) as H. destruct (authored_from_str txt) as [a|e| |] eqn:E; cbn in H; [| |done..].
    + destruct H as (Hd & Hp & Ha). exists m, p, x. split_and!; [done..|]. rewrite (named_least (dec a) m (x - p)) in Ha by (done || lia). lia.
    + destruct H as [Ht _]. split; [done|]. intros m' p' x' Hj'. pose proof (authored_number (D := D) txt m' p' x' Hl Hj') as H. rewrite E in H. apply H.
  - unfold authored_from_str. rewrite E. cbn. split; [done|]. intros m p x Hj. by destruct (Hn m p x).
Qed.

(** C7. Round trip: where the decimal crate displays the normalized value in plain
    notation, the text a decimal is written as parses to the same value; and an
    authored value is accepted again from its own text. *)
Theorem text_roundtrip d : displayed (normalize d) →
  (∃ d', dec_from_str (to_string d) = Ok d' ∧ units d' = units d) ∧
  ∀ txt, Z.of_nat (String.length txt) < 2 ^ 62 → authored_from_str txt = Ok (Authored d) →
    ∃ a, authored_from_str (to_string d) = Ok a ∧ units (dec a) = units d.
Proof.
  intros Hd. destruct (displayed_json _ Hd) as [Hl Hj]. fold (to_string d) in Hl, Hj. rewrite <- (normalize_units d). pose proof (own_name (normalize d)) as Hn. split.
  - pose proof (parse_number (D := D) _ _ _ _ Hl Hj) as H. unfold dec_from_str. destruct (parse_exact (to_string d)) as [[d' ws]|e| |]; cbn in H; [| |done..].
    + exists d'. split; [done|]. by eapply named_value; [apply H|].
    + destruct H as (_ & _ & H & _). by destruct (H (normalize d)).
  - intros txt Hlt Ha. pose proof (authored_number (D := D) _ _ _ _ Hl Hj) as H. destruct (authored_from_str (to_string d)) as [a|e| |]; cbn in H; [| |done..].
    + exists a. split; [done|]. by eapply named_value; [apply H|].
    + exfalso. destruct (parse_cases (D := D) txt) as [(m & p & x & Hj')|[_ E]]; [|unfold authored_from_str in Ha; rewrite E in Ha; done].
      pose proof (authored_number (D := D) txt m p x Hlt Hj') as H'. rewrite Ha in H'. cbn in H'. destruct H' as (Hd' & Hp & Hs), H as [_ [H|H]].
      * pose proof (normal_places d m (x - p) Hd' ltac:(lia)). lia.
      * rewrite (named_least (normalize d)), normalize_units in H by (done || lia). rewrite (named_least d) in Hs by (done || lia). done.
Qed.
End results.

(** ** Integer keys *)
Section key_results.
Context {A : Type}.
Implicit Types (raw : list (string * A)) (keys : list N).

(** The number a key spells, if it is one of eight bits in decimal digits. *)
Definition key_of (k : string) : option N :=
  let ks := String.list_ascii_of_string k in
  if all_digits ks && (digits_value ks <? 256) then Some (Z.to_N (digits_value ks)) else None.

Definition numbered raw keys : Prop := Forall2 (λ e k, key_of e.1 = Some k) raw keys.

Lemma insert_key_spec (out : gmap N A) e : returns (λ out', ∃ k, key_of e.1 = Some k ∧ out !! k = None ∧ out' = <[k := e.2]> out)
  (λ _, key_of e.1 = None ∨ ∃ k, key_of e.1 = Some k ∧ is_Some (out !! k)) (insert_key out e).
Proof.
  destruct e as [k v]. cbn. unfold key_of, parse_u8. destruct (all_digits (String.list_ascii_of_string k)); cbn; [|by left].
  destruct (digits_value (String.list_ascii_of_string k) <? 256); cbn; [|by left]. set (n := Z.to_N _).
  destruct (out !! n) as [w|] eqn:E; cbn; [right|]; exists n; rewrite E; eauto.
Qed.

Lemma numbered_unique raw keys keys' : numbered raw keys → numbered raw keys' → keys = keys'.
Proof. intros H. revert keys'. induction H as [|e k raw keys Hk _ IH]; intros keys' H'; inversion H' as [|? k' ? ? Hk']; simplify_eq; [done|]. f_equal. by apply IH. Qed.

(** String keys are accepted exactly when each is one to any number of digits worth
    less than 256 and no two spell the same number; each entry is then kept under
    the number its key spells. *)
Theorem parse_u8_keys_exact raw :
  match parse_u8_keys raw with
  | Ok out => ∃ keys, numbered raw keys ∧ NoDup keys ∧ out = list_to_map (zip keys raw.*2)
  | Err _ => ∀ keys, numbered raw keys → ¬ NoDup keys
  | Panic | Hang => False
  end.
Proof.
  assert (H : returns (λ out, ∃ keys, numbered raw keys ∧ NoDup keys ∧ out = list_to_map (zip keys raw.*2)) (λ _, ∀ keys, numbered raw keys → ¬ NoDup keys) (parse_u8_keys raw));
    [|by destruct (parse_u8_keys raw)].
  apply (returns_fold _ (λ pre out, ∃ keys, numbered pre keys ∧ NoDup keys ∧ out = list_to_map (zip keys pre.*2))).
  { exists []. split_and!; [constructor|constructor|done]. }
  intros pre e post out Hraw (keys & Hk & Hnd & ->).
  assert (Hdom : ∀ k, list_to_map (M := gmap N A) (zip keys pre.*2) !! k = None ↔ k ∉ keys).
  { intros k. rewrite <- not_elem_of_list_to_map, fst_zip; [done|]. rewrite length_fmap. by rewrite (Forall2_length _ _ _ Hk). }
  eapply returns_weaken; [apply insert_key_spec|..].
  - intros out' (k & Hek & Hn%Hdom & ->). exists (keys ++ [k]). split_and!.
    + apply Forall2_app; [done|]. by repeat constructor.
    + apply NoDup_app. split_and!; [done| |apply NoDup_singleton]. set_solver.
    + rewrite fmap_app, zip_with_app by (by rewrite length_fmap, (Forall2_length _ _ _ Hk)). cbn. symmetry. apply list_to_map_snoc.
      rewrite fst_zip; [done|]. by rewrite length_fmap, (Forall2_length _ _ _ Hk).
  - intros why Herr keys' Hall. rewrite Hraw in Hall. apply Forall2_app_inv_l in Hall as (k1 & k2 & H1 & H2 & ->). inversion H2 as [|? k ? k2' Hek ? E1 E2]. subst.
    rewrite (numbered_unique _ _ _ H1 Hk). destruct Herr as [Herr|(k' & Hek' & [v Hv])]; [congruence|]. assert (k' = k) as -> by congruence.
    intros (_ & Hd & _)%NoDup_app. apply (Hd k); [|by left]. destruct (decide (k ∈ keys)) as [|Hni]; [done|]. apply Hdom in Hni. congruence.
Qed.
End key_results.

(** ** Concrete texts *)
Module TextWitness.
Import Ref.
#[local] Open Scope string_scope.

(** A written scale counts the exponent; too fine, too large, and no number. *)
Example parse_places : parse_exact (D := rdec) "-12.50e1" = Ok (of_mantissa (-1250) 1, 1).
Proof. vm_compute. reflexivity. Qed.
Example parse_fine : parse_exact (D := rdec) "1e-29" = Err (mkParseDecError "1e-29" PRECISION true).
Proof. vm_compute. reflexivity. Qed.
Example parse_large : parse_exact (D := rdec) "1E+99999999999999999999" = Err (mkParseDecError "1E+99999999999999999999" RANGE true).
Proof. vm_compute. reflexivity. Qed.
Example parse_leading_zero : parse_exact (D := rdec) "01" = Err (mkParseDecError "01" "not a JSON number" false).
Proof. vm_compute. reflexivity. Qed.
Example zero_with_places : authored_from_str (D := rdec) "0e-11" = Err (mkParseDecError "0e-11" "an authored value may have at most 10 decimal places" false).
Proof. vm_compute. reflexivity. Qed.

Lemma parse_exact_exact_witness :
  (∃ m p x, json "-12.50e1" m p x ∧ named (of_mantissa (-1250) 1) m (x - p) ∧ 1 = written_places p x) ∧ ∀ m p x, ¬ json "01" m p x.
Proof.
  split.
  - pose proof (parse_exact_exact (D := rdec) "-12.50e1" ltac:(vm_compute; reflexivity)) as H. rewrite parse_places in H. exact H.
  - pose proof (parse_exact_exact (D := rdec) "01" ltac:(vm_compute; reflexivity)) as H. rewrite parse_leading_zero in H. exact (proj2 H).
Defined.

Example authored_price : authored_from_str (D := rdec) "2.50" = Ok (Authored (of_mantissa 250 2)).
Proof. vm_compute. reflexivity. Qed.

Lemma authored_from_str_exact_witness :
  (∃ m p x, json "2.50" m p x ∧ named (of_mantissa 250 2) m (x - p) ∧ (p - x ≤ 10)%Z ∧ (Z.abs (units (of_mantissa 250 2)) < 10 ^ 15 * 10 ^ 28)%Z) ∧
  ∀ m p x, json "0e-11" m p x → (10 < p - x)%Z ∨ at_least (10 ^ 15) m (x - p).
Proof.
  split.
  - pose proof (authored_from_str_exact (D := rdec) "2.50" ltac:(vm_compute; reflexivity)) as H. rewrite authored_price in H. exact H.
  - pose proof (authored_from_str_exact (D := rdec) "0e-11" ltac:(vm_compute; reflexivity)) as H. rewrite zero_with_places in H. exact (proj2 H).
Defined.

Example two_spellings : parse_u8_keys [("01", "a"); ("1", "b")] = Err "duplicate integer key 1: the map spells it more than one way".
Proof. vm_compute. reflexivity. Qed.
Example signed_key : parse_u8_keys [("+5", "a")] = Err "invalid integer key '+5': expected decimal digits only".
Proof. vm_compute. reflexivity. Qed.

Definition price : rdec := of_mantissa (-1250) 2.
Example price_authored : authored_from_str "-12.50" = Ok (Authored price).
Proof. vm_compute. reflexivity. Qed.
Lemma price_displayed : displayed (normalize price).
Proof.
  exists ["-"%char], (-1), ["1"%char; "2"%char], ["."%char; "5"%char], ["5"%char].
  split_and!; [by vm_compute|constructor| |constructor; split; [done|by repeat constructor]|by vm_compute..].
  split; [split; [done|by repeat constructor]|]. intros rest H. discriminate H.
Qed.

Lemma text_roundtrip_witness : ∃ a, authored_from_str (to_string price) = Ok a ∧ units (dec a) = units price.
Proof.
  destruct (text_roundtrip price price_displayed) as [_ H]. exact (H "-12.50" ltac:(vm_compute; reflexivity) price_authored).
Defined.
End TextWitness.
