(* ===== verification/Allocate.v ===== *)
(** * Largest-remainder allocation: [Dec::allocate_largest_remainder]

    Splits a cap across shares in whole units of 10^-scale. The binary
    calculator uses it to share a per-period cap among a distributor's income
    centres. The theorems show that the parts add up to the cap exactly, that
    each is within one unit of the proportional share, and that a zero share
    is never paid. *)

From stdpp Require Import base numbers list sorting gmap.
From Stdlib Require Import ZArith Lia.
From S2P Require Import Prelude RustDecimal Dec.
#[local] Open Scope Z_scope.

Section allocate.
Context {D : Type} `{!DecimalOps D}.

(** [remainders[b].cmp(&remainders[a]).then(a.cmp(&b))]: largest remainder
    first, then the lower index. The indices are those of the list. *)
Definition remainder_order (remainders : list Z) (a b : nat) : comparison :=
  then_with (nth b remainders 0 ?= nth a remainders 0) (a ?= b)%nat.

(** One more unit for each index in order, until nothing is left over. *)
Fixpoint give_leftover (order : list nat) (us : list Z) (leftover : Z) : list Z :=
  match order with
  | [] => us
  | i :: order' =>
  if leftover =? 0 then us
  else give_leftover order' (alter (λ u, i512 (u + 1)) i us) (i512 (leftover - 1))
  end.

Definition allocate_largest_remainder (shares : list D) (cap : D) (sc : Z)
  : outcome (NumericError D) (list D) :=
  let count := from_usize (Z.of_nat (length shares)) in
  let err kind := Err (error cap (OpAllocate sc) count kind) in
  if MAX_SCALE <? sc then err Precision
  else if is_negative cap || existsb is_negative shares then err Negative
  else
  let common := max_scale shares (Z.max (scale cap) sc) in
  let total_int := foldl (λ t s, i512 (t + at_common common s)) 0 shares in
  if total_int =? 0 then err DivisionByZero
  else
  let unit := pow10 (common - sc) in
  let cap_int := at_common common cap in
  if negb (Z.rem cap_int unit =? 0) then err NotWholeUnits
  else
    let cap_units := Z.quot cap_int unit in
    let numerators := map (λ s, i512 (at_common common s * cap_units)) shares in
    let us := map (λ n, Z.quot n total_int) numerators in
    let remainders := map (λ n, Z.rem n total_int) numerators in
    let leftover := foldl (λ l u, i512 (l - u)) cap_units us in
    let order := sort_by (remainder_order remainders) (seq 0 (length shares)) in
    map_outcome (λ u, map_err (error cap (OpAllocate sc) count) (fit u sc))
      (give_leftover order us leftover).
End allocate.

(** ** The integer core *)

Definition sumZ (l : list Z) : Z := foldr Z.add 0 l.

Lemma sumZ_app l k : sumZ (l ++ k) = sumZ l + sumZ k.
Proof. induction l; simpl; lia. Qed.

Lemma sumZ_alter (f : Z → Z) i l u : l !! i = Some u →
  sumZ (alter f i l) = sumZ l + (f u - u).
Proof.
  revert i. induction l as [|x l IH]; intros [|i] Hi; simplify_eq/=; [lia|].
  change (x + sumZ (alter f i l) = x + sumZ l + (f u - u)). rewrite (IH i Hi). lia.
Qed.

Lemma sumZ_nonneg l : Forall (λ x, 0 ≤ x) l → 0 ≤ sumZ l.
Proof. induction 1; simpl; lia. Qed.

Lemma sumZ_ge l x : Forall (λ x, 0 ≤ x) l → x ∈ l → x ≤ sumZ l.
Proof.
  induction 1 as [|y l Hy Hl IH]; [set_solver|]. simpl.
  pose proof (sumZ_nonneg l Hl). intros [->|Hin]%elem_of_cons; [lia|]. specialize (IH Hin). lia.
Qed.

Lemma give_leftover_length order us leftover :
  length (give_leftover order us leftover) = length us.
Proof.
  revert us leftover. induction order as [|j order IH]; intros us leftover; simpl; [done|].
  destruct (leftover =? 0); [done|]. by rewrite IH, length_alter.
Qed.

(** [give_leftover] serves exactly the first [leftover] indices of the order. *)
Lemma give_leftover_spec order us leftover :
  NoDup order →
  (∀ i, i ∈ order → ∃ u, us !! i = Some u ∧ 0 ≤ u < 2 ^ 510) →
  0 ≤ leftover < 2 ^ 510 →
  length (give_leftover order us leftover) = length us ∧
  ∀ i u, us !! i = Some u →
    give_leftover order us leftover !! i =
      Some (if bool_decide (i ∈ take (Z.to_nat leftover) order) then u + 1 else u).
Proof.
  assert (Hpow : 2 ^ 510 + 1 < 2 ^ 511) by reflexivity.
  revert us leftover. induction order as [|j order IH]; intros us leftover Hnd Hin Hl.
  { simpl. split; [done|]. intros i u Hi. rewrite take_nil.
    rewrite bool_decide_eq_false_2 by set_solver. done. }
  simpl. destruct (Z.eqb_spec leftover 0) as [->|Hne].
  { split; [done|]. intros i u Hi. by rewrite bool_decide_eq_false_2 by set_solver. }
  apply NoDup_cons in Hnd as [Hj Hnd].
  rewrite (i512_id (leftover - 1)) by (unfold in_i512; lia).
  destruct (Hin j) as (uj & Huj & Hujb); [left|].
  destruct (IH (alter (λ u, i512 (u + 1)) j us) (leftover - 1)) as [IH1 IH2]; [done| |lia|].
  { intros i Hi. rewrite list_lookup_alter_ne by set_solver. apply Hin. by right. }
  split; [by rewrite IH1, length_alter|]. intros i u Hi.
  replace (Z.to_nat leftover) with (S (Z.to_nat (leftover - 1))) by lia. rewrite firstn_cons.
  destruct (decide (i = j)) as [->|Hij].
  - rewrite (IH2 j (u + 1)).
    + rewrite bool_decide_eq_false_2.
      * rewrite bool_decide_eq_true_2 by set_solver. done.
      * intros (k & Hk & _)%elem_of_take. apply Hj. by eapply list_elem_of_lookup_2.
    + simplify_eq. rewrite list_lookup_alter_eq, Huj. simpl.
      rewrite i512_id by (unfold in_i512; lia). done.
  - rewrite (IH2 i u) by (by rewrite list_lookup_alter_ne). f_equal.
    erewrite bool_decide_ext; [done | set_solver].
Qed.

Lemma give_leftover_sum order us leftover :
  NoDup order →
  (∀ i, i ∈ order → ∃ u, us !! i = Some u ∧ 0 ≤ u < 2 ^ 510) →
  0 ≤ leftover ≤ Z.of_nat (length order) → leftover < 2 ^ 510 →
  sumZ (give_leftover order us leftover) = sumZ us + leftover.
Proof.
  assert (Hpow : 2 ^ 510 + 1 < 2 ^ 511) by reflexivity.
  revert us leftover. induction order as [|j order IH]; intros us leftover Hnd Hin Hl Hb;
    simpl in *; [lia|].
  destruct (Z.eqb_spec leftover 0) as [->|Hne]; [lia|].
  apply NoDup_cons in Hnd as [Hj Hnd]. destruct (Hin j) as (uj & Huj & Hujb); [left|].
  rewrite (i512_id (leftover - 1)) by (unfold in_i512; lia).
  rewrite IH; [|done| |lia|lia].
  - erewrite sumZ_alter by done. simpl. rewrite i512_id by (unfold in_i512; lia). lia.
  - intros i Hi. rewrite list_lookup_alter_ne by set_solver. apply Hin. by right.
Qed.

(** Quotients and remainders of the numerators over their total. *)
Section split.
Context (xs : list Z) (T C : Z) (HT : 0 < T) (HC : 0 ≤ C).
Context (Hxs : Forall (λ x, 0 ≤ x) xs) (Hsum : sumZ xs = T).

Let us := map (λ x, (x * C) / T) xs.
Let rs := map (λ x, (x * C) mod T) xs.

Lemma split_identity (l : list Z) :
  T * sumZ (map (λ x, (x * C) / T) l) + sumZ (map (λ x, (x * C) mod T) l) = sumZ l * C.
Proof.
  induction l as [|x l IH]; simpl; [lia|].
  pose proof (Z.div_mod (x * C) T ltac:(lia)). nia.
Qed.

(** What is left over is the number of whole totals the remainders make up. *)
Lemma split_leftover : sumZ rs = T * (C - sumZ us).
Proof. pose proof (split_identity xs). unfold us, rs. nia. Qed.

Lemma remainders_bound (l : list Z) :
  0 ≤ sumZ (map (λ x, (x * C) mod T) l) ≤
  (T - 1) * Z.of_nat (length (filter (λ r, r ≠ 0) (map (λ x, (x * C) mod T) l))).
Proof.
  induction l as [|x l IH]; simpl; [lia|].
  pose proof (Z.mod_pos_bound (x * C) T HT). rewrite filter_cons.
  case_decide; simpl; [|lia]. rewrite Nat2Z.inj_succ. lia.
Qed.

(** The leftover is at most the number of non-zero remainders. *)
Lemma leftover_bound :
  0 ≤ C - sumZ us ≤ Z.of_nat (length (filter (λ r, r ≠ 0) rs)).
Proof.
  pose proof split_leftover. pose proof (remainders_bound xs). unfold us, rs in *. nia.
Qed.
End split.

(** ** The order of service *)
Section order.
Context (rs : list Z).
Local Abbreviation leb := (cmp_leb (remainder_order rs)).

Lemma remainder_leb i j :
  leb i j = true ↔ nth j rs 0 < nth i rs 0 ∨ (nth j rs 0 = nth i rs 0 ∧ (i ≤ j)%nat).
Proof.
  unfold cmp_leb, remainder_order. destruct (Z.compare_spec (nth j rs 0) (nth i rs 0)); simpl.
  - destruct (Nat.compare_spec i j); naive_solver lia.
  - naive_solver lia.
  - naive_solver lia.
Qed.

Lemma remainder_leb_total i j : leb i j = true ∨ leb j i = true.
Proof. rewrite !remainder_leb. lia. Qed.

Lemma remainder_leb_trans i j k : leb i j = true → leb j k = true → leb i k = true.
Proof. rewrite !remainder_leb. lia. Qed.

Lemma nonzero_count :
  length (filter (λ r, r ≠ 0) rs) = length (filter (λ i, nth i rs 0 ≠ 0) (seq 0 (length rs))).
Proof.
  assert (Hrs : rs = (λ i, nth i rs 0) <$> seq 0 (length rs)).
  { apply list_eq. intros i. rewrite list_lookup_fmap.
    destruct (decide (i < length rs)%nat) as [Hi|Hi].
    - rewrite lookup_seq_lt by done. simpl. rewrite nth_lookup.
      destruct (lookup_lt_is_Some_2 rs i Hi) as [r ->]. done.
    - rewrite lookup_seq_ge by lia. apply lookup_ge_None. lia. }
  rewrite Hrs at 1. rewrite list_filter_fmap, length_fmap. done.
Qed.

(** An index with no remainder is served after every index that has one. *)
Lemma zero_remainder_not_served i L :
  Forall (λ r, 0 ≤ r) rs →
  (L ≤ length (filter (λ r, r ≠ 0%Z) rs))%nat → nth i rs 0 = 0 →
  i ∉ take L (sort_by (remainder_order rs) (seq 0 (length rs))).
Proof.
  intros Hpos HL Hi. set (order := sort_by _ _).
  intros (k & Hk & HkL)%elem_of_take.
  pose proof (sort_by_sorted _ remainder_leb_total remainder_leb_trans (seq 0 (length rs))) as Hs.
  fold order in Hs.
  assert (Hp : order ≡ₚ seq 0 (length rs)) by apply sort_by_perm.
  assert (Hnn : ∀ j, 0 ≤ nth j rs 0).
  { intros j. rewrite nth_lookup. destruct (rs !! j) eqn:E; simpl; [|lia].
  rewrite Forall_forall in Hpos. apply Hpos. by eapply list_elem_of_lookup_2. }
  assert (Hcount : length (filter (λ j, nth j rs 0 ≠ 0) order) = length (filter (λ r, r ≠ 0) rs)).
  { rewrite nonzero_count. by rewrite Hp. }
  assert (Hdrop : filter (λ j, nth j rs 0 ≠ 0) (drop k order) = []).
  { rewrite (drop_S order i k Hk).
  rewrite <- (take_drop_middle _ _ _ Hk) in Hs.
  apply StronglySorted_app_1_r in Hs. apply StronglySorted_inv in Hs as [_ Hall].
  rewrite filter_cons_False by lia.
  apply filter_all_false. intros j Hj. rewrite Forall_forall in Hall.
  specialize (Hall j Hj). apply remainder_leb in Hall. specialize (Hnn j). lia. }
  rewrite <- (take_drop k order), filter_app, Hdrop, app_nil_r in Hcount.
  pose proof (length_filter (λ j, nth j rs 0 ≠ 0) (take k order)).
  rewrite length_take in *. lia.
Qed.
End order.

(** ** The allocation in integers: parts of [C] in proportion to [xs]. *)
Section parts.
Context (xs : list Z) (T C : Z) (HT : 0 < T) (HC : 0 ≤ C < 2 ^ 200).
Context (Hxs : Forall (λ x, 0 ≤ x) xs) (Hsum : sumZ xs = T).

Definition quotas : list Z := map (λ x, (x * C) / T) xs.
Definition leftovers : list Z := map (λ x, (x * C) mod T) xs.
Definition parts : list Z :=
  give_leftover (sort_by (remainder_order leftovers) (seq 0 (length xs)))
  quotas (C - sumZ quotas).

Lemma quota_range x : x ∈ xs → 0 ≤ (x * C) / T ≤ C.
Proof.
  intros Hx. rewrite Forall_forall in Hxs. pose proof (Hxs x Hx).
  pose proof (sumZ_ge xs x (proj2 (Forall_forall _ _) Hxs) Hx).
  split; [apply Z.div_pos; nia|].
  apply Z.div_le_upper_bound; nia.
Qed.

Lemma order_serves i :
  i ∈ sort_by (remainder_order leftovers) (seq 0 (length xs)) →
  ∃ u, quotas !! i = Some u ∧ 0 ≤ u < 2 ^ 510.
Proof.
  rewrite sort_by_perm, elem_of_seq. intros [_ Hi]. simpl in Hi.
  destruct (lookup_lt_is_Some_2 xs i Hi) as [x Hx].
  exists ((x * C) / T). split; [by apply (lookup_map_Some (λ x, (x * C) / T))|].
  pose proof (quota_range x (list_elem_of_lookup_2 _ _ _ Hx)).
  assert (2 ^ 200 < 2 ^ 510) by reflexivity. lia.
Qed.

Lemma parts_leftover : 0 ≤ C - sumZ quotas ≤ Z.of_nat (length (filter (λ r, r ≠ 0) leftovers)).
Proof. apply leftover_bound; auto; lia. Qed.

Lemma parts_sum : sumZ parts = C.
Proof.
  pose proof parts_leftover as HL. assert (2 ^ 200 < 2 ^ 510) by reflexivity.
  assert (Hlen : (length (filter (λ r, r ≠ 0%Z) leftovers) ≤ length xs)%nat).
  { etrans; [apply length_filter|]. unfold leftovers. by rewrite length_map. }
  unfold parts. rewrite give_leftover_sum; [lia| | | |].
  - rewrite sort_by_perm. apply NoDup_seq.
  - exact order_serves.
  - rewrite sort_by_perm, length_seq. lia.
  - assert (0 ≤ sumZ quotas); [|lia]. apply sumZ_nonneg. unfold quotas.
    rewrite Forall_forall. intros u (x & -> & Hx)%elem_of_map.
    by apply quota_range.
Qed.

Lemma parts_lookup i x : xs !! i = Some x →
  ∃ u, parts !! i = Some u ∧ (x * C) / T ≤ u ≤ (x * C) / T + 1 ∧
   ((x * C) mod T = 0 → u = (x * C) / T).
Proof.
  intros Hx. pose proof parts_leftover as HL. assert (2 ^ 200 < 2 ^ 510) by reflexivity.
  assert (Hquo : 0 ≤ sumZ quotas).
  { apply sumZ_nonneg. rewrite Forall_forall. intros u (y & -> & Hy)%elem_of_map.
  by apply quota_range. }
  assert (Hq : quotas !! i = Some ((x * C) / T)) by (by apply (lookup_map_Some (λ x, (x * C) / T))).
  unfold parts. destruct (give_leftover_spec (sort_by (remainder_order leftovers)
  (seq 0 (length xs))) quotas (C - sumZ quotas)) as [_ Hl].
  { rewrite sort_by_perm. apply NoDup_seq. }
  { exact order_serves. }
  { lia. }
  rewrite (Hl i _ Hq). eexists. split; [done|]. split; [case_bool_decide; lia|].
  intros Hz. rewrite bool_decide_eq_false_2; [done|].
  replace (length xs) with (length leftovers) by (unfold leftovers; by rewrite length_map).
  apply zero_remainder_not_served.
  - rewrite Forall_forall. intros r (y & -> & _)%elem_of_map. apply Z.mod_pos_bound. lia.
  - lia.
  - rewrite nth_lookup. unfold leftovers. by erewrite lookup_map_Some.
Qed.

Lemma parts_length : length parts = length xs.
Proof. unfold parts. rewrite give_leftover_length. apply length_map. Qed.
End parts.

(** ** The allocation of decimals *)
Section allocate_spec.
Context {D : Type} `{!DecimalOps D} `{!DecimalLaws D}.

Lemma is_negative_units (d : D) : is_negative d = (units d <? 0).
Proof.
  unfold is_negative. rewrite compare_units, zero_units. unfold Z.ltb. by destruct (_ ?= _).
Qed.

Lemma fold_add_sum common (l : list D) t : common ≤ 28 → (∀ d, d ∈ l → scale d ≤ common) →
  Z.abs t + Z.of_nat (length l) * 2 ^ 190 < 2 ^ 511 →
  foldl (λ t v, i512 (t + at_common common v)) t l = t + sumZ (map (at_common common) l).
Proof.
  intros Hc. revert t. induction l as [|x l IH]; intros t Hl Hb; simpl; [lia|].
  destruct (at_common_exact common x) as (_ & Hx & Hu); [split; [apply Hl; left|lia]|].
  simpl in Hb. rewrite Nat2Z.inj_succ in Hb.
  rewrite i512_id by (unfold in_i512; lia). rewrite IH; [lia| |lia].
  intros d Hd. apply Hl. by right.
Qed.

Lemma fold_sub_sum us C : Forall (λ u, 0 ≤ u) us → 0 ≤ C < 2 ^ 510 → sumZ us ≤ C →
  foldl (λ l u, i512 (l - u)) C us = C - sumZ us.
Proof.
  intros Hu. revert C. induction Hu as [|u us Hu Hus IH]; intros C HC Hs; simpl in *; [lia|].
  pose proof (sumZ_nonneg us Hus). assert (2 ^ 510 < 2 ^ 511) by reflexivity.
  rewrite i512_id by (unfold in_i512; lia). rewrite IH; lia.
Qed.

Context (shares : list D) (cap : D) (sc : Z).
Context (Hlen : Z.of_nat (length shares) < 2 ^ 64) (Hsc : 0 ≤ sc ≤ 28).
Context (Hcap : 0 ≤ units cap) (Hshares : ∀ d, d ∈ shares → 0 ≤ units d).
Context (Htotal : 0 < total_units shares) (Hwhole : (10 ^ (28 - sc) | units cap)).

Let common := max_scale shares (Z.max (scale cap) sc).
Let xs := map (at_common common) shares.
Let T := sumZ xs.
Let C := units cap / 10 ^ (28 - sc).

Lemma common_bounds : Z.max (scale cap) sc ≤ common ≤ 28 ∧ ∀ d, d ∈ shares → scale d ≤ common.
Proof. apply max_scale_bounds. pose proof (scale_range cap). lia. Qed.

Lemma common_unit_pos : 0 < 10 ^ (28 - common).
Proof. apply pow10_pos. destruct common_bounds. lia. Qed.

Lemma xs_nonneg : Forall (λ x, 0 ≤ x) xs.
Proof.
  rewrite Forall_forall. intros x (d & -> & Hd)%elem_of_map.
  destruct common_bounds as [? Hb].
  destruct (at_common_exact common d) as (_ & _ & Hu); [specialize (Hb d Hd); lia|].
  pose proof (Hshares d Hd). pose proof common_unit_pos. nia.
Qed.

Lemma sum_xs l : (∀ d, d ∈ l → d ∈ shares) →
  sumZ (map (at_common common) l) * 10 ^ (28 - common) = total_units l.
Proof.
  induction l as [|d l IH]; intros Hl; simpl; [done|].
  destruct common_bounds as [? Hb].
  destruct (at_common_exact common d) as (_ & _ & Hu).
  { specialize (Hb d ltac:(apply Hl; left)). lia. }
  rewrite Z.mul_add_distr_r, Hu, IH; [done|]. intros e He. apply Hl. by right.
Qed.

Lemma T_units : T * 10 ^ (28 - common) = total_units shares.
Proof. by apply sum_xs. Qed.

Lemma T_pos : 0 < T.
Proof. pose proof T_units. pose proof common_unit_pos. nia. Qed.

Lemma cap_units : units cap = C * 10 ^ (28 - sc).
Proof.
  destruct Hwhole as [k Hk]. unfold C. rewrite Hk.
  rewrite Z.div_mul; [done|]. pose proof (pow10_pos (28 - sc)). lia.
Qed.

Lemma cap_int : at_common common cap = C * 10 ^ (common - sc).
Proof.
  destruct common_bounds. pose proof common_unit_pos.
  destruct (at_common_exact common cap) as (_ & _ & Hu); [lia|].
  rewrite cap_units in Hu. replace (28 - sc) with ((common - sc) + (28 - common)) in Hu by lia.
  rewrite pow10_split in Hu by lia. nia.
Qed.

Lemma C_range : 0 ≤ C < 2 ^ 190.
Proof.
  destruct common_bounds. destruct (at_common_exact common cap) as (_ & Hr & _); [lia|].
  rewrite cap_int in Hr. pose proof (pow10_pos (common - sc)).
  pose proof (pow10_pos (28 - sc)). pose proof cap_units. nia.
Qed.

Lemma x_range x : x ∈ xs → 0 ≤ x < 2 ^ 190.
Proof.
  intros Hx. pose proof xs_nonneg as Hn. rewrite Forall_forall in Hn. pose proof (Hn x Hx).
  apply elem_of_map in Hx as (d & -> & Hd). destruct common_bounds as [? Hb].
  destruct (at_common_exact common d) as (_ & Hr & _); [specialize (Hb d Hd); lia|]. lia.
Qed.
Lemma numerators_exact :
  map (λ s, i512 (at_common common s * C)) shares = map (λ x, x * C) xs.
Proof.
  unfold xs. rewrite map_map. apply map_ext_in. intros d Hd%list_elem_of_In.
  apply i512_id. unfold in_i512. pose proof C_range.
  pose proof (x_range (at_common common d)) as Hx.
  specialize (Hx ltac:(apply elem_of_map; eauto)).
  assert (2 ^ 190 * 2 ^ 190 < 2 ^ 511) by reflexivity. rewrite Z.abs_eq; nia.
Qed.

Lemma quot_exact : map (λ n, Z.quot n T) (map (λ x, x * C) xs) = quotas xs T C.
Proof.
  unfold quotas. rewrite map_map. apply map_ext_in. intros x Hx%list_elem_of_In.
  pose proof (x_range x Hx). pose proof C_range. pose proof T_pos.
  apply Z.quot_div_nonneg; nia.
Qed.

Lemma rem_exact : map (λ n, Z.rem n T) (map (λ x, x * C) xs) = leftovers xs T C.
Proof.
  unfold leftovers. rewrite map_map. apply map_ext_in. intros x Hx%list_elem_of_In.
  pose proof (x_range x Hx). pose proof C_range. pose proof T_pos.
  apply Z.rem_mod_nonneg; nia.
Qed.

Lemma C_range_200 : 0 ≤ C < 2 ^ 200.
Proof. pose proof C_range. assert (2 ^ 190 < 2 ^ 200) by reflexivity. lia. Qed.

Lemma allocate_parts :
  allocate_largest_remainder shares cap sc =
  map_outcome (λ u, map_err (error cap (OpAllocate sc)
  (from_usize (Z.of_nat (length shares)))) (fit u sc)) (parts xs T C).
Proof.
  unfold allocate_largest_remainder.
  destruct (Z.ltb_spec MAX_SCALE sc) as [?|_]; [unfold MAX_SCALE in *; lia|].
  rewrite is_negative_units. destruct (Z.ltb_spec (units cap) 0) as [?|_]; [lia|]. simpl.
  destruct (existsb is_negative shares) eqn:Hneg.
  { exfalso. apply existsb_exists in Hneg as (d & Hd%list_elem_of_In & Hn).
  rewrite is_negative_units in Hn. apply Z.ltb_lt in Hn. specialize (Hshares d Hd). lia. }
  fold common. destruct common_bounds as [Hc Hcs].
  assert (2 ^ 64 * 2 ^ 190 < 2 ^ 511) by reflexivity.
  rewrite (fold_add_sum common shares 0) by (try done; lia). rewrite Z.add_0_l.
  fold xs. fold T. pose proof T_pos. pose proof C_range_200.
  destruct (Z.eqb_spec T 0) as [?|_]; [lia|].
  pose proof (pow10_pos (common - sc)) as Hp.
  rewrite pow10_id, cap_int, Z.rem_mul by lia. simpl.
  rewrite Z.quot_mul by lia. rewrite numerators_exact, quot_exact, rem_exact.
  assert (2 ^ 200 < 2 ^ 510) by reflexivity.
  pose proof (parts_leftover xs T C T_pos C_range_200 eq_refl).
  rewrite fold_sub_sum; [|rewrite Forall_forall; intros u (x & -> & Hx)%elem_of_map|lia|lia].
  - unfold parts. do 3 f_equal. unfold xs. by rewrite length_map.
  - by apply (quota_range xs T C T_pos C_range_200 xs_nonneg eq_refl).
Qed.

Lemma part_range u : u ∈ parts xs T C → 0 ≤ u ≤ C.
Proof.
  intros [i Hi]%list_elem_of_lookup.
  pose proof (parts_sum xs T C T_pos C_range_200 xs_nonneg eq_refl) as Hs.
  assert (Hp : Forall (λ u, 0 ≤ u) (parts xs T C)).
  { rewrite Forall_lookup. intros j v Hj.
  assert (Hjx : (j < length xs)%nat).
  { apply lookup_lt_Some in Hj. by rewrite parts_length in Hj. }
  apply lookup_lt_is_Some_2 in Hjx as [x Hx].
  destruct (parts_lookup xs T C T_pos C_range_200 xs_nonneg eq_refl j x Hx) as (w & Hw & Hb & _).
  assert (w = v) as -> by congruence. pose proof (quota_range xs T C T_pos C_range_200 xs_nonneg eq_refl x
  (list_elem_of_lookup_2 _ _ _ Hx)). lia. }
  pose proof (sumZ_ge _ u Hp (list_elem_of_lookup_2 _ _ _ Hi)).
  rewrite Forall_lookup in Hp. specialize (Hp i u Hi). lia.
Qed.

Lemma fitted_total us (out : list D) :
  Forall2 (λ u d, units d = u * 10 ^ (28 - sc)) us out →
  total_units out = sumZ us * 10 ^ (28 - sc).
Proof. induction 1; simpl; lia. Qed.

Lemma fit_at u (d : D) : Z.abs u < 2 ^ 511 → fit u sc = Ok d → units d = u * 10 ^ (28 - sc).
Proof.
  intros Hu Hd. pose proof (fit_units u sc d ltac:(lia) Hu Hd) as Heq.
  replace 28 with (28 - sc + sc) in Heq at 1 by lia. rewrite pow10_split in Heq by lia.
  pose proof (pow10_pos sc). nia.
Qed.

(** Whatever the cap: the parts that can be held add up to it. *)
Lemma allocate_returns : returns (λ out, length out = length shares ∧ total_units out = units cap ∧
  ∀ d, d ∈ out → 0 ≤ units d ∧ (10 ^ (28 - sc) | units d))
  (λ e, ∃ u, 0 ≤ u ∧ u * 10 ^ (28 - sc) ≤ units cap ∧ refused (OpAllocate sc) u sc e)
  (allocate_largest_remainder shares cap sc).
Proof.
  rewrite allocate_parts. eapply returns_impl.
  { apply (returns_map _ (λ u (d : D), units d = u * 10 ^ (28 - sc))). intros u Hu.
    pose proof (part_range u Hu). pose proof C_range_200. assert (2 ^ 200 < 2 ^ 511) by reflexivity.
    pose proof (fit_exact (D := D) u sc (OpAllocate sc) cap (from_usize (Z.of_nat (length shares)))
      ltac:(lia) ltac:(lia)) as Hf.
    apply exact_refused in Hf. destruct (fit u sc) as [d|e| |] eqn:Hd; [| |done..]; [apply fit_at; [lia|done]|].
    exists u. pose proof (part_range u Hu). pose proof cap_units. pose proof (pow10_pos (28 - sc)). split_and!; [lia|nia|exact Hf]. }
  intros out Hout. split_and!.
  - rewrite <- (Forall2_length _ _ _ Hout), parts_length. apply length_map.
  - rewrite (fitted_total _ _ Hout), cap_units. f_equal.
    apply parts_sum; [apply T_pos | apply C_range_200 | apply xs_nonneg | done].
  - intros d [k Hk]%list_elem_of_lookup. destruct (Forall2_lookup_r _ _ _ _ _ Hout Hk) as (u & Hu & ->).
    pose proof (part_range u (list_elem_of_lookup_2 _ _ _ Hu)). pose proof (pow10_pos (28 - sc)).
    split; [nia|by exists u].
Qed.

Context (Hfit : units cap < 2 ^ 96 * 10 ^ (28 - sc)).

Lemma part_fits u : u ∈ parts xs T C → 0 ≤ u < 2 ^ 96.
Proof. intros Hu. pose proof (part_range u Hu). pose proof cap_units. pose proof (pow10_pos (28 - sc)). nia. Qed.

Lemma fit_part u : u ∈ parts xs T C →
  ∃ d : D, fit u sc = Ok d ∧ units d = u * 10 ^ (28 - sc).
Proof.
  intros Hu. pose proof (part_fits u Hu).
  destruct (fit_ok (D := D) u sc) as (d & Hd & Hm); [lia|exists u, sc; split; [split; lia|done]|].
  exists d. split; [done|]. assert (2 ^ 96 < 2 ^ 511) by reflexivity. apply fit_at; [lia|done].
Qed.

(** The proportional share in units, from the values. *)
Lemma quota_units s : s ∈ shares →
  (at_common common s * C) / T
  = (units s * units cap) / (total_units shares * 10 ^ (28 - sc)).
Proof.
  intros Hs. destruct common_bounds as [? Hb].
  destruct (at_common_exact common s) as (_ & _ & <-); [specialize (Hb s Hs); lia|].
  rewrite <- T_units, cap_units. pose proof common_unit_pos. pose proof T_pos.
  pose proof (pow10_pos (28 - sc)).
  rewrite <- (Z.div_mul_cancel_r _ T (10 ^ (28 - common) * 10 ^ (28 - sc))) by nia.
  f_equal; ring.
Qed.

Lemma allocate_exact : ∃ out,
  allocate_largest_remainder shares cap sc = Ok out ∧
  length out = length shares ∧ total_units out = units cap ∧
  ∀ i s d, shares !! i = Some s → out !! i = Some d → ∃ k,
  units d = k * 10 ^ (28 - sc) ∧
  (units s * units cap) / (total_units shares * 10 ^ (28 - sc)) ≤ k ≤
  (units s * units cap) / (total_units shares * 10 ^ (28 - sc)) + 1 ∧
  (units s = 0 → k = 0).
Proof.
  rewrite allocate_parts.
  destruct (map_outcome_total (λ u d, units d = u * 10 ^ (28 - sc))
  (λ u, map_err (error cap (OpAllocate sc) (from_usize (Z.of_nat (length shares)))) (fit u sc))
  (parts xs T C)) as (out & -> & Hout).
  { intros u Hu. destruct (fit_part u Hu) as (d & -> & ?). by exists d. }
  exists out. split; [done|]. split.
  { rewrite <- (Forall2_length _ _ _ Hout), parts_length. apply length_map. }
  split.
  { rewrite (fitted_total _ _ Hout), cap_units. f_equal.
  apply parts_sum; [apply T_pos | apply C_range_200 | apply xs_nonneg | done]. }
  intros i s d Hs Hd.
  destruct (parts_lookup xs T C T_pos C_range_200 xs_nonneg eq_refl i (at_common common s))
  as (u & Hu & Hb & Hz); [by apply lookup_map_Some|].
  pose proof (list_elem_of_lookup_2 _ _ _ Hs) as Hin.
  exists u. split; [by eapply (Forall2_lookup_lr _ _ _ i u d Hout)|].
  rewrite <- quota_units by done. split; [done|]. intros Hs0.
  assert (at_common common s = 0) as Hx.
  { destruct common_bounds as [? Hcb].
  destruct (at_common_exact common s) as (_ & _ & Hu'); [specialize (Hcb s Hin); lia|].
  pose proof common_unit_pos. nia. }
  rewrite Hx in Hz. rewrite Hz; rewrite Z.mul_0_l; [apply Z.div_0_l | apply Z.mod_0_l];
  pose proof T_pos; lia.
Qed.
End allocate_spec.

(** C4. [Dec::allocate_largest_remainder] splits a cap without losing or
    inventing money: for non-negative shares with a positive total, and a cap
    that is a whole number of units and fits 96 bits of them, it returns one
    part per share, the parts add up to the cap exactly, each is the
    proportional share rounded down or that plus one unit, and a zero share
    gets nothing. *)
Theorem allocate_conserves {D} `{!DecimalOps D} `{!DecimalLaws D}
    (shares : list D) (cap : D) (sc : Z) :
  Z.of_nat (length shares) < 2 ^ 64 → 0 ≤ sc ≤ 28 → 0 ≤ units cap →
  (∀ d, d ∈ shares → 0 ≤ units d) → 0 < total_units shares →
  (10 ^ (28 - sc) | units cap) → units cap < 2 ^ 96 * 10 ^ (28 - sc) →
  ∃ out, allocate_largest_remainder shares cap sc = Ok out ∧
    length out = length shares ∧ total_units out = units cap ∧
    ∀ i s d, shares !! i = Some s → out !! i = Some d → ∃ k,
      units d = k * 10 ^ (28 - sc) ∧
      (units s * units cap) / (total_units shares * 10 ^ (28 - sc)) ≤ k ≤
        (units s * units cap) / (total_units shares * 10 ^ (28 - sc)) + 1 ∧
      (units s = 0 → k = 0).
Proof. intros. by apply allocate_exact. Qed.

Module AllocateWitness.
Import Ref.

Definition thirds : list rdec := [of_mantissa 1 0; of_mantissa 1 0; of_mantissa 1 0].
Definition hundred : rdec := of_mantissa 100 0.

(** A hundred in three equal parts: the first gets the spare cent. *)
Lemma allocate_conserves_witness :
  allocate_largest_remainder thirds hundred 2 =
  Ok [of_mantissa 3334 2; of_mantissa 3333 2; of_mantissa 3333 2] ∧
  ∃ out, allocate_largest_remainder thirds hundred 2 = Ok out ∧
  length out = length thirds ∧ total_units out = units hundred ∧
  ∀ i s d, thirds !! i = Some s → out !! i = Some d → ∃ k,
  units d = k * 10 ^ (28 - 2) ∧
  (units s * units hundred) / (total_units thirds * 10 ^ (28 - 2)) ≤ k ≤
    (units s * units hundred) / (total_units thirds * 10 ^ (28 - 2)) + 1 ∧
  (units s = 0 → k = 0).
Proof.
  split; [vm_compute; reflexivity|]. apply (allocate_conserves thirds hundred 2).
  - vm_compute. reflexivity.
  - lia.
  - vm_compute. discriminate.
  - apply Forall_forall. repeat constructor; vm_compute; discriminate.
  - vm_compute. reflexivity.
  - exists 10000. vm_compute. reflexivity.
  - vm_compute. reflexivity.
Defined.
End AllocateWitness.
