(* ===== verification/Ratio.v ===== *)
(** * Ratio division: [Dec::mul_div_ratio]

    The product of four factors over a divisor, rounded once, half to even. A
    product that a [Decimal] holds is divided by the crate's own division and
    rounded at 13 places unless the quotient sits on a midpoint; otherwise the
    quotient is formed in 1024-bit integers. The theorem covers both paths: the
    result is the half-even rounding at 13 places, or at the largest smaller
    scale whose coefficient fits, and a refusal means that none does. *)

From stdpp Require Import base numbers list gmap.
From Stdlib Require Import ZArith Lia.
From S2P Require Import Prelude RustDecimal Dec.
#[local] Open Scope Z_scope.

Section ratio.
Context {D : Type} `{!DecimalOps D}.

(** [None] when the narrow path cannot decide the quotient. *)
Definition round_held_quotient (product divisor : D) : option D :=
  quotient ← checked_div product divisor;
  let s := scale quotient in
  if s <=? PAYOUT_SCALE then Some quotient
  else
  let unit := 10 ^ (s - PAYOUT_SCALE) in
  if Z.abs (Z.rem (mantissa quotient) unit) * 2 =? unit then None
  else Some (round_dp_with_strategy quotient PAYOUT_SCALE MidpointNearestEven).

(** One turn of the [for drop in 0..=max_scale] loop: the coefficient that
    [drop] places fewer leave, if it fits. *)
Definition keep_places (num den : Z) (drop : nat) : option Z :=
  let '(quotient, remainder) := (num / den, num mod den) in
  let limit := 2 ^ 96 in
  let unit := u1024 (10 ^ Z.of_nat drop) in
  let kept := quotient / unit in
  if limit <=? kept / 10 then None
  else
  let twice_dropped := u1024 (u1024 (u1024 (quotient mod unit * den) + remainder) * 2) in
  let whole_unit := u1024 (unit * den) in
  let kept :=
  if (whole_unit <? twice_dropped) || ((twice_dropped =? whole_unit) && (kept mod 2 =? 1))
  then u1024 (kept + 1) else kept in
  if kept <? limit then Some kept else None.

Fixpoint drop_places (negative : bool) (num den : Z) (max_sc : Z) (drops : list nat)
  : outcome NumericErrorKind D :=
  match drops with
  | [] => Err Overflow
  | drop :: drops' =>
  match keep_places num den drop with
  | Some kept => expect (from_i128_with_scale (if negative then - kept else kept) (max_sc - Z.of_nat drop))
  | None => drop_places negative num den max_sc drops'
  end
  end.

Definition round_quotient (negative : bool) (num num_scale den den_scale max_sc : Z)
  : outcome NumericErrorKind D :=
  let shift := max_sc + den_scale - num_scale in
  let '(num, den) :=
  if 0 <=? shift then (u1024 (num * u1024 (10 ^ shift)), den)
  else (num, u1024 (den * u1024 (10 ^ Z.abs shift))) in
  drop_places negative num den max_sc (seq 0 (Z.to_nat max_sc + 1)).

Definition wide_mul_div_ratio (factors : list D) (divisor : D) (max_sc : Z) : outcome NumericErrorKind D :=
  let negative := Nat.odd (length (filter (λ f, is_negative f = true) factors)) in
  let '(num, num_scale) :=
  foldl (λ acc f, (u1024 (acc.1 * Z.abs (mantissa f)), acc.2 + scale f)) (1, 0) factors in
  let den := Z.abs (mantissa divisor) in
  let negative := negb (Bool.eqb negative (is_negative divisor)) in
  round_quotient negative num num_scale den (scale divisor) max_sc.

Definition mul_div_ratio (a b c d divisor : D) : outcome (NumericError D) D :=
  let error kind := mkNumericError (OpMulDivRatio a b divisor) c d kind in
  if is_zero divisor then Err (error DivisionByZero)
  else
  let held := (p ← try_mul a b; p ← try_mul p c; try_mul p d) in
  match held with
  | Panic => Panic
  | Hang => Hang
  | _ =>
    match (p ← (match held with Ok p => Some p | _ => None end); round_held_quotient p divisor) with
    | Some quotient => Ok (normalize quotient)
    | None => map_err error (normalize <$> wide_mul_div_ratio [a; b; c; d] divisor PAYOUT_SCALE)
    end
  end.
End ratio.

(** ** The wide path *)

Lemma u1024_id z : 0 ≤ z < 2 ^ 1024 → u1024 z = z.
Proof. apply Z.mod_small. Qed.

(** The bounds of the operands: neither product nor shift reaches 1024 bits. *)
Lemma pow10_112 n : 0 ≤ n ≤ 150 → 0 < 10 ^ n < 2 ^ 500.
Proof.
  intros Hn. split; [apply pow10_pos; lia|].
  apply Z.le_lt_trans with (10 ^ 150); [apply Z.pow_le_mono_r; lia|]. reflexivity.
Qed.

Lemma pow2_le a b : 0 ≤ a ≤ b → 2 ^ a ≤ 2 ^ b.
Proof. intros. apply Z.pow_le_mono_r; lia. Qed.

Lemma mul_bits x y p q : 0 ≤ p → 0 ≤ q → 0 ≤ x < 2 ^ p → 0 ≤ y < 2 ^ q → 0 ≤ x * y < 2 ^ (p + q).
Proof. intros Hp Hq Hx Hy. rewrite Z.pow_add_r by lia. nia. Qed.

Lemma mul_bits_le x y p q r : 0 ≤ p → 0 ≤ q → p + q ≤ r → 0 ≤ x < 2 ^ p → 0 ≤ y < 2 ^ q → 0 ≤ x * y < 2 ^ r.
Proof.
  intros Hp Hq Hr Hx Hy. pose proof (mul_bits x y p q Hp Hq Hx Hy). pose proof (pow2_le (p + q) r). lia.
Qed.

(** One turn keeps the half-even rounding when it fits. *)
Lemma keep_places_spec num den drop : 0 ≤ num < 2 ^ 1000 → 0 < den < 2 ^ 600 → (drop ≤ 28)%nat →
  keep_places num den drop =
  let k := round_even num (den * 10 ^ Z.of_nat drop) in if k <? 2 ^ 96 then Some k else None.
Proof.
  intros Hn Hd Hdrop. unfold keep_places, round_even.
  destruct (pow10_112 (Z.of_nat drop) ltac:(lia)) as [Hu0 _].
  assert (Hu94 : 10 ^ Z.of_nat drop < 2 ^ 94).
  { apply Z.le_lt_trans with (10 ^ 28); [apply Z.pow_le_mono_r; lia|reflexivity]. }
  set (unit := 10 ^ Z.of_nat drop) in *.
  pose proof (pow2_le 94 1024 ltac:(lia)). rewrite (u1024_id unit) by lia.
  assert (Hw : 0 ≤ unit * den < 2 ^ 694) by (apply (mul_bits_le _ _ 94 600); lia).
  pose proof (Z.mod_pos_bound num den ltac:(lia)) as Hr.
  pose proof (Z.mod_pos_bound (num / den) unit Hu0) as Hq.
  assert (Hdropped : num mod (den * unit) = num / den mod unit * den + num mod den)
    by (rewrite Z.rem_mul_r by lia; lia).
  assert (Hb : 0 ≤ num mod (den * unit) < den * unit) by (apply Z.mod_pos_bound; lia).
  pose proof (pow2_le 696 1024 ltac:(lia)). assert (2 ^ 696 = 4 * 2 ^ 694) by reflexivity.
  rewrite (u1024_id (num / den mod unit * den)) by nia. rewrite <- Hdropped.
  rewrite (u1024_id (num mod (den * unit))) by nia. rewrite (u1024_id (num mod (den * unit) * 2)) by nia.
  rewrite (u1024_id (unit * den)) by lia. rewrite (Z.div_div num den unit) by lia.
  assert (Hk0 : 0 ≤ num / (den * unit)) by (apply Z.div_pos; nia).
  set (k := num / (den * unit)) in *. set (r := num mod (den * unit)) in *.
  rewrite (Z.mul_comm unit den). clear Hw Hdropped Hr Hq.
  destruct (Z.leb_spec (2 ^ 96) (k / 10)) as [Hbig|Hbig].
  { assert (2 ^ 96 ≤ k) by (pose proof (Z.div_le_upper_bound k 10 k); lia).
    cbv zeta. match goal with |- _ = (if ?x <? _ then _ else _) => assert (2 ^ 96 ≤ x) as ->%Z.ltb_ge end; [|done].
    destruct (2 * r <? den * unit), (den * unit <? 2 * r), (Z.even k); lia. }
  assert (Hk : k < 2 ^ 100).
  { assert (2 ^ 100 = 16 * 2 ^ 96) as -> by reflexivity. pose proof (Z.mul_succ_div_gt k 10). lia. }
  pose proof (pow2_le 101 1024 ltac:(lia)). assert (2 ^ 101 = 2 * 2 ^ 100) by reflexivity.
  rewrite (u1024_id (k + 1)) by lia.
  assert (Hodd : (k mod 2 =? 1) = negb (Z.even k)) by (rewrite Zmod_even; by destruct (Z.even k)).
  rewrite Hodd, (Z.mul_comm r 2).
  destruct (Z.ltb_spec (2 * r) (den * unit)), (Z.ltb_spec (den * unit) (2 * r)), (Z.eqb_spec (2 * r) (den * unit));
    try lia; simpl; try done. by destruct (Z.even k).
Qed.

Lemma round_even_nonneg u k : 0 < k → 0 ≤ u → 0 ≤ round_even u k.
Proof. apply (round_by_nonneg MidpointNearestEven). Qed.

Section wide.
Context {D : Type} `{!DecimalOps D, !DecimalLaws D}.

(** What the loop returns: the first number of dropped places that fits. *)
Lemma drop_places_spec negative num den max_sc n start : 0 ≤ num < 2 ^ 1000 → 0 < den < 2 ^ 600 →
  Z.of_nat (start + n) = max_sc + 1 → max_sc ≤ 28 →
  match drop_places (D := D) negative num den max_sc (seq start n) with
  | Ok d => ∃ drop, (start ≤ drop < start + n)%nat ∧ scale d = max_sc - Z.of_nat drop ∧
  mantissa d = (let k := round_even num (den * 10 ^ Z.of_nat drop) in if negative then - k else k) ∧
  Z.abs (mantissa d) < 2 ^ 96 ∧
  ∀ drop', (start ≤ drop' < drop)%nat → 2 ^ 96 ≤ round_even num (den * 10 ^ Z.of_nat drop')
  | Err e => e = Overflow ∧
  ∀ drop, (start ≤ drop < start + n)%nat → 2 ^ 96 ≤ round_even num (den * 10 ^ Z.of_nat drop)
  | _ => False
  end.
Proof.
  intros Hn Hd. revert start. induction n as [|n IH]; intros start Hs Hm; cbn [seq drop_places].
  { split; [done|lia]. }
  rewrite (keep_places_spec num den start Hn Hd) by lia. cbv zeta.
  set (k := round_even num (den * 10 ^ Z.of_nat start)).
  destruct (Z.ltb_spec k (2 ^ 96)) as [Hk|Hk].
  - assert (0 ≤ k).
    { apply round_even_nonneg; [|lia]. pose proof (pow10_112 (Z.of_nat start) ltac:(lia)). nia. }
    destruct (try_from_holds (D := D) (if negative then - k else k) (max_sc - Z.of_nat start)) as (d & Hd1 & Hd2 & Hd3).
    { split; [destruct negative; lia|lia]. }
    rewrite from_is_try_from, Hd1. simpl. exists start. split_and!; [lia|lia|done|done| |lia].
    rewrite Hd2. destruct negative; lia.
  - specialize (IH (S start) ltac:(lia) Hm).
    destruct (drop_places negative num den max_sc (seq (S start) n)) as [d|e| |]; [| |done..].
    + destruct IH as (drop & H1 & H2 & H3 & H4 & H5). exists drop. split_and!; [lia|lia|done|done|done|].
      intros drop' Hdrop. destruct (decide (drop' = start)) as [->|]; [done|]. apply H5. lia.
    + destruct IH as [-> IH]. split; [done|]. intros drop Hdrop.
      destruct (decide (drop = start)) as [->|]; [done|]. apply IH. lia.
Qed.

(** The half-even coefficient of (num / 10^num_scale) / (den / 10^den_scale) at
    [s] places. *)
Definition nearest (num num_scale den den_scale s : Z) : Z :=
  round_even (num * 10 ^ (den_scale + s)) (den * 10 ^ num_scale).

Lemma nearest_shift num num_scale den den_scale max_sc drop : 0 < den →
  0 ≤ num_scale → 0 ≤ den_scale → 0 ≤ drop ≤ max_sc →
  round_even (num * 10 ^ Z.max 0 (max_sc + den_scale - num_scale))
  (den * 10 ^ Z.max 0 (- (max_sc + den_scale - num_scale)) * 10 ^ drop) =
  nearest num num_scale den den_scale (max_sc - drop).
Proof.
  intros Hd Hn Hs Hdrop. unfold nearest.
  set (e := Z.min num_scale (max_sc + den_scale)). assert (He : 0 ≤ e) by lia.
  rewrite <- (round_even_scale _ _ (10 ^ e)) by
  (repeat apply Z.mul_pos_pos; try apply pow10_pos; lia).
  rewrite <- (round_even_scale (num * 10 ^ (den_scale + (max_sc - drop))) _ (10 ^ drop)) by
  (repeat apply Z.mul_pos_pos; try apply pow10_pos; lia).
  rewrite <- !Z.mul_assoc, <- !pow10_split by lia. f_equal; f_equal; f_equal; lia.
Qed.

Lemma round_quotient_spec negative num num_scale den den_scale max_sc :
  0 ≤ num < 2 ^ 400 → 0 ≤ num_scale ≤ 112 → 0 < den < 2 ^ 96 → 0 ≤ den_scale ≤ 28 → 0 ≤ max_sc ≤ 28 →
  match round_quotient (D := D) negative num num_scale den den_scale max_sc with
  | Ok d => 0 ≤ scale d ≤ max_sc ∧
  mantissa d = (let k := nearest num num_scale den den_scale (scale d) in if negative then - k else k) ∧
  ∀ s, scale d < s ≤ max_sc → 2 ^ 96 ≤ nearest num num_scale den den_scale s
  | Err e => e = Overflow ∧ ∀ s, 0 ≤ s ≤ max_sc → 2 ^ 96 ≤ nearest num num_scale den den_scale s
  | _ => False
  end.
Proof.
  intros Hn Hns Hd Hds Hm. unfold round_quotient.
  set (shift := max_sc + den_scale - num_scale).
  assert (Hwide : (if 0 <=? shift then (u1024 (num * u1024 (10 ^ shift)), den)
    else (num, u1024 (den * u1024 (10 ^ Z.abs shift)))) =
    (num * 10 ^ Z.max 0 shift, den * 10 ^ Z.max 0 (- shift))).
  { pose proof (pow2_le 500 1024 ltac:(lia)). destruct (Z.leb_spec 0 shift).
    - destruct (pow10_112 shift ltac:(lia)). rewrite (u1024_id (10 ^ shift)) by lia.
      rewrite u1024_id by (apply (mul_bits_le _ _ 400 500); lia).
      rewrite (Z.max_r 0 shift), (Z.max_l 0 (- shift)), Z.mul_1_r by lia. done.
    - destruct (pow10_112 (Z.abs shift) ltac:(lia)). rewrite (u1024_id (10 ^ Z.abs shift)) by lia.
      rewrite u1024_id by (apply (mul_bits_le _ _ 96 500); lia).
      rewrite (Z.max_l 0 shift), (Z.max_r 0 (- shift)), Z.mul_1_r by lia. do 3 f_equal. lia. }
  rewrite Hwide.
  pose proof (pow10_112 (Z.max 0 shift) ltac:(lia)) as Hp1. pose proof (pow10_112 (Z.max 0 (- shift)) ltac:(lia)) as Hp2.
  assert (Hnum : 0 ≤ num * 10 ^ Z.max 0 shift < 2 ^ 1000) by (apply (mul_bits_le _ _ 400 500); lia).
  assert (Hden : 0 < den * 10 ^ Z.max 0 (- shift) < 2 ^ 600)
    by (split; [nia|]; apply (mul_bits_le _ _ 96 500); lia).
  pose proof (drop_places_spec negative _ _ max_sc (Z.to_nat max_sc + 1) 0 Hnum Hden ltac:(lia) ltac:(lia)) as Hdrop.
  assert (Hnear : ∀ drop, (drop < Z.to_nat max_sc + 1)%nat →
    round_even (num * 10 ^ Z.max 0 shift) (den * 10 ^ Z.max 0 (- shift) * 10 ^ Z.of_nat drop) =
    nearest num num_scale den den_scale (max_sc - Z.of_nat drop)).
  { intros drop Hlt. apply nearest_shift; lia. }
  destruct (drop_places _ _ _ _ _) as [d|e| |]; [| |done..].
  - destruct Hdrop as (drop & H1 & H2 & H3 & H4 & H5). rewrite H2. split_and!; [lia|lia| |].
    + rewrite H3, Hnear by lia. done.
    + intros s Hs. specialize (H5 (Z.to_nat (max_sc - s)) ltac:(lia)). rewrite Hnear in H5 by lia.
      by replace (max_sc - Z.of_nat (Z.to_nat (max_sc - s))) with s in H5 by lia.
  - destruct Hdrop as [-> H5]. split; [done|]. intros s Hs.
    specialize (H5 (Z.to_nat (max_sc - s)) ltac:(lia)). rewrite Hnear in H5 by lia.
    by replace (max_sc - Z.of_nat (Z.to_nat (max_sc - s))) with s in H5 by lia.
Qed.
End wide.

(** ** The narrow path agrees *)

(** What the engine's comment on [checked_div] states: the quotient's magnitude
    is the half-even rounding at the largest scale of 28 or below whose
    coefficient fits 96 bits; trailing zeros may be dropped. *)
Class DivisionLaws (D : Type) `{!DecimalOps D} := {
  checked_div_nearest (a b q : D) : mantissa b ≠ 0 → checked_div a b = Some q →
    ∃ s, scale q ≤ s ≤ 28 ∧
      Z.abs (mantissa q) * 10 ^ (s - scale q) =
        nearest (Z.abs (mantissa a)) (scale a) (Z.abs (mantissa b)) (scale b) s ∧
      nearest (Z.abs (mantissa a)) (scale a) (Z.abs (mantissa b)) (scale b) s < 2 ^ 96 ∧
      0 ≤ mantissa q * (mantissa a * mantissa b) ∧
      ∀ s', s < s' ≤ 28 → 2 ^ 96 ≤ nearest (Z.abs (mantissa a)) (scale a) (Z.abs (mantissa b)) (scale b) s';
}.

(** A value closer than half a unit is the rounding. *)
Lemma round_even_unique u k r : 0 < k → Z.abs (2 * (u - k * r)) < k → round_even u k = r.
Proof.
  intros Hk Hr. pose proof (round_by_close MidpointNearestEven u k Hk) as Hc. simpl in Hc. nia.
Qed.

Lemma round_even_opp u k : 0 < k → round_even (- u) k = - round_even u k.
Proof.
  intros Hk. unfold round_even. pose proof (Z.div_mod u k ltac:(lia)) as Hdm. pose proof (Z.mod_pos_bound u k Hk) as Hb.
  destruct (decide (u mod k = 0)) as [H0|H0].
  - rewrite (Z.div_opp_l_z u k), (Z.mod_opp_l_z u k), H0 by lia.
    destruct (Z.ltb_spec (2 * 0) k); lia.
  - rewrite (Z.div_opp_l_nz u k), (Z.mod_opp_l_nz u k) by lia.
    assert (Heven : Z.even (- (u / k) - 1) = negb (Z.even (u / k))).
    { rewrite Z.even_sub, Z.even_opp. by destruct (Z.even (u / k)). }
    rewrite Heven. destruct (Z.ltb_spec (2 * (u mod k)) k), (Z.ltb_spec k (2 * (u mod k))),
      (Z.ltb_spec (2 * (k - u mod k)) k), (Z.ltb_spec k (2 * (k - u mod k))); try lia.
    destruct (Z.even (u / k)); simpl; lia.
Qed.

(** Rounding twice is rounding once, away from the midpoints of the second. *)
Lemma round_even_twice x y n k : 0 < y → 0 < k → Z.even k = true → Z.abs (2 * (x * k - y * n)) ≤ y →
  2 * (n mod k) ≠ k → round_even x y = round_even n k.
Proof.
  intros Hy Hk Heven Hn Hmid. apply round_even_unique; [done|].
  set (r := round_even n k).
  assert (Hr : Z.abs (2 * (n - k * r)) ≤ k - 2).
  { pose proof (round_by_close MidpointNearestEven n k Hk) as Hc. simpl in Hc. fold r in Hc. clearbody r.
    apply Z.even_spec in Heven as [h ->].
    assert (Z.abs (n - 2 * h * r) ≠ h); [|lia]. intros Heq. apply Hmid.
    assert (n - 2 * h * r = h ∨ n - 2 * h * r = - h) as [H|H] by lia.
    - assert (n = h + r * (2 * h)) as -> by lia. rewrite Z.mod_add, Z.mod_small by lia. lia.
    - assert (n = h + (r - 1) * (2 * h)) as -> by lia. rewrite Z.mod_add, Z.mod_small by lia. lia. }
  assert (Hxk : Z.abs (2 * (x * k - y * k * r)) < y * k).
  { replace (2 * (x * k - y * k * r)) with (2 * (x * k - y * n) + y * (2 * (n - k * r))) by ring.
    pose proof (Z.abs_triangle (2 * (x * k - y * n)) (y * (2 * (n - k * r)))) as Ht.
    rewrite (Z.abs_mul y (2 * (n - k * r))), (Z.abs_eq y) in Ht by lia. nia. }
  replace (2 * (x * k - y * k * r)) with (2 * (x - y * r) * k) in Hxk by ring.
  rewrite (Z.abs_mul (2 * (x - y * r)) k), (Z.abs_eq k) in Hxk by lia. nia.
Qed.

Lemma nearest_close num num_scale den den_scale s : 0 < den → 0 ≤ num_scale →
  Z.abs (2 * (num * 10 ^ (den_scale + s) - den * 10 ^ num_scale * nearest num num_scale den den_scale s)) ≤
    den * 10 ^ num_scale.
Proof.
  intros Hd Hn. apply (round_by_close MidpointNearestEven). pose proof (pow10_pos num_scale Hn). nia.
Qed.

(** A coefficient at a finer scale that drops to 13 places exactly, or off the
    midpoints, drops to the nearest one. *)
Lemma nearest_coarser num num_scale den den_scale p s : 0 < den → 0 ≤ num_scale → 0 ≤ den_scale → 0 ≤ p < s →
  2 * (nearest num num_scale den den_scale s mod 10 ^ (s - p)) ≠ 10 ^ (s - p) →
  nearest num num_scale den den_scale p = round_even (nearest num num_scale den den_scale s) (10 ^ (s - p)).
Proof.
  intros Hd Hn Hds Hs Hmid. pose proof (pow10_pos num_scale Hn). pose proof (pow10_pos (s - p) ltac:(lia)).
  apply round_even_twice; [nia|done| | |done].
  - rewrite Z.even_pow by lia. done.
  - pose proof (nearest_close num num_scale den den_scale s Hd Hn) as Hc.
    rewrite <- Z.mul_assoc, <- pow10_split by lia. by replace (den_scale + p + (s - p)) with (den_scale + s) by lia.
Qed.

Section narrow.
Context {D : Type} `{!DecimalOps D, !DecimalLaws D, !DivisionLaws D}.
Context (product divisor : D) (Hdiv : mantissa divisor ≠ 0).
Abbreviation near := (nearest (Z.abs (mantissa product)) (scale product) (Z.abs (mantissa divisor)) (scale divisor)).

(** The value rounded once: at 13 places, or at the largest smaller scale. *)
Definition rounded_once (near : Z → Z) (sign : Z) (r : D) : Prop :=
  ∃ s, 0 ≤ s ≤ PAYOUT_SCALE ∧ Z.abs (units r) = near s * 10 ^ (28 - s) ∧ near s < 2 ^ 96 ∧
  0 ≤ units r * sign ∧ ∀ s', s < s' ≤ PAYOUT_SCALE → 2 ^ 96 ≤ near s'.

Lemma units_abs (q : D) s : scale q ≤ s ≤ 28 →
  Z.abs (units q) = Z.abs (mantissa q) * 10 ^ (s - scale q) * 10 ^ (28 - s).
Proof.
  intros Hs. unfold units. rewrite Z.abs_mul, (Z.abs_eq (10 ^ _)) by (apply Z.pow_nonneg; lia).
  rewrite <- Z.mul_assoc, <- pow10_split by lia. do 2 f_equal. lia.
Qed.

Lemma units_sign (q : D) x : 0 ≤ mantissa q * x → 0 ≤ units q * x.
Proof.
  intros H. unfold units. pose proof (pow10_unscale_pos q).
  replace (mantissa q * 10 ^ (28 - scale q) * x) with (mantissa q * x * 10 ^ (28 - scale q)) by ring.
  apply Z.mul_nonneg_nonneg; lia.
Qed.

(** A held quotient of 13 places or fewer is already rounded. *)
Lemma held_exact q s : 0 ≤ scale q ≤ PAYOUT_SCALE → scale q ≤ s ≤ 28 →
  Z.abs (mantissa q) * 10 ^ (s - scale q) = near s → near s < 2 ^ 96 →
  0 ≤ mantissa q * (mantissa product * mantissa divisor) →
  (∀ s', s < s' ≤ 28 → 2 ^ 96 ≤ near s') →
  rounded_once near (mantissa product * mantissa divisor) q.
Proof using Hdiv DecimalLaws0.
  unfold PAYOUT_SCALE. intros Hq Hs Hn Hfit Hsign Hbig.
  destruct (decide (s ≤ 13)) as [Hle|Hgt].
  - exists s. unfold PAYOUT_SCALE. split_and!; [lia|lia| |done|by apply units_sign|intros; apply Hbig; lia].
    by rewrite (units_abs q s), Hn by lia.
  - pose proof (pow10_pos (s - 13) ltac:(lia)) as Hk. pose proof (scale_range product). pose proof (scale_range divisor).
    set (c := Z.abs (mantissa q) * 10 ^ (13 - scale q)).
    assert (Hsplit : near s = c * 10 ^ (s - 13)).
    { rewrite <- Hn. unfold c. rewrite <- Z.mul_assoc, <- pow10_split by lia. do 2 f_equal. lia. }
    assert (H13 : near 13 = c).
    { rewrite (nearest_coarser _ _ _ _ 13 s); [|lia|lia|lia|lia|].
      - rewrite Hsplit. by apply (round_by_exact MidpointNearestEven).
      - rewrite Hsplit, Z.mod_mul by lia. lia. }
    exists 13. unfold PAYOUT_SCALE. rewrite H13. split_and!; [lia|lia| | |by apply units_sign|lia].
    + unfold c. by rewrite (units_abs q 13) by lia.
    + assert (0 ≤ c) by (unfold c; apply Z.mul_nonneg_nonneg; [lia|apply Z.pow_nonneg; lia]). nia.
Qed.

Lemma round_even_abs u k : 0 < k → Z.abs (round_even u k) = round_even (Z.abs u) k.
Proof using.
  intros Hk. destruct (Z.le_ge_cases 0 u) as [Hu|Hu].
  - pose proof (round_even_nonneg u k Hk Hu). rewrite (Z.abs_eq u) by done. lia.
  - pose proof (round_even_nonneg (- u) k Hk ltac:(lia)) as Hn. rewrite round_even_opp in Hn by done.
    rewrite (Z.abs_neq u), round_even_opp by lia. lia.
Qed.

Lemma round_even_sign u k x : 0 < k → 0 ≤ u * x → 0 ≤ round_even u k * x.
Proof using.
  intros Hk Hux. destruct (Z.le_ge_cases 0 x) as [Hx|Hx]; [destruct (decide (x = 0)) as [->|]; [lia|]|].
  - pose proof (round_even_nonneg u k Hk). nia.
  - destruct (decide (x = 0)) as [->|]; [lia|].
    pose proof (round_even_nonneg (- u) k Hk) as Hn. rewrite round_even_opp in Hn by done. nia.
Qed.

(** A finer one off the midpoint is rounded at 13 places. *)
Lemma held_rounded q s : PAYOUT_SCALE < scale q → scale q ≤ s ≤ 28 →
  Z.abs (mantissa q) * 10 ^ (s - scale q) = near s → near s < 2 ^ 96 →
  0 ≤ mantissa q * (mantissa product * mantissa divisor) →
  Z.abs (Z.rem (mantissa q) (10 ^ (scale q - PAYOUT_SCALE))) * 2 ≠ 10 ^ (scale q - PAYOUT_SCALE) →
  rounded_once near (mantissa product * mantissa divisor)
  (round_dp_with_strategy q PAYOUT_SCALE MidpointNearestEven).
Proof using Hdiv DecimalLaws0.
  unfold PAYOUT_SCALE. intros Hq Hs Hn Hfit Hsign Hmid.
  pose proof (scale_range product). pose proof (scale_range divisor).
  pose proof (pow10_pos (s - scale q)) as Hp. pose proof (pow10_pos (scale q - 13)) as Hu.
  assert (Hk : 10 ^ (s - 13) = 10 ^ (scale q - 13) * 10 ^ (s - scale q))
    by (rewrite <- pow10_split by lia; f_equal; lia).
  assert (H13 : near 13 = round_even (near s) (10 ^ (s - 13))).
  { apply nearest_coarser; [lia|lia|lia|lia|]. rewrite <- Hn, Hk, Z.mul_mod_distr_r by lia.
    rewrite <- Z.rem_abs, (Z.abs_eq (10 ^ _)), Z.rem_mod_nonneg in Hmid by lia. nia. }
  assert (Hr : Z.abs (units (round_dp_with_strategy q 13 MidpointNearestEven)) = near 13 * 10 ^ (28 - 13)).
  { rewrite round_units by lia. simpl round_by. rewrite Z.abs_mul, (Z.abs_eq (10 ^ (28 - 13))) by (apply Z.pow_nonneg; lia).
    rewrite round_even_abs by (apply pow10_pos; lia). rewrite (units_abs q s), Hn, H13 by lia. f_equal.
    replace (28 - 13) with ((s - 13) + (28 - s)) by lia. rewrite pow10_split by lia.
    apply round_even_scale; apply pow10_pos; lia. }
  exists 13. unfold PAYOUT_SCALE. split_and!; [lia|lia|done| | |lia].
  - rewrite H13. pose proof (round_by_abs_le MidpointNearestEven (near s) (10 ^ (s - 13))) as Hle.
    assert (10 ^ 1 ≤ 10 ^ (s - 13)) by (apply Z.pow_le_mono_r; lia). simpl round_by in Hle. lia.
  - rewrite round_units by lia. simpl round_by.
    pose proof (round_even_sign (units q) (10 ^ (28 - 13)) _ (pow10_pos (28 - 13) ltac:(lia)) (units_sign q _ Hsign)) as Hsg.
    pose proof (pow10_pos (28 - 13) ltac:(lia)). set (r := round_even _ _) in *.
    rewrite <- Z.mul_assoc, (Z.mul_comm (10 ^ _)), Z.mul_assoc. apply Z.mul_nonneg_nonneg; lia.
Qed.

Lemma round_held_nearest r : round_held_quotient product divisor = Some r →
  rounded_once near (mantissa product * mantissa divisor) r.
Proof using Hdiv DecimalLaws0 DivisionLaws0.
  unfold round_held_quotient. intros H. apply bind_Some in H as (q & Hq & H).
  destruct (checked_div_nearest product divisor q Hdiv Hq) as (s & Hs & Hn & Hfit & Hsign & Hbig).
  pose proof (scale_range q). destruct (Z.leb_spec (scale q) PAYOUT_SCALE) as [Hle|Hgt].
  - injection H as <-. apply (held_exact q s); [lia|done..].
  - destruct (Z.eqb_spec (Z.abs (Z.rem (mantissa q) (10 ^ (scale q - PAYOUT_SCALE))) * 2) (10 ^ (scale q - PAYOUT_SCALE)));
      [done|]. injection H as <-. by apply (held_rounded q s).
Qed.
End narrow.

(** ** The whole operation *)
Section statements.
Context {D : Type} `{!DecimalOps D, !DecimalLaws D, !DivisionLaws D}.

(** Only the ratio matters. *)
Lemma nearest_ratio num num_scale num' num_scale' den den_scale s : 0 < den → 0 ≤ num_scale → 0 ≤ num_scale' →
  num * 10 ^ num_scale' = num' * 10 ^ num_scale →
  nearest num num_scale den den_scale s = nearest num' num_scale' den den_scale s.
Proof.
  intros Hd Hn Hn' Heq. unfold nearest. pose proof (pow10_pos _ Hn). pose proof (pow10_pos _ Hn').
  rewrite <- (round_even_scale (num * _) _ (10 ^ num_scale')), <- (round_even_scale (num' * _) _ (10 ^ num_scale)) by nia.
  f_equal; [|ring]. transitivity (num * 10 ^ num_scale' * 10 ^ (den_scale + s)); [ring|]. rewrite Heq. ring.
Qed.

Lemma rounded_once_ext (f g : Z → Z) x y (r : D) : (∀ s, 0 ≤ s → f s = g s) → (∀ z, 0 ≤ z * x → 0 ≤ z * y) →
  rounded_once f x r → rounded_once g y r.
Proof.
  intros Hfg Hxy (s & Hs & Hu & Hfit & Hsign & Hbig). exists s. rewrite <- Hfg by lia.
  split_and!; [lia|lia|done|done|by apply Hxy|]. intros s' Hs'. rewrite <- Hfg by lia. by apply Hbig.
Qed.

Lemma rounded_once_units f x (r r' : D) : units r = units r' → rounded_once f x r → rounded_once f x r'.
Proof. intros Hu (s & Hs). exists s. by rewrite <- Hu. Qed.

(** An exact product keeps the ratio, and the sign. *)
Lemma try_mul_ratio (a b p : D) : try_mul a b = Ok p →
  mantissa p * 10 ^ (scale a + scale b) = mantissa a * mantissa b * 10 ^ scale p.
Proof.
  intros Hp. pose proof (try_mul_at_scale a b) as H. rewrite Hp in H. unfold exact_or_refused in H.
  pose proof (scale_range p). pose proof (scale_range a). pose proof (scale_range b).
  pose proof (pow10_pos (28 - scale p)). apply (Z.mul_cancel_r _ _ (10 ^ 28)); [lia|].
  rewrite <- (Z.mul_assoc _ (10 ^ scale p)), (Z.mul_comm (10 ^ scale p)), Z.mul_assoc, <- H, <- !Z.mul_assoc.
  rewrite (Z.mul_comm (10 ^ _) (10 ^ 28)), (Z.mul_assoc (mantissa p)), <- units_scale. ring.
Qed.

(** The factors of the wide product. *)
Definition coefficients (fs : list D) : Z := foldr (λ f t, mantissa f * t) 1 fs.
Definition places (fs : list D) : Z := foldr (λ f t, scale f + t) 0 fs.

Lemma is_negative_mantissa (f : D) : is_negative f = (mantissa f <? 0).
Proof.
  unfold is_negative, dec_ltb. rewrite compare_units, zero_units. unfold units. pose proof (pow10_unscale_pos f).
  destruct (Z.ltb_spec (mantissa f) 0), (Z.compare_spec (mantissa f * 10 ^ (28 - scale f)) 0); try done; nia.
Qed.

Lemma wide_product fs x k s : 0 ≤ x < 2 ^ (96 * Z.of_nat k + 1) → (k + length fs ≤ 10)%nat →
  foldl (λ acc f, (u1024 (acc.1 * Z.abs (mantissa f)), acc.2 + scale f)) (x, s) fs =
  (x * Z.abs (coefficients fs), s + places fs) ∧
  0 ≤ x * Z.abs (coefficients fs) < 2 ^ (96 * Z.of_nat (k + length fs) + 1).
Proof.
  revert x k s. induction fs as [|f fs IH]; intros x k s Hx Hk; simpl in *.
  { rewrite Z.mul_1_r, Z.add_0_r, Nat.add_0_r. done. }
  pose proof (mantissa_range f) as Hm.
  assert (Hxm : 0 ≤ x * Z.abs (mantissa f) < 2 ^ (96 * Z.of_nat (S k) + 1)).
  { apply (mul_bits_le _ _ (96 * Z.of_nat k + 1) 96); lia. }
  pose proof (pow2_le (96 * Z.of_nat (S k) + 1) 1024 ltac:(lia)). rewrite u1024_id by lia.
  destruct (IH _ (S k) (s + scale f) Hxm ltac:(lia)) as [-> Hb].
  replace (k + S (length fs))%nat with (S k + length fs)%nat by lia.
  rewrite Z.abs_mul, Z.mul_assoc. split; [|done]. f_equal. lia.
Qed.

(** The sign of the product is the parity of its negative factors. *)
Lemma wide_sign fs : coefficients fs =
  if Nat.odd (length (filter (λ f, is_negative f = true) fs)) then - Z.abs (coefficients fs) else Z.abs (coefficients fs).
Proof.
  induction fs as [|f fs IH]; [done|]. rewrite filter_cons, is_negative_mantissa. simpl.
  destruct (Z.ltb_spec (mantissa f) 0) as [Hf|Hf].
  - rewrite (decide_True (P := true = true)) by done. cbn [length]. rewrite Nat.odd_succ, <- Nat.negb_odd, Z.abs_mul.
    destruct (Nat.odd _); simpl; rewrite IH at 1; lia.
  - rewrite (decide_False (P := false = true)) by done. rewrite Z.abs_mul. destruct (Nat.odd _); rewrite IH at 1; lia.
Qed.

Lemma wide_mul_div_ratio_spec fs v max_sc : (length fs ≤ 4)%nat → mantissa v ≠ 0 → 0 ≤ max_sc ≤ 28 →
  let near := nearest (Z.abs (coefficients fs)) (places fs) (Z.abs (mantissa v)) (scale v) in
  match wide_mul_div_ratio fs v max_sc with
  | Ok d => 0 ≤ scale d ≤ max_sc ∧ Z.abs (mantissa d) = near (scale d) ∧
  0 ≤ mantissa d * (coefficients fs * mantissa v) ∧ ∀ s, scale d < s ≤ max_sc → 2 ^ 96 ≤ near s
  | Err e => e = Overflow ∧ ∀ s, 0 ≤ s ≤ max_sc → 2 ^ 96 ≤ near s
  | _ => False
  end.
Proof.
  intros Hlen Hv Hm near. unfold wide_mul_div_ratio.
  destruct (wide_product fs 1 0 0) as [Hfold Hb]; [done|lia|]. rewrite Hfold. rewrite Z.mul_1_l, Z.add_0_l in *.
  assert (Hpl : 0 ≤ places fs ≤ 28 * Z.of_nat (length fs)).
  { clear -DecimalLaws0. induction fs as [|f fs IH]; simpl; [lia|]. pose proof (scale_range f). lia. }
  pose proof (pow2_le (96 * Z.of_nat (0 + length fs) + 1) 400 ltac:(lia)). pose proof (mantissa_range v).
  pose proof (scale_range v).
  set (neg := negb (Bool.eqb _ _)).
  pose proof (round_quotient_spec neg (Z.abs (coefficients fs)) (places fs) (Z.abs (mantissa v)) (scale v) max_sc) as Hq.
  specialize (Hq ltac:(lia) ltac:(lia) ltac:(lia) ltac:(lia) Hm).
  destruct (round_quotient _ _ _ _ _ _) as [d|e| |]; [| |done..]; [|exact Hq].
  destruct Hq as (Q1 & Q2 & Q3). fold near in Q2, Q3.
  assert (Hn0 : 0 ≤ near (scale d)).
  { apply round_even_nonneg; [apply Z.mul_pos_pos; [lia|apply pow10_pos; lia]|].
  apply Z.mul_nonneg_nonneg; [lia|apply Z.pow_nonneg; lia]. }
  split_and!; [lia|lia|rewrite Q2; cbv zeta; destruct neg; lia| |done].
  rewrite Q2, (wide_sign fs). cbv zeta. unfold neg. rewrite (is_negative_mantissa v).
  set (c := Z.abs (coefficients fs)) in *. assert (0 ≤ c) by lia.
  assert (0 ≤ near (scale d) * c) by (apply Z.mul_nonneg_nonneg; lia).
  destruct (Nat.odd _), (Z.ltb_spec (mantissa v) 0); simpl; nia.
Qed.

(** A product that was held is exact. *)
Lemma held_product (a b c d p : D) : (p ← try_mul a b; p ← try_mul p c; try_mul p d) = Ok p →
  mantissa p * 10 ^ places [a; b; c; d] = coefficients [a; b; c; d] * 10 ^ scale p.
Proof.
  intros H. apply bind_ok in H as (p1 & H1%try_mul_ratio & H). apply bind_ok in H as (p2 & H2%try_mul_ratio & H3%try_mul_ratio).
  simpl. pose proof (scale_range a). pose proof (scale_range b). pose proof (scale_range c). pose proof (scale_range d).
  pose proof (scale_range p1). pose proof (scale_range p2). pose proof (scale_range p).
  rewrite pow10_split in H1, H2, H3 by lia. rewrite Z.add_0_r, Z.mul_1_r, !pow10_split by lia.
  pose proof (pow10_scale_pos p1). pose proof (pow10_scale_pos p2).
  apply (Z.mul_cancel_r _ _ (10 ^ scale p1 * 10 ^ scale p2)); [nia|].
  transitivity (mantissa p * (10 ^ scale p2 * 10 ^ scale d) * (10 ^ scale a * 10 ^ scale b) * (10 ^ scale p1 * 10 ^ scale c));
  [ring|]. rewrite H3.
  transitivity (mantissa p2 * (10 ^ scale p1 * 10 ^ scale c) * (10 ^ scale a * 10 ^ scale b) * mantissa d * 10 ^ scale p);
  [ring|]. rewrite H2.
  transitivity (mantissa p1 * (10 ^ scale a * 10 ^ scale b) * mantissa c * mantissa d * 10 ^ scale p2 * 10 ^ scale p);
  [ring|]. rewrite H1. ring.
Qed.

Lemma held_total (a b c d : D) : match (p ← try_mul a b; p ← try_mul p c; try_mul p d) with
  | Ok _ | Err _ => True | _ => False end.
Proof.
  assert (Ht : ∀ x y : D, match try_mul x y with Ok _ | Err _ => True | _ => False end).
  { intros x y. pose proof (try_mul_spec x y). by destruct (try_mul x y). }
  pose proof (Ht a b). destruct (try_mul a b) as [p1| | |]; [|done..]. cbn. pose proof (Ht p1 c).
  destruct (try_mul p1 c) as [p2| | |]; [|done..]. cbn. apply Ht.
Qed.

Lemma mul_div_ratio_spec (a b c d v : D) : units v ≠ 0 →
  let near := nearest (Z.abs (coefficients [a; b; c; d])) (places [a; b; c; d]) (Z.abs (mantissa v)) (scale v) in
  match mul_div_ratio a b c d v with
  | Ok r => rounded_once near (coefficients [a; b; c; d] * mantissa v) r
  | Err e => err_kind e = Overflow ∧ ∀ s, 0 ≤ s ≤ PAYOUT_SCALE → 2 ^ 96 ≤ near s
  | _ => False
  end.
Proof.
  intros Hv near. apply nonzero_units in Hv as [Hz Hm]. unfold mul_div_ratio. rewrite Hz.
  pose proof (wide_mul_div_ratio_spec [a; b; c; d] v PAYOUT_SCALE ltac:(simpl; lia) Hm ltac:(done)) as Hwide.
  cbv zeta in Hwide. fold near in Hwide.
  assert (Hw : match map_err (λ kind, mkNumericError (OpMulDivRatio a b v) c d kind)
    (normalize <$> wide_mul_div_ratio [a; b; c; d] v PAYOUT_SCALE) with
    | Ok r => rounded_once near (coefficients [a; b; c; d] * mantissa v) r
    | Err e => err_kind e = Overflow ∧ ∀ s, 0 ≤ s ≤ PAYOUT_SCALE → 2 ^ 96 ≤ near s
    | _ => False
    end).
  { destruct (wide_mul_div_ratio _ _ _) as [r|e| |]; [| |done..]; [|by destruct Hwide as [-> ?]].
    destruct Hwide as (H1 & H2 & H3 & H4). simpl. apply (rounded_once_units _ _ r); [by rewrite normalize_units|].
    exists (scale r). pose proof (mantissa_range r). split_and!; [lia|lia| |lia|by apply units_sign|done].
    rewrite (units_abs r (scale r)), Z.sub_diag, Z.mul_1_r, H2 by (unfold PAYOUT_SCALE in *; lia). done. }
  pose proof (held_total a b c d) as Htot.
  destruct (try_mul a b ≫= _) as [p|e| |] eqn:Hheld; [|exact Hw|done..]. cbn [mbind option_bind].
  destruct (round_held_quotient p v) as [q|] eqn:Hq; [|exact Hw].
  apply (rounded_once_units _ _ q); [by rewrite normalize_units|]. apply round_held_nearest in Hq; [|done].
  apply held_product in Hheld. revert Hq. pose proof (scale_range p).
  assert (Hpl : 0 ≤ places [a; b; c; d]).
  { simpl. pose proof (scale_range a). pose proof (scale_range b). pose proof (scale_range c). pose proof (scale_range d). lia. }
  pose proof (pow10_pos _ Hpl). pose proof (pow10_scale_pos p). apply rounded_once_ext.
  - intros s Hs. apply nearest_ratio; [lia..|]. apply (f_equal Z.abs) in Hheld.
    by rewrite !Z.abs_mul, !(Z.abs_eq (10 ^ _)) in Hheld by lia.
  - intros z Hz0. set (c0 := coefficients [a; b; c; d]) in *.
    assert (0 ≤ z * (c0 * mantissa v) * 10 ^ scale p); [|nia].
    replace (z * (c0 * mantissa v) * 10 ^ scale p) with (z * mantissa v * (c0 * 10 ^ scale p)) by ring.
    rewrite <- Hheld. replace (z * mantissa v * (mantissa p * 10 ^ places [a; b; c; d])) with
      (z * (mantissa p * mantissa v) * 10 ^ places [a; b; c; d]) by ring. apply Z.mul_nonneg_nonneg; lia.
Qed.

(** [mul_div_ratio] rounds once: the result is the exact quotient
    a x b x c x d / v, rounded half to even at 13 places or at the largest
    smaller scale whose coefficient fits 96 bits, whichever path computed it; it
    refuses only when no such scale exists. *)
Theorem mul_div_ratio_rounds_once (a b c d v : D) : units v ≠ 0 →
  let near := nearest (Z.abs (coefficients [a; b; c; d])) (places [a; b; c; d]) (Z.abs (mantissa v)) (scale v) in
  match mul_div_ratio a b c d v with
  | Ok r => rounded_once near (coefficients [a; b; c; d] * mantissa v) r
  | Err e => err_kind e = Overflow ∧ ∀ s, 0 ≤ s ≤ PAYOUT_SCALE → 2 ^ 96 ≤ near s
  | _ => False
  end.
Proof. exact (mul_div_ratio_spec a b c d v). Qed.
End statements.

(** ** The reference division *)
Module RatioWitness.
Import Ref.

Lemma rd_div_at_spec n neg num den sa sb q : 0 ≤ num → 0 < den → 0 ≤ sa → 0 ≤ sb → (n ≤ 28)%nat →
  rd_div_at n neg num den sa sb = Some q →
  0 ≤ rd_s q ≤ Z.of_nat n ∧ rd_m q = (let k := nearest num sa den sb (rd_s q) in if neg then - k else k) ∧
  0 ≤ nearest num sa den sb (rd_s q) < 2 ^ 96 ∧
  ∀ s, rd_s q < s ≤ Z.of_nat n → 2 ^ 96 ≤ nearest num sa den sb s.
Proof.
  intros Hn Hd Ha Hb. pose proof (pow10_pos sa Ha).
  assert (Hnn : ∀ s, 0 ≤ s → 0 ≤ nearest num sa den sb s).
  { intros s Hs. apply round_even_nonneg; [nia|]. apply Z.mul_nonneg_nonneg; [lia|apply Z.pow_nonneg; lia]. }
  induction n as [|n IH]; intros Hle; cbn [rd_div_at]; rewrite (Z.add_comm _ sb).
  all: fold (nearest num sa den sb 0); try fold (nearest num sa den sb (Z.of_nat (S n))).
  - destruct (rd_make _ _) as [d|] eqn:E; [|done]. intros [= <-]. unfold rd_make in E. case_decide as Hh; [|done].
    injection E as <-. cbn [rd_s rd_m]. destruct Hh as [Hh _]. specialize (Hnn (Z.of_nat 0) ltac:(lia)).
    split_and!; [lia|lia|done|done| |lia]. change (round_even _ _) with (nearest num sa den sb (Z.of_nat 0)) in Hh. destruct neg; lia.
  - destruct (rd_make _ _) as [d|] eqn:E.
    + intros [= ->]. clear IH. unfold rd_make in E. case_decide as Hh; [|done]. injection E as <-. cbn [rd_s rd_m].
      destruct Hh as [Hh _]. specialize (Hnn (Z.of_nat (S n)) ltac:(lia)). split_and!; [lia|lia|done|lia| |lia].
      destruct neg; lia.
    + intros Hq. destruct (IH ltac:(lia) Hq) as (H1 & H2 & H3 & H4). split_and!; [lia|lia|done|lia|lia|].
      intros s Hs. destruct (decide (s = Z.of_nat (S n))) as [->|]; [|apply H4; lia].
      unfold rd_make in E. case_decide as Hh; [done|]. specialize (Hnn (Z.of_nat (S n)) ltac:(lia)).
      apply Z.nlt_ge. intros Hlt. apply Hh. split; [destruct neg; lia|lia].
Qed.

#[export] Instance rdec_division : DivisionLaws rdec.
Proof.
  split. intros a b q Hb Hq. simpl in *. unfold rd_div in Hq. rewrite (proj2 (Z.eqb_neq _ _) Hb) in Hq.
  pose proof (rd_holds a) as [_ Ha]. pose proof (rd_holds b) as [_ Hb'].
  apply rd_div_at_spec in Hq as (H1 & H2 & H3 & H4); [|lia|lia|lia|lia|lia].
  exists (rd_s q). split_and!; [lia|lia| |lia| |intros; apply H4; lia].
  - rewrite Z.sub_diag, Z.mul_1_r, H2. cbv zeta. destruct (xorb _ _); lia.
  - rewrite H2. cbv zeta. destruct (Z.ltb_spec (rd_m a) 0), (Z.ltb_spec (rd_m b) 0); simpl; nia.
Qed.

(** 10 x 0.1 x 1 x 1 over 3: thirteen places. *)
Definition factors : list rdec := [of_mantissa 10 0; of_mantissa 1 1; rd_one; rd_one].
Definition three : rdec := of_mantissa 3 0.

Lemma mul_div_ratio_rounds_once_witness :
  mul_div_ratio (of_mantissa 10 0) (of_mantissa 1 1) rd_one rd_one three = Ok (of_mantissa 3333333333333 13) ∧
  rounded_once (nearest (Z.abs (coefficients factors)) (places factors) (Z.abs (mantissa three)) (scale three))
  (coefficients factors * mantissa three) (of_mantissa 3333333333333 13).
Proof.
  assert (E : mul_div_ratio (of_mantissa 10 0) (of_mantissa 1 1) rd_one rd_one three = Ok (of_mantissa 3333333333333 13))
  by (vm_compute; reflexivity).
  split; [exact E|].
  pose proof (mul_div_ratio_rounds_once (of_mantissa 10 0) (of_mantissa 1 1) rd_one rd_one three) as H.
  cbv zeta in H. rewrite E in H. apply H. vm_compute. discriminate.
Defined.
End RatioWitness.
