(* ===== verification/TreeTypes.v ===== *)
(** * Tree data: [tree/node.rs], [tree/error.rs], [types.rs], [snapshot.rs]

    The node record, the position snapshot and the two error enumerations the
    arena and the tree types share. An index is a [nat] (a [usize] slot of the
    arena's node vector); a depth is an [N] kept below 2^32. *)

From stdpp Require Import base numbers list gmap strings.
From Stdlib Require Import ZArith Lia.
From S2P Require Import Prelude.

(** Index into the arena's node vector. *)
Abbreviation NodeIndex := nat.

(** A recruit whose sponsor a removal moved, and who it moved them to. *)
Record Responsored := mkResponsored { moved_user_id : Uuid; new_sponsor_id : Uuid }.

Record Node := mkNode {
  user_id : Uuid;
  parent : option NodeIndex;
  children : list NodeIndex;
  sponsor : option NodeIndex;
  sponsored : list NodeIndex;
  depth : N;
  enrolled_at : Z;
}.

#[export] Instance Node_eq_dec : EqDecision Node.
Proof. solve_decision. Defined.

(** Field updates. *)
Definition with_children (f : list NodeIndex → list NodeIndex) (n : Node) : Node :=
  mkNode (user_id n) (parent n) (f (children n)) (sponsor n) (sponsored n) (depth n) (enrolled_at n).
Definition with_sponsored (f : list NodeIndex → list NodeIndex) (n : Node) : Node :=
  mkNode (user_id n) (parent n) (children n) (sponsor n) (f (sponsored n)) (depth n) (enrolled_at n).
Definition with_sponsor (s : option NodeIndex) (n : Node) : Node :=
  mkNode (user_id n) (parent n) (children n) s (sponsored n) (depth n) (enrolled_at n).

Definition with_parent (p : option NodeIndex) (n : Node) : Node :=
  mkNode (user_id n) p (children n) (sponsor n) (sponsored n) (depth n) (enrolled_at n).
Definition with_depth (d : N) (n : Node) : Node :=
  mkNode (user_id n) (parent n) (children n) (sponsor n) (sponsored n) d (enrolled_at n).

(** The cleared node a freed slot holds. *)
Definition tombstone_node : Node := mkNode nil_uuid None [] None [] 0 0.

(** A slot is live when it does not hold the nil user. *)
Definition live_node (n : Node) : bool := negb (is_nil (user_id n)).

Record TreePosition := mkTreePosition {
  tp_user_id : Uuid;
  tp_parent_user_id : option Uuid;
  tp_sponsor_user_id : option Uuid;
  tp_position : nat;
  tp_depth : N;
  tp_child_count : nat;
  tp_downline_counts : gmap nat nat;
  tp_enrolled_at : Z;
}.

Inductive TreeError :=
| UserNotFound (u : Uuid)
| UserAlreadyExists (u : Uuid)
| PositionOutOfRange (user_id : Uuid) (position child_count : nat)
| HasChildren (u : Uuid) (n : nat)
| RootAlreadyExists
| PositionOccupied (user_id : Uuid) (position : nat)
| InvalidWidth (w : N)
| TreeEmpty
| CannotRemoveRoot
| SponsorNotFound (u : Uuid)
| UserNotInHoldingTank (u : Uuid)
| UserInHoldingTank (u : Uuid)
| SponsorInHoldingTank (user_id sponsor_id : Uuid)
| UnsupportedSpillover
| SubtreeFull (u : Uuid)
| SponsorlessWithRecruits (user_id : Uuid) (surviving_sponsored : nat)
| SponsorCycle (user_id : Uuid) (bound : nat)
| NilUserId.

#[export] Instance TreeError_eq_dec : EqDecision TreeError.
Proof. solve_decision. Defined.

(** The consistency faults of a restored tree or engine. *)
Inductive SnapshotConsistencyError :=
| IndexSlotOutOfRange (user_id : Uuid) (slot node_count : nat)
| IndexSlotMismatch (user_id : Uuid) (slot : nat) (found : Uuid)
| IndexSlotTombstoned (user_id : Uuid) (slot : nat)
| NodeNotIndexed (slot : nat) (user_id : Uuid)
| EdgeOutOfRange (field : string) (slot target node_count : nat)
| EdgeTombstoned (field : string) (slot target : nat)
| FreeSlotOutOfRange (slot node_count : nat)
| FreeSlotNotTombstoned (slot : nat) (found : Uuid)
| FreeSlotRepeated (slot : nat)
| TombstoneNotCleared (slot : nat) (field : string)
| NodeDepthNotZero (slot : nat) (user_id : Uuid) (depth : N)
| NodeDepthMismatch (slot : nat) (user_id : Uuid) (depth : N) (parent_slot : nat) (parent_depth : N)
| RootOutOfRange (slot node_count : nat)
| RootTombstoned (slot : nat)
| RootHasSponsor (slot : nat) (user_id : Uuid) (sponsor : nat)
| EdgeNotReciprocated (field : string) (slot target : nat) (reverse_field : string)
| EdgeRepeated (field : string) (slot target : nat)
| RootMissing (live_count : nat)
| ParentlessNodeNotRoot (slot : nat) (user_id : Uuid) (root : nat)
| SponsorChainRevisits (start revisited : nat)
| ChildSlotOutOfRange (slot node_count : nat)
| ChildSlotTombstoned (slot : nat)
| LiveNodeNotSlotted (slot : nat) (user_id : Uuid)
| ChildSlottedTwiceUnderOneParent (slot parent : nat)
| ChildSlotRepeated (slot first_parent second_parent parent_count : nat)
| RootSlottedAsChild (parent : nat)
| NodeSlottedUnderItself (slot : nat)
| SlotEntryMissing (slot : nat) (user_id : Uuid)
| ChildSlotWidthMismatch (slot found : nat) (width : N)
| ChildrenDisagreeWithSlots (slot : nat) (children slotted : list nat)
| MatrixWidthTooSmall (width : N)
| MatrixSpilloverUnsupported
| HoldingTankUserNil (position : nat)
| HoldingTankSponsorNil (position : nat)
| HoldingTankUserPlaced (user_id : Uuid) (slot : nat)
| HoldingTankUserRepeated (user_id : Uuid)
| HoldingTankSponsorChainRevisits (start revisited : Uuid)
| BoardDimensionsOutOfRange (width height : N)
| BoardTotalPositionsMismatch (found : nat) (width height : N) (expected : nat)
| BoardPositionCountMismatch (board_id : Uuid) (found expected : nat)
| BoardOccupantAboveOpening (board_id : Uuid) (open_position occupied_position : nat)
| BoardIdMismatch (key board_id : Uuid)
| OccupantNotIndexed (user_id board_id : Uuid)
| MemberSeatedTwiceOnBoard (user_id board_id : Uuid)
| MemberDisplacedAndSeated (user_id board_id : Uuid)
| MemberDisplacedTwice (user_id : Uuid)
| MemberOnTwoBoards (user_id first_board second_board : Uuid)
| BoardAbsent (user_id board_id : Uuid)
| MemberNotOnBoard (user_id board_id : Uuid)
| BoardSeqRepeated (seq : N) (first_board second_board : Uuid)
| BoardSeqNotBelowCounter (board_id : Uuid) (seq next_board_seq : N)
| BoardSeqCounterExhausted (next_board_seq : N)
| UserStreamsEntryEmpty (user_id : Uuid)
| StreamAbsent (user_id : Uuid) (stream_id : N)
| UserNotInStreamTree (user_id : Uuid) (stream_id : N)
| OwnerStreamAbsent (user_id : Uuid) (stream_id : N)
| StreamOwnerMismatch (user_id : Uuid) (stream_id : N) (owner_id : Uuid)
| StreamIdMismatch (key stream_id : N)
| StreamIdCursorNotPastEnd (next_stream_id highest_stream_id : N)
| StreamIdCursorExhausted (next_stream_id : N)
| StreamBottomNotInTree (stream_id : N) (user_id : Uuid)
| StreamBottomMissing (stream_id : N) (node_count : nat)
| TreeUserNotIndexed (stream_id : N) (user_id : Uuid)
| Stream (stream_id : N) (source : SnapshotConsistencyError).

(** [config/matrix.rs]: where a matrix looks for the next free slot. *)
Inductive SpilloverDirection := BreadthFirst | DepthFirst.
#[export] Instance SpilloverDirection_eq_dec : EqDecision SpilloverDirection.
Proof. solve_decision. Defined.

Lemma live_node_spec n : live_node n = true ↔ user_id n ≠ nil_uuid.
Proof. unfold live_node, is_nil. by rewrite negb_true_iff, bool_decide_eq_false. Qed.

Lemma not_live_node_spec n : live_node n = false ↔ user_id n = nil_uuid.
Proof. unfold live_node, is_nil. by rewrite negb_false_iff, bool_decide_eq_true. Qed.

Inductive PruningMode := PromoteEarliest | HoldingTank.
