(* ===== verification/Arena.v ===== *)
(** * The arena: [tree/arena.rs]

    Shared storage of every tree type: a vector of nodes, an index from user to
    slot, a free list and a root. This file translates its operations; their
    theorems are in ArenaWf.v (invariant, mutation), ArenaWalk.v (traversals)
    and ArenaRestore.v (validation of a restored arena).

    Vector indexing panics out of range ([slot]); the [while] loops over a
    queue or a chain run on fuel one above the number of slots, which the
    traversal theorems show is enough on every well-formed arena. A
    [debug_assert!] is not modelled: it is absent from a release build. *)

From stdpp Require Import base numbers list gmap strings.
From Stdlib Require Import ZArith Lia.
From S2P Require Import Prelude TreeTypes.

Record Arena := mkArena {
  nodes : list Node;
  index : gmap Uuid NodeIndex;
  free_list : list NodeIndex;
  root : option NodeIndex;
}.

Definition with_nodes (f : list Node → list Node) (a : Arena) : Arena :=
  mkArena (f (nodes a)) (index a) (free_list a) (root a).
Definition with_index (f : gmap Uuid NodeIndex → gmap Uuid NodeIndex) (a : Arena) : Arena :=
  mkArena (nodes a) (f (index a)) (free_list a) (root a).
Definition with_root (r : option NodeIndex) (a : Arena) : Arena :=
  mkArena (nodes a) (index a) (free_list a) r.

(** [Arena::new]. *)
Definition arena_new : Arena := mkArena [] ∅ [] None.

(** [self.nodes[idx.0]]. *)
Definition slot {E} (a : Arena) (i : NodeIndex) : outcome E Node := expect (nodes a !! i).

(** ** Lookup, allocation and release *)

Definition resolve (a : Arena) (u : Uuid) : outcome TreeError NodeIndex :=
  ok_or (index a !! u) (UserNotFound u).

(** A missing sponsor is reported as such: the [map_err] of every placement. *)
Definition sponsor_error (e : TreeError) : TreeError :=
  match e with UserNotFound id => SponsorNotFound id | other => other end.

(** [Arena::node]: a live slot, or a panic. *)
Definition node {E} (a : Arena) (i : NodeIndex) : outcome E Node :=
  n ← slot a i;
  assert_that (live_node n);;
  Ok n.

(** [*self.node_mut(idx) = f(...)]: the same check, then the write. *)
Definition node_mut {E} (a : Arena) (i : NodeIndex) (f : Node → Node) : outcome E Arena :=
  n ← slot a i;
  assert_that (live_node n);;
  Ok (with_nodes (alter f i) a).

Definition alloc_slot {E} (a : Arena) (n : Node) : outcome E (Arena * NodeIndex) :=
  match last (free_list a) with
  | Some free_idx =>
      _ ← slot a free_idx;
      Ok (mkArena (<[free_idx := n]> (nodes a)) (index a)
            (take (pred (length (free_list a))) (free_list a)) (root a), free_idx)
  | None =>
      let idx := length (nodes a) in
      Ok (with_nodes (λ l, l ++ [n]) a, idx)
  end.

Definition check_user_id (u : Uuid) : outcome TreeError unit :=
  refuse_if (is_nil u) NilUserId.

Definition tombstone {E} (a : Arena) (i : NodeIndex) : outcome E Arena :=
  _ ← slot a i;
  Ok (mkArena (<[i := tombstone_node]> (nodes a)) (index a) (free_list a ++ [i]) (root a)).

(** ** Sponsor survival: who inherits the recruits of removed nodes *)

Fixpoint surviving_from (a : Arena) (removed : gset NodeIndex) (bound : nat)
    (current : option NodeIndex) : outcome TreeError (option (option NodeIndex)) :=
  match bound with
  | O => Ok None
  | S bound' =>
      match current with
      | None => Ok (Some None)
      | Some candidate =>
          if bool_decide (candidate ∉ removed) then Ok (Some (Some candidate))
          else n ← slot a candidate; surviving_from a removed bound' (sponsor n)
      end
  end.

Definition surviving_sponsor (a : Arena) (i : NodeIndex) (removed : gset NodeIndex)
    : outcome TreeError (option NodeIndex) :=
  let bound := length (nodes a) in
  n ← slot a i;
  r ← surviving_from a removed bound (sponsor n);
  match r with
  | Some target => Ok target
  | None => Err (SponsorCycle (user_id n) bound)
  end.

Definition surviving_recruits {E} (a : Arena) (i : NodeIndex) (removed : gset NodeIndex)
    : outcome E (list NodeIndex) :=
  n ← slot a i;
  Ok (filter (λ s, s ∉ removed) (sponsored n)).

Definition check_sponsored_removable (a : Arena) (removed : list NodeIndex)
    : outcome TreeError unit :=
  let removed_set := list_to_set removed in
  for_each (λ idx,
    survivors ← surviving_recruits a idx removed_set;
    match survivors with
    | [] => Ok ()
    | _ =>
        n ← slot a idx;
        target ← surviving_sponsor a idx removed_set;
        match target with
        | None => Err (SponsorlessWithRecruits (user_id n) (length survivors))
        | Some t =>
            refuse_if (bool_decide (t ∈ survivors))
              (SponsorCycle (user_id n) (length (nodes a)))
        end
    end) removed.

(** The first occurrence of each index, in the caller's order. *)
Fixpoint dedup_from (planned : gset NodeIndex) (l : list NodeIndex) : list NodeIndex :=
  match l with
  | [] => []
  | i :: l' =>
      if bool_decide (i ∈ planned) then dedup_from planned l'
      else i :: dedup_from ({[i]} ∪ planned) l'
  end.

Definition plan_removal (a : Arena) (removed : gset NodeIndex) (idx : NodeIndex)
    : outcome TreeError (NodeIndex * list NodeIndex * option NodeIndex) :=
  survivors ← surviving_recruits a idx removed;
  target ← match survivors with
           | [] => Ok None
           | _ => match surviving_sponsor a idx removed with
                  | Ok t => Ok t
                  | Err _ | Panic => Panic
                  | Hang => Hang
                  end
           end;
  Ok (idx, survivors, target).

(** One recruit moved: its sponsor rewritten, the target's list extended. *)
Definition move_recruit {E} (target : option NodeIndex) (st : Arena * list Responsored)
    (s : NodeIndex) : outcome E (Arena * list Responsored) :=
  let '(a, moved) := st in
  ns ← slot a s;
  let a := with_nodes (alter (with_sponsor target) s) a in
  match target with
  | None => Ok (a, moved)
  | Some t =>
      nt ← slot a t;
      let a := with_nodes (alter (with_sponsored (λ l, l ++ [s])) t) a in
      Ok (a, moved ++ [mkResponsored (user_id ns) (user_id nt)])
  end.

Definition apply_removal {E} (st : Arena * list Responsored)
    (step : NodeIndex * list NodeIndex * option NodeIndex)
    : outcome E (Arena * list Responsored) :=
  let '(idx, survivors, target) := step in
  '(a, moved) ← fold_outcome (move_recruit target) st survivors;
  _ ← slot a idx;
  Ok (with_nodes (alter (with_sponsored (λ _, [])) idx) a, moved).

Definition reparent_sponsored (a : Arena) (removed : list NodeIndex)
    : outcome TreeError (Arena * list Responsored) :=
  let removed_set := list_to_set removed in
  plan ← map_outcome (plan_removal a removed_set) (dedup_from ∅ removed);
  fold_outcome apply_removal (a, []) plan.

Definition node_count (a : Arena) : nat := length (nodes a) - length (free_list a).

(** ** Traversals *)

(** The loop of [walk_upline] and [walk_sponsor_upline]: follow [link] upward,
    at most [limit] steps when [limit] is not zero. *)
Fixpoint walk_links {E} (fuel : nat) (a : Arena) (link : Node → option NodeIndex)
    (limit : N) (current : option NodeIndex) (steps : N) (result : list Node)
    : outcome E (list Node) :=
  match fuel with
  | O => Hang
  | S fuel' =>
      match current with
      | None => Ok result
      | Some idx =>
          if (0 <? limit)%N && (limit <=? steps)%N then Ok result
          else
            n ← slot a idx;
            steps' ← u32_add steps 1;
            walk_links fuel' a link limit (link n) steps' (result ++ [n])
      end
  end.

Definition loop_fuel (a : Arena) : nat := S (length (nodes a)).

Definition walk_upline {E} (a : Arena) (start_idx : NodeIndex) (limit : N) : outcome E (list Node) :=
  n ← slot a start_idx;
  walk_links (loop_fuel a) a parent limit (parent n) 0 [].

Definition walk_sponsor_upline {E} (a : Arena) (start_idx : NodeIndex) (limit : N)
    : outcome E (list Node) :=
  n ← slot a start_idx;
  walk_links (loop_fuel a) a sponsor limit (sponsor n) 0 [].

(** The queue loop of [bfs_downline]: the children of a visited node join the
    queue while the node is above the depth limit. *)
Fixpoint bfs_loop {E} (fuel : nat) (a : Arena) (start_depth limit : N)
    (queue : list NodeIndex) (result : list Node) : outcome E (list Node) :=
  match fuel with
  | O => Hang
  | S fuel' =>
      match queue with
      | [] => Ok result
      | idx :: queue' =>
          n ← slot a idx;
          relative_depth ← u32_sub (depth n) start_depth;
          let queue'' :=
            if (limit =? 0)%N || (relative_depth <? limit)%N
            then queue' ++ children n else queue' in
          bfs_loop fuel' a start_depth limit queue'' (result ++ [n])
      end
  end.

Definition bfs_downline {E} (a : Arena) (start_idx : NodeIndex) (limit : N)
    : outcome E (list Node) :=
  n ← slot a start_idx;
  bfs_loop (loop_fuel a) a (depth n) limit (children n) [].

(** [count_downline] runs the same loop with a counter for a result. *)
Fixpoint count_loop {E} (fuel : nat) (a : Arena) (start_depth limit : N)
    (queue : list NodeIndex) (count : nat) : outcome E nat :=
  match fuel with
  | O => Hang
  | S fuel' =>
      match queue with
      | [] => Ok count
      | idx :: queue' =>
          n ← slot a idx;
          relative_depth ← u32_sub (depth n) start_depth;
          let queue'' :=
            if (limit =? 0)%N || (relative_depth <? limit)%N
            then queue' ++ children n else queue' in
          count_loop fuel' a start_depth limit queue'' (count + 1)
      end
  end.

Definition count_downline {E} (a : Arena) (start_idx : NodeIndex) (limit : N) : outcome E nat :=
  n ← slot a start_idx;
  count_loop (loop_fuel a) a (depth n) limit (children n) 0.

Definition count_subtree {E} (a : Arena) (start_idx : NodeIndex) : outcome E nat :=
  count_downline a start_idx 0.

(** The queue loop of [get_branch] and [collect_subtree]: no depth limit. The
    first reads slots directly, the second through [Arena::node]. *)
Fixpoint subtree_loop {E} (fuel : nat) (a : Arena) (read : NodeIndex → outcome E Node)
    (queue : list NodeIndex) (result : list Node) : outcome E (list Node) :=
  match fuel with
  | O => Hang
  | S fuel' =>
      match queue with
      | [] => Ok result
      | current :: queue' =>
          n ← read current;
          subtree_loop fuel' a read (queue' ++ children n) (result ++ [n])
      end
  end.

Definition branch_root (a : Arena) (parent_idx : NodeIndex) (position : nat)
    : outcome TreeError NodeIndex :=
  n ← slot a parent_idx;
  match children n !! position with
  | Some c => Ok c
  | None => Err (PositionOutOfRange (user_id n) position (length (children n)))
  end.

Definition get_branch (a : Arena) (parent_idx : NodeIndex) (position : nat)
    : outcome TreeError (list Node) :=
  b ← branch_root a parent_idx position;
  subtree_loop (loop_fuel a) a (slot a) [b] [].

Fixpoint branch_count_loop {E} (fuel : nat) (a : Arena) (queue : list NodeIndex) (count : nat)
    : outcome E nat :=
  match fuel with
  | O => Hang
  | S fuel' =>
      match queue with
      | [] => Ok count
      | current :: queue' =>
          n ← slot a current;
          branch_count_loop fuel' a (queue' ++ children n) (count + 1)
      end
  end.

Definition count_branch (a : Arena) (parent_idx : NodeIndex) (position : nat)
    : outcome TreeError nat :=
  b ← branch_root a parent_idx position;
  branch_count_loop (loop_fuel a) a [b] 0.

Definition collect_subtree {E} (a : Arena) (root_idx : NodeIndex) : outcome E (list Node) :=
  subtree_loop (loop_fuel a) a (node a) [root_idx] [].

Fixpoint descendant_loop {E} (fuel : nat) (a : Arena) (ancestor_idx current_idx : NodeIndex)
    : outcome E bool :=
  match fuel with
  | O => Hang
  | S fuel' =>
      n ← slot a current_idx;
      match parent n with
      | Some parent_idx =>
          if bool_decide (parent_idx = ancestor_idx) then Ok true
          else descendant_loop fuel' a ancestor_idx parent_idx
      | None => Ok false
      end
  end.

Definition is_descendant_of {E} (a : Arena) (user_idx ancestor_idx : NodeIndex) : outcome E bool :=
  if bool_decide (user_idx = ancestor_idx) then Ok false
  else descendant_loop (loop_fuel a) a ancestor_idx user_idx.

(** [iter().position(|&c| c == idx)]. *)
Definition index_of (i : NodeIndex) (l : list NodeIndex) : option nat :=
  fst <$> list_find (λ c, c = i) l.

(** [node.children.iter().enumerate()], each child's subtree counted. *)
Fixpoint child_counts {E} (a : Arena) (position : nat) (l : list NodeIndex)
    (counts : gmap nat nat) : outcome E (gmap nat nat) :=
  match l with
  | [] => Ok counts
  | c :: l' =>
      count ← count_subtree a c;
      child_counts a (S position) l' (<[position := count]> counts)
  end.

Definition get_position {E} (a : Arena) (i : NodeIndex) : outcome E TreePosition :=
  n ← slot a i;
  parent_user_id ← match parent n with
                   | None => Ok None
                   | Some p => np ← slot a p; Ok (Some (user_id np))
                   end;
  sponsor_user_id ← match sponsor n with
                    | None => Ok None
                    | Some s => ns ← slot a s; Ok (Some (user_id ns))
                    end;
  position ← match parent n with
             | None => Ok 0
             | Some p => np ← slot a p; expect (index_of i (children np))
             end;
  downline_counts ← child_counts a 0 (children n) ∅;
  Ok (mkTreePosition (user_id n) parent_user_id sponsor_user_id position (depth n)
        (length (children n)) downline_counts (enrolled_at n)).

Definition get_sponsor {E} (a : Arena) (i : NodeIndex) : outcome E (option Node) :=
  n ← slot a i;
  match sponsor n with
  | None => Ok None
  | Some s => ns ← slot a s; Ok (Some ns)
  end.

Definition get_sponsored {E} (a : Arena) (i : NodeIndex) : outcome E (list Node) :=
  n ← slot a i;
  map_outcome (slot a) (sponsored n).

(** ** Queries by user: the methods [impl_arena_delegations!] generates *)
Module Query.
Definition contains (a : Arena) (u : Uuid) : bool := bool_decide (is_Some (index a !! u)).

Definition user_ids (a : Arena) : list Uuid := (map_to_list (index a)).*1.

Definition get_parent (a : Arena) (u : Uuid) : outcome TreeError (option Node) :=
  idx ← resolve a u;
  n ← node a idx;
  match parent n with
  | Some p => np ← node a p; Ok (Some np)
  | None => Ok None
  end.

Definition get_children (a : Arena) (u : Uuid) : outcome TreeError (list Node) :=
  idx ← resolve a u;
  n ← node a idx;
  map_outcome (node a) (children n).

Definition get_upline (a : Arena) (u : Uuid) (limit : N) : outcome TreeError (list Node) :=
  idx ← resolve a u; walk_upline a idx limit.

Definition get_downline (a : Arena) (u : Uuid) (limit : N) : outcome TreeError (list Node) :=
  idx ← resolve a u; bfs_downline a idx limit.

Definition count_downline (a : Arena) (u : Uuid) (limit : N) : outcome TreeError nat :=
  idx ← resolve a u; Arena.count_downline a idx limit.

Definition is_descendant_of (a : Arena) (u ancestor_id : Uuid) : outcome TreeError bool :=
  ancestor_idx ← resolve a ancestor_id;
  if bool_decide (u = ancestor_id) then Ok false
  else
  user_idx ← resolve a u;
  Arena.is_descendant_of a user_idx ancestor_idx.

Definition get_sponsor (a : Arena) (u : Uuid) : outcome TreeError (option Node) :=
  idx ← resolve a u; Arena.get_sponsor a idx.

Definition get_sponsor_upline (a : Arena) (u : Uuid) (limit : N) : outcome TreeError (list Node) :=
  idx ← resolve a u; walk_sponsor_upline a idx limit.

Definition get_sponsored (a : Arena) (u : Uuid) : outcome TreeError (list Node) :=
  idx ← resolve a u; Arena.get_sponsored a idx.
End Query.
