(* ===== verification/ArenaCheck.v ===== *)
(** * Consistency checks of a restored arena: [Arena::validate_restored]

    A snapshot is deserialized field by field, so nothing has enforced the
    arena's invariants. These are the passes that reject an inconsistent one.
    A pass over a [HashMap] visits it in no fixed order and keeps the fault with
    the lowest key; [lowest_fault] is that loop. ArenaRestore.v proves that the
    passes accept exactly the well-formed arenas. *)

From stdpp Require Import base numbers list gmap strings.
From Stdlib Require Import ZArith Lia.
From S2P Require Import Prelude TreeTypes Arena.
#[local] Open Scope string_scope.

(** [if fault.as_ref().is_none_or(|(held, _)| key < held) { fault = .. }] *)
Definition keep_lowest {K F : Type} (ltb : K → K → bool) (fault : option (K * F)) (key : K)
    (found : option F) : option (K * F) :=
  match found with
  | None => fault
  | Some err =>
      match fault with
      | None => Some (key, err)
      | Some (held, _) => if ltb key held then Some (key, err) else fault
      end
  end.

Definition lowest_fault {K V F : Type} (ltb : K → K → bool) (check : K → V → option F)
    (entries : list (K * V)) : option (K * F) :=
  foldl (λ fault '(k, v), keep_lowest ltb fault k (check k v)) None entries.

Abbreviation check_result := (outcome SnapshotConsistencyError unit).

Definition raise {K} (fault : option (K * SnapshotConsistencyError)) : check_result :=
  match fault with Some (_, err) => Err err | None => Ok () end.

(** One entry of the user index. *)
Definition check_index_entry (a : Arena) (u : Uuid) (idx : NodeIndex)
    : option SnapshotConsistencyError :=
  match nodes a !! idx with
  | None => Some (IndexSlotOutOfRange u idx (length (nodes a)))
  | Some n =>
      if is_nil (user_id n) then Some (IndexSlotTombstoned u idx)
      else if bool_decide (user_id n ≠ u) then Some (IndexSlotMismatch u idx (user_id n))
      else None
  end.

Definition check_index (a : Arena) : check_result :=
  raise (lowest_fault N.ltb (check_index_entry a) (map_to_list (index a))).

Definition check_edge (a : Arena) (field : string) (slot : nat) (target : option NodeIndex)
    : check_result :=
  match target with
  | None => Ok ()
  | Some t =>
      found ← ok_or (nodes a !! t) (EdgeOutOfRange field slot t (length (nodes a)));
      refuse_if (is_nil (user_id found)) (EdgeTombstoned field slot t)
  end.

(** The first field a tombstone should have cleared and has not. *)
Definition stale_field (n : Node) : option string :=
  if bool_decide (is_Some (parent n)) then Some "parent"
  else if bool_decide (is_Some (sponsor n)) then Some "sponsor"
  else if bool_decide (children n ≠ []) then Some "child"
  else if bool_decide (sponsored n ≠ []) then Some "sponsored node"
  else None.

Definition check_node (a : Arena) (entry : nat * Node) : check_result :=
  let '(slot, n) := entry in
  if is_nil (user_id n) then
    match stale_field n with
    | Some field => Err (TombstoneNotCleared slot field)
    | None => Ok ()
    end
  else
    refuse_if (bool_decide (index a !! user_id n ≠ Some slot)) (NodeNotIndexed slot (user_id n));;
    check_edge a "parent" slot (parent n);;
    check_edge a "sponsor" slot (sponsor n);;
    for_each (λ c, check_edge a "children" slot (Some c)) (children n);;
    for_each (λ s, check_edge a "sponsored" slot (Some s)) (sponsored n).

Definition check_depth (a : Arena) (entry : nat * Node) : check_result :=
  let '(slot, n) := entry in
  if is_nil (user_id n) then Ok ()
  else
    match parent n with
    | None => refuse_if (negb (depth n =? 0)%N) (NodeDepthNotZero slot (user_id n) (depth n))
    | Some p =>
        np ← Arena.slot a p;
        refuse_if (bool_decide (Some (depth n) ≠ u32_checked_add (depth np) 1))
          (NodeDepthMismatch slot (user_id n) (depth n) p (depth np))
    end.

Definition check_free (a : Arena) (seen : gset nat) (idx : NodeIndex)
    : outcome SnapshotConsistencyError (gset nat) :=
  n ← ok_or (nodes a !! idx) (FreeSlotOutOfRange idx (length (nodes a)));
  refuse_if (negb (is_nil (user_id n))) (FreeSlotNotTombstoned idx (user_id n));;
  refuse_if (bool_decide (idx ∈ seen)) (FreeSlotRepeated idx);;
  Ok ({[idx]} ∪ seen).

Definition check_root (a : Arena) : check_result :=
  match root a with
  | None => Ok ()
  | Some r =>
      n ← ok_or (nodes a !! r) (RootOutOfRange r (length (nodes a)));
      refuse_if (is_nil (user_id n)) (RootTombstoned r);;
      match sponsor n with
      | Some s => Err (RootHasSponsor r (user_id n) s)
      | None => Ok ()
      end
  end.

(** One downward edge: not listed twice, and named back upward. *)
Definition check_down (a : Arena) (down_field up_field : string) (up : Node → option NodeIndex)
    (slot : nat) (listed : gset (nat * nat)) (target : NodeIndex)
    : outcome SnapshotConsistencyError (gset (nat * nat)) :=
  refuse_if (bool_decide ((slot, target) ∈ listed)) (EdgeRepeated down_field slot target);;
  nt ← Arena.slot a target;
  refuse_if (bool_decide (up nt ≠ Some slot)) (EdgeNotReciprocated down_field slot target up_field);;
  Ok ({[(slot, target)]} ∪ listed).

Definition check_reciprocal (a : Arena) (down_field up_field : string)
    (down : Node → list NodeIndex) (up : Node → option NodeIndex) : check_result :=
  listed ← fold_outcome (λ listed '(slot, n),
      if is_nil (user_id n) then Ok listed
      else fold_outcome (check_down a down_field up_field up slot) listed (down n))
    (∅ : gset (nat * nat)) (enumerate (nodes a));
  for_each (λ '(slot, n),
      if is_nil (user_id n) then Ok ()
      else match up n with
           | None => Ok ()
           | Some target =>
               refuse_if (bool_decide ((target, slot) ∉ listed))
                 (EdgeNotReciprocated up_field slot target down_field)
           end) (enumerate (nodes a)).

Definition check_single_root (a : Arena) : check_result :=
  let live_count := length (filter (λ n, user_id n ≠ nil_uuid) (nodes a)) in
  match root a with
  | None => refuse_if (0 <? live_count)%nat (RootMissing live_count)
  | Some r =>
      for_each (λ '(slot, n),
        refuse_if (negb (is_nil (user_id n) || bool_decide (is_Some (parent n))
                         || bool_decide (slot = r)))
          (ParentlessNodeNotRoot slot (user_id n) r)) (enumerate (nodes a))
  end.

(** ** Sponsor chains *)

Inductive Visit := Unseen | OnWalk | Done.
#[export] Instance Visit_eq_dec : EqDecision Visit.
Proof. solve_decision. Defined.

(** One walk up the sponsor links, until a settled node or the end. *)
Fixpoint sponsor_walk (fuel : nat) (a : Arena) (start : nat) (visits : list Visit)
    (walk : list nat) (current : option NodeIndex)
    : outcome SnapshotConsistencyError (list Visit * list nat) :=
  match fuel with
  | O => Hang
  | S fuel' =>
      match current with
      | None => Ok (visits, walk)
      | Some idx =>
          v ← expect (visits !! idx);
          match v with
          | Done => Ok (visits, walk)
          | OnWalk => Err (SponsorChainRevisits start idx)
          | Unseen =>
              n ← Arena.slot a idx;
              sponsor_walk fuel' a start (<[idx := OnWalk]> visits) (walk ++ [idx]) (sponsor n)
          end
      end
  end.

Definition check_chain_from (a : Arena) (visits : list Visit) (entry : nat * Node)
    : outcome SnapshotConsistencyError (list Visit) :=
  let '(start, n) := entry in
  if is_nil (user_id n) then Ok visits
  else
    v ← expect (visits !! start);
    if bool_decide (v = Done) then Ok visits
    else
      '(visits, walk) ← sponsor_walk (loop_fuel a) a start visits [] (Some start);
      Ok (foldl (λ vs slot, <[slot := Done]> vs) visits walk).

Definition check_sponsor_chains_end (a : Arena) : check_result :=
  _ ← fold_outcome (check_chain_from a) (replicate (length (nodes a)) Unseen) (enumerate (nodes a));
  Ok ().

(** ** The whole validation *)
Definition validate_restored (a : Arena) : check_result :=
  check_index a;;
  for_each (check_node a) (enumerate (nodes a));;
  for_each (check_depth a) (enumerate (nodes a));;
  (_ ← fold_outcome (check_free a) (∅ : gset nat) (free_list a); Ok ());;
  check_root a;;
  check_reciprocal a "children" "parent" children parent;;
  check_single_root a;;
  check_reciprocal a "sponsored" "sponsor" sponsored sponsor;;
  check_sponsor_chains_end a.

(** ** Child-slot maps: the checks the slot-based trees add

    [C] is one parent's entry ([[Option<NodeIndex>; 2]] for the binary tree,
    [Vec<Option<NodeIndex>>] for the matrix) and [items] iterates over it. *)
Section slot_checks.
Context {C : Type} (items : C → list (option NodeIndex)).

(** [iter().flatten()]: the occupied slots, in slot order. *)
Definition occupied (c : C) : list NodeIndex := omap id (items c).

Definition check_slot_index (a : Arena) (slot : nat) : check_result :=
  n ← ok_or (nodes a !! slot) (ChildSlotOutOfRange slot (length (nodes a)));
  refuse_if (is_nil (user_id n)) (ChildSlotTombstoned slot).

(** One entry of the slot map: its parent, then [extra] (the matrix width),
    then its children. *)
Definition slot_entry_fault (extra : NodeIndex → C → option SnapshotConsistencyError) (a : Arena)
  (parent : NodeIndex) (c : C) : option SnapshotConsistencyError :=
  let err := λ slot, match check_slot_index a slot with Err e => Some e | _ => None end in
  match err parent with
  | Some e => Some e
  | None => match extra parent c with
        | Some e => Some e
        | None => head (omap err (occupied c))
        end
  end.

Definition check_slot_entries (extra : NodeIndex → C → option SnapshotConsistencyError) (a : Arena)
  (slots : gmap NodeIndex C) : check_result :=
  raise (lowest_fault Nat.ltb (slot_entry_fault extra a) (map_to_list slots)).

Definition check_every_live_node_has_a_slot (a : Arena) (slots : gmap NodeIndex C) : check_result :=
  for_each (λ '(slot, n),
  if is_nil (user_id n) then Ok ()
  else refuse_if (negb (bool_decide (is_Some (slots !! slot)))) (SlotEntryMissing slot (user_id n)))
  (enumerate (nodes a)).

(** What one pass over the slot map records. *)
Record slot_scan := mkScan {
  root_as_child : option nat;
  self_as_child : option nat;
  parents_of : gmap NodeIndex (nat * list nat);
}.

(** [if held.is_none_or(|held| parent < held) { held = Some(parent) }] *)
Definition lower (held : option nat) (parent : nat) : option nat :=
  match held with
  | None => Some parent
  | Some h => if (parent <? h)%nat then Some parent else held
  end.

Definition scan_child (a : Arena) (parent : NodeIndex) (st : slot_scan) (child : NodeIndex) : slot_scan :=
  mkScan
  (if bool_decide (root a = Some child) then lower (root_as_child st) parent else root_as_child st)
  (if bool_decide (child = parent) then lower (self_as_child st) parent else self_as_child st)
  (<[child := match parents_of st !! child with
            | Some (first, rest) => (first, (rest ++ [parent])%list)
            | None => (parent, [])
            end]> (parents_of st)).

Definition scan_slots (a : Arena) (slots : gmap NodeIndex C) : slot_scan :=
  foldl (λ st '(parent, c), foldl (scan_child a parent) st (occupied c))
  (mkScan None None ∅) (map_to_list slots).

(** [Vec::dedup] on a sorted vector. *)
Fixpoint dedup (l : list nat) : list nat :=
  match l with
  | [] => []
  | x :: l' => x :: match dedup l' with
                | y :: d => if (x =? y)%nat then d else y :: d
                | [] => []
                end
  end.

(** The lowest child named by more than one slot, with the slots' parents. *)
Definition repeated_child (parents : gmap NodeIndex (nat * list nat)) : option nat :=
  foldl lower None ((filter (λ '(_, (_, rest)), rest ≠ []) (map_to_list parents)).*1).

Definition repeat_error (child : NodeIndex) (first : nat) (rest : list nat) : check_result :=
  let distinct := dedup (sort_by Nat.compare (first :: rest)) in
  first_parent ← expect (distinct !! 0);
  match distinct !! 1 with
  | Some second_parent => Err (ChildSlotRepeated child first_parent second_parent (length distinct))
  | None => Err (ChildSlottedTwiceUnderOneParent child first_parent)
  end.

Definition check_every_live_node_is_slotted_once (a : Arena) (slots : gmap NodeIndex C) : check_result :=
  let st := scan_slots a slots in
  match root_as_child st with Some parent => Err (RootSlottedAsChild parent) | None => Ok () end;;
  match self_as_child st with Some slot => Err (NodeSlottedUnderItself slot) | None => Ok () end;;
  match repeated_child (parents_of st) with
  | Some child => '(first, rest) ← expect (parents_of st !! child); repeat_error child first rest
  | None => Ok ()
  end;;
  for_each (λ '(slot, n),
  if is_nil (user_id n) || bool_decide (root a = Some slot) then Ok ()
  else refuse_if (negb (bool_decide (is_Some (parents_of st !! slot)))) (LiveNodeNotSlotted slot (user_id n)))
  (enumerate (nodes a)).

(** The children check indexes the node vector before it compares. *)
Definition match_slots (a : Arena) (fault : option (nat * SnapshotConsistencyError))
  (entry : NodeIndex * C) : outcome SnapshotConsistencyError (option (nat * SnapshotConsistencyError)) :=
  let '(parent, c) := entry in
  let slotted := occupied c in
  n ← Arena.slot a parent;
  Ok (keep_lowest Nat.ltb fault parent
    (if bool_decide (slotted ≠ children n)
     then Some (ChildrenDisagreeWithSlots parent (children n) slotted) else None)).

Definition check_children_match_slots (a : Arena) (slots : gmap NodeIndex C) : check_result :=
  fault ← fold_outcome (match_slots a) None (map_to_list slots);
  raise fault.
End slot_checks.
