(* ===== verification/ArenaWf.v ===== *)
(** * The arena invariant, and the two ways a tree changes it

    [arena_wf] states what every tree type relies on: the user index names
    exactly the live slots, freed slots are cleared, the parent and sponsor
    edges are reciprocated once each, depths count from the one root, and every
    sponsor chain ends. [wf_attach] and [wf_detach] show that placing a leaf and
    removing a leaf keep it, whatever order the tree type keeps children in. *)

From stdpp Require Import base numbers list gmap strings.
From Stdlib Require Import ZArith Lia.
From S2P Require Import Prelude TreeTypes Arena.

(** Membership in a list known to be empty. *)
Ltac elem_nil :=
  match goal with
  | H : _ ∈ ?l, E : ?l = [] |- _ => exfalso; rewrite E in H; by apply elem_of_nil in H
  end.

(** The sponsor chain from a slot reaches a node with no sponsor. *)
Inductive chain_ends (a : Arena) : NodeIndex → Prop :=
| chain_end i n : nodes a !! i = Some n → sponsor n = None → chain_ends a i
| chain_step i n j :
    nodes a !! i = Some n → sponsor n = Some j → chain_ends a j → chain_ends a i.

Record arena_wf (a : Arena) : Prop := {
  wf_index u i : index a !! u = Some i ↔ u ≠ nil_uuid ∧ ∃ n, nodes a !! i = Some n ∧ user_id n = u;
  wf_tomb i n : nodes a !! i = Some n → user_id n = nil_uuid →
    parent n = None ∧ sponsor n = None ∧ children n = [] ∧ sponsored n = [];
  wf_parent i n p : nodes a !! i = Some n → parent n = Some p →
    ∃ np, nodes a !! p = Some np ∧ i ∈ children np;
  wf_children i n c : nodes a !! i = Some n → c ∈ children n →
    ∃ nc, nodes a !! c = Some nc ∧ parent nc = Some i;
  wf_children_nodup i n : nodes a !! i = Some n → NoDup (children n);
  wf_sponsor i n s : nodes a !! i = Some n → sponsor n = Some s →
    ∃ ns, nodes a !! s = Some ns ∧ i ∈ sponsored ns;
  wf_sponsored i n r : nodes a !! i = Some n → r ∈ sponsored n →
    ∃ nr, nodes a !! r = Some nr ∧ sponsor nr = Some i;
  wf_sponsored_nodup i n : nodes a !! i = Some n → NoDup (sponsored n);
  wf_depth_root i n : nodes a !! i = Some n → user_id n ≠ nil_uuid → parent n = None →
    depth n = 0%N;
  wf_depth i n p np : nodes a !! i = Some n → parent n = Some p → nodes a !! p = Some np →
    depth n = (depth np + 1)%N ∧ (depth n ≤ u32_max)%N;
  wf_free_nodup : NoDup (free_list a);
  wf_free i : i ∈ free_list a → ∃ n, nodes a !! i = Some n ∧ user_id n = nil_uuid;
  wf_root_live r : root a = Some r →
    ∃ n, nodes a !! r = Some n ∧ user_id n ≠ nil_uuid ∧ sponsor n = None;
  wf_rootless i n : root a = None → nodes a !! i = Some n → user_id n = nil_uuid;
  wf_root_unique r i n : root a = Some r → nodes a !! i = Some n → user_id n ≠ nil_uuid →
    parent n = None → i = r;
  wf_chain i n : nodes a !! i = Some n → user_id n ≠ nil_uuid → chain_ends a i;
}.

Section wf_facts.
Context (a : Arena) (Hwf : arena_wf a).

(** The targets of edges are live. *)
Lemma wf_parent_live i n p : nodes a !! i = Some n → parent n = Some p →
  ∃ np, nodes a !! p = Some np ∧ i ∈ children np ∧ user_id np ≠ nil_uuid.
Proof.
  intros Hi Hp. destruct (wf_parent a Hwf i n p Hi Hp) as (np & Hnp & Hin).
  exists np. split_and!; [done..|]. intros Hnil.
  destruct (wf_tomb a Hwf p np Hnp Hnil) as (_ & _ & Hc & _). rewrite Hc in Hin. set_solver.
Qed.

Lemma wf_sponsor_live i n s : nodes a !! i = Some n → sponsor n = Some s →
  ∃ ns, nodes a !! s = Some ns ∧ i ∈ sponsored ns ∧ user_id ns ≠ nil_uuid.
Proof.
  intros Hi Hs. destruct (wf_sponsor a Hwf i n s Hi Hs) as (ns & Hns & Hin).
  exists ns. split_and!; [done..|]. intros Hnil.
  destruct (wf_tomb a Hwf s ns Hns Hnil) as (_ & _ & _ & Hc). rewrite Hc in Hin. set_solver.
Qed.

Lemma wf_child_live i n c : nodes a !! i = Some n → c ∈ children n →
  ∃ nc, nodes a !! c = Some nc ∧ parent nc = Some i ∧ user_id nc ≠ nil_uuid.
Proof.
  intros Hi Hc. destruct (wf_children a Hwf i n c Hi Hc) as (nc & Hnc & Hp).
  exists nc. split_and!; [done..|]. intros Hnil.
  destruct (wf_tomb a Hwf c nc Hnc Hnil) as (Hq & _). congruence.
Qed.

Lemma wf_recruit_live i n r : nodes a !! i = Some n → r ∈ sponsored n →
  ∃ nr, nodes a !! r = Some nr ∧ sponsor nr = Some i ∧ user_id nr ≠ nil_uuid.
Proof.
  intros Hi Hr. destruct (wf_sponsored a Hwf i n r Hi Hr) as (nr & Hnr & Hp).
  exists nr. split_and!; [done..|]. intros Hnil.
  destruct (wf_tomb a Hwf r nr Hnr Hnil) as (_ & Hq & _). congruence.
Qed.

(** Resolving a user names its live slot. *)
Lemma resolve_live u i : index a !! u = Some i →
  ∃ n, nodes a !! i = Some n ∧ user_id n = u ∧ u ≠ nil_uuid.
Proof. intros (Hn & n & ? & ?)%wf_index; [|done]. eauto. Qed.

Lemma live_indexed i n : nodes a !! i = Some n → user_id n ≠ nil_uuid →
  index a !! user_id n = Some i.
Proof. intros ? ?. apply wf_index; eauto. Qed.

(** Depths are positive below the root and zero at it. *)
Lemma wf_depth_pos i n p : nodes a !! i = Some n → parent n = Some p → (0 < depth n)%N.
Proof.
  intros Hi Hp. destruct (wf_parent a Hwf i n p Hi Hp) as (np & Hnp & _).
  destruct (wf_depth a Hwf i n p np Hi Hp Hnp). lia.
Qed.

(** A live node below the root has the root's child somewhere above it; so a
    childless root is alone. *)
Lemma root_child r nr i n : root a = Some r → nodes a !! r = Some nr →
  nodes a !! i = Some n → user_id n ≠ nil_uuid → i = r ∨ children nr ≠ [].
Proof.
  intros Hr Hnr. remember (depth n) as d eqn:Hd. revert i n Hd.
  induction (N.lt_wf_0 d) as [d _ IH]. intros i n -> Hi Hlive.
  destruct (parent n) as [p|] eqn:Hp; [|left; by eapply wf_root_unique].
  destruct (wf_parent_live i n p Hi Hp) as (np & Hnp & Hin & Hpl).
  destruct (wf_depth a Hwf i n p np Hi Hp Hnp) as [Hdep _].
  destruct (IH (depth np) ltac:(lia) p np eq_refl Hnp Hpl) as [->|?]; [|by right].
  right. intros Hnil. simplify_eq. rewrite Hnil in Hin. set_solver.
Qed.

(** No node is on its own sponsor chain. *)
Inductive sponsored_by : NodeIndex → NodeIndex → Prop :=
| sponsored_direct i n j : nodes a !! i = Some n → sponsor n = Some j → sponsored_by i j
| sponsored_up i n j k :
  nodes a !! i = Some n → sponsor n = Some j → sponsored_by j k → sponsored_by i k.

Lemma chain_acyclic i : chain_ends a i → ¬ sponsored_by i i.
Proof.
  assert (Htrans : ∀ x y z, sponsored_by x y → sponsored_by y z → sponsored_by x z).
  { induction 1; intros; eapply sponsored_up; eauto. }
  induction 1 as [i n Hi Hs|i n j Hi Hs Hj IH].
  - inversion 1; simplify_eq.
  - intros Hc. apply IH. inversion Hc; simplify_eq.
  + exact Hc.
  + eapply Htrans; [eassumption|]. by eapply sponsored_direct.
Qed.
End wf_facts.

Lemma arena_new_wf : arena_wf arena_new.
Proof.
  split; simpl; try done; try set_solver; by constructor.
Qed.

(** ** Placing a leaf *)

(** A slot with a new occupant; the parent's children become [pc] and the
    sponsor's recruits gain the new slot. *)
Definition attach_update (p s idx : NodeIndex) (pc : list NodeIndex) (j : NodeIndex) (n : Node) : Node :=
  mkNode (user_id n) (parent n)
    (if decide (j = p) then pc else children n) (sponsor n)
    (if decide (j = s) then sponsored n ++ [idx] else sponsored n) (depth n) (enrolled_at n).

Record attach (a a' : Arena) (idx : NodeIndex) (new : Node) (p s : NodeIndex)
    (np ns : Node) (pc : list NodeIndex) : Prop := {
  at_fresh n : nodes a !! idx = Some n → user_id n = nil_uuid;
  at_parent : nodes a !! p = Some np ∧ user_id np ≠ nil_uuid;
  at_sponsor : nodes a !! s = Some ns ∧ user_id ns ≠ nil_uuid;
  at_user : index a !! user_id new = None ∧ user_id new ≠ nil_uuid;
  at_edges : parent new = Some p ∧ sponsor new = Some s ∧ children new = [] ∧ sponsored new = [];
  at_depth : depth new = (depth np + 1)%N ∧ (depth new ≤ u32_max)%N;
  at_children : NoDup pc ∧ ∀ c, c ∈ pc ↔ c ∈ children np ∨ c = idx;
  at_nodes j : nodes a' !! j =
    if decide (j = idx) then Some new else attach_update p s idx pc j <$> nodes a !! j;
  at_index : index a' = <[user_id new := idx]> (index a);
  at_root : root a' = root a;
  at_free : NoDup (free_list a') ∧ ∀ j, j ∈ free_list a' → j ∈ free_list a ∧ j ≠ idx;
}.

Section wf_attach.
Context (a a' : Arena) (idx : NodeIndex) (new : Node) (p s : NodeIndex) (np ns : Node)
  (pc : list NodeIndex).
Context (Hwf : arena_wf a) (Hat : attach a a' idx new p s np ns pc).

Lemma attach_ne_parent : p ≠ idx.
Proof. destruct (at_parent _ _ _ _ _ _ _ _ _ Hat). pose proof (at_fresh _ _ _ _ _ _ _ _ _ Hat). naive_solver. Qed.

Lemma attach_ne_sponsor : s ≠ idx.
Proof. destruct (at_sponsor _ _ _ _ _ _ _ _ _ Hat). pose proof (at_fresh _ _ _ _ _ _ _ _ _ Hat). naive_solver. Qed.

(** A slot of the new arena: the new node, or an old one updated. *)
Lemma attach_inv j n : nodes a' !! j = Some n →
  (j = idx ∧ n = new) ∨
  (j ≠ idx ∧ ∃ m, nodes a !! j = Some m ∧ n = attach_update p s idx pc j m).
Proof.
  rewrite (at_nodes _ _ _ _ _ _ _ _ _ Hat). case_decide; [naive_solver|].
  intros (m & -> & ?)%fmap_Some. right. eauto.
Qed.

Lemma attach_new : nodes a' !! idx = Some new.
Proof. rewrite (at_nodes _ _ _ _ _ _ _ _ _ Hat). by rewrite decide_True. Qed.

Lemma attach_old j m : nodes a !! j = Some m → j ≠ idx →
  nodes a' !! j = Some (attach_update p s idx pc j m).
Proof. intros Hm Hj. rewrite (at_nodes _ _ _ _ _ _ _ _ _ Hat), decide_False, Hm; done. Qed.

Lemma attach_old_live j m : nodes a !! j = Some m → user_id m ≠ nil_uuid →
  nodes a' !! j = Some (attach_update p s idx pc j m) ∧ j ≠ idx.
Proof.
  intros Hm Hl. assert (j ≠ idx) by (intros ->; eapply Hl, at_fresh; eauto).
  split; [by apply attach_old|done].
Qed.

Lemma attach_children_iff j m c : nodes a !! j = Some m → j ≠ idx →
  c ∈ children (attach_update p s idx pc j m) ↔ c ∈ children m ∨ (j = p ∧ c = idx).
Proof.
  intros Hm Hj. simpl. destruct (at_children _ _ _ _ _ _ _ _ _ Hat) as [_ Hc].
  destruct (at_parent _ _ _ _ _ _ _ _ _ Hat). case_decide; [|naive_solver].
  subst. simplify_eq. rewrite Hc. naive_solver.
Qed.

Lemma attach_sponsored_iff j m c :
  c ∈ sponsored (attach_update p s idx pc j m) ↔ c ∈ sponsored m ∨ (j = s ∧ c = idx).
Proof. simpl. case_decide; set_solver. Qed.

Lemma attach_chain j : chain_ends a j → (∃ m, nodes a !! j = Some m ∧ user_id m ≠ nil_uuid) →
  chain_ends a' j.
Proof.
  induction 1 as [i n Hi Hs|i n k Hi Hs Hk IH]; intros (m & Hm & Hl);
    assert (m = n) as -> by congruence; destruct (attach_old_live i n Hi Hl) as [Ho _].
  - eapply chain_end; [exact Ho|done].
  - destruct (wf_sponsor_live a Hwf i n k Hi Hs) as (nk & Hnk & _ & Hkl).
    eapply chain_step; [exact Ho|exact Hs|]. eauto.
Qed.

Lemma attach_index u i : index a' !! u = Some i ↔
  u ≠ nil_uuid ∧ ∃ n, nodes a' !! i = Some n ∧ user_id n = u.
Proof.
  rewrite (at_index _ _ _ _ _ _ _ _ _ Hat).
  destruct (at_user _ _ _ _ _ _ _ _ _ Hat) as [Hnone Hnil].
  destruct (decide (u = user_id new)) as [->|Hu].
  - rewrite lookup_insert_eq. split.
    + intros [= <-]. split; [done|]. exists new. split; [apply attach_new|done].
    + intros (_ & n & Hn & Heq). apply attach_inv in Hn as [[-> _]|(_ & m & Hm & ->)]; [done|].
      simpl in Heq. exfalso. assert (index a !! user_id new = Some i); [|congruence].
      apply wf_index; [done|]. eauto.
  - rewrite lookup_insert_ne by done. rewrite (wf_index a Hwf). split.
    + intros (Hn & n & Hi & Hun). split; [done|].
      destruct (attach_old_live i n) as [? _]; [done|congruence|]. eauto.
    + intros (Hn & n & Hi & Hun). split; [done|].
      apply attach_inv in Hi as [[-> ->]|(_ & m & Hm & ->)]; [congruence|]. eauto.
Qed.

Lemma attach_parent_edge i n q : nodes a' !! i = Some n → parent n = Some q →
  ∃ nq, nodes a' !! q = Some nq ∧ i ∈ children nq.
Proof.
  intros [[-> ->]|(Hne & m & Hm & ->)]%attach_inv Hq.
  - destruct (at_edges _ _ _ _ _ _ _ _ _ Hat) as (Hp & _).
    assert (q = p) as -> by congruence.
    destruct (at_parent _ _ _ _ _ _ _ _ _ Hat) as [Hp' Hl].
    destruct (attach_old_live p np Hp' Hl) as [Ho Hne]. eexists. split; [exact Ho|].
    apply attach_children_iff; auto.
  - simpl in Hq. destruct (wf_parent_live a Hwf i m q Hm Hq) as (nq & Hnq & Hin & Hl).
    destruct (attach_old_live q nq Hnq Hl) as [Ho Hne']. eexists. split; [exact Ho|].
    apply attach_children_iff; auto.
Qed.

Lemma attach_child_edge i n c : nodes a' !! i = Some n → c ∈ children n →
  ∃ nc, nodes a' !! c = Some nc ∧ parent nc = Some i.
Proof.
  intros [[-> ->]|(Hne & m & Hm & ->)]%attach_inv Hc.
  - destruct (at_edges _ _ _ _ _ _ _ _ _ Hat) as (_ & _ & Hch & _). rewrite Hch in Hc. set_solver.
  - apply attach_children_iff in Hc as [Hc|[-> ->]]; [..|done|done].
    + destruct (wf_child_live a Hwf i m c Hm Hc) as (nc & Hnc & Hp & Hl).
      destruct (attach_old_live c nc Hnc Hl) as [Ho _]. eauto.
    + exists new. split; [apply attach_new|]. by destruct (at_edges _ _ _ _ _ _ _ _ _ Hat).
Qed.

Lemma attach_sponsor_edge i n q : nodes a' !! i = Some n → sponsor n = Some q →
  ∃ nq, nodes a' !! q = Some nq ∧ i ∈ sponsored nq.
Proof.
  intros [[-> ->]|(Hne & m & Hm & ->)]%attach_inv Hq.
  - destruct (at_edges _ _ _ _ _ _ _ _ _ Hat) as (_ & Hs & _).
    assert (q = s) as -> by congruence.
    destruct (at_sponsor _ _ _ _ _ _ _ _ _ Hat) as [Hs' Hl].
    destruct (attach_old_live s ns Hs' Hl) as [Ho Hne]. eexists. split; [exact Ho|].
    apply attach_sponsored_iff; auto.
  - simpl in Hq. destruct (wf_sponsor_live a Hwf i m q Hm Hq) as (nq & Hnq & Hin & Hl).
    destruct (attach_old_live q nq Hnq Hl) as [Ho Hne']. eexists. split; [exact Ho|].
    apply attach_sponsored_iff; auto.
Qed.

Lemma attach_recruit_edge i n c : nodes a' !! i = Some n → c ∈ sponsored n →
  ∃ nc, nodes a' !! c = Some nc ∧ sponsor nc = Some i.
Proof.
  intros [[-> ->]|(Hne & m & Hm & ->)]%attach_inv Hc.
  - destruct (at_edges _ _ _ _ _ _ _ _ _ Hat) as (_ & _ & _ & Hch). rewrite Hch in Hc. set_solver.
  - apply attach_sponsored_iff in Hc as [Hc|[-> ->]].
    + destruct (wf_recruit_live a Hwf i m c Hm Hc) as (nc & Hnc & Hp & Hl).
      destruct (attach_old_live c nc Hnc Hl) as [Ho _]. eauto.
    + exists new. split; [apply attach_new|]. by destruct (at_edges _ _ _ _ _ _ _ _ _ Hat) as (_ & ? & _).
Qed.

Lemma attach_depth i n q nq : nodes a' !! i = Some n → parent n = Some q → nodes a' !! q = Some nq →
  depth n = (depth nq + 1)%N ∧ (depth n ≤ u32_max)%N.
Proof.
  intros [[-> ->]|(Hne & m & Hm & ->)]%attach_inv Hq Hnq.
  - destruct (at_edges _ _ _ _ _ _ _ _ _ Hat) as (Hp & _).
    assert (q = p) as -> by congruence.
    destruct (at_parent _ _ _ _ _ _ _ _ _ Hat) as [Hp' Hl].
    destruct (attach_old_live p np Hp' Hl) as [Ho _].
    rewrite Ho in Hnq. injection Hnq as <-. simpl. apply (at_depth _ _ _ _ _ _ _ _ _ Hat).
  - simpl in Hq. destruct (wf_parent_live a Hwf i m q Hm Hq) as (nq' & Hnq' & Hin & Hl).
    destruct (attach_old_live q nq' Hnq' Hl) as [Ho _]. simplify_eq. simpl.
    by eapply (wf_depth a Hwf).
Qed.

Lemma attach_nodup i n : nodes a' !! i = Some n → NoDup (children n) ∧ NoDup (sponsored n).
Proof.
  intros [[-> ->]|(Hne & m & Hm & ->)]%attach_inv.
  - destruct (at_edges _ _ _ _ _ _ _ _ _ Hat) as (_ & _ & -> & ->). split; constructor.
  - simpl. split.
    + case_decide; [apply (at_children _ _ _ _ _ _ _ _ _ Hat) | by eapply wf_children_nodup].
    + case_decide; [|by eapply wf_sponsored_nodup].
      apply NoDup_app. split; [by eapply wf_sponsored_nodup|]. split; [|apply NoDup_singleton].
      intros c Hc ->%list_elem_of_singleton.
      destruct (wf_recruit_live a Hwf i m idx Hm Hc) as (nc & Hnc & _ & Hl).
      by apply Hl, (at_fresh _ _ _ _ _ _ _ _ _ Hat).
Qed.

Theorem wf_attach : arena_wf a'.
Proof.
  pose proof (at_root _ _ _ _ _ _ _ _ _ Hat) as Hroot.
  destruct (at_user _ _ _ _ _ _ _ _ _ Hat) as [_ Hnil].
  destruct (at_edges _ _ _ _ _ _ _ _ _ Hat) as (Hpe & Hse & Hce & Hspe).
  split.
  - apply attach_index.
  - intros i n [[-> ->]|(Hne & m & Hm & ->)]%attach_inv Hn; [done|]. simpl in *.
    destruct (wf_tomb a Hwf i m Hm Hn) as (-> & -> & -> & ->).
    destruct (at_parent _ _ _ _ _ _ _ _ _ Hat), (at_sponsor _ _ _ _ _ _ _ _ _ Hat).
    rewrite !decide_False by naive_solver. done.
  - exact attach_parent_edge.
  - exact attach_child_edge.
  - intros i n Hi. by destruct (attach_nodup i n Hi).
  - exact attach_sponsor_edge.
  - exact attach_recruit_edge.
  - intros i n Hi. by destruct (attach_nodup i n Hi).
  - intros i n [[-> ->]|(Hne & m & Hm & ->)]%attach_inv Hn Hp; [congruence|].
    exact (wf_depth_root a Hwf i m Hm Hn Hp).
  - exact attach_depth.
  - apply (at_free _ _ _ _ _ _ _ _ _ Hat).
  - intros i Hi. destruct (at_free _ _ _ _ _ _ _ _ _ Hat) as [_ Hf].
    destruct (Hf i Hi) as [Hi' Hne]. destruct (wf_free a Hwf i Hi') as (n & Hn & Hnl).
    eexists. split; [by apply attach_old|done].
  - rewrite Hroot. intros r Hr. destruct (wf_root_live a Hwf r Hr) as (n & Hn & Hl & Hs).
    destruct (attach_old_live r n Hn Hl) as [Ho _]. eexists. split_and!; [exact Ho|done..].
  - rewrite Hroot. intros i n Hr _. destruct (at_parent _ _ _ _ _ _ _ _ _ Hat) as [Hp Hl].
    by destruct Hl; eapply (wf_rootless a Hwf).
  - rewrite Hroot. intros r i n Hr [[-> ->]|(Hne & m & Hm & ->)]%attach_inv Hl Hp; [congruence|].
    exact (wf_root_unique a Hwf r i m Hr Hm Hl Hp).
  - intros i n [[-> ->]|(Hne & m & Hm & ->)]%attach_inv Hl.
    + destruct (at_sponsor _ _ _ _ _ _ _ _ _ Hat) as [Hs Hsl].
      eapply chain_step; [apply attach_new|exact Hse|].
      apply attach_chain; [by eapply (wf_chain a Hwf)|eauto].
    + apply attach_chain; [exact (wf_chain a Hwf i m Hm Hl)|eauto].
Qed.
End wf_attach.

(** ** Placing the first node *)
Section wf_place_root.
Context (a a' : Arena) (idx : NodeIndex) (new : Node).
Context (Hwf : arena_wf a) (Hroot : root a = None).
Context (Hnew : user_id new ≠ nil_uuid ∧ parent new = None ∧ sponsor new = None ∧
          children new = [] ∧ sponsored new = [] ∧ depth new = 0%N).
Context (Hnodes : ∀ j, nodes a' !! j = if decide (j = idx) then Some new else nodes a !! j).
Context (Hindex : index a' = <[user_id new := idx]> (index a)) (Hroot' : root a' = Some idx).
Context (Hfree : NoDup (free_list a') ∧ ∀ j, j ∈ free_list a' → j ∈ free_list a ∧ j ≠ idx).

(** Every other slot is a cleared tombstone. *)
Lemma place_root_inv j n : nodes a' !! j = Some n →
  (j = idx ∧ n = new) ∨
  (j ≠ idx ∧ nodes a !! j = Some n ∧ user_id n = nil_uuid ∧
  parent n = None ∧ sponsor n = None ∧ children n = [] ∧ sponsored n = []).
Proof.
  rewrite Hnodes. case_decide; [naive_solver|]. intros Hn. right.
  pose proof (wf_rootless a Hwf j n Hroot Hn). pose proof (wf_tomb a Hwf j n Hn). naive_solver.
Qed.

Lemma wf_place_root : arena_wf a'.
Proof.
  assert (Hno : ∀ u, index a !! u = None).
  { intros u. destruct (index a !! u) as [i|] eqn:E; [|done].
    apply (resolve_live a Hwf) in E as (n & Hn & Hu & Hnil).
    pose proof (wf_rootless a Hwf i n Hroot Hn). congruence. }
  assert (Hidx : nodes a' !! idx = Some new) by (rewrite Hnodes; by rewrite decide_True).
  destruct Hnew as (Hl & Hp & Hs & Hc & Hsp & Hd).
  split.
  - intros u i. rewrite Hindex. destruct (decide (u = user_id new)) as [->|Hu].
    + rewrite lookup_insert_eq. split; [intros [= <-]; eauto|].
      intros (_ & n & [[-> ->]|(_ & _ & Hn & _)]%place_root_inv & Heq); [done|congruence].
    + rewrite lookup_insert_ne, Hno by done. split; [done|].
      intros (Hnil & n & [[-> ->]|(_ & _ & Hn & _)]%place_root_inv & Heq); congruence.
  - intros i n [[-> ->]|(_ & _ & _ & ?)]%place_root_inv ?; done.
  - intros i n p [[-> ->]|(_ & _ & _ & ? & _)]%place_root_inv ?; congruence.
  - intros i n c [[-> ->]|(_ & _ & _ & _ & _ & ? & _)]%place_root_inv Hin; elem_nil.
  - intros i n [[-> ->]|(_ & _ & _ & _ & _ & -> & _)]%place_root_inv; [rewrite Hc|]; constructor.
  - intros i n p [[-> ->]|(_ & _ & _ & _ & ? & _)]%place_root_inv ?; congruence.
  - intros i n c [[-> ->]|(_ & _ & _ & _ & _ & _ & ?)]%place_root_inv Hin; elem_nil.
  - intros i n [[-> ->]|(_ & _ & _ & _ & _ & _ & ->)]%place_root_inv; [rewrite Hsp|]; constructor.
  - intros i n [[-> ->]|(_ & _ & ? & _)]%place_root_inv ? ?; done.
  - intros i n p np [[-> ->]|(_ & _ & _ & ? & _)]%place_root_inv ? ?; congruence.
  - apply Hfree.
  - intros i Hi. destruct Hfree as [_ Hf]. destruct (Hf i Hi) as [Hi' Hne].
    rewrite Hnodes, decide_False by done. by apply wf_free.
  - intros r [= <-]%(eq_trans (eq_sym Hroot')). eauto.
  - congruence.
  - intros r i n Hr [[-> ->]|(_ & _ & ? & _)]%place_root_inv ? ?; congruence.
  - intros i n [[-> ->]|(_ & _ & ? & _)]%place_root_inv ?; [by eapply chain_end|done].
Qed.
End wf_place_root.

(** ** Removing a leaf *)

Definition detach_update (idx : NodeIndex) (n0 : Node) (pc sc : list NodeIndex)
    (j : NodeIndex) (n : Node) : Node :=
  mkNode (user_id n) (parent n)
    (if decide (parent n0 = Some j) then pc else children n)
    (if decide (sponsor n = Some idx) then sponsor n0 else sponsor n)
    (if decide (sponsor n0 = Some j) then sc else sponsored n) (depth n) (enrolled_at n).

Record detach (a a' : Arena) (idx : NodeIndex) (n0 : Node) (pc sc : list NodeIndex) : Prop := {
  dt_node : nodes a !! idx = Some n0 ∧ user_id n0 ≠ nil_uuid;
  dt_leaf : children n0 = [];
  dt_recruits : sponsor n0 = None → sponsored n0 = [];
  dt_children p np : parent n0 = Some p → nodes a !! p = Some np →
    NoDup pc ∧ ∀ c, c ∈ pc ↔ c ∈ children np ∧ c ≠ idx;
  dt_sponsored s ns : sponsor n0 = Some s → nodes a !! s = Some ns →
    NoDup sc ∧ ∀ c, c ∈ sc ↔ (c ∈ sponsored ns ∧ c ≠ idx) ∨ c ∈ sponsored n0;
  dt_nodes j : nodes a' !! j =
    if decide (j = idx) then Some tombstone_node else detach_update idx n0 pc sc j <$> nodes a !! j;
  dt_index : index a' = delete (user_id n0) (index a);
  dt_root : root a' = if decide (root a = Some idx) then None else root a;
  dt_free : free_list a' = free_list a ++ [idx];
}.

Section wf_detach.
Context (a a' : Arena) (idx : NodeIndex) (n0 : Node) (pc sc : list NodeIndex).
Context (Hwf : arena_wf a) (Hdt : detach a a' idx n0 pc sc).

Lemma detach_inv j n : nodes a' !! j = Some n →
  (j = idx ∧ n = tombstone_node) ∨
  (j ≠ idx ∧ ∃ m, nodes a !! j = Some m ∧ n = detach_update idx n0 pc sc j m).
Proof.
  rewrite (dt_nodes _ _ _ _ _ _ Hdt). case_decide; [naive_solver|].
  intros (m & -> & ?)%fmap_Some. right. eauto.
Qed.

Lemma detach_old j m : nodes a !! j = Some m → j ≠ idx →
  nodes a' !! j = Some (detach_update idx n0 pc sc j m).
Proof. intros Hm Hj. rewrite (dt_nodes _ _ _ _ _ _ Hdt), decide_False, Hm; done. Qed.

(** The leaf is nobody's parent, and its sponsor is another node. *)
Lemma detach_not_parent j m : nodes a !! j = Some m → parent m ≠ Some idx.
Proof.
  intros Hm Hp. destruct (wf_parent a Hwf j m idx Hm Hp) as (np & Hnp & Hin).
  destruct (dt_node _ _ _ _ _ _ Hdt). simplify_eq. rewrite (dt_leaf _ _ _ _ _ _ Hdt) in Hin. set_solver.
Qed.

Lemma detach_sponsor_ne s : sponsor n0 = Some s → s ≠ idx.
Proof.
  intros Hs ->. destruct (dt_node _ _ _ _ _ _ Hdt) as [Hn Hl].
  eapply (chain_acyclic a idx); [by eapply wf_chain|]. by eapply sponsored_direct.
Qed.

Lemma detach_children_iff j m c : nodes a !! j = Some m →
  c ∈ children (detach_update idx n0 pc sc j m) ↔ c ∈ children m ∧ c ≠ idx.
Proof.
  intros Hm. simpl. destruct (dt_node _ _ _ _ _ _ Hdt) as [Hn Hl]. case_decide as Hp.
  - by apply (proj2 (dt_children _ _ _ _ _ _ Hdt j m Hp Hm)).
  - split; [|by intros []]. intros Hc. split; [done|]. intros ->.
    destruct (wf_children a Hwf j m idx Hm Hc) as (nc & Hnc & Hpc). congruence.
Qed.

Lemma detach_sponsored_iff j m c : nodes a !! j = Some m →
  c ∈ sponsored (detach_update idx n0 pc sc j m) ↔
  (c ∈ sponsored m ∧ c ≠ idx) ∨ (sponsor n0 = Some j ∧ c ∈ sponsored n0).
Proof.
  intros Hm. simpl. destruct (dt_node _ _ _ _ _ _ Hdt) as [Hn Hl]. case_decide as Hp.
  - rewrite (proj2 (dt_sponsored _ _ _ _ _ _ Hdt j m Hp Hm)). naive_solver.
  - split; [|naive_solver]. intros Hc. left. split; [done|]. intros ->.
    destruct (wf_sponsored a Hwf j m idx Hm Hc) as (nc & Hnc & Hpc). congruence.
Qed.

(** The node's own sponsor is [idx] exactly for its recruits. *)
Lemma detach_recruit_iff j m : nodes a !! j = Some m →
  sponsor m = Some idx ↔ j ∈ sponsored n0.
Proof.
  intros Hm. destruct (dt_node _ _ _ _ _ _ Hdt) as [Hn Hl]. split.
  - intros Hs. destruct (wf_sponsor a Hwf j m idx Hm Hs) as (ns & Hns & Hin). congruence.
  - intros Hin. destruct (wf_sponsored a Hwf idx n0 j Hn Hin) as (nr & Hnr & Hs). congruence.
Qed.

Lemma detach_old_live j m : nodes a !! j = Some m → j ≠ idx → user_id m ≠ nil_uuid →
  nodes a' !! j = Some (detach_update idx n0 pc sc j m) ∧
  user_id (detach_update idx n0 pc sc j m) ≠ nil_uuid.
Proof. intros. split; [by apply detach_old|done]. Qed.

Lemma detach_parent_edge i n q : nodes a' !! i = Some n → parent n = Some q →
  ∃ nq, nodes a' !! q = Some nq ∧ i ∈ children nq.
Proof.
  intros [[-> ->]|(Hne & m & Hm & ->)]%detach_inv Hq; [done|]. simpl in Hq.
  destruct (wf_parent a Hwf i m q Hm Hq) as (nq & Hnq & Hin).
  assert (q ≠ idx) by (intros ->; exact (detach_not_parent i m Hm Hq)).
  eexists. split; [by apply detach_old|]. by apply detach_children_iff.
Qed.

Lemma detach_child_edge i n c : nodes a' !! i = Some n → c ∈ children n →
  ∃ nc, nodes a' !! c = Some nc ∧ parent nc = Some i.
Proof.
  intros [[-> ->]|(Hne & m & Hm & ->)]%detach_inv Hc; [by apply elem_of_nil in Hc|].
  apply detach_children_iff in Hc as [Hc Hci]; [|done].
  destruct (wf_children a Hwf i m c Hm Hc) as (nc & Hnc & Hp).
  eexists. split; [by apply detach_old|done].
Qed.

Lemma detach_sponsor_edge i n q : nodes a' !! i = Some n → sponsor n = Some q →
  ∃ nq, nodes a' !! q = Some nq ∧ i ∈ sponsored nq.
Proof.
  destruct (dt_node _ _ _ _ _ _ Hdt) as [Hn Hl].
  intros [[-> ->]|(Hne & m & Hm & ->)]%detach_inv Hq; [done|]. simpl in Hq.
  case_decide as Hrec.
  - apply (detach_recruit_iff i m Hm) in Hrec.
    destruct (wf_sponsor a Hwf idx n0 q Hn Hq) as (nq & Hnq & _).
    eexists. split; [exact (detach_old q nq Hnq (detach_sponsor_ne q Hq))|].
    apply detach_sponsored_iff; auto.
  - destruct (wf_sponsor a Hwf i m q Hm Hq) as (nq & Hnq & Hin).
    assert (q ≠ idx) by congruence.
    eexists. split; [by apply detach_old|]. apply detach_sponsored_iff; auto.
Qed.

Lemma detach_recruit_edge i n c : nodes a' !! i = Some n → c ∈ sponsored n →
  ∃ nc, nodes a' !! c = Some nc ∧ sponsor nc = Some i.
Proof.
  destruct (dt_node _ _ _ _ _ _ Hdt) as [Hn Hl].
  intros [[-> ->]|(Hne & m & Hm & ->)]%detach_inv Hc; [by apply elem_of_nil in Hc|].
  apply detach_sponsored_iff in Hc as [[Hc Hci]|[Hs Hc]]; [| |done].
  - destruct (wf_sponsored a Hwf i m c Hm Hc) as (nc & Hnc & Hp).
    eexists. split; [by apply detach_old|]. simpl. rewrite decide_False by congruence. done.
  - destruct (wf_sponsored a Hwf idx n0 c Hn Hc) as (nc & Hnc & Hp).
    assert (c ≠ idx).
    { intros ->. assert (nc = n0) as -> by congruence. exact (detach_sponsor_ne idx Hp eq_refl). }
    eexists. split; [by apply detach_old|]. simpl. by rewrite decide_True.
Qed.

Lemma detach_nodup i n : nodes a' !! i = Some n → NoDup (children n) ∧ NoDup (sponsored n).
Proof.
  intros [[-> ->]|(Hne & m & Hm & ->)]%detach_inv; [split; constructor|]. simpl. split.
  - case_decide; [by apply (dt_children _ _ _ _ _ _ Hdt i m) | by eapply wf_children_nodup].
  - case_decide; [by apply (dt_sponsored _ _ _ _ _ _ Hdt i m) | by eapply wf_sponsored_nodup].
Qed.

(** A chain that ended still ends: it skips the removed node. *)
Lemma detach_chain j : chain_ends a j →
  (j ≠ idx → chain_ends a' j) ∧
  (j = idx → ∀ s, sponsor n0 = Some s → chain_ends a' s).
Proof.
  destruct (dt_node _ _ _ _ _ _ Hdt) as [Hn Hl].
  induction 1 as [i n Hi Hs|i n k Hi Hs Hk [IH1 IH2]].
  - split; [|intros ->; congruence]. intros Hne.
    eapply chain_end; [by apply detach_old|]. simpl. rewrite decide_False by congruence. done.
  - split.
    + intros Hne. destruct (decide (k = idx)) as [->|Hki].
      * destruct (sponsor n0) as [s|] eqn:Hs0.
        -- eapply chain_step; [by apply detach_old| |by apply IH2].
          simpl. by rewrite decide_True.
        -- eapply chain_end; [by apply detach_old|]. simpl. by rewrite decide_True.
      * eapply chain_step; [by apply detach_old| |by apply IH1].
        simpl. by rewrite decide_False by congruence.
    + intros -> s Hs'. assert (k = s) as -> by congruence. apply IH1.
      exact (detach_sponsor_ne s Hs').
Qed.

Lemma detach_index u i : index a' !! u = Some i ↔
  u ≠ nil_uuid ∧ ∃ n, nodes a' !! i = Some n ∧ user_id n = u.
Proof.
  destruct (dt_node _ _ _ _ _ _ Hdt) as [Hn Hl].
  rewrite (dt_index _ _ _ _ _ _ Hdt), lookup_delete_Some, (wf_index a Hwf). split.
  - intros (Hu & Hnil & n & Hi & <-). split; [done|].
    eexists. split; [apply detach_old; [done|congruence]|done].
  - intros (Hnil & n & [[-> ->]|(Hne & m & Hm & ->)]%detach_inv & <-); [done|]. simpl in *.
    split; [|eauto]. intros Heq.
    assert (index a !! user_id m = Some idx) by (rewrite <- Heq; by apply live_indexed).
    assert (index a !! user_id m = Some i) by (by apply live_indexed). congruence.
Qed.

(** Removing the root leaves nothing behind. *)
Lemma detach_last i m : root a = Some idx → nodes a !! i = Some m → user_id m ≠ nil_uuid → i = idx.
Proof.
  intros Hr Hm Hlm. destruct (dt_node _ _ _ _ _ _ Hdt) as [Hn Hl].
  destruct (root_child a Hwf idx n0 i m Hr Hn Hm Hlm); [done|].
  by rewrite (dt_leaf _ _ _ _ _ _ Hdt) in *.
Qed.

Lemma detach_root r : root a' = Some r → root a = Some r ∧ r ≠ idx.
Proof. rewrite (dt_root _ _ _ _ _ _ Hdt). case_decide; naive_solver. Qed.

Theorem wf_detach : arena_wf a'.
Proof.
  destruct (dt_node _ _ _ _ _ _ Hdt) as [Hn Hl]. split.
  - exact detach_index.
  - intros i n [[-> ->]|(Hne & m & Hm & ->)]%detach_inv Hnl; [done|]. simpl in *.
    destruct (wf_tomb a Hwf i m Hm Hnl) as (-> & Hs & Hc & Hsp).
    rewrite !decide_False; [done| | |].
    + intros Hs0. destruct (wf_sponsor_live a Hwf idx n0 i Hn Hs0) as (? & ? & ? & ?). congruence.
    + intros Hp0. destruct (wf_parent_live a Hwf idx n0 i Hn Hp0) as (? & ? & ? & ?). congruence.
    + congruence.
  - exact detach_parent_edge.
  - exact detach_child_edge.
  - intros i n Hi. by destruct (detach_nodup i n Hi).
  - exact detach_sponsor_edge.
  - exact detach_recruit_edge.
  - intros i n Hi. by destruct (detach_nodup i n Hi).
  - intros i n [[-> ->]|(Hne & m & Hm & ->)]%detach_inv Hnl Hp; [done|].
    exact (wf_depth_root a Hwf i m Hm Hnl Hp).
  - intros i n q nq [[-> ->]|(Hne & m & Hm & ->)]%detach_inv Hq Hnq; [done|]. simpl in Hq.
    apply detach_inv in Hnq as [[-> ->]|(_ & mq & Hmq & ->)]; [by destruct (detach_not_parent i m Hm Hq)|].
    exact (wf_depth a Hwf i m q mq Hm Hq Hmq).
  - rewrite (dt_free _ _ _ _ _ _ Hdt). apply NoDup_app. split_and!.
    + apply (wf_free_nodup a Hwf).
    + intros j Hj ->%list_elem_of_singleton. destruct (wf_free a Hwf idx Hj) as (m & ? & ?). congruence.
    + apply NoDup_singleton.
  - intros i. rewrite (dt_free _ _ _ _ _ _ Hdt), elem_of_app, list_elem_of_singleton.
    rewrite (dt_nodes _ _ _ _ _ _ Hdt). case_decide; [by eauto|]. intros [Hi|]; [|done].
    destruct (wf_free a Hwf i Hi) as (m & -> & ?). eexists. split; [done|done].
  - intros r [Hr Hne]%detach_root. destruct (wf_root_live a Hwf r Hr) as (m & Hm & Hlm & Hs).
    eexists. split; [by apply detach_old|]. simpl. rewrite decide_False by congruence. done.
  - rewrite (dt_root _ _ _ _ _ _ Hdt). intros i n Hr [[-> ->]|(Hne & m & Hm & ->)]%detach_inv; [done|].
    simpl. case_decide as Hroot; [|exact (wf_rootless a Hwf i m Hr Hm)].
    destruct (decide (user_id m = nil_uuid)) as [|Hlm]; [done|]. by destruct Hne; eapply detach_last.
  - intros r i n [Hr _]%detach_root [[-> ->]|(Hne & m & Hm & ->)]%detach_inv Hlm Hp; [done|].
    exact (wf_root_unique a Hwf r i m Hr Hm Hlm Hp).
  - intros i n [[-> ->]|(Hne & m & Hm & ->)]%detach_inv Hlm; [done|].
    apply detach_chain; [|done]. exact (wf_chain a Hwf i m Hm Hlm).
Qed.
End wf_detach.
