(* ===== verification/ArenaOps.v ===== *)
(** * What the arena's mutators do on a well-formed arena

    [alloc_slot] always finds a slot no live node holds; [attach_intro] and
    [detach_intro] show that the writes the tree types make around it add up to
    the [attach] and [detach] changes of ArenaWf.v; [reparent_one] gives the
    effect and the report of moving one node's recruits to its sponsor. *)

From stdpp Require Import base numbers list gmap strings.
From Stdlib Require Import ZArith Lia.
From S2P Require Import Prelude TreeTypes Arena ArenaWf.

(** Case analysis on decided equalities and memberships of short lists. *)
Ltac elem_cases :=
  repeat case_decide; rewrite ?elem_of_cons, ?list_elem_of_singleton, ?elem_of_nil in *;
  subst; try done; try naive_solver.

(** ** Slots *)

Lemma slot_ok {E} a i n : nodes a !! i = Some n → @slot E a i = Ok n.
Proof. intros H. unfold slot. by rewrite H. Qed.

Lemma node_ok {E} a i n : nodes a !! i = Some n → user_id n ≠ nil_uuid → @node E a i = Ok n.
Proof.
  intros H Hl%live_node_spec. unfold node. rewrite (slot_ok a i n H). simpl. by rewrite Hl.
Qed.

Lemma node_mut_ok {E} a i f n : nodes a !! i = Some n → user_id n ≠ nil_uuid →
  @node_mut E a i f = Ok (with_nodes (alter f i) a).
Proof.
  intros H Hl%live_node_spec. unfold node_mut. rewrite (slot_ok a i n H). simpl. by rewrite Hl.
Qed.

Lemma lookup_alter_nodes (f : Node → Node) i j (l : list Node) :
  alter f i l !! j = if decide (j = i) then f <$> l !! j else l !! j.
Proof.
  case_decide; subst; [apply list_lookup_alter_eq | by apply list_lookup_alter_ne].
Qed.

Lemma resolve_ok a u i : index a !! u = Some i → resolve a u = Ok i.
Proof. intros H. unfold resolve. by rewrite H. Qed.

(** ** Allocation *)

Record allocated (a a' : Arena) (idx : NodeIndex) (n : Node) : Prop := {
  al_fresh m : nodes a !! idx = Some m → user_id m = nil_uuid;
  al_nodes j : nodes a' !! j = if decide (j = idx) then Some n else nodes a !! j;
  al_index : index a' = index a;
  al_root : root a' = root a;
  al_free : NoDup (free_list a') ∧ ∀ j, j ∈ free_list a' → j ∈ free_list a ∧ j ≠ idx;
}.

Lemma alloc_slot_spec {E} a n : arena_wf a →
  ∃ a' idx, @alloc_slot E a n = Ok (a', idx) ∧ allocated a a' idx n.
Proof.
  intros Hwf. unfold alloc_slot. pose proof (wf_free_nodup a Hwf) as Hnd.
  destruct (last (free_list a)) as [x|] eqn:Hlast.
  - apply last_Some in Hlast as [l Hl].
    destruct (wf_free a Hwf x) as (m & Hm & Hnil); [rewrite Hl; set_solver|].
    rewrite (slot_ok a x m Hm). simpl. do 2 eexists. split; [done|].
    rewrite Hl in Hnd. apply NoDup_app in Hnd as (Hndl & Hdis & _).
    assert (Htake : take (pred (length (free_list a))) (free_list a) = l).
    { rewrite Hl, length_app. simpl. rewrite Nat.add_1_r. simpl. by rewrite take_app_length. }
    split; simpl; [congruence| |done|done|].
    + intros j. case_decide; subst; [apply list_lookup_insert_eq; by eapply lookup_lt_Some
        | by apply list_lookup_insert_ne].
    + rewrite Htake, Hl. split; [done|]. intros j Hj. split; [set_solver|]. intros ->.
      apply (Hdis x Hj). set_solver.
  - apply last_None in Hlast. do 2 eexists. split; [done|]. split; simpl; [|..|done|done|].
    + intros m Hm. apply lookup_lt_Some in Hm. lia.
    + intros j. case_decide as Hj; subst; [by apply list_lookup_middle|].
      destruct (decide (j < length (nodes a))%nat); [by apply lookup_app_l|].
      rewrite !lookup_ge_None_2; [done| |rewrite length_app; simpl]; lia.
    + rewrite Hlast. split; [constructor|set_solver].
Qed.

(** The writes of a placement, in sequence. *)
Lemma attach_intro a a1 idx new p s np ns (g : list NodeIndex → list NodeIndex) :
  allocated a a1 idx new →
  nodes a !! p = Some np → user_id np ≠ nil_uuid →
  nodes a !! s = Some ns → user_id ns ≠ nil_uuid →
  index a !! user_id new = None → user_id new ≠ nil_uuid →
  parent new = Some p → sponsor new = Some s → children new = [] → sponsored new = [] →
  depth new = (depth np + 1)%N → (depth new ≤ u32_max)%N →
  NoDup (g (children np)) → (∀ c, c ∈ g (children np) ↔ c ∈ children np ∨ c = idx) →
  attach a
    (with_nodes (alter (with_sponsored (λ l, l ++ [idx])) s)
       (with_nodes (alter (with_children g) p)
          (with_index (λ m, <[user_id new := idx]> m) a1)))
    idx new p s np ns (g (children np)).
Proof.
  intros [Hf Hn Hi Hr Hfl] Hp Hpl Hs Hsl Hu Hun. intros.
  assert (p ≠ idx) by naive_solver. assert (s ≠ idx) by naive_solver.
  split; simpl; try done; [| by rewrite Hi].
  intros j. rewrite !lookup_alter_nodes, Hn. destruct (decide (j = idx)) as [->|Hj].
  - rewrite !decide_False by done. done.
  - unfold attach_update. destruct (decide (j = s)), (decide (j = p)); subst; simplify_eq/=;
      try (rewrite Hs || rewrite Hp || idtac); try done.
    all: try (destruct (nodes a !! j) as [[]|]; done).
    all: simplify_eq/=; done.
Qed.

(** The writes succeed and keep the invariant. *)
Section place_writes.
Context (a a1 : Arena) (idx : NodeIndex) (u : Uuid) (ip isp : NodeIndex) (np ns : Node) (at_ : Z).
Context (g : list NodeIndex → list NodeIndex).
Let new := mkNode u (Some ip) [] (Some isp) [] (depth np + 1) at_.
Let a2 := with_index (λ m, <[u := idx]> m) a1.
Let a3 := with_nodes (alter (with_children g) ip) a2.
Let a4 := with_nodes (alter (with_sponsored (λ l, l ++ [idx])) isp) a3.
Context (Hwf : arena_wf a) (Hal : allocated a a1 idx new).
Context (Hp : nodes a !! ip = Some np) (Hpl : user_id np ≠ nil_uuid).
Context (Hs : nodes a !! isp = Some ns) (Hsl : user_id ns ≠ nil_uuid).
Context (Hu : u ≠ nil_uuid) (Hnone : index a !! u = None) (Hd : (depth np + 1 ≤ u32_max)%N).
(** [g] inserts the new slot among the children. *)
Context (Hg : ∃ l1 l2, children np = l1 ++ l2 ∧ g (children np) = l1 ++ idx :: l2).

Lemma place_ne j n : nodes a !! j = Some n → user_id n ≠ nil_uuid → j ≠ idx.
Proof. intros Hj Hl ->. by apply Hl, (al_fresh _ _ _ _ Hal). Qed.

Lemma place_parent_slot : nodes a2 !! ip = Some np.
Proof. simpl. rewrite (al_nodes _ _ _ _ Hal), decide_False; [done|by eapply place_ne]. Qed.

Lemma place_sponsor_write {E} :
  @node_mut E a3 isp (with_sponsored (λ l, l ++ [idx])) = Ok a4.
Proof.
  apply (node_mut_ok a3 isp _ (if decide (isp = ip) then with_children g ns else ns)); [|by case_decide].
  simpl. rewrite lookup_alter_nodes, (al_nodes _ _ _ _ Hal), (decide_False (P := isp = idx)), Hs
  by (by eapply place_ne). by case_decide.
Qed.

Lemma place_attach : attach a a4 idx new ip isp np ns (g (children np)).
Proof.
  apply (attach_intro a a1 idx new ip isp np ns g); try done.
  - destruct Hg as (l1 & l2 & Hold & ->). rewrite <- Permutation_middle, <- Hold. apply NoDup_cons.
    split; [|by eapply wf_children_nodup]. intros Hin.
    destruct (wf_child_live a Hwf ip np idx Hp Hin) as (nc & Hnc & _ & Hl).
    by apply Hl, (al_fresh _ _ _ _ Hal).
  - intros c. destruct Hg as (l1 & l2 & -> & ->). rewrite !elem_of_app, elem_of_cons. naive_solver.
Qed.
End place_writes.

(** ** Moving the recruits of one removed node *)

(** [l] moved onto [t]. *)
Definition moved_update (t : NodeIndex) (l : list NodeIndex) (j : NodeIndex) (n : Node) : Node :=
  mkNode (user_id n) (parent n) (children n)
    (if decide (j ∈ l) then Some t else sponsor n)
    (if decide (j = t) then sponsored n ++ l else sponsored n) (depth n) (enrolled_at n).

Lemma with_nodes_fields f a :
  nodes (with_nodes f a) = f (nodes a) ∧ index (with_nodes f a) = index a ∧
  free_list (with_nodes f a) = free_list a ∧ root (with_nodes f a) = root a.
Proof. done. Qed.

(** The same index, free list and root. *)
Definition same_frame (a a' : Arena) : Prop :=
  index a' = index a ∧ free_list a' = free_list a ∧ root a' = root a.

Lemma move_recruits {E} t nt l a mv :
  NoDup l → t ∉ l → nodes a !! t = Some nt → (∀ s, s ∈ l → is_Some (nodes a !! s)) →
  ∃ a', fold_outcome (@move_recruit E (Some t)) (a, mv) l =
      Ok (a', mv ++ ((λ s, mkResponsored (from_option user_id nil_uuid (nodes a !! s)) (user_id nt)) <$> l)) ∧
    same_frame a a' ∧ ∀ j, nodes a' !! j = moved_update t l j <$> nodes a !! j.
Proof.
  revert a mv nt. induction l as [|s l IH]; intros a mv nt Hnd Ht Hnt Hl.
  { exists a. simpl. rewrite app_nil_r. split; [done|]. split; [done|]. intros j.
    destruct (nodes a !! j) as [[]|]; [|done]. unfold moved_update; simpl.
    elem_cases; by rewrite app_nil_r. }
  apply NoDup_cons in Hnd as [Hs Hnd].
  apply not_elem_of_cons in Ht as [Hts Ht]. destruct (Hl s) as [ns Hns]; [left|]. simpl.
  rewrite (slot_ok a s ns Hns). simpl.
  set (a1 := with_nodes (alter (with_sponsor (Some t)) s) a).
  assert (Hnt1 : nodes a1 !! t = Some nt).
  { unfold a1; simpl. rewrite lookup_alter_nodes, decide_False by done. done. }
  rewrite (slot_ok a1 t nt Hnt1). simpl.
  set (a2 := with_nodes (alter (with_sponsored (λ l, l ++ [s])) t) a1).
  assert (Ha2 : ∀ j, nodes a2 !! j = moved_update t [s] j <$> nodes a !! j).
  { intros j. unfold a2, a1; simpl. rewrite !lookup_alter_nodes. unfold moved_update.
    destruct (nodes a !! j) as [[]|] eqn:Hj; elem_cases. }
  destruct (IH a2 (mv ++ [mkResponsored (user_id ns) (user_id nt)])
    (moved_update t [s] t nt)) as (a' & -> & [Hf1 Hf2] & Ha').
  - done.
  - done.
  - by rewrite Ha2, Hnt.
  - intros r Hr. rewrite Ha2. apply fmap_is_Some, Hl. by right.
  - exists a'. split; [|split; [by split|]].
    + do 2 f_equal. rewrite <- app_assoc. f_equal. simpl. rewrite Hns. simpl. f_equal.
      apply list_fmap_ext. intros i r Hr. f_equal. rewrite Ha2.
      by destruct (nodes a !! r).
    + intros j. rewrite Ha', Ha2. destruct (nodes a !! j) as [n|]; [|done]. simpl.
      unfold moved_update; simpl. f_equal. f_equal.
      * elem_cases.
      * case_decide; [|done]. by rewrite <- app_assoc.
Qed.

Lemma dedup_singleton i : dedup_from ∅ [i] = [i].
Proof. unfold dedup_from. by rewrite bool_decide_eq_false_2 by apply not_elem_of_empty. Qed.

(** What [reparent_sponsored] does to a single removed node [idx] whose recruits
    and sponsor are other nodes: the recruits move to the sponsor, in order, and
    are reported; with no recruits nothing changes. *)
Definition reparented (idx : NodeIndex) (n0 : Node) (j : NodeIndex) (n : Node) : Node :=
  mkNode (user_id n) (parent n) (children n)
    (if decide (j ∈ sponsored n0) then sponsor n0 else sponsor n)
    (if decide (j = idx) then [] else
     if decide (sponsor n0 = Some j) then sponsored n ++ sponsored n0 else sponsored n)
    (depth n) (enrolled_at n).

Definition moves (a : Arena) (n0 : Node) : list Responsored :=
  match sponsor n0 with
  | None => []
  | Some t =>
      (λ s, mkResponsored (from_option user_id nil_uuid (nodes a !! s))
              (from_option user_id nil_uuid (nodes a !! t))) <$> sponsored n0
  end.

Lemma survivors_all (idx : NodeIndex) (l : list NodeIndex) : idx ∉ l →
  filter (λ s, s ∉ (list_to_set [idx] : gset NodeIndex)) l = l.
Proof.
  intros H. induction l as [|x l IH]; [done|]. apply not_elem_of_cons in H as [H1 H2].
  rewrite filter_cons_True by set_solver. by rewrite IH.
Qed.

Lemma surviving_one a idx n0 : nodes a !! idx = Some n0 →
  (∀ s, sponsor n0 = Some s → s ≠ idx) →
  surviving_sponsor a idx (list_to_set [idx]) = Ok (sponsor n0).
Proof.
  intros Hn Hs. unfold surviving_sponsor. rewrite (slot_ok a idx n0 Hn). simpl.
  pose proof (lookup_lt_Some _ _ _ Hn). destruct (length (nodes a)); [lia|]. simpl.
  destruct (sponsor n0) as [s|]; [|done].
  rewrite bool_decide_eq_true_2; [done|]. specialize (Hs s eq_refl). set_solver.
Qed.

Lemma reparented_none idx n0 j n : sponsored n0 = [] →
  reparented idx n0 j n = if decide (j = idx) then with_sponsored (λ _, []) n else n.
Proof.
  intros He. unfold reparented. rewrite He.
  rewrite (decide_False (P := j ∈ [])) by apply not_elem_of_nil.
  destruct n. repeat case_decide; rewrite ?app_nil_r; done.
Qed.

Lemma reparent_one a idx n0 :
  nodes a !! idx = Some n0 → NoDup (sponsored n0) → idx ∉ sponsored n0 →
  (∀ s, sponsor n0 = Some s → s ≠ idx ∧ (s ∉ sponsored n0) ∧ is_Some (nodes a !! s)) →
  (sponsor n0 = None → sponsored n0 = []) →
  (∀ s, s ∈ sponsored n0 → is_Some (nodes a !! s)) →
  ∃ a', reparent_sponsored a [idx] = Ok (a', moves a n0) ∧ same_frame a a' ∧
    ∀ j, nodes a' !! j = reparented idx n0 j <$> nodes a !! j.
Proof.
  intros Hn Hnd Hidx Hs Hnone Hin. unfold reparent_sponsored. rewrite dedup_singleton.
  cbn [map_outcome]. unfold plan_removal at 1, surviving_recruits. rewrite (slot_ok a idx n0 Hn).
  cbn [mbind outcome_bind]. rewrite survivors_all by done.
  destruct (sponsored n0) as [|r l] eqn:Hrec.
  - simpl. rewrite (slot_ok a idx n0 Hn). simpl. eexists. split.
    { do 2 f_equal. unfold moves. rewrite Hrec. by destruct (sponsor n0). }
    split; [done|]. intros j. simpl. rewrite lookup_alter_nodes.
    destruct (nodes a !! j); simpl; [rewrite reparented_none by done|]; by case_decide.
  - rewrite (surviving_one a idx n0 Hn) by naive_solver. cbn [mbind outcome_bind].
    destruct (sponsor n0) as [t|] eqn:Hsp; [|naive_solver].
    destruct (Hs t eq_refl) as (Htne & Htl & [nt Hnt]).
    cbn [fold_outcome]. unfold apply_removal at 1.
    destruct (move_recruits (E := TreeError) t nt (r :: l) a [] Hnd Htl Hnt Hin)
      as (a1 & -> & Hfr & Ha1). cbn [mbind outcome_bind].
    rewrite (slot_ok a1 idx (moved_update t (r :: l) idx n0)) by (by rewrite Ha1, Hn).
    cbn [mbind outcome_bind]. eexists. split.
    { do 2 f_equal. unfold moves. rewrite Hsp, Hrec, Hnt. done. }
    split; [done|]. intros j. simpl. rewrite lookup_alter_nodes, Ha1.
    unfold moved_update, reparented. rewrite Hrec, Hsp.
    destruct (nodes a !! j) as [[]|]; simpl; [|by case_decide].
    destruct (decide (j = idx)) as [->|Hj]; simpl.
    + do 2 f_equal.
    + do 2 f_equal. destruct (decide (j = t)), (decide (Some t = Some j)); congruence.
Qed.

(** ** The writes of a removal, in sequence *)

(** The parent's children rewritten by [g], the sponsor's list without the
    removed slot, the root cleared when it was the root. *)
Definition unparented (a : Arena) (n0 : Node) (g : list NodeIndex → list NodeIndex) : Arena :=
  match parent n0 with
  | Some p => with_nodes (alter (with_children g) p) a
  | None => a
  end.

Definition unsponsored (a : Arena) (idx : NodeIndex) (n0 : Node) : Arena :=
  match sponsor n0 with
  | Some s => with_nodes (alter (with_sponsored (filter (λ r, r ≠ idx))) s) a
  | None => a
  end.

Definition unlinked (a : Arena) (idx : NodeIndex) (n0 : Node)
    (g : list NodeIndex → list NodeIndex) : Arena :=
  let a2 := unsponsored (unparented a n0 g) idx n0 in
  if bool_decide (root a2 = Some idx) then with_root None a2 else a2.

Definition unlink_update (idx : NodeIndex) (n0 : Node) (g : list NodeIndex → list NodeIndex)
    (j : NodeIndex) (n : Node) : Node :=
  mkNode (user_id n) (parent n)
    (if decide (parent n0 = Some j) then g (children n) else children n) (sponsor n)
    (if decide (sponsor n0 = Some j) then filter (λ r, r ≠ idx) (sponsored n) else sponsored n)
    (depth n) (enrolled_at n).

Lemma unlinked_nodes a idx n0 g j :
  nodes (unlinked a idx n0 g) !! j = unlink_update idx n0 g j <$> nodes a !! j.
Proof.
  unfold unlinked, unsponsored, unparented, unlink_update.
  destruct (parent n0) as [p|], (sponsor n0) as [s|]; simpl; case_bool_decide; simpl;
    rewrite ?lookup_alter_nodes; destruct (nodes a !! j) as [[]|]; simpl;
    repeat case_decide; simplify_eq; done.
Qed.

Lemma unlinked_frame a idx n0 g :
  index (unlinked a idx n0 g) = index a ∧ free_list (unlinked a idx n0 g) = free_list a ∧
  root (unlinked a idx n0 g) = (if decide (root a = Some idx) then None else root a).
Proof.
  unfold unlinked, unsponsored, unparented.
  destruct (parent n0), (sponsor n0); simpl; case_bool_decide; split_and!; try done;
    by case_decide.
Qed.

Section remove_leaf.
Context (a : Arena) (idx : NodeIndex) (n0 : Node) (g : list NodeIndex → list NodeIndex).
Context (Hwf : arena_wf a) (Hn : nodes a !! idx = Some n0) (Hl : user_id n0 ≠ nil_uuid).
Context (Hleaf : children n0 = []) (Hrec : sponsor n0 = None → sponsored n0 = []).
Context (Hg : ∀ p np, parent n0 = Some p → nodes a !! p = Some np →
  NoDup (g (children np)) ∧ ∀ c, c ∈ g (children np) ↔ c ∈ children np ∧ c ≠ idx).

Lemma leaf_sponsor_ne s : sponsor n0 = Some s → s ≠ idx.
Proof.
  intros Hs ->. eapply (chain_acyclic a idx); [by eapply wf_chain|]. by eapply sponsored_direct.
Qed.

Lemma leaf_parent_ne p : parent n0 = Some p → p ≠ idx.
Proof.
  intros Hp ->. destruct (wf_parent a Hwf idx n0 idx Hn Hp) as (np & Hnp & Hin).
  assert (np = n0) as -> by congruence. elem_nil.
Qed.

Lemma leaf_not_own_recruit : idx ∉ sponsored n0.
Proof.
  intros Hin. destruct (wf_sponsored a Hwf idx n0 idx Hn Hin) as (nr & Hnr & Hs).
  assert (nr = n0) as -> by congruence. by apply (leaf_sponsor_ne idx).
Qed.

(** The removed node's sponsor is not one of its recruits. *)
Lemma leaf_sponsor_not_recruit s : sponsor n0 = Some s → s ∉ sponsored n0.
Proof.
  intros Hs Hin. destruct (wf_sponsored a Hwf idx n0 s Hn Hin) as (nr & Hnr & Hsr).
  eapply (chain_acyclic a idx); [by eapply wf_chain|].
  eapply sponsored_up; [exact Hn|exact Hs|]. by eapply sponsored_direct.
Qed.

Lemma unlinked_self : nodes (unlinked a idx n0 g) !! idx = Some n0.
Proof.
  rewrite unlinked_nodes, Hn. simpl. unfold unlink_update.
  rewrite (decide_False (P := parent n0 = Some idx)) by (intros H; by apply (leaf_parent_ne idx)).
  rewrite (decide_False (P := sponsor n0 = Some idx)) by (intros H; by apply (leaf_sponsor_ne idx)).
  clear. by destruct n0.
Qed.

(** The two writes find live slots. *)
Lemma unparent_ok {E} :
  match parent n0 with
  | Some p => @node_mut E a p (with_children g)
  | None => Ok a
  end = Ok (unparented a n0 g).
Proof.
  clear Hg Hrec. unfold unparented. destruct (parent n0) as [p|] eqn:Hp; [|done].
  destruct (wf_parent_live a Hwf idx n0 p Hn Hp) as (np & Hnp & _ & Hpl).
  by rewrite (node_mut_ok a p _ np Hnp Hpl).
Qed.

Lemma unparented_self : nodes (unparented a n0 g) !! idx = Some n0.
Proof.
  clear Hg Hrec. unfold unparented. destruct (parent n0) as [p|] eqn:Hp; [|done]. simpl.
  rewrite lookup_alter_nodes, decide_False; [done|]. pose proof (leaf_parent_ne p Hp). congruence.
Qed.

Lemma unsponsor_ok {E} :
  match sponsor n0 with
  | Some s => @node_mut E (unparented a n0 g) s (with_sponsored (filter (λ r, r ≠ idx)))
  | None => Ok (unparented a n0 g)
  end = Ok (unsponsored (unparented a n0 g) idx n0).
Proof.
  clear Hg Hrec. unfold unsponsored. destruct (sponsor n0) as [s|] eqn:Hs; [|done].
  destruct (wf_sponsor_live a Hwf idx n0 s Hn Hs) as (ns & Hns & _ & Hsl).
  unfold unparented. destruct (parent n0) as [p|]; [|by rewrite (node_mut_ok a s _ ns Hns Hsl)].
  apply (node_mut_ok _ s _ (if decide (s = p) then with_children g ns else ns)); [|by case_decide].
  simpl. rewrite lookup_alter_nodes, Hns. by case_decide.
Qed.

Lemma moves_unlinked : moves (unlinked a idx n0 g) n0 = moves a n0.
Proof.
  unfold moves. destruct (sponsor n0) as [t|]; [|done]. apply list_fmap_ext.
  intros i s _. rewrite !unlinked_nodes. by destruct (nodes a !! s), (nodes a !! t).
Qed.

Lemma unlinked_is_some j : is_Some (nodes a !! j) → is_Some (nodes (unlinked a idx n0 g) !! j).
Proof. rewrite unlinked_nodes. apply fmap_is_Some. Qed.

Definition new_children : list NodeIndex :=
  match parent n0 with
  | Some p => from_option (λ np, g (children np)) [] (nodes a !! p)
  | None => []
  end.
Definition new_sponsored : list NodeIndex :=
  match sponsor n0 with
  | Some s => from_option (λ ns, filter (λ r, r ≠ idx) (sponsored ns) ++ sponsored n0) [] (nodes a !! s)
  | None => []
  end.

Lemma new_sponsored_spec s ns : sponsor n0 = Some s → nodes a !! s = Some ns →
  NoDup new_sponsored ∧
  ∀ c, c ∈ new_sponsored ↔ (c ∈ sponsored ns ∧ c ≠ idx) ∨ c ∈ sponsored n0.
Proof.
  intros Hs Hns. unfold new_sponsored. rewrite Hs, Hns. simpl. split.
  - apply NoDup_app.
    split_and!; [apply NoDup_filter; by eapply wf_sponsored_nodup| |by eapply wf_sponsored_nodup].
    intros c [_ Hc]%list_elem_of_filter Hc'.
    destruct (wf_sponsored a Hwf s ns c Hns Hc) as (n1 & ? & ?).
    destruct (wf_sponsored a Hwf idx n0 c Hn Hc') as (n2 & ? & ?).
    assert (s = idx) by congruence. by apply (leaf_sponsor_ne s).
  - intros c. rewrite elem_of_app, list_elem_of_filter. naive_solver.
Qed.

(** The three rewrites of a surviving node are one [detach_update]. *)
Lemma detach_update_eq j m : j ≠ idx → nodes a !! j = Some m →
  reparented idx n0 j (unlink_update idx n0 g j m) =
  detach_update idx n0 new_children new_sponsored j m.
Proof.
  intros Hj Hm. unfold reparented, unlink_update, detach_update, new_children, new_sponsored; simpl.
  rewrite (decide_False (P := j = idx)) by done. f_equal.
  - destruct (decide (parent n0 = Some j)) as [Hp|]; [|done]. by rewrite Hp, Hm.
  - destruct (decide (j ∈ sponsored n0)) as [Hr|Hr], (decide (sponsor m = Some idx)) as [Hs|Hs]; try done.
  + destruct (wf_sponsored a Hwf idx n0 j Hn Hr) as (? & ? & ?). congruence.
  + destruct (wf_sponsor a Hwf j m idx Hm Hs) as (? & ? & ?). congruence.
  - destruct (decide (sponsor n0 = Some j)) as [Hs|]; [|done]. by rewrite Hs, Hm.
Qed.

Lemma remove_leaf :
  ∃ a4 a6, reparent_sponsored (unlinked a idx n0 g) [idx] = Ok (a4, moves a n0) ∧
  @tombstone TreeError (with_index (delete (user_id n0)) a4) idx = Ok a6 ∧
  detach a a6 idx n0 new_children new_sponsored.
Proof.
  destruct (reparent_one (unlinked a idx n0 g) idx n0) as (a4 & Hre & (F1 & F2 & F3) & Ha4).
  { exact unlinked_self. }
  { by eapply wf_sponsored_nodup. }
  { exact leaf_not_own_recruit. }
  { intros s Hs. destruct (wf_sponsor a Hwf idx n0 s Hn Hs) as (ns & Hns & _).
    split_and!; [by apply leaf_sponsor_ne|by apply leaf_sponsor_not_recruit|].
    apply unlinked_is_some. eauto. }
  { done. }
  { intros s Hs. destruct (wf_sponsored a Hwf idx n0 s Hn Hs) as (nr & Hnr & _).
    apply unlinked_is_some. eauto. }
  rewrite moves_unlinked in Hre. exists a4.
  destruct (unlinked_frame a idx n0 g) as (U1 & U2 & U3).
  assert (Hidx4 : nodes a4 !! idx = Some (reparented idx n0 idx n0))
    by (by rewrite Ha4, unlinked_self).
  eexists. split; [exact Hre|]. split.
  { unfold tombstone. rewrite (slot_ok (with_index _ a4) idx _ Hidx4). done. }
  split; simpl; try done; [|exact new_sponsored_spec|..].
  - intros p np Hp Hnp. unfold new_children. rewrite Hp, Hnp. exact (Hg p np Hp Hnp).
  - intros j. destruct (decide (j = idx)) as [->|Hj].
    + apply list_lookup_insert_eq. by eapply lookup_lt_Some.
    + rewrite list_lookup_insert_ne, Ha4, unlinked_nodes by done.
      destruct (nodes a !! j) as [m|] eqn:Hm; [|done]. simpl. f_equal. by apply detach_update_eq.
  - by rewrite F1, U1.
  - by rewrite F3, U3.
  - by rewrite F2, U2.
Qed.
End remove_leaf.

(** The removability check of a single node. *)
Lemma check_removable_one a idx n0 : arena_wf a → nodes a !! idx = Some n0 →
  user_id n0 ≠ nil_uuid →
  check_sponsored_removable a [idx] =
    if decide (sponsored n0 ≠ [] ∧ sponsor n0 = None)
    then Err (SponsorlessWithRecruits (user_id n0) (length (sponsored n0))) else Ok ().
Proof.
  intros Hwf Hn Hl. unfold check_sponsored_removable. cbn [for_each].
  unfold surviving_recruits. rewrite (slot_ok a idx n0 Hn). cbn [mbind outcome_bind].
  rewrite survivors_all by exact (leaf_not_own_recruit a idx n0 Hwf Hn Hl).
  rewrite (surviving_one a idx n0 Hn (leaf_sponsor_ne a idx n0 Hwf Hn Hl)).
  destruct (sponsored n0) as [|r l] eqn:Hr; cbn [mbind outcome_bind].
  { by rewrite decide_False by naive_solver. }
  destruct (sponsor n0) as [s|] eqn:Hs; cbn [mbind outcome_bind].
  - rewrite (decide_False (P := _ ∧ _)) by naive_solver.
    rewrite bool_decide_eq_false_2; [done|]. rewrite <- Hr.
    exact (leaf_sponsor_not_recruit a idx n0 Hwf Hn Hl s Hs).
  - by rewrite decide_True.
Qed.
