(* ===== verification/Members.v ===== *)
(** * The abstract network: users and the links between them

    The contract every tree type offers is about users, not slots: a finite map
    from a user to its parent, sponsor, children, recruits and depth. [members]
    reads that map out of an arena. The specification places and removes members
    of the map; [members_attach], [members_place_root] and [members_detach] show
    that the arena's changes compute the same maps, so slot allocation and reuse
    cannot be observed. *)

From stdpp Require Import base numbers list gmap strings.
From Stdlib Require Import ZArith Lia.
From S2P Require Import Prelude TreeTypes Arena ArenaWf ArenaOps.

Record member := mkMember {
  m_parent : option Uuid;
  m_sponsor : option Uuid;
  m_children : list Uuid;
  m_sponsored : list Uuid;
  m_depth : N;
  m_enrolled_at : Z;
}.

Abbreviation network := (gmap Uuid member).

(** The user in a slot. *)
Definition uid (a : Arena) (i : NodeIndex) : Uuid := from_option user_id nil_uuid (nodes a !! i).

Definition member_of (a : Arena) (n : Node) : member :=
  mkMember (uid a <$> parent n) (uid a <$> sponsor n) (uid a <$> children n)
    (uid a <$> sponsored n) (depth n) (enrolled_at n).

Definition members (a : Arena) : network :=
  omap (λ i, member_of a <$> nodes a !! i) (index a).

(** ** Specification of the mutations *)

Definition m_with_children (f : list Uuid → list Uuid) (m : member) : member :=
  mkMember (m_parent m) (m_sponsor m) (f (m_children m)) (m_sponsored m) (m_depth m) (m_enrolled_at m).
Definition m_with_sponsored (f : list Uuid → list Uuid) (m : member) : member :=
  mkMember (m_parent m) (m_sponsor m) (m_children m) (f (m_sponsored m)) (m_depth m) (m_enrolled_at m).
Definition m_with_sponsor (f : option Uuid → option Uuid) (m : member) : member :=
  mkMember (m_parent m) (f (m_sponsor m)) (m_children m) (m_sponsored m) (m_depth m) (m_enrolled_at m).

(** A new leaf under [p], recruited by [s]; [f] places it among [p]'s children. *)
Definition place (f : list Uuid → list Uuid) (u p s : Uuid) (d : N) (at_ : Z) (M : network) : network :=
  <[u := mkMember (Some p) (Some s) [] [] d at_]>
    (alter (m_with_sponsored (λ l, l ++ [u])) s (alter (m_with_children f) p M)).

(** [u], described by [m], leaves: its parent drops it, its recruits pass to its
    sponsor in order. *)
Definition leave (u : Uuid) (m : member) (M : network) : network :=
  let drop_child := λ v c, if decide (m_parent m = Some v)
    then m_with_children (filter (λ w, w ≠ u)) c else c in
  let inherit := λ v c, if decide (m_sponsor m = Some v)
    then m_with_sponsored (λ l, filter (λ w, w ≠ u) l ++ m_sponsored m) c else c in
  let responsor := m_with_sponsor (λ o, if decide (o = Some u) then m_sponsor m else o) in
  map_imap (λ v c, Some (responsor (inherit v (drop_child v c)))) (delete u M).

(** What a removal reports: each recruit with its new sponsor. *)
Definition responsored (m : member) : list Responsored :=
  match m_sponsor m with
  | None => []
  | Some s => (λ r, mkResponsored r s) <$> m_sponsored m
  end.

(** ** Reading the map *)

Lemma lookup_alter_at (f : member → member) u v (M : network) :
  alter f u M !! v = (if decide (u = v) then fmap f else id) (M !! v).
Proof. destruct (decide (u = v)) as [->|]; [apply lookup_alter_eq|by apply lookup_alter_ne]. Qed.

Section members_facts.
Context (a : Arena) (Hwf : arena_wf a).

Lemma members_lookup u : members a !! u =
  i ← index a !! u; member_of a <$> nodes a !! i.
Proof. unfold members. by rewrite lookup_omap. Qed.

Lemma members_live i n : nodes a !! i = Some n → user_id n ≠ nil_uuid →
  members a !! user_id n = Some (member_of a n).
Proof.
  intros Hn Hl. rewrite members_lookup, (live_indexed a Hwf i n Hn Hl). simpl. by rewrite Hn.
Qed.

Lemma members_Some u m : members a !! u = Some m →
  ∃ i n, index a !! u = Some i ∧ nodes a !! i = Some n ∧ user_id n = u ∧ u ≠ nil_uuid ∧
  m = member_of a n.
Proof.
  rewrite members_lookup. destruct (index a !! u) as [i|] eqn:Hi; [|done]. simpl.
  destruct (resolve_live a Hwf u i Hi) as (n & Hn & ? & ?). rewrite Hn. intros [= <-].
  by exists i, n.
Qed.

Lemma members_None u : members a !! u = None ↔ index a !! u = None.
Proof.
  rewrite members_lookup. destruct (index a !! u) as [i|] eqn:Hi; [|done]. simpl.
  destruct (resolve_live a Hwf u i Hi) as (n & -> & _). done.
Qed.

Lemma members_is_Some u : is_Some (members a !! u) ↔ is_Some (index a !! u).
Proof. rewrite <- !not_eq_None_Some. by rewrite members_None. Qed.

Lemma uid_live i n : nodes a !! i = Some n → uid a i = user_id n.
Proof. intros Hn. unfold uid. by rewrite Hn. Qed.

(** Two live slots hold different users. *)
Lemma uid_inj i n j : nodes a !! i = Some n → user_id n ≠ nil_uuid → uid a j = user_id n → j = i.
Proof.
  intros Hn Hl Hj. unfold uid in Hj. destruct (nodes a !! j) as [m|] eqn:Hm; simpl in Hj; [|congruence].
  pose proof (live_indexed a Hwf i n Hn Hl).
  pose proof (live_indexed a Hwf j m Hm ltac:(congruence)). congruence.
Qed.
End members_facts.

Lemma members_new : members arena_new = ∅.
Proof. done. Qed.

(** ** Placement *)

Section members_attach.
Context (a a' : Arena) (idx : NodeIndex) (new : Node) (p s : NodeIndex) (np ns : Node)
  (pc : list NodeIndex) (f : list Uuid → list Uuid).
Context (Hwf : arena_wf a) (Hat : attach a a' idx new p s np ns pc).
Context (Hf : uid a' <$> pc = f (uid a <$> children np)).

Lemma attach_uid j n : nodes a !! j = Some n → user_id n ≠ nil_uuid → uid a' j = uid a j.
Proof.
  intros Hn Hl. destruct (attach_old_live _ _ _ _ _ _ _ _ _ Hat j n Hn Hl) as [Hj _].
  unfold uid. by rewrite Hj, Hn.
Qed.

Lemma attach_uid_new : uid a' idx = user_id new.
Proof. unfold uid. by rewrite (attach_new _ _ _ _ _ _ _ _ _ Hat). Qed.

Lemma attach_uids (l : list NodeIndex) : (∀ c, c ∈ l → ∃ n, nodes a !! c = Some n ∧ user_id n ≠ nil_uuid) →
  uid a' <$> l = uid a <$> l.
Proof.
  intros Hl. apply list_fmap_ext. intros i c Hc.
  destruct (Hl c) as (n & Hn & Hu); [by eapply list_elem_of_lookup_2|]. by eapply attach_uid.
Qed.

Lemma attach_member j n : nodes a !! j = Some n → user_id n ≠ nil_uuid →
  member_of a' (attach_update p s idx pc j n) =
  (if decide (j = s) then m_with_sponsored (λ l, l ++ [user_id new]) else id)
  ((if decide (j = p) then m_with_children f else id) (member_of a n)).
Proof.
  intros Hn Hl. unfold attach_update, member_of; simpl.
  assert (Hpar : uid a' <$> parent n = uid a <$> parent n).
  { destruct (parent n) as [q|] eqn:Hq; [|done]. simpl. f_equal.
  destruct (wf_parent_live a Hwf j n q Hn Hq) as (nq & ? & _ & ?). by eapply attach_uid. }
  assert (Hspo : uid a' <$> sponsor n = uid a <$> sponsor n).
  { destruct (sponsor n) as [q|] eqn:Hq; [|done]. simpl. f_equal.
  destruct (wf_sponsor_live a Hwf j n q Hn Hq) as (nq & ? & _ & ?). by eapply attach_uid. }
  assert (Hchi : uid a' <$> children n = uid a <$> children n).
  { apply attach_uids. intros c Hc. destruct (wf_child_live a Hwf j n c Hn Hc) as (? & ? & ? & ?). eauto. }
  assert (Hrec : uid a' <$> sponsored n = uid a <$> sponsored n).
  { apply attach_uids. intros c Hc. destruct (wf_recruit_live a Hwf j n c Hn Hc) as (? & ? & ? & ?). eauto. }
  rewrite Hpar, Hspo. destruct (at_parent _ _ _ _ _ _ _ _ _ Hat) as [Hp _].
  destruct (decide (j = s)), (decide (j = p)) as [->|]; rewrite ?fmap_app, ?fmap_cons, ?attach_uid_new;
  rewrite ?Hrec, ?Hchi; simplify_eq/=; rewrite ?Hf; done.
Qed.

Lemma members_attach : members a' =
  place f (user_id new) (user_id np) (user_id ns) (depth new) (enrolled_at new) (members a).
Proof.
  destruct (at_parent _ _ _ _ _ _ _ _ _ Hat) as [Hp Hpl].
  destruct (at_sponsor _ _ _ _ _ _ _ _ _ Hat) as [Hs Hsl].
  destruct (at_edges _ _ _ _ _ _ _ _ _ Hat) as (Ep & Es & Ec & Er).
  apply map_eq. intros v. rewrite members_lookup, (at_index _ _ _ _ _ _ _ _ _ Hat). unfold place.
  destruct (decide (v = user_id new)) as [->|Hv].
  { rewrite !lookup_insert_eq. simpl. rewrite (attach_new _ _ _ _ _ _ _ _ _ Hat). simpl.
    unfold member_of. rewrite Ep, Es, Ec, Er. simpl. do 3 f_equal; unfold uid.
    - destruct (attach_old_live _ _ _ _ _ _ _ _ _ Hat p np Hp Hpl) as [-> _]. done.
    - destruct (attach_old_live _ _ _ _ _ _ _ _ _ Hat s ns Hs Hsl) as [-> _]. done. }
  rewrite !lookup_insert_ne by done.
  destruct (index a !! v) as [i|] eqn:Hi; simpl.
  - destruct (resolve_live a Hwf v i Hi) as (n & Hn & <- & Hl).
    destruct (attach_old_live _ _ _ _ _ _ _ _ _ Hat i n Hn Hl) as [-> _]. simpl.
    rewrite (attach_member i n Hn Hl), !lookup_alter_at, (members_live a Hwf i n Hn Hl).
    rewrite (decide_ext (user_id np = user_id n) (i = p)), (decide_ext (user_id ns = user_id n) (i = s)).
    + by destruct (decide (i = s)), (decide (i = p)).
    + rewrite <- (uid_live a s ns Hs). split; [intros H; symmetry; by eapply uid_inj|].
      intros ->. by rewrite (uid_live a s n).
    + rewrite <- (uid_live a p np Hp). split; [intros H; symmetry; by eapply uid_inj|].
      intros ->. by rewrite (uid_live a p n).
  - rewrite !lookup_alter_at. assert (members a !! v = None) as -> by (by apply members_None).
    by repeat case_decide.
Qed.
End members_attach.

Lemma members_place_root a a' idx new : arena_wf a → root a = None →
  nodes a' !! idx = Some new → index a' = <[user_id new := idx]> (index a) →
  parent new = None → sponsor new = None → children new = [] → sponsored new = [] →
  members a = ∅ ∧
  members a' = {[user_id new := mkMember None None [] [] (depth new) (enrolled_at new)]}.
Proof.
  intros Hwf Hroot Hn Hi Hp Hs Hc Hr.
  assert (He : ∀ u, index a !! u = None).
  { intros u. destruct (index a !! u) as [i|] eqn:E; [|done].
    destruct (resolve_live a Hwf u i E) as (n & Hin & Hu & Hnil).
    pose proof (wf_rootless a Hwf i n Hroot Hin). congruence. }
  split; apply map_eq; intros v.
  - by rewrite (proj2 (members_None a Hwf v) (He v)), lookup_empty.
  - rewrite members_lookup, Hi. destruct (decide (v = user_id new)) as [->|Hv].
    + rewrite lookup_insert_eq, lookup_singleton_eq. simpl. rewrite Hn. simpl. unfold member_of.
      by rewrite Hp, Hs, Hc, Hr.
    + by rewrite lookup_insert_ne, He, lookup_singleton_ne by done.
Qed.

(** ** Removal *)

Section members_detach.
Context (a a' : Arena) (idx : NodeIndex) (n0 : Node) (pc sc : list NodeIndex).
Context (Hwf : arena_wf a) (Hdt : detach a a' idx n0 pc sc).
Context (Hpc : ∀ p np, parent n0 = Some p → nodes a !! p = Some np →
  pc = filter (λ c, c ≠ idx) (children np)).
Context (Hsc : ∀ s ns, sponsor n0 = Some s → nodes a !! s = Some ns →
  sc = filter (λ r, r ≠ idx) (sponsored ns) ++ sponsored n0).

Lemma detach_uid j : j ≠ idx → uid a' j = uid a j.
Proof.
  intros Hj. unfold uid. rewrite (dt_nodes _ _ _ _ _ _ Hdt), decide_False by done.
  by destruct (nodes a !! j).
Qed.

Lemma uid_removed c : uid a c ≠ user_id n0 ↔ c ≠ idx.
Proof.
  destruct (dt_node _ _ _ _ _ _ Hdt) as [Hn Hl]. split; intros H1 H2; apply H1.
  - subst. by apply uid_live.
  - by eapply uid_inj.
Qed.

Lemma detach_uid_filter (l : list NodeIndex) :
  uid a' <$> filter (λ c, c ≠ idx) l = filter (λ v, v ≠ user_id n0) (uid a <$> l).
Proof.
  rewrite list_filter_fmap. rewrite (list_filter_iff (λ x, uid a x ≠ user_id n0) (λ c, c ≠ idx)).
  - apply list_fmap_ext. intros i c Hc. apply detach_uid.
    apply list_elem_of_lookup_2, list_elem_of_filter in Hc. naive_solver.
  - intros c. apply uid_removed.
Qed.

Lemma detach_uids (l : list NodeIndex) : idx ∉ l → uid a' <$> l = uid a <$> l.
Proof.
  intros Hl. apply list_fmap_ext. intros i c Hc. apply detach_uid. intros ->.
  by apply Hl, (list_elem_of_lookup_2 _ i).
Qed.
Lemma detach_uid_opt (o : option NodeIndex) : o ≠ Some idx → uid a' <$> o = uid a <$> o.
Proof. destruct o as [j|]; [|done]. intros H. simpl. f_equal. apply detach_uid. congruence. Qed.

Lemma detach_member_children j m : j ≠ idx → nodes a !! j = Some m → user_id m ≠ nil_uuid →
  uid a' <$> children (detach_update idx n0 pc sc j m) =
  if decide (m_parent (member_of a n0) = Some (user_id m))
  then filter (λ w, w ≠ user_id n0) (uid a <$> children m) else uid a <$> children m.
Proof.
  intros Hj Hm Hl. destruct (dt_node _ _ _ _ _ _ Hdt) as [Hn Hl0].
  rewrite (decide_ext (m_parent (member_of a n0) = Some (user_id m)) (parent n0 = Some j)).
  - simpl. destruct (decide (parent n0 = Some j)) as [Hp|Hp].
    + by rewrite (Hpc j m Hp Hm), detach_uid_filter.
    + apply detach_uids. intros Hc.
      destruct (wf_children a Hwf j m idx Hm Hc) as (? & ? & ?). congruence.
  - simpl. destruct (parent n0) as [q|]; [|done]. simpl. split; intros [= H]; f_equal.
    + by eapply uid_inj.
    + subst. by apply uid_live.
Qed.

Lemma detach_member_sponsored j m : j ≠ idx → nodes a !! j = Some m → user_id m ≠ nil_uuid →
  uid a' <$> sponsored (detach_update idx n0 pc sc j m) =
  if decide (m_sponsor (member_of a n0) = Some (user_id m))
  then filter (λ w, w ≠ user_id n0) (uid a <$> sponsored m) ++ (uid a <$> sponsored n0)
  else uid a <$> sponsored m.
Proof.
  intros Hj Hm Hl. destruct (dt_node _ _ _ _ _ _ Hdt) as [Hn Hl0].
  rewrite (decide_ext (m_sponsor (member_of a n0) = Some (user_id m)) (sponsor n0 = Some j)).
  - simpl. destruct (decide (sponsor n0 = Some j)) as [Hs|Hs].
    + rewrite (Hsc j m Hs Hm), fmap_app, detach_uid_filter. f_equal. apply detach_uids.
      apply (leaf_not_own_recruit a idx n0 Hwf Hn Hl0).
    + apply detach_uids. intros Hc.
      destruct (wf_sponsored a Hwf j m idx Hm Hc) as (? & ? & ?). congruence.
  - simpl. destruct (sponsor n0) as [q|]; [|done]. simpl. split; intros [= H]; f_equal.
    + by eapply uid_inj.
    + subst. by apply uid_live.
Qed.

Lemma detach_member_sponsor j m : nodes a !! j = Some m →
  uid a' <$> sponsor (detach_update idx n0 pc sc j m) =
  if decide (uid a <$> sponsor m = Some (user_id n0)) then uid a <$> sponsor n0
  else uid a <$> sponsor m.
Proof.
  intros Hm. destruct (dt_node _ _ _ _ _ _ Hdt) as [Hn Hl0].
  rewrite (decide_ext (uid a <$> sponsor m = Some (user_id n0)) (sponsor m = Some idx)).
  - simpl. destruct (decide (sponsor m = Some idx)) as [Hs|Hs]; [|by apply detach_uid_opt].
    apply detach_uid_opt. intros Hs'. by apply (leaf_sponsor_ne a idx n0 Hwf Hn Hl0 idx).
  - destruct (sponsor m) as [q|]; [|done]. simpl. split; intros [= H]; f_equal.
    + by eapply uid_inj.
    + subst. by apply uid_live.
Qed.

Lemma members_detach : members a' = leave (user_id n0) (member_of a n0) (members a).
Proof.
  destruct (dt_node _ _ _ _ _ _ Hdt) as [Hn Hl0].
  apply map_eq. intros v. unfold leave. rewrite members_lookup, (dt_index _ _ _ _ _ _ Hdt).
  rewrite map_lookup_imap. destruct (decide (v = user_id n0)) as [->|Hv].
  { by rewrite !lookup_delete_eq. }
  rewrite !lookup_delete_ne by done. destruct (index a !! v) as [j|] eqn:Hi; cbn [mbind option_bind].
  2:{ by rewrite (proj2 (members_None a Hwf v) Hi). }
  destruct (resolve_live a Hwf v j Hi) as (m & Hm & <- & Hl).
  assert (Hj : j ≠ idx) by congruence.
  rewrite (detach_old _ _ _ _ _ _ Hdt j m Hm Hj), (members_live a Hwf j m Hm Hl).
  cbn [fmap option_fmap option_map mbind option_bind]. f_equal. unfold member_of at 1.
  rewrite (detach_member_children j m Hj Hm Hl), (detach_member_sponsored j m Hj Hm Hl),
  (detach_member_sponsor j m Hm).
  rewrite detach_uid_opt by exact (detach_not_parent _ _ _ _ _ _ Hwf Hdt j m Hm).
  unfold m_with_sponsor. by destruct (decide (m_parent _ = _)), (decide (m_sponsor _ = _)).
Qed.
End members_detach.

Lemma moves_responsored a n0 : moves a n0 = responsored (member_of a n0).
Proof.
  unfold moves, responsored, member_of; simpl. destruct (sponsor n0) as [t|]; [|done]. simpl.
  by rewrite <- list_fmap_compose.
Qed.

(** A rooted arena is one with members. *)
Lemma members_empty_root a : arena_wf a → members a = ∅ ↔ root a = None.
Proof.
  intros Hwf. split.
  - intros He. destruct (root a) as [r|] eqn:Hr; [|done].
    destruct (wf_root_live a Hwf r Hr) as (n & Hn & Hl & _).
    pose proof (members_live a Hwf r n Hn Hl) as H. by rewrite He, lookup_empty in H.
  - intros Hr. apply map_empty. intros u. apply (members_None a Hwf).
    destruct (index a !! u) as [i|] eqn:Hi; [|done].
    destruct (resolve_live a Hwf u i Hi) as (n & Hn & Hu & Hnil).
    pose proof (wf_rootless a Hwf i n Hr Hn). congruence.
Qed.

(** No member refers to a user outside the network. *)
Lemma members_closed a u : arena_wf a → index a !! u = None → ∀ v m, members a !! v = Some m →
  (u ∉ m_children m) ∧ (u ∉ m_sponsored m) ∧ m_sponsor m ≠ Some u.
Proof.
  intros Hwf Hu v m (i & n & Hi & Hn & Hv & Hl & ->)%members_Some; [|done].
  assert (Huid : ∀ j nj, nodes a !! j = Some nj → user_id nj ≠ nil_uuid → uid a j ≠ u).
  { intros j nj Hj Hlj Heq. rewrite (uid_live a j nj Hj) in Heq.
    pose proof (live_indexed a Hwf j nj Hj Hlj). congruence. }
  unfold member_of; simpl. split_and!.
  - intros (c & Hc & Hin)%list_elem_of_fmap.
    destruct (wf_child_live a Hwf i n c Hn Hin) as (nc & ? & _ & ?). eapply Huid; eauto.
  - intros (c & Hc & Hin)%list_elem_of_fmap.
    destruct (wf_recruit_live a Hwf i n c Hn Hin) as (nc & ? & _ & ?). eapply Huid; eauto.
  - intros (s & Hsp & Hs)%fmap_Some.
    destruct (wf_sponsor_live a Hwf i n s Hn Hsp) as (ns & ? & _ & ?). eapply Huid; eauto.
Qed.
