(* ===== verification/Unilevel.v ===== *)
(** * The unilevel tree: [tree/unilevel.rs]

    An arena with unbounded width: a child's position is its index in the
    parent's children. [reachable] is the set of trees the public operations
    build; the theorems show that they keep the arena invariant, that they never
    panic below 2^32 levels, and what each returns. *)

From stdpp Require Import base numbers list gmap strings.
From Stdlib Require Import ZArith Lia.
From S2P Require Import Prelude TreeTypes Arena ArenaCheck ArenaWf ArenaOps Members.

Module Unilevel.

Record UnilevelTree := mkUnilevel { arena : Arena }.

Definition new : UnilevelTree := mkUnilevel arena_new.

Definition validate_restored (t : UnilevelTree) : check_result :=
  ArenaCheck.validate_restored (arena t).

Definition check_add_root (t : UnilevelTree) (u : Uuid) : outcome TreeError unit :=
  check_user_id u;;
  refuse_if (bool_decide (is_Some (root (arena t)))) RootAlreadyExists;;
  refuse_if (bool_decide (is_Some (index (arena t) !! u))) (UserAlreadyExists u).

Definition add_root (t : UnilevelTree) (u : Uuid) (at_ : Z)
  : outcome TreeError (UnilevelTree * NodeIndex) :=
  check_add_root t u;;
  '(a, idx) ← alloc_slot (arena t) (mkNode u None [] None [] 0 at_);
  let a := with_index (λ m, <[u := idx]> m) a in
  let a := with_root (Some idx) a in
  Ok (mkUnilevel a, idx).

Definition check_add_node (t : UnilevelTree) (u parent_id sponsor_id : Uuid)
  : outcome TreeError unit :=
  check_user_id u;;
  refuse_if (bool_decide (is_Some (index (arena t) !! u))) (UserAlreadyExists u);;
  _ ← resolve (arena t) parent_id;
  _ ← map_err sponsor_error (resolve (arena t) sponsor_id);
  Ok ().

Definition add_node (t : UnilevelTree) (u parent_id sponsor_id : Uuid) (at_ : Z)
  : outcome TreeError (UnilevelTree * NodeIndex) :=
  check_add_node t u parent_id sponsor_id;;
  parent_idx ← resolve (arena t) parent_id;
  sponsor_idx ← resolve (arena t) sponsor_id;
  np ← node (arena t) parent_idx;
  d ← u32_add (depth np) 1;
  '(a, idx) ← alloc_slot (arena t) (mkNode u (Some parent_idx) [] (Some sponsor_idx) [] d at_);
  let a := with_index (λ m, <[u := idx]> m) a in
  a ← node_mut a parent_idx (with_children (λ l, l ++ [idx]));
  a ← node_mut a sponsor_idx (with_sponsored (λ l, l ++ [idx]));
  Ok (mkUnilevel a, idx).

Definition check_remove_node (t : UnilevelTree) (u : Uuid) : outcome TreeError unit :=
  idx ← resolve (arena t) u;
  n ← node (arena t) idx;
  let child_count := length (children n) in
  refuse_if (0 <? child_count)%nat (HasChildren u child_count);;
  check_sponsored_removable (arena t) [idx].

Definition remove_node (t : UnilevelTree) (u : Uuid)
  : outcome TreeError (UnilevelTree * list Responsored) :=
  check_remove_node t u;;
  idx ← resolve (arena t) u;
  n ← node (arena t) idx;
  a ← match parent n with
  | Some p => node_mut (arena t) p (with_children (filter (λ c, c ≠ idx)))
  | None => Ok (arena t)
  end;
  n ← node a idx;
  a ← match sponsor n with
  | Some s => node_mut a s (with_sponsored (filter (λ r, r ≠ idx)))
  | None => Ok a
  end;
  let a := if bool_decide (root a = Some idx) then with_root None a else a in
  '(a, moved) ← reparent_sponsored a [idx];
  let a := with_index (delete u) a in
  a ← tombstone a idx;
  Ok (mkUnilevel a, moved).

Definition get_position (t : UnilevelTree) (u : Uuid) : outcome TreeError TreePosition :=
  idx ← resolve (arena t) u; Arena.get_position (arena t) idx.

Definition get_branch (t : UnilevelTree) (u : Uuid) (position : nat)
  : outcome TreeError (list Node) :=
  idx ← resolve (arena t) u; Arena.get_branch (arena t) idx position.

Definition count_branch (t : UnilevelTree) (u : Uuid) (position : nat) : outcome TreeError nat :=
  idx ← resolve (arena t) u; Arena.count_branch (arena t) idx position.

(** The mutations, as steps between trees. *)
Inductive step : UnilevelTree → UnilevelTree → Prop :=
| step_root t u at_ t' idx : add_root t u at_ = Ok (t', idx) → step t t'
| step_add t u p s at_ t' idx : add_node t u p s at_ = Ok (t', idx) → step t t'
| step_remove t u t' moved : remove_node t u = Ok (t', moved) → step t t'.

Definition reachable (t : UnilevelTree) : Prop := rtc step new t.

(** ** Specification: the same operations on the abstract network *)

Inductive op :=
| AddRoot (u : Uuid) (at_ : Z)
| AddNode (u parent_id sponsor_id : Uuid) (at_ : Z)
| RemoveNode (u : Uuid).

Definition exec (t : UnilevelTree) (o : op) : outcome TreeError (UnilevelTree * list Responsored) :=
  match o with
  | AddRoot u at_ => '(t, _) ← add_root t u at_; Ok (t, [])
  | AddNode u p s at_ => '(t, _) ← add_node t u p s at_; Ok (t, [])
  | RemoveNode u => remove_node t u
  end.

Definition spec_add_root (M : network) (u : Uuid) (at_ : Z) : outcome TreeError network :=
  if decide (u = nil_uuid) then Err NilUserId
  else if decide (M ≠ ∅) then Err RootAlreadyExists
  else Ok {[u := mkMember None None [] [] 0 at_]}.

Definition spec_add_node (M : network) (u p s : Uuid) (at_ : Z) : outcome TreeError network :=
  if decide (u = nil_uuid) then Err NilUserId
  else if decide (is_Some (M !! u)) then Err (UserAlreadyExists u)
  else match M !! p, M !! s with
   | None, _ => Err (UserNotFound p)
   | Some _, None => Err (SponsorNotFound s)
   | Some mp, Some _ =>
       if (m_depth mp <? u32_max)%N
       then Ok (place (λ l, l ++ [u]) u p s (m_depth mp + 1) at_ M) else Panic
   end.

Definition spec_remove_node (M : network) (u : Uuid) : outcome TreeError (network * list Responsored) :=
  match M !! u with
  | None => Err (UserNotFound u)
  | Some m =>
  if decide (m_children m ≠ []) then Err (HasChildren u (length (m_children m)))
  else if decide (m_sponsored m ≠ [] ∧ m_sponsor m = None)
  then Err (SponsorlessWithRecruits u (length (m_sponsored m)))
  else Ok (leave u m M, responsored m)
  end.

Definition spec (M : network) (o : op) : outcome TreeError (network * list Responsored) :=
  match o with
  | AddRoot u at_ => M ← spec_add_root M u at_; Ok (M, [])
  | AddNode u p s at_ => M ← spec_add_node M u p s at_; Ok (M, [])
  | RemoveNode u => spec_remove_node M u
  end.
End Unilevel.
Import Unilevel.

(** ** Placement *)

Lemma add_root_ok t u at_ : arena_wf (arena t) → check_add_root t u = Ok () →
  ∃ t' idx, add_root t u at_ = Ok (t', idx) ∧ arena_wf (arena t') ∧
    nodes (arena t') !! idx = Some (mkNode u None [] None [] 0 at_) ∧
    index (arena t') = <[u := idx]> (index (arena t)) ∧ root (arena t') = Some idx.
Proof.
  intros Hwf Hc. unfold add_root. rewrite Hc. simpl.
  unfold check_add_root in Hc. apply bind_unit_ok in Hc as [Hu Hc].
  apply bind_unit_ok in Hc as [Hr Hi]. apply refuse_if_ok in Hu, Hr, Hi.
  apply bool_decide_eq_false in Hu, Hr, Hi. rewrite <- eq_None_not_Some in Hr, Hi.
  destruct (alloc_slot_spec (E := TreeError) (arena t) (mkNode u None [] None [] 0 at_) Hwf)
    as (a1 & idx & -> & [Hf Hn Hix Hrt Hfl]). simpl.
  do 2 eexists. split; [done|]. simpl. split_and!; [| | by rewrite Hix | done].
  - eapply (wf_place_root (arena t) _ idx (mkNode u None [] None [] 0 at_)); simpl; auto.
    + split_and!; done.
    + by rewrite Hix.
  - rewrite Hn. by rewrite decide_True.
Qed.

(** What a placement reports when it refuses, in the order it checks. *)
Lemma check_add_node_cases t u p s :
  check_add_node t u p s =
    if decide (u = nil_uuid) then Err NilUserId
    else if decide (is_Some (index (arena t) !! u)) then Err (UserAlreadyExists u)
    else match index (arena t) !! p, index (arena t) !! s with
         | None, _ => Err (UserNotFound p)
         | Some _, None => Err (SponsorNotFound s)
         | Some _, Some _ => Ok ()
         end.
Proof.
  unfold check_add_node, check_user_id, is_nil, resolve.
  destruct (decide (u = nil_uuid)) as [->|Hu]; [done|].
  rewrite (bool_decide_eq_false_2 (u = nil_uuid)) by done. simpl.
  destruct (decide (is_Some (index (arena t) !! u))) as [Hi|Hi].
  { by rewrite (bool_decide_eq_true_2 _ Hi). }
  rewrite (bool_decide_eq_false_2 _ Hi). simpl.
  by destruct (index (arena t) !! p), (index (arena t) !! s).
Qed.

Lemma check_add_node_ok t u p s : check_add_node t u p s = Ok () →
  u ≠ nil_uuid ∧ index (arena t) !! u = None ∧
  ∃ ip isp, index (arena t) !! p = Some ip ∧ index (arena t) !! s = Some isp.
Proof.
  rewrite check_add_node_cases. repeat case_decide; try done.
  destruct (index _ !! p) eqn:?, (index _ !! s) eqn:?; try done. intros _.
  split_and!; [done|by apply eq_None_not_Some|eauto].
Qed.

Lemma add_node_ok t u p s at_ ip np isp : arena_wf (arena t) →
  check_add_node t u p s = Ok () →
  index (arena t) !! p = Some ip → nodes (arena t) !! ip = Some np →
  index (arena t) !! s = Some isp → (depth np < u32_max)%N →
  ∃ t' idx ns, add_node t u p s at_ = Ok (t', idx) ∧ arena_wf (arena t') ∧
    nodes (arena t) !! isp = Some ns ∧
    attach (arena t) (arena t') idx
      (mkNode u (Some ip) [] (Some isp) [] (depth np + 1) at_) ip isp np ns (children np ++ [idx]).
Proof.
  intros Hwf Hc Hp Hnp Hs Hd.
  destruct (check_add_node_ok t u p s Hc) as (Hu & Hnone & _).
  destruct (resolve_live _ Hwf p ip Hp) as (np' & Hnp' & <- & Hpl). simplify_eq.
  destruct (resolve_live _ Hwf s isp Hs) as (ns & Hns & <- & Hsl).
  unfold add_node. rewrite Hc. simpl.
  rewrite (resolve_ok _ _ _ Hp), (resolve_ok _ _ _ Hs). simpl.
  rewrite (node_ok _ _ _ Hnp Hpl). simpl. unfold u32_add.
  destruct (N.leb_spec (depth np + 1) u32_max) as [Hle|]; [|lia]. simpl.
  destruct (alloc_slot_spec (E := TreeError) (arena t)
    (mkNode u (Some ip) [] (Some isp) [] (depth np + 1) at_) Hwf) as (a1 & idx & -> & Hal). simpl.
  assert (Hg : ∃ l1 l2, children np = l1 ++ l2 ∧ children np ++ [idx] = l1 ++ idx :: l2)
    by (exists (children np), []; by rewrite app_nil_r).
  rewrite (node_mut_ok _ ip _ np (place_parent_slot _ _ _ _ _ _ _ _ Hal Hnp Hpl) Hpl). simpl.
  rewrite (place_sponsor_write _ _ _ _ _ _ _ ns _ _ Hal Hns Hsl). simpl.
  pose proof (place_attach (arena t) a1 idx u ip isp np ns at_ (λ l, l ++ [idx])
    Hwf Hal Hnp Hpl Hns Hsl Hu Hnone Hle Hg) as Hat.
  do 3 eexists. split; [done|]. split; [|split; [done|exact Hat]].
  eapply wf_attach; [exact Hwf|exact Hat].
Qed.

(** ** Removal *)

Lemma check_remove_node_cases t u : arena_wf (arena t) →
  check_remove_node t u =
    match index (arena t) !! u with
    | None => Err (UserNotFound u)
    | Some idx =>
        match nodes (arena t) !! idx with
        | None => Panic
        | Some n =>
            if decide (children n ≠ []) then Err (HasChildren u (length (children n)))
            else if decide (sponsored n ≠ [] ∧ sponsor n = None)
            then Err (SponsorlessWithRecruits u (length (sponsored n))) else Ok ()
        end
    end.
Proof.
  intros Hwf. unfold check_remove_node, resolve.
  destruct (index (arena t) !! u) as [idx|] eqn:Hi; [|done]. simpl.
  destruct (resolve_live _ Hwf u idx Hi) as (n & Hn & Hu & Hnil). rewrite Hn.
  assert (Hl : user_id n ≠ nil_uuid) by congruence.
  rewrite (node_ok _ _ _ Hn Hl). simpl.
  destruct (decide (children n ≠ [])) as [Hc|Hc]; [by destruct (children n)|].
  apply dec_stable in Hc. rewrite Hc. simpl.
  rewrite (check_removable_one _ _ _ Hwf Hn Hl). by rewrite Hu.
Qed.

Lemma remove_node_ok t u idx n0 : arena_wf (arena t) →
  check_remove_node t u = Ok () → index (arena t) !! u = Some idx →
  nodes (arena t) !! idx = Some n0 →
  ∃ t', remove_node t u = Ok (t', moves (arena t) n0) ∧ arena_wf (arena t') ∧
    detach (arena t) (arena t') idx n0
      (new_children (arena t) n0 (filter (λ c, c ≠ idx))) (new_sponsored (arena t) idx n0).
Proof.
  intros Hwf Hc Hi Hn. unfold remove_node. rewrite Hc. simpl.
  destruct (resolve_live _ Hwf u idx Hi) as (n & Hn' & Hu & Hnil).
  assert (n = n0) as -> by congruence. assert (Hl : user_id n0 ≠ nil_uuid) by congruence.
  rewrite (check_remove_node_cases t u Hwf), Hi, Hn in Hc.
  destruct (decide (children n0 ≠ [])) as [|Hleaf]; [done|]. apply dec_stable in Hleaf.
  destruct (decide (sponsored n0 ≠ [] ∧ sponsor n0 = None)) as [|Hrec]; [done|].
  rewrite (resolve_ok _ _ _ Hi). simpl. rewrite (node_ok _ _ _ Hn Hl). simpl.
  set (g := filter (λ c : NodeIndex, c ≠ idx)) in *.
  assert (Hg : ∀ p np, parent n0 = Some p → nodes (arena t) !! p = Some np →
    NoDup (g (children np)) ∧ ∀ c, c ∈ g (children np) ↔ c ∈ children np ∧ c ≠ idx).
  { intros p np Hp Hnp. split; [apply NoDup_filter; by eapply wf_children_nodup|].
    intros c. unfold g. rewrite list_elem_of_filter. naive_solver. }
  destruct (remove_leaf (arena t) idx n0 g Hwf Hn Hl Hleaf) as (a4 & a6 & Hre & Hto & Hdt);
    [|exact Hg|].
  { intros Hs. destruct (decide (sponsored n0 = [])); [done|naive_solver]. }
  rewrite (unparent_ok (arena t) idx n0 g Hwf Hn). simpl.
  rewrite (node_ok _ _ _ (unparented_self (arena t) idx n0 g Hwf Hn Hleaf) Hl). simpl.
  rewrite (unsponsor_ok (arena t) idx n0 g Hwf Hn). simpl. fold (unlinked (arena t) idx n0 g).
  rewrite Hre. simpl. rewrite <- Hu, Hto. simpl.
  eexists. split; [done|]. split; [|exact Hdt]. by eapply wf_detach.
Qed.

(** ** Inversion of the mutations *)

Lemma add_node_inv t u p s at_ t' idx : arena_wf (arena t) →
  add_node t u p s at_ = Ok (t', idx) →
  ∃ ip np isp ns, check_add_node t u p s = Ok () ∧
    index (arena t) !! p = Some ip ∧ nodes (arena t) !! ip = Some np ∧
    index (arena t) !! s = Some isp ∧ nodes (arena t) !! isp = Some ns ∧
    arena_wf (arena t') ∧
    attach (arena t) (arena t') idx
      (mkNode u (Some ip) [] (Some isp) [] (depth np + 1) at_) ip isp np ns (children np ++ [idx]).
Proof.
  intros Hwf Hadd. pose proof Hadd as Hadd0. unfold add_node in Hadd.
  apply bind_unit_ok in Hadd as [Hc Hadd].
  destruct (check_add_node_ok t u p s Hc) as (_ & _ & ip & isp & Hp & Hs).
  rewrite (resolve_ok _ _ _ Hp), (resolve_ok _ _ _ Hs) in Hadd. simpl in Hadd.
  destruct (resolve_live _ Hwf p ip Hp) as (np & Hnp & Hpu & Hpl).
  rewrite (node_ok _ _ np Hnp) in Hadd by congruence. simpl in Hadd.
  unfold u32_add in Hadd. destruct (N.leb_spec (depth np + 1) u32_max) as [Hd|]; [|done].
  destruct (add_node_ok t u p s at_ ip np isp Hwf Hc Hp Hnp Hs ltac:(lia))
    as (t1 & idx1 & ns & Hadd1 & Hwf1 & Hns & Hat).
  rewrite Hadd0 in Hadd1. simplify_eq. naive_solver.
Qed.

Lemma remove_node_inv t u t' moved : arena_wf (arena t) →
  remove_node t u = Ok (t', moved) →
  ∃ idx n0, check_remove_node t u = Ok () ∧
    index (arena t) !! u = Some idx ∧ nodes (arena t) !! idx = Some n0 ∧ user_id n0 = u ∧
    arena_wf (arena t') ∧ moved = moves (arena t) n0 ∧
    detach (arena t) (arena t') idx n0
      (new_children (arena t) n0 (filter (λ c, c ≠ idx))) (new_sponsored (arena t) idx n0).
Proof.
  intros Hwf Hrm. pose proof Hrm as Hrm0. unfold remove_node in Hrm.
  apply bind_unit_ok in Hrm as [Hc _]. pose proof Hc as Hc0.
  unfold check_remove_node, resolve in Hc. apply bind_ok in Hc as (idx & Hi%ok_or_ok & _).
  destruct (resolve_live _ Hwf u idx Hi) as (n0 & Hn & Hu & _).
  destruct (remove_node_ok t u idx n0 Hwf Hc0 Hi Hn) as (t1 & Hrm1 & Hwf1 & Hdt).
  rewrite Hrm0 in Hrm1. simplify_eq. naive_solver.
Qed.

Lemma add_root_inv t u at_ t' idx : arena_wf (arena t) →
  add_root t u at_ = Ok (t', idx) → arena_wf (arena t').
Proof.
  intros Hwf Hadd. pose proof Hadd as Hadd0. unfold add_root in Hadd.
  apply bind_unit_ok in Hadd as [Hc _].
  destruct (add_root_ok t u at_ Hwf Hc) as (t1 & i1 & Hadd1 & Hwf1 & _).
  rewrite Hadd0 in Hadd1. by simplify_eq.
Qed.

Lemma step_wf t t' : step t t' → arena_wf (arena t) → arena_wf (arena t').
Proof.
  destruct 1 as [t u at_ t' idx H|t u p s at_ t' idx H|t u t' mv H]; intros Hwf.
  - by eapply add_root_inv.
  - destruct (add_node_inv _ _ _ _ _ _ _ Hwf H). naive_solver.
  - destruct (remove_node_inv _ _ _ _ Hwf H). naive_solver.
Qed.

Lemma reachable_wf t : reachable t → arena_wf (arena t).
Proof.
  unfold reachable. intros H. remember new as t0 eqn:Ht0.
  assert (arena_wf (arena t0)) as Hwf by (subst; apply arena_new_wf). clear Ht0.
  induction H; [done|]. eauto using step_wf.
Qed.

(** Every unilevel tree built by [add_root], [add_node] and [remove_node]
    satisfies the arena invariant: the index names exactly the live slots,
    parent/children and sponsor/sponsored edges are reciprocated once each,
    depths count from the single root and sponsor chains end. *)
Theorem unilevel_reachable_wf t : reachable t → arena_wf (arena t).
Proof. exact (reachable_wf t). Qed.

(** ** Refinement *)

Lemma check_add_root_cases t u : arena_wf (arena t) →
  check_add_root t u =
    if decide (u = nil_uuid) then Err NilUserId
    else if decide (members (arena t) ≠ ∅) then Err RootAlreadyExists else Ok ().
Proof.
  intros Hwf. unfold check_add_root, check_user_id, is_nil.
  destruct (decide (u = nil_uuid)) as [->|Hu]; [done|].
  rewrite (bool_decide_eq_false_2 (u = nil_uuid)) by done. simpl.
  pose proof (members_empty_root (arena t) Hwf) as Hm.
  destruct (decide (members (arena t) ≠ ∅)) as [Hne|He].
  - rewrite (bool_decide_eq_true_2 (is_Some (root _))); [done|]. apply not_eq_None_Some. naive_solver.
  - apply dec_stable in He. rewrite (proj1 Hm He). simpl.
    rewrite bool_decide_eq_false_2; [done|]. rewrite <- (members_is_Some _ Hwf), He. by intros [? ?].
Qed.

Lemma add_root_refines t u at_ : arena_wf (arena t) →
  (λ '(t', _), members (arena t')) <$> add_root t u at_ = spec_add_root (members (arena t)) u at_.
Proof.
  intros Hwf. pose proof (check_add_root_cases t u Hwf) as Hc. unfold spec_add_root.
  destruct (decide (u = nil_uuid)); [unfold add_root; by rewrite Hc|].
  destruct (decide (members (arena t) ≠ ∅)) as [|He]; [unfold add_root; by rewrite Hc|].
  apply dec_stable, (members_empty_root _ Hwf) in He.
  destruct (add_root_ok t u at_ Hwf Hc) as (t' & idx & -> & _ & Hn & Hi & _). simpl. f_equal.
  by apply (members_place_root _ _ idx (mkNode u None [] None [] 0 at_) Hwf He Hn Hi).
Qed.

Lemma add_node_refines t u p s at_ : arena_wf (arena t) →
  (λ '(t', _), members (arena t')) <$> add_node t u p s at_ =
  spec_add_node (members (arena t)) u p s at_.
Proof.
  intros Hwf. pose proof (check_add_node_cases t u p s) as Hc. unfold spec_add_node.
  destruct (decide (u = nil_uuid)); [unfold add_node; by rewrite Hc|].
  rewrite (decide_ext (is_Some (members (arena t) !! u)) (is_Some (index (arena t) !! u)))
    by (by apply members_is_Some).
  destruct (decide (is_Some (index (arena t) !! u))); [unfold add_node; by rewrite Hc|].
  destruct (index (arena t) !! p) as [ip|] eqn:Hp.
  2:{ rewrite (proj2 (members_None _ Hwf p) Hp). unfold add_node. by rewrite Hc. }
  destruct (resolve_live _ Hwf p ip Hp) as (np & Hnp & Hpu & Hpl).
  pose proof (members_live _ Hwf ip np Hnp ltac:(congruence)) as Hmp. rewrite Hpu in Hmp. rewrite Hmp.
  destruct (index (arena t) !! s) as [isp|] eqn:Hs.
  2:{ rewrite (proj2 (members_None _ Hwf s) Hs). unfold add_node. by rewrite Hc. }
  destruct (resolve_live _ Hwf s isp Hs) as (ns & Hns & Hsu & Hsl).
  pose proof (members_live _ Hwf isp ns Hns ltac:(congruence)) as Hms. rewrite Hsu in Hms. rewrite Hms.
  simpl. destruct (N.ltb_spec (depth np) u32_max) as [Hd|Hd].
  - destruct (add_node_ok t u p s at_ ip np isp Hwf Hc Hp Hnp Hs Hd)
      as (t' & idx & ns' & -> & _ & Hns' & Hat). simpl. f_equal. simplify_eq.
    eapply (members_attach _ _ _ _ _ _ _ _ _ (λ l, l ++ [u]) Hwf Hat).
    rewrite fmap_app. simpl. f_equal; [|by rewrite (attach_uid_new _ _ _ _ _ _ _ _ _ Hat)].
    eapply (attach_uids _ _ _ _ _ _ _ _ _ Hat). intros c Hch.
    destruct (wf_child_live _ Hwf ip np c Hnp Hch) as (? & ? & ? & ?). eauto.
  - unfold add_node. rewrite Hc. simpl. rewrite (resolve_ok _ _ _ Hp), (resolve_ok _ _ _ Hs). simpl.
    rewrite (node_ok _ _ np Hnp) by congruence. simpl. unfold u32_add.
    destruct (N.leb_spec (depth np + 1) u32_max); [lia|done].
Qed.

Lemma remove_node_refines t u : arena_wf (arena t) →
  prod_map (λ t', members (arena t')) id <$> remove_node t u = spec_remove_node (members (arena t)) u.
Proof.
  intros Hwf. pose proof (check_remove_node_cases t u Hwf) as Hc. unfold spec_remove_node.
  destruct (index (arena t) !! u) as [idx|] eqn:Hi.
  2:{ rewrite (proj2 (members_None _ Hwf u) Hi). unfold remove_node. by rewrite Hc. }
  destruct (resolve_live _ Hwf u idx Hi) as (n0 & Hn & Hu & Hl). rewrite Hn in Hc.
  pose proof (members_live _ Hwf idx n0 Hn ltac:(congruence)) as Hm. rewrite Hu in Hm. rewrite Hm.
  change (m_children (member_of _ n0)) with (uid (arena t) <$> children n0).
  change (m_sponsored (member_of _ n0)) with (uid (arena t) <$> sponsored n0).
  change (m_sponsor (member_of _ n0)) with (uid (arena t) <$> sponsor n0). rewrite !length_fmap.
  rewrite (decide_ext (uid (arena t) <$> children n0 ≠ []) (children n0 ≠ [])) by (by destruct (children n0)).
  destruct (decide (children n0 ≠ [])); [unfold remove_node; by rewrite Hc|].
  rewrite (decide_ext (_ ∧ _) (sponsored n0 ≠ [] ∧ sponsor n0 = None))
    by (destruct (sponsored n0), (sponsor n0); naive_solver).
  destruct (decide (sponsored n0 ≠ [] ∧ sponsor n0 = None)); [unfold remove_node; by rewrite Hc|].
  destruct (remove_node_ok t u idx n0 Hwf Hc Hi Hn) as (t' & -> & _ & Hdt).
  simpl. unfold prod_map. simpl. rewrite moves_responsored. do 2 f_equal. rewrite <- Hu.
  eapply (members_detach _ _ _ _ _ _ Hwf Hdt).
  - intros p np Hp Hnp. unfold new_children. by rewrite Hp, Hnp.
  - intros s ns Hs Hns. unfold new_sponsored. by rewrite Hs, Hns.
Qed.

(** C37. A whole sequence of requests, refused ones included, has the outcome the
    abstract network prescribes: the same errors, the same reports of moved
    recruits and the same members at the end. Slots and their reuse are not
    observable, and the only panic is a member below level 2^32 - 1. *)
Theorem unilevel_refines_network (os : list op) (t : UnilevelTree) : reachable t →
  prod_map (λ t', members (arena t')) id <$> run exec t os = run spec (members (arena t)) os.
Proof.
  intros Hr. apply (run_refines (λ t, arena_wf (arena t)) (λ t, members (arena t))).
  - intros t1 [u at_|u p s at_|u] t2 r Hwf; simpl; intros H.
    + apply bind_ok in H as ([] & H & ?). simplify_eq. by eapply add_root_inv.
    + apply bind_ok in H as ([] & H & ?). simplify_eq.
      destruct (add_node_inv _ _ _ _ _ _ _ Hwf H). naive_solver.
    + destruct (remove_node_inv _ _ _ _ Hwf H). naive_solver.
  - intros t1 [u at_|u p s at_|u] Hwf; simpl.
    + rewrite <- (add_root_refines t1 u at_ Hwf). by destruct (add_root t1 u at_) as [[]| | |].
    + rewrite <- (add_node_refines t1 u p s at_ Hwf). by destruct (add_node t1 u p s at_) as [[]| | |].
    + by apply remove_node_refines.
  - by apply reachable_wf.
Qed.

(** ** Undoing a placement *)

Lemma filter_out (u : Uuid) (l : list Uuid) : u ∉ l → filter (λ w, w ≠ u) l = l.
Proof.
  induction l as [|x l IH]; [done|]. intros [Hx Hl]%not_elem_of_cons.
  rewrite filter_cons_True by congruence. by rewrite IH.
Qed.

Lemma filter_snoc_out (u : Uuid) (l : list Uuid) : u ∉ l → filter (λ w, w ≠ u) (l ++ [u]) = l.
Proof.
  intros Hl. rewrite filter_app, (filter_out u l Hl), filter_cons_False by congruence.
  apply app_nil_r.
Qed.

Lemma leave_place (M : network) u p s d at_ : M !! u = None →
  (∀ v m, M !! v = Some m →
    (u ∉ m_children m) ∧ (u ∉ m_sponsored m) ∧ m_sponsor m ≠ Some u) →
  leave u (mkMember (Some p) (Some s) [] [] d at_) (place (λ l, l ++ [u]) u p s d at_ M) = M.
Proof.
  intros Hu Hcl. unfold leave, place. apply map_eq. intros v.
  rewrite map_lookup_imap, delete_insert_eq. cbn [m_parent m_sponsor m_sponsored].
  destruct (decide (v = u)) as [->|Hv]; [by rewrite lookup_delete_eq|].
  rewrite lookup_delete_ne, !lookup_alter_at by done.
  destruct (M !! v) as [m|] eqn:Hm; [|by repeat case_decide].
  destruct (Hcl v m Hm) as (H1 & H2 & H3). destruct m as [mp ms mc mr md ma]; simpl in H1, H2, H3.
  destruct (decide (p = v)), (decide (s = v)); simplify_eq;
    cbn [fmap option_fmap option_map mbind option_bind id];
    rewrite ?(decide_True (P := Some v = Some v)), ?(decide_False (P := Some p = Some v)),
      ?(decide_False (P := Some s = Some v)) by congruence;
    unfold m_with_sponsor; simpl; rewrite (decide_False (P := ms = Some u)) by done;
    rewrite ?app_nil_r, ?(filter_snoc_out u mc H1), ?(filter_snoc_out u mr H2); done.
Qed.

(** Removing the member just placed reports no moved recruit and gives back
    the network as it was before the placement. *)
Theorem unilevel_add_remove_roundtrip t u p s at_ t1 idx : reachable t →
  add_node t u p s at_ = Ok (t1, idx) →
  ∃ t2, remove_node t1 u = Ok (t2, []) ∧ members (arena t2) = members (arena t).
Proof.
  intros Hr Hadd. assert (Hwf : arena_wf (arena t)) by (by apply reachable_wf).
  destruct (add_node_inv _ _ _ _ _ _ _ Hwf Hadd) as (ip & np & isp & ns & Hc & _ & _ & _ & _ & Hwf1 & _).
  destruct (check_add_node_ok t u p s Hc) as (Hnil & Hnone & _).
  pose proof (add_node_refines t u p s at_ Hwf) as Ha. rewrite Hadd in Ha. simpl in Ha.
  unfold spec_add_node in Ha. repeat case_decide; try done.
  destruct (members (arena t) !! p) as [mp|], (members (arena t) !! s) as [ms|]; try done.
  destruct (_ <? _)%N; [|done]. injection Ha as Ha.
  pose proof (remove_node_refines t1 u Hwf1) as Hrm. unfold spec_remove_node in Hrm.
  rewrite Ha in Hrm. unfold place at 1 in Hrm. rewrite lookup_insert_eq in Hrm. simpl in Hrm.
  rewrite leave_place in Hrm; [|by apply members_None|by apply members_closed].
  destruct (remove_node t1 u) as [[t2 mv]| | |]; simplify_eq/=. by exists t2.
Qed.

(** ** A concrete tree *)

Lemma run_reachable os t t' rs : reachable t → run exec t os = Ok (t', rs) → reachable t'.
Proof.
  revert t t' rs. induction os as [|o os IH]; intros t t' rs Hr; simpl; [by intros [= <- _]|].
  destruct (exec t o) as [[t1 r]|e| |] eqn:He; [| |done..].
  - intros H. apply bind_ok in H as ([t2 rs2] & H & [= <- _]). eapply IH; [|exact H].
    eapply rtc_r; [exact Hr|]. destruct o; simpl in He.
    + apply bind_ok in He as ([] & He & [= <- _]). by eapply step_root.
    + apply bind_ok in He as ([] & He & [= <- _]). by eapply step_add.
    + by eapply step_remove.
  - intros H. apply bind_ok in H as ([t2 rs2] & H & [= <- _]). by eapply IH.
Qed.

Module UnilevelWitness.
(** 2 and 3 are placed under 1, 3 recruited by 2; 4 is placed under 2 and was
    recruited by 3; a nil user is refused; 3 leaves, so 4 passes to 2; 5 joins
    under 4. *)
Definition ops : list op :=
  [AddRoot 1 0; AddNode 2 1 1 0; AddNode 3 1 2 0; AddNode 4 2 3 0; AddNode 0 1 1 0; RemoveNode 3;
  AddNode 5 4 4 0].

Definition tree : UnilevelTree :=
  match run exec new ops with Ok (t, _) => t | _ => new end.

Lemma tree_reachable : reachable tree.
Proof.
  apply (run_reachable ops new _ [inl []; inl []; inl []; inl []; inr NilUserId;
  inl [mkResponsored 4 2]; inl []]); [apply rtc_refl|]. vm_compute. reflexivity.
Qed.

Lemma unilevel_reachable_wf_witness : node_count (arena tree) = 4 ∧ arena_wf (arena tree).
Proof. split; [vm_compute; reflexivity|]. apply unilevel_reachable_wf, tree_reachable. Defined.

Lemma unilevel_refines_network_witness :
  prod_map (λ t', members (arena t')) id <$> run exec tree [RemoveNode 5; RemoveNode 1] =
  run spec (members (arena tree)) [RemoveNode 5; RemoveNode 1].
Proof. apply unilevel_refines_network, tree_reachable. Defined.

Lemma unilevel_add_remove_roundtrip_witness :
  ∃ t1 idx t2, add_node tree 9 5 2 0 = Ok (t1, idx) ∧ remove_node t1 9 = Ok (t2, []) ∧
  members (arena t2) = members (arena tree).
Proof.
  destruct (add_node tree 9 5 2 0) as [[t1 idx]| | |] eqn:E;
  [|exfalso; vm_compute in E; discriminate..].
  destruct (unilevel_add_remove_roundtrip tree 9 5 2 0 t1 idx tree_reachable E) as (t2 & H1 & H2).
  exists t1, idx, t2. exact (conj eq_refl (conj H1 H2)).
Defined.
End UnilevelWitness.
