(* ===== verification/ArenaWalk.v ===== *)
(** * Traversals of the arena: [walk_upline], [bfs_downline] and their kin

    [up_path] is the chain of links above a slot; [reach] is the set of slots a
    breadth-first search may visit. On a well-formed arena the chain is finite
    and free of repetitions, so the fuel of the loops, one above the number of
    slots, is enough: every traversal returns, and what it returns is the chain
    or the set, in the stated order. *)

From stdpp Require Import base numbers list gmap strings sorting.
From Stdlib Require Import ZArith Lia.
From S2P Require Import Prelude TreeTypes Arena ArenaWf ArenaOps.

(** ** Chains of links *)

Inductive up_path (a : Arena) (link : Node → option NodeIndex) : option NodeIndex → list NodeIndex → Prop :=
| up_none : up_path a link None []
| up_some i n l : nodes a !! i = Some n → up_path a link (link n) l → up_path a link (Some i) (i :: l).

(** The nodes at a list of slots. *)
Definition at_slots (a : Arena) (l : list NodeIndex) : list Node := omap (λ i, nodes a !! i) l.
Arguments at_slots : simpl never.

Definition in_arena (a : Arena) (l : list NodeIndex) : Prop := ∀ i, i ∈ l → is_Some (nodes a !! i).

Lemma at_slots_cons a i n l : nodes a !! i = Some n → at_slots a (i :: l) = n :: at_slots a l.
Proof. intros H. unfold at_slots; simpl. by rewrite H. Qed.

Lemma at_slots_app a l k : at_slots a (l ++ k) = at_slots a l ++ at_slots a k.
Proof. apply omap_app. Qed.

Lemma at_slots_snoc a i n l : nodes a !! i = Some n → at_slots a (l ++ [i]) = at_slots a l ++ [n].
Proof. intros H. rewrite at_slots_app. unfold at_slots at 2; simpl. by rewrite H. Qed.

Lemma at_slots_length a l : in_arena a l → length (at_slots a l) = length l.
Proof.
  induction l as [|i l IH]; intros Hl; [done|]. destruct (Hl i) as [n Hn]; [left|].
  rewrite (at_slots_cons a i n l Hn). simpl. rewrite IH; [done|]. intros j Hj. apply Hl. by right.
Qed.

Lemma at_slots_take a l k : in_arena a l → take k (at_slots a l) = at_slots a (take k l).
Proof.
  revert k. induction l as [|i l IH]; intros k Hl; [by destruct k|].
  destruct (Hl i) as [n Hn]; [left|]. rewrite (at_slots_cons a i n l Hn).
  destruct k; simpl; [done|]. rewrite (at_slots_cons a i n _ Hn), IH; [done|].
  intros j Hj. apply Hl. by right.
Qed.

(** Distinct slots of the arena are no more than its slots. *)
Lemma nodup_in_arena a l : NoDup l → in_arena a l → length l ≤ length (nodes a).
Proof.
  intros Hnd Hin. rewrite <- (length_seq (length (nodes a)) 0).
  apply submseteq_length, NoDup_submseteq; [done|]. intros i Hi. apply elem_of_seq.
  destruct (Hin i Hi) as [n Hn%lookup_lt_Some]. lia.
Qed.

Section up_path.
Context (a : Arena) (link : Node → option NodeIndex).

Lemma up_path_det o l k : up_path a link o l → up_path a link o k → l = k.
Proof.
  intros H. revert k. induction H as [|i n l Hi _ IH]; inversion 1; simplify_eq; [done|].
  f_equal. by apply IH.
Qed.

Lemma up_path_in_arena o l : up_path a link o l → in_arena a l.
Proof.
  induction 1 as [|i n l Hi _ IH]; [by intros ? ?%elem_of_nil|].
  intros j [->|Hj]%elem_of_cons; eauto.
Qed.

(** The chain above a slot of a chain is a later part of it. *)
Lemma up_path_suffix o l j : up_path a link o l → j ∈ l →
  ∃ l1 l2, l = l1 ++ j :: l2 ∧ up_path a link (Some j) (j :: l2).
Proof.
  induction 1 as [|i n l Hi Hl IH]; [by intros ?%elem_of_nil|].
  intros [->|Hj]%elem_of_cons; [exists [], l; split; [done|by econstructor]|].
  destruct (IH Hj) as (l1 & l2 & -> & H). by exists (i :: l1), l2.
Qed.

(** A finite chain visits no slot twice: it would go on forever. *)
Lemma up_path_nodup o l : up_path a link o l → NoDup l.
Proof.
  induction 1 as [|i n l Hi Hl IH]; [constructor|]. constructor; [|done]. intros Hin.
  destruct (up_path_suffix _ _ _ Hl Hin) as (l1 & l2 & -> & H2).
  assert (up_path a link (Some i) (i :: l1 ++ i :: l2)) as H1 by (by econstructor).
  pose proof (up_path_det _ _ _ H1 H2) as Heq. injection Heq as Heq.
  apply (f_equal length) in Heq. rewrite length_app in Heq. simpl in Heq. lia.
Qed.

Lemma up_path_length o l : up_path a link o l → length l ≤ length (nodes a).
Proof. intros H. eapply nodup_in_arena; eauto using up_path_nodup, up_path_in_arena. Qed.

(** What the loop returns: the chain, cut at the limit. *)
Definition cut (limit : N) (l : list NodeIndex) : list NodeIndex :=
  if (limit =? 0)%N then l else take (N.to_nat limit) l.

Lemma walk_links_spec {E} fuel limit o l (steps : N) res :
  up_path a link o l → length l < fuel → (steps + N.of_nat (length l) ≤ u32_max)%N →
  (limit = 0 ∨ steps ≤ limit)%N →
  @walk_links E fuel a link limit o steps res =
  Ok (res ++ at_slots a (if (limit =? 0)%N then l else take (N.to_nat (limit - steps)) l)).
Proof.
  intros H. revert fuel steps res. induction H as [|i n l Hi Hl IH]; intros fuel steps res Hf Hs Hlim.
  { destruct fuel; [simpl in Hf; lia|]. simpl. rewrite take_nil. by case_match; rewrite app_nil_r. }
  destruct fuel as [|fuel]; [lia|]. simpl in Hf, Hs. cbn [walk_links].
  destruct ((0 <? limit)%N && (limit <=? steps)%N) eqn:Hstop.
  - apply andb_true_iff in Hstop as [H1%N.ltb_lt H2%N.leb_le].
    replace (limit =? 0)%N with false by (symmetry; apply N.eqb_neq; lia).
    replace (limit - steps)%N with 0%N by lia. simpl. by rewrite app_nil_r.
  - rewrite (slot_ok a i n Hi). cbn [mbind outcome_bind]. unfold u32_add.
    destruct (N.leb_spec (steps + 1) u32_max); [|lia]. cbn [mbind outcome_bind].
    apply andb_false_iff in Hstop as [H1%N.ltb_ge|H2%N.leb_gt].
    + assert (limit = 0%N) as -> by lia. rewrite IH by lia. simpl.
      by rewrite (at_slots_cons a i n l Hi), <- app_assoc.
    + rewrite IH by lia. destruct (N.eqb_spec limit 0) as [->|].
      { by rewrite (at_slots_cons a i n l Hi), <- app_assoc. }
      replace (N.to_nat (limit - steps)) with (S (N.to_nat (limit - (steps + 1)))) by lia.
      simpl. by rewrite (at_slots_cons a i n _ Hi), <- app_assoc.
Qed.
End up_path.

Section uplines.
Context (a : Arena) (Hwf : arena_wf a).

(** The ancestors of a live node, one per level above it. *)
Lemma upline_exists i n : nodes a !! i = Some n → user_id n ≠ nil_uuid →
  ∃ l, up_path a parent (parent n) l ∧ N.of_nat (length l) = depth n.
Proof.
  remember (depth n) as d eqn:Hd. revert i n Hd. induction (N.lt_wf_0 d) as [d _ IH].
  intros i n -> Hi Hl. destruct (parent n) as [p|] eqn:Hp.
  - destruct (wf_parent_live a Hwf i n p Hi Hp) as (np & Hnp & _ & Hpl).
    destruct (wf_depth a Hwf i n p np Hi Hp Hnp) as [Hdep _].
    destruct (IH (depth np) ltac:(lia) p np eq_refl Hnp Hpl) as (l & Hl' & Hlen).
    exists (p :: l). split; [by econstructor|]. simpl. lia.
  - exists []. split; [constructor|]. by rewrite (wf_depth_root a Hwf i n Hi Hl Hp).
Qed.

Lemma depth_bound i n : nodes a !! i = Some n → user_id n ≠ nil_uuid → (depth n ≤ u32_max)%N.
Proof.
  intros Hi Hl. destruct (parent n) as [p|] eqn:Hp.
  - destruct (wf_parent_live a Hwf i n p Hi Hp) as (np & Hnp & _).
    apply (wf_depth a Hwf i n p np Hi Hp Hnp).
  - rewrite (wf_depth_root a Hwf i n Hi Hl Hp). unfold u32_max. lia.
Qed.

Lemma sponsor_path_exists i : chain_ends a i →
  ∀ n, nodes a !! i = Some n → ∃ l, up_path a sponsor (sponsor n) l.
Proof.
  induction 1 as [i n Hi Hs|i n j Hi Hs Hj IH]; intros n' Hn'; simplify_eq.
  - exists []. rewrite Hs. constructor.
  - rewrite Hs. destruct (wf_sponsor_live a Hwf i n j Hi Hs) as (nj & Hnj & _).
    destruct (IH nj Hnj) as [l Hl]. exists (j :: l). by econstructor.
Qed.

Lemma walk_upline_spec {E} i n limit : nodes a !! i = Some n → user_id n ≠ nil_uuid →
  ∃ l, up_path a parent (parent n) l ∧ N.of_nat (length l) = depth n ∧
  @walk_upline E a i limit = Ok (at_slots a (cut limit l)).
Proof.
  intros Hi Hl. destruct (upline_exists i n Hi Hl) as (l & Hup & Hlen). exists l. split_and!; [done..|].
  unfold walk_upline. rewrite (slot_ok a i n Hi). cbn [mbind outcome_bind].
  pose proof (up_path_length _ _ _ _ Hup). pose proof (depth_bound i n Hi Hl).
  rewrite (walk_links_spec a parent _ limit _ l 0 []); [|done|unfold loop_fuel; lia|lia..].
  by rewrite N.sub_0_r.
Qed.

Lemma walk_sponsor_upline_spec {E} i n limit : nodes a !! i = Some n → user_id n ≠ nil_uuid →
  (N.of_nat (length (nodes a)) ≤ u32_max)%N →
  ∃ l, up_path a sponsor (sponsor n) l ∧
  @walk_sponsor_upline E a i limit = Ok (at_slots a (cut limit l)).
Proof.
  intros Hi Hl Hn. destruct (sponsor_path_exists i (wf_chain a Hwf i n Hi Hl) n Hi) as [l Hup].
  exists l. split; [done|].
  unfold walk_sponsor_upline. rewrite (slot_ok a i n Hi). cbn [mbind outcome_bind].
  pose proof (up_path_length _ _ _ _ Hup).
  rewrite (walk_links_spec a sponsor _ limit _ l 0 []); [|done|unfold loop_fuel; lia|lia..].
  by rewrite N.sub_0_r.
Qed.

(** ** [is_descendant_of] *)

Lemma descendant_loop_spec {E} fuel anc i n l : nodes a !! i = Some n →
  up_path a parent (parent n) l → length l < fuel →
  @descendant_loop E fuel a anc i = Ok (bool_decide (anc ∈ l)).
Proof.
  revert i n l. induction fuel as [|fuel IH]; intros i n l Hi Hl Hf; [lia|].
  simpl. rewrite (slot_ok a i n Hi). cbn [mbind outcome_bind].
  destruct (parent n) as [p|]; inversion Hl as [|p' np l' Hnp Hl']; simplify_eq/=.
  - case_bool_decide as Hp; [by rewrite bool_decide_eq_true_2 by (subst; left)|].
    rewrite (IH p np l' Hnp Hl' ltac:(lia)). f_equal. apply bool_decide_ext.
    rewrite elem_of_cons. naive_solver.
  - done.
Qed.

Lemma is_descendant_of_spec {E} i n anc : nodes a !! i = Some n → user_id n ≠ nil_uuid →
  ∃ l, up_path a parent (parent n) l ∧
  @is_descendant_of E a i anc = Ok (bool_decide (anc ∈ l)).
Proof.
  intros Hi Hl. destruct (upline_exists i n Hi Hl) as (l & Hup & _). exists l. split; [done|].
  unfold is_descendant_of. case_bool_decide as Heq.
  - subst. rewrite bool_decide_eq_false_2; [done|].
    assert (NoDup (anc :: l)) as [? _]%NoDup_cons; [|done].
    apply (up_path_nodup a parent (Some anc)). by econstructor.
  - eapply descendant_loop_spec; eauto. pose proof (up_path_length _ _ _ _ Hup). unfold loop_fuel. lia.
Qed.
End uplines.

(** ** Breadth-first search *)

Definition depth_at (a : Arena) (i : NodeIndex) : N := from_option depth 0%N (nodes a !! i).

(** The slots a search from [roots] visits: a visited node's children follow
    when the node is above the depth limit. *)
Section reach.
Context (a : Arena) (start_depth limit : N) (roots : list NodeIndex).

Definition expands (n : Node) : Prop := limit = 0%N ∨ (depth n - start_depth < limit)%N.

Inductive reach : NodeIndex → Prop :=
| reach_root i : i ∈ roots → reach i
| reach_child i n c : reach i → nodes a !! i = Some n → expands n → c ∈ children n → reach c.
End reach.

Section bfs.
Context (a : Arena) (Hwf : arena_wf a) (start_depth limit level : N) (roots : list NodeIndex).
(** The roots are distinct live nodes of one level, below the start. *)
Context (Hnd : NoDup roots) (Hlevel : (start_depth ≤ level)%N).
Context (Hroots : ∀ i, i ∈ roots → ∃ n, nodes a !! i = Some n ∧ depth n = level).

(** [visited ++ queue] between two turns of the loop. *)
Record frontier (visited queue : list NodeIndex) : Prop := {
  fr_nodup : NoDup (visited ++ queue);
  fr_reach i : i ∈ visited ++ queue → reach a start_depth limit roots i;
  fr_level i n : i ∈ visited ++ queue → nodes a !! i = Some n → (level ≤ depth n)%N;
  fr_live : in_arena a (visited ++ queue);
  fr_roots i : i ∈ roots → i ∈ visited ++ queue;
  fr_closed i n c : i ∈ visited → nodes a !! i = Some n → expands start_depth limit n →
  c ∈ children n → c ∈ visited ++ queue;
  fr_parent i n : i ∈ visited ++ queue → nodes a !! i = Some n →
  i ∈ roots ∨ ∃ p, parent n = Some p ∧ p ∈ visited;
  fr_sorted : StronglySorted (λ i j, (depth_at a i ≤ depth_at a j)%N) (visited ++ queue);
  fr_band i j : i ∈ queue → j ∈ visited ++ queue → (depth_at a j ≤ depth_at a i + 1)%N;
}.

Lemma depth_at_node i n : nodes a !! i = Some n → depth_at a i = depth n.
Proof. intros H. unfold depth_at. by rewrite H. Qed.

Lemma frontier_init : frontier [] roots.
Proof.
  assert (Hd : ∀ i, i ∈ roots → depth_at a i = level).
  { intros i Hi. destruct (Hroots i Hi) as (n & Hn & <-). by apply depth_at_node. }
  split; simpl.
  - done.
  - by constructor.
  - intros i n Hi Hn. destruct (Hroots i Hi) as (? & ? & ?). simplify_eq. lia.
  - intros i Hi. destruct (Hroots i Hi) as (? & ? & ?). eauto.
  - done.
  - by intros i n c ?%elem_of_nil.
  - by left.
  - clear -Hd. induction roots as [|i l IH]; [constructor|]. constructor.
  + apply IH. intros j Hj. apply Hd. by right.
  + apply Forall_forall. intros j Hj. rewrite (Hd i), (Hd j); [done|by right|left].
  - intros i j Hi Hj. rewrite (Hd i Hi), (Hd j Hj). lia.
Qed.

(** Taking the head of the queue, its children appended when it expands. *)
Section step.
Context (visited queue ch : list NodeIndex) (i : NodeIndex) (n : Node).
Context (F : frontier visited (i :: queue)) (Hi : nodes a !! i = Some n).
Context (Hch : (ch = children n ∧ expands start_depth limit n) ∨
   (ch = [] ∧ ¬ expands start_depth limit n)).

Lemma step_sub c : c ∈ ch → c ∈ children n ∧ expands start_depth limit n.
Proof. destruct Hch as [[-> ?]|[-> ?]]; [done|by intros ?%elem_of_nil]. Qed.

Lemma step_child c : c ∈ ch →
  ∃ nc, nodes a !! c = Some nc ∧ parent nc = Some i ∧ depth nc = (depth n + 1)%N.
Proof.
  intros [Hc _]%step_sub. destruct (wf_children a Hwf i n c Hi Hc) as (nc & Hnc & Hp).
  destruct (wf_depth a Hwf c nc i n Hnc Hp Hi). eauto.
Qed.

Lemma step_head : i ∈ visited ++ i :: queue.
Proof. apply elem_of_app. right. left. Qed.

(** The children are new: their parent was not visited before. *)
Lemma step_new c : c ∈ ch → c ∉ visited ++ i :: queue.
Proof.
  intros Hc Hc'. destruct (step_child c Hc) as (nc & Hnc & Hp & Hdc).
  destruct (fr_parent _ _ F c nc Hc' Hnc) as [Hr|(p & Hp' & Hpv)].
  - destruct (Hroots c Hr) as (m & Hm & Hlev). assert (m = nc) as -> by congruence.
    pose proof (fr_level _ _ F i n step_head Hi). lia.
  - assert (p = i) as -> by congruence.
    pose proof (fr_nodup _ _ F) as (_ & Hdis & _)%NoDup_app. apply (Hdis i Hpv). left.
Qed.

Lemma step_eq : (visited ++ [i]) ++ queue ++ ch = (visited ++ i :: queue) ++ ch.
Proof. rewrite <- !app_assoc. done. Qed.

Lemma step_depth c : c ∈ ch → depth_at a c = (depth_at a i + 1)%N.
Proof.
  intros Hc. destruct (step_child c Hc) as (nc & Hnc & _ & Hd).
  rewrite (depth_at_node c nc Hnc), (depth_at_node i n Hi). lia.
Qed.

Lemma step_sorted :
  StronglySorted (λ i j, (depth_at a i ≤ depth_at a j)%N) ((visited ++ i :: queue) ++ ch).
Proof.
  apply StronglySorted_app_2; [|apply (fr_sorted _ _ F)|].
  - intros x c Hx Hc. rewrite (step_depth c Hc). apply (fr_band _ _ F); [left|done].
  - pose proof step_depth as Hdc. clear -Hdc. induction ch as [|c l IH]; [constructor|]. constructor.
  + apply IH. intros j Hj. apply Hdc. by right.
  + apply Forall_forall. intros j Hj. rewrite (Hdc c), (Hdc j); [done|by right|left].
Qed.

Lemma step_band x y : x ∈ queue ++ ch → y ∈ (visited ++ i :: queue) ++ ch →
  (depth_at a y ≤ depth_at a x + 1)%N.
Proof.
  assert (Hq : ∀ x, x ∈ queue → (depth_at a i ≤ depth_at a x)%N).
  { intros z Hz. pose proof (fr_sorted _ _ F) as Hs. apply StronglySorted_app_1_r in Hs.
  apply StronglySorted_inv in Hs as [_ Hs]. rewrite Forall_forall in Hs. by apply Hs. }
  assert (Hb : ∀ y, y ∈ visited ++ i :: queue → (depth_at a y ≤ depth_at a i + 1)%N).
  { intros z Hz. apply (fr_band _ _ F); [left|done]. }
  intros [Hx|Hx]%elem_of_app [Hy|Hy]%elem_of_app; rewrite ?(step_depth x Hx), ?(step_depth y Hy).
  - apply (fr_band _ _ F); [by right|done].
  - specialize (Hq x Hx). lia.
  - specialize (Hb y Hy). lia.
  - lia.
Qed.

Lemma frontier_step : frontier (visited ++ [i]) (queue ++ ch).
Proof.
  pose proof F as [F1 F2 F3 F4 F5 F6 F7 F8 F9].
  split; rewrite ?step_eq; try exact step_sorted; try exact step_band.
  - apply NoDup_app. split_and!; [done|intros c H1 H2; by eapply step_new|].
    destruct Hch as [[-> ?]|[-> ?]]; [by eapply wf_children_nodup|constructor].
  - intros c [Hc|Hc]%elem_of_app; [by apply F2|]. destruct (step_sub c Hc) as [? ?].
    eapply reach_child; eauto using step_head.
  - intros c nc [Hc|Hc]%elem_of_app Hnc; [by eapply F3|].
    destruct (step_child c Hc) as (m & Hm & _ & ?). assert (m = nc) as -> by congruence.
    pose proof (F3 i n step_head Hi). lia.
  - intros c [Hc|Hc]%elem_of_app; [by apply F4|]. destruct (step_child c Hc) as (? & ? & ?). eauto.
  - intros c Hc. apply elem_of_app. left. by apply F5.
  - intros j m c [Hj|Hj]%elem_of_app Hm Hex Hc; apply elem_of_app.
    + left. by eapply F6.
    + apply list_elem_of_singleton in Hj as ->. assert (m = n) as -> by congruence.
      right. by destruct Hch as [[-> ?]|[-> ?]].
  - intros j m [Hj|Hj]%elem_of_app Hm.
    + destruct (F7 j m Hj Hm) as [?|(p & ? & ?)]; [by left|right]. exists p. split; [done|].
      apply elem_of_app. by left.
    + right. exists i. destruct (step_child j Hj) as (m' & ? & ? & ?).
      assert (m' = m) as -> by congruence. split; [done|].
      apply elem_of_app. right. by apply list_elem_of_singleton.
Qed.
End step.

(** When the queue is empty every reachable slot has been visited. *)
Lemma frontier_done visited i : frontier visited [] → reach a start_depth limit roots i → i ∈ visited.
Proof.
  intros F Hr. rewrite <- (app_nil_r visited).
  induction Hr as [i Hi|i n c Hr IH Hi Hex Hc]; [by eapply fr_roots|].
  rewrite app_nil_r in IH. by eapply fr_closed.
Qed.

Lemma bfs_loop_frontier {E} fuel visited queue : frontier visited queue →
  length (nodes a) < fuel + length visited →
  ∃ visited', frontier visited' [] ∧
  @bfs_loop E fuel a start_depth limit queue (at_slots a visited) = Ok (at_slots a visited').
Proof.
  revert visited queue. induction fuel as [|fuel IH]; intros visited queue F Hf.
  { pose proof (nodup_in_arena a _ (fr_nodup _ _ F) (fr_live _ _ F)) as Hlen.
    rewrite length_app in Hlen. lia. }
  destruct queue as [|i queue]; [by exists visited|].
  destruct (fr_live _ _ F i) as [n Hi]; [apply elem_of_app; right; left|].
  cbn [bfs_loop]. rewrite (slot_ok a i n Hi). cbn [mbind outcome_bind]. unfold u32_sub.
  pose proof (fr_level _ _ F i n (step_head _ _ i) Hi) as Hlev.
  destruct (N.leb_spec start_depth (depth n)); [|lia]. cbn [mbind outcome_bind].
  rewrite <- (at_slots_snoc a i n visited Hi).
  destruct ((limit =? 0) || (depth n - start_depth <? limit))%N eqn:Hex.
  - apply IH; [|rewrite length_app; simpl; lia]. eapply frontier_step; eauto. left. split; [done|].
    apply orb_true_iff in Hex as [?%N.eqb_eq|?%N.ltb_lt]; unfold expands; eauto.
  - rewrite <- (app_nil_r queue). apply IH; [|rewrite length_app; simpl; lia].
    eapply frontier_step; eauto. right. split; [done|].
    apply orb_false_iff in Hex as [?%N.eqb_neq ?%N.ltb_ge]. unfold expands. lia.
Qed.

(** The search returns the reachable slots, each once, by increasing depth. *)
Lemma bfs_loop_spec {E} : ∃ l,
  @bfs_loop E (loop_fuel a) a start_depth limit roots [] = Ok (at_slots a l) ∧
  NoDup l ∧ in_arena a l ∧ (∀ i, i ∈ l ↔ reach a start_depth limit roots i) ∧
  StronglySorted (λ i j, (depth_at a i ≤ depth_at a j)%N) l.
Proof.
  destruct (bfs_loop_frontier (E := E) (loop_fuel a) [] roots frontier_init) as (l & F & Hrun).
  { unfold loop_fuel. simpl. lia. }
  exists l. pose proof (fr_nodup _ _ F) as H1. pose proof (fr_live _ _ F) as H2.
  pose proof (fr_sorted _ _ F) as H3. pose proof (fr_reach _ _ F) as H4.
  rewrite app_nil_r in H1, H2, H3, H4. split_and!; try done.
  intros i. split; [apply H4|by apply frontier_done].
Qed.
End bfs.

(** ** Descendants *)

(** [j] is a strict descendant of [i]: [i] is on the chain of parents above it. *)
Definition below (a : Arena) (i j : NodeIndex) : Prop :=
  ∃ n l, nodes a !! j = Some n ∧ up_path a parent (parent n) l ∧ i ∈ l.

(** The counting loops count what the collecting loops collect. *)
Lemma count_loop_bfs {E} fuel a sd limit queue res :
  @count_loop E fuel a sd limit queue (length res) = length <$> bfs_loop fuel a sd limit queue res.
Proof.
  revert queue res. induction fuel as [|fuel IH]; intros queue res; [done|].
  destruct queue as [|i queue]; [done|]. cbn [count_loop bfs_loop].
  destruct (slot a i) as [n| | |]; [|done..]. cbn [mbind outcome_bind].
  destruct (u32_sub (depth n) sd); [|done..]. cbn [mbind outcome_bind].
  rewrite <- IH, length_app. done.
Qed.

Lemma branch_count_loop_subtree {E} fuel a queue res :
  @branch_count_loop E fuel a queue (length res) =
  length <$> subtree_loop fuel a (slot a) queue res.
Proof.
  revert queue res. induction fuel as [|fuel IH]; intros queue res; [done|].
  destruct queue as [|i queue]; [done|]. cbn [branch_count_loop subtree_loop].
  destruct (slot a i) as [n| | |]; [|done..]. cbn [mbind outcome_bind].
  rewrite <- IH, length_app. done.
Qed.

(** An unlimited search measured from depth zero is the subtree loop. *)
Lemma subtree_loop_bfs {E} fuel a queue res :
  subtree_loop fuel a (@slot E a) queue res = bfs_loop fuel a 0 0 queue res.
Proof.
  revert queue res. induction fuel as [|fuel IH]; intros queue res; [done|].
  destruct queue as [|i queue]; [done|]. cbn [subtree_loop bfs_loop].
  destruct (slot a i) as [n| | |]; [|done..]. cbn [mbind outcome_bind]. unfold u32_sub.
  destruct (N.leb_spec 0 (depth n)); [|lia]. cbn [mbind outcome_bind]. apply IH.
Qed.

Section downlines.
Context (a : Arena) (Hwf : arena_wf a).

Lemma below_live i j : below a i j → ∃ n, nodes a !! j = Some n ∧ user_id n ≠ nil_uuid.
Proof.
  intros (n & l & Hn & Hl & Hi). exists n. split; [done|]. intros Hnil.
  destruct (wf_tomb a Hwf j n Hn Hnil) as (Hp & _). rewrite Hp in Hl. inversion Hl; subst.
  by apply elem_of_nil in Hi.
Qed.

Lemma below_child i n c : nodes a !! i = Some n → c ∈ children n → below a i c.
Proof.
  intros Hi Hc. destruct (wf_child_live a Hwf i n c Hi Hc) as (nc & Hnc & Hp & Hl).
  destruct (upline_exists a Hwf c nc Hnc Hl) as (l & Hup & _). exists nc, l.
  split_and!; [done..|]. rewrite Hp in Hup. inversion Hup; subst. left.
Qed.

Lemma below_step i j n c : below a i j → nodes a !! j = Some n → c ∈ children n → below a i c.
Proof.
  intros (n' & l & Hn & Hl & Hin) Hn' Hc. assert (n' = n) as -> by congruence.
  destruct (wf_child_live a Hwf j n c Hn' Hc) as (nc & Hnc & Hp & _).
  exists nc, (j :: l). split_and!; [done| |by right]. rewrite Hp. by econstructor.
Qed.

(** A descendant is a child, or below a child's parent that is a descendant. *)
Lemma below_inv i j : below a i j → ∃ n p np, nodes a !! j = Some n ∧ parent n = Some p ∧
  nodes a !! p = Some np ∧ j ∈ children np ∧ depth n = (depth np + 1)%N ∧ (p = i ∨ below a i p).
Proof.
  intros (n & l & Hn & Hl & Hin). inversion Hl as [Hp|p np l' Hnp Hl' Hp]; subst.
  { by apply elem_of_nil in Hin. }
  symmetry in Hp. destruct (wf_parent a Hwf j n p Hn Hp) as (np' & ? & Hj).
  assert (np' = np) as -> by congruence. destruct (wf_depth a Hwf j n p np Hn Hp Hnp) as [Hd _].
  exists n, p, np. split_and!; [done..|]. apply elem_of_cons in Hin as [->|Hin]; [by left|].
  right. by exists np, l'.
Qed.

Lemma below_depth i ni j nj : nodes a !! i = Some ni → below a i j → nodes a !! j = Some nj →
  (depth ni < depth nj)%N.
Proof.
  intros Hi Hb Hj. remember (depth nj) as d eqn:Hd. revert j nj Hd Hb Hj.
  induction (N.lt_wf_0 d) as [d _ IH]. intros j nj -> Hb Hj.
  destruct (below_inv i j Hb) as (n & p & np & Hn & Hp & Hnp & _ & Hd & [->|Hb']); simplify_eq; [lia|].
  pose proof (IH (depth np) ltac:(lia) p np eq_refl Hb' Hnp). lia.
Qed.

(** The search from a node's children reaches its descendants within the limit. *)
Lemma reach_below i n limit j : nodes a !! i = Some n →
  reach a (depth n) limit (children n) j ↔
  below a i j ∧ (limit = 0%N ∨ (depth_at a j - depth n ≤ limit)%N).
Proof.
  intros Hi. split.
  - induction 1 as [c Hc|x m c Hx [IH1 IH2] Hm Hex Hc].
    + split; [by eapply below_child|]. destruct (wf_children a Hwf i n c Hi Hc) as (nc & Hnc & Hp).
      destruct (wf_depth a Hwf c nc i n Hnc Hp Hi) as [Hd _]. rewrite (depth_at_node a c nc Hnc). lia.
    + split; [by eapply below_step|]. destruct (wf_children a Hwf x m c Hm Hc) as (nc & Hnc & Hp).
      destruct (wf_depth a Hwf c nc x m Hnc Hp Hm) as [Hd _]. rewrite (depth_at_node a c nc Hnc).
      unfold expands in Hex. lia.
  - intros [Hb Hlim]. destruct (below_live i j Hb) as (nj & Hj & _).
    rewrite (depth_at_node a j nj Hj) in Hlim. remember (depth nj) as d eqn:Hd. revert j nj Hd Hb Hj Hlim.
    induction (N.lt_wf_0 d) as [d _ IH]. intros j nj -> Hb Hj Hlim.
    destruct (below_inv i j Hb) as (n' & p & np & Hn & Hp & Hnp & Hin & Hd & Hor); simplify_eq.
    destruct Hor as [->|Hb']; [simplify_eq; by apply reach_root|].
    pose proof (below_depth i n p np Hi Hb' Hnp).
    eapply reach_child; [eapply (IH (depth np)); try done; lia|done| |done]. unfold expands. lia.
Qed.

Lemma bfs_downline_spec {E} i n limit : nodes a !! i = Some n → ∃ l,
  @bfs_downline E a i limit = Ok (at_slots a l) ∧ @count_downline E a i limit = Ok (length l) ∧
  NoDup l ∧ (∀ j, j ∈ l ↔ below a i j ∧ (limit = 0%N ∨ (depth_at a j - depth n ≤ limit)%N)) ∧
  StronglySorted (λ i j, (depth_at a i ≤ depth_at a j)%N) l.
Proof.
  intros Hi. unfold bfs_downline, count_downline. rewrite !(slot_ok a i n Hi). cbn [mbind outcome_bind].
  pose proof (wf_children_nodup a Hwf i n Hi) as Hnd0.
  assert (Hroots : ∀ c, c ∈ children n → ∃ m, nodes a !! c = Some m ∧ depth m = (depth n + 1)%N).
  { intros c Hc. destruct (wf_children a Hwf i n c Hi Hc) as (nc & Hnc & Hp). exists nc. split; [done|].
    apply (wf_depth a Hwf c nc i n Hnc Hp Hi). }
  destruct (bfs_loop_spec a Hwf (depth n) limit (depth n + 1) (children n) Hnd0 ltac:(lia) Hroots (E := E))
    as (l & Hrun & Hnd & Hin & Hmem & Hs).
  exists l. split_and!; try done.
  - change 0%nat with (length (A := Node) []). rewrite count_loop_bfs, Hrun. simpl.
    by rewrite at_slots_length.
  - intros j. rewrite Hmem. by apply reach_below.
Qed.

(** A branch: one child and everything below it. *)
Lemma branch_spec {E} b nb : nodes a !! b = Some nb → ∃ l,
  subtree_loop (loop_fuel a) a (@slot E a) [b] [] = Ok (at_slots a l) ∧
  @branch_count_loop E (loop_fuel a) a [b] 0 = Ok (length l) ∧
  NoDup l ∧ (∀ j, j ∈ l ↔ j = b ∨ below a b j) ∧
  StronglySorted (λ i j, (depth_at a i ≤ depth_at a j)%N) l.
Proof.
  intros Hb.
  assert (Hroots : ∀ c, c ∈ [b] → ∃ m, nodes a !! c = Some m ∧ depth m = depth nb)
    by (intros c ->%list_elem_of_singleton; eauto).
  destruct (bfs_loop_spec a Hwf 0 0 (depth nb) [b] (NoDup_singleton b) ltac:(lia) Hroots (E := E))
    as (l & Hrun & Hnd & Hin & Hmem & Hs).
  exists l. change 0%nat with (length (A := Node) []).
  rewrite branch_count_loop_subtree, subtree_loop_bfs, Hrun. simpl. rewrite at_slots_length by done.
  split_and!; try done. intros j. rewrite Hmem. split.
  - induction 1 as [c ->%list_elem_of_singleton|x m c Hx IH Hm Hex Hc]; [by left|right].
    destruct IH as [->|IH]; [by eapply below_child|by eapply below_step].
  - intros [->|Hj]; [by apply reach_root, list_elem_of_singleton|].
    assert (Hr : reach a (depth nb) 0 (children nb) j) by (apply (reach_below b nb 0 j Hb); by split; [|left]).
    clear Hj. induction Hr as [c Hc|x m c Hx IH Hm Hex Hc].
    + eapply reach_child; [apply reach_root, list_elem_of_singleton; done|exact Hb|by left|done].
    + eapply reach_child; [exact IH|exact Hm|by left|done].
Qed.
End downlines.

(** ** The public queries *)

Lemma root_last a i n l : arena_wf a → nodes a !! i = Some n → user_id n ≠ nil_uuid →
  up_path a parent (parent n) l → last (i :: l) = root a.
Proof.
  intros Hwf Hi Hl Hup. remember (parent n) as o eqn:Ho. revert i n Hi Hl Ho.
  induction Hup as [|p np l Hnp Hup IH]; intros i n Hi Hl Ho.
  - simpl. destruct (root a) as [r|] eqn:Hr; [|by destruct Hl; eapply wf_rootless].
    f_equal. by eapply wf_root_unique.
  - rewrite last_cons_cons. destruct (wf_parent_live a Hwf i n p Hi (eq_sym Ho)) as (np' & ? & _ & Hpl).
    assert (np' = np) as -> by congruence. by eapply IH.
Qed.

(** [get_upline] of an enrolled user returns, for every depth limit, the
    chain of its ancestors from its parent to the root, cut at the limit (0 cuts
    nothing): it has one entry per level above the user, repeats nobody and ends
    at the root. *)
Theorem get_upline_exact a u i n limit : arena_wf a → index a !! u = Some i → nodes a !! i = Some n →
  ∃ l, Query.get_upline a u limit = Ok (at_slots a (cut limit l)) ∧
    up_path a parent (parent n) l ∧ NoDup (i :: l) ∧ N.of_nat (length l) = depth n ∧
    last (i :: l) = root a.
Proof.
  intros Hwf Hu Hi. destruct (resolve_live a Hwf u i Hu) as (n' & Hi' & ? & ?).
  assert (n' = n) as -> by congruence.
  destruct (walk_upline_spec (E := TreeError) a Hwf i n limit Hi ltac:(congruence)) as (l & Hup & Hlen & Hrun).
  exists l. unfold Query.get_upline. rewrite (resolve_ok a u i Hu). cbn [mbind outcome_bind].
  split_and!; [done|done| |done|].
  - apply (up_path_nodup a parent (Some i)). by econstructor.
  - eapply root_last; eauto. congruence.
Qed.

(** [get_downline] returns exactly the strict descendants within the depth
    limit (0 for all), each once and by increasing depth, and [count_downline]
    counts them. *)
Theorem get_downline_exact a u i n limit : arena_wf a → index a !! u = Some i → nodes a !! i = Some n →
  ∃ l, Query.get_downline a u limit = Ok (at_slots a l) ∧
    Query.count_downline a u limit = Ok (length l) ∧ NoDup l ∧
    (∀ j, j ∈ l ↔ below a i j ∧ (limit = 0%N ∨ (depth_at a j - depth n ≤ limit)%N)) ∧
    StronglySorted (λ i j, (depth_at a i ≤ depth_at a j)%N) l.
Proof.
  intros Hwf Hu Hi. unfold Query.get_downline, Query.count_downline. rewrite (resolve_ok a u i Hu).
  exact (bfs_downline_spec a Hwf i n limit Hi).
Qed.

(** The sponsor upline terminates on every well-formed arena of at most
    2^32 - 1 slots and is the chain of sponsors, with nobody in it twice. *)
Theorem get_sponsor_upline_exact a u i n limit : arena_wf a → index a !! u = Some i →
  nodes a !! i = Some n → (N.of_nat (length (nodes a)) ≤ u32_max)%N →
  ∃ l, Query.get_sponsor_upline a u limit = Ok (at_slots a (cut limit l)) ∧
    up_path a sponsor (sponsor n) l ∧ NoDup (i :: l).
Proof.
  intros Hwf Hu Hi Hlen. destruct (resolve_live a Hwf u i Hu) as (n' & Hi' & ? & ?).
  assert (n' = n) as -> by congruence.
  destruct (walk_sponsor_upline_spec (E := TreeError) a Hwf i n limit Hi ltac:(congruence) Hlen)
    as (l & Hup & Hrun).
  exists l. unfold Query.get_sponsor_upline. rewrite (resolve_ok a u i Hu). cbn [mbind outcome_bind].
  split_and!; [done|done|]. apply (up_path_nodup a sponsor (Some i)). by econstructor.
Qed.

(** The three traversals agree: for enrolled users [v] and [u],
    [is_descendant_of v u] answers, and it answers true exactly when [v] is in
    [u]'s downline and exactly when [u] is in [v]'s upline. *)
Theorem descendant_queries_agree a u v iu iv : arena_wf a →
  index a !! u = Some iu → index a !! v = Some iv →
  ∃ b down up, Query.is_descendant_of a v u = Ok b ∧ Query.get_downline a u 0 = Ok down ∧
    Query.get_upline a v 0 = Ok up ∧
    (b = true ↔ v ∈ user_id <$> down) ∧ (b = true ↔ u ∈ user_id <$> up).
Proof.
  intros Hwf Hu Hv. destruct (resolve_live a Hwf u iu Hu) as (nu & Hnu & Eu & Hul).
  destruct (resolve_live a Hwf v iv Hv) as (nv & Hnv & Ev & Hvl).
  destruct (walk_upline_spec (E := TreeError) a Hwf iv nv 0 Hnv ltac:(congruence)) as (up & Hup & _ & Hrun).
  destruct (bfs_downline_spec (E := TreeError) a Hwf iu nu 0 Hnu) as (down & Hdown & _ & _ & Hmem & _).
  assert (Huniq : ∀ w iw l, index a !! w = Some iw → w ∈ user_id <$> at_slots a l ↔ iw ∈ l).
  { intros w iw l Hw. destruct (resolve_live a Hwf w iw Hw) as (nw & Hnw & Ew & Hwl).
    unfold at_slots. rewrite list_elem_of_fmap. setoid_rewrite list_elem_of_omap. split.
    - intros (x & Hx & j & Hj & Hjx). assert (index a !! w = Some j) as Hwj.
      { rewrite Hx. apply (live_indexed a Hwf j x Hjx). congruence. }
      congruence.
    - intros Hin. exists nw. eauto. }
  assert (Hb : below a iu iv ↔ iu ∈ up).
  { split; [|by exists nv, up]. intros (m & l & Hm & Hl & Hin). assert (m = nv) as -> by congruence.
    by rewrite (up_path_det _ _ _ _ _ Hup Hl). }
  exists (bool_decide (iu ∈ up)), (at_slots a down), (at_slots a up).
  unfold Query.is_descendant_of, Query.get_downline, Query.get_upline.
  rewrite (resolve_ok a u iu Hu), (resolve_ok a v iv Hv). cbn [mbind outcome_bind].
  rewrite (Huniq v iv down Hv), (Huniq u iu up Hu), Hmem, bool_decide_eq_true. split_and!; [|done|done|naive_solver|done].
  destruct (is_descendant_of_spec (E := TreeError) a Hwf iv nv iu Hnv ltac:(congruence)) as (l & Hl & Hd).
  rewrite (up_path_det _ _ _ _ _ Hup Hl). destruct (bool_decide_reflect (v = u)) as [Heq|_]; [|done].
  assert (iu = iv) as -> by congruence. rewrite bool_decide_eq_false_2; [done|].
  assert (NoDup (iv :: l)) as [? _]%NoDup_cons; [|done].
  apply (up_path_nodup a parent (Some iv)). by econstructor.
Qed.

(** A branch starts with its own root. *)
Lemma branch_head {E} a c nc : arena_wf a → nodes a !! c = Some nc → ∃ l,
  subtree_loop (loop_fuel a) a (@slot E a) [c] [] = Ok (at_slots a (c :: l)) ∧
  @branch_count_loop E (loop_fuel a) a [c] 0 = Ok (S (length l)) ∧
  NoDup (c :: l) ∧ ∀ j, j ∈ l ↔ below a c j.
Proof.
  intros Hwf Hnc. destruct (branch_spec (E := E) a Hwf c nc Hnc) as (l & -> & -> & Hnd & Hmem & Hs).
  assert (Hself : ¬ below a c c).
  { intros Hb. pose proof (below_depth a Hwf c nc c nc Hnc Hb Hnc). lia. }
  assert (∃ l', l = c :: l') as [l' ->].
  { destruct l as [|x l']; [by destruct (not_elem_of_nil c); apply Hmem; left|]. exists l'. f_equal.
    assert (x ∈ x :: l') as [->|Hx]%Hmem by left; [done|].
    assert (c ∈ x :: l') as [->|Hcl]%elem_of_cons by (apply Hmem; by left); [done|].
    apply StronglySorted_inv in Hs as [_ Hs]. rewrite Forall_forall in Hs. specialize (Hs c Hcl).
    destruct (below_live a Hwf c x Hx) as (nx & Hnx & _).
    pose proof (below_depth a Hwf c nc x nx Hnc Hx Hnx).
    rewrite (depth_at_node a x nx Hnx), (depth_at_node a c nc Hnc) in Hs. lia. }
  exists l'. split_and!; try done. intros j. split.
  - intros Hj. assert (j ∈ c :: l') as [->|Hb]%Hmem by (by right); [|done].
    apply NoDup_cons in Hnd as [? _]. done.
  - intros Hb. assert (j ∈ c :: l') as [->|?]%elem_of_cons by (apply Hmem; by right); done.
Qed.

(** [get_branch] at an occupied position returns the child there and all its
    descendants, each once, the child first; [count_branch] counts them; a
    position past the children is refused with the number of children. *)
Theorem get_branch_exact a i n k : arena_wf a → nodes a !! i = Some n →
  match children n !! k with
  | None => get_branch a i k = Err (PositionOutOfRange (user_id n) k (length (children n))) ∧
            count_branch a i k = Err (PositionOutOfRange (user_id n) k (length (children n)))
  | Some c => ∃ l, get_branch a i k = Ok (at_slots a (c :: l)) ∧ count_branch a i k = Ok (S (length l)) ∧
      NoDup (c :: l) ∧ ∀ j, j ∈ l ↔ below a c j
  end.
Proof.
  intros Hwf Hi. unfold get_branch, count_branch, branch_root. rewrite !(slot_ok a i n Hi).
  cbn [mbind outcome_bind]. destruct (children n !! k) as [c|] eqn:Hc; [|done]. cbn [mbind outcome_bind].
  destruct (wf_children a Hwf i n c Hi (list_elem_of_lookup_2 _ _ _ Hc)) as (nc & Hnc & _).
  exact (branch_head (E := TreeError) a c nc Hwf Hnc).
Qed.

(** ** Positions *)

Lemma index_of_elem i l : i ∈ l → ∃ k, index_of i l = Some k ∧ l !! k = Some i.
Proof.
  intros Hi. unfold index_of. destruct (list_find_elem_of (λ c, c = i) l i Hi eq_refl) as [[k x] Hf].
  rewrite Hf. apply list_find_Some in Hf as (Hk & -> & _). by exists k.
Qed.

Section positions.
Context (a : Arena) (Hwf : arena_wf a).

Lemma count_subtree_ok {E} c nc : nodes a !! c = Some nc →
  ∃ l, @count_subtree E a c = Ok (length l) ∧ NoDup l ∧ ∀ j, j ∈ l ↔ below a c j.
Proof.
  intros Hc. destruct (bfs_downline_spec (E := E) a Hwf c nc 0 Hc) as (l & _ & Hcount & Hnd & Hmem & _).
  exists l. split_and!; [exact Hcount|done|]. intros j. rewrite Hmem. naive_solver.
Qed.

Lemma child_counts_ok {E} l pos m : (∀ c, c ∈ l → is_Some (nodes a !! c)) →
  ∃ m', @child_counts E a pos l m = Ok m' ∧
  (∀ j c, l !! j = Some c → ∃ k, m' !! (pos + j) = Some k ∧ @count_subtree E a c = Ok k) ∧
  (∀ j, (j < pos ∨ pos + length l ≤ j) → m' !! j = m !! j).
Proof.
  revert pos m. induction l as [|c l IH]; intros pos m Hl; simpl.
  { exists m. split_and!; [done|by intros j c|done]. }
  destruct (Hl c) as [nc Hc]; [left|]. destruct (count_subtree_ok (E := E) c nc Hc) as (k & Hk & _).
  rewrite Hk. cbn [mbind outcome_bind].
  destruct (IH (S pos) (<[pos := length k]> m)) as (m' & -> & H1 & H2).
  { intros x Hx. apply Hl. by right. }
  exists m'. split_and!; [done| |].
  - intros [|j] x Hx; simpl in Hx.
    + simplify_eq. exists (length k). split; [|done]. rewrite Nat.add_0_r, H2 by lia. apply lookup_insert_eq.
    + destruct (H1 j x Hx) as (r & Hr & ?). exists r. split; [|done].
      replace (pos + S j) with (S pos + j) by lia. done.
  - intros j Hj. rewrite H2 by lia. apply lookup_insert_ne. lia.
Qed.

Lemma get_position_ok {E} i n : nodes a !! i = Some n → user_id n ≠ nil_uuid →
  ∃ tp, @get_position E a i = Ok tp ∧
  tp_user_id tp = user_id n ∧ tp_depth tp = depth n ∧ tp_child_count tp = length (children n) ∧
  tp_parent_user_id tp = (λ p, from_option user_id nil_uuid (nodes a !! p)) <$> parent n ∧
  tp_sponsor_user_id tp = (λ p, from_option user_id nil_uuid (nodes a !! p)) <$> sponsor n ∧
  tp_enrolled_at tp = enrolled_at n ∧
  (∀ p np, parent n = Some p → nodes a !! p = Some np → children np !! tp_position tp = Some i) ∧
  (parent n = None → tp_position tp = 0) ∧
  (∀ k c, children n !! k = Some c →
  ∃ r, tp_downline_counts tp !! k = Some r ∧ @count_subtree E a c = Ok r) ∧
  (∀ k, length (children n) ≤ k → tp_downline_counts tp !! k = None).
Proof.
  intros Hi Hl. unfold get_position. rewrite (slot_ok a i n Hi). cbn [mbind outcome_bind].
  destruct (child_counts_ok (E := E) (children n) 0 ∅) as (m & Hm & H1 & H2).
  { intros c Hc. destruct (wf_children a Hwf i n c Hi Hc) as (? & ? & _). eauto. }
  assert (Hpar : (match parent n with None => Ok None | Some p => np ← slot a p; Ok (Some (user_id np)) end)
  = Ok (E := E) ((λ p, from_option user_id nil_uuid (nodes a !! p)) <$> parent n)).
  { destruct (parent n) as [p|] eqn:Hp; [|done]. destruct (wf_parent a Hwf i n p Hi Hp) as (np & Hnp & _).
  rewrite (slot_ok a p np Hnp). simpl. by rewrite Hnp. }
  assert (Hspo : (match sponsor n with None => Ok None | Some p => np ← slot a p; Ok (Some (user_id np)) end)
  = Ok (E := E) ((λ p, from_option user_id nil_uuid (nodes a !! p)) <$> sponsor n)).
  { destruct (sponsor n) as [p|] eqn:Hp; [|done]. destruct (wf_sponsor a Hwf i n p Hi Hp) as (np & Hnp & _).
  rewrite (slot_ok a p np Hnp). simpl. by rewrite Hnp. }
  assert (Hpos : ∃ k, (match parent n with None => Ok 0 | Some p => np ← slot a p; expect (index_of i (children np)) end)
  = Ok (E := E) k ∧ (∀ p np, parent n = Some p → nodes a !! p = Some np → children np !! k = Some i) ∧
  (parent n = None → k = 0)).
  { destruct (parent n) as [p|] eqn:Hp; [|exists 0; by split_and!].
  destruct (wf_parent a Hwf i n p Hi Hp) as (np & Hnp & Hin). rewrite (slot_ok a p np Hnp). simpl.
  destruct (index_of_elem i (children np) Hin) as (k & -> & Hk). exists k.
  split_and!; [done| |done]. intros q nq [= <-] Hnq. congruence. }
  destruct Hpos as (k & Hk & Hk1 & Hk2). rewrite Hpar, Hspo. cbn [mbind outcome_bind].
  rewrite Hk. cbn [mbind outcome_bind]. rewrite Hm. cbn [mbind outcome_bind].
  eexists. split; [done|]. simpl. split_and!; try done.
  intros j Hj. rewrite H2 by lia. apply lookup_empty.
Qed.

(** The subtree loop that reads through [Arena::node] finds live slots only. *)
Lemma subtree_loop_node {E} fuel queue res :
  (∀ i, i ∈ queue → ∃ n, nodes a !! i = Some n ∧ user_id n ≠ nil_uuid) →
  subtree_loop fuel a (@node E a) queue res = subtree_loop fuel a (slot a) queue res.
Proof.
  revert queue res. induction fuel as [|fuel IH]; intros queue res Hq; [done|].
  destruct queue as [|i queue]; [done|]. cbn [subtree_loop].
  destruct (Hq i) as (n & Hn & Hl); [left|]. rewrite (node_ok a i n Hn Hl), (slot_ok a i n Hn).
  cbn [mbind outcome_bind]. apply IH. intros j [Hj|Hj]%elem_of_app; [apply Hq; by right|].
  destruct (wf_child_live a Hwf i n j Hn Hj) as (? & ? & _ & ?). eauto.
Qed.
End positions.

(** [get_position] of an enrolled user never fails, and reports the node's
    own fields, the slot index at which its parent lists it (0 at the root), and
    for each child the number of that child's descendants. *)
Theorem get_position_exact a i n : arena_wf a → nodes a !! i = Some n → user_id n ≠ nil_uuid →
  ∃ tp, @get_position TreeError a i = Ok tp ∧
    tp_user_id tp = user_id n ∧ tp_depth tp = depth n ∧ tp_child_count tp = length (children n) ∧
    (∀ p np, parent n = Some p → nodes a !! p = Some np →
      children np !! tp_position tp = Some i ∧ tp_parent_user_id tp = Some (user_id np)) ∧
    (parent n = None → tp_position tp = 0 ∧ tp_parent_user_id tp = None) ∧
    (∀ k c, children n !! k = Some c → ∃ l, tp_downline_counts tp !! k = Some (length l) ∧
      NoDup l ∧ ∀ j, j ∈ l ↔ below a c j) ∧
    (∀ k, length (children n) ≤ k → tp_downline_counts tp !! k = None).
Proof.
  intros Hwf Hi Hl.
  destruct (get_position_ok (E := TreeError) a Hwf i n Hi Hl) as (tp & Hrun & H1 & H2 & H3 & H4 & _ & _ & H5 & H6 & H7 & H8).
  exists tp. split_and!; try done.
  - intros p np Hp Hnp. split; [by eapply H5|]. by rewrite H4, Hp; simpl; rewrite Hnp.
  - intros Hp. split; [by apply H6|]. by rewrite H4, Hp.
  - intros k c Hc. destruct (H7 k c Hc) as (r & Hr & Hcount).
    destruct (wf_children a Hwf i n c Hi (list_elem_of_lookup_2 _ _ _ Hc)) as (nc & Hnc & _).
    destruct (count_subtree_ok (E := TreeError) a Hwf c nc Hnc) as (l & Hl' & Hnd & Hmem).
    rewrite Hl' in Hcount. simplify_eq. eauto.
Qed.
