(* ===== verification/ArenaRestore.v ===== *)
(** * Validation of a restored arena decides the invariant

    [validate_restored_iff]: the passes of [Arena::validate_restored] accept an
    arena exactly when it satisfies [arena_wf], so a snapshot that loads is one
    the mutations could have built, and no snapshot of a live tree is refused.
    [lowest_fault_perm] shows that a pass over a [HashMap] names the same
    offender in every iteration order. *)

From stdpp Require Import base numbers list gmap strings sorting.
From Stdlib Require Import ZArith Lia.
From S2P Require Import Prelude TreeTypes Arena ArenaCheck ArenaWf ArenaOps ArenaWalk.

(** ** The lowest fault of a map *)

Section lowest_fault.
Context {K V F : Type} (ltb : K → K → bool) (check : K → V → option F).
(** The order of the keys: a strict total order. *)
Context (Hirr : ∀ x, ltb x x = false) (Htri : ∀ x y, ltb x y = true ∨ ltb y x = true ∨ x = y).
Context (Htrans : ∀ x y z, ltb x y = true → ltb y z = true → ltb x z = true).

Definition fault_step (fault : option (K * F)) (e : K * V) : option (K * F) :=
  keep_lowest ltb fault e.1 (check e.1 e.2).

Lemma lowest_fault_foldl l : lowest_fault ltb check l = foldl fault_step None l.
Proof.
  unfold lowest_fault. generalize (@None (K * F)). induction l as [|[k v] l IH]; intros o; [done|].
  simpl. apply IH.
Qed.

Lemma fault_step_swap o e1 e2 : e1.1 ≠ e2.1 →
  fault_step (fault_step o e1) e2 = fault_step (fault_step o e2) e1.
Proof.
  destruct e1 as [k1 v1], e2 as [k2 v2]. unfold fault_step, keep_lowest; simpl. intros Hk.
  assert (Hanti : ∀ x y, ltb x y = true → ltb y x = true → False).
  { intros x y H1 H2. pose proof (Htrans x y x H1 H2). by rewrite Hirr in H. }
  assert (Hnot : ∀ x y z, ltb x y = false → ltb y z = false → x ≠ y → ltb x z = false).
  { intros x y z H1 H2 Hne. destruct (ltb x z) eqn:H3; [|done].
  destruct (Htri x y) as [|[H4|]]; [congruence| |done].
  by rewrite (Htrans y x z) in H2. }
  destruct (check k1 v1), (check k2 v2), o as [[k0 ?]|]; simpl; try done;
  repeat match goal with
  | |- context [ltb ?x ?y] => let H := fresh "H" in destruct (ltb x y) eqn:H; simpl
  end; try done; exfalso; eauto.
  all: try (destruct (Htri k1 k2) as [|[|]]; congruence).
  all: try (by rewrite (Htrans k1 k2 k0) in *). all: try (by rewrite (Htrans k2 k1 k0) in *).
Qed.

Lemma fault_none l o : foldl fault_step o l = None ↔ o = None ∧ ∀ k v, (k, v) ∈ l → check k v = None.
Proof.
  revert o. induction l as [|[k v] l IH]; intros o; simpl.
  { split; [|naive_solver]. intros ->. split; [done|]. by intros k v ?%elem_of_nil. }
  rewrite IH. unfold fault_step, keep_lowest; simpl. split.
  - intros [Hs Hl]. destruct (check k v) eqn:Hc.
    { destruct o as [[k0 f0]|]; [destruct (ltb k k0)|]; done. }
    split; [done|]. intros k' v' [[= -> ->]|Hin]%elem_of_cons; eauto.
  - intros [-> Hl]. rewrite (Hl k v) by left. split; [done|]. intros k' v' Hin. apply Hl. by right.
Qed.

Lemma lowest_fault_none l : lowest_fault ltb check l = None ↔ ∀ k v, (k, v) ∈ l → check k v = None.
Proof. rewrite lowest_fault_foldl, fault_none. naive_solver. Qed.

(** Whatever order the map is visited in, the same entry is reported. *)
Lemma lowest_fault_perm l k : NoDup l.*1 → l ≡ₚ k → lowest_fault ltb check l = lowest_fault ltb check k.
Proof.
  rewrite !lowest_fault_foldl. generalize (@None (K * F)). intros o Hnd Hp. revert o Hnd.
  induction Hp as [|x l k _ IH|x y l|l1 l2 l3 Hp1 IH1 _ IH2]; intros o Hnd; simpl in *.
  - done.
  - apply NoDup_cons in Hnd as [_ Hnd]. by apply IH.
  - apply NoDup_cons in Hnd as [Hx _]. rewrite fault_step_swap; [done|].
    intros Heq. apply Hx. rewrite Heq. left.
  - rewrite IH1, IH2; [done| |done]. by rewrite <- Hp1.
Qed.
End lowest_fault.

(** ** The passes, one by one *)

Section passes.
Context (a : Arena).

Definition live_at (i : NodeIndex) : Prop := ∃ n, nodes a !! i = Some n ∧ user_id n ≠ nil_uuid.

Lemma check_index_ok : check_index a = Ok () ↔ ∀ u i, index a !! u = Some i →
  u ≠ nil_uuid ∧ ∃ n, nodes a !! i = Some n ∧ user_id n = u.
Proof.
  unfold check_index. trans (lowest_fault N.ltb (check_index_entry a) (map_to_list (index a)) = None).
  { destruct (lowest_fault _ _ _) as [[]|]; simpl; naive_solver. }
  rewrite lowest_fault_none. setoid_rewrite elem_of_map_to_list.
  assert (He : ∀ u i, check_index_entry a u i = None ↔ u ≠ nil_uuid ∧ ∃ n, nodes a !! i = Some n ∧ user_id n = u).
  { intros u i. unfold check_index_entry, is_nil. destruct (nodes a !! i) as [n|]; [|naive_solver].
  repeat case_bool_decide; naive_solver. }
  split; intros H u i Hi; [apply He|apply He]; eauto.
Qed.

Lemma check_edge_ok f s o : check_edge a f s o = Ok () ↔ ∀ t, o = Some t → live_at t.
Proof.
  unfold check_edge, live_at, is_nil. destruct o as [t|]; [|naive_solver].
  destruct (nodes a !! t) as [n|] eqn:Hn; simpl.
  - rewrite refuse_if_ok, bool_decide_eq_false. naive_solver.
  - naive_solver.
Qed.

Lemma stale_field_none n : stale_field n = None ↔
  parent n = None ∧ sponsor n = None ∧ children n = [] ∧ sponsored n = [].
Proof.
  unfold stale_field.
  by destruct (parent n), (sponsor n), (children n), (sponsored n); vm_compute; split; intuition.
Qed.

Lemma check_node_ok i n : check_node a (i, n) = Ok () ↔
  (user_id n = nil_uuid → parent n = None ∧ sponsor n = None ∧ children n = [] ∧ sponsored n = []) ∧
  (user_id n ≠ nil_uuid → index a !! user_id n = Some i ∧ (∀ t, parent n = Some t → live_at t) ∧
  (∀ t, sponsor n = Some t → live_at t) ∧ (∀ t, t ∈ children n → live_at t) ∧
  (∀ t, t ∈ sponsored n → live_at t)).
Proof.
  unfold check_node, is_nil. case_bool_decide as Hnil.
  - rewrite <- stale_field_none. destruct (stale_field n); naive_solver.
  - rewrite !bind_unit_ok, refuse_if_ok, bool_decide_eq_false, !check_edge_ok, !for_each_ok.
    setoid_rewrite check_edge_ok. split.
    + intros (H1 & H2 & H3 & H4 & H5). split; [done|]. intros _. split_and!; try done.
      * by apply dec_stable.
      * intros t Ht. by eapply H4.
      * intros t Ht. by eapply H5.
    + intros [_ H]. destruct (H Hnil) as (H1 & H2 & H3 & H4 & H5). split_and!; [naive_solver|done..| |].
      * intros c Hc t [= <-]. by apply H4.
      * intros c Hc t [= <-]. by apply H5.
Qed.

Lemma check_depth_ok i n : check_depth a (i, n) = Ok () ↔
  (user_id n ≠ nil_uuid → parent n = None → depth n = 0%N) ∧
  (user_id n ≠ nil_uuid → ∀ p, parent n = Some p → ∃ np, nodes a !! p = Some np ∧
  depth n = (depth np + 1)%N ∧ (depth n ≤ u32_max)%N).
Proof.
  unfold check_depth, is_nil. case_bool_decide as Hnil; [naive_solver|].
  destruct (parent n) as [p|].
  - rewrite bind_ok. unfold slot. setoid_rewrite expect_ok. unfold u32_checked_add.
    setoid_rewrite refuse_if_ok. split.
    + intros (np & Hnp & Hd). split; [done|]. intros _ p' [= <-]. exists np. split; [done|].
      apply bool_decide_eq_false in Hd. apply dec_stable in Hd.
      destruct (N.leb_spec (depth np + 1) u32_max); [|done]. simplify_eq. lia.
    + intros [_ H]. destruct (H Hnil p eq_refl) as (np & Hnp & Hd & Hm). exists np. split; [done|].
      rewrite bool_decide_eq_false. intros Hne. apply Hne.
      destruct (N.leb_spec (depth np + 1) u32_max); [by rewrite Hd|lia].
  - rewrite refuse_if_ok, negb_false_iff, N.eqb_eq. naive_solver.
Qed.

Lemma check_free_one seen i s : check_free a seen i = Ok s ↔
  (∃ n, nodes a !! i = Some n ∧ user_id n = nil_uuid) ∧ (i ∉ seen) ∧ s = {[i]} ∪ seen.
Proof.
  unfold check_free, is_nil. destruct (nodes a !! i) as [n|]; simpl; [|naive_solver].
  rewrite !bind_unit_ok, !refuse_if_ok, negb_false_iff, bool_decide_eq_true, bool_decide_eq_false.
  naive_solver.
Qed.

Lemma check_free_ok seen l s : fold_outcome (check_free a) seen l = Ok s ↔
  (∀ i, i ∈ l → (∃ n, nodes a !! i = Some n ∧ user_id n = nil_uuid) ∧ i ∉ seen) ∧ NoDup l ∧
  s = foldl (λ s i, {[i]} ∪ s) seen l.
Proof.
  revert seen. induction l as [|i l IH]; intros seen; simpl.
  { split; [intros [= <-]; split_and!; [by intros ? ?%elem_of_nil|constructor|done]|by intros (_ & _ & ->)]. }
  rewrite bind_ok. setoid_rewrite check_free_one. setoid_rewrite IH. rewrite NoDup_cons. split.
  - intros (s1 & (Hn & Hs & ->) & Hl & Hnd & ->). split_and!; [|intros Hin|done|done].
    + intros j [->|Hj]%elem_of_cons; [done|]. destruct (Hl j Hj). set_solver.
    + destruct (Hl i Hin). set_solver.
  - intros (Hl & [Hi Hnd] & ->). exists ({[i]} ∪ seen). split; [|split_and!; [|done|done]].
    + destruct (Hl i) as [? ?]; [left|]. done.
    + intros j Hj. destruct (Hl j) as [? ?]; [by right|]. split; [done|].
      intros [->%elem_of_singleton|?]%elem_of_union; done.
Qed.

Lemma check_root_ok : check_root a = Ok () ↔ ∀ r, root a = Some r →
  ∃ n, nodes a !! r = Some n ∧ user_id n ≠ nil_uuid ∧ sponsor n = None.
Proof.
  unfold check_root, is_nil. destruct (root a) as [r|]; [|naive_solver].
  rewrite bind_ok. setoid_rewrite ok_or_ok. setoid_rewrite bind_unit_ok. setoid_rewrite refuse_if_ok.
  setoid_rewrite bool_decide_eq_false. split.
  - intros (n & Hn & Hu & Hs) r' [= <-]. exists n. by destruct (sponsor n).
  - intros H. destruct (H r eq_refl) as (n & Hn & Hu & Hs). exists n. by rewrite Hs.
Qed.

Lemma check_single_root_ok : check_single_root a = Ok () ↔
  (root a = None → ∀ i n, nodes a !! i = Some n → user_id n = nil_uuid) ∧
  (∀ r i n, root a = Some r → nodes a !! i = Some n → user_id n ≠ nil_uuid → parent n = None → i = r).
Proof.
  unfold check_single_root. destruct (root a) as [r|].
  - rewrite for_each_ok. split.
    + intros H. split; [done|]. intros r' i n [= <-] Hn Hu Hp.
      specialize (H (i, n) (proj2 (elem_of_enumerate _ _ _) Hn)). simpl in H.
      rewrite refuse_if_ok, negb_false_iff, !orb_true_iff in H. unfold is_nil in H.
      rewrite !bool_decide_eq_true, Hp in H. destruct H as [[?|[? ?]]|?]; done.
    + intros [_ H] [i n] Hn%elem_of_enumerate. rewrite refuse_if_ok, negb_false_iff, !orb_true_iff.
      unfold is_nil. rewrite !bool_decide_eq_true.
      destruct (decide (user_id n = nil_uuid)); [by left; left|].
      destruct (parent n) eqn:Hp; [by left; right|right]. by eapply H.
  - rewrite refuse_if_ok, Nat.ltb_ge. split.
    + intros H. split; [|done]. intros _ i n Hn. apply dec_stable. intros Hu.
      assert (n ∈ filter (λ n, user_id n ≠ nil_uuid) (nodes a)) as Hin.
      { apply list_elem_of_filter. split; [done|by eapply list_elem_of_lookup_2]. }
      destruct (filter _ (nodes a)); [by apply elem_of_nil in Hin|simpl in H; lia].
    + intros [H _]. rewrite filter_all_false; [done|].
      intros n (i & Hi)%list_elem_of_lookup Hu. by destruct Hu; eapply H.
Qed.
End passes.

(** ** Reciprocity of one pair of edge fields *)
Section reciprocal.
Context (a : Arena) (df uf : string) (down : Node → list NodeIndex) (up : Node → option NodeIndex).

Definition named_back (i c : NodeIndex) : Prop := ∃ nc, nodes a !! c = Some nc ∧ up nc = Some i.

(** The pairs listed after a node's edges. *)
Definition list_edges (i : NodeIndex) (listed : gset (nat * nat)) (l : list NodeIndex) : gset (nat * nat) :=
  foldl (λ s c, {[(i, c)]} ∪ s) listed l.

Lemma elem_of_list_edges i listed l x y :
  (x, y) ∈ list_edges i listed l ↔ (x, y) ∈ listed ∨ (x = i ∧ y ∈ l).
Proof.
  revert listed. induction l as [|c l IH]; intros listed; simpl.
  { rewrite elem_of_nil. naive_solver. }
  rewrite IH, elem_of_union, elem_of_singleton, elem_of_cons. naive_solver.
Qed.

Lemma check_down_one i listed c s : check_down a df uf up i listed c = Ok s ↔
  ((i, c) ∉ listed) ∧ named_back i c ∧ s = {[(i, c)]} ∪ listed.
Proof.
  unfold check_down, named_back, slot. rewrite bind_unit_ok, refuse_if_ok, bool_decide_eq_false.
  destruct (nodes a !! c) as [nc|]; simpl; [|naive_solver].
  rewrite bind_unit_ok, refuse_if_ok, bool_decide_eq_false. split.
  - intros (? & H & [= <-]). split_and!; [done|exists nc; split; [done|by apply dec_stable]|done].
  - intros (? & (? & [= <-] & ->) & ->). split_and!; [done|by intros []|done].
Qed.

Lemma check_downs_ok i listed l s : fold_outcome (check_down a df uf up i) listed l = Ok s ↔
  (∀ c, c ∈ l → named_back i c ∧ (i, c) ∉ listed) ∧ NoDup l ∧ s = list_edges i listed l.
Proof.
  revert listed. induction l as [|c l IH]; intros listed; simpl.
  { split; [intros [= <-]; split_and!; [by intros ? ?%elem_of_nil|constructor|done]|by intros (_ & _ & ->)]. }
  rewrite bind_ok. setoid_rewrite check_down_one. setoid_rewrite IH. rewrite NoDup_cons. split.
  - intros (s1 & (Hs & Hn & ->) & Hl & Hnd & ->). split_and!; [|intros Hin|done|done].
    + intros j [->|Hj]%elem_of_cons; [done|]. destruct (Hl j Hj). set_solver.
    + destruct (Hl c Hin). set_solver.
  - intros (Hl & [Hi Hnd] & ->). exists ({[(i, c)]} ∪ listed). split; [|split_and!; [|done|done]].
    + destruct (Hl c) as [? ?]; [left|]. done.
    + intros j Hj. destruct (Hl j) as [? ?]; [by right|]. split; [done|].
      intros [[= ->]%elem_of_singleton|?]%elem_of_union; done.
Qed.

Definition down_pass (listed : gset (nat * nat)) (e : nat * Node)
  : outcome SnapshotConsistencyError (gset (nat * nat)) :=
  if is_nil (user_id e.2) then Ok listed
  else fold_outcome (check_down a df uf up e.1) listed (down e.2).

Definition pass_edges (listed : gset (nat * nat)) (e : nat * Node) : gset (nat * nat) :=
  if is_nil (user_id e.2) then listed else list_edges e.1 listed (down e.2).

Definition downs_good (e : nat * Node) : Prop :=
  user_id e.2 ≠ nil_uuid → (∀ c, c ∈ down e.2 → named_back e.1 c) ∧ NoDup (down e.2).

Lemma elem_of_pass_edges es listed x y : (x, y) ∈ foldl pass_edges listed es ↔
  (x, y) ∈ listed ∨ ∃ n, (x, n) ∈ es ∧ user_id n ≠ nil_uuid ∧ y ∈ down n.
Proof.
  revert listed. induction es as [|[i n] es IH]; intros listed; simpl.
  { split; [by left|]. intros [?|(n & ?%elem_of_nil & _)]; done. }
  rewrite IH. unfold pass_edges, is_nil; simpl. setoid_rewrite elem_of_cons.
  case_bool_decide; [|rewrite elem_of_list_edges]; naive_solver.
Qed.

Lemma down_pass_one listed e s : (∀ c, (e.1, c) ∉ listed) →
  down_pass listed e = Ok s ↔ downs_good e ∧ s = pass_edges listed e.
Proof.
  intros Hf. unfold down_pass, pass_edges, downs_good, is_nil. case_bool_decide; [naive_solver|].
  rewrite check_downs_ok. naive_solver.
Qed.

Lemma down_passes_ok es listed s : NoDup es.*1 → (∀ e c, e ∈ es → (e.1, c) ∉ listed) →
  fold_outcome down_pass listed es = Ok s ↔
  (∀ e, e ∈ es → downs_good e) ∧ s = foldl pass_edges listed es.
Proof.
  revert listed. induction es as [|e es IH]; intros listed Hnd Hf.
  { simpl. split; [intros [= <-]; split; [by intros ? ?%elem_of_nil|done]|by intros (_ & ->)]. }
  simpl in Hnd. apply NoDup_cons in Hnd as [Hi Hnd]. cbn [fold_outcome foldl]. rewrite bind_ok.
  assert (Hf' : ∀ e' c, e' ∈ es → (e'.1, c) ∉ pass_edges listed e).
  { intros e' c He'. change (pass_edges listed e) with (foldl pass_edges listed [e]).
    rewrite elem_of_pass_edges. intros [Hl|(n & Hn%list_elem_of_singleton & _)].
    - by apply (Hf e' c); [right|].
    - apply Hi. rewrite <- Hn. simpl. apply list_elem_of_fmap. by exists e'. }
  setoid_rewrite (down_pass_one listed e); [|intros c; apply Hf; left]. split.
  - intros (s1 & [He ->] & [Hes ->]%IH); [|done..]. split; [|done].
    by intros e' [->|?]%elem_of_cons; [|apply Hes].
  - intros [Hes ->]. exists (pass_edges listed e). split; [split; [apply Hes; left|done]|].
    apply IH; [done..|]. split; [|done]. intros e' He'. apply Hes. by right.
Qed.

Lemma check_reciprocal_ok : check_reciprocal a df uf down up = Ok () ↔
  (∀ i n, nodes a !! i = Some n → user_id n ≠ nil_uuid →
  (∀ c, c ∈ down n → named_back i c) ∧ NoDup (down n)) ∧
  (∀ i n t, nodes a !! i = Some n → user_id n ≠ nil_uuid → up n = Some t →
  ∃ nt, nodes a !! t = Some nt ∧ user_id nt ≠ nil_uuid ∧ i ∈ down nt).
Proof.
  unfold check_reciprocal. rewrite bind_ok.
  assert (Hpass : ∀ s, fold_outcome (λ listed '(slot, n),
    if is_nil (user_id n) then Ok listed
    else fold_outcome (check_down a df uf up slot) listed (down n)) ∅ (enumerate (nodes a)) = Ok s ↔
    (∀ e, e ∈ enumerate (nodes a) → downs_good e) ∧ s = foldl pass_edges ∅ (enumerate (nodes a))).
  { intros s. rewrite <- down_passes_ok.
    - by rewrite (fold_outcome_ext _ down_pass) by (by intros l [i n]).
    - unfold enumerate. rewrite fst_zip by (rewrite length_seq; lia). apply NoDup_seq.
    - intros e c _. apply not_elem_of_empty. }
  setoid_rewrite Hpass. setoid_rewrite for_each_ok. split.
  - intros (s & [Hg ->] & Hu). split.
    + intros i n Hi Hl. exact (Hg (i, n) (proj2 (elem_of_enumerate _ _ _) Hi) Hl).
    + intros i n t Hi Hl Ht. specialize (Hu (i, n) (proj2 (elem_of_enumerate _ _ _) Hi)). simpl in Hu.
      unfold is_nil in Hu. rewrite bool_decide_eq_false_2, Ht, refuse_if_ok, bool_decide_eq_false in Hu by done.
      apply dec_stable, elem_of_pass_edges in Hu as [?%not_elem_of_empty|(nt & Hnt%elem_of_enumerate & ? & ?)]; [done|].
      eauto.
  - intros [H1 H2]. eexists. split; [split; [|done]|].
    + intros [i n] Hi%elem_of_enumerate Hl. by apply H1.
    + intros [i n] Hi%elem_of_enumerate. unfold is_nil. case_bool_decide as Hl; [done|].
      destruct (up n) as [t|] eqn:Ht; [|done]. rewrite refuse_if_ok, bool_decide_eq_false.
      intros Hne. apply Hne, elem_of_pass_edges. right.
      destruct (H2 i n t Hi Hl Ht) as (nt & Hnt & ? & ?). exists nt. rewrite elem_of_enumerate. done.
Qed.
End reciprocal.

(** ** Sponsor chains *)
Section chains.
Context (a : Arena).

(** Between two starts: settled slots have chains that end, and no slot is on a walk. *)
Record settled (v : list Visit) : Prop := {
  st_length : length v = length (nodes a);
  st_done i : v !! i = Some Done → chain_ends a i;
  st_idle i : v !! i ≠ Some OnWalk;
}.

(** A walk that returns has proved the chains of everything it passed. *)
Lemma sponsor_walk_sound fuel start v w cur v' w' :
  sponsor_walk fuel a start v w cur = Ok (v', w') → (∀ i, v !! i = Some Done → chain_ends a i) →
  ∃ ext, w' = w ++ ext ∧ length v' = length v ∧ (∀ i, i ∈ ext → chain_ends a i) ∧
  (∀ i, cur = Some i → chain_ends a i) ∧ (∀ i, v' !! i = Some Done → v !! i = Some Done) ∧
  (∀ i, v' !! i = Some OnWalk → v !! i = Some OnWalk ∨ i ∈ ext).
Proof.
  revert v w cur. induction fuel as [|fuel IH]; intros v w cur Hrun Hd; [done|].
  cbn [sponsor_walk] in Hrun. destruct cur as [i|].
  2:{ simplify_eq. exists []. rewrite app_nil_r. split_and!; try done; [by intros ? ?%elem_of_nil|by left]. }
  apply bind_ok in Hrun as (x & Hx%expect_ok & Hrun). destruct x.
  - apply bind_ok in Hrun as (n & Hn%expect_ok & Hrun).
    apply IH in Hrun as (ext & -> & Hlen & Hext & Hcur & Hdone & Hwalk).
    2:{ intros j. destruct (decide (j = i)) as [->|Hj].
        - rewrite list_lookup_insert_eq; [done|]. by eapply lookup_lt_Some.
        - rewrite list_lookup_insert_ne by done. apply Hd. }
    rewrite length_insert in Hlen.
    assert (Hi : chain_ends a i).
    { destruct (sponsor n) as [s|] eqn:Hs; [eapply chain_step; eauto|by eapply chain_end]. }
    exists (i :: ext). rewrite <- app_assoc. split_and!; try done.
    + intros j [->|Hj]%elem_of_cons; auto.
    + by intros j [= <-].
    + intros j Hj. apply Hdone in Hj. destruct (decide (j = i)) as [->|Hne].
      * rewrite list_lookup_insert_eq in Hj by (by eapply lookup_lt_Some). done.
      * by rewrite list_lookup_insert_ne in Hj.
    + intros j Hj. rewrite elem_of_cons. apply Hwalk in Hj as [Hj|Hj]; [|by right; right].
      destruct (decide (j = i)) as [->|Hne]; [by right; left|]. left. by rewrite list_lookup_insert_ne in Hj.
  - done.
  - simplify_eq. exists []. rewrite app_nil_r.
    split_and!; try done; [by intros ? ?%elem_of_nil|intros j [= <-]; by apply Hd|by left].
Qed.

(** A walk along a finite chain returns: it meets no slot it has marked. *)
Lemma sponsor_walk_total fuel start v w cur l : up_path a sponsor cur l → length v = length (nodes a) →
  (∀ i, i ∈ l → v !! i ≠ Some OnWalk) → length l < fuel →
  ∃ r, sponsor_walk fuel a start v w cur = Ok r.
Proof.
  intros Hup. revert fuel v w. induction Hup as [|i n l Hi Hup IH]; intros fuel v w Hlen Hidle Hf;
    (destruct fuel as [|fuel]; [lia|]); cbn [sponsor_walk]; [eauto|].
  destruct (lookup_lt_is_Some_2 v i) as [x Hx]; [rewrite Hlen; by eapply lookup_lt_Some|].
  rewrite Hx. cbn [expect mbind outcome_bind]. destruct x; [| |eauto].
  - rewrite (slot_ok a i n Hi). cbn [mbind outcome_bind]. simpl in Hf.
    apply IH; [by rewrite length_insert| |lia]. intros j Hj.
    assert (NoDup (i :: l)) as [Hni _]%NoDup_cons
      by (apply (up_path_nodup a sponsor (Some i)); by econstructor).
    rewrite list_lookup_insert_ne by (intros ->; done). apply Hidle. by right.
  - by destruct (Hidle i); [left|].
Qed.

Definition settle (v : list Visit) (w : list nat) : list Visit := foldl (λ vs slot, <[slot := Done]> vs) v w.

Lemma settle_lookup v w i x : settle v w !! i = Some x →
  (i ∈ w ∧ x = Done) ∨ v !! i = Some x ∧ (i ∈ w → False).
Proof.
  revert v. induction w as [|j w IH]; intros v; simpl; [intros H; right; split; [done|by intros ?%elem_of_nil]|].
  intros [[? ?]|[H Hw]]%IH; [left; split; [by right|done]|].
  destruct (decide (i = j)) as [->|Hne].
  - left. split; [left|]. destruct (decide (j < length v)%nat).
    + rewrite list_lookup_insert_eq in H by done. congruence.
    + rewrite list_insert_ge, lookup_ge_None_2 in H by lia. done.
  - right. rewrite list_lookup_insert_ne in H by done. split; [done|].
    intros [->|?]%elem_of_cons; done.
Qed.

Lemma settle_length v w : length (settle v w) = length v.
Proof. revert v. induction w as [|j w IH]; intros v; simpl; [done|]. by rewrite IH, length_insert. Qed.

Lemma check_chain_from_sound v i n v' : settled v → check_chain_from a v (i, n) = Ok v' →
  settled v' ∧ (user_id n ≠ nil_uuid → chain_ends a i).
Proof.
  intros [Hlen Hd Hidle] H. unfold check_chain_from, is_nil in H. case_bool_decide as Hnil.
  { simplify_eq. split; [by split|done]. }
  apply bind_ok in H as (x & Hx%expect_ok & H). case_bool_decide as Hx'; [simplify_eq; split; [by split|auto]|].
  apply bind_ok in H as ([v1 w] & Hw & [= <-]).
  destruct (sponsor_walk_sound _ _ _ _ _ _ _ Hw Hd) as (ext & -> & Hl & Hext & Hcur & Hdone & Hwalk).
  split; [|auto]. fold (settle v1 ([] ++ ext)). simpl. split.
  - by rewrite settle_length, Hl.
  - intros j [[? _]|[Hj _]]%settle_lookup; auto.
  - intros j [[? ?]|[Hj Hne]]%settle_lookup; [done|]. apply Hwalk in Hj as [Hj|Hj]; [by eapply Hidle|auto].
Qed.

Lemma chain_path i : chain_ends a i → ∃ l, up_path a sponsor (Some i) (i :: l).
Proof.
  induction 1 as [i n Hi Hs|i n j Hi Hs _ [l IH]].
  - exists []. econstructor; [exact Hi|]. rewrite Hs. constructor.
  - exists (j :: l). econstructor; [exact Hi|]. by rewrite Hs.
Qed.

Lemma check_chain_from_total v i n : settled v → nodes a !! i = Some n →
  (user_id n ≠ nil_uuid → chain_ends a i) → ∃ v', check_chain_from a v (i, n) = Ok v' ∧ settled v'.
Proof.
  intros Hv Hi Hends. assert (∃ v', check_chain_from a v (i, n) = Ok v') as [v' Hv'].
  { unfold check_chain_from, is_nil. case_bool_decide as Hnil; [eauto|].
    destruct (lookup_lt_is_Some_2 v i) as [x Hx]; [rewrite (st_length v Hv); by eapply lookup_lt_Some|].
    rewrite Hx. cbn [expect mbind outcome_bind]. case_bool_decide; [eauto|].
    destruct (chain_path i (Hends Hnil)) as [l Hup].
    destruct (sponsor_walk_total (loop_fuel a) i v [] (Some i) (i :: l) Hup) as [[v1 w] ->].
    - apply (st_length v Hv).
    - intros j _. apply (st_idle v Hv).
    - pose proof (up_path_length _ _ _ _ Hup). unfold loop_fuel. lia.
    - simpl. eauto. }
  exists v'. split; [done|]. by eapply check_chain_from_sound.
Qed.

Lemma settled_init : settled (replicate (length (nodes a)) Unseen).
Proof.
  split; [apply length_replicate|intros i [? _]%lookup_replicate; done|].
  intros i [? _]%lookup_replicate; done.
Qed.

Lemma check_chains_sound es v v' : settled v → fold_outcome (check_chain_from a) v es = Ok v' →
  ∀ i n, (i, n) ∈ es → user_id n ≠ nil_uuid → chain_ends a i.
Proof.
  revert v. induction es as [|[j m] es IH]; intros v Hv Hrun i n Hin Hl; [by apply elem_of_nil in Hin|].
  cbn [fold_outcome] in Hrun. apply bind_ok in Hrun as (v1 & H1 & Hrun).
  destruct (check_chain_from_sound _ _ _ _ Hv H1) as [Hv1 Hj].
  apply elem_of_cons in Hin as [[= -> ->]|Hin]; [auto|by eapply IH].
Qed.
End chains.

(** ** The whole validation *)

Lemma validate_restored_sound a : validate_restored a = Ok () → arena_wf a.
Proof.
  unfold validate_restored. rewrite !bind_unit_ok, !for_each_ok.
  intros (Hix & Hnode & Hdep & Hfree & Hroot & Hch & Hsingle & Hsp & Hchain).
  rewrite check_index_ok in Hix. rewrite check_root_ok in Hroot.
  rewrite check_single_root_ok in Hsingle. destruct Hsingle as [Hsr1 Hsr2].
  rewrite check_reciprocal_ok in Hch, Hsp. destruct Hch as [Hc1 Hc2], Hsp as [Hs1 Hs2].
  apply bind_ok in Hfree as (s & Hfree & _). apply check_free_ok in Hfree as (Hf & Hfnd & _).
  unfold check_sponsor_chains_end in Hchain. apply bind_ok in Hchain as (v & Hchain & _).
  pose proof (check_chains_sound a _ _ _ (settled_init a) Hchain) as Hends.
  assert (Hn : ∀ i n, nodes a !! i = Some n →
    (user_id n = nil_uuid → parent n = None ∧ sponsor n = None ∧ children n = [] ∧ sponsored n = []) ∧
    (user_id n ≠ nil_uuid → index a !! user_id n = Some i)).
  { intros i n Hi. destruct (proj1 (check_node_ok a i n) (Hnode (i, n) (proj2 (elem_of_enumerate _ _ _) Hi))). naive_solver. }
  assert (Hlv : ∀ i n, nodes a !! i = Some n → user_id n = nil_uuid ∨ user_id n ≠ nil_uuid)
    by (intros i n _; destruct (decide (user_id n = nil_uuid)); auto).
  split.
  - intros u i. split; [apply Hix|]. intros (Hu & n & Hi & <-). by apply (Hn i n Hi).
  - intros i n Hi. apply (Hn i n Hi).
  - intros i n p Hi Hp. destruct (Hlv i n Hi) as [Hl|Hl]; [destruct (Hn i n Hi) as [H _]; naive_solver|].
    destruct (Hc2 i n p Hi Hl Hp) as (np & ? & _ & ?). eauto.
  - intros i n c Hi Hc. destruct (Hlv i n Hi) as [Hl|Hl]; [|by apply (Hc1 i n Hi Hl)].
    destruct (Hn i n Hi) as [H _]. destruct (H Hl) as (_ & _ & He & _). elem_nil.
  - intros i n Hi. destruct (Hlv i n Hi) as [Hl|Hl]; [|by apply (Hc1 i n Hi Hl)].
    destruct (Hn i n Hi) as [H _]. destruct (H Hl) as (_ & _ & -> & _). constructor.
  - intros i n p Hi Hp. destruct (Hlv i n Hi) as [Hl|Hl]; [destruct (Hn i n Hi) as [H _]; naive_solver|].
    destruct (Hs2 i n p Hi Hl Hp) as (np & ? & _ & ?). eauto.
  - intros i n c Hi Hc. destruct (Hlv i n Hi) as [Hl|Hl]; [|by apply (Hs1 i n Hi Hl)].
    destruct (Hn i n Hi) as [H _]. destruct (H Hl) as (_ & _ & _ & He). elem_nil.
  - intros i n Hi. destruct (Hlv i n Hi) as [Hl|Hl]; [|by apply (Hs1 i n Hi Hl)].
    destruct (Hn i n Hi) as [H _]. destruct (H Hl) as (_ & _ & _ & ->). constructor.
  - intros i n Hi Hl. by apply (proj1 (check_depth_ok a i n) (Hdep (i, n) (proj2 (elem_of_enumerate _ _ _) Hi))).
  - intros i n p np Hi Hp Hnp. destruct (Hlv i n Hi) as [Hl|Hl]; [destruct (Hn i n Hi) as [H _]; naive_solver|].
    destruct (proj1 (check_depth_ok a i n) (Hdep (i, n) (proj2 (elem_of_enumerate _ _ _) Hi))) as [_ H].
    destruct (H Hl p Hp) as (np' & ? & ? & ?). assert (np' = np) as -> by congruence. done.
  - done.
  - intros i Hi. by apply Hf.
  - done.
  - intros i n Hr Hi. by eapply Hsr1.
  - intros r i n Hr Hi Hl Hp. by eapply Hsr2.
  - intros i n Hi Hl. by apply (Hends i n (proj2 (elem_of_enumerate _ _ _) Hi)).
Qed.

Lemma validate_restored_complete a : arena_wf a → validate_restored a = Ok ().
Proof.
  intros Hwf. unfold validate_restored. rewrite !bind_unit_ok, !for_each_ok. split_and!.
  - apply check_index_ok. intros u i Hi. by apply (wf_index a Hwf).
  - intros [i n] Hi%elem_of_enumerate. apply check_node_ok. split; [by apply (wf_tomb a Hwf i)|].
    intros Hl. unfold live_at. split_and!; [by apply live_indexed|intros t Ht..].
    + destruct (wf_parent_live a Hwf i n t Hi Ht). naive_solver.
    + destruct (wf_sponsor_live a Hwf i n t Hi Ht). naive_solver.
    + destruct (wf_child_live a Hwf i n t Hi Ht). naive_solver.
    + destruct (wf_recruit_live a Hwf i n t Hi Ht). naive_solver.
  - intros [i n] Hi%elem_of_enumerate. apply check_depth_ok. split; [intros ? ?; by eapply wf_depth_root|].
    intros Hl p Hp. destruct (wf_parent a Hwf i n p Hi Hp) as (np & Hnp & _). exists np. split; [done|].
    by apply (wf_depth a Hwf i n p np).
  - erewrite (proj2 (check_free_ok a ∅ (free_list a) _)); [done|].
    split_and!; [|apply (wf_free_nodup a Hwf)|done].
    intros i Hi. split; [by apply wf_free|apply not_elem_of_empty].
  - apply check_root_ok. apply (wf_root_live a Hwf).
  - apply check_reciprocal_ok. split.
    + intros i n Hi Hl. split; [|by eapply wf_children_nodup]. intros c Hc. by apply (wf_children a Hwf i n).
    + intros i n t Hi Hl Ht. destruct (wf_parent_live a Hwf i n t Hi Ht) as (nt & ? & ? & ?). eauto.
  - apply check_single_root_ok. split; [intros Hr i n; by apply wf_rootless|].
    intros r i n. apply (wf_root_unique a Hwf).
  - apply check_reciprocal_ok. split.
    + intros i n Hi Hl. split; [|by eapply wf_sponsored_nodup]. intros c Hc. by apply (wf_sponsored a Hwf i n).
    + intros i n t Hi Hl Ht. destruct (wf_sponsor_live a Hwf i n t Hi Ht) as (nt & ? & ? & ?). eauto.
  - unfold check_sponsor_chains_end.
    destruct (fold_outcome_total (settled a) (check_chain_from a) (enumerate (nodes a))
      (replicate (length (nodes a)) Unseen) (settled_init a)) as (v & -> & _); [|done].
    intros v [i n] Hi%elem_of_enumerate Hv. apply check_chain_from_total; [done..|by apply wf_chain].
Qed.

Lemma validate_restored_spec a : validate_restored a = Ok () ↔ arena_wf a.
Proof. split; [apply validate_restored_sound|apply validate_restored_complete]. Qed.

(** C39. A restored arena passes [validate_restored] exactly when it satisfies the
    invariant the mutations maintain: nothing inconsistent is accepted, and
    nothing consistent is refused. *)
Theorem validate_restored_iff a : validate_restored a = Ok () ↔ arena_wf a.
Proof. exact (validate_restored_spec a). Qed.

(** The user-index pass reports the same fault whatever order the hash map
    yields its entries in. *)
Theorem check_index_deterministic a entries :
  entries ≡ₚ map_to_list (index a) →
  raise (lowest_fault N.ltb (check_index_entry a) entries) = check_index a.
Proof.
  intros Hp. unfold check_index. rewrite (lowest_fault_perm N.ltb _) with (k := map_to_list (index a)); [done|..|done].
  - apply N.ltb_irrefl.
  - intros x y. rewrite !N.ltb_lt. lia.
  - intros x y z. rewrite !N.ltb_lt. lia.
  - rewrite Hp. apply NoDup_fst_map_to_list.
Qed.
