(* ===== verification/SlotMap.v ===== *)
(** * Child-slot maps over an arena

    The slot-based trees keep, beside the arena, a map from each live node to
    its child slots, from which the node's children are rebuilt. [slots_wf]
    relates the two; the lemmas show that filling a free slot and clearing one
    keep it, and [slot_checks_iff] that the checks of a restored slot map accept
    exactly the maps that satisfy it. *)

From stdpp Require Import base numbers list gmap strings sorting.
From Stdlib Require Import ZArith Lia.
From S2P Require Import Prelude TreeTypes Arena ArenaCheck ArenaWf ArenaOps ArenaWalk ArenaRestore.

Section flatten.
Context {A : Type} `{EqDecision A}.

Definition flatten (s : list (option A)) : list A := omap id s.

Lemma elem_of_flatten s x : x ∈ flatten s ↔ Some x ∈ s.
Proof. unfold flatten. rewrite list_elem_of_omap. split; [intros (o & ? & ?)|]; simpl in *; naive_solver. Qed.

(** Filling a free slot adds one child. *)
Lemma flatten_fill s k x : s !! k = Some None →
  ∃ l1 l2, flatten s = l1 ++ l2 ∧ flatten (<[k := Some x]> s) = l1 ++ x :: l2.
Proof.
  intros Hk. exists (flatten (take k s)), (flatten (drop (S k) s)).
  pose proof (lookup_lt_Some _ _ _ Hk). unfold flatten.
  rewrite <- (take_drop_middle s k None Hk) at 1. rewrite insert_take_drop by done.
  by rewrite !omap_app.
Qed.

(** Clearing every slot that holds [x]. *)
Definition clear_slot (x : A) (s : list (option A)) : list (option A) :=
  (λ o, if decide (o = Some x) then None else o) <$> s.

Lemma flatten_clear s x : flatten (clear_slot x s) = filter (λ c, c ≠ x) (flatten s).
Proof.
  induction s as [|[y|] s IH]; simpl; [done| |exact IH].
  unfold flatten in *. simpl. destruct (decide (y = x)) as [->|Hne].
  - rewrite decide_True by done. rewrite filter_cons_False by naive_solver. exact IH.
  - rewrite decide_False by congruence. rewrite filter_cons_True by done. simpl. by f_equal.
Qed.
End flatten.

Lemma flatten_fmap {A B} (f : A → B) (s : list (option A)) :
  flatten (option_map f <$> s) = f <$> flatten s.
Proof. unfold flatten. induction s as [|[x|] s IH]; simpl; [done|by f_equal|done]. Qed.

Section slot_map.
Context {C : Type} (items : C → list (option NodeIndex)).

Record slots_wf (a : Arena) (slots : gmap NodeIndex C) : Prop := {
  sm_entry i c : slots !! i = Some c →
  ∃ n, nodes a !! i = Some n ∧ user_id n ≠ nil_uuid ∧ children n = flatten (items c);
  sm_live i n : nodes a !! i = Some n → user_id n ≠ nil_uuid → is_Some (slots !! i);
}.

Lemma sm_children a slots i n c : slots_wf a slots → slots !! i = Some c → nodes a !! i = Some n →
  children n = flatten (items c).
Proof. intros Hs Hc Hn. destruct (sm_entry _ _ Hs i c Hc) as (n' & ? & _ & ?). congruence. Qed.

(** A placement: the new node gets an empty entry, its parent's becomes [cp]. *)
Lemma slots_attach a a' slots idx new p s np ns pc e cp :
  attach a a' idx new p s np ns pc → slots_wf a slots →
  flatten (items e) = [] → pc = flatten (items cp) →
  slots_wf a' (<[p := cp]> (<[idx := e]> slots)).
Proof.
  intros Hat Hs He Hpc. pose proof (attach_ne_parent _ _ _ _ _ _ _ _ _ Hat) as Hne.
  destruct (at_parent _ _ _ _ _ _ _ _ _ Hat) as [Hp Hpl].
  destruct (at_user _ _ _ _ _ _ _ _ _ Hat) as [_ Hun].
  destruct (at_edges _ _ _ _ _ _ _ _ _ Hat) as (_ & _ & Hnc & _). split.
  - intros i c. destruct (decide (i = p)) as [->|Hip].
    + rewrite lookup_insert_eq. intros [= <-].
      destruct (attach_old_live _ _ _ _ _ _ _ _ _ Hat p np Hp Hpl) as [Hp' _].
      eexists. split_and!; [exact Hp'|done|]. simpl. by rewrite decide_True.
    + rewrite lookup_insert_ne by done. destruct (decide (i = idx)) as [->|Hi].
      * rewrite lookup_insert_eq. intros [= <-]. exists new.
        split_and!; [by eapply attach_new|done|]. by rewrite Hnc, He.
      * rewrite lookup_insert_ne by done. intros Hc.
        destruct (sm_entry _ _ Hs i c Hc) as (n & Hn & Hl & Hch).
        eexists. split_and!; [by eapply attach_old|done|]. simpl. by rewrite decide_False.
  - intros i n [[-> ->]|(Hi & m & Hm & ->)]%(attach_inv _ _ _ _ _ _ _ _ _ Hat) Hl.
    + rewrite lookup_insert_ne, lookup_insert_eq by done. eauto.
    + destruct (decide (i = p)) as [->|]; [rewrite lookup_insert_eq; eauto|].
      rewrite !lookup_insert_ne by done. by eapply (sm_live _ _ Hs).
Qed.

Lemma slots_place_root a a' slots idx new e : arena_wf a → root a = None → slots_wf a slots →
  (∀ j, nodes a' !! j = if decide (j = idx) then Some new else nodes a !! j) →
  user_id new ≠ nil_uuid → children new = flatten (items e) →
  slots_wf a' (<[idx := e]> slots).
Proof.
  intros Hwf Hr Hs Hn Hl Hc. split.
  - intros i c. destruct (decide (i = idx)) as [->|Hi].
    + rewrite lookup_insert_eq. intros [= <-]. exists new. rewrite Hn, decide_True by done. done.
    + rewrite lookup_insert_ne by done. intros Hc'.
      destruct (sm_entry _ _ Hs i c Hc') as (n & Hni & Hl' & _).
      by pose proof (wf_rootless a Hwf i n Hr Hni).
  - intros i n. rewrite Hn. case_decide as Hi; [subst; intros _ _; rewrite lookup_insert_eq; eauto|].
    intros Hni Hl'. rewrite lookup_insert_ne by done. by eapply (sm_live _ _ Hs).
Qed.

(** A removal: the node's entry goes, its parent's (if any) becomes [cp]. *)
Lemma slots_detach a a' slots idx n0 pc sc (cp : option (NodeIndex * C)) :
  arena_wf a → detach a a' idx n0 pc sc → slots_wf a slots →
  parent n0 = fst <$> cp → (∀ p c, cp = Some (p, c) → pc = flatten (items c)) →
  slots_wf a' (delete idx (match cp with Some (p, c) => <[p := c]> slots | None => slots end)).
Proof.
  intros Hwf Hdt Hs Hp Hc. destruct (dt_node _ _ _ _ _ _ Hdt) as [Hn Hl].
  assert (Hlook : ∀ i, (match cp with Some (p, c) => <[p := c]> slots | None => slots end) !! i =
    if decide (parent n0 = Some i) then snd <$> cp else slots !! i).
  { intros i. rewrite Hp. destruct cp as [[p c]|]; simpl; [|done].
    destruct (decide (Some p = Some i)) as [[= ->]|]; [apply lookup_insert_eq|].
    apply lookup_insert_ne. congruence. }
  split.
  - intros i c [Hi Hci]%lookup_delete_Some. rewrite Hlook in Hci. case_decide as Hpi.
    + destruct (wf_parent_live a Hwf idx n0 i Hn Hpi) as (np & Hnp & _ & Hnpl).
      eexists. split_and!; [eapply detach_old; [exact Hdt|exact Hnp|done]|done|].
      simpl. rewrite decide_True by done. destruct cp as [[p c']|]; simplify_eq/=. by eapply Hc.
    + destruct (sm_entry _ _ Hs i c Hci) as (m & Hm & Hml & Hch).
      eexists. split_and!; [by eapply detach_old|done|]. simpl. by rewrite decide_False.
  - intros i n [[-> ->]|(Hi & m & Hm & ->)]%(detach_inv _ _ _ _ _ _ Hdt) Hli; [done|].
    rewrite lookup_delete_ne, Hlook by done. case_decide as Hpi; [|by eapply (sm_live _ _ Hs)].
    rewrite Hp in Hpi. destruct cp as [[]|]; [|done]. simpl. eauto.
Qed.
End slot_map.

(** ** The checks of a restored slot map *)

(** The root has no parent: it ends its own chain. *)
Lemma root_parentless a r n : arena_wf a → root a = Some r → nodes a !! r = Some n → parent n = None.
Proof.
  intros Hwf Hr Hn. destruct (wf_root_live a Hwf r Hr) as (n' & Hn' & Hl & _).
  assert (n' = n) as -> by congruence.
  destruct (upline_exists a Hwf r n Hn Hl) as (l & Hup & _).
  pose proof (root_last a r n l Hwf Hn Hl Hup) as Hlast.
  assert (Hnd : NoDup (r :: l)) by (apply (up_path_nodup a parent (Some r)); by econstructor).
  destruct Hup as [|p np l _ _]; [done|]. exfalso. rewrite Hr, last_cons_cons in Hlast.
  apply NoDup_cons in Hnd as [Hni _]. apply Hni. apply last_Some in Hlast as [l' ->].
  apply elem_of_app. right. left.
Qed.

Section slot_checks_iff.
Context {C : Type} (items : C → list (option NodeIndex)) (a : Arena) (Hwf : arena_wf a).

Lemma occupied_flatten c : occupied items c = flatten (items c).
Proof. done. Qed.

Lemma check_slot_index_ok i : check_slot_index a i = Ok () ↔ live_at a i.
Proof.
  unfold check_slot_index, live_at, is_nil. destruct (nodes a !! i) as [n|]; simpl; [|naive_solver].
  rewrite refuse_if_ok, bool_decide_eq_false. naive_solver.
Qed.

Lemma slot_err_none i :
  match check_slot_index a i with Err e => Some e | _ => None end = None ↔ live_at a i.
Proof.
  rewrite <- check_slot_index_ok. unfold check_slot_index.
  destruct (nodes a !! i) as [n|]; simpl; [|done]. destruct (is_nil (user_id n)); simpl; naive_solver.
Qed.

Lemma slot_entry_fault_none extra p c : slot_entry_fault items extra a p c = None ↔
  live_at a p ∧ extra p c = None ∧ ∀ ch, ch ∈ occupied items c → live_at a ch.
Proof.
  unfold slot_entry_fault. rewrite <- (slot_err_none p).
  destruct (match check_slot_index a p with Err e => Some e | _ => None end); [naive_solver|].
  destruct (extra p c); [naive_solver|]. set (err := λ slot : nat, _). split.
  - intros Hh. split_and!; [done..|]. intros ch Hch. apply slot_err_none.
    destruct (match check_slot_index a ch with Err e => Some e | _ => None end) as [e|] eqn:He; [|done].
    assert (Hin : e ∈ omap err (occupied items c)) by (apply list_elem_of_omap; by exists ch).
    destruct (omap err (occupied items c)); [by apply elem_of_nil in Hin|done].
  - intros (_ & _ & Hl). destruct (omap err (occupied items c)) as [|e l] eqn:Ho; [done|]. exfalso.
    assert (e ∈ omap err (occupied items c)) as Hin by (rewrite Ho; left).
    apply list_elem_of_omap in Hin as (ch & Hch & He). specialize (Hl ch Hch).
    apply slot_err_none in Hl. unfold err in He. congruence.
Qed.

Lemma has_a_slot_ok (slots : gmap NodeIndex C) : check_every_live_node_has_a_slot a slots = Ok () ↔
  ∀ i n, nodes a !! i = Some n → user_id n ≠ nil_uuid → is_Some (slots !! i).
Proof.
  unfold check_every_live_node_has_a_slot. rewrite for_each_ok. split.
  - intros H i n Hi Hl. specialize (H (i, n) (proj2 (elem_of_enumerate _ _ _) Hi)). simpl in H.
    unfold is_nil in H. rewrite bool_decide_eq_false_2, refuse_if_ok, negb_false_iff, bool_decide_eq_true in H by done.
    done.
  - intros H [i n] Hi%elem_of_enumerate. unfold is_nil. case_bool_decide as Hl; [done|].
    rewrite refuse_if_ok, negb_false_iff, bool_decide_eq_true. by eapply H.
Qed.

Lemma match_slots_step o p c n : nodes a !! p = Some n →
  match_slots items a o (p, c) = Ok (keep_lowest Nat.ltb o p
  (if bool_decide (occupied items c ≠ children n)
  then Some (ChildrenDisagreeWithSlots p (children n) (occupied items c)) else None)).
Proof. intros Hn. unfold match_slots. by rewrite (slot_ok a p n Hn). Qed.

Lemma match_slots_none es o : (∀ p c, (p, c) ∈ es → is_Some (nodes a !! p)) →
  fold_outcome (match_slots items a) o es = Ok None ↔
  o = None ∧ ∀ p c n, (p, c) ∈ es → nodes a !! p = Some n → children n = occupied items c.
Proof.
  revert o. induction es as [|[p c] es IH]; intros o Hl; cbn [fold_outcome].
  { split; [intros [= ->]; split; [done|by intros ? ? ? ?%elem_of_nil]|by intros [-> _]]. }
  destruct (Hl p c) as [n Hn]; [left|]. rewrite (match_slots_step o p c n Hn).
  cbn [mbind outcome_bind]. rewrite IH by (intros q d Hq; apply (Hl q d); by right).
  unfold keep_lowest. split.
  - intros [Ho Hes]. case_bool_decide as Hne.
    { destruct o as [[h e]|]; [destruct (p <? h)%nat|]; done. }
    split; [done|]. intros q d m [[= -> ->]|Hq]%elem_of_cons Hm; [|by eapply Hes].
    congruence.
  - intros [-> Hes]. rewrite (Hes p c n) by (done || left). rewrite bool_decide_eq_false_2 by (intros []; done).
    split; [done|]. intros q d m Hq. apply Hes. by right.
Qed.

Lemma match_slots_total es o : (∀ p c, (p, c) ∈ es → is_Some (nodes a !! p)) →
  ∃ r, fold_outcome (match_slots items a) o es = Ok r.
Proof.
  intros Hl. destruct (fold_outcome_total (λ _, True) (match_slots items a) es o) as (r & -> & _); eauto.
  intros s [p c] Hin _. destruct (Hl p c Hin) as [n Hn]. rewrite (match_slots_step s p c n Hn). eauto.
Qed.

Lemma children_match_ok (slots : gmap NodeIndex C) : (∀ p c, slots !! p = Some c → is_Some (nodes a !! p)) →
  check_children_match_slots items a slots = Ok () ↔
  ∀ p c n, slots !! p = Some c → nodes a !! p = Some n → children n = occupied items c.
Proof.
  intros Hl. unfold check_children_match_slots.
  assert (Hl' : ∀ p c, (p, c) ∈ map_to_list slots → is_Some (nodes a !! p)).
  { intros p c ?%elem_of_map_to_list. eauto. }
  pose proof (match_slots_none (map_to_list slots) None Hl') as Hnone.
  destruct (match_slots_total (map_to_list slots) None Hl') as [r Hr]. rewrite Hr in Hnone |- *. simpl.
  trans (Ok (E := SnapshotConsistencyError) r = Ok None).
  { destruct r as [[]|]; simpl; naive_solver. }
  rewrite Hnone. setoid_rewrite elem_of_map_to_list. naive_solver.
Qed.

(** *** A consistent slot map slots every node once *)
Section once.
Context (slots : gmap NodeIndex C) (Hs : slots_wf items a slots).

Definition slot_pairs (es : list (NodeIndex * C)) : list (NodeIndex * NodeIndex) :=
  es ≫= λ e, (λ ch, (e.1, ch)) <$> occupied items e.2.

Definition scan_pair (st : slot_scan) (e : NodeIndex * NodeIndex) : slot_scan := scan_child a e.1 st e.2.

Lemma scan_slots_pairs : scan_slots items a slots =
  foldl scan_pair (mkScan None None ∅) (slot_pairs (map_to_list slots)).
Proof.
  unfold scan_slots. generalize (mkScan None None ∅). generalize (map_to_list slots).
  induction l as [|[p c] l IH]; intros st; [done|]. simpl. rewrite IH, foldl_app. f_equal.
  generalize (occupied items c). clear. intros k. revert st.
  induction k as [|x k IH]; intros st; [done|]. simpl. apply IH.
Qed.

Lemma elem_of_slot_pairs p ch : (p, ch) ∈ slot_pairs (map_to_list slots) ↔
  ∃ n, nodes a !! p = Some n ∧ user_id n ≠ nil_uuid ∧ ch ∈ children n.
Proof.
  unfold slot_pairs. rewrite list_elem_of_bind. split.
  - intros ([q c] & Hin & Hq%elem_of_map_to_list). apply list_elem_of_fmap in Hin as (x & [= -> ->] & Hx).
    destruct (sm_entry items _ _ Hs q c Hq) as (n & Hn & Hl & Hc). exists n. by rewrite Hc.
  - intros (n & Hn & Hl & Hch). destruct (sm_live items _ _ Hs p n Hn Hl) as [c Hc].
    exists (p, c). split; [|by apply elem_of_map_to_list]. apply list_elem_of_fmap. exists ch.
    split; [done|]. simpl. rewrite occupied_flatten. by rewrite <- (sm_children items a slots p n c Hs Hc Hn).
Qed.

Lemma slot_pairs_nodup es : NoDup es.*1 → (∀ p c, (p, c) ∈ es → slots !! p = Some c) →
  NoDup (slot_pairs es).*2.
Proof.
  induction es as [|[p c] es IH]; intros Hnd Hes; [constructor|].
  simpl in Hnd. apply NoDup_cons in Hnd as [Hp Hnd].
  unfold slot_pairs. rewrite bind_cons, fmap_app. simpl.
  destruct (sm_entry items _ _ Hs p c) as (n & Hn & Hl & Hc); [apply Hes; left|].
  assert (Hocc : ((λ ch, (p, ch)) <$> occupied items c).*2 = children n).
  { rewrite <- list_fmap_compose. unfold occupied. rewrite Hc. apply list_fmap_id. }
  apply NoDup_app. rewrite Hocc. split_and!.
  - by eapply wf_children_nodup.
  - intros ch Hch Hch'. apply list_elem_of_fmap in Hch' as ([q x] & Heq & Hin). simpl in Heq. subst x.
    apply list_elem_of_bind in Hin as ([q' d] & Hx & Hq). apply list_elem_of_fmap in Hx as (x & [= -> ->] & Hx).
    destruct (sm_entry items _ _ Hs q' d) as (m & Hm & _ & Hd); [apply Hes; by right|].
    simpl in Hx. rewrite occupied_flatten, <- Hd in Hx.
    destruct (wf_children a Hwf p n x Hn Hch) as (nx & Hnx & Hpx).
    destruct (wf_children a Hwf q' m x Hm Hx) as (nx' & Hnx' & Hpx').
    assert (p = q') as -> by congruence. apply Hp, list_elem_of_fmap. by exists (q', d).
  - apply IH; [done|]. intros q d Hq. apply Hes. by right.
Qed.

(** Scanning distinct children that are neither the root nor their own parent. *)
Lemma scan_pairs_clean ps st : NoDup ps.*2 →
  (∀ p ch, (p, ch) ∈ ps → root a ≠ Some ch ∧ ch ≠ p ∧ parents_of st !! ch = None) →
  root_as_child st = None → self_as_child st = None →
  (∀ ch f r, parents_of st !! ch = Some (f, r) → r = []) →
  let st' := foldl scan_pair st ps in
  root_as_child st' = None ∧ self_as_child st' = None ∧
  (∀ ch f r, parents_of st' !! ch = Some (f, r) → r = []) ∧
  (∀ p ch, (p, ch) ∈ ps → is_Some (parents_of st' !! ch)) ∧
  (∀ ch, is_Some (parents_of st !! ch) → is_Some (parents_of st' !! ch)).
Proof.
  revert st. induction ps as [|[p ch] ps IH]; intros st Hnd Hps Hr Hself Hrest; simpl.
  { split_and!; try done. by intros ? ? ?%elem_of_nil. }
  simpl in Hnd. apply NoDup_cons in Hnd as [Hch Hnd].
  destruct (Hps p ch) as (H1 & H2 & H3); [left|].
  assert (Hst : scan_pair st (p, ch) = mkScan None None (<[ch := (p, [])]> (parents_of st))).
  { unfold scan_pair, scan_child; simpl.
    by rewrite !bool_decide_eq_false_2, Hr, Hself, H3. }
  rewrite Hst. destruct (IH (mkScan None None (<[ch := (p, [])]> (parents_of st)))) as (R1 & R2 & R3 & R4 & R5);
    [done| |done|done|..]; simpl.
  - intros q x Hx. destruct (Hps q x) as (? & ? & ?); [by right|]. split_and!; [done..|].
    rewrite lookup_insert_ne; [done|]. intros ->. apply Hch, list_elem_of_fmap. by exists (q, x).
  - intros x f r. destruct (decide (x = ch)) as [->|]; [rewrite lookup_insert_eq; congruence|].
    rewrite lookup_insert_ne by done. apply Hrest.
  - split_and!; [done..| |].
    + intros q x [[= -> ->]|Hx]%elem_of_cons; [|by eapply R4]. apply R5. simpl. rewrite lookup_insert_eq. eauto.
    + intros x Hx. apply R5. simpl. destruct (decide (x = ch)) as [->|]; [rewrite lookup_insert_eq; eauto|].
      by rewrite lookup_insert_ne.
Qed.

Lemma slotted_once_passes : check_every_live_node_is_slotted_once items a slots = Ok ().
Proof.
  unfold check_every_live_node_is_slotted_once. rewrite scan_slots_pairs.
  destruct (scan_pairs_clean (slot_pairs (map_to_list slots)) (mkScan None None ∅)) as (R1 & R2 & R3 & R4 & _);
    simpl; try done.
  - apply slot_pairs_nodup; [apply NoDup_fst_map_to_list|]. intros p c. by rewrite elem_of_map_to_list.
  - intros p ch (n & Hn & Hl & Hch)%elem_of_slot_pairs.
    destruct (wf_children a Hwf p n ch Hn Hch) as (nc & Hnc & Hp).
    destruct (wf_depth a Hwf ch nc p n Hnc Hp Hn) as [Hd _]. split_and!; [| |apply lookup_empty].
    + intros Hr. pose proof (root_parentless a ch nc Hwf Hr Hnc). congruence.
    + intros ->. assert (n = nc) as -> by congruence. lia.
  - rewrite R1, R2. simpl. set (st := foldl scan_pair _ _) in *.
    assert (repeated_child (parents_of st) = None) as ->.
    { unfold repeated_child. rewrite filter_all_false; [done|].
      intros [ch [f r]] Hin%elem_of_map_to_list. intros Hr. by apply R3 in Hin. }
    simpl. apply for_each_ok. intros [i n] Hi%elem_of_enumerate.
    destruct (is_nil (user_id n) || bool_decide (root a = Some i)) eqn:Hskip; [done|].
    apply orb_false_iff in Hskip as [Hnil Hnr]. unfold is_nil in Hnil.
    apply bool_decide_eq_false in Hnil, Hnr. rewrite refuse_if_ok, negb_false_iff, bool_decide_eq_true.
    destruct (parent n) as [p|] eqn:Hp.
    + destruct (wf_parent_live a Hwf i n p Hi Hp) as (np & Hnp & Hin & Hl).
      apply (R4 p i), elem_of_slot_pairs. eauto.
    + exfalso. destruct (root a) as [r|] eqn:Hr; [|by destruct Hnil; eapply wf_rootless].
      apply Hnr. f_equal. symmetry. by eapply wf_root_unique.
Qed.
End once.

Lemma slot_checks_iff extra (slots : gmap NodeIndex C) :
  (check_slot_entries items extra a slots;;
  check_every_live_node_has_a_slot a slots;;
  check_every_live_node_is_slotted_once items a slots;;
  check_children_match_slots items a slots) = Ok () ↔
  slots_wf items a slots ∧ ∀ i c, slots !! i = Some c → extra i c = None.
Proof.
  rewrite !bind_unit_ok, has_a_slot_ok. unfold check_slot_entries.
  assert (Hent : raise (lowest_fault Nat.ltb (slot_entry_fault items extra a) (map_to_list slots)) = Ok () ↔
    ∀ p c, slots !! p = Some c → slot_entry_fault items extra a p c = None).
  { trans (lowest_fault Nat.ltb (slot_entry_fault items extra a) (map_to_list slots) = None).
    - destruct (lowest_fault _ _ _) as [[]|]; simpl; naive_solver.
    - rewrite lowest_fault_none. by setoid_rewrite elem_of_map_to_list. }
  rewrite Hent. setoid_rewrite slot_entry_fault_none. split.
  - intros (He & Hl & _ & Hm). rewrite children_match_ok in Hm.
    2:{ intros p c Hp. destruct (He p c Hp) as ((n & ? & _) & _). eauto. }
    split; [split; [|done]|intros i c Hc; by apply (He i c)].
    intros i c Hc. destruct (He i c Hc) as ((n & Hn & Hnl) & _). exists n. split_and!; [done..|by eapply Hm].
  - intros [Hs Hx]. split_and!.
    + intros p c Hc. destruct (sm_entry items _ _ Hs p c Hc) as (n & Hn & Hl & Hch). split_and!; [by exists n|by apply Hx|].
      rewrite occupied_flatten, <- Hch. intros ch Hin.
      destruct (wf_child_live a Hwf p n ch Hn Hin) as (nc & ? & _ & ?). by exists nc.
    + apply (sm_live items _ _ Hs).
    + by apply slotted_once_passes.
    + apply children_match_ok; [|intros p c n Hc Hn; by eapply sm_children].
      intros p c Hc. destruct (sm_entry items _ _ Hs p c Hc) as (n & Hn & _). eauto.
Qed.
End slot_checks_iff.
