(* ===== verification/Binary.v ===== *)
(** * The binary tree: [tree/binary.rs]

    An arena plus two child slots per node, left (0) and right (1); a node's
    children are rebuilt from its occupied slots. The theorems show that the
    public operations keep arena and slot map in step, that a restored tree is
    accepted exactly when they are, and that a sequence of requests computes
    what the abstract network with sides prescribes. *)

From stdpp Require Import base numbers list gmap strings.
From Stdlib Require Import ZArith Lia.
From S2P Require Import Prelude TreeTypes Arena ArenaCheck ArenaWf ArenaOps ArenaWalk ArenaRestore.
From S2P Require Import Members SlotMap Unilevel.

Module Binary.

(** [[Option<NodeIndex>; 2]] *)
Abbreviation sides := (option NodeIndex * option NodeIndex)%type.
Definition both {A} (s : A * A) : list A := [s.1; s.2].

(** [slots[position]]; a position above 1 is out of bounds. *)
Definition side {A} (s : A * A) (position : nat) : option A := both s !! position.
Definition set_side {A} (s : A * A) (position : nat) (x : A) : A * A :=
  match position with 0 => (x, s.2) | _ => (s.1, x) end.
Definition no_sides {A} : option A * option A := (None, None).

Record BinaryTree := mkBinary { arena : Arena; slots : gmap NodeIndex sides }.

Definition new : BinaryTree := mkBinary arena_new ∅.

Definition validate_restored (t : BinaryTree) : check_result :=
  ArenaCheck.validate_restored (arena t);;
  check_slot_entries both (λ _ _, None) (arena t) (slots t);;
  check_every_live_node_has_a_slot (arena t) (slots t);;
  check_every_live_node_is_slotted_once both (arena t) (slots t);;
  check_children_match_slots both (arena t) (slots t).

Definition check_add_root (t : BinaryTree) (u : Uuid) : outcome TreeError unit :=
  check_user_id u;;
  refuse_if (bool_decide (is_Some (root (arena t)))) RootAlreadyExists;;
  refuse_if (bool_decide (is_Some (index (arena t) !! u))) (UserAlreadyExists u).

Definition add_root (t : BinaryTree) (u : Uuid) (at_ : Z) : outcome TreeError (BinaryTree * NodeIndex) :=
  check_add_root t u;;
  '(a, idx) ← alloc_slot (arena t) (mkNode u None [] None [] 0 at_);
  let a := with_index (λ m, <[u := idx]> m) a in
  let a := with_root (Some idx) a in
  Ok (mkBinary a (<[idx := no_sides]> (slots t)), idx).

Definition check_add_node (t : BinaryTree) (u parent_id : Uuid) (position : nat) (sponsor_id : Uuid)
  : outcome TreeError unit :=
  check_user_id u;;
  refuse_if (1 <? position)%nat (PositionOutOfRange parent_id position 2);;
  refuse_if (bool_decide (is_Some (index (arena t) !! u))) (UserAlreadyExists u);;
  parent_idx ← resolve (arena t) parent_id;
  _ ← map_err sponsor_error (resolve (arena t) sponsor_id);
  let parent_slots := default no_sides (slots t !! parent_idx) in
  s ← expect (side parent_slots position);
  refuse_if (bool_decide (is_Some s)) (PositionOccupied parent_id position).

(** The parent's children, rebuilt from its slots. *)
Definition rebuild_children {E} (a : Arena) (sl : gmap NodeIndex sides) (parent_idx : NodeIndex)
  : outcome E Arena :=
  s ← expect (sl !! parent_idx);
  let children := (match s.1 with Some l => [l] | None => [] end) ++
              (match s.2 with Some r => [r] | None => [] end) in
  node_mut a parent_idx (with_children (λ _, children)).

Definition add_node (t : BinaryTree) (u parent_id : Uuid) (position : nat) (sponsor_id : Uuid) (at_ : Z)
  : outcome TreeError (BinaryTree * NodeIndex) :=
  check_add_node t u parent_id position sponsor_id;;
  parent_idx ← resolve (arena t) parent_id;
  sponsor_idx ← resolve (arena t) sponsor_id;
  np ← node (arena t) parent_idx;
  d ← u32_add (depth np) 1;
  '(a, idx) ← alloc_slot (arena t) (mkNode u (Some parent_idx) [] (Some sponsor_idx) [] d at_);
  let a := with_index (λ m, <[u := idx]> m) a in
  let sl := <[idx := no_sides]> (slots t) in
  s ← expect (sl !! parent_idx);
  let sl := <[parent_idx := set_side s position (Some idx)]> sl in
  a ← rebuild_children a sl parent_idx;
  a ← node_mut a sponsor_idx (with_sponsored (λ l, l ++ [idx]));
  Ok (mkBinary a sl, idx).

Definition check_remove_node (t : BinaryTree) (u : Uuid) : outcome TreeError unit :=
  idx ← resolve (arena t) u;
  n ← node (arena t) idx;
  let child_count := length (children n) in
  refuse_if (0 <? child_count)%nat (HasChildren u child_count);;
  check_sponsored_removable (arena t) [idx].

Definition clear_side (idx : NodeIndex) (o : option NodeIndex) : option NodeIndex :=
  if decide (o = Some idx) then None else o.

Definition remove_node (t : BinaryTree) (u : Uuid) : outcome TreeError (BinaryTree * list Responsored) :=
  check_remove_node t u;;
  idx ← resolve (arena t) u;
  n ← node (arena t) idx;
  '(a, sl) ← match parent n with
         | Some p =>
             s ← expect (slots t !! p);
             let sl := <[p := prod_map (clear_side idx) (clear_side idx) s]> (slots t) in
             a ← rebuild_children (arena t) sl p;
             Ok (a, sl)
         | None => Ok (arena t, slots t)
         end;
  n ← node a idx;
  a ← match sponsor n with
  | Some s => node_mut a s (with_sponsored (filter (λ r, r ≠ idx)))
  | None => Ok a
  end;
  let a := if bool_decide (root a = Some idx) then with_root None a else a in
  '(a, moved) ← reparent_sponsored a [idx];
  let sl := delete idx sl in
  let a := with_index (delete u) a in
  a ← tombstone a idx;
  Ok (mkBinary a sl, moved).

Definition with_position (p : nat) (tp : TreePosition) : TreePosition :=
  mkTreePosition (tp_user_id tp) (tp_parent_user_id tp) (tp_sponsor_user_id tp) p (tp_depth tp)
  (tp_child_count tp) (tp_downline_counts tp) (tp_enrolled_at tp).
Definition with_counts (m : gmap nat nat) (tp : TreePosition) : TreePosition :=
  mkTreePosition (tp_user_id tp) (tp_parent_user_id tp) (tp_sponsor_user_id tp) (tp_position tp)
  (tp_depth tp) (tp_child_count tp) m (tp_enrolled_at tp).

Definition side_count {E} (a : Arena) (o : option NodeIndex) : outcome E nat :=
  match o with Some c => count_subtree a c | None => Ok 0 end.

Definition get_position (t : BinaryTree) (u : Uuid) : outcome TreeError TreePosition :=
  idx ← resolve (arena t) u;
  pos ← Arena.get_position (arena t) idx;
  n ← node (arena t) idx;
  pos ← match parent n with
    | None => Ok pos
    | Some p =>
        s ← expect (slots t !! p);
        Ok (if bool_decide (s.1 = Some idx) then with_position 0 pos
            else if bool_decide (s.2 = Some idx) then with_position 1 pos else pos)
    end;
  node_slots ← expect (slots t !! idx);
  left ← side_count (arena t) node_slots.1;
  right ← side_count (arena t) node_slots.2;
  Ok (with_counts (<[1 := right]> (<[0 := left]> ∅)) pos).

Definition branch_slot (t : BinaryTree) (u : Uuid) (position : nat)
  : outcome TreeError (option NodeIndex) :=
  idx ← resolve (arena t) u;
  node_slots ← expect (slots t !! idx);
  refuse_if (1 <? position)%nat (PositionOutOfRange u position 2);;
  expect (side node_slots position).

Definition get_branch (t : BinaryTree) (u : Uuid) (position : nat) : outcome TreeError (list Node) :=
  s ← branch_slot t u position;
  match s with
  | Some child_idx => collect_subtree (arena t) child_idx
  | None => Ok []
  end.

Definition count_branch (t : BinaryTree) (u : Uuid) (position : nat) : outcome TreeError nat :=
  s ← branch_slot t u position;
  match s with
  | Some child_idx => count ← count_subtree (arena t) child_idx; Ok (1 + count)
  | None => Ok 0
  end.

(** ** Invariant and reachable trees *)
Record binary_wf (t : BinaryTree) : Prop := {
  bw_arena : arena_wf (arena t);
  bw_slots : slots_wf both (arena t) (slots t);
}.

Inductive step : BinaryTree → BinaryTree → Prop :=
| step_root t u at_ t' idx : add_root t u at_ = Ok (t', idx) → step t t'
| step_add t u p k s at_ t' idx : add_node t u p k s at_ = Ok (t', idx) → step t t'
| step_remove t u t' moved : remove_node t u = Ok (t', moved) → step t t'.

Definition reachable (t : BinaryTree) : Prop := rtc step new t.
End Binary.
Import Binary.

(** ** Two slots *)

Lemma both_flatten (s : sides) : flatten (both s) =
  (match s.1 with Some l => [l] | None => [] end) ++ (match s.2 with Some r => [r] | None => [] end).
Proof. by destruct s as [[]  []]. Qed.

Lemma both_set_side (s : sides) k x : k ≤ 1 → both (set_side s k x) = <[k := x]> (both s).
Proof. intros Hk. by destruct k as [|[|]]; [| |lia]. Qed.

Lemma both_clear (s : sides) idx :
  both (prod_map (clear_side idx) (clear_side idx) s) = clear_slot idx (both s).
Proof. done. Qed.

Lemma side_both (s : sides) k : k ≤ 1 → ∃ o, side s k = Some o ∧ both s !! k = Some o.
Proof. intros Hk. destruct k as [|[|]]; [| |lia]; eexists; by split. Qed.

(** Rebuilding writes the occupied slots, in slot order. *)
Lemma rebuild_ok {E} a sl p s n : sl !! p = Some s → nodes a !! p = Some n → user_id n ≠ nil_uuid →
  @rebuild_children E a sl p = Ok (with_nodes (alter (with_children (λ _, flatten (both s))) p) a).
Proof.
  intros Hs Hn Hl. unfold rebuild_children. rewrite Hs. simpl. rewrite <- both_flatten.
  by rewrite (node_mut_ok a p _ n Hn Hl).
Qed.

(** ** Placement *)

Lemma binary_check_add_node_cases t u p k s :
  check_add_node t u p k s =
    if decide (u = nil_uuid) then Err NilUserId
    else if decide (1 < k) then Err (PositionOutOfRange p k 2)
    else if decide (is_Some (index (arena t) !! u)) then Err (UserAlreadyExists u)
    else match index (arena t) !! p, index (arena t) !! s with
         | None, _ => Err (UserNotFound p)
         | Some _, None => Err (SponsorNotFound s)
         | Some ip, Some _ =>
             if decide (side (default no_sides (slots t !! ip)) k = Some None) then Ok ()
             else Err (PositionOccupied p k)
         end.
Proof.
  unfold check_add_node, check_user_id, is_nil, resolve.
  destruct (decide (u = nil_uuid)) as [->|Hu]; [done|].
  rewrite (bool_decide_eq_false_2 (u = nil_uuid)) by done. cbn [refuse_if mbind outcome_bind].
  destruct (decide (1 < k)) as [Hk|Hk].
  { by rewrite (proj2 (Nat.ltb_lt 1 k) Hk). }
  rewrite (proj2 (Nat.ltb_ge 1 k)) by lia. cbn [refuse_if mbind outcome_bind].
  destruct (decide (is_Some (index (arena t) !! u))) as [Hi|Hi].
  { by rewrite (bool_decide_eq_true_2 _ Hi). }
  rewrite (bool_decide_eq_false_2 _ Hi). cbn [refuse_if mbind outcome_bind].
  destruct (index (arena t) !! p) as [ip|]; [|done].
  destruct (index (arena t) !! s) as [isp|]; [|done]. cbn [ok_or mbind outcome_bind map_err].
  destruct (side_both (default no_sides (slots t !! ip)) k ltac:(lia)) as (o & -> & _).
  by destruct o as [c|].
Qed.

Lemma binary_check_add_node_ok t u p k s : check_add_node t u p k s = Ok () →
  u ≠ nil_uuid ∧ k ≤ 1 ∧ index (arena t) !! u = None ∧
  ∃ ip isp, index (arena t) !! p = Some ip ∧ index (arena t) !! s = Some isp ∧
    side (default no_sides (slots t !! ip)) k = Some None.
Proof.
  rewrite binary_check_add_node_cases. repeat case_decide; try done.
  destruct (index _ !! p) as [ip|] eqn:?, (index _ !! s) eqn:?; try done. case_decide; [|done]. intros _.
  split_and!; [done|lia|by apply eq_None_not_Some|eauto].
Qed.

Lemma binary_add_node_ok t u p k s at_ ip np isp : binary_wf t → check_add_node t u p k s = Ok () →
  index (arena t) !! p = Some ip → nodes (arena t) !! ip = Some np →
  index (arena t) !! s = Some isp → (depth np < u32_max)%N →
  ∃ t' idx ns sp, add_node t u p k s at_ = Ok (t', idx) ∧ binary_wf t' ∧
    nodes (arena t) !! isp = Some ns ∧ slots t !! ip = Some sp ∧
    slots t' = <[ip := set_side sp k (Some idx)]> (<[idx := no_sides]> (slots t)) ∧
    attach (arena t) (arena t') idx (mkNode u (Some ip) [] (Some isp) [] (depth np + 1) at_)
      ip isp np ns (flatten (both (set_side sp k (Some idx)))).
Proof.
  intros [Hwf Hsl] Hc Hp Hnp Hs Hd.
  destruct (binary_check_add_node_ok t u p k s Hc) as (Hu & Hk & Hnone & ip' & isp' & Hp' & _ & Hside).
  assert (ip' = ip) as -> by congruence.
  destruct (resolve_live _ Hwf p ip Hp) as (np' & Hnp' & Hpu & Hpl). assert (np' = np) as -> by congruence.
  assert (Hpl' : user_id np ≠ nil_uuid) by congruence.
  destruct (resolve_live _ Hwf s isp Hs) as (ns & Hns & Hsu & Hsl').
  assert (Hsl0 : user_id ns ≠ nil_uuid) by congruence.
  destruct (sm_live _ _ _ Hsl ip np Hnp Hpl') as [sp Hsp]. rewrite Hsp in Hside. simpl in Hside.
  unfold add_node. rewrite Hc. cbn [mbind outcome_bind].
  rewrite (resolve_ok _ _ _ Hp), (resolve_ok _ _ _ Hs). cbn [mbind outcome_bind].
  rewrite (node_ok _ _ _ Hnp Hpl'). cbn [mbind outcome_bind]. unfold u32_add.
  destruct (N.leb_spec (depth np + 1) u32_max) as [Hle|]; [|lia]. cbn [mbind outcome_bind].
  destruct (alloc_slot_spec (E := TreeError) (arena t)
    (mkNode u (Some ip) [] (Some isp) [] (depth np + 1) at_) Hwf) as (a1 & idx & -> & Hal).
  cbn [mbind outcome_bind]. pose proof (place_ne _ _ _ _ _ _ _ _ Hal ip np Hnp Hpl') as Hne.
  rewrite lookup_insert_ne, Hsp by done. cbn [expect mbind outcome_bind].
  set (g := λ _ : list NodeIndex, flatten (both (set_side sp k (Some idx)))).
  erewrite rebuild_ok; [|apply lookup_insert_eq|exact (place_parent_slot _ _ _ _ _ _ _ _ Hal Hnp Hpl')|done].
  cbn [mbind outcome_bind]. fold g.
  rewrite (place_sponsor_write _ _ _ _ _ _ _ ns _ g Hal Hns Hsl0). cbn [mbind outcome_bind].
  assert (Hg : ∃ l1 l2, children np = l1 ++ l2 ∧ g (children np) = l1 ++ idx :: l2).
  { unfold g. rewrite (sm_children _ _ _ ip np sp Hsl Hsp Hnp), both_set_side by done. by apply flatten_fill. }
  pose proof (place_attach (arena t) a1 idx u ip isp np ns at_ g
    Hwf Hal Hnp Hpl' Hns Hsl0 Hu Hnone Hle Hg) as Hat.
  eexists _, idx, ns, sp. split; [done|]. split_and!; [|exact Hns|done|done|exact Hat].
  split; simpl; [eapply wf_attach; [exact Hwf|exact Hat]|].
  eapply slots_attach; [exact Hat|done|done|done].
Qed.

(** ** Removal *)

Lemma binary_check_remove_node t u :
  check_remove_node t u = Unilevel.Unilevel.check_remove_node (Unilevel.Unilevel.mkUnilevel (arena t)) u.
Proof. done. Qed.

(** The parent's entry with the removed child cleared. *)
Definition cleared (t : BinaryTree) (idx : NodeIndex) (n0 : Node) : option (NodeIndex * sides) :=
  p ← parent n0; s ← slots t !! p; Some (p, prod_map (clear_side idx) (clear_side idx) s).

Section clear_child.
Context (t : BinaryTree) (idx : NodeIndex) (n0 : Node).
Context (Hwf : arena_wf (arena t)) (Hsl : slots_wf both (arena t) (slots t)).
Context (Hn : nodes (arena t) !! idx = Some n0).

Definition slots_after : gmap NodeIndex sides :=
  match cleared t idx n0 with Some (p, c) => <[p := c]> (slots t) | None => slots t end.

(** The children the parent is rebuilt with. *)
Definition regrown (_ : list NodeIndex) : list NodeIndex :=
  match cleared t idx n0 with Some (_, c) => flatten (both c) | None => [] end.

Lemma cleared_parent : parent n0 = fst <$> cleared t idx n0.
Proof.
  unfold cleared. destruct (parent n0) as [p|] eqn:Hp; [|done]. simpl.
  destruct (wf_parent_live _ Hwf idx n0 p Hn Hp) as (np & Hnp & _ & Hpl).
  by destruct (sm_live _ _ _ Hsl p np Hnp Hpl) as [s ->].
Qed.

Lemma regrown_spec p np : parent n0 = Some p → nodes (arena t) !! p = Some np →
  regrown (children np) = filter (λ c, c ≠ idx) (children np) ∧
  ∃ s, slots t !! p = Some s ∧ cleared t idx n0 = Some (p, prod_map (clear_side idx) (clear_side idx) s).
Proof.
  intros Hp Hnp. destruct (wf_parent_live _ Hwf idx n0 p Hn Hp) as (np' & Hnp' & _ & Hpl).
  assert (np' = np) as -> by congruence. destruct (sm_live _ _ _ Hsl p np Hnp Hpl) as [s Hs].
  unfold regrown, cleared. rewrite Hp. cbn [mbind option_bind]. rewrite Hs. cbn [mbind option_bind].
  split; [|eauto].
  rewrite both_clear, flatten_clear. by rewrite (sm_children _ _ _ p np s Hsl Hs Hnp).
Qed.

Lemma regrown_elem p np : parent n0 = Some p → nodes (arena t) !! p = Some np →
  NoDup (regrown (children np)) ∧ ∀ c, c ∈ regrown (children np) ↔ c ∈ children np ∧ c ≠ idx.
Proof.
  intros Hp Hnp. destruct (regrown_spec p np Hp Hnp) as [-> _].
  split; [apply NoDup_filter; by eapply wf_children_nodup|].
  intros c. rewrite list_elem_of_filter. naive_solver.
Qed.

Lemma clear_child_step :
  match parent n0 with
  | Some p => s ← expect (slots t !! p);
  a ← rebuild_children (arena t) (<[p := prod_map (clear_side idx) (clear_side idx) s]> (slots t)) p;
  Ok (a, <[p := prod_map (clear_side idx) (clear_side idx) s]> (slots t))
  | None => Ok (E := TreeError) (arena t, slots t)
  end = Ok (unparented (arena t) n0 regrown, slots_after).
Proof.
  unfold unparented, slots_after. destruct (parent n0) as [p|] eqn:Hp; [|unfold cleared; by rewrite Hp].
  destruct (wf_parent_live _ Hwf idx n0 p Hn Hp) as (np & Hnp & _ & Hpl).
  destruct (regrown_spec p np Hp Hnp) as (_ & s & Hs & Hcl). rewrite Hs. cbn [expect mbind outcome_bind].
  rewrite (rebuild_ok _ _ p _ np (lookup_insert_eq _ _ _) Hnp Hpl). cbn [mbind outcome_bind].
  unfold regrown. by rewrite Hcl.
Qed.
End clear_child.

Lemma binary_remove_node_ok t u idx n0 : binary_wf t → check_remove_node t u = Ok () →
  index (arena t) !! u = Some idx → nodes (arena t) !! idx = Some n0 →
  ∃ t', remove_node t u = Ok (t', moves (arena t) n0) ∧ binary_wf t' ∧
    slots t' = delete idx (slots_after t idx n0) ∧
    detach (arena t) (arena t') idx n0
      (new_children (arena t) n0 (regrown t idx n0)) (new_sponsored (arena t) idx n0).
Proof.
  intros [Hwf Hsl] Hc Hi Hn. unfold remove_node. rewrite Hc. cbn [mbind outcome_bind].
  destruct (resolve_live _ Hwf u idx Hi) as (n & Hn' & Hu & Hnil).
  assert (n = n0) as -> by congruence. assert (Hl : user_id n0 ≠ nil_uuid) by congruence.
  rewrite binary_check_remove_node in Hc. setoid_rewrite Unilevel.check_remove_node_cases in Hc; [|exact Hwf].
  simpl in Hc. rewrite Hi, Hn in Hc.
  destruct (decide (children n0 ≠ [])) as [|Hleaf]; [done|]. apply dec_stable in Hleaf.
  destruct (decide (sponsored n0 ≠ [] ∧ sponsor n0 = None)) as [|Hrec]; [done|].
  rewrite (resolve_ok _ _ _ Hi). cbn [mbind outcome_bind]. rewrite (node_ok _ _ _ Hn Hl). cbn [mbind outcome_bind].
  set (g := regrown t idx n0) in *.
  destruct (remove_leaf (arena t) idx n0 g Hwf Hn Hl Hleaf) as (a4 & a6 & Hre & Hto & Hdt);
    [|exact (regrown_elem t idx n0 Hwf Hsl Hn)|].
  { intros Hs. destruct (decide (sponsored n0 = [])); [done|naive_solver]. }
  rewrite (clear_child_step t idx n0 Hwf Hsl Hn). cbn [mbind outcome_bind]. fold g.
  rewrite (node_ok _ _ _ (unparented_self (arena t) idx n0 g Hwf Hn Hleaf) Hl). cbn [mbind outcome_bind].
  rewrite (unsponsor_ok (arena t) idx n0 g Hwf Hn). cbn [mbind outcome_bind]. fold (unlinked (arena t) idx n0 g).
  rewrite Hre. cbn [mbind outcome_bind]. rewrite <- Hu, Hto. cbn [mbind outcome_bind].
  eexists. split; [done|]. split_and!; [split; simpl|done|exact Hdt].
  - by eapply wf_detach.
  - eapply slots_detach; [exact Hwf|exact Hdt|done|by apply cleared_parent|].
    intros p c Hcl. pose proof (cleared_parent t idx n0 Hwf Hsl Hn) as Hp. rewrite Hcl in Hp. simpl in Hp.
    unfold new_children. rewrite Hp. destruct (wf_parent _ Hwf idx n0 p Hn Hp) as (np & -> & _). simpl.
    unfold g, regrown. by rewrite Hcl.
Qed.

Lemma binary_add_root_ok t u at_ : binary_wf t → check_add_root t u = Ok () →
  ∃ t' idx, add_root t u at_ = Ok (t', idx) ∧ binary_wf t' ∧
    nodes (arena t') !! idx = Some (mkNode u None [] None [] 0 at_) ∧
    index (arena t') = <[u := idx]> (index (arena t)) ∧ slots t' = <[idx := no_sides]> (slots t) ∧
    root (arena t) = None.
Proof.
  intros [Hwf Hsl] Hc. unfold add_root. rewrite Hc. cbn [mbind outcome_bind].
  unfold check_add_root in Hc. apply bind_unit_ok in Hc as [Hu Hc].
  apply bind_unit_ok in Hc as [Hr Hi]. apply refuse_if_ok in Hu, Hr, Hi.
  apply bool_decide_eq_false in Hu, Hr, Hi. rewrite <- eq_None_not_Some in Hr, Hi.
  destruct (alloc_slot_spec (E := TreeError) (arena t) (mkNode u None [] None [] 0 at_) Hwf)
    as (a1 & idx & -> & [Hf Hn Hix Hrt Hfl]). cbn [mbind outcome_bind].
  do 2 eexists. split; [done|]. split_and!; simpl; [split; simpl|..|done|done].
  - eapply (wf_place_root (arena t) _ idx (mkNode u None [] None [] 0 at_)); simpl; auto.
    + split_and!; done.
    + by rewrite Hix.
  - by eapply (slots_place_root both (arena t) _ _ idx (mkNode u None [] None [] 0 at_)).
  - rewrite Hn. by rewrite decide_True.
  - by rewrite Hix.
Qed.

(** ** Inversion and the invariant *)

Lemma binary_add_node_inv t u p k s at_ t' idx : binary_wf t → add_node t u p k s at_ = Ok (t', idx) →
  check_add_node t u p k s = Ok () ∧ binary_wf t' ∧
  ∃ ip np, index (arena t) !! p = Some ip ∧ nodes (arena t) !! ip = Some np ∧ (depth np < u32_max)%N.
Proof.
  intros Hb Hadd. pose proof Hb as [Hwf _]. pose proof Hadd as Hadd0. unfold add_node in Hadd.
  apply bind_unit_ok in Hadd as [Hc Hadd].
  destruct (binary_check_add_node_ok t u p k s Hc) as (_ & _ & _ & ip & isp & Hp & Hs & _).
  rewrite (resolve_ok _ _ _ Hp), (resolve_ok _ _ _ Hs) in Hadd. cbn [mbind outcome_bind] in Hadd.
  destruct (resolve_live _ Hwf p ip Hp) as (np & Hnp & Hpu & Hpl).
  rewrite (node_ok _ _ np Hnp) in Hadd by congruence. cbn [mbind outcome_bind] in Hadd.
  unfold u32_add in Hadd. destruct (N.leb_spec (depth np + 1) u32_max) as [Hd|]; [|done].
  destruct (binary_add_node_ok t u p k s at_ ip np isp Hb Hc Hp Hnp Hs ltac:(lia))
    as (t1 & idx1 & ns & sp & Hadd1 & Hwf1 & _).
  rewrite Hadd0 in Hadd1. simplify_eq. split_and!; [done..|]. exists ip, np. split_and!; [done..|lia].
Qed.

Lemma binary_remove_node_inv t u t' moved : binary_wf t → remove_node t u = Ok (t', moved) → binary_wf t'.
Proof.
  intros Hb Hrm. pose proof Hb as [Hwf _]. pose proof Hrm as Hrm0. unfold remove_node in Hrm.
  apply bind_unit_ok in Hrm as [Hc _]. pose proof Hc as Hc0.
  unfold check_remove_node, resolve in Hc. apply bind_ok in Hc as (idx & Hi%ok_or_ok & _).
  destruct (resolve_live _ Hwf u idx Hi) as (n0 & Hn & Hu & _).
  destruct (binary_remove_node_ok t u idx n0 Hb Hc0 Hi Hn) as (t1 & Hrm1 & Hwf1 & _).
  rewrite Hrm0 in Hrm1. by simplify_eq.
Qed.

Lemma binary_add_root_inv t u at_ t' idx : binary_wf t → add_root t u at_ = Ok (t', idx) → binary_wf t'.
Proof.
  intros Hb Hadd. pose proof Hadd as Hadd0. unfold add_root in Hadd. apply bind_unit_ok in Hadd as [Hc _].
  destruct (binary_add_root_ok t u at_ Hb Hc) as (t1 & i1 & Hadd1 & Hwf1 & _).
  rewrite Hadd0 in Hadd1. by simplify_eq.
Qed.

Lemma binary_new_wf : binary_wf new.
Proof. split; [apply arena_new_wf|]. split; simpl; [by intros i c ?%lookup_empty_Some|done]. Qed.

Lemma reachable_binary_wf t : reachable t → binary_wf t.
Proof.
  unfold reachable. intros H. remember new as t0 eqn:Ht0.
  assert (binary_wf t0) as Hwf by (subst; apply binary_new_wf). clear Ht0.
  induction H as [|x y z Hs _ IH]; [done|]. apply IH. destruct Hs.
  - by eapply binary_add_root_inv.
  - by eapply binary_add_node_inv.
  - by eapply binary_remove_node_inv.
Qed.

(** Every binary tree the public operations build keeps the arena invariant
    and a slot map in step with it: exactly the live nodes have an entry, and
    each node's children are its occupied slots, left before right. *)
Theorem binary_reachable_wf t : reachable t → binary_wf t.
Proof. exact (reachable_binary_wf t). Qed.

(** A restored binary tree is accepted exactly when arena and slot map
    satisfy that invariant. *)
Theorem binary_validate_restored_iff t : validate_restored t = Ok () ↔ binary_wf t.
Proof.
  unfold validate_restored. rewrite bind_unit_ok. split.
  - intros [Hwf%validate_restored_sound Hs]. split; [done|]. by apply slot_checks_iff in Hs as [? _].
  - intros [Hwf Hs]. split; [by apply validate_restored_complete|]. by apply slot_checks_iff.
Qed.

(** ** Refinement: the network with sides *)

Definition usides (a : Arena) (s : sides) : option Uuid * option Uuid :=
  (uid a <$> s.1, uid a <$> s.2).

Definition lanes (t : BinaryTree) : gmap Uuid (option Uuid * option Uuid) :=
  omap (λ i, usides (arena t) <$> slots t !! i) (index (arena t)).

Definition binary_network (t : BinaryTree) : network * gmap Uuid (option Uuid * option Uuid) :=
  (members (arena t), lanes t).

Lemma lanes_lookup t v : lanes t !! v = (i ← index (arena t) !! v; usides (arena t) <$> slots t !! i).
Proof. unfold lanes. by rewrite lookup_omap. Qed.

Lemma usides_ext a a' (s : sides) : (∀ c, c ∈ flatten (both s) → uid a' c = uid a c) → usides a' s = usides a s.
Proof.
  intros H. destruct s as [[l|] [r|]]; unfold usides; simpl; rewrite ?(H l), ?(H r); try done;
    (by left || by right; left).
Qed.

Lemma both_usides a (s : sides) : both (usides a s) = option_map (uid a) <$> both s.
Proof. done. Qed.

Lemma usides_set a (s : sides) k c : k ≤ 1 → usides a (set_side s k (Some c)) = set_side (usides a s) k (Some (uid a c)).
Proof. intros Hk. by destruct k as [|[|]]; [| |lia]. Qed.

Lemma side_usides a (s : sides) k : side (usides a s) k = Some None ↔ side s k = Some None.
Proof. destruct s as [[] []], k as [|[|[]]]; unfold side, usides; simpl; naive_solver. Qed.

Module BinarySpec.
Abbreviation state := (network * gmap Uuid (option Uuid * option Uuid))%type.

Inductive op :=
| AddRoot (u : Uuid) (at_ : Z)
| AddNode (u parent_id : Uuid) (position : nat) (sponsor_id : Uuid) (at_ : Z)
| RemoveNode (u : Uuid).

Definition exec (t : BinaryTree) (o : op) : outcome TreeError (BinaryTree * list Responsored) :=
  match o with
  | AddRoot u at_ => '(t, _) ← add_root t u at_; Ok (t, [])
  | AddNode u p k s at_ => '(t, _) ← add_node t u p k s at_; Ok (t, [])
  | RemoveNode u => remove_node t u
  end.

Definition spec_add_root (st : state) (u : Uuid) (at_ : Z) : outcome TreeError state :=
  M ← Unilevel.Unilevel.spec_add_root st.1 u at_;
  Ok (M, {[u := no_sides]}).

Definition spec_add_node (st : state) (u p : Uuid) (k : nat) (s : Uuid) (at_ : Z) : outcome TreeError state :=
  if decide (u = nil_uuid) then Err NilUserId
  else if decide (1 < k) then Err (PositionOutOfRange p k 2)
  else if decide (is_Some (st.1 !! u)) then Err (UserAlreadyExists u)
  else match st.1 !! p, st.1 !! s with
   | None, _ => Err (UserNotFound p)
   | Some _, None => Err (SponsorNotFound s)
   | Some mp, Some _ =>
       let sp := default no_sides (st.2 !! p) in
       if decide (side sp k = Some None) then
         if (m_depth mp <? u32_max)%N
         then Ok (place (λ _, flatten (both (set_side sp k (Some u)))) u p s (m_depth mp + 1) at_ st.1,
                  <[p := set_side sp k (Some u)]> (<[u := no_sides]> st.2))
         else Panic
       else Err (PositionOccupied p k)
   end.

Definition drop_side (u : Uuid) (o : option Uuid) : option Uuid := if decide (o = Some u) then None else o.

Definition spec_remove_node (st : state) (u : Uuid) : outcome TreeError (state * list Responsored) :=
  '(M, moved) ← Unilevel.Unilevel.spec_remove_node st.1 u;
  Ok ((M, prod_map (drop_side u) (drop_side u) <$> delete u st.2), moved).

Definition spec (st : state) (o : op) : outcome TreeError (state * list Responsored) :=
  match o with
  | AddRoot u at_ => st ← spec_add_root st u at_; Ok (st, [])
  | AddNode u p k s at_ => st ← spec_add_node st u p k s at_; Ok (st, [])
  | RemoveNode u => spec_remove_node st u
  end.
End BinarySpec.
Import BinarySpec.

Lemma binary_add_root_refines t u at_ : binary_wf t →
  (λ '(t', _), binary_network t') <$> add_root t u at_ = spec_add_root (binary_network t) u at_.
Proof.
  intros Hb. pose proof Hb as [Hwf _]. unfold spec_add_root, Unilevel.Unilevel.spec_add_root.
  pose proof (Unilevel.check_add_root_cases (Unilevel.Unilevel.mkUnilevel (arena t)) u Hwf) as Hc.
  change (Unilevel.Unilevel.check_add_root _ u) with (check_add_root t u) in Hc. simpl in Hc. simpl.
  destruct (decide (u = nil_uuid)); [unfold add_root; by rewrite Hc|].
  destruct (decide (members (arena t) ≠ ∅)); [unfold add_root; by rewrite Hc|].
  destruct (binary_add_root_ok t u at_ Hb Hc) as (t' & idx & -> & _ & Hn & Hi & Hs & Hr). simpl.
  destruct (members_place_root _ _ idx (mkNode u None [] None [] 0 at_) Hwf Hr Hn Hi) as [He Hm]; try done.
  unfold binary_network. rewrite Hm. do 2 f_equal. apply map_eq. intros v. rewrite lanes_lookup, Hi.
  destruct (decide (v = u)) as [->|Hv].
  - rewrite lookup_insert_eq, lookup_singleton_eq. simpl. by rewrite Hs, lookup_insert_eq.
  - rewrite lookup_insert_ne, lookup_singleton_ne by done.
    by rewrite (proj1 (members_None (arena t) Hwf v)) by (by rewrite He, lookup_empty).
Qed.

Section lanes_attach.
Context (t t' : BinaryTree) (idx : NodeIndex) (new : Node) (ip isp : NodeIndex) (np ns : Node)
  (sp : sides) (k : nat).
Context (Hb : binary_wf t) (Hk : k ≤ 1) (Hsp : slots t !! ip = Some sp).
Context (Hat : attach (arena t) (arena t') idx new ip isp np ns (flatten (both (set_side sp k (Some idx))))).
Context (Hs' : slots t' = <[ip := set_side sp k (Some idx)]> (<[idx := no_sides]> (slots t))).

Lemma lanes_old i s : slots t !! i = Some s → usides (arena t') s = usides (arena t) s.
Proof.
  destruct Hb as [Hwf Hsl]. intros Hi. apply usides_ext. intros c Hc.
  destruct (sm_entry _ _ _ Hsl i s Hi) as (n & Hn & _ & Hch). rewrite <- Hch in Hc.
  destruct (wf_child_live _ Hwf i n c Hn Hc) as (nc & ? & _ & ?).
  by eapply (attach_uid _ _ _ _ _ _ _ _ _ Hat).
Qed.

Lemma lanes_attach : lanes t' =
  <[user_id np := set_side (usides (arena t) sp) k (Some (user_id new))]> (<[user_id new := no_sides]> (lanes t)).
Proof.
  pose proof Hb as [Hwf Hsl]. pose proof (attach_ne_parent _ _ _ _ _ _ _ _ _ Hat) as Hne.
  destruct (at_parent _ _ _ _ _ _ _ _ _ Hat) as [Hp Hpl].
  destruct (at_user _ _ _ _ _ _ _ _ _ Hat) as [Hnone _].
  pose proof (live_indexed _ Hwf ip np Hp Hpl) as Hip.
  apply map_eq. intros v. rewrite lanes_lookup, (at_index _ _ _ _ _ _ _ _ _ Hat), Hs'.
  destruct (decide (v = user_id new)) as [->|Hv].
  { rewrite lookup_insert_eq. simpl. rewrite lookup_insert_ne, lookup_insert_eq by done.
  rewrite lookup_insert_ne, lookup_insert_eq by congruence. done. }
  rewrite (lookup_insert_ne (index _)) by done. destruct (decide (v = user_id np)) as [->|Hvp].
  { rewrite Hip. simpl. rewrite !lookup_insert_eq. simpl. f_equal.
  rewrite usides_set by done. rewrite (lanes_old ip sp Hsp). by rewrite (attach_uid_new _ _ _ _ _ _ _ _ _ Hat). }
  rewrite !lookup_insert_ne, lanes_lookup by done.
  destruct (index (arena t) !! v) as [i|] eqn:Hi; [|done]. simpl.
  destruct (resolve_live _ Hwf v i Hi) as (n & Hn & Hnv & Hl).
  destruct (attach_old_live _ _ _ _ _ _ _ _ _ Hat i n Hn ltac:(congruence)) as [_ Hix].
  rewrite !lookup_insert_ne by congruence. destruct (slots t !! i) as [s|] eqn:Hs; [|done]. simpl.
  by rewrite (lanes_old i s Hs).
Qed.
End lanes_attach.

Lemma binary_add_node_refines t u p k s at_ : binary_wf t →
  (λ '(t', _), binary_network t') <$> add_node t u p k s at_ = spec_add_node (binary_network t) u p k s at_.
Proof.
  intros Hb. pose proof Hb as [Hwf Hsl]. pose proof (binary_check_add_node_cases t u p k s) as Hc.
  unfold spec_add_node. change ((binary_network t).1) with (members (arena t)).
  change ((binary_network t).2) with (lanes t).
  destruct (decide (u = nil_uuid)); [unfold add_node; by rewrite Hc|].
  destruct (decide (1 < k)) as [|Hk]; [unfold add_node; by rewrite Hc|].
  rewrite (decide_ext (is_Some (members (arena t) !! u)) (is_Some (index (arena t) !! u)))
    by (by apply members_is_Some).
  destruct (decide (is_Some (index (arena t) !! u))); [unfold add_node; by rewrite Hc|].
  destruct (index (arena t) !! p) as [ip|] eqn:Hp.
  2:{ rewrite (proj2 (members_None _ Hwf p) Hp). unfold add_node. by rewrite Hc. }
  destruct (resolve_live _ Hwf p ip Hp) as (np & Hnp & Hpu & Hpl).
  pose proof (members_live _ Hwf ip np Hnp ltac:(congruence)) as Hmp. rewrite Hpu in Hmp. rewrite Hmp.
  destruct (index (arena t) !! s) as [isp|] eqn:Hs.
  2:{ rewrite (proj2 (members_None _ Hwf s) Hs). unfold add_node. by rewrite Hc. }
  destruct (resolve_live _ Hwf s isp Hs) as (ns & Hns & Hsu & Hsl').
  pose proof (members_live _ Hwf isp ns Hns ltac:(congruence)) as Hms. rewrite Hsu in Hms. rewrite Hms.
  destruct (sm_live _ _ _ Hsl ip np Hnp ltac:(congruence)) as [sp Hsp]. rewrite Hsp in Hc. simpl in Hc.
  rewrite lanes_lookup, Hp. cbn [mbind option_bind]. rewrite Hsp. cbn [fmap option_fmap option_map default from_option].
  change (id (usides (arena t) sp)) with (usides (arena t) sp).
  rewrite (decide_ext (side (usides _ _) _ = _) (side sp k = Some None)) by apply side_usides.
  destruct (decide (side sp k = Some None)) as [Hside|]; [|unfold add_node; by rewrite Hc].
  simpl. destruct (N.ltb_spec (depth np) u32_max) as [Hd|Hd].
  - destruct (binary_add_node_ok t u p k s at_ ip np isp Hb Hc Hp Hnp Hs Hd)
      as (t' & idx & ns' & sp' & -> & _ & Hns' & Hsp' & Hslots & Hat). simpl. f_equal.
    assert (sp' = sp) as -> by congruence. assert (ns' = ns) as -> by congruence.
    unfold binary_network. f_equal.
    + rewrite <- Hpu, <- Hsu. eapply (members_attach _ _ _ _ _ _ _ _ _ _ Hwf Hat).
      rewrite <- flatten_fmap, <- both_usides, usides_set by lia.
      by rewrite (lanes_old t t' idx _ ip isp np ns sp k Hb Hat ip sp Hsp), (attach_uid_new _ _ _ _ _ _ _ _ _ Hat).
    + rewrite <- Hpu. eapply (lanes_attach t t' idx _ ip isp np ns sp k Hb ltac:(lia) Hsp Hat Hslots).
  - unfold add_node. rewrite Hc. cbn [mbind outcome_bind].
    rewrite (resolve_ok _ _ _ Hp), (resolve_ok _ _ _ Hs). cbn [mbind outcome_bind].
    rewrite (node_ok _ _ np Hnp) by congruence. cbn [mbind outcome_bind]. unfold u32_add.
    destruct (N.leb_spec (depth np + 1) u32_max); [lia|done].
Qed.

Section lanes_detach.
Context (t t' : BinaryTree) (idx : NodeIndex) (n0 : Node) (pc sc : list NodeIndex).
Context (Hb : binary_wf t) (Hdt : detach (arena t) (arena t') idx n0 pc sc).
Context (Hs' : slots t' = delete idx (slots_after t idx n0)).

Lemma clear_side_uid o : uid (arena t') <$> clear_side idx o = drop_side (user_id n0) (uid (arena t) <$> o).
Proof.
  destruct Hb as [Hwf _]. destruct o as [c|]; [|done]. unfold clear_side, drop_side; simpl.
  pose proof (uid_removed _ _ _ _ _ _ Hwf Hdt c) as Hc.
  destruct (decide (Some c = Some idx)) as [[= ->]|Hne].
  - rewrite decide_True; [done|]. f_equal. apply dec_stable. naive_solver.
  - assert (c ≠ idx) by congruence. rewrite decide_False by (intros [= H1]; naive_solver).
    simpl. by rewrite (detach_uid _ _ _ _ _ _ Hdt).
Qed.

Lemma clear_sides_uid (s : sides) : usides (arena t') (prod_map (clear_side idx) (clear_side idx) s) =
  prod_map (drop_side (user_id n0)) (drop_side (user_id n0)) (usides (arena t) s).
Proof. destruct s. unfold usides, prod_map; simpl. by rewrite !clear_side_uid. Qed.

(** A slot entry that does not hold the removed child is unchanged. *)
Lemma clear_sides_id (s : sides) : idx ∉ flatten (both s) → prod_map (clear_side idx) (clear_side idx) s = s.
Proof.
  intros Hs. destruct s as [l r]. unfold prod_map, clear_side; simpl.
  rewrite !decide_False; [done|intros ->..]; apply Hs, elem_of_flatten; [right; left|left].
Qed.

Lemma lanes_detach : lanes t' =
  prod_map (drop_side (user_id n0)) (drop_side (user_id n0)) <$> delete (user_id n0) (lanes t).
Proof.
  pose proof Hb as [Hwf Hsl]. destruct (dt_node _ _ _ _ _ _ Hdt) as [Hn Hl].
  apply map_eq. intros v. rewrite lookup_fmap, lanes_lookup, (dt_index _ _ _ _ _ _ Hdt), Hs'.
  destruct (decide (v = user_id n0)) as [->|Hv]; [by rewrite !lookup_delete_eq|].
  rewrite !lookup_delete_ne, lanes_lookup by done.
  destruct (index (arena t) !! v) as [i|] eqn:Hi; [|done]. cbn [mbind option_bind].
  destruct (resolve_live _ Hwf v i Hi) as (n & Hni & Hnv & Hvl).
  assert (i ≠ idx) by congruence. rewrite lookup_delete_ne by done.
  destruct (sm_live _ _ _ Hsl i n Hni ltac:(congruence)) as [s Hs]. rewrite Hs.
  cbn [fmap option_fmap option_map]. rewrite <- clear_sides_uid.
  assert (slots_after t idx n0 !! i = Some (prod_map (clear_side idx) (clear_side idx) s)) as ->; [|done].
  unfold slots_after, cleared. destruct (parent n0) as [p|] eqn:Hp; simpl.
  - destruct (wf_parent_live _ Hwf idx n0 p Hn Hp) as (np & Hnp & _ & Hpl).
    destruct (sm_live _ _ _ Hsl p np Hnp Hpl) as [s' Hsp]. rewrite Hsp. simpl.
    destruct (decide (i = p)) as [->|Hip]; [rewrite lookup_insert_eq; congruence|].
    rewrite lookup_insert_ne by done. rewrite clear_sides_id; [done|].
    rewrite <- (sm_children _ _ _ i n s Hsl Hs Hni). intros Hin.
    destruct (wf_children _ Hwf i n idx Hni Hin) as (? & ? & ?). congruence.
  - rewrite clear_sides_id; [done|]. rewrite <- (sm_children _ _ _ i n s Hsl Hs Hni). intros Hin.
    destruct (wf_children _ Hwf i n idx Hni Hin) as (? & ? & ?). congruence.
Qed.
End lanes_detach.

Lemma binary_remove_node_refines t u : binary_wf t →
  prod_map binary_network id <$> remove_node t u = spec_remove_node (binary_network t) u.
Proof.
  intros Hb. pose proof Hb as [Hwf Hsl]. unfold spec_remove_node. cbn [fst snd binary_network].
  set (ut := Unilevel.Unilevel.mkUnilevel (arena t)).
  pose proof (Unilevel.remove_node_refines ut u Hwf) as Hu. simpl in Hu.
  destruct (check_remove_node t u) as [[]|e| |] eqn:Hc.
  2-4: unfold Unilevel.Unilevel.remove_node in Hu;
    change (Unilevel.Unilevel.check_remove_node ut u) with (check_remove_node t u) in Hu;
    rewrite Hc in Hu; simpl in Hu; rewrite <- Hu; unfold remove_node; by rewrite Hc.
  pose proof Hc as Hc0. unfold check_remove_node, resolve in Hc. apply bind_ok in Hc as (idx & Hi%ok_or_ok & _).
  destruct (resolve_live _ Hwf u idx Hi) as (n0 & Hn & Hnu & _).
  destruct (Unilevel.remove_node_ok ut u idx n0 Hwf Hc0 Hi Hn) as (ut' & Hrm & _ & Hdu).
  rewrite Hrm in Hu. simpl in Hu. unfold prod_map in Hu. simpl in Hu. rewrite <- Hu. simpl.
  destruct (binary_remove_node_ok t u idx n0 Hb Hc0 Hi Hn) as (t' & -> & _ & Hs' & Hdt).
  simpl. unfold prod_map, binary_network. simpl. do 2 f_equal. f_equal.
  - rewrite (members_detach _ _ _ _ _ _ Hwf Hdt), (members_detach _ _ _ _ _ _ Hwf Hdu); try done.
    all: try (intros q nq Hq Hnq; unfold new_sponsored; simpl; by rewrite Hq, Hnq).
    + intros q nq Hq Hnq. unfold new_children; simpl. by rewrite Hq, Hnq.
    + intros q nq Hq Hnq. unfold new_children; simpl. rewrite Hq, Hnq. simpl.
      by destruct (regrown_spec t idx n0 Hwf Hsl Hn q nq Hq Hnq) as [-> _].
  - rewrite <- Hnu. eapply lanes_detach; eauto.
Qed.

(** C38. A whole sequence of binary placements and removals, refused ones
    included, has the outcome the abstract network with left and right sides
    prescribes: the same errors in the same precedence, the same reports, the
    same members and the same occupied sides. *)
Theorem binary_refines_network (os : list op) (t : BinaryTree) : reachable t →
  prod_map binary_network id <$> run exec t os = run spec (binary_network t) os.
Proof.
  intros Hr. apply (run_refines binary_wf binary_network); [| |by apply reachable_binary_wf].
  - intros t1 [u at_|u p k s at_|u] t2 r Hwf; simpl; intros H.
    + apply bind_ok in H as ([] & H & ?). simplify_eq. by eapply binary_add_root_inv.
    + apply bind_ok in H as ([] & H & ?). simplify_eq. by eapply binary_add_node_inv.
    + by eapply binary_remove_node_inv.
  - intros t1 [u at_|u p k s at_|u] Hwf; simpl.
    + rewrite <- (binary_add_root_refines t1 u at_ Hwf). by destruct (add_root t1 u at_) as [[]| | |].
    + rewrite <- (binary_add_node_refines t1 u p k s at_ Hwf). by destruct (add_node t1 u p k s at_) as [[]| | |].
    + by apply binary_remove_node_refines.
Qed.

(** ** Positions and branches *)

Lemma nodup_same_length (l k : list NodeIndex) : NoDup l → NoDup k → (∀ j, j ∈ l ↔ j ∈ k) → length l = length k.
Proof. intros Hl Hk H. by apply Permutation_length, NoDup_Permutation. Qed.

Lemma binary_branch_spec t u i s k : binary_wf t → index (arena t) !! u = Some i → slots t !! i = Some s →
  match side s k with
  | None => get_branch t u k = Err (PositionOutOfRange u k 2) ∧
            count_branch t u k = Err (PositionOutOfRange u k 2)
  | Some None => get_branch t u k = Ok [] ∧ count_branch t u k = Ok 0
  | Some (Some c) => ∃ l, get_branch t u k = Ok (at_slots (arena t) (c :: l)) ∧
      count_branch t u k = Ok (S (length l)) ∧ NoDup (c :: l) ∧ ∀ j, j ∈ l ↔ below (arena t) c j
  end.
Proof.
  intros [Hwf Hsl] Hu Hs. unfold get_branch, count_branch, branch_slot. rewrite (resolve_ok _ _ _ Hu).
  cbn [mbind outcome_bind]. rewrite Hs. cbn [expect mbind outcome_bind].
  destruct (side s k) as [o|] eqn:Hside.
  2:{ assert (1 < k) as ->%Nat.ltb_lt by (unfold side, both in Hside; destruct k as [|[|]]; done || lia). done. }
  assert (Hk : k ≤ 1) by (apply lookup_lt_Some in Hside; simpl in Hside; lia).
  rewrite (proj2 (Nat.ltb_ge 1 k)) by lia. cbn [refuse_if expect mbind outcome_bind].
  destruct o as [c|]; [|done].
  destruct (sm_entry _ _ _ Hsl i s Hs) as (n & Hn & _ & Hch).
  assert (Hin : c ∈ children n) by (rewrite Hch; apply elem_of_flatten; by eapply list_elem_of_lookup_2).
  destruct (wf_child_live _ Hwf i n c Hn Hin) as (nc & Hnc & _ & Hl).
  destruct (branch_head (E := TreeError) (arena t) c nc Hwf Hnc) as (l & Hrun & _ & Hnd & Hmem).
  destruct (count_subtree_ok (E := TreeError) (arena t) Hwf c nc Hnc) as (l' & -> & Hnd' & Hmem').
  exists l. unfold collect_subtree. rewrite (subtree_loop_node (arena t) Hwf), Hrun.
  - cbn [mbind outcome_bind]. split_and!; try done. do 2 f_equal.
    apply nodup_same_length; [done|by apply NoDup_cons in Hnd as [_ ?]|]. intros j. by rewrite Hmem, Hmem'.
  - intros j ->%list_elem_of_singleton. eauto.
Qed.

(** For an enrolled user, [get_branch] and [count_branch] refuse a position
    above 1, give nothing for a free side, and for an occupied one give the child
    there followed by all its descendants, each once, and their number. *)
Theorem binary_branch_exact t u i s k : binary_wf t → index (arena t) !! u = Some i → slots t !! i = Some s →
  match side s k with
  | None => get_branch t u k = Err (PositionOutOfRange u k 2) ∧
            count_branch t u k = Err (PositionOutOfRange u k 2)
  | Some None => get_branch t u k = Ok [] ∧ count_branch t u k = Ok 0
  | Some (Some c) => ∃ l, get_branch t u k = Ok (at_slots (arena t) (c :: l)) ∧
      count_branch t u k = Ok (S (length l)) ∧ NoDup (c :: l) ∧ ∀ j, j ∈ l ↔ below (arena t) c j
  end.
Proof. exact (binary_branch_spec t u i s k). Qed.

(** The parent's entry names the user's side. *)
Lemma side_found t i n tp : binary_wf t → nodes (arena t) !! i = Some n →
  ∃ tp', match parent n with
      | None => Ok tp
      | Some p => s ← expect (slots t !! p);
          Ok (if bool_decide (s.1 = Some i) then with_position 0 tp
              else if bool_decide (s.2 = Some i) then with_position 1 tp else tp)
      end = Ok (E := TreeError) tp' ∧ tp_user_id tp' = tp_user_id tp ∧ tp_depth tp' = tp_depth tp ∧
    ∀ p sp, parent n = Some p → slots t !! p = Some sp → side sp (tp_position tp') = Some (Some i).
Proof.
  intros [Hwf Hsl] Hn. destruct (parent n) as [p|] eqn:Hp; [|exists tp; by split_and!].
  destruct (wf_parent_live _ Hwf i n p Hn Hp) as (np & Hnp & Hin & Hpl).
  destruct (sm_live _ _ _ Hsl p np Hnp Hpl) as [sp Hsp]. rewrite Hsp. cbn [expect mbind outcome_bind].
  rewrite (sm_children _ _ _ p np sp Hsl Hsp Hnp) in Hin. apply elem_of_flatten in Hin.
  eexists. split; [done|]. split_and!; [by repeat case_bool_decide|by repeat case_bool_decide|].
  intros q sq [= <-] Hsq. assert (sq = sp) as -> by congruence. unfold side, both in *.
  case_bool_decide as E1; [simpl; by rewrite E1|]. case_bool_decide as E2; [simpl; by rewrite E2|].
  apply elem_of_cons in Hin as [?|Hin]; [congruence|]. apply list_elem_of_singleton in Hin. congruence.
Qed.

Lemma side_count_ok {E} t i n s k o : binary_wf t → nodes (arena t) !! i = Some n → slots t !! i = Some s →
  side s k = Some o → ∃ l, side_count (E := E) (arena t) o = Ok (length l) ∧
    NoDup l ∧ ∀ j, j ∈ l ↔ ∃ c, o = Some c ∧ below (arena t) c j.
Proof.
  intros [Hwf Hsl] Hn Hs Hk. destruct o as [c|].
  2:{ exists []. split_and!; [done|constructor|]. intros j. rewrite elem_of_nil. naive_solver. }
  assert (Hin : c ∈ children n).
  { rewrite (sm_children _ _ _ i n s Hsl Hs Hn). apply elem_of_flatten. by eapply list_elem_of_lookup_2. }
  destruct (wf_children _ Hwf i n c Hn Hin) as (nc & Hnc & _).
  destruct (count_subtree_ok (E := E) (arena t) Hwf c nc Hnc) as (l & Hl' & Hnd & Hmem).
  exists l. split_and!; [done..|]. intros j. rewrite Hmem. naive_solver.
Qed.

(** [get_position] of an enrolled user in a binary tree never fails: it names
    the side of the parent that holds the user, and counts, per side, the
    descendants of the child there, zero for a free side. *)
Theorem binary_get_position_exact t u i n s : binary_wf t → index (arena t) !! u = Some i →
  nodes (arena t) !! i = Some n → slots t !! i = Some s →
  ∃ tp, get_position t u = Ok tp ∧ tp_user_id tp = u ∧ tp_depth tp = depth n ∧
    (∀ p sp, parent n = Some p → slots t !! p = Some sp → side sp (tp_position tp) = Some (Some i)) ∧
    (∀ k o, side s k = Some o → ∃ l, tp_downline_counts tp !! k = Some (length l) ∧ NoDup l ∧
      ∀ j, j ∈ l ↔ ∃ c, o = Some c ∧ below (arena t) c j).
Proof.
  intros Hb Hu Hn Hs. pose proof Hb as [Hwf _].
  destruct (resolve_live _ Hwf u i Hu) as (n' & Hn' & Hnu & Hnil).
  assert (n' = n) as -> by congruence. assert (Hl : user_id n ≠ nil_uuid) by congruence.
  unfold get_position. rewrite (resolve_ok _ _ _ Hu). cbn [mbind outcome_bind].
  destruct (get_position_ok (E := TreeError) (arena t) Hwf i n Hn Hl) as (tp & -> & H1 & H2 & _).
  cbn [mbind outcome_bind]. rewrite (node_ok _ _ _ Hn Hl). cbn [mbind outcome_bind].
  destruct (side_found t i n tp Hb Hn) as (tp' & -> & T1 & T2 & T3).
  cbn [mbind outcome_bind]. rewrite Hs. cbn [expect mbind outcome_bind].
  destruct (side_count_ok (E := TreeError) t i n s 0 s.1 Hb Hn Hs eq_refl) as (l0 & -> & Hnd0 & Hm0).
  cbn [mbind outcome_bind].
  destruct (side_count_ok (E := TreeError) t i n s 1 s.2 Hb Hn Hs eq_refl) as (l1 & -> & Hnd1 & Hm1).
  cbn [mbind outcome_bind]. eexists. split; [done|]. simpl. split_and!; [congruence|congruence|done|].
  intros k o Hk. destruct k as [|[|k]]; [| |done].
  - injection Hk as <-. by exists l0.
  - injection Hk as <-. by exists l1.
Qed.
