(* ===== verification/Navigator.v ===== *)
(** * The read-only interface of every tree: [tree/navigator.rs]

    [TreeNavigator] is the trait: the commission calculators are written against
    it. [NavigatorLaws] states what its clients may rely on for trees that
    satisfy an invariant; the unilevel and binary trees discharge it from their
    arena's theorems. *)

From stdpp Require Import base numbers list gmap strings.
From Stdlib Require Import ZArith Lia.
From S2P Require Import Prelude TreeTypes Arena ArenaWf ArenaOps ArenaWalk Unilevel SlotMap Binary.

Class TreeNavigator (T : Type) := {
  contains : T → Uuid → bool;
  get_parent : T → Uuid → outcome TreeError (option Node);
  get_children : T → Uuid → outcome TreeError (list Node);
  get_upline : T → Uuid → N → outcome TreeError (list Node);
  get_downline : T → Uuid → N → outcome TreeError (list Node);
  get_position : T → Uuid → outcome TreeError TreePosition;
  get_branch : T → Uuid → nat → outcome TreeError (list Node);
  count_downline : T → Uuid → N → outcome TreeError nat;
  count_branch : T → Uuid → nat → outcome TreeError nat;
  is_descendant_of : T → Uuid → Uuid → outcome TreeError bool;
  get_sponsor : T → Uuid → outcome TreeError (option Node);
  get_sponsor_upline : T → Uuid → N → outcome TreeError (list Node);
  get_sponsored : T → Uuid → outcome TreeError (list Node);
  user_ids : T → list Uuid;
}.

(** What the calculators rely on. *)
Class NavigatorLaws (T : Type) `{!TreeNavigator T} (inv : T → Prop) := {
  nav_user_ids t u : inv t → u ∈ user_ids t ↔ contains t u = true;
  nav_upline t u : inv t → contains t u = true →
    ∃ ns, get_upline t u 0 = Ok ns ∧ NoDup (u :: (user_id <$> ns)) ∧
      ∀ n, n ∈ ns → contains t (user_id n) = true;
  nav_upline_unknown t u : inv t → contains t u = false → get_upline t u 0 = Err (UserNotFound u);
  nav_sponsored t u : inv t → contains t u = true →
    ∃ ns, get_sponsored t u = Ok ns ∧ NoDup (user_id <$> ns) ∧
      ∀ n, n ∈ ns → contains t (user_id n) = true;
  nav_sponsored_unknown t u : inv t → contains t u = false → get_sponsored t u = Err (UserNotFound u);
  nav_downline t u : inv t → contains t u = true →
    ∃ ns, get_downline t u 0 = Ok ns ∧ NoDup (user_id <$> ns) ∧
      ∀ v, v ∈ user_id <$> ns ↔ contains t v = true ∧ is_descendant_of t v u = Ok true;
  nav_downline_unknown t u : inv t → contains t u = false → get_downline t u 0 = Err (UserNotFound u);
  nav_children t u : inv t → contains t u = true →
    ∃ ns, get_children t u = Ok ns ∧ ∀ n, n ∈ ns → contains t (user_id n) = true;
  nav_levels t u : inv t → contains t u = true →
    ∀ limit, ∃ ns, get_downline t u limit = Ok ns ∧ ∀ n, n ∈ ns → contains t (user_id n) = true;
  nav_position t u : inv t → contains t u = true → ∃ tp, get_position t u = Ok tp;
}.

#[export] Instance unilevel_navigator : TreeNavigator Unilevel.Unilevel.UnilevelTree := {
  contains t := Query.contains (Unilevel.Unilevel.arena t);
  get_parent t := Query.get_parent (Unilevel.Unilevel.arena t);
  get_children t := Query.get_children (Unilevel.Unilevel.arena t);
  get_upline t := Query.get_upline (Unilevel.Unilevel.arena t);
  get_downline t := Query.get_downline (Unilevel.Unilevel.arena t);
  get_position := Unilevel.Unilevel.get_position;
  get_branch := Unilevel.Unilevel.get_branch;
  count_downline t := Query.count_downline (Unilevel.Unilevel.arena t);
  count_branch := Unilevel.Unilevel.count_branch;
  is_descendant_of t := Query.is_descendant_of (Unilevel.Unilevel.arena t);
  get_sponsor t := Query.get_sponsor (Unilevel.Unilevel.arena t);
  get_sponsor_upline t := Query.get_sponsor_upline (Unilevel.Unilevel.arena t);
  get_sponsored t := Query.get_sponsored (Unilevel.Unilevel.arena t);
  user_ids t := Query.user_ids (Unilevel.Unilevel.arena t);
}.

#[export] Instance binary_navigator : TreeNavigator Binary.Binary.BinaryTree := {
  contains t := Query.contains (Binary.Binary.arena t);
  get_parent t := Query.get_parent (Binary.Binary.arena t);
  get_children t := Query.get_children (Binary.Binary.arena t);
  get_upline t := Query.get_upline (Binary.Binary.arena t);
  get_downline t := Query.get_downline (Binary.Binary.arena t);
  get_position := Binary.Binary.get_position;
  get_branch := Binary.Binary.get_branch;
  count_downline t := Query.count_downline (Binary.Binary.arena t);
  count_branch := Binary.Binary.count_branch;
  is_descendant_of t := Query.is_descendant_of (Binary.Binary.arena t);
  get_sponsor t := Query.get_sponsor (Binary.Binary.arena t);
  get_sponsor_upline t := Query.get_sponsor_upline (Binary.Binary.arena t);
  get_sponsored t := Query.get_sponsored (Binary.Binary.arena t);
  user_ids t := Query.user_ids (Binary.Binary.arena t);
}.

(** ** The laws, from a well-formed arena *)
Section arena_laws.
Context (a : Arena) (Hwf : arena_wf a).

Lemma contains_spec u : Query.contains a u = true ↔ is_Some (index a !! u).
Proof. unfold Query.contains. apply bool_decide_eq_true. Qed.

Lemma contains_false u : Query.contains a u = false ↔ index a !! u = None.
Proof. unfold Query.contains. rewrite bool_decide_eq_false. by rewrite eq_None_not_Some. Qed.

Lemma contains_live i n : nodes a !! i = Some n → user_id n ≠ nil_uuid → Query.contains a (user_id n) = true.
Proof. intros Hn Hl. apply contains_spec. exists i. by apply live_indexed. Qed.

Lemma user_ids_spec u : u ∈ Query.user_ids a ↔ Query.contains a u = true.
Proof.
  rewrite contains_spec. unfold Query.user_ids. rewrite list_elem_of_fmap. split.
  - intros ([v i] & -> & Hi%elem_of_map_to_list). eauto.
  - intros [i Hi]. exists (u, i). by rewrite elem_of_map_to_list.
Qed.

(** Distinct live slots hold distinct users. *)
Lemma at_slots_users l : NoDup l → (∀ i, i ∈ l → ∃ n, nodes a !! i = Some n ∧ user_id n ≠ nil_uuid) →
  NoDup (user_id <$> at_slots a l) ∧
  ∀ u i, index a !! u = Some i → u ∈ user_id <$> at_slots a l ↔ i ∈ l.
Proof.
  intros Hnd Hl. assert (Hmem : ∀ k, (∀ i, i ∈ k → ∃ n, nodes a !! i = Some n ∧ user_id n ≠ nil_uuid) →
    ∀ u i, index a !! u = Some i → u ∈ user_id <$> at_slots a k ↔ i ∈ k).
  { intros k Hk u i Hi. destruct (resolve_live a Hwf u i Hi) as (n & Hn & Hu & _).
    unfold at_slots. rewrite list_elem_of_fmap. setoid_rewrite list_elem_of_omap. split.
    - intros (x & -> & j & Hj & Hjx). destruct (Hk j Hj) as (m & Hm & Hml).
      assert (m = x) as -> by congruence. pose proof (live_indexed a Hwf j x Hjx Hml). congruence.
    - intros Hin. exists n. eauto. }
  split; [|by apply Hmem]. induction l as [|i l IH]; [constructor|].
  apply NoDup_cons in Hnd as [Hi Hnd]. destruct (Hl i) as (n & Hn & Hnl); [left|].
  rewrite (at_slots_cons a i n l Hn), fmap_cons. apply NoDup_cons.
  split; [|apply IH; [done|intros j Hj; apply Hl; by right]].
  intros Hin. apply Hi. apply (Hmem l) with (u := user_id n); [intros j Hj; apply Hl; by right| |done].
  by apply live_indexed.
Qed.

Lemma at_slots_contains l n : (∀ i, i ∈ l → ∃ n, nodes a !! i = Some n ∧ user_id n ≠ nil_uuid) →
  n ∈ at_slots a l → Query.contains a (user_id n) = true.
Proof.
  intros Hl (i & Hi & Hn)%list_elem_of_omap. destruct (Hl i Hi) as (m & Hm & Hml).
  assert (m = n) as -> by congruence. by eapply contains_live.
Qed.

Lemma up_path_live (link : Node → option NodeIndex) i n l :
  (∀ i n j, nodes a !! i = Some n → link n = Some j → ∃ m, nodes a !! j = Some m ∧ user_id m ≠ nil_uuid) →
  nodes a !! i = Some n → up_path a link (link n) l →
  ∀ j, j ∈ l → ∃ m, nodes a !! j = Some m ∧ user_id m ≠ nil_uuid.
Proof.
  intros Hlink Hi Hup. remember (link n) as o eqn:Ho. revert i n Hi Ho.
  induction Hup as [|p np l Hp Hup IH]; intros i n Hi Ho j; [by intros ?%elem_of_nil|].
  intros [->|Hj]%elem_of_cons; [by eapply Hlink|exact (IH p np Hp eq_refl j Hj)].
Qed.

Lemma arena_upline u : Query.contains a u = true →
  ∃ ns, Query.get_upline a u 0 = Ok ns ∧ NoDup (u :: (user_id <$> ns)) ∧
  ∀ n, n ∈ ns → Query.contains a (user_id n) = true.
Proof.
  intros [i Hi]%contains_spec. destruct (resolve_live a Hwf u i Hi) as (n & Hn & Hu & Hnil).
  destruct (walk_upline_spec (E := TreeError) a Hwf i n 0 Hn ltac:(congruence)) as (l & Hup & _ & Hrun).
  exists (at_slots a l). unfold Query.get_upline. rewrite (resolve_ok a u i Hi). split; [exact Hrun|].
  assert (Hlive : ∀ j, j ∈ i :: l → ∃ m, nodes a !! j = Some m ∧ user_id m ≠ nil_uuid).
  { intros j [->|Hj]%elem_of_cons; [exists n; split; [done|congruence]|].
    revert j Hj. eapply up_path_live; [|exact Hn|exact Hup].
    intros k m p Hk Hp. destruct (wf_parent_live a Hwf k m p Hk Hp) as (np & ? & _ & ?). eauto. }
  assert (Hnd : NoDup (i :: l)) by (apply (up_path_nodup a parent (Some i)); by econstructor).
  split.
  - destruct (at_slots_users (i :: l) Hnd Hlive) as [H _].
    by rewrite (at_slots_cons a i n l Hn), fmap_cons, Hu in H.
  - intros m. apply at_slots_contains. intros j Hj. apply Hlive. by right.
Qed.

Lemma arena_sponsored u : Query.contains a u = true →
  ∃ ns, Query.get_sponsored a u = Ok ns ∧ NoDup (user_id <$> ns) ∧
  ∀ n, n ∈ ns → Query.contains a (user_id n) = true.
Proof.
  intros [i Hi]%contains_spec. destruct (resolve_live a Hwf u i Hi) as (n & Hn & Hu & Hnil).
  assert (Hlive : ∀ j, j ∈ sponsored n → ∃ m, nodes a !! j = Some m ∧ user_id m ≠ nil_uuid).
  { intros j Hj. destruct (wf_recruit_live a Hwf i n j Hn Hj) as (m & ? & _ & ?). eauto. }
  exists (at_slots a (sponsored n)). unfold Query.get_sponsored, Arena.get_sponsored.
  rewrite (resolve_ok a u i Hi). cbn [mbind outcome_bind]. rewrite (slot_ok a i n Hn). cbn [mbind outcome_bind].
  split_and!.
  - clear -Hlive. induction (sponsored n) as [|j l IH]; [done|]. cbn [map_outcome].
    destruct (Hlive j) as (m & Hm & _); [left|]. rewrite (slot_ok a j m Hm). cbn [mbind outcome_bind].
    rewrite IH by (intros k Hk; apply Hlive; by right). by rewrite (at_slots_cons a j m l Hm).
  - apply at_slots_users; [by eapply wf_sponsored_nodup|done].
  - intros m. by apply at_slots_contains.
Qed.

Lemma arena_downline u : Query.contains a u = true →
  ∃ ns, Query.get_downline a u 0 = Ok ns ∧ NoDup (user_id <$> ns) ∧
  ∀ v, v ∈ user_id <$> ns ↔ Query.contains a v = true ∧ Query.is_descendant_of a v u = Ok true.
Proof.
  intros [i Hi]%contains_spec. destruct (resolve_live a Hwf u i Hi) as (n & Hn & Hu & Hnil).
  destruct (bfs_downline_spec (E := TreeError) a Hwf i n 0 Hn) as (l & Hrun & _ & Hnd & Hmem & _).
  assert (Hlive : ∀ j, j ∈ l → ∃ m, nodes a !! j = Some m ∧ user_id m ≠ nil_uuid).
  { intros j [Hj _]%Hmem. by eapply below_live. }
  destruct (at_slots_users l Hnd Hlive) as [H1 H2].
  exists (at_slots a l). unfold Query.get_downline. rewrite (resolve_ok a u i Hi). split_and!; [exact Hrun|done|].
  assert (Hdesc : ∀ v j, index a !! v = Some j → Query.is_descendant_of a v u = Ok true ↔ below a i j).
  { intros v j Hj. destruct (resolve_live a Hwf v j Hj) as (m & Hm & Hv & Hvn).
    destruct (is_descendant_of_spec (E := TreeError) a Hwf j m i Hm ltac:(congruence)) as (up & Hup & Hd).
    unfold Query.is_descendant_of. rewrite (resolve_ok a u i Hi), (resolve_ok a v j Hj). cbn [mbind outcome_bind].
    destruct (bool_decide_reflect (v = u)) as [Heq|Heq].
    - rewrite Heq in Hj. assert (j = i) as -> by congruence. split; [done|]. intros Hb.
      pose proof (below_depth a Hwf i n i n Hn Hb Hn). lia.
    - cbn [mbind outcome_bind]. rewrite Hd. split.
      + intros [= Hin%bool_decide_eq_true]. by exists m, up.
      + intros (m' & up' & Hm' & Hup' & Hin). assert (m' = m) as -> by congruence.
        rewrite (up_path_det _ _ _ _ _ Hup Hup'). by rewrite bool_decide_eq_true_2. }
  intros v. split.
  - intros Hv. pose proof Hv as (m & Hvm & Hm)%list_elem_of_fmap.
    assert (Hc : Query.contains a v = true) by (rewrite Hvm; by eapply at_slots_contains).
    split; [done|]. apply contains_spec in Hc as [j Hj]. apply (Hdesc v j Hj).
    apply (H2 v j Hj), Hmem in Hv. tauto.
  - intros [Hc Hd]. apply contains_spec in Hc as [j Hj]. apply (H2 v j Hj), Hmem. split; [|by left].
    by apply (Hdesc v j Hj).
Qed.

Lemma arena_levels u limit : Query.contains a u = true →
  ∃ ns, Query.get_downline a u limit = Ok ns ∧ ∀ n, n ∈ ns → Query.contains a (user_id n) = true.
Proof.
  intros [i Hi]%contains_spec. destruct (resolve_live a Hwf u i Hi) as (n & Hn & Hu & Hnil).
  destruct (bfs_downline_spec (E := TreeError) a Hwf i n limit Hn) as (l & Hrun & _ & _ & Hmem & _).
  exists (at_slots a l). unfold Query.get_downline. rewrite (resolve_ok a u i Hi). split; [exact Hrun|].
  intros m. apply at_slots_contains. intros j [Hj _]%Hmem. by eapply below_live.
Qed.

Lemma arena_children u : Query.contains a u = true →
  ∃ ns, Query.get_children a u = Ok ns ∧ ∀ n, n ∈ ns → Query.contains a (user_id n) = true.
Proof.
  intros [i Hi]%contains_spec. destruct (resolve_live a Hwf u i Hi) as (n & Hn & Hu & Hnil).
  unfold Query.get_children. rewrite (resolve_ok a u i Hi). cbn [mbind outcome_bind].
  rewrite (node_ok a i n Hn) by congruence. cbn [mbind outcome_bind].
  destruct (map_outcome_total (E := TreeError) (λ _ m, Query.contains a (user_id m) = true) (node a) (children n)) as (ns & Hns & Hall).
  { intros c Hc. destruct (wf_child_live a Hwf i n c Hn Hc) as (nc & Hnc & _ & Hl). exists nc.
    split; [by apply node_ok|by eapply contains_live]. }
  exists ns. split; [exact Hns|]. intros m Hm. apply list_elem_of_lookup in Hm as [k Hk].
  destruct (Forall2_lookup_r _ _ _ _ _ Hall Hk) as (c & _ & H). exact H.
Qed.

Lemma arena_position u i : index a !! u = Some i → ∃ tp, @Arena.get_position TreeError a i = Ok tp.
Proof.
  intros Hi. destruct (resolve_live a Hwf u i Hi) as (n & Hn & Hu & Hnil).
  destruct (get_position_ok (E := TreeError) a Hwf i n Hn ltac:(congruence)) as (tp & -> & _). eauto.
Qed.

Lemma arena_unknown u : Query.contains a u = false →
  Query.get_upline a u 0 = Err (UserNotFound u) ∧ Query.get_sponsored a u = Err (UserNotFound u) ∧
  Query.get_downline a u 0 = Err (UserNotFound u).
Proof.
  intros Hu%contains_false. unfold Query.get_upline, Query.get_sponsored, Query.get_downline, resolve.
  by rewrite Hu.
Qed.
End arena_laws.

#[export] Instance unilevel_navigator_laws :
  NavigatorLaws Unilevel.Unilevel.UnilevelTree (λ t, arena_wf (Unilevel.Unilevel.arena t)).
Proof.
  split; simpl; intros t u Hwf.
  - by apply user_ids_spec.
  - by apply arena_upline.
  - intros Hu. apply (arena_unknown _ u Hu).
  - by apply arena_sponsored.
  - intros Hu. apply (arena_unknown _ u Hu).
  - by apply arena_downline.
  - intros Hu. apply (arena_unknown _ u Hu).
  - by apply arena_children.
  - intros Hu limit. by apply arena_levels.
  - intros [i Hi]%contains_spec. unfold Unilevel.Unilevel.get_position. rewrite (resolve_ok _ _ _ Hi). by eapply arena_position.
Qed.

#[export] Instance binary_navigator_laws : NavigatorLaws Binary.Binary.BinaryTree Binary.Binary.binary_wf.
Proof.
  split; simpl; intros t u Hb; pose proof Hb as [Hwf Hsl].
  - by apply user_ids_spec.
  - by apply arena_upline.
  - intros Hu. apply (arena_unknown _ u Hu).
  - by apply arena_sponsored.
  - intros Hu. apply (arena_unknown _ u Hu).
  - by apply arena_downline.
  - intros Hu. apply (arena_unknown _ u Hu).
  - by apply arena_children.
  - intros Hu limit. by apply arena_levels.
  - intros [i Hi]%contains_spec.
    destruct (resolve_live _ Hwf u i Hi) as (n & Hn & Hu & Hnil).
    destruct (sm_live _ _ _ Hsl i n Hn ltac:(congruence)) as [s Hs].
    destruct (Binary.binary_get_position_exact t u i n s Hb Hi Hn Hs) as (tp & H & _). eauto.
Qed.

(** ** Trees of several kinds behind one interface ([dyn TreeNavigator]) *)
#[export] Instance sum_navigator {A B} `{!TreeNavigator A, !TreeNavigator B} : TreeNavigator (A + B) := {
  contains := sum_rect _ contains contains;
  get_parent := sum_rect _ get_parent get_parent;
  get_children := sum_rect _ get_children get_children;
  get_upline := sum_rect _ get_upline get_upline;
  get_downline := sum_rect _ get_downline get_downline;
  get_position := sum_rect _ get_position get_position;
  get_branch := sum_rect _ get_branch get_branch;
  count_downline := sum_rect _ count_downline count_downline;
  count_branch := sum_rect _ count_branch count_branch;
  is_descendant_of := sum_rect _ is_descendant_of is_descendant_of;
  get_sponsor := sum_rect _ get_sponsor get_sponsor;
  get_sponsor_upline := sum_rect _ get_sponsor_upline get_sponsor_upline;
  get_sponsored := sum_rect _ get_sponsored get_sponsored;
  user_ids := sum_rect _ user_ids user_ids;
}.

#[export] Instance sum_navigator_laws {A B} `{!TreeNavigator A, !TreeNavigator B} (invA : A → Prop) (invB : B → Prop)
  `{!NavigatorLaws A invA, !NavigatorLaws B invB} : NavigatorLaws (A + B) (sum_rect _ invA invB).
Proof.
  split; intros [t|t]; cbn; eauto using nav_user_ids, nav_upline, nav_upline_unknown, nav_sponsored,
    nav_sponsored_unknown, nav_downline, nav_downline_unknown, nav_children, nav_levels, nav_position.
Qed.
