(* ===== verification/CommissionTypes.v ===== *)
(** * Plan configuration and commission data

    [config/mod.rs], [config/commission.rs], [config/eligibility.rs],
    [config/matrix.rs], [config/volume.rs], [config/rank.rs], [config/bonus.rs]
    and [commission/types.rs]: the records the level-commission calculators
    read and write. The plan keeps the fields those calculators use (its rank
    ladder, volume section and eligibility section); a rank keeps its name and
    ordinal. A [u8], [u16] or [u32] is an [N]; maps with string keys are [gmap]s. *)

From stdpp Require Import base numbers list gmap strings.
From Stdlib Require Import ZArith Lia.
From S2P Require Import Prelude RustDecimal Dec TreeTypes.

(** ** Configuration *)

Inductive CompressionMode := SkipInactive | SkipBelowRank.

Record CompressionConfig := mkCompression {
  enabled : bool;
  mode : CompressionMode;
  rank_threshold : option string;
}.

Record ActiveLegTier := mkTier {
  min_active_legs : N;
  max_commission_depth : N;
}.

Record PassUpConfig := mkPassUp {
  count : N;
  includes_commissions : bool;
}.

Record MatrixStructureParams := mkMatrixParams {
  mp_width : N;
  mp_height : N;
  mp_spillover : SpilloverDirection;
}.

Record PruningConfig := mkPruning {
  pruning_mode : PruningMode;
}.

Record RankDefinition := mkRank {
  rank_name : string;
  ordinal : N;
}.

Section config.
Context (D : Type).

Record LevelCommissionConfig := mkLevelCommission {
  broad_commission_percent : AuthoredDec D;
  lc_volume_to_dollar_multiplier : option (AuthoredDec D);
  lc_max_depth : N;
  rate_table : gmap string (gmap N (AuthoredDec D));
}.

Record CommissionEligibility := mkEligibility {
  minimum_pv : AuthoredDec D;
  require_order_in_period : bool;
  eligible_statuses : list string;
  active_leg_tiers : list ActiveLegTier;
}.

Record VolumeConfig := mkVolumeConfig {
  base_currency : string;
  vc_volume_to_dollar_multiplier : AuthoredDec D;
}.

Record CompensationPlan := mkPlan {
  volume_config : VolumeConfig;
  ranks : list RankDefinition;
  eligibility : CommissionEligibility;
}.

Record UnilevelStructureConfig := mkUnilevelStructure {
  us_name : string;
  us_level_commission : LevelCommissionConfig;
  us_compression : option CompressionConfig;
  us_pass_up : option PassUpConfig;
}.

Record MatrixStructureConfig := mkMatrixStructure {
  ms_name : string;
  ms_matrix_params : MatrixStructureParams;
  ms_level_commission : LevelCommissionConfig;
  ms_compression : option CompressionConfig;
  ms_pruning : option PruningConfig;
}.

(** ** Inputs of a period *)

Record DistributorSnapshot := mkSnapshot {
  rank : string;
  personal_volume : AuthoredDec D;
  status : string;
  has_order_in_period : bool;
}.

Record VolumeSource := mkSource {
  vs_source_id : Uuid;
  vs_cv_amount : AuthoredDec D;
}.

(** ** Outputs *)

Record CommissionEarning := mkEarning {
  earner_id : Uuid;
  source_id : Uuid;
  level : N;
  rate : option D;
  cv_amount : D;
  dollar_amount : D;
  walk : option N;
}.

(** One of a binary position's two legs. *)
Inductive BinaryLeg := LeftLeg | RightLeg.

Inductive CalculationError :=
| NegativeCarriedLegVolume (position : Uuid) (leg : BinaryLeg) (volume : D)
| SourceNotInTree (u : Uuid)
| SourceNotInSnapshot (u : Uuid)
| UplineNotInSnapshot (u : Uuid)
| DistributorNotInSnapshot (u : Uuid)
| UnknownSnapshotRank (u : Uuid) (r : string)
| InvalidCvAmount (u : Uuid) (a : AuthoredDec D)
| InvalidPersonalVolume (u : Uuid) (a : AuthoredDec D)
| ConfigError (why : string)
| PairingPercentOutOfRange (a : AuthoredDec D)
| NegativeCap (a : AuthoredDec D)
| CapNotWholeMinorUnits (cap : AuthoredDec D) (currency : string)
| UnknownCurrency (c : string)
| Numeric (e : NumericError D)
| TreeConfigMismatch (structure : string) (expected_width actual_width : N)
  (expected_spillover actual_spillover : SpilloverDirection).
End config.

Arguments mkLevelCommission {D} _ _ _ _.
Arguments broad_commission_percent {D} _.
Arguments lc_volume_to_dollar_multiplier {D} _.
Arguments lc_max_depth {D} _.
Arguments rate_table {D} _.
Arguments mkEligibility {D} _ _ _ _.
Arguments minimum_pv {D} _.
Arguments require_order_in_period {D} _.
Arguments eligible_statuses {D} _.
Arguments active_leg_tiers {D} _.
Arguments mkVolumeConfig {D} _ _.
Arguments base_currency {D} _.
Arguments vc_volume_to_dollar_multiplier {D} _.
Arguments mkPlan {D} _ _ _.
Arguments volume_config {D} _.
Arguments ranks {D} _.
Arguments eligibility {D} _.
Arguments mkUnilevelStructure {D} _ _ _ _.
Arguments us_name {D} _.
Arguments us_level_commission {D} _.
Arguments us_compression {D} _.
Arguments us_pass_up {D} _.
Arguments mkMatrixStructure {D} _ _ _ _ _.
Arguments ms_name {D} _.
Arguments ms_matrix_params {D} _.
Arguments ms_level_commission {D} _.
Arguments ms_compression {D} _.
Arguments ms_pruning {D} _.
Arguments mkSnapshot {D} _ _ _ _.
Arguments rank {D} _.
Arguments personal_volume {D} _.
Arguments status {D} _.
Arguments has_order_in_period {D} _.
Arguments mkSource {D} _ _.
Arguments vs_source_id {D} _.
Arguments vs_cv_amount {D} _.
Arguments mkEarning {D} _ _ _ _ _ _ _.
Arguments earner_id {D} _.
Arguments source_id {D} _.
Arguments level {D} _.
Arguments rate {D} _.
Arguments cv_amount {D} _.
Arguments dollar_amount {D} _.
Arguments walk {D} _.
Arguments NegativeCarriedLegVolume {D} _ _ _.
Arguments ConfigError {D} _.
Arguments PairingPercentOutOfRange {D} _.
Arguments NegativeCap {D} _.
Arguments CapNotWholeMinorUnits {D} _ _.
Arguments SourceNotInTree {D} _.
Arguments SourceNotInSnapshot {D} _.
Arguments UplineNotInSnapshot {D} _.
Arguments DistributorNotInSnapshot {D} _.
Arguments UnknownSnapshotRank {D} _ _.
Arguments InvalidCvAmount {D} _ _.
Arguments InvalidPersonalVolume {D} _ _.
Arguments UnknownCurrency {D} _.
Arguments Numeric {D} _.
Arguments TreeConfigMismatch {D} _ _ _ _ _.

(** ** The record of a traversal *)

Inductive WalkKind := Level | Generation.
Inductive StepOutcome := Paid | Forfeited.
Inductive WalkStop := RootReached | MaxDepthReached | BoundaryReached | MaxGenerationsReached.

Record WalkStep := mkStep {
  node_id : Uuid;
  step_outcome : StepOutcome;
  consumed : bool;
  earner_rank : option string;
}.

Record Walk := mkWalk {
  walk_index : N;
  walk_source_id : Uuid;
  walk_kind : WalkKind;
  stream_id : option N;
  walk_rank : option string;
  steps : list WalkStep;
  stop : WalkStop;
  stopped_at : option Uuid;
}.

Record PlanIdentity := mkPlanIdentity {
  plan_name : string;
  plan_version : N;
  plan_hash : string;
}.

Record CommissionCalculationResult (D : Type) := mkResult {
  earnings : list (CommissionEarning D);
  walks : list Walk;
  plan_identity : PlanIdentity;
}.
Arguments mkResult {D} _ _ _.
Arguments earnings {D} _.
Arguments walks {D} _.
Arguments plan_identity {D} _.
