(* ===== verification/Walk.v ===== *)
(** * Level-commission walks: [commission/mod.rs] and [commission/walk.rs]

    The preparation passes (snapshot validation, eligibility, pass-up sets) and
    the walk up the placement tree shared by the unilevel, matrix, generation,
    streamline and stairstep calculators. This file translates them; WalkSpec.v
    proves what they compute.

    A loop over a [HashMap] runs over [map_to_list]; [min_by_key] over it is
    [min_entry]. A [u16] or [u8] cast keeps the low bits. The [tracing::warn!]
    calls and the [debug_assert!]s are not modelled. *)

From stdpp Require Import base numbers list gmap strings.
From Stdlib Require Import ZArith Lia.
From S2P Require Import Prelude RustDecimal Dec TreeTypes Navigator CommissionTypes.

(** [iter().min_by_key(|(id, _)| **id)]: the first entry with the least key. *)
Definition min_entry {V} (l : list (Uuid * V)) : option (Uuid * V) :=
  foldl (λ held e, match held with
                   | None => Some e
                   | Some h => if (e.1 <? h.1)%N then Some e else held
                   end) None l.

Definition as_u8 (n : N) : N := (n mod 256)%N.
Definition as_u16 (n : N) : N := (n mod 65536)%N.
Definition u16_saturating_add (a b : N) : N := N.min 65535 (a + b).

Section defs.
Context {D : Type} `{!DecimalOps D}.
Abbreviation calc := (outcome (CalculationError D)).

(** ** Eligibility *)

Definition is_eligible (s : DistributorSnapshot D) (e : CommissionEligibility D) : bool :=
  if dec_ltb (dec (personal_volume s)) (dec (minimum_pv e)) then false
  else if require_order_in_period e && negb (has_order_in_period s) then false
  else if bool_decide (eligible_statuses e ≠ []) && bool_decide (status s ∉ eligible_statuses e) then false
  else true.

Record EligibilityResult := mkEligibilityResult {
  eligible : bool;
  max_earning_depth : option N;
}.

Record PassUpContext := mkPassUpContext { skip_sets : gmap Uuid (gset Uuid) }.

Record LevelWalkConfig := mkLevelWalkConfig {
  max_depth : N;
  broad_pct : D;
  multiplier : D;
  compression : option CompressionConfig;
  threshold_ordinal : option N;
  rank_ordinals : gmap string N;
  walk_rates : gmap string (gmap N (AuthoredDec D));
  pass_up : option PassUpContext;
  dynamic_thresholds : option (list N);
}.

(** ** Preparation *)

Definition build_rank_ordinals (plan : CompensationPlan D) : gmap string N :=
  foldl (λ m r, <[rank_name r := ordinal r]> m) ∅ (ranks plan).

Definition validate_snapshot_ranks (plan : CompensationPlan D)
  (snapshots : gmap Uuid (DistributorSnapshot D)) : calc unit :=
  let known : gset string := list_to_set (rank_name <$> ranks plan) in
  match min_entry (filter (λ e, rank e.2 ∉ known) (map_to_list snapshots)) with
  | Some (user_id, s) => Err (UnknownSnapshotRank user_id (rank s))
  | None => Ok ()
  end.

Definition validate_snapshot_volumes (snapshots : gmap Uuid (DistributorSnapshot D)) : calc unit :=
  match min_entry (filter (λ e, is_negative (dec (personal_volume e.2)) = true) (map_to_list snapshots)) with
  | Some (user_id, s) => Err (InvalidPersonalVolume user_id (personal_volume s))
  | None => Ok ()
  end.

Definition validate_snapshot_coverage (required : list Uuid)
  (snapshots : gmap Uuid (DistributorSnapshot D)) : calc unit :=
  match min_entry ((λ u, (u, tt)) <$> filter (λ u, snapshots !! u = None) required) with
  | Some (user_id, _) => Err (DistributorNotInSnapshot user_id)
  | None => Ok ()
  end.

Definition validate_snapshots (plan : CompensationPlan D)
  (snapshots : gmap Uuid (DistributorSnapshot D)) (required : list Uuid) : calc unit :=
  validate_snapshot_ranks plan snapshots;;
  validate_snapshot_volumes snapshots;;
  validate_snapshot_coverage required snapshots.

Definition resolve_threshold_ordinal (c : option CompressionConfig) (ordinals : gmap string N) : option N :=
  c ← c;
  match mode c with
  | SkipBelowRank => name ← rank_threshold c; ordinals !! name
  | SkipInactive => None
  end.

Definition determine_max_depth (active_leg_count : N) (tiers : list ActiveLegTier) : option N :=
  match tiers with
  | [] => None
  | _ =>
  match list_find (λ t, (min_active_legs t ≤ active_leg_count)%N) (reverse tiers) with
  | Some (_, tier) =>
      if (max_commission_depth tier =? 0)%N then None
      else Some (if (max_commission_depth tier <=? 255)%N then max_commission_depth tier else 255%N)
  | None => None
  end
  end.

Definition validate_cv (source : VolumeSource D) : calc unit :=
  refuse_if (is_negative (dec (vs_cv_amount source)))
  (InvalidCvAmount (vs_source_id source) (vs_cv_amount source)).

Definition earning_compare (a b : CommissionEarning D) : comparison :=
  then_with (earner_id a ?= earner_id b)%N
  (then_with (source_id a ?= source_id b)%N
  (then_with (level a ?= level b)%N
    (option_compare N.compare (walk a) (walk b)))).

Definition sort_earnings (l : list (CommissionEarning D)) : list (CommissionEarning D) :=
  sort_by earning_compare l.

Section tree.
Context {T : Type} `{!TreeNavigator T}.

Definition validate_source (tree : T) (snapshots : gmap Uuid (DistributorSnapshot D))
  (source : VolumeSource D) : calc (list Node) :=
  validate_cv source;;
  upline ← map_err (λ _, SourceNotInTree (vs_source_id source))
   (get_upline tree (vs_source_id source) 0);
  refuse_if (bool_decide (snapshots !! vs_source_id source = None))
  (SourceNotInSnapshot (vs_source_id source));;
  Ok upline.

(** The recruits of a user, and what an unknown user gives. *)
Definition recruits_or {A} (tree : T) (user : Uuid) (none : A) (f : list Node → calc A) : calc A :=
  match get_sponsored tree user with
  | Ok nodes => f nodes
  | Err _ => Ok none
  | Panic => Panic
  | Hang => Hang
  end.

Definition active_recruit (snapshots : gmap Uuid (DistributorSnapshot D))
  (e : CommissionEligibility D) (n : Node) : bool :=
  match snapshots !! user_id n with Some s => is_eligible s e | None => false end.

Definition count_active_legs (tree : T) (user : Uuid) (snapshots : gmap Uuid (DistributorSnapshot D))
  (e : CommissionEligibility D) : calc N :=
  recruits_or tree user 0%N (λ sponsored,
  Ok (as_u16 (N.of_nat (length (filter (λ n, active_recruit snapshots e n = true) sponsored))))).

Definition evaluate_one (snapshots : gmap Uuid (DistributorSnapshot D)) (tree : T)
  (e : CommissionEligibility D) (results : gmap Uuid EligibilityResult)
  (entry : Uuid * DistributorSnapshot D) : calc (gmap Uuid EligibilityResult) :=
  let '(user_id, snapshot) := entry in
  let ok := is_eligible snapshot e in
  active_leg_count ←
  (if ok && bool_decide (active_leg_tiers e ≠ [])
  then count_active_legs tree user_id snapshots e else Ok 0%N);
  let depth := determine_max_depth active_leg_count (active_leg_tiers e) in
  Ok (<[user_id := mkEligibilityResult ok depth]> results).

Definition evaluate_eligibility (snapshots : gmap Uuid (DistributorSnapshot D)) (tree : T)
  (e : CommissionEligibility D) : calc (gmap Uuid EligibilityResult) :=
  fold_outcome (evaluate_one snapshots tree e) ∅ (map_to_list snapshots).

(** *** Pass-up *)

Definition enrolled_compare (a b : Node) : comparison :=
  then_with (enrolled_at a ?= enrolled_at b)%Z (user_id a ?= user_id b)%N.

Definition add_recruit (tree : T) (pu : PassUpConfig) (skip_set : gset Uuid) (recruit : Node)
  : calc (gset Uuid) :=
  let skip_set := {[user_id recruit]} ∪ skip_set in
  if includes_commissions pu then
  match get_downline tree (user_id recruit) 0 with
  | Ok descendants => Ok (list_to_set (user_id <$> descendants) ∪ skip_set)
  | Err _ => Ok skip_set
  | Panic => Panic
  | Hang => Hang
  end
  else Ok skip_set.

Definition pass_up_one (tree : T) (pu : PassUpConfig) (sets : gmap Uuid (gset Uuid)) (user : Uuid)
  : calc (gmap Uuid (gset Uuid)) :=
  recruits_or tree user sets (λ sponsored,
  if bool_decide (sponsored = []) then Ok sets
  else
  let sponsored := sort_by enrolled_compare sponsored in
  let n := Nat.min (N.to_nat (count pu)) (length sponsored) in
  skip_set ← fold_outcome (add_recruit tree pu) ∅ (take n sponsored);
  Ok (if bool_decide (skip_set = ∅) then sets else <[user := skip_set]> sets)).

Definition build_pass_up_context (tree : T) (pu : PassUpConfig) (participant_ids : list Uuid)
  : calc PassUpContext :=
  sets ← fold_outcome (pass_up_one tree pu) ∅ participant_ids;
  Ok (mkPassUpContext sets).

(** ** The walk *)

(** The loop's variables. *)
Record walk_state := mkWalkState {
  ws_level : N;
  ws_steps : list WalkStep;
  ws_earnings : list (CommissionEarning D);
}.

(** One turn of the loop: on to the next node, or out with a stop reason. *)
Inductive turn := Go (st : walk_state) | Break (why : WalkStop).

Definition forfeit (st : walk_state) (n : Node) (s : DistributorSnapshot D) : walk_state :=
  mkWalkState (u16_saturating_add (ws_level st) 1)
  (ws_steps st ++ [mkStep (user_id n) Forfeited true (Some (rank s))]) (ws_earnings st).

Definition ordinal_of (cfg : LevelWalkConfig) (s : DistributorSnapshot D) : N :=
  default 0%N (rank_ordinals cfg !! rank s).

(** Compression: is the node skipped without consuming the level? *)
Definition compressed (cfg : LevelWalkConfig) (lvl : N) (node_eligible : bool)
  (s : DistributorSnapshot D) : bool :=
  match dynamic_thresholds cfg with
  | Some thresholds =>
  match thresholds !! N.to_nat (lvl - 1) with
  | Some min_ordinal => (0 <? min_ordinal)%N && (ordinal_of cfg s <? min_ordinal)%N
  | None => false
  end
  | None =>
  match compression cfg with
  | Some c =>
  if enabled c then
  match mode c with
  | SkipInactive => negb node_eligible
  | SkipBelowRank =>
      match threshold_ordinal cfg with
      | Some t => (ordinal_of cfg s <? t)%N
      | None => false
      end
  end
  else false
  | None => false
  end
  end.

Definition passed_up (cfg : LevelWalkConfig) (source : Uuid) (n : Node) : bool :=
  match pass_up cfg with
  | Some ctx => match skip_sets ctx !! user_id n with
      | Some set => bool_decide (source ∈ set)
      | None => false
      end
  | None => false
  end.

Definition rate_at (cfg : LevelWalkConfig) (s : DistributorSnapshot D) (lvl : N) : D :=
  from_option dec DZERO (levels ← walk_rates cfg !! rank s; levels !! lvl).

Definition try_mul_calc (a b : D) : calc D := map_err Numeric (try_mul a b).

Definition visit (cfg : LevelWalkConfig) (cache : gmap Uuid EligibilityResult)
  (snapshots : gmap Uuid (DistributorSnapshot D)) (should_stop : Uuid → bool)
  (source : VolumeSource D) (collector_id : N) (st : walk_state) (n : Node) : calc turn :=
  if (max_depth cfg <? ws_level st)%N then Ok (Break MaxDepthReached)
  else
  let level_u8 := as_u8 (ws_level st) in
  if should_stop (user_id n) then Ok (Break BoundaryReached)
  else if passed_up cfg (vs_source_id source) n then Ok (Go st)
  else
  snapshot ← ok_or (snapshots !! user_id n) (UplineNotInSnapshot (user_id n));
  let elig := cache !! user_id n in
  let node_eligible := match elig with Some e => eligible e | None => false end in
  if compressed cfg (ws_level st) node_eligible snapshot then Ok (Go st)
  else if negb node_eligible then Ok (Go (forfeit st n snapshot))
  else
  let too_deep := match e ← elig; max_earning_depth e with
              | Some max_personal => (max_personal <? ws_level st)%N
              | None => false
              end in
  if too_deep then Ok (Go (forfeit st n snapshot))
  else
  let r := rate_at cfg snapshot level_u8 in
  if dec_ltb DZERO r then
  let cv := dec (vs_cv_amount source) in
  x ← try_mul_calc cv (broad_pct cfg);
  x ← try_mul_calc x (multiplier cfg);
  x ← try_mul_calc x r;
  Ok (Go (mkWalkState (u16_saturating_add (ws_level st) 1)
    (ws_steps st ++ [mkStep (user_id n) Paid true (Some (rank snapshot))])
    (ws_earnings st ++
      [mkEarning (user_id n) (vs_source_id source) level_u8 (Some r) cv x (Some collector_id)])))
  else Ok (Go (forfeit st n snapshot)).

(** The [for node in &upline] loop, with its stop reason. *)
Fixpoint walk_nodes (turn_of : walk_state → Node → calc turn) (st : walk_state) (upline : list Node)
  : calc (walk_state * WalkStop * option Uuid) :=
  match upline with
  | [] => Ok (st, RootReached, None)
  | n :: upline' =>
  t ← turn_of st n;
  match t with
  | Break why => Ok (st, why, Some (user_id n))
  | Go st' => walk_nodes turn_of st' upline'
  end
  end.

Definition walk_source (tree : T) (cfg : LevelWalkConfig) (cache : gmap Uuid EligibilityResult)
  (snapshots : gmap Uuid (DistributorSnapshot D)) (should_stop : Uuid → bool)
  (acc : list (CommissionEarning D) * list Walk) (source : VolumeSource D)
  : calc (list (CommissionEarning D) * list Walk) :=
  let '(all_earnings, walks) := acc in
  upline ← validate_source tree snapshots source;
  let collector_id := (N.of_nat (length walks) mod 2 ^ 32)%N in
  '(st, why, at_) ← walk_nodes (visit cfg cache snapshots should_stop source collector_id)
            (mkWalkState 1 [] all_earnings) upline;
  Ok (ws_earnings st,
  walks ++ [mkWalk collector_id (vs_source_id source) Level None None (ws_steps st) why at_]).

Definition walk_level_commissions (tree : T) (cfg : LevelWalkConfig)
  (cache : gmap Uuid EligibilityResult) (snapshots : gmap Uuid (DistributorSnapshot D))
  (volume : list (VolumeSource D)) (should_stop : Uuid → bool) (walks : list Walk)
  : calc (list (CommissionEarning D) * list Walk) :=
  fold_outcome (walk_source tree cfg cache snapshots should_stop) ([], walks) volume.
End tree.
End defs.
