(* ===== verification/WalkSpec.v ===== *)
(** * What a level-commission walk computes

    The theorems follow one walk: [visit] has five outcomes ([visited]); the
    steps are the consumed ancestors in order, the level counter counts them,
    the earnings are exactly the paid steps, each for the exact product of its
    factors; the stop reason names the first ancestor that was not visited; and
    compression and pass-up remove ancestors from the chain without consuming a
    level. *)

From stdpp Require Import base numbers list gmap strings.
From Stdlib Require Import ZArith Lia.
From S2P Require Import Prelude RustDecimal Dec TreeTypes Navigator CommissionTypes Walk.

(** The paid steps of a walk: who was paid, and at which level. *)
Definition paid_levels (l : list WalkStep) : list (Uuid * N) :=
  omap (λ '(i, s), match step_outcome s with
                   | Paid => Some (node_id s, (N.of_nat i + 1)%N)
                   | Forfeited => None
                   end) (enumerate l).

Lemma enumerate_snoc {A} (l : list A) x : enumerate (l ++ [x]) = enumerate l ++ [(length l, x)].
Proof.
  unfold enumerate. rewrite length_app, seq_app. simpl. rewrite zip_with_app; [done|by rewrite length_seq].
Qed.

Lemma paid_levels_snoc l s : paid_levels (l ++ [s]) = paid_levels l ++
  match step_outcome s with Paid => [(node_id s, (N.of_nat (length l) + 1)%N)] | Forfeited => [] end.
Proof.
  unfold paid_levels. rewrite enumerate_snoc, omap_app. f_equal. simpl. by destruct (step_outcome s).
Qed.

(** A paid step sits at the position its level says. *)
Lemma paid_levels_lookup l u lvl : (u, lvl) ∈ paid_levels l → ∃ i s, l !! i = Some s ∧ node_id s = u ∧ lvl = (N.of_nat i + 1)%N.
Proof.
  unfold paid_levels. rewrite list_elem_of_omap. intros ([i s] & Hin%elem_of_enumerate & Heq).
  exists i, s. cbn in Hin, Heq. destruct (step_outcome s); [|done]. by injection Heq as <- <-.
Qed.

(** An element of a sublist is no earlier in the whole list. *)
Lemma sublist_lookup_later {A} (l k : list A) i x : sublist l k → l !! i = Some x → ∃ j, i ≤ j ∧ k !! j = Some x.
Proof.
  intros H. revert i. induction H as [|y l k H IH|y l k H IH]; intros i Hi; [done| |].
  - destruct i as [|i]; [exists 0; by split|]. destruct (IH i Hi) as (j & ? & ?). exists (S j). split; [lia|done].
  - destruct (IH i Hi) as (j & ? & ?). exists (S j). split; [lia|done].
Qed.

Section one_walk.
Context {D : Type} `{!DecimalOps D, !DecimalLaws D}.
Context (cfg : LevelWalkConfig (D := D)) (cache : gmap Uuid EligibilityResult).
Context (snapshots : gmap Uuid (DistributorSnapshot D)) (should_stop : Uuid → bool).
Context (source : VolumeSource D) (collector_id : N).
Abbreviation visit_here := (visit cfg cache snapshots should_stop source collector_id).
Abbreviation cv := (dec (vs_cv_amount source)).

(** A depth that a [u8] holds. *)
Context (Hdepth : (max_depth cfg ≤ 255)%N).

(** The product a payment is worth, in units of 10^-28 on each factor. *)
Definition exact_product (x r : D) : Prop :=
  (units x * 10 ^ 84 = units cv * units (broad_pct cfg) * units (multiplier cfg) * units r)%Z.

(** Why a node may earn at a level. *)
Definition may_earn (n : Uuid) (lvl : N) (s : DistributorSnapshot D) (r : D) : Prop :=
  snapshots !! n = Some s ∧ r = rate_at cfg s lvl ∧ dec_ltb DZERO r = true ∧
  ∃ e, cache !! n = Some e ∧ eligible e = true ∧
  (∀ m, max_earning_depth e = Some m → (lvl ≤ m)%N).

(** The positive rate is one the table has. *)
Lemma may_earn_table n lvl s r : may_earn n lvl s r → snapshots !! n = Some s ∧ ∃ levels rd e,
  walk_rates cfg !! rank s = Some levels ∧ levels !! lvl = Some rd ∧ r = dec rd ∧ (0 < units (dec rd))%Z ∧
  cache !! n = Some e ∧ eligible e = true ∧ ∀ m, max_earning_depth e = Some m → (lvl ≤ m)%N.
Proof.
  clear Hdepth. intros (Hs & Hr & Hpos & e & He & Hel & Hm). split; [done|].
  rewrite dec_ltb_units, zero_units in Hpos. apply Z.ltb_lt in Hpos. unfold rate_at in Hr.
  destruct (walk_rates cfg !! rank s) as [levels|]; cbn in Hr; [|rewrite Hr, zero_units in Hpos; lia].
  destruct (levels !! lvl) as [rd|] eqn:Hrd; cbn in Hr; [|rewrite Hr, zero_units in Hpos; lia].
  subst r. by exists levels, rd, e.
Qed.

Definition pay (st : walk_state) (n : Node) (s : DistributorSnapshot D) (r x : D) : walk_state :=
  mkWalkState (u16_saturating_add (ws_level st) 1)
  (ws_steps st ++ [mkStep (user_id n) Paid true (Some (rank s))])
  (ws_earnings st ++ [mkEarning (user_id n) (vs_source_id source) (ws_level st) (Some r) cv x (Some collector_id)]).

Definition skipped (st : walk_state (D := D)) (n : Node) : Prop :=
  passed_up cfg (vs_source_id source) n = true ∨
  ∃ s b, snapshots !! user_id n = Some s ∧ compressed cfg (ws_level st) b s = true.

(** The outcomes of one turn. *)
Inductive visited (st : walk_state) (n : Node) : turn → Prop :=
| visited_deep : (max_depth cfg < ws_level st)%N → visited st n (Break MaxDepthReached)
| visited_boundary : (ws_level st ≤ max_depth cfg)%N → should_stop (user_id n) = true →
  visited st n (Break BoundaryReached)
| visited_skip : (ws_level st ≤ max_depth cfg)%N → should_stop (user_id n) = false →
  skipped st n → visited st n (Go st)
| visited_forfeit s : (ws_level st ≤ max_depth cfg)%N → should_stop (user_id n) = false →
  snapshots !! user_id n = Some s → visited st n (Go (forfeit st n s))
| visited_pay s r x : (ws_level st ≤ max_depth cfg)%N → should_stop (user_id n) = false →
  may_earn (user_id n) (ws_level st) s r → exact_product x r → visited st n (Go (pay st n s r x)).

Lemma try_mul_calc_units a b x : try_mul_calc a b = Ok x → (units x * 10 ^ 28 = units a * units b)%Z.
Proof.
  unfold try_mul_calc. pose proof (try_mul_spec a b) as H. destruct (try_mul a b); simpl; try done.
  by intros [= ->].
Qed.

Lemma walk_product_units r x1 x2 x : try_mul_calc cv (broad_pct cfg) = Ok x1 →
  try_mul_calc x1 (multiplier cfg) = Ok x2 → try_mul_calc x2 r = Ok x → exact_product x r.
Proof.
  intros H1%try_mul_calc_units H2%try_mul_calc_units H3%try_mul_calc_units. unfold exact_product.
  replace (10 ^ 84)%Z with (10 ^ 28 * (10 ^ 28 * 10 ^ 28))%Z by reflexivity.
  rewrite Z.mul_assoc, H3. transitivity (units x2 * 10 ^ 28 * 10 ^ 28 * units r)%Z; [ring|].
  rewrite H2. transitivity (units x1 * 10 ^ 28 * units (multiplier cfg) * units r)%Z; [ring|].
  by rewrite H1.
Qed.

Lemma visit_inv st n t : visit_here st n = Ok t → visited st n t.
Proof.
  unfold visit. destruct (N.ltb_spec (max_depth cfg) (ws_level st)) as [Hd|Hd].
  { intros [= <-]. by constructor. }
  assert (Hu8 : as_u8 (ws_level st) = ws_level st) by (apply N.mod_small; lia). rewrite Hu8.
  destruct (should_stop (user_id n)) eqn:Hstop; [intros [= <-]; by constructor|].
  destruct (passed_up cfg (vs_source_id source) n) eqn:Hpu.
  { intros [= <-]. apply visited_skip; [done..|by left]. }
  intros H. apply bind_ok in H as (s & Hs%ok_or_ok & H).
  set (b := match cache !! user_id n with Some e => eligible e | None => false end) in *.
  destruct (compressed cfg (ws_level st) b s) eqn:Hc.
  { injection H as <-. apply visited_skip; [done..|right; eauto]. }
  destruct (negb b) eqn:Hb; [injection H as <-; by apply visited_forfeit|].
  apply negb_false_iff in Hb. unfold b in Hb. destruct (cache !! user_id n) as [e|] eqn:He; [|done].
  cbn [mbind option_bind] in H.
  destruct (match max_earning_depth e with Some m => (m <? ws_level st)%N | None => false end) eqn:Hm;
  [injection H as <-; by apply visited_forfeit|].
  destruct (dec_ltb DZERO (rate_at cfg s (ws_level st))) eqn:Hr; [|injection H as <-; by apply visited_forfeit].
  apply bind_ok in H as (x1 & H1 & H). apply bind_ok in H as (x2 & H2 & H). apply bind_ok in H as (x & H3 & H).
  injection H as <-. eapply visited_pay; [done..| |by eapply walk_product_units].
  split_and!; [done..|]. exists e. split_and!; [done..|]. intros m Hm'. rewrite Hm' in Hm.
  apply N.ltb_ge in Hm. done.
Qed.

(** ** The invariant of the walk *)

(** A paid earning of this walk. *)
Definition good_earning (e : CommissionEarning D) : Prop :=
  source_id e = vs_source_id source ∧ walk e = Some collector_id ∧ cv_amount e = cv ∧
  (1 ≤ level e ≤ max_depth cfg)%N ∧
  ∃ s r, rate e = Some r ∧ may_earn (earner_id e) (level e) s r ∧ exact_product (dollar_amount e) r.

(** The steps taken so far, above the earnings [es0] of earlier sources. *)
Record on_walk (es0 : list (CommissionEarning D)) (st : walk_state) (seen : list Node) : Prop := {
  ow_level : ws_level st = (N.of_nat (length (ws_steps st)) + 1)%N;
  ow_bound : (N.of_nat (length (ws_steps st)) ≤ max_depth cfg)%N;
  ow_order : sublist (node_id <$> ws_steps st) (user_id <$> seen);
  ow_earnings : ∃ new, ws_earnings st = es0 ++ new ∧ Forall good_earning new ∧
  (λ e, (earner_id e, level e)) <$> new = paid_levels (ws_steps st);
  ow_steps s : s ∈ ws_steps st → consumed s = true ∧ should_stop (node_id s) = false ∧
  ∃ snap, snapshots !! node_id s = Some snap ∧ earner_rank s = Some (rank snap);
}.

Lemma sublist_snoc_r {A} (l k : list A) x : sublist l k → sublist l (k ++ [x]).
Proof. intros H. rewrite <- (app_nil_r l). apply sublist_app; [done|apply sublist_nil_l]. Qed.

Lemma on_walk_skip es0 st seen n : on_walk es0 st seen → on_walk es0 st (seen ++ [n]).
Proof.
  intros [H1 H2 H3 H4 H5]. split; try done. rewrite fmap_app. by apply sublist_snoc_r.
Qed.

(** Consuming a level: the counter does not saturate below a [u8] depth. *)
Lemma on_walk_step es0 st seen n o s new : on_walk es0 st seen → (ws_level st ≤ max_depth cfg)%N →
  should_stop (user_id n) = false → snapshots !! user_id n = Some s →
  match o with
  | Paid => ∃ e, new = [e] ∧ good_earning e ∧ earner_id e = user_id n ∧ level e = ws_level st
  | Forfeited => new = []
  end →
  on_walk es0 (mkWalkState (u16_saturating_add (ws_level st) 1)
  (ws_steps st ++ [mkStep (user_id n) o true (Some (rank s))]) (ws_earnings st ++ new)) (seen ++ [n]).
Proof.
  intros [H1 H2 H3 H4 H5] Hd Hstop Hs Ho. split; simpl.
  - rewrite length_app. simpl. unfold u16_saturating_add. lia.
  - rewrite length_app. simpl. lia.
  - rewrite !fmap_app. apply sublist_app; [done|]. simpl. reflexivity.
  - destruct H4 as (new0 & -> & Hg & Hp). exists (new0 ++ new). rewrite app_assoc. split; [done|].
    rewrite fmap_app, Hp, paid_levels_snoc, Forall_app. simpl. destruct o.
    + destruct Ho as (e & -> & He & He1 & He2). split; [split; [done|by constructor]|]. simpl. f_equal. f_equal.
      rewrite He1, He2, H1. done.
    + subst new. split; [by split|done].
  - intros st' [Hin|Hin]%elem_of_app; [by apply H5|]. apply list_elem_of_singleton in Hin as ->. simpl. eauto.
Qed.

Lemma on_walk_visit es0 st seen n st' : on_walk es0 st seen → visit_here st n = Ok (Go st') →
  on_walk es0 st' (seen ++ [n]).
Proof.
  intros Hw Hv%visit_inv. inversion Hv as [| |? ? _|s ? ? Hs|s r x Hd ? He Hx]; subst.
  - by apply on_walk_skip.
  - unfold forfeit. rewrite <- (app_nil_r (ws_earnings st)) at 1. by apply (on_walk_step _ _ _ _ Forfeited).
  - apply (on_walk_step _ _ _ _ Paid); [done..|apply He|]. eexists. split_and!; [done| |done|done].
    split_and!; try done; simpl; [rewrite (ow_level _ _ _ Hw); lia|]. by exists s, r.
Qed.

(** Where the walk stops. *)
Definition stopped (upline : list Node) (st : walk_state (D := D)) (why : WalkStop) (at_ : option Uuid) : Prop :=
  match why with
  | RootReached => at_ = None
  | MaxDepthReached => ws_level st = (max_depth cfg + 1)%N ∧
  ∃ pre n post, upline = pre ++ n :: post ∧ at_ = Some (user_id n)
  | BoundaryReached => (ws_level st ≤ max_depth cfg)%N ∧
  ∃ pre n post, upline = pre ++ n :: post ∧ at_ = Some (user_id n) ∧ should_stop (user_id n) = true
  | MaxGenerationsReached => False
  end.

(** The steps lie strictly below the node the walk stopped at. *)
Definition unvisited (upline : list Node) (st : walk_state (D := D)) (at_ : option Uuid) : Prop :=
  ∀ u, at_ = Some u → ∃ pre n post, upline = pre ++ n :: post ∧ user_id n = u ∧
  sublist (node_id <$> ws_steps st) (user_id <$> pre).

Lemma walk_nodes_inv es0 st seen rest st' why at_ : on_walk es0 st seen →
  walk_nodes visit_here st rest = Ok (st', why, at_) →
  on_walk es0 st' (seen ++ rest) ∧ stopped (seen ++ rest) st' why at_ ∧ unvisited (seen ++ rest) st' at_.
Proof.
  revert st seen. induction rest as [|n rest IH]; intros st seen Hw Hrun; simpl in Hrun.
  { simplify_eq. rewrite app_nil_r. split_and!; [done..|]. by intros u. }
  apply bind_ok in Hrun as (t & Ht & Hrun). pose proof (visit_inv _ _ _ Ht) as Hv. destruct t as [st1|w].
  - apply (on_walk_visit _ _ _ _ _ Hw) in Ht. replace (seen ++ n :: rest) with ((seen ++ [n]) ++ rest)
      by (by rewrite <- app_assoc). by eapply IH.
  - simplify_eq. split_and!.
    + split; try apply Hw. rewrite fmap_app. rewrite <- (app_nil_r (node_id <$> _)).
      apply sublist_app; [apply (ow_order _ _ _ Hw)|apply sublist_nil_l].
    + inversion Hv; subst; simpl.
      * split; [|by exists seen, n, rest]. pose proof (ow_level _ _ _ Hw). pose proof (ow_bound _ _ _ Hw). lia.
      * split; [done|]. by exists seen, n, rest.
    + intros u [= <-]. exists seen, n, rest. split_and!; [done..|]. apply (ow_order _ _ _ Hw).
Qed.

Lemma on_walk_init es0 : on_walk es0 (mkWalkState 1 [] es0) [].
Proof.
  split; simpl; [done|lia|constructor| |by intros s ?%elem_of_nil].
  exists []. by rewrite app_nil_r.
Qed.
End one_walk.

(** ** A calculation: one walk per volume source *)
Section volume.
Context {D : Type} `{!DecimalOps D, !DecimalLaws D}.
Context {T : Type} `{!TreeNavigator T} (inv : T → Prop) `{!NavigatorLaws T inv}.
Context (tree : T) (Hinv : inv tree).
Context (cfg : LevelWalkConfig (D := D)) (cache : gmap Uuid EligibilityResult).
Context (snapshots : gmap Uuid (DistributorSnapshot D)) (should_stop : Uuid → bool).
Context (Hdepth : (max_depth cfg ≤ 255)%N).

(** The record a source leaves: its walk [w] and the earnings [es] it paid. *)
Record audited (src : VolumeSource D) (k : N) (es : list (CommissionEarning D)) (w : Walk) : Prop := {
  au_walk : walk_index w = k ∧ walk_source_id w = vs_source_id src ∧ walk_kind w = Level ∧
        stream_id w = None ∧ walk_rank w = None;
  au_depth : (N.of_nat (length (steps w)) ≤ max_depth cfg)%N;
  au_paid : (λ e, (earner_id e, level e)) <$> es = paid_levels (steps w);
  au_good : Forall (good_earning cfg cache snapshots src k) es;
  au_steps s : s ∈ steps w → consumed s = true ∧ should_stop (node_id s) = false ∧
  ∃ snap, snapshots !! node_id s = Some snap ∧ earner_rank s = Some (rank snap);
  au_nodup : NoDup (node_id <$> steps w) ∧ (vs_source_id src ∉ node_id <$> steps w);
  au_source : ∃ upline, get_upline tree (vs_source_id src) 0 = Ok upline;
  au_upline upline : get_upline tree (vs_source_id src) 0 = Ok upline →
  sublist (node_id <$> steps w) (user_id <$> upline) ∧
  (∀ u, stopped_at w = Some u → u ∈ user_id <$> upline);
  au_stop : match stop w with
  | RootReached => stopped_at w = None
  | MaxDepthReached => N.of_nat (length (steps w)) = max_depth cfg ∧ is_Some (stopped_at w)
  | BoundaryReached => (N.of_nat (length (steps w)) < max_depth cfg)%N ∧
    ∃ u, stopped_at w = Some u ∧ should_stop u = true
  | MaxGenerationsReached => False
  end;
  au_unvisited u : stopped_at w = Some u → u ∉ node_id <$> steps w;
}.

Lemma validate_source_ok src upline : validate_source tree snapshots src = Ok upline →
  get_upline tree (vs_source_id src) 0 = Ok upline ∧
  is_negative (dec (vs_cv_amount src)) = false ∧ is_Some (snapshots !! vs_source_id src).
Proof.
  unfold validate_source, validate_cv. intros H. apply bind_unit_ok in H as [Hcv%refuse_if_ok H].
  apply bind_ok in H as (up & Hup & H). apply bind_unit_ok in H as [Hs%refuse_if_ok [= <-]].
  apply bool_decide_eq_false in Hs. split_and!; [|done|by apply not_eq_None_Some].
  by destruct (get_upline tree (vs_source_id src) 0); simplify_eq/=.
Qed.

(** In a tree that keeps its invariant an upline repeats nobody. *)
Lemma upline_nodup u upline : get_upline tree u 0 = Ok upline → NoDup (u :: (user_id <$> upline)).
Proof.
  intros Hup. destruct (contains tree u) eqn:Hc.
  - destruct (nav_upline tree u Hinv Hc) as (ns & Hns & Hnd & _). rewrite Hup in Hns. by simplify_eq.
  - rewrite (nav_upline_unknown tree u Hinv Hc) in Hup. done.
Qed.

Lemma walk_source_audit es0 ws0 src es ws : (N.of_nat (length ws0) < 2 ^ 32)%N →
  walk_source tree cfg cache snapshots should_stop (es0, ws0) src = Ok (es, ws) →
  ∃ new w, es = es0 ++ new ∧ ws = ws0 ++ [w] ∧ audited src (N.of_nat (length ws0)) new w.
Proof.
  intros Hlen H. unfold walk_source in H. apply bind_ok in H as (upline & Hsrc & H).
  apply validate_source_ok in Hsrc as (Hup & _ & _). rewrite (N.mod_small _ _ Hlen) in H.
  apply bind_ok in H as ([[st why] at_] & Hrun & [= <- <-]).
  pose proof (upline_nodup _ _ Hup) as [Hsrc Hnd]%NoDup_cons.
  destruct (walk_nodes_inv cfg cache snapshots should_stop src (N.of_nat (length ws0)) Hdepth
    es0 _ [] upline st why at_ (on_walk_init _ _ _ _ _ _ Hdepth es0) Hrun) as ([Hlev Hb Hord He Hst] & Hstop & Hunv).
  destruct He as (new & Hes & Hgood & Hpaid). exists new. eexists. split_and!; [done..|].
  assert (Hndst : NoDup (node_id <$> ws_steps st)) by exact (sublist_NoDup _ _ Hnd Hord).
  split; simpl; try done; [|by eexists|..].
  - split; [done|]. intros Hin. apply Hsrc. by eapply elem_of_sublist.
  - intros up' Hup'. assert (up' = upline) as -> by congruence. split; [done|]. intros u ->.
    destruct (Hunv u eq_refl) as (pre & n & post & Heq & <- & _). simpl in Heq. rewrite Heq.
    apply list_elem_of_fmap. exists n. split; [done|]. apply elem_of_app. right. left.
  - destruct why; simpl in Hstop; [done| | |done].
    + destruct Hstop as [Hl (pre & n & post & _ & ->)]. split; [lia|eauto].
    + destruct Hstop as [Hl (pre & n & post & _ & -> & Hs)]. split; [lia|eauto].
  - intros u ->. destruct (Hunv u eq_refl) as (pre & n & post & Heq & <- & Hsub). simpl in Heq.
    intros Hin. eapply elem_of_sublist in Hin; [|exact Hsub].
    rewrite Heq, fmap_app, fmap_cons in Hnd. apply NoDup_app in Hnd as (_ & Hdis & _).
    apply (Hdis _ Hin). left.
Qed.

Lemma walk_volume_audit volume es0 ws0 es ws :
  (N.of_nat (length ws0) + N.of_nat (length volume) ≤ 2 ^ 32)%N →
  fold_outcome (walk_source tree cfg cache snapshots should_stop) (es0, ws0) volume = Ok (es, ws) →
  ∃ ess new, es = es0 ++ concat ess ∧ ws = ws0 ++ new ∧ length ess = length volume ∧
  length new = length volume ∧
  ∀ k src, volume !! k = Some src → ∃ ek w, ess !! k = Some ek ∧ new !! k = Some w ∧
  audited src (N.of_nat (length ws0 + k)) ek w.
Proof.
  revert es0 ws0. induction volume as [|src volume IH]; intros es0 ws0 Hlen Hrun.
  { simpl in Hrun. simplify_eq. exists [], []. rewrite !app_nil_r. by split_and!. }
  cbn [fold_outcome] in Hrun. apply bind_ok in Hrun as ([es1 ws1] & H1 & Hrun). simpl in Hlen.
  apply walk_source_audit in H1 as (new & w & -> & -> & Hau); [|lia].
  apply IH in Hrun as (ess & ws' & -> & -> & L1 & L2 & Hall); [|rewrite length_app; simpl; lia].
  exists (new :: ess), (w :: ws'). simpl. rewrite <- !app_assoc. split_and!; [done|done|lia|lia|].
  intros [|k] s Hs; simpl in Hs.
  - simplify_eq. exists new, w. rewrite Nat.add_0_r. done.
  - destruct (Hall k s Hs) as (ek & w' & ? & ? & Ha). exists ek, w'. split_and!; [done..|].
    rewrite length_app in Ha. simpl in Ha. by replace (length ws0 + S k) with (length ws0 + 1 + k) by lia.
Qed.

(** A successful calculation leaves one audited walk per source. *)
Lemma walk_level_audit volume es ws : (N.of_nat (length volume) ≤ 2 ^ 32)%N →
  walk_level_commissions tree cfg cache snapshots volume should_stop [] = Ok (es, ws) →
  ∃ ess, es = concat ess ∧ length ess = length volume ∧ length ws = length volume ∧
  ∀ k src, volume !! k = Some src → ∃ ek w, ess !! k = Some ek ∧ ws !! k = Some w ∧
  audited src (N.of_nat k) ek w.
Proof.
  intros Hlen Hrun. destruct (walk_volume_audit volume [] [] es ws ltac:(simpl; lia) Hrun)
  as (ess & new & -> & -> & L1 & L2 & Hall). by exists ess.
Qed.

(** The earner is on the source's upline, no nearer than its level. *)
Lemma audited_ancestor src k es w e : audited src k es w → e ∈ es → ∃ upline j n,
  get_upline tree (vs_source_id src) 0 = Ok upline ∧ upline !! j = Some n ∧ user_id n = earner_id e ∧
  (level e ≤ N.of_nat j + 1)%N.
Proof using Type.
  clear Hdepth. intros Ha He. destruct (au_source _ _ _ _ Ha) as [upline Hup]. destruct (au_upline _ _ _ _ Ha upline Hup) as [Hsub _].
  assert (Hin : (earner_id e, level e) ∈ paid_levels (steps w)).
  { rewrite <- (au_paid _ _ _ _ Ha). by apply (list_elem_of_fmap_2 (λ e, (earner_id e, level e))). }
  apply paid_levels_lookup in Hin as (i & s & Hi & Hs & Hl).
  destruct (sublist_lookup_later _ _ i (node_id s) Hsub) as (j & Hj & Hn); [by rewrite list_lookup_fmap, Hi|].
  rewrite list_lookup_fmap in Hn. apply fmap_Some in Hn as (n & Hn & Hu). exists upline, j, n.
  split_and!; [done..|congruence|lia].
Qed.

(** An earning belongs to one source's audited walk. *)
Lemma earning_audit volume es ws e : (N.of_nat (length volume) ≤ 2 ^ 32)%N →
  walk_level_commissions tree cfg cache snapshots volume should_stop [] = Ok (es, ws) → e ∈ es →
  ∃ k src ek w, volume !! k = Some src ∧ ws !! k = Some w ∧ audited src (N.of_nat k) ek w ∧ e ∈ ek.
Proof.
  intros Hlen Hrun He. destruct (walk_level_audit volume es ws Hlen Hrun) as (ess & -> & L1 & L2 & Hall).
  apply elem_of_concat in He as (ek & Hek & He). apply list_elem_of_lookup in Hek as [k Hk].
  destruct (lookup_lt_is_Some_2 volume k) as [src Hsrc]; [rewrite <- L1; by eapply lookup_lt_Some|].
  destruct (Hall k src Hsrc) as (ek' & w & Hek' & Hw & Ha). assert (ek' = ek) as -> by congruence. by exists k, src, ek, w.
Qed.
End volume.

(** ** The public statements *)

(** The part of a concatenation that carries index [k] is its [k]-th list. *)
Lemma filter_concat_index {A} (f : A → option N) (ess : list (list A)) off :
  (∀ j l, ess !! j = Some l → Forall (λ e, f e = Some (N.of_nat (off + j))) l) →
  ∀ k l, ess !! k = Some l → filter (λ e, f e = Some (N.of_nat (off + k))) (concat ess) = l.
Proof.
  revert off. induction ess as [|l0 ess IH]; intros off Hall k l Hk; [done|]. simpl. rewrite filter_app.
  assert (H0 : Forall (λ e, f e = Some (N.of_nat (off + 0))) l0) by (by apply (Hall 0)).
  assert (Hrest : ∀ j l, ess !! j = Some l → Forall (λ e, f e = Some (N.of_nat (S off + j))) l).
  { intros j l' Hj. replace (S off + j) with (off + S j) by lia. by apply (Hall (S j)). }
  destruct k as [|k]; simpl in Hk.
  - simplify_eq. rewrite (filter_all_true _ l H0), filter_all_false; [apply app_nil_r|].
    intros e (l' & Hl' & He)%elem_of_concat Hf. apply list_elem_of_lookup in Hl' as [j Hj].
    pose proof (Hrest j l' Hj) as Hf'. rewrite Forall_forall in Hf'. specialize (Hf' e He).
    rewrite Hf in Hf'. injection Hf' as Hf'. lia.
  - rewrite filter_all_false; simpl.
    + replace (off + S k) with (S off + k) by lia. by apply IH.
    + intros e He Hf. rewrite Forall_forall in H0. specialize (H0 e He). rewrite Hf in H0. injection H0. lia.
Qed.

Section statements.
Context {D : Type} `{!DecimalOps D, !DecimalLaws D}.
Context {T : Type} `{!TreeNavigator T} (inv : T → Prop) `{!NavigatorLaws T inv}.

(** The earnings of each walk, in emission order. *)
Lemma walk_earnings tree cfg cache snapshots volume should_stop es ws : inv tree →
  (max_depth cfg ≤ 255)%N → (N.of_nat (length volume) ≤ 2 ^ 32)%N →
  walk_level_commissions (D := D) tree cfg cache snapshots volume should_stop [] = Ok (es, ws) →
  length ws = length volume ∧ ∀ k src w, volume !! k = Some src → ws !! k = Some w →
  walk_index w = N.of_nat k ∧ walk_source_id w = vs_source_id src ∧
  (N.of_nat (length (steps w)) ≤ max_depth cfg)%N ∧
  (λ e, (earner_id e, level e)) <$> filter (λ e, walk e = Some (N.of_nat k)) es = paid_levels (steps w).
Proof.
  intros Hinv Hd Hlen Hrun.
  destruct (walk_level_audit inv tree Hinv cfg cache snapshots should_stop Hd volume es ws Hlen Hrun)
  as (ess & -> & L1 & L2 & Hall). split; [done|]. intros k src w Hsrc Hw.
  destruct (Hall k src Hsrc) as (ek & w' & Hek & Hw' & Ha). assert (w' = w) as -> by congruence.
  destruct (au_walk _ _ _ _ _ _ _ _ _ Ha) as (? & ? & _). split_and!; [done..|apply (au_depth _ _ _ _ _ _ _ _ _ Ha)|].
  rewrite <- (au_paid _ _ _ _ _ _ _ _ _ Ha). f_equal. apply (filter_concat_index walk ess 0); [|done].
  intros j l Hj. destruct (lookup_lt_is_Some_2 volume j) as [s Hs]; [rewrite <- L1; by eapply lookup_lt_Some|].
  destruct (Hall j s Hs) as (l' & w' & Hl' & _ & Ha'). assert (l' = l) as -> by congruence.
  eapply Forall_impl; [apply (au_good _ _ _ _ _ _ _ _ _ Ha')|]. intros e He. apply He.
Qed.

(** A successful calculation records one walk per volume source, in input
    order and numbered from zero, with at most [max_depth] steps; the earnings
    that reference a walk are exactly its paid steps, in order, each at the
    level given by its position among the consumed steps. *)
Theorem earnings_are_paid_steps tree cfg cache snapshots volume should_stop es ws : inv tree →
  (max_depth cfg ≤ 255)%N → (N.of_nat (length volume) ≤ 2 ^ 32)%N →
  walk_level_commissions (D := D) tree cfg cache snapshots volume should_stop [] = Ok (es, ws) →
  length ws = length volume ∧ ∀ k src w, volume !! k = Some src → ws !! k = Some w →
  walk_index w = N.of_nat k ∧ walk_source_id w = vs_source_id src ∧
  (N.of_nat (length (steps w)) ≤ max_depth cfg)%N ∧
  (λ e, (earner_id e, level e)) <$> filter (λ e, walk e = Some (N.of_nat k)) es = paid_levels (steps w).
Proof. apply walk_earnings. Qed.

(** Every earning pays an eligible ancestor at a level between 1 and the
    configured depth (and within the ancestor's own limit), at the positive
    rate of its rank and level, and its amount is exactly
    CV x broad percent x multiplier x rate. *)
Theorem earning_amount_exact tree cfg cache snapshots volume should_stop es ws e : inv tree →
  (max_depth cfg ≤ 255)%N → (N.of_nat (length volume) ≤ 2 ^ 32)%N →
  walk_level_commissions (D := D) tree cfg cache snapshots volume should_stop [] = Ok (es, ws) → e ∈ es →
  ∃ src snap r res, src ∈ volume ∧ source_id e = vs_source_id src ∧ cv_amount e = dec (vs_cv_amount src) ∧
  (1 ≤ level e ≤ max_depth cfg)%N ∧ snapshots !! earner_id e = Some snap ∧
  rate e = Some r ∧ r = rate_at cfg snap (level e) ∧ (0 < units r)%Z ∧
  cache !! earner_id e = Some res ∧ eligible res = true ∧
  (∀ m, max_earning_depth res = Some m → (level e ≤ m)%N) ∧
  (units (dollar_amount e) * 10 ^ 84 =
  units (cv_amount e) * units (broad_pct cfg) * units (multiplier cfg) * units r)%Z.
Proof.
  intros Hinv Hd Hlen Hrun He.
  destruct (earning_audit inv tree Hinv cfg cache snapshots should_stop Hd volume es ws e Hlen Hrun He)
    as (k & src & ek & w & Hsrc & _ & Ha & Hek).
  pose proof (au_good _ _ _ _ _ _ _ _ _ Ha) as Hg. rewrite Forall_forall in Hg.
  destruct (Hg e Hek) as (G1 & _ & G2 & G3 & snap & r & Hr & (Hs & Hrate & Hpos & res & H1 & H2 & H3) & Hx).
  exists src, snap, r, res. split_and!; try done.
  - by eapply list_elem_of_lookup_2.
  - lia.
  - lia.
  - unfold dec_ltb in Hpos. rewrite compare_units, zero_units in Hpos.
    destruct (Z.compare_spec 0 (units r)); done.
  - rewrite G2. exact Hx.
Qed.

(** A walk's stop reason is true: [RootReached] names no node;
    [MaxDepthReached] means every configured level was consumed;
    [BoundaryReached] means the predicate held at the named node with levels
    left. The node named is an ancestor of the source that no step visits, and
    the visited ancestors are distinct and in upline order. *)
Theorem walk_stop_sound tree cfg cache snapshots volume should_stop es ws k src w upline : inv tree →
  (max_depth cfg ≤ 255)%N → (N.of_nat (length volume) ≤ 2 ^ 32)%N →
  walk_level_commissions (D := D) tree cfg cache snapshots volume should_stop [] = Ok (es, ws) →
  volume !! k = Some src → ws !! k = Some w → get_upline tree (vs_source_id src) 0 = Ok upline →
  match stop w with
  | RootReached => stopped_at w = None
  | MaxDepthReached => N.of_nat (length (steps w)) = max_depth cfg ∧ is_Some (stopped_at w)
  | BoundaryReached => (N.of_nat (length (steps w)) < max_depth cfg)%N ∧
  ∃ u, stopped_at w = Some u ∧ should_stop u = true
  | MaxGenerationsReached => False
  end ∧
  (∀ u, stopped_at w = Some u → u ∈ user_id <$> upline ∧ u ∉ node_id <$> steps w) ∧
  NoDup (node_id <$> steps w) ∧ sublist (node_id <$> steps w) (user_id <$> upline).
Proof.
  intros Hinv Hd Hlen Hrun Hsrc Hw Hup.
  destruct (walk_level_audit inv tree Hinv cfg cache snapshots should_stop Hd volume es ws Hlen Hrun)
  as (ess & -> & L1 & L2 & Hall).
  destruct (Hall k src Hsrc) as (ek & w' & Hek & Hw' & Ha). assert (w' = w) as -> by congruence.
  destruct (au_upline _ _ _ _ _ _ _ _ _ Ha upline Hup) as [U1 U2].
  split_and!; [apply (au_stop _ _ _ _ _ _ _ _ _ Ha)| |apply (au_nodup _ _ _ _ _ _ _ _ _ Ha)|done].
  intros u Hu. split; [by apply U2|by apply (au_unvisited _ _ _ _ _ _ _ _ _ Ha)].
Qed.
End statements.

(** ** Compression and pass-up remove ancestors from the chain *)
Section filtering.
Context {D : Type} `{!DecimalOps D}.
Context (cfg : LevelWalkConfig (D := D)) (cache : gmap Uuid EligibilityResult).
Context (snapshots : gmap Uuid (DistributorSnapshot D)) (source : VolumeSource D) (collector_id : N).

(** The configuration with neither compression nor pass-up. *)
Definition uncompressed : LevelWalkConfig :=
  mkLevelWalkConfig (max_depth cfg) (broad_pct cfg) (multiplier cfg) None (threshold_ordinal cfg)
  (rank_ordinals cfg) (walk_rates cfg) None None.

Definition is_eligible_here (n : Node) : bool :=
  match cache !! user_id n with Some e => eligible e | None => false end.

(** Whether an ancestor is taken out of the chain. *)
Definition removed (n : Node) : bool :=
  passed_up cfg (vs_source_id source) n ||
  match snapshots !! user_id n with Some s => compressed cfg 1 (is_eligible_here n) s | None => false end.

Lemma compressed_level lvl b s : dynamic_thresholds cfg = None → compressed cfg lvl b s = compressed cfg 1 b s.
Proof. intros H. unfold compressed. by rewrite H. Qed.

Lemma visit_removed st n : dynamic_thresholds cfg = None → is_Some (snapshots !! user_id n) →
  (ws_level st ≤ max_depth cfg)%N →
  visit cfg cache snapshots (λ _, false) source collector_id st n =
  if removed n then Ok (Go st)
  else visit uncompressed cache snapshots (λ _, false) source collector_id st n.
Proof.
  intros Hdyn [s Hs] Hlev. unfold visit, removed. simpl. apply N.ltb_ge in Hlev. rewrite Hlev, Hs. simpl.
  destruct (passed_up cfg (vs_source_id source) n); [done|]. simpl.
  rewrite (compressed_level _ _ _ Hdyn). fold (is_eligible_here n).
  by destruct (compressed cfg 1 (is_eligible_here n) s).
Qed.

(** Skipping consumes no level: with a level-independent compression mode,
    the steps and the earnings of a walk are those of the uncompressed walk
    over the ancestors that are neither passed up nor compressed out. *)
Theorem compression_is_filtering upline st : dynamic_thresholds cfg = None →
  (∀ n, n ∈ upline → is_Some (snapshots !! user_id n)) →
  (λ r, r.1.1) <$> walk_nodes (visit cfg cache snapshots (λ _, false) source collector_id) st upline =
  (λ r, r.1.1) <$> walk_nodes (visit uncompressed cache snapshots (λ _, false) source collector_id) st
  (filter (λ n, removed n = false) upline).
Proof.
  intros Hdyn. revert st. induction upline as [|n upline IH]; intros st Hcov; [done|].
  assert (Hcov' : ∀ m, m ∈ upline → is_Some (snapshots !! user_id m)) by (intros m Hm; apply Hcov; by right).
  destruct (N.le_gt_cases (ws_level st) (max_depth cfg)) as [Hlev|Hlev].
  - cbn [walk_nodes]. rewrite visit_removed; [|done|apply Hcov; left|done]. destruct (removed n) eqn:Hr.
    + rewrite filter_cons_False by congruence. cbn [mbind outcome_bind]. by apply IH.
    + rewrite filter_cons_True by done. cbn [walk_nodes].
      destruct (visit uncompressed _ _ _ _ _ st n) as [[st'|w]| | |]; cbn [mbind outcome_bind]; [by apply IH|done..].
  - assert (Hbreak : ∀ c m, max_depth c = max_depth cfg →
      visit c cache snapshots (λ _, false) source collector_id st m = Ok (Break MaxDepthReached)).
    { intros c m Hc. unfold visit. by rewrite Hc, (proj2 (N.ltb_lt _ _) Hlev). }
    cbn [walk_nodes]. rewrite Hbreak by done. cbn [mbind outcome_bind].
    destruct (filter _ (n :: upline)) as [|m l]; [done|]. cbn [walk_nodes]. by rewrite Hbreak.
Qed.
End filtering.
