(* ===== verification/WalkPrepare.v ===== *)
(** * What the preparation passes compute

    Snapshot validation, the eligibility cache and the pass-up sets of
    [commission/walk.rs]: each pass succeeds on a tree that keeps its invariant
    and computes the table its doc comment describes. *)

From stdpp Require Import base numbers list gmap strings.
From Stdlib Require Import ZArith Lia.
From S2P Require Import Prelude RustDecimal Dec TreeTypes Navigator CommissionTypes Walk.

(** ** The least entry *)
Section min_entry.
Context {V : Type}.
Implicit Types l : list (Uuid * V).

Lemma min_entry_from l h : ∃ e, foldl (λ held e, match held with
  | None => Some e | Some h => if (e.1 <? h.1)%N then Some e else held end) (Some h) l = Some e ∧
  e ∈ h :: l ∧ ∀ x, x ∈ h :: l → (e.1 ≤ x.1)%N.
Proof.
  revert h. induction l as [|x l IH]; intros h; cbn [foldl].
  { exists h. split_and!; [done|left|]. intros y ->%list_elem_of_singleton. done. }
  destruct (N.ltb_spec x.1 h.1) as [Hlt|Hge].
  - destruct (IH x) as (e & -> & Hin & Hle). exists e. split_and!; [done|by right|].
    intros y [->|Hy]%elem_of_cons; [|by apply Hle]. specialize (Hle x ltac:(left)). lia.
  - destruct (IH h) as (e & -> & Hin & Hle). exists e. split_and!; [done|set_solver|].
    intros y [->|[->|Hy]%elem_of_cons]%elem_of_cons; [apply Hle; left| |apply Hle; by right].
    specialize (Hle h ltac:(left)). lia.
Qed.

Lemma min_entry_Some l e : min_entry l = Some e → e ∈ l ∧ ∀ x, x ∈ l → (e.1 ≤ x.1)%N.
Proof.
  destruct l as [|h l]; [done|]. unfold min_entry. cbn [foldl].
  destruct (min_entry_from l h) as (e' & -> & H). intros [= <-]. done.
Qed.

Lemma min_entry_None l : min_entry l = None ↔ l = [].
Proof.
  destruct l as [|h l]; [done|]. unfold min_entry. cbn [foldl].
  destruct (min_entry_from l h) as (e' & -> & H). done.
Qed.
End min_entry.

(** ** Snapshot validation *)
Section validate.
Context {D : Type} `{!DecimalOps D}.
Context (plan : CompensationPlan D) (snapshots : gmap Uuid (DistributorSnapshot D)).

(** The three faults a snapshot table can have. *)
Definition bad_rank (u : Uuid) : Prop :=
  ∃ s, snapshots !! u = Some s ∧ rank s ∉ rank_name <$> ranks plan.
Definition bad_volume (u : Uuid) : Prop :=
  ∃ s, snapshots !! u = Some s ∧ is_negative (dec (personal_volume s)) = true.

(** The least member whose snapshot has a fault. *)
Lemma least_fault (P : DistributorSnapshot D → Prop) `{!∀ s, Decision (P s)} :
  match min_entry (filter (λ e, P e.2) (map_to_list snapshots)) with
  | Some (u, s) => snapshots !! u = Some s ∧ P s ∧ ∀ v s', snapshots !! v = Some s' → P s' → (u ≤ v)%N
  | None => ∀ u s, snapshots !! u = Some s → ¬ P s
  end.
Proof.
  assert (Hmem : ∀ u s, (u, s) ∈ filter (λ e, P e.2) (map_to_list snapshots) ↔ P s ∧ snapshots !! u = Some s).
  { intros u s. by rewrite list_elem_of_filter, elem_of_map_to_list. }
  destruct (min_entry _) as [[u s]|] eqn:Hmin.
  - apply min_entry_Some in Hmin as [Hin Hle]. apply Hmem in Hin as [Hs Hr].
    split_and!; [done..|]. intros v s' Hs' Hr'. apply (Hle (v, s')). by apply Hmem.
  - apply min_entry_None in Hmin. intros u s Hs Hr. apply (not_elem_of_nil (u, s)).
    rewrite <- Hmin. by apply Hmem.
Qed.

Lemma validate_snapshot_ranks_spec :
  match validate_snapshot_ranks plan snapshots with
  | Ok _ => ∀ u, ¬ bad_rank u
  | Err e => ∃ u (s : DistributorSnapshot D), e = UnknownSnapshotRank u (rank s) ∧ bad_rank u ∧ ∀ v, bad_rank v → (u ≤ v)%N
  | _ => False
  end.
Proof.
  unfold validate_snapshot_ranks, bad_rank.
  pose proof (least_fault (λ s, rank s ∉ (list_to_set (rank_name <$> ranks plan) : gset string))) as H.
  assert (Hr : ∀ s : DistributorSnapshot D, rank s ∉ (list_to_set (rank_name <$> ranks plan) : gset string) ↔
  rank s ∉ rank_name <$> ranks plan) by (intros s; by rewrite elem_of_list_to_set).
  destruct (min_entry _) as [[u s]|]; naive_solver.
Qed.

Lemma validate_snapshot_volumes_spec :
  match validate_snapshot_volumes snapshots with
  | Ok _ => ∀ u, ¬ bad_volume u
  | Err e => ∃ u (s : DistributorSnapshot D), e = InvalidPersonalVolume u (personal_volume s) ∧ bad_volume u ∧ ∀ v, bad_volume v → (u ≤ v)%N
  | _ => False
  end.
Proof.
  unfold validate_snapshot_volumes, bad_volume.
  pose proof (least_fault (λ s, is_negative (dec (personal_volume s)) = true)) as H.
  destruct (min_entry _) as [[u s]|]; naive_solver.
Qed.

Lemma validate_snapshot_coverage_spec (required : list Uuid) :
  match validate_snapshot_coverage required snapshots with
  | Ok _ => ∀ u, u ∈ required → is_Some (snapshots !! u)
  | Err e => ∃ u, e = DistributorNotInSnapshot u ∧ u ∈ required ∧ snapshots !! u = None ∧
  ∀ v, v ∈ required → snapshots !! v = None → (u ≤ v)%N
  | _ => False
  end.
Proof.
  unfold validate_snapshot_coverage.
  assert (Hmem : ∀ u, (u, ()) ∈ (λ u, (u, ())) <$> filter (λ u, snapshots !! u = None) required ↔
    u ∈ required ∧ snapshots !! u = None).
  { intros u. rewrite list_elem_of_fmap. setoid_rewrite list_elem_of_filter. naive_solver. }
  destruct (min_entry _) as [[u []]|] eqn:Hmin.
  - apply min_entry_Some in Hmin as [Hin Hle]. apply Hmem in Hin as [Hr Hs].
    exists u. split_and!; [done..|]. intros v Hv Hvs. apply (Hle (v, ())). by apply Hmem.
  - apply min_entry_None in Hmin. intros u Hu. apply not_eq_None_Some. intros Hn.
    apply (not_elem_of_nil (u, ())). rewrite <- Hmin. by apply Hmem.
Qed.

Lemma validate_snapshots_spec (required : list Uuid) :
  match validate_snapshots plan snapshots required with
  | Ok _ => (∀ u, ¬ bad_rank u) ∧ (∀ u, ¬ bad_volume u) ∧ ∀ u, u ∈ required → is_Some (snapshots !! u)
  | Err (UnknownSnapshotRank u _) => bad_rank u ∧ ∀ v, bad_rank v → (u ≤ v)%N
  | Err (InvalidPersonalVolume u _) => (∀ v, ¬ bad_rank v) ∧ bad_volume u ∧ ∀ v, bad_volume v → (u ≤ v)%N
  | Err (DistributorNotInSnapshot u) => (∀ v, ¬ bad_rank v) ∧ (∀ v, ¬ bad_volume v) ∧
  u ∈ required ∧ snapshots !! u = None ∧ ∀ v, v ∈ required → snapshots !! v = None → (u ≤ v)%N
  | _ => False
  end.
Proof.
  unfold validate_snapshots.
  pose proof validate_snapshot_ranks_spec as H1. pose proof validate_snapshot_volumes_spec as H2.
  pose proof (validate_snapshot_coverage_spec required) as H3.
  destruct (validate_snapshot_ranks plan snapshots) as [[]|e1| |]; [|naive_solver|done..].
  destruct (validate_snapshot_volumes snapshots) as [[]|e2| |]; [|naive_solver|done..]. cbn.
  destruct (validate_snapshot_coverage required snapshots) as [[]|e3| |]; [|naive_solver|done..]. done.
Qed.

(** Snapshot validation accepts exactly the tables whose ranks the plan
    defines, whose personal volumes are not negative and which cover every
    required member, and otherwise names the least offender of the first kind
    of fault present, whatever order the table is iterated in. *)
Theorem validate_snapshots_exact (required : list Uuid) :
  match validate_snapshots plan snapshots required with
  | Ok _ => (∀ u, ¬ bad_rank u) ∧ (∀ u, ¬ bad_volume u) ∧ ∀ u, u ∈ required → is_Some (snapshots !! u)
  | Err (UnknownSnapshotRank u _) => bad_rank u ∧ ∀ v, bad_rank v → (u ≤ v)%N
  | Err (InvalidPersonalVolume u _) => (∀ v, ¬ bad_rank v) ∧ bad_volume u ∧ ∀ v, bad_volume v → (u ≤ v)%N
  | Err (DistributorNotInSnapshot u) => (∀ v, ¬ bad_rank v) ∧ (∀ v, ¬ bad_volume v) ∧
  u ∈ required ∧ snapshots !! u = None ∧ ∀ v, v ∈ required → snapshots !! v = None → (u ≤ v)%N
  | _ => False
  end.
Proof. exact (validate_snapshots_spec required). Qed.
End validate.

(** ** Eligibility *)
Section eligibility.
Context {D : Type} `{!DecimalOps D}.
Context {T : Type} `{!TreeNavigator T} (inv : T → Prop) `{!NavigatorLaws T inv}.
Context (tree : T) (Hinv : inv tree).
Context (snapshots : gmap Uuid (DistributorSnapshot D)) (e : CommissionEligibility D).

(** A fold that inserts one entry per element. *)
Lemma fold_insert {E K A V} `{Countable K} (f : gmap K V → A → outcome E (gmap K V)) (k : A → K) (g : A → V)
  (l : list A) m : (∀ m x, x ∈ l → f m x = Ok (<[k x := g x]> m)) → fold_outcome f m l = Ok (insert_all k g m l).
Proof.
  revert m. induction l as [|x l IH]; intros m Hf; [done|]. cbn [fold_outcome].
  rewrite Hf by left. cbn [mbind outcome_bind]. rewrite IH by (intros; apply Hf; by right). done.
Qed.

(** The recruits of a user: none for an unknown one. *)
Definition recruits (u : Uuid) : list Node :=
  match get_sponsored tree u with Ok ns => ns | _ => [] end.

Lemma recruits_or_spec {A} u (none : A) f : f [] = Ok none →
  recruits_or (D := D) tree u none f = f (recruits u).
Proof using Hinv NavigatorLaws0.
  intros Hnone. unfold recruits_or, recruits. destruct (contains tree u) eqn:Hc.
  - destruct (nav_sponsored tree u Hinv Hc) as (ns & -> & _). done.
  - by rewrite (nav_sponsored_unknown tree u Hinv Hc).
Qed.

(** The eligible recruits. *)
Definition active_legs (u : Uuid) : nat :=
  length (filter (λ n, active_recruit snapshots e n = true) (recruits u)).

Definition eligibility_of (u : Uuid) (s : DistributorSnapshot D) : EligibilityResult :=
  let ok := is_eligible s e in
  mkEligibilityResult ok (determine_max_depth
  (if ok && bool_decide (active_leg_tiers e ≠ []) then as_u16 (N.of_nat (active_legs u)) else 0)
  (active_leg_tiers e)).

Lemma evaluate_one_spec results u s :
  evaluate_one snapshots tree e results (u, s) = Ok (<[u := eligibility_of u s]> results).
Proof using Hinv NavigatorLaws0.
  unfold evaluate_one, eligibility_of. destruct (is_eligible s e && _); [|done].
  unfold count_active_legs. by rewrite recruits_or_spec.
Qed.

Lemma evaluate_eligibility_spec : ∃ cache, evaluate_eligibility snapshots tree e = Ok cache ∧
  ∀ u, cache !! u = eligibility_of u <$> snapshots !! u.
Proof using Hinv NavigatorLaws0.
  eexists. split.
  { apply (fold_insert _ fst (λ x, eligibility_of x.1 x.2)). intros m [u s] _. apply evaluate_one_spec. }
  intros u. apply option_eq. intros r.
  rewrite insert_all_Some by apply NoDup_fst_map_to_list. rewrite fmap_Some. split.
  - intros ([v s] & Hin%elem_of_map_to_list & <- & <-). by exists s.
  - intros (s & Hs & ->). exists (u, s). by rewrite elem_of_map_to_list.
Qed.
End eligibility.

(** ** Pass-up sets *)
Section pass_up.
Context {D : Type} `{!DecimalOps D}.
Context {T : Type} `{!TreeNavigator T} (inv : T → Prop) `{!NavigatorLaws T inv}.
Context (tree : T) (Hinv : inv tree) (pu : PassUpConfig).

(** The recruits a member gives up: the first [count] by enrollment. *)
Definition given_up (u : Uuid) : list Node :=
  take (N.to_nat (count pu)) (sort_by enrolled_compare (recruits tree u)).

(** Giving up a recruit covers the recruit and, when commissions are
    included, everyone below. *)
Definition covers (r s : Uuid) : Prop :=
  s = r ∨ includes_commissions pu = true ∧ contains tree s = true ∧ is_descendant_of tree s r = Ok true.

Lemma recruits_known u n : n ∈ recruits tree u → contains tree (user_id n) = true.
Proof using Hinv NavigatorLaws0.
  unfold recruits. destruct (contains tree u) eqn:Hc.
  - destruct (nav_sponsored tree u Hinv Hc) as (ns & -> & _ & Hns). apply Hns.
  - rewrite (nav_sponsored_unknown tree u Hinv Hc). by intros ?%elem_of_nil.
Qed.

Lemma add_recruit_spec set n : contains tree (user_id n) = true →
  ∃ set', add_recruit (D := D) tree pu set n = Ok set' ∧ ∀ s, s ∈ set' ↔ s ∈ set ∨ covers (user_id n) s.
Proof using Hinv NavigatorLaws0.
  intros Hc. unfold add_recruit, covers. destruct (includes_commissions pu).
  - destruct (nav_downline tree _ Hinv Hc) as (ns & -> & _ & Hns). eexists. split; [done|]. intros s.
    specialize (Hns s). set_solver.
  - eexists. split; [done|]. set_solver.
Qed.

Lemma add_recruits_spec rs set : (∀ n, n ∈ rs → contains tree (user_id n) = true) →
  ∃ set', fold_outcome (add_recruit (D := D) tree pu) set rs = Ok set' ∧
  ∀ s, s ∈ set' ↔ s ∈ set ∨ ∃ r, r ∈ rs ∧ covers (user_id r) s.
Proof using Hinv NavigatorLaws0.
  revert set. induction rs as [|n rs IH]; intros set Hrs; cbn [fold_outcome].
  { exists set. split; [done|]. setoid_rewrite elem_of_nil. naive_solver. }
  destruct (add_recruit_spec set n) as (set1 & -> & H1); [apply Hrs; left|].
  destruct (IH set1) as (set2 & H2 & Hs2); [intros m Hm; apply Hrs; by right|].
  exists set2. split; [done|]. intros s. rewrite Hs2, H1. setoid_rewrite elem_of_cons. naive_solver.
Qed.

Definition passes (sets : gmap Uuid (gset Uuid)) (u s : Uuid) : Prop := ∃ set, sets !! u = Some set ∧ s ∈ set.

Lemma pass_up_one_spec sets u : ∃ sets', pass_up_one (D := D) tree pu sets u = Ok sets' ∧
  (∀ v s, v ≠ u → passes sets' v s ↔ passes sets v s) ∧
  ((∀ s, passes sets' u s ↔ ∃ r, r ∈ given_up u ∧ covers (user_id r) s) ∨
  sets' = sets ∧ ∀ s r, r ∈ given_up u → ¬ covers (user_id r) s).
Proof using Hinv NavigatorLaws0.
  unfold pass_up_one. rewrite (recruits_or_spec inv tree Hinv) by done.
  destruct (bool_decide_reflect (recruits tree u = [])) as [Hnil|Hne].
  { exists sets. split_and!; [done..|]. right. split; [done|]. unfold given_up. rewrite Hnil.
    change (sort_by enrolled_compare []) with (@nil Node). intros s r. rewrite take_nil. by intros ?%elem_of_nil. }
  assert (Htake : take (Nat.min (N.to_nat (count pu)) (length (sort_by enrolled_compare (recruits tree u))))
    (sort_by enrolled_compare (recruits tree u)) = given_up u).
  { unfold given_up. rewrite Nat.min_comm, <- firstn_firstn. by rewrite firstn_all2 by (rewrite length_take; lia). }
  rewrite Htake. destruct (add_recruits_spec (given_up u) ∅) as (set & Hset & Hin).
  { intros n Hn. apply (recruits_known u). unfold given_up in Hn. apply elem_of_take in Hn as (k & Hk & _).
    apply list_elem_of_lookup_2 in Hk. by rewrite sort_by_perm in Hk. }
  rewrite Hset. cbn [mbind outcome_bind]. eexists. split; [done|].
  destruct (bool_decide_reflect (set = ∅)) as [->|Hset'].
  - split; [done|]. right. split; [done|]. intros s r Hr Hcov. apply (not_elem_of_empty (C := gset Uuid) s).
    apply Hin. right. eauto.
  - split.
    + intros v s Hv. unfold passes. by rewrite lookup_insert_ne.
    + left. intros s. unfold passes. rewrite lookup_insert_eq. split.
      * intros (set' & [= <-] & Hs). apply Hin in Hs as [Hs%not_elem_of_empty|Hs]; done.
      * intros Hs. exists set. split; [done|]. apply Hin. by right.
Qed.

Lemma pass_up_fold ids seen sets :
  (∀ u s, passes sets u s ↔ u ∈ seen ∧ ∃ r, r ∈ given_up u ∧ covers (user_id r) s) →
  ∃ sets', fold_outcome (pass_up_one (D := D) tree pu) sets ids = Ok sets' ∧
  ∀ u s, passes sets' u s ↔ u ∈ seen ++ ids ∧ ∃ r, r ∈ given_up u ∧ covers (user_id r) s.
Proof using Hinv NavigatorLaws0.
  revert seen sets. induction ids as [|v ids IH]; intros seen sets Hsets.
  { exists sets. by rewrite app_nil_r. }
  cbn [fold_outcome]. destruct (pass_up_one_spec sets v) as (sets1 & -> & Hother & Hv).
  cbn [mbind outcome_bind]. rewrite (app_assoc seen [v] ids : seen ++ v :: ids = (seen ++ [v]) ++ ids). apply IH.
  intros u s. rewrite elem_of_app, list_elem_of_singleton.
  destruct (decide (u = v)) as [->|Hne]; [|rewrite Hother, Hsets by done; naive_solver].
  destruct Hv as [Hv|[-> Hnone]]; [rewrite Hv; naive_solver|].
  rewrite Hsets. naive_solver.
Qed.

Lemma build_pass_up_context_spec ids : ∃ ctx, build_pass_up_context (D := D) tree pu ids = Ok ctx ∧
  ∀ u s, passes (skip_sets ctx) u s ↔ u ∈ ids ∧ ∃ r, r ∈ given_up u ∧ covers (user_id r) s.
Proof using Hinv NavigatorLaws0.
  destruct (pass_up_fold ids [] ∅) as (sets & Hrun & Hsets).
  { intros u s. split; [intros (set & Hs & _); by rewrite lookup_empty in Hs|].
  intros [Hu _]. by apply elem_of_nil in Hu. }
  unfold build_pass_up_context. rewrite Hrun. eexists. by split.
Qed.
End pass_up.

(** ** The public statements *)

(** The last tier a member reaches decides. *)
Lemma determine_max_depth_tier legs pre t post : (min_active_legs t ≤ legs)%N →
  Forall (λ t', (legs < min_active_legs t')%N) post →
  determine_max_depth legs (pre ++ t :: post) =
  (if (max_commission_depth t =? 0)%N then None else Some (N.min (max_commission_depth t) 255)).
Proof.
  intros Ht Hpost. unfold determine_max_depth.
  destruct (pre ++ t :: post) as [|t0 l0] eqn:E; [by destruct pre|]. rewrite <- E.
  assert (list_find (λ t, (min_active_legs t ≤ legs)%N) (reverse (pre ++ t :: post)) = Some (length post, t)) as ->.
  { apply list_find_Some. rewrite reverse_app, reverse_cons, <- app_assoc. split_and!; [|done|].
    - rewrite lookup_app_r by (by rewrite length_reverse). by rewrite length_reverse, Nat.sub_diag.
    - intros j y Hy Hlt. rewrite lookup_app_l in Hy by (by rewrite length_reverse).
      apply list_elem_of_lookup_2 in Hy. rewrite elem_of_reverse in Hy. rewrite Forall_forall in Hpost.
      specialize (Hpost y Hy). lia. }
  destruct (max_commission_depth t =? 0)%N; [done|]. destruct (N.leb_spec (max_commission_depth t) 255); f_equal; lia.
Qed.

Lemma determine_max_depth_none legs tiers : Forall (λ t, (legs < min_active_legs t)%N) tiers → determine_max_depth legs tiers = None.
Proof.
  intros Hall. unfold determine_max_depth. destruct tiers as [|t ts]; [done|].
  assert (list_find (λ t, (min_active_legs t ≤ legs)%N) (reverse (t :: ts)) = None) as ->; [|done].
  apply list_find_None, Forall_reverse. eapply Forall_impl; [exact Hall|]. cbn. intros x Hx. lia.
Qed.

Section statements.
Context {D : Type} `{!DecimalOps D}.
Context {T : Type} `{!TreeNavigator T} (inv : T → Prop) `{!NavigatorLaws T inv}.

(** C40. The eligibility pass succeeds and has an entry for exactly the members
    with a snapshot: the entry says whether the snapshot passes the plan's
    eligibility rules, and its depth limit is that of the last tier whose
    threshold the member's active legs reach, cut at 255, zero meaning unlimited
    and no tier reached meaning no limit. The active legs of an eligible member
    are its eligible recruits counted modulo 65536, as the code's cast to [u16]
    counts them; an ineligible member has none. *)
Theorem evaluate_eligibility_exact tree snapshots (e : CommissionEligibility D) : inv tree →
  ∃ cache, evaluate_eligibility snapshots tree e = Ok cache ∧
  (∀ u, snapshots !! u = None → cache !! u = None) ∧
  ∀ u s, snapshots !! u = Some s → ∃ d, cache !! u = Some (mkEligibilityResult (is_eligible s e) d) ∧
  let legs := if is_eligible s e then (N.of_nat (active_legs tree snapshots e u) mod 65536)%N else 0%N in
  (Forall (λ t, (legs < min_active_legs t)%N) (active_leg_tiers e) → d = None) ∧
  ∀ pre t post, active_leg_tiers e = pre ++ t :: post → (min_active_legs t ≤ legs)%N →
    Forall (λ t', (legs < min_active_legs t')%N) post →
    d = if (max_commission_depth t =? 0)%N then None else Some (N.min (max_commission_depth t) 255).
Proof.
  intros Hinv. destruct (evaluate_eligibility_spec inv tree Hinv snapshots e) as (cache & Hrun & Hcache).
  exists cache. split_and!; [done|intros u Hu; by rewrite Hcache, Hu|]. intros u s Hs.
  rewrite Hcache, Hs. eexists. split; [done|]. intros legs. subst legs.
  assert (Hl : ∀ tiers : list ActiveLegTier, tiers ≠ [] → (if is_eligible s e && bool_decide (tiers ≠ [])
    then as_u16 (N.of_nat (active_legs tree snapshots e u)) else 0%N) =
    if is_eligible s e then (N.of_nat (active_legs tree snapshots e u) mod 65536)%N else 0%N).
  { intros tiers Ht. rewrite bool_decide_eq_true_2, andb_true_r by done. done. }
  split.
  - intros Hall. destruct (active_leg_tiers e) as [|t ts] eqn:Ht; [done|]. rewrite Hl by done. by apply determine_max_depth_none.
  - intros pre t post Htiers Hle Hpost. rewrite Htiers, Hl by (by destruct pre). by apply determine_max_depth_tier.
Qed.

(** The pass-up context holds, for each participant, exactly the volume
    sources it gives up: its first [count] recruits by enrollment time and id,
    and, when commissions are included, everyone placed below them. *)
Theorem pass_up_exact tree pu ids : inv tree →
  ∃ ctx, build_pass_up_context (D := D) tree pu ids = Ok ctx ∧
  ∀ u s, (∃ set, skip_sets ctx !! u = Some set ∧ s ∈ set) ↔
  u ∈ ids ∧ ∃ r, r ∈ take (N.to_nat (count pu)) (sort_by enrolled_compare (recruits tree u)) ∧
  (s = user_id r ∨ includes_commissions pu = true ∧ contains tree s = true ∧
    is_descendant_of tree s (user_id r) = Ok true).
Proof. intros Hinv. exact (build_pass_up_context_spec inv tree Hinv pu ids). Qed.
End statements.
