(* ===== verification/Currency.v ===== *)
(** * The currency table: [currency.rs] and [commission/finalize.rs]

    [TABLE] is the text of [internal/currency/minor_units.csv], which the source
    includes at compile time. [minor_units] scans its lines; the finalize step
    rounds every earning to the minor unit of the plan's base currency. *)

From stdpp Require Import base numbers list gmap strings.
From Stdlib Require Import ZArith Lia Ascii.
From S2P Require Import Prelude RustDecimal Dec CommissionTypes.

#[local] Open Scope string_scope.

Definition TABLE : string :=
"# ISO 4217 currencies with an integer minor unit. Source: SIX, ISO 4217 list one, published 2026-09-17.
# Fund codes, precious metals, the test code XTS and codes with no minor unit (N.A.) are left out.
code,minor_units
AED,2
AFN,2
ALL,2
AMD,2
AOA,2
ARS,2
AUD,2
AWG,2
AZN,2
BAM,2
BBD,2
BDT,2
BHD,3
BIF,0
BMD,2
BND,2
BOB,2
BRL,2
BSD,2
BTN,2
BWP,2
BYN,2
BZD,2
CAD,2
CDF,2
CHF,2
CLP,0
CNY,2
COP,2
CRC,2
CUP,2
CVE,2
CZK,2
DJF,0
DKK,2
DOP,2
DZD,2
EGP,2
ERN,2
ETB,2
EUR,2
FJD,2
FKP,2
GBP,2
GEL,2
GHS,2
GIP,2
GMD,2
GNF,0
GTQ,2
GYD,2
HKD,2
HNL,2
HTG,2
HUF,2
IDR,2
ILS,2
INR,2
IQD,3
IRR,2
ISK,0
JMD,2
JOD,3
JPY,0
KES,2
KGS,2
KHR,2
KMF,0
KPW,2
KRW,0
KWD,3
KYD,2
KZT,2
LAK,2
LBP,2
LKR,2
LRD,2
LSL,2
LYD,3
MAD,2
MDL,2
MGA,2
MKD,2
MMK,2
MNT,2
MOP,2
MRU,2
MUR,2
MVR,2
MWK,2
MXN,2
MYR,2
MZN,2
NAD,2
NGN,2
NIO,2
NOK,2
NPR,2
NZD,2
OMR,3
PAB,2
PEN,2
PGK,2
PHP,2
PKR,2
PLN,2
PYG,0
QAR,2
RON,2
RSD,2
RUB,2
RWF,0
SAR,2
SBD,2
SCR,2
SDG,2
SEK,2
SGD,2
SHP,2
SLE,2
SOS,2
SRD,2
SSP,2
STN,2
SVC,2
SYP,2
SZL,2
THB,2
TJS,2
TMT,2
TND,3
TOP,2
TRY,2
TTD,2
TWD,2
TZS,2
UAH,2
UGX,0
USD,2
UYU,2
UZS,2
VED,2
VES,2
VND,0
VUV,0
WST,2
XAF,0
XCD,2
XCG,2
XOF,0
XPF,0
YER,2
ZAR,2
ZMW,2
ZWG,2
".

(** [str::lines]: the pieces between line feeds; a final line feed ends the last
    piece, and a carriage return before a line feed goes with it. *)
Definition newline : Ascii.ascii := Ascii.Ascii false true false true false false false false.
Definition carriage_return : Ascii.ascii := Ascii.Ascii true false true true false false false false.

Fixpoint strip_cr (s : string) : string :=
  match s with
  | "" => ""
  | String c "" => if Ascii.eqb c carriage_return then "" else s
  | String c s' => String c (strip_cr s')
  end.

Fixpoint lines_from (acc s : string) : list string :=
  match s with
  | "" => if String.eqb acc "" then [] else [acc]
  | String c s' =>
      if Ascii.eqb c newline then strip_cr acc :: lines_from "" s'
      else lines_from (acc ++ String c "") s'
  end.

Definition lines (s : string) : list string := lines_from "" s.

(** [str::split_once] on a character. *)
Fixpoint split_once (d : Ascii.ascii) (s : string) : option (string * string) :=
  match s with
  | "" => None
  | String c s' =>
      if Ascii.eqb c d then Some ("", s')
      else '(l, r) ← split_once d s'; Some (String c l, r)
  end.

(** [str::parse::<u32>]: an optional plus sign, then one or more decimal digits
    whose value fits. *)
Definition digit (c : Ascii.ascii) : option N :=
  let n := Ascii.N_of_ascii c in
  if ((48 <=? n) && (n <=? 57))%N then Some (n - 48)%N else None.

Fixpoint parse_digits (acc : N) (s : string) : option N :=
  match s with
  | "" => Some acc
  | String c s' =>
      d ← digit c;
      let acc := (acc * 10 + d)%N in
      if (acc <=? u32_max)%N then parse_digits acc s' else None
  end.

Definition parse_u32 (s : string) : option N :=
  match s with
  | "" => None
  | String c s' =>
      if Ascii.eqb c "+"%char then match s' with "" => None | _ => parse_digits 0 s' end
      else parse_digits 0 s
  end.

(** [Iterator::find_map]. *)
Fixpoint find_map {A B} (f : A → option B) (l : list A) : option B :=
  match l with
  | [] => None
  | x :: l' => match f x with Some y => Some y | None => find_map f l' end
  end.

Lemma find_map_Some {A B} (f : A → option B) l y : find_map f l = Some y → ∃ x, x ∈ l ∧ f x = Some y.
Proof.
  induction l as [|x l IH]; simpl; [done|]. destruct (f x) as [z|] eqn:E.
  - intros [= ->]. exists x. split; [left|done].
  - intros (x' & Hx & Hf)%IH. exists x'. split; [by right|done].
Qed.

Definition starts_with_hash (line : string) : bool :=
  match line with String c _ => Ascii.eqb c "#"%char | "" => false end.

(** The rows [minor_units] scans. *)
Definition rows : list string := drop 1 (filter (λ line, starts_with_hash line = false) (lines TABLE)).

Definition row_units (code line : string) : option N :=
  '(c, units) ← split_once ","%char line;
  if String.eqb c code then parse_u32 units else None.

Definition minor_units (code : string) : option N := find_map (row_units code) rows.

Section finalize.
Context {D : Type} `{!DecimalOps D}.

Definition plan_minor_units (plan : CompensationPlan D) : outcome (CalculationError D) N :=
  ok_or (minor_units (base_currency (volume_config plan)))
  (UnknownCurrency (base_currency (volume_config plan))).

Definition with_amount (e : CommissionEarning D) (amount : D) : CommissionEarning D :=
  mkEarning (earner_id e) (source_id e) (level e) (rate e) (cv_amount e) amount (walk e).

Definition round_earnings (es : list (CommissionEarning D)) (places : N) : list (CommissionEarning D) :=
  (λ e, with_amount e (round_minor (dollar_amount e) (Z.of_N places))) <$> es.
End finalize.

(** ** What the table holds *)

(** A row is a code and a number of places of at most four. *)
Definition good_row (line : string) : bool :=
  match split_once ","%char line with
  | Some (c, units) => match parse_u32 units with
                       | Some n => (n <=? 4)%N && Nat.eqb (String.length c) 3
                       | None => false
                       end
  | None => false
  end.

Lemma rows_good : forallb good_row rows = true.
Proof. vm_compute. reflexivity. Qed.

(** Every row answers for its own code. *)
Definition row_code (line : string) : string := from_option fst "" (split_once ","%char line).

Lemma rows_answer : forallb (λ line, bool_decide
  (minor_units (row_code line) = row_units (row_code line) line)) rows = true.
Proof. vm_compute. reflexivity. Qed.

(** The table itself is never unfolded below. *)
#[global] Opaque TABLE rows.

(** The scan of any such list of rows. *)
Section scan.
Context (l : list string).

Lemma row_units_Some code line n :
  row_units code line = Some n ↔ ∃ units, split_once ","%char line = Some (code, units) ∧ parse_u32 units = Some n.
Proof.
  unfold row_units. destruct (split_once ","%char line) as [[c units]|]; simpl; [|naive_solver].
  destruct (String.eqb_spec c code) as [->|Hne]; naive_solver.
Qed.

Lemma scan_Some code n : forallb good_row l = true → find_map (row_units code) l = Some n →
  (n ≤ 4)%N ∧ ∃ line units, line ∈ l ∧ split_once ","%char line = Some (code, units) ∧ parse_u32 units = Some n.
Proof.
  intros Hg (line & Hin & (units & Hs & Hp)%row_units_Some)%find_map_Some. rewrite forallb_forall in Hg.
  specialize (Hg line (proj1 (list_elem_of_In _ _) Hin)). unfold good_row in Hg. rewrite Hs, Hp in Hg.
  apply andb_prop in Hg as [Hg%N.leb_le _]. split; [done|]. by exists line, units.
Qed.

Lemma scan_answers (f : string → option N) code n line units :
  forallb (λ line, bool_decide (f (row_code line) = row_units (row_code line) line)) l = true →
  line ∈ l → split_once ","%char line = Some (code, units) → parse_u32 units = Some n → f code = Some n.
Proof.
  intros Hg Hin Hs Hp. rewrite forallb_forall in Hg. specialize (Hg line (proj1 (list_elem_of_In _ _) Hin)).
  apply bool_decide_eq_true in Hg. unfold row_code in Hg. rewrite Hs in Hg. cbn [from_option fst] in Hg.
  rewrite Hg. apply row_units_Some. by exists units.
Qed.
End scan.

(** A currency has a minor unit exactly when a row of the table carries its
    code; the unit is that row's number, and it is at most four places. *)
Theorem minor_units_table code n :
  minor_units code = Some n ↔
  (n ≤ 4)%N ∧ ∃ line units, line ∈ rows ∧ split_once ","%char line = Some (code, units) ∧ parse_u32 units = Some n.
Proof.
  split; [apply (scan_Some rows code n rows_good)|].
  intros (_ & line & units & Hin & Hs & Hp).
  apply (scan_answers rows minor_units code n line units rows_answer Hin Hs Hp).
Qed.

Lemma minor_units_bound code n : minor_units code = Some n → (n ≤ 4)%N.
Proof. intros H. apply (scan_Some rows code n rows_good H). Qed.

#[global] Opaque minor_units.

(** ** Rounding to the minor unit *)
Section rounding.
Context {D : Type} `{!DecimalOps D, !DecimalLaws D}.

Lemma round_minor_units (d : D) places : (0 ≤ places ≤ 28)%Z →
  units (round_minor d places) = (round_away (units d) (10 ^ (28 - places)) * 10 ^ (28 - places))%Z.
Proof.
  intros Hp. unfold round_minor. destruct (decide (scale d ≤ places)%Z) as [Hs|Hs].
  - rewrite round_keeps by done. destruct (decimal_holds d) as [_ Hd]. unfold units.
    replace (28 - scale d)%Z with ((places - scale d) + (28 - places))%Z by lia.
    rewrite pow10_split, Z.mul_assoc by lia.
    pose proof (round_by_exact MidpointAwayFromZero (mantissa d * 10 ^ (places - scale d)) (10 ^ (28 - places)))
      as He. simpl in He. rewrite He by (apply pow10_pos; lia). done.
  - by rewrite round_units by lia.
Qed.

Lemma round_minor_close (d : D) places : (0 ≤ places ≤ 28)%Z →
  (Z.abs (2 * (units d - units (round_minor d places))) ≤ 10 ^ (28 - places))%Z.
Proof.
  intros Hp. rewrite round_minor_units by done.
  pose proof (round_by_close MidpointAwayFromZero (units d) (10 ^ (28 - places))
  (pow10_pos (28 - places) ltac:(lia))) as H. simpl in H. by rewrite (Z.mul_comm (round_away _ _)).
Qed.
End rounding.
