(* ===== verification/WalkOrder.v ===== *)
(** * Walk index assignment: [commission/walk_order.rs]

    The emitters stamp a collector id into each walk. [assign_indexes] sorts the
    walks into a total order, numbers them and returns the translation of the
    collector ids; [assemble] applies it to the earnings, rounds their money and
    sorts them. The theorems: the indexes are the positions in the order, every
    earning keeps its walk, and the result does not depend on the order in which
    walks and earnings were emitted. *)

From stdpp Require Import base numbers list gmap sorting strings.
From Stdlib Require Import ZArith Lia.
From S2P Require Import Prelude RustDecimal Dec TreeTypes Navigator CommissionTypes Walk Currency.

Definition kind_key (k : WalkKind) : N := match k with Level => 0 | Generation => 1 end.

Definition rank_key (w : Walk) (ordinals : gmap string N) : option (N * string) :=
  (λ name, (default 0%N (ordinals !! name), name)) <$> walk_rank w.

Definition rank_key_compare : option (N * string) → option (N * string) → comparison :=
  option_compare (λ a b, then_with (a.1 ?= b.1)%N (String.compare a.2 b.2)).

(** An absent source sorts last. *)
Definition usize_max : N := 18446744073709551615%N.

Definition source_position (w : Walk) (position : gmap Uuid N) : N :=
  default usize_max (position !! walk_source_id w).

Definition set_index (w : Walk) (i : N) : Walk :=
  mkWalk i (walk_source_id w) (walk_kind w) (stream_id w) (walk_rank w) (steps w) (stop w) (stopped_at w).

Section order.
Context (ordinals : gmap string N) (position : gmap Uuid N).

(** Keys 1 to 4. *)
Definition key_compare (a b : Walk) : comparison :=
  then_with (kind_key (walk_kind a) ?= kind_key (walk_kind b))%N
  (then_with (option_compare N.compare (stream_id a) (stream_id b))
  (then_with (rank_key_compare (rank_key a ordinals) (rank_key b ordinals))
    (source_position a position ?= source_position b position)%N)).

Definition walk_compare (a b : Walk) : comparison :=
  then_with (key_compare a b) (walk_index a ?= walk_index b)%N.

#[export] Instance key_comparator : Comparator key_compare.
Proof. unfold key_compare, rank_key_compare. apply _. Qed.
#[export] Instance walk_comparator : Comparator walk_compare.
Proof. unfold walk_compare. apply _. Qed.

(** The collector id makes the order total. *)
Lemma walk_compare_eq a b : walk_compare a b = Eq → walk_index a = walk_index b.
Proof. unfold walk_compare, then_with. destruct (key_compare a b); [apply N.compare_eq|done..]. Qed.
End order.

Section assign.
Context {D : Type} `{!DecimalOps D}.

(** The position of each source's first occurrence in [volume]. *)
Definition first_positions (volume : list (VolumeSource D)) : gmap Uuid N :=
  foldl (λ m e, let '(i, v) := e in
  match m !! vs_source_id v with
  | Some _ => m
  | None => <[vs_source_id v := N.of_nat i]> m
  end) ∅ (enumerate volume).

Definition number_walk (e : nat * Walk) : Walk := set_index e.2 (N.of_nat e.1 mod 2 ^ 32)%N.

Definition assign_indexes (walks : list Walk) (volume : list (VolumeSource D))
  (ordinals : gmap string N) : list Walk * gmap N N :=
  let sorted := sort_by (walk_compare ordinals (first_positions volume)) walks in
  (number_walk <$> enumerate sorted,
  insert_all (λ e, walk_index e.2) (λ e, (N.of_nat e.1 mod 2 ^ 32)%N) ∅ (enumerate sorted)).

Definition with_walk (e : CommissionEarning D) (w : option N) : CommissionEarning D :=
  mkEarning (earner_id e) (source_id e) (level e) (rate e) (cv_amount e) (dollar_amount e) w.

Definition remap_earning {E} (remap : gmap N N) (e : CommissionEarning D)
  : outcome E (CommissionEarning D) :=
  match walk e with
  | Some collector_id => i ← expect (remap !! collector_id); Ok (with_walk e (Some i))
  | None => Ok e
  end.

Definition assemble {E} (es : list (CommissionEarning D)) (walks : list Walk)
  (volume : list (VolumeSource D)) (ordinals : gmap string N) (plan : PlanIdentity) (places : N)
  : outcome E (CommissionCalculationResult D) :=
  let '(walks, remap) := assign_indexes walks volume ordinals in
  es ← map_outcome (remap_earning remap) es;
  Ok (mkResult (sort_earnings (round_earnings es places)) walks plan).
End assign.

(** ** The indexes *)
Section indexes.
Context {D : Type} `{!DecimalOps D} (volume : list (VolumeSource D)) (ordinals : gmap string N).
Abbreviation cmp := (walk_compare ordinals (first_positions volume)).
Abbreviation keys := (key_compare ordinals (first_positions volume)).

Lemma assigned_lookup ws k w' : (assign_indexes ws volume ordinals).1 !! k = Some w' ↔
  ∃ w, sort_by cmp ws !! k = Some w ∧ w' = set_index w (N.of_nat k mod 2 ^ 32)%N.
Proof.
  unfold assign_indexes. cbn [fst]. rewrite list_lookup_fmap, enumerate_lookup.
  destruct (sort_by cmp ws !! k) as [w|]; simpl; naive_solver.
Qed.

Lemma sorted_ids ws : NoDup (walk_index <$> ws) →
  NoDup ((λ e : nat * Walk, walk_index e.2) <$> enumerate (sort_by cmp ws)).
Proof.
  intros H. change (NoDup (walk_index ∘ snd <$> enumerate (sort_by cmp ws))).
  rewrite list_fmap_compose, enumerate_snd. by rewrite sort_by_perm.
Qed.

Lemma remap_Some ws id i : NoDup (walk_index <$> ws) → (assign_indexes ws volume ordinals).2 !! id = Some i ↔
  ∃ k w, sort_by cmp ws !! k = Some w ∧ walk_index w = id ∧ i = (N.of_nat k mod 2 ^ 32)%N.
Proof.
  intros H. unfold assign_indexes. cbn [snd]. rewrite (insert_all_Some _ _ _ _ _ (sorted_ids ws H)). split.
  - intros ([k w] & Hk%elem_of_enumerate & <- & <-). by exists k, w.
  - intros (k & w & Hk & <- & ->). exists (k, w). by rewrite elem_of_enumerate.
Qed.

Lemma sorted_length ws : length (sort_by cmp ws) = length ws.
Proof. apply Permutation_length, sort_by_perm. Qed.

Lemma position_small ws k w : (N.of_nat (length ws) ≤ 2 ^ 32)%N → sort_by cmp ws !! k = Some w →
  (N.of_nat k mod 2 ^ 32 = N.of_nat k)%N.
Proof. intros Hlen Hk%lookup_lt_Some. rewrite sorted_length in Hk. apply N.mod_small. lia. Qed.

(** Each walk gets the index of its position in the order. *)
Lemma remapped ws w : NoDup (walk_index <$> ws) → (N.of_nat (length ws) ≤ 2 ^ 32)%N → w ∈ ws →
  ∃ k, (assign_indexes ws volume ordinals).2 !! walk_index w = Some (N.of_nat k) ∧
  (assign_indexes ws volume ordinals).1 !! k = Some (set_index w (N.of_nat k)).
Proof.
  intros Hnd Hlen Hw. rewrite <- (sort_by_perm cmp) in Hw. apply list_elem_of_lookup in Hw as [k Hk].
  pose proof (position_small ws k w Hlen Hk) as Hm. exists k. split.
  - apply remap_Some; [done|]. by exists k, w.
  - apply assigned_lookup. exists w. by rewrite Hm.
Qed.

Lemma assigned_sorted ws :
  StronglySorted (λ a b, cmp_leb keys a b = true) (assign_indexes ws volume ordinals).1.
Proof.
  unfold assign_indexes. cbn [fst]. pose proof (sort_sorted cmp ws) as Hs. revert Hs.
  generalize (sort_by cmp ws). intros l Hs. rewrite <- (enumerate_snd l) in Hs. revert Hs.
  generalize (enumerate l). clear l. induction l as [|[i a] l IH]; [constructor|].
  cbn. intros [Hs Ha]%StronglySorted_inv. constructor; [by apply IH|].
  rewrite Forall_fmap in Ha |- *. eapply Forall_impl; [exact Ha|]. intros [j b]. simpl.
  unfold cmp_leb, walk_compare. change (keys (number_walk (i, a)) (number_walk (j, b))) with (keys a b).
  by destruct (keys a b).
Qed.

(** Walk indexes come from the total order: the walks returned are the
    input walks in (kind, stream, rank, source position) order, the [k]-th one
    carries index [k], and the translation sends each collector id to the
    index of the walk that carried it. *)
Theorem assign_indexes_exact ws : NoDup (walk_index <$> ws) → (N.of_nat (length ws) ≤ 2 ^ 32)%N →
  let '(ws', remap) := assign_indexes ws volume ordinals in
  length ws' = length ws ∧ (∀ k w, ws' !! k = Some w → walk_index w = N.of_nat k) ∧
  StronglySorted (λ a b, cmp_leb keys a b = true) ws' ∧
  (∀ w, w ∈ ws → ∃ k, remap !! walk_index w = Some (N.of_nat k) ∧ ws' !! k = Some (set_index w (N.of_nat k))) ∧
  ∀ id i, remap !! id = Some i → id ∈ walk_index <$> ws.
Proof.
  intros Hnd Hlen. destruct (assign_indexes ws volume ordinals) as [ws' remap] eqn:E.
  assert (ws' = (assign_indexes ws volume ordinals).1) as -> by (by rewrite E).
  assert (remap = (assign_indexes ws volume ordinals).2) as -> by (by rewrite E). split_and!.
  - unfold assign_indexes. cbn [fst]. by rewrite length_fmap, length_enumerate, sorted_length.
  - intros k w (w0 & Hk & ->)%assigned_lookup. simpl. by eapply position_small.
  - apply assigned_sorted.
  - intros w. by apply remapped.
  - intros id i (k & w & Hk & <- & _)%(remap_Some _ _ _ Hnd). apply list_elem_of_fmap. exists w. split; [done|].
    rewrite <- (sort_by_perm cmp). by eapply list_elem_of_lookup_2.
Qed.
End indexes.

(** ** The assembled result *)
Section assembled.
Context {D : Type} `{!DecimalOps D} (volume : list (VolumeSource D)) (ordinals : gmap string N).
Context {E : Type} (plan : PlanIdentity) (places : N).
Implicit Types (es : list (CommissionEarning D)) (ws : list Walk).

(** An earning as it leaves: its walk translated and its money rounded. *)
Definition final (remap : gmap N N) (e : CommissionEarning D) : CommissionEarning D :=
  mkEarning (earner_id e) (source_id e) (level e) (rate e) (cv_amount e)
  (round_minor (dollar_amount e) (Z.of_N places)) (i ← walk e; remap !! i).

(** Every earning references a walk of the list. *)
Definition carried es ws : Prop := ∀ e i, e ∈ es → walk e = Some i → i ∈ walk_index <$> ws.

Lemma remap_carried ws i : NoDup (walk_index <$> ws) → i ∈ walk_index <$> ws →
  is_Some ((assign_indexes ws volume ordinals).2 !! i).
Proof.
  intros Hnd (w & -> & Hw)%list_elem_of_fmap.
  rewrite <- (sort_by_perm (walk_compare ordinals (first_positions volume))) in Hw.
  apply list_elem_of_lookup in Hw as [k Hk]. eexists. apply remap_Some; [done|]. by exists k, w.
Qed.

Lemma remap_earnings remap es : (∀ e i, e ∈ es → walk e = Some i → is_Some (remap !! i)) →
  map_outcome (E := E) (remap_earning remap) es = Ok ((λ e, with_walk e (i ← walk e; remap !! i)) <$> es).
Proof.
  induction es as [|e es IH]; intros Hc; [done|]. cbn [map_outcome].
  assert (remap_earning (E := E) remap e = Ok (with_walk e (i ← walk e; remap !! i))) as ->.
  { unfold remap_earning. destruct (walk e) as [i|] eqn:Hw.
    - destruct (Hc e i) as [j Hj]; [left|done|]. cbn. by rewrite Hj.
    - destruct e; simpl in *. by subst. }
  rewrite IH by (intros e' i He; apply Hc; by right). done.
Qed.

Lemma assemble_ok es ws : NoDup (walk_index <$> ws) → carried es ws →
  assemble (E := E) es ws volume ordinals plan places =
  Ok (mkResult (sort_earnings (final (assign_indexes ws volume ordinals).2 <$> es))
    (assign_indexes ws volume ordinals).1 plan).
Proof.
  intros Hnd Hc. unfold assemble. destruct (assign_indexes ws volume ordinals) as [ws' remap] eqn:Ha.
  assert (remap = (assign_indexes ws volume ordinals).2) as Hr by (by rewrite Ha).
  rewrite remap_earnings by (intros e i He Hi; rewrite Hr; apply remap_carried; eauto).
  cbn [mbind outcome_bind snd fst]. unfold round_earnings. by rewrite <- list_fmap_compose.
Qed.
End assembled.

Lemma then_with_eq c1 c2 : then_with c1 c2 = Eq ↔ c1 = Eq ∧ c2 = Eq.
Proof. destruct c1; simpl; naive_solver. Qed.

Lemma option_compare_eq (x y : option N) : option_compare N.compare x y = Eq ↔ x = y.
Proof. destruct x, y; simpl; rewrite ?N.compare_eq_iff; naive_solver. Qed.

Section emission.
Context {D : Type} `{!DecimalOps D} (volume : list (VolumeSource D)) (ordinals : gmap string N).
Implicit Types (es : list (CommissionEarning D)) (ws : list Walk).
Abbreviation cmp := (walk_compare ordinals (first_positions volume)).
Abbreviation keys := (key_compare ordinals (first_positions volume)).

#[export] Instance earning_comparator : Comparator (earning_compare (D := D)).
Proof. unfold earning_compare. apply _. Qed.

Lemma earning_compare_eq (a b : CommissionEarning D) : earning_compare a b = Eq ↔
  earner_id a = earner_id b ∧ source_id a = source_id b ∧ level a = level b ∧ walk a = walk b.
Proof. unfold earning_compare. by rewrite !then_with_eq, !N.compare_eq_iff, option_compare_eq. Qed.

(** The same walks and earnings under other collector ids. *)
Definition relabel (f : N → N) (w : Walk) : Walk := set_index w (f (walk_index w)).
Definition relabel_earning (f : N → N) (e : CommissionEarning D) : CommissionEarning D :=
  with_walk e (f <$> walk e).

Context (f : N → N) (ws ws' : list Walk).
Context (Hnd : NoDup (walk_index <$> ws)) (Hnd' : NoDup (walk_index <$> ws')).
Context (Hperm : ws' ≡ₚ relabel f <$> ws).
Context (Hties : ∀ a b, a ∈ ws → b ∈ ws → keys a b = Eq →
  (f (walk_index a) ?= f (walk_index b))%N = (walk_index a ?= walk_index b)%N).

Lemma ids_separate l a b : NoDup (walk_index <$> l) → a ∈ l → b ∈ l → cmp a b = Eq → a = b.
Proof.
  intros Hl [i Hi]%list_elem_of_lookup [j Hj]%list_elem_of_lookup Hc%walk_compare_eq.
  assert (i = j) as ->; [|congruence]. apply (NoDup_lookup _ i j (walk_index a) Hl); rewrite list_lookup_fmap;
  [by rewrite Hi|by rewrite Hj, Hc].
Qed.

Lemma sort_relabelled : sort_by cmp ws' = relabel f <$> sort_by cmp ws.
Proof using Hnd' Hperm Hties.
  rewrite (sort_unique cmp ws' (relabel f <$> ws)); [|intros a b Ha Hb; by apply (ids_separate ws')|done].
  apply sort_by_fmap. intros a b Ha Hb. unfold walk_compare. change (keys (relabel f a) (relabel f b)) with (keys a b).
  cbn [walk_index relabel set_index]. destruct (keys a b) eqn:E; [|done..]. simpl. by apply Hties.
Qed.

Lemma assigned_relabelled :
  (assign_indexes ws' volume ordinals).1 = (assign_indexes ws volume ordinals).1.
Proof using Hnd' Hperm Hties.
  unfold assign_indexes. cbn [fst]. rewrite sort_relabelled, enumerate_fmap, <- list_fmap_compose.
  by apply list_fmap_ext.
Qed.

Lemma remap_relabelled i : i ∈ walk_index <$> ws →
  (assign_indexes ws' volume ordinals).2 !! f i = (assign_indexes ws volume ordinals).2 !! i.
Proof using Hnd Hnd' Hperm Hties.
  intros (w & -> & Hw)%list_elem_of_fmap. rewrite <- (sort_by_perm cmp) in Hw.
  apply list_elem_of_lookup in Hw as [k Hk]. trans (Some (N.of_nat k mod 2 ^ 32)%N).
  - apply remap_Some; [done|]. exists k, (relabel f w). by rewrite sort_relabelled, list_lookup_fmap, Hk.
  - symmetry. apply remap_Some; [done|]. by exists k, w.
Qed.

(** The translation separates the walks. *)
Lemma remap_inj i j : (N.of_nat (length ws) ≤ 2 ^ 32)%N → i ∈ walk_index <$> ws → j ∈ walk_index <$> ws →
  (assign_indexes ws volume ordinals).2 !! i = (assign_indexes ws volume ordinals).2 !! j → i = j.
Proof using Hnd.
  intros Hlen Hi Hj Heq. destruct (remap_carried volume ordinals ws i Hnd Hi) as [r Hr].
  pose proof Hr as Hr'. rewrite Heq in Hr'. apply remap_Some in Hr as (k & a & Hk & <- & ->); [|done].
  apply remap_Some in Hr' as (k' & b & Hk' & <- & Hm); [|done].
  rewrite (position_small _ _ _ _ _ Hlen Hk), (position_small _ _ _ _ _ Hlen Hk') in Hm.
  assert (k = k') as -> by lia. congruence.
Qed.
End emission.

Section results.
Context {D : Type} `{!DecimalOps D} {E : Type}.
Implicit Types (es : list (CommissionEarning D)) (ws : list Walk) (volume : list (VolumeSource D)).

(** An assembled earning is an emitted one whose walk reference points at the
    position of the walk it was emitted with. *)
Lemma assembled_earning volume ordinals plan places es ws res e' :
  NoDup (walk_index <$> ws) → (N.of_nat (length ws) ≤ 2 ^ 32)%N → carried es ws →
  assemble (E := E) es ws volume ordinals plan places = Ok res → e' ∈ earnings res →
  ∃ e, e ∈ es ∧ (earner_id e', source_id e', level e', rate e', cv_amount e') =
  (earner_id e, source_id e, level e, rate e, cv_amount e) ∧
  dollar_amount e' = round_minor (dollar_amount e) (Z.of_N places) ∧
  (walk e = None → walk e' = None) ∧
  ∀ w, w ∈ ws → walk e = Some (walk_index w) →
  ∃ k, walk e' = Some (N.of_nat k) ∧ walks res !! k = Some (set_index w (N.of_nat k)).
Proof.
  intros Hnd Hlen Hc. rewrite assemble_ok by done. intros [= <-] He'. cbn [earnings walks] in *.
  unfold sort_earnings in He'. rewrite sort_by_perm in He'. apply list_elem_of_fmap in He' as (e & -> & He).
  exists e. split_and!; [done..| |].
  - intros Hw. unfold final. cbn [walk]. by rewrite Hw.
  - intros w Hw Hi. destruct (remapped volume ordinals ws w Hnd Hlen Hw) as (k & Hk & Hat).
    exists k. split; [|done]. unfold final. cbn [walk]. rewrite Hi. exact Hk.
Qed.

Lemma final_relabelled volume ordinals places f es ws ws' :
  NoDup (walk_index <$> ws) → NoDup (walk_index <$> ws') → ws' ≡ₚ relabel f <$> ws →
  (∀ a b, a ∈ ws → b ∈ ws → key_compare ordinals (first_positions volume) a b = Eq →
  (f (walk_index a) ?= f (walk_index b))%N = (walk_index a ?= walk_index b)%N) →
  carried es ws →
  final places (assign_indexes ws' volume ordinals).2 <$> (relabel_earning f <$> es) =
  final places (assign_indexes ws volume ordinals).2 <$> es.
Proof.
  intros Hnd Hnd' Hp Hties Hc. rewrite <- list_fmap_compose. apply list_fmap_ext. intros k e Hk.
  unfold compose, final, relabel_earning. cbn [with_walk walk earner_id source_id level rate cv_amount dollar_amount].
  f_equal. destruct (walk e) as [i|] eqn:Hw; [|done]. cbn.
  eapply remap_relabelled; [exact Hnd|done..|]. eapply Hc; [|exact Hw]. by eapply list_elem_of_lookup_2.
Qed.

Lemma final_separates volume ordinals places es ws x y :
  NoDup (walk_index <$> ws) → (N.of_nat (length ws) ≤ 2 ^ 32)%N → carried es ws →
  (∀ a b, a ∈ es → b ∈ es → earning_compare a b = Eq → a = b) →
  x ∈ final places (assign_indexes ws volume ordinals).2 <$> es →
  y ∈ final places (assign_indexes ws volume ordinals).2 <$> es → earning_compare x y = Eq → x = y.
Proof.
  intros Hnd Hlen Hc Hsep (a & -> & Ha)%list_elem_of_fmap (b & -> & Hb)%list_elem_of_fmap.
  rewrite earning_compare_eq. unfold final. cbn [earner_id source_id level walk]. intros (H1 & H2 & H3 & H4).
  assert (a = b) as ->; [|done]. apply Hsep; [done..|]. apply earning_compare_eq. split_and!; [done..|].
  destruct (walk a) as [i|] eqn:Hwa, (walk b) as [j|] eqn:Hwb; cbn [mbind option_bind] in H4; [| | |done].
  - f_equal. eapply (remap_inj volume ordinals ws); [done..| | |exact H4].
  + exact (Hc a i Ha Hwa).
  + exact (Hc b j Hb Hwb).
  - destruct (remap_carried volume ordinals ws i Hnd (Hc a i Ha Hwa)) as [r Hr]. congruence.
  - destruct (remap_carried volume ordinals ws j Hnd (Hc b j Hb Hwb)) as [r Hr]. congruence.
Qed.

(** The result does not depend on emission order: emit the same walks and
    earnings in any other order, under any other distinct collector ids that
    keep the input order among walks with equal keys, and the assembled result
    is the same. *)
Theorem assemble_emission_independent volume ordinals plan places (f : N → N) es es' ws ws' :
  NoDup (walk_index <$> ws) → NoDup (walk_index <$> ws') → (N.of_nat (length ws) ≤ 2 ^ 32)%N →
  carried es ws → ws' ≡ₚ relabel f <$> ws → es' ≡ₚ relabel_earning f <$> es →
  (∀ a b, a ∈ ws → b ∈ ws → key_compare ordinals (first_positions volume) a b = Eq →
  (f (walk_index a) ?= f (walk_index b))%N = (walk_index a ?= walk_index b)%N) →
  (∀ a b, a ∈ es → b ∈ es → earning_compare a b = Eq → a = b) →
  assemble (E := E) es' ws' volume ordinals plan places = assemble (E := E) es ws volume ordinals plan places.
Proof.
  intros Hnd Hnd' Hlen Hc Hpw Hpe Hties Hsep.
  assert (Hc' : carried es' ws').
  { intros e' i He' Hi. rewrite Hpe in He'. apply list_elem_of_fmap in He' as (e & -> & He).
  cbn in Hi. apply fmap_Some in Hi as (j & Hj & ->). specialize (Hc e j He Hj).
  apply list_elem_of_fmap in Hc as (w & -> & Hw). rewrite Hpw, <- list_fmap_compose.
  apply list_elem_of_fmap. by exists w. }
  rewrite !assemble_ok by done. do 2 f_equal.
  - symmetry. apply sort_unique; [apply _| |].
  + intros x y. by apply (final_separates volume ordinals places es ws).
  + by rewrite Hpe, (final_relabelled volume ordinals places f es ws ws').
  - by eapply assigned_relabelled.
Qed.
End results.
