(* ===== verification/Calculators.v ===== *)
(** * The unilevel calculator: [commission/unilevel.rs]

    [calculate_unilevel] composes the preparation passes, the walk and the
    assembly. The theorems are end to end: it never panics, each error it
    returns is true of its inputs, and a result's earnings, walks and money agree
    with each other. *)

From stdpp Require Import base numbers list gmap sorting strings.
From Stdlib Require Import ZArith Lia.
From S2P Require Import Prelude RustDecimal Dec TreeTypes Arena ArenaWf Unilevel Navigator CommissionTypes Walk WalkSpec WalkPrepare Currency WalkOrder.

Section unilevel.
Context {D : Type} `{!DecimalOps D}.

Definition calculate_unilevel (tree : Unilevel.Unilevel.UnilevelTree) (plan : CompensationPlan D)
  (structure : UnilevelStructureConfig D) (snapshots : gmap Uuid (DistributorSnapshot D))
  (volume : list (VolumeSource D)) (identity : PlanIdentity)
  : outcome (CalculationError D) (CommissionCalculationResult D) :=
  minor_units ← plan_minor_units plan;
  let member_ids := user_ids tree in
  validate_snapshots plan snapshots member_ids;;
  let ordinals := build_rank_ordinals plan in
  cache ← evaluate_eligibility snapshots tree (eligibility plan);
  let lc := us_level_commission structure in
  let mult := default (vc_volume_to_dollar_multiplier (volume_config plan)) (lc_volume_to_dollar_multiplier lc) in
  let comp := us_compression structure in
  let threshold := resolve_threshold_ordinal comp ordinals in
  pu ← match us_pass_up structure with
   | Some pu => Some <$> build_pass_up_context tree pu member_ids
   | None => Ok None
   end;
  let config := mkLevelWalkConfig (lc_max_depth lc) (dec (broad_commission_percent lc)) (dec mult) comp
              threshold ordinals (rate_table lc) pu None in
  '(es, ws) ← walk_level_commissions tree config cache snapshots volume (λ _, false) [];
  assemble es ws volume ordinals identity minor_units.
End unilevel.

(** ** The errors a walk can report *)
Section walk_errors.
Context {D : Type} `{!DecimalOps D, !DecimalLaws D}.
Context {T : Type} `{!TreeNavigator T} (inv : T → Prop) `{!NavigatorLaws T inv}.
Context (tree : T) (Hinv : inv tree) (cfg : LevelWalkConfig (D := D)) (cache : gmap Uuid EligibilityResult).
Context (snapshots : gmap Uuid (DistributorSnapshot D)) (should_stop : Uuid → bool).
Context (Hcovered : ∀ u, contains tree u = true → is_Some (snapshots !! u)) (Hdepth : (max_depth cfg ≤ 255)%N).

(** The factors of a payment, in the order the walk multiplies them. *)
Definition factors (src : VolumeSource D) (r : D) : list D :=
  [dec (vs_cv_amount src); broad_pct cfg; multiplier cfg; r].

(** The payment of a node that may earn at the level reached is held by no
    decimal. *)
Definition payment_refused (src : VolumeSource D) (n : Uuid) (lvl : N) (e : CalculationError D) : Prop :=
  ∃ ne s r, e = Numeric ne ∧ (1 ≤ lvl ≤ max_depth cfg)%N ∧ may_earn cfg cache snapshots n lvl s r ∧
  product_refused (factors src r) ne.

Lemma refuses_factor_calc (x d : D) fs post (P : CalculationError D → Prop) : is_product x fs →
  (∀ ne, product_refused (fs ++ d :: post) ne → P (Numeric ne)) →
  returns (λ c, is_product c (fs ++ [d])) P (try_mul_calc x d).
Proof using DecimalLaws0.
  intros Hx HP. unfold try_mul_calc. eapply returns_map_err; [by apply (refuses_factor x d fs post)|done].
Qed.

Lemma visit_refuses src cid st n : is_Some (snapshots !! user_id n) → (1 ≤ ws_level st)%N →
  returns (λ t, visited cfg cache snapshots should_stop src cid st n t) (payment_refused src (user_id n) (ws_level st))
    (visit cfg cache snapshots should_stop src cid st n).
Proof using DecimalLaws0 Hdepth.
  intros [s Hs] Hlev. pose proof (visit_inv cfg cache snapshots should_stop src cid Hdepth st n) as Hinv_.
  cut (returns (λ _, True) (payment_refused src (user_id n) (ws_level st)) (visit cfg cache snapshots should_stop src cid st n)).
  { intros H. destruct (visit _ _ _ _ _ _ _ _) as [t|e| |]; [by apply Hinv_|done..]. }
  clear Hinv_. unfold visit. destruct (N.ltb_spec (max_depth cfg) (ws_level st)) as [|Hd]; [done|].
  assert (as_u8 (ws_level st) = ws_level st) as -> by (apply N.mod_small; lia).
  destruct (should_stop (user_id n)); [done|]. destruct (passed_up cfg (vs_source_id src) n); [done|].
  rewrite Hs. cbn [ok_or mbind outcome_bind]. destruct (compressed _ _ _ _); [done|].
  destruct (cache !! user_id n) as [e|] eqn:He; cbn [negb mbind option_bind]; [|done].
  destruct (eligible e) eqn:Hel; cbn [negb]; [|done].
  destruct (match max_earning_depth e with Some m => (m <? ws_level st)%N | None => false end) eqn:Hm; [done|].
  destruct (dec_ltb DZERO (rate_at cfg s (ws_level st))) eqn:Hr; [|done].
  assert (HP : ∀ ne, product_refused (factors src (rate_at cfg s (ws_level st))) ne →
    payment_refused src (user_id n) (ws_level st) (Numeric ne)).
  { intros ne Hne. exists ne, s, (rate_at cfg s (ws_level st)). unfold may_earn. split_and!; try done. exists e. split_and!; [done..|].
    intros m Hm'. rewrite Hm' in Hm. by apply N.ltb_ge in Hm. }
  eapply returns_bind; [apply (refuses_factor_calc _ _ [dec (vs_cv_amount src)] [multiplier cfg; rate_at cfg s (ws_level st)]); [apply is_product_one|exact HP]|]. intros x1 H1.
  eapply returns_bind; [apply (refuses_factor_calc _ _ _ [rate_at cfg s (ws_level st)] _ H1); exact HP|]. intros x2 H2.
  eapply returns_bind; [apply (refuses_factor_calc _ _ _ [] _ H2); exact HP|]. done.
Qed.

(** The level a turn leaves grows by at most one. *)
Lemma visited_level src cid st n st' : visited cfg cache snapshots should_stop src cid st n (Go st') →
  (1 ≤ ws_level st)%N → (1 ≤ ws_level st' ≤ ws_level st + 1)%N.
Proof. inversion 1; subst; cbn; unfold u16_saturating_add; lia. Qed.

(** A refusal of the walk of [src]: the payment of an ancestor on its upline, at
    a level no higher than its distance. *)
Definition walk_refused (src : VolumeSource D) (upline : list Node) (e : CalculationError D) : Prop :=
  ∃ k n lvl, upline !! k = Some n ∧ (lvl ≤ N.of_nat k + 1)%N ∧ payment_refused src (user_id n) lvl e.

Lemma walk_nodes_refuses src cid seen upline st : (∀ n, n ∈ upline → is_Some (snapshots !! user_id n)) →
  (1 ≤ ws_level st ≤ N.of_nat (length seen) + 1)%N →
  returns (λ _, True) (walk_refused src (seen ++ upline))
    (walk_nodes (visit cfg cache snapshots should_stop src cid) st upline).
Proof using DecimalLaws0 Hdepth.
  revert seen st. induction upline as [|n upline IH]; intros seen st Hup Hlev; cbn [walk_nodes]; [done|].
  eapply returns_bind.
  { eapply returns_weaken; [apply visit_refuses; [apply Hup; left|lia]|intros t Ht; exact Ht|].
    intros e He. exists (length seen), n, (ws_level st). split_and!; [|lia|done].
    rewrite lookup_app_r, Nat.sub_diag by lia. done. }
  intros [st'|why] Ht; [|done]. apply visited_level in Ht; [|lia].
  replace (seen ++ n :: upline) with ((seen ++ [n]) ++ upline) by (by rewrite <- app_assoc).
  apply IH; [intros m Hm; apply Hup; by right|]. rewrite length_app. cbn. lia.
Qed.

Definition good_source (src : VolumeSource D) : Prop :=
  is_negative (dec (vs_cv_amount src)) = false ∧ contains tree (vs_source_id src) = true.

(** What a refusal says of the source the walk was at. *)
Definition fault_at (src : VolumeSource D) (e : CalculationError D) : Prop :=
  match e with
  | InvalidCvAmount u a => u = vs_source_id src ∧ a = vs_cv_amount src ∧ is_negative (dec a) = true
  | SourceNotInTree u => u = vs_source_id src ∧ is_negative (dec (vs_cv_amount src)) = false ∧ contains tree u = false
  | Numeric ne => good_source src ∧ ∃ upline, get_upline tree (vs_source_id src) 0 = Ok upline ∧
      walk_refused src upline (Numeric ne)
  | _ => False
  end.

Lemma walk_source_fault_at acc src :
  returns (λ _, good_source src) (fault_at src) (walk_source tree cfg cache snapshots should_stop acc src).
Proof using Hcovered Hinv Hdepth NavigatorLaws0 DecimalLaws0.
  destruct acc as [es ws]. unfold walk_source, validate_source, validate_cv, refuse_if.
  destruct (is_negative (dec (vs_cv_amount src))) eqn:Hneg; [done|].
  cbn [mbind outcome_bind]. destruct (contains tree (vs_source_id src)) eqn:Hc.
  - destruct (nav_upline tree _ Hinv Hc) as (ns & Hns & _ & Hlive). rewrite Hns. cbn [map_err mbind outcome_bind].
    destruct (Hcovered _ Hc) as [s Hs]. rewrite bool_decide_eq_false_2 by congruence. cbn [mbind outcome_bind].
    eapply returns_bind; [eapply returns_weaken;
      [apply (walk_nodes_refuses src _ [] ns (mkWalkState 1 [] es) (λ n Hn, Hcovered _ (Hlive n Hn))); cbn; lia|done|]|].
    + intros e He. assert (∃ ne, e = Numeric ne) as [ne ->] by (destruct He as (? & ? & ? & _ & _ & ne & ? & ? & -> & _); eauto).
      split; [done|]. eauto.
    + by intros [[st why] at_] _.
  - rewrite (nav_upline_unknown tree _ Hinv Hc). done.
Qed.

(** The walk stops at the first source at fault. *)
Definition first_fault (volume : list (VolumeSource D)) (e : CalculationError D) : Prop :=
  ∃ pre src post, volume = pre ++ src :: post ∧ Forall good_source pre ∧ fault_at src e.

Lemma walk_level_first_fault volume ws : returns (λ _, Forall good_source volume) (first_fault volume)
  (walk_level_commissions tree cfg cache snapshots volume should_stop ws).
Proof using Hcovered Hinv Hdepth NavigatorLaws0 DecimalLaws0.
  apply (returns_fold _ (λ pre _, Forall good_source pre)); [done|]. intros pre src post acc Hl Hpre.
  eapply returns_weaken; [apply walk_source_fault_at| |].
  - intros r Hsrc. apply Forall_app. split; [done|by apply Forall_singleton].
  - intros e He. by exists pre, src, post.
Qed.

(** Some source is at fault; of arithmetic it says nothing. *)
Definition source_fault (volume : list (VolumeSource D)) (e : CalculationError D) : Prop :=
  match e with
  | InvalidCvAmount u a => ∃ src, src ∈ volume ∧ vs_source_id src = u ∧ vs_cv_amount src = a ∧
  is_negative (dec a) = true
  | SourceNotInTree u => ∃ src, src ∈ volume ∧ vs_source_id src = u ∧ contains tree u = false
  | Numeric _ => True
  | _ => False
  end.

Lemma fault_at_source volume src e : src ∈ volume → fault_at src e → source_fault volume e.
Proof using Type. intros Hsrc. destruct e; cbn; try done; intros H; exists src; destruct_and!; subst; done. Qed.

Lemma first_fault_source volume e : first_fault volume e → source_fault volume e.
Proof using Type. intros (pre & src & post & -> & _ & H). eapply fault_at_source; [|exact H]. apply elem_of_app. right. left. Qed.
End walk_errors.

(** ** From the walk to the assembled result *)

(** A result whose walks and earnings agree: the walks are those of the volume
    sources, each source having exactly one, numbered by position; each earning
    is in the list of exactly one walk, that of its source, and carries that
    source's volume; the earnings of a walk are its paid steps. *)
Record consistent {D} (volume : list (VolumeSource D)) (identity : PlanIdentity)
    (res : CommissionCalculationResult D) : Prop := {
  co_plan : plan_identity res = identity;
  co_length : length (walks res) = length volume;
  co_sources : ∃ srcs, srcs ≡ₚ volume ∧ length srcs = length (walks res) ∧
    ∀ k src w, srcs !! k = Some src → walks res !! k = Some w → walk_source_id w = vs_source_id src ∧
    ∀ e, e ∈ earnings res → walk e = Some (N.of_nat k) → cv_amount e = dec (vs_cv_amount src);
  co_sorted : StronglySorted (λ a b, cmp_leb earning_compare a b = true) (earnings res);
  co_walk k w : walks res !! k = Some w → walk_index w = N.of_nat k ∧
    (∃ src, src ∈ volume ∧ walk_source_id w = vs_source_id src) ∧
    (λ e, (earner_id e, level e)) <$> filter (λ e, walk e = Some (N.of_nat k)) (earnings res) ≡ₚ paid_levels (steps w);
  co_earning e : e ∈ earnings res →
    ∃ k w, walk e = Some (N.of_nat k) ∧ walks res !! k = Some w ∧ walk_source_id w = source_id e;
}.

Section end_to_end.
Context {D : Type} `{!DecimalOps D, !DecimalLaws D}.
Context {T : Type} `{!TreeNavigator T} (inv : T → Prop) `{!NavigatorLaws T inv}.
Context (tree : T) (Hinv : inv tree) (cfg : LevelWalkConfig (D := D)) (cache : gmap Uuid EligibilityResult).
Context (snapshots : gmap Uuid (DistributorSnapshot D)) (volume : list (VolumeSource D)).
Context (Hdepth : (max_depth cfg ≤ 255)%N) (Hvolume : (N.of_nat (length volume) ≤ 2 ^ 32)%N).
Context (es : list (CommissionEarning D)) (ws : list Walk).
Context (Hwalk : walk_level_commissions tree cfg cache snapshots volume (λ _, false) [] = Ok (es, ws)).

Lemma walk_ids k w : ws !! k = Some w → walk_index w = N.of_nat k.
Proof using DecimalLaws0 Hdepth Hinv Hvolume Hwalk NavigatorLaws0.
  intros Hw. destruct (walk_earnings inv _ _ _ _ _ _ _ _ Hinv Hdepth Hvolume Hwalk) as [Hlen Hall].
  destruct (lookup_lt_is_Some_2 volume k) as [src Hsrc]; [rewrite <- Hlen; by eapply lookup_lt_Some|].
  by destruct (Hall k src w Hsrc Hw) as [? _].
Qed.

Lemma walk_ids_nodup : NoDup (walk_index <$> ws).
Proof using DecimalLaws0 Hdepth Hinv Hvolume Hwalk NavigatorLaws0.
  apply NoDup_alt. intros i j x. rewrite !list_lookup_fmap.
  intros (w & Hw & ->)%fmap_Some (w' & Hw' & Heq)%fmap_Some.
  rewrite (walk_ids _ _ Hw), (walk_ids _ _ Hw') in Heq. lia.
Qed.

Lemma walks_length : length ws = length volume.
Proof using DecimalLaws0 Hdepth Hinv Hvolume Hwalk NavigatorLaws0.
  by destruct (walk_earnings inv _ _ _ _ _ _ _ _ Hinv Hdepth Hvolume Hwalk) as [Hlen _].
Qed.

(** The walk an earning was emitted with. *)
Lemma earning_walk e : e ∈ es → ∃ w, w ∈ ws ∧ walk e = Some (walk_index w) ∧ walk_source_id w = source_id e.
Proof using DecimalLaws0 Hdepth Hinv Hvolume Hwalk NavigatorLaws0.
  intros He.
  destruct (earning_audit inv tree Hinv _ _ _ _ Hdepth volume es ws e Hvolume Hwalk He)
  as (k & src & ek & w & Hsrc & Hw & Ha & Hek). exists w. split; [by eapply list_elem_of_lookup_2|].
  pose proof (au_good _ _ _ _ _ _ _ _ _ Ha) as Hg. rewrite Forall_forall in Hg.
  destruct (Hg e Hek) as (H1 & H2 & _). destruct (au_walk _ _ _ _ _ _ _ _ _ Ha) as (H3 & H4 & _). split; congruence.
Qed.

Lemma walk_carried : carried es ws.
Proof using DecimalLaws0 Hdepth Hinv Hvolume Hwalk NavigatorLaws0.
  intros e i He Hi. destruct (earning_walk e He) as (w & Hw & Hwi & _).
  assert (i = walk_index w) as -> by congruence. apply list_elem_of_fmap. eauto.
Qed.

Context (ordinals : gmap string N) (identity : PlanIdentity) (places : N).
Context (res : CommissionCalculationResult D).
Context (Hres : assemble (E := CalculationError D) es ws volume ordinals identity places = Ok res).
Abbreviation remap := ((assign_indexes ws volume ordinals).2).

Lemma assembled : res = mkResult (sort_earnings (final places remap <$> es)) (assign_indexes ws volume ordinals).1 identity.
Proof using DecimalLaws0 Hdepth Hinv Hvolume Hwalk NavigatorLaws0 Hres.
  rewrite assemble_ok in Hres; [congruence|apply walk_ids_nodup|apply walk_carried].
Qed.

(** The walk at an index is an emitted one. *)
Lemma walk_at k w : walks res !! k = Some w → walk_index w = N.of_nat k ∧
  ∃ j w0, ws !! j = Some w0 ∧ w = set_index w0 (N.of_nat k) ∧ remap !! N.of_nat j = Some (N.of_nat k).
Proof using DecimalLaws0 Hdepth Hinv Hvolume Hwalk NavigatorLaws0 Hres.
  rewrite assembled. cbn [walks]. intros (w0 & Hk & ->)%assigned_lookup.
  assert (Hw0 : w0 ∈ ws) by (rewrite <- (sort_by_perm (walk_compare ordinals (first_positions volume)));
  by eapply list_elem_of_lookup_2).
  assert (Hm : (N.of_nat k mod 2 ^ 32 = N.of_nat k)%N).
  { eapply position_small; [|exact Hk]. by rewrite walks_length. }
  rewrite Hm. split; [done|]. apply list_elem_of_lookup in Hw0 as [j Hj]. exists j, w0. split_and!; [done..|].
  rewrite <- (walk_ids j w0 Hj). apply remap_Some; [apply walk_ids_nodup|]. by exists k, w0.
Qed.

(** The earnings that reference the walk at [k] were emitted with it. *)
Lemma earnings_at k j : ws !! j ≠ None → remap !! N.of_nat j = Some (N.of_nat k) →
  filter (λ e, walk e = Some (N.of_nat k)) (final places remap <$> es) =
  final places remap <$> filter (λ e, walk e = Some (N.of_nat j)) es.
Proof using DecimalLaws0 Hdepth Hinv Hvolume Hwalk NavigatorLaws0.
  intros [w Hw]%not_eq_None_Some Hj. rewrite list_filter_fmap. f_equal.
  assert (Hids : ∀ i w, ws !! i = Some w → N.of_nat i ∈ walk_index <$> ws).
  { intros i w' Hi. rewrite <- (walk_ids i w' Hi). apply list_elem_of_fmap_2. by eapply list_elem_of_lookup_2. }
  apply filter_iff_in. intros e He. destruct (earning_walk e He) as (w' & Hw' & Hwi & _).
  apply list_elem_of_lookup in Hw' as [i Hi]. unfold final. cbn [walk]. rewrite Hwi, (walk_ids i w' Hi).
  cbn [mbind option_bind]. rewrite <- Hj. split; [|by intros [= ->]]. intros Heq. f_equal.
  eapply (remap_inj volume ordinals ws walk_ids_nodup); [by rewrite walks_length|eauto..].
Qed.

(** Each walk of the result is the walk of one source, each source having one. *)
Lemma walk_sources : ∃ srcs, srcs ≡ₚ volume ∧ Forall2 (λ src w, ∃ j w0, volume !! j = Some src ∧ ws !! j = Some w0 ∧
  w = set_index w0 (walk_index w) ∧ remap !! N.of_nat j = Some (walk_index w)) srcs (walks res).
Proof using DecimalLaws0 Hdepth Hinv Hvolume Hwalk NavigatorLaws0 Hres.
  assert (Hp : Forall2 (λ w src, ∃ j, volume !! j = Some src ∧ ws !! j = Some w) ws volume).
  { apply Forall2_same_length_lookup. split; [apply walks_length|eauto]. }
  destruct (Permutation_Forall2 (symmetry (sort_by_perm (walk_compare ordinals (first_positions volume)) ws)) Hp)
    as (srcs & Hsrcs & Hf). exists srcs. split; [by symmetry|].
  pose proof (Forall2_length _ _ _ Hf) as Hlen. rewrite assembled. cbn [walks].
  apply Forall2_same_length_lookup. unfold assign_indexes at 1. cbn [fst]. rewrite length_fmap, length_enumerate.
  split; [done|]. intros k src w Hsrc Hw. destruct (walk_at k w) as (Hk & _); [by rewrite assembled|].
  apply assigned_lookup in Hw as (w0 & Hw0 & ->).
  destruct (Forall2_lookup_lr _ _ _ _ _ _ Hf Hw0 Hsrc) as (j & Hj & Hwj). cbn [walk_index set_index] in Hk |- *.
  rewrite Hk. exists j, w0. split_and!; [done..|]. rewrite <- (walk_ids j w0 Hwj).
  apply remap_Some; [apply walk_ids_nodup|]. exists k, w0. split_and!; [done..|by symmetry].
Qed.

(** The source an emitted earning's walk stands for. *)
Lemma earning_source j src e : volume !! j = Some src → e ∈ es → walk e = Some (N.of_nat j) →
  cv_amount e = dec (vs_cv_amount src).
Proof using DecimalLaws0 Hdepth Hinv Hvolume Hwalk NavigatorLaws0.
  intros Hsrc He Hj. destruct (earning_audit inv tree Hinv _ _ _ _ Hdepth volume es ws e Hvolume Hwalk He)
    as (k & src' & ek & w & Hsrc' & Hw & Ha & Hek).
  pose proof (au_good _ _ _ _ _ _ _ _ _ Ha) as Hg. rewrite Forall_forall in Hg.
  destruct (Hg e Hek) as (_ & H2 & H3 & _). assert (k = j) as -> by (rewrite Hj in H2; injection H2; lia). congruence.
Qed.

Lemma result_consistent : consistent volume identity res.
Proof using DecimalLaws0 Hdepth Hinv Hvolume Hwalk NavigatorLaws0 Hres.
  pose proof assembled as Hr. split.
  - by rewrite Hr.
  - rewrite Hr. cbn [walks]. unfold assign_indexes. cbn [fst].
    by rewrite length_fmap, length_enumerate, sorted_length, walks_length.
  - destruct walk_sources as (srcs & Hp & Hf). exists srcs. pose proof (Forall2_length _ _ _ Hf) as Hlen.
    split_and!; [done..|]. intros k src w Hsrc Hw.
    destruct (Forall2_lookup_lr _ _ _ _ _ _ Hf Hsrc Hw) as (j & w0 & Hj & Hw0 & Hweq & Hrem).
    destruct (walk_at k w Hw) as [Hk _]. rewrite Hk in Hweq, Hrem.
    destruct (walk_earnings inv _ _ _ _ _ _ _ _ Hinv Hdepth Hvolume Hwalk) as [_ Hall].
    destruct (Hall j src w0 Hj Hw0) as (_ & Hid & _). split; [by rewrite Hweq|].
    intros e He Hek. assert (Hin : e ∈ filter (λ e, walk e = Some (N.of_nat k)) (final places remap <$> es)).
    { apply list_elem_of_filter. split; [done|]. rewrite Hr in He. cbn [earnings] in He. unfold sort_earnings in He.
      by rewrite sort_by_perm in He. }
    rewrite (earnings_at k j) in Hin by (congruence || done).
    apply list_elem_of_fmap in Hin as (e0 & -> & [Hj0 He0]%list_elem_of_filter). exact (earning_source j src e0 Hj He0 Hj0).
  - rewrite Hr. apply sort_sorted, _.
  - intros k w Hw. destruct (walk_at k w Hw) as (Hk & j & w0 & Hj & -> & Hrem). split; [done|].
    destruct (walk_earnings inv _ _ _ _ _ _ _ _ Hinv Hdepth Hvolume Hwalk) as [Hlen Hall].
    destruct (lookup_lt_is_Some_2 volume j) as [src Hsrc]; [rewrite <- Hlen; by eapply lookup_lt_Some|].
    destruct (Hall j src w0 Hsrc Hj) as (_ & Hid & _ & Hpaid).
    split; [exists src; split; [by eapply list_elem_of_lookup_2|done]|].
    rewrite Hr. cbn [earnings steps set_index]. unfold sort_earnings. rewrite sort_by_perm.
    rewrite (earnings_at k j) by (congruence || done). rewrite <- list_fmap_compose. by rewrite <- Hpaid.
  - intros e He. edestruct (assembled_earning (E := CalculationError D)) as (e0 & He0 & Heq & _ & _ & Hwk);
      [apply walk_ids_nodup|by rewrite walks_length|apply walk_carried|exact Hres|exact He|].
    destruct (earning_walk e0 He0) as (w0 & Hw0 & Hi & Hsrc). destruct (Hwk w0 Hw0 Hi) as (k & H1 & H2).
    exists k, (set_index w0 (N.of_nat k)). split_and!; [done..|]. cbn [set_index walk_source_id].
    rewrite Hsrc. congruence.
Qed.

(** What an earning is worth. *)
Lemma result_priced e : (places ≤ 28)%N → e ∈ earnings res → ∃ src snap r elig x,
  src ∈ volume ∧ source_id e = vs_source_id src ∧ cv_amount e = dec (vs_cv_amount src) ∧
  (∃ upline k n, get_upline tree (vs_source_id src) 0 = Ok upline ∧ upline !! k = Some n ∧ user_id n = earner_id e ∧
    (level e ≤ N.of_nat k + 1)%N) ∧
  (1 ≤ level e ≤ max_depth cfg)%N ∧ rate e = Some r ∧ snapshots !! earner_id e = Some snap ∧
  r = rate_at cfg snap (level e) ∧ (0 < units r)%Z ∧ cache !! earner_id e = Some elig ∧ eligible elig = true ∧
  (∀ m, max_earning_depth elig = Some m → (level e ≤ m)%N) ∧
  (x * 10 ^ 84 = units (cv_amount e) * units (broad_pct cfg) * units (multiplier cfg) * units r)%Z ∧
  units (dollar_amount e) = (round_away x (10 ^ (28 - Z.of_N places)) * 10 ^ (28 - Z.of_N places))%Z.
Proof using DecimalLaws0 Hdepth Hinv Hvolume Hwalk NavigatorLaws0 Hres.
  intros Hp He. edestruct (assembled_earning (E := CalculationError D)) as (e0 & He0 & Heq & Hamt & _);
  [apply walk_ids_nodup|by rewrite walks_length|apply walk_carried|exact Hres|exact He|].
  injection Heq as H1 H2 H3 H4 H5. rewrite H1, H2, H3, H4, H5, Hamt.
  destruct (earning_audit inv tree Hinv _ _ _ _ Hdepth volume es ws e0 Hvolume Hwalk He0)
  as (k & src & ek & w & Hsrc & _ & Ha & Hek).
  pose proof (au_good _ _ _ _ _ _ _ _ _ Ha) as Hg. rewrite Forall_forall in Hg.
  destruct (Hg e0 Hek) as (G1 & _ & G2 & G3 & snap & r & Hr & (Hs & Hrate & Hpos & elig & K1 & K2 & K3) & Hx).
  exists src, snap, r, elig, (units (dollar_amount e0)). split_and!; try done; try lia.
  - by eapply list_elem_of_lookup_2.
  - eapply (audited_ancestor tree); [exact Ha|exact Hek].
  - unfold dec_ltb in Hpos. rewrite compare_units, zero_units in Hpos. by destruct (Z.compare_spec 0 (units r)).
  - rewrite G2. exact Hx.
  - apply round_minor_units. lia.
Qed.
End end_to_end.

(** ** What the level calculators share *)
Section level_tail.
Context {D : Type} `{!DecimalOps D, !DecimalLaws D}.
Context {T : Type} `{!TreeNavigator T} (inv : T → Prop) `{!NavigatorLaws T inv}.
Context (tree : T) (Hinv : inv tree) (plan : CompensationPlan D) (cfg : LevelWalkConfig (D := D)).
Context (cache : gmap Uuid EligibilityResult) (snapshots : gmap Uuid (DistributorSnapshot D)).
Context (volume : list (VolumeSource D)) (identity : PlanIdentity) (places : N).
Context (Hdepth : (max_depth cfg ≤ 255)%N) (Hvolume : (N.of_nat (length volume) ≤ 2 ^ 32)%N).

(** Validation, the walk and the assembly. *)
Definition level_tail : outcome (CalculationError D) (CommissionCalculationResult D) :=
  validate_snapshots plan snapshots (user_ids tree);;
  '(es, ws) ← walk_level_commissions tree cfg cache snapshots volume (λ _, false) [];
  assemble es ws volume (build_rank_ordinals plan) identity places.

Lemma level_tail_errors :
  match level_tail with
  | Ok _ => (∀ u, ¬ bad_rank plan snapshots u) ∧
  (∀ u, ¬ bad_volume snapshots u) ∧ (∀ u, contains tree u = true → is_Some (snapshots !! u)) ∧
  Forall (good_source tree) volume
  | Err (UnknownSnapshotRank u _) => bad_rank plan snapshots u ∧ ∀ v, bad_rank plan snapshots v → (u ≤ v)%N
  | Err (InvalidPersonalVolume u _) => bad_volume snapshots u ∧ ∀ v, bad_volume snapshots v → (u ≤ v)%N
  | Err (DistributorNotInSnapshot u) => contains tree u = true ∧ snapshots !! u = None ∧
  ∀ v, contains tree v = true → snapshots !! v = None → (u ≤ v)%N
  | Err e => first_fault tree cfg cache snapshots volume e
  | _ => False
  end.
Proof using All.
  unfold level_tail. pose proof (validate_snapshots_spec plan snapshots (user_ids tree)) as Hval.
  destruct (validate_snapshots plan snapshots (user_ids tree)) as [[]|e| |]; cbn [mbind outcome_bind]; [| |done..].
  2: { destruct e; try done; repeat setoid_rewrite (nav_user_ids tree _ Hinv) in Hval; naive_solver. }
  destruct Hval as (H1 & H2 & H3). setoid_rewrite (nav_user_ids tree _ Hinv) in H3.
  pose proof (walk_level_first_fault _ tree Hinv cfg cache snapshots (λ _, false) H3 Hdepth volume []) as Hf.
  destruct (walk_level_commissions _ _ _ _ _ _ _) as [[es ws]|e| |] eqn:Hw; cbn [mbind outcome_bind returns] in *; [| |done..].
  - rewrite assemble_ok; [done|exact (walk_ids_nodup _ tree Hinv cfg _ _ _ Hdepth Hvolume _ _ Hw)|
      exact (walk_carried _ tree Hinv cfg _ _ _ Hdepth Hvolume _ _ Hw)].
  - assert (Hs := Hf). destruct Hs as (pre & src & post & _ & _ & Hat). by destruct e.
Qed.

Lemma level_tail_ok res : level_tail = Ok res → ∃ es ws,
  walk_level_commissions tree cfg cache snapshots volume (λ _, false) [] = Ok (es, ws) ∧
  assemble (E := CalculationError D) es ws volume (build_rank_ordinals plan) identity places = Ok res.
Proof. intros [_ H]%bind_unit_ok. apply bind_ok in H as ([es ws] & Hw & H). eauto. Qed.

(** The table rate an earning was paid at. *)
Lemma level_tail_priced res e : (places ≤ 28)%N →
  (∀ u, cache !! u = eligibility_of tree snapshots (eligibility plan) u <$> snapshots !! u) →
  level_tail = Ok res → e ∈ earnings res → ∃ src snap levels r (x : Z),
  src ∈ volume ∧ source_id e = vs_source_id src ∧ cv_amount e = dec (vs_cv_amount src) ∧
  (∃ upline k n, get_upline tree (vs_source_id src) 0 = Ok upline ∧ upline !! k = Some n ∧ user_id n = earner_id e ∧
    (level e ≤ N.of_nat k + 1)%N) ∧
  (1 ≤ level e ≤ max_depth cfg)%N ∧
  (∀ m, max_earning_depth (eligibility_of tree snapshots (eligibility plan) (earner_id e) snap) = Some m → (level e ≤ m)%N) ∧
  snapshots !! earner_id e = Some snap ∧ is_eligible snap (eligibility plan) = true ∧
  walk_rates cfg !! rank snap = Some levels ∧ levels !! level e = Some r ∧
  rate e = Some (dec r) ∧ (0 < units (dec r))%Z ∧
  (x * 10 ^ 84 = units (cv_amount e) * units (broad_pct cfg) * units (multiplier cfg) * units (dec r))%Z ∧
  units (dollar_amount e) = (round_away x (10 ^ (28 - Z.of_N places)) * 10 ^ (28 - Z.of_N places))%Z.
Proof using All.
  intros Hp Hc (es & ws & Hw & Ha)%level_tail_ok He.
  destruct (result_priced _ tree Hinv cfg _ _ _ Hdepth Hvolume _ _ Hw _ _ _ _ Ha e Hp He)
  as (src & snap & r & elig & x & S1 & S2 & S3 & Han & Hl & Hr & Hs & Hrate & Hpos & K1 & K2 & K3 & Hx & Hu).
  rewrite Hc, Hs in K1. injection K1 as <-. unfold rate_at in Hrate.
  destruct (walk_rates cfg !! rank snap) as [levels|] eqn:Ht; cbn in Hrate; [|rewrite Hrate, zero_units in Hpos; lia].
  destruct (levels !! level e) as [rd|] eqn:Hrd; cbn in Hrate; [|rewrite Hrate, zero_units in Hpos; lia].
  subst r. by exists src, snap, levels, rd, x.
Qed.
End level_tail.

(** ** The unilevel calculator *)
Section unilevel_facts.
Context {D : Type} `{!DecimalOps D, !DecimalLaws D}.
Context (tree : Unilevel.Unilevel.UnilevelTree) (Hwf : arena_wf (Unilevel.Unilevel.arena tree)).
Context (plan : CompensationPlan D) (structure : UnilevelStructureConfig D).
Context (snapshots : gmap Uuid (DistributorSnapshot D)) (volume : list (VolumeSource D)) (identity : PlanIdentity).
Abbreviation lc := (us_level_commission structure).

Definition effective_multiplier : AuthoredDec D :=
  default (vc_volume_to_dollar_multiplier (volume_config plan)) (lc_volume_to_dollar_multiplier lc).

Definition unilevel_config (pu : option PassUpContext) : LevelWalkConfig :=
  mkLevelWalkConfig (lc_max_depth lc) (dec (broad_commission_percent lc)) (dec effective_multiplier)
  (us_compression structure) (resolve_threshold_ordinal (us_compression structure) (build_rank_ordinals plan))
  (build_rank_ordinals plan) (rate_table lc) pu None.

(** The preparation passes always deliver; what remains is the walk. *)
Lemma calculate_unilevel_steps : ∃ cache pu,
  (∀ u, cache !! u = eligibility_of tree snapshots (eligibility plan) u <$> snapshots !! u) ∧
  calculate_unilevel tree plan structure snapshots volume identity =
  (places ← plan_minor_units plan; level_tail tree plan (unilevel_config pu) cache snapshots volume identity places).
Proof using Hwf.
  destruct (evaluate_eligibility_spec _ tree Hwf snapshots (eligibility plan)) as (cache & Hcache & Hspec).
  assert (∃ pu, match us_pass_up structure with
   | Some pu => Some <$> build_pass_up_context (D := D) tree pu (user_ids tree)
   | None => Ok None
   end = Ok pu) as [pu Hpu].
  { destruct (us_pass_up structure) as [p|]; [|by eexists].
  destruct (build_pass_up_context_spec (D := D) _ tree Hwf p (user_ids tree)) as (ctx & -> & _). by eexists. }
  exists cache, pu. split; [done|]. unfold calculate_unilevel. rewrite Hcache, Hpu. done.
Qed.
End unilevel_facts.

Section unilevel_statements.
Context {D : Type} `{!DecimalOps D, !DecimalLaws D}.
Implicit Types (plan : CompensationPlan D) (structure : UnilevelStructureConfig D).

(** The first source a unilevel calculation cannot pay, and why: its amount is
    negative, it is outside the tree, or the payment of one of its ancestors is
    held by no decimal: an eligible ancestor, at a level no higher than its
    distance and within the plan's depth and its tier, with a positive rate. *)
Definition unilevel_source_fault (tree : Unilevel.Unilevel.UnilevelTree) plan structure snapshots volume (e : CalculationError D) : Prop :=
  ∃ pre src post, volume = pre ++ src :: post ∧ Forall (good_source tree) pre ∧
  match e with
  | InvalidCvAmount u a => u = vs_source_id src ∧ a = vs_cv_amount src ∧ is_negative (dec a) = true
  | SourceNotInTree u => u = vs_source_id src ∧ is_negative (dec (vs_cv_amount src)) = false ∧ contains tree u = false
  | Numeric ne => good_source tree src ∧ ∃ upline k n lvl snap levels r,
      get_upline tree (vs_source_id src) 0 = Ok upline ∧ upline !! k = Some n ∧
      (1 ≤ lvl ≤ lc_max_depth (us_level_commission structure))%N ∧ (lvl ≤ N.of_nat k + 1)%N ∧
      snapshots !! user_id n = Some snap ∧ is_eligible snap (eligibility plan) = true ∧
      (∀ m, max_earning_depth (eligibility_of tree snapshots (eligibility plan) (user_id n) snap) = Some m → (lvl ≤ m)%N) ∧
      rate_table (us_level_commission structure) !! rank snap = Some levels ∧ levels !! lvl = Some r ∧ (0 < units (dec r))%Z ∧
      product_refused [dec (vs_cv_amount src); dec (broad_commission_percent (us_level_commission structure));
        dec (effective_multiplier plan structure); dec r] ne
  | _ => False
  end.

Lemma unilevel_first_fault tree plan structure snapshots volume pu cache e :
  (∀ u, cache !! u = eligibility_of tree snapshots (eligibility plan) u <$> snapshots !! u) →
  first_fault tree (unilevel_config plan structure pu) cache snapshots volume e →
  unilevel_source_fault tree plan structure snapshots volume e.
Proof.
  intros Hc (pre & src & post & Hv & Hpre & Hat). exists pre, src, post. split_and!; [done..|]. destruct e; try done.
  destruct Hat as (Hg & upline & Hup & k & n & lvl & Hn & Hk & ne & snap & r & [= <-] & Hl & Hmay & Href).
  apply may_earn_table in Hmay as (Hs & levels & rd & elig & Ht & Hrd & -> & Hpos & He & Hel & Hm).
  rewrite Hc, Hs in He. injection He as <-. split; [done|]. exists upline, k, n, lvl, snap, levels, rd. split_and!; try done; apply Hl.
Qed.


(** C1. A unilevel result agrees with itself: its walks are those of the volume
    sources, exactly one for each, numbered by position; the earnings that reference a
    walk are exactly its paid steps, each at its level; every earning references the
    walk of its source and carries that source's volume; and the earnings are in
    (earner, source, level, walk) order. *)
Theorem calculate_unilevel_consistent tree plan structure snapshots volume identity res :
  arena_wf (Unilevel.Unilevel.arena tree) → (lc_max_depth (us_level_commission structure) ≤ 255)%N →
  (N.of_nat (length volume) ≤ 2 ^ 32)%N →
  calculate_unilevel tree plan structure snapshots volume identity = Ok res → consistent volume identity res.
Proof.
  intros Hwf Hd Hv Hres.
  destruct (calculate_unilevel_steps tree Hwf plan structure snapshots volume identity) as (cache & pu & _ & Heq).
  rewrite Heq in Hres. apply bind_ok in Hres as (places & _ & (es & ws & Hw & Ha)%level_tail_ok).
  exact (result_consistent _ tree Hwf (unilevel_config plan structure pu) _ _ _ Hd Hv _ _ Hw _ _ _ _ Ha).
Qed.

(** C2. Every unilevel earning pays a member of its source's upline, at a level no
    higher than its distance from the source, who is eligible, within the plan's depth
    and within the limit of its own active-leg tier, at the positive rate the table has
    for its rank and level; the amount is the exact product CV x broad percent x
    multiplier x rate, rounded once, half away from zero, to the currency's minor unit.
    *)
Theorem calculate_unilevel_priced tree plan structure snapshots volume identity res e :
  arena_wf (Unilevel.Unilevel.arena tree) → (lc_max_depth (us_level_commission structure) ≤ 255)%N →
  (N.of_nat (length volume) ≤ 2 ^ 32)%N →
  calculate_unilevel tree plan structure snapshots volume identity = Ok res → e ∈ earnings res →
  ∃ places src snap levels r (x : Z), minor_units (base_currency (volume_config plan)) = Some places ∧
  src ∈ volume ∧ source_id e = vs_source_id src ∧ cv_amount e = dec (vs_cv_amount src) ∧
  (∃ upline k n, get_upline tree (vs_source_id src) 0 = Ok upline ∧ upline !! k = Some n ∧ user_id n = earner_id e ∧
    (level e ≤ N.of_nat k + 1)%N) ∧
  (1 ≤ level e ≤ lc_max_depth (us_level_commission structure))%N ∧
  (∀ m, max_earning_depth (eligibility_of tree snapshots (eligibility plan) (earner_id e) snap) = Some m → (level e ≤ m)%N) ∧
  snapshots !! earner_id e = Some snap ∧ is_eligible snap (eligibility plan) = true ∧
  rate_table (us_level_commission structure) !! rank snap = Some levels ∧ levels !! level e = Some r ∧
  rate e = Some (dec r) ∧ (0 < units (dec r))%Z ∧
  (x * 10 ^ 84 = units (cv_amount e) * units (dec (broad_commission_percent (us_level_commission structure))) *
  units (dec (effective_multiplier plan structure)) * units (dec r))%Z ∧
  units (dollar_amount e) = (round_away x (10 ^ (28 - Z.of_N places)) * 10 ^ (28 - Z.of_N places))%Z.
Proof.
  intros Hwf Hd Hv Hres He.
  destruct (calculate_unilevel_steps tree Hwf plan structure snapshots volume identity) as (cache & pu & Hc & Heq).
  rewrite Heq in Hres. apply bind_ok in Hres as (places & Hcur%ok_or_ok & Hres).
  pose proof (minor_units_bound _ _ Hcur) as Hp. exists places.
  destruct (level_tail_priced _ tree Hwf plan (unilevel_config plan structure pu) cache snapshots volume identity places Hd Hv res e
  ltac:(lia) Hc Hres He) as (src & snap & levels & r & x & H). exists src, snap, levels, r, x. by split.
Qed.
End unilevel_statements.
