(* ===== verification/TreeExamples.v ===== *)
(** * Concrete trees

    A unilevel and a binary tree built by requests, on which the theorems about
    traversals, positions, restores and the binary tree are evaluated. *)

From stdpp Require Import base numbers list gmap sorting strings.
From Stdlib Require Import ZArith Lia.
From S2P Require Import Prelude TreeTypes Arena ArenaCheck ArenaWf ArenaOps Unilevel ArenaWalk ArenaRestore SlotMap Binary.

Module TreeWitness.
(** The unilevel tree of five requests: 5 under 4 under 2 under 1. *)
Abbreviation a := (Unilevel.Unilevel.arena UnilevelWitness.tree).

Lemma a_wf : arena_wf a.
Proof. apply validate_restored_sound. vm_compute. reflexivity. Qed.

Definition n1 : Node := default tombstone_node (nodes a !! 0).
Definition n5 : Node := default tombstone_node (nodes a !! 2).

Lemma get_upline_exact_witness :
  Query.get_upline a 5 0 = Ok (at_slots a [3; 1; 0]) ∧
  ∃ l, Query.get_upline a 5 0 = Ok (at_slots a (cut 0 l)) ∧ up_path a parent (parent n5) l ∧ NoDup (2 :: l) ∧
  N.of_nat (length l) = depth n5 ∧ last (2 :: l) = root a.
Proof.
  split; [vm_compute; reflexivity|].
  apply (get_upline_exact a 5 2 n5 0 a_wf); vm_compute; reflexivity.
Defined.

Lemma get_downline_exact_witness :
  Query.count_downline a 1 0 = Ok 3 ∧
  ∃ l, Query.get_downline a 1 0 = Ok (at_slots a l) ∧ Query.count_downline a 1 0 = Ok (length l) ∧ NoDup l ∧
  (∀ j, j ∈ l ↔ below a 0 j ∧ (0%N = 0%N ∨ (depth_at a j - depth n1 ≤ 0)%N)) ∧
  StronglySorted (λ i j, (depth_at a i ≤ depth_at a j)%N) l.
Proof.
  split; [vm_compute; reflexivity|].
  apply (get_downline_exact a 1 0 n1 0 a_wf); vm_compute; reflexivity.
Defined.

Lemma get_sponsor_upline_exact_witness :
  ∃ l, Query.get_sponsor_upline a 5 2 = Ok (at_slots a (cut 2 l)) ∧ up_path a sponsor (sponsor n5) l ∧ NoDup (2 :: l).
Proof.
  apply (get_sponsor_upline_exact a 5 2 n5 2 a_wf); [vm_compute; reflexivity..|]. vm_compute. discriminate.
Defined.

Lemma descendant_queries_agree_witness :
  Query.is_descendant_of a 5 2 = Ok true ∧
  ∃ b down up, Query.is_descendant_of a 5 2 = Ok b ∧ Query.get_downline a 2 0 = Ok down ∧
  Query.get_upline a 5 0 = Ok up ∧ (b = true ↔ 5%N ∈ user_id <$> down) ∧ (b = true ↔ 2%N ∈ user_id <$> up).
Proof.
  split; [vm_compute; reflexivity|].
  apply (descendant_queries_agree a 2 5 1 2 a_wf); vm_compute; reflexivity.
Defined.

Lemma get_branch_exact_witness : children n1 !! 0 = Some 1 ∧
  match children n1 !! 0 with
  | None => get_branch a 0 0 = Err (PositionOutOfRange (user_id n1) 0 (length (children n1))) ∧
        count_branch a 0 0 = Err (PositionOutOfRange (user_id n1) 0 (length (children n1)))
  | Some c => ∃ l, get_branch a 0 0 = Ok (at_slots a (c :: l)) ∧ count_branch a 0 0 = Ok (S (length l)) ∧
  NoDup (c :: l) ∧ ∀ j, j ∈ l ↔ below a c j
  end.
Proof.
  split; [vm_compute; reflexivity|]. apply (get_branch_exact a 0 n1 0 a_wf). vm_compute. reflexivity.
Defined.

Lemma get_position_exact_witness : ∃ tp, @get_position TreeError a 2 = Ok tp ∧
  tp_user_id tp = user_id n5 ∧ tp_depth tp = depth n5.
Proof.
  destruct (get_position_exact a 2 n5 a_wf) as (tp & H1 & H2 & H3 & _);
  [vm_compute; reflexivity|vm_compute; discriminate|]. exists tp. exact (conj H1 (conj H2 H3)).
Defined.

Lemma check_index_deterministic_witness :
  raise (lowest_fault N.ltb (check_index_entry a) (reverse (map_to_list (index a)))) = check_index a.
Proof. apply (check_index_deterministic a). apply reverse_Permutation. Defined.
End TreeWitness.

Module BinaryWitness.
Import Binary.Binary BinarySpec.

(** 2 left and 3 right of 1; 4 right of 2, recruited by 3; a taken side is
    refused; 3 leaves, so 4 passes to 1. *)
Definition ops : list op :=
  [AddRoot 1 0; AddNode 2 1 0 1 0; AddNode 3 1 1 1 0; AddNode 4 2 1 3 0; AddNode 5 1 0 1 0; RemoveNode 3].

Definition tree : BinaryTree := match run exec new ops with Ok (t, _) => t | _ => new end.

Lemma binary_run_reachable os t t' rs : reachable t → run exec t os = Ok (t', rs) → reachable t'.
Proof.
  revert t t' rs. induction os as [|o os IH]; intros t t' rs Hr; simpl; [by intros [= <- _]|].
  destruct (exec t o) as [[t1 r]|e| |] eqn:He; [| |done..].
  - intros H. apply bind_ok in H as ([t2 rs2] & H & [= <- _]). eapply IH; [|exact H].
    eapply rtc_r; [exact Hr|]. destruct o; simpl in He.
    + apply bind_ok in He as ([] & He & [= <- _]). by eapply step_root.
    + apply bind_ok in He as ([] & He & [= <- _]). by eapply step_add.
    + by eapply step_remove.
  - intros H. apply bind_ok in H as ([t2 rs2] & H & [= <- _]). by eapply IH.
Qed.

Lemma binary_tree_reachable : reachable tree.
Proof.
  apply (binary_run_reachable ops new _ [inl []; inl []; inl []; inl []; inr (PositionOccupied 1 0);
  inl [mkResponsored 4 1]]); [apply rtc_refl|]. vm_compute. reflexivity.
Qed.

Lemma binary_tree_wf : binary_wf tree.
Proof. apply reachable_binary_wf, binary_tree_reachable. Qed.

Lemma binary_reachable_wf_witness : node_count (arena tree) = 3 ∧ binary_wf tree.
Proof. split; [vm_compute; reflexivity|]. apply binary_reachable_wf, binary_tree_reachable. Defined.

Lemma binary_refines_network_witness :
  prod_map binary_network id <$> run exec tree [RemoveNode 2; RemoveNode 4; AddNode 4 1 1 2 7] =
  run spec (binary_network tree) [RemoveNode 2; RemoveNode 4; AddNode 4 1 1 2 7].
Proof. apply binary_refines_network, binary_tree_reachable. Defined.

Lemma binary_branch_exact_witness :
  side (Some 1, None) 0 = Some (Some 1) ∧
  match side (Some 1, None) 0 with
  | None => get_branch tree 1 0 = Err (PositionOutOfRange 1 0 2) ∧ count_branch tree 1 0 = Err (PositionOutOfRange 1 0 2)
  | Some None => get_branch tree 1 0 = Ok [] ∧ count_branch tree 1 0 = Ok 0
  | Some (Some c) => ∃ l, get_branch tree 1 0 = Ok (at_slots (arena tree) (c :: l)) ∧
  count_branch tree 1 0 = Ok (S (length l)) ∧ NoDup (c :: l) ∧ ∀ j, j ∈ l ↔ below (arena tree) c j
  end.
Proof.
  split; [reflexivity|]. apply (binary_branch_exact tree 1 0 (Some 1, None) 0 binary_tree_wf); vm_compute; reflexivity.
Defined.

Definition n4 : Node := default tombstone_node (nodes (arena tree) !! 3).

Lemma binary_get_position_exact_witness :
  ∃ tp, get_position tree 4 = Ok tp ∧ tp_user_id tp = 4%N ∧ tp_depth tp = depth n4.
Proof.
  destruct (binary_get_position_exact tree 4 3 n4 (None, None) binary_tree_wf) as (tp & H1 & H2 & H3 & _);
  [vm_compute; reflexivity..|]. exists tp. exact (conj H1 (conj H2 H3)).
Defined.
End BinaryWitness.
