(* ===== verification/CommissionExamples.v ===== *)
(** * A concrete commission period

    The unilevel tree of TreeExamples.v with snapshots, a plan in US dollars and
    two volume sources, on which the theorems about walks, preparation, assembly
    and the unilevel calculator are evaluated. *)

From stdpp Require Import base numbers list gmap sorting strings.
From Stdlib Require Import ZArith Lia.
From S2P Require Import Prelude RustDecimal Dec TreeTypes Arena ArenaWf Unilevel ArenaRestore Navigator CommissionTypes Walk WalkSpec WalkPrepare Currency WalkOrder Calculators.
Import Ref.

Module CommissionWitness.
#[local] Open Scope string_scope.

Abbreviation tree := UnilevelWitness.tree.
Abbreviation money m s := (Authored (of_mantissa m s)).

Lemma tree_wf : arena_wf (Unilevel.Unilevel.arena tree).
Proof. apply validate_restored_sound. vm_compute. reflexivity. Qed.

Definition elig : CommissionEligibility rdec :=
  mkEligibility (money 50 0) true ["active"] [mkTier 0 2; mkTier 1 0].
Definition plan : CompensationPlan rdec :=
  mkPlan (mkVolumeConfig "USD" (money 1 0)) [mkRank "bronze" 1; mkRank "gold" 2] elig.

(** Rates by rank and level: 10%, 5.5% and 2% for gold, 3% at level 1 for bronze. *)
Definition rates : gmap string (gmap N (AuthoredDec rdec)) :=
  {["gold" := {[1%N := money 10 2; 2%N := money 55 3; 3%N := money 2 2]};
  "bronze" := {[1%N := money 3 2]}]}.
Definition lc : LevelCommissionConfig rdec := mkLevelCommission (money 40 2) None 3 rates.

(** 2 has no order in the period, so compression takes it out of the chain. *)
Definition structure : UnilevelStructureConfig rdec :=
  mkUnilevelStructure "main" lc (Some (mkCompression true SkipInactive None)) (Some (mkPassUp 1 false)).
Definition snapshots : gmap Uuid (DistributorSnapshot rdec) :=
  {[1%N := mkSnapshot "gold" (money 100 0) "active" true; 2%N := mkSnapshot "gold" (money 100 0) "active" false;
  4%N := mkSnapshot "bronze" (money 5000 2) "active" true; 5%N := mkSnapshot "gold" (money 80 0) "active" true]}.
Definition volume : list (VolumeSource rdec) := [mkSource 5 (money 9999 2); mkSource 4 (money 100 0)].
Definition identity : PlanIdentity := mkPlanIdentity "plan" 1 "hash".

Definition result : outcome (CalculationError rdec) (CommissionCalculationResult rdec) :=
  calculate_unilevel tree plan structure snapshots volume identity.

(** What a result pays: earner, source, level, amount and walk. *)
Definition paid (r : CommissionCalculationResult rdec) : list (Uuid * Uuid * N * (Z * Z) * option N) :=
  (λ e, (earner_id e, source_id e, level e, (mantissa (dollar_amount e), scale (dollar_amount e)), walk e))
  <$> earnings r.

Lemma depth_ok : (lc_max_depth (us_level_commission structure) ≤ 255)%N.
Proof. vm_compute. discriminate. Qed.
Lemma volume_ok : (N.of_nat (length volume) ≤ 2 ^ 32)%N.
Proof. vm_compute. discriminate. Qed.

(** *** The walk *)
Definition cfg : LevelWalkConfig := unilevel_config plan structure None.
Definition cache : gmap Uuid EligibilityResult :=
  match evaluate_eligibility snapshots tree elig with Ok c => c | _ => ∅ end.
Definition walked := walk_level_commissions tree cfg cache snapshots volume (λ _, false) [].
Definition es : list (CommissionEarning rdec) := match walked with Ok (es, _) => es | _ => [] end.
Definition ws : list Walk := match walked with Ok (_, ws) => ws | _ => [] end.

Lemma walked_ok : walked = Ok (es, ws).
Proof. vm_compute. reflexivity. Qed.

Lemma earnings_are_paid_steps_witness :
  paid_levels (steps (default (mkWalk 9 9 Level None None [] RootReached None) (ws !! 0))) = [(4%N, 1%N); (1%N, 2%N)] ∧
  length ws = length volume ∧ ∀ k src w, volume !! k = Some src → ws !! k = Some w →
  walk_index w = N.of_nat k ∧ walk_source_id w = vs_source_id src ∧
  (N.of_nat (length (steps w)) ≤ max_depth cfg)%N ∧
  (λ e, (earner_id e, level e)) <$> filter (λ e, walk e = Some (N.of_nat k)) es = paid_levels (steps w).
Proof.
  split; [vm_compute; reflexivity|].
  exact (earnings_are_paid_steps _ tree cfg cache snapshots volume (λ _, false) es ws tree_wf depth_ok volume_ok walked_ok).
Defined.

(** The first earning: 4 is paid 3% of 40% of 99.99 at level 1. *)
Definition e0 : CommissionEarning rdec :=
  default (mkEarning 0 0 0 None rd_zero rd_zero None) (es !! 0).
Lemma e0_in : e0 ∈ es.
Proof. apply (list_elem_of_lookup_2 es 0). vm_compute. reflexivity. Qed.

Lemma earning_amount_exact_witness :
  (units (dollar_amount e0) * 10 ^ 28 = 11998800 * 10 ^ 49)%Z ∧
  ∃ src snap r res, src ∈ volume ∧ source_id e0 = vs_source_id src ∧ cv_amount e0 = dec (vs_cv_amount src) ∧
  (1 ≤ level e0 ≤ max_depth cfg)%N ∧ snapshots !! earner_id e0 = Some snap ∧
  rate e0 = Some r ∧ r = rate_at cfg snap (level e0) ∧ (0 < units r)%Z ∧
  cache !! earner_id e0 = Some res ∧ eligible res = true ∧
  (∀ m, max_earning_depth res = Some m → (level e0 ≤ m)%N) ∧
  (units (dollar_amount e0) * 10 ^ 84 =
  units (cv_amount e0) * units (broad_pct cfg) * units (multiplier cfg) * units r)%Z.
Proof.
  split; [vm_compute; reflexivity|].
  exact (earning_amount_exact _ tree cfg cache snapshots volume (λ _, false) es ws e0 tree_wf depth_ok volume_ok
  walked_ok e0_in).
Defined.

Definition w0 : Walk := default (mkWalk 9 9 Level None None [] RootReached None) (ws !! 0).
Definition src0 : VolumeSource rdec := mkSource 5 (money 9999 2).
Definition upline0 : list Node := match get_upline tree 5 0 with Ok l => l | _ => [] end.

Lemma walk_stop_sound_witness : stop w0 = RootReached ∧
  match stop w0 with
  | RootReached => stopped_at w0 = None
  | MaxDepthReached => N.of_nat (length (steps w0)) = max_depth cfg ∧ is_Some (stopped_at w0)
  | BoundaryReached => (N.of_nat (length (steps w0)) < max_depth cfg)%N ∧ ∃ u, stopped_at w0 = Some u ∧ false = true
  | MaxGenerationsReached => False
  end ∧
  (∀ u, stopped_at w0 = Some u → u ∈ user_id <$> upline0 ∧ u ∉ node_id <$> steps w0) ∧
  NoDup (node_id <$> steps w0) ∧ sublist (node_id <$> steps w0) (user_id <$> upline0).
Proof.
  split; [vm_compute; reflexivity|].
  apply (walk_stop_sound _ tree cfg cache snapshots volume (λ _, false) es ws 0 src0 w0 upline0 tree_wf depth_ok
  volume_ok walked_ok); vm_compute; reflexivity.
Defined.

(** 2 is out of the chain of 5: 4 and 1 hold levels 1 and 2. *)
Lemma compression_is_filtering_witness :
  user_id <$> filter (λ n, removed cfg cache snapshots src0 n = false) upline0 = [4%N; 1%N] ∧
  (λ r, r.1.1) <$> walk_nodes (visit cfg cache snapshots (λ _, false) src0 0) (mkWalkState 1 [] []) upline0 =
  (λ r, r.1.1) <$> walk_nodes (visit (uncompressed cfg) cache snapshots (λ _, false) src0 0) (mkWalkState 1 [] [])
  (filter (λ n, removed cfg cache snapshots src0 n = false) upline0).
Proof.
  split; [vm_compute; reflexivity|].
  apply (compression_is_filtering cfg cache snapshots src0 0 upline0 (mkWalkState 1 [] [])); [reflexivity|].
  apply Forall_forall. apply (bool_decide_unpack _). vm_compute. exact I.
Defined.

(** *** Preparation *)
(** 4 has one active recruit and reaches the second tier; 2 does not qualify and
    keeps the limit of the first. *)
Lemma evaluate_eligibility_exact_witness :
  cache !! 4%N = Some (mkEligibilityResult true None) ∧ cache !! 2%N = Some (mkEligibilityResult false (Some 2%N)) ∧
  ∃ c, evaluate_eligibility snapshots tree elig = Ok c ∧ (∀ u, snapshots !! u = None → c !! u = None) ∧
  ∀ u s, snapshots !! u = Some s → ∃ d, c !! u = Some (mkEligibilityResult (is_eligible s elig) d) ∧
  let legs := if is_eligible s elig then (N.of_nat (active_legs tree snapshots elig u) mod 65536)%N else 0%N in
  (Forall (λ t, (legs < min_active_legs t)%N) [mkTier 0 2; mkTier 1 0] → d = None) ∧
  ∀ pre t post, [mkTier 0 2; mkTier 1 0] = (pre ++ t :: post)%list → (min_active_legs t ≤ legs)%N →
    Forall (λ t', (legs < min_active_legs t')%N) post →
    d = if (max_commission_depth t =? 0)%N then None else Some (N.min (max_commission_depth t) 255).
Proof.
  split; [vm_compute; reflexivity|]. split; [vm_compute; reflexivity|].
  exact (evaluate_eligibility_exact _ tree snapshots elig tree_wf).
Defined.

Lemma pass_up_exact_witness :
  ∃ ctx, build_pass_up_context (D := rdec) tree (mkPassUp 1 true) [2%N; 4%N] = Ok ctx ∧
  ∀ u s, (∃ set, skip_sets ctx !! u = Some set ∧ s ∈ set) ↔
  u ∈ [2%N; 4%N] ∧ ∃ r, r ∈ take 1 (sort_by enrolled_compare (recruits tree u)) ∧
    (s = user_id r ∨ true = true ∧ contains tree s = true ∧ is_descendant_of tree s (user_id r) = Ok true).
Proof. exact (pass_up_exact _ tree (mkPassUp 1 true) [2%N; 4%N] tree_wf). Defined.

(** *** Assembly: two walks emitted in the other order *)
Definition swapped : list Walk := [set_index (default w0 (ws !! 1)) 0; set_index w0 1].
Definition ordinals : gmap string N := build_rank_ordinals plan.

Lemma swapped_ids : NoDup (walk_index <$> swapped).
Proof. apply (bool_decide_unpack _). vm_compute. exact I. Qed.
Lemma ws_ids : NoDup (walk_index <$> ws).
Proof. apply (bool_decide_unpack _). vm_compute. exact I. Qed.

Lemma assign_indexes_exact_witness :
  walk_source_id <$> (assign_indexes swapped volume ordinals).1 = [5%N; 4%N] ∧
  let '(ws', remap) := assign_indexes swapped volume ordinals in
  length ws' = length swapped ∧ (∀ k w, ws' !! k = Some w → walk_index w = N.of_nat k) ∧
  StronglySorted (λ a b, cmp_leb (key_compare ordinals (first_positions volume)) a b = true) ws' ∧
  (∀ w, w ∈ swapped → ∃ k, remap !! walk_index w = Some (N.of_nat k) ∧ ws' !! k = Some (set_index w (N.of_nat k))) ∧
  ∀ id i, remap !! id = Some i → id ∈ walk_index <$> swapped.
Proof.
  split; [vm_compute; reflexivity|].
  apply (assign_indexes_exact volume ordinals swapped swapped_ids). vm_compute. discriminate.
Defined.

Definition swap (i : N) : N := (1 - i)%N.
Definition es_swapped : list (CommissionEarning rdec) := reverse (relabel_earning swap <$> es).

Lemma es_carried : carried es ws.
Proof.
  assert (H : Forall (λ e, default 0%N (walk e) ∈ walk_index <$> ws) es)
  by (apply (bool_decide_unpack _); vm_compute; exact I).
  intros e i He Hi. rewrite Forall_forall in H. specialize (H e He). by rewrite Hi in H.
Qed.

Lemma ws_swapped : swapped ≡ₚ relabel swap <$> ws.
Proof. assert (relabel swap <$> ws = reverse swapped) as -> by (vm_compute; reflexivity). symmetry. apply reverse_Permutation. Qed.

(** No two walks tie on their keys, and no two earnings on theirs. *)
Lemma no_ties a b : a ∈ ws → b ∈ ws → key_compare ordinals (first_positions volume) a b = Eq →
  (swap (walk_index a) ?= swap (walk_index b))%N = (walk_index a ?= walk_index b)%N.
Proof.
  assert (H : Forall (λ a, Forall (λ b, key_compare ordinals (first_positions volume) a b = Eq →
  (swap (walk_index a) ?= swap (walk_index b))%N = (walk_index a ?= walk_index b)%N) ws) ws)
  by (apply (bool_decide_unpack _); vm_compute; exact I).
  intros Ha Hb. rewrite Forall_forall in H. specialize (H a Ha). rewrite Forall_forall in H. by apply H.
Qed.

Lemma es_distinct a b : a ∈ es → b ∈ es → earning_compare a b = Eq → a = b.
Proof.
  intros (i & Hi)%list_elem_of_lookup (j & Hj)%list_elem_of_lookup Hab.
  assert (H : Forall (λ i, Forall (λ j, match es !! i, es !! j with
  | Some a, Some b => match earning_compare a b with Eq => Nat.eqb i j | _ => true end
  | _, _ => true end = true) (seq 0 (length es))) (seq 0 (length es)))
  by (apply (bool_decide_unpack _); vm_compute; exact I).
  rewrite Forall_seq in H. specialize (H i). apply lookup_lt_Some in Hi as Hil. apply lookup_lt_Some in Hj as Hjl.
  assert (H' := H ltac:(lia)). rewrite Forall_seq in H'. specialize (H' j ltac:(lia)). rewrite Hi, Hj, Hab in H'.
  apply Nat.eqb_eq in H'. congruence.
Qed.

Lemma assemble_emission_independent_witness :
  assemble (E := unit) es_swapped swapped volume ordinals identity 2 =
  assemble (E := unit) es ws volume ordinals identity 2.
Proof.
  apply (assemble_emission_independent volume ordinals identity 2 swap es es_swapped ws swapped
  ws_ids swapped_ids volume_ok es_carried ws_swapped (reverse_Permutation _) no_ties es_distinct).
Defined.

(** *** The calculator *)
Definition res : CommissionCalculationResult rdec :=
  match result with Ok r => r | _ => mkResult [] [] identity end.
Lemma result_ok : result = Ok res.
Proof. vm_compute. reflexivity. Qed.

(** A second source outside the tree; and an amount whose product with the
    broad percent needs more than 28 places and 96 bits. *)
Definition stray : list (VolumeSource rdec) := [mkSource 5 (money 1 0); mkSource 7 (money 1 0)].
Definition fine : list (VolumeSource rdec) := [mkSource 5 (money (2 ^ 96 - 1) 28)].
Definition fine_error : NumericError rdec :=
  match calculate_unilevel tree plan structure snapshots fine identity with
  | Err (Numeric e) => e
  | _ => mkNumericError OpAdd rd_zero rd_zero Overflow
  end.


Lemma calculate_unilevel_consistent_witness :
  paid res = [(1%N, 4%N, 1%N, (400%Z, 2%Z), Some 1%N); (1%N, 5%N, 1%N, (400%Z, 2%Z), Some 0%N)] ∧
  consistent volume identity res.
Proof.
  split; [vm_compute; reflexivity|].
  exact (calculate_unilevel_consistent tree plan structure snapshots volume identity res tree_wf depth_ok volume_ok result_ok).
Defined.

(** 10% of 40% of 99.99 is 3.9996, paid as 4.00. *)
Definition e1 : CommissionEarning rdec :=
  default (mkEarning 0 0 0 None rd_zero rd_zero None) (earnings res !! 1).
Lemma e1_in : e1 ∈ earnings res.
Proof. apply (list_elem_of_lookup_2 _ 1). vm_compute. reflexivity. Qed.

Lemma calculate_unilevel_priced_witness :
  units (dollar_amount e1) = (4 * 10 ^ 28)%Z ∧
  ∃ places src snap levels r (x : Z), minor_units "USD" = Some places ∧
  src ∈ volume ∧ source_id e1 = vs_source_id src ∧ cv_amount e1 = dec (vs_cv_amount src) ∧
  (∃ upline k n, get_upline tree (vs_source_id src) 0 = Ok upline ∧ upline !! k = Some n ∧ user_id n = earner_id e1 ∧
    (level e1 ≤ N.of_nat k + 1)%N) ∧
  (1 ≤ level e1 ≤ 3)%N ∧
  (∀ m, max_earning_depth (eligibility_of tree snapshots elig (earner_id e1) snap) = Some m → (level e1 ≤ m)%N) ∧
  snapshots !! earner_id e1 = Some snap ∧ is_eligible snap elig = true ∧
  rates !! rank snap = Some levels ∧ levels !! level e1 = Some r ∧
  rate e1 = Some (dec r) ∧ (0 < units (dec r))%Z ∧
  (x * 10 ^ 84 = units (cv_amount e1) * units (dec (broad_commission_percent lc)) *
  units (dec (effective_multiplier plan structure)) * units (dec r))%Z ∧
  units (dollar_amount e1) = (round_away x (10 ^ (28 - Z.of_N places)) * 10 ^ (28 - Z.of_N places))%Z.
Proof.
  split; [vm_compute; reflexivity|].
  exact (calculate_unilevel_priced tree plan structure snapshots volume identity res e1 tree_wf depth_ok volume_ok
  result_ok e1_in).
Defined.
End CommissionWitness.
