(* ===== verification/ArenaPrune.v ===== *)
(** * The two halves of the arena invariant

    Placement and sponsorship are independent edges over the same slots. A
    change of one half only has to establish that half again: [wf_halves]. *)

From stdpp Require Import base numbers list gmap strings.
From Stdlib Require Import ZArith Lia.
From S2P Require Import Prelude TreeTypes Arena ArenaWf ArenaOps ArenaWalk ArenaRestore.

(** The sponsorship half. *)
Record sponsors_wf (a : Arena) : Prop := {
  sw_tomb i n : nodes a !! i = Some n → user_id n = nil_uuid → sponsor n = None ∧ sponsored n = [];
  sw_sponsor i n s : nodes a !! i = Some n → sponsor n = Some s →
    ∃ ns, nodes a !! s = Some ns ∧ i ∈ sponsored ns;
  sw_sponsored i n r : nodes a !! i = Some n → r ∈ sponsored n →
    ∃ nr, nodes a !! r = Some nr ∧ sponsor nr = Some i;
  sw_nodup i n : nodes a !! i = Some n → NoDup (sponsored n);
  sw_root r n : root a = Some r → nodes a !! r = Some n → sponsor n = None;
  sw_chain i n : nodes a !! i = Some n → user_id n ≠ nil_uuid → chain_ends a i;
}.

(** The placement half. *)
Record placement_wf (a : Arena) : Prop := {
  pw_index u i : index a !! u = Some i ↔ u ≠ nil_uuid ∧ ∃ n, nodes a !! i = Some n ∧ user_id n = u;
  pw_tomb i n : nodes a !! i = Some n → user_id n = nil_uuid → parent n = None ∧ children n = [];
  pw_parent i n p : nodes a !! i = Some n → parent n = Some p →
    ∃ np, nodes a !! p = Some np ∧ i ∈ children np;
  pw_children i n c : nodes a !! i = Some n → c ∈ children n →
    ∃ nc, nodes a !! c = Some nc ∧ parent nc = Some i;
  pw_nodup i n : nodes a !! i = Some n → NoDup (children n);
  pw_depth_root i n : nodes a !! i = Some n → user_id n ≠ nil_uuid → parent n = None → depth n = 0%N;
  pw_depth i n p np : nodes a !! i = Some n → parent n = Some p → nodes a !! p = Some np →
    depth n = (depth np + 1)%N ∧ (depth n ≤ u32_max)%N;
  pw_free_nodup : NoDup (free_list a);
  pw_free i : i ∈ free_list a → ∃ n, nodes a !! i = Some n ∧ user_id n = nil_uuid;
  pw_root_live r : root a = Some r → ∃ n, nodes a !! r = Some n ∧ user_id n ≠ nil_uuid;
  pw_rootless i n : root a = None → nodes a !! i = Some n → user_id n = nil_uuid;
  pw_root_unique r i n : root a = Some r → nodes a !! i = Some n → user_id n ≠ nil_uuid →
    parent n = None → i = r;
}.

Lemma wf_halves a : arena_wf a ↔ placement_wf a ∧ sponsors_wf a.
Proof.
  split.
  - intros [H1 H2 H3 H4 H5 H6 H7 H8 H9 H10 H11 H12 H13 H14 H15 H16]. split; split; try done.
    + intros i n Hi Hn. by destruct (H2 i n Hi Hn) as (? & _ & ? & _).
    + intros r Hr. destruct (H13 r Hr) as (n & ? & ? & _). eauto.
    + intros i n Hi Hn. by destruct (H2 i n Hi Hn) as (_ & ? & _ & ?).
    + intros r n Hr Hn. destruct (H13 r Hr) as (n' & Hn' & _ & Hs). congruence.
  - intros [[P1 P2 P3 P4 P5 P6 P7 P8 P9 P10 P11 P12] [S1 S2 S3 S4 S5 S6]]. split; try done.
    + intros i n Hi Hn. destruct (P2 i n Hi Hn), (S1 i n Hi Hn). done.
    + intros r Hr. destruct (P10 r Hr) as (n & Hn & Hl). exists n. split_and!; [done..|]. by eapply S5.
Qed.

(** Same users and placements. *)
Definition same_placement (n n' : Node) : Prop :=
  user_id n' = user_id n ∧ parent n' = parent n ∧ children n' = children n ∧ depth n' = depth n.

(** Same users and sponsorships. *)
Definition same_sponsorship (n n' : Node) : Prop :=
  user_id n' = user_id n ∧ sponsor n' = sponsor n ∧ sponsored n' = sponsored n.

Section transfer.
Context (a a' : Arena) (R : Node → Node → Prop) (Hframe : same_frame a a').
Context (Hnodes : ∀ j, option_Forall2 R (nodes a !! j) (nodes a' !! j)).

Lemma slots_forward j n : nodes a !! j = Some n → ∃ n', nodes a' !! j = Some n' ∧ R n n'.
Proof. intros Hj. specialize (Hnodes j). rewrite Hj in Hnodes. inversion Hnodes; subst; eauto. Qed.

Lemma slots_back j n' : nodes a' !! j = Some n' → ∃ n, nodes a !! j = Some n ∧ R n n'.
Proof. intros Hj. specialize (Hnodes j). rewrite Hj in Hnodes. inversion Hnodes; subst; eauto. Qed.
End transfer.

Ltac back Hn H := let n := fresh "m" in let Hm := fresh "Hm" in let HR := fresh "HR" in
  destruct (slots_back _ _ _ Hn _ _ H) as (n & Hm & HR).

Lemma placement_same a a' : same_frame a a' →
  (∀ j, option_Forall2 same_placement (nodes a !! j) (nodes a' !! j)) → placement_wf a → placement_wf a'.
Proof.
  intros (Hi & Hf & Hr) Hn [P1 P2 P3 P4 P5 P6 P7 P8 P9 P10 P11 P12].
  split; rewrite ?Hi, ?Hf, ?Hr; try done.
  - intros u i. rewrite P1. split; intros (Hu & n & Hj & Hun); (split; [done|]).
    + destruct (slots_forward _ _ _ Hn i n Hj) as (n' & ? & ? & _). exists n'. split; congruence.
    + back Hn Hj. destruct HR as (? & _). exists m. split; congruence.
  - intros i n Hj Hl. back Hn Hj. destruct HR as (Hu & -> & -> & _). apply (P2 i m); congruence.
  - intros i n p Hj Hp. back Hn Hj. destruct HR as (_ & Hpp & _). rewrite Hpp in Hp.
    destruct (P3 i m p Hm Hp) as (np & Hnp & Hin). destruct (slots_forward _ _ _ Hn p np Hnp) as (np' & ? & _ & _ & Hc & _).
    exists np'. by rewrite Hc.
  - intros i n c Hj Hc. back Hn Hj. destruct HR as (_ & _ & Hcc & _). rewrite Hcc in Hc.
    destruct (P4 i m c Hm Hc) as (nc & Hnc & Hp). destruct (slots_forward _ _ _ Hn c nc Hnc) as (nc' & ? & _ & Hpp & _).
    exists nc'. by rewrite Hpp.
  - intros i n Hj. back Hn Hj. destruct HR as (_ & _ & -> & _). by eapply P5.
  - intros i n Hj Hl Hp. back Hn Hj. destruct HR as (Hu & Hpp & _ & ->). apply (P6 i m); congruence.
  - intros i n p np Hj Hp Hnp. back Hn Hj. destruct HR as (_ & Hpp & _ & ->).
    back Hn Hnp. destruct HR as (_ & _ & _ & ->). apply (P7 i m p m0); congruence.
  - intros i Hj. destruct (P9 i Hj) as (n & Hi' & Hnil).
    destruct (slots_forward _ _ _ Hn i n Hi') as (n' & ? & Hu & _). exists n'. split; congruence.
  - intros r Hj. destruct (P10 r Hj) as (n & Hi' & Hnil).
    destruct (slots_forward _ _ _ Hn r n Hi') as (n' & ? & Hu & _). exists n'. split; congruence.
  - intros i n Hrt Hj. back Hn Hj. destruct HR as (-> & _). by eapply P11.
  - intros r i n Hrt Hj Hl Hp. back Hn Hj. destruct HR as (Hu & Hpp & _). apply (P12 r i m); congruence.
Qed.

Lemma sponsors_same a a' : root a' = root a →
  (∀ j, option_Forall2 same_sponsorship (nodes a !! j) (nodes a' !! j)) → sponsors_wf a → sponsors_wf a'.
Proof.
  intros Hr Hn [S1 S2 S3 S4 S5 S6]. split; rewrite ?Hr.
  - intros i n Hj Hl. back Hn Hj. destruct HR as (Hu & -> & ->). apply (S1 i m); congruence.
  - intros i n s Hj Hs. back Hn Hj. destruct HR as (_ & Hss & _). rewrite Hss in Hs.
    destruct (S2 i m s Hm Hs) as (ns & Hns & Hin). destruct (slots_forward _ _ _ Hn s ns Hns) as (ns' & ? & _ & _ & Hc).
    exists ns'. by rewrite Hc.
  - intros i n r Hj Hc. back Hn Hj. destruct HR as (_ & _ & Hcc). rewrite Hcc in Hc.
    destruct (S3 i m r Hm Hc) as (nr & Hnr & Hs). destruct (slots_forward _ _ _ Hn r nr Hnr) as (nr' & ? & _ & Hss & _).
    exists nr'. by rewrite Hss.
  - intros i n Hj. back Hn Hj. destruct HR as (_ & _ & ->). by eapply S4.
  - intros r n Hrt Hj. back Hn Hj. destruct HR as (_ & -> & _). by eapply S5.
  - intros i n Hj Hl. back Hn Hj. destruct HR as (Hu & _). rewrite Hu in Hl. specialize (S6 i m Hm Hl).
    clear -Hn S6. induction S6 as [i n Hi Hs|i n j Hi Hs _ IH];
      destruct (slots_forward _ _ _ Hn i n Hi) as (n' & Hn' & _ & Hss & _).
    + eapply chain_end; [exact Hn'|congruence].
    + eapply chain_step; [exact Hn'|rewrite Hss; exact Hs|exact IH].
Qed.

(** ** Dropping one sponsor edge *)

Definition orphan_update (idx s j : NodeIndex) (n : Node) : Node :=
  mkNode (user_id n) (parent n) (children n) (if decide (j = idx) then None else sponsor n)
    (if decide (j = s) then filter (λ c, c ≠ idx) (sponsored n) else sponsored n) (depth n) (enrolled_at n).

Lemma wf_orphan a a' idx n0 s : arena_wf a → nodes a !! idx = Some n0 → sponsor n0 = Some s →
  same_frame a a' → (∀ j, nodes a' !! j = orphan_update idx s j <$> nodes a !! j) → arena_wf a'.
Proof.
  intros Hwf Hn0 Hs0 Hf Hn. apply wf_halves in Hwf as [Hp Hsw]. apply wf_halves. split.
  { eapply placement_same; [exact Hf| |exact Hp]. intros j. rewrite Hn.
    destruct (nodes a !! j); constructor. done. }
  destruct Hf as (_ & _ & Hr). destruct Hsw as [S1 S2 S3 S4 S5 S6].
  assert (Hinv : ∀ j n, nodes a' !! j = Some n → ∃ m, nodes a !! j = Some m ∧ n = orphan_update idx s j m).
  { intros j n. rewrite Hn. by intros (m & -> & ->)%fmap_Some; eauto. }
  split; rewrite ?Hr.
  - intros i n (m & Hm & ->)%Hinv Hl. simpl in *. destruct (S1 i m Hm Hl) as [-> ->].
    by repeat case_decide.
  - intros i n r (m & Hm & ->)%Hinv. simpl. case_decide as Hi; [done|]. intros Hs.
    destruct (S2 i m r Hm Hs) as (ns & Hns & Hin). exists (orphan_update idx s r ns). rewrite Hn, Hns.
    split; [done|]. simpl. case_decide; [|done]. by apply list_elem_of_filter.
  - intros i n r (m & Hm & ->)%Hinv Hin. simpl in Hin.
    assert (r ∈ sponsored m ∧ r ≠ idx) as [Hin' Hne].
    { case_decide as Hi; [apply list_elem_of_filter in Hin; naive_solver|]. split; [done|]. intros ->.
      destruct (S3 i m idx Hm Hin) as (nr & ? & ?). congruence. }
    destruct (S3 i m r Hm Hin') as (nr & Hnr & Hs). exists (orphan_update idx s r nr). rewrite Hn, Hnr.
    split; [done|]. simpl. by rewrite decide_False.
  - intros i n (m & Hm & ->)%Hinv. simpl. case_decide; [apply NoDup_filter|]; by eapply S4.
  - intros r n Hrt (m & Hm & ->)%Hinv. simpl. case_decide; [done|by eapply S5].
  - intros i n (m & Hm & ->)%Hinv Hl. simpl in Hl. specialize (S6 i m Hm Hl).
    clear -S6 Hn. induction S6 as [i n Hi Hs|i n j Hi Hs _ IH].
    + eapply chain_end; [rewrite Hn, Hi; done|]. simpl. by case_decide.
    + destruct (decide (i = idx)) as [->|Hne].
      * eapply chain_end; [rewrite Hn, Hi; done|]. simpl. by rewrite decide_True.
      * eapply chain_step; [rewrite Hn, Hi; done| |exact IH]. simpl. by rewrite decide_False.
Qed.

(** ** A placement without a sponsor *)
Section place_orphan.
Context (a a1 : Arena) (idx : NodeIndex) (u : Uuid) (ip : NodeIndex) (np : Node) (at_ : Z).
Context (g : list NodeIndex → list NodeIndex).
Let new := mkNode u (Some ip) [] None [] (depth np + 1) at_.
Let new' := mkNode u (Some ip) [] (Some ip) [] (depth np + 1) at_.
Let a3 := with_nodes (alter (with_children g) ip) (with_index (λ m, <[u := idx]> m) a1).
Context (Hwf : arena_wf a) (Hal : allocated a a1 idx new).
Context (Hp : nodes a !! ip = Some np) (Hpl : user_id np ≠ nil_uuid).
Context (Hu : u ≠ nil_uuid) (Hnone : index a !! u = None) (Hd : (depth np + 1 ≤ u32_max)%N).
Context (Hg : ∃ l1 l2, children np = l1 ++ l2 ∧ g (children np) = l1 ++ idx :: l2).

(** The same placement with the parent as the sponsor, then cut. *)
Let a1' := with_nodes (alter (with_sponsor (Some ip)) idx) a1.

Lemma allocated_adopted : allocated a a1' idx new'.
Proof using Hal.
  destruct Hal as [H1 H2 H3 H4 H5]. split; try done. intros j. unfold a1'. simpl.
  rewrite lookup_alter_nodes, H2. by case_decide.
Qed.

Lemma place_adopted : ∃ a4, attach a a4 idx new' ip ip np np (g (children np)) ∧
  same_frame a4 a3 ∧ ∀ j, nodes a3 !! j = orphan_update idx ip j <$> nodes a4 !! j.
Proof using All.
  pose proof (place_attach a a1' idx u ip ip np np at_ g Hwf allocated_adopted Hp Hpl Hp Hpl Hu Hnone Hd Hg) as Hat.
  eexists. split; [exact Hat|]. split; [done|]. intros j.
  assert (Hne : ip ≠ idx) by (intros ->; by apply Hpl, (al_fresh _ _ _ _ Hal)).
  assert (Hfil : filter (λ c, c ≠ idx) (sponsored np ++ [idx]) = sponsored np).
  { rewrite filter_app, filter_cons_False, filter_nil, app_nil_r by naive_solver. apply filter_all_true, Forall_forall.
  intros x Hx ->. destruct (wf_recruit_live a Hwf ip np idx Hp Hx) as (nr & Hnr & _ & Hl).
  by apply Hl, (al_fresh _ _ _ _ Hal). }
  unfold a3, a1'. simpl. rewrite !lookup_alter_nodes, (al_nodes _ _ _ _ Hal).
  destruct (decide (j = idx)) as [->|Hj].
  - rewrite !decide_False by done. simpl. unfold orphan_update. simpl. by rewrite decide_True, decide_False.
  - destruct (decide (j = ip)) as [->|Hjp].
  + rewrite Hp. simpl. f_equal. unfold orphan_update. simpl. rewrite decide_False, decide_True, Hfil by done. done.
  + destruct (nodes a !! j) as [[]|]; [|done]. simpl. unfold orphan_update. simpl. by rewrite !decide_False.
Qed.
End place_orphan.

(** * Removing a set of nodes: [tree/arena.rs], [reparent_sponsored]

    When a set of nodes leaves, each recruit that stays passes to its heir: the
    first sponsor above it that stays. [reparent_set] gives the exact arena
    [reparent_sponsored] produces for any set the removability check accepts, and
    [wf_prune] shows that clearing a set closed under children then keeps the
    invariant. *)

(** The first sponsor above [i] outside the set. *)
Definition heir (a : Arena) (R : gset NodeIndex) (i : NodeIndex) : option NodeIndex :=
  match surviving_sponsor a i R with Ok t => t | _ => None end.

Lemma sponsored_by_trans a i j k : sponsored_by a i j → sponsored_by a j k → sponsored_by a i k.
Proof. induction 1; intros; eapply sponsored_up; eauto. Qed.

Section heirs.
Context (a : Arena) (Hwf : arena_wf a) (R : gset NodeIndex).
Implicit Type l : list NodeIndex.

Lemma surviving_path cur l bound : up_path a sponsor cur l → length l < bound →
  surviving_from a R bound cur = Ok (Some (head (filter (λ s, s ∉ R) l))).
Proof.
  intros Hup. revert bound. induction Hup as [|i n l Hi Hup IH]; intros bound Hb; (destruct bound as [|bound]; [lia|]);
  cbn [surviving_from]; [done|]. cbn in Hb. case_bool_decide as Hs.
  - by rewrite filter_cons_True.
  - rewrite filter_cons_False by naive_solver. rewrite (slot_ok a i n Hi). cbn [mbind outcome_bind]. apply IH. lia.
Qed.

Lemma surviving_heir i n : nodes a !! i = Some n → user_id n ≠ nil_uuid →
  ∃ l, up_path a sponsor (sponsor n) l ∧ surviving_sponsor a i R = Ok (heir a R i) ∧
  heir a R i = head (filter (λ s, s ∉ R) l).
Proof.
  intros Hi Hl. destruct (chain_path a i (wf_chain a Hwf i n Hi Hl)) as [l Hup].
  inversion Hup as [|i' n' l' Hi' Hup' Ei El]; subst. assert (n' = n) as -> by congruence.
  exists l. split; [done|]. pose proof (up_path_length _ _ _ _ Hup) as Hlen. cbn in Hlen.
  assert (Hs : surviving_sponsor a i R = Ok (head (filter (λ s, s ∉ R) l))).
  { unfold surviving_sponsor. rewrite (slot_ok a i n Hi). cbn [mbind outcome_bind].
  by rewrite (surviving_path (sponsor n) l (length (nodes a)) Hup' ltac:(lia)). }
  unfold heir. by rewrite Hs.
Qed.

Lemma heir_step i n : nodes a !! i = Some n → user_id n ≠ nil_uuid →
  heir a R i = match sponsor n with
           | None => None
           | Some s => if decide (s ∈ R) then heir a R s else Some s
           end.
Proof.
  intros Hi Hl. destruct (surviving_heir i n Hi Hl) as (l & Hup & _ & ->).
  destruct (sponsor n) as [s|] eqn:Hs; inversion Hup as [|s' ns l' Hns Hup' E1 E2]; subst; [|done].
  case_decide as Hin; [|by rewrite filter_cons_True].
  rewrite filter_cons_False by naive_solver.
  destruct (wf_sponsor_live a Hwf i n s Hi Hs) as (ns' & Hns' & _ & Hsl). assert (ns' = ns) as -> by congruence.
  destruct (surviving_heir s ns Hns Hsl) as (l2 & Hup2 & _ & ->). by rewrite (up_path_det _ _ _ _ _ Hup' Hup2).
Qed.

Lemma heir_live i n t : nodes a !! i = Some n → user_id n ≠ nil_uuid → heir a R i = Some t →
  (t ∉ R) ∧ live_at a t ∧ sponsored_by a i t.
Proof.
  intros Hi Hl. pose proof (wf_chain a Hwf i n Hi Hl) as Hc. revert n Hi Hl.
  induction Hc as [i n' Hi' Hs|i n' j Hi' Hs _ IH]; intros n Hi Hl; assert (n' = n) as -> by congruence;
  rewrite (heir_step i n Hi Hl), Hs; [done|].
  destruct (wf_sponsor_live a Hwf i n j Hi Hs) as (nj & Hnj & _ & Hjl). case_decide as Hin.
  - intros Ht. destruct (IH nj Hnj Hjl Ht) as (? & ? & ?). split_and!; [done..|]. by eapply sponsored_up.
  - intros [= <-]. split_and!; [done|by exists nj|by eapply sponsored_direct].
Qed.
End heirs.

(** ** [reparent_sponsored] on a set *)
Section reparent.
Context (a : Arena) (Hwf : arena_wf a) (L : list NodeIndex).
Abbreviation R := (list_to_set L : gset NodeIndex).

(** The recruits of [idx] that stay. *)
Definition stays (idx : NodeIndex) : list NodeIndex :=
  from_option (λ n, filter (λ s, s ∉ R) (sponsored n)) [] (nodes a !! idx).

(** What [j] inherits from the nodes of [K]. *)
Definition adopted (K : list NodeIndex) (j : NodeIndex) : list NodeIndex :=
  K ≫= λ idx, if decide (heir a R idx = Some j) then stays idx else [].

Definition uid_at (i : NodeIndex) : Uuid := from_option user_id nil_uuid (nodes a !! i).

(** The report, in removal order. *)
Definition handed (K : list NodeIndex) : list Responsored :=
  K ≫= λ idx, match heir a R idx with
          | Some t => (λ s, mkResponsored (uid_at s) (uid_at t)) <$> stays idx
          | None => []
          end.

(** The arena after the nodes of [K] have handed on their recruits. *)
Definition hand_on (K : list NodeIndex) (j : NodeIndex) (n : Node) : Node :=
  mkNode (user_id n) (parent n) (children n)
  (s ← sponsor n; if decide ((j ∉ R) ∧ s ∈ K) then heir a R j else Some s)
  ((if decide (j ∈ K) then [] else sponsored n) ++ adopted K j) (depth n) (enrolled_at n).

(** Every node of the set is live, and passes on what it has to somebody. *)
Context (Hlive : ∀ i, i ∈ L → live_at a i).
Context (Hheirs : ∀ i, i ∈ L → stays i ≠ [] → is_Some (heir a R i)).

Lemma stays_spec idx n r : nodes a !! idx = Some n → r ∈ stays idx ↔ r ∈ sponsored n ∧ (r ∉ L).
Proof.
  intros Hn. unfold stays. rewrite Hn. cbn. rewrite list_elem_of_filter, elem_of_list_to_set. naive_solver.
Qed.

Lemma adopted_not_removed K j r : (∀ i, i ∈ K → i ∈ L) → r ∈ adopted K j → j ∉ L.
Proof using Hlive Hwf.
  intros HK (idx & Hr & Hk)%list_elem_of_bind. case_decide as Hh; [|by apply elem_of_nil in Hr].
  destruct (Hlive idx (HK _ Hk)) as (n & Hn & Hl). destruct (heir_live a Hwf R idx n j Hn Hl Hh) as (Hj & _).
  by rewrite elem_of_list_to_set in Hj.
Qed.

Lemma adopted_removed K j : (∀ i, i ∈ K → i ∈ L) → j ∈ L → adopted K j = [].
Proof using Hlive Hwf. intros HK Hj. apply elem_of_nil_inv. intros r Hr. by eapply adopted_not_removed. Qed.

Lemma stays_nodup idx : NoDup (stays idx).
Proof using Hwf.
  unfold stays. destruct (nodes a !! idx) as [n|] eqn:Hn; cbn; [|constructor].
  apply NoDup_filter. by eapply wf_sponsored_nodup.
Qed.

(** The heir of a node is none of its own recruits. *)
Lemma heir_not_recruit idx t : idx ∈ L → heir a R idx = Some t → t ∉ stays idx.
Proof using Hlive Hwf.
  intros Hi Ht Hin. destruct (Hlive idx Hi) as (n & Hn & Hl).
  destruct (heir_live a Hwf R idx n t Hn Hl Ht) as (_ & _ & Hby).
  destruct (proj1 (stays_spec idx n t Hn) Hin) as [Hin' _]. destruct (wf_sponsored a Hwf idx n t Hn Hin') as (nt & Hnt & Hs).
  apply (chain_acyclic a idx (wf_chain a Hwf idx n Hn Hl)).
  eapply sponsored_by_trans; [exact Hby|]. by eapply sponsored_direct.
Qed.

Lemma hand_on_nil j n : hand_on [] j n = n.
Proof.
  unfold hand_on, adopted. rewrite (decide_False (P := j ∈ [])), app_nil_r by apply not_elem_of_nil.
  destruct n as [u p c [s|] sd d e]; [|done]. cbn. rewrite decide_False; [done|]. intros [_ Hs]. by apply elem_of_nil in Hs.
Qed.

(** Handing on from one node more. *)
Lemma hand_on_snoc K idx j n nj : (∀ i, i ∈ K → i ∈ L) → idx ∈ L → nodes a !! idx = Some n → nodes a !! j = Some nj →
  (if decide (j = idx) then with_sponsored (λ _, []) else id)
  (mkNode (user_id nj) (parent nj) (children nj)
  (if decide (j ∈ stays idx) then heir a R idx else sponsor (hand_on K j nj))
  (if decide (heir a R idx = Some j) then sponsored (hand_on K j nj) ++ stays idx else sponsored (hand_on K j nj))
  (depth nj) (enrolled_at nj)) = hand_on (K ++ [idx]) j nj.
Proof using Hwf Hlive Hheirs.
  intros HK Hidx Hn Hj.
  assert (Hsp : (if decide (j ∈ stays idx) then heir a R idx else sponsor (hand_on K j nj)) = sponsor (hand_on (K ++ [idx]) j nj)).
  { cbn. case_decide as Hst.
    - destruct (proj1 (stays_spec idx n j Hn) Hst) as [Hin Hout].
      destruct (wf_recruit_live a Hwf idx n j Hn Hin) as (nj' & Hj' & Hs & Hl). assert (nj' = nj) as -> by congruence.
      rewrite Hs. cbn. rewrite decide_True by set_solver.
      rewrite (heir_step a Hwf R j nj Hj Hl), Hs, decide_True by set_solver. done.
    - destruct (sponsor nj) as [s|] eqn:Hs; [|done]. cbn. apply decide_ext.
      rewrite elem_of_app, list_elem_of_singleton. split; [naive_solver|]. intros [Hr [?| ->]]; [done|].
      destruct (wf_sponsor a Hwf j nj idx Hj Hs) as (n' & Hn' & Hin). assert (n' = n) as -> by congruence.
      destruct Hst. apply (stays_spec idx n j Hn). split; [done|]. set_solver. }
  assert (Hrc : (if decide (j = idx) then [] else
    if decide (heir a R idx = Some j) then sponsored (hand_on K j nj) ++ stays idx else sponsored (hand_on K j nj)) =
    sponsored (hand_on (K ++ [idx]) j nj)).
  { cbn. destruct (decide (j = idx)) as [->|Hne].
    - rewrite decide_True by set_solver. by rewrite adopted_removed by set_solver.
    - unfold adopted. rewrite bind_app. cbn. rewrite (decide_ext (j ∈ K ++ [idx]) (j ∈ K)) by set_solver.
      destruct (decide (heir a R idx = Some j)); by rewrite ?app_nil_r, <- ?app_assoc, ?app_nil_r. }
  transitivity (mkNode (user_id nj) (parent nj) (children nj) (sponsor (hand_on (K ++ [idx]) j nj))
    (sponsored (hand_on (K ++ [idx]) j nj)) (depth nj) (enrolled_at nj)); [|done]. rewrite <- Hsp, <- Hrc. by destruct (decide (j = idx)).
Qed.

(** One step: [idx] hands on its recruits. *)
Lemma apply_step {E} K idx a1 mv : (∀ i, i ∈ K → i ∈ L) → idx ∈ L → idx ∉ K →
  same_frame a a1 → (∀ j, nodes a1 !! j = hand_on K j <$> nodes a !! j) →
  ∃ a2, @apply_removal E (a1, mv) (idx, stays idx, if decide (stays idx = []) then None else heir a R idx) =
  Ok (a2, mv ++ handed [idx]) ∧ same_frame a a2 ∧ (∀ j, nodes a2 !! j = hand_on (K ++ [idx]) j <$> nodes a !! j).
Proof using Hwf Hlive Hheirs.
  intros HK Hidx Hnew Hf Hn1. destruct (Hlive idx Hidx) as (n & Hn & Hl).
  assert (Hmove : ∃ a2, fold_outcome (@move_recruit E (if decide (stays idx = []) then None else heir a R idx)) (a1, mv) (stays idx) =
    Ok (a2, mv ++ handed [idx]) ∧ same_frame a a2 ∧ ∀ j, nodes a2 !! j = (λ m, mkNode (user_id m) (parent m) (children m)
    (if decide (j ∈ stays idx) then heir a R idx else sponsor m)
    (if decide (heir a R idx = Some j) then sponsored m ++ stays idx else sponsored m) (depth m) (enrolled_at m)) <$> nodes a1 !! j).
  { unfold handed. cbn [mbind list_bind]. rewrite app_nil_r. case_decide as Hst.
    - rewrite Hst. exists a1. cbn [fold_outcome fmap list_fmap]. split; [by destruct (heir a R idx); rewrite app_nil_r|].
      split; [done|]. intros j. destruct (nodes a1 !! j) as [[]|]; [|done]. cbn. rewrite (decide_False (P := j ∈ [])) by apply not_elem_of_nil.
      case_decide; by rewrite ?app_nil_r.
    - destruct (Hheirs idx Hidx Hst) as [t Ht]. rewrite Ht.
      destruct (heir_live a Hwf R idx n t Hn Hl Ht) as (Htr & (nt & Hnt & _) & _).
      destruct (move_recruits (E := E) t (hand_on K t nt) (stays idx) a1 mv) as (a2 & -> & Hf2 & Hn2).
      + apply stays_nodup.
      + by apply heir_not_recruit.
      + by rewrite Hn1, Hnt.
      + intros s Hs. destruct (proj1 (stays_spec idx n s Hn) Hs) as [Hs' _].
        destruct (wf_sponsored a Hwf idx n s Hn Hs') as (ns & Hns & _). rewrite Hn1, Hns. eauto.
      + exists a2. split_and!.
        * do 3 f_equal. apply list_fmap_ext. intros k s _. unfold uid_at. rewrite Hn1, Hnt. by destruct (nodes a !! s).
        * destruct Hf as (? & ? & ?), Hf2 as (? & ? & ?). split_and!; congruence.
        * intros j. rewrite Hn2. destruct (nodes a1 !! j); [|done]. cbn. unfold moved_update. do 2 f_equal.
          destruct (decide (j = t)), (decide (Some t = Some j)); congruence. }
  destruct Hmove as (a2 & Hrun & (F1 & F2 & F3) & Hn2). unfold apply_removal. rewrite Hrun. cbn [mbind outcome_bind].
  assert (Hs2 : is_Some (nodes a2 !! idx)) by (rewrite Hn2, Hn1, Hn; eauto). destruct Hs2 as [m Hm].
  rewrite (slot_ok a2 idx m Hm). cbn [mbind outcome_bind]. eexists. split; [done|]. split; [done|].
  intros j. cbn [nodes with_nodes]. rewrite lookup_alter_nodes, Hn2, Hn1.
  destruct (nodes a !! j) as [nj|] eqn:Hj; [|by destruct (decide (j = idx))].
  cbn [fmap option_fmap option_map]. rewrite <- (hand_on_snoc K idx j n nj HK Hidx Hn Hj). by destruct (decide (j = idx)).
Qed.

Lemma plan_one i : i ∈ L →
  plan_removal a R i = Ok (i, stays i, if decide (stays i = []) then None else heir a R i).
Proof using Hwf Hlive Hheirs.
  intros Hi. destruct (Hlive i Hi) as (n & Hn & Hl). destruct (surviving_heir a Hwf R i n Hn Hl) as (l & _ & Hs & _).
  unfold plan_removal, surviving_recruits, stays. rewrite (slot_ok a i n Hn), Hn. cbn [mbind outcome_bind from_option].
  destruct (filter _ (sponsored n)); [done|]. by rewrite Hs.
Qed.

Lemma apply_plan {E} M K a1 mv : K ++ M = L → NoDup L → same_frame a a1 →
  (∀ j, nodes a1 !! j = hand_on K j <$> nodes a !! j) →
  ∃ a2, fold_outcome (@apply_removal E) (a1, mv)
  ((λ i, (i, stays i, if decide (stays i = []) then None else heir a R i)) <$> M) = Ok (a2, mv ++ handed M) ∧
  same_frame a a2 ∧ (∀ j, nodes a2 !! j = hand_on L j <$> nodes a !! j).
Proof using Hwf Hlive Hheirs.
  revert K a1 mv. induction M as [|i M IH]; intros K a1 mv HL Hnd Hf Hn; cbn [fmap list_fmap fold_outcome].
  { exists a1. rewrite app_nil_r in *. subst. done. }
  assert (HK : ∀ x, x ∈ K ++ i :: M → x ∈ L) by (by rewrite HL).
  destruct (apply_step (E := E) K i a1 mv) as (a2 & -> & Hf2 & Hn2); try done.
  { intros x Hx. apply HK. set_solver. }
  { apply HK. set_solver. }
  { rewrite <- HL in Hnd. apply NoDup_app in Hnd as (_ & Hd & _). intros Hin. apply (Hd i Hin). left. }
  cbn [mbind outcome_bind]. destruct (IH (K ++ [i]) a2 (mv ++ handed [i])) as (a3 & -> & ? & ?); try done; [by rewrite <- app_assoc|].
  exists a3. split; [|done]. do 2 f_equal. rewrite <- app_assoc. f_equal. unfold handed. cbn. by rewrite app_nil_r.
Qed.

Lemma dedup_nodup (l : list NodeIndex) (s : gset NodeIndex) : NoDup l → (∀ x, x ∈ l → x ∉ s) → dedup_from s l = l.
Proof.
  revert s. induction l as [|x l IH]; intros s Hnd Hs; [done|]. apply NoDup_cons in Hnd as [Hx Hnd]. cbn [dedup_from].
  rewrite bool_decide_eq_false_2 by (apply Hs; left). f_equal. apply IH; [done|]. intros y Hy.
  rewrite not_elem_of_union, not_elem_of_singleton. split; [by intros ->|]. apply Hs. by right.
Qed.

(** [reparent_sponsored] on a set of live nodes. *)
Lemma reparent_set : NoDup L →
  ∃ a', reparent_sponsored a L = Ok (a', handed L) ∧ same_frame a a' ∧
  (∀ j, nodes a' !! j = hand_on L j <$> nodes a !! j).
Proof using Hwf Hlive Hheirs.
  intros Hnd. unfold reparent_sponsored. rewrite dedup_nodup by (done || (intros x _; apply not_elem_of_empty)).
  assert (Hplan : ∀ M, (∀ x, x ∈ M → x ∈ L) → map_outcome (plan_removal a R) M =
  Ok ((λ i, (i, stays i, if decide (stays i = []) then None else heir a R i)) <$> M)).
  { induction M as [|i M IH]; intros HM; [done|]. cbn [map_outcome fmap list_fmap]. rewrite plan_one by (apply HM; left).
  cbn [mbind outcome_bind]. rewrite IH by (intros x Hx; apply HM; by right). done. }
  rewrite Hplan by done. cbn [mbind outcome_bind].
  apply (apply_plan L [] a []); try done. intros j. destruct (nodes a !! j); [|done]. cbn. by rewrite hand_on_nil.
Qed.
End reparent.

(** What the removability check establishes. *)
Lemma removable_heirs a L : arena_wf a → (∀ i, i ∈ L → live_at a i) → check_sponsored_removable a L = Ok () →
  ∀ i, i ∈ L → stays a L i ≠ [] → is_Some (heir a (list_to_set L) i).
Proof.
  intros Hwf Hlive Hc i Hi Hst. unfold check_sponsored_removable in Hc. rewrite for_each_ok in Hc. specialize (Hc i Hi).
  cbv beta in Hc. destruct (Hlive i Hi) as (n & Hn & Hl). unfold surviving_recruits in Hc. rewrite !(slot_ok a i n Hn) in Hc.
  cbn [mbind outcome_bind] in Hc. unfold stays in Hst. rewrite Hn in Hst. cbn [from_option] in Hst.
  destruct (surviving_heir a Hwf (list_to_set L) i n Hn Hl) as (l & _ & Hs & _). rewrite Hs in Hc.
  destruct (filter _ (sponsored n)); [done|]. cbn [mbind outcome_bind] in Hc.
  destruct (heir a (list_to_set L) i); [eauto|done].
Qed.

(** ** Clearing the set *)

Definition prune_update (a : Arena) (L : list NodeIndex) (j : NodeIndex) (n : Node) : Node :=
  mkNode (user_id n) (parent n) (filter (λ c, c ∉ L) (children n)) (sponsor (hand_on a L L j n))
    (filter (λ c, c ∉ L) (sponsored (hand_on a L L j n))) (depth n) (enrolled_at n).

Record pruned (a a' : Arena) (L : list NodeIndex) : Prop := {
  pr_nodes j : nodes a' !! j = if decide (j ∈ L) then Some tombstone_node else prune_update a L j <$> nodes a !! j;
  pr_index u i : index a' !! u = Some i ↔ index a !! u = Some i ∧ (i ∉ L);
  pr_root : root a' = root a;
  pr_free : NoDup (free_list a') ∧ ∀ j, j ∈ free_list a' ↔ j ∈ free_list a ∨ j ∈ L;
}.

Section wf_prune.
Context (a a' : Arena) (L : list NodeIndex) (Hwf : arena_wf a) (Hpr : pruned a a' L).
Context (Hlive : ∀ i, i ∈ L → live_at a i).
Context (Hheirs : ∀ i, i ∈ L → stays a L i ≠ [] → is_Some (heir a (list_to_set L) i)).
(** The root stays. *)
Context (Hroot : ∀ i, i ∈ L → root a ≠ Some i).
Abbreviation R := (list_to_set L : gset NodeIndex).

Lemma prune_inv j n : nodes a' !! j = Some n →
  (j ∈ L ∧ n = tombstone_node) ∨ ((j ∉ L) ∧ ∃ m, nodes a !! j = Some m ∧ n = prune_update a L j m).
Proof. rewrite (pr_nodes _ _ _ Hpr). case_decide; [naive_solver|]. intros (m & -> & ->)%fmap_Some. eauto. Qed.

Lemma prune_old j m : nodes a !! j = Some m → j ∉ L → nodes a' !! j = Some (prune_update a L j m).
Proof. intros Hm Hj. by rewrite (pr_nodes _ _ _ Hpr), decide_False, Hm. Qed.

Lemma prune_sponsor j m : nodes a !! j = Some m → user_id m ≠ nil_uuid → j ∉ L →
  sponsor (prune_update a L j m) = heir a R j.
Proof using All.
  intros Hj Hl Hout. rewrite (heir_step a Hwf R j m Hj Hl). cbn. destruct (sponsor m) as [s|] eqn:Hs0; [|done]. cbn.
  destruct (decide (s ∈ R)) as [Hs|Hs]; rewrite elem_of_list_to_set in Hs.
  - rewrite decide_True by set_solver. by rewrite (heir_step a Hwf R j m Hj Hl), Hs0, decide_True by set_solver.
  - rewrite decide_False by naive_solver. done.
Qed.

Lemma prune_tomb j m : nodes a !! j = Some m → user_id m = nil_uuid →
  parent m = None ∧ children m = [] ∧ sponsor (hand_on a L L j m) = None ∧ sponsored (hand_on a L L j m) = [].
Proof using All.
  intros Hj Hl. destruct (wf_tomb a Hwf j m Hj Hl) as (H1 & H2 & H3 & H4). split_and!; [done..| |].
  - cbn. by rewrite H2.
  - cbn. rewrite H4. transitivity (adopted a L L j); [by destruct (decide (j ∈ L))|]. apply elem_of_nil_inv. intros r (idx & Hr & Hk)%list_elem_of_bind.
    case_decide as Hh; [|by apply elem_of_nil in Hr]. destruct (Hlive idx Hk) as (n & Hn & Hnl).
    destruct (heir_live a Hwf R idx n j Hn Hnl Hh) as (_ & (m' & ? & ?) & _). congruence.
Qed.

Lemma prune_recruit_iff j m r : nodes a !! j = Some m → user_id m ≠ nil_uuid → j ∉ L →
  r ∈ sponsored (prune_update a L j m) ↔ (r ∉ L) ∧ ∃ nr, nodes a !! r = Some nr ∧ user_id nr ≠ nil_uuid ∧ heir a R r = Some j.
Proof using All.
  intros Hj Hl Hout. cbn. rewrite list_elem_of_filter, decide_False, elem_of_app by done. split; intros [Hr H]; (split; [done|]).
  - destruct H as [Hin|(idx & Hin & Hk)%list_elem_of_bind].
    + destruct (wf_recruit_live a Hwf j m r Hj Hin) as (nr & Hnr & Hs & Hrl). exists nr. split_and!; [done..|].
      rewrite (heir_step a Hwf R r nr Hnr Hrl), Hs, decide_False; [done|]. by rewrite elem_of_list_to_set.
    + case_decide as Hh; [|by apply elem_of_nil in Hin]. destruct (Hlive idx Hk) as (n & Hn & Hnl).
      destruct (proj1 (stays_spec a L idx n r Hn) Hin) as [Hin' _].
      destruct (wf_recruit_live a Hwf idx n r Hn Hin') as (nr & Hnr & Hs & Hrl). exists nr. split_and!; [done..|].
      rewrite (heir_step a Hwf R r nr Hnr Hrl), Hs, decide_True; [done|]. by rewrite elem_of_list_to_set.
  - destruct H as (nr & Hnr & Hrl & Hh). rewrite (heir_step a Hwf R r nr Hnr Hrl) in Hh.
    destruct (sponsor nr) as [s|] eqn:Hs; [|done]. destruct (wf_sponsor a Hwf r nr s Hnr Hs) as (ns & Hns & Hin).
    case_decide as Hsr; rewrite elem_of_list_to_set in Hsr.
    + right. apply list_elem_of_bind. exists s. split; [|done]. rewrite decide_True by done. by apply (stays_spec a L s ns r Hns).
    + left. simplify_eq. done.
Qed.

Lemma prune_chain i : chain_ends a i → live_at a i →
  ((i ∉ L) → chain_ends a' i) ∧ (i ∈ L → ∀ s, heir a R i = Some s → chain_ends a' s).
Proof using All.
  induction 1 as [i n Hi Hs|i n j Hi Hs _ IH]; intros (n' & Hi' & Hl); assert (n' = n) as -> by congruence.
  - split; [|intros _ s; rewrite (heir_step a Hwf R i n Hi Hl), Hs; done].
    intros Hout. eapply chain_end; [by apply prune_old|]. rewrite prune_sponsor by done.
    by rewrite (heir_step a Hwf R i n Hi Hl), Hs.
  - destruct (wf_sponsor_live a Hwf i n j Hi Hs) as (nj & Hnj & _ & Hjl). destruct IH as [IH1 IH2]; [by exists nj|].
    assert (Hcase : ∀ s, heir a R i = Some s → chain_ends a' s).
    { intros s. rewrite (heir_step a Hwf R i n Hi Hl), Hs. case_decide as Hj; rewrite elem_of_list_to_set in Hj; [by apply IH2|].
      intros [= <-]. by apply IH1. }
    split; [|done]. intros Hout. destruct (heir a R i) as [s|] eqn:Hh.
    + eapply chain_step; [by apply prune_old|by rewrite prune_sponsor|by apply Hcase].
    + eapply chain_end; [by apply prune_old|by rewrite prune_sponsor].
Qed.

Lemma adopted_nodup j : NoDup L → NoDup (adopted a L L j).
Proof using All.
  intros HL. unfold adopted. assert (HM : ∀ M, (∀ x, x ∈ M → x ∈ L) → NoDup M →
    NoDup (M ≫= λ idx, if decide (heir a R idx = Some j) then stays a L idx else [])); [|by apply HM].
  induction M as [|i M IH]; intros Hsub Hnd; [constructor|]. apply NoDup_cons in Hnd as [Hi Hnd].
  rewrite bind_cons. apply NoDup_app. split_and!.
  - case_decide; [by apply stays_nodup|constructor].
  - intros r Hr (k & Hr' & Hk)%list_elem_of_bind. destruct (decide (heir a R i = Some j)); [|by apply elem_of_nil in Hr].
    destruct (decide (heir a R k = Some j)); [|by apply elem_of_nil in Hr'].
    destruct (Hlive i (Hsub i ltac:(left))) as (ni & Hni & _). destruct (Hlive k (Hsub k ltac:(by right))) as (nk & Hnk & _).
    destruct (proj1 (stays_spec a L i ni r Hni) Hr) as [H1 _]. destruct (proj1 (stays_spec a L k nk r Hnk) Hr') as [H2 _].
    destruct (wf_sponsored a Hwf i ni r Hni H1) as (nr & ? & ?). destruct (wf_sponsored a Hwf k nk r Hnk H2) as (nr' & ? & ?).
    assert (i = k) as -> by congruence. done.
  - apply IH; [|done]. intros x Hx. apply Hsub. by right.
Qed.

Lemma prune_sponsors : NoDup L → sponsors_wf a'.
Proof using All.
  intros HL.
  assert (Hnil : ∀ i m, nodes a !! i = Some m → user_id m = nil_uuid ∨ user_id m ≠ nil_uuid)
    by (intros i m _; destruct (decide (user_id m = nil_uuid)); auto).
  assert (Hout' : ∀ i m s, nodes a !! i = Some m → user_id m ≠ nil_uuid → heir a R i = Some s → (s ∉ L) ∧ live_at a s).
  { intros i m s Hm Hl Hh. destruct (heir_live a Hwf R i m s Hm Hl Hh) as (Hs & ? & _). by rewrite elem_of_list_to_set in Hs. }
  split.
  - intros i n [[_ ->]|(Hout & m & Hm & ->)]%prune_inv Hl; [done|]. destruct (prune_tomb i m Hm Hl) as (_ & _ & H1 & H2).
    unfold prune_update. cbn [sponsor sponsored]. by rewrite H1, H2.
  - intros i n s [[_ ->]|(Hout & m & Hm & ->)]%prune_inv Hs; [done|]. destruct (Hnil i m Hm) as [Hl|Hl].
    { destruct (prune_tomb i m Hm Hl) as (_ & _ & H1 & _). cbn in Hs, H1. congruence. }
    rewrite prune_sponsor in Hs by done. destruct (Hout' i m s Hm Hl Hs) as (Hso & ns & Hns & Hsl).
    eexists. split; [by apply prune_old|]. apply prune_recruit_iff; eauto 10.
  - intros i n r [[_ ->]|(Hout & m & Hm & ->)]%prune_inv Hr; [by apply elem_of_nil in Hr|]. destruct (Hnil i m Hm) as [Hl|Hl].
    { destruct (prune_tomb i m Hm Hl) as (_ & _ & _ & H2). unfold prune_update in Hr. cbn [sponsored] in Hr. rewrite H2 in Hr. by apply elem_of_nil in Hr. }
    apply prune_recruit_iff in Hr as (Hro & nr & Hnr & Hrl & Hh); [|done..].
    eexists. split; [by apply prune_old|]. by rewrite prune_sponsor.
  - intros i n [[_ ->]|(Hout & m & Hm & ->)]%prune_inv; [constructor|]. cbn. rewrite decide_False by done.
    apply NoDup_filter, NoDup_app. split_and!; [by eapply wf_sponsored_nodup| |by apply adopted_nodup].
    intros r Hr (k & Hr' & Hk)%list_elem_of_bind. case_decide; [|by apply elem_of_nil in Hr'].
    destruct (Hlive k Hk) as (nk & Hnk & _). destruct (proj1 (stays_spec a L k nk r Hnk) Hr') as [H2 _].
    destruct (wf_sponsored a Hwf i m r Hm Hr) as (nr & ? & ?). destruct (wf_sponsored a Hwf k nk r Hnk H2) as (nr' & ? & ?).
    assert (i = k) as -> by congruence. done.
  - rewrite (pr_root _ _ _ Hpr). intros r n Hr [[HrL _]|(Hout & m & Hm & ->)]%prune_inv; [by destruct (Hroot r HrL)|].
    destruct (wf_root_live a Hwf r Hr) as (m' & Hm' & Hl & Hs). assert (m' = m) as -> by congruence.
    rewrite prune_sponsor by done. by rewrite (heir_step a Hwf R r m Hm Hl), Hs.
  - intros i n [[_ ->]|(Hout & m & Hm & ->)]%prune_inv Hl; [done|].
    destruct (prune_chain i (wf_chain a Hwf i m Hm Hl)) as [Hc _]; [by exists m|by apply Hc].
Qed.

(** The set holds the whole subtree of each of its nodes. *)
Context (Hclosed : ∀ i n c, i ∈ L → nodes a !! i = Some n → c ∈ children n → c ∈ L).

Lemma prune_placement : placement_wf a'.
Proof using All.
  split.
  - intros u i. rewrite (pr_index _ _ _ Hpr), (wf_index a Hwf). split.
    + intros ((Hu & n & Hn & <-) & Hout). split; [done|]. eexists. split; [by apply prune_old|done].
    + intros (Hu & n & [[_ ->]|(Hout & m & Hm & ->)]%prune_inv & Hun); [done|]. split; [|done]. split; [done|]. eauto.
  - intros i n [[_ ->]|(Hout & m & Hm & ->)]%prune_inv Hl; [done|]. cbn in *.
    destruct (wf_tomb a Hwf i m Hm Hl) as (-> & _ & -> & _). done.
  - intros i n p [[_ ->]|(Hout & m & Hm & ->)]%prune_inv Hp; [done|]. cbn in Hp.
    destruct (wf_parent a Hwf i m p Hm Hp) as (np & Hnp & Hin).
    assert (p ∉ L) as Hpo by (intros HpL; by eapply Hout, Hclosed).
    eexists. split; [by apply prune_old|]. cbn. by apply list_elem_of_filter.
  - intros i n c [[_ ->]|(Hout & m & Hm & ->)]%prune_inv Hc; [by apply elem_of_nil in Hc|]. cbn in Hc.
    apply list_elem_of_filter in Hc as [Hco Hc]. destruct (wf_children a Hwf i m c Hm Hc) as (nc & Hnc & Hp).
    eexists. split; [by apply prune_old|done].
  - intros i n [[_ ->]|(Hout & m & Hm & ->)]%prune_inv; [constructor|]. cbn. apply NoDup_filter. by eapply wf_children_nodup.
  - intros i n [[_ ->]|(Hout & m & Hm & ->)]%prune_inv Hl Hp; [done|]. by eapply (wf_depth_root a Hwf i m).
  - intros i n p np [[_ ->]|(Hout & m & Hm & ->)]%prune_inv Hp Hnp; [done|]. cbn in Hp.
    destruct (wf_parent_live a Hwf i m p Hm Hp) as (np' & Hnp' & Hin & Hpl).
    apply prune_inv in Hnp as [[HpL ->]|(_ & mp & Hmp & ->)]; [by destruct Hout; eapply Hclosed|]. cbn. by eapply (wf_depth a Hwf).
  - apply (pr_free _ _ _ Hpr).
  - intros i [Hi|Hi]%(pr_free _ _ _ Hpr); [|exists tombstone_node; by rewrite (pr_nodes _ _ _ Hpr), decide_True].
    destruct (wf_free a Hwf i Hi) as (n & Hn & Hnil). destruct (decide (i ∈ L)) as [HiL|HiL].
    + exists tombstone_node. by rewrite (pr_nodes _ _ _ Hpr), decide_True.
    + eexists. split; [by apply prune_old|done].
  - rewrite (pr_root _ _ _ Hpr). intros r Hr. destruct (wf_root_live a Hwf r Hr) as (n & Hn & Hl & _).
    eexists. split; [apply prune_old; [exact Hn|]|done]. intros HrL. by eapply Hroot.
  - rewrite (pr_root _ _ _ Hpr). intros i n Hr [[_ ->]|(Hout & m & Hm & ->)]%prune_inv; [done|]. exact (wf_rootless a Hwf i m Hr Hm).
  - rewrite (pr_root _ _ _ Hpr). intros r i n Hr [[_ ->]|(Hout & m & Hm & ->)]%prune_inv Hl Hp; [done|]. exact (wf_root_unique a Hwf r i m Hr Hm Hl Hp).
Qed.

Lemma wf_prune : NoDup L → arena_wf a'.
Proof using All. intros HL. apply wf_halves. split; [apply prune_placement|by apply prune_sponsors]. Qed.
End wf_prune.
