(* ===== verification/Matrix.v ===== *)
(** * The matrix tree: [tree/matrix.rs]

    An arena plus [width] child slots per node and a holding tank. A placement
    goes to an explicit slot or to the first free slot breadth first under the
    sponsor; a removal promotes the earliest-enrolled child or moves the whole
    subtree to the tank. This file translates it; MatrixSpec.v proves what it
    does. A width is the [u8] of the source. The loops over a queue run on the
    arena's size as fuel. *)

From stdpp Require Import base numbers list gmap strings.
From Stdlib Require Import ZArith Lia.
From S2P Require Import Prelude TreeTypes Arena ArenaCheck Binary.

Module Matrix.

Record HoldingTankEntry := mkEntry {
  he_user_id : Uuid;
  he_sponsor_user_id : option Uuid;
  he_enrolled_at : Z;
}.

Record Relocation := mkRelocation {
  rl_user_id : Uuid;
  rl_parent_id : Uuid;
  rl_position : nat;
  rl_depth : N;
}.

Record RemovalResult := mkRemoval {
  removed : Uuid;
  promoted : option Uuid;
  repositioned : list Uuid;
  moved_to_tank : list Uuid;
  relocated : list Relocation;
  responsored : list Responsored;
}.

Record MatrixTree := mkMatrix {
  arena : Arena;
  width : N;
  spillover : SpilloverDirection;
  slots : gmap NodeIndex (list (option NodeIndex));
  holding_tank : list HoldingTankEntry;
}.

Definition with_arena (t : MatrixTree) (a : Arena) : MatrixTree :=
  mkMatrix a (width t) (spillover t) (slots t) (holding_tank t).
Definition with_slots (t : MatrixTree) (sl : gmap NodeIndex (list (option NodeIndex))) : MatrixTree :=
  mkMatrix (arena t) (width t) (spillover t) sl (holding_tank t).
Definition with_tank (t : MatrixTree) (k : list HoldingTankEntry) : MatrixTree :=
  mkMatrix (arena t) (width t) (spillover t) (slots t) k.

Definition new (width : N) (spillover : SpilloverDirection) : outcome TreeError MatrixTree :=
  refuse_if (width <? 2)%N (InvalidWidth width);;
  refuse_if (bool_decide (spillover = DepthFirst)) UnsupportedSpillover;;
  Ok (mkMatrix arena_new width spillover ∅ []).

(** ** Restoring *)

Definition width_fault (t : MatrixTree) (parent : NodeIndex) (children : list (option NodeIndex))
  : option SnapshotConsistencyError :=
  if bool_decide (length children ≠ N.to_nat (width t))
  then Some (ChildSlotWidthMismatch parent (length children) (width t)) else None.

Definition in_tank (t : MatrixTree) (u : Uuid) : bool :=
  existsb (λ e, bool_decide (he_user_id e = u)) (holding_tank t).

Definition check_listed (listed : gset Uuid) (e : HoldingTankEntry) : outcome SnapshotConsistencyError (gset Uuid) :=
  refuse_if (bool_decide (he_user_id e ∈ listed)) (HoldingTankUserRepeated (he_user_id e));;
  Ok ({[he_user_id e]} ∪ listed).

Definition position_of (t : MatrixTree) : gmap Uuid nat :=
  foldl (λ m '(position, e), <[he_user_id e := position]> m) ∅ (enumerate (holding_tank t)).

(** The [while let] loop over one chain. *)
Fixpoint tank_walk (fuel : nat) (t : MatrixTree) (start : Uuid) (visits : list Visit) (walk : list nat)
  (current : option nat) : outcome SnapshotConsistencyError (list Visit * list nat) :=
  match fuel with
  | O => Hang
  | S fuel' =>
    match current with
    | None => Ok (visits, walk)
    | Some position =>
        v ← expect (visits !! position);
        match v with
        | Done => Ok (visits, walk)
        | OnWalk =>
            e ← expect (holding_tank t !! position);
            Err (HoldingTankSponsorChainRevisits start (he_user_id e))
        | Unseen =>
            e ← expect (holding_tank t !! position);
            tank_walk fuel' t start (<[position := OnWalk]> visits) (walk ++ [position])
              (s ← he_sponsor_user_id e; position_of t !! s)
        end
    end
  end.

Definition check_tank_chain (t : MatrixTree) (visits : list Visit) (e : nat * HoldingTankEntry)
  : outcome SnapshotConsistencyError (list Visit) :=
  let '(start, entry) := e in
  v ← expect (visits !! start);
  match v with
  | Done => Ok visits
  | _ =>
    '(visits, walk) ← tank_walk (S (length (holding_tank t))) t (he_user_id entry) visits [] (Some start);
    Ok (foldl (λ vs position, <[position := Done]> vs) visits walk)
  end.

Definition check_tank_sponsor_chains_end (t : MatrixTree) : check_result :=
  _ ← fold_outcome (check_tank_chain t) (replicate (length (holding_tank t)) Unseen) (enumerate (holding_tank t));
  Ok ().

Definition validate_restored (t : MatrixTree) : check_result :=
  refuse_if (width t <? 2)%N (MatrixWidthTooSmall (width t));;
  refuse_if (bool_decide (spillover t = DepthFirst)) MatrixSpilloverUnsupported;;
  ArenaCheck.validate_restored (arena t);;
  check_slot_entries id (width_fault t) (arena t) (slots t);;
  for_each (λ '(position, e), refuse_if (is_nil (he_user_id e)) (HoldingTankUserNil position))
  (enumerate (holding_tank t));;
  for_each (λ '(position, e), refuse_if (bool_decide (he_sponsor_user_id e = Some nil_uuid)) (HoldingTankSponsorNil position))
  (enumerate (holding_tank t));;
  for_each (λ e, match index (arena t) !! he_user_id e with
               | Some idx => Err (HoldingTankUserPlaced (he_user_id e) idx)
               | None => Ok ()
               end) (holding_tank t);;
  _ ← fold_outcome check_listed ∅ (holding_tank t);
  check_tank_sponsor_chains_end t;;
  check_every_live_node_has_a_slot (arena t) (slots t);;
  check_every_live_node_is_slotted_once id (arena t) (slots t);;
  check_children_match_slots id (arena t) (slots t).

(** ** Placement *)

Definition check_add_root (t : MatrixTree) (u : Uuid) : outcome TreeError unit :=
  check_user_id u;;
  refuse_if (bool_decide (is_Some (root (arena t)))) RootAlreadyExists;;
  refuse_if (bool_decide (is_Some (index (arena t) !! u))) (UserAlreadyExists u);;
  refuse_if (in_tank t u) (UserInHoldingTank u).

Definition empty_slots (t : MatrixTree) : list (option NodeIndex) := replicate (N.to_nat (width t)) None.

Definition add_root (t : MatrixTree) (u : Uuid) (at_ : Z) : outcome TreeError (MatrixTree * NodeIndex) :=
  check_add_root t u;;
  '(a, idx) ← alloc_slot (arena t) (mkNode u None [] None [] 0 at_);
  let a := with_index (λ m, <[u := idx]> m) a in
  let a := with_root (Some idx) a in
  Ok (with_slots (with_arena t a) (<[idx := empty_slots t]> (slots t)), idx).

Definition rebuild_children {E} (t : MatrixTree) (parent_idx : NodeIndex) : outcome E MatrixTree :=
  s ← expect (slots t !! parent_idx);
  a ← node_mut (arena t) parent_idx (with_children (λ _, omap id s));
  Ok (with_arena t a).

(** [slots.get_mut(&idx).expect(..)[pos] = x]. *)
Definition set_slot {E} (t : MatrixTree) (idx : NodeIndex) (pos : nat) (x : option NodeIndex) : outcome E MatrixTree :=
  s ← expect (slots t !! idx);
  _ ← expect (s !! pos);
  Ok (with_slots t (<[idx := <[pos := x]> s]> (slots t))).

Definition check_add_node_at (t : MatrixTree) (u sponsor_id parent_id : Uuid) (position : nat)
  : outcome TreeError unit :=
  check_user_id u;;
  refuse_if (bool_decide (root (arena t) = None)) TreeEmpty;;
  refuse_if (N.to_nat (width t) <=? position)%nat (PositionOutOfRange parent_id position (N.to_nat (width t)));;
  refuse_if (bool_decide (is_Some (index (arena t) !! u))) (UserAlreadyExists u);;
  refuse_if (in_tank t u) (UserInHoldingTank u);;
  parent_idx ← resolve (arena t) parent_id;
  _ ← map_err sponsor_error (resolve (arena t) sponsor_id);
  parent_slots ← expect (slots t !! parent_idx);
  s ← expect (parent_slots !! position);
  refuse_if (bool_decide (is_Some s)) (PositionOccupied parent_id position).

(** The tail every placement ends with: allocate, index, slot, link to the sponsor. *)
Definition place (t : MatrixTree) (u : Uuid) (parent_idx : NodeIndex) (position : nat)
  (sponsor_idx : option NodeIndex) (at_ : Z) : outcome TreeError (MatrixTree * NodeIndex) :=
  np ← node (arena t) parent_idx;
  d ← u32_add (depth np) 1;
  '(a, idx) ← alloc_slot (arena t) (mkNode u (Some parent_idx) [] sponsor_idx [] d at_);
  let a := with_index (λ m, <[u := idx]> m) a in
  let t := with_slots (with_arena t a) (<[idx := empty_slots t]> (slots t)) in
  t ← set_slot t parent_idx position (Some idx);
  t ← rebuild_children t parent_idx;
  a ← match sponsor_idx with
    | Some s => node_mut (arena t) s (with_sponsored (λ l, l ++ [idx]))
    | None => Ok (arena t)
    end;
  Ok (with_arena t a, idx).

Definition add_node_at (t : MatrixTree) (u sponsor_id parent_id : Uuid) (position : nat) (at_ : Z)
  : outcome TreeError (MatrixTree * NodeIndex) :=
  check_add_node_at t u sponsor_id parent_id position;;
  parent_idx ← resolve (arena t) parent_id;
  sponsor_idx ← resolve (arena t) sponsor_id;
  place t u parent_idx position (Some sponsor_idx) at_.

(** The first empty slot of a node. *)
Definition first_free (s : list (option NodeIndex)) : option nat := fst <$> list_find (λ o, o = None) s.

Fixpoint spillover_loop {E} (fuel : nat) (t : MatrixTree) (queue : list NodeIndex)
  : outcome E (option (NodeIndex * nat)) :=
  match fuel with
  | O => Hang
  | S fuel' =>
    match queue with
    | [] => Ok None
    | current :: queue' =>
        s ← expect (slots t !! current);
        match first_free s with
        | Some pos => Ok (Some (current, pos))
        | None => spillover_loop fuel' t (queue' ++ omap id s)
        end
    end
  end.

Definition find_spillover_slot {E} (t : MatrixTree) (start_idx : NodeIndex) : outcome E (option (NodeIndex * nat)) :=
  spillover_loop (loop_fuel (arena t)) t [start_idx].

Definition add_node (t : MatrixTree) (u sponsor_id : Uuid) (at_ : Z) : outcome TreeError (MatrixTree * NodeIndex) :=
  check_user_id u;;
  refuse_if (bool_decide (root (arena t) = None)) TreeEmpty;;
  refuse_if (bool_decide (is_Some (index (arena t) !! u))) (UserAlreadyExists u);;
  refuse_if (in_tank t u) (UserInHoldingTank u);;
  sponsor_idx ← map_err sponsor_error (resolve (arena t) sponsor_id);
  found ← find_spillover_slot t sponsor_idx;
  '(parent_idx, position) ← ok_or found (SubtreeFull sponsor_id);
  place t u parent_idx position (Some sponsor_idx) at_.

(** ** Removal *)

Fixpoint descendants_loop {E} (fuel : nat) (a : Arena) (queue found : list NodeIndex) : outcome E (list NodeIndex) :=
  match fuel with
  | O => Hang
  | S fuel' =>
    match queue with
    | [] => Ok found
    | current :: queue' =>
        n ← node a current;
        descendants_loop fuel' a (queue' ++ children n) (found ++ [current])
    end
  end.

Definition descendants {E} (t : MatrixTree) (idx : NodeIndex) : outcome E (list NodeIndex) :=
  n ← node (arena t) idx;
  descendants_loop (loop_fuel (arena t)) (arena t) (children n) [].

Definition removal_set {E} (t : MatrixTree) (idx : NodeIndex) (mode : PruningMode) : outcome E (list NodeIndex) :=
  match mode with
  | PromoteEarliest => Ok [idx]
  | HoldingTank => ds ← descendants t idx; Ok (idx :: ds)
  end.

Definition check_remove_node (t : MatrixTree) (u : Uuid) (mode : PruningMode) : outcome TreeError unit :=
  idx ← resolve (arena t) u;
  refuse_if (bool_decide (root (arena t) = Some idx)) CannotRemoveRoot;;
  set ← removal_set t idx mode;
  check_sponsored_removable (arena t) set.

Definition find_slot_position {E} (t : MatrixTree) (parent_idx child_idx : NodeIndex) : outcome E nat :=
  s ← expect (slots t !! parent_idx);
  expect (fst <$> list_find (λ o, o = Some child_idx) s).

Definition detach_and_tombstone (t : MatrixTree) (idx : NodeIndex) (u : Uuid) (parent_idx : NodeIndex) (pos : nat)
  : outcome TreeError (MatrixTree * list Responsored) :=
  t ← set_slot t parent_idx pos None;
  t ← rebuild_children t parent_idx;
  n ← node (arena t) idx;
  a ← match sponsor n with
    | Some s => node_mut (arena t) s (with_sponsored (filter (λ c, c ≠ idx)))
    | None => Ok (arena t)
    end;
  '(a, moved) ← reparent_sponsored a [idx];
  let a := with_index (delete u) a in
  a ← tombstone a idx;
  Ok (with_slots (with_arena t a) (delete idx (slots t)), moved).

(** [min_by_key]: the first of the children with the least key. *)
Definition earlier {E} (a : Arena) (held : option (NodeIndex * Z)) (c : NodeIndex) : outcome E (option (NodeIndex * Z)) :=
  n ← node a c;
  Ok match held with
   | Some (_, k) => if (enrolled_at n <? k)%Z then Some (c, enrolled_at n) else held
   | None => Some (c, enrolled_at n)
   end.

Definition placement_of {E} (t : MatrixTree) (idx : NodeIndex) : outcome E (Uuid * nat * N) :=
  n ← node (arena t) idx;
  parent_idx ← expect (parent n);
  position ← find_slot_position t parent_idx idx;
  np ← node (arena t) parent_idx;
  Ok (user_id np, position mod 256, depth n).

Fixpoint depths_loop {E} (fuel : nat) (a : Arena) (queue : list NodeIndex) : outcome E Arena :=
  match fuel with
  | O => Hang
  | S fuel' =>
    match queue with
    | [] => Ok a
    | current :: queue' =>
        n ← node a current;
        a ← fold_outcome (λ a c, d ← u32_add (depth n) 1; node_mut a c (with_depth d)) a (children n);
        depths_loop fuel' a (queue' ++ children n)
    end
  end.

Definition recalculate_depths {E} (t : MatrixTree) (start_idx : NodeIndex) : outcome E MatrixTree :=
  n ← node (arena t) start_idx;
  parent_depth ← match parent n with
               | Some p => np ← node (arena t) p; Ok (depth np)
               | None => Ok 0%N
               end;
  d ← match parent n with Some _ => u32_add parent_depth 1 | None => Ok 0%N end;
  a ← node_mut (arena t) start_idx (with_depth d);
  a ← depths_loop (loop_fuel a) a [start_idx];
  Ok (with_arena t a).

Fixpoint relocations_loop {E} (fuel : nat) (t : MatrixTree) (before : gmap NodeIndex (Uuid * nat * N))
  (queue : list NodeIndex) (moved : list Relocation) : outcome E (list Relocation) :=
  match fuel with
  | O => Hang
  | S fuel' =>
    match queue with
    | [] => Ok moved
    | current :: queue' =>
        now ← placement_of t current;
        n ← node (arena t) current;
        let moved := if bool_decide (before !! current ≠ Some now)
                     then moved ++ [mkRelocation (user_id n) now.1.1 now.1.2 now.2] else moved in
        s ← expect (slots t !! current);
        relocations_loop fuel' t before (queue' ++ omap id s) moved
    end
  end.

Definition relocations_from {E} (t : MatrixTree) (start : NodeIndex) (before : gmap NodeIndex (Uuid * nat * N))
  : outcome E (list Relocation) :=
  relocations_loop (loop_fuel (arena t)) t before [start] [].

(** A remaining child goes to a free slot of the promoted node, or else to the
    first free slot under it. *)
Definition reposition (promoted_idx : NodeIndex) (promoted_user_id : Uuid) (st : MatrixTree * list Uuid)
  (child : NodeIndex) : outcome TreeError (MatrixTree * list Uuid) :=
  let '(t, ids) := st in
  s ← expect (slots t !! promoted_idx);
  t ← match first_free s with
    | Some slot_pos =>
        t ← set_slot t promoted_idx slot_pos (Some child);
        a ← node_mut (arena t) child (with_parent (Some promoted_idx));
        Ok (with_arena t a)
    | None =>
        found ← find_spillover_slot t promoted_idx;
        '(target_parent, target_pos) ← ok_or found (SubtreeFull promoted_user_id);
        t ← set_slot t target_parent target_pos (Some child);
        t ← rebuild_children t target_parent;
        a ← node_mut (arena t) child (with_parent (Some target_parent));
        Ok (with_arena t a)
    end;
  n ← node (arena t) child;
  Ok (t, ids ++ [user_id n]).

Definition remove_promote_earliest (t : MatrixTree) (idx : NodeIndex) (u : Uuid)
  : outcome TreeError (MatrixTree * RemovalResult) :=
  n ← node (arena t) idx;
  parent_idx ← expect (parent n);
  parent_slot_pos ← find_slot_position t parent_idx idx;
  child_slots ← expect (slots t !! idx);
  let occupied_children := omap id child_slots in
  if bool_decide (occupied_children = []) then
  '(t, moved) ← detach_and_tombstone t idx u parent_idx parent_slot_pos;
  Ok (t, mkRemoval u None [] [] [] moved)
  else
  earliest ← fold_outcome (earlier (arena t)) None occupied_children;
  '(promoted_idx, _) ← expect earliest;
  np ← node (arena t) promoted_idx;
  let promoted_user_id := user_id np in
  let remaining := filter (λ c, c ≠ promoted_idx) occupied_children in
  ds ← descendants t idx;
  before ← map_outcome (λ d, p ← placement_of t d; Ok (d, p)) ds;
  let before : gmap NodeIndex (Uuid * nat * N) := list_to_map before in
  promoted_slot_pos ← find_slot_position t idx promoted_idx;
  t ← set_slot t idx promoted_slot_pos None;
  t ← set_slot t parent_idx parent_slot_pos (Some promoted_idx);
  t ← rebuild_children t parent_idx;
  a ← node_mut (arena t) promoted_idx (with_parent (Some parent_idx));
  let t := with_arena t a in
  '(t, ids) ← fold_outcome (reposition promoted_idx promoted_user_id) (t, []) remaining;
  t ← rebuild_children t promoted_idx;
  n ← node (arena t) idx;
  a ← match sponsor n with
      | Some s => node_mut (arena t) s (with_sponsored (filter (λ c, c ≠ idx)))
      | None => Ok (arena t)
      end;
  '(a, moved) ← reparent_sponsored a [idx];
  let a := with_index (delete u) a in
  a ← tombstone a idx;
  let t := with_slots (with_arena t a) (delete idx (slots t)) in
  t ← recalculate_depths t promoted_idx;
  relocated ← relocations_from t promoted_idx before;
  Ok (t, mkRemoval u (Some promoted_user_id) ids [] relocated moved).

Definition tank_entry {E} (a : Arena) (idx : NodeIndex) : outcome E HoldingTankEntry :=
  n ← node a idx;
  s ← match sponsor n with
    | Some s => ns ← node a s; Ok (Some (user_id ns))
    | None => Ok None
    end;
  Ok (mkEntry (user_id n) s (enrolled_at n)).

(** Cut a removed node from the list of a sponsor that stays. *)
Definition cut_sponsor {E} (a : Arena) (removed_set : list NodeIndex) (s : option NodeIndex) (idx : NodeIndex)
  : outcome E Arena :=
  match s with
  | Some s => if bool_decide (s ∈ removed_set) then Ok a
            else node_mut a s (with_sponsored (filter (λ c, c ≠ idx)))
  | None => Ok a
  end.

Definition clear_descendant (removed_set : list NodeIndex) (t : MatrixTree) (d : NodeIndex) : outcome TreeError MatrixTree :=
  n ← node (arena t) d;
  a ← cut_sponsor (arena t) removed_set (sponsor n) d;
  n ← node a d;
  let a := with_index (delete (user_id n)) a in
  a ← tombstone a d;
  Ok (with_slots (with_arena t a) (delete d (slots t))).

Definition remove_to_holding_tank (t : MatrixTree) (idx : NodeIndex) (u : Uuid)
  : outcome TreeError (MatrixTree * RemovalResult) :=
  n ← node (arena t) idx;
  parent_idx ← expect (parent n);
  parent_slot_pos ← find_slot_position t parent_idx idx;
  removed_set ← removal_set t idx HoldingTank;
  let ds := drop 1 removed_set in
  '(a, moved) ← reparent_sponsored (arena t) removed_set;
  entries ← map_outcome (tank_entry a) ds;
  n ← node a idx;
  own ← tank_entry a idx;
  let entries := entries ++ [mkEntry u (he_sponsor_user_id own) (he_enrolled_at own)] in
  let t := with_tank (with_arena t a) (holding_tank t ++ entries) in
  t ← fold_outcome (clear_descendant removed_set) t ds;
  a ← cut_sponsor (arena t) removed_set (sponsor n) idx;
  t ← set_slot (with_arena t a) parent_idx parent_slot_pos None;
  t ← rebuild_children t parent_idx;
  let a := with_index (delete u) (arena t) in
  a ← tombstone a idx;
  Ok (with_slots (with_arena t a) (delete idx (slots t)),
    mkRemoval u None [] (he_user_id <$> entries) [] moved).

Definition remove_node (t : MatrixTree) (u : Uuid) (mode : PruningMode) : outcome TreeError (MatrixTree * RemovalResult) :=
  check_remove_node t u mode;;
  idx ← resolve (arena t) u;
  match mode with
  | PromoteEarliest => remove_promote_earliest t idx u
  | HoldingTank => remove_to_holding_tank t idx u
  end.

(** ** The holding tank *)

Definition get_holding_tank (t : MatrixTree) (sponsor_id : option Uuid) : list HoldingTankEntry :=
  match sponsor_id with
  | Some id => filter (λ e, he_sponsor_user_id e = Some id) (holding_tank t)
  | None => holding_tank t
  end.

Definition place_from_tank (t : MatrixTree) (u parent_id : Uuid) (position : nat) : outcome TreeError MatrixTree :=
  check_user_id u;;
  refuse_if (N.to_nat (width t) <=? position)%nat (PositionOutOfRange parent_id position (N.to_nat (width t)));;
  parent_idx ← resolve (arena t) parent_id;
  parent_slots ← expect (slots t !! parent_idx);
  s ← expect (parent_slots !! position);
  refuse_if (bool_decide (is_Some s)) (PositionOccupied parent_id position);;
  '(tank_pos, entry) ← ok_or (list_find (λ e, he_user_id e = u) (holding_tank t)) (UserNotInHoldingTank u);
  match he_sponsor_user_id entry with
  | Some sponsor_id => refuse_if (in_tank t sponsor_id) (SponsorInHoldingTank u sponsor_id)
  | None => Ok ()
  end;;
  let t := with_tank t (delete tank_pos (holding_tank t)) in
  let sponsor_idx := id ← he_sponsor_user_id entry; index (arena t) !! id in
  '(t, _) ← place t u parent_idx position sponsor_idx (he_enrolled_at entry);
  Ok t.

(** ** Queries *)

Definition slot_position (idx : NodeIndex) (s : list (option NodeIndex)) (tp : TreePosition) : TreePosition :=
  match list_find (λ o, o = Some idx) s with
  | Some (p, _) => Binary.Binary.with_position p tp
  | None => tp
  end.

Definition count_slot {E} (a : Arena) (counts : gmap nat nat) (e : nat * option NodeIndex) : outcome E (gmap nat nat) :=
  count ← match e.2 with Some c => count_subtree a c | None => Ok 0 end;
  Ok (<[e.1 := count]> counts).

Definition get_position (t : MatrixTree) (u : Uuid) : outcome TreeError TreePosition :=
  idx ← resolve (arena t) u;
  pos ← Arena.get_position (arena t) idx;
  n ← node (arena t) idx;
  pos ← match parent n with
      | Some p => s ← expect (slots t !! p); Ok (slot_position idx s pos)
      | None => Ok pos
      end;
  node_slots ← expect (slots t !! idx);
  counts ← fold_outcome (count_slot (arena t)) ∅ (enumerate node_slots);
  Ok (Binary.Binary.with_counts counts pos).

Definition branch_slot (t : MatrixTree) (u : Uuid) (position : nat) : outcome TreeError (option NodeIndex) :=
  idx ← resolve (arena t) u;
  node_slots ← expect (slots t !! idx);
  refuse_if (N.to_nat (width t) <=? position)%nat (PositionOutOfRange u position (N.to_nat (width t)));;
  expect (node_slots !! position).

Definition get_branch (t : MatrixTree) (u : Uuid) (position : nat) : outcome TreeError (list Node) :=
  s ← branch_slot t u position;
  match s with
  | Some child_idx => collect_subtree (arena t) child_idx
  | None => Ok []
  end.

Definition count_branch (t : MatrixTree) (u : Uuid) (position : nat) : outcome TreeError nat :=
  s ← branch_slot t u position;
  match s with
  | Some child_idx => count ← count_subtree (arena t) child_idx; Ok (1 + count)
  | None => Ok 0
  end.
End Matrix.
