(* ===== verification/MatrixSpec.v ===== *)
(** * The matrix tree's invariant, placement and spillover: [tree/matrix.rs]

    Arena, slot map and holding tank agree; every placement keeps them so; the
    spillover search ends and finds the first free slot breadth first, so an
    automatic placement is never refused for want of room; and a restored tree is
    accepted exactly when the invariant holds. *)

From stdpp Require Import base numbers list gmap sorting strings.
From Stdlib Require Import ZArith Lia.
From S2P Require Import Prelude TreeTypes Arena ArenaCheck ArenaWf ArenaOps ArenaWalk ArenaRestore ArenaPrune SlotMap Binary Matrix.
Import Matrix.

(** ** The invariant *)

(** Follow stored sponsors within the tank. *)
Inductive tank_ends (tank : list HoldingTankEntry) : Uuid → Prop :=
| tank_end u : u ∉ he_user_id <$> tank → tank_ends tank u
| tank_none e : e ∈ tank → he_sponsor_user_id e = None → tank_ends tank (he_user_id e)
| tank_step e s : e ∈ tank → he_sponsor_user_id e = Some s → tank_ends tank s → tank_ends tank (he_user_id e).

Record tank_wf (t : MatrixTree) : Prop := {
  tk_nodup : NoDup (he_user_id <$> holding_tank t);
  tk_user e : e ∈ holding_tank t → he_user_id e ≠ nil_uuid;
  tk_sponsor e : e ∈ holding_tank t → he_sponsor_user_id e ≠ Some nil_uuid;
  tk_absent e : e ∈ holding_tank t → index (arena t) !! he_user_id e = None;
  tk_ends e : e ∈ holding_tank t → tank_ends (holding_tank t) (he_user_id e);
}.

Record matrix_wf (t : MatrixTree) : Prop := {
  mw_width : (2 ≤ width t)%N;
  mw_spillover : spillover t = BreadthFirst;
  mw_arena : arena_wf (arena t);
  mw_slots : slots_wf id (arena t) (slots t);
  mw_length i s : slots t !! i = Some s → length s = N.to_nat (width t);
  mw_tank : tank_wf t;
}.

Lemma in_tank_spec t u : in_tank t u = true ↔ u ∈ he_user_id <$> holding_tank t.
Proof.
  unfold in_tank. rewrite existsb_exists, list_elem_of_fmap. split.
  - intros (e & He%list_elem_of_In & Hu%bool_decide_eq_true). eauto.
  - intros (e & -> & He). exists e. split; [by apply list_elem_of_In|by apply bool_decide_eq_true].
Qed.

Lemma first_free_Some (s : list (option NodeIndex)) k : first_free s = Some k ↔
  s !! k = Some None ∧ ∀ j, j < k → s !! j ≠ Some None.
Proof.
  unfold first_free. rewrite fmap_Some. split.
  - intros ([j o] & (Hj & -> & Hlt)%list_find_Some & ->). split; [done|]. intros i Hi Hn. by eapply Hlt.
  - intros [Hk Hlt]. exists (k, None). split; [|done]. apply list_find_Some. split_and!; [done..|].
    intros j y Hj Hlj ->. by eapply Hlt.
Qed.

Lemma first_free_None (s : list (option NodeIndex)) : first_free s = None ↔ ∀ o, o ∈ s → is_Some o.
Proof.
  unfold first_free. rewrite fmap_None, list_find_None, Forall_forall. split; intros H o Ho.
  - destruct o; [eauto|]. by destruct (H None Ho).
  - by intros ->; destruct (H None Ho).
Qed.

(** Full slots are as many children. *)
Lemma full_flatten (s : list (option NodeIndex)) : first_free s = None → length (omap id s) = length s.
Proof.
  rewrite first_free_None. induction s as [|o s IH]; intros H; [done|].
  destruct (H o) as [x ->]; [left|]. cbn. f_equal. apply IH. intros y Hy. apply H. by right.
Qed.

(** ** Spillover *)
Section spillover.
Context (t : MatrixTree) (Hm : matrix_wf t) (start : NodeIndex) (ns : Node).
Context (Hstart : nodes (arena t) !! start = Some ns) (Hlive : user_id ns ≠ nil_uuid).
Abbreviation a := (arena t).
Abbreviation search := (frontier a 0 0 (depth ns) [start]).

(** Every slot of the node is taken. *)
Definition full (i : NodeIndex) : Prop := ∃ s, slots t !! i = Some s ∧ first_free s = None.

Lemma full_children i : full i → ∃ n c, nodes a !! i = Some n ∧ c ∈ children n.
Proof using All.
  intros (s & Hs & Hf). destruct (sm_entry _ _ _ (mw_slots t Hm) i s Hs) as (n & Hn & _ & Hch).
  assert (length (children n) = length s) as Hlen by (rewrite Hch; by apply full_flatten).
  rewrite (mw_length t Hm i s Hs) in Hlen. pose proof (mw_width t Hm).
  destruct (children n) as [|c l] eqn:E; cbn in Hlen; [lia|]. exists n, c. rewrite E. split; [done|left].
Qed.

Lemma reach_start i : reach a 0 0 [start] i ↔ i = start ∨ below a start i.
Proof using All.
  pose proof (mw_arena t Hm) as Hwf. split.
  - induction 1 as [i ->%list_elem_of_singleton|i n c Hr IH Hi _ Hc]; [by left|right].
    destruct IH as [->|Hb]; [by eapply below_child|by eapply below_step].
  - intros [->|Hb]; [constructor; by apply list_elem_of_singleton|].
    assert (reach a (depth ns) 0 (children ns) i) as Hr.
    { apply (reach_below a Hwf start ns 0 i Hstart). split; [done|by left]. }
    assert (∀ j, reach a (depth ns) 0 (children ns) j → reach a 0 0 [start] j) as Hmono; [|by apply Hmono].
    induction 1 as [j Hj|j n c _ IH Hj _ Hc].
    + eapply reach_child; [constructor; by apply list_elem_of_singleton|exact Hstart|by left|done].
    + eapply reach_child; [exact IH|exact Hj|by left|done].
Qed.

(** What is above the head of the queue has been visited. *)
Lemma above_visited visited i queue q : search visited (i :: queue) → reach a 0 0 [start] q →
  (depth_at a q < depth_at a i)%N → q ∈ visited.
Proof using All.
  intros F Hq. pose proof (mw_arena t Hm) as Hwf.
  assert (Hcase : ∀ j, j ∈ visited ++ i :: queue → (depth_at a j < depth_at a i)%N → j ∈ visited).
  { intros j [Hj|Hj]%elem_of_app Hd; [done|exfalso]. pose proof (fr_sorted _ _ _ _ _ _ _ F) as Hs.
    apply StronglySorted_app in Hs as (_ & _ & Hs). apply StronglySorted_inv in Hs as [_ Hle].
    rewrite Forall_forall in Hle. apply elem_of_cons in Hj as [->|Hj]; [lia|]. specialize (Hle j Hj). lia. }
  induction Hq as [j Hj|j n c Hr IH Hj _ Hc]; intros Hd.
  - apply Hcase; [|done]. by eapply (fr_roots _ _ _ _ _ _ _ F).
  - destruct (wf_child_live a Hwf j n c Hj Hc) as (nc & Hnc & Hp & _).
    destruct (wf_depth a Hwf c nc j n Hnc Hp Hj) as [Hdc _].
    rewrite (depth_at_node a c nc Hnc), Hdc in Hd. rewrite (depth_at_node a j n Hj) in IH.
    apply Hcase; [|rewrite (depth_at_node a c nc Hnc); lia].
    eapply (fr_closed _ _ _ _ _ _ _ F); [apply IH; lia|done|by left|done].
Qed.

Lemma spillover_loop_spec {E} fuel visited queue : search visited queue → (∀ i, i ∈ visited → full i) →
  length (nodes a) < fuel + length visited →
  ∃ p k s, @spillover_loop E fuel t queue = Ok (Some (p, k)) ∧ reach a 0 0 [start] p ∧
  slots t !! p = Some s ∧ first_free s = Some k ∧
  ∀ q, reach a 0 0 [start] q → (depth_at a q < depth_at a p)%N → full q.
Proof using All.
  pose proof (mw_arena t Hm) as Hwf.
  revert visited queue. induction fuel as [|fuel IH]; intros visited queue F Hfull Hf.
  { pose proof (nodup_in_arena a _ (fr_nodup _ _ _ _ _ _ _ F) (fr_live _ _ _ _ _ _ _ F)) as Hlen.
    rewrite length_app in Hlen. lia. }
  destruct queue as [|i queue]; cbn [spillover_loop].
  - exfalso. assert (Hall : ∀ q, reach a 0 0 [start] q → full q).
    { intros q Hq. apply Hfull. by eapply frontier_done. }
    assert (Hdeep : ∀ d, ∃ q n, reach a 0 0 [start] q ∧ nodes a !! q = Some n ∧ (N.of_nat d ≤ depth n)%N).
    { induction d as [|d (q & n & Hq & Hn & Hd)].
      - exists start, ns. split_and!; [constructor; by apply list_elem_of_singleton|done|lia].
      - destruct (full_children q (Hall q Hq)) as (n' & c & Hn' & Hc). assert (n' = n) as -> by congruence.
        destruct (wf_child_live a Hwf q n c Hn Hc) as (nc & Hnc & Hp & _).
        destruct (wf_depth a Hwf c nc q n Hnc Hp Hn) as [Hdc _]. exists c, nc.
        split_and!; [eapply reach_child; [exact Hq|exact Hn|by left|done]|done|lia]. }
    destruct (Hdeep (S (N.to_nat u32_max))) as (q & n & Hq & Hn & Hd).
    destruct (full_children q (Hall q Hq)) as (n' & c & Hn' & Hc). assert (n' = n) as -> by congruence.
    destruct (wf_child_live a Hwf q n c Hn Hc) as (nc & Hnc & Hp & _).
    destruct (wf_depth a Hwf c nc q n Hnc Hp Hn) as [Hdc Hb]. lia.
  - destruct (fr_live _ _ _ _ _ _ _ F i) as [n Hi]; [apply elem_of_app; right; left|].
    pose proof (fr_reach _ _ _ _ _ _ _ F i ltac:(apply elem_of_app; right; left)) as Hri.
    assert (Hil : user_id n ≠ nil_uuid).
    { apply reach_start in Hri as [->|Hb]; [congruence|]. destruct (below_live a Hwf start i Hb) as (n' & ? & ?). congruence. }
    destruct (sm_live _ _ _ (mw_slots t Hm) i n Hi Hil) as [s Hs]. rewrite Hs. cbn [expect mbind outcome_bind].
    destruct (first_free s) as [k|] eqn:Hk.
    + exists i, k, s. split_and!; [done..|]. intros q Hq Hd. apply Hfull. by eapply above_visited.
    + pose proof (sm_children _ _ _ _ n s (mw_slots t Hm) Hs Hi) as Hch. unfold flatten in Hch.
      change (omap id s) with (omap id (id s)). rewrite <- Hch. apply (IH (visited ++ [i])).
      * eapply frontier_step; [done|lia| |exact F|exact Hi|left; split; [done|by left]].
        intros j ->%list_elem_of_singleton. eauto.
      * intros j [Hj | ->%list_elem_of_singleton]%elem_of_app; [by apply Hfull|]. exists s. done.
      * rewrite length_app. cbn. lia.
Qed.
End spillover.

(** The search under a live node ends at the first free slot breadth first. *)
Lemma find_spillover_slot_spec {E} t start ns : matrix_wf t → nodes (arena t) !! start = Some ns →
  user_id ns ≠ nil_uuid →
  ∃ p k s, @find_spillover_slot E t start = Ok (Some (p, k)) ∧ (p = start ∨ below (arena t) start p) ∧
    slots t !! p = Some s ∧ s !! k = Some None ∧ (∀ j, j < k → s !! j ≠ Some None) ∧
    ∀ q, q = start ∨ below (arena t) start q → (depth_at (arena t) q < depth_at (arena t) p)%N → full t q.
Proof.
  intros Hm Hs Hl. unfold find_spillover_slot.
  destruct (spillover_loop_spec (E := E) t Hm start ns Hs Hl (loop_fuel (arena t)) [] [start])
    as (p & k & s & Hrun & Hr & Hsl & [Hk Hlt]%first_free_Some & Hmin).
  - apply frontier_init; [apply NoDup_singleton|lia|]. intros i ->%list_elem_of_singleton. eauto.
  - by intros i ?%elem_of_nil.
  - unfold loop_fuel. cbn. lia.
  - exists p, k, s. split_and!; [done| |done..|].
    + by apply (reach_start t Hm start ns Hs).
    + intros q Hq. apply Hmin. by apply (reach_start t Hm start ns Hs).
Qed.

(** ** Placement *)

Lemma slots_same {C} (items : C → list (option NodeIndex)) a a' sl :
  (∀ j, option_Forall2 same_placement (nodes a !! j) (nodes a' !! j)) → slots_wf items a sl → slots_wf items a' sl.
Proof.
  intros Hn [H1 H2]. split.
  - intros i c Hc. destruct (H1 i c Hc) as (n & Hi & Hl & Hch).
    destruct (slots_forward _ _ _ Hn i n Hi) as (n' & ? & Hu & _ & Hcc & _). exists n'. split_and!; congruence.
  - intros i n Hi Hl. back Hn Hi. destruct HR as (Hu & _). apply (H2 i m); congruence.
Qed.

Definition place_update (ip : NodeIndex) (so : option NodeIndex) (idx : NodeIndex) (pc : list NodeIndex)
    (j : NodeIndex) (n : Node) : Node :=
  mkNode (user_id n) (parent n) (if decide (j = ip) then pc else children n) (sponsor n)
    (if decide (so = Some j) then sponsored n ++ [idx] else sponsored n) (depth n) (enrolled_at n).

(** What a placement does. *)
Record placed (t t' : MatrixTree) (u : Uuid) (ip : NodeIndex) (np : Node) (k : nat) (sp : list (option NodeIndex))
    (so : option NodeIndex) (at_ : Z) (idx : NodeIndex) : Prop := {
  pl_fresh n : nodes (arena t) !! idx = Some n → user_id n = nil_uuid;
  pl_nodes j : nodes (arena t') !! j = if decide (j = idx) then Some (mkNode u (Some ip) [] so [] (depth np + 1) at_)
    else place_update ip so idx (flatten (<[k := Some idx]> sp)) j <$> nodes (arena t) !! j;
  pl_index : index (arena t') = <[u := idx]> (index (arena t));
  pl_root : root (arena t') = root (arena t);
  pl_slots : slots t' = <[ip := <[k := Some idx]> sp]> (<[idx := empty_slots t]> (slots t));
  pl_frame : width t' = width t ∧ spillover t' = spillover t ∧ holding_tank t' = holding_tank t;
}.

Lemma flatten_empty (m : nat) : flatten (A := NodeIndex) (replicate m None) = [].
Proof. unfold flatten. induction m; [done|]. cbn. exact IHm. Qed.

(** The arena a placement leaves. *)
Lemma place_arena a a1 idx u ip np so at_ g : arena_wf a →
  allocated a a1 idx (mkNode u (Some ip) [] so [] (depth np + 1) at_) →
  nodes a !! ip = Some np → user_id np ≠ nil_uuid → u ≠ nil_uuid → index a !! u = None →
  (depth np + 1 ≤ u32_max)%N → (∀ s, so = Some s → live_at a s) →
  (∃ l1 l2, children np = l1 ++ l2 ∧ g (children np) = l1 ++ idx :: l2) →
  let a3 := with_nodes (alter (with_children g) ip) (with_index (λ m, <[u := idx]> m) a1) in
  ∃ a4, match so with
        | Some s => @node_mut TreeError a3 s (with_sponsored (λ l, l ++ [idx]))
        | None => Ok a3
        end = Ok a4 ∧ arena_wf a4 ∧ same_frame a3 a4 ∧
    (∀ C (items : C → list (option NodeIndex)) sl e cp, slots_wf items a sl → flatten (items e) = [] →
      g (children np) = flatten (items cp) → slots_wf items a4 (<[ip := cp]> (<[idx := e]> sl))) ∧
    (∀ j, nodes a4 !! j = if decide (j = idx) then Some (mkNode u (Some ip) [] so [] (depth np + 1) at_)
      else place_update ip so idx (g (children np)) j <$> nodes a !! j).
Proof.
  intros Hwf Hal Hp Hpl Hu Hnone Hd Hso Hg a3.
  assert (Hne : ip ≠ idx) by (intros ->; by apply Hpl, (al_fresh _ _ _ _ Hal)).
  destruct so as [s|].
  - destruct (Hso s eq_refl) as (ns & Hns & Hsl).
    unfold a3. rewrite (place_sponsor_write _ _ _ _ _ _ _ ns _ g Hal Hns Hsl).
    pose proof (place_attach a a1 idx u ip s np ns at_ g Hwf Hal Hp Hpl Hns Hsl Hu Hnone Hd Hg) as Hat.
    eexists. split; [done|]. split_and!; [by eapply wf_attach|done| |].
    + intros C items sl e cp Hs He Hc. by eapply slots_attach.
    + intros j. rewrite (at_nodes _ _ _ _ _ _ _ _ _ Hat). case_decide; [done|].
      destruct (nodes a !! j); [|done]. simpl. unfold attach_update, place_update. do 2 f_equal.
      destruct (decide (j = s)), (decide (Some s = Some j)); congruence.
  - destruct (place_adopted a a1 idx u ip np at_ g Hwf Hal Hp Hpl Hu Hnone Hd Hg) as (a4 & Hat & Hf & Hn).
    fold a3 in Hf, Hn. exists a3. split; [done|]. split_and!; [|done| |].
    + eapply wf_orphan; [eapply wf_attach; [exact Hwf|exact Hat]|by eapply attach_new|done|exact Hf|exact Hn].
    + intros C items sl e cp Hs He Hc. eapply slots_same; [|by eapply slots_attach]. intros j. rewrite Hn.
      destruct (nodes a4 !! j); constructor. done.
    + intros j. unfold a3. simpl. rewrite lookup_alter_nodes, (al_nodes _ _ _ _ Hal).
      destruct (decide (j = idx)) as [->|]; [by rewrite decide_False|].
      unfold place_update. destruct (decide (j = ip)) as [->|]; [by rewrite Hp|]. by destruct (nodes a !! j) as [[]|].
Qed.

Lemma tank_wf_index t t' u idx : holding_tank t' = holding_tank t → index (arena t') = <[u := idx]> (index (arena t)) →
  in_tank t u = false → tank_wf t → tank_wf t'.
Proof.
  intros Hh Hi Hu [T1 T2 T3 T4 T5]. split; rewrite ?Hh; try done. intros e He. rewrite Hi, lookup_insert_ne; [by apply T4|].
  intros ->. assert (in_tank t (he_user_id e) = true); [|congruence]. apply in_tank_spec, list_elem_of_fmap. eauto.
Qed.

Lemma place_ok t u ip np k sp so at_ : matrix_wf t →
  nodes (arena t) !! ip = Some np → user_id np ≠ nil_uuid → slots t !! ip = Some sp → sp !! k = Some None →
  (∀ s, so = Some s → live_at (arena t) s) → u ≠ nil_uuid → index (arena t) !! u = None → in_tank t u = false →
  (depth np < u32_max)%N →
  ∃ t' idx, place t u ip k so at_ = Ok (t', idx) ∧ matrix_wf t' ∧ placed t t' u ip np k sp so at_ idx.
Proof.
  intros [Hw Hsp Hwf Hsl Hlen Htk] Hp Hpl Hs Hk Hso Hu Hnone Htank Hd.
  unfold place. rewrite (node_ok _ _ _ Hp Hpl). cbn [mbind outcome_bind]. unfold u32_add.
  destruct (N.leb_spec (depth np + 1) u32_max) as [Hle|]; [|lia]. cbn [mbind outcome_bind].
  destruct (alloc_slot_spec (E := TreeError) (arena t)
    (mkNode u (Some ip) [] so [] (depth np + 1) at_) Hwf) as (a1 & idx & -> & Hal).
  cbn [mbind outcome_bind]. assert (Hne : ip ≠ idx) by (intros ->; by apply Hpl, (al_fresh _ _ _ _ Hal)).
  unfold set_slot. cbn [slots with_slots with_arena]. rewrite lookup_insert_ne, Hs by done.
  cbn [expect mbind outcome_bind]. rewrite Hk. cbn [expect mbind outcome_bind].
  set (g := λ _ : list NodeIndex, flatten (<[k := Some idx]> sp)).
  unfold rebuild_children. cbn [slots with_slots with_arena arena]. rewrite lookup_insert_eq. cbn [expect mbind outcome_bind].
  rewrite (node_mut_ok _ ip _ np) by (done || (cbn; rewrite (al_nodes _ _ _ _ Hal); by rewrite decide_False)).
  cbn [mbind outcome_bind arena with_arena]. change (λ _ : list NodeIndex, omap id (<[k:=Some idx]> sp)) with g.
  destruct (place_arena (arena t) a1 idx u ip np so at_ g Hwf Hal Hp Hpl Hu Hnone Hle Hso) as (a4 & -> & Hwf4 & Hf & Hsl4 & Hn4).
  { unfold g. rewrite (sm_children _ _ _ ip np sp Hsl Hs Hp). by apply flatten_fill. }
  cbn [mbind outcome_bind]. destruct Hf as (Hfi & _ & Hfr). cbn in Hfi, Hfr.
  rewrite (al_index _ _ _ _ Hal) in Hfi. rewrite (al_root _ _ _ _ Hal) in Hfr.
  eexists _, idx. split; [done|]. split.
  - split; cbn [width spillover arena slots with_arena with_slots]; [done..| | |].
    + apply Hsl4; [done| |done]. apply flatten_empty.
    + intros i s'. destruct (decide (i = ip)) as [->|]; [rewrite lookup_insert_eq|rewrite lookup_insert_ne by done].
      { intros [= <-]. rewrite length_insert. by eapply Hlen. }
      destruct (decide (i = idx)) as [->|]; [rewrite lookup_insert_eq|rewrite lookup_insert_ne by done]; [|apply Hlen].
      intros [= <-]. apply length_replicate.
    + by eapply (tank_wf_index t).
  - split; cbn [width spillover arena slots with_arena with_slots holding_tank]; try done.
    intros n Hn. by eapply (al_fresh _ _ _ _ Hal).
Qed.

(** A free slot of a live node. *)
Lemma slot_at t ip np k : matrix_wf t → nodes (arena t) !! ip = Some np → user_id np ≠ nil_uuid →
  ∃ sp, slots t !! ip = Some sp ∧ length sp = N.to_nat (width t) ∧ (k < N.to_nat (width t) → ∃ o, sp !! k = Some o).
Proof.
  intros Hm Hp Hpl. destruct (sm_live _ _ _ (mw_slots t Hm) ip np Hp Hpl) as [sp Hs]. exists sp.
  pose proof (mw_length t Hm ip sp Hs) as Hlen. split_and!; [done..|]. intros Hk. apply lookup_lt_is_Some. lia.
Qed.

(** *** The explicit placement, on every branch *)
Lemma check_add_node_at_cases t u s p k : matrix_wf t → check_add_node_at t u s p k =
  if decide (u = nil_uuid) then Err NilUserId
  else if decide (root (arena t) = None) then Err TreeEmpty
  else if decide (N.to_nat (width t) ≤ k) then Err (PositionOutOfRange p k (N.to_nat (width t)))
  else if decide (is_Some (index (arena t) !! u)) then Err (UserAlreadyExists u)
  else if in_tank t u then Err (UserInHoldingTank u)
  else match index (arena t) !! p, index (arena t) !! s with
       | None, _ => Err (UserNotFound p)
       | Some _, None => Err (SponsorNotFound s)
       | Some ip, Some _ =>
           if decide ((slots t !! ip ≫= λ sp, sp !! k) = Some None) then Ok () else Err (PositionOccupied p k)
       end.
Proof.
  intros Hm. unfold check_add_node_at, check_user_id, is_nil. rewrite !refuse_decide.
  do 2 (case_decide; [done|]). rewrite refuse_bool.
  destruct (decide (N.to_nat (width t) ≤ k)), (Nat.leb_spec (N.to_nat (width t)) k); try lia; [done|].
  case_decide; [done|]. rewrite refuse_bool. destruct (in_tank t u); [done|]. unfold resolve.
  destruct (index (arena t) !! p) as [ip|] eqn:Hp; [|done]. cbn [ok_or mbind outcome_bind].
  destruct (index (arena t) !! s) as [isp|]; [|done]. cbn [ok_or map_err mbind outcome_bind].
  destruct (resolve_live _ (mw_arena t Hm) p ip Hp) as (np & Hnp & Hpu & Hpl).
  destruct (slot_at t ip np k Hm Hnp ltac:(congruence)) as (sp & -> & _ & Hk). cbn [expect mbind outcome_bind option_bind].
  destruct Hk as [o ->]; [lia|]. cbn [expect mbind outcome_bind]. destruct o; [done|]. by rewrite decide_True.
Qed.

(** What passing the checks of an explicit placement gives. *)
Lemma check_add_node_at_ok t u s p k : matrix_wf t → check_add_node_at t u s p k = Ok () →
  u ≠ nil_uuid ∧ index (arena t) !! u = None ∧ in_tank t u = false ∧
  ∃ ip np isp sp, index (arena t) !! p = Some ip ∧ nodes (arena t) !! ip = Some np ∧ user_id np ≠ nil_uuid ∧
    index (arena t) !! s = Some isp ∧ live_at (arena t) isp ∧ slots t !! ip = Some sp ∧ sp !! k = Some None.
Proof.
  intros Hm. rewrite check_add_node_at_cases by done. repeat case_decide; try done.
  destruct (in_tank t u); [done|]. destruct (index (arena t) !! p) as [ip|] eqn:Hp; [|done].
  destruct (index (arena t) !! s) as [isp|] eqn:Hs; [|done]. case_decide as Hfree; [|done]. intros _.
  destruct (resolve_live _ (mw_arena t Hm) p ip Hp) as (np & Hnp & Hpu & Hpl).
  destruct (resolve_live _ (mw_arena t Hm) s isp Hs) as (ns & Hns & Hsu & Hsl).
  apply bind_Some in Hfree as (sp & Hsp & Hk).
  split_and!; [done|by apply eq_None_not_Some|done|]. exists ip, np, isp, sp.
  split_and!; try done; [congruence|]. exists ns. split; congruence.
Qed.

Lemma add_node_at_spec t u s p k at_ : matrix_wf t →
  match check_add_node_at t u s p k with
  | Ok _ => ∃ ip np isp sp, index (arena t) !! p = Some ip ∧ index (arena t) !! s = Some isp ∧
      nodes (arena t) !! ip = Some np ∧ slots t !! ip = Some sp ∧ sp !! k = Some None ∧
      if (depth np <? u32_max)%N
      then ∃ t' idx, add_node_at t u s p k at_ = Ok (t', idx) ∧ matrix_wf t' ∧
             placed t t' u ip np k sp (Some isp) at_ idx
      else add_node_at t u s p k at_ = Panic
  | r => add_node_at t u s p k at_ = (_ ← r; Panic)
  end.
Proof.
  intros Hm. unfold add_node_at. destruct (check_add_node_at t u s p k) as [[]|e| |] eqn:Hc; try done.
  destruct (check_add_node_at_ok t u s p k Hm Hc) as (Hu & Hn & Ht & ip & np & isp & sp & Hp & Hnp & Hpl & Hs & Hsl & Hsp & Hk).
  exists ip, np, isp, sp. split_and!; [done..|]. cbn [mbind outcome_bind].
  rewrite (resolve_ok _ _ _ Hp), (resolve_ok _ _ _ Hs). cbn [mbind outcome_bind].
  destruct (N.ltb_spec (depth np) u32_max) as [Hd|Hd].
  - apply place_ok; try done. by intros ? [= <-].
  - unfold place. rewrite (node_ok _ _ _ Hnp Hpl). cbn [mbind outcome_bind]. unfold u32_add.
    destruct (N.leb_spec (depth np + 1) u32_max); [lia|done].
Qed.

(** *** Automatic placement *)

(** The guards of [add_node], in order. *)
Definition add_node_guard (t : MatrixTree) (u s : Uuid) : option TreeError :=
  if decide (u = nil_uuid) then Some NilUserId
  else if decide (root (arena t) = None) then Some TreeEmpty
  else if decide (is_Some (index (arena t) !! u)) then Some (UserAlreadyExists u)
  else if in_tank t u then Some (UserInHoldingTank u)
  else if decide (index (arena t) !! s = None) then Some (SponsorNotFound s) else None.

Lemma add_node_spec t u s at_ : matrix_wf t →
  match add_node_guard t u s with
  | Some e => add_node t u s at_ = Err e
  | None => ∃ isp ip np k sp, index (arena t) !! s = Some isp ∧ (ip = isp ∨ below (arena t) isp ip) ∧
      nodes (arena t) !! ip = Some np ∧ slots t !! ip = Some sp ∧ sp !! k = Some None ∧
      (∀ j, j < k → sp !! j ≠ Some None) ∧
      (∀ q, q = isp ∨ below (arena t) isp q → (depth_at (arena t) q < depth np)%N → full t q) ∧
      if (depth np <? u32_max)%N
      then ∃ t' idx, add_node t u s at_ = Ok (t', idx) ∧ matrix_wf t' ∧
             placed t t' u ip np k sp (Some isp) at_ idx
      else add_node t u s at_ = Panic
  end.
Proof.
  intros Hm. unfold add_node_guard, add_node, check_user_id, is_nil. rewrite !refuse_decide.
  do 3 (case_decide; [done|]). rewrite refuse_bool. destruct (in_tank t u) eqn:Ht; [done|]. unfold resolve.
  destruct (index (arena t) !! s) as [isp|] eqn:Hs; [|done]. case_decide; [done|].
  cbn [ok_or map_err mbind outcome_bind].
  destruct (resolve_live _ (mw_arena t Hm) s isp Hs) as (ns & Hns & Hsu & Hsl).
  destruct (find_spillover_slot_spec (E := TreeError) t isp ns Hm Hns ltac:(congruence))
    as (ip & k & sp & -> & Hin & Hsp & Hk & Hlt & Hmin). cbn [ok_or mbind outcome_bind].
  destruct (sm_entry _ _ _ (mw_slots t Hm) ip sp Hsp) as (np & Hnp & Hpl & _).
  rewrite (depth_at_node _ ip np Hnp) in Hmin.
  exists isp, ip, np, k, sp. split_and!; [done..|]. destruct (N.ltb_spec (depth np) u32_max) as [Hd|Hd].
  - apply place_ok; try done; [|by apply eq_None_not_Some]. intros ? [= <-]. exists ns. split; congruence.
  - unfold place. rewrite (node_ok _ _ _ Hnp Hpl). cbn [mbind outcome_bind]. unfold u32_add.
    destruct (N.leb_spec (depth np + 1) u32_max); [lia|done].
Qed.

(** ** The root *)

Lemma add_root_spec t u at_ : matrix_wf t → check_add_root t u = Ok () →
  ∃ t' idx, add_root t u at_ = Ok (t', idx) ∧ matrix_wf t' ∧
    nodes (arena t') !! idx = Some (mkNode u None [] None [] 0 at_) ∧
    index (arena t') = <[u := idx]> (index (arena t)) ∧ holding_tank t' = holding_tank t.
Proof.
  intros [Hw Hsp Hwf Hsl Hlen Htk] Hc. unfold add_root. rewrite Hc. cbn [mbind outcome_bind].
  unfold check_add_root in Hc. apply bind_unit_ok in Hc as [Hu Hc]. apply bind_unit_ok in Hc as [Hr Hc].
  apply bind_unit_ok in Hc as [Hi Ht]. apply refuse_if_ok in Hu, Hr, Hi, Ht.
  apply bool_decide_eq_false in Hu, Hr, Hi. rewrite <- eq_None_not_Some in Hr, Hi.
  destruct (alloc_slot_spec (E := TreeError) (arena t) (mkNode u None [] None [] 0 at_) Hwf)
    as (a1 & idx & -> & [Hf Hn Hix Hrt Hfl]). cbn [mbind outcome_bind].
  do 2 eexists. split; [done|]. split_and!; cbn [arena with_slots with_arena holding_tank];
    [split; cbn [width spillover arena slots with_arena with_slots]|..|done]; try done.
  - eapply (wf_place_root (arena t) _ idx (mkNode u None [] None [] 0 at_)); simpl; auto.
    + split_and!; done.
    + by rewrite Hix.
  - eapply (slots_place_root id (arena t) _ _ idx (mkNode u None [] None [] 0 at_)); try done.
    cbn. symmetry. apply flatten_empty.
  - intros i s. destruct (decide (i = idx)) as [->|]; [rewrite lookup_insert_eq|rewrite lookup_insert_ne by done]; [|apply Hlen].
    intros [= <-]. apply length_replicate.
  - eapply (tank_wf_index t _ u idx); [done| |done..]. cbn. by rewrite Hix.
  - cbn. rewrite Hn. by rewrite decide_True.
  - cbn. by rewrite Hix.
Qed.

Lemma matrix_new_wf w sd t : new w sd = Ok t → matrix_wf t.
Proof.
  unfold new. rewrite refuse_bool, refuse_decide. destruct (N.ltb_spec w 2); [done|]. case_decide as Hd; [done|].
  intros [= <-]. split; cbn; [done|by destruct sd|apply arena_new_wf| |by intros ? ? ?%lookup_empty_Some|].
  - split; cbn; [by intros i c ?%lookup_empty_Some|done].
  - split; cbn; try (by intros ? ?%elem_of_nil). constructor.
Qed.

(** ** Placing from the tank *)

Lemma tank_user_inj (tank : list HoldingTankEntry) e e' : NoDup (he_user_id <$> tank) → e ∈ tank → e' ∈ tank →
  he_user_id e = he_user_id e' → e = e'.
Proof.
  intros Hnd (i & Hi)%list_elem_of_lookup (j & Hj)%list_elem_of_lookup He.
  assert (i = j) as ->; [|congruence].
  eapply (NoDup_lookup (he_user_id <$> tank)); [done|rewrite list_lookup_fmap, Hi; done|].
  rewrite list_lookup_fmap, Hj. cbn. by rewrite He.
Qed.

Lemma tank_ends_sub (tank tank' : list HoldingTankEntry) v : NoDup (he_user_id <$> tank) → tank' ⊆ tank →
  tank_ends tank v → tank_ends tank' v.
Proof.
  intros Hnd Hsub. induction 1 as [v Hv|e He Hs|e s He Hs _ IH].
  - constructor. intros (e & -> & He%Hsub)%list_elem_of_fmap. apply Hv, list_elem_of_fmap. eauto.
  - destruct (decide (he_user_id e ∈ he_user_id <$> tank')) as [(e' & He' & Hin)%list_elem_of_fmap|]; [|by constructor].
    rewrite He'. apply tank_none; [done|]. by rewrite <- (tank_user_inj tank e e' Hnd He (Hsub _ Hin) He').
  - destruct (decide (he_user_id e ∈ he_user_id <$> tank')) as [(e' & He' & Hin)%list_elem_of_fmap|]; [|by constructor].
    rewrite He'. eapply tank_step; [done| |done]. by rewrite <- (tank_user_inj tank e e' Hnd He (Hsub _ Hin) He').
Qed.

Lemma tank_wf_delete t k : tank_wf t → tank_wf (with_tank t (delete k (holding_tank t))).
Proof.
  intros [T1 T2 T3 T4 T5]. assert (Hsub : delete k (holding_tank t) ⊆ holding_tank t).
  { intros e He. eapply elem_of_sublist; [exact He|apply sublist_delete]. }
  split; cbn.
  - eapply sublist_NoDup; [exact T1|apply fmap_sublist, sublist_delete].
  - intros e He. by apply T2, Hsub.
  - intros e He. by apply T3, Hsub.
  - intros e He. by apply T4, Hsub.
  - intros e He. eapply tank_ends_sub; [exact T1|exact Hsub|]. by apply T5, Hsub.
Qed.

(** The guards of [place_from_tank], in order. *)
Definition tank_guard (t : MatrixTree) (u p : Uuid) (k : nat) : option TreeError :=
  if decide (u = nil_uuid) then Some NilUserId
  else if decide (N.to_nat (width t) ≤ k) then Some (PositionOutOfRange p k (N.to_nat (width t)))
  else match index (arena t) !! p with
       | None => Some (UserNotFound p)
       | Some ip =>
           if decide ((slots t !! ip ≫= λ sp, sp !! k) = Some None) then
             match list_find (λ e, he_user_id e = u) (holding_tank t) with
             | None => Some (UserNotInHoldingTank u)
             | Some (_, e) =>
                 match he_sponsor_user_id e with
                 | Some s => if in_tank t s then Some (SponsorInHoldingTank u s) else None
                 | None => None
                 end
             end
           else Some (PositionOccupied p k)
       end.

Lemma not_in_rest t u pos e : tank_wf t → list_find (λ e, he_user_id e = u) (holding_tank t) = Some (pos, e) →
  in_tank (with_tank t (delete pos (holding_tank t))) u = false.
Proof.
  intros Htk (Hpos & He & _)%list_find_Some. apply not_true_is_false. rewrite in_tank_spec. cbn.
  pose proof (tk_nodup t Htk) as Hnd. rewrite <- (take_drop_middle _ _ _ Hpos), fmap_app, fmap_cons in Hnd.
  rewrite delete_take_drop, fmap_app, elem_of_app. apply NoDup_app in Hnd as (_ & Hd & [Hn _]%NoDup_cons).
  rewrite He in *. intros [Hu|Hu]; [|done]. apply (Hd u Hu). left.
Qed.

Lemma place_from_tank_spec t u p k : matrix_wf t →
  match tank_guard t u p k with
  | Some err => place_from_tank t u p k = Err err
  | None => ∃ ip np sp pos e, index (arena t) !! p = Some ip ∧ nodes (arena t) !! ip = Some np ∧
      slots t !! ip = Some sp ∧ sp !! k = Some None ∧
      list_find (λ e, he_user_id e = u) (holding_tank t) = Some (pos, e) ∧
      if (depth np <? u32_max)%N
      then ∃ t' idx, place_from_tank t u p k = Ok t' ∧ matrix_wf t' ∧
             placed (with_tank t (delete pos (holding_tank t))) t' u ip np k sp
               (he_sponsor_user_id e ≫= λ s, index (arena t) !! s) (he_enrolled_at e) idx
      else place_from_tank t u p k = Panic
  end.
Proof.
  intros Hm. unfold tank_guard, place_from_tank, check_user_id, is_nil. rewrite !refuse_decide, refuse_bool.
  case_decide as Hu; [done|]. destruct (decide (N.to_nat (width t) ≤ k)), (Nat.leb_spec (N.to_nat (width t)) k); try lia; [done|].
  unfold resolve. destruct (index (arena t) !! p) as [ip|] eqn:Hp; [|done]. cbn [ok_or mbind outcome_bind].
  destruct (resolve_live _ (mw_arena t Hm) p ip Hp) as (np & Hnp & Hpu & Hpl).
  destruct (slot_at t ip np k Hm Hnp ltac:(congruence)) as (sp & Hsp & _ & Hk). rewrite Hsp.
  cbn [expect mbind outcome_bind option_bind]. destruct Hk as [o Ho]; [lia|]. rewrite Ho. cbn [expect mbind outcome_bind].
  rewrite refuse_decide. destruct o as [c|]; [done|]. rewrite (decide_False (P := is_Some None)) by (by intros [? ?]). rewrite decide_True by done.
  destruct (list_find _ (holding_tank t)) as [[pos e]|] eqn:Hf; [|done]. cbn [ok_or mbind outcome_bind].
  assert (Hin : he_user_id e = u ∧ e ∈ holding_tank t).
  { apply list_find_Some in Hf as (He & Hue & _). split; [done|]. by eapply list_elem_of_lookup_2. }
  destruct Hin as [Hue Hin]. set (t1 := with_tank t (delete pos (holding_tank t))).
  assert (Hm1 : matrix_wf t1) by (destruct Hm; split; try done; by apply tank_wf_delete).
  assert (Hplace : ∀ so, (∀ s, so = Some s → live_at (arena t) s) → let r := '(t, _) ← place t1 u ip k so (he_enrolled_at e); Ok t in
    if (depth np <? u32_max)%N then ∃ t' idx, r = Ok t' ∧ matrix_wf t' ∧ placed t1 t' u ip np k sp so (he_enrolled_at e) idx
    else r = Panic).
  { intros so Hso. destruct (N.ltb_spec (depth np) u32_max) as [Hd|Hd].
    - destruct (place_ok t1 u ip np k sp so (he_enrolled_at e)) as (t' & idx & -> & Hwf' & Hpl'); try done; [congruence| | |].
      + rewrite <- Hue. by apply (tk_absent t (mw_tank t Hm)).
      + by apply (not_in_rest t u pos e (mw_tank t Hm)).
      + cbn. eauto.
    - unfold place. rewrite (node_ok (arena t1) ip np Hnp) by congruence. cbn [mbind outcome_bind]. unfold u32_add.
      destruct (N.leb_spec (depth np + 1) u32_max); [lia|done]. }
  destruct (he_sponsor_user_id e) as [s|] eqn:Hs.
  - rewrite refuse_bool. destruct (in_tank t s); [done|]. exists ip, np, sp, pos, e. split_and!; [done..|].
    rewrite Hs. apply Hplace. cbn. intros i Hi. destruct (resolve_live _ (mw_arena t Hm) s i Hi) as (ns & ? & ? & ?).
    exists ns. split; congruence.
  - exists ip, np, sp, pos, e. split_and!; [done..|]. rewrite Hs. by apply Hplace.
Qed.
