(* ===== verification/MatrixRestore.v ===== *)
(** * Restoring a matrix tree: [tree/matrix.rs], [validate_restored]

    A restored matrix tree is accepted exactly when it satisfies the invariant
    every placement keeps. The walk over the tank's sponsor chains is the arena's
    walk over an arena whose slots are the tank's entries. *)

From stdpp Require Import base numbers list gmap strings.
From Stdlib Require Import ZArith Lia.
From S2P Require Import Prelude TreeTypes Arena ArenaCheck ArenaWf ArenaOps ArenaWalk ArenaRestore SlotMap Binary Matrix MatrixSpec.
Import Matrix.

Section tank_chains.
Context (t : MatrixTree).
Abbreviation tank := (holding_tank t).

(** The entry as a slot whose sponsor is the position of its sponsor's entry. *)
Definition entry_node (e : HoldingTankEntry) : Node :=
  mkNode (he_user_id e) None [] (s ← he_sponsor_user_id e; position_of t !! s) [] 0 (he_enrolled_at e).

Definition tank_arena : Arena := mkArena (entry_node <$> tank) ∅ [] None.

Lemma tank_slot i : nodes tank_arena !! i = entry_node <$> tank !! i.
Proof. cbn. apply list_lookup_fmap. Qed.

Lemma tank_walk_ok fuel start s v w cur r :
  tank_walk fuel t start v w cur = Ok r ↔ sponsor_walk fuel tank_arena s v w cur = Ok r.
Proof.
  revert v w cur. induction fuel as [|fuel IH]; intros v w cur; [done|]. cbn [tank_walk sponsor_walk].
  destruct cur as [i|]; [|done]. destruct (v !! i) as [x|]; [|done]. cbn [expect mbind outcome_bind]. destruct x; [|by destruct (tank !! i)|done].
  unfold Arena.slot. rewrite tank_slot. destruct (tank !! i) as [e|]; [|done]. cbn [expect mbind outcome_bind fmap option_fmap option_map].
  apply IH.
Qed.

Lemma check_tank_chain_ok v i e v' : he_user_id e ≠ nil_uuid →
  check_tank_chain t v (i, e) = Ok v' ↔ check_chain_from tank_arena v (i, entry_node e) = Ok v'.
Proof.
  intros Hl. unfold check_tank_chain, check_chain_from, is_nil. cbn [entry_node user_id].
  rewrite bool_decide_eq_false_2 by done. destruct (v !! i) as [x|]; [|done]. cbn [expect mbind outcome_bind].
  assert (Hw : (('(visits, walk) ← tank_walk (S (length tank)) t (he_user_id e) v [] (Some i);
  Ok (foldl (λ vs position, <[position:=Done]> vs) visits walk)) = Ok v') ↔
  (('(visits, walk) ← sponsor_walk (loop_fuel tank_arena) tank_arena i v [] (Some i);
  Ok (foldl (λ vs slot, <[slot:=Done]> vs) visits walk)) = Ok v')).
  { rewrite !bind_ok. unfold loop_fuel. cbn [nodes tank_arena]. rewrite length_fmap.
  by setoid_rewrite (tank_walk_ok _ _ i). }
  by destruct x; case_bool_decide.
Qed.

Lemma check_tank_chains_ok es v v' : (∀ i e, (i, e) ∈ es → he_user_id e ≠ nil_uuid) →
  fold_outcome (check_tank_chain t) v es = Ok v' ↔
  fold_outcome (check_chain_from tank_arena) v (prod_map id entry_node <$> es) = Ok v'.
Proof.
  revert v. induction es as [|[i e] es IH]; intros v Hl; [done|]. cbn [fold_outcome fmap list_fmap prod_map].
  rewrite !bind_ok. setoid_rewrite check_tank_chain_ok; [|apply (Hl i e); left].
  setoid_rewrite IH; [done|]. intros j f Hj. apply (Hl j f). by right.
Qed.

(** *** Positions *)
Lemma position_fold (es : list (nat * HoldingTankEntry)) (m : gmap Uuid nat) u i : NoDup (he_user_id <$> es.*2) →
  foldl (λ m '(position, e), <[he_user_id e := position]> m) m es !! u = Some i ↔
  (∃ e, (i, e) ∈ es ∧ he_user_id e = u) ∨ (m !! u = Some i ∧ u ∉ he_user_id <$> es.*2).
Proof.
  revert m. induction es as [|[j e] es IH]; intros m Hnd; cbn.
  { split; [intros H; right; split; [done|apply not_elem_of_nil]|].
  intros [(e & H & _)|[H _]]; [by apply elem_of_nil in H|done]. }
  cbn in Hnd. apply NoDup_cons in Hnd as [Hne Hnd]. rewrite (IH _ Hnd). clear IH.
  rewrite not_elem_of_cons. setoid_rewrite elem_of_cons. split.
  - intros [(e' & ? & ?)|[H Hu]]; [left; eauto|]. destruct (decide (u = he_user_id e)) as [->|Hd].
  + rewrite lookup_insert_eq in H. simplify_eq. left. eauto.
  + rewrite lookup_insert_ne in H by done. by right.
  - intros [(e' & [[= -> ->]|H] & <-)|(H & Hd & Hu)].
  + right. by rewrite lookup_insert_eq.
  + left. eauto.
  + right. by rewrite lookup_insert_ne.
Qed.

Lemma position_of_spec u i : NoDup (he_user_id <$> tank) →
  position_of t !! u = Some i ↔ ∃ e, tank !! i = Some e ∧ he_user_id e = u.
Proof.
  intros Hnd. unfold position_of. rewrite position_fold by (by rewrite enumerate_snd).
  rewrite enumerate_snd, lookup_empty. setoid_rewrite elem_of_enumerate. naive_solver.
Qed.

Lemma tank_chain_ends : NoDup (he_user_id <$> tank) →
  ∀ i e, tank !! i = Some e → chain_ends tank_arena i ↔ tank_ends tank (he_user_id e).
Proof.
  intros Hnd i e Hi. split.
  - intros Hc. revert e Hi. induction Hc as [i n Hn Hs|i n j Hn Hs _ IH]; intros e Hi;
      rewrite tank_slot, Hi in Hn; injection Hn as <-; cbn in Hs.
    + destruct (he_sponsor_user_id e) as [s|] eqn:He; [|apply tank_none; [by eapply list_elem_of_lookup_2|done]].
      eapply tank_step; [by eapply list_elem_of_lookup_2|exact He|]. constructor.
      intros (e' & -> & (j & Hj)%list_elem_of_lookup)%list_elem_of_fmap. cbn in Hs.
      assert (position_of t !! he_user_id e' = Some j) by (apply position_of_spec; eauto). congruence.
    + apply bind_Some in Hs as (s & He & (e' & Hj & <-)%position_of_spec); [|done].
      eapply tank_step; [by eapply list_elem_of_lookup_2|exact He|]. by apply IH.
  - remember (he_user_id e) as u eqn:Hu. intros Hc. revert i e Hi Hu.
    induction Hc as [u Hout|e' He' Hs|e' s He' Hs _ IH]; intros i e Hi Hu.
    + destruct Hout. apply list_elem_of_fmap. exists e. split; [done|]. by eapply list_elem_of_lookup_2.
    + assert (e' = e) as ->. { eapply (tank_user_inj tank); [done..|by eapply list_elem_of_lookup_2|done]. }
      eapply chain_end; [by rewrite tank_slot, Hi|]. cbn. by rewrite Hs.
    + assert (e' = e) as ->. { eapply (tank_user_inj tank); [done..|by eapply list_elem_of_lookup_2|done]. }
      destruct (position_of t !! s) as [j|] eqn:Hj.
      * eapply chain_step; [by rewrite tank_slot, Hi|cbn; rewrite Hs; exact Hj|].
        apply position_of_spec in Hj as (e' & Hj & <-); [|done]. by eapply IH.
      * eapply chain_end; [by rewrite tank_slot, Hi|]. cbn. rewrite Hs. exact Hj.
Qed.

(** *** The walk accepts exactly the tanks whose chains end *)
Lemma check_tank_chains_iff : NoDup (he_user_id <$> tank) → (∀ e, e ∈ tank → he_user_id e ≠ nil_uuid) →
  check_tank_sponsor_chains_end t = Ok () ↔ ∀ e, e ∈ tank → tank_ends tank (he_user_id e).
Proof.
  intros Hnd Hl. unfold check_tank_sponsor_chains_end.
  assert (Hlen : length tank = length (nodes tank_arena)) by (cbn; by rewrite length_fmap). rewrite Hlen, bind_ok.
  setoid_rewrite check_tank_chains_ok.
  2:{ intros i e He%elem_of_enumerate. apply Hl. by eapply list_elem_of_lookup_2. }
  split.
  - intros (v & Hrun & _) e (i & Hi)%list_elem_of_lookup. apply (tank_chain_ends Hnd i e Hi).
    eapply (check_chains_sound _ _ _ _ (settled_init tank_arena) Hrun i (entry_node e)); [|apply Hl; by eapply list_elem_of_lookup_2].
    apply list_elem_of_fmap. exists (i, e). split; [done|]. by apply elem_of_enumerate.
  - intros Hends. destruct (fold_outcome_total (settled tank_arena) (check_chain_from tank_arena)
      (prod_map id entry_node <$> enumerate tank) (replicate (length (nodes tank_arena)) Unseen) (settled_init _)) as (v & Hv & _); [|eauto].
    intros v x ([i e] & -> & Hi%elem_of_enumerate)%list_elem_of_fmap Hv. cbn [prod_map id].
    apply (check_chain_from_total tank_arena v i (entry_node e)); [done|by rewrite tank_slot, Hi|]. intros _.
    apply (tank_chain_ends Hnd i e Hi), Hends. by eapply list_elem_of_lookup_2.
Qed.

Lemma check_listed_cases seen e : check_listed seen e =
  if decide (he_user_id e ∈ seen) then Err (HoldingTankUserRepeated (he_user_id e)) else Ok ({[he_user_id e]} ∪ seen).
Proof. unfold check_listed. by rewrite refuse_decide. Qed.

Lemma check_listed_fold l (seen : gset Uuid) s : fold_outcome check_listed seen l = Ok s →
  NoDup (he_user_id <$> l) ∧ ∀ e, e ∈ l → he_user_id e ∉ seen.
Proof.
  revert seen. induction l as [|e l IH]; intros seen; cbn [fold_outcome fmap list_fmap]; [intros _; split; [constructor|by intros ? ?%elem_of_nil]|].
  rewrite check_listed_cases. case_decide as He; [done|]. cbn [mbind outcome_bind]. intros (Hnd & Hs)%IH. split.
  - apply NoDup_cons. split; [|done]. intros (e' & Heq & Hin)%list_elem_of_fmap. apply (Hs e' Hin). rewrite Heq. set_solver.
  - intros e' [->|Hin]%elem_of_cons; [done|]. specialize (Hs e' Hin). set_solver.
Qed.

Lemma check_listed_total l (seen : gset Uuid) : NoDup (he_user_id <$> l) → (∀ e, e ∈ l → he_user_id e ∉ seen) →
  ∃ s, fold_outcome check_listed seen l = Ok s.
Proof.
  revert seen. induction l as [|e l IH]; intros seen Hnd Hs; cbn [fold_outcome]; [eauto|].
  cbn in Hnd. apply NoDup_cons in Hnd as [Hne Hnd]. rewrite check_listed_cases, decide_False by (apply Hs; left).
  cbn [mbind outcome_bind]. apply IH; [done|]. intros e' Hin. rewrite not_elem_of_union, not_elem_of_singleton. split; [|apply Hs; by right].
  intros Heq. apply Hne. rewrite <- Heq. by apply list_elem_of_fmap_2.
Qed.
End tank_chains.

(** ** The whole validation *)

Lemma tank_checks_iff t :
  (for_each (λ '(position, e), refuse_if (is_nil (he_user_id e)) (HoldingTankUserNil position)) (enumerate (holding_tank t));;
   for_each (λ '(position, e), refuse_if (bool_decide (he_sponsor_user_id e = Some nil_uuid)) (HoldingTankSponsorNil position))
     (enumerate (holding_tank t));;
   for_each (λ e, match index (arena t) !! he_user_id e with
                  | Some idx => Err (HoldingTankUserPlaced (he_user_id e) idx)
                  | None => Ok ()
                  end) (holding_tank t);;
   _ ← fold_outcome check_listed ∅ (holding_tank t);
   check_tank_sponsor_chains_end t) = Ok () ↔ tank_wf t.
Proof.
  rewrite !bind_unit_ok, bind_ok, !for_each_ok. split.
  - intros (Hu & Hs & Hp & seen & Hnd%check_listed_fold & Hc). destruct Hnd as [Hnd _].
    assert (Hl : ∀ e, e ∈ holding_tank t → he_user_id e ≠ nil_uuid).
    { intros e (i & Hi)%list_elem_of_lookup. specialize (Hu (i, e) (proj2 (elem_of_enumerate _ _ _) Hi)).
      by apply refuse_if_ok, bool_decide_eq_false in Hu. }
    rewrite check_tank_chains_iff in Hc by done. split; try done.
    + intros e (i & Hi)%list_elem_of_lookup. specialize (Hs (i, e) (proj2 (elem_of_enumerate _ _ _) Hi)).
      by apply refuse_if_ok, bool_decide_eq_false in Hs.
    + intros e He. specialize (Hp e He). by destruct (index (arena t) !! he_user_id e).
  - intros [T1 T2 T3 T4 T5]. destruct (check_listed_total (holding_tank t) ∅ T1) as [seen Hseen]; [intros e _; apply not_elem_of_empty|].
    split_and!.
    + intros [i e] Hi%elem_of_enumerate%list_elem_of_lookup_2. by apply refuse_if_ok, bool_decide_eq_false, T2.
    + intros [i e] Hi%elem_of_enumerate%list_elem_of_lookup_2. by apply refuse_if_ok, bool_decide_eq_false, T3.
    + intros e He. by rewrite (T4 e He).
    + exists seen. split; [done|]. by apply check_tank_chains_iff.
Qed.

Lemma matrix_validate_restored_spec t : validate_restored t = Ok () ↔ matrix_wf t.
Proof.
  assert (Hassoc : validate_restored t = Ok () ↔ (2 ≤ width t)%N ∧ spillover t = BreadthFirst ∧
    arena_wf (arena t) ∧ tank_wf t ∧ slots_wf id (arena t) (slots t) ∧ ∀ i s, slots t !! i = Some s → width_fault t i s = None).
  { rewrite <- tank_checks_iff. unfold validate_restored. rewrite !bind_unit_ok, !refuse_if_ok, N.ltb_ge, bool_decide_eq_false.
    rewrite !bind_ok, validate_restored_spec.
    assert (Hsd : spillover t ≠ DepthFirst ↔ spillover t = BreadthFirst) by (destruct (spillover t); naive_solver).
    rewrite Hsd. split.
    - intros (Hw & Hs & Hwf & He & H1 & H2 & H3 & seen & H4 & H5). rewrite !bind_unit_ok in H5.
      destruct H5 as (H5 & H6 & H7 & H8).
      assert (slots_wf id (arena t) (slots t) ∧ ∀ i s, slots t !! i = Some s → width_fault t i s = None) as [? ?].
      { rewrite <- (slot_checks_iff id (arena t) Hwf (width_fault t)), !bind_unit_ok. done. }
      split_and!; try done. by rewrite H4.
    - intros (Hw & Hs & Hwf & (H1 & H2 & H3 & H4) & Hsl). apply bind_ok in H4 as (seen & H4 & H5).
      apply (slot_checks_iff id (arena t) Hwf (width_fault t)) in Hsl. rewrite !bind_unit_ok in Hsl. destruct Hsl as (? & ? & ? & ?).
      split_and!; try done. exists seen. rewrite !bind_unit_ok. done. }
  rewrite Hassoc. unfold width_fault. split.
  - intros (Hw & Hs & Hwf & Htk & Hsl & Hlen). split; try done. intros i s Hi. specialize (Hlen i s Hi).
    destruct (decide (length s = N.to_nat (width t))); [done|]. by rewrite bool_decide_eq_true_2 in Hlen.
  - intros [Hw Hs Hwf Hsl Hlen Htk]. split_and!; try done. intros i s Hi. rewrite bool_decide_eq_false_2; [done|].
    rewrite (Hlen i s Hi). intros H. by apply H.
Qed.

(** A matrix snapshot is accepted exactly when width, spillover mode, arena,
    child slots and holding tank satisfy the invariant of [MatrixSpec]: slot
    lists of the tree's width that agree with the arena, and a tank of distinct
    absent users whose sponsor chains end. *)
Theorem matrix_validate_restored_iff t : validate_restored t = Ok () ↔ matrix_wf t.
Proof. exact (matrix_validate_restored_spec t). Qed.
