(* ===== verification/MatrixRemove.v ===== *)
(** * Moving a subtree to the holding tank: [tree/matrix.rs], [remove_node]

    [remove_to_holding_tank] clears a node and everything below it, hands the
    recruits that stay to their heirs, and stores the rest in the tank. This file
    shows that it succeeds on every tree the invariant describes, leaves such a
    tree, and reports exactly what it did. *)

From stdpp Require Import base numbers list gmap sorting strings.
From Stdlib Require Import ZArith Lia.
From S2P Require Import Prelude TreeTypes Arena ArenaCheck ArenaWf ArenaOps ArenaWalk ArenaRestore ArenaPrune SlotMap Binary Matrix MatrixSpec.
Import Matrix.

(** ** The subtree *)

Lemma descendants_loop_frontier {E} a sd level roots fuel visited queue : arena_wf a → (sd ≤ level)%N →
  (∀ i, i ∈ roots → ∃ n, nodes a !! i = Some n ∧ depth n = level) →
  (∀ i, reach a sd 0 roots i → live_at a i) →
  frontier a sd 0 level roots visited queue → length (nodes a) < fuel + length visited →
  ∃ l, @descendants_loop E fuel a queue visited = Ok l ∧ frontier a sd 0 level roots l [].
Proof.
  intros Hwf Hlev Hroots Hlive. revert visited queue. induction fuel as [|fuel IH]; intros visited queue F Hf.
  { pose proof (nodup_in_arena a _ (fr_nodup _ _ _ _ _ _ _ F) (fr_live _ _ _ _ _ _ _ F)) as Hlen.
    rewrite length_app in Hlen. lia. }
  destruct queue as [|i queue]; [by exists visited|]. cbn [descendants_loop].
  destruct (Hlive i) as (n & Hi & Hl); [eapply (fr_reach _ _ _ _ _ _ _ F); apply elem_of_app; right; left|].
  rewrite (node_ok a i n Hi Hl). cbn [mbind outcome_bind]. apply IH; [|rewrite length_app; cbn; lia].
  eapply frontier_step; [done|done|done|exact F|exact Hi|left; split; [done|by left]].
Qed.

Lemma descendants_spec {E} t idx n : arena_wf (arena t) → nodes (arena t) !! idx = Some n → user_id n ≠ nil_uuid →
  ∃ ds, @descendants E t idx = Ok ds ∧ NoDup ds ∧ ∀ j, j ∈ ds ↔ below (arena t) idx j.
Proof.
  intros Hwf Hi Hl. unfold descendants. rewrite (node_ok _ idx n Hi Hl). cbn [mbind outcome_bind].
  assert (Hroots : ∀ c, c ∈ children n → ∃ m, nodes (arena t) !! c = Some m ∧ depth m = (depth n + 1)%N).
  { intros c Hc. destruct (wf_children _ Hwf idx n c Hi Hc) as (nc & Hnc & Hp). exists nc. split; [done|].
    apply (wf_depth _ Hwf c nc idx n Hnc Hp Hi). }
  assert (Hreach : ∀ j, reach (arena t) (depth n) 0 (children n) j ↔ below (arena t) idx j).
  { intros j. rewrite (reach_below _ Hwf idx n 0 j Hi). naive_solver. }
  destruct (descendants_loop_frontier (E := E) (arena t) (depth n) (depth n + 1) (children n) (loop_fuel (arena t)) [] (children n))
    as (l & -> & F); [done|lia|done| | |unfold loop_fuel; cbn; lia|].
  - intros i Hr%Hreach. destruct (below_live _ Hwf idx i Hr) as (m & ? & ?). by exists m.
  - apply frontier_init; [by eapply wf_children_nodup|lia|done].
  - exists l. pose proof (fr_nodup _ _ _ _ _ _ _ F) as H1. pose proof (fr_reach _ _ _ _ _ _ _ F) as H2.
    rewrite app_nil_r in H1, H2. split_and!; [done..|]. intros j. rewrite <- Hreach. split; [apply H2|]. by eapply frontier_done.
Qed.

(** A slot list with one entry cleared. *)
Lemma flatten_unslot (s : list (option NodeIndex)) k x : NoDup (flatten s) → s !! k = Some (Some x) →
  flatten (<[k := None]> s) = filter (λ c, c ≠ x) (flatten s).
Proof.
  intros Hnd Hk. pose proof (lookup_lt_Some _ _ _ Hk). unfold flatten in *.
  rewrite <- (take_drop_middle s k (Some x) Hk), omap_app in Hnd. cbn in Hnd.
  rewrite <- (take_drop_middle s k (Some x) Hk) at 2. rewrite insert_take_drop, !omap_app by done. cbn.
  rewrite filter_app, filter_cons_False by naive_solver. apply NoDup_app in Hnd as (_ & Hd & [Hx _]%NoDup_cons).
  rewrite !filter_all_true; [done|..]; apply Forall_forall.
  - intros y Hy ->. done.
  - intros y Hy ->. apply (Hd x Hy). left.
Qed.

Lemma find_slot_ok {E} t p sp x : slots t !! p = Some sp → x ∈ flatten sp →
  ∃ k, @find_slot_position E t p x = Ok k ∧ sp !! k = Some (Some x).
Proof.
  intros Hp Hx%elem_of_flatten. unfold find_slot_position. rewrite Hp. cbn [expect mbind outcome_bind].
  destruct (list_find (λ o, o = Some x) sp) as [[k o]|] eqn:Hf.
  - apply list_find_Some in Hf as (Hk & -> & _). eauto.
  - apply list_find_None in Hf. rewrite Forall_forall in Hf. by destruct (Hf _ Hx).
Qed.

(** ** Clearing the subtree *)
Section clear.
Context (t : MatrixTree) (L : list NodeIndex) (a1 : Arena).
Context (Hwf : arena_wf (arena t)) (HL : NoDup L) (Hlive : ∀ i, i ∈ L → live_at (arena t) i).
Context (Hf1 : same_frame (arena t) a1) (Hn1 : ∀ j, nodes a1 !! j = hand_on (arena t) L L j <$> nodes (arena t) !! j).

(** The arena once the nodes of [D] are cut from their sponsors and those of [T] cleared. *)
Definition cut_nodes (D T : list NodeIndex) (a2 : Arena) : Prop :=
  ∀ j, nodes a2 !! j = if decide (j ∈ T) then Some tombstone_node
                   else with_sponsored (filter (λ c, c ∉ D)) <$> nodes a1 !! j.

(** Only the stored sponsor of a removed node lists it. *)
Lemma listed_by_sponsor d n j m : d ∈ L → nodes (arena t) !! d = Some n → nodes a1 !! j = Some m →
  d ∈ sponsored m → sponsor n = Some j ∧ (j ∉ L).
Proof using All.
  intros Hd Hdn Hj Hin. rewrite Hn1 in Hj. apply fmap_Some in Hj as (nj & Hnj & ->). cbn in Hin. apply elem_of_app in Hin as [Hin|Hin].
  - case_decide as HjL; [by apply elem_of_nil in Hin|]. split; [|done].
    destruct (wf_sponsored _ Hwf j nj d Hnj Hin) as (n' & ? & ?). congruence.
  - exfalso. apply list_elem_of_bind in Hin as (k & Hin & Hk). case_decide; [|by apply elem_of_nil in Hin].
    destruct (Hlive k Hk) as (nk & Hnk & _). by destruct (proj1 (stays_spec _ L k nk d Hnk) Hin).
Qed.

Lemma cut_step {E} D T a2 d n : d ∈ L → nodes (arena t) !! d = Some n → (∀ i, i ∈ T → i ∈ L) →
  cut_nodes D T a2 →
  ∃ a3, @cut_sponsor E a2 L (sponsor n) d = Ok a3 ∧ same_frame a2 a3 ∧ cut_nodes (D ++ [d]) T a3.
Proof using All.
  intros Hd Hdn HT Hc.
  assert (Heq : ∀ j m, nodes a1 !! j = Some m → (sponsor n ≠ Some j ∨ j ∈ L) →
    filter (λ c, c ∉ D ++ [d]) (sponsored m) = filter (λ c, c ∉ D) (sponsored m)).
  { intros j m Hm Hj. apply filter_iff_in. intros c Hcin. rewrite not_elem_of_app, not_elem_of_cons.
    split; [naive_solver|]. intros HD. split_and!; [done| |apply not_elem_of_nil]. intros ->.
    destruct (listed_by_sponsor d n j m Hd Hdn Hm Hcin). naive_solver. }
  unfold cut_sponsor. destruct (sponsor n) as [s|] eqn:Hs.
  2:{ exists a2. split_and!; try done. intros j. rewrite Hc. case_decide; [done|]. destruct (nodes a1 !! j) as [m|] eqn:Hm; [|done].
      cbn. unfold with_sponsored. by rewrite (Heq j m Hm) by (by left). }
  case_bool_decide as HsL.
  { exists a2. split_and!; try done. intros j. rewrite Hc. case_decide; [done|]. destruct (nodes a1 !! j) as [m|] eqn:Hm; [|done].
    cbn. unfold with_sponsored. rewrite (Heq j m Hm); [done|]. destruct (decide (s = j)) as [->|]; [by right|left; congruence]. }
  destruct (wf_sponsor_live _ Hwf d n s Hdn Hs) as (ns & Hns & _ & Hsl).
  assert (Hs2 : nodes a2 !! s = Some (with_sponsored (filter (λ c, c ∉ D)) (hand_on (arena t) L L s ns))).
  { rewrite Hc, decide_False, Hn1, Hns; [done|]. intros HsT. by apply HsL, HT. }
  rewrite (node_mut_ok a2 s _ _ Hs2) by done. eexists. split; [done|]. split; [done|].
  intros j. cbn [nodes with_nodes]. rewrite lookup_alter_nodes. destruct (decide (j = s)) as [->|Hj].
  - rewrite Hs2, decide_False by (intros HsT; by apply HsL, HT). rewrite Hn1, Hns. cbn. f_equal. unfold with_sponsored. cbn. f_equal.
    rewrite list_filter_filter. apply filter_iff_in. intros c _. rewrite not_elem_of_app, not_elem_of_cons. pose proof (not_elem_of_nil c). naive_solver.
  - rewrite Hc. case_decide; [done|]. destruct (nodes a1 !! j) as [m|] eqn:Hm; [|done].
    cbn. unfold with_sponsored. by rewrite (Heq j m Hm) by (left; congruence).
Qed.

(** What the loop over the descendants keeps. *)
Record clearing (D : list NodeIndex) (t0 t2 : MatrixTree) : Prop := {
  cg_nodes : cut_nodes D D (arena t2);
  cg_index v i : index (arena t2) !! v = Some i ↔ index (arena t) !! v = Some i ∧ (i ∉ D);
  cg_root : root (arena t2) = root (arena t);
  cg_free : free_list (arena t2) = free_list (arena t) ++ D;
  cg_slots i : slots t2 !! i = if decide (i ∈ D) then None else slots t !! i;
  cg_frame : width t2 = width t ∧ spillover t2 = spillover t ∧ holding_tank t2 = holding_tank t0;
}.

Lemma clear_step t0 D d t2 : clearing D t0 t2 → (∀ i, i ∈ D → i ∈ L) → d ∈ L → d ∉ D →
  ∃ t3, clear_descendant L t2 d = Ok t3 ∧ clearing (D ++ [d]) t0 t3.
Proof using All.
  intros [C1 C2 C3 C4 C5 C6] HD Hd Hnew. destruct (Hlive d Hd) as (n & Hn & Hl).
  assert (Hsp : sponsor (hand_on (arena t) L L d n) = sponsor n).
  { cbn. destruct (sponsor n); [|done]. cbn. rewrite decide_False; [done|]. rewrite elem_of_list_to_set. naive_solver. }
  assert (Hd2 : nodes (arena t2) !! d = Some (with_sponsored (filter (λ c, c ∉ D)) (hand_on (arena t) L L d n)))
    by (by rewrite (C1 d), decide_False, Hn1, Hn).
  unfold clear_descendant. rewrite (node_ok _ d _ Hd2 Hl). cbn [mbind outcome_bind].
  change (sponsor (with_sponsored _ ?m)) with (sponsor m). rewrite Hsp.
  destruct (cut_step (E := TreeError) D D (arena t2) d n Hd Hn HD C1) as (a3 & -> & (F1 & F2 & F3) & C1'). cbn [mbind outcome_bind].
  assert (Hd3 : nodes a3 !! d = Some (with_sponsored (filter (λ c, c ∉ D ++ [d])) (hand_on (arena t) L L d n)))
    by (by rewrite (C1' d), decide_False, Hn1, Hn).
  rewrite (node_ok _ d _ Hd3 Hl). cbn [mbind outcome_bind]. unfold tombstone.
  rewrite (slot_ok (with_index _ a3) d _ Hd3). cbn [mbind outcome_bind]. eexists. split; [done|].
  split; cbn [arena slots with_slots with_arena nodes index root free_list with_index width spillover holding_tank].
  - intros j. cbn. destruct (decide (j = d)) as [->|Hj].
    + rewrite decide_True by set_solver. apply list_lookup_insert_eq. by eapply lookup_lt_Some.
    + rewrite list_lookup_insert_ne by done. rewrite C1'. by rewrite (decide_ext (j ∈ D ++ [d]) (j ∈ D)) by set_solver.
  - intros v i. cbn. rewrite F1, lookup_delete_Some, C2, not_elem_of_app, list_elem_of_singleton. split.
    + intros (Hv & Hi & HiD). split_and!; [done..|]. intros ->. apply Hv.
      destruct (resolve_live _ Hwf v d Hi) as (n' & Hn' & <- & _). cbn. congruence.
    + intros (Hi & HiD & Hne). split_and!; [|done..]. intros <-. cbn in Hi.
      rewrite (live_indexed _ Hwf d n Hn Hl) in Hi. congruence.
  - congruence.
  - rewrite F2, C4. by rewrite <- app_assoc.
  - intros i. destruct (decide (i = d)) as [->|Hi]; [rewrite lookup_delete_eq, decide_True; set_solver|].
    rewrite lookup_delete_ne, C5 by done. by rewrite (decide_ext (i ∈ D ++ [d]) (i ∈ D)) by set_solver.
  - done.
Qed.

Lemma clear_all t0 D M t2 : clearing D t0 t2 → NoDup (D ++ M) → (∀ i, i ∈ D ++ M → i ∈ L) →
  ∃ t3, fold_outcome (clear_descendant L) t2 M = Ok t3 ∧ clearing (D ++ M) t0 t3.
Proof using All.
  revert D t2. induction M as [|d M IH]; intros D t2 Hc Hnd Hsub; cbn [fold_outcome].
  { rewrite app_nil_r. eauto. }
  assert (d ∉ D). { intros HdD. apply NoDup_app in Hnd as (_ & Hd & _). apply (Hd d HdD). left. }
  destruct (clear_step t0 D d t2 Hc) as (t3 & -> & Hc3); [|apply Hsub; set_solver|done|].
  { intros i Hi. apply Hsub. set_solver. }
  cbn [mbind outcome_bind]. destruct (IH (D ++ [d]) t3 Hc3) as (t4 & -> & Hc4); rewrite <- ?app_assoc; try done.
  exists t4. split; [done|]. by rewrite <- app_assoc in Hc4.
Qed.
End clear.

(** The tank entry of a member. *)
Definition entry_of (a : Arena) (j : NodeIndex) : HoldingTankEntry :=
  match nodes a !! j with
  | Some n => mkEntry (user_id n) (uid_at a <$> sponsor n) (enrolled_at n)
  | None => mkEntry nil_uuid None 0
  end.

Lemma tank_entry_ok {E} a a1 L j : arena_wf a → j ∈ L → live_at a j →
  (∀ j, nodes a1 !! j = hand_on a L L j <$> nodes a !! j) → @tank_entry E a1 j = Ok (entry_of a j).
Proof.
  intros Hwf Hj (n & Hn & Hl) Hn1. unfold tank_entry, entry_of. rewrite Hn.
  rewrite (node_ok a1 j (hand_on a L L j n)) by (done || (by rewrite Hn1, Hn)). cbn [mbind outcome_bind].
  assert (Hsp : sponsor (hand_on a L L j n) = sponsor n).
  { cbn. destruct (sponsor n); [|done]. cbn. rewrite decide_False; [done|]. rewrite elem_of_list_to_set. naive_solver. }
  rewrite Hsp. destruct (sponsor n) as [s|] eqn:Hs; [|done].
  destruct (wf_sponsor_live a Hwf j n s Hn Hs) as (ns & Hns & _ & Hsl).
  rewrite (node_ok a1 s (hand_on a L L s ns)) by (done || (by rewrite Hn1, Hns)). cbn. unfold uid_at. by rewrite Hns.
Qed.

(** ** The tank afterwards *)

Lemma entry_of_live a j n : nodes a !! j = Some n →
  he_user_id (entry_of a j) = user_id n ∧ he_sponsor_user_id (entry_of a j) = uid_at a <$> sponsor n.
Proof. intros Hn. unfold entry_of. by rewrite Hn. Qed.

Section tank_after.
Context (t : MatrixTree) (L : list NodeIndex) (Hwf : arena_wf (arena t)) (Htk : tank_wf t).
Context (HL : NoDup L) (Hlive : ∀ i, i ∈ L → live_at (arena t) i).
Abbreviation a := (arena t).
Abbreviation tank' := (holding_tank t ++ (entry_of a <$> L)).

Lemma tank_users u : u ∈ he_user_id <$> tank' ↔ u ∈ he_user_id <$> holding_tank t ∨ ∃ j n, j ∈ L ∧ nodes a !! j = Some n ∧ user_id n = u.
Proof using Hlive.
  rewrite fmap_app, elem_of_app. f_equiv. rewrite list_elem_of_fmap. split.
  - intros (e & -> & (j & -> & Hj)%list_elem_of_fmap). destruct (Hlive j Hj) as (n & Hn & _).
    exists j, n. split_and!; [done..|]. symmetry. by apply entry_of_live.
  - intros (j & n & Hj & Hn & <-). exists (entry_of a j). split; [symmetry; by apply entry_of_live|by apply list_elem_of_fmap_2].
Qed.

Lemma placed_not_in_tank j n : nodes a !! j = Some n → user_id n ≠ nil_uuid → j ∉ L → user_id n ∉ he_user_id <$> tank'.
Proof using All.
  intros Hn Hl Hj. rewrite tank_users. intros [(e & He & Hin)%list_elem_of_fmap|(k & m & Hk & Hm & Hu)].
  - pose proof (tk_absent t Htk e Hin) as Hno. rewrite <- He, (live_indexed _ Hwf j n Hn Hl) in Hno. done.
  - assert (index a !! user_id m = Some k) by (eapply live_indexed; [done|done|congruence]).
    rewrite Hu, (live_indexed _ Hwf j n Hn Hl) in H. by simplify_eq.
Qed.

Lemma moved_ends i : chain_ends a i → ∀ n, nodes a !! i = Some n → user_id n ≠ nil_uuid → tank_ends tank' (user_id n).
Proof using All.
  induction 1 as [i n' Hi Hs|i n' j Hi Hs _ IH]; intros n Hn Hl; assert (n' = n) as -> by congruence;
  (destruct (decide (i ∈ L)) as [HiL|HiL]; [|by apply tank_end; eapply placed_not_in_tank]);
  destruct (entry_of_live a i n Hn) as [Hu Hsp]; rewrite Hs in Hsp; rewrite <- Hu.
  - apply tank_none; [|done]. apply elem_of_app. right. by apply list_elem_of_fmap_2.
  - destruct (wf_sponsor_live a Hwf i n j Hn Hs) as (nj & Hnj & _ & Hjl). eapply tank_step; [|exact Hsp|].
  + apply elem_of_app. right. by apply list_elem_of_fmap_2.
  + unfold uid_at. rewrite Hnj. by apply IH.
Qed.

Lemma old_ends u : tank_ends (holding_tank t) u → tank_ends tank' u.
Proof using All.
  induction 1 as [u Hu|e He Hs|e s He Hs _ IH].
  - destruct (decide (u ∈ he_user_id <$> tank')) as [Hin|]; [|by apply tank_end].
    apply tank_users in Hin as [|(j & n & Hj & Hn & <-)]; [done|]. destruct (Hlive j Hj) as (n' & Hn' & Hl).
    assert (n' = n) as -> by congruence. eapply moved_ends; [by eapply wf_chain|done|done].
  - apply tank_none; [|done]. apply elem_of_app. by left.
  - eapply tank_step; [|exact Hs|done]. apply elem_of_app. by left.
Qed.

Lemma tank_after t' : holding_tank t' = tank' →
  (∀ v i, index (arena t') !! v = Some i → index a !! v = Some i ∧ (i ∉ L)) → tank_wf t'.
Proof using All.
  intros Ht Hix. destruct Htk as [T1 T2 T3 T4 T5].
  assert (Hcase : ∀ e, e ∈ tank' → e ∈ holding_tank t ∨ ∃ j n, e = entry_of a j ∧ j ∈ L ∧ nodes a !! j = Some n ∧ user_id n ≠ nil_uuid).
  { intros e [He|(j & -> & Hj)%list_elem_of_fmap]%elem_of_app; [by left|]. destruct (Hlive j Hj) as (n & ? & ?). right. eauto 10. }
  split; rewrite Ht.
  - rewrite fmap_app, <- list_fmap_compose. apply NoDup_app. split_and!; [done| |].
    + intros u (e & -> & He)%list_elem_of_fmap (j & Hu & Hj)%list_elem_of_fmap. cbn in Hu.
      destruct (Hlive j Hj) as (n & Hn & Hl). destruct (entry_of_live a j n Hn) as [Hj' _].
      pose proof (T4 e He) as Hno. rewrite Hu, Hj', (live_indexed _ Hwf j n Hn Hl) in Hno. done.
    + apply (NoDup_fmap_2_strong _ _); [|done]. intros x y Hx Hy Hxy. cbn in Hxy.
      destruct (Hlive x Hx) as (nx & Hnx & Hlx). destruct (Hlive y Hy) as (ny & Hny & Hly).
      rewrite (proj1 (entry_of_live a x nx Hnx)), (proj1 (entry_of_live a y ny Hny)) in Hxy.
      pose proof (live_indexed _ Hwf x nx Hnx Hlx) as Hix1. pose proof (live_indexed _ Hwf y ny Hny Hly). congruence.
  - intros e [He|(j & n & -> & _ & Hn & Hl)]%Hcase; [by apply T2|]. by rewrite (proj1 (entry_of_live a j n Hn)).
  - intros e [He|(j & n & -> & _ & Hn & Hl)]%Hcase; [by apply T3|]. rewrite (proj2 (entry_of_live a j n Hn)).
    destruct (sponsor n) as [s|] eqn:Hs; [|done]. destruct (wf_sponsor_live a Hwf j n s Hn Hs) as (ns & Hns & _ & Hsl).
    cbn. unfold uid_at. rewrite Hns. cbn. congruence.
  - intros e [He|(j & n & -> & Hj & Hn & Hl)]%Hcase; apply eq_None_not_Some; intros [i [Hi Hout]%Hix].
    + by rewrite (T4 e He) in Hi.
    + rewrite (proj1 (entry_of_live a j n Hn)), (live_indexed _ Hwf j n Hn Hl) in Hi. by simplify_eq.
  - intros e [He|(j & n & -> & Hj & Hn & Hl)]%Hcase; [by apply old_ends, T5|].
    rewrite (proj1 (entry_of_live a j n Hn)). eapply moved_ends; [by eapply wf_chain|done|done].
Qed.
End tank_after.

(** ** The removal *)
Section remove.
Context (t : MatrixTree) (Hm : matrix_wf t) (u : Uuid) (idx : NodeIndex) (n : Node) (ds : list NodeIndex).
Context (Hn : nodes (arena t) !! idx = Some n) (Hu : user_id n = u) (Hl : user_id n ≠ nil_uuid).
Context (Hds : NoDup ds ∧ ∀ j, j ∈ ds ↔ below (arena t) idx j) (Hroot : root (arena t) ≠ Some idx).
Context (Hcheck : check_sponsored_removable (arena t) (idx :: ds) = Ok ()).
Abbreviation a := (arena t).
Abbreviation L := (idx :: ds).
Let Hwf := mw_arena t Hm.

Lemma tank_set_nodup : NoDup L.
Proof using All.
  apply NoDup_cons. split; [|apply Hds]. intros Hb%Hds. pose proof (below_depth a Hwf idx n idx n Hn Hb Hn). lia.
Qed.

Lemma tank_set_live i : i ∈ L → live_at a i.
Proof using All.
  intros [->|Hi%Hds]%elem_of_cons; [by exists n|]. destruct (below_live a Hwf idx i Hi) as (m & ? & ?). by exists m.
Qed.

Lemma tank_set_closed i m c : i ∈ L → nodes a !! i = Some m → c ∈ children m → c ∈ L.
Proof using All.
  intros Hi Hm' Hc. right. apply Hds. apply elem_of_cons in Hi as [->|Hi%Hds]; [by eapply below_child|by eapply below_step].
Qed.

Lemma tank_set_root i : i ∈ L → root a ≠ Some i.
Proof using All.
  intros [->|Hi%Hds]%elem_of_cons; [done|]. destruct (below_inv a Hwf idx i Hi) as (m & p & _ & Hm' & Hp & _).
  intros Hr. rewrite (root_parentless a i m Hwf Hr Hm') in Hp. done.
Qed.

Lemma tank_set_heirs i : i ∈ L → stays a L i ≠ [] → is_Some (heir a (list_to_set L) i).
Proof using All. apply removable_heirs; [done|apply tank_set_live|done]. Qed.

(** Of the children of a node that stays, only [idx] can be in the set. *)
Lemma kept_children p np c : nodes a !! p = Some np → p ∉ L → c ∈ children np → c ∈ L ↔ c = idx.
Proof using All.
  intros Hp Hout Hc. split; [|intros ->; left]. intros [->|Hb%Hds]%elem_of_cons; [done|]. exfalso.
  destruct (wf_children a Hwf p np c Hp Hc) as (nc & Hnc & Hpc).
  destruct (below_inv a Hwf idx c Hb) as (nc' & q & _ & Hnc' & Hq & _ & _ & _ & Hor).
  assert (q = p) as -> by congruence. apply Hout. destruct Hor as [->|Hb']; [left|right; by apply Hds].
Qed.

Lemma below_not_parent p : parent n = Some p → p ∉ L.
Proof using All.
  intros Hp. destruct (wf_parent a Hwf idx n p Hn Hp) as (np & Hnp & _). destruct (wf_depth a Hwf idx n p np Hn Hp Hnp) as [Hd _].
  intros [->|Hb%Hds]%elem_of_cons; [simplify_eq; lia|]. pose proof (below_depth a Hwf idx n p np Hn Hb Hnp). lia.
Qed.

Lemma map_entries {E} a1 M : (∀ j, nodes a1 !! j = hand_on a L L j <$> nodes a !! j) → (∀ j, j ∈ M → j ∈ L) →
  map_outcome (@tank_entry E a1) M = Ok (entry_of a <$> M).
Proof using All.
  intros Hn1. induction M as [|j M IH]; intros HM; [done|]. cbn [map_outcome fmap list_fmap].
  rewrite (tank_entry_ok a a1 L j Hwf) by (done || (apply HM; left) || (apply tank_set_live, HM; left)). cbn [mbind outcome_bind].
  rewrite IH by (intros k Hk; apply HM; by right). done.
Qed.

(** *** The last writes: [idx] itself *)
Section last.
Context (p : NodeIndex) (np : Node) (sp : list (option NodeIndex)) (k : nat).
Context (Hp : parent n = Some p) (Hnp : nodes a !! p = Some np) (Hsp : slots t !! p = Some sp) (Hk : sp !! k = Some (Some idx)).
Context (a1 : Arena) (Hf1 : same_frame a a1) (Hn1 : ∀ j, nodes a1 !! j = hand_on a L L j <$> nodes a !! j).
Context (t0 t2 : MatrixTree) (Hcl : clearing t a1 ds t0 t2).
Context (Htank : holding_tank t0 = holding_tank t ++ (entry_of a <$> ds ++ [idx])).

Definition tank_tail : outcome TreeError MatrixTree :=
  a3 ← cut_sponsor (arena t2) L (sponsor n) idx;
  t3 ← set_slot (with_arena t2 a3) p k None;
  t4 ← rebuild_children t3 p;
  a5 ← tombstone (with_index (delete u) (arena t4)) idx;
  Ok (with_slots (with_arena t4 a5) (delete idx (slots t4))).

Lemma parent_children : flatten (<[k := None]> sp) = filter (λ c, c ∉ L) (children np).
Proof using All.
  assert (children np = flatten sp) as Hch by exact (sm_children _ _ _ p np sp (mw_slots t Hm) Hsp Hnp).
  rewrite (flatten_unslot sp k idx), <- Hch; [|rewrite <- Hch; by eapply wf_children_nodup|done].
  apply filter_iff_in. intros c Hc. rewrite (kept_children p np c Hnp); [done|by apply below_not_parent|done].
Qed.

Lemma tank_tail_ok : ∃ t', tank_tail = Ok t' ∧ pruned a (arena t') L ∧
  slots t' = delete idx (<[p := <[k := None]> sp]> (slots t2)) ∧
  width t' = width t ∧ spillover t' = spillover t ∧ holding_tank t' = holding_tank t0.
Proof using All.
  pose proof Hcl as [C1 C2 C3 C4 C5 (C6 & C7 & C8)].
  pose proof (below_not_parent p Hp) as Hpo. apply not_elem_of_cons in Hpo as [Hpi Hpd].
  destruct (wf_parent_live a Hwf idx n p Hn Hp) as (np' & Hnp' & _ & Hpl). assert (np' = np) as -> by congruence.
  assert (Hid : idx ∉ ds) by (pose proof tank_set_nodup as [? _]%NoDup_cons; done).
  unfold tank_tail.
  destruct (cut_step (E := TreeError) t L a1 Hwf tank_set_nodup tank_set_live Hf1 Hn1 ds ds (arena t2) idx n)
    as (a3 & -> & (F1 & F2 & F3) & C1'); [left|done|by right|done|]. cbn [mbind outcome_bind].
  unfold set_slot. cbn [slots with_arena]. rewrite C5, decide_False, Hsp by done. cbn [expect mbind outcome_bind].
  rewrite Hk. cbn [expect mbind outcome_bind]. unfold rebuild_children. cbn [slots with_slots with_arena arena].
  rewrite lookup_insert_eq. cbn [expect mbind outcome_bind].
  assert (Hp3 : nodes a3 !! p = Some (with_sponsored (filter (λ c, c ∉ ds ++ [idx])) (hand_on a L L p np)))
    by (by rewrite (C1' p), decide_False, Hn1, Hnp).
  rewrite (node_mut_ok a3 p _ _ Hp3 Hpl). cbn [mbind outcome_bind arena with_arena slots with_slots].
  assert (Hi3 : nodes a3 !! idx = Some (with_sponsored (filter (λ c, c ∉ ds ++ [idx])) (hand_on a L L idx n)))
    by (by rewrite (C1' idx), decide_False, Hn1, Hn).
  unfold tombstone. rewrite (slot_ok _ idx (with_sponsored (filter (λ c, c ∉ ds ++ [idx])) (hand_on a L L idx n)))
    by (cbn; rewrite lookup_alter_nodes, decide_False by done; exact Hi3).
  cbn [mbind outcome_bind]. eexists. split; [done|]. split_and!; try done. split; cbn.
  - intros j. destruct (decide (j = idx)) as [->|Hj].
    { rewrite list_lookup_insert_eq; [by rewrite decide_True by left|]. rewrite length_alter. by eapply lookup_lt_Some. }
    rewrite list_lookup_insert_ne, lookup_alter_nodes, C1' by done.
    rewrite (decide_ext (j ∈ L) (j ∈ ds)) by (rewrite elem_of_cons; naive_solver).
    destruct (decide (j ∈ ds)) as [Hjd|Hjd].
    { destruct (decide (j = p)) as [->|]; done. }
    rewrite Hn1. destruct (nodes a !! j) as [nj|] eqn:Hj'; [|by destruct (decide (j = p))].
    assert (Hfil : filter (λ c, c ∉ ds ++ [idx]) (sponsored (hand_on a L L j nj)) = filter (λ c, c ∉ L) (sponsored (hand_on a L L j nj))).
    { apply filter_iff_in. intros c _. rewrite elem_of_app, list_elem_of_singleton, elem_of_cons. naive_solver. }
    destruct (decide (j = p)) as [->|Hjp]; cbn [fmap option_fmap option_map]; f_equal; unfold with_children, with_sponsored, prune_update;
      cbn [user_id parent children sponsor sponsored depth enrolled_at hand_on] in *; rewrite Hfil; f_equal.
    + assert (nj = np) as -> by congruence. exact parent_children.
    + symmetry. apply filter_all_true, Forall_forall. intros c Hc HcL.
      rewrite (kept_children j nj c Hj') in HcL; [|rewrite not_elem_of_cons; done|done]. subst c.
      destruct (wf_children a Hwf j nj idx Hj' Hc) as (n' & ? & ?). congruence.
  - intros v i. rewrite F1, lookup_delete_Some, C2, not_elem_of_cons. split.
    + intros (Hv & Hi & HiD). split_and!; [done| |done]. intros ->.
      destruct (resolve_live _ Hwf v idx Hi) as (n' & Hn' & <- & _). apply Hv. congruence.
    + intros (Hi & Hne & HiD). split_and!; [|done..]. intros <-. rewrite <- Hu, (live_indexed _ Hwf idx n Hn Hl) in Hi. congruence.
  - congruence.
  - rewrite F2, C4. split.
    + rewrite <- app_assoc. apply NoDup_app. split_and!; [apply (wf_free_nodup a Hwf)| |].
      * intros i Hi Hi'. destruct (wf_free a Hwf i Hi) as (m & Hm' & Hnil). destruct (tank_set_live i) as (m' & ? & ?); [set_solver|congruence].
      * rewrite Permutation_app_comm. exact tank_set_nodup.
    + intros j. rewrite !elem_of_app, list_elem_of_singleton, elem_of_cons. naive_solver.
Qed.

(** The slot map afterwards. *)
Lemma tank_slots_lookup i : delete idx (<[p := <[k := None]> sp]> (slots t2)) !! i =
  if decide (i ∈ L) then None else if decide (i = p) then Some (<[k := None]> sp) else slots t !! i.
Proof using All.
  pose proof (below_not_parent p Hp) as Hpo. destruct (decide (i = idx)) as [->|Hi].
  { rewrite lookup_delete_eq, decide_True by left. done. }
  rewrite lookup_delete_ne by done. destruct (decide (i = p)) as [->|Hip].
  { by rewrite lookup_insert_eq, decide_False. }
  rewrite lookup_insert_ne, (cg_slots _ _ _ _ _ Hcl) by done. apply decide_ext. rewrite elem_of_cons. naive_solver.
Qed.

Lemma tank_removed_wf t' : pruned a (arena t') L → slots t' = delete idx (<[p := <[k := None]> sp]> (slots t2)) →
  width t' = width t → spillover t' = spillover t → holding_tank t' = holding_tank t0 → matrix_wf t'.
Proof using All.
  intros Hpr Hs Hw Hso Ht. pose proof Hm as [M1 M2 M3 M4 M5 M6].
  pose proof (wf_prune a (arena t') L Hwf Hpr tank_set_live tank_set_heirs tank_set_root tank_set_closed tank_set_nodup) as Hwf'.
  split; rewrite ?Hw, ?Hso; try done.
  - split.
    + intros i c. rewrite Hs, tank_slots_lookup. case_decide as HiL; [done|]. case_decide as Hip.
      * intros [= <-]. subst i. destruct (wf_parent_live a Hwf idx n p Hn Hp) as (np' & Hnp' & _ & Hpl).
        assert (np' = np) as -> by congruence. eexists. split_and!; [by eapply prune_old|done|]. cbn [children prune_update]. symmetry. exact parent_children.
      * intros Hc. destruct (sm_entry _ _ _ M4 i c Hc) as (m & Hm' & Hml & Hch).
        eexists. split_and!; [by eapply prune_old|done|]. cbn [children prune_update]. rewrite <- Hch.
        apply filter_all_true, Forall_forall. intros x Hx HxL. rewrite (kept_children i m x) in HxL by done. subst x.
        destruct (wf_children a Hwf i m idx Hm' Hx) as (n' & ? & ?). congruence.
    + intros i m [[_ ->]|(Hout & m' & Hm' & ->)]%(prune_inv _ _ _ Hpr) Hml; [done|]. rewrite Hs, tank_slots_lookup, decide_False by done.
      case_decide; [eauto|]. by eapply (sm_live _ _ _ M4).
  - intros i s'. rewrite Hs, tank_slots_lookup. case_decide; [done|]. case_decide; [|apply M5].
    intros [= <-]. rewrite length_insert. by eapply M5.
  - assert (Hperm : ds ++ [idx] ≡ₚ L) by (by rewrite Permutation_app_comm).
    eapply (tank_after t (ds ++ [idx])); [done|done|rewrite Hperm; exact tank_set_nodup| |congruence|].
    + intros i. rewrite Hperm. apply tank_set_live.
    + intros v i. rewrite Hperm. apply (pr_index _ _ _ Hpr).
Qed.
End last.

Lemma remove_to_tank_ok : removal_set t idx HoldingTank = Ok (E := TreeError) L →
  ∃ t', remove_to_holding_tank t idx u =
  Ok (t', mkRemoval u None [] (uid_at a <$> ds ++ [idx]) [] (handed a L L)) ∧
  matrix_wf t' ∧ pruned a (arena t') L ∧ holding_tank t' = holding_tank t ++ (entry_of a <$> ds ++ [idx]).
Proof using All.
  intros Hset. destruct (parent n) as [p|] eqn:Hp.
  2:{ exfalso. destruct (root a) as [r|] eqn:Hr; [|by destruct Hl; eapply (wf_rootless a Hwf)].
      apply Hroot. f_equal. symmetry. by eapply (wf_root_unique a Hwf). }
  destruct (wf_parent_live a Hwf idx n p Hn Hp) as (np & Hnp & Hin & Hpl).
  destruct (sm_live _ _ _ (mw_slots t Hm) p np Hnp Hpl) as [sp Hsp].
  destruct (find_slot_ok (E := TreeError) t p sp idx Hsp) as (k & Hk & Hkx).
  { rewrite (sm_children _ _ _ p np sp (mw_slots t Hm) Hsp Hnp) in Hin. exact Hin. }
  destruct (reparent_set a Hwf L tank_set_live tank_set_heirs tank_set_nodup) as (a1 & Hre & Hf1 & Hn1).
  unfold remove_to_holding_tank. rewrite (node_ok _ idx n Hn Hl). cbn [mbind outcome_bind]. rewrite Hp. cbn [expect mbind outcome_bind].
  rewrite Hk. cbn [mbind outcome_bind]. rewrite Hset. cbn [mbind outcome_bind]. cbv zeta. change (drop 1 L) with ds. rewrite Hre. cbn [mbind outcome_bind].
  rewrite (map_entries a1 ds Hn1) by (by right). cbn [mbind outcome_bind].
  rewrite (node_ok a1 idx (hand_on a L L idx n)) by (done || (by rewrite Hn1, Hn)). cbn [mbind outcome_bind].
  rewrite (tank_entry_ok a a1 L idx Hwf) by (done || left || (apply tank_set_live; left)). cbn [mbind outcome_bind].
  assert (Hown : (entry_of a <$> ds) ++ [mkEntry u (he_sponsor_user_id (entry_of a idx)) (he_enrolled_at (entry_of a idx))] =
    entry_of a <$> ds ++ [idx]).
  { rewrite fmap_app. f_equal. cbn. f_equal. unfold entry_of. rewrite Hn. cbn. by rewrite Hu. }
  rewrite Hown. set (t0 := with_tank (with_arena t a1) _).
  assert (Hsponsor : sponsor (hand_on a L L idx n) = sponsor n).
  { cbn. destruct (sponsor n); [|done]. cbn. rewrite decide_False; [done|]. set_solver. }
  destruct (clear_all t L a1 Hwf tank_set_nodup tank_set_live Hf1 Hn1 t0 [] ds t0) as (t2 & -> & Hcl).
  { destruct Hf1 as (F1 & F2 & F3). split; unfold t0; cbn; [|intros v i; rewrite F1|congruence|by rewrite F2, app_nil_r| |done].
    - intros j. cbn. destruct (nodes a1 !! j) as [m|]; [|done]. cbn. unfold with_sponsored. f_equal.
      rewrite filter_all_true; [by destruct m|]. apply Forall_forall. intros c _. apply not_elem_of_nil.
    - split; [intros ?; split; [done|apply not_elem_of_nil]|naive_solver].
    - intros i. done. }
  { cbn. apply Hds. }
  { by right. }
  cbn [mbind outcome_bind]. rewrite Hsponsor.
  destruct (tank_tail_ok p np sp k Hp Hnp Hsp Hkx a1 Hf1 Hn1 t0 t2 Hcl eq_refl) as (t' & Htail & Hpr & Hs & Hw & Hso & Ht).
  unfold tank_tail in Htail.
  apply bind_ok in Htail as (a3 & -> & Htail). cbn [mbind outcome_bind]. apply bind_ok in Htail as (t3 & -> & Htail). cbn [mbind outcome_bind].
  apply bind_ok in Htail as (t4 & -> & Htail). cbn [mbind outcome_bind]. apply bind_ok in Htail as (a5 & -> & [= <-]). cbn [mbind outcome_bind].
  eexists. split; [do 3 f_equal|split_and!; [|exact Hpr|by rewrite Ht]].
  - rewrite <- list_fmap_compose. apply list_fmap_ext. intros i j Hj. unfold entry_of, uid_at, compose.
    by destruct (nodes a !! j).
  - by eapply (tank_removed_wf p np sp k Hp Hnp Hsp Hkx a1 Hf1 Hn1 t0 t2 Hcl eq_refl).
Qed.
End remove.

(** ** [remove_node] to the tank, on every branch *)

Lemma check_removable_total a L : arena_wf a → (∀ i, i ∈ L → live_at a i) →
  check_sponsored_removable a L = Ok () ∨ ∃ e, check_sponsored_removable a L = Err e.
Proof.
  intros Hwf Hlive. unfold check_sponsored_removable. cbv zeta. generalize (list_to_set L : gset NodeIndex). intros R.
  assert (HM : ∀ M, (∀ i, i ∈ M → live_at a i) → ∀ f, (∀ i, i ∈ M → f i = Ok () ∨ ∃ e, f i = Err e) →
    for_each f M = Ok () ∨ ∃ e : TreeError, for_each f M = Err e).
  { induction M as [|i M IH]; intros HM f Hf; [by left|]. cbn [for_each]. destruct (Hf i) as [->|[e ->]]; [left|..|right; by exists e].
    cbn [mbind outcome_bind]. apply IH; [intros j Hj; apply HM; by right|intros j Hj; apply Hf; by right]. }
  apply HM; [done|]. intros i Hi. destruct (Hlive i Hi) as (n & Hn & Hl). unfold surviving_recruits.
  rewrite !(slot_ok a i n Hn). cbn [mbind outcome_bind]. destruct (filter _ _); [by left|].
  destruct (surviving_heir a Hwf R i n Hn Hl) as (l' & _ & -> & _). cbn [mbind outcome_bind].
  destruct (heir a R i); [|right; eauto]. destruct (bool_decide _); cbn; eauto.
Qed.

Lemma remove_to_tank_spec t u : matrix_wf t →
  match check_remove_node t u HoldingTank with
  | Err e => remove_node t u HoldingTank = Err e
  | Ok _ => ∃ idx ds t', index (arena t) !! u = Some idx ∧ NoDup ds ∧ (∀ j, j ∈ ds ↔ below (arena t) idx j) ∧
      remove_node t u HoldingTank =
        Ok (t', mkRemoval u None [] (uid_at (arena t) <$> ds ++ [idx]) [] (handed (arena t) (idx :: ds) (idx :: ds))) ∧
      matrix_wf t' ∧ pruned (arena t) (arena t') (idx :: ds) ∧
      holding_tank t' = holding_tank t ++ (entry_of (arena t) <$> ds ++ [idx])
  | _ => False
  end.
Proof.
  intros Hm. pose proof (mw_arena t Hm) as Hwf. unfold remove_node. destruct (check_remove_node t u HoldingTank) as [[]|e| |] eqn:Hc; [|done|..].
  all: unfold check_remove_node, resolve in Hc; destruct (index (arena t) !! u) as [idx|] eqn:Hi; [|done]; cbn [ok_or mbind outcome_bind] in Hc;
    destruct (resolve_live _ Hwf u idx Hi) as (n & Hn & Hu & Hnil); assert (Hl : user_id n ≠ nil_uuid) by congruence;
    destruct (descendants_spec (E := TreeError) t idx n Hwf Hn Hl) as (ds & Hds & Hnd & Hmem);
    assert (Hset : removal_set t idx HoldingTank = Ok (E := TreeError) (idx :: ds)) by (cbn; by rewrite Hds);
    rewrite refuse_decide, Hset in Hc; cbn [mbind outcome_bind] in Hc; case_decide as Hr; [done|].
  - destruct (remove_to_tank_ok t Hm u idx n ds Hn Hu Hl (conj Hnd Hmem) Hr Hc Hset) as (t' & Hrun & Hwf' & Hpr & Ht).
    exists idx, ds, t'. split_and!; try done. cbn [mbind outcome_bind]. unfold resolve. by rewrite Hi.
  - destruct (check_removable_total (arena t) (idx :: ds) Hwf) as [H|[e H]]; [|congruence..].
    intros i [->|Hd%Hmem]%elem_of_cons; [by exists n|]. destruct (below_live _ Hwf idx i Hd) as (m & ? & ?). by exists m.
  - destruct (check_removable_total (arena t) (idx :: ds) Hwf) as [H|[e H]]; [|congruence..].
    intros i [->|Hd%Hmem]%elem_of_cons; [by exists n|]. destruct (below_live _ Hwf idx i Hd) as (m & ? & ?). by exists m.
Qed.
