(* ===== verification/MatrixPromote.v ===== *)
(** * The promoting removal: [tree/matrix.rs], [remove_promote_earliest]

    The earliest-enrolled child takes the place of the removed node; its siblings
    move one by one to free slots under it; then the removed node is cleared and the
    depths below are counted again. Between the first write and the last the tree
    does not satisfy its invariant: [moving] is what holds instead, with the siblings
    that still wait, and the depths as they will be. *)

From stdpp Require Import base numbers list gmap sorting strings.
From Stdlib Require Import ZArith Lia.
From S2P Require Import Prelude TreeTypes Arena ArenaCheck ArenaWf ArenaOps ArenaWalk ArenaRestore ArenaPrune SlotMap Binary Matrix MatrixSpec MatrixRemove.
Import Matrix.

(** ** Subtrees *)
Section subtrees.
Context (a : Arena) (Hwf : arena_wf a).

Definition sub (c j : NodeIndex) : Prop := j = c ∨ below a c j.

Lemma sub_child c i n x : sub c i → nodes a !! i = Some n → x ∈ children n → below a c x.
Proof using Hwf. intros [->|Hb] Hi Hx; [by eapply below_child|by eapply below_step]. Qed.

Lemma sub_parent c j n i : below a c j → nodes a !! j = Some n → parent n = Some i → sub c i.
Proof using Hwf.
  intros Hb Hj Hp. destruct (below_inv a Hwf c j Hb) as (n' & i' & ni & Hj' & Hp' & _ & _ & _ & Hor). assert (i' = i) as -> by congruence. exact Hor.
Qed.

Lemma sub_ind c (P : NodeIndex → Prop) : P c →
  (∀ j n i, below a c j → nodes a !! j = Some n → parent n = Some i → sub c i → P i → P j) → ∀ j, sub c j → P j.
Proof using Hwf.
  intros H0 Hs j [->|Hb]; [done|]. destruct (below_live a Hwf c j Hb) as (n & Hn & _).
  remember (depth n) as d eqn:Hd. revert j n Hb Hn Hd. induction (N.lt_wf_0 d) as [d _ IH]. intros j n Hb Hn ->.
  destruct (below_inv a Hwf c j Hb) as (n' & i & ni & Hn' & Hp & Hni & _ & Hdep & Hor). assert (n' = n) as -> by congruence.
  eapply Hs; [done..|]. destruct Hor as [->|Hbi]; [done|]. eapply (IH (depth ni)); [lia|done..].
Qed.

Lemma sub_within c j i : below a i c → sub c j → below a i j.
Proof using Hwf.
  intros Hc. revert j. apply sub_ind; [done|]. intros j n x _ Hj Hx _ Hb.
  destruct (wf_parent_live a Hwf j n x Hj Hx) as (nx & Hnx & Hin & _). by eapply below_step.
Qed.

(** The subtrees of two children of one node are disjoint. *)
Lemma sub_disjoint i n c d j : nodes a !! i = Some n → c ∈ children n → d ∈ children n → sub c j → sub d j → c = d.
Proof using Hwf.
  intros Hi Hc Hd. destruct (wf_child_live a Hwf i n c Hi Hc) as (nc & Hnc & Hpc & _), (wf_child_live a Hwf i n d Hi Hd) as (nd & Hnd & Hpd & _).
  destruct (wf_depth a Hwf c nc i n Hnc Hpc Hi) as [Hdc _], (wf_depth a Hwf d nd i n Hnd Hpd Hi) as [Hdd _].
  assert (Hno : ∀ x y nx ny, nodes a !! x = Some nx → nodes a !! y = Some ny → depth nx = depth ny → ¬ below a x y).
  { intros x y nx ny Hx Hy He Hb. pose proof (below_depth a Hwf x nx y ny Hx Hb Hy). lia. }
  revert j. apply (sub_ind c (λ j, sub d j → c = d)).
  - intros [->|Hb]; [done|]. exfalso. eapply Hno; [exact Hnd|exact Hnc|lia|exact Hb].
  - intros j nj x Hbc Hj Hx _ IH [->|Hb]; [exfalso; eapply Hno; [exact Hnc|exact Hnd|lia|exact Hbc]|]. apply IH. by eapply sub_parent.
Qed.

Lemma sub_not_above i n c : nodes a !! i = Some n → c ∈ children n → ¬ sub c i.
Proof using Hwf.
  intros Hi Hc Hs. destruct (wf_child_live a Hwf i n c Hi Hc) as (nc & Hnc & Hpc & _). destruct (wf_depth a Hwf c nc i n Hnc Hpc Hi) as [Hdc _].
  destruct Hs as [->|Hb]; [simplify_eq; lia|]. pose proof (below_depth a Hwf c nc i n Hnc Hb Hi). lia.
Qed.
End subtrees.

(** ** Between the first write and the last *)

(** Everything but the placement edges. *)
Definition same_person (n n' : Node) : Prop :=
  user_id n' = user_id n ∧ sponsor n' = sponsor n ∧ sponsored n' = sponsored n ∧ depth n' = depth n ∧ enrolled_at n' = enrolled_at n.

Section moving.
Context (t : MatrixTree) (Hm : matrix_wf t) (idx : NodeIndex) (n0 : Node) (p q : NodeIndex).
Context (Hn : nodes (arena t) !! idx = Some n0) (Hl : user_id n0 ≠ nil_uuid) (Hp : parent n0 = Some p) (Hq : q ∈ children n0).
Abbreviation a := (arena t).

(** [R] are the siblings that wait; [δ] the depths the tree will have. *)
Record moving (R : list NodeIndex) (δ : NodeIndex → Z) (t1 : MatrixTree) : Prop := {
  mv_frame : same_frame a (arena t1) ∧ width t1 = width t ∧ spillover t1 = spillover t ∧ holding_tank t1 = holding_tank t;
  mv_nodes j : option_Forall2 same_person (nodes a !! j) (nodes (arena t1) !! j);
  mv_slots j : is_Some (slots t1 !! j) ↔ is_Some (slots t !! j);
  mv_length j s : slots t1 !! j = Some s → length s = N.to_nat (width t);
  mv_nodup j s : j ≠ idx → slots t1 !! j = Some s → NoDup (flatten s);
  mv_down j s c : j ≠ idx → slots t1 !! j = Some s → c ∈ flatten s → c ≠ idx ∧ ∃ nc, nodes (arena t1) !! c = Some nc ∧ parent nc = Some j;
  mv_up c nc j : nodes (arena t1) !! c = Some nc → c ≠ idx → c ∉ R → parent nc = Some j →
    j ≠ idx ∧ δ c = (δ j + 1)%Z ∧ ∃ s, slots t1 !! j = Some s ∧ c ∈ flatten s;
  mv_wait c : c ∈ R → ∃ nc, nodes (arena t1) !! c = Some nc ∧ parent nc = Some idx;
  mv_waiting : NoDup R ∧ ∀ c, c ∈ R → c ∈ children n0 ∧ c ≠ q;
  mv_children j s n : j ≠ idx → j ≠ q → slots t1 !! j = Some s → nodes (arena t1) !! j = Some n → children n = flatten s;
  mv_intact c j : c ∈ R → sub a c j → slots t1 !! j = slots t !! j;
  mv_outside j n n1 : nodes a !! j = Some n → nodes (arena t1) !! j = Some n1 → ¬ sub a idx j → δ j = Z.of_N (depth n) ∧ parent n1 = parent n;
  mv_inside c nc : below a idx c → c ≠ q → c ∉ R → nodes (arena t1) !! c = Some nc → ∃ j, parent nc = Some j ∧ below a idx j;
  mv_promoted : δ q = Z.of_N (depth n0) ∧ ∃ nq, nodes (arena t1) !! q = Some nq ∧ parent nq = Some p;
  mv_tomb j n n1 : nodes a !! j = Some n → user_id n = nil_uuid → nodes (arena t1) !! j = Some n1 → children n1 = [];
}.

Let Hwf := mw_arena t Hm.

Lemma mv_forward R δ t1 : moving R δ t1 → ∀ j n, nodes a !! j = Some n → ∃ n1, nodes (arena t1) !! j = Some n1 ∧ same_person n n1.
Proof using Type. intros Hv j n Hj. pose proof (mv_nodes _ _ _ Hv j) as H. rewrite Hj in H. inversion H; subst; eauto. Qed.

Lemma mv_back R δ t1 : moving R δ t1 → ∀ j n1, nodes (arena t1) !! j = Some n1 → ∃ n, nodes a !! j = Some n ∧ same_person n n1.
Proof using Type. intros Hv j n1 Hj. pose proof (mv_nodes _ _ _ Hv j) as H. rewrite Hj in H. inversion H; subst; eauto. Qed.

(** The slots of a live node. *)
Lemma slot_children i n s : nodes a !! i = Some n → slots t !! i = Some s → children n = flatten s.
Proof using Hm. intros Hi Hs. exact (sm_children _ _ _ i n s (mw_slots t Hm) Hs Hi). Qed.

Lemma live_slots i n : nodes a !! i = Some n → user_id n ≠ nil_uuid → ∃ s, slots t !! i = Some s.
Proof using Hm. intros Hi Hli. exact (sm_live _ _ _ (mw_slots t Hm) i n Hi Hli). Qed.

(** A node the search from [q] can reach: below [idx], and in no waiting subtree. *)
Definition open_to (R : list NodeIndex) (i : NodeIndex) : Prop := below a idx i ∧ ∀ d, d ∈ R → ¬ sub a d i.

(** An edge of a waiting subtree is the edge it was. *)
Lemma waiting_edge R δ t1 d i x : moving R δ t1 → d ∈ R → sub a d i → below a d x →
  (∃ nx, nodes (arena t1) !! x = Some nx ∧ parent nx = Some i) ↔ (∃ nx, nodes a !! x = Some nx ∧ parent nx = Some i).
Proof using All.
  intros Hv Hd Hi Hx. destruct (proj2 (mv_waiting _ _ _ Hv) d Hd) as [Hdc _].
  assert (Hdown : ∀ nx j, nodes a !! x = Some nx → parent nx = Some j → ∃ nx1, nodes (arena t1) !! x = Some nx1 ∧ parent nx1 = Some j).
  { intros nx j Hnx Hj. pose proof (sub_parent a Hwf d x nx j Hx Hnx Hj) as Hsj. destruct (wf_parent_live a Hwf x nx j Hnx Hj) as (nj & Hnj & Hin & Hjl).
    destruct (live_slots j nj Hnj Hjl) as [s Hs]. rewrite (slot_children j nj s Hnj Hs) in Hin.
    assert (Hji : j ≠ idx) by (intros ->; by eapply (sub_not_above a Hwf idx n0 d)).
    destruct (mv_down _ _ _ Hv j s x Hji) as (_ & ? & ? & ?); [by rewrite (mv_intact _ _ _ Hv d j Hd Hsj)|done|eauto]. }
  destruct (below_inv a Hwf d x Hx) as (nx & j & _ & Hnx & Hj & _). destruct (Hdown nx j Hnx Hj) as (nx1 & Hnx1 & Hj1).
  split; intros (n' & Hn' & Hp'); eexists; (split; [eassumption|]); congruence.
Qed.

(** No edge leads into a waiting subtree. *)
Lemma waiting_closed R δ t1 d i s x : moving R δ t1 → d ∈ R → i ≠ idx → slots t1 !! i = Some s → x ∈ flatten s → sub a d x → sub a d i.
Proof using All.
  intros Hv Hd Hi Hs Hx [->|Hb].
  - destruct (mv_down _ _ _ Hv i s d Hi Hs Hx) as (_ & nc & Hnc & Hpc). destruct (mv_wait _ _ _ Hv d Hd) as (nc' & ? & ?). congruence.
  - destruct (mv_down _ _ _ Hv i s x Hi Hs Hx) as (_ & nc & Hnc & Hpc). destruct (below_inv a Hwf d x Hb) as (nx & j & _ & Hnx & Hj & _).
    pose proof (sub_parent a Hwf d x nx j Hb Hnx Hj) as Hsj. destruct (proj2 (waiting_edge R δ t1 d j x Hv Hd Hsj Hb)) as (nx1 & ? & ?); [eauto|]. congruence.
Qed.

Lemma open_q R δ t1 : moving R δ t1 → open_to R q.
Proof using All.
  intros Hv. split; [by eapply below_child|]. intros d Hd Hs. destruct (proj2 (mv_waiting _ _ _ Hv) d Hd) as [Hdc Hne].
  apply Hne. eapply (sub_disjoint a Hwf idx n0); [done..| |by left]. done.
Qed.

Lemma open_edge R δ t1 i s x : moving R δ t1 → open_to R i → slots t1 !! i = Some s → x ∈ flatten s → open_to R x.
Proof using All.
  intros Hv [Hb Ho] Hs Hx.
  assert (Hi : i ≠ idx) by (intros ->; pose proof (below_depth a Hwf idx n0 idx n0 Hn Hb Hn); lia).
  destruct (mv_down _ _ _ Hv i s x Hi Hs Hx) as (Hxi & nx & Hnx & Hpx). destruct (mv_back _ _ _ Hv x nx Hnx) as (m & Hxm & _). split.
  - destruct (descendants_spec (E := TreeError) t idx n0 Hwf Hn Hl) as (ds & _ & _ & Hds). destruct (decide (x ∈ ds)) as [Hin|Hout]; [by apply Hds|]. exfalso.
    destruct (mv_outside _ _ _ Hv x m nx Hxm Hnx) as [_ Hpar]; [intros [->|Hb']; [done|by apply Hout, Hds]|].
    rewrite Hpx in Hpar. symmetry in Hpar. destruct (wf_parent_live a Hwf x m i Hxm Hpar) as (ni & Hni & Hin & _). apply Hout, Hds. by eapply below_step.
  - intros d Hd Hsub. eapply Ho; [exact Hd|]. by eapply waiting_closed.
Qed.

Lemma spillover_open {E} R δ t1 fuel queue i k : moving R δ t1 → (∀ j, j ∈ queue → open_to R j) →
  @spillover_loop E fuel t1 queue = Ok (Some (i, k)) → open_to R i ∧ ∃ s, slots t1 !! i = Some s ∧ first_free s = Some k.
Proof using All.
  intros Hv. revert queue. induction fuel as [|fuel IH]; intros queue Hopen; [done|]. destruct queue as [|j queue]; [done|]. cbn [spillover_loop].
  intros (s & Hs%expect_ok & Hrun)%bind_ok. destruct (first_free s) as [k'|] eqn:Hf.
  - injection Hrun as -> ->. split; [apply Hopen; left|eauto].
  - eapply IH; [|exact Hrun]. intros x [Hx|Hx]%elem_of_app; [apply Hopen; by right|]. eapply open_edge; [done|apply Hopen; left|done|done].
Qed.

(** ** One sibling finds its place *)
Definition linked (c tp : NodeIndex) (s' : list (option NodeIndex)) (j : NodeIndex) (n n' : Node) : Prop :=
  same_person n n' ∧ parent n' = (if decide (j = c) then Some tp else parent n) ∧ (j ≠ tp → children n' = children n) ∧
  (j = tp → tp ≠ q → children n' = flatten s').

Record relinked (t1 t2 : MatrixTree) (c tp : NodeIndex) (s' : list (option NodeIndex)) : Prop := {
  rl_slots : slots t2 = <[tp := s']> (slots t1);
  rl_frame : same_frame (arena t1) (arena t2) ∧ width t2 = width t1 ∧ spillover t2 = spillover t1 ∧ holding_tank t2 = holding_tank t1;
  rl_nodes j : option_Forall2 (linked c tp s' j) (nodes (arena t1) !! j) (nodes (arena t2) !! j);
}.

Lemma node_mut_inv {E} b i f b' : @node_mut E b i f = Ok b' → b' = with_nodes (alter f i) b.
Proof using Type. unfold node_mut. intros (n & _ & [_ [= <-]]%bind_unit_ok)%bind_ok. done. Qed.

Lemma set_slot_inv {E} t1 i k x t2 : @set_slot E t1 i k x = Ok t2 → ∃ s, slots t1 !! i = Some s ∧ t2 = with_slots t1 (<[i := <[k := x]> s]> (slots t1)).
Proof using Type. unfold set_slot. intros (s & Hs%expect_ok & (o & _ & [= <-])%bind_ok)%bind_ok. eauto. Qed.

Lemma rebuild_inv {E} t1 i t2 : @rebuild_children E t1 i = Ok t2 → ∃ s, slots t1 !! i = Some s ∧
  t2 = with_arena t1 (with_nodes (alter (with_children (λ _, flatten s)) i) (arena t1)).
Proof using Type. unfold rebuild_children. intros (s & Hs%expect_ok & (b & ->%node_mut_inv & [= <-])%bind_ok)%bind_ok. eauto. Qed.

Lemma reposition_relinked R δ t1 u ids c t2 ids2 : moving (c :: R) δ t1 → reposition q u (t1, ids) c = Ok (t2, ids2) →
  ∃ tp pos s, open_to (c :: R) tp ∧ slots t1 !! tp = Some s ∧ s !! pos = Some None ∧ relinked t1 t2 c tp (<[pos := Some c]> s).
Proof using All.
  intros Hv. unfold reposition. intros (s & Hs%expect_ok & (t2' & Hrun & (nc & _ & [= -> _])%bind_ok)%bind_ok)%bind_ok.
  pose proof (open_q _ _ _ Hv) as Ho. destruct (first_free s) as [pos|] eqn:Hf.
  - apply bind_ok in Hrun as (t3 & (s' & Hs' & ->)%set_slot_inv & (b & ->%node_mut_inv & [= <-])%bind_ok). assert (s' = s) as -> by congruence.
    exists q, pos, s. apply first_free_Some in Hf as [Hf _]. split_and!; [done..|]. split; [done..|]. intros j. cbn. rewrite lookup_alter_nodes.
    destruct (nodes (arena t1) !! j) as [n|] eqn:Hj; [|by case_decide; constructor]. unfold linked. case_decide; constructor; split_and!; done.
  - apply bind_ok in Hrun as (found & Hfind & ([tp pos] & Hfound%ok_or_ok & Hrun)%bind_ok). subst found.
    destruct (spillover_open _ _ _ _ [q] _ _ Hv ltac:(by intros j ->%list_elem_of_singleton) Hfind) as (Hot & s1 & Hs1 & [Hf1 _]%first_free_Some).
    apply bind_ok in Hrun as (t3 & (s' & Hs' & ->)%set_slot_inv & (t4 & (s2 & Hs2 & ->)%rebuild_inv & (b & ->%node_mut_inv & [= <-])%bind_ok)%bind_ok).
    assert (s' = s1) as -> by congruence. cbn in Hs2. rewrite lookup_insert_eq in Hs2. injection Hs2 as <-.
    exists tp, pos, s1. split_and!; [done..|]. split; [done..|]. intros j. cbn. rewrite !lookup_alter_nodes.
    destruct (nodes (arena t1) !! j) as [n|] eqn:Hj; [|by repeat case_decide; constructor]. unfold linked. repeat case_decide; constructor; split_and!; done.
Qed.

Lemma filled_elem (s : list (option NodeIndex)) k c : s !! k = Some None →
  (∀ x, x ∈ flatten (<[k := Some c]> s) ↔ x = c ∨ x ∈ flatten s) ∧ (NoDup (flatten s) → c ∉ flatten s → NoDup (flatten (<[k := Some c]> s))).
Proof using Type.
  intros Hk. destruct (flatten_fill s k c Hk) as (l1 & l2 & -> & ->). split; [intros x; rewrite !elem_of_app, elem_of_cons; naive_solver|].
  intros Hnd Hc. rewrite <- Permutation_middle. by constructor.
Qed.

Section relink.
Context (R : list NodeIndex) (δ : NodeIndex → Z) (t1 t2 : MatrixTree) (c tp : NodeIndex) (pos : nat) (s : list (option NodeIndex)).
Context (Hv : moving (c :: R) δ t1) (Ho : open_to (c :: R) tp) (Hs : slots t1 !! tp = Some s) (Hpos : s !! pos = Some None).
Context (Hr : relinked t1 t2 c tp (<[pos := Some c]> s)).

Lemma rl_back j n2 : nodes (arena t2) !! j = Some n2 → ∃ n1, nodes (arena t1) !! j = Some n1 ∧ linked c tp (<[pos := Some c]> s) j n1 n2.
Proof using Hr. intros Hj. pose proof (rl_nodes _ _ _ _ _ Hr j) as H. rewrite Hj in H. inversion H; subst; eauto. Qed.
Lemma rl_forward j n1 : nodes (arena t1) !! j = Some n1 → ∃ n2, nodes (arena t2) !! j = Some n2 ∧ linked c tp (<[pos := Some c]> s) j n1 n2.
Proof using Hr. intros Hj. pose proof (rl_nodes _ _ _ _ _ Hr j) as H. rewrite Hj in H. inversion H; subst; eauto. Qed.

Lemma newcomer : c ∈ children n0 ∧ c ≠ q ∧ c ≠ idx ∧ (c ∉ R) ∧ below a idx c ∧ tp ≠ idx ∧ tp ≠ c ∧ ∀ j s1, j ≠ idx → slots t1 !! j = Some s1 → c ∉ flatten s1.
Proof using All.
  destruct (mv_waiting _ _ _ Hv) as [[Hnr _]%NoDup_cons Hw]. destruct (Hw c ltac:(left)) as [Hc Hcq]. pose proof (below_child a Hwf idx n0 c Hn Hc) as Hb.
  assert (Hirr : ¬ below a idx idx) by (intros H; pose proof (below_depth a Hwf idx n0 idx n0 Hn H Hn); lia).
  destruct Ho as [Hob Hos]. split_and!; try done; [intros E; rewrite E in Hb; done|intros E; rewrite E in Hob; done|intros E; apply (Hos c); by left|].
  intros j s1 Hj Hs1 Hin. destruct (mv_down _ _ _ Hv j s1 c Hj Hs1 Hin) as (_ & nc & ? & ?). destruct (mv_wait _ _ _ Hv c ltac:(left)) as (nc' & ? & ?). congruence.
Qed.

(** Parent and child are in the waiting subtree together. *)
Lemma together x nx j : nodes (arena t1) !! x = Some nx → x ≠ idx → x ∉ c :: R → parent nx = Some j → sub a c x ↔ sub a c j.
Proof using All.
  intros Hx Hxi Hxr Hj. assert (Hc : c ∈ c :: R) by left. destruct (mv_up _ _ _ Hv x nx j Hx Hxi Hxr Hj) as (Hji & _ & s1 & Hs1 & Hin). split.
  - intros Hsub. eapply waiting_closed; [exact Hv|done|exact Hji|exact Hs1|done|done].
  - intros Hsub. right. rewrite (mv_intact _ _ _ Hv c j Hc Hsub) in Hs1. destruct (sm_entry _ _ _ (mw_slots t Hm) j s1 Hs1) as (nj & Hnj & _ & Hch).
    eapply (sub_child a Hwf); [exact Hsub|exact Hnj|]. rewrite Hch. exact Hin.
Qed.

Lemma relink_slots j : slots t2 !! j = if decide (j = tp) then Some (<[pos := Some c]> s) else slots t1 !! j.
Proof using Hr. rewrite (rl_slots _ _ _ _ _ Hr). case_decide; [subst; apply lookup_insert_eq|by apply lookup_insert_ne]. Qed.

Lemma relink_moving : ∃ δ', moving R δ' t2.
Proof using All.
  destruct newcomer as (Hc & Hcq & Hci & Hcr & Hcb & Hti & Htc & Hnew). destruct (filled_elem s pos c Hpos) as [Hin Hnd].
  destruct (wf_child_live a Hwf idx n0 c Hn Hc) as (nca & Hnca & _ & Hcl).
  destruct (descendants_spec (E := TreeError) t c nca Hwf Hnca Hcl) as (cs & _ & _ & Hcs).
  assert (Hsub : ∀ j, sub a c j ↔ j = c ∨ j ∈ cs) by (intros j; rewrite Hcs; done).
  set (δ' := λ j, if decide (j = c ∨ j ∈ cs) then (δ j - δ c + δ tp + 1)%Z else δ j). exists δ'.
  assert (Hout : ∀ j, ¬ sub a c j → δ' j = δ j) by (intros j Hj; unfold δ'; rewrite decide_False; [done|by rewrite <- Hsub]).
  assert (Htp : ¬ sub a c tp) by (apply Ho; left).
  pose proof (proj2 (mv_waiting _ _ _ Hv)) as Hw. destruct (rl_frame _ _ _ _ _ Hr) as ((F1 & F2 & F3) & F4 & F5 & F6), (mv_frame _ _ _ Hv) as ((G1 & G2 & G3) & G4 & G5 & G6).
  split.
  - split_and!; try congruence. split_and!; congruence.
  - intros j. pose proof (mv_nodes _ _ _ Hv j) as H1. pose proof (rl_nodes _ _ _ _ _ Hr j) as H2. inversion H1 as [n n1 Hnn E1 E2|E1 E2]; rewrite <- E2 in H2; inversion H2 as [? n2 Hnn2 |]; constructor.
    destruct Hnn as (? & ? & ? & ? & ?), Hnn2 as ((? & ? & ? & ? & ?) & _). split_and!; congruence.
  - intros j. rewrite relink_slots, <- (mv_slots _ _ _ Hv j). case_decide; [subst; rewrite Hs; split; eauto|done].
  - intros j s1. rewrite relink_slots. case_decide; [intros [= <-]; rewrite length_insert|]; by eapply (mv_length _ _ _ Hv).
  - intros j s1 Hj. rewrite relink_slots. case_decide; [intros [= <-]|by apply (mv_nodup _ _ _ Hv)]. apply Hnd; [exact (mv_nodup _ _ _ Hv tp s Hti Hs)|exact (Hnew tp s Hti Hs)].
  - intros j s1 x Hj. rewrite relink_slots. case_decide as Hjt.
    + intros [= <-] [->|Hx]%Hin; [split; [done|]|].
      * destruct (mv_wait _ _ _ Hv c ltac:(left)) as (nc & Hnc & _). destruct (rl_forward c nc Hnc) as (nc2 & Hnc2 & _ & Hpar & _). exists nc2. rewrite decide_True in Hpar by done. by rewrite Hjt.
      * destruct (mv_down _ _ _ Hv tp s x Hti Hs Hx) as (Hxi & nx & Hnx & Hpx). split; [done|]. destruct (rl_forward x nx Hnx) as (nx2 & Hnx2 & _ & Hpar & _).
        exists nx2. rewrite decide_False in Hpar by (intros ->; by apply (Hnew tp s)). split; congruence.
    + intros Hs1 Hx. destruct (mv_down _ _ _ Hv j s1 x Hj Hs1 Hx) as (Hxi & nx & Hnx & Hpx). split; [done|]. destruct (rl_forward x nx Hnx) as (nx2 & Hnx2 & _ & Hpar & _).
      exists nx2. rewrite decide_False in Hpar by (intros ->; by apply (Hnew j s1)). split; congruence.
  - intros x nx j (nx1 & Hnx1 & _ & Hpar & _)%rl_back Hxi Hxr Hj. rewrite Hj in Hpar. case_decide as Hxc.
    + injection Hpar as ->. subst x. split_and!; [done| |].
      * rewrite (Hout tp Htp). unfold δ'. rewrite decide_True by (by left). lia.
      * exists (<[pos := Some c]> s). rewrite relink_slots, decide_True by done. split; [done|]. apply Hin. by left.
    + symmetry in Hpar. assert (Hxr' : x ∉ c :: R) by (rewrite not_elem_of_cons; done).
      destruct (mv_up _ _ _ Hv x nx1 j Hnx1 Hxi Hxr' Hpar) as (Hji & Hδ & s1 & Hs1 & Hx). pose proof (together x nx1 j Hnx1 Hxi Hxr' Hpar) as Htog. split_and!; [done| |].
      * unfold δ'. rewrite (decide_ext (x = c ∨ x ∈ cs) (j = c ∨ j ∈ cs)) by (by rewrite <- !Hsub). case_decide; lia.
      * rewrite relink_slots. case_decide as Hjt; [|eauto]. exists (<[pos := Some c]> s). split; [done|]. apply Hin. right. congruence.
  - intros x Hx. destruct (mv_wait _ _ _ Hv x ltac:(by right)) as (nx & Hnx & Hpx). destruct (rl_forward x nx Hnx) as (nx2 & Hnx2 & _ & Hpar & _).
    exists nx2. rewrite decide_False in Hpar by (intros ->; done). split; congruence.
  - split; [by destruct (mv_waiting _ _ _ Hv) as [[_ ?]%NoDup_cons _]|]. intros x Hx. apply Hw. by right.
  - intros j s1 n Hj Hjq. rewrite relink_slots. intros Hs1 (n1 & Hn1 & _ & _ & Hch1 & Hch2)%rl_back. case_decide as Hjt.
    + injection Hs1 as <-. apply Hch2; congruence.
    + rewrite Hch1 by done. by eapply (mv_children _ _ _ Hv).
  - intros d j Hd Hsd. rewrite relink_slots, decide_False; [apply (mv_intact _ _ _ Hv d); [by right|done]|]. intros ->. eapply (proj2 Ho d); [by right|done].
  - intros j n n2 Hj (n1 & Hn1 & _ & Hpar & _)%rl_back Hno. destruct (mv_outside _ _ _ Hv j n n1 Hj Hn1 Hno) as [Hδ Hpj]. rewrite decide_False in Hpar.
    + rewrite Hout; [split; congruence|]. intros Hsj. apply Hno. right. by eapply sub_within.
    + intros ->. apply Hno. by right.
  - intros x nx Hb Hxq Hxr (nx1 & Hnx1 & _ & Hpar & _)%rl_back. case_decide as Hxc; [exists tp; split; [done|apply Ho]|].
    destruct (mv_inside _ _ _ Hv x nx1 Hb Hxq ltac:(by rewrite not_elem_of_cons) Hnx1) as (j & Hj & Hbj). exists j. split; congruence.
  - destruct (mv_promoted _ _ _ Hv) as (Hδ & nq & Hnq & Hpq). destruct (rl_forward q nq Hnq) as (nq2 & Hnq2 & _ & Hpar & _). rewrite decide_False in Hpar by congruence. split.
    + rewrite Hout; [done|]. apply (open_q _ _ _ Hv). left.
    + exists nq2. split; congruence.
  - intros j n n2 Hj Hnil (n1 & Hn1 & _ & _ & Hch & _)%rl_back. rewrite Hch; [by eapply (mv_tomb _ _ _ Hv)|].
    intros ->. destruct (below_live a Hwf idx tp (proj1 Ho)) as (m & ? & ?). congruence.
Qed.
End relink.

Lemma reposition_all u R δ t1 ids t2 ids2 : moving R δ t1 → fold_outcome (reposition q u) (t1, ids) R = Ok (t2, ids2) → ∃ δ', moving [] δ' t2.
Proof using All.
  revert δ t1 ids. induction R as [|c R IH]; intros δ t1 ids Hv; cbn [fold_outcome]; [intros [= <- _]; by exists δ|].
  intros ([t3 ids3] & Hc & Hrun)%bind_ok. destruct (reposition_relinked _ _ _ _ _ _ _ _ Hv Hc) as (tp & pos & s & Ho & Hs & Hpos & Hr).
  destruct (relink_moving R δ t1 t3 c tp pos s Hv Ho Hs Hpos Hr) as [δ' Hv']. by eapply IH.
Qed.

(** ** The promoted child takes the place *)
Section promote.
Context (sp s0 : list (option NodeIndex)) (k k0 : nat) (np nq : Node) (t1 : MatrixTree).
Context (Hsp : slots t !! p = Some sp) (Hk : sp !! k = Some (Some idx)) (Hs0 : slots t !! idx = Some s0) (Hnp : nodes a !! p = Some np) (Hnq : nodes a !! q = Some nq).
Context (Hslots : slots t1 = <[p := <[k := Some q]> sp]> (<[idx := <[k0 := None]> s0]> (slots t))).
Context (Hframe : same_frame a (arena t1) ∧ width t1 = width t ∧ spillover t1 = spillover t ∧ holding_tank t1 = holding_tank t).
Context (Hnodes : ∀ j, nodes (arena t1) !! j = (λ n, mkNode (user_id n) (if decide (j = q) then Some p else parent n)
  (if decide (j = p) then flatten (<[k := Some q]> sp) else children n) (sponsor n) (sponsored n) (depth n) (enrolled_at n)) <$> nodes a !! j).

Lemma promote_facts : p ≠ idx ∧ q ≠ idx ∧ parent nq = Some idx ∧ depth nq = (depth n0 + 1)%N ∧ depth n0 = (depth np + 1)%N ∧ user_id np ≠ nil_uuid ∧ ¬ sub a idx p.
Proof using All.
  destruct (wf_parent_live a Hwf idx n0 p Hn Hp) as (np' & Hnp' & _ & Hpl). assert (np' = np) as -> by congruence.
  destruct (wf_child_live a Hwf idx n0 q Hn Hq) as (nq' & Hnq' & Hqp & _). assert (nq' = nq) as -> by congruence.
  destruct (wf_depth a Hwf idx n0 p np Hn Hp Hnp) as [Hd1 _], (wf_depth a Hwf q nq idx n0 Hnq Hqp Hn) as [Hd2 _].
  assert (Hpi : p ≠ idx) by (intros E; rewrite E in Hnp; simplify_eq; lia).
  split_and!; try done; [intros E; rewrite E in Hnq; simplify_eq; lia|]. intros [E|Hb]; [done|]. pose proof (below_depth a Hwf idx n0 p np Hn Hb Hnp). lia.
Qed.

Lemma parent_slots : (∀ x, x ∈ flatten (<[k := Some q]> sp) ↔ x = q ∨ (x ∈ flatten sp ∧ x ≠ idx)) ∧ NoDup (flatten (<[k := Some q]> sp)).
Proof using All.
  destruct promote_facts as (Hpi & Hqi & Hqp & _). pose proof (slot_children p np sp Hnp Hsp) as Hch.
  assert (Hnd : NoDup (flatten sp)) by (rewrite <- Hch; by eapply wf_children_nodup).
  pose proof (flatten_unslot sp k idx Hnd Hk) as Hf. rewrite <- (list_insert_insert_eq sp k (Some q) None).
  assert (Hk' : <[k := None]> sp !! k = Some None) by (apply list_lookup_insert_eq; by eapply lookup_lt_Some).
  destruct (filled_elem _ k q Hk') as [Hin Hnd']. rewrite Hf in Hin, Hnd'. split.
  - intros x. rewrite Hin, list_elem_of_filter. naive_solver.
  - apply Hnd'; [by apply NoDup_filter|]. rewrite list_elem_of_filter, <- Hch. intros [_ Hqin]. destruct (wf_children a Hwf p np q Hnp Hqin) as (? & ? & ?). congruence.
Qed.

Lemma promote_slots j : slots t1 !! j = if decide (j = p) then Some (<[k := Some q]> sp) else if decide (j = idx) then Some (<[k0 := None]> s0) else slots t !! j.
Proof using Hslots.
  rewrite Hslots. case_decide as E1; [rewrite E1; apply lookup_insert_eq|]. rewrite lookup_insert_ne by done.
  case_decide as E2; [rewrite E2; apply lookup_insert_eq|]. by rewrite lookup_insert_ne.
Qed.

Lemma promote_back j n1 : nodes (arena t1) !! j = Some n1 → ∃ n, nodes a !! j = Some n ∧ same_person n n1 ∧ parent n1 = (if decide (j = q) then Some p else parent n) ∧
  children n1 = (if decide (j = p) then flatten (<[k := Some q]> sp) else children n).
Proof using Hnodes. rewrite Hnodes. intros (n & Hj & ->)%fmap_Some. exists n. done. Qed.

Lemma promote_moving : ∃ δ, moving (filter (λ c, c ≠ q) (flatten s0)) δ t1.
Proof using All.
  destruct promote_facts as (Hpi & Hqi & Hqp & Hdq & Hd0 & Hpl & Hpo). destruct parent_slots as [Hin Hnd].
  pose proof (slot_children idx n0 s0 Hn Hs0) as Hch0. pose proof (slot_children p np sp Hnp Hsp) as Hchp.
  assert (Hql : user_id nq ≠ nil_uuid) by (destruct (wf_child_live a Hwf idx n0 q Hn Hq) as (nq' & ? & _ & ?); congruence).
  destruct (descendants_spec (E := TreeError) t q nq Hwf Hnq Hql) as (qs & _ & _ & Hqs).
  assert (Hsub : ∀ j, sub a q j ↔ j = q ∨ j ∈ qs) by (intros j; rewrite Hqs; done).
  set (δ := λ j, (Z.of_N (depth_at a j) - if decide (j = q ∨ j ∈ qs) then 1 else 0)%Z). exists δ.
  assert (Hout : ∀ j n, nodes a !! j = Some n → ¬ sub a q j → δ j = Z.of_N (depth n)).
  { intros j n Hj Hno. unfold δ. rewrite decide_False by (by rewrite <- Hsub). rewrite (depth_at_node a j n Hj). lia. }
  assert (Hqb : below a idx q) by (by eapply below_child).
  assert (Hδq : δ q = Z.of_N (depth n0)) by (unfold δ; rewrite decide_True, (depth_at_node a q nq Hnq) by (by left); lia).
  assert (Hedge : ∀ j n s x, nodes a !! j = Some n → slots t !! j = Some s → j ≠ idx → x ∈ flatten s → x ≠ q ∧ ∃ nx, nodes a !! x = Some nx ∧ parent nx = Some j).
  { intros j n s x Hj Hs Hji Hx. rewrite <- (slot_children j n s Hj Hs) in Hx. destruct (wf_children a Hwf j n x Hj Hx) as (nx & Hnx & Hpx). split; [|eauto]. intros ->. congruence. }
  split.
  - done.
  - intros j. rewrite Hnodes. destruct (nodes a !! j); constructor. done.
  - intros j. rewrite promote_slots. case_decide as E1; [rewrite E1, Hsp; split; eauto|]. case_decide as E2; [rewrite E2, Hs0; split; eauto|done].
  - intros j s. rewrite promote_slots. case_decide; [intros [= <-]; rewrite length_insert; by eapply (mw_length t Hm)|].
    case_decide; [intros [= <-]; rewrite length_insert|]; by eapply (mw_length t Hm).
  - intros j s Hj. rewrite promote_slots. case_decide; [by intros [= <-]|]. rewrite decide_False by done. intros Hs.
    destruct (sm_entry _ _ _ (mw_slots t Hm) j s Hs) as (n & Hjn & _ & Hch). unfold id in Hch. rewrite <- Hch. by eapply wf_children_nodup.
  - intros j s x Hj. rewrite promote_slots, (decide_False (P := j = idx)) by done. case_decide as E1.
    + intros [= <-] [->|[Hx Hxi]]%Hin.
      * split; [done|]. eexists. rewrite Hnodes, Hnq. split; [done|]. cbn. by rewrite decide_True, E1.
      * split; [done|]. destruct (Hedge p np sp x Hnp Hsp Hpi Hx) as (Hxq & nx & Hnx & Hpx). eexists. rewrite Hnodes, Hnx. split; [done|]. cbn. by rewrite decide_False, E1.
    + intros Hs Hx. destruct (sm_entry _ _ _ (mw_slots t Hm) j s Hs) as (n & Hjn & _ & _). destruct (Hedge j n s x Hjn Hs Hj Hx) as (Hxq & nx & Hnx & Hpx).
      split; [intros ->; congruence|]. eexists. rewrite Hnodes, Hnx. split; [done|]. cbn. by rewrite decide_False.
  - intros x nx1 j (nx & Hnx & _ & Hpar & _)%promote_back Hxi Hxr Hj. rewrite Hj in Hpar. case_decide as Hxq.
    + injection Hpar as ->. split_and!; [done| |].
      * rewrite Hxq, Hδq, (Hout p np Hnp); [lia|]. intros Hs. apply Hpo. right. by eapply sub_within.
      * eexists. rewrite promote_slots, decide_True by done. split; [done|]. apply Hin. by left.
    + symmetry in Hpar. destruct (wf_parent_live a Hwf x nx j Hnx Hpar) as (nj & Hnj & Hxin & Hjl). destruct (live_slots j nj Hnj Hjl) as [s Hs].
      assert (Hji : j ≠ idx). { intros ->. apply Hxr. rewrite list_elem_of_filter, <- Hch0. split; [done|]. congruence. }
      destruct (wf_depth a Hwf x nx j nj Hnx Hpar Hnj) as [Hd _]. rewrite (slot_children j nj s Hnj Hs) in Hxin. split_and!; [done| |].
      * assert (Htog : sub a q x ↔ sub a q j).
        { split; [intros [->|Hb]; [done|by eapply sub_parent]|]. intros Hsj. right. eapply sub_child; [done|exact Hsj|exact Hnj|]. by rewrite (slot_children j nj s Hnj Hs). }
        unfold δ. rewrite (decide_ext (x = q ∨ x ∈ qs) (j = q ∨ j ∈ qs)) by (by rewrite <- !Hsub). rewrite (depth_at_node a x nx Hnx), (depth_at_node a j nj Hnj). case_decide; lia.
      * rewrite promote_slots, (decide_False (P := j = idx)) by done. case_decide as E1; [|eauto]. eexists. split; [done|]. apply Hin. right. split; [|done]. congruence.
  - intros x [Hxq Hx]%list_elem_of_filter. rewrite <- Hch0 in Hx. destruct (wf_children a Hwf idx n0 x Hn Hx) as (nx & Hnx & Hpx). eexists. rewrite Hnodes, Hnx. split; [done|]. cbn. by rewrite decide_False.
  - split; [apply NoDup_filter; rewrite <- Hch0; by eapply wf_children_nodup|]. intros c [? ?]%list_elem_of_filter. by rewrite Hch0.
  - intros j s n1 Hj Hjq. rewrite promote_slots, (decide_False (P := j = idx)) by done. intros Hs (n & Hjn & _ & _ & ->)%promote_back. case_decide; [by injection Hs as <-|]. by eapply slot_children.
  - intros d j [Hneq Hd]%list_elem_of_filter Hsd. rewrite <- Hch0 in Hd. pose proof (below_child a Hwf idx n0 d Hn Hd) as Hdb. rewrite promote_slots, !decide_False; [done|..].
    + intros ->. by eapply (sub_not_above a Hwf idx n0 d).
    + intros ->. apply Hpo. right. by eapply sub_within.
  - intros j n n1 Hj (n' & Hj' & _ & Hpar & _)%promote_back Hno. assert (n' = n) as -> by congruence. split.
    + apply Hout; [done|]. intros Hs. apply Hno. right. by eapply sub_within.
    + rewrite Hpar, decide_False; [done|]. intros ->. apply Hno. by right.
  - intros x nx1 Hb Hxq Hxr (nx & Hnx & _ & Hpar & _)%promote_back. rewrite decide_False in Hpar by done.
    destruct (below_inv a Hwf idx x Hb) as (nx' & j & nj & Hnx' & Hpj & Hnj & Hxin & _ & Hor). assert (nx' = nx) as -> by congruence. exists j. split; [congruence|].
    destruct Hor as [->|]; [|done]. exfalso. apply Hxr. rewrite list_elem_of_filter, <- Hch0. split; [done|]. congruence.
  - split; [done|]. eexists. rewrite Hnodes, Hnq. split; [done|]. cbn. by rewrite decide_True.
  - intros j n n1 Hj Hnil (n' & Hj' & _ & _ & Hch)%promote_back. assert (n' = n) as -> by congruence. rewrite Hch, decide_False; [by apply (wf_tomb a Hwf j n)|]. intros ->. congruence.
Qed.
End promote.
End moving.

(** ** The sponsors of the removed node's recruits *)

(** Everybody stays with its sponsor, except the recruits of [idx], with node [n0]:
    they have its sponsor now, who lists them last and no longer lists [idx]. *)
Definition inherited (a b : Arena) (idx : NodeIndex) (n0 : Node) : Prop := ∀ j n, j ≠ idx → nodes a !! j = Some n →
  ∃ n', nodes b !! j = Some n' ∧ user_id n' = user_id n ∧ sponsor n' = (if decide (sponsor n = Some idx) then sponsor n0 else sponsor n) ∧
  sponsored n' = if decide (sponsor n0 = Some j) then filter (λ c, c ≠ idx) (sponsored n) ++ sponsored n0 else sponsored n.

Lemma detach_inherited a b idx n0 pc : detach a b idx n0 pc (new_sponsored a idx n0) → inherited a b idx n0.
Proof.
  intros Hdt j n Hne Hj. eexists. rewrite (dt_nodes _ _ _ _ _ _ Hdt), decide_False, Hj by done. split_and!; [done..|].
  cbn. case_decide as Hs; [|done]. unfold new_sponsored. by rewrite Hs, Hj.
Qed.

Section one_removed.
Context (a : Arena) (Hwf : arena_wf a) (idx : NodeIndex) (n0 : Node) (Hn : nodes a !! idx = Some n0) (Hl : user_id n0 ≠ nil_uuid).
Context (Hrec : sponsor n0 = None → sponsored n0 = []).

(** A node that stays, once the removed one is cut and has handed on its recruits. *)
Definition responsored (j : NodeIndex) (n : Node) : Node :=
  mkNode (user_id n) (parent n) (children n) (if decide (j ∈ sponsored n0) then sponsor n0 else sponsor n)
    (if decide (sponsor n0 = Some j) then filter (λ c, c ≠ idx) (sponsored n) ++ sponsored n0 else sponsored n) (depth n) (enrolled_at n).

Lemma heir_one : heir a (list_to_set [idx]) idx = sponsor n0.
Proof using All.
  rewrite (heir_step a Hwf _ idx n0 Hn Hl). destruct (sponsor n0) as [s|] eqn:Hs; [|done].
  rewrite decide_False; [done|]. pose proof (leaf_sponsor_ne a idx n0 Hwf Hn Hl s Hs). set_solver.
Qed.

Lemma stays_one : stays a [idx] idx = sponsored n0.
Proof using All. unfold stays. rewrite Hn. cbn [from_option]. apply survivors_all. exact (leaf_not_own_recruit a idx n0 Hwf Hn Hl). Qed.

Lemma prune_one j n : nodes a !! j = Some n → j ≠ idx →
  sponsor (prune_update a [idx] j n) = sponsor (responsored j n) ∧ sponsored (prune_update a [idx] j n) = sponsored (responsored j n).
Proof using All.
  intros Hj Hne. assert (Hni : j ∉ [idx]) by (by rewrite list_elem_of_singleton). unfold prune_update, hand_on, responsored. cbn [sponsor sponsored]. rewrite (decide_False (P := j ∈ [idx])) by done. split.
  - destruct (decide (j ∈ sponsored n0)) as [Hin|Hin].
    + destruct (wf_recruit_live a Hwf idx n0 j Hn Hin) as (n' & Hj' & Hs & Hjl). assert (n' = n) as -> by congruence. rewrite Hs. cbn.
      rewrite decide_True by (split; [set_solver|left]). rewrite (heir_step a Hwf _ j n Hj Hjl), Hs, decide_True by set_solver. apply heir_one.
    + destruct (sponsor n) as [s|] eqn:Hs; [|done]. cbn. rewrite decide_False; [done|]. intros [_ ->%list_elem_of_singleton].
      destruct (wf_sponsor a Hwf j n idx Hj Hs) as (n' & ? & ?). congruence.
  - assert (Hfil : ∀ l : list NodeIndex, idx ∉ l → filter (λ c, c ∉ [idx]) l = l).
    { intros l Hidx. apply filter_all_true, Forall_forall. intros c Hc ->%list_elem_of_singleton. done. }
    assert (Had : adopted a [idx] [idx] j = if decide (sponsor n0 = Some j) then sponsored n0 else []).
    { unfold adopted. cbn [mbind list_bind]. rewrite app_nil_r, heir_one, stays_one. done. }
    rewrite Had, filter_app. case_decide as Hs.
    + f_equal; [apply filter_iff_in; intros c _; by rewrite list_elem_of_singleton|]. apply Hfil. exact (leaf_not_own_recruit a idx n0 Hwf Hn Hl).
    + rewrite Hfil, app_nil_r; [done|]. intros Hin. destruct (wf_sponsored a Hwf j n idx Hj Hin) as (n' & ? & ?). congruence.
Qed.

Lemma recruit_iff j n : nodes a !! j = Some n → j ∈ sponsored n0 ↔ sponsor n = Some idx.
Proof using Hwf Hn.
  intros Hj. split.
  - intros Hin. destruct (wf_sponsored a Hwf idx n0 j Hn Hin) as (n' & ? & ?). congruence.
  - intros Hs. destruct (wf_sponsor a Hwf j n idx Hj Hs) as (n' & ? & ?). congruence.
Qed.

Lemma responsored_inherited b : (∀ j, option_Forall2 same_sponsorship (if decide (j = idx) then Some tombstone_node else responsored j <$> nodes a !! j) (nodes b !! j)) →
  inherited a b idx n0.
Proof using Hwf Hn.
  intros Hb j n Hne Hj. specialize (Hb j). rewrite decide_False, Hj in Hb by done. inversion Hb as [? n' (Hu & Hs & Hsd)|]; subst.
  exists n'. split_and!; [done..| |done]. rewrite Hs. unfold responsored. cbn. apply decide_ext. by apply recruit_iff.
Qed.

Lemma responsored_wf b : root b = root a → root a ≠ Some idx →
  (∀ j, option_Forall2 same_sponsorship (if decide (j = idx) then Some tombstone_node else responsored j <$> nodes a !! j) (nodes b !! j)) → sponsors_wf b.
Proof using All.
  intros Hroot Hri Hb.
  set (g := mkArena (imap (λ j n, if decide (j = idx) then tombstone_node else prune_update a [idx] j n) (nodes a)) (delete (user_id n0) (index a)) (free_list a ++ [idx]) (root a)).
  assert (Hg : ∀ j, nodes g !! j = if decide (j = idx) then Some tombstone_node else prune_update a [idx] j <$> nodes a !! j).
  { intros j. unfold g. cbn. rewrite list_lookup_imap. case_decide as E; [subst; by rewrite Hn|done]. }
  assert (Hpr : pruned a g [idx]).
  { split.
    - intros j. rewrite Hg. by rewrite (decide_ext (j ∈ [idx]) (j = idx)) by apply list_elem_of_singleton.
    - intros u i. cbn. rewrite lookup_delete_Some, list_elem_of_singleton. split.
      + intros [Hu Hi]. split; [done|]. intros ->. destruct (resolve_live a Hwf u idx Hi) as (n & ? & ? & _). congruence.
      + intros [Hi Hne]. split; [|done]. intros <-. rewrite (live_indexed a Hwf idx n0 Hn Hl) in Hi. congruence.
    - done.
    - cbn. split; [|intros j; by rewrite elem_of_app]. apply NoDup_app. split_and!; [apply (wf_free_nodup a Hwf)| |apply NoDup_singleton].
      intros i Hi ->%list_elem_of_singleton. destruct (wf_free a Hwf idx Hi) as (n & ? & ?). congruence. }
  apply (sponsors_same g b); [done| |].
  - intros j. specialize (Hb j). rewrite Hg. case_decide as E; [done|]. destruct (nodes a !! j) as [n|] eqn:Hj; [|done]. cbn in *.
    inversion Hb as [? nb (Hu & Hs & Hsd)|]. subst. constructor. destruct (prune_one j n Hj E) as [H1 H2]. split_and!; [done|congruence|congruence].
  - apply (prune_sponsors a g [idx]); [done..| | | |apply NoDup_singleton].
    + intros i ->%list_elem_of_singleton. by exists n0.
    + intros i ->%list_elem_of_singleton. rewrite stays_one, heir_one. intros Hne. destruct (sponsor n0); [eauto|]. by destruct Hne, Hrec.
    + by intros i ->%list_elem_of_singleton.
Qed.
End one_removed.

(** ** Clearing the removed node *)
Lemma node_inv {E} b i n : @node E b i = Ok n → nodes b !! i = Some n.
Proof. unfold node, slot. intros (m & Hm' & [_ [= <-]]%bind_unit_ok)%bind_ok. by destruct (nodes b !! i); simplify_eq/=. Qed.

Section finish.
Context (t : MatrixTree) (Hm : matrix_wf t) (idx : NodeIndex) (n0 : Node) (p q : NodeIndex).
Context (Hn : nodes (arena t) !! idx = Some n0) (Hl : user_id n0 ≠ nil_uuid) (Hp : parent n0 = Some p) (Hq : q ∈ children n0).
Context (Hrec : sponsor n0 = None → sponsored n0 = []).
Context (δ : NodeIndex → Z) (t2 : MatrixTree) (Hv : moving t idx n0 p q [] δ t2).
Abbreviation a := (arena t).
Let Hwf := mw_arena t Hm.

Definition final_node (sq : list (option NodeIndex)) (j : NodeIndex) (n : Node) : Node :=
  (if decide (j = q) then with_children (λ _, flatten sq) else id) (responsored idx n0 j n).

Record emptied (sq : list (option NodeIndex)) (a6 : Arena) : Prop := {
  em_nodes j : nodes a6 !! j = if decide (j = idx) then Some tombstone_node else final_node sq j <$> nodes (arena t2) !! j;
  em_index : index a6 = delete (user_id n0) (index a);
  em_free : free_list a6 = free_list a ++ [idx];
  em_root : root a6 = root a;
}.

Lemma q_not_removed : q ≠ idx.
Proof using All.
  intros E. destruct (wf_child_live a Hwf idx n0 q Hn Hq) as (nq & Hnq & Hqp & _). destruct (wf_depth a Hwf q nq idx n0 Hnq Hqp Hn) as [Hd _]. rewrite E in Hnq. simplify_eq. lia.
Qed.

(** The writes that take [idx] out of the arena. *)
Lemma moves_ext b b' n n' : sponsor n' = sponsor n → sponsored n' = sponsored n → (∀ j, from_option user_id nil_uuid (nodes b' !! j) = from_option user_id nil_uuid (nodes b !! j)) →
  moves b' n' = moves b n.
Proof using Type. intros Hs Hd He. unfold moves. rewrite Hs, Hd. destruct (sponsor n); [|done]. apply list_fmap_ext. intros i x _. by rewrite !He. Qed.

Definition clear_tail (t3 : MatrixTree) : outcome TreeError (Arena * list Responsored) :=
  n ← node (arena t3) idx;
  a3 ← match sponsor n with
     | Some s => node_mut (arena t3) s (with_sponsored (filter (λ c, c ≠ idx)))
     | None => Ok (arena t3)
     end;
  '(a4, moved) ← reparent_sponsored a3 [idx];
  a6 ← tombstone (with_index (delete (user_id n0)) a4) idx;
  Ok (a6, moved).

Lemma clear_tail_run t3 : rebuild_children t2 q = Ok (E := TreeError) t3 →
  ∃ sq a6, clear_tail t3 = Ok (a6, moves a n0) ∧ slots t2 !! q = Some sq ∧ slots t3 = slots t2 ∧ emptied sq a6.
Proof using All.
  intros (sq & Hsq & ->)%rebuild_inv. unfold clear_tail. cbn [arena with_arena].
  destruct (mv_forward t idx n0 p q [] δ t2 Hv idx n0 Hn) as (n & Hn1 & Hu1 & Hs1 & Hsd1 & _). pose proof q_not_removed as Hqi.
  set (a3 := with_nodes (alter (with_children (λ _, flatten sq)) q) (arena t2)).
  assert (Hnode : nodes a3 !! idx = Some n) by (unfold a3; cbn; by rewrite lookup_alter_nodes, decide_False).
  assert (Hlive3 : ∀ j m, nodes a !! j = Some m → user_id m ≠ nil_uuid → ∃ m3, nodes a3 !! j = Some m3 ∧ user_id m3 ≠ nil_uuid).
  { intros j m Hj Hjl. destruct (mv_forward t idx n0 p q [] δ t2 Hv j m Hj) as (m2 & Hj2 & Hum & _). unfold a3. cbn. rewrite lookup_alter_nodes, Hj2.
    case_decide; eexists; (split; [done|]); cbn; congruence. }
  rewrite (node_ok a3 idx n Hnode ltac:(congruence)). cbn [mbind outcome_bind]. rewrite Hs1.
  set (cut := λ j m, if decide (sponsor n0 = Some j) then with_sponsored (filter (λ c, c ≠ idx)) m else m).
  assert (Hcut : ∃ a3', match sponsor n0 with Some s => @node_mut TreeError a3 s (with_sponsored (filter (λ c, c ≠ idx))) | None => Ok a3 end = Ok a3' ∧ same_frame (arena t2) a3' ∧
    ∀ j, nodes a3' !! j = (λ m, cut j ((if decide (j = q) then with_children (λ _, flatten sq) else id) m)) <$> nodes (arena t2) !! j).
  { unfold cut. destruct (sponsor n0) as [s|] eqn:Hs.
    - destruct (wf_sponsor_live a Hwf idx n0 s Hn Hs) as (ns & Hns & _ & Hsl). destruct (Hlive3 s ns Hns Hsl) as (ns3 & Hns3 & Hsl3). rewrite (node_mut_ok a3 s _ ns3 Hns3 Hsl3).
      eexists. split; [done|]. split; [done|]. intros j. unfold a3. cbn. rewrite !lookup_alter_nodes. destruct (nodes (arena t2) !! j) as [m|]; cbn; repeat case_decide; simplify_eq; done.
    - eexists. split; [done|]. split; [done|]. intros j. unfold a3. cbn. rewrite lookup_alter_nodes. destruct (decide (j = q)); destruct (nodes (arena t2) !! j); done. }
  destruct Hcut as (a3' & -> & (C1 & C2 & C3) & Hcut). cbn [mbind outcome_bind]. destruct (mv_frame _ _ _ _ _ _ _ _ Hv) as ((F1 & F2 & F3) & _).
  assert (Hidx3 : nodes a3' !! idx = Some n).
  { rewrite Hcut, Hn1. cbn. unfold cut. rewrite (decide_False (P := idx = q)) by done.
    rewrite decide_False; [done|]. intros Hs. by apply (leaf_sponsor_ne a idx n0 Hwf Hn Hl idx). }
  assert (Hsome : ∀ j, is_Some (nodes a !! j) → is_Some (nodes a3' !! j)).
  { intros j [m Hj]. destruct (mv_forward t idx n0 p q [] δ t2 Hv j m Hj) as (m1 & Hj1 & _). rewrite Hcut, Hj1. eauto. }
  destruct (reparent_one a3' idx n Hidx3) as (a4 & -> & (R1 & R2 & R3) & Hn4); rewrite ?Hs1, ?Hsd1.
  { by eapply wf_sponsored_nodup. }
  { exact (leaf_not_own_recruit a idx n0 Hwf Hn Hl). }
  { intros s Hs. destruct (wf_sponsor a Hwf idx n0 s Hn Hs) as (ns & Hns & _). split_and!; [by apply (leaf_sponsor_ne a idx n0 Hwf Hn Hl)|by apply (leaf_sponsor_not_recruit a idx n0 Hwf Hn Hl)|eauto]. }
  { done. }
  { intros s Hs. destruct (wf_sponsored a Hwf idx n0 s Hn Hs) as (nr & Hnr & _). eauto. }
  cbn [mbind outcome_bind]. unfold tombstone. rewrite (slot_ok (with_index _ a4) idx (reparented idx n idx n)) by (cbn; by rewrite Hn4, Hidx3). cbn [mbind outcome_bind].
  rewrite (moves_ext a a3' n0 n) by (first [done|intros j; rewrite Hcut; destruct (mv_nodes _ _ _ _ _ _ _ _ Hv j) as [m m2 (Hum & _)|]; [cbn; unfold cut; repeat case_decide; done|done]]).
  exists sq. eexists. split_and!; [done..|]. split; cbn; [|congruence|congruence|congruence].
  intros j. destruct (decide (j = idx)) as [->|Hj].
  { apply list_lookup_insert_eq. apply lookup_lt_is_Some. rewrite Hn4, Hidx3. eauto. }
  rewrite list_lookup_insert_ne, Hn4, Hcut by done. destruct (nodes (arena t2) !! j) as [m2|] eqn:Hj2; [|done]. cbn. f_equal.
  unfold reparented, final_node, responsored, cut. rewrite Hs1, Hsd1, (decide_False (P := j = idx)) by done.
  destruct (decide (j = q)), (decide (sponsor n0 = Some j)); done.
Qed.

(** ** Counting the depths again *)
Section depths.
Context (sq : list (option NodeIndex)) (a6 : Arena) (Hsq : slots t2 !! q = Some sq) (He : emptied sq a6).

Lemma em_back j n : nodes a6 !! j = Some n → j ≠ idx → ∃ n2, nodes (arena t2) !! j = Some n2 ∧ n = final_node sq j n2.
Proof using He. rewrite (em_nodes _ _ He). intros Hj Hne. rewrite decide_False in Hj by done. apply fmap_Some in Hj as (n2 & ? & ->). eauto. Qed.
Lemma em_forward j n2 : nodes (arena t2) !! j = Some n2 → j ≠ idx → nodes a6 !! j = Some (final_node sq j n2).
Proof using He. intros Hj Hne. by rewrite (em_nodes _ _ He), decide_False, Hj. Qed.

Lemma final_placement j n : parent (final_node sq j n) = parent n ∧ user_id (final_node sq j n) = user_id n ∧ depth (final_node sq j n) = depth n.
Proof using Type. unfold final_node. by case_decide. Qed.

(** The slots of the tree are those of its live nodes. *)
Lemma slot_live j s : slots t2 !! j = Some s → j ≠ idx → ∃ n, nodes a6 !! j = Some n ∧ user_id n ≠ nil_uuid ∧ children n = flatten s.
Proof using All.
  intros Hs Hj. destruct (proj1 (mv_slots _ _ _ _ _ _ _ _ Hv j)) as [s' Hs']; [eauto|]. destruct (sm_entry _ _ _ (mw_slots t Hm) j s' Hs') as (n & Hjn & Hjl & _).
  destruct (mv_forward t idx n0 p q [] δ t2 Hv j n Hjn) as (n2 & Hn2 & Hu2 & _). eexists. split_and!; [by apply em_forward|..].
  - rewrite (proj1 (proj2 (final_placement j n2))), Hu2. done.
  - unfold final_node. case_decide as E; [cbn; congruence|]. exact (mv_children _ _ _ _ _ _ _ _ Hv j s n2 Hj E Hs Hn2).
Qed.

Lemma cleared_slot j n : nodes a6 !! j = Some n → user_id n ≠ nil_uuid → j ≠ idx ∧ ∃ s, slots t2 !! j = Some s ∧ children n = flatten s.
Proof using All.
  intros Hj Hjl. assert (Hne : j ≠ idx) by (intros ->; rewrite (em_nodes _ _ He), decide_True in Hj by done; simplify_eq; done). split; [done|].
  destruct (em_back j n Hj Hne) as (n2 & Hn2 & ->). destruct (mv_back t idx n0 p q [] δ t2 Hv j n2 Hn2) as (m & Hjm & Hum & _).
  rewrite (proj1 (proj2 (final_placement j n2))), Hum in Hjl. destruct (live_slots t Hm j m Hjm Hjl) as [s0 Hs0].
  destruct (proj2 (mv_slots _ _ _ _ _ _ _ _ Hv j)) as [s Hs]; [eauto|]. exists s. split; [done|]. destruct (slot_live j s Hs Hne) as (n' & ? & _ & <-). by simplify_eq.
Qed.

Lemma no_children j n : nodes a6 !! j = Some n → user_id n = nil_uuid → parent n = None ∧ children n = [].
Proof using All.
  intros Hj Hnil. destruct (decide (j = idx)) as [->|Hne]; [rewrite (em_nodes _ _ He), decide_True in Hj by done; by simplify_eq|].
  destruct (em_back j n Hj Hne) as (n2 & Hn2 & ->). destruct (mv_back t idx n0 p q [] δ t2 Hv j n2 Hn2) as (m & Hjm & Hum & _).
  rewrite (proj1 (proj2 (final_placement j n2))), Hum in Hnil. assert (Hno : ¬ sub a idx j) by (intros [->|Hb]; [done|destruct (below_live a Hwf idx j Hb) as (? & ? & ?); congruence]).
  destruct (mv_outside _ _ _ _ _ _ _ _ Hv j m n2 Hjm Hn2 Hno) as [_ Hpar]. destruct (wf_tomb a Hwf j m Hjm Hnil) as (Hpm & _ & _). split; [rewrite (proj1 (final_placement j n2)); congruence|].
  unfold final_node. case_decide as E; [|exact (mv_tomb _ _ _ _ _ _ _ _ Hv j m n2 Hjm Hnil Hn2)]. exfalso. destruct (wf_child_live a Hwf idx n0 q Hn Hq) as (nq & ? & _ & ?). congruence.
Qed.

Lemma final_edge j n c : nodes a6 !! j = Some n → c ∈ children n → ∃ nc, nodes a6 !! c = Some nc ∧ parent nc = Some j ∧ δ c = (δ j + 1)%Z.
Proof using All.
  intros Hj Hc. destruct (decide (user_id n = nil_uuid)) as [Hnil|Hjl]; [destruct (no_children j n Hj Hnil) as [_ E]; rewrite E in Hc; by apply elem_of_nil in Hc|].
  destruct (cleared_slot j n Hj Hjl) as (Hne & s & Hs & Hch). rewrite Hch in Hc. destruct (mv_down _ _ _ _ _ _ _ _ Hv j s c Hne Hs Hc) as (Hci & nc & Hnc & Hpc).
  destruct (mv_up _ _ _ _ _ _ _ _ Hv c nc j Hnc Hci (not_elem_of_nil c) Hpc) as (_ & Hδ & _). eexists. split_and!; [by apply em_forward|by rewrite (proj1 (final_placement c nc))|done].
Qed.

Lemma final_parent c n j : nodes a6 !! c = Some n → parent n = Some j → δ c = (δ j + 1)%Z ∧ ∃ nj, nodes a6 !! j = Some nj ∧ c ∈ children nj.
Proof using All.
  intros Hc Hj. assert (Hne : c ≠ idx) by (intros ->; rewrite (em_nodes _ _ He), decide_True in Hc by done; simplify_eq; done).
  destruct (em_back c n Hc Hne) as (n2 & Hn2 & ->). rewrite (proj1 (final_placement c n2)) in Hj.
  destruct (mv_up _ _ _ _ _ _ _ _ Hv c n2 j Hn2 Hne (not_elem_of_nil c) Hj) as (Hji & Hδ & s & Hs & Hin). split; [done|].
  destruct (slot_live j s Hs Hji) as (nj & Hnj & _ & Hch). exists nj. rewrite Hch. done.
Qed.

(** Everything but the depth. *)
Definition same_but_depth (n n' : Node) : Prop := n = with_depth (depth n) n'.

Definition counted (b : Arena) (j : NodeIndex) : Prop := ∃ n, nodes b !! j = Some n ∧ Z.of_N (depth n) = δ j ∧ (depth n ≤ u32_max)%N.

(** Some nodes have their new depth, the others the old one. *)
Record counting (b : Arena) : Prop := {
  ct_frame : same_frame a6 b;
  ct_nodes j : option_Forall2 same_but_depth (nodes a6 !! j) (nodes b !! j);
  ct_depth j : counted b j ∨ nodes b !! j = nodes a6 !! j;
}.

Lemma ct_back b j n : counting b → nodes b !! j = Some n → ∃ n6, nodes a6 !! j = Some n6 ∧ same_but_depth n6 n.
Proof using All. intros Hc Hj. pose proof (ct_nodes _ Hc j) as H. rewrite Hj in H. inversion H; subst; eauto. Qed.

Lemma set_depth {E} b c d b' : counting b → Z.of_N d = δ c → (d ≤ u32_max)%N → @node_mut E b c (with_depth d) = Ok b' →
  counting b' ∧ counted b' c ∧ ∀ j, counted b j → counted b' j.
Proof using All.
  intros Hc Hd Hmax Hrun. assert (Hnc : ∃ n, nodes b !! c = Some n).
  { unfold node_mut, slot in Hrun. destruct (nodes b !! c); [eauto|done]. }
  destruct Hnc as [nc Hnc]. apply node_mut_inv in Hrun as ->.
  assert (Hnew : counted (with_nodes (alter (with_depth d) c) b) c) by (eexists; cbn; rewrite lookup_alter_nodes, decide_True, Hnc by done; done).
  assert (Hold : ∀ j, j ≠ c → nodes (with_nodes (alter (with_depth d) c) b) !! j = nodes b !! j) by (intros j Hj; cbn; by rewrite lookup_alter_nodes, decide_False).
  split; [|split; [done|]].
  - split; [apply Hc| |].
    + intros j. destruct (decide (j = c)) as [->|Hj]; [|rewrite Hold by done; apply Hc]. pose proof (ct_nodes _ Hc c) as H. cbn.
      rewrite lookup_alter_nodes, decide_True by done. rewrite Hnc in *. inversion H as [n6 ? Hs|]; subst. constructor. unfold same_but_depth in *. rewrite Hs. done.
    + intros j. destruct (decide (j = c)) as [->|Hj]; [by left|]. unfold counted. rewrite Hold by done. apply Hc.
  - intros j Hj. destruct (decide (j = c)) as [->|Hne]; [done|]. unfold counted. by rewrite Hold.
Qed.

Lemma depth_children {E} d0 cs b b' : counting b → (∀ c, c ∈ cs → (Z.of_N d0 + 1)%Z = δ c) →
  fold_outcome (λ b c, d ← u32_add d0 1; @node_mut E b c (with_depth d)) b cs = Ok b' →
  counting b' ∧ (∀ c, c ∈ cs → counted b' c) ∧ ∀ j, counted b j → counted b' j.
Proof using All.
  revert b. induction cs as [|c cs IH]; intros b Hc Hcs; cbn [fold_outcome]; [intros [= <-]; split_and!; [done|by intros c ?%elem_of_nil|done]|].
  intros (b1 & (d & Hd & Hset)%bind_ok & Hrun)%bind_ok. unfold u32_add in Hd. destruct (N.leb_spec (d0 + 1) u32_max) as [Hmax|]; [|done]. injection Hd as <-.
  destruct (set_depth b c (d0 + 1) b1 Hc ltac:(rewrite <- (Hcs c) by left; lia) Hmax Hset) as (Hc1 & Hnew & Hkeep).
  destruct (IH b1 Hc1 ltac:(intros x Hx; apply Hcs; by right) Hrun) as (Hc' & Hnew' & Hkeep'). split_and!; [done| |by auto].
  intros x [->|Hx]%elem_of_cons; auto.
Qed.

Lemma depths_loop_spec {E} fuel b queue b' : counting b → (∀ i, i ∈ queue → counted b i) → @depths_loop E fuel b queue = Ok b' →
  counting b' ∧ (∀ j, counted b j → counted b' j) ∧ ∃ W : list NodeIndex, (∀ i, i ∈ queue → i ∈ W) ∧ (∀ i, i ∈ W → counted b' i) ∧
    ∀ i n c, i ∈ W → nodes a6 !! i = Some n → c ∈ children n → c ∈ W.
Proof using All.
  revert b queue. induction fuel as [|fuel IH]; intros b queue Hc Hq'; [done|]. destruct queue as [|i queue]; cbn [depths_loop].
  { intros [= <-]. split_and!; [done..|]. exists []. split_and!; [done|by intros ? ?%elem_of_nil|by intros ? ? ? ?%elem_of_nil]. }
  intros (n & Hi%node_inv & (b1 & Hfold & Hrun)%bind_ok)%bind_ok. destruct (ct_back b i n Hc Hi) as (n6 & Hi6 & Hsame).
  assert (Hch : children n6 = children n) by (by rewrite Hsame).
  destruct (Hq' i ltac:(left)) as (n' & Hi' & Hδ & _). assert (n' = n) as -> by congruence.
  destruct (depth_children (E := E) (depth n) (children n) b b1 Hc) as (Hc1 & Hnew & Hkeep); [|done|].
  { intros c Hin. rewrite <- Hch in Hin. destruct (final_edge i n6 c Hi6 Hin) as (_ & _ & _ & Hδc). lia. }
  destruct (IH b1 (queue ++ children n) Hc1) as (Hc' & Hkeep' & W & HW1 & HW2 & HW3); [|done|].
  { intros x [Hx|Hx]%elem_of_app; [apply Hkeep, Hq'; by right|by apply Hnew]. }
  split_and!; [done|by auto|]. exists (i :: W). split_and!.
  - intros x [->|Hx]%elem_of_cons; [left|]. right. apply HW1. apply elem_of_app. by left.
  - intros x [->|Hx]%elem_of_cons; [|by apply HW2]. apply Hkeep', Hkeep, Hq'. left.
  - intros x m c [->|Hx]%elem_of_cons Hxm Hcm; right; [|by eapply HW3]. apply HW1, elem_of_app. right. rewrite <- Hch. congruence.
Qed.

Lemma bounded_below (l : list NodeIndex) : ∃ M, ∀ j, j ∈ l → (M ≤ δ j)%Z.
Proof using All.
  induction l as [|x l [M HM]]; [exists 0%Z; by intros ? ?%elem_of_nil|]. exists (Z.min M (δ x)).
  intros j [->|Hj]%elem_of_cons; [lia|]. specialize (HM j Hj). lia.
Qed.

(** Whoever was below the removed node is below the promoted one. *)
Lemma reached (W : list NodeIndex) : q ∈ W → (∀ i n c, i ∈ W → nodes a6 !! i = Some n → c ∈ children n → c ∈ W) → ∀ j, below a idx j → j ∈ W.
Proof using All.
  intros HqW Hclosed. destruct (descendants_spec (E := TreeError) t idx n0 Hwf Hn Hl) as (ds & _ & _ & Hds). destruct (bounded_below ds) as [M HM].
  assert (H : ∀ k j, below a idx j → Z.to_nat (δ j - M) < k → j ∈ W); [|intros j Hb; apply (H (S (Z.to_nat (δ j - M))) j Hb); lia].
  induction k as [|k IH]; intros j Hb Hk; [lia|]. destruct (decide (j = q)) as [->|Hjq]; [done|].
  destruct (below_live a Hwf idx j Hb) as (n & Hj & Hjl). destruct (mv_forward t idx n0 p q [] δ t2 Hv j n Hj) as (n2 & Hj2 & _).
  destruct (mv_inside _ _ _ _ _ _ _ _ Hv j n2 Hb Hjq (not_elem_of_nil j) Hj2) as (i & Hi & Hbi).
  assert (Hne : j ≠ idx) by (intros ->; pose proof (below_depth a Hwf idx n0 idx n0 Hn Hb Hn); lia).
  destruct (final_parent j (final_node sq j n2) i) as (Hδ & ni & Hni & Hin); [by apply em_forward|by rewrite (proj1 (final_placement j n2))|].
  eapply Hclosed; [|exact Hni|exact Hin]. apply IH; [done|]. pose proof (HM i (proj2 (Hds i) Hbi)). lia.
Qed.

Lemma counting_start : counting a6.
Proof using All. split; [done| |by right]. intros j. destruct (nodes a6 !! j) as [[]|]; constructor. done. Qed.

(** Every live node ends with its new depth. *)
Lemma recalculated t4 t5 : arena t4 = a6 → recalculate_depths t4 q = Ok (E := TreeError) t5 →
  (∃ b, t5 = with_arena t4 b ∧ counting b ∧ ∀ j n, nodes b !! j = Some n → user_id n ≠ nil_uuid → counted b j).
Proof using All.
  intros Ha4. unfold recalculate_depths. rewrite Ha4. intros (nq & Hnq%node_inv & (pd & Hpd & (d & Hd & (b1 & Hset & (b & Hloop & [= <-])%bind_ok)%bind_ok)%bind_ok)%bind_ok)%bind_ok.
  destruct (mv_promoted _ _ _ _ _ _ _ _ Hv) as (Hδq & nq2 & Hnq2 & Hpq). pose proof q_not_removed as Hqi.
  assert (nq = final_node sq q nq2) as -> by (rewrite (em_forward q nq2 Hnq2 Hqi) in Hnq; congruence).
  rewrite (proj1 (final_placement q nq2)), Hpq in Hpd, Hd. apply bind_ok in Hpd as (np & Hnp%node_inv & [= <-]).
  destruct (wf_parent_live a Hwf idx n0 p Hn Hp) as (npa & Hnpa & _ & _). destruct (wf_depth a Hwf idx n0 p npa Hn Hp Hnpa) as [Hd0 _].
  assert (Hpi : p ≠ idx) by (intros E; rewrite E in Hnpa; simplify_eq; lia).
  destruct (mv_forward t idx n0 p q [] δ t2 Hv p npa Hnpa) as (np2 & Hnp2 & _ & _ & _ & Hdp & _).
  assert (Hdep : depth np = depth npa) by (rewrite (em_forward p np2 Hnp2 Hpi) in Hnp; simplify_eq; rewrite (proj2 (proj2 (final_placement p np2))); done).
  unfold u32_add in Hd. destruct (N.leb_spec (depth np + 1) u32_max) as [Hmax|]; [|done]. injection Hd as <-.
  destruct (set_depth (E := TreeError) a6 q (depth np + 1) b1 counting_start) as (Hc1 & Hq1 & _); [rewrite Hδq; lia|done|exact Hset|].
  destruct (depths_loop_spec (E := TreeError) (loop_fuel b1) b1 [q] b Hc1) as (Hc & _ & W & HqW & HW & Hcl); [by intros i ->%list_elem_of_singleton|exact Hloop|].
  exists b. split_and!; [done|done|]. intros j n Hj Hjl. destruct (ct_depth _ Hc j) as [|Hsame]; [done|].
  destruct (descendants_spec (E := TreeError) t idx n0 Hwf Hn Hl) as (ds & _ & _ & Hds). destruct (decide (j ∈ ds)) as [Hin|Hout].
  { apply HW. eapply reached; [apply HqW; left|done|by apply Hds]. }
  rewrite Hj in Hsame. symmetry in Hsame. assert (Hne : j ≠ idx) by (intros ->; rewrite (em_nodes _ _ He), decide_True in Hsame by done; simplify_eq; done).
  destruct (em_back j n Hsame Hne) as (n2 & Hn2 & ->). destruct (mv_back t idx n0 p q [] δ t2 Hv j n2 Hn2) as (m & Hjm & Hum & _ & _ & Hdm & _).
  destruct (mv_outside _ _ _ _ _ _ _ _ Hv j m n2 Hjm Hn2) as [Hδ _]; [intros [->|Hb]; [done|by apply Hout, Hds]|].
  eexists. split; [done|]. rewrite (proj2 (proj2 (final_placement j n2))), Hdm. split; [done|].
  rewrite (proj1 (proj2 (final_placement j n2))), Hum in Hjl. destruct (parent m) as [i|] eqn:Hi.
  - destruct (wf_parent a Hwf j m i Hjm Hi) as (ni & Hni & _). apply (wf_depth a Hwf j m i ni Hjm Hi Hni).
  - rewrite (wf_depth_root a Hwf j m Hjm Hjl Hi). lia.
Qed.

(** ** The tree afterwards *)
Section result.
Context (b : Arena) (Hc : counting b) (Hall : ∀ j n, nodes b !! j = Some n → user_id n ≠ nil_uuid → counted b j).

Lemma ct_fields n6 n : same_but_depth n6 n →
  user_id n = user_id n6 ∧ parent n = parent n6 ∧ children n = children n6 ∧ sponsor n = sponsor n6 ∧ sponsored n = sponsored n6.
Proof using Type. intros ->. done. Qed.

Lemma ct_forward j n6 : nodes a6 !! j = Some n6 → ∃ n, nodes b !! j = Some n ∧ same_but_depth n6 n.
Proof using Hc. intros Hj. pose proof (ct_nodes _ Hc j) as H. rewrite Hj in H. inversion H; subst; eauto. Qed.

Lemma parentless_outside j n : nodes b !! j = Some n → user_id n ≠ nil_uuid → parent n = None → ∃ m, nodes a !! j = Some m ∧ user_id m = user_id n ∧ parent m = None ∧ δ j = Z.of_N (depth m).
Proof using All.
  intros Hj Hjl Hpar. destruct (ct_back b j n Hc Hj) as (n6 & Hj6 & (Hu & Hp6 & _)%ct_fields). destruct (cleared_slot j n6 Hj6 ltac:(congruence)) as [Hne _].
  destruct (em_back j n6 Hj6 Hne) as (n2 & Hn2 & ->). rewrite (proj1 (final_placement j n2)) in Hp6. rewrite (proj1 (proj2 (final_placement j n2))) in Hu.
  destruct (mv_back t idx n0 p q [] δ t2 Hv j n2 Hn2) as (m & Hjm & Hum & _). exists m.
  assert (Hno : ¬ sub a idx j).
  { intros [->|Hb]; [done|]. destruct (decide (j = q)) as [->|Hjq].
    - destruct (mv_promoted _ _ _ _ _ _ _ _ Hv) as (_ & nq & ? & ?). congruence.
    - destruct (mv_inside _ _ _ _ _ _ _ _ Hv j n2 Hb Hjq (not_elem_of_nil j) Hn2) as (i & ? & _). congruence. }
  destruct (mv_outside _ _ _ _ _ _ _ _ Hv j m n2 Hjm Hn2 Hno) as [Hδ Hpm]. split_and!; congruence.
Qed.

Lemma not_root : root a ≠ Some idx.
Proof using All. intros Hr. pose proof (root_parentless a idx n0 Hwf Hr Hn). congruence. Qed.

Lemma result_index u i : index b !! u = Some i ↔ u ≠ nil_uuid ∧ ∃ n, nodes b !! i = Some n ∧ user_id n = u.
Proof using All.
  destruct (ct_frame _ Hc) as (-> & _). rewrite (em_index _ _ He), lookup_delete_Some, (wf_index a Hwf). split.
  - intros (Hne & Hu & m & Hm' & Hum). split; [done|]. assert (Hi : i ≠ idx) by congruence.
    destruct (mv_forward t idx n0 p q [] δ t2 Hv i m Hm') as (n2 & Hn2 & Hu2 & _). destruct (ct_forward i _ (em_forward i n2 Hn2 Hi)) as (n & Hn' & (Hun & _)%ct_fields).
    exists n. split; [done|]. rewrite Hun, (proj1 (proj2 (final_placement i n2))). congruence.
  - intros (Hu & n & Hi & Hun). destruct (ct_back b i n Hc Hi) as (n6 & Hi6 & (Hu6 & _)%ct_fields). destruct (cleared_slot i n6 Hi6 ltac:(congruence)) as [Hne _].
    destruct (em_back i n6 Hi6 Hne) as (n2 & Hn2 & ->). rewrite (proj1 (proj2 (final_placement i n2))) in Hu6.
    destruct (mv_back t idx n0 p q [] δ t2 Hv i n2 Hn2) as (m & Him & Hum & _). split_and!; [|done|exists m; split; congruence].
    intros E. pose proof (live_indexed a Hwf idx n0 Hn Hl) as H1. pose proof (live_indexed a Hwf i m Him ltac:(congruence)) as H2.
    rewrite <- Hum, <- Hu6, Hun, <- E in H2. congruence.
Qed.

Lemma result_placement : placement_wf b.
Proof using All.
  destruct (ct_frame _ Hc) as (_ & F2 & F3). rewrite (em_free _ _ He) in F2. rewrite (em_root _ _ He) in F3. split.
  - exact result_index.
  - intros i n Hi Hnil. destruct (ct_back b i n Hc Hi) as (n6 & Hi6 & (Hu & -> & -> & _)%ct_fields). apply (no_children i n6 Hi6). congruence.
  - intros i n j Hi Hj. destruct (ct_back b i n Hc Hi) as (n6 & Hi6 & (_ & Hp6 & _)%ct_fields). rewrite Hp6 in Hj. destruct (final_parent i n6 j Hi6 Hj) as (_ & nj6 & Hnj6 & Hin).
    destruct (ct_forward j nj6 Hnj6) as (nj & Hnj & (_ & _ & Hch & _)%ct_fields). exists nj. by rewrite Hch.
  - intros i n c Hi Hin. destruct (ct_back b i n Hc Hi) as (n6 & Hi6 & (_ & _ & Hch & _)%ct_fields). rewrite Hch in Hin. destruct (final_edge i n6 c Hi6 Hin) as (nc6 & Hnc6 & Hpc & _).
    destruct (ct_forward c nc6 Hnc6) as (nc & Hnc & (_ & Hp' & _)%ct_fields). exists nc. split; congruence.
  - intros i n Hi. destruct (ct_back b i n Hc Hi) as (n6 & Hi6 & (_ & _ & -> & _)%ct_fields). destruct (decide (user_id n6 = nil_uuid)) as [Hnil|Hil].
    + destruct (no_children i n6 Hi6 Hnil) as [_ ->]. constructor.
    + destruct (cleared_slot i n6 Hi6 Hil) as (Hne & s & Hs & ->). by eapply (mv_nodup _ _ _ _ _ _ _ _ Hv).
  - intros i n Hi Hil Hpar. destruct (parentless_outside i n Hi Hil Hpar) as (m & Him & Hum & Hpm & Hδ). destruct (Hall i n Hi Hil) as (n' & ? & Hd & _).
    pose proof (wf_depth_root a Hwf i m Him ltac:(congruence) Hpm). assert (n' = n) as -> by congruence. lia.
  - intros i n j nj Hi Hj Hnj. destruct (ct_back b i n Hc Hi) as (n6 & Hi6 & (Hu & Hp6 & _)%ct_fields). rewrite Hp6 in Hj. destruct (final_parent i n6 j Hi6 Hj) as (Hδ & nj6 & Hnj6 & Hin).
    destruct (ct_back b j nj Hc Hnj) as (nj6' & Hnj6' & (Huj & _)%ct_fields). assert (nj6' = nj6) as -> by congruence.
    assert (Hil : user_id n6 ≠ nil_uuid) by (intros Hnil; destruct (no_children i n6 Hi6 Hnil); congruence).
    assert (Hjl : user_id nj6 ≠ nil_uuid) by (intros Hnil; destruct (no_children j nj6 Hnj6 Hnil) as [_ E]; rewrite E in Hin; by apply elem_of_nil in Hin).
    destruct (Hall i n Hi ltac:(congruence)) as (n' & ? & Hd & Hmax), (Hall j nj Hnj ltac:(congruence)) as (nj' & ? & Hdj & _). simplify_eq. split; [lia|done].
  - rewrite F2. apply NoDup_app. split_and!; [apply (wf_free_nodup a Hwf)| |apply NoDup_singleton]. intros i Hi ->%list_elem_of_singleton. destruct (wf_free a Hwf idx Hi) as (? & ? & ?). congruence.
  - intros i. rewrite F2, elem_of_app, list_elem_of_singleton. intros Hi. assert (Ht : ∃ n6, nodes a6 !! i = Some n6 ∧ user_id n6 = nil_uuid).
    { destruct (decide (i = idx)) as [->|Hne]; [exists tombstone_node; by rewrite (em_nodes _ _ He), decide_True|]. destruct Hi as [Hi|]; [|done].
      destruct (wf_free a Hwf i Hi) as (m & Him & Hnil). destruct (mv_forward t idx n0 p q [] δ t2 Hv i m Him) as (n2 & Hn2 & Hu2 & _).
      eexists. split; [by apply em_forward|]. rewrite (proj1 (proj2 (final_placement i n2))). congruence. }
    destruct Ht as (n6 & Hi6 & Hnil). destruct (ct_forward i n6 Hi6) as (n & Hin & (Hu & _)%ct_fields). exists n. split; congruence.
  - rewrite F3. intros r Hr. destruct (wf_root_live a Hwf r Hr) as (m & Hrm & Hrl & _). assert (Hne : r ≠ idx) by (intros ->; by apply not_root).
    destruct (mv_forward t idx n0 p q [] δ t2 Hv r m Hrm) as (n2 & Hn2 & Hu2 & _). destruct (ct_forward r _ (em_forward r n2 Hn2 Hne)) as (n & Hrn & (Hu & _)%ct_fields).
    exists n. split; [done|]. rewrite Hu, (proj1 (proj2 (final_placement r n2))). congruence.
  - rewrite F3. intros i n Hr. by destruct Hl; eapply (wf_rootless a Hwf idx n0).
  - rewrite F3. intros r i n Hr Hi Hil Hpar. destruct (parentless_outside i n Hi Hil Hpar) as (m & Him & Hum & Hpm & _). apply (wf_root_unique a Hwf r i m Hr Him); congruence.
Qed.

Lemma result_sponsorship j : option_Forall2 same_sponsorship (if decide (j = idx) then Some tombstone_node else responsored idx n0 j <$> nodes a !! j) (nodes b !! j).
Proof using All.
  pose proof (ct_nodes _ Hc j) as H. rewrite (em_nodes _ _ He) in H. case_decide as E.
  - inversion H as [? n Hs Heq1 Heq2|]; subst. constructor. apply ct_fields in Hs as (? & _ & _ & ? & ?). done.
  - pose proof (mv_nodes _ _ _ _ _ _ _ _ Hv j) as H2. inversion H2 as [m n2 (Hu & Hs & Hsd & _) E1 E2|E1 E2]; rewrite <- E2 in H; inversion H as [? n Hb|]; subst; [|constructor].
    cbn. constructor. apply ct_fields in Hb as (Hu' & _ & _ & Hs' & Hsd'). unfold same_sponsorship, responsored. cbn. rewrite Hu', Hs', Hsd'. unfold final_node. case_decide; cbn; rewrite Hu, Hs, Hsd; done.
Qed.

Lemma result_sponsors : sponsors_wf b.
Proof using All.
  destruct (ct_frame _ Hc) as (_ & _ & F3). rewrite (em_root _ _ He) in F3. apply (responsored_wf a Hwf idx n0 Hn Hl Hrec); [done|exact not_root|].
  exact result_sponsorship.
Qed.

Lemma result_inherited : inherited a b idx n0.
Proof using All. apply (responsored_inherited a Hwf idx n0 Hn). exact result_sponsorship. Qed.

Lemma result_wf t5 : arena t5 = b → slots t5 = delete idx (slots t2) → width t5 = width t → spillover t5 = spillover t → holding_tank t5 = holding_tank t → matrix_wf t5.
Proof using All.
  intros Ha Hs Hw Hso Ht. pose proof Hm as [M1 M2 M3 M4 M5 [T1 T2 T3 T4 T5]]. split; rewrite ?Ha, ?Hs, ?Hw, ?Hso; try done.
  - apply wf_halves. split; [exact result_placement|exact result_sponsors].
  - split.
    + intros i c [Hne Hci]%lookup_delete_Some. destruct (slot_live i c Hci ltac:(done)) as (n6 & Hi6 & Hil & Hch). destruct (ct_forward i n6 Hi6) as (n & Hi & (Hu & _ & Hch' & _)%ct_fields).
      exists n. split_and!; [done|congruence|]. by rewrite Hch'.
    + intros i n Hi Hil. destruct (ct_back b i n Hc Hi) as (n6 & Hi6 & (Hu & _)%ct_fields). destruct (cleared_slot i n6 Hi6 ltac:(congruence)) as (Hne & s & Hsi & _).
      rewrite lookup_delete_ne by done. eauto.
  - intros i s [_ Hi]%lookup_delete_Some. by eapply (mv_length _ _ _ _ _ _ _ _ Hv).
  - split; rewrite ?Ht, ?Ha; try done. intros e Hin. destruct (ct_frame _ Hc) as (-> & _). rewrite (em_index _ _ He). apply lookup_delete_None. right. by apply T4.
Qed.
End result.
End depths.
End finish.

(** ** The whole request *)

Lemma removable_recruits t u idx n0 : matrix_wf t → check_remove_node t u PromoteEarliest = Ok () → index (arena t) !! u = Some idx → nodes (arena t) !! idx = Some n0 →
  root (arena t) ≠ Some idx ∧ (sponsor n0 = None → sponsored n0 = []).
Proof.
  intros Hm Hc Hi Hn. pose proof (mw_arena t Hm) as Hwf. destruct (resolve_live _ Hwf u idx Hi) as (n & Hn' & Hu & Hnil). assert (n = n0) as -> by congruence.
  unfold check_remove_node, resolve in Hc. rewrite Hi in Hc. cbn [ok_or mbind outcome_bind removal_set] in Hc. rewrite refuse_decide in Hc. case_decide as Hr; [done|].
  rewrite (check_removable_one (arena t) idx n0 Hwf Hn ltac:(congruence)) in Hc. split; [done|]. case_decide as Hd; [done|]. intros Hs. destruct (sponsored n0); [done|]. by destruct Hd.
Qed.

(** No children: the node is cut from its parent, and nothing else moves. *)
Lemma detach_leaf_wf t idx n0 u p k sp : matrix_wf t → nodes (arena t) !! idx = Some n0 → user_id n0 = u → user_id n0 ≠ nil_uuid → children n0 = [] →
  (sponsor n0 = None → sponsored n0 = []) → parent n0 = Some p → slots t !! p = Some sp → sp !! k = Some (Some idx) →
  ∃ t', detach_and_tombstone t idx u p k = Ok (t', moves (arena t) n0) ∧ matrix_wf t' ∧ (holding_tank t' = holding_tank t ∧ index (arena t') = delete u (index (arena t))) ∧
  slots t' = delete idx (<[p := <[k := None]> sp]> (slots t)) ∧ inherited (arena t) (arena t') idx n0.
Proof.
  intros Hm Hn Hu Hl Hleaf Hrec Hp Hsp Hk. pose proof (mw_arena t Hm) as Hwf. set (g := λ _ : list NodeIndex, flatten (<[k := None]> sp)).
  destruct (wf_parent_live _ Hwf idx n0 p Hn Hp) as (np & Hnp & _ & Hpl). pose proof (slot_children t Hm p np sp Hnp Hsp) as Hch.
  pose proof (flatten_unslot sp k idx ltac:(rewrite <- Hch; by eapply wf_children_nodup) Hk) as Hf.
  destruct (remove_leaf (arena t) idx n0 g Hwf Hn Hl Hleaf Hrec) as (a4 & a6 & Hre & Hto & Hdt).
  { intros p' np' Hp' Hnp'. simplify_eq. unfold g. rewrite Hf, <- Hch. split; [apply NoDup_filter; by eapply wf_children_nodup|]. intros c. rewrite list_elem_of_filter. naive_solver. }
  assert (Hpi : p ≠ idx) by (by apply (leaf_parent_ne (arena t) idx n0 Hwf Hn Hleaf)).
  unfold detach_and_tombstone, set_slot. rewrite Hsp. cbn [expect mbind outcome_bind]. rewrite Hk. cbn [expect mbind outcome_bind]. unfold rebuild_children. cbn [slots with_slots arena].
  rewrite lookup_insert_eq. cbn [expect mbind outcome_bind]. change (omap id (<[k := None]> sp)) with (flatten (<[k := None]> sp)).
  assert (Hun : @node_mut TreeError (arena t) p (with_children g) = Ok (unparented (arena t) n0 g)).
  { unfold unparented. rewrite Hp. by eapply node_mut_ok. }
  unfold g in Hun at 1. rewrite Hun. cbn [mbind outcome_bind arena with_arena].
  rewrite (node_ok _ _ _ (unparented_self (arena t) idx n0 g Hwf Hn Hleaf) Hl). cbn [mbind outcome_bind].
  rewrite (unsponsor_ok (arena t) idx n0 g Hwf Hn). cbn [mbind outcome_bind].
  assert (Hroot : unlinked (arena t) idx n0 g = unsponsored (unparented (arena t) n0 g) idx n0).
  { unfold unlinked. rewrite bool_decide_eq_false_2; [done|]. intros Hr. assert (root (arena t) = Some idx) as Hr'.
    { unfold unsponsored, unparented in Hr. destruct (sponsor n0), (parent n0); exact Hr. }
    pose proof (root_parentless _ idx n0 Hwf Hr' Hn). congruence. }
  rewrite <- Hroot, Hre. cbn [mbind outcome_bind]. rewrite <- Hu, Hto. cbn [mbind outcome_bind]. eexists. split; [done|].
  destruct Hm as [M1 M2 M3 M4 M5 [T1 T2 T3 T4 T5]]. pose proof (dt_index _ _ _ _ _ _ Hdt) as Hix. split_and!; [|done..|by eapply detach_inherited]. split; cbn; try done.
  - by eapply wf_detach.
  - apply (slots_detach id (arena t) a6 (slots t) idx n0 _ _ (Some (p, <[k := None]> sp)) Hwf Hdt M4 Hp).
    intros p' c' [= <- <-]. unfold new_children. rewrite Hp, Hnp. done.
  - intros i s [_ Hi]%lookup_delete_Some. destruct (decide (i = p)) as [->|Hne]; [rewrite lookup_insert_eq in Hi; injection Hi as <-; rewrite length_insert; by eapply M5|].
    rewrite lookup_insert_ne in Hi by done. by eapply M5.
  - split; cbn; try done. intros e Hin. rewrite Hix. apply lookup_delete_None. right. by apply T4.
Qed.

(** A child is promoted: the subtree is rearranged under it. *)
Lemma promote_child_wf t idx n0 u p k sp s0 q nq uq k0 t1 t2 ids t3 a6 moved t5 : matrix_wf t → nodes (arena t) !! idx = Some n0 → user_id n0 = u → user_id n0 ≠ nil_uuid →
  (sponsor n0 = None → sponsored n0 = []) → parent n0 = Some p → slots t !! p = Some sp → sp !! k = Some (Some idx) → slots t !! idx = Some s0 → q ∈ flatten s0 →
  nodes (arena t) !! q = Some nq →
  (t' ← set_slot t idx k0 None; t' ← set_slot t' p k (Some q); t' ← rebuild_children t' p; b ← node_mut (arena t') q (with_parent (Some p)); Ok (with_arena t' b)) = Ok (E := TreeError) t1 →
  fold_outcome (reposition q uq) (t1, []) (filter (λ c, c ≠ q) (flatten s0)) = Ok (t2, ids) → rebuild_children t2 q = Ok (E := TreeError) t3 →
  clear_tail idx n0 t3 = Ok (a6, moved) → recalculate_depths (with_slots (with_arena t3 a6) (delete idx (slots t3))) q = Ok (E := TreeError) t5 →
  matrix_wf t5 ∧ holding_tank t5 = holding_tank t ∧ index (arena t5) = delete u (index (arena t)).
Proof.
  intros Hm Hn Hu Hl Hrec Hp Hsp Hk Hs0 Hqs Hnq Hfirst Hfold Hreb Hclear Hdepth. pose proof (mw_arena t Hm) as Hwf.
  assert (Hq : q ∈ children n0) by (by rewrite (slot_children t Hm idx n0 s0 Hn Hs0)).
  destruct (wf_parent_live _ Hwf idx n0 p Hn Hp) as (np & Hnp & _ & _). destruct (wf_depth _ Hwf idx n0 p np Hn Hp Hnp) as [Hd0 _].
  assert (Hpi : idx ≠ p) by (intros ->; simplify_eq; lia).
  apply bind_ok in Hfirst as (x1 & (s1 & Hs1 & ->)%set_slot_inv & (x2 & (s2 & Hs2 & ->)%set_slot_inv & (x3 & (s3 & Hs3 & ->)%rebuild_inv & (b & ->%node_mut_inv & [= <-])%bind_ok)%bind_ok)%bind_ok).
  cbn in Hs2, Hs3. rewrite lookup_insert_ne, Hsp in Hs2 by done. injection Hs2 as <-. rewrite lookup_insert_eq in Hs3. injection Hs3 as <-. assert (s1 = s0) as -> by congruence.
  lazymatch type of Hfold with fold_outcome _ (?x, _) _ = _ => set (t1 := x) in * end.
  destruct (promote_moving t Hm idx n0 p q Hn Hl Hp Hq sp s0 k k0 np nq t1 Hsp Hk Hs0 Hnp Hnq eq_refl ltac:(done)) as [δ Hv1].
  { intros j. cbn. rewrite !lookup_alter_nodes. destruct (nodes (arena t) !! j) as [[]|]; cbn; repeat case_decide; done. }
  destruct (reposition_all t Hm idx n0 p q Hn Hl Hp Hq _ _ _ _ _ _ _ Hv1 Hfold) as [δ2 Hv2].
  destruct (clear_tail_run t Hm idx n0 p q Hn Hl Hp Hq Hrec δ2 t2 Hv2 t3 Hreb) as (sq & a6' & Hclear' & Hsq & Hs3 & He). assert (a6' = a6) as -> by congruence.
  destruct (recalculated t Hm idx n0 p q Hn Hl Hp Hq Hrec δ2 t2 Hv2 sq a6 Hsq He (with_slots (with_arena t3 a6) (delete idx (slots t3))) t5 eq_refl Hdepth) as (b & -> & Hc & Hall).
  destruct (mv_frame _ _ _ _ _ _ _ _ Hv2) as (_ & W1 & W2 & W3). apply rebuild_inv in Hreb as (s3 & _ & ->). split_and!.
  - eapply (result_wf t Hm idx n0 p q Hn Hl Hp Hq Hrec δ2 t2 Hv2 sq a6 Hsq He b Hc Hall); done.
  - done.
  - cbn. destruct (ct_frame _ _ _ Hc) as (-> & _). rewrite (em_index _ _ _ _ _ _ _ He). by rewrite Hu.
Qed.

Lemma earliest_child {E} a l held r : fold_outcome (earlier (E := E) a) held l = Ok r → ∀ q k, r = Some (q, k) → q ∈ l ∨ held = Some (q, k).
Proof.
  revert held. induction l as [|c l IH]; intros held; cbn [fold_outcome]; [intros [= <-] q k ->; by right|].
  intros (held' & (n & _ & [= <-])%bind_ok & Hrun)%bind_ok q k Hr. destruct (IH _ Hrun q k Hr) as [Hin|Hh]; [left; by right|].
  destruct held as [[x kx]|]; [destruct (enrolled_at n <? kx)%Z|]; simplify_eq; [left; left|by right|left; left].
Qed.

Lemma remove_promote_wf t u t' r : matrix_wf t → remove_node t u PromoteEarliest = Ok (t', r) →
  matrix_wf t' ∧ holding_tank t' = holding_tank t ∧ index (arena t') = delete u (index (arena t)).
Proof.
  intros Hm. pose proof (mw_arena t Hm) as Hwf. unfold remove_node. intros [Hcheck Hrun]%bind_unit_ok. apply bind_ok in Hrun as (idx & Hi%ok_or_ok & Hrun).
  destruct (resolve_live _ Hwf u idx Hi) as (n0 & Hn & Hu & Hnil). assert (Hl : user_id n0 ≠ nil_uuid) by congruence.
  destruct (removable_recruits t u idx n0 Hm Hcheck Hi Hn) as [Hroot Hrec].
  unfold remove_promote_earliest in Hrun. rewrite (node_ok _ idx n0 Hn Hl) in Hrun. cbn [mbind outcome_bind] in Hrun.
  apply bind_ok in Hrun as (p & Hp%expect_ok & (k & Hk & (s0 & Hs0%expect_ok & Hrun)%bind_ok)%bind_ok). cbv zeta in Hrun.
  destruct (wf_parent_live _ Hwf idx n0 p Hn Hp) as (np & Hnp & Hin & Hpl). destruct (live_slots t Hm p np Hnp Hpl) as [sp Hsp]. rewrite (slot_children t Hm p np sp Hnp Hsp) in Hin.
  destruct (find_slot_ok (E := TreeError) t p sp idx Hsp Hin) as (k' & Hk' & Hkx). assert (k' = k) as -> by congruence.
  case_bool_decide as Hempty.
  - apply bind_ok in Hrun as ([t1 mv] & Hdet & [= <- _]). destruct (detach_leaf_wf t idx n0 u p k sp Hm Hn Hu Hl) as (t2 & Hdet' & ? & [? ?] & _); [by rewrite (slot_children t Hm idx n0 s0 Hn Hs0)|done..|].
    assert (t2 = t1) as -> by congruence. done.
  - apply bind_ok in Hrun as (earliest & Hfold & ([q kq] & Hq%expect_ok & (nq & Hnq%node_inv & Hrun)%bind_ok)%bind_ok). cbv zeta in Hrun.
    destruct (earliest_child _ _ _ _ Hfold q kq Hq) as [Hqs|]; [|done].
    apply bind_ok in Hrun as (ds & _ & (before & _ & (k0 & _ & (x1 & Hx1 & (x2 & Hx2 & (x3 & Hx3 & (b & Hb & ([t2 ids] & Hpos & (t3 & Hreb & Hrun)%bind_ok)%bind_ok)%bind_ok)%bind_ok)%bind_ok)%bind_ok)%bind_ok)%bind_ok).
    apply bind_ok in Hrun as (n & Hnode & (a3 & Ha3 & ([a4 mv] & Hre & (a6 & Ht6 & (t5 & Hdep & (rel & _ & [= <- _])%bind_ok)%bind_ok)%bind_ok)%bind_ok)%bind_ok).
    eapply (promote_child_wf t idx n0 u p k sp s0 q nq); [done|done|done|done|done|done|done|done|done|exact Hqs|done| |exact Hpos|exact Hreb| |exact Hdep].
    + rewrite Hx1. cbn [mbind outcome_bind]. rewrite Hx2. cbn [mbind outcome_bind]. rewrite Hx3. cbn [mbind outcome_bind]. rewrite Hb. done.
    + unfold clear_tail. rewrite Hnode. cbn [mbind outcome_bind]. rewrite Ha3. cbn [mbind outcome_bind]. rewrite Hre. cbn [mbind outcome_bind]. rewrite Hu, Ht6. done.
Qed.
