(* ===== verification/MatrixPromoteRun.v ===== *)
(** * The promoting removal always finishes: [tree/matrix.rs]

    A removal that failed after its first write would leave the tree broken. Past its
    check it does not fail: every sibling finds a free slot under the promoted child,
    the breadth-first loops end, and in an arena whose nodes the depth counter can
    count twice over no depth overflows. *)

From stdpp Require Import base numbers list gmap sorting strings.
From Stdlib Require Import ZArith Lia.
From S2P Require Import Prelude TreeTypes Arena ArenaCheck ArenaWf ArenaOps ArenaWalk ArenaRestore ArenaPrune SlotMap Binary Matrix MatrixSpec MatrixRemove MatrixPromote.
Import Matrix.

(** ** Breadth first over a forest

    [ch] lists the children, [δ] ranks them; [P] holds of what is reached. *)
Section forest.
Context (ch : NodeIndex → list NodeIndex) (δ : NodeIndex → Z) (P : NodeIndex → Prop) (start : NodeIndex).
Context (Hstart : P start) (Hclosed : ∀ i c, P i → c ∈ ch i → P c) (Hrank : ∀ i c, P i → c ∈ ch i → δ c = (δ i + 1)%Z).
Context (Hone : ∀ i j c, P i → P j → c ∈ ch i → c ∈ ch j → i = j) (Hnodup : ∀ i, P i → NoDup (ch i)).

Record sweep (V Q : list NodeIndex) : Prop := {
  sw_nodup : NoDup (V ++ Q);
  sw_reach x : x ∈ V ++ Q → P x;
  sw_from x : x ∈ V ++ Q → x = start ∨ ∃ v, v ∈ V ∧ x ∈ ch v;
  sw_closed v c : v ∈ V → c ∈ ch v → c ∈ V ++ Q;
  sw_start : start ∈ V ++ Q;
  sw_low x : x ∈ V ++ Q → (δ start ≤ δ x)%Z;
  sw_high x : x ∈ V ++ Q → (δ x ≤ δ start + Z.of_nat (length V))%Z;
}.

Lemma sweep_start : sweep [] [start].
Proof using Hstart.
  split; cbn; try done; try (intros x ->%list_elem_of_singleton; auto; cbn; lia).
  - apply NoDup_singleton.
  - by intros v c ?%elem_of_nil.
  - left.
Qed.

Lemma sweep_step V i Q : sweep V (i :: Q) → sweep (V ++ [i]) (Q ++ ch i).
Proof using All.
  intros [S1 S2 S3 S4 S5 S6 S7]. assert (Hi : P i) by (apply S2, elem_of_app; right; left).
  assert (Hmem : ∀ x, x ∈ (V ++ [i]) ++ Q ++ ch i ↔ x ∈ V ++ i :: Q ∨ x ∈ ch i) by (intros x; set_solver).
  assert (HiV : i ∉ V) by (intros H; apply NoDup_app in S1 as (_ & Hd & _); apply (Hd i H); left).
  assert (Hlow : (δ start ≤ δ i)%Z) by (apply S6, elem_of_app; right; left). assert (Hhigh : (δ i ≤ δ start + Z.of_nat (length V))%Z) by (apply S7, elem_of_app; right; left).
  split.
  - replace ((V ++ [i]) ++ Q ++ ch i) with ((V ++ i :: Q) ++ ch i) by (by rewrite <- !app_assoc). apply NoDup_app. split_and!; [done| |by apply Hnodup].
    intros x Hx Hc. destruct (S3 x Hx) as [->|(v & Hv & Hxv)]; [pose proof (Hrank i start Hi Hc); lia|].
    assert (v = i) as -> by (eapply Hone; [apply S2, elem_of_app; by left|exact Hi|exact Hxv|exact Hc]). done.
  - intros x [Hx|Hx]%Hmem; [by apply S2|by eapply Hclosed].
  - intros x [Hx|Hx]%Hmem; [|right; exists i; split; [apply elem_of_app; right; left|done]].
    destruct (S3 x Hx) as [->|(v & Hv & Hxv)]; [by left|right; exists v; split; [apply elem_of_app; by left|done]].
  - intros v c [Hv | ->%list_elem_of_singleton]%elem_of_app Hc; apply Hmem; [left; by eapply S4|by right].
  - apply Hmem. by left.
  - intros x [Hx|Hx]%Hmem; [by apply S6|]. rewrite (Hrank i x Hi Hx). lia.
  - intros x Hx. rewrite length_app. cbn. apply Hmem in Hx as [Hx|Hx]; [specialize (S7 x Hx); lia|]. rewrite (Hrank i x Hi Hx). lia.
Qed.

(** A finished sweep has met a node without children. *)
Lemma sweep_leaf V : sweep V [] → ¬ ∀ v, v ∈ V → ch v ≠ [].
Proof using All.
  intros [S1 S2 S3 S4 S5 S6 S7] Hall. rewrite app_nil_r in *.
  assert (Hdeep : ∀ k : nat, ∃ v, v ∈ V ∧ (δ start + Z.of_nat k ≤ δ v)%Z).
  { induction k as [|k (v & Hv & Hk)]; [exists start; split; [done|lia]|]. destruct (ch v) as [|c l] eqn:E; [by destruct (Hall v Hv)|].
    exists c. split; [apply (S4 v); [done|rewrite E; left]|]. rewrite (Hrank v c); [lia|by apply S2|rewrite E; left]. }
  destruct (Hdeep (S (length V))) as (v & Hv & Hk). specialize (S7 v Hv). lia.
Qed.
End forest.

(** ** Every sibling finds a slot *)
Section search.
Context (t : MatrixTree) (Hm : matrix_wf t) (idx : NodeIndex) (n0 : Node) (p q : NodeIndex).
Context (Hn : nodes (arena t) !! idx = Some n0) (Hl : user_id n0 ≠ nil_uuid) (Hp : parent n0 = Some p) (Hq : q ∈ children n0).
Abbreviation a := (arena t).
Let Hwf := mw_arena t Hm.
Abbreviation moving := (moving t idx n0 p q).
Abbreviation open_to := (open_to t idx).

Section one.
Context (R : list NodeIndex) (δ : NodeIndex → Z) (t1 : MatrixTree) (Hv : moving R δ t1).
Definition kids (i : NodeIndex) : list NodeIndex := flatten (default [] (slots t1 !! i)).

Lemma open_slots i : open_to R i → i ≠ idx ∧ (∃ s, slots t1 !! i = Some s) ∧ ∃ n1, nodes (arena t1) !! i = Some n1 ∧ user_id n1 ≠ nil_uuid.
Proof using All.
  intros [Hb _]. destruct (below_live a Hwf idx i Hb) as (n & Hi & Hil). split_and!.
  - intros ->. pose proof (below_depth a Hwf idx n0 idx n0 Hn Hb Hn). lia.
  - apply (mv_slots _ _ _ _ _ _ _ _ Hv i). destruct (live_slots t Hm i n Hi Hil) as [s Hs]. eauto.
  - destruct (mv_forward t idx n0 p q R δ t1 Hv i n Hi) as (n1 & Hi1 & Hu & _). exists n1. split; congruence.
Qed.

Lemma kids_edge i c : open_to R i → c ∈ kids i → open_to R c ∧ δ c = (δ i + 1)%Z ∧ ∃ nc, nodes (arena t1) !! c = Some nc ∧ parent nc = Some i.
Proof using All.
  intros Ho Hc. destruct (open_slots i Ho) as (Hi & [s Hs] & _). unfold kids in Hc. rewrite Hs in Hc. cbn in Hc.
  pose proof (open_edge t Hm idx n0 p q Hn Hl Hp Hq R δ t1 i s c Hv Ho Hs Hc) as Hoc. destruct (mv_down _ _ _ _ _ _ _ _ Hv i s c Hi Hs Hc) as (Hci & nc & Hnc & Hpc).
  split_and!; [done| |eauto]. assert (Hcr : c ∉ R) by (intros Hin; apply (proj2 Hoc c Hin); by left).
  apply (mv_up _ _ _ _ _ _ _ _ Hv c nc i Hnc Hci Hcr Hpc).
Qed.

Lemma kids_nodup i : open_to R i → NoDup (kids i).
Proof using All. intros Ho. destruct (open_slots i Ho) as (Hi & [s Hs] & _). unfold kids. rewrite Hs. by eapply (mv_nodup _ _ _ _ _ _ _ _ Hv). Qed.

Lemma kids_one i j c : open_to R i → open_to R j → c ∈ kids i → c ∈ kids j → i = j.
Proof using All.
  intros Hi Hj Hci Hcj. destruct (kids_edge i c Hi Hci) as (_ & _ & nc & ? & ?), (kids_edge j c Hj Hcj) as (_ & _ & nc' & ? & ?). congruence.
Qed.

Lemma spillover_total {E} fuel V Q : sweep kids δ (open_to R) q V Q → (∀ v, v ∈ V → kids v ≠ []) → length (nodes (arena t1)) < fuel + length V →
  ∃ i k, @spillover_loop E fuel t1 Q = Ok (Some (i, k)).
Proof using All.
  revert V Q. induction fuel as [|fuel IH]; intros V Q Hs Hfull Hfuel.
  { exfalso. assert (length (V ++ Q) ≤ length (nodes (arena t1))) as Hlen; [|rewrite length_app in Hlen; lia].
    apply nodup_in_arena; [by eapply sw_nodup|]. intros x Hx. destruct (open_slots x) as (_ & _ & n & ? & _); [by eapply sw_reach|eauto]. }
  destruct Q as [|i Q].
  { exfalso. eapply (sweep_leaf kids δ (open_to R) q); [..|exact Hs|exact Hfull]; [by eapply open_q|intros; by eapply kids_edge..|intros; by eapply kids_one|intros; by apply kids_nodup]. }
  assert (Ho : open_to R i) by (eapply sw_reach; [exact Hs|]; apply elem_of_app; right; left).
  destruct (open_slots i Ho) as (_ & [s Hsi] & _). cbn [spillover_loop]. rewrite Hsi. cbn [expect mbind outcome_bind].
  destruct (first_free s) as [k|] eqn:Hf; [eauto|]. assert (Hk : omap id s = kids i) by (unfold kids; by rewrite Hsi). rewrite Hk. apply (IH (V ++ [i])).
  - apply sweep_step; [by eapply open_q|intros; by eapply kids_edge..|intros; by eapply kids_one|intros; by apply kids_nodup|done].
  - intros v [Hvv | ->%list_elem_of_singleton]%elem_of_app; [by apply Hfull|]. rewrite <- Hk. pose proof (full_flatten s Hf) as Hlen. rewrite (mv_length _ _ _ _ _ _ _ _ Hv i s Hsi) in Hlen.
    pose proof (mw_width t Hm). intros E'. rewrite E' in Hlen. cbn in Hlen. lia.
  - rewrite length_app. cbn. lia.
Qed.
End one.

Lemma reposition_total R δ t1 u ids c : moving (c :: R) δ t1 → ∃ r, reposition q u (t1, ids) c = Ok r.
Proof using All.
  intros Hv. pose proof (open_q t Hm idx n0 p q Hn Hl Hp Hq _ _ _ Hv) as Ho. destruct (open_slots _ _ _ Hv q Ho) as (Hqi & [s Hs] & nq1 & Hnq1 & Hql).
  assert (Hc : ∃ nc, nodes (arena t1) !! c = Some nc ∧ user_id nc ≠ nil_uuid).
  { destruct (proj2 (mv_waiting _ _ _ _ _ _ _ _ Hv) c ltac:(left)) as [Hc _]. destruct (wf_child_live a Hwf idx n0 c Hn Hc) as (nc & Hnc & _ & Hcl).
    destruct (mv_forward t idx n0 p q _ δ t1 Hv c nc Hnc) as (nc1 & Hnc1 & Hu & _). exists nc1. split; congruence. }
  destruct Hc as (nc & Hnc & Hcl). unfold reposition. rewrite Hs. cbn [expect mbind outcome_bind]. destruct (first_free s) as [pos|] eqn:Hf.
  - apply first_free_Some in Hf as [Hf _]. unfold set_slot. rewrite Hs. cbn [expect mbind outcome_bind]. rewrite Hf. cbn [expect mbind outcome_bind arena with_slots].
    rewrite (node_mut_ok (arena t1) c _ nc Hnc Hcl). cbn [mbind outcome_bind arena with_arena].
    rewrite (node_ok _ c (with_parent (Some q) nc)) by (cbn; rewrite ?lookup_alter_nodes, ?decide_True, ?Hnc by done; done). eauto.
  - destruct (spillover_total _ _ _ Hv (E := TreeError) (loop_fuel (arena t1)) [] [q]) as (tp & pos & Hfind); [apply sweep_start; exact Ho|by intros v ?%elem_of_nil|unfold loop_fuel; cbn; lia|].
    fold (find_spillover_slot (E := TreeError) t1 q) in Hfind. rewrite Hfind. cbn [mbind outcome_bind ok_or].
    destruct (spillover_open t Hm idx n0 p q Hn Hl Hp Hq _ _ _ _ [q] _ _ Hv ltac:(by intros j ->%list_elem_of_singleton) Hfind) as (Hot & s1 & Hs1 & [Hf1 _]%first_free_Some).
    destruct (open_slots _ _ _ Hv tp Hot) as (_ & _ & ntp & Hntp & Htl). unfold set_slot. rewrite Hs1. cbn [expect mbind outcome_bind]. rewrite Hf1. cbn [expect mbind outcome_bind].
    unfold rebuild_children. cbn [slots with_slots arena]. rewrite lookup_insert_eq. cbn [expect mbind outcome_bind]. rewrite (node_mut_ok (arena t1) tp _ ntp Hntp Htl). cbn [mbind outcome_bind arena with_arena].
    assert (Hc2 : ∃ nc2, nodes (with_nodes (alter (with_children (λ _, omap id (<[pos := Some c]> s1))) tp) (arena t1)) !! c = Some nc2 ∧ user_id nc2 ≠ nil_uuid).
    { cbn. rewrite lookup_alter_nodes, Hnc. case_decide; eauto. }
    destruct Hc2 as (nc2 & Hnc2 & Hcl2). rewrite (node_mut_ok _ c _ nc2 Hnc2 Hcl2). cbn [mbind outcome_bind arena with_arena].
    rewrite (node_ok _ c (with_parent (Some tp) nc2)); [eauto| |done]. cbn [nodes with_nodes]. rewrite lookup_alter_nodes, decide_True by done. cbn [nodes with_nodes] in Hnc2. by rewrite Hnc2.
Qed.

Lemma reposition_all_total u R δ t1 ids : moving R δ t1 → ∃ t2 ids2, fold_outcome (reposition q u) (t1, ids) R = Ok (t2, ids2).
Proof using All.
  revert δ t1 ids. induction R as [|c R IH]; intros δ t1 ids Hv; cbn [fold_outcome]; [eauto|]. destruct (reposition_total R δ t1 u ids c Hv) as [[t3 ids3] Hc]. rewrite Hc. cbn [mbind outcome_bind].
  destruct (reposition_relinked t Hm idx n0 p q Hn Hl Hp Hq R δ t1 u ids c t3 ids3 Hv Hc) as (tp & pos & s & Ho & Hs & Hpos & Hr).
  destruct (relink_moving t Hm idx n0 p q Hn Hl Hp Hq R δ t1 t3 c tp pos s Hv Ho Hs Hpos Hr) as [δ' Hv']. by eapply IH.
Qed.

(** Repositioning writes slots under the removed node only, and reports whom it moved. *)
Lemma reposition_writes u R δ t1 ids t2 ids2 : moving R δ t1 → fold_outcome (reposition q u) (t1, ids) R = Ok (t2, ids2) →
  (∀ j, ¬ below (arena t) idx j → slots t2 !! j = slots t1 !! j) ∧ ids2 = ids ++ (uid_at (arena t) <$> R).
Proof using All.
  revert δ t1 ids. induction R as [|c R IH]; intros δ t1 ids Hv; cbn [fold_outcome]; [intros [= <- <-]; by rewrite app_nil_r|].
  intros ([t3 ids3] & Hc & Hrun)%bind_ok. destruct (reposition_relinked t Hm idx n0 p q Hn Hl Hp Hq _ _ _ _ _ _ _ _ Hv Hc) as (tp & pos & s & Ho & Hs & Hpos & Hr).
  destruct (relink_moving t Hm idx n0 p q Hn Hl Hp Hq R δ t1 t3 c tp pos s Hv Ho Hs Hpos Hr) as [δ' Hv']. destruct (IH δ' t3 ids3 Hv' Hrun) as [Hout ->]. split.
  - intros j Hj. rewrite Hout, (rl_slots _ _ _ _ _ _ Hr), lookup_insert_ne by (try done; intros ->; by apply Hj, Ho). done.
  - unfold reposition in Hc. apply bind_ok in Hc as (s' & _ & (t4 & _ & (nc & Hnc%node_inv & [= -> <-])%bind_ok)%bind_ok).
    destruct (mv_back t idx n0 p q R δ' t3 Hv' c nc Hnc) as (m & Hcm & -> & _). rewrite fmap_cons, <- app_assoc. unfold uid_at at 2. by rewrite Hcm.
Qed.
End search.

(** ** The depths are counted *)
Section count.
Context (t : MatrixTree) (Hm : matrix_wf t) (idx : NodeIndex) (n0 : Node) (p q : NodeIndex).
Context (Hn : nodes (arena t) !! idx = Some n0) (Hl : user_id n0 ≠ nil_uuid) (Hp : parent n0 = Some p) (Hq : q ∈ children n0).
Context (Hrec : sponsor n0 = None → sponsored n0 = []).
Context (δ : NodeIndex → Z) (t2 : MatrixTree) (Hv : moving t idx n0 p q [] δ t2).
Context (sq : list (option NodeIndex)) (a6 : Arena) (Hsq : slots t2 !! q = Some sq) (He : emptied t idx n0 q t2 sq a6).
Context (Hsize : (depth n0 + N.of_nat (length (nodes a6)) ≤ u32_max)%N).
Abbreviation a := (arena t).
Let Hwf := mw_arena t Hm.
Abbreviation counting := (counting δ a6).
Abbreviation counted := (counted δ).

Definition under (i : NodeIndex) : list NodeIndex := from_option children [] (nodes a6 !! i).

Lemma under_edge i c : live_at a6 i → c ∈ under i → live_at a6 c ∧ δ c = (δ i + 1)%Z ∧ ∃ nc, nodes a6 !! c = Some nc ∧ parent nc = Some i.
Proof using All.
  intros (n & Hi & Hil) Hc. unfold under in Hc. rewrite Hi in Hc. cbn in Hc.
  destruct (final_edge t Hm idx n0 p q Hn Hl Hp Hq Hrec δ t2 Hv sq a6 Hsq He i n c Hi Hc) as (nc & Hnc & Hpc & Hδ). split_and!; [|done|eauto]. exists nc. split; [done|]. intros Hnil.
  destruct (no_children t Hm idx n0 p q Hn Hl Hp Hq Hrec δ t2 Hv sq a6 Hsq He c nc Hnc Hnil). congruence.
Qed.

Lemma under_nodup i : live_at a6 i → NoDup (under i).
Proof using All.
  intros (n & Hi & Hil). unfold under. rewrite Hi. cbn. destruct (cleared_slot t Hm idx n0 p q Hn Hl Hp Hq Hrec δ t2 Hv sq a6 Hsq He i n Hi Hil) as (Hne & s & Hs & ->).
  by eapply (mv_nodup _ _ _ _ _ _ _ _ Hv).
Qed.

Lemma under_one i j c : live_at a6 i → live_at a6 j → c ∈ under i → c ∈ under j → i = j.
Proof using All. intros Hi Hj Hci Hcj. destruct (under_edge i c Hi Hci) as (_ & _ & nc & ? & ?), (under_edge j c Hj Hcj) as (_ & _ & nc' & ? & ?). congruence. Qed.

Lemma counting_live b i : counting b → live_at a6 i → ∃ n n6, nodes b !! i = Some n ∧ nodes a6 !! i = Some n6 ∧ user_id n ≠ nil_uuid ∧ children n = children n6.
Proof using All.
  intros Hc (n6 & Hi & Hil). destruct (ct_forward δ a6 b Hc i n6 Hi) as (n & Hin & (Hu & _ & Hch & _)%ct_fields). exists n, n6. split_and!; congruence.
Qed.

Lemma depth_children_total {E} d0 cs b : counting b → (d0 + 1 ≤ u32_max)%N → (∀ c, c ∈ cs → live_at a6 c ∧ (Z.of_N d0 + 1)%Z = δ c) →
  ∃ b', fold_outcome (λ b c, d ← u32_add d0 1; @node_mut E b c (with_depth d)) b cs = Ok b'.
Proof using All.
  intros Hc Hmax. revert b Hc. induction cs as [|c cs IH]; intros b Hc Hcs; cbn [fold_outcome]; [eauto|]. destruct (Hcs c ltac:(left)) as [Hlc Hδ].
  destruct (counting_live b c Hc Hlc) as (nc & _ & Hnc & _ & Hcl & _). pose proof (node_mut_ok (E := E) b c (with_depth (d0 + 1)) nc Hnc Hcl) as Hmut.
  assert (Hf : (d ← u32_add d0 1; @node_mut E b c (with_depth d)) = Ok (with_nodes (alter (with_depth (d0 + 1)) c) b)).
  { unfold u32_add. destruct (N.leb_spec (d0 + 1) u32_max) as [_|]; [exact Hmut|lia]. }
  rewrite Hf. apply IH; [|intros x Hx; apply Hcs; by right].
  by eapply (set_depth t Hm idx n0 p q Hn Hl Hp Hq Hrec δ t2 Hv sq a6 Hsq He b c (d0 + 1)); [|lia|done|exact Hmut].
Qed.

Lemma depths_loop_total {E} fuel b V Q : counting b → sweep under δ (live_at a6) q V Q → (∀ x, x ∈ V ++ Q → counted b x) → δ q = Z.of_N (depth n0) →
  length (nodes a6) < fuel + length V → ∃ b', @depths_loop E fuel b Q = Ok b'.
Proof using All.
  intros Hc Hs Hcnt Hδq. revert b V Q Hc Hs Hcnt. induction fuel as [|fuel IH]; intros b V Q Hc Hs Hcnt Hfuel.
  { exfalso. assert (length (V ++ Q) ≤ length (nodes a6)) as Hlen; [|rewrite length_app in Hlen; lia].
    apply nodup_in_arena; [by eapply sw_nodup|]. intros x Hx. destruct (sw_reach _ _ _ _ _ _ Hs x Hx) as (n & ? & _). eauto. }
  destruct Q as [|i Q]; cbn [depths_loop]; [eauto|]. assert (Hin : i ∈ V ++ i :: Q) by (apply elem_of_app; right; left).
  pose proof (sw_reach _ _ _ _ _ _ Hs i Hin) as Hi. destruct (counting_live b i Hc Hi) as (n & n6 & Hib & Hi6 & Hil & Hch). rewrite (node_ok b i n Hib Hil). cbn [mbind outcome_bind].
  destruct (Hcnt i Hin) as (n' & Hn' & Hδi & _). assert (n' = n) as -> by congruence. pose proof (sw_high _ _ _ _ _ _ Hs i Hin) as Hhigh.
  assert (Hlen : length V < length (nodes a6)).
  { assert (length (V ++ i :: Q) ≤ length (nodes a6)) as Hlen; [|rewrite length_app in Hlen; cbn in Hlen; lia].
    apply nodup_in_arena; [by eapply sw_nodup|]. intros x Hx. destruct (sw_reach _ _ _ _ _ _ Hs x Hx) as (m & ? & _). eauto. }
  assert (Hu : children n = under i) by (unfold under; rewrite Hi6; exact Hch).
  assert (Hkids : ∀ c, c ∈ children n → live_at a6 c ∧ (Z.of_N (depth n) + 1)%Z = δ c).
  { intros c Hcn. rewrite Hu in Hcn. destruct (under_edge i c Hi Hcn) as (? & ? & _). split; [done|lia]. }
  destruct (depth_children_total (E := E) (depth n) (children n) b Hc) as [b1 Hb1]; [lia|exact Hkids|]. rewrite Hb1. cbn [mbind outcome_bind].
  destruct (depth_children t Hm idx n0 p q Hn Hl Hp Hq Hrec δ t2 Hv sq a6 Hsq He (E := E) (depth n) (children n) b b1 Hc ltac:(intros c Hcn; by apply Hkids) Hb1) as (Hc1 & Hnew & Hkeep).
  rewrite Hu. apply (IH b1 (V ++ [i])); [done| | |rewrite length_app; cbn; lia].
  - apply sweep_step; [|intros; by eapply under_edge..|intros; by eapply under_one|intros; by apply under_nodup|done]. eapply sw_reach; [exact Hs|]. by eapply sw_start.
  - intros x Hx. assert (x ∈ V ++ i :: Q ∨ x ∈ children n) as [Hx'|Hx'] by (rewrite Hu; set_solver); [by apply Hkeep, Hcnt|by apply Hnew].
Qed.

Lemma recalculate_total t4 : arena t4 = a6 → ∃ t5, recalculate_depths t4 q = Ok (E := TreeError) t5.
Proof using All.
  intros Ha4. unfold recalculate_depths. rewrite Ha4. destruct (mv_promoted _ _ _ _ _ _ _ _ Hv) as (Hδq & nq2 & Hnq2 & Hpq).
  pose proof (q_not_removed t Hm idx n0 p q Hn Hl Hp Hq Hrec δ t2 Hv) as Hqi. destruct (wf_child_live a Hwf idx n0 q Hn Hq) as (nqa & Hnqa & _ & Hqla).
  pose proof (em_forward t idx n0 q t2 sq a6 He q nq2 Hnq2 Hqi) as Hq6. destruct (mv_back t idx n0 p q [] δ t2 Hv q nq2 Hnq2) as (m & Hqm & Huq & _).
  assert (Hq6l : user_id (final_node idx n0 q sq q nq2) ≠ nil_uuid) by (rewrite (proj1 (proj2 (final_placement idx n0 q sq q nq2))); congruence).
  rewrite (node_ok a6 q _ Hq6 Hq6l). cbn [mbind outcome_bind]. rewrite (proj1 (final_placement idx n0 q sq q nq2)), Hpq.
  destruct (wf_parent_live a Hwf idx n0 p Hn Hp) as (npa & Hnpa & _ & Hpl). destruct (wf_depth a Hwf idx n0 p npa Hn Hp Hnpa) as [Hd0 Hd0m].
  assert (Hpi : p ≠ idx) by (intros E; rewrite E in Hnpa; simplify_eq; lia).
  destruct (mv_forward t idx n0 p q [] δ t2 Hv p npa Hnpa) as (np2 & Hnp2 & Hup & _ & _ & Hdp & _). pose proof (em_forward t idx n0 q t2 sq a6 He p np2 Hnp2 Hpi) as Hp6.
  rewrite (node_ok a6 p _ Hp6) by (rewrite (proj1 (proj2 (final_placement idx n0 q sq p np2))); congruence). cbn [mbind outcome_bind].
  rewrite (proj2 (proj2 (final_placement idx n0 q sq p np2))), Hdp. unfold u32_add. destruct (N.leb_spec (depth npa + 1) u32_max) as [_|]; [|lia]. cbn [mbind outcome_bind].
  pose proof (node_mut_ok (E := TreeError) a6 q (with_depth (depth npa + 1)) _ Hq6 Hq6l) as Hset. rewrite Hset. cbn [mbind outcome_bind].
  destruct (set_depth t Hm idx n0 p q Hn Hl Hp Hq Hrec δ t2 Hv sq a6 Hsq He (E := TreeError) a6 q (depth npa + 1) _ (counting_start t Hm idx n0 p q Hn Hl Hp Hq Hrec δ t2 Hv sq a6 Hsq He) ltac:(lia) ltac:(lia) Hset) as (Hc1 & Hq1 & _).
  destruct (depths_loop_total (E := TreeError) (loop_fuel (with_nodes (alter (with_depth (depth npa + 1)) q) a6)) _ [] [q] Hc1) as [b ->]; [| |done| |cbn; eauto].
  - apply sweep_start. by eexists.
  - by intros x ->%list_elem_of_singleton.
  - unfold loop_fuel. cbn. rewrite length_alter. lia.
Qed.
End count.

(** ** Where a member sits

    Its parent, its slot as the byte the code reports, and its depth. *)
Definition seated (t : MatrixTree) (j : NodeIndex) (at_ : Uuid * nat * N) : Prop :=
  ∃ n i s k, nodes (arena t) !! j = Some n ∧ parent n = Some i ∧ slots t !! i = Some s ∧ s !! k = Some (Some j) ∧
  at_ = (uid_at (arena t) i, k mod 256, depth n).

Lemma flatten_once (s : list (option NodeIndex)) k l x : NoDup (flatten s) → s !! k = Some (Some x) → s !! l = Some (Some x) → k = l.
Proof.
  revert k l. induction s as [|o s IH]; intros k l Hnd Hk Hl; [done|].
  assert (Htail : NoDup (flatten s)) by (unfold flatten in *; destruct o; cbn in Hnd; [by apply NoDup_cons in Hnd as [_ ?]|done]).
  assert (Hhead : o = Some x → x ∉ flatten s) by (intros ->; unfold flatten in Hnd; cbn in Hnd; by apply NoDup_cons in Hnd as [? _]).
  destruct k as [|k], l as [|l]; cbn in *; simplify_eq; [done| | |f_equal; by eapply IH].
  - destruct (Hhead eq_refl). by eapply elem_of_flatten, list_elem_of_lookup_2.
  - destruct (Hhead eq_refl). by eapply elem_of_flatten, list_elem_of_lookup_2.
Qed.

Lemma nodup_omap {A B C} (f : A → option B) (g : B → C) (h : A → C) l : NoDup l → (∀ x y, x ∈ l → f x = Some y → g y = h x) →
  (∀ x y, x ∈ l → y ∈ l → h x = h y → x = y) → NoDup (g <$> omap f l).
Proof.
  induction 1 as [|x l Hx Hl IH]; intros Hf Hinj; [constructor|]. assert (Hrest : NoDup (g <$> omap f l)) by (apply IH; intros; [apply Hf|apply Hinj]; by try right).
  cbn. destruct (f x) as [y|] eqn:Hy; [|done]. cbn. apply NoDup_cons. split; [|done]. intros (z & Hz & (w & Hw & Hfw)%list_elem_of_omap)%list_elem_of_fmap.
  rewrite (Hf x y) in Hz by (by try left). rewrite (Hf w z) in Hz by (by try right). destruct Hx. by rewrite (Hinj x w) by (by try left; try right).
Qed.

(** ** Reading a tree that satisfies the invariant *)
Section reading.
Context (t : MatrixTree) (Hm : matrix_wf t).
Abbreviation a := (arena t).
Let Hwf := mw_arena t Hm.

Definition hung (i : NodeIndex) : Prop := ∃ n j, nodes a !! i = Some n ∧ user_id n ≠ nil_uuid ∧ parent n = Some j.

Lemma placement_total {E} i : hung i → ∃ r, @placement_of E t i = Ok r.
Proof using All.
  intros (n & j & Hi & Hil & Hj). unfold placement_of. rewrite (node_ok a i n Hi Hil). cbn [mbind outcome_bind]. rewrite Hj. cbn [expect mbind outcome_bind].
  destruct (wf_parent_live a Hwf i n j Hi Hj) as (nj & Hnj & Hin & Hjl). destruct (live_slots t Hm j nj Hnj Hjl) as [s Hs]. rewrite (slot_children t Hm j nj s Hnj Hs) in Hin.
  destruct (find_slot_ok (E := E) t j s i Hs Hin) as (k & -> & _). cbn [mbind outcome_bind]. rewrite (node_ok a j nj Hnj Hjl). cbn. eauto.
Qed.

Lemma placement_seated {E} i at_ : hung i → @placement_of E t i = Ok at_ ↔ seated t i at_.
Proof using All.
  intros (n & j & Hi & Hil & Hj). destruct (wf_parent_live a Hwf i n j Hi Hj) as (nj & Hnj & Hin & Hjl). destruct (live_slots t Hm j nj Hnj Hjl) as [s Hs].
  pose proof (wf_children_nodup a Hwf j nj Hnj) as Hnd. rewrite (slot_children t Hm j nj s Hnj Hs) in Hin, Hnd. destruct (find_slot_ok (E := E) t j s i Hs Hin) as (k & Hf & Hk).
  unfold placement_of. rewrite (node_ok a i n Hi Hil). cbn [mbind outcome_bind]. rewrite Hj. cbn [expect mbind outcome_bind]. rewrite Hf. cbn [mbind outcome_bind]. rewrite (node_ok a j nj Hnj Hjl).
  cbn [mbind outcome_bind]. assert (Hu : uid_at a j = user_id nj) by (unfold uid_at; by rewrite Hnj). split.
  - intros [= <-]. exists n, j, s, k. by rewrite Hu.
  - intros (n' & j' & s' & k' & ? & ? & ? & Hk' & ->). simplify_eq. by rewrite Hu, (flatten_once s k k' i Hnd Hk Hk').
Qed.

Lemma placements_total {E} ds : (∀ i, i ∈ ds → hung i) → ∃ l, map_outcome (λ d, p ← @placement_of E t d; Ok (d, p)) ds = Ok l.
Proof using All.
  induction ds as [|d ds IH]; intros Hd; cbn [map_outcome]; [eauto|]. destruct (placement_total (E := E) d (Hd d ltac:(left))) as [r ->]. cbn [mbind outcome_bind].
  destruct IH as [l ->]; [intros i Hi; apply Hd; by right|]. cbn. eauto.
Qed.

(** The placements read before the move. *)
Lemma placements_seated {E} ds l : (∀ i, i ∈ ds → hung i) → NoDup ds → map_outcome (λ d, p ← @placement_of E t d; Ok (d, p)) ds = Ok l →
  ∀ i at_, i ∈ ds → (list_to_map l : gmap NodeIndex (Uuid * nat * N)) !! i = Some at_ ↔ seated t i at_.
Proof using All.
  intros Hh Hnd Hrun%map_outcome_ok i at_ Hi.
  assert (Hl : l.*1 = ds ∧ ∀ d x, (d, x) ∈ l → d ∈ ds ∧ @placement_of E t d = Ok x).
  { clear -Hrun. induction Hrun as [|d y ds l Hd _ [IH1 IH2]]; [split; [done|by intros d x ?%elem_of_nil]|]. apply bind_ok in Hd as (x & Hx & [= <-]). split; [cbn; by rewrite IH1|].
    intros d' x' [[= <- <-]|Hin]%elem_of_cons; [split; [left|done]|]. destruct (IH2 d' x' Hin). split; [by right|done]. }
  destruct Hl as [Hf Hin]. rewrite <- (placement_seated (E := E) i at_ (Hh i Hi)), <- elem_of_list_to_map by (by rewrite Hf). split; [intros H; by apply Hin in H as [_ ?]|]. intros Hp.
  rewrite <- Hf in Hi. apply list_elem_of_fmap in Hi as ([d x] & -> & Hd). destruct (Hin d x Hd) as [_ Hx]. cbn in *. by assert (x = at_) as -> by congruence.
Qed.

Definition slotted (i : NodeIndex) : list NodeIndex := flatten (default [] (slots t !! i)).

Lemma slotted_children i n c : nodes a !! i = Some n → c ∈ children n ↔ c ∈ slotted i.
Proof using All.
  intros Hi. unfold slotted. destruct (slots t !! i) as [s|] eqn:Hs; cbn.
  - by rewrite (slot_children t Hm i n s Hi Hs).
  - split; [|by intros ?%elem_of_nil]. intros Hc. exfalso. destruct (decide (user_id n = nil_uuid)) as [Hnil|Hil].
    + destruct (wf_tomb a Hwf i n Hi Hnil) as (_ & _ & E & _). rewrite E in Hc. by apply elem_of_nil in Hc.
    + destruct (live_slots t Hm i n Hi Hil). congruence.
Qed.

Lemma slotted_edge i c : hung i → c ∈ slotted i → hung c ∧ Z.of_N (depth_at a c) = (Z.of_N (depth_at a i) + 1)%Z ∧ ∃ nc, nodes a !! c = Some nc ∧ parent nc = Some i.
Proof using All.
  intros (n & j & Hi & Hil & Hj) Hc. destruct (live_slots t Hm i n Hi Hil) as [s Hs]. unfold slotted in Hc. rewrite Hs in Hc. change (c ∈ flatten s) in Hc. rewrite <- (slot_children t Hm i n s Hi Hs) in Hc.
  destruct (wf_child_live a Hwf i n c Hi Hc) as (nc & Hnc & Hpc & Hcl). destruct (wf_depth a Hwf c nc i n Hnc Hpc Hi) as [Hd _].
  split_and!; [exists nc, i; done| |eauto]. rewrite (depth_at_node a c nc Hnc), (depth_at_node a i n Hi). lia.
Qed.

Lemma slotted_nodup i : hung i → NoDup (slotted i).
Proof using All.
  intros (n & j & Hi & Hil & _). destruct (live_slots t Hm i n Hi Hil) as [s Hs]. unfold slotted. rewrite Hs. change (NoDup (flatten s)). rewrite <- (slot_children t Hm i n s Hi Hs). by eapply wf_children_nodup.
Qed.

(** What the report says of one member. *)
Definition relocation_of (before : gmap NodeIndex (Uuid * nat * N)) (i : NodeIndex) : option Relocation :=
  match @placement_of TreeError t i with
  | Ok now => if bool_decide (before !! i ≠ Some now) then Some (mkRelocation (uid_at a i) now.1.1 now.1.2 now.2) else None
  | _ => None
  end.

(** The report goes over what the search from [start] meets; [P] is kept on the way. *)
Lemma relocations_total (P : NodeIndex → Prop) before fuel V Q start : (∀ i, P i → hung i) → (∀ i c, P i → c ∈ slotted i → P c) →
  sweep slotted (λ i, Z.of_N (depth_at a i)) P start V Q → length (nodes a) < fuel + length V →
  ∃ W, relocations_loop (E := TreeError) fuel t before Q (omap (relocation_of before) V) = Ok (omap (relocation_of before) W) ∧ sweep slotted (λ i, Z.of_N (depth_at a i)) P start W [].
Proof using All.
  intros HP Hclosed. revert V Q. induction fuel as [|fuel IH]; intros V Q Hs Hfuel.
  { exfalso. assert (length (V ++ Q) ≤ length (nodes a)) as Hlen; [|rewrite length_app in Hlen; lia].
    apply nodup_in_arena; [by eapply sw_nodup|]. intros x Hx. destruct (HP x) as (n & _ & ? & _); [by eapply sw_reach|eauto]. }
  destruct Q as [|i Q]; cbn [relocations_loop]; [eauto|]. pose proof (HP i (sw_reach _ _ _ _ _ _ Hs i ltac:(apply elem_of_app; right; left))) as Hi.
  destruct (placement_total (E := TreeError) i Hi) as [now Hnow]. rewrite Hnow. cbn [mbind outcome_bind]. destruct Hi as (n & j & Hin & Hil & Hj). rewrite (node_ok a i n Hin Hil). cbn [mbind outcome_bind].
  destruct (live_slots t Hm i n Hin Hil) as [s Hsi]. rewrite Hsi. cbn [expect mbind outcome_bind]. assert (Hk : omap id s = slotted i) by (unfold slotted; by rewrite Hsi). rewrite Hk.
  replace (if bool_decide (before !! i ≠ Some now) then omap (relocation_of before) V ++ [mkRelocation (user_id n) now.1.1 now.1.2 now.2] else omap (relocation_of before) V)
    with (omap (relocation_of before) (V ++ [i])).
  2: { rewrite omap_app. cbn. unfold relocation_of at 2. rewrite Hnow. unfold uid_at. rewrite Hin. case_bool_decide; [done|by rewrite app_nil_r]. }
  apply IH; [|rewrite length_app; cbn; lia]. apply sweep_step; [| | | | |done].
  - eapply sw_reach; [exact Hs|]. by eapply sw_start.
  - done.
  - intros x c Hx Hc. eapply slotted_edge; [by apply HP|done].
  - intros x y c Hx Hy Hcx Hcy. destruct (slotted_edge x c (HP x Hx) Hcx) as (_ & _ & nc & ? & ?), (slotted_edge y c (HP y Hy) Hcy) as (_ & _ & nc' & ? & ?). congruence.
  - intros x Hx. by apply slotted_nodup, HP.
Qed.

Lemma earliest_total {E} l held : (∀ c, c ∈ l → live_at a c) → ∃ r, fold_outcome (earlier (E := E) a) held l = Ok r ∧ (l ≠ [] ∨ is_Some held → is_Some r).
Proof using All.
  revert held. induction l as [|c l IH]; intros held Hlive; cbn [fold_outcome]; [exists held; split; [done|naive_solver]|].
  destruct (Hlive c ltac:(left)) as (n & Hc & Hcl). assert (∃ h, earlier (E := E) a held c = Ok h ∧ is_Some h) as (h & -> & Hh).
  { unfold earlier. rewrite (node_ok a c n Hc Hcl). cbn [mbind outcome_bind]. eexists. split; [done|]. destruct held as [[x kx]|]; [destruct (enrolled_at n <? kx)%Z|]; eauto. }
  cbn [mbind outcome_bind]. destruct (IH h) as (r & -> & Hr); [intros x Hx; apply Hlive; by right|]. exists r. split; [done|]. intros _. apply Hr. by right.
Qed.

(** The child chosen enrolled no later than any other. *)
Lemma earliest_first {E} l held r : fold_outcome (earlier (E := E) a) held l = Ok r → (∀ x k, held = Some (x, k) → ∃ n, nodes a !! x = Some n ∧ k = enrolled_at n) →
  ∀ q k, r = Some (q, k) → (∃ n, nodes a !! q = Some n ∧ k = enrolled_at n) ∧ (∀ c n, c ∈ l → nodes a !! c = Some n → (k ≤ enrolled_at n)%Z) ∧ ∀ x kx, held = Some (x, kx) → (k ≤ kx)%Z.
Proof using Type.
  revert held. induction l as [|c l IH]; intros held; cbn [fold_outcome].
  { intros [= <-] Hh q k ->. split_and!; [by apply Hh|by intros ? ? ?%elem_of_nil|by intros x kx [= <- <-]]. }
  intros (held' & (n & Hc%node_inv & [= <-])%bind_ok & Hrun)%bind_ok Hh q k Hr. destruct (IH _ Hrun) with (q := q) (k := k) as (H1 & H2 & H3); [|done|].
  { intros x kx. destruct held as [[y ky]|]; [destruct (enrolled_at n <? ky)%Z|]; intros; simplify_eq; eauto. }
  split_and!; [done| |].
  - intros c' n' [->|Hin]%elem_of_cons Hn'; [|by eapply H2]. simplify_eq. destruct held as [[y ky]|]; [destruct (Z.ltb_spec (enrolled_at n) ky)|]; [by eapply H3| |by eapply H3].
    specialize (H3 y ky eq_refl). lia.
  - intros x kx ->. destruct (Z.ltb_spec (enrolled_at n) kx); [specialize (H3 _ _ eq_refl); lia|by eapply H3].
Qed.
End reading.

(** ** The whole request *)

(** The report lists, once each, the members below [idx] who sit elsewhere in [t'] than
    they did in [t], and where they sit now. *)
Definition relocations (t t' : MatrixTree) (idx : NodeIndex) (l : list Relocation) : Prop :=
  NoDup (rl_user_id <$> l) ∧ ∀ m, m ∈ l ↔ ∃ j was now, below (arena t) idx j ∧ seated t j was ∧ seated t' j now ∧ was ≠ now ∧
    m = mkRelocation (uid_at (arena t) j) now.1.1 now.1.2 now.2.

(** What the removal of [idx] with node [n0] from slot [k] of [p] leaves: nobody else
    goes, [h], the child enrolled first, has the slot and everybody else who was
    below the removed node is below it, no slot outside changed, the recruits of the
    removed node have its sponsor, and the result reports exactly this. *)
Record promotion (t : MatrixTree) (u : Uuid) (idx : NodeIndex) (n0 : Node) (p : NodeIndex) (sp : list (option NodeIndex)) (k : nat)
  (h : option NodeIndex) (t' : MatrixTree) (r : RemovalResult) : Prop := {
  pm_index : index (arena t') = delete u (index (arena t));
  pm_tank : holding_tank t' = holding_tank t;
  pm_heir : match h with
            | None => children n0 = []
            | Some q => q ∈ children n0 ∧ ∃ nq, nodes (arena t) !! q = Some nq ∧
                ∀ c n, c ∈ children n0 → nodes (arena t) !! c = Some n → (enrolled_at nq ≤ enrolled_at n)%Z
            end;
  pm_slot : slots t' !! p = Some (<[k := h]> sp);
  pm_outside j : j ≠ p → j ≠ idx → ¬ below (arena t) idx j → slots t' !! j = slots t !! j;
  pm_under q j : h = Some q → below (arena t) idx j → j = q ∨ below (arena t') q j;
  pm_sponsors : inherited (arena t) (arena t') idx n0;
  pm_removed : removed r = u ∧ moved_to_tank r = [];
  pm_promoted : promoted r = uid_at (arena t) <$> h;
  pm_repositioned : repositioned r = uid_at (arena t) <$> filter (λ c, Some c ≠ h) (children n0);
  pm_relocated : relocations t t' idx (relocated r);
  pm_responsored : Matrix.responsored r = moves (arena t) n0;
}.

Lemma leaf_none_below a idx n0 j : arena_wf a → nodes a !! idx = Some n0 → children n0 = [] → ¬ below a idx j.
Proof.
  intros Hwf Hn Hch Hb. destruct (below_live a Hwf idx j Hb) as (nj & Hj & _). remember (depth nj) as d eqn:Hd. revert j nj Hd Hb Hj.
  induction (N.lt_wf_0 d) as [d _ IH]. intros j nj -> Hb Hj. destruct (below_inv a Hwf idx j Hb) as (n & p & np & ? & ? & Hnp & Hin & Hd & [->|Hb']); simplify_eq.
  - rewrite Hch in Hin. by apply elem_of_nil in Hin.
  - by eapply (IH (depth np)); [lia| | |].
Qed.

(** The check answers or refuses. *)
Lemma check_remove_promote t u : matrix_wf t → ∀ o, check_remove_node t u PromoteEarliest = o → o ≠ Panic ∧ o ≠ Hang.
Proof.
  intros Hm o <-. pose proof (mw_arena t Hm) as Hwf. unfold check_remove_node, resolve. destruct (index (arena t) !! u) as [idx|] eqn:Hi; [|done].
  destruct (resolve_live _ Hwf u idx Hi) as (n & Hn & Hu & Hnil). cbn [ok_or mbind outcome_bind removal_set]. rewrite refuse_decide. case_decide; [done|].
  rewrite (check_removable_one (arena t) idx n Hwf Hn ltac:(congruence)). by case_decide.
Qed.

Section whole.
Context (t : MatrixTree) (Hm : matrix_wf t) (idx : NodeIndex) (n0 : Node) (p q : NodeIndex) (nq : Node).
Context (Hn : nodes (arena t) !! idx = Some n0) (Hl : user_id n0 ≠ nil_uuid) (Hp : parent n0 = Some p) (Hq : q ∈ children n0) (Hnq : nodes (arena t) !! q = Some nq).
Context (Hrec : sponsor n0 = None → sponsored n0 = []).
Context (sp s0 : list (option NodeIndex)) (k k0 : nat).
Context (Hsp : slots t !! p = Some sp) (Hk : sp !! k = Some (Some idx)) (Hs0 : slots t !! idx = Some s0) (Hk0 : s0 !! k0 = Some (Some q)).
Context (Hsize : (2 * N.of_nat (length (nodes (arena t))) ≤ u32_max)%N).
Let Hwf := mw_arena t Hm.

Lemma below_hung j : below (arena t) idx j → hung t j.
Proof using Hm.
  intros Hb. destruct (below_live _ Hwf idx j Hb) as (n & Hj & Hjl), (below_inv _ Hwf idx j Hb) as (n' & i & _ & Hn' & Hi & _). exists n, i. split_and!; congruence.
Qed.

Lemma below_placed j : below (arena t) idx j → ∃ at_, seated t j at_.
Proof using Hm.
  intros Hh%below_hung. destruct (placement_total t Hm (E := TreeError) j Hh) as [at_ Hat]. exists at_. by apply (placement_seated t Hm (E := TreeError)).
Qed.

(** The promoted child takes the slot of the removed node. *)
Definition take_slot : outcome TreeError MatrixTree :=
  t' ← set_slot t idx k0 None; t' ← set_slot t' p k (Some q); t' ← rebuild_children t' p; b ← node_mut (arena t') q (with_parent (Some p)); Ok (with_arena t' b).

Lemma take_slot_total : ∃ t1 δ, take_slot = Ok t1 ∧ moving t idx n0 p q (filter (λ c, c ≠ q) (flatten s0)) δ t1 ∧
  slots t1 = <[p := <[k := Some q]> sp]> (<[idx := <[k0 := None]> s0]> (slots t)).
Proof using All.
  destruct (wf_parent_live _ Hwf idx n0 p Hn Hp) as (np & Hnp & _ & Hpl). destruct (wf_depth _ Hwf idx n0 p np Hn Hp Hnp) as [Hd0 _].
  assert (Hpi : idx ≠ p) by (intros ->; simplify_eq; lia). destruct (wf_child_live _ Hwf idx n0 q Hn Hq) as (nq' & Hnq' & Hpq & Hql). assert (nq' = nq) as -> by congruence.
  assert (Hqp : q ≠ p) by (intros E; subst q; destruct (wf_depth _ Hwf p nq idx n0 Hnq Hpq Hn) as [Hd _]; simplify_eq; lia).
  unfold take_slot, set_slot. rewrite Hs0. cbn [expect mbind outcome_bind]. rewrite Hk0. cbn [expect mbind outcome_bind slots with_slots].
  rewrite lookup_insert_ne, Hsp by done. cbn [expect mbind outcome_bind]. rewrite Hk. cbn [expect mbind outcome_bind]. unfold rebuild_children. cbn [slots with_slots arena]. rewrite lookup_insert_eq.
  cbn [expect mbind outcome_bind]. rewrite (node_mut_ok (E := TreeError) _ p _ np Hnp Hpl). cbn [mbind outcome_bind arena with_arena].
  rewrite (node_mut_ok (E := TreeError) _ q _ nq) by (try done; cbn; by rewrite lookup_alter_nodes, decide_False). cbn [mbind outcome_bind].
  eexists. destruct (promote_moving t Hm idx n0 p q Hn Hl Hp Hq sp s0 k k0 np nq) with (t1 := with_arena (with_arena (with_slots (with_slots t (<[idx:=<[k0:=None]> s0]> (slots t))) (<[p:=<[k:=Some q]> sp]> (<[idx:=<[k0:=None]> s0]> (slots t))))
    (with_nodes (alter (with_children (λ _, omap id (<[k:=Some q]> sp))) p) (arena t)))
    (with_nodes (alter (with_parent (Some p)) q) (with_nodes (alter (with_children (λ _, omap id (<[k:=Some q]> sp))) p) (arena t)))) as [δ Hv]; [done..| |].
  { intros j. cbn. rewrite !lookup_alter_nodes. destruct (nodes (arena t) !! j) as [[]|]; cbn; repeat case_decide; done. }
  exists δ. split_and!; [done|exact Hv|done].
Qed.

Lemma depth_room a6 t2 δ sq : moving t idx n0 p q [] δ t2 → emptied t idx n0 q t2 sq a6 → (depth n0 + N.of_nat (length (nodes a6)) ≤ u32_max)%N.
Proof using All.
  intros Hv He. destruct (upline_exists (arena t) Hwf idx n0 Hn Hl) as (l & Hup & Hlen). apply up_path_length in Hup.
  enough (length (nodes a6) ≤ length (nodes (arena t))) by lia. destruct (decide (length (nodes (arena t)) < length (nodes a6))) as [Hlt|]; [exfalso|lia].
  pose proof (lookup_lt_Some _ _ _ Hn) as Hi. destruct (lookup_lt_is_Some_2 _ _ Hlt) as [n Hx]. rewrite (em_nodes _ _ _ _ _ _ _ He), decide_False in Hx by lia.
  apply fmap_Some in Hx as (n2 & Hx & _). destruct (mv_back t idx n0 p q [] δ t2 Hv _ _ Hx) as (m & Hxm & _). apply lookup_lt_Some in Hxm. lia.
Qed.

(** What everything after the first four writes leaves. *)
Record rearranged (t5 : MatrixTree) : Prop := {
  rg_wf : matrix_wf t5;
  rg_hung : hung t5 q;
  rg_outside j : j ≠ idx → ¬ below (arena t) idx j → slots t5 !! j = if decide (j = p) then Some (<[k := Some q]> sp) else slots t !! j;
  rg_closed i c : below (arena t) idx i → c ∈ slotted t5 i → below (arena t) idx c;
  rg_reached (W : list NodeIndex) : q ∈ W → (∀ i c, i ∈ W → c ∈ slotted t5 i → c ∈ W) → ∀ j, below (arena t) idx j → j ∈ W;
  rg_sponsors : inherited (arena t) (arena t5) idx n0;
}.

Lemma rearrange_total uq : ∃ t1 t2 ids t3 a6 t5, take_slot = Ok t1 ∧ fold_outcome (reposition q uq) (t1, []) (filter (λ c, c ≠ q) (flatten s0)) = Ok (t2, ids) ∧
  rebuild_children t2 q = Ok (E := TreeError) t3 ∧ clear_tail idx n0 t3 = Ok (a6, moves (arena t) n0) ∧
  recalculate_depths (with_slots (with_arena t3 a6) (delete idx (slots t3))) q = Ok (E := TreeError) t5 ∧ rearranged t5 ∧ ids = uid_at (arena t) <$> filter (λ c, c ≠ q) (flatten s0).
Proof using All.
  destruct take_slot_total as (t1 & δ & Hfirst & Hv1 & Hs1). destruct (reposition_all_total t Hm idx n0 p q Hn Hl Hp Hq uq _ δ t1 [] Hv1) as (t2 & ids & Hfold).
  destruct (reposition_all t Hm idx n0 p q Hn Hl Hp Hq _ _ _ _ _ _ _ Hv1 Hfold) as [δ2 Hv2]. destruct (reposition_writes t Hm idx n0 p q Hn Hl Hp Hq uq _ δ t1 [] t2 ids Hv1 Hfold) as [Hout Hids].
  destruct (mv_promoted _ _ _ _ _ _ _ _ Hv2) as (_ & nq2 & Hnq2 & Hpq). destruct (mv_back t idx n0 p q [] δ2 t2 Hv2 q nq2 Hnq2) as (m & Hqm & Huq & _). assert (m = nq) as -> by congruence.
  destruct (wf_child_live _ Hwf idx n0 q Hn Hq) as (nq' & Hnq' & _ & Hql). assert (nq' = nq) as -> by congruence.
  destruct (proj2 (mv_slots _ _ _ _ _ _ _ _ Hv2 q)) as [sq Hsq]; [by eapply live_slots|].
  assert (∃ t3, rebuild_children t2 q = Ok (E := TreeError) t3) as [t3 Hreb].
  { unfold rebuild_children. rewrite Hsq. cbn [expect mbind outcome_bind]. rewrite (node_mut_ok (E := TreeError) _ q _ nq2 Hnq2) by congruence. cbn. eauto. }
  destruct (clear_tail_run t Hm idx n0 p q Hn Hl Hp Hq Hrec δ2 t2 Hv2 t3 Hreb) as (sq' & a6 & Hclear & Hsq' & Hs3 & He). assert (sq' = sq) as -> by congruence.
  destruct (recalculate_total t Hm idx n0 p q Hn Hl Hp Hq Hrec δ2 t2 Hv2 sq a6 Hsq He (depth_room a6 t2 δ2 sq Hv2 He) (with_slots (with_arena t3 a6) (delete idx (slots t3))) eq_refl) as [t5 Hdepth].
  assert (Hm5 : matrix_wf t5).
  { destruct (promote_child_wf t idx n0 (user_id n0) p k sp s0 q nq uq k0 t1 t2 ids t3 a6 (moves (arena t) n0) t5) as [? _]; try done. rewrite <- (slot_children t Hm idx n0 s0 Hn Hs0). done. }
  destruct (recalculated t Hm idx n0 p q Hn Hl Hp Hq Hrec δ2 t2 Hv2 sq a6 Hsq He (with_slots (with_arena t3 a6) (delete idx (slots t3))) t5 eq_refl Hdepth) as (b & E5 & Hc & Hall).
  pose proof (em_forward t idx n0 q t2 sq a6 He q nq2 Hnq2 (q_not_removed t Hm idx n0 p q Hn Hl Hp Hq Hrec δ2 t2 Hv2)) as Hq6.
  destruct (ct_forward δ2 a6 b Hc q _ Hq6) as (nb & Hqb & Hb). destruct (ct_fields _ _ Hb) as (Hu & Hpar & _). destruct (final_placement idx n0 q sq q nq2) as (Hfp & Hfu & _).
  assert (Hnbl : user_id nb ≠ nil_uuid) by congruence. assert (Hab : arena t5 = b) by (by rewrite E5).
  exists t1, t2, ids, t3, a6, t5. split_and!; try done. split.
  - done.
  - exists nb, p. rewrite Hab. split_and!; [done..|congruence].
  - intros j Hj Hnb. rewrite E5. cbn. rewrite lookup_delete_ne, Hs3, Hout, Hs1 by done. case_decide as Hjp; [by rewrite Hjp, lookup_insert_eq|]. by rewrite !lookup_insert_ne.
  - intros i c Hb' Hc'. assert (Ho : open_to t idx [] i) by (split; [done|by intros d ?%elem_of_nil]).
    destruct (open_slots t Hm idx n0 p q Hn Hl Hp Hq [] δ2 t2 Hv2 i Ho) as (Hi & _). unfold slotted in Hc'. rewrite E5 in Hc'. cbn in Hc'. rewrite lookup_delete_ne, Hs3 in Hc' by done.
    by destruct (kids_edge t Hm idx n0 p q Hn Hl Hp Hq [] δ2 t2 Hv2 i c Ho Hc') as [[? _] _].
  - intros W HqW HW. apply (reached t Hm idx n0 p q Hn Hl Hp Hq Hrec δ2 t2 Hv2 sq a6 Hsq He W HqW). intros i n c Hi Hn6 Hc6. apply (HW i c Hi).
    destruct (ct_forward δ2 a6 b Hc i n Hn6) as (ni & Hni & (_ & _ & Hch & _)%ct_fields). apply (slotted_children t5 Hm5 i ni); [by rewrite Hab|by rewrite Hch].
  - rewrite Hab. by apply (result_inherited t Hm idx n0 p q Hn Hl Hp Hq Hrec δ2 t2 Hv2 sq a6 Hsq He b Hc Hall).
Qed.

Section read_back.
Context (t5 : MatrixTree) (Hr : rearranged t5).

Lemma rearranged_under j : below (arena t) idx j → j = q ∨ below (arena t5) q j.
Proof using All.
  pose proof (rg_wf t5 Hr) as Hm5. destruct (rg_hung t5 Hr) as (nb & i & Hqb & Hqbl & _). destruct (descendants_spec (E := TreeError) t5 q nb (mw_arena t5 Hm5) Hqb Hqbl) as (ds & _ & _ & Hds).
  rewrite <- Hds, <- elem_of_cons. apply (rg_reached t5 Hr); [left|]. intros v c Hv Hc. right. apply Hds.
  apply elem_of_cons in Hv as [->|Hv%Hds].
  - apply (below_child _ (mw_arena t5 Hm5) q nb c Hqb). by apply (slotted_children t5 Hm5 q nb c Hqb).
  - destruct (below_live _ (mw_arena t5 Hm5) q v Hv) as (nv & Hnv & _). apply (below_step _ (mw_arena t5 Hm5) q v nv c Hv Hnv). by apply (slotted_children t5 Hm5 v nv c Hnv).
Qed.

Lemma rearranged_hung j : below (arena t) idx j → hung t5 j.
Proof using All.
  intros [->|Hb]%rearranged_under; [by apply rg_hung|]. pose proof (mw_arena _ (rg_wf t5 Hr)) as Hwf5.
  destruct (below_inv _ Hwf5 q j Hb) as (n & i & _ & Hn' & Hi & _), (below_live _ Hwf5 q j Hb) as (n' & ? & ?). exists n, i. split_and!; congruence.
Qed.

Lemma rearranged_user j : below (arena t) idx j → uid_at (arena t5) j = uid_at (arena t) j.
Proof using All.
  intros Hb. destruct (below_live _ Hwf idx j Hb) as (n & Hj & _). assert (Hne : j ≠ idx) by (intros E; subst j; pose proof (below_depth _ Hwf idx n0 idx n0 Hn Hb Hn); lia).
  destruct (rg_sponsors t5 Hr j n Hne Hj) as (n' & Hj' & Hu & _). unfold uid_at. by rewrite Hj, Hj'.
Qed.

(** The report of the moves. *)
Lemma rearranged_report before : (∀ j at_, below (arena t) idx j → before !! j = Some at_ ↔ seated t j at_) →
  ∃ l, relocations_from (E := TreeError) t5 q before = Ok l ∧ relocations t t5 idx l.
Proof using All.
  intros Hbefore. pose proof (rg_wf t5 Hr) as Hm5.
  destruct (relocations_total t5 Hm5 (below (arena t) idx) before (loop_fuel (arena t5)) [] [q] q) as (W & Hrun & Hs).
  { exact rearranged_hung. }
  { exact (rg_closed t5 Hr). }
  { apply sweep_start. by eapply below_child. }
  { unfold loop_fuel. cbn. lia. }
  assert (HW : ∀ j, j ∈ W ↔ below (arena t) idx j).
  { pose proof (sw_reach _ _ _ _ _ _ Hs) as H1. pose proof (sw_closed _ _ _ _ _ _ Hs) as H2. pose proof (sw_start _ _ _ _ _ _ Hs) as H3. rewrite app_nil_r in *.
    intros j. split; [apply H1|]. by apply (rg_reached t5 Hr). }
  exists (omap (relocation_of t5 before) W). split; [exact Hrun|]. split.
  - apply (nodup_omap _ _ (uid_at (arena t))).
    + pose proof (sw_nodup _ _ _ _ _ _ Hs) as H. by rewrite app_nil_r in H.
    + intros j m Hj%HW Hm'. unfold relocation_of in Hm'. destruct (placement_of t5 j) as [now| | |]; try done. case_bool_decide; simplify_eq. by apply rearranged_user.
    + intros x y Hx%HW Hy%HW Heq. destruct (below_live _ Hwf idx x Hx) as (nx & Hnx & Hxl), (below_live _ Hwf idx y Hy) as (ny & Hny & Hyl). unfold uid_at in Heq. rewrite Hnx, Hny in Heq. cbn in Heq.
      pose proof (live_indexed _ Hwf x nx Hnx Hxl). pose proof (live_indexed _ Hwf y ny Hny Hyl). congruence.
  - intros m. rewrite list_elem_of_omap. split.
    + intros (j & Hj%HW & Hm'). unfold relocation_of in Hm'. destruct (placement_of t5 j) as [now| | |] eqn:Hnow; try done. case_bool_decide as Hne; [|done]. injection Hm' as <-.
      apply (placement_seated t5 Hm5) in Hnow; [|by apply rearranged_hung]. destruct (below_placed j Hj) as [was Hwas].
      exists j, was, now. rewrite (rearranged_user j Hj). split_and!; [done..| |done]. intros ->. by apply Hne, Hbefore.
    + intros (j & was & now & Hj & Hwas & Hnow & Hne & ->). exists j. split; [by apply HW|]. unfold relocation_of.
      apply (placement_seated t5 Hm5 (E := TreeError)) in Hnow; [|by apply rearranged_hung]. rewrite Hnow, bool_decide_eq_true_2; [by rewrite rearranged_user|].
      apply Hbefore in Hwas; [|done]. congruence.
Qed.
End read_back.
End whole.

Lemma remove_promote_spec t u : matrix_wf t → (2 * N.of_nat (length (nodes (arena t))) ≤ u32_max)%N → check_remove_node t u PromoteEarliest = Ok () →
  ∃ idx n0 p sp k h t' r, index (arena t) !! u = Some idx ∧ nodes (arena t) !! idx = Some n0 ∧ parent n0 = Some p ∧ slots t !! p = Some sp ∧ sp !! k = Some (Some idx) ∧
    remove_node t u PromoteEarliest = Ok (t', r) ∧ matrix_wf t' ∧ promotion t u idx n0 p sp k h t' r.
Proof.
  intros Hm Hsize Hcheck. pose proof (mw_arena t Hm) as Hwf. pose proof (remove_promote_wf t u) as Hgood. unfold remove_node in *. rewrite Hcheck in *. cbn [mbind outcome_bind] in *.
  pose proof Hcheck as Hc. unfold check_remove_node in Hc. apply bind_ok in Hc as (idx & Hres & _). rewrite Hres in *. cbn [mbind outcome_bind] in *. pose proof Hres as Hi%ok_or_ok.
  destruct (resolve_live _ Hwf u idx Hi) as (n0 & Hn & Hu & Hnil). assert (Hl : user_id n0 ≠ nil_uuid) by congruence. destruct (removable_recruits t u idx n0 Hm Hcheck Hi Hn) as [Hroot Hrec].
  assert (∃ p, parent n0 = Some p) as [p Hp].
  { destruct (parent n0) as [p|] eqn:Hp; [eauto|]. destruct Hroot. destruct (root (arena t)) as [r|] eqn:Hr; [f_equal; symmetry; by eapply wf_root_unique|by pose proof (wf_rootless _ Hwf idx n0 Hr Hn)]. }
  destruct (wf_parent_live _ Hwf idx n0 p Hn Hp) as (np & Hnp & Hin & Hpl). destruct (live_slots t Hm p np Hnp Hpl) as [sp Hsp]. rewrite (slot_children t Hm p np sp Hnp Hsp) in Hin.
  assert (Hpi : p ≠ idx) by (intros E; subst p; destruct (wf_depth _ Hwf idx n0 idx np Hn Hp Hnp) as [Hd _]; simplify_eq; lia).
  destruct (find_slot_ok (E := TreeError) t p sp idx Hsp Hin) as (k & Hfind & Hk). destruct (live_slots t Hm idx n0 Hn Hl) as [s0 Hs0]. pose proof (slot_children t Hm idx n0 s0 Hn Hs0) as Hch.
  enough (∃ h t' r, remove_promote_earliest t idx u = Ok (t', r) ∧ (matrix_wf t' → index (arena t') = delete u (index (arena t)) → holding_tank t' = holding_tank t → promotion t u idx n0 p sp k h t' r)) as (h & t' & r & Hrun & Hpm).
  { destruct (Hgood t' r Hm Hrun) as (? & ? & ?). exists idx, n0, p, sp, k, h, t', r. split_and!; auto. }
  unfold remove_promote_earliest. rewrite (node_ok _ idx n0 Hn Hl). cbn [mbind outcome_bind]. rewrite Hp. cbn [expect mbind outcome_bind]. rewrite Hfind. cbn [mbind outcome_bind]. rewrite Hs0. cbn [expect mbind outcome_bind].
  change (omap id s0) with (flatten s0). case_bool_decide as Hempty.
  - destruct (detach_leaf_wf t idx n0 u p k sp Hm Hn Hu Hl) as (t2 & -> & _ & _ & Hs2 & Hinh); [congruence|done..|]. cbn. eexists None, _, _. split; [done|]. intros _ Hix Htk. split; try done.
    + congruence.
    + by rewrite Hs2, lookup_delete_ne, lookup_insert_eq.
    + intros j Hj Hji _. by rewrite Hs2, lookup_delete_ne, lookup_insert_ne.
    + cbn. by rewrite Hch, Hempty.
    + split; [constructor|]. intros m. split; [by intros ?%elem_of_nil|]. intros (j & _ & _ & Hb & _). exfalso. eapply (leaf_none_below (arena t) idx n0 j); [done..|congruence|done].
  - destruct (earliest_total t Hm (E := TreeError) (flatten s0) None) as (r & Hfold & Hr); [intros c Hc; destruct (wf_child_live _ Hwf idx n0 c Hn) as (nc & ? & _ & ?); [congruence|by eexists]|].
    destruct (Hr ltac:(by left)) as [[q kq] ->]. rewrite Hfold. cbn [expect mbind outcome_bind]. destruct (earliest_child _ _ _ _ Hfold q kq eq_refl) as [Hqs|]; [|done].
    assert (Hq : q ∈ children n0) by congruence. destruct (wf_child_live _ Hwf idx n0 q Hn Hq) as (nq & Hnq & _ & Hql). rewrite (node_ok _ q nq Hnq Hql). cbn [mbind outcome_bind].
    destruct (descendants_spec (E := TreeError) t idx n0 Hwf Hn Hl) as (ds & -> & Hnd & Hds). cbn [mbind outcome_bind].
    assert (Hh : ∀ i, i ∈ ds → hung t i) by (intros i Hb%Hds; by eapply below_hung). destruct (placements_total t Hm (E := TreeError) ds Hh) as [before Hbefore]. rewrite Hbefore.
    cbn [mbind outcome_bind]. destruct (find_slot_ok (E := TreeError) t idx s0 q Hs0 Hqs) as (k0 & -> & Hk0). cbn [mbind outcome_bind].
    destruct (rearrange_total t Hm idx n0 p q nq Hn Hl Hp Hq Hnq Hrec sp s0 k k0 Hsp Hk Hs0 Hk0 Hsize (user_id nq)) as (t1 & t2 & ids & t3 & a6 & t5 & H1 & H2 & H3 & H4 & H5 & Hr' & H10).
    unfold take_slot in H1. apply bind_ok in H1 as (x1 & -> & (x2 & Hx2 & (x3 & Hx3 & (b & Hb & [= <-])%bind_ok)%bind_ok)%bind_ok). cbn [mbind outcome_bind].
    rewrite Hx2. cbn [mbind outcome_bind]. rewrite Hx3. cbn [mbind outcome_bind]. rewrite Hb. cbn [mbind outcome_bind]. rewrite H2. cbn [mbind outcome_bind]. rewrite H3. cbn [mbind outcome_bind].
    unfold clear_tail in H4. apply bind_ok in H4 as (n & -> & (a3 & Ha3 & ([a4 mv] & Hre & (a6' & Ht6 & [= E6 Emv])%bind_ok)%bind_ok)%bind_ok). subst a6' mv. cbn [mbind outcome_bind].
    rewrite Ha3. cbn [mbind outcome_bind]. rewrite Hre. cbn [mbind outcome_bind]. rewrite <- Hu, Ht6. cbn [mbind outcome_bind]. rewrite H5. cbn [mbind outcome_bind].
    destruct (rearranged_report t Hm idx n0 p q nq Hn Hl Hp Hq Hnq Hrec sp s0 k k0 Hsp Hk Hs0 Hk0 Hsize t5 Hr' (list_to_map before)) as (l & -> & Hl').
    { intros j at_ Hj%Hds. by eapply (placements_seated t Hm ds before). }
    cbn. assert (Hnp' : ¬ below (arena t) idx p) by (intros Hbp; pose proof (below_depth _ Hwf idx n0 p np Hn Hbp Hnp); destruct (wf_depth _ Hwf idx n0 p np Hn Hp Hnp); lia).
    eexists (Some q), t5, _. split; [done|]. intros _ Hix Htk. split; try done.
    + split; [done|]. destruct (earliest_first t _ _ _ Hfold ltac:(done) q kq eq_refl) as ((m & Hqm & Ek) & Hmin & _). exists nq. split; [done|]. intros c n' Hc Hn'. rewrite Hch in Hc.
      specialize (Hmin c n' Hc Hn'). congruence.
    + rewrite (rg_outside _ _ _ _ _ _ _ _ Hr') by done. by rewrite decide_True.
    + intros j Hjp Hji Hnb. rewrite (rg_outside _ _ _ _ _ _ _ _ Hr') by done. by rewrite decide_False.
    + intros q' j [= <-]. by eapply (rearranged_under t Hm idx n0 p q nq Hn Hl Hp Hq Hnq Hrec sp s0 k k0 Hsp Hk Hs0 Hk0 Hsize t5 Hr').
    + exact (rg_sponsors _ _ _ _ _ _ _ _ Hr').
    + cbn. unfold uid_at. by rewrite Hnq.
    + cbn [repositioned]. rewrite H10, Hch. f_equal. apply list_filter_iff. intros c. split; [congruence|]. intros Hc ->. by apply Hc.
Qed.
