(* ===== verification/MatrixTheorems.v ===== *)
(** * What the matrix tree guarantees: [tree/matrix.rs]

    Every request keeps an accepted tree accepted; automatic placement always finds
    the breadth-first slot; both removals always finish and do exactly what they
    report; the holding tank neither loses nor invents members. *)

From stdpp Require Import base numbers list gmap strings.
From Stdlib Require Import ZArith Lia.
From S2P Require Import Prelude TreeTypes Arena ArenaCheck ArenaWf ArenaOps ArenaWalk ArenaRestore ArenaPrune SlotMap Binary Matrix MatrixSpec MatrixRestore MatrixRemove MatrixPromote MatrixPromoteRun.
Import Matrix.

(** ** Requests *)

Inductive request : MatrixTree → MatrixTree → Prop :=
| place_root t u at_ t' idx : add_root t u at_ = Ok (t', idx) → request t t'
| place_at t u s p k at_ t' idx : add_node_at t u s p k at_ = Ok (t', idx) → request t t'
| place_spillover t u s at_ t' idx : add_node t u s at_ = Ok (t', idx) → request t t'
| place_tank t u p k t' : place_from_tank t u p k = Ok t' → request t t'
| to_tank t u t' r : remove_node t u HoldingTank = Ok (t', r) → request t t'
| promote t u t' r : remove_node t u PromoteEarliest = Ok (t', r) → request t t'.

Lemma request_wf t t' : matrix_wf t → request t t' → matrix_wf t'.
Proof.
  intros Hm Hp. revert Hm. destruct Hp as [t0 u at_ t1 idx Hr|t0 u s p k at_ t1 idx Hr|t0 u s at_ t1 idx Hr|t0 u p k t1 Hr|t0 u t1 r Hr|t0 u t1 r Hr]; intros Hm.
  - pose proof Hr as Hr'. unfold add_root in Hr'. apply bind_unit_ok in Hr' as [Hc _].
    destruct (add_root_spec t0 u at_ Hm Hc) as (t2 & i & Hadd & Hwf & _). congruence.
  - pose proof (add_node_at_spec t0 u s p k at_ Hm) as H.
    destruct (check_add_node_at t0 u s p k) as [[]|e| |]; [|rewrite H in Hr; done..].
    destruct H as (ip & np & isp & sp & _ & _ & _ & _ & _ & H).
    destruct (depth np <? u32_max)%N; [|congruence]. destruct H as (t2 & i & Hadd & Hwf & _). congruence.
  - pose proof (add_node_spec t0 u s at_ Hm) as H. destruct (add_node_guard t0 u s); [congruence|].
    destruct H as (isp & ip & np & k & sp & _ & _ & _ & _ & _ & _ & _ & H).
    destruct (depth np <? u32_max)%N; [|congruence]. destruct H as (t2 & i & Hadd & Hwf & _). congruence.
  - pose proof (place_from_tank_spec t0 u p k Hm) as H. destruct (tank_guard t0 u p k); [congruence|].
    destruct H as (ip & np & sp & pos & e & _ & _ & _ & _ & _ & H).
    destruct (depth np <? u32_max)%N; [|congruence]. destruct H as (t2 & i & Hadd & Hwf & _). congruence.
  - pose proof (remove_to_tank_spec t0 u Hm) as H. destruct (check_remove_node t0 u HoldingTank) as [|e| |]; [|congruence|done..].
    destruct H as (idx & ds & t2 & _ & _ & _ & Hrun & Hwf & _). congruence.
  - by eapply remove_promote_wf.
Qed.

(** C13. A matrix tree the restore accepts is accepted again after any sequence
    of requests: roots, explicit slots, spillover, placements from the holding
    tank, removals to it and removals that promote a child. *)
Theorem matrix_requests_restorable t t' : validate_restored t = Ok () → rtc request t t' →
  validate_restored t' = Ok ().
Proof.
  rewrite !matrix_validate_restored_spec. intros Hm. induction 1 as [|t t1 t2 Hs _ IH]; [done|].
  apply IH. by eapply request_wf.
Qed.

(** C16. Automatic placement in an accepted tree is total: past its guards, and
    short of the depth counter's end, [add_node] places the new member in the
    first free slot of a node of the sponsor's subtree such that every node of
    the subtree above that level is full. The subtree-full refusal and the
    search's bound are never met. *)
Theorem add_node_breadth_first t u s at_ : validate_restored t = Ok () →
  match add_node_guard t u s with
  | Some e => add_node t u s at_ = Err e
  | None => ∃ isp ip np k sp, index (arena t) !! s = Some isp ∧ (ip = isp ∨ below (arena t) isp ip) ∧
      nodes (arena t) !! ip = Some np ∧ slots t !! ip = Some sp ∧ sp !! k = Some None ∧
      (∀ j, j < k → sp !! j ≠ Some None) ∧
      (∀ q, q = isp ∨ below (arena t) isp q → (depth_at (arena t) q < depth np)%N → full t q) ∧
      if (depth np <? u32_max)%N
      then ∃ t' idx, add_node t u s at_ = Ok (t', idx) ∧ matrix_wf t' ∧
             placed t t' u ip np k sp (Some isp) at_ idx
      else add_node t u s at_ = Panic
  end.
Proof. intros Hm. apply add_node_spec. by apply matrix_validate_restored_spec. Qed.

(** Placing from the tank, on every branch: the refusals in their order, and
    otherwise the entry leaves the tank and its user takes the slot with the
    stored enrolment time, sponsored by the stored sponsor when that user is
    placed and by nobody otherwise. *)
Theorem place_from_tank_exact t u p k : validate_restored t = Ok () →
  match tank_guard t u p k with
  | Some err => place_from_tank t u p k = Err err
  | None => ∃ ip np sp pos e, index (arena t) !! p = Some ip ∧ nodes (arena t) !! ip = Some np ∧
      slots t !! ip = Some sp ∧ sp !! k = Some None ∧
      list_find (λ e, he_user_id e = u) (holding_tank t) = Some (pos, e) ∧
      if (depth np <? u32_max)%N
      then ∃ t' idx, place_from_tank t u p k = Ok t' ∧ matrix_wf t' ∧
             placed (with_tank t (delete pos (holding_tank t))) t' u ip np k sp
               (he_sponsor_user_id e ≫= λ s, index (arena t) !! s) (he_enrolled_at e) idx
      else place_from_tank t u p k = Panic
  end.
Proof. intros Hm. apply place_from_tank_spec. by apply matrix_validate_restored_spec. Qed.

(** C14. Removing a member to the tank, on every branch: the refusals of the
    check, and otherwise the member and its whole subtree leave the tree for the
    tank, each recruit that stays passes to the first sponsor above it that
    stays, the result lists exactly who moved and who changed sponsor, and the
    tree is still accepted. *)
Theorem remove_to_tank_exact t u : validate_restored t = Ok () →
  match check_remove_node t u HoldingTank with
  | Err e => remove_node t u HoldingTank = Err e
  | Ok _ => ∃ idx ds t', index (arena t) !! u = Some idx ∧ NoDup ds ∧ (∀ j, j ∈ ds ↔ below (arena t) idx j) ∧
      remove_node t u HoldingTank =
        Ok (t', mkRemoval u None [] (uid_at (arena t) <$> ds ++ [idx]) [] (handed (arena t) (idx :: ds) (idx :: ds))) ∧
      validate_restored t' = Ok () ∧ pruned (arena t) (arena t') (idx :: ds) ∧
      holding_tank t' = holding_tank t ++ (entry_of (arena t) <$> ds ++ [idx])
  | _ => False
  end.
Proof.
  intros Hm%matrix_validate_restored_spec. pose proof (remove_to_tank_spec t u Hm) as H.
  destruct (check_remove_node t u HoldingTank); try done. destruct H as (idx & ds & t' & ? & ? & ? & ? & ? & ? & ?).
  exists idx, ds, t'. split_and!; try done. by apply matrix_validate_restored_spec.
Qed.

(** C15. Removing a member by promotion, on every branch, in an arena the depth counter
    can count twice: the refusals of the check, and otherwise the removal finishes
    and the tree is still accepted; only that member leaves, the child enrolled first
    takes its slot, everybody else who was below it is below that child, no slot
    outside its subtree and its own changes, its recruits have its sponsor and nobody
    else's sponsor changes. The result names the promoted child, the other children
    in their order, each recruit with its new sponsor, and exactly the members whose
    parent, slot or depth changed, once each, with what these are now. *)
Theorem remove_promote_exact t u : validate_restored t = Ok () → (2 * N.of_nat (length (nodes (arena t))) ≤ u32_max)%N →
  match check_remove_node t u PromoteEarliest with
  | Err e => remove_node t u PromoteEarliest = Err e
  | Ok _ => ∃ idx n0 p sp k h t' r, index (arena t) !! u = Some idx ∧ nodes (arena t) !! idx = Some n0 ∧ parent n0 = Some p ∧
      slots t !! p = Some sp ∧ sp !! k = Some (Some idx) ∧ remove_node t u PromoteEarliest = Ok (t', r) ∧
      validate_restored t' = Ok () ∧ promotion t u idx n0 p sp k h t' r
  | _ => False
  end.
Proof.
  intros Hm%matrix_validate_restored_spec Hsize. pose proof (remove_promote_spec t u Hm Hsize) as H. destruct (check_remove_promote t u Hm _ eq_refl) as [Hp Hh].
  destruct (check_remove_node t u PromoteEarliest) as [[]|e| |] eqn:E; [|unfold remove_node; by rewrite E|done..].
  destruct (H eq_refl) as (idx & n0 & p & sp & k & h & t' & r & ? & ? & ? & ? & ? & ? & ? & ?).
  exists idx, n0, p, sp, k, h, t', r. split_and!; try done. by apply matrix_validate_restored_spec.
Qed.

(** ** Nobody is lost *)

(** Enrolled, in the tree or in the tank. *)
Definition enrolled (t : MatrixTree) (v : Uuid) : Prop := is_Some (index (arena t) !! v) ∨ v ∈ he_user_id <$> holding_tank t.

Lemma to_tank_enrolled t u t' r v : matrix_wf t → remove_node t u HoldingTank = Ok (t', r) → enrolled t' v ↔ enrolled t v.
Proof.
  intros Hm Hrun. pose proof (mw_arena t Hm) as Hwf. pose proof (remove_to_tank_spec t u Hm) as H.
  destruct (check_remove_node t u HoldingTank); [|congruence|done..].
  destruct H as (idx & ds & t2 & Hi & _ & Hds & Hrun' & _ & Hpr & Ht). assert (t2 = t') as -> by congruence.
  destruct (resolve_live _ Hwf u idx Hi) as (n & Hn & Hu & Hnil).
  assert (Hlive : ∀ j, j ∈ ds ++ [idx] → live_at (arena t) j).
  { intros j [Hj%Hds | ->%list_elem_of_singleton]%elem_of_app; [|exists n; split; congruence].
    destruct (below_live _ Hwf idx j Hj) as (m & ? & ?). by exists m. }
  assert (Hset : ∀ j, j ∈ idx :: ds ↔ j ∈ ds ++ [idx]) by (intros j; rewrite elem_of_app, list_elem_of_singleton, elem_of_cons; naive_solver).
  unfold enrolled. rewrite Ht, (tank_users t (ds ++ [idx]) Hlive v). split.
  - intros [[i [Hi' _]%(pr_index _ _ _ Hpr)]|[Hv|(j & m & Hj & Hm' & <-)]]; [left; eauto|by right|left].
    destruct (Hlive j Hj) as (m' & ? & ?). exists j. apply live_indexed; congruence.
  - intros [[i Hi']|Hv]; [|by right; left]. destruct (decide (i ∈ idx :: ds)) as [Hin|Hout].
    + right. right. destruct (resolve_live _ Hwf v i Hi') as (m & Hm' & Hv & _). exists i, m. by rewrite <- Hset.
    + left. exists i. by apply (pr_index _ _ _ Hpr).
Qed.

Lemma from_tank_enrolled t u p k t' v : matrix_wf t → place_from_tank t u p k = Ok t' → enrolled t' v ↔ enrolled t v.
Proof.
  intros Hm Hrun. pose proof (place_from_tank_spec t u p k Hm) as H. destruct (tank_guard t u p k); [congruence|].
  destruct H as (ip & np & sp & pos & e & _ & _ & _ & _ & Hf & H). destruct (depth np <? u32_max)%N; [|congruence].
  destruct H as (t2 & idx & Hrun' & _ & Hpl). assert (t2 = t') as -> by congruence. destruct (pl_frame _ _ _ _ _ _ _ _ _ _ Hpl) as (_ & _ & Ht).
  apply list_find_Some in Hf as (Hpos & He & _). unfold enrolled. rewrite Ht, (pl_index _ _ _ _ _ _ _ _ _ _ Hpl). cbn.
  assert (Htk : v ∈ he_user_id <$> holding_tank t ↔ v = u ∨ v ∈ he_user_id <$> delete pos (holding_tank t)).
  { rewrite <- (take_drop_middle _ _ _ Hpos) at 1. rewrite delete_take_drop, !fmap_app, fmap_cons, !elem_of_app, elem_of_cons, He. naive_solver. }
  rewrite Htk. destruct (decide (v = u)) as [->|Hv]; [rewrite lookup_insert_eq; naive_solver|].
  rewrite lookup_insert_ne by done. naive_solver.
Qed.

(** The holding tank neither loses nor invents members: after a removal to
    it or a placement from it, exactly the users enrolled before, placed or in
    the tank, are enrolled. *)
Theorem tank_keeps_members t t' v : validate_restored t = Ok () →
  (∃ u r, remove_node t u HoldingTank = Ok (t', r)) ∨ (∃ u p k, place_from_tank t u p k = Ok t') →
  enrolled t' v ↔ enrolled t v.
Proof.
  intros Hm%matrix_validate_restored_spec [(u & r & Hr)|(u & p & k & Hr)];
    [by eapply to_tank_enrolled|by eapply from_tank_enrolled].
Qed.
