(* ===== verification/MatrixCalculator.v ===== *)
(** * The matrix calculator: [commission/matrix.rs]

    The matrix tree behind the navigator interface, and [calculate_matrix]: the
    level walk against a tree whose topology must be the one the plan declares,
    to the lesser of the plan's depth and the matrix's height. *)

From stdpp Require Import base numbers list gmap sorting strings.
From Stdlib Require Import ZArith Lia.
From S2P Require Import Prelude RustDecimal Dec TreeTypes Arena ArenaWf ArenaOps ArenaWalk SlotMap Matrix MatrixSpec Navigator CommissionTypes Walk WalkSpec WalkPrepare Currency WalkOrder Calculators.

#[export] Instance matrix_navigator : TreeNavigator Matrix.MatrixTree := {
  contains t := Query.contains (Matrix.arena t);
  get_parent t := Query.get_parent (Matrix.arena t);
  get_children t := Query.get_children (Matrix.arena t);
  get_upline t := Query.get_upline (Matrix.arena t);
  get_downline t := Query.get_downline (Matrix.arena t);
  get_position := Matrix.get_position;
  get_branch := Matrix.get_branch;
  count_downline t := Query.count_downline (Matrix.arena t);
  count_branch := Matrix.count_branch;
  is_descendant_of t := Query.is_descendant_of (Matrix.arena t);
  get_sponsor t := Query.get_sponsor (Matrix.arena t);
  get_sponsor_upline t := Query.get_sponsor_upline (Matrix.arena t);
  get_sponsored t := Query.get_sponsored (Matrix.arena t);
  user_ids t := Query.user_ids (Matrix.arena t);
}.

Lemma matrix_position_total t u : matrix_wf t → Query.contains (Matrix.arena t) u = true →
  ∃ tp, Matrix.get_position t u = Ok tp.
Proof.
  intros Hm [i Hi]%contains_spec. pose proof (mw_arena t Hm) as Hwf. pose proof (mw_slots t Hm) as Hsl.
  destruct (resolve_live _ Hwf u i Hi) as (n & Hn & Hu & Hnil). assert (Hl : user_id n ≠ nil_uuid) by congruence.
  destruct (sm_live _ _ _ Hsl i n Hn Hl) as [s Hs]. unfold Matrix.get_position. rewrite (resolve_ok _ _ _ Hi).
  cbn [mbind outcome_bind]. destruct (arena_position _ Hwf u i Hi) as [tp ->]. cbn [mbind outcome_bind].
  rewrite (node_ok _ _ _ Hn Hl). cbn [mbind outcome_bind].
  assert (∃ tp', match parent n with
    | Some p => s ← expect (Matrix.slots t !! p); Ok (Matrix.slot_position i s tp)
    | None => Ok tp end = @Ok TreeError _ tp') as [tp' ->].
  { destruct (parent n) as [p|] eqn:Hp; [|eauto]. destruct (wf_parent_live _ Hwf i n p Hn Hp) as (np & Hnp & _ & Hpl).
    destruct (sm_live _ _ _ Hsl p np Hnp Hpl) as [sp ->]. cbn. eauto. }
  cbn [mbind outcome_bind]. rewrite Hs. cbn [expect mbind outcome_bind].
  destruct (fold_outcome_total (E := TreeError) (λ _, True) (Matrix.count_slot (Matrix.arena t)) (enumerate s) ∅) as (c & -> & _);
    [done| |cbn; eauto].
  intros counts [k o] Hk%elem_of_enumerate _. unfold Matrix.count_slot. cbn. destruct o as [c|]; [|cbn; eauto].
  assert (Hin : c ∈ children n).
  { rewrite (sm_children _ _ _ i n s Hsl Hs Hn). apply elem_of_flatten. by eapply list_elem_of_lookup_2. }
  destruct (wf_children _ Hwf i n c Hn Hin) as (nc & Hnc & _).
  destruct (count_subtree_ok (E := TreeError) _ Hwf c nc Hnc) as (l & -> & _). cbn. eauto.
Qed.

#[export] Instance matrix_navigator_laws : NavigatorLaws Matrix.MatrixTree matrix_wf.
Proof.
  split; simpl; intros t u Hm; pose proof (mw_arena t Hm) as Hwf.
  - by apply user_ids_spec.
  - by apply arena_upline.
  - intros Hu. apply (arena_unknown _ u Hu).
  - by apply arena_sponsored.
  - intros Hu. apply (arena_unknown _ u Hu).
  - by apply arena_downline.
  - intros Hu. apply (arena_unknown _ u Hu).
  - by apply arena_children.
  - intros Hu limit. by apply arena_levels.
  - by apply matrix_position_total.
Qed.

Section matrix.
Context {D : Type} `{!DecimalOps D}.

Definition calculate_matrix (tree : Matrix.MatrixTree) (plan : CompensationPlan D)
  (structure : MatrixStructureConfig D) (snapshots : gmap Uuid (DistributorSnapshot D))
  (volume : list (VolumeSource D)) (identity : PlanIdentity)
  : outcome (CalculationError D) (CommissionCalculationResult D) :=
  minor_units ← plan_minor_units plan;
  let params := ms_matrix_params structure in
  refuse_if (bool_decide (Matrix.width tree ≠ mp_width params ∨ Matrix.spillover tree ≠ mp_spillover params))
  (TreeConfigMismatch (ms_name structure) (mp_width params) (Matrix.width tree)
  (mp_spillover params) (Matrix.spillover tree));;
  validate_snapshots plan snapshots (user_ids tree);;
  let ordinals := build_rank_ordinals plan in
  cache ← evaluate_eligibility snapshots tree (eligibility plan);
  let lc := ms_level_commission structure in
  let max_depth := N.min (lc_max_depth lc) (mp_height params) in
  let mult := default (vc_volume_to_dollar_multiplier (volume_config plan)) (lc_volume_to_dollar_multiplier lc) in
  let comp := ms_compression structure in
  let threshold := resolve_threshold_ordinal comp ordinals in
  let config := mkLevelWalkConfig max_depth (dec (broad_commission_percent lc)) (dec mult) comp
              threshold ordinals (rate_table lc) None None in
  '(es, ws) ← walk_level_commissions tree config cache snapshots volume (λ _, false) [];
  assemble es ws volume ordinals identity minor_units.
End matrix.

Section matrix_facts.
Context {D : Type} `{!DecimalOps D, !DecimalLaws D}.
Context (tree : Matrix.MatrixTree) (Hm : matrix_wf tree).
Context (plan : CompensationPlan D) (structure : MatrixStructureConfig D).
Context (snapshots : gmap Uuid (DistributorSnapshot D)) (volume : list (VolumeSource D)) (identity : PlanIdentity).
Abbreviation lc := (ms_level_commission structure).
Abbreviation params := (ms_matrix_params structure).

Definition matrix_multiplier : AuthoredDec D :=
  default (vc_volume_to_dollar_multiplier (volume_config plan)) (lc_volume_to_dollar_multiplier lc).

Definition matrix_config : LevelWalkConfig :=
  mkLevelWalkConfig (N.min (lc_max_depth lc) (mp_height params)) (dec (broad_commission_percent lc)) (dec matrix_multiplier)
  (ms_compression structure) (resolve_threshold_ordinal (ms_compression structure) (build_rank_ordinals plan))
  (build_rank_ordinals plan) (rate_table lc) None None.

Definition mismatched : Prop := Matrix.width tree ≠ mp_width params ∨ Matrix.spillover tree ≠ mp_spillover params.

Lemma calculate_matrix_steps : ∃ cache,
  (∀ u, cache !! u = eligibility_of tree snapshots (eligibility plan) u <$> snapshots !! u) ∧
  calculate_matrix tree plan structure snapshots volume identity =
  (places ← plan_minor_units plan;
  if bool_decide mismatched
  then Err (TreeConfigMismatch (ms_name structure) (mp_width params) (Matrix.width tree)
   (mp_spillover params) (Matrix.spillover tree))
  else level_tail tree plan matrix_config cache snapshots volume identity places).
Proof using Hm.
  destruct (evaluate_eligibility_spec _ tree Hm snapshots (eligibility plan)) as (cache & Hcache & Hspec).
  exists cache. split; [done|]. unfold calculate_matrix. rewrite Hcache.
  destruct (plan_minor_units plan); [|done..]. cbn [mbind outcome_bind]. by rewrite refuse_bool.
Qed.

(** A result was computed on the plan's topology. *)
Lemma calculate_matrix_ok res : calculate_matrix tree plan structure snapshots volume identity = Ok res →
  ∃ cache places, minor_units (base_currency (volume_config plan)) = Some places ∧ ¬ mismatched ∧
  (∀ u, cache !! u = eligibility_of tree snapshots (eligibility plan) u <$> snapshots !! u) ∧
  level_tail tree plan matrix_config cache snapshots volume identity places = Ok res.
Proof using Hm.
  destruct calculate_matrix_steps as (cache & Hc & ->). intros (places & Hp%ok_or_ok & H)%bind_ok.
  case_bool_decide; [done|]. by exists cache, places.
Qed.
End matrix_facts.

Section matrix_statements.
Context {D : Type} `{!DecimalOps D, !DecimalLaws D}.
Implicit Types (plan : CompensationPlan D) (structure : MatrixStructureConfig D).

(** The matrix calculator's errors are true and complete: on a well-formed
    tree it never panics or diverges; an unknown currency is refused first, a tree
    that is not the topology the plan declares next, and then exactly the input
    faults of the level walk; a success means none of them holds. *)
Theorem calculate_matrix_errors tree plan structure snapshots volume identity :
  matrix_wf tree → (lc_max_depth (ms_level_commission structure) ≤ 255)%N → (N.of_nat (length volume) ≤ 2 ^ 32)%N →
  match calculate_matrix tree plan structure snapshots volume identity with
  | Ok _ => is_Some (minor_units (base_currency (volume_config plan))) ∧ ¬ mismatched tree structure ∧
  (∀ u, ¬ bad_rank plan snapshots u) ∧ (∀ u, ¬ bad_volume snapshots u) ∧
  (∀ u, contains tree u = true → is_Some (snapshots !! u)) ∧
  Forall (good_source tree) volume
  | Err (UnknownCurrency c) => c = base_currency (volume_config plan) ∧ minor_units c = None
  | Err (TreeConfigMismatch _ w w' s s') => is_Some (minor_units (base_currency (volume_config plan))) ∧
  (w ≠ w' ∨ s ≠ s') ∧ w = mp_width (ms_matrix_params structure) ∧ w' = Matrix.width tree ∧
  s = mp_spillover (ms_matrix_params structure) ∧ s' = Matrix.spillover tree
  | Err (UnknownSnapshotRank u _) => ¬ mismatched tree structure ∧
  bad_rank plan snapshots u ∧ ∀ v, bad_rank plan snapshots v → (u ≤ v)%N
  | Err (InvalidPersonalVolume u _) => ¬ mismatched tree structure ∧
  bad_volume snapshots u ∧ ∀ v, bad_volume snapshots v → (u ≤ v)%N
  | Err (DistributorNotInSnapshot u) => ¬ mismatched tree structure ∧ contains tree u = true ∧ snapshots !! u = None ∧
  ∀ v, contains tree v = true → snapshots !! v = None → (u ≤ v)%N
  | Err e => ¬ mismatched tree structure ∧ ∃ cache,
  (∀ u, cache !! u = eligibility_of tree snapshots (eligibility plan) u <$> snapshots !! u) ∧
  first_fault tree (matrix_config plan structure) cache snapshots volume e
  | _ => False
  end.
Proof.
  intros Hm Hd Hv.
  destruct (calculate_matrix_steps tree Hm plan structure snapshots volume identity) as (cache & Hc & ->).
  unfold plan_minor_units. destruct (minor_units _) as [places|] eqn:Hcur; cbn [ok_or mbind outcome_bind]; [|done].
  case_bool_decide as Hmis. { unfold mismatched in Hmis. split_and!; naive_solver. }
  assert (Hd' : (max_depth (matrix_config plan structure) ≤ 255)%N) by (cbn; lia).
  pose proof (level_tail_errors _ tree Hm plan (matrix_config plan structure) cache snapshots volume identity places Hd' Hv) as H.
  destruct (level_tail _ _ _ _ _ _ _ _) as [r|e| |]; [done| |done..].
  assert (Hff : first_fault tree (matrix_config plan structure) cache snapshots volume e →
    ¬ mismatched tree structure ∧ ∃ cache, (∀ u, cache !! u = eligibility_of tree snapshots (eligibility plan) u <$> snapshots !! u) ∧
    first_fault tree (matrix_config plan structure) cache snapshots volume e) by eauto.
  destruct e; try exact (conj Hmis H); try exact (Hff H); by destruct H as (? & ? & ? & _ & _ & []).
Qed.

(** A matrix result agrees with itself, like a unilevel one: one walk per
    source, numbered by position, whose paid steps are exactly the earnings that
    reference it, and earnings in canonical order. *)
Theorem calculate_matrix_consistent tree plan structure snapshots volume identity res :
  matrix_wf tree → (lc_max_depth (ms_level_commission structure) ≤ 255)%N → (N.of_nat (length volume) ≤ 2 ^ 32)%N →
  calculate_matrix tree plan structure snapshots volume identity = Ok res → consistent volume identity res.
Proof.
  intros Hm Hd Hv Hres. destruct (calculate_matrix_ok tree Hm plan structure snapshots volume identity res Hres)
  as (cache & places & _ & _ & _ & (es & ws & Hw & Ha)%level_tail_ok).
  assert (Hd' : (max_depth (matrix_config plan structure) ≤ 255)%N) by (cbn; lia).
  exact (result_consistent _ tree Hm (matrix_config plan structure) _ _ _ Hd' Hv _ _ Hw _ _ _ _ Ha).
Qed.

(** Every matrix earning pays an eligible member of its source's upline, within
    its own tier and at a level within both the plan's depth and the matrix's
    height, on a tree of the declared topology,
    at the positive table rate of its rank and level, exactly and rounded once to
    the currency's minor unit. *)
Theorem calculate_matrix_priced tree plan structure snapshots volume identity res e :
  matrix_wf tree → (lc_max_depth (ms_level_commission structure) ≤ 255)%N → (N.of_nat (length volume) ≤ 2 ^ 32)%N →
  calculate_matrix tree plan structure snapshots volume identity = Ok res → e ∈ earnings res →
  Matrix.width tree = mp_width (ms_matrix_params structure) ∧
  ∃ places src snap levels r (x : Z), minor_units (base_currency (volume_config plan)) = Some places ∧
  src ∈ volume ∧ source_id e = vs_source_id src ∧ cv_amount e = dec (vs_cv_amount src) ∧
  (∃ upline k n, get_upline tree (vs_source_id src) 0 = Ok upline ∧ upline !! k = Some n ∧ user_id n = earner_id e ∧
    (level e ≤ N.of_nat k + 1)%N) ∧
  (1 ≤ level e)%N ∧ (level e ≤ lc_max_depth (ms_level_commission structure))%N ∧
  (level e ≤ mp_height (ms_matrix_params structure))%N ∧
  (∀ m, max_earning_depth (eligibility_of tree snapshots (eligibility plan) (earner_id e) snap) = Some m → (level e ≤ m)%N) ∧
  snapshots !! earner_id e = Some snap ∧ is_eligible snap (eligibility plan) = true ∧
  rate_table (ms_level_commission structure) !! rank snap = Some levels ∧ levels !! level e = Some r ∧
  rate e = Some (dec r) ∧ (0 < units (dec r))%Z ∧
  (x * 10 ^ 84 = units (cv_amount e) * units (dec (broad_commission_percent (ms_level_commission structure))) *
  units (dec (matrix_multiplier plan structure)) * units (dec r))%Z ∧
  units (dollar_amount e) = (round_away x (10 ^ (28 - Z.of_N places)) * 10 ^ (28 - Z.of_N places))%Z.
Proof.
  intros Hm Hd Hv Hres He. destruct (calculate_matrix_ok tree Hm plan structure snapshots volume identity res Hres)
  as (cache & places & Hcur & Hmis & Hc & Htail).
  split; [destruct (decide (Matrix.width tree = mp_width (ms_matrix_params structure))); [done|]; by destruct Hmis; left|].
  assert (Hd' : (max_depth (matrix_config plan structure) ≤ 255)%N) by (cbn; lia).
  pose proof (minor_units_bound _ _ Hcur) as Hp. exists places.
  destruct (level_tail_priced _ tree Hm plan (matrix_config plan structure) cache snapshots volume identity places Hd' Hv res e
  ltac:(lia) Hc Htail He) as (src & snap & levels & r & x & H1 & H2 & H3 & Han & H4 & Ht & H). cbn [max_depth matrix_config] in H4.
  exists src, snap, levels, r, x. split_and!; try done; try apply H; lia.
Qed.
End matrix_statements.
