(* ===== verification/Board.v ===== *)
(** * Boards and cycle payouts: [board_plan/board.rs], [commission/board_plan.rs]

    A board is a complete [width]-ary tree in a flat array. This file models its
    index arithmetic and queries and the calculator that pays cycle events, and
    shows that the arithmetic is that of a tree, that a subtree's indices are
    those whose chain of parents meets its root, and that a member is paid for
    exactly its first cycles up to the cap. *)

From stdpp Require Import base numbers list gmap sorting strings.
From Stdlib Require Import ZArith Lia.
From S2P Require Import Prelude RustDecimal Dec TreeTypes Currency.

Module Board.
Record Board := mkBoard {
  id : Uuid;
  positions : list (option Uuid);
  created_at : Z;
  seq : N;
  last_activity_at : Z;
  parent_board_id : option Uuid;
}.

(** [Uuid::new_v4()] is an argument. *)
Definition new (fresh : Uuid) (total_positions : nat) (timestamp : Z) (parent : option Uuid) (seq : N) : Board :=
  mkBoard fresh (replicate total_positions None) timestamp seq timestamp parent.

Definition is_full (b : Board) : bool := forallb (λ p, bool_decide (is_Some p)) (positions b).

Definition filled_count (b : Board) : nat := length (filter (λ p, is_Some p) (positions b)).

Definition first_open_position (b : Board) : option nat := fst <$> list_find (λ p, p = None) (positions b).

Definition members (b : Board) : list Uuid := omap (λ p, p) (positions b).

(** The loop of [total_positions] over the levels left. *)
Fixpoint level_sum (levels : nat) (w total level_size : nat) : nat :=
  match levels with
  | O => total
  | S levels' => level_sum levels' w (total + level_size) (level_size * w)
  end.

Definition total_positions (width height : N) : nat :=
  level_sum (S (N.to_nat height)) (N.to_nat width) 0 1.

(** [(index - 1) / width] panics on a width of zero. *)
Definition parent_index {E} (index : nat) (width : N) : outcome E (option nat) :=
  match index with
  | O => Ok None
  | S i => if bool_decide (width = 0%N) then Panic else Ok (Some (i / N.to_nat width))
  end.

Definition child_indices (index : nat) (width : N) : list nat :=
  let w := N.to_nat width in
  List.seq (w * index + 1) w.

Fixpoint subtree_loop {E} (fuel : nat) (width : N) (max_index : nat) (queue result : list nat) : outcome E (list nat) :=
  match fuel with
  | O => Hang
  | S fuel' =>
    match queue with
    | [] => Ok result
    | idx :: queue' =>
        if (max_index <? idx)%nat then subtree_loop fuel' width max_index queue' result
        else subtree_loop fuel' width max_index
               (queue' ++ filter (λ child, child ≤ max_index) (child_indices idx width)) (result ++ [idx])
    end
  end.

(** The queue holds distinct indices up to the bound, after the root. *)
Definition subtree_indices {E} (root_index : nat) (width : N) (max_index : nat) : outcome E (list nat) :=
  subtree_loop (max_index + 3) width max_index [root_index] [].
End Board.

(** ** Cycle payouts *)
Section cycles.
Context {D : Type} `{!DecimalOps D}.

Inductive ReEntryPosition := Bottom | SponsorBoard.

Record BoardPlanConfig := mkBoardPlan {
  cycle_commission : AuthoredDec D;
  re_entry_enabled : bool;
  re_entry_position : ReEntryPosition;
  max_cycles_per_period : N;
  max_cascade_depth : N;
  stall_threshold_periods : N;
  inactive_compression : bool;
}.

Record CycleEvent := mkCycle {
  ce_board_id : Uuid;
  cycled_member : Uuid;
  new_boards : list Uuid;
  re_entry_board : option Uuid;
}.

Record BoardCycleEarning := mkCycleEarning {
  be_earner_id : Uuid;
  be_board_id : Uuid;
  be_dollar_amount : D;
  cycle_number : N;
  capped : bool;
}.

Record BoardCommissionResult := mkBoardResult {
  be_earnings : list BoardCycleEarning;
  updated_cycle_counts : gmap Uuid N;
}.

(** One turn of the loop. *)
Definition pay_cycle {E} (config : BoardPlanConfig) (minor_units : N) (st : gmap Uuid N * list BoardCycleEarning)
  (event : CycleEvent) : outcome E (gmap Uuid N * list BoardCycleEarning) :=
  let '(counts, earnings) := st in
  let member := cycled_member event in
  count ← u32_add (default 0%N (counts !! member)) 1;
  let counts := <[member := count]> counts in
  let capped := (max_cycles_per_period config <? count)%N in
  let dollar_amount := if capped then DZERO else round_minor (dec (cycle_commission config)) (Z.of_N minor_units) in
  Ok (counts, earnings ++ [mkCycleEarning member (ce_board_id event) dollar_amount count capped]).

Definition calculate_board_commissions {E} (cycle_events : list CycleEvent) (period_cycle_counts : gmap Uuid N)
  (config : BoardPlanConfig) (minor_units : N) : outcome E BoardCommissionResult :=
  '(counts, earnings) ← fold_outcome (pay_cycle config minor_units) (period_cycle_counts, []) cycle_events;
  Ok (mkBoardResult earnings counts).
End cycles.
Arguments mkBoardPlan {D} _ _ _ _ _ _ _.
Arguments cycle_commission {D} _.
Arguments max_cycles_per_period {D} _.
Arguments mkCycleEarning {D} _ _ _ _ _.
Arguments be_earner_id {D} _.
Arguments be_board_id {D} _.
Arguments be_dollar_amount {D} _.
Arguments cycle_number {D} _.
Arguments capped {D} _.
Arguments mkBoardResult {D} _ _.
Arguments be_earnings {D} _.
Arguments updated_cycle_counts {D} _.

(** ** Index arithmetic *)
Section indices.
Context (w : N) (Hw : (1 ≤ w)%N).
Abbreviation k := (N.to_nat w).

Lemma elem_of_child_indices i c : c ∈ Board.child_indices i w ↔ k * i + 1 ≤ c ≤ k * i + k.
Proof. unfold Board.child_indices. rewrite list_elem_of_In, in_seq. lia. Qed.

Lemma parent_of_child {E} i c : c ∈ Board.child_indices i w ↔ @Board.parent_index E c w = Ok (Some i).
Proof using Hw.
  rewrite elem_of_child_indices. unfold Board.parent_index. destruct c as [|c]; [split; [lia|done]|].
  rewrite bool_decide_eq_false_2 by lia. split.
  - intros Hc. f_equal. f_equal. symmetry. apply (Nat.div_unique c k i (c - k * i)); lia.
  - intros [= <-]. pose proof (Nat.div_mod_eq c k). pose proof (Nat.mod_upper_bound c k ltac:(lia)). lia.
Qed.

(** [root] is [i] or on its chain of parents. *)
Inductive descends (root : nat) : nat → Prop :=
| descends_self : descends root root
| descends_child p i : descends root p → Board.parent_index (E := Empty_set) i w = Ok (Some p) → descends root i.

Lemma descends_le root i : descends root i → root ≤ i.
Proof using Hw. induction 1 as [|p i _ IH Hp%parent_of_child%elem_of_child_indices]; [done|nia]. Qed.

(** *** The subtree search *)
Context (root max_index : nat).

(** Between two turns: what is done, in order, then what waits; everything
    waiting after the first is a child of something done. *)
Record searching (result queue : list nat) : Prop := {
  se_sorted : StronglySorted lt (result ++ queue);
  se_under i : i ∈ result ++ queue → i ≤ max_index ∧ descends root i;
  se_root : root ∈ result ++ queue;
  se_closed i c : i ∈ result → c ∈ Board.child_indices i w → c ≤ max_index → c ∈ result ++ queue;
  se_waiting c : c ∈ queue → c = root ∨ ∃ i, i ∈ result ∧ c ∈ Board.child_indices i w;
}.

Lemma seq_sorted a n : StronglySorted lt (List.seq a n).
Proof.
  revert a. induction n as [|n IH]; intros a; cbn; constructor; [apply IH|].
  apply Forall_forall. intros x Hx. rewrite list_elem_of_In, in_seq in Hx. lia.
Qed.

Lemma filter_sorted (P : nat → Prop) `{∀ x, Decision (P x)} (l : list nat) :
  StronglySorted lt l → StronglySorted lt (filter P l).
Proof.
  induction 1 as [|x l Hl IH Hx]; [constructor|]. rewrite filter_cons. case_decide; [|done].
  constructor; [done|]. apply Forall_forall. intros y [_ Hy]%list_elem_of_filter. rewrite Forall_forall in Hx. by apply Hx.
Qed.

Lemma search_step result idx queue : searching result (idx :: queue) →
  searching (result ++ [idx]) (queue ++ filter (λ c, c ≤ max_index) (Board.child_indices idx w)).
Proof using Hw.
  intros [S1 S2 S3 S4 S5].
  assert (Hidx : idx ≤ max_index ∧ descends root idx) by (apply S2; set_solver).
  assert (Hbefore : ∀ x, x ∈ result → x < idx).
  { intros x Hx. apply StronglySorted_app in S1 as (Hlt & _ & _). apply Hlt; [done|left]. }
  assert (Hafter : ∀ x, x ∈ queue → idx < x).
  { intros x Hx. apply StronglySorted_app in S1 as (_ & _ & S1). apply StronglySorted_inv in S1 as [_ Hall].
    rewrite Forall_forall in Hall. by apply Hall. }
  assert (Hold : ∀ x c, x ∈ result ++ idx :: queue → c ∈ Board.child_indices idx w → x < c).
  { intros x c Hx Hc%elem_of_child_indices. apply elem_of_app in Hx as [Hx|[->|Hx]%elem_of_cons].
    - specialize (Hbefore x Hx). nia.
    - nia.
    - specialize (Hafter x Hx). destruct (S5 x ltac:(by right)) as [->|(i & Hi & Hxi%elem_of_child_indices)].
      + pose proof (descends_le root idx (proj2 Hidx)). lia.
      + specialize (Hbefore i Hi). nia. }
  assert (Heq : (result ++ [idx]) ++ queue ++ filter (λ c, c ≤ max_index) (Board.child_indices idx w) =
    (result ++ idx :: queue) ++ filter (λ c, c ≤ max_index) (Board.child_indices idx w)) by (by rewrite <- !app_assoc).
  split; rewrite ?Heq.
  - apply StronglySorted_app_2; [|done|apply filter_sorted, seq_sorted].
    intros x c Hx [_ Hc]%list_elem_of_filter. by apply Hold.
  - intros c [Hc|[Hle Hc]%list_elem_of_filter]%elem_of_app; [by apply S2|]. split; [done|].
    eapply descends_child; [exact (proj2 Hidx)|]. by apply parent_of_child.
  - apply elem_of_app. by left.
  - intros i c [Hi | ->%list_elem_of_singleton]%elem_of_app Hc Hle; apply elem_of_app; [left; by eapply S4|right].
    by apply list_elem_of_filter.
  - intros c [Hc|[_ Hc]%list_elem_of_filter]%elem_of_app.
    + destruct (S5 c ltac:(by right)) as [?|(i & Hi & ?)]; [by left|right]. exists i. split; [|done]. apply elem_of_app. by left.
    + right. exists idx. split; [|done]. apply elem_of_app. right. by apply list_elem_of_singleton.
Qed.

Lemma sorted_bounded_length (l : list nat) m : StronglySorted lt l → (∀ x, x ∈ l → x ≤ m) → length l ≤ S m.
Proof.
  intros Hs Hb. rewrite <- (length_seq (S m) 0). apply submseteq_length, NoDup_submseteq.
  - clear Hb. induction Hs as [|x l Hl IH Hx]; constructor; [|done]. rewrite Forall_forall in Hx. intros Hin. specialize (Hx x Hin). lia.
  - intros x Hx. rewrite list_elem_of_In, in_seq. specialize (Hb x Hx). lia.
Qed.

Lemma subtree_loop_spec {E} fuel result queue : searching result queue → max_index + 2 < fuel + length result →
  ∃ l, @Board.subtree_loop E fuel w max_index queue result = Ok l ∧ searching l [].
Proof using Hw.
  revert result queue. induction fuel as [|fuel IH]; intros result queue Hs Hf.
  { assert (length result ≤ S max_index); [|lia]. apply sorted_bounded_length.
    - pose proof (se_sorted _ _ Hs) as H. by apply StronglySorted_app in H as (_ & ? & _).
    - intros x Hx. apply (se_under _ _ Hs). apply elem_of_app. by left. }
  destruct queue as [|idx queue]; [by exists result|]. cbn [Board.subtree_loop].
  destruct (se_under _ _ Hs idx) as [Hle _]; [set_solver|].
  destruct (Nat.ltb_spec max_index idx); [lia|]. apply IH; [by apply search_step|rewrite length_app; cbn; lia].
Qed.

Lemma subtree_indices_spec {E} : ∃ l, @Board.subtree_indices E root w max_index = Ok l ∧ StronglySorted lt l ∧
  ∀ i, i ∈ l ↔ i ≤ max_index ∧ descends root i.
Proof using Hw.
  unfold Board.subtree_indices. destruct (decide (root ≤ max_index)) as [Hr|Hr].
  - destruct (subtree_loop_spec (E := E) (max_index + 3) [] [root]) as (l & -> & Hs); [|cbn; lia|].
    + split; cbn.
      * constructor; constructor.
      * intros i ->%list_elem_of_singleton. split; [done|constructor].
      * by apply list_elem_of_singleton.
      * by intros ? ? ?%elem_of_nil.
      * intros c ->%list_elem_of_singleton. by left.
    + exists l. pose proof (se_sorted _ _ Hs) as H1. pose proof (se_under _ _ Hs) as H2. pose proof (se_root _ _ Hs) as H3.
      pose proof (se_closed _ _ Hs) as H4. rewrite app_nil_r in *. split_and!; [done..|]. intros i. split; [apply H2|].
      intros [Hi Hd]. induction Hd as [|p i Hd IH Hp]; [done|]. rewrite <- parent_of_child in Hp.
      eapply H4; [apply IH|done|done]. apply elem_of_child_indices in Hp. nia.
  - exists []. replace (max_index + 3) with (S (S (S max_index))) by lia. cbn [Board.subtree_loop].
    destruct (Nat.ltb_spec max_index root); [|lia]. split_and!; [done|constructor|]. intros i. split; [by intros ?%elem_of_nil|].
    intros [Hi Hd%descends_le]. lia.
Qed.
End indices.

(** The indices of a board's subtree are exactly those within the board whose
    chain of parent indices meets the subtree's root, each once and in
    increasing order. The search ends for every width of at least one. *)
Theorem subtree_indices_exact {E} root w max_index : (1 ≤ w)%N →
  ∃ l, @Board.subtree_indices E root w max_index = Ok l ∧ StronglySorted lt l ∧
    ∀ i, i ∈ l ↔ i ≤ max_index ∧ descends w root i.
Proof. intros Hw. by apply subtree_indices_spec. Qed.



Lemma level_sum_total levels w total size :
  Board.level_sum levels (S w) total size * w + size = total * w + size * S w ^ levels.
Proof.
  revert total size. induction levels as [|levels IH]; intros total size; cbn [Board.level_sum]; [cbn; lia|].
  specialize (IH (total + size) (size * S w)). rewrite Nat.pow_succ_r'. nia.
Qed.

(** A board of width [w] and height [h] has the positions of a complete
    [w]-ary tree of [h + 1] levels, at most 781 for the dimensions a plan may
    have, so the machine-width counter cannot overflow. *)
Theorem total_positions_bounds w h : (2 ≤ w ≤ 5)%N → (1 ≤ h ≤ 4)%N →
  Board.total_positions w h * (N.to_nat w - 1) + 1 = N.to_nat w ^ (N.to_nat h + 1) ∧
  3 ≤ Board.total_positions w h ≤ 781.
Proof.
  intros Hw Hh. split.
  - unfold Board.total_positions. destruct (N.to_nat w) as [|w'] eqn:E; [lia|].
    pose proof (level_sum_total (S (N.to_nat h)) w' 0 1) as H. replace (S w' - 1) with w' by lia. replace (N.to_nat h + 1) with (S (N.to_nat h)) by lia. rewrite H, Nat.mul_0_l, Nat.mul_1_l. done.
  - assert (w = 2 ∨ w = 3 ∨ w = 4 ∨ w = 5)%N as Hws by lia. assert (h = 1 ∨ h = 2 ∨ h = 3 ∨ h = 4)%N as Hhs by lia.
    destruct Hws as [->|[->|[->| ->]]]; destruct Hhs as [->|[->|[->| ->]]]; split; apply Nat.leb_le; vm_compute; reflexivity.
Qed.

(** ** Cycle payouts *)
Section cycle_facts.
Context {D : Type} `{!DecimalOps D, !DecimalLaws D}.
Context (cfg : BoardPlanConfig (D := D)) (prior : gmap Uuid N) (minor_units : N).

Definition occurrences (m : Uuid) (l : list CycleEvent) : nat := length (filter (λ e, cycled_member e = m) l).

Definition cycles_before (m : Uuid) : N := default 0%N (prior !! m).

(** The earning of the event that is the [n]-th of its member. *)
Definition cycle_earning (e : CycleEvent) (n : N) : BoardCycleEarning :=
  mkCycleEarning (cycled_member e) (ce_board_id e)
  (if (max_cycles_per_period cfg <? n)%N then DZERO else round_minor (dec (cycle_commission cfg)) (Z.of_N minor_units))
  n (max_cycles_per_period cfg <? n)%N.

Record paid_up (l : list CycleEvent) (counts : gmap Uuid N) (es : list BoardCycleEarning) : Prop := {
  pu_counts m : counts !! m = if decide (occurrences m l = 0) then prior !! m
                            else Some (cycles_before m + N.of_nat (occurrences m l))%N;
  pu_length : length es = length l;
  pu_earning k e : l !! k = Some e →
  es !! k = Some (cycle_earning e (cycles_before (cycled_member e) + N.of_nat (occurrences (cycled_member e) (take (S k) l))));
  pu_paid m : N.of_nat (length (filter (λ e, be_earner_id e = m ∧ capped e = false) es)) =
  N.min (N.of_nat (occurrences m l)) (max_cycles_per_period cfg - cycles_before m);
}.

Lemma occurrences_snoc m l e : occurrences m (l ++ [e]) = occurrences m l + if decide (cycled_member e = m) then 1 else 0.
Proof. unfold occurrences. rewrite filter_app, length_app. f_equal. rewrite filter_cons. by case_decide. Qed.

Lemma pay_events {E} l : (∀ m, (cycles_before m + N.of_nat (occurrences m l) ≤ u32_max)%N) →
  ∃ counts es, fold_outcome (@pay_cycle D _ E cfg minor_units) (prior, []) l = Ok (counts, es) ∧ paid_up l counts es.
Proof.
  induction l as [|e l IH] using rev_ind; intros Hb.
  { exists prior, []. split; [done|]. split; try done. intros m. cbn. lia. }
  setoid_rewrite occurrences_snoc in Hb.
  destruct IH as (counts & es & Hrun & [P1 P2 P3 P4]); [intros m; specialize (Hb m); lia|].
  set (m := cycled_member e). set (n := (cycles_before m + N.of_nat (occurrences m l) + 1)%N).
  assert (Hdef : default 0%N (counts !! m) = (cycles_before m + N.of_nat (occurrences m l))%N).
  { rewrite P1. case_decide as Hz; [rewrite Hz; unfold cycles_before; lia|done]. }
  assert (Hn : n = (cycles_before m + N.of_nat (occurrences m (l ++ [e])))%N).
  { rewrite occurrences_snoc, decide_True by done. unfold n. lia. }
  exists (<[m := n]> counts), (es ++ [cycle_earning e n]). rewrite fold_outcome_app, Hrun. cbn [mbind outcome_bind fold_outcome].
  unfold pay_cycle at 1. fold m. rewrite Hdef. unfold u32_add.
  specialize (Hb m) as Hbm. rewrite decide_True in Hbm by done. destruct (N.leb_spec (cycles_before m + N.of_nat (occurrences m l) + 1) u32_max); [|lia].
  split; [done|]. split.
  - intros v. rewrite occurrences_snoc. destruct (decide (cycled_member e = v)) as [<-|Hv].
    + fold m. rewrite lookup_insert_eq, decide_False by lia. f_equal. unfold n. lia.
    + rewrite lookup_insert_ne, P1, Nat.add_0_r by done. done.
  - by rewrite !length_app, P2.
  - intros k x. destruct (decide (k < length l)) as [Hk|Hk].
    + rewrite lookup_app_l by done. intros Hx. rewrite lookup_app_l, (P3 k x Hx) by lia.
      by rewrite take_app_le by lia.
    + intros Hx. assert (k = length l) as -> by (apply lookup_lt_Some in Hx; rewrite length_app in Hx; cbn in Hx; lia).
      rewrite list_lookup_middle in Hx by done. injection Hx as <-. rewrite list_lookup_middle by done.
      do 2 f_equal. fold m. rewrite take_ge by (rewrite length_app; cbn; lia). exact Hn.
  - intros v. rewrite filter_app, length_app, occurrences_snoc. specialize (P4 v). rewrite filter_cons. cbn [be_earner_id capped cycle_earning].
    fold m. destruct (decide (m = v)) as [<-|Hv].
    + destruct (N.ltb_spec (max_cycles_per_period cfg) n); [rewrite decide_False by naive_solver|rewrite decide_True by done]; cbn; unfold n in *; lia.
    + rewrite decide_False by naive_solver. cbn. lia.
Qed.
End cycle_facts.

(** Board cycles are paid exactly up to the cap: each event in order yields
    one earning numbered by its member's cycles so far in the period, at the
    configured commission rounded to the minor unit while the number is within
    the cap and at zero marked capped beyond it; the counts afterwards are the
    prior ones plus the events, and a member is paid for as many cycles as the
    cap leaves it. *)
Theorem board_commissions_exact {D} `{!DecimalOps D, !DecimalLaws D} {E} (cfg : BoardPlanConfig (D := D)) prior minor_units events :
  (∀ m, (cycles_before prior m + N.of_nat (occurrences m events) ≤ u32_max)%N) →
  ∃ res, @calculate_board_commissions D _ E events prior cfg minor_units = Ok res ∧
    paid_up cfg prior minor_units events (updated_cycle_counts res) (be_earnings res).
Proof.
  intros Hb. destruct (pay_events (E := E) cfg prior minor_units events Hb) as (counts & es & Hrun & Hp).
  unfold calculate_board_commissions. rewrite Hrun. by exists (mkBoardResult es counts).
Qed.
