(* ===== verification/MatrixExamples.v ===== *)
(** * A concrete matrix tree

    A width-two tree of seven members built by requests, a branch of it moved to
    the holding tank, on which the theorems about the matrix tree are evaluated. *)

From stdpp Require Import base numbers list gmap strings sorting.
From Stdlib Require Import ZArith Lia.
From S2P Require Import Prelude TreeTypes Arena ArenaCheck ArenaWf ArenaOps ArenaWalk ArenaRestore ArenaPrune SlotMap Binary Matrix MatrixSpec MatrixRestore MatrixRemove MatrixPromote MatrixPromoteRun MatrixTheorems RustDecimal Dec Unilevel Navigator CommissionTypes Walk WalkSpec WalkPrepare Currency WalkOrder Calculators CommissionExamples MatrixCalculator Board.
Import Matrix.
Import Ref.

Module MatrixWitness.
(** 2 and 3 under 1, 4 and 5 under 2, 6 and 7 under 4; 7 is sponsored by 4. *)
Definition built : outcome TreeError MatrixTree :=
  t ← new 2 BreadthFirst;
  '(t, _) ← add_root t 1%N 10;
  '(t, _) ← add_node t 2%N 1%N 20;
  '(t, _) ← add_node t 3%N 1%N 30;
  '(t, _) ← add_node t 4%N 1%N 40;
  '(t, _) ← add_node t 5%N 1%N 50;
  '(t, _) ← add_node t 6%N 2%N 60;
  '(t, _) ← add_node_at t 7%N 4%N 4%N 1 45;
  Ok t.

Definition tree : MatrixTree := match built with Ok t => t | _ => mkMatrix arena_new 2 BreadthFirst ∅ [] end.

(** The branch of 4 in the tank: 6, 7 and 4. *)
Definition emptied : MatrixTree := match remove_node tree 4%N HoldingTank with Ok (t, _) => t | _ => tree end.
(** 4 back under 3. *)
Definition refilled : MatrixTree := match place_from_tank emptied 4%N 3%N 0 with Ok t => t | _ => tree end.

Lemma tree_built : built = Ok tree.
Proof. vm_compute. reflexivity. Qed.

(** The promoting removal on the same tree: 4, enrolled before 5, takes 2's place,
    and 5 spills under 4. *)
Lemma promote_earliest_run :
  match remove_node tree 2%N PromoteEarliest with
  | Ok (t, r) => promoted r = Some 4%N ∧ repositioned r = [5%N] ∧ rl_user_id <$> relocated r = [4%N; 6%N; 7%N; 5%N] ∧
  responsored r = [mkResponsored 6%N 1%N] ∧ validate_restored t = Ok ()
  | _ => False
  end.
Proof. vm_compute. repeat split; reflexivity. Qed.

(** Without 2: its earliest child takes its slot. *)
Definition promoted_tree : MatrixTree := match remove_node refilled 2%N PromoteEarliest with Ok (t, _) => t | _ => tree end.

Lemma matrix_requests_restorable_witness : validate_restored promoted_tree = Ok ().
Proof.
  apply (matrix_requests_restorable tree promoted_tree); [vm_compute; reflexivity|].
  eapply (rtc_l _ _ emptied); [|eapply (rtc_l _ _ refilled)].
  - eapply (to_tank tree 4%N). vm_compute. reflexivity.
  - eapply (place_tank emptied 4%N 3%N 0). vm_compute. reflexivity.
  - eapply rtc_once, (promote refilled 2%N). vm_compute. reflexivity.
Defined.

Lemma remove_promote_exact_witness : check_remove_node tree 2%N PromoteEarliest = Ok () ∧
  ∃ idx n0 p sp k h t' r, index (arena tree) !! 2%N = Some idx ∧ nodes (arena tree) !! idx = Some n0 ∧ parent n0 = Some p ∧
  slots tree !! p = Some sp ∧ sp !! k = Some (Some idx) ∧ remove_node tree 2%N PromoteEarliest = Ok (t', r) ∧
  validate_restored t' = Ok () ∧ promotion tree 2%N idx n0 p sp k h t' r.
Proof.
  split; [vm_compute; reflexivity|].
  pose proof (remove_promote_exact tree 2%N ltac:(vm_compute; reflexivity) ltac:(vm_compute; discriminate)) as H.
  assert (Hg : check_remove_node tree 2%N PromoteEarliest = Ok ()) by (vm_compute; reflexivity). rewrite Hg in H. exact H.
Defined.

Lemma add_node_breadth_first_witness : add_node_guard tree 8%N 1%N = None ∧
  ∃ isp ip np k sp, index (arena tree) !! 1%N = Some isp ∧ (ip = isp ∨ below (arena tree) isp ip) ∧
  nodes (arena tree) !! ip = Some np ∧ slots tree !! ip = Some sp ∧ sp !! k = Some None ∧
  (∀ j, j < k → sp !! j ≠ Some None) ∧
  (∀ q, q = isp ∨ below (arena tree) isp q → (depth_at (arena tree) q < depth np)%N → full tree q) ∧
  if (depth np <? u32_max)%N
  then ∃ t' idx, add_node tree 8%N 1%N 70 = Ok (t', idx) ∧ matrix_wf t' ∧
       placed tree t' 8%N ip np k sp (Some isp) 70 idx
  else add_node tree 8%N 1%N 70 = Panic.
Proof.
  split; [vm_compute; reflexivity|].
  pose proof (add_node_breadth_first tree 8%N 1%N 70 ltac:(vm_compute; reflexivity)) as H.
  assert (Hg : add_node_guard tree 8%N 1%N = None) by (vm_compute; reflexivity). rewrite Hg in H. exact H.
Defined.

Lemma place_from_tank_exact_witness : tank_guard emptied 4%N 3%N 0 = None ∧
  ∃ ip np sp pos e, index (arena emptied) !! 3%N = Some ip ∧ nodes (arena emptied) !! ip = Some np ∧
  slots emptied !! ip = Some sp ∧ sp !! 0 = Some None ∧
  list_find (λ e, he_user_id e = 4%N) (holding_tank emptied) = Some (pos, e) ∧
  if (depth np <? u32_max)%N
  then ∃ t' idx, place_from_tank emptied 4%N 3%N 0 = Ok t' ∧ matrix_wf t' ∧
       placed (with_tank emptied (delete pos (holding_tank emptied))) t' 4%N ip np 0 sp
         (he_sponsor_user_id e ≫= λ s, index (arena emptied) !! s) (he_enrolled_at e) idx
  else place_from_tank emptied 4%N 3%N 0 = Panic.
Proof.
  split; [vm_compute; reflexivity|].
  pose proof (place_from_tank_exact emptied 4%N 3%N 0 ltac:(vm_compute; reflexivity)) as H.
  assert (Hg : tank_guard emptied 4%N 3%N 0 = None) by (vm_compute; reflexivity). rewrite Hg in H. exact H.
Defined.

Lemma remove_to_tank_exact_witness : check_remove_node tree 4%N HoldingTank = Ok () ∧
  ∃ idx ds t', index (arena tree) !! 4%N = Some idx ∧ NoDup ds ∧ (∀ j, j ∈ ds ↔ below (arena tree) idx j) ∧
  remove_node tree 4%N HoldingTank =
  Ok (t', mkRemoval 4%N None [] (uid_at (arena tree) <$> ds ++ [idx]) [] (handed (arena tree) (idx :: ds) (idx :: ds))) ∧
  validate_restored t' = Ok () ∧ pruned (arena tree) (arena t') (idx :: ds) ∧
  holding_tank t' = holding_tank tree ++ (entry_of (arena tree) <$> ds ++ [idx]).
Proof.
  split; [vm_compute; reflexivity|].
  pose proof (remove_to_tank_exact tree 4%N ltac:(vm_compute; reflexivity)) as H.
  assert (Hg : check_remove_node tree 4%N HoldingTank = Ok ()) by (vm_compute; reflexivity). rewrite Hg in H. exact H.
Defined.

Lemma tank_keeps_members_witness : enrolled emptied 6%N ↔ enrolled tree 6%N.
Proof.
  apply (tank_keeps_members tree emptied 6%N); [vm_compute; reflexivity|]. left. exists 4%N. eexists. vm_compute. reflexivity.
Defined.
End MatrixWitness.

(** * A concrete matrix period and concrete boards

    The matrix tree of MatrixExamples.v under the plan of CommissionExamples.v,
    and a board with its cycles, on which the theorems about the matrix
    calculator and the boards are evaluated. *)

Module MatrixPeriodWitness.
#[local] Open Scope string_scope.

Abbreviation tree := MatrixWitness.tree.
Abbreviation plan := CommissionWitness.plan.
Abbreviation lc := CommissionWitness.lc.
Abbreviation identity := CommissionWitness.identity.
Abbreviation money m s := (Authored (of_mantissa m s)).

Lemma m_tree_wf : matrix_wf tree.
Proof. apply matrix_validate_restored_spec. vm_compute. reflexivity. Qed.

(** Two levels high, so the plan's third level is never reached. *)
Definition structure (w : N) : MatrixStructureConfig rdec :=
  mkMatrixStructure "matrix" (mkMatrixParams w 2 BreadthFirst) lc None (Some (mkPruning HoldingTank)).

Definition snapshots : gmap Uuid (DistributorSnapshot rdec) :=
  list_to_map ((λ u, (u, mkSnapshot "gold" (money 100 0) "active" true)) <$> [1%N; 2%N; 3%N; 4%N; 5%N; 6%N; 7%N]).
Definition volume : list (VolumeSource rdec) := [mkSource 7 (money 9999 2)].

Definition result : CommissionCalculationResult rdec :=
  match calculate_matrix tree plan (structure 2) snapshots volume identity with Ok r => r | _ => mkResult [] [] identity end.

Lemma m_result_ok : calculate_matrix tree plan (structure 2) snapshots volume identity = Ok result.
Proof. vm_compute. reflexivity. Qed.

Lemma m_depth_ok w : (lc_max_depth (ms_level_commission (structure w)) ≤ 255)%N.
Proof. vm_compute. discriminate. Qed.
Lemma m_volume_ok : (N.of_nat (length volume) ≤ 2 ^ 32)%N.
Proof. vm_compute. discriminate. Qed.

(** A plan of width three is refused on a tree of width two. *)
Lemma calculate_matrix_errors_witness :
  calculate_matrix tree plan (structure 3) snapshots volume identity =
  Err (TreeConfigMismatch "matrix" 3 2 BreadthFirst BreadthFirst) ∧ (3 ≠ 2 ∨ BreadthFirst ≠ BreadthFirst)%N.
Proof.
  assert (E : calculate_matrix tree plan (structure 3) snapshots volume identity =
  Err (TreeConfigMismatch "matrix" 3 2 BreadthFirst BreadthFirst)) by (vm_compute; reflexivity).
  split; [exact E|].
  pose proof (calculate_matrix_errors tree plan (structure 3) snapshots volume identity m_tree_wf (m_depth_ok 3) m_volume_ok) as H.
  rewrite E in H. apply H.
Defined.

(** 4 and 2 are paid, the root, three levels up, is not. *)
Lemma calculate_matrix_consistent_witness :
  CommissionWitness.paid result = [(2%N, 7%N, 2%N, (220%Z, 2%Z), Some 0%N); (4%N, 7%N, 1%N, (400%Z, 2%Z), Some 0%N)] ∧
  consistent volume identity result.
Proof.
  split; [vm_compute; reflexivity|].
  exact (calculate_matrix_consistent tree plan (structure 2) snapshots volume identity result m_tree_wf (m_depth_ok 2) m_volume_ok m_result_ok).
Defined.

Definition e0 : CommissionEarning rdec := default (mkEarning 0 0 0 None rd_zero rd_zero None) (earnings result !! 0).
Lemma m_e0_in : e0 ∈ earnings result.
Proof. apply (list_elem_of_lookup_2 _ 0). vm_compute. reflexivity. Qed.

Lemma calculate_matrix_priced_witness : level e0 = 2%N ∧ Matrix.width tree = 2%N ∧
  ∃ places src snap levels r (x : Z), minor_units "USD" = Some places ∧
  src ∈ volume ∧ source_id e0 = vs_source_id src ∧ cv_amount e0 = dec (vs_cv_amount src) ∧
  (∃ upline k n, get_upline tree (vs_source_id src) 0 = Ok upline ∧ upline !! k = Some n ∧ user_id n = earner_id e0 ∧
    (level e0 ≤ N.of_nat k + 1)%N) ∧
  (1 ≤ level e0)%N ∧ (level e0 ≤ 3)%N ∧ (level e0 ≤ 2)%N ∧
  (∀ m, max_earning_depth (eligibility_of tree snapshots CommissionWitness.elig (earner_id e0) snap) = Some m → (level e0 ≤ m)%N) ∧
  snapshots !! earner_id e0 = Some snap ∧ is_eligible snap CommissionWitness.elig = true ∧
  CommissionWitness.rates !! rank snap = Some levels ∧ levels !! level e0 = Some r ∧
  rate e0 = Some (dec r) ∧ (0 < units (dec r))%Z ∧
  (x * 10 ^ 84 = units (cv_amount e0) * units (dec (broad_commission_percent lc)) *
  units (dec (matrix_multiplier plan (structure 2))) * units (dec r))%Z ∧
  units (dollar_amount e0) = (round_away x (10 ^ (28 - Z.of_N places)) * 10 ^ (28 - Z.of_N places))%Z.
Proof.
  split; [vm_compute; reflexivity|].
  exact (calculate_matrix_priced tree plan (structure 2) snapshots volume identity result e0 m_tree_wf (m_depth_ok 2) m_volume_ok
  m_result_ok m_e0_in).
Defined.

(** *** Boards *)
Lemma subtree_indices_exact_witness : @Board.subtree_indices Empty_set 1 2 6 = Ok [1; 3; 4] ∧
  ∃ l, @Board.subtree_indices Empty_set 1 2 6 = Ok l ∧ StronglySorted lt l ∧ ∀ i : nat, i ∈ l ↔ (i ≤ 6)%nat ∧ descends 2 1 i.
Proof. split; [vm_compute; reflexivity|]. apply (subtree_indices_exact 1 2 6). lia. Defined.

Lemma total_positions_bounds_witness : Board.total_positions 3 2 = 13 ∧
  Board.total_positions 3 2 * (N.to_nat 3 - 1) + 1 = N.to_nat 3 ^ (N.to_nat 2 + 1) ∧ (3 ≤ Board.total_positions 3 2 ≤ 781)%nat.
Proof. split; [vm_compute; reflexivity|]. apply (total_positions_bounds 3 2); lia. Defined.

(** Two cycles a period: member 1 has one behind it and cycles twice. *)
Definition board_config : BoardPlanConfig (D := rdec) := mkBoardPlan (money 500005 3) true Bottom 2 10 3 false.
Definition events : list CycleEvent := [mkCycle 11 1 [] None; mkCycle 12 2 [] None; mkCycle 13 1 [] (Some 14)]%N.
Definition board_prior : gmap Uuid N := {[1%N := 1%N]}.

Lemma board_commissions_exact_witness :
  (r ← @calculate_board_commissions rdec _ Empty_set events board_prior board_config 2;
  Ok ((λ e, (be_earner_id e, cycle_number e, capped e, mantissa (be_dollar_amount e))) <$> be_earnings r)) =
  Ok [(1, 2, false, 50001%Z); (2, 1, false, 50001%Z); (1, 3, true, 0%Z)]%N ∧
  ∃ res, @calculate_board_commissions rdec _ Empty_set events board_prior board_config 2 = Ok res ∧
  paid_up board_config board_prior 2 events (updated_cycle_counts res) (be_earnings res).
Proof.
  split; [vm_compute; reflexivity|]. apply (board_commissions_exact board_config board_prior 2 events).
  intros m. unfold cycles_before, board_prior.
  assert (N.of_nat (occurrences m events) ≤ 3)%N.
  { unfold occurrences. pose proof (length_filter (λ e, cycled_member e = m) events) as H. change (length events) with 3 in H. lia. }
  destruct (decide (m = 1%N)) as [->|Hm]; [rewrite lookup_singleton_eq|rewrite lookup_singleton_ne by done]; unfold u32_max; cbn [default from_option id]; lia.
Defined.
End MatrixPeriodWitness.
