(* ===== verification/BinaryCommission.v ===== *)
(** * The binary calculator: [commission/binary.rs] and [config/binary.rs]

    Pairing and cycle-step commissions over a binary tree: volume is summed per
    position, accumulated bottom-up into leg volumes, matched and paid, capped
    per position or per owner, and carried forward. This file translates it;
    BinaryLegs.v, BinaryCalc.v, BinaryCycle.v and BinaryTheorems.v prove what it
    computes.

    A loop over a [HashMap] runs over [map_to_list]; the error of a numeric
    operation becomes [Numeric] through [?]. *)

From stdpp Require Import base numbers list gmap strings.
From Stdlib Require Import ZArith Lia.
From S2P Require Import Prelude RustDecimal Dec Allocate Ratio TreeTypes Arena Binary Navigator CommissionTypes Walk Currency.

(** ** Configuration: [config/binary.rs] *)

Inductive MultiPositionCapMode := PerPosition | Aggregate.
Inductive PairingCalculation := WeakerLeg | VolumeRatio.
Inductive VolumeAfterPayout := FullFlush | NetOff | CarryForward.

Section config.
Context (D : Type).

Record PairingConfig := mkPairing {
  percent : AuthoredDec D;
  calculation : PairingCalculation;
  cap_per_period : option (AuthoredDec D);
  volume_after_payout : VolumeAfterPayout;
  carry_forward_cap : option (AuthoredDec D);
  multi_position_cap_mode : MultiPositionCapMode;
}.

Record CycleStep := mkCycleStep {
  threshold : AuthoredDec D;
  amount : AuthoredDec D;
}.

Record CycleStepConfig := mkCycleStepConfig {
  cs_steps : list CycleStep;
  volume_after_cycle : VolumeAfterPayout;
  cs_cap_per_period : option (AuthoredDec D);
  cs_carry_forward_cap : option (AuthoredDec D);
  cs_multi_position_cap_mode : MultiPositionCapMode;
}.

Inductive BinaryCommissionMode :=
| Pairing (config : PairingConfig)
| CycleStepMode (config : CycleStepConfig).

Record BinaryCommissionConfig := mkBinaryCommission {
  bc_volume_to_dollar_multiplier : option (AuthoredDec D);
  bc_mode : BinaryCommissionMode;
}.

Record BinaryStructureConfig := mkBinaryStructure {
  bs_name : string;
  binary_commission : BinaryCommissionConfig;
}.

(** ** Inputs and outputs: [commission/types.rs] *)

Record LegVolumes := mkLegs { left : D; right : D }.

Record BinaryCommissionEarning := mkBinaryEarning {
  be_earner_id : Uuid;
  position_id : Uuid;
  left_volume : D;
  right_volume : D;
  matched_volume : D;
  ratio : D;
  be_percent : D;
  be_dollar_amount : D;
  capped : bool;
}.

Record BinaryCalculationResult := mkBinaryResult {
  be_earnings : list BinaryCommissionEarning;
  carry_forward : gmap Uuid LegVolumes;
}.
End config.
Arguments mkPairing {D} _ _ _ _ _ _.
Arguments percent {D} _.
Arguments calculation {D} _.
Arguments cap_per_period {D} _.
Arguments volume_after_payout {D} _.
Arguments carry_forward_cap {D} _.
Arguments multi_position_cap_mode {D} _.
Arguments mkCycleStep {D} _ _.
Arguments threshold {D} _.
Arguments amount {D} _.
Arguments mkCycleStepConfig {D} _ _ _ _ _.
Arguments cs_steps {D} _.
Arguments volume_after_cycle {D} _.
Arguments cs_cap_per_period {D} _.
Arguments cs_carry_forward_cap {D} _.
Arguments cs_multi_position_cap_mode {D} _.
Arguments Pairing {D} _.
Arguments CycleStepMode {D} _.
Arguments mkBinaryCommission {D} _ _.
Arguments bc_volume_to_dollar_multiplier {D} _.
Arguments bc_mode {D} _.
Arguments mkBinaryStructure {D} _ _.
Arguments bs_name {D} _.
Arguments binary_commission {D} _.
Arguments mkLegs {D} _ _.
Arguments left {D} _.
Arguments right {D} _.
Arguments mkBinaryEarning {D} _ _ _ _ _ _ _ _ _.
Arguments be_earner_id {D} _.
Arguments position_id {D} _.
Arguments left_volume {D} _.
Arguments right_volume {D} _.
Arguments matched_volume {D} _.
Arguments ratio {D} _.
Arguments be_percent {D} _.
Arguments be_dollar_amount {D} _.
Arguments capped {D} _.
Arguments mkBinaryResult {D} _ _.
Arguments be_earnings {D} _.
Arguments carry_forward {D} _.

Section defs.
Context {D : Type} `{!DecimalOps D}.
Abbreviation calc := (outcome (CalculationError D)).

(** [?] on a numeric error. *)
Definition numeric {A} (m : outcome (NumericError D) A) : calc A := map_err Numeric m.

(** *** [CycleStepConfig::validate] *)

(** The first step whose threshold or amount is not positive. *)
Definition check_step (s : CycleStep D) : outcome string unit :=
  refuse_if (dec_leb (dec (threshold s)) DZERO) "step threshold must be positive"%string;;
  refuse_if (dec_leb (dec (amount s)) DZERO) "step amount must be positive"%string.

Definition sort_steps (l : list (CycleStep D)) : list (CycleStep D) :=
  sort_by (λ a b, dcompare (dec (threshold a)) (dec (threshold b))) l.

(** [Display for AuthoredDec]. *)
Definition show (a : AuthoredDec D) : string := display (normalize (dec a)).

(** [windows(2)]: is a threshold repeated? *)
Fixpoint check_duplicate (l : list (CycleStep D)) : outcome string unit :=
  match l with
  | a :: ((b :: _) as l') =>
  refuse_if (match dcompare (dec (threshold a)) (dec (threshold b)) with Eq => true | _ => false end)
    (String.append "duplicate step threshold: " (show (threshold a)));;
  check_duplicate l'
  | _ => Ok ()
  end.

Definition check_non_negative (cap : option (AuthoredDec D)) (why : string) : outcome string unit :=
  match cap with
  | Some cap => refuse_if (is_negative (dec cap)) why
  | None => Ok ()
  end.

Definition validate (c : CycleStepConfig D) : outcome string (CycleStepConfig D) :=
  refuse_if (bool_decide (length (cs_steps c) = 0)) "cycle step config must have at least one step"%string;;
  for_each check_step (cs_steps c);;
  let steps := sort_steps (cs_steps c) in
  check_duplicate steps;;
  refuse_if (match volume_after_cycle c with NetOff => true | _ => false end)
  "net_off is not supported for cycle step; use full_flush or carry_forward"%string;;
  check_non_negative (cs_cap_per_period c) "cap_per_period must be non-negative"%string;;
  check_non_negative (cs_carry_forward_cap c) "carry_forward_cap must be non-negative"%string;;
  Ok (mkCycleStepConfig steps (volume_after_cycle c) (cs_cap_per_period c) (cs_carry_forward_cap c)
    (cs_multi_position_cap_mode c)).

(** *** Preparation *)

Definition resolve_owner (position : Uuid) (ownership : option (gmap Uuid Uuid)) : Uuid :=
  default position (m ← ownership; m !! position).

Definition add_source (tree : Binary.Binary.BinaryTree) (snapshots : gmap Uuid (DistributorSnapshot D))
  (ownership : option (gmap Uuid Uuid)) (totals : gmap Uuid D) (source : VolumeSource D) : calc (gmap Uuid D) :=
  refuse_if (is_negative (dec (vs_cv_amount source))) (InvalidCvAmount (vs_source_id source) (vs_cv_amount source));;
  refuse_if (negb (contains tree (vs_source_id source))) (SourceNotInTree (vs_source_id source));;
  let owner := resolve_owner (vs_source_id source) ownership in
  refuse_if (bool_decide (snapshots !! owner = None)) (SourceNotInSnapshot owner);;
  total ← numeric (try_add (default DZERO (totals !! vs_source_id source)) (dec (vs_cv_amount source)));
  Ok (<[vs_source_id source := total]> totals).

Definition aggregate_volume (tree : Binary.Binary.BinaryTree) (snapshots : gmap Uuid (DistributorSnapshot D))
  (volume : list (VolumeSource D)) (ownership : option (gmap Uuid Uuid)) : calc (gmap Uuid D) :=
  fold_outcome (add_source tree snapshots ownership) ∅ volume.

Definition evaluate_eligibility (snapshots : gmap Uuid (DistributorSnapshot D)) (e : CommissionEligibility D)
  : gmap Uuid bool :=
  (λ snap, is_eligible snap e) <$> snapshots.

(** Deepest first, then by id. *)
Definition by_depth (a b : NodeIndex * Uuid * N) : comparison :=
  then_with (b.2 ?= a.2)%N (a.1.2 ?= b.1.2)%N.

Definition nodes_by_depth (a : Arena) : outcome (NumericError D) (list (NodeIndex * Uuid * N)) :=
  l ← map_outcome (λ e, let '(uid, idx) := e in n ← node a idx; Ok (idx, uid, depth n)) (map_to_list (index a));
  Ok (sort_by by_depth l).

Definition add_subtree (a : Arena) (volume_totals : gmap Uuid D) (subtree_totals : gmap NodeIndex D)
  (e : NodeIndex * Uuid * N) : outcome (NumericError D) (gmap NodeIndex D) :=
  let '(idx, uid, _) := e in
  let personal := default DZERO (volume_totals !! uid) in
  n ← node a idx;
  child_sum ← sum ((λ c, default DZERO (subtree_totals !! c)) <$> children n);
  total ← try_add personal child_sum;
  Ok (<[idx := total]> subtree_totals).

Definition add_legs (slots : gmap NodeIndex Binary.Binary.sides) (subtree_totals : gmap NodeIndex D)
  (prior : gmap Uuid (LegVolumes D)) (legs : gmap Uuid (LegVolumes D)) (e : NodeIndex * Uuid * N)
  : outcome (NumericError D) (gmap Uuid (LegVolumes D)) :=
  let '(idx, uid, _) := e in
  let node_slots := default Binary.Binary.no_sides (slots !! idx) in
  let subtree_of (slot : option NodeIndex) := default DZERO (c ← slot; subtree_totals !! c) in
  let p := prior !! uid in
  l ← try_add (subtree_of node_slots.1) (from_option left DZERO p);
  r ← try_add (subtree_of node_slots.2) (from_option right DZERO p);
  Ok (<[uid := mkLegs l r]> legs).

Definition accumulate_leg_volumes (tree : Binary.Binary.BinaryTree) (volume_totals : gmap Uuid D)
  (prior : gmap Uuid (LegVolumes D)) : outcome (NumericError D) (gmap Uuid (LegVolumes D)) :=
  let a := Binary.Binary.arena tree in
  order ← nodes_by_depth a;
  subtree_totals ← fold_outcome (add_subtree a volume_totals) ∅ order;
  fold_outcome (add_legs (Binary.Binary.slots tree) subtree_totals prior) ∅ order.

(** *** Shared checks *)

Definition check_leg (position : Uuid) (e : BinaryLeg * D) : calc unit :=
  let '(leg, volume) := e in
  refuse_if (is_negative volume) (NegativeCarriedLegVolume position leg volume).

Definition check_carried_legs (prior : gmap Uuid (LegVolumes D)) : calc unit :=
  for_each (λ position,
  p ← expect (prior !! position);
  for_each (check_leg position) [(LeftLeg, left p); (RightLeg, right p)])
  (sort_by N.compare (map_to_list prior).*1).

Definition sorted_positions (legs : gmap Uuid (LegVolumes D)) : list Uuid :=
  sort_by N.compare (map_to_list legs).*1.

Definition check_cap (cap : option (AuthoredDec D)) (plan : CompensationPlan D) (places : N) : calc unit :=
  match cap with
  | Some cap =>
  refuse_if (is_negative (dec cap)) (NegativeCap cap);;
  refuse_if (negb (dec_eqb (round_minor (dec cap) (Z.of_N places)) (dec cap)))
    (CapNotWholeMinorUnits cap (base_currency (volume_config plan)))
  | None => Ok ()
  end.

(** *** Settling the earnings *)

Definition binary_compare (a b : BinaryCommissionEarning D) : comparison :=
  then_with (be_earner_id a ?= be_earner_id b)%N (position_id a ?= position_id b)%N.

Definition with_dollars (e : BinaryCommissionEarning D) (amount : D) (cap : bool) : BinaryCommissionEarning D :=
  mkBinaryEarning (be_earner_id e) (position_id e) (left_volume e) (right_volume e) (matched_volume e) (ratio e)
  (be_percent e) amount cap.

(** [chunk_by_mut]: maximal runs of neighbours the predicate joins. *)
Fixpoint chunk_by {A} (same : A → A → bool) (l : list A) : list (list A) :=
  match l with
  | [] => []
  | x :: l' =>
  match chunk_by same l' with
  | (y :: g) :: gs => if same x y then (x :: y :: g) :: gs else [x] :: (y :: g) :: gs
  | gs => [x] :: gs
  end
  end.

Definition same_owner (a b : BinaryCommissionEarning D) : bool := (be_earner_id a =? be_earner_id b)%N.

Definition settle_group (cap : D) (places : N) (group : list (BinaryCommissionEarning D))
  : outcome (NumericError D) (list (BinaryCommissionEarning D)) :=
  let raw := be_dollar_amount <$> group in
  let rounded := (λ a, round_minor a (Z.of_N places)) <$> raw in
  if negb (sum_exceeds raw cap) && negb (sum_exceeds rounded cap)
  then Ok (zip_with (λ e amount, with_dollars e amount (capped e)) group rounded)
  else
  shares ← allocate_largest_remainder raw cap (Z.of_N places);
  Ok (zip_with (λ e amount, with_dollars e amount true) group shares).

Definition apply_aggregate_cap (l : list (BinaryCommissionEarning D)) (cap : D) (places : N)
  : outcome (NumericError D) (list (BinaryCommissionEarning D)) :=
  groups ← map_outcome (settle_group cap places) (chunk_by same_owner (sort_by binary_compare l));
  Ok (concat groups).

Definition finalize_earnings (l : list (BinaryCommissionEarning D)) (aggregate_cap : option D) (places : N)
  : outcome (NumericError D) (list (BinaryCommissionEarning D)) :=
  match aggregate_cap with
  | Some cap => apply_aggregate_cap l cap places
  | None => Ok ((λ e, with_dollars e (round_minor (be_dollar_amount e) (Z.of_N places)) (capped e)) <$> l)
  end.

(** The per-position cap, skipped when the cap is shared by an owner's positions. *)
Definition cap_amount (use_aggregate_cap : bool) (cap : option (AuthoredDec D)) (raw_amount : D) : D * bool :=
  if use_aggregate_cap then (raw_amount, false)
  else match cap with
   | Some cap => if dec_ltb (dec cap) raw_amount then (dec cap, true) else (raw_amount, false)
   | None => (raw_amount, false)
   end.

Definition uses_aggregate_cap (mode : MultiPositionCapMode) (ownership : option (gmap Uuid Uuid)) : bool :=
  match mode, ownership with Aggregate, Some _ => true | _, _ => false end.

Definition aggregate_cap (use : bool) (cap : option (AuthoredDec D)) : option D :=
  if use then dec <$> cap else None.

Definition owner_eligible (cache : gmap Uuid bool) (owner : Uuid) : bool := default false (cache !! owner).

(** [carry_forward_cap] and the floor at zero. *)
Definition carried (cap : option (AuthoredDec D)) (new_left new_right : D) : LegVolumes D :=
  let clip (v : D) := match cap with Some c => dec_min v (dec c) | None => v end in
  mkLegs (dec_max (clip new_left) DZERO) (dec_max (clip new_right) DZERO).

(** *** Pairing *)

(** Phase 2 of [calculate_binary_pairing], one position. *)
Definition pay_pair (pairing : PairingConfig D) (multiplier : D) (use_aggregate_cap : bool)
  (ownership : option (gmap Uuid Uuid)) (cache : gmap Uuid bool) (working : gmap Uuid (LegVolumes D))
  (es : list (BinaryCommissionEarning D)) (uid : Uuid) : calc (list (BinaryCommissionEarning D)) :=
  legs ← expect (working !! uid);
  let owner := resolve_owner uid ownership in
  if negb (owner_eligible cache owner) then Ok es
  else
  let matched := dec_min (left legs) (right legs) in
  if is_zero matched then Ok es
  else
  let '(min_leg, max_leg) := if dec_leb (left legs) (right legs) then (left legs, right legs)
                             else (right legs, left legs) in
  r ← numeric match calculation pairing with
              | WeakerLeg => Ok DONE
              | VolumeRatio => if dec_ltb DZERO max_leg then div_ratio min_leg max_leg else Ok DZERO
              end;
  raw_amount ← numeric match calculation pairing with
                       | WeakerLeg => x ← try_mul matched (dec (percent pairing)); try_mul x multiplier
                       | VolumeRatio =>
                           if dec_ltb DZERO max_leg
                           then mul_div_ratio matched (dec (percent pairing)) multiplier min_leg max_leg
                           else Ok DZERO
                       end;
  let '(amount, cap) := cap_amount use_aggregate_cap (cap_per_period pairing) raw_amount in
  Ok (es ++ [mkBinaryEarning owner uid (left legs) (right legs) matched r (dec (percent pairing)) amount cap]).

(** Phase 3 of [calculate_binary_pairing], one position. *)
Definition carry_pair (pairing : PairingConfig D) (ownership : option (gmap Uuid Uuid)) (cache : gmap Uuid bool)
  (working : gmap Uuid (LegVolumes D)) (carry : gmap Uuid (LegVolumes D)) (uid : Uuid)
  : calc (gmap Uuid (LegVolumes D)) :=
  legs ← expect (working !! uid);
  let matched := dec_min (left legs) (right legs) in
  let effective_matched := if owner_eligible cache (resolve_owner uid ownership) then matched else DZERO in
  '(l, r) ← numeric match volume_after_payout pairing with
                | FullFlush => Ok (DZERO, DZERO)
                | NetOff =>
                    l ← try_sub (left legs) effective_matched;
                    r ← try_sub (right legs) effective_matched;
                    Ok (l, r)
                | CarryForward =>
                    if dec_leb (left legs) (right legs)
                    then r ← try_sub (right legs) effective_matched; Ok (DZERO, r)
                    else l ← try_sub (left legs) effective_matched; Ok (l, DZERO)
                end;
  Ok (<[uid := carried (carry_forward_cap pairing) l r]> carry).

(** *** Cycle steps *)

(** The cycles and the partial cycle of one eligible position: what it earns
    and the leg volumes left. *)
Definition run_cycles (c : CycleStepConfig D) (legs : LegVolumes D) : outcome (NumericError D) (D * (D * D)) :=
  sum_of_amounts ← sum ((λ s, dec (amount s)) <$> cs_steps c);
  highest ← expect (last (cs_steps c));
  let highest := dec (threshold highest) in
  let matched := dec_min (left legs) (right legs) in
  '(total, l, r) ← (if dec_leb highest matched then
  match volume_after_cycle c with
  | FullFlush => total ← try_add DZERO sum_of_amounts; Ok (total, DZERO, DZERO)
  | CarryForward =>
      full_cycles ← floor_div matched highest;
      paid ← try_mul full_cycles sum_of_amounts;
      total ← try_add DZERO paid;
      used ← try_mul full_cycles highest;
      l ← try_sub (left legs) used;
      r ← try_sub (right legs) used;
      Ok (total, l, r)
  | NetOff => Panic
  end
  else Ok (DZERO, left legs, right legs));
  let remaining := dec_min l r in
  first ← expect (head (cs_steps c));
  total ← (if dec_leb (dec (threshold first)) remaining
       then fold_outcome (λ total s, if dec_leb (dec (threshold s)) remaining
                                     then try_add total (dec (amount s)) else Ok total)
              total (cs_steps c)
       else Ok total);
  Ok (total, (l, r)).

(** Phase 2 of [calculate_binary_cycle_step], one position. *)
Definition pay_cycles (c : CycleStepConfig D) (use_aggregate_cap : bool)
  (ownership : option (gmap Uuid Uuid)) (cache : gmap Uuid bool) (working : gmap Uuid (LegVolumes D))
  (acc : gmap Uuid (D * D) * list (BinaryCommissionEarning D)) (uid : Uuid)
  : calc (gmap Uuid (D * D) * list (BinaryCommissionEarning D)) :=
  let '(post, es) := acc in
  legs ← expect (working !! uid);
  let owner := resolve_owner uid ownership in
  if negb (owner_eligible cache owner) then Ok (<[uid := (left legs, right legs)]> post, es)
  else
  '(total, after) ← numeric (run_cycles c legs);
  let post := <[uid := after]> post in
  if is_zero total then Ok (post, es)
  else
  let '(amount, cap) := cap_amount use_aggregate_cap (cs_cap_per_period c) total in
  Ok (post, es ++ [mkBinaryEarning owner uid (left legs) (right legs) (dec_min (left legs) (right legs))
                     DZERO DZERO amount cap]).

Definition calculate_binary_cycle_step (tree : Binary.Binary.BinaryTree) (plan : CompensationPlan D)
  (config : CycleStepConfig D) (snapshots : gmap Uuid (DistributorSnapshot D)) (volume : list (VolumeSource D))
  (prior : gmap Uuid (LegVolumes D)) (ownership : option (gmap Uuid Uuid)) : calc (BinaryCalculationResult D) :=
  c ← map_err ConfigError (validate config);
  places ← plan_minor_units plan;
  check_cap (cs_cap_per_period c) plan places;;
  check_carried_legs prior;;
  validate_snapshots plan snapshots ((λ p, resolve_owner p ownership) <$> user_ids tree);;
  volume_totals ← aggregate_volume tree snapshots volume ownership;
  let cache := evaluate_eligibility snapshots (eligibility plan) in
  working ← numeric (accumulate_leg_volumes tree volume_totals prior);
  let positions := sorted_positions working in
  let use := uses_aggregate_cap (cs_multi_position_cap_mode c) ownership in
  '(post, es) ← fold_outcome (pay_cycles c use ownership cache working) (∅, []) positions;
  es ← numeric (finalize_earnings es (aggregate_cap use (cs_cap_per_period c)) places);
  let carry := map_imap (λ uid _, let '(l, r) := default (DZERO, DZERO) (post !! uid) in
                              Some (carried (cs_carry_forward_cap c) l r)) working in
  Ok (mkBinaryResult (sort_by binary_compare es) carry).

Definition calculate_binary_pairing (tree : Binary.Binary.BinaryTree) (plan : CompensationPlan D)
  (structure : BinaryStructureConfig D) (snapshots : gmap Uuid (DistributorSnapshot D))
  (volume : list (VolumeSource D)) (prior : gmap Uuid (LegVolumes D)) (ownership : option (gmap Uuid Uuid))
  : calc (BinaryCalculationResult D) :=
  match bc_mode (binary_commission structure) with
  | CycleStepMode config => calculate_binary_cycle_step tree plan config snapshots volume prior ownership
  | Pairing pairing =>
  refuse_if (is_negative (dec (percent pairing)) || dec_ltb DONE (dec (percent pairing)))
    (PairingPercentOutOfRange (percent pairing));;
  places ← plan_minor_units plan;
  check_cap (cap_per_period pairing) plan places;;
  check_carried_legs prior;;
  validate_snapshots plan snapshots ((λ p, resolve_owner p ownership) <$> user_ids tree);;
  let multiplier := dec (default (vc_volume_to_dollar_multiplier (volume_config plan))
                           (bc_volume_to_dollar_multiplier (binary_commission structure))) in
  volume_totals ← aggregate_volume tree snapshots volume ownership;
  let cache := evaluate_eligibility snapshots (eligibility plan) in
  working ← numeric (accumulate_leg_volumes tree volume_totals prior);
  let positions := sorted_positions working in
  let use := uses_aggregate_cap (multi_position_cap_mode pairing) ownership in
  es ← fold_outcome (pay_pair pairing multiplier use ownership cache working) [] positions;
  es ← numeric (finalize_earnings es (aggregate_cap use (cap_per_period pairing)) places);
  carry ← fold_outcome (carry_pair pairing ownership cache working) ∅ positions;
  Ok (mkBinaryResult (sort_by binary_compare es) carry)
  end.
End defs.
