(* ===== verification/BinaryLegs.v ===== *)
(** * Leg volumes: the bottom-up pass of [commission/binary.rs]

    [accumulate_leg_volumes] visits the nodes deepest first and adds each node's
    volume to the totals of its children. This file proves that the pass computes
    what the tree queries say: the volume of a leg is the volume of every member
    of that branch, plus what the position carried in. *)

From stdpp Require Import base numbers list gmap sorting strings.
From Stdlib Require Import ZArith Lia.
From S2P Require Import Prelude RustDecimal Dec Allocate Ratio TreeTypes Arena ArenaWf ArenaOps ArenaWalk SlotMap Binary Navigator CommissionTypes Walk Currency BinaryCommission.
#[local] Open Scope Z_scope.

(** ** Sums over a subtree *)

Lemma sumZ_perm l k : l ≡ₚ k → sumZ l = sumZ k.
Proof. induction 1; cbn; unfold sumZ in *; lia. Qed.

Lemma sumZ_concat (ls : list (list Z)) : sumZ (concat ls) = sumZ (sumZ <$> ls).
Proof. induction ls as [|l ls IH]; [done|]. cbn [concat]. rewrite sumZ_app, IH. done. Qed.

Lemma total_units_sum {D} `{!DecimalOps D} (l : list D) : total_units l = sumZ (units <$> l).
Proof.
  induction l as [|d l IH]; [done|]. change (units d + total_units l = units d + sumZ (units <$> l)). by rewrite IH.
Qed.

Section subtree.
Context (a : Arena) (Hwf : arena_wf a).

(** The nodes of the subtree at [i], each once. *)
Definition subtree (i : NodeIndex) (l : list NodeIndex) : Prop :=
  NoDup l ∧ ∀ j, j ∈ l ↔ j = i ∨ below a i j.

Lemma subtree_exists i n : nodes a !! i = Some n → ∃ l, subtree i l.
Proof using Hwf. intros Hi. destruct (branch_spec (E := TreeError) a Hwf i n Hi) as (l & _ & _ & ? & ? & _). by exists l. Qed.

Lemma subtree_perm i l k : subtree i l → subtree i k → l ≡ₚ k.
Proof. intros [H1 H2] [H3 H4]. apply NoDup_Permutation; [done..|]. intros j. by rewrite H2, H4. Qed.

(** Induction on the depth of a node strictly below another. *)
Lemma below_ind_depth i (P : NodeIndex → Prop) :
  (∀ j p n, nodes a !! j = Some n → parent n = Some p → (p = i ∨ (below a i p ∧ P p)) → P j) →
  ∀ j, below a i j → P j.
Proof using Hwf.
  intros Hstep j Hj. destruct (below_live a Hwf i j Hj) as (n & Hn & _).
  remember (depth n) as d eqn:Hd. revert j n Hj Hn Hd. induction (N.lt_wf_0 d) as [d _ IH].
  intros j n Hj Hn ->. destruct (below_inv a Hwf i j Hj) as (n' & p & np & Hn' & Hp & Hnp & _ & Hdep & Hor).
  assert (n' = n) as -> by congruence. eapply Hstep; [done..|]. destruct Hor as [->|Hb]; [by left|right].
  split; [done|]. eapply (IH (depth np)); [lia|done..].
Qed.

Lemma below_trans i c j : below a i c → below a c j → below a i j.
Proof using Hwf.
  intros Hic. revert j. apply below_ind_depth. intros j p n Hj Hp Hor.
  destruct (wf_parent_live a Hwf j n p Hj Hp) as (np & Hnp & Hin & _).
  eapply below_step; [done| |done|done]. by destruct Hor as [->|[_ ?]].
Qed.

(** Below a node means in the subtree of one of its children. *)
Lemma below_through i n j : nodes a !! i = Some n →
  below a i j ↔ ∃ c, c ∈ children n ∧ (j = c ∨ below a c j).
Proof using Hwf.
  intros Hi. split.
  - revert j. apply below_ind_depth. intros j p nj Hj Hp Hor.
    destruct (wf_parent_live a Hwf j nj p Hj Hp) as (np & Hnp & Hin & _). destruct Hor as [->|[_ (c & Hc & Hor)]].
    + exists j. assert (np = n) as -> by congruence. auto.
    + exists c. split; [done|]. right. destruct Hor as [->|Hb]; [by eapply below_child|by eapply below_step].
  - intros (c & Hc & [->|Hb]); [by eapply below_child|]. eapply below_trans; [by eapply below_child|done].
Qed.

(** A node has one ancestor-or-self at each depth. *)
Lemma ancestor_unique c1 n1 c2 n2 j : nodes a !! c1 = Some n1 → nodes a !! c2 = Some n2 → depth n1 = depth n2 →
  (j = c1 ∨ below a c1 j) → (j = c2 ∨ below a c2 j) → c1 = c2.
Proof using Hwf.
  intros H1 H2 Hd [->|Hb] Hor.
  - destruct Hor as [?|Hb2]; [done|]. pose proof (below_depth a Hwf c2 n2 c1 n1 H2 Hb2 H1). lia.
  - revert j Hb Hor. refine (below_ind_depth c1 _ _). intros j p n Hj Hp Hor1 [->|Hb2].
    + destruct (wf_parent_live a Hwf c2 n p Hj Hp) as (np & Hnp & Hin & _).
      assert (n = n2) as -> by congruence. assert (Hb1 : below a c1 c2).
      { destruct Hor1 as [->|[? _]]; [by eapply below_child|by eapply below_step]. }
      pose proof (below_depth a Hwf c1 n1 c2 n2 H1 Hb1 H2). lia.
    + destruct (below_inv a Hwf c2 j Hb2) as (n' & p' & np & Hn' & Hp' & Hnp & _ & _ & Hor2).
      assert (n' = n) as -> by congruence. assert (p' = p) as -> by congruence.
      destruct Hor1 as [->|[_ IH]]; [|by apply IH].
      destruct Hor2 as [?|Hb']; [done|]. pose proof (below_depth a Hwf c2 n2 c1 n1 H2 Hb' H1). lia.
Qed.

(** The subtree of a node is the node and the subtrees of its children. *)
Lemma subtree_children i n ls : nodes a !! i = Some n → Forall2 subtree (children n) ls → subtree i (i :: concat ls).
Proof using Hwf.
  intros Hi Hls.
  assert (Hmem : ∀ j, j ∈ concat ls ↔ below a i j).
  { intros j. rewrite (below_through i n j Hi), elem_of_concat. split.
    - intros (l & (k & Hk)%list_elem_of_lookup & Hj).
      destruct (Forall2_lookup_r _ _ _ _ _ Hls Hk) as (c & Hc & _ & Hs). exists c.
      split; [by eapply list_elem_of_lookup_2|by apply Hs].
    - intros (c & (k & Hk)%list_elem_of_lookup & Hj).
      destruct (Forall2_lookup_l _ _ _ _ _ Hls Hk) as (l & Hl & _ & Hs). exists l.
      split; [by eapply list_elem_of_lookup_2|by apply Hs]. }
  split; [|intros j; rewrite elem_of_cons, Hmem; done].
  apply NoDup_cons. split.
  { rewrite Hmem. intros Hb. pose proof (below_depth a Hwf i n i n Hi Hb Hi). lia. }
  pose proof (wf_children_nodup a Hwf i n Hi) as Hnd.
  assert (Hch : ∀ c, c ∈ children n → ∃ nc, nodes a !! c = Some nc ∧ depth nc = (depth n + 1)%N).
  { intros c Hc. destruct (wf_child_live a Hwf i n c Hi Hc) as (nc & Hnc & Hp & _). exists nc. split; [done|].
    by destruct (wf_depth a Hwf c nc i n Hnc Hp Hi). }
  clear Hmem Hi. induction Hls as [|c l cs ls Hc Hls IH]; [constructor|].
  apply NoDup_cons in Hnd as [Hcs Hnd]. cbn [concat]. apply NoDup_app. destruct Hc as [Hl Hlm]. split_and!; [done| |].
  - intros j Hj%Hlm (l' & (k & Hk)%list_elem_of_lookup & Hj')%elem_of_concat.
    destruct (Forall2_lookup_r _ _ _ _ _ Hls Hk) as (c' & Hc' & _ & Hs). apply Hs in Hj'.
    apply list_elem_of_lookup_2 in Hc'.
    destruct (Hch c) as (nc & Hnc & Hdc); [left|]. destruct (Hch c') as (nc' & Hnc' & Hdc'); [by right|].
    assert (c = c') as -> by (eapply ancestor_unique; [exact Hnc|exact Hnc'|lia|exact Hj|exact Hj']). done.
  - apply IH; [done|]. intros c' Hc'. apply Hch. by right.
Qed.
End subtree.

(** ** The two passes *)
Section legs.
Context {D : Type} `{!DecimalOps D, !DecimalLaws D}.
Context (tree : Binary.Binary.BinaryTree) (Hb : Binary.Binary.binary_wf tree).
Context (volume_totals : gmap Uuid D) (prior : gmap Uuid (LegVolumes D)).
Abbreviation a := (Binary.Binary.arena tree).

(** The volume a member brings, and that of a list of members. *)
Definition personal (u : Uuid) : Z := units (default DZERO (volume_totals !! u)).
Definition members_volume (us : list Uuid) : Z := sumZ (personal <$> us).
Definition slot_user (i : NodeIndex) : Uuid := from_option user_id nil_uuid (nodes a !! i).

(** The volume of some distinct members, or of a branch with what its leg
    carried in, is held by no decimal. *)
Definition members_refused (ne : NumericError D) : Prop :=
  ∃ us, NoDup us ∧ (∀ u, u ∈ us → contains tree u = true) ∧ refused OpAdd (members_volume us) 28 ne.
Definition leg_refused (ne : NumericError D) : Prop :=
  ∃ u k b carried, contains tree u = true ∧ Binary.Binary.get_branch tree u k = Ok b ∧ NoDup (user_id <$> b) ∧
  (k = 0%nat ∧ carried = from_option left DZERO (prior !! u) ∨ k = 1%nat ∧ carried = from_option right DZERO (prior !! u)) ∧
  refused OpAdd (members_volume (user_id <$> b) + units carried) 28 ne.

(** The visiting order: every member once, deepest first. *)
Definition order_entry (e : NodeIndex * Uuid * N) : Prop :=
  index a !! e.1.2 = Some e.1.1 ∧ ∃ n, nodes a !! e.1.1 = Some n ∧ user_id n = e.1.2 ∧ e.2 = depth n.

Lemma by_depth_comparator : Comparator by_depth.
Proof.
  unfold by_depth. apply then_with_comparator.
  - split; intros [??] [??]; intros; cbn in *; [apply N.compare_antisym| |].
  + destruct z as [??]. cbn in *. rewrite N.compare_lt_iff in *. lia.
  + destruct z as [??]. cbn in *. by apply N.compare_eq in H as ->.
  - apply (on_key_comparator (λ e : NodeIndex * Uuid * N, e.1.2)), N_comparator.
Qed.

Lemma nodes_by_depth_spec : ∃ order, nodes_by_depth (D := D) a = Ok order ∧
  Forall order_entry order ∧ (∀ u i, index a !! u = Some i → ∃ d, (i, u, d) ∈ order) ∧
  NoDup (snd ∘ fst <$> order) ∧ StronglySorted (λ x y, (y.2 ≤ x.2)%N) order.
Proof using Hb.
  pose proof (Binary.Binary.bw_arena _ Hb) as Hwf. unfold nodes_by_depth.
  destruct (map_outcome_total (E := NumericError D) (λ (e : Uuid * NodeIndex) y, order_entry y ∧ y.1 = (e.2, e.1))
    (λ e : Uuid * NodeIndex, let '(uid, idx) := e in n ← node a idx; Ok (idx, uid, depth n)) (map_to_list (index a)))
    as (l & Hl & Hall).
  { intros [u i] Hi%elem_of_map_to_list. destruct (resolve_live a Hwf u i Hi) as (n & Hn & Hu & Hnil).
    rewrite (node_ok a i n Hn ltac:(congruence)). eexists. split; [done|]. split; [|done]. split; [done|].
    by exists n. }
  rewrite Hl. exists (sort_by by_depth l). cbn [mbind outcome_bind]. split; [done|].
  split_and!.
  - apply Forall_forall. intros y Hy. rewrite sort_by_perm in Hy. apply list_elem_of_lookup in Hy as [k Hk].
    destruct (Forall2_lookup_r _ _ _ _ _ Hall Hk) as (e & _ & ? & _). done.
  - intros u i Hi%elem_of_map_to_list. apply list_elem_of_lookup in Hi as [k Hk].
    destruct (Forall2_lookup_l _ _ _ _ _ Hall Hk) as ([[i' u'] d] & Hy & _ & Heq). cbn in Heq. simplify_eq.
    exists d. rewrite sort_by_perm. by eapply list_elem_of_lookup_2.
  - rewrite sort_by_perm. replace (snd ∘ fst <$> l) with (map_to_list (index a)).*1; [apply NoDup_fst_map_to_list|].
    clear Hl. induction Hall as [|e y es l [_ Hy] _ IH]; [done|]. rewrite !fmap_cons, IH. f_equal. cbn. by rewrite Hy.
  - pose proof by_depth_comparator. pose proof (sort_sorted by_depth l) as Hs. clear -Hs.
    induction Hs as [|x k Hk IH Hx]; constructor; [done|]. eapply Forall_impl; [exact Hx|]. intros y Hy.
    unfold cmp_leb, by_depth, then_with in Hy. destruct (N.compare_spec y.2 x.2); [lia|lia|done].
Qed.

(** *** Subtree totals *)
Definition slots_volume (l : list NodeIndex) : Z := members_volume (slot_user <$> l).

Definition totalled (pre : list (NodeIndex * Uuid * N)) (totals : gmap NodeIndex D) : Prop :=
  ∀ e, e ∈ pre → ∃ t, totals !! e.1.1 = Some t ∧ ∀ l, subtree a e.1.1 l → units t = slots_volume l.

Lemma slots_volume_perm l k : l ≡ₚ k → slots_volume l = slots_volume k.
Proof. intros H. unfold slots_volume, members_volume. apply sumZ_perm. by rewrite H. Qed.

Lemma slots_volume_app l k : slots_volume (l ++ k) = slots_volume l + slots_volume k.
Proof. unfold slots_volume, members_volume. by rewrite !fmap_app, sumZ_app. Qed.

Lemma child_totals (totals : gmap NodeIndex D) cs ls : Forall2 (subtree a) cs ls →
  (∀ c, c ∈ cs → ∃ t, totals !! c = Some t ∧ ∀ l, subtree a c l → units t = slots_volume l) →
  total_units ((λ c, default DZERO (totals !! c)) <$> cs) = slots_volume (concat ls).
Proof.
  induction 1 as [|c l cs ls Hc _ IH]; intros Ht; [done|]. rewrite fmap_cons. cbn [total_units foldr concat].
  fold (total_units ((λ c, default DZERO (totals !! c)) <$> cs)).
  destruct (Ht c) as (t & -> & Hu); [left|]. rewrite slots_volume_app, <- (Hu l Hc), IH; [done|].
  intros c' Hc'. apply Ht. by right.
Qed.

Lemma at_slots_users_fmap l : (∀ j, j ∈ l → is_Some (nodes a !! j)) → user_id <$> at_slots a l = slot_user <$> l.
Proof.
  induction l as [|j l IH]; intros Hl; [done|]. destruct (Hl j) as [n Hn]; [left|].
  rewrite (at_slots_cons a j n l Hn), !fmap_cons, IH by (intros k Hk; apply Hl; by right).
  f_equal. unfold slot_user. by rewrite Hn.
Qed.

(** Part of a subtree whose exact volume is refused. *)
Lemma slots_refused i n l part ne : nodes a !! i = Some n → user_id n ≠ nil_uuid → subtree a i l → sublist part l →
  refused OpAdd (slots_volume part) 28 ne → members_refused ne.
Proof using Hb.
  intros Hn Hl [Hnd Hmem] Hsub Href. pose proof (Binary.Binary.bw_arena _ Hb) as Hwf.
  assert (Hlive : ∀ j, j ∈ part → ∃ n, nodes a !! j = Some n ∧ user_id n ≠ nil_uuid).
  { intros j Hj. eapply elem_of_sublist, Hmem in Hj as [->|Hj]; [eauto|by eapply below_live|exact Hsub]. }
  assert (Hpart : NoDup part) by (by eapply sublist_NoDup).
  exists (slot_user <$> part). split_and!; [|intros u (j & -> & Hj)%list_elem_of_fmap|exact Href].
  - rewrite <- at_slots_users_fmap; [by apply at_slots_users|]. intros j (nj & ? & _)%Hlive. eauto.
  - destruct (Hlive j Hj) as (nj & Hnj & Hlj). unfold slot_user. rewrite Hnj. cbn.
    change (contains tree (user_id nj)) with (Query.contains a (user_id nj)). apply contains_spec. exists j. by apply live_indexed.
Qed.

Lemma add_subtree_spec order pre e post totals : Forall order_entry order →
  (∀ u i, index a !! u = Some i → ∃ d, (i, u, d) ∈ order) → StronglySorted (λ x y, (y.2 ≤ x.2)%N) order →
  NoDup (snd ∘ fst <$> order) → order = pre ++ e :: post → totalled pre totals →
  returns (totalled (pre ++ [e])) members_refused (add_subtree a volume_totals totals e).
Proof using Hb DecimalLaws0.
  intros Hall Hcov Hsort Hnd -> Hpre. pose proof (Binary.Binary.bw_arena _ Hb) as Hwf. destruct e as [[i u] d].
  rewrite Forall_app, Forall_cons in Hall. destruct Hall as (Hall & [Hi (n & Hn & Hu & Hd)] & Hpost). cbn in Hi, Hn, Hu, Hd.
  destruct (resolve_live a Hwf u i Hi) as (_ & _ & _ & Hnil).
  assert (Hch : ∀ c, c ∈ children n → ∃ t, totals !! c = Some t ∧ ∀ l, subtree a c l → units t = slots_volume l).
  { intros c Hc. destruct (wf_child_live a Hwf i n c Hn Hc) as (nc & Hnc & Hp & Hcl).
    destruct (wf_depth a Hwf c nc i n Hnc Hp Hn) as [Hdc _].
    destruct (Hcov (user_id nc) c) as (dc & Hin); [by apply live_indexed|].
    apply elem_of_app in Hin as [Hin|Hin]; [exact (Hpre _ Hin)|]. exfalso.
    assert (dc = depth nc) as ->.
    { apply elem_of_cons in Hin as [Heq|Hin]; [simplify_eq; congruence|].
      destruct (proj1 (Forall_forall _ _) Hpost _ Hin) as [_ (nc' & Hnc' & _ & Hdc')]. cbn in *. congruence. }
    apply StronglySorted_app in Hsort as (_ & _ & Hs).
    apply elem_of_cons in Hin as [Heq|Hin]; [simplify_eq; lia|].
    apply StronglySorted_inv in Hs as [_ Hle]. pose proof (proj1 (Forall_forall _ _) Hle _ Hin) as Hx. cbn in Hx. lia. }
  assert (∃ ls, Forall2 (subtree a) (children n) ls) as [ls Hls].
  { assert (Hex : ∀ c, c ∈ children n → ∃ l, subtree a c l).
    { intros c Hc. destruct (wf_child_live a Hwf i n c Hn Hc) as (nc & Hnc & _). by eapply subtree_exists. }
    clear -Hex. induction (children n) as [|c cs IH]; [by exists []|].
    destruct (Hex c) as [l Hl]; [left|]. destruct IH as [ls Hls]; [intros c' Hc'; apply Hex; by right|].
    exists (l :: ls). by constructor. }
  pose proof (subtree_children a Hwf i n ls Hn Hls) as Hsub.
  assert (Hroot : personal u + slots_volume (concat ls) = slots_volume (i :: concat ls)).
  { change (i :: concat ls) with ([i] ++ concat ls). rewrite slots_volume_app. f_equal.
    unfold slots_volume, members_volume, slot_user. cbn. rewrite Hn. cbn. rewrite Hu. lia. }
  unfold add_subtree. rewrite (node_ok a i n Hn ltac:(congruence)). cbn [mbind outcome_bind].
  eapply returns_bind; [eapply returns_weaken; [apply refuses_sum|intros t Ht; exact Ht|]|]. intros ne (pre' & post' & Heq & _ & Href).
  { apply fmap_app_inv in Heq as (cs & cs' & -> & _ & Hcs). rewrite Hcs in Hls, Hch. apply Forall2_app_inv_l in Hls as (lp & lq & Hp & _ & ->).
    apply (slots_refused i n (i :: concat (lp ++ lq)) (concat lp) ne Hn ltac:(congruence) Hsub).
    - rewrite concat_app. apply sublist_cons. by apply sublist_inserts_r.
    - rewrite <- (child_totals totals cs lp Hp); [exact Href|]. intros c Hc. apply Hch. apply elem_of_app. by left. }
  intros child_sum Hsum. cbn beta in Hsum. rewrite (child_totals totals _ ls Hls Hch) in Hsum.
  eapply returns_bind; [eapply returns_weaken; [apply refuses_add|intros t Ht; exact Ht|]|]. intros ne Href.
  { apply (slots_refused i n (i :: concat ls) (i :: concat ls) ne Hn ltac:(congruence) Hsub); [done|].
    rewrite <- Hroot, <- Hsum. exact Href. }
  intros total Htot. cbn [returns].
  intros e He'. apply elem_of_app in He' as [He | ->%list_elem_of_singleton].
  - destruct (Hpre e He) as (t & Ht & Hl). exists t. split; [|done]. cbn. rewrite lookup_insert_ne; [done|].
    intros Heq. destruct (proj1 (Forall_forall _ _) Hall e He) as [Hei (ne & Hne & Hue & _)].
    rewrite <- Heq in Hne, Hei. assert (ne = n) as -> by congruence. rewrite fmap_app, fmap_cons in Hnd.
    apply NoDup_app in Hnd as (_ & Hdis & _). apply (Hdis u); [|left].
    apply list_elem_of_fmap. exists e. cbn. split; [congruence|done].
  - exists total. split; [apply lookup_insert_eq|]. cbn. intros l Hl.
    rewrite (slots_volume_perm _ _ (subtree_perm a i _ _ Hl Hsub)), <- Hroot. cbn beta in Htot. rewrite Htot, Hsum. done.
Qed.

(** *** Leg volumes *)

(** A leg is worth the volume of the members of its branch plus what it carried in. *)
Definition leg_exact (u : Uuid) (legs : LegVolumes D) : Prop := ∃ bl br,
  Binary.Binary.get_branch tree u 0 = Ok bl ∧ Binary.Binary.get_branch tree u 1 = Ok br ∧
  NoDup (user_id <$> bl) ∧ NoDup (user_id <$> br) ∧
  units (left legs) = members_volume (user_id <$> bl) + units (from_option left DZERO (prior !! u)) ∧
  units (right legs) = members_volume (user_id <$> br) + units (from_option right DZERO (prior !! u)).

Definition legs_done (pre : list (NodeIndex * Uuid * N)) (legs : gmap Uuid (LegVolumes D)) : Prop :=
  (∀ u, is_Some (legs !! u) ↔ u ∈ snd ∘ fst <$> pre) ∧ ∀ u l, legs !! u = Some l → leg_exact u l.

(** The total found for a slot is the volume of the branch the query returns. *)
Lemma slot_total order totals u i s k o : Forall order_entry order →
  (∀ u i, index a !! u = Some i → ∃ d, (i, u, d) ∈ order) → totalled order totals →
  index a !! u = Some i → Binary.Binary.slots tree !! i = Some s → Binary.Binary.side s k = Some o →
  ∃ b, Binary.Binary.get_branch tree u k = Ok b ∧ NoDup (user_id <$> b) ∧
  units (default DZERO (c ← o; totals !! c)) = members_volume (user_id <$> b).
Proof using Hb DecimalLaws0.
  intros Hall Hcov Ht Hi Hs Hside. pose proof (Binary.Binary.bw_arena _ Hb) as Hwf.
  pose proof (binary_branch_spec tree u i s k Hb Hi Hs) as Hbr. rewrite Hside in Hbr. destruct o as [c|].
  - destruct Hbr as (l & Hget & _ & Hnd & Hmem). eexists. split; [exact Hget|].
    assert (Hc : ∃ nc, nodes a !! c = Some nc ∧ user_id nc ≠ nil_uuid).
    { destruct (sm_entry _ _ _ (Binary.Binary.bw_slots _ Hb) i s Hs) as (n & Hn & _ & Hch).
      destruct (wf_child_live a Hwf i n c Hn) as (nc & Hnc & _ & Hl); [|by exists nc].
      rewrite Hch. apply elem_of_flatten. by eapply list_elem_of_lookup_2. }
    destruct Hc as (nc & Hnc & Hcl). destruct (Hcov (user_id nc) c) as (d & Hin); [by apply live_indexed|].
    destruct (Ht _ Hin) as (t & Htt & Hsub). cbn in Htt, Hsub. cbn. rewrite Htt. cbn.
    assert (Hlive : ∀ j, j ∈ c :: l → ∃ n, nodes a !! j = Some n ∧ user_id n ≠ nil_uuid).
    { intros j [->|Hj%Hmem]%elem_of_cons; [eauto|by eapply below_live]. }
    split; [by apply at_slots_users|]. rewrite at_slots_users_fmap.
    + apply (Hsub (c :: l)). split; [done|]. intros j. by rewrite elem_of_cons, Hmem.
    + intros j (n & ? & _)%Hlive. eauto.
  - destruct Hbr as [Hget _]. exists []. split_and!; [done|constructor|]. cbn. apply zero_units.
Qed.

Lemma add_legs_spec order totals pre e post legs : Forall order_entry order →
  (∀ u i, index a !! u = Some i → ∃ d, (i, u, d) ∈ order) → totalled order totals →
  order = pre ++ e :: post → legs_done pre legs →
  returns (legs_done (pre ++ [e])) leg_refused (add_legs (Binary.Binary.slots tree) totals prior legs e).
Proof using Hb DecimalLaws0.
  intros Hall Hcov Ht Hord [Hdom Hex]. pose proof (Binary.Binary.bw_arena _ Hb) as Hwf. destruct e as [[i u] d].
  assert (He : order_entry (i, u, d)).
  { apply (proj1 (Forall_forall _ _) Hall). rewrite Hord. apply elem_of_app. right. left. }
  destruct He as [Hi (n & Hn & Hu & _)]. cbn in Hi, Hn, Hu.
  destruct (resolve_live a Hwf u i Hi) as (_ & _ & _ & Hnil).
  destruct (sm_live _ _ _ (Binary.Binary.bw_slots _ Hb) i n Hn ltac:(congruence)) as [s Hs].
  unfold add_legs. rewrite Hs. cbn [default from_option].
  destruct (slot_total order totals u i s 0 s.1 Hall Hcov Ht Hi Hs eq_refl) as (bl & Hbl & Hndl & Hl).
  destruct (slot_total order totals u i s 1 s.2 Hall Hcov Ht Hi Hs eq_refl) as (br & Hbr & Hndr & Hr).
  assert (Hmem : contains tree u = true).
  { change (contains tree u) with (Query.contains a u). apply contains_spec. eauto. }
  eapply returns_bind; [eapply returns_weaken; [apply refuses_add|intros t H; exact H|]|].
  { intros ne Href. exists u, 0%nat, bl, (from_option left DZERO (prior !! u)). split_and!; [done..|by left|rewrite <- Hl; exact Href]. }
  intros l Hll. eapply returns_bind; [eapply returns_weaken; [apply refuses_add|intros t H; exact H|]|].
  { intros ne Href. exists u, 1%nat, br, (from_option right DZERO (prior !! u)). split_and!; [done..|by right|rewrite <- Hr; exact Href]. }
  intros r Hrr. cbn [returns]. split.
  - intros v. rewrite fmap_app, elem_of_app, <- Hdom. cbn [fmap list_fmap compose fst snd].
    rewrite list_elem_of_singleton, lookup_insert_is_Some'. split; intros [?|?]; auto.
  - intros v lv. rewrite lookup_insert_Some. intros [[<- <-]|[_ Hv]]; [|by apply Hex].
    exists bl, br. split_and!; [done..| |]; cbn [left right]; [rewrite Hll, <- Hl|rewrite Hrr, <- Hr]; done.
Qed.

Lemma accumulate_spec : returns (λ legs, (∀ u, is_Some (legs !! u) ↔ contains tree u = true) ∧
  ∀ u l, legs !! u = Some l → leg_exact u l) (λ ne, members_refused ne ∨ leg_refused ne) (accumulate_leg_volumes tree volume_totals prior).
Proof using Hb DecimalLaws0.
  destruct nodes_by_depth_spec as (order & Hord & Hall & Hcov & Hnd & Hsort). unfold accumulate_leg_volumes.
  rewrite Hord. cbn [mbind outcome_bind].
  eapply returns_bind.
  { apply (returns_fold _ totalled); [intros e He; by apply elem_of_nil in He|].
    intros pre e post totals Heq Hpre. eapply returns_weaken; [by eapply add_subtree_spec|intros x H; exact H|by left]. }
  intros totals Ht. eapply returns_weaken; [| |intros ne Hne; right; exact Hne].
  { apply (returns_fold _ legs_done (add_legs _ totals prior) order).
    - split; [|by intros u l ?%lookup_empty_Some]. intros u. rewrite elem_of_nil, lookup_empty. split; [by intros []|done].
    - intros pre e post legs Heq Hpre. by eapply add_legs_spec. }
  intros legs [Hdom Hex]. split; [|done]. intros u. rewrite Hdom.
  change (contains tree u) with (Query.contains a u). rewrite contains_spec, list_elem_of_fmap. split.
  - intros ([[i v] d] & -> & He). exists i. by destruct (proj1 (Forall_forall _ _) Hall _ He).
  - intros [i Hi]. destruct (Hcov u i Hi) as (d & Hin). by exists (i, u, d).
Qed.
End legs.
