(* ===== verification/BinaryCalc.v ===== *)
(** * Volumes and settlement of the binary calculator: [commission/binary.rs]

    The volume placed at each position, the grouping of earnings by owner, and how
    caps are settled: what each group may receive and how a cut is shared. *)

From stdpp Require Import base numbers list gmap sorting strings.
From Stdlib Require Import ZArith Lia.
From S2P Require Import Prelude RustDecimal Dec Allocate Ratio TreeTypes Arena ArenaWf ArenaOps ArenaWalk SlotMap Binary Navigator CommissionTypes Walk WalkPrepare Currency BinaryCommission BinaryLegs.
#[local] Open Scope Z_scope.

(** ** Volume per position *)
Section volume.
Context {D : Type} `{!DecimalOps D, !DecimalLaws D}.

(** The volume of the sources placed at one of [us]. *)
Definition placed_volume (volume : list (VolumeSource D)) (us : list Uuid) : Z :=
  total_units ((λ s, dec (vs_cv_amount s)) <$> filter (λ s, vs_source_id s ∈ us) volume).

Lemma placed_volume_snoc volume src us :
  placed_volume (volume ++ [src]) us =
  placed_volume volume us + (if decide (vs_source_id src ∈ us) then units (dec (vs_cv_amount src)) else 0).
Proof.
  unfold placed_volume. rewrite filter_app, fmap_app, total_units_app. f_equal. rewrite filter_cons, filter_nil.
  case_decide; cbn; lia.
Qed.

(** Splitting the volume by position. *)
Lemma placed_volume_split volume u us : u ∉ us →
  placed_volume volume (u :: us) = placed_volume volume [u] + placed_volume volume us.
Proof.
  intros Hu. induction volume as [|src volume IH] using rev_ind; [done|]. rewrite !placed_volume_snoc, IH.
  destruct (decide (vs_source_id src ∈ u :: us)) as [Hin|Hin]; rewrite elem_of_cons in Hin.
  - destruct (decide (vs_source_id src = u)) as [Heq|Hne].
  + rewrite decide_True by (by apply list_elem_of_singleton). rewrite decide_False by congruence. lia.
  + rewrite decide_False by (by rewrite list_elem_of_singleton). rewrite decide_True by tauto. lia.
  - rewrite !decide_False by (rewrite ?list_elem_of_singleton; tauto). lia.
Qed.

Lemma members_placed totals volume us : NoDup us →
  (∀ u, personal totals u = placed_volume volume [u]) → members_volume totals us = placed_volume volume us.
Proof.
  intros Hnd Hp. induction Hnd as [|u us Hu _ IH].
  - unfold placed_volume. rewrite filter_all_false; [done|]. intros x _. apply not_elem_of_nil.
  - rewrite placed_volume_split by done. change (members_volume totals (u :: us)) with (personal totals u + members_volume totals us).
    by rewrite Hp, IH.
Qed.

Context (tree : Binary.Binary.BinaryTree) (snapshots : gmap Uuid (DistributorSnapshot D)).
Context (ownership : option (gmap Uuid Uuid)).

Definition good_position (src : VolumeSource D) : Prop :=
  0 ≤ units (dec (vs_cv_amount src)) ∧ contains tree (vs_source_id src) = true ∧
  is_Some (snapshots !! resolve_owner (vs_source_id src) ownership).

(** The volume of one position over the first sources is held by no decimal. *)
Definition sources_refused (volume : list (VolumeSource D)) (ne : NumericError D) : Prop :=
  ∃ pre src post, volume = pre ++ src :: post ∧ Forall good_position pre ∧ good_position src ∧
  refused OpAdd (placed_volume (pre ++ [src]) [vs_source_id src]) 28 ne.

(** What a refusal of a volume source says. *)
Definition volume_fault (volume : list (VolumeSource D)) (e : CalculationError D) : Prop :=
  match e with
  | InvalidCvAmount u a => ∃ src, src ∈ volume ∧ vs_source_id src = u ∧ vs_cv_amount src = a ∧ units (dec a) < 0
  | SourceNotInTree u => ∃ src, src ∈ volume ∧ vs_source_id src = u ∧ contains tree u = false
  | SourceNotInSnapshot o => ∃ src, src ∈ volume ∧ contains tree (vs_source_id src) = true ∧
  resolve_owner (vs_source_id src) ownership = o ∧ snapshots !! o = None
  | Numeric ne => sources_refused volume ne
  | _ => False
  end.

Lemma aggregate_spec volume :
  returns (λ totals, Forall good_position volume ∧ ∀ u, personal totals u = placed_volume volume [u])
  (volume_fault volume) (aggregate_volume tree snapshots volume ownership).
Proof using DecimalLaws0.
  unfold aggregate_volume.
  apply (returns_fold _ (λ pre totals, Forall good_position pre ∧ ∀ u, personal totals u = placed_volume pre [u])).
  { split; [constructor|]. intros u. unfold personal. rewrite lookup_empty. apply zero_units. }
  intros pre src post totals Hvol [Hgood Hper].
  assert (Hin : src ∈ volume) by (rewrite Hvol; apply elem_of_app; right; left). unfold add_source.
  apply returns_guard.
  { intros Hneg. rewrite is_negative_units in Hneg. exists src. split_and!; [done..|]. by apply Z.ltb_lt. }
  intros Hnn. rewrite is_negative_units, Z.ltb_ge in Hnn. apply returns_guard.
  { intros Hc%negb_true_iff. by exists src. }
  intros Hc%negb_false_iff. apply returns_guard.
  { intros Hs%bool_decide_eq_true. by exists src. }
  intros Hs%bool_decide_eq_false.
  assert (Hsrc : good_position src) by (split_and!; [done..|by apply not_eq_None_Some]). eapply returns_bind.
  { unfold numeric. eapply returns_map_err; [apply refuses_add|]. intros ne Hne. exists pre, src, post. split_and!; [done..|].
    rewrite placed_volume_snoc, decide_True by (by apply list_elem_of_singleton). rewrite <- Hper. exact Hne. }
  intros total Htot. split.
  - apply Forall_app. split; [done|]. by apply Forall_singleton.
  - intros u. rewrite placed_volume_snoc. rewrite <- Hper. unfold personal. destruct (decide (vs_source_id src = u)) as [<-|Hne].
  + rewrite decide_True by (by apply list_elem_of_singleton). rewrite lookup_insert_eq. cbn [default from_option]. exact Htot.
  + rewrite decide_False by (rewrite list_elem_of_singleton; congruence). rewrite lookup_insert_ne by done. lia.
Qed.
End volume.

(** ** Groups of neighbours *)
Section chunks.
Context {D : Type}.
Abbreviation earning := (BinaryCommissionEarning D).

Lemma chunk_by_concat {A} (same : A → A → bool) l : concat (chunk_by same l) = l.
Proof.
  induction l as [|x l IH]; [done|]. cbn [chunk_by]. destruct (chunk_by same l) as [|[|y g] gs]; cbn in *;
  [by subst|by rewrite <- IH|]. destruct (same x y); cbn; by rewrite <- IH.
Qed.

(** Non-empty groups of one owner each, no owner in two groups. *)
Record grouped (gs : list (list earning)) : Prop := {
  gr_owner g : g ∈ gs → ∃ o, g ≠ [] ∧ Forall (λ e, be_earner_id e = o) g;
  gr_apart : StronglySorted (λ g g', ∀ x y, x ∈ g → y ∈ g' → be_earner_id x ≠ be_earner_id y) gs;
}.

Lemma chunk_grouped (l : list earning) : StronglySorted (λ x y, (be_earner_id x ≤ be_earner_id y)%N) l →
  grouped (chunk_by same_owner l).
Proof.
  induction 1 as [|x l Hl IH Hx]; [split; [by intros g ?%elem_of_nil|constructor]|].
  assert (Hsingle : ∀ gs, grouped gs → (∀ y, y ∈ concat gs → be_earner_id x ≠ be_earner_id y) → grouped ([x] :: gs)).
  { intros gs [H1 H2] Hne. split.
    - intros g [->|Hg]%elem_of_cons; [exists (be_earner_id x); split; [done|by repeat constructor]|by apply H1].
    - constructor; [done|]. apply Forall_forall. intros g Hg u v ->%list_elem_of_singleton Hv. apply Hne.
      apply elem_of_concat. eauto. }
  cbn [chunk_by]. pose proof (chunk_by_concat same_owner l) as Hcat. rewrite Forall_forall in Hx.
  destruct (chunk_by same_owner l) as [|[|y g] gs]; cbn in Hcat.
  - apply Hsingle; [done|]. intros y Hy. by apply elem_of_nil in Hy.
  - destruct IH as [H1 _]. destruct (H1 []) as (_ & Hnil & _); [left|done].
  - unfold same_owner. destruct (N.eqb_spec (be_earner_id x) (be_earner_id y)) as [Heq|Hne].
    + destruct IH as [H1 H2]. split.
      * intros k [->|Hk]%elem_of_cons; [|apply H1; by right]. destruct (H1 (y :: g)) as (o & _ & Ho); [left|].
        exists o. split; [done|]. constructor; [|done]. apply Forall_inv in Ho. congruence.
      * apply StronglySorted_inv in H2 as [H2 H3]. constructor; [done|]. eapply Forall_impl; [exact H3|]. cbn.
        intros k Hk u v [->|Hu]%elem_of_cons Hv; [rewrite Heq; apply Hk; [left|done]|by apply Hk].
    + apply Hsingle; [done|]. intros z Hz.
      assert (be_earner_id y ≤ be_earner_id z)%N.
      { rewrite <- Hcat in Hl. apply StronglySorted_inv in Hl as [_ Hy]. rewrite Forall_forall in Hy.
        cbn in Hz. apply elem_of_cons in Hz as [->|Hz]; [done|]. by apply Hy. }
      assert (be_earner_id x ≤ be_earner_id y)%N by (apply Hx; rewrite <- Hcat; left). lia.
Qed.

(** What an owner gets is one settled group, or nothing. *)
Lemma filter_grouped (gs outs : list (list earning)) o : grouped gs → Forall2 (λ g out : list earning, be_earner_id <$> out = be_earner_id <$> g) gs outs →
  filter (λ e, be_earner_id e = o) (concat outs) = [] ∨
  ∃ k g out, gs !! k = Some g ∧ outs !! k = Some out ∧ filter (λ e, be_earner_id e = o) (concat outs) = out.
Proof.
  intros [H1 H2] Hf. revert H1 H2. induction Hf as [|g out gs outs Hg Hf IH]; intros H1 H2; [by left|].
  assert (Hout : ∀ x, x ∈ out → ∃ y, y ∈ g ∧ be_earner_id x = be_earner_id y).
  { intros x Hx. apply (list_elem_of_fmap_2 be_earner_id) in Hx. rewrite Hg in Hx.
    apply list_elem_of_fmap in Hx as (y & ? & ?). eauto. }
  assert (Hrest : ∀ x, x ∈ concat outs → ∃ y, y ∈ concat gs ∧ be_earner_id x = be_earner_id y).
  { clear -Hf. intros x (out & (k & Hk)%list_elem_of_lookup & Hx)%elem_of_concat.
    destruct (Forall2_lookup_r _ _ _ _ _ Hf Hk) as (g & Hgk & Hg). apply (list_elem_of_fmap_2 be_earner_id) in Hx.
    rewrite Hg in Hx. apply list_elem_of_fmap in Hx as (y & ? & ?). exists y. split; [|done]. apply elem_of_concat.
    eauto using list_elem_of_lookup_2. }
  apply StronglySorted_inv in H2 as [H2 H3]. rewrite Forall_forall in H3. cbn [concat]. rewrite filter_app.
  destruct (H1 g) as (og & Hne & Hog); [left|]. rewrite Forall_forall in Hog.
  destruct (decide (og = o)) as [->|Hneq].
  - right. exists 0%nat, g, out. split_and!; [done..|].
    rewrite (filter_all_true _ out), (filter_all_false _ (concat outs)), app_nil_r; [done| |].
    + intros x (y & (k & Hk & Hy)%elem_of_concat & Heq)%Hrest Hxo. destruct g as [|z g]; [done|].
      apply (H3 k Hk z y); [left|done|]. rewrite (Hog z) by left. congruence.
    + apply Forall_forall. intros x (y & Hy & ->)%Hout. by apply Hog.
  - rewrite (filter_all_false _ out); [|intros x (y & Hy & ->)%Hout; rewrite (Hog y Hy); done]. cbn.
    destruct IH as [?|(k & g' & out' & Hk & Hk' & ?)]; [intros g' Hg'; apply H1; by right|done|by left|].
    right. by exists (S k), g', out'.
Qed.
End chunks.

(** ** Settling against a cap *)
Section settle.
Context {D : Type} `{!DecimalOps D, !DecimalLaws D} (places : N) (Hplaces : (places ≤ 4)%N).
Abbreviation earning := (BinaryCommissionEarning D).
Abbreviation unit_ := (10 ^ (28 - Z.of_N places)).

Definition owed (l : list earning) : Z := total_units (be_dollar_amount <$> l).

(** A final amount: not negative and a whole number of minor units. *)
Definition payable (e : earning) : Prop := 0 ≤ units (be_dollar_amount e) ∧ (unit_ | units (be_dollar_amount e)).

(** What became of a raw earning: rounded, or replaced by its share of the cap. *)
Definition finalized (capping : bool) (e e' : earning) : Prop := payable e' ∧
  (e' = with_dollars e (round_minor (be_dollar_amount e) (Z.of_N places)) (capped e) ∨
  (capping = true ∧ e' = with_dollars e (be_dollar_amount e') true)).

(** An owner's earnings stay within the cap, and use it up when they were cut. *)
Definition owner_settled (cap : D) (l : list earning) : Prop :=
  owed l ≤ units cap ∧ (∀ e, e ∈ l → capped e = true → owed l = units cap).

Lemma payable_round (e : earning) b : 0 ≤ units (be_dollar_amount e) →
  payable (with_dollars e (round_minor (be_dollar_amount e) (Z.of_N places)) b).
Proof using Hplaces DecimalLaws0.
  intros H. unfold payable. cbn [with_dollars be_dollar_amount]. rewrite round_minor_units by lia.
  pose proof (pow10_pos (28 - Z.of_N places) ltac:(lia)) as Hp.
  pose proof (round_by_nonneg MidpointAwayFromZero (units (be_dollar_amount e)) unit_ Hp H) as Hr. cbn in Hr.
  split; [nia|]. by eexists.
Qed.

Lemma with_dollars_self (e : earning) : with_dollars e (be_dollar_amount e) (capped e) = e.
Proof. by destruct e. Qed.

Lemma zip_amounts (f : earning → bool) (group : list earning) amounts : length amounts = length group →
  be_dollar_amount <$> zip_with (λ e x, with_dollars e x (f e)) group amounts = amounts.
Proof. revert amounts. induction group as [|e group IH]; intros [|x amounts] Hl; cbn; [done..|]. rewrite IH; auto. Qed.

Lemma zip_finalized capping (f : earning → bool) (group : list earning) amounts : length amounts = length group →
  (∀ k e x, group !! k = Some e → amounts !! k = Some x → finalized capping e (with_dollars e x (f e))) →
  Forall2 (finalized capping) group (zip_with (λ e x, with_dollars e x (f e)) group amounts).
Proof.
  intros Hl Hf. apply Forall2_same_length_lookup. split; [rewrite length_zip_with; lia|].
  intros k e e' He He'. apply lookup_zip_with_Some in He' as (e0 & x & -> & He0 & Hx).
  assert (e0 = e) as -> by congruence. by eapply Hf.
Qed.

Context (cap : D) (Hcap : 0 ≤ units cap) (Hwhole : (unit_ | units cap)).

Lemma rounded_total_pos (raw : list D) : (∀ d, d ∈ raw → 0 ≤ units d) →
  0 < total_units ((λ x, round_minor x (Z.of_N places)) <$> raw) → 0 < total_units raw.
Proof using Hplaces DecimalLaws0.
  induction raw as [|d raw IH]; intros Hnn; [done|]. rewrite fmap_cons. cbn [total_units foldr].
  fold (total_units raw). fold (total_units ((λ x, round_minor x (Z.of_N places)) <$> raw)).
  pose proof (Hnn d ltac:(left)) as Hd.
  assert (Hr : 0 ≤ total_units raw).
  { clear -Hnn. induction raw as [|x raw IH]; [done|]. cbn [total_units foldr]. fold (total_units raw).
  pose proof (Hnn x ltac:(right; left)). specialize (IH ltac:(intros y [->|Hy]%elem_of_cons; apply Hnn; [left|right; by right])). lia. }
  intros Hp. destruct (decide (units d = 0)) as [H0|]; [|lia].
  rewrite round_minor_units, H0 in Hp by lia. unfold round_away in Hp. cbn [Z.sgn Z.mul] in Hp.
  assert (0 < total_units raw); [|lia]. apply IH; [intros x Hx; apply Hnn; by right|]. lia.
Qed.

(** The parts of a cap: an owner's earnings exceed it, before or after rounding,
    and a whole number of minor units up to the cap is held by no decimal. *)
Definition cut_refused (group : list earning) (ne : NumericError D) : Prop :=
  (∀ e e', e ∈ group → e' ∈ group → be_earner_id e = be_earner_id e') ∧
  (units cap < owed group ∨
   units cap < total_units ((λ x, round_minor x (Z.of_N places)) <$> (be_dollar_amount <$> group))) ∧
  ∃ u, 0 ≤ u ∧ u * unit_ ≤ units cap ∧ refused (OpAllocate (Z.of_N places)) u (Z.of_N places) ne.

Lemma settle_spec (group : list earning) : Z.of_nat (length group) < 2 ^ 64 →
  (∀ e, e ∈ group → 0 ≤ units (be_dollar_amount e) ∧ capped e = false) →
  (∀ e e', e ∈ group → e' ∈ group → be_earner_id e = be_earner_id e') →
  returns (λ out, Forall2 (finalized true) group out ∧ owner_settled cap out) (cut_refused group)
  (settle_group cap places group).
Proof using Hplaces DecimalLaws0 Hcap Hwhole.
  intros Hlen Hraw Hone. unfold settle_group. rewrite !sum_exceeds_exact by (rewrite ?length_fmap; done).
  set (raw := be_dollar_amount <$> group).
  set (rounded := (λ x, round_minor x (Z.of_N places)) <$> raw).
  assert (Hnn : ∀ d, d ∈ raw → 0 ≤ units d).
  { intros d (e & -> & He)%list_elem_of_fmap. by apply Hraw. }
  assert (Hlr : length rounded = length group) by (unfold rounded, raw; by rewrite !length_fmap).
  destruct (Z.ltb_spec (units cap) (total_units raw)) as [Hx|Hx], (Z.ltb_spec (units cap) (total_units rounded)) as [Hy|Hy];
  cbn [negb andb].
  4:{ cbn [returns]. split.
  - apply (zip_finalized true capped); [done|]. intros k e x He Hk. subst rounded raw.
    rewrite !list_lookup_fmap, He in Hk. cbn in Hk. injection Hk as <-.
    split; [|by left]. apply payable_round. by apply Hraw, list_elem_of_lookup_2 with k.
  - unfold owner_settled, owed. rewrite zip_amounts by done. split; [done|].
    intros e [k Hk]%list_elem_of_lookup. apply lookup_zip_with_Some in Hk as (e0 & x & -> & He0 & _).
    cbn [with_dollars capped]. intros Hc. destruct (Hraw e0) as [_ Hf]; [by eapply list_elem_of_lookup_2|congruence]. }
  all: assert (Htot : 0 < total_units raw) by (first [lia | apply (rounded_total_pos raw Hnn); fold rounded; lia]).
  all: eapply returns_bind; [eapply returns_weaken; [apply allocate_returns; [unfold raw; by rewrite length_fmap|lia|done..]|
    intros out H; exact H|intros ne H; split_and!; [exact Hone|first [left; exact Hx|right; exact Hy]|exact H]]|].
  all: intros shares (Hls & Hts & Hpay); unfold raw in Hls; rewrite length_fmap in Hls; cbn [returns]; split;
  [|unfold owner_settled, owed; rewrite (zip_amounts (λ _, true)) by done; split; [lia|done]].
  all: apply (zip_finalized true (λ _, true)); [done|]; intros k e x He Hk; split; [|by right];
  apply Hpay; by eapply list_elem_of_lookup_2.
Qed.

Lemma finalized_owner capping (e e' : earning) : finalized capping e e' →
  be_earner_id e' = be_earner_id e ∧ position_id e' = position_id e.
Proof. intros [_ [->|[_ ->]]]; done. Qed.

Lemma finalized_owners capping (l l' : list earning) : Forall2 (finalized capping) l l' →
  be_earner_id <$> l' = be_earner_id <$> l.
Proof. induction 1 as [|e e' l l' He _ IH]; [done|]. rewrite !fmap_cons, IH. f_equal. apply (finalized_owner _ _ _ He). Qed.

Lemma owner_settled_nil : owner_settled cap [].
Proof using Hcap. split; [done|]. by intros e ?%elem_of_nil. Qed.

Lemma sorted_by_owner (l : list earning) :
  StronglySorted (λ x y, (be_earner_id x ≤ be_earner_id y)%N) (sort_by binary_compare l).
Proof.
  assert (Comparator (binary_compare (D := D))) as Hc.
  { apply then_with_comparator; [apply (on_key_comparator be_earner_id)|apply (on_key_comparator position_id)];
  apply N_comparator. }
  pose proof (sort_sorted binary_compare l) as Hs. clear -Hs. induction Hs as [|x k _ IH Hx]; constructor; [done|].
  eapply Forall_impl; [exact Hx|]. intros y. unfold cmp_leb, binary_compare, then_with.
  destruct (N.compare_spec (be_earner_id x) (be_earner_id y)); [lia|lia|done].
Qed.

Lemma aggregate_cap_spec (es : list earning) : Z.of_nat (length es) < 2 ^ 64 →
  (∀ e, e ∈ es → 0 ≤ units (be_dollar_amount e) ∧ capped e = false) →
  returns (λ out, Forall2 (finalized true) (sort_by binary_compare es) out ∧
  ∀ o, owner_settled cap (filter (λ e, be_earner_id e = o) out))
  (λ ne, ∃ group, (∀ e, e ∈ group → e ∈ es) ∧ cut_refused group ne)
  (apply_aggregate_cap es cap places).
Proof using Hplaces DecimalLaws0 Hcap Hwhole.
  intros Hlen Hraw. unfold apply_aggregate_cap.
  pose proof (chunk_grouped _ (sorted_by_owner es)) as Hg.
  pose proof (chunk_by_concat same_owner (sort_by binary_compare es)) as Hcat.
  set (gs := chunk_by same_owner (sort_by binary_compare es)) in *.
  eapply returns_bind.
  { apply (returns_map _ (λ g out, Forall2 (finalized true) g out ∧ owner_settled cap out)). intros g Hgs.
  assert (Hsub : ∀ e, e ∈ g → e ∈ es).
  { intros e He. rewrite <- (sort_by_perm binary_compare es), <- Hcat. apply elem_of_concat. eauto. }
  eapply returns_weaken; [apply settle_spec; [|intros e He; by apply Hraw, Hsub|]|intros out H; exact H|by intros ne H; exists g].
  2: { intros e e' He He'. destruct (gr_owner _ Hg g Hgs) as (o & _ & Ho). rewrite Forall_forall in Ho. by rewrite (Ho e He), (Ho e' He'). }
  assert (length g ≤ length es)%nat; [|lia].
  rewrite <- (sort_by_perm binary_compare es), <- Hcat. clear -Hgs. induction gs as [|k gs IH]; [by apply elem_of_nil in Hgs|].
  cbn. rewrite length_app. apply elem_of_cons in Hgs as [->|Hgs]; [lia|]. specialize (IH Hgs). lia. }
  intros outs Houts. cbn [returns]. split.
  - rewrite <- Hcat. clear -Houts. induction Houts as [|g out gs outs [Hg _] _ IH]; [constructor|]. cbn. by apply Forall2_app.
  - intros o. destruct (filter_grouped gs outs o Hg) as [->|(k & g & out & Hk & Hk' & ->)].
  + eapply Forall2_impl; [exact Houts|]. intros g out [H _]. by eapply finalized_owners.
  + apply owner_settled_nil.
  + by destruct (Forall2_lookup_lr _ _ _ _ _ _ Houts Hk Hk') as [_ ?].
Qed.
End settle.

Section finalize.
Context {D : Type} `{!DecimalOps D, !DecimalLaws D} (places : N) (Hplaces : (places ≤ 4)%N).

(** The earnings after [finalize_earnings] and the final sort. *)
Record settlement (agg : option D) (raw out : list (BinaryCommissionEarning D)) : Prop := {
  se_each : ∃ raw', raw' ≡ₚ raw ∧ Forall2 (finalized places (bool_decide (is_Some agg))) raw' out;
  se_owner cap o : agg = Some cap → owner_settled cap (filter (λ e, be_earner_id e = o) out);
}.

Lemma finalize_spec agg (es : list (BinaryCommissionEarning D)) : Z.of_nat (length es) < 2 ^ 64 →
  (∀ e, e ∈ es → 0 ≤ units (be_dollar_amount e) ∧ (is_Some agg → capped e = false)) →
  (∀ cap, agg = Some cap → 0 ≤ units cap ∧ (10 ^ (28 - Z.of_N places) | units cap)) →
  returns (λ out, settlement agg es (sort_by binary_compare out))
    (λ ne, ∃ cap group, agg = Some cap ∧ (∀ e, e ∈ group → e ∈ es) ∧ cut_refused places cap group ne)
    (finalize_earnings es agg places).
Proof using Hplaces DecimalLaws0.
  intros Hlen Hraw Hcap.
  assert (Hsort : ∀ l out, l ≡ₚ es → Forall2 (finalized places (bool_decide (is_Some agg))) l out →
    ∃ raw', raw' ≡ₚ es ∧ Forall2 (finalized places (bool_decide (is_Some agg))) raw' (sort_by binary_compare out)).
  { intros l out Hl Hf. apply Forall2_flip in Hf.
    destruct (Permutation_Forall2 (symmetry (sort_by_perm binary_compare out)) Hf) as (k & Hk & Hfk).
    exists k. split; [by rewrite <- Hk|]. by apply Forall2_flip. }
  destruct agg as [cap|]; cbn [finalize_earnings].
  - destruct (Hcap cap eq_refl) as [H0 Hw]. eapply returns_weaken.
    + apply aggregate_cap_spec; [done..|]. intros e He. destruct (Hraw e He) as [? Hc]. split; [done|]. by apply Hc.
    + intros out [Hf Ho]. split; [by eapply Hsort; [apply sort_by_perm|]|]. intros c o [= <-].
      destruct (Ho o) as [H1 H2].
      assert (Hp : filter (λ e, be_earner_id e = o) (sort_by binary_compare out) ≡ₚ filter (λ e, be_earner_id e = o) out)
        by (by rewrite sort_by_perm).
      assert (Howed : owed (filter (λ e, be_earner_id e = o) (sort_by binary_compare out)) =
        owed (filter (λ e, be_earner_id e = o) out)).
      { unfold owed. rewrite !total_units_sum. apply sumZ_perm. by rewrite Hp. }
      unfold owner_settled. rewrite Howed. split; [done|]. intros e He. apply H2. by rewrite <- Hp.
    + intros ne (group & Hne). by exists cap, group.
  - cbn [returns]. split; [|done]. eapply Hsort; [reflexivity|]. apply Forall2_fmap_r, Forall_Forall2_diag, Forall_forall.
    intros e He. split; [|by left]. apply payable_round; [done|]. by apply Hraw.
Qed.
End finalize.

(** * The binary calculator end to end: [commission/binary.rs]

    What holds of a result of [calculate_binary_pairing], in pairing and in
    cycle-step mode, and which errors it can return. *)

(** ** Preparation, shared by the two modes *)
Section prepare.
Context {D : Type} `{!DecimalOps D, !DecimalLaws D}.
Context (tree : Binary.Binary.BinaryTree) (Hb : Binary.Binary.binary_wf tree) (plan : CompensationPlan D).
Context (snapshots : gmap Uuid (DistributorSnapshot D)) (volume : list (VolumeSource D)).
Context (prior : gmap Uuid (LegVolumes D)) (ownership : option (gmap Uuid Uuid)) (cap : option (AuthoredDec D)).

(** A leg: the volume placed in the branch the tree reports, and what was carried in. *)
Definition leg_volume (u : Uuid) (k : nat) (carried v : D) : Prop :=
  ∃ b, Binary.Binary.get_branch tree u k = Ok b ∧ units v = placed_volume volume (user_id <$> b) + units carried.

Definition leg_negative (p : Uuid) : Prop :=
  ∃ l, prior !! p = Some l ∧ (units (left l) < 0 ∨ units (right l) < 0).

Record prepared (places : N) (working : gmap Uuid (LegVolumes D)) : Prop := {
  pr_places : minor_units (base_currency (volume_config plan)) = Some places;
  pr_cap c : cap = Some c → 0 ≤ units (dec c) ∧ (10 ^ (28 - Z.of_N places) | units (dec c));
  pr_members u : is_Some (working !! u) ↔ contains tree u = true;
  pr_legs u l : working !! u = Some l → 0 ≤ units (left l) ∧ 0 ≤ units (right l) ∧
  leg_volume u 0 (from_option left DZERO (prior !! u)) (left l) ∧
  leg_volume u 1 (from_option right DZERO (prior !! u)) (right l);
  pr_owner u : contains tree u = true → is_Some (snapshots !! resolve_owner u ownership);
}.

(** A total of volumes that no decimal holds: that of one position over the first
    sources, that of some distinct members, or a branch with what its leg carried in. *)
Definition volumes_refused (ne : NumericError D) : Prop :=
  sources_refused tree snapshots ownership volume ne ∨
  (∃ us, NoDup us ∧ (∀ u, u ∈ us → contains tree u = true) ∧ refused OpAdd (placed_volume volume us) 28 ne) ∨
  ∃ u k b carried, contains tree u = true ∧ Binary.Binary.get_branch tree u k = Ok b ∧
    (k = 0%nat ∧ carried = from_option left DZERO (prior !! u) ∨ k = 1%nat ∧ carried = from_option right DZERO (prior !! u)) ∧
    refused OpAdd (placed_volume volume (user_id <$> b) + units carried) 28 ne.

(** What each refusal says of the inputs. *)
Definition prepare_fault (e : CalculationError D) : Prop :=
  match e with
  | UnknownCurrency c => c = base_currency (volume_config plan) ∧ minor_units c = None
  | NegativeCap c => cap = Some c ∧ units (dec c) < 0
  | CapNotWholeMinorUnits c cur => cap = Some c ∧ cur = base_currency (volume_config plan) ∧
  ∃ places, minor_units cur = Some places ∧ ¬ (10 ^ (28 - Z.of_N places) | units (dec c))
  | NegativeCarriedLegVolume p leg v => units v < 0 ∧
  (∃ l, prior !! p = Some l ∧ v = match leg with LeftLeg => left l | RightLeg => right l end) ∧
  ∀ q, leg_negative q → (p ≤ q)%N
  | UnknownSnapshotRank u _ => bad_rank plan snapshots u ∧ ∀ v, bad_rank plan snapshots v → (u ≤ v)%N
  | InvalidPersonalVolume u _ => bad_volume snapshots u ∧ ∀ v, bad_volume snapshots v → (u ≤ v)%N
  | DistributorNotInSnapshot o => snapshots !! o = None ∧
  ∃ p, contains tree p = true ∧ resolve_owner p ownership = o
  | InvalidCvAmount u a => ∃ src, src ∈ volume ∧ vs_source_id src = u ∧ vs_cv_amount src = a ∧ units (dec a) < 0
  | SourceNotInTree u => ∃ src, src ∈ volume ∧ vs_source_id src = u ∧ contains tree u = false
  | Numeric ne => volumes_refused ne
  | _ => False
  end.

Lemma pow10_places places : (places ≤ 4)%N → 0 < 10 ^ (28 - Z.of_N places).
Proof. intros H. apply pow10_pos. lia. Qed.

(** A value is unchanged by rounding exactly when it is a whole number of units. *)
Lemma round_minor_fixed (d : D) places : (places ≤ 4)%N →
  dec_eqb (round_minor d (Z.of_N places)) d = true ↔ (10 ^ (28 - Z.of_N places) | units d).
Proof using DecimalLaws0.
  intros Hp. pose proof (pow10_places places Hp) as Hpos. rewrite dec_eqb_units, Z.eqb_eq, round_minor_units by lia.
  split; [intros <-; by eexists|]. intros [k Hk]. rewrite Hk.
  pose proof (round_by_exact MidpointAwayFromZero k _ Hpos) as H. cbn in H. by rewrite H.
Qed.

Lemma check_cap_spec places : minor_units (base_currency (volume_config plan)) = Some places →
  returns (λ _, ∀ c, cap = Some c → 0 ≤ units (dec c) ∧ (10 ^ (28 - Z.of_N places) | units (dec c))) prepare_fault
  (check_cap cap plan places).
Proof using DecimalLaws0.
  intros Hpl. pose proof (minor_units_bound _ _ Hpl) as Hp. unfold check_cap. destruct cap as [c|] eqn:Hc; [|done].
  apply returns_guard; rewrite is_negative_units.
  - intros H%Z.ltb_lt. by split.
  - intros H%Z.ltb_ge. unfold refuse_if. destruct (dec_eqb _ _) eqn:E; cbn.
  + intros c' [= <-]. split; [done|]. by apply round_minor_fixed.
  + split; [done|]. split; [done|]. exists places. split; [done|]. intros Hd%round_minor_fixed; [congruence|done].
Qed.

Lemma check_carried_spec :
  returns (λ _, ∀ p l, prior !! p = Some l → 0 ≤ units (left l) ∧ 0 ≤ units (right l)) prepare_fault
  (check_carried_legs prior).
Proof using DecimalLaws0.
  unfold check_carried_legs. set (ps := sort_by N.compare (map_to_list prior).*1).
  assert (Hps : ∀ p, p ∈ ps ↔ is_Some (prior !! p)).
  { intros p. unfold ps. rewrite sort_by_perm, list_elem_of_fmap. split.
    - intros ([q l] & -> & Hq%elem_of_map_to_list). eauto.
    - intros [l Hl]. exists (p, l). by rewrite elem_of_map_to_list. }
  assert (Hsort : StronglySorted (λ x y, (x ≤ y)%N) ps).
  { pose proof (sort_sorted N.compare (map_to_list prior).*1) as H. fold ps in H. clear -H.
    induction H as [|x k _ IH Hx]; constructor; [done|]. eapply Forall_impl; [exact Hx|]. intros y. unfold cmp_leb.
    destruct (N.compare_spec x y); [lia|lia|done]. }
  cut (∀ pre post, ps = pre ++ post → (∀ p l, p ∈ pre → prior !! p = Some l → 0 ≤ units (left l) ∧ 0 ≤ units (right l)) →
    returns (λ _, ∀ p l, prior !! p = Some l → 0 ≤ units (left l) ∧ 0 ≤ units (right l)) prepare_fault
    (for_each (λ position, p ← expect (prior !! position);
    for_each (check_leg position) [(LeftLeg, left p); (RightLeg, right p)]) post)).
  { intros H. apply (H [] ps); [done|]. by intros p l ?%elem_of_nil. }
  intros pre post. revert pre. induction post as [|p post IH]; intros pre Heq Hpre; cbn [for_each].
  { rewrite app_nil_r in Heq. intros p l Hp. apply (Hpre p); [|done]. rewrite <- Heq. apply Hps. eauto. }
  assert (Hin : p ∈ ps) by (rewrite Heq; apply elem_of_app; right; left). apply Hps in Hin as [l Hl]. rewrite Hl.
  assert (Hleast : ∀ q, leg_negative q → (p ≤ q)%N).
  { intros q (lq & Hq & Hneg). assert (Hin : q ∈ ps) by (apply Hps; eauto). rewrite Heq in Hin, Hsort.
    apply elem_of_app in Hin as [Hin|Hin]; [destruct (Hpre q lq Hin Hq); lia|].
    apply StronglySorted_app in Hsort as (_ & _ & Hs). apply StronglySorted_inv in Hs as [_ Hle].
    apply elem_of_cons in Hin as [->|Hin]; [lia|]. rewrite Forall_forall in Hle. by apply Hle. }
  cbn [expect mbind outcome_bind for_each check_leg]. unfold refuse_if. rewrite !is_negative_units.
  destruct (Z.ltb_spec (units (left l)) 0) as [Hneg|Hl0]; [cbn; eauto|].
  destruct (Z.ltb_spec (units (right l)) 0) as [Hneg|Hr0]; [cbn; eauto|]. cbn [mbind outcome_bind].
  apply (IH (pre ++ [p])); [by rewrite <- app_assoc|].
  intros q lq [Hq | ->%list_elem_of_singleton]%elem_of_app; [by apply Hpre|]. intros H. by simplify_eq.
Qed.

Lemma placed_nonneg us : Forall (good_position tree snapshots ownership) volume → 0 ≤ placed_volume volume us.
Proof.
  intros Hgood. unfold placed_volume. rewrite total_units_sum. apply sumZ_nonneg, Forall_forall.
  intros x (d & -> & (src & -> & Hs)%list_elem_of_fmap)%list_elem_of_fmap. apply list_elem_of_filter in Hs as [_ Hs].
  rewrite Forall_forall in Hgood. by destruct (Hgood src Hs).
Qed.

Lemma prepare_spec {A} (P : A → Prop) (Q : CalculationError D → Prop) (k : N → gmap Uuid (LegVolumes D) → outcome (CalculationError D) A) :
  (∀ e, prepare_fault e → Q e) → (∀ places working, prepared places working → returns P Q (k places working)) →
  returns P Q (places ← plan_minor_units plan;
  check_cap cap plan places;;
  check_carried_legs prior;;
  validate_snapshots plan snapshots ((λ p, resolve_owner p ownership) <$> user_ids tree);;
  volume_totals ← aggregate_volume tree snapshots volume ownership;
  working ← numeric (accumulate_leg_volumes tree volume_totals prior);
  k places working).
Proof using Hb DecimalLaws0.
  intros HQ Hk.
  assert (Hweak : ∀ B (R : B → Prop) m, returns R prepare_fault m → returns R Q m).
  { intros B R []; cbn; auto. }
  unfold plan_minor_units. destruct (minor_units _) as [places|] eqn:Hpl; cbn [ok_or mbind outcome_bind]; [|by apply HQ].
  eapply returns_seq; [by apply Hweak, check_cap_spec|]. intros Hcap.
  eapply returns_seq; [apply Hweak, check_carried_spec|]. intros Hprior.
  pose proof (validate_snapshots_spec plan snapshots ((λ p, resolve_owner p ownership) <$> user_ids tree)) as Hval.
  destruct (validate_snapshots _ _ _) as [[]|e| |]; cbn [mbind outcome_bind]; [| |done..].
  2:{ apply HQ. destruct e; try done; cbn; try tauto. destruct Hval as (_ & _ & Hin & Hn & _). split; [done|].
  apply list_elem_of_fmap in Hin as (p & -> & Hp). exists p. split; [|done]. exact (proj1 (nav_user_ids tree p Hb) Hp). }
  destruct Hval as (_ & _ & Hcov).
  assert (Hown : ∀ u, contains tree u = true → is_Some (snapshots !! resolve_owner u ownership)).
  { intros u Hu. apply Hcov. apply (list_elem_of_fmap_2 (λ p, resolve_owner p ownership)). exact (proj2 (nav_user_ids tree u Hb) Hu). }
  eapply returns_bind.
  { pose proof (aggregate_spec tree snapshots ownership volume) as Hagg.
  destruct (aggregate_volume _ _ _ _) as [t|e| |]; cbn in *; [exact Hagg| |done..]. apply HQ.
  destruct e; try done; [|by left]. destruct Hagg as (src & _ & Hc & <- & Hn). destruct (Hown _ Hc). congruence. }
  intros totals [Hgood Hper]. eapply returns_bind.
  { unfold numeric. eapply returns_map_err; [apply (accumulate_spec tree Hb)|]. intros ne Hne. apply HQ. right.
  destruct Hne as [(us & Hnd & Hin & Href)|(u & j & b & carried & Hc & Hbr & Hnd & Hcar & Href)].
  - left. exists us. rewrite (members_placed totals volume) in Href by done. done.
  - right. exists u, j, b, carried. rewrite (members_placed totals volume) in Href by done. done. }
  intros working [Hdom Hlegs]. apply Hk. split; [done|done|done| |done].
  intros u l (bl & br & Hbl & Hbr & Hndl & Hndr & Hl & Hr)%Hlegs.
  rewrite (members_placed totals volume) in Hl, Hr by done.
  assert (0 ≤ units (from_option left DZERO (prior !! u)) ∧ 0 ≤ units (from_option right DZERO (prior !! u))).
  { destruct (prior !! u) as [p|] eqn:Hp; cbn; [by eapply Hprior|]. rewrite zero_units. lia. }
  pose proof (placed_nonneg (user_id <$> bl) Hgood). pose proof (placed_nonneg (user_id <$> br) Hgood).
  split_and!; [lia|lia|by exists bl|by exists br].
Qed.
End prepare.

(** ** Positions *)
Section positions.
Context {D : Type} `{!DecimalOps D, !DecimalLaws D} (working : gmap Uuid (LegVolumes D)).

Lemma sorted_positions_elem u : u ∈ sorted_positions working ↔ is_Some (working !! u).
Proof.
  unfold sorted_positions. rewrite sort_by_perm, list_elem_of_fmap. split.
  - intros ([q l] & -> & Hq%elem_of_map_to_list). eauto.
  - intros [l Hl]. exists (u, l). by rewrite elem_of_map_to_list.
Qed.

Lemma sorted_positions_nodup : NoDup (sorted_positions working).
Proof. unfold sorted_positions. rewrite sort_by_perm. apply NoDup_fst_map_to_list. Qed.

(** The cap a single position is held to. *)
Lemma cap_amount_spec use (cap : option (AuthoredDec D)) (raw : D) : 0 ≤ units raw →
  (∀ c, cap = Some c → 0 ≤ units (dec c)) →
  let '(x, b) := cap_amount use cap raw in
  0 ≤ units x ∧ (use = true → b = false) ∧
  (b = false → x = raw) ∧ (b = true → ∃ c, cap = Some c ∧ units (dec c) < units raw ∧ x = dec c) ∧
  (use = false → b = false → ∀ c, cap = Some c → units raw ≤ units (dec c)).
Proof using DecimalLaws0.
  intros Hr Hc. unfold cap_amount. destruct use; [by split_and!|]. destruct cap as [c|]; [|by split_and!].
  rewrite dec_ltb_units. destruct (Z.ltb_spec (units (dec c)) (units raw)); split_and!; try done; try naive_solver lia.
Qed.
End positions.

(** ** Pairing *)
Section pairing.
Context {D : Type} `{!DecimalOps D, !DecimalLaws D, !DivisionLaws D}.
Context (pairing : PairingConfig D) (multiplier : D) (use : bool) (ownership : option (gmap Uuid Uuid)).
Context (cache : gmap Uuid bool) (working : gmap Uuid (LegVolumes D)).
Context (Hpercent : 0 ≤ units (dec (percent pairing))) (Hmult : 0 ≤ units multiplier).
Context (Hlegs : ∀ u l, working !! u = Some l → 0 ≤ units (left l) ∧ 0 ≤ units (right l)).
Context (Hcap : ∀ c, cap_per_period pairing = Some c → 0 ≤ units (dec c)).

(** What a pair is worth: the weaker leg at the percent, and in ratio mode times
    weaker over stronger, rounded once. *)
Definition pair_amount (legs : LegVolumes D) (raw : D) : Prop :=
  let weaker := dec_min (left legs) (right legs) in
  let stronger := dec_max (left legs) (right legs) in
  match calculation pairing with
  | WeakerLeg => units raw * 10 ^ 56 = units weaker * units (dec (percent pairing)) * units multiplier
  | VolumeRatio =>
  let fs := [weaker; dec (percent pairing); multiplier; weaker] in
  rounded_once (nearest (Z.abs (coefficients fs)) (places fs) (Z.abs (mantissa stronger)) (scale stronger))
    (coefficients fs * mantissa stronger) raw
  end.

Definition earns (u : Uuid) : Prop := ∃ l, working !! u = Some l ∧
  owner_eligible cache (resolve_owner u ownership) = true ∧ units (left l) ≠ 0 ∧ units (right l) ≠ 0.

(** One earning before it is settled, and its raw worth. *)
Record pair_earning (e : BinaryCommissionEarning D) (legs : LegVolumes D) (raw : D) : Prop := {
  pe_legs : working !! position_id e = Some legs;
  pe_owner : be_earner_id e = resolve_owner (position_id e) ownership;
  pe_eligible : owner_eligible cache (be_earner_id e) = true;
  pe_left : left_volume e = left legs;
  pe_right : right_volume e = right legs;
  pe_matched : matched_volume e = dec_min (left legs) (right legs);
  pe_positive : 0 < units (matched_volume e);
  pe_percent : be_percent e = dec (percent pairing);
  pe_raw : pair_amount legs raw;
  pe_nonneg : 0 ≤ units raw;
  pe_amount : (be_dollar_amount e, capped e) = cap_amount use (cap_per_period pairing) raw;
}.

Lemma sign_nonneg (fs : list D) : (∀ f, f ∈ fs → 0 ≤ units f) → 0 ≤ coefficients fs.
Proof using DecimalLaws0.
  induction fs as [|f fs IH]; intros Hf; [done|]. cbn [coefficients foldr]. fold (coefficients fs).
  apply Z.mul_nonneg_nonneg; [|apply IH; intros g Hg; apply Hf; by right].
  pose proof (Hf f ltac:(left)) as H. unfold units in H. pose proof (pow10_unscale_pos f). nia.
Qed.

Lemma units_mantissa (d : D) : 0 < units d → 0 < mantissa d.
Proof using DecimalLaws0. unfold units. pose proof (pow10_unscale_pos d). nia. Qed.

Lemma rounded_once_nonneg near sign (r : D) : 0 ≤ sign → (sign = 0 → ∀ s, 0 ≤ s → near s = 0) →
  rounded_once near sign r → 0 ≤ units r.
Proof.
  intros Hs Hz (s & Hr & Hu & _ & Hsg & _). destruct (decide (sign = 0)) as [->|]; [|nia].
  rewrite (Hz eq_refl s) in Hu by lia. lia.
Qed.

Lemma nearest_zero x n d m s : 0 < d → 0 ≤ n → x = 0 → nearest x n d m s = 0.
Proof.
  intros Hd Hn ->. unfold nearest. pose proof (pow10_pos n Hn).
  pose proof (round_by_exact MidpointNearestEven 0 (d * 10 ^ n) ltac:(nia)) as H0. by rewrite Z.mul_0_l in *.
Qed.

Lemma places_nonneg (fs : list D) : 0 ≤ places fs.
Proof using DecimalLaws0.
  induction fs as [|f fs IH]; [done|]. cbn [places foldr]. fold (places fs). pose proof (scale_range f). lia.
Qed.

(** The worth of a pair that no decimal holds: a product of factors, the ratio of
    the legs, or the whole quotient, too large at every scale it may be kept at. *)
Definition pair_refused (legs : LegVolumes D) (ne : NumericError D) : Prop :=
  let weaker := dec_min (left legs) (right legs) in
  let stronger := dec_max (left legs) (right legs) in
  match calculation pairing with
  | WeakerLeg => product_refused [weaker; dec (percent pairing); multiplier] ne
  | VolumeRatio =>
  let fs := [weaker; dec (percent pairing); multiplier; weaker] in
  checked_div weaker stronger = None ∧ ne = mkNumericError OpDivRatio weaker stronger Overflow ∨
  err_kind ne = Overflow ∧ ∀ sc, 0 ≤ sc ≤ PAYOUT_SCALE →
    2 ^ 96 ≤ nearest (Z.abs (coefficients fs)) (places fs) (Z.abs (mantissa stronger)) (scale stronger) sc
  end.

(** The raw worth is computed, or refused by the arithmetic. *)
Lemma pair_amount_spec legs : 0 ≤ units (left legs) → 0 ≤ units (right legs) →
  units (left legs) ≠ 0 → units (right legs) ≠ 0 →
  let weaker := dec_min (left legs) (right legs) in
  let stronger := dec_max (left legs) (right legs) in
  returns (λ raw, pair_amount legs raw ∧ 0 ≤ units raw) (pair_refused legs)
  match calculation pairing with
  | WeakerLeg => x ← try_mul weaker (dec (percent pairing)); try_mul x multiplier
  | VolumeRatio => if dec_ltb DZERO stronger
                 then mul_div_ratio weaker (dec (percent pairing)) multiplier weaker stronger else Ok DZERO
  end.
Proof using DecimalLaws0 DivisionLaws0 Hpercent Hmult.
  intros Hl Hr Hl0 Hr0 weaker stronger.
  assert (Hw : units weaker = Z.min (units (left legs)) (units (right legs))) by apply dec_min_units.
  assert (Hst : units stronger = Z.max (units (left legs)) (units (right legs))) by apply dec_max_units.
  unfold pair_amount, pair_refused. fold weaker stronger. destruct (calculation pairing).
  - eapply returns_bind; [apply (refuses_factor weaker (dec (percent pairing)) [weaker] [multiplier]), is_product_one|]. intros x Hpx.
    eapply returns_weaken; [apply (refuses_factor x multiplier _ [] Hpx)| |intros ne H; exact H]. intros raw Hpr.
    assert (Heq : units raw * 10 ^ 56 = units weaker * units (dec (percent pairing)) * units multiplier).
    { destruct Hpr as [_ Hpr]. cbn in Hpr. by rewrite (Z.mul_1_r (units multiplier)), Z.mul_assoc in Hpr. }
    split; [done|]. assert (0 ≤ units raw * 10 ^ 56) by (rewrite Heq; apply Z.mul_nonneg_nonneg; [nia|done]).
    assert (0 < 10 ^ 56) by done. nia.
  - rewrite dec_ltb_units, zero_units, (proj2 (Z.ltb_lt 0 (units stronger))) by lia.
    assert (Hpos : 0 < units stronger) by lia. assert (Hne : units stronger ≠ 0) by lia.
    pose proof (mul_div_ratio_spec weaker (dec (percent pairing)) multiplier weaker stronger Hne) as Hs.
    cbv zeta in Hs. destruct (mul_div_ratio _ _ _ _ _) as [raw|e| |]; cbn [returns]; [|by right|done..]. split; [exact Hs|].
    pose proof (units_mantissa stronger Hpos) as Hm.
    pose proof (sign_nonneg [weaker; dec (percent pairing); multiplier; weaker]) as Hsg.
    specialize (Hsg ltac:(apply Forall_forall; repeat constructor; lia)).
    eapply rounded_once_nonneg; [|intros Hz s _|exact Hs]; [nia|].
    apply nearest_zero; [lia|apply places_nonneg|]. nia.
Qed.

Definition pairs_paid (pre : list Uuid) (es : list (BinaryCommissionEarning D)) : Prop :=
  NoDup (position_id <$> es) ∧ (∀ u, u ∈ position_id <$> es ↔ u ∈ pre ∧ earns u) ∧
  ∀ e, e ∈ es → ∃ legs raw, pair_earning e legs raw.

(** A position that earns and whose pair is refused. *)
Definition pay_refused (e : CalculationError D) : Prop :=
  ∃ ne u legs, e = Numeric ne ∧ working !! u = Some legs ∧ owner_eligible cache (resolve_owner u ownership) = true ∧
  0 < units (left legs) ∧ 0 < units (right legs) ∧ pair_refused legs ne.

Lemma pay_pair_spec pre u es : is_Some (working !! u) → u ∉ pre → pairs_paid pre es →
  returns (pairs_paid (pre ++ [u])) pay_refused (pay_pair pairing multiplier use ownership cache working es u).
Proof using DecimalLaws0 DivisionLaws0 Hpercent Hmult Hlegs Hcap.
  intros [legs Hl] Hu (Hnd & Hmem & Hes). destruct (Hlegs u legs Hl) as [Hl0 Hr0].
  assert (Hskip : ¬ earns u → pairs_paid (pre ++ [u]) es).
  { intros Hne. split_and!; [done| |done]. intros v. rewrite Hmem, elem_of_app, list_elem_of_singleton.
    split; [tauto|]. intros [[?| ->] ?]; [done|tauto]. }
  unfold pay_pair. rewrite Hl. cbn [expect mbind outcome_bind].
  destruct (owner_eligible cache (resolve_owner u ownership)) eqn:Hel; cbn [negb].
  2:{ apply Hskip. intros (l & _ & ? & _). congruence. }
  destruct (is_zero (dec_min (left legs) (right legs))) eqn:Hz.
  { apply is_zero_units in Hz. rewrite dec_min_units in Hz. apply Hskip. intros (l & ? & _ & ? & ?). simplify_eq. lia. }
  assert (Hm : units (dec_min (left legs) (right legs)) ≠ 0) by (intros H%is_zero_units; congruence).
  rewrite dec_min_units in Hm.
  assert (Hpair : (if dec_leb (left legs) (right legs) then (left legs, right legs) else (right legs, left legs))
    = (dec_min (left legs) (right legs), dec_max (left legs) (right legs))).
  { unfold dec_min, dec_max. by destruct (dec_leb _ _). }
  assert (Href : ∀ ne, pair_refused legs ne → pay_refused (Numeric ne)).
  { intros ne Hne. exists ne, u, legs. split_and!; [done..|lia|lia|done]. }
  rewrite Hpair. unfold numeric. eapply returns_bind.
  { eapply (returns_map_err _ (λ _, True) (pair_refused legs)); [|exact Href]. unfold pair_refused. destruct (calculation pairing); [done|].
    destruct (dec_ltb _ _) eqn:Hlt; [|done]. rewrite dec_ltb_units, zero_units in Hlt. apply Z.ltb_lt in Hlt.
    unfold div_ratio. rewrite (proj1 (nonzero_units (dec_max (left legs) (right legs)) ltac:(rewrite dec_max_units; lia))).
    destruct (checked_div _ _) eqn:Hdiv; [done|]. cbn. by left. }
  intros r _. eapply returns_bind.
  { eapply returns_map_err; [apply (pair_amount_spec legs); lia|exact Href]. }
  intros raw [Hraw Hnn]. destruct (cap_amount use (cap_per_period pairing) raw) as [x b] eqn:Hx. cbn [returns].
  split_and!.
  - rewrite fmap_app. apply NoDup_app. split_and!; [done| |apply NoDup_singleton].
    intros v Hv ->%list_elem_of_singleton. apply Hmem in Hv. tauto.
  - intros v. rewrite fmap_app, !elem_of_app, Hmem. cbn [fmap list_fmap position_id]. rewrite list_elem_of_singleton. split.
    + intros [[? ?]| ->]; [tauto|]. split; [by right|]. exists legs. split_and!; [done..|lia|lia].
    + intros [[?| ->] ?]; tauto.
  - intros e [He | ->%list_elem_of_singleton]%elem_of_app; [by apply Hes|]. exists legs, raw.
    split; cbn; try done. rewrite dec_min_units. lia.
Qed.

Lemma pay_pairs_spec :
  returns (pairs_paid (sorted_positions working)) pay_refused
  (fold_outcome (pay_pair pairing multiplier use ownership cache working) [] (sorted_positions working)).
Proof using DecimalLaws0 DivisionLaws0 Hpercent Hmult Hlegs Hcap.
  apply (returns_fold _ pairs_paid).
  - split_and!; [constructor| |by intros e ?%elem_of_nil]. intros u. rewrite !elem_of_nil. tauto.
  - intros pre u post es Heq Hp. apply pay_pair_spec; [| |done].
    + apply sorted_positions_elem. rewrite Heq. apply elem_of_app. right. left.
    + pose proof (sorted_positions_nodup working) as Hnd. rewrite Heq in Hnd. apply NoDup_app in Hnd as (_ & Hd & _).
      intros Hu. apply (Hd u Hu). left.
Qed.

(** *** What is carried forward *)

Definition clip (cap : option (AuthoredDec D)) (v : Z) : Z :=
  Z.max 0 (match cap with Some c => Z.min v (units (dec c)) | None => v end).

(** Net of what was matched, when it was paid. *)
Definition pair_carry (u : Uuid) (legs : LegVolumes D) : Z * Z :=
  let l := units (left legs) in
  let r := units (right legs) in
  let m := if owner_eligible cache (resolve_owner u ownership) then Z.min l r else 0 in
  match volume_after_payout pairing with
  | FullFlush => (0, 0)
  | NetOff => (l - m, r - m)
  | CarryForward => if l <=? r then (0, r - m) else (l - m, 0)
  end.

Lemma carried_spec (cap : option (AuthoredDec D)) (l r : D) :
  units (left (carried cap l r)) = clip cap (units l) ∧ units (right (carried cap l r)) = clip cap (units r).
Proof using DecimalLaws0.
  unfold carried, clip. cbn [left right]. rewrite !dec_max_units, zero_units.
  destruct cap as [c|]; rewrite ?dec_min_units; split; lia.
Qed.

Definition carry_done (pre : list Uuid) (carry : gmap Uuid (LegVolumes D)) : Prop :=
  (∀ u, is_Some (carry !! u) ↔ u ∈ pre) ∧
  ∀ u c legs, carry !! u = Some c → working !! u = Some legs →
  units (left c) = clip (carry_forward_cap pairing) (pair_carry u legs).1 ∧
  units (right c) = clip (carry_forward_cap pairing) (pair_carry u legs).2.

(** What is left of a leg is held by no decimal. *)
Definition carry_refused (u : Uuid) (legs : LegVolumes D) (ne : NumericError D) : Prop :=
  let l := units (left legs) in
  let r := units (right legs) in
  let m := if owner_eligible cache (resolve_owner u ownership) then Z.min l r else 0 in
  match volume_after_payout pairing with
  | FullFlush => False
  | NetOff => refused OpSub (l - m) 28 ne ∨ refused OpSub (r - m) 28 ne
  | CarryForward => refused OpSub (Z.max l r - m) 28 ne
  end.

Definition some_carry_refused (e : CalculationError D) : Prop :=
  ∃ ne u legs, e = Numeric ne ∧ working !! u = Some legs ∧ carry_refused u legs ne.

Lemma carry_pair_spec pre u carry : is_Some (working !! u) → carry_done pre carry →
  returns (carry_done (pre ++ [u])) some_carry_refused (carry_pair pairing ownership cache working carry u).
Proof using DecimalLaws0.
  intros [legs Hl] [Hdom Hc]. unfold carry_pair. rewrite Hl. cbn [expect mbind outcome_bind].
  set (m := if owner_eligible cache (resolve_owner u ownership) then _ else DZERO).
  assert (Hm : units m = if owner_eligible cache (resolve_owner u ownership)
    then Z.min (units (left legs)) (units (right legs)) else 0).
  { unfold m. destruct (owner_eligible _ _); [apply dec_min_units|apply zero_units]. }
  eapply (returns_bind _ (λ '(l, r), (units l, units r) = pair_carry u legs)).
  { unfold numeric. eapply (returns_map_err _ _ (carry_refused u legs)); [|intros ne Hne; by exists ne, u, legs].
    unfold pair_carry, carry_refused. rewrite <- Hm.
    destruct (volume_after_payout pairing); cbn [returns]; [by rewrite zero_units| |].
    - eapply returns_bind; [eapply returns_weaken; [apply refuses_sub|intros x H; exact H|by left]|]. intros l Hl'.
      eapply returns_bind; [eapply returns_weaken; [apply refuses_sub|intros x H; exact H|by right]|].
      intros r Hr'. cbn. by rewrite Hl', Hr'.
    - rewrite dec_leb_units. destruct (Z.leb_spec (units (left legs)) (units (right legs))).
      + rewrite Z.max_r by lia. eapply returns_bind; [apply refuses_sub|]. intros x Hx. cbn. by rewrite zero_units, Hx.
      + rewrite Z.max_l by lia. eapply returns_bind; [apply refuses_sub|]. intros x Hx. cbn. by rewrite zero_units, Hx. }
  intros [l r] Hlr. cbn [returns]. destruct (carried_spec (carry_forward_cap pairing) l r) as [H1 H2]. split.
  - intros v. rewrite elem_of_app, <- Hdom, list_elem_of_singleton, lookup_insert_is_Some'. split; intros [?|?]; auto.
  - intros v c lv. rewrite lookup_insert_Some. intros [[<- <-]|[_ Hv]] Hlv; [|by apply Hc].
    assert (lv = legs) as -> by congruence. rewrite <- Hlr, H1, H2. done.
Qed.

Lemma carry_pairs_spec :
  returns (carry_done (sorted_positions working)) some_carry_refused
  (fold_outcome (carry_pair pairing ownership cache working) ∅ (sorted_positions working)).
Proof using DecimalLaws0.
  apply (returns_fold _ carry_done).
  - split; [|by intros u c l ?%lookup_empty_Some]. intros u. rewrite lookup_empty, elem_of_nil. split; [by intros []|done].
  - intros pre u post carry Heq Hp. apply carry_pair_spec; [|done]. apply sorted_positions_elem. rewrite Heq.
    apply elem_of_app. right. left.
Qed.
End pairing.

(** ** The pairing calculator *)
Section pairing_calculator.
Context {D : Type} `{!DecimalOps D, !DecimalLaws D, !DivisionLaws D}.
Context (tree : Binary.Binary.BinaryTree) (plan : CompensationPlan D) (structure : BinaryStructureConfig D).
Context (snapshots : gmap Uuid (DistributorSnapshot D)) (volume : list (VolumeSource D)).
Context (prior : gmap Uuid (LegVolumes D)) (ownership : option (gmap Uuid Uuid)).

Definition binary_multiplier : D :=
  dec (default (vc_volume_to_dollar_multiplier (volume_config plan))
     (bc_volume_to_dollar_multiplier (binary_commission structure))).

Definition binary_cap : option (AuthoredDec D) :=
  match bc_mode (binary_commission structure) with
  | Pairing pairing => cap_per_period pairing
  | CycleStepMode c => cs_cap_per_period c
  end.

Definition binary_cap_mode : MultiPositionCapMode :=
  match bc_mode (binary_commission structure) with
  | Pairing pairing => multi_position_cap_mode pairing
  | CycleStepMode c => cs_multi_position_cap_mode c
  end.

Abbreviation cache := (evaluate_eligibility snapshots (eligibility plan)).

(** What each error says of the inputs; [pay] is what a refusal of the arithmetic
    after the preparation says. *)
Definition binary_fault (pay : NumericError D → Prop) (e : CalculationError D) : Prop :=
  match e with
  | PairingPercentOutOfRange x => ∃ pairing, bc_mode (binary_commission structure) = Pairing pairing ∧
  x = percent pairing ∧ (units (dec x) < 0 ∨ 10 ^ 28 < units (dec x))
  | ConfigError why => ∃ c, bc_mode (binary_commission structure) = CycleStepMode c ∧ validate c = Err why
  | Numeric ne => volumes_refused tree snapshots volume prior ownership ne ∨ pay ne
  | _ => prepare_fault tree plan snapshots volume prior ownership binary_cap e
  end.

Lemma fault_prepared pay e : prepare_fault tree plan snapshots volume prior ownership binary_cap e → binary_fault pay e.
Proof. destruct e; try done. by left. Qed.

(** The exact legs of a member, whose owner is eligible. *)
Definition has_legs (u : Uuid) (legs : LegVolumes D) : Prop := contains tree u = true ∧
  leg_volume tree volume u 0 (from_option left DZERO (prior !! u)) (left legs) ∧
  leg_volume tree volume u 1 (from_option right DZERO (prior !! u)) (right legs).
Definition qualifies (u : Uuid) : Prop := owner_eligible cache (resolve_owner u ownership) = true.

(** An owner's shared cap cannot be split: [worth] says what each of its positions
    earned before the cap. *)
Definition split_refused (cap : option (AuthoredDec D)) (mode : MultiPositionCapMode) (worth : LegVolumes D → D → Prop) (ne : NumericError D) : Prop :=
  ∃ places c group, minor_units (base_currency (volume_config plan)) = Some places ∧ uses_aggregate_cap mode ownership = true ∧ cap = Some c ∧
  (∀ e, e ∈ group → be_earner_id e = resolve_owner (position_id e) ownership ∧ qualifies (position_id e) ∧
    ∃ legs, has_legs (position_id e) legs ∧ worth legs (be_dollar_amount e)) ∧
  cut_refused places (dec c) group ne.

(** A refusal of the arithmetic of pairing: the worth of a pair, the split of a
    shared cap, or what is left of a leg. *)
Definition pairing_refused (pairing : PairingConfig D) (ne : NumericError D) : Prop :=
  (∃ u legs, has_legs u legs ∧ qualifies u ∧ 0 < units (left legs) ∧ 0 < units (right legs) ∧
    pair_refused pairing binary_multiplier legs ne) ∨
  split_refused (cap_per_period pairing) (multi_position_cap_mode pairing) (pair_amount pairing binary_multiplier) ne ∨
  ∃ u legs, has_legs u legs ∧ carry_refused pairing ownership cache u legs ne.

(** Inputs the theorems are about: a well-formed tree with fewer than 2^64
    members and a multiplier that is not negative. *)
Record sound_inputs : Prop := {
  si_tree : Binary.Binary.binary_wf tree;
  si_multiplier : 0 ≤ units binary_multiplier;
  si_members : Z.of_nat (length (user_ids tree)) < 2 ^ 64;
}.

Lemma eligible_owner o : owner_eligible cache o = true →
  ∃ snap, snapshots !! o = Some snap ∧ is_eligible snap (eligibility plan) = true.
Proof.
  unfold owner_eligible, evaluate_eligibility. rewrite lookup_fmap. destruct (snapshots !! o) as [s|]; [|done].
  cbn. eauto.
Qed.

Lemma earnings_few working (es : list (BinaryCommissionEarning D)) : sound_inputs →
  (∀ u, is_Some (working !! u) ↔ contains tree u = true) → NoDup (position_id <$> es) →
  (∀ u, u ∈ position_id <$> es → u ∈ sorted_positions (D := D) working) → Z.of_nat (length es) < 2 ^ 64.
Proof.
  intros [Hb _ Hlen] Hdom Hnd Hsub.
  assert (length (position_id <$> es) ≤ length (user_ids tree))%nat as Hle.
  { apply submseteq_length, NoDup_submseteq; [done|]. intros u Hu%Hsub%sorted_positions_elem.
  exact (proj2 (nav_user_ids tree u Hb) (proj1 (Hdom u) Hu)). }
  rewrite length_fmap in Hle. lia.
Qed.

(** Everything a pairing run establishes. *)
Record pairing_run (pairing : PairingConfig D) (res : BinaryCalculationResult D) places working raw : Prop := {
  ru_prepared : prepared tree plan snapshots volume prior ownership (cap_per_period pairing) places working;
  ru_percent : 0 ≤ units (dec (percent pairing)) ≤ 10 ^ 28;
  ru_paid : pairs_paid pairing binary_multiplier (uses_aggregate_cap (multi_position_cap_mode pairing) ownership)
          ownership cache working (sorted_positions working) raw;
  ru_settled : settlement places (aggregate_cap (uses_aggregate_cap (multi_position_cap_mode pairing) ownership)
             (cap_per_period pairing)) raw (be_earnings res);
  ru_carry : carry_done pairing ownership cache working (sorted_positions working) (carry_forward res);
}.

Lemma aggregate_cap_some use cap (c : D) : aggregate_cap use cap = Some c → use = true ∧ ∃ a, cap = Some a ∧ c = dec a.
Proof. unfold aggregate_cap. destruct use; [|done]. destruct cap as [a|]; [|done]. intros [= <-]. eauto. Qed.

Lemma pairing_spec pairing : sound_inputs → bc_mode (binary_commission structure) = Pairing pairing →
  returns (λ res, ∃ places working raw, pairing_run pairing res places working raw) (binary_fault (pairing_refused pairing))
  (calculate_binary_pairing tree plan structure snapshots volume prior ownership).
Proof using DecimalLaws0 DivisionLaws0.
  intros Hin Hmode. pose proof Hin as [Hb Hmult _]. unfold calculate_binary_pairing. rewrite Hmode.
  apply returns_guard; rewrite is_negative_units, dec_ltb_units, one_units.
  { intros Hbad%orb_true_iff. exists pairing. rewrite !Z.ltb_lt in Hbad. done. }
  intros [Hp0%Z.ltb_ge Hp1%Z.ltb_ge]%orb_false_iff.
  apply (prepare_spec tree Hb plan snapshots volume prior ownership (cap_per_period pairing)).
  { intros e He. apply fault_prepared. unfold binary_cap. by rewrite Hmode. }
  intros places working Hpr. pose proof Hpr as [Hpl Hcap Hdom Hlegs _]. fold binary_multiplier.
  pose proof (minor_units_bound _ _ Hpl) as Hp4.
  assert (Hat : ∀ u l, working !! u = Some l → has_legs u l).
  { intros u l Hu. destruct (Hlegs u l Hu) as (_ & _ & ? & ?). split; [apply Hdom; eauto|done]. }
  assert (Hl : ∀ u l, working !! u = Some l → 0 ≤ units (left l) ∧ 0 ≤ units (right l)).
  { intros u l Hu. destruct (Hlegs u l Hu) as (? & ? & _). done. }
  assert (Hc : ∀ c, cap_per_period pairing = Some c → 0 ≤ units (dec c)) by (intros c Hc; by apply Hcap).
  eapply returns_bind; [eapply returns_weaken; [by apply pay_pairs_spec|intros x H; exact H|]|].
  { intros e (ne & u & legs & -> & Hu & Hel & H1 & H2 & H3). right. left. exists u, legs. split_and!; [by apply Hat|done..]. }
  intros raw Hpaid.
  pose proof Hpaid as (Hnd & Hmem & Hraw).
  eapply returns_bind.
  { unfold numeric. eapply returns_map_err; [apply (finalize_spec places Hp4)|].
    - apply (earnings_few working); [done..|]. intros u Hu. by apply Hmem.
    - intros e He. destruct (Hraw e He) as (legs & r & He'). pose proof (pe_nonneg _ _ _ _ _ _ _ _ _ He') as Hr.
      pose proof (cap_amount_spec (uses_aggregate_cap (multi_position_cap_mode pairing) ownership)
        (cap_per_period pairing) r Hr Hc) as Hca.
      rewrite <- (pe_amount _ _ _ _ _ _ _ _ _ He') in Hca. destruct Hca as (? & Hu & _). split; [done|].
      intros [c (Huse & _)%aggregate_cap_some]. by apply Hu.
    - intros c (_ & x & Hx & ->)%aggregate_cap_some. by apply Hcap.
    - intros ne (c & group & (Huse & x & Hx & ->)%aggregate_cap_some & Hsub & Hcut). right. right. left.
      exists places, x, group. split_and!; [done..| |done]. intros e He. destruct (Hraw e (Hsub e He)) as (legs & r & [P1 P2 P3 _ _ _ _ _ P7 _ P9]).
      unfold cap_amount in P9. rewrite Huse in P9. injection P9 as -> _. unfold qualifies. rewrite <- P2. split_and!; [done..|].
      exists legs. split; [by apply Hat|done]. }
  intros es Hset. eapply returns_bind; [eapply returns_weaken; [apply carry_pairs_spec|intros x H; exact H|]|].
  { intros e (ne & u & legs & -> & Hu & Hne). right. right. right. exists u, legs. split; [by apply Hat|done]. }
  intros carry Hcarry. cbn [returns].
  exists places, working, raw. by split.
Qed.
End pairing_calculator.
