(* ===== verification/BinaryCycle.v ===== *)
(** * Cycle-step commissions: [commission/binary.rs] and [config/binary.rs]

    [run_cycles] computes in constant time what paying one cycle after another
    computes: the closed form is proved equal to that loop. The config's
    [validate] establishes what the closed form relies on. *)

From stdpp Require Import base numbers list gmap sorting strings.
From Stdlib Require Import ZArith Lia.
From S2P Require Import Prelude RustDecimal Dec Allocate Ratio TreeTypes Arena ArenaWf ArenaOps ArenaWalk SlotMap Binary Navigator CommissionTypes Walk WalkPrepare Currency BinaryCommission BinaryLegs BinaryCalc.
#[local] Open Scope Z_scope.

(** ** Validated configurations *)
Section validate.
Context {D : Type} `{!DecimalOps D, !DecimalLaws D}.
Abbreviation thr s := (units (dec (threshold s))).
Abbreviation amt s := (units (dec (amount s))).

Record valid_steps (c : CycleStepConfig D) : Prop := {
  vs_nonempty : cs_steps c ≠ [];
  vs_positive s : s ∈ cs_steps c → 0 < thr s ∧ 0 < amt s;
  vs_ascending : StronglySorted (λ a b : CycleStep D, thr a < thr b) (cs_steps c);
  vs_mode : volume_after_cycle c ≠ NetOff;
  vs_carry_cap x : cs_carry_forward_cap c = Some x → 0 ≤ units (dec x);
}.

(** The config with its steps in order, and nothing else changed. *)
Definition same_config (config c : CycleStepConfig D) : Prop :=
  cs_steps c ≡ₚ cs_steps config ∧ volume_after_cycle c = volume_after_cycle config ∧
  cs_cap_per_period c = cs_cap_per_period config ∧ cs_carry_forward_cap c = cs_carry_forward_cap config ∧
  cs_multi_position_cap_mode c = cs_multi_position_cap_mode config.

Lemma step_comparator : Comparator (λ a b : CycleStep D, dcompare (dec (threshold a)) (dec (threshold b))).
Proof using DecimalLaws0.
  split; intros *; rewrite !compare_units.
  - apply Z.compare_antisym.
  - rewrite !Z.compare_lt_iff. lia.
  - intros ->%Z.compare_eq. done.
Qed.

Lemma check_step_ok (s : CycleStep D) : check_step s = Ok () → 0 < thr s ∧ 0 < amt s.
Proof using DecimalLaws0.
  unfold check_step. rewrite bind_unit_ok, !refuse_if_ok, !dec_leb_units, zero_units, !Z.leb_gt. done.
Qed.

Lemma check_duplicate_ok (l : list (CycleStep D)) : StronglySorted (λ a b, thr a ≤ thr b) l →
  check_duplicate l = Ok () → StronglySorted (λ a b, thr a < thr b) l.
Proof using DecimalLaws0.
  induction 1 as [|a l Hl IH Ha]; intros Hd; [constructor|]. destruct l as [|b l]; [by repeat constructor|].
  cbn [check_duplicate] in Hd. rewrite bind_unit_ok, refuse_if_ok in Hd. destruct Hd as [Hne Hd].
  rewrite compare_units in Hne. specialize (IH Hd). constructor; [done|].
  apply Forall_cons in Ha as [Hab _]. assert (thr a < thr b) by (destruct (Z.compare_spec (thr a) (thr b)); [done|done|lia]).
  constructor; [done|]. apply StronglySorted_inv in IH as [_ Hb]. eapply Forall_impl; [exact Hb|]. cbn. intros s Hs. lia.
Qed.

Lemma validate_ok (config c : CycleStepConfig D) : validate config = Ok c → valid_steps c ∧ same_config config c.
Proof using DecimalLaws0.
  unfold validate. rewrite !bind_unit_ok, !refuse_if_ok. intros (Hne & Hall & Hdup & Hmode & _ & Hcf & [= <-]).
  apply bool_decide_eq_false in Hne. rewrite for_each_ok in Hall. split; [split; cbn|].
  - intros Heq. apply Hne. rewrite <- (sort_by_perm (λ a b, dcompare (dec (threshold a)) (dec (threshold b))) (cs_steps config)).
    unfold sort_steps in Heq. by rewrite Heq.
  - intros s. unfold sort_steps. rewrite sort_by_perm. intros Hs. by apply check_step_ok, Hall.
  - apply check_duplicate_ok; [|done]. pose proof step_comparator as Hc.
    pose proof (sort_sorted (λ a b : CycleStep D, dcompare (dec (threshold a)) (dec (threshold b))) (cs_steps config)) as Hs.
    fold (sort_steps (cs_steps config)) in Hs. clear -Hs DecimalLaws0. induction Hs as [|x k _ IH Hx]; constructor; [done|].
    eapply Forall_impl; [exact Hx|]. intros y. unfold cmp_leb. rewrite compare_units.
    destruct (Z.compare_spec (thr x) (thr y)); [lia|lia|done].
  - by destruct (volume_after_cycle config).
  - intros x Hx. unfold check_non_negative in Hcf. rewrite Hx, refuse_if_ok, is_negative_units, Z.ltb_ge in Hcf. done.
  - unfold same_config. cbn. split_and!; try done. apply sort_by_perm.
Qed.

Lemma check_duplicate_total (l : list (CycleStep D)) : returns (λ _, True) (λ _, True) (check_duplicate l).
Proof.
  induction l as [|a l IH]; [done|]. destruct l as [|b l]; [done|]. cbn [check_duplicate]. by apply returns_guard.
Qed.

Lemma validate_total (config : CycleStepConfig D) : returns (λ _, True) (λ _, True) (validate config).
Proof.
  assert (Hcap : ∀ cap why, returns (λ _, True) (λ _, True) (check_non_negative (D := D) cap why)).
  { intros [x|] why; [|done]. unfold check_non_negative, refuse_if. by case_match. }
  unfold validate. apply returns_guard; [done|]. intros _.
  eapply returns_seq.
  { apply (returns_for_each _ (λ _, True)). intros s _. unfold check_step. apply returns_guard; [done|]. intros _.
  unfold refuse_if. by case_match. }
  intros _. eapply (returns_seq _ True); [apply check_duplicate_total|]. intros _. apply returns_guard; [done|]. intros _.
  eapply (returns_seq _ True); [apply Hcap|]. intros _. by eapply (returns_seq _ True); [apply Hcap|].
Qed.
End validate.

(** ** The closed form *)

(** Paying one full cycle after another, while the weaker leg covers it. *)
Fixpoint cycle_loop (fuel : nat) (highest all l r earned : Z) : option (Z * Z * Z) :=
  match fuel with
  | O => None
  | S fuel' => if highest <=? Z.min l r then cycle_loop fuel' highest all (l - highest) (r - highest) (earned + all)
               else Some (earned, l, r)
  end.

Lemma cycle_loop_closed q highest all l r earned : 0 < highest →
  highest * Z.of_nat q ≤ Z.min l r < highest * (Z.of_nat q + 1) →
  cycle_loop (S q) highest all l r earned =
  Some (earned + Z.of_nat q * all, l - highest * Z.of_nat q, r - highest * Z.of_nat q).
Proof.
  intros Hh. revert l r earned. induction q as [|q IH]; intros l r earned Hq; cbn [cycle_loop].
  - rewrite (proj2 (Z.leb_gt highest (Z.min l r))) by lia. f_equal; f_equal; [f_equal|]; lia.
  - rewrite Nat2Z.inj_succ in *. assert (0 ≤ highest * Z.of_nat q) by nia.
    rewrite (proj2 (Z.leb_le highest (Z.min l r))) by lia.
    etransitivity; [apply (IH (l - highest) (r - highest) (earned + all)); lia|]. f_equal; f_equal; [f_equal|]; lia.
Qed.

Section run_cycles.
Context {D : Type} `{!DecimalOps D, !DecimalLaws D} (c : CycleStepConfig D) (Hc : valid_steps c).
Abbreviation thr s := (units (dec (threshold s))).
Abbreviation amt s := (units (dec (amount s))).

Definition all_amounts : Z := total_units ((λ s, dec (amount s)) <$> cs_steps c).
Definition highest_threshold : Z := from_option (λ s, thr s) 0 (last (cs_steps c)).

(** The steps a matched volume reaches, and what they pay. *)
Definition reached (m : Z) : Z := total_units ((λ s, dec (amount s)) <$> filter (λ s, thr s ≤ m) (cs_steps c)).

(** What a position's legs earn and leave. *)
Definition cycle_result (legs : LegVolumes D) (total l r : D) : Prop :=
  match volume_after_cycle c with
  | CarryForward => ∃ fuel earned,
  cycle_loop fuel highest_threshold all_amounts (units (left legs)) (units (right legs)) 0 =
    Some (earned, units l, units r) ∧
  units total = earned + reached (Z.min (units l) (units r))
  | FullFlush =>
  if highest_threshold <=? Z.min (units (left legs)) (units (right legs))
  then units total = all_amounts ∧ units l = 0 ∧ units r = 0
  else l = left legs ∧ r = right legs ∧ units total = reached (Z.min (units l) (units r))
  | NetOff => False
  end.

(** What the full cycles earn and leave, before the partial one. *)
Definition after_cycles (legs : LegVolumes D) (earned l r : Z) : Prop :=
  match volume_after_cycle c with
  | CarryForward => ∃ fuel,
  cycle_loop fuel highest_threshold all_amounts (units (left legs)) (units (right legs)) 0 = Some (earned, l, r)
  | FullFlush => Z.min (units (left legs)) (units (right legs)) < highest_threshold ∧
  earned = 0 ∧ l = units (left legs) ∧ r = units (right legs)
  | NetOff => False
  end.

(** The exact results the closed form needs, one of which no decimal holds: the
    amounts of the first steps, the number of full cycles, what they pay, use or
    leave, or the total with the first steps of the partial cycle. *)
Definition run_refused (legs : LegVolumes D) (ne : NumericError D) : Prop :=
  sum_refused 0 ((λ s, dec (amount s)) <$> cs_steps c) ne ∨
  (volume_after_cycle c = CarryForward ∧ highest_threshold ≤ Z.min (units (left legs)) (units (right legs)) ∧
   let q := Z.min (units (left legs)) (units (right legs)) / highest_threshold in
   refused OpFloorDiv q 0 ne ∨ refused OpMul (q * all_amounts) 28 ne ∨ refused OpMul (q * highest_threshold) 28 ne ∨
   refused OpSub (units (left legs) - q * highest_threshold) 28 ne ∨ refused OpSub (units (right legs) - q * highest_threshold) 28 ne) ∨
  ∃ earned l r pre post, after_cycles legs earned l r ∧ cs_steps c = pre ++ post ∧
   refused OpAdd (earned + total_units ((λ s, dec (amount s)) <$> filter (λ s, thr s ≤ Z.min l r) pre)) 28 ne.

Lemma highest_spec : ∃ s, last (cs_steps c) = Some s ∧ highest_threshold = thr s ∧ 0 < thr s.
Proof using Hc.
  destruct (last (cs_steps c)) as [s|] eqn:Hs.
  - exists s. split_and!; [done|unfold highest_threshold; by rewrite Hs|].
    apply (vs_positive c Hc). by apply last_Some_elem_of.
  - apply last_None in Hs. by destruct (vs_nonempty c Hc).
Qed.

Lemma reached_below s m : head (cs_steps c) = Some s → m < thr s → reached m = 0.
Proof using Hc.
  intros Hs Hm. unfold reached. rewrite filter_all_false; [done|]. destruct (cs_steps c) as [|s' k] eqn:E; [done|].
  injection Hs as ->. pose proof (vs_ascending c Hc) as Ha. rewrite E in Ha. apply StronglySorted_inv in Ha as [_ Ha].
  rewrite Forall_forall in Ha. intros x [->|Hx]%elem_of_cons; [lia|]. specialize (Ha x Hx). lia.
Qed.

(** The partial cycle adds what the remaining volume reaches. *)
Lemma partial_spec (l r total : D) s : head (cs_steps c) = Some s →
  returns (λ t, units t = units total + reached (Z.min (units l) (units r)))
  (λ ne, thr s ≤ Z.min (units l) (units r) ∧ ∃ pre post, cs_steps c = pre ++ post ∧ refused OpAdd (units total +
    total_units ((λ s, dec (amount s)) <$> filter (λ s, thr s ≤ Z.min (units l) (units r)) pre)) 28 ne)
  (if dec_leb (dec (threshold s)) (dec_min l r)
  then fold_outcome (λ total s, if dec_leb (dec (threshold s)) (dec_min l r)
                               then try_add total (dec (amount s)) else Ok total) total (cs_steps c)
  else Ok total).
Proof using Hc DecimalLaws0.
  intros Hs. rewrite dec_leb_units, dec_min_units. destruct (Z.leb_spec (thr s) (Z.min (units l) (units r))) as [Hle|Hgt].
  - apply (returns_fold _ (λ pre t, units t = units total +
      total_units ((λ s, dec (amount s)) <$> filter (λ s, thr s ≤ Z.min (units l) (units r)) pre))).
    { cbn. lia. }
    intros pre x post t Hpre Ht. rewrite dec_leb_units, dec_min_units.
    destruct (Z.leb_spec (thr x) (Z.min (units l) (units r))) as [Hx|Hx].
    + assert (Hnext : units t + amt x = units total +
        total_units ((λ s, dec (amount s)) <$> filter (λ s, thr s ≤ Z.min (units l) (units r)) (pre ++ [x]))).
      { rewrite filter_app, fmap_app, total_units_app, filter_cons_True by lia.
        change (total_units ((λ s, dec (amount s)) <$> x :: filter _ [])) with (amt x + 0). lia. }
      eapply returns_weaken; [apply refuses_add|intros t' Ht'; cbn beta in Ht'; lia|]. intros ne Hne. split; [done|].
      exists (pre ++ [x]), post. rewrite <- app_assoc. split; [done|]. by rewrite <- Hnext.
    + cbn [returns]. rewrite filter_app, fmap_app. rewrite total_units_app, filter_cons_False by lia.
      change (total_units ((λ s, dec (amount s)) <$> filter _ [])) with 0. lia.
  - cbn [returns]. rewrite (reached_below s) by done. lia.
Qed.

Lemma scaled_product (x y z : D) k : units x = k * 10 ^ 28 → units z * 10 ^ 28 = units x * units y → units z = k * units y.
Proof. intros Hx Hz. rewrite Hx in Hz. assert (0 < 10 ^ 28) by done. nia. Qed.

Lemma scaled_refused (x y : D) k (ne : NumericError D) : units x = k * 10 ^ 28 → refused OpMul (units x * units y) 56 ne → refused OpMul (k * units y) 28 ne.
Proof.
  intros -> H. apply (refused_rescale _ _ 28 28); [lia..|]. change (28 + 28) with 56. by replace (k * units y * 10 ^ 28) with (k * 10 ^ 28 * units y) by ring.
Qed.

Lemma run_cycles_spec (legs : LegVolumes D) : 0 ≤ units (left legs) → 0 ≤ units (right legs) →
  returns (λ '(total, (l, r)), cycle_result legs total l r ∧ 0 ≤ units total ∧ 0 ≤ units l ∧ 0 ≤ units r) (run_refused legs)
  (run_cycles c legs).
Proof using Hc DecimalLaws0.
  intros Hl Hr. unfold run_cycles. destruct highest_spec as (h & Hh & Hhe & Hhp).
  destruct (head (cs_steps c)) as [f|] eqn:Hf; [|by destruct (cs_steps c) eqn:E; [destruct (vs_nonempty c Hc)|]].
  eapply returns_bind; [eapply returns_weaken; [apply refuses_sum|intros x H; exact H|by left]|]. intros all Hall. cbn beta in Hall. fold all_amounts in Hall.
  assert (Hap : 0 ≤ all_amounts).
  { unfold all_amounts. rewrite total_units_sum. apply sumZ_nonneg, Forall_forall.
    intros x (d & -> & (s & -> & Hs)%list_elem_of_fmap)%list_elem_of_fmap. by apply Z.lt_le_incl, (vs_positive c Hc). }
  assert (Hrp : ∀ m, 0 ≤ reached m).
  { intros m. unfold reached. rewrite total_units_sum. apply sumZ_nonneg, Forall_forall.
    intros x (d & -> & (s & -> & [_ Hs]%list_elem_of_filter)%list_elem_of_fmap)%list_elem_of_fmap.
    by apply Z.lt_le_incl, (vs_positive c Hc). }
  assert (Hfp : 0 < thr f).
  { apply (vs_positive c Hc). destruct (cs_steps c); [done|]. injection Hf as ->. left. }
  rewrite Hh. cbn [expect mbind outcome_bind].
  set (P := λ '(total, l, r), (∀ t : D, units t = units total + reached (Z.min (units l) (units r)) →
    cycle_result legs t l r ∧ 0 ≤ units t ∧ 0 ≤ units l ∧ 0 ≤ units r) ∧
    (thr f ≤ Z.min (units l) (units r) → after_cycles legs (units total) (units l) (units r))).
  eapply (returns_bind _ P).
  { rewrite dec_leb_units, dec_min_units, <- Hhe. unfold P, cycle_result, after_cycles. rewrite <- Hhe in Hhp.
    destruct (Z.leb_spec highest_threshold (Z.min (units (left legs)) (units (right legs)))) as [Hge|Hlt].
    - destruct (volume_after_cycle c) eqn:Hm; [| |].
      + eapply returns_bind; [eapply returns_weaken; [apply refuses_add|intros x H; exact H|]|].
        { intros ne Hne. rewrite zero_units in Hne. by apply not_refused in Hne. }
        intros total Ht. cbn [returns]. rewrite zero_units in *. split; [|lia].
        intros t. rewrite (reached_below f) by (done || lia). intros Ht'. split_and!; lia.
      + by destruct (vs_mode c Hc).
      + set (q := Z.min (units (left legs)) (units (right legs)) / highest_threshold).
        assert (Hq : 0 ≤ q) by (apply Z.div_pos; lia).
        assert (Hqb : highest_threshold * q ≤ Z.min (units (left legs)) (units (right legs)) < highest_threshold * (q + 1)).
        { pose proof (Z.mul_div_le (Z.min (units (left legs)) (units (right legs))) highest_threshold Hhp).
          pose proof (Z.mul_succ_div_gt (Z.min (units (left legs)) (units (right legs))) highest_threshold Hhp).
          fold q in H, H0. split; lia. }
        assert (Hfull : ∀ ne, refused OpFloorDiv q 0 ne ∨ refused OpMul (q * all_amounts) 28 ne ∨ refused OpMul (q * highest_threshold) 28 ne ∨
          refused OpSub (units (left legs) - q * highest_threshold) 28 ne ∨ refused OpSub (units (right legs) - q * highest_threshold) 28 ne →
          run_refused legs ne) by (intros ne Hne; right; by left).
        eapply returns_bind; [eapply returns_weaken; [apply refuses_floor_div; lia|intros x H; exact H|]|].
        { intros ne Hne. rewrite dec_min_units, <- Hhe in Hne. auto. }
        intros fc Hfc. rewrite dec_min_units, <- Hhe in Hfc. fold q in Hfc.
        eapply returns_bind; [eapply returns_weaken; [apply refuses_mul|intros x H; exact H|]|].
        { intros ne Hne. apply (scaled_refused fc all q) in Hne; [|done]. rewrite Hall in Hne. auto. }
        intros paid Hpaid. eapply returns_bind; [eapply returns_weaken; [apply refuses_add|intros x H; exact H|]|].
        { intros ne Hne. rewrite zero_units in Hne. by apply not_refused in Hne. }
        intros total Htot. eapply returns_bind; [eapply returns_weaken; [apply refuses_mul|intros x H; exact H|]|].
        { intros ne Hne. apply (scaled_refused fc _ q) in Hne; [|done]. rewrite <- Hhe in Hne. apply Hfull. tauto. }
        intros used Hused. apply (scaled_product _ _ _ _ Hfc) in Hpaid, Hused. rewrite <- Hhe in Hused. rewrite zero_units in Htot.
        eapply returns_bind; [eapply returns_weaken; [apply refuses_sub|intros x H; exact H|]|].
        { intros ne Hne. rewrite Hused in Hne. apply Hfull. tauto. }
        intros l' Hl'. eapply returns_bind; [eapply returns_weaken; [apply refuses_sub|intros x H; exact H|]|].
        { intros ne Hne. rewrite Hused in Hne. apply Hfull. tauto. }
        intros r' Hr'. cbn [returns]. cbn beta in *.
        assert (Hloop : cycle_loop (S (Z.to_nat q)) highest_threshold all_amounts (units (left legs)) (units (right legs)) 0 =
          Some (units total, units l', units r')).
        { rewrite cycle_loop_closed by (rewrite ?Z2Nat.id; lia). rewrite Z2Nat.id by done. f_equal; f_equal; [f_equal|]; lia. }
        split; [|intros _; by eexists]. intros t Ht. split_and!.
        * exists (S (Z.to_nat q)), (units total). done.
        * pose proof (Hrp (Z.min (units l') (units r'))). nia.
        * lia.
        * lia.
    - cbn [returns]. rewrite zero_units. split.
      2: { intros _. destruct (volume_after_cycle c) eqn:Hm; [by split_and!|by destruct (vs_mode c Hc)|].
        exists 1%nat. cbn [cycle_loop]. by rewrite (proj2 (Z.leb_gt _ _)) by lia. }
      intros t Ht. split_and!; [|pose proof (Hrp (Z.min (units (left legs)) (units (right legs)))); lia|done|done].
      destruct (volume_after_cycle c) eqn:Hm; [by split_and!|by destruct (vs_mode c Hc)|].
      exists 1%nat, 0. cbn [cycle_loop]. rewrite (proj2 (Z.leb_gt _ _)) by lia. done. }
  intros [[total l] r] [HP Hafter]. rewrite ?Hf. cbn [expect mbind outcome_bind].
  eapply returns_bind; [eapply returns_weaken; [by apply (partial_spec l r total f)|intros x H; exact H|]|].
  { intros ne (Hthr & pre & post & Hsteps & Hne). right. right. exists (units total), (units l), (units r), pre, post. auto. }
  intros t Ht. cbn [returns]. by apply HP.
Qed.
End run_cycles.

(** ** Every position *)
Section pay_cycles.
Context {D : Type} `{!DecimalOps D, !DecimalLaws D} (c : CycleStepConfig D) (Hc : valid_steps c).
Context (use : bool) (ownership : option (gmap Uuid Uuid)) (cache : gmap Uuid bool).
Context (working : gmap Uuid (LegVolumes D)).
Context (Hlegs : ∀ u l, working !! u = Some l → 0 ≤ units (left l) ∧ 0 ≤ units (right l)).
Context (Hcap : ∀ x, cs_cap_per_period c = Some x → 0 ≤ units (dec x)).
Abbreviation state := (gmap Uuid (D * D) * list (BinaryCommissionEarning D))%type.
Abbreviation eligible_at u := (owner_eligible cache (resolve_owner u ownership)).

(** What a position leaves: its legs untouched when it is not eligible. *)
Definition leaves (u : Uuid) (legs : LegVolumes D) (total l r : D) : Prop :=
  if eligible_at u then cycle_result c legs total l r else l = left legs ∧ r = right legs ∧ units total = 0.

Record cycle_earning (e : BinaryCommissionEarning D) (legs : LegVolumes D) (total l r : D) : Prop := {
  ce_legs : working !! position_id e = Some legs;
  ce_owner : be_earner_id e = resolve_owner (position_id e) ownership;
  ce_eligible : owner_eligible cache (be_earner_id e) = true;
  ce_left : left_volume e = left legs;
  ce_right : right_volume e = right legs;
  ce_result : cycle_result c legs total l r;
  ce_positive : 0 < units total;
  ce_amount : (be_dollar_amount e, capped e) = cap_amount use (cs_cap_per_period c) total;
}.

Definition cycles_paid (pre : list Uuid) (st : state) : Prop :=
  NoDup (position_id <$> st.2) ∧ (∀ u, u ∈ position_id <$> st.2 → u ∈ pre) ∧
  (∀ u, is_Some (st.1 !! u) ↔ u ∈ pre) ∧
  (∀ u l r, st.1 !! u = Some (l, r) → ∃ legs total, working !! u = Some legs ∧ leaves u legs total l r ∧
  0 ≤ units l ∧ 0 ≤ units r ∧ (u ∈ position_id <$> st.2 ↔ units total ≠ 0)) ∧
  ∀ e, e ∈ st.2 → ∃ legs total l r, cycle_earning e legs total l r ∧ st.1 !! position_id e = Some (l, r).

(** A position whose owner is eligible and whose cycles are refused. *)
Definition cycles_refused (e : CalculationError D) : Prop :=
  ∃ ne u legs, e = Numeric ne ∧ working !! u = Some legs ∧ eligible_at u = true ∧ run_refused c legs ne.

Lemma pay_cycles_step pre u st : is_Some (working !! u) → u ∉ pre → cycles_paid pre st →
  returns (cycles_paid (pre ++ [u])) cycles_refused
  (pay_cycles c use ownership cache working st u).
Proof using DecimalLaws0 Hc Hlegs Hcap.
  intros [legs Hl] Hu. destruct st as [post es]. intros (Hnd & Hsub & Hdom & Hpost & Hes). cbn in Hnd, Hsub, Hdom, Hpost, Hes.
  destruct (Hlegs u legs Hl) as [Hl0 Hr0]. assert (Hue : u ∉ position_id <$> es) by (intros ?%Hsub; done).
  assert (Hdom' : ∀ p v, is_Some ((<[u := p]> post : gmap Uuid (D * D)) !! v) ↔ v ∈ pre ++ [u]).
  { intros p v. rewrite elem_of_app, <- Hdom, list_elem_of_singleton, lookup_insert_is_Some'. split; intros [?|?]; auto. }
  assert (Hsub' : ∀ v, v ∈ position_id <$> es → v ∈ pre ++ [u]) by (intros v Hv; apply elem_of_app; left; by apply Hsub).
  assert (Hes' : ∀ p e, e ∈ es → ∃ legs total l r, cycle_earning e legs total l r ∧
    (<[u := p]> post : gmap Uuid (D * D)) !! position_id e = Some (l, r)).
  { intros p e He. destruct (Hes e He) as (le & te & l & r & H1 & H2). exists le, te, l, r. split; [done|].
    rewrite lookup_insert_ne; [done|]. intros ->. apply Hue, list_elem_of_fmap_2, He. }
  unfold pay_cycles. rewrite Hl. cbn [expect mbind outcome_bind].
  destruct (owner_eligible cache (resolve_owner u ownership)) eqn:Hel; cbn [negb].
  2:{ cbn [returns]. split_and!; cbn; [done|done|by apply Hdom'| |by apply Hes'].
      intros v l r. rewrite lookup_insert_Some. intros [[<- [= <- <-]]|[_ Hv]]; [|by apply Hpost].
      exists legs, DZERO. unfold leaves. rewrite Hel. split_and!; try done; [apply zero_units|].
      rewrite zero_units. tauto. }
  unfold numeric. eapply returns_bind.
  { eapply returns_map_err; [by apply (run_cycles_spec c Hc legs)|]. intros ne Hne. by exists ne, u, legs. }
  intros [total [l r]] (Hres & Ht0 & Hl0' & Hr0').
  assert (Hleave : leaves u legs total l r) by (unfold leaves; by rewrite Hel).
  destruct (is_zero total) eqn:Hz.
  - apply is_zero_units in Hz. cbn [returns]. split_and!; cbn; [done|done|by apply Hdom'| |by apply Hes'].
    intros v l' r'. rewrite lookup_insert_Some. intros [[<- [= <- <-]]|[_ Hv]]; [|by apply Hpost].
    exists legs, total. split_and!; try done; tauto.
  - assert (Hnz : units total ≠ 0) by (intros H%is_zero_units; congruence).
    destruct (cap_amount use (cs_cap_per_period c) total) as [x b] eqn:Hx. cbn [returns].
    split_and!; cbn [fst snd]; [| |by apply Hdom'| |].
    + rewrite fmap_app. apply NoDup_app. split_and!; [done| |apply NoDup_singleton].
      intros v Hv ->%list_elem_of_singleton. done.
    + intros v. rewrite fmap_app, !elem_of_app. cbn [fmap list_fmap position_id]. intros [Hv|Hv]; [left; by apply Hsub|by right].
    + intros v l' r'. rewrite lookup_insert_Some. intros [[<- [= <- <-]]|[Hne Hv]].
      * exists legs, total. split_and!; try done. rewrite fmap_app, elem_of_app. split; [done|]. intros _. right. left.
      * destruct (Hpost v l' r' Hv) as (lv & tv & ? & ? & ? & ? & Hiff). exists lv, tv. split_and!; try done.
        rewrite fmap_app, elem_of_app, <- Hiff. cbn [fmap list_fmap position_id]. rewrite list_elem_of_singleton.
        split; [intros [?|?]; [done|congruence]|by left].
    + intros e [He | ->%list_elem_of_singleton]%elem_of_app; [by apply Hes'|]. exists legs, total, l, r.
      split; [|apply lookup_insert_eq]. split; cbn; try done. lia.
Qed.

Lemma pay_cycles_spec :
  returns (cycles_paid (sorted_positions working)) cycles_refused
  (fold_outcome (pay_cycles c use ownership cache working) (∅, []) (sorted_positions working)).
Proof using DecimalLaws0 Hc Hlegs Hcap.
  apply (returns_fold _ cycles_paid).
  - split_and!; cbn; [constructor|by intros u ?%elem_of_nil| |by intros u l r ?%lookup_empty_Some|by intros e ?%elem_of_nil].
    intros u. rewrite lookup_empty, elem_of_nil. split; [by intros []|done].
  - intros pre u post es Heq Hp. apply pay_cycles_step; [| |done].
    + apply sorted_positions_elem. rewrite Heq. apply elem_of_app. right. left.
    + pose proof (sorted_positions_nodup working) as Hnd. rewrite Heq in Hnd. apply NoDup_app in Hnd as (_ & Hd & _).
      intros Hu. apply (Hd u Hu). left.
Qed.
End pay_cycles.

(** ** The cycle-step calculator *)
Section cycle_calculator.
Context {D : Type} `{!DecimalOps D, !DecimalLaws D}.
Context (tree : Binary.Binary.BinaryTree) (plan : CompensationPlan D) (structure : BinaryStructureConfig D).
Context (snapshots : gmap Uuid (DistributorSnapshot D)) (volume : list (VolumeSource D)).
Context (prior : gmap Uuid (LegVolumes D)) (ownership : option (gmap Uuid Uuid)).
Abbreviation cache := (evaluate_eligibility snapshots (eligibility plan)).

Record cycle_run (config c : CycleStepConfig D) (res : BinaryCalculationResult D) places working st : Prop := {
  cr_valid : validate config = Ok c;
  cr_prepared : prepared tree plan snapshots volume prior ownership (cs_cap_per_period c) places working;
  cr_paid : cycles_paid c (uses_aggregate_cap (cs_multi_position_cap_mode c) ownership)
          ownership cache working (sorted_positions working) st;
  cr_settled : settlement places (aggregate_cap (uses_aggregate_cap (cs_multi_position_cap_mode c) ownership)
             (cs_cap_per_period c)) st.2 (be_earnings res);
  cr_members u : is_Some (carry_forward res !! u) ↔ contains tree u = true;
  cr_carry u x : carry_forward res !! u = Some x → ∃ l r, st.1 !! u = Some (l, r) ∧
  units (left x) = clip (cs_carry_forward_cap c) (units l) ∧ units (right x) = clip (cs_carry_forward_cap c) (units r);
}.

Lemma cycle_carry_spec (c : CycleStepConfig D) (working : gmap Uuid (LegVolumes D)) (post : gmap Uuid (D * D)) :
  (∀ u, is_Some (working !! u) → is_Some (post !! u)) →
  let carry := map_imap (λ uid _, let '(l, r) := default (DZERO, DZERO) (post !! uid) in
                              Some (carried (cs_carry_forward_cap c) l r)) working in
  (∀ u, is_Some (carry !! u) ↔ is_Some (working !! u)) ∧
  ∀ u x, carry !! u = Some x → ∃ l r, post !! u = Some (l, r) ∧
  units (left x) = clip (cs_carry_forward_cap c) (units l) ∧ units (right x) = clip (cs_carry_forward_cap c) (units r).
Proof using DecimalLaws0.
  intros Hpost carry. split; intros u; unfold carry; rewrite map_lookup_imap.
  - destruct (working !! u); cbn [mbind option_bind]; [|done]. by destruct (default _ _).
  - intros x. destruct (working !! u) as [legs|] eqn:Hw; cbn [mbind option_bind]; [|done].
    destruct (Hpost u) as [[l r] Hp]; [eauto|]. rewrite Hp. cbn [default from_option].
    intros [= <-]. exists l, r. split; [done|]. apply carried_spec.
Qed.

(** A refusal of the arithmetic of cycle steps: the cycles of a position, or the
    split of a shared cap. *)
Definition cycle_refused (config : CycleStepConfig D) (ne : NumericError D) : Prop := ∃ c, validate config = Ok c ∧
  ((∃ u legs, has_legs tree volume prior u legs ∧ qualifies plan snapshots ownership u ∧ run_refused c legs ne) ∨
   split_refused tree plan snapshots volume prior ownership (cs_cap_per_period c) (cs_multi_position_cap_mode c)
     (λ legs x, 0 < units x ∧ ∃ l r, cycle_result c legs x l r) ne).

(** What follows the preparation. *)
Lemma cycle_pay_spec config c places working : sound_inputs tree plan structure → validate config = Ok c →
  prepared tree plan snapshots volume prior ownership (cs_cap_per_period c) places working →
  returns (λ res, ∃ st, cycle_run config c res places working st) (λ e : CalculationError D, ∃ ne, e = Numeric ne ∧ cycle_refused config ne)
  (let use := uses_aggregate_cap (cs_multi_position_cap_mode c) ownership in
  '(post, es) ← fold_outcome (pay_cycles c use ownership cache working) (∅, []) (sorted_positions working);
  es ← numeric (finalize_earnings es (aggregate_cap use (cs_cap_per_period c)) places);
  Ok (mkBinaryResult (sort_by binary_compare es)
   (map_imap (λ uid _, let '(l, r) := default (DZERO, DZERO) (post !! uid) in
                       Some (carried (cs_carry_forward_cap c) l r)) working))).
Proof using DecimalLaws0.
  intros Hin Hval Hpr. pose proof Hpr as [Hpl Hcap Hdom Hlegs _]. destruct (validate_ok config c Hval) as [Hvc _].
  pose proof (minor_units_bound _ _ Hpl) as Hp4.
  assert (Hl : ∀ u l, working !! u = Some l → 0 ≤ units (left l) ∧ 0 ≤ units (right l)).
  { intros u l Hu. destruct (Hlegs u l Hu) as (? & ? & _). done. }
  assert (Hc : ∀ x, cs_cap_per_period c = Some x → 0 ≤ units (dec x)) by (intros x Hx; by apply Hcap).
  assert (Hat : ∀ u l, working !! u = Some l → has_legs tree volume prior u l).
  { intros u l Hu. destruct (Hlegs u l Hu) as (_ & _ & ? & ?). split; [apply Hdom; eauto|done]. }
  cbv zeta. set (use := uses_aggregate_cap (cs_multi_position_cap_mode c) ownership).
  eapply returns_bind; [eapply returns_weaken; [exact (pay_cycles_spec c Hvc use ownership cache working Hl Hc)|intros x H; exact H|]|].
  { intros e (ne & u & legs & -> & Hu & Hel & Hne). exists ne. split; [done|]. exists c. split; [done|]. left. exists u, legs. split; [by apply Hat|done]. }
  intros [post raw] Hpaid.
  pose proof Hpaid as (Hnd & Hsub & Hpd & _ & Hraw). cbn [fst snd] in Hnd, Hsub, Hpd, Hraw.
  eapply returns_bind.
  { unfold numeric. eapply returns_map_err; [apply (finalize_spec places Hp4)|].
    - exact (earnings_few tree plan structure working raw Hin Hdom Hnd Hsub).
    - intros e He. destruct (Hraw e He) as (legs & total & l & r & He' & _).
      pose proof (ce_positive _ _ _ _ _ _ _ _ _ _ He') as Hr.
      pose proof (cap_amount_spec use (cs_cap_per_period c) total (Z.lt_le_incl _ _ Hr) Hc) as Hca.
      rewrite <- (ce_amount _ _ _ _ _ _ _ _ _ _ He') in Hca. destruct Hca as (? & Hu & _). split; [done|].
      intros [x (Huse & _)%aggregate_cap_some]. by apply Hu.
    - intros x (_ & y & Hy & ->)%aggregate_cap_some. by apply Hcap.
    - intros ne (x & group & (Huse & y & Hy & ->)%aggregate_cap_some & Hgroup & Hcut). exists ne. split; [done|]. exists c. split; [done|]. right.
      exists places, y, group. split_and!; [done..| |done]. intros e He. destruct (Hraw e (Hgroup e He)) as (legs & total & l & r & [P1 P2 P3 _ _ P5 P6 P7] & _).
      unfold cap_amount in P7. rewrite Huse in P7. injection P7 as -> _. unfold qualifies. rewrite <- P2. split_and!; [done..|].
      exists legs. split; [by apply Hat|]. eauto. }
  intros es Hset. cbn [returns]. exists (post, raw).
  destruct (cycle_carry_spec c working post (λ u Hu, proj2 (Hpd u) (proj2 (sorted_positions_elem working u) Hu))) as [H1 H2].
  split; [exact Hval|exact Hpr|exact Hpaid|exact Hset| |exact H2]. intros u. rewrite <- Hdom. apply H1.
Qed.

Lemma cycle_spec config : sound_inputs tree plan structure →
  bc_mode (binary_commission structure) = CycleStepMode config →
  returns (λ res, ∃ c places working st, cycle_run config c res places working st)
  (binary_fault tree plan structure snapshots volume prior ownership (cycle_refused config))
  (calculate_binary_pairing tree plan structure snapshots volume prior ownership).
Proof using DecimalLaws0.
  intros Hin Hmode. pose proof Hin as [Hb _ _]. unfold calculate_binary_pairing. rewrite Hmode.
  unfold calculate_binary_cycle_step. eapply (returns_bind _ (λ c, validate config = Ok c)).
  { pose proof (validate_total config) as Htot.
    destruct (validate config) as [c|why| |] eqn:Hval; [done| |done..]. by exists config. }
  intros c Hval. destruct (validate_ok config c Hval) as [_ (_ & _ & Hcp & _)].
  apply (prepare_spec tree Hb plan snapshots volume prior ownership (cs_cap_per_period c)).
  - intros e He. apply fault_prepared. unfold binary_cap. by rewrite Hmode, <- Hcp.
  - intros places working Hpr. pose proof (cycle_pay_spec config c places working Hin Hval Hpr) as Hpay.
    revert Hpay. cbv zeta. destruct (fold_outcome _ _ _) as [[post es]|e| |]; cbn [mbind outcome_bind returns].
    + destruct (numeric _) as [es'|e| |]; cbn [mbind outcome_bind returns].
      * intros [st Hst]. exists c, places, working, st. exact Hst.
      * intros (n & -> & Hn). by right.
      * done.
      * done.
    + intros (n & -> & Hn). by right.
    + done.
    + done.
Qed.
End cycle_calculator.
