(* ===== verification/BinaryTheorems.v ===== *)
(** * Theorems about the binary calculator: [commission/binary.rs]

    End-to-end statements about [calculate_binary_pairing] in both of its modes:
    errors, the volumes an earning reports, what it pays, caps, cycles, and what is
    carried into the next period. *)

From stdpp Require Import base numbers list gmap sorting strings.
From Stdlib Require Import ZArith Lia.
From S2P Require Import Prelude RustDecimal Dec Allocate Ratio TreeTypes Arena ArenaWf ArenaOps ArenaWalk SlotMap Binary Navigator CommissionTypes Walk WalkPrepare Currency BinaryCommission BinaryLegs BinaryCalc BinaryCycle.
#[local] Open Scope Z_scope.

(** ** From the raw earnings to the result *)
Section settled.
Context {D : Type} `{!DecimalOps D, !DecimalLaws D} (places : N) (Hplaces : (places ≤ 4)%N).
Context (use : bool) (cap : option (AuthoredDec D)) (raw out : list (BinaryCommissionEarning D)).
Context (Hset : settlement places (aggregate_cap use cap) raw out).

Lemma settled_from e : e ∈ out → ∃ e0, e0 ∈ raw ∧ finalized places (bool_decide (is_Some (aggregate_cap use cap))) e0 e.
Proof using Hset.
  intros [k Hk]%list_elem_of_lookup. destruct Hset as [(raw' & Hp & Hf) _].
  destruct (Forall2_lookup_r _ _ _ _ _ Hf Hk) as (e0 & He0 & He). exists e0. split; [|done].
  rewrite <- Hp. by eapply list_elem_of_lookup_2.
Qed.

Lemma settled_permutation : position_id <$> out ≡ₚ position_id <$> raw.
Proof using Hset.
  destruct Hset as [(raw' & Hp & Hf) _]. assert (Heq : position_id <$> out = position_id <$> raw').
  { clear -Hf. induction Hf as [|e e' l l' He _ IH]; [done|]. rewrite !fmap_cons, IH. f_equal.
  by destruct (finalized_owner _ _ _ _ He). }
  by rewrite Heq, Hp.
Qed.

Lemma settled_positions u : u ∈ position_id <$> out ↔ u ∈ position_id <$> raw.
Proof using Hset. by rewrite settled_permutation. Qed.

(** What a raw earning is: its worth held to the position's cap. *)
Definition raw_capped (e : BinaryCommissionEarning D) : Prop :=
  ∃ x, 0 ≤ units x ∧ (be_dollar_amount e, capped e) = cap_amount use cap x.

(** A value up to a whole number of units rounds to at most that number. *)
Lemma round_minor_le (d c : D) : units d ≤ units c → (10 ^ (28 - Z.of_N places) | units c) →
  units (round_minor d (Z.of_N places)) ≤ units c.
Proof using Hplaces DecimalLaws0.
  intros Hle [k Hk]. assert (Hb : 0 ≤ Z.of_N places ≤ 28) by lia. pose proof (round_minor_close d _ Hb) as Hc.
  rewrite round_minor_units in * by lia. pose proof (pow10_places places Hplaces) as Hp.
  set (u := 10 ^ (28 - Z.of_N places)) in *. set (r := round_away (units d) u) in *. clearbody u r. rewrite Hk in *.
  apply Z.mul_le_mono_nonneg_r; [lia|]. apply Z.nlt_ge. intros Hlt.
  assert ((k + 1) * u ≤ r * u) by (apply Z.mul_le_mono_nonneg_r; lia). lia.
Qed.

Lemma round_minor_whole (c : D) : (10 ^ (28 - Z.of_N places) | units c) →
  units (round_minor c (Z.of_N places)) = units c.
Proof using Hplaces DecimalLaws0.
  intros Hw. apply round_minor_fixed in Hw; [|done]. by rewrite dec_eqb_units, Z.eqb_eq in Hw.
Qed.

Context (Hraw : ∀ e, e ∈ raw → raw_capped e).
Context (Hcap : ∀ c, cap = Some c → 0 ≤ units (dec c) ∧ (10 ^ (28 - Z.of_N places) | units (dec c))).

Lemma position_cap c e : use = false → cap = Some c → e ∈ out →
  units (be_dollar_amount e) ≤ units (dec c) ∧ (capped e = true → units (be_dollar_amount e) = units (dec c)).
Proof using Hplaces DecimalLaws0 Hset Hraw Hcap.
  intros Huse Hc He. destruct (settled_from e He) as (e0 & He0 & _ & Hfin). destruct (Hcap c Hc) as [H0 Hw].
  destruct (Hraw e0 He0) as (x & Hx & Hca).
  pose proof (cap_amount_spec use cap x Hx (λ c Hc, proj1 (Hcap c Hc))) as Hspec. rewrite <- Hca in Hspec.
  destruct Hspec as (_ & _ & Hf & Ht & Hle). rewrite Huse in Hfin. cbn in Hfin.
  destruct Hfin as [->|[? _]]; [|done]. cbn [with_dollars be_dollar_amount capped]. destruct (capped e0) eqn:Hcp.
  - destruct (Ht eq_refl) as (c' & Hc' & _ & ->). assert (c' = c) as -> by congruence.
    rewrite round_minor_whole by done. done.
  - specialize (Hle Huse eq_refl c Hc). rewrite (Hf eq_refl). split; [|done]. by apply round_minor_le.
Qed.
End settled.

(** ** Statements *)
Section statements.
Context {D : Type} `{!DecimalOps D, !DecimalLaws D, !DivisionLaws D}.
Context (tree : Binary.Binary.BinaryTree) (plan : CompensationPlan D) (structure : BinaryStructureConfig D).
Context (snapshots : gmap Uuid (DistributorSnapshot D)) (volume : list (VolumeSource D)).
Context (prior : gmap Uuid (LegVolumes D)) (ownership : option (gmap Uuid Uuid)).
Abbreviation calculate := (calculate_binary_pairing tree plan structure snapshots volume prior ownership).
Abbreviation prior_left u := (from_option left DZERO (prior !! u)).
Abbreviation prior_right u := (from_option right DZERO (prior !! u)).

(** A refusal of the arithmetic of the mode. *)
Definition mode_refused (ne : NumericError D) : Prop :=
  match bc_mode (binary_commission structure) with
  | Pairing pairing => pairing_refused tree plan structure snapshots volume prior ownership pairing ne
  | CycleStepMode config => cycle_refused tree plan snapshots volume prior ownership config ne
  end.


(** C8. Pairing pays exactly the positions whose owner is eligible and whose two
    legs both have volume. A reported leg is the volume of every source placed in
    that branch of the tree plus what the position carried in; the matched volume
    is the weaker leg; and an amount that was not cut by a cap is the pair's
    worth, computed exactly or rounded once, then rounded to the minor unit. *)
Theorem pairing_earnings_exact pairing res : sound_inputs tree plan structure →
  bc_mode (binary_commission structure) = Pairing pairing → calculate = Ok res →
  ∃ places, minor_units (base_currency (volume_config plan)) = Some places ∧
  (∀ u, u ∈ position_id <$> be_earnings res ↔ contains tree u = true ∧
  (∃ snap, snapshots !! resolve_owner u ownership = Some snap ∧ is_eligible snap (eligibility plan) = true) ∧
  ∃ l r, leg_volume tree volume u 0 (prior_left u) l ∧ leg_volume tree volume u 1 (prior_right u) r ∧
   0 < units l ∧ 0 < units r) ∧
  ∀ e, e ∈ be_earnings res →
  be_earner_id e = resolve_owner (position_id e) ownership ∧
  leg_volume tree volume (position_id e) 0 (prior_left (position_id e)) (left_volume e) ∧
  leg_volume tree volume (position_id e) 1 (prior_right (position_id e)) (right_volume e) ∧
  units (matched_volume e) = Z.min (units (left_volume e)) (units (right_volume e)) ∧
  be_percent e = dec (percent pairing) ∧
  ∃ raw, pair_amount pairing (binary_multiplier plan structure) (mkLegs (left_volume e) (right_volume e)) raw ∧
  (capped e = false → be_dollar_amount e = round_minor raw (Z.of_N places)).
Proof.
  intros Hin Hmode Hres.
  pose proof (pairing_spec tree plan structure snapshots volume prior ownership pairing Hin Hmode) as Hs.
  rewrite Hres in Hs. destruct Hs as (places & working & raw & [Hpr Hpc Hpaid Hset _]).
  pose proof Hpr as [Hpl Hcap Hdom Hlegs Hown]. destruct Hpaid as (_ & Hmem & Hraw). exists places. split; [done|]. split.
  - intros u. rewrite (settled_positions _ _ _ _ _ Hset), Hmem, sorted_positions_elem, Hdom. split.
    + intros [Hc (l & Hl & Hel & Hl0 & Hr0)]. destruct (Hlegs u l Hl) as (? & ? & Hll & Hlr).
      split_and!; [done|by apply eligible_owner|]. exists (left l), (right l). split_and!; [done..|lia|lia].
    + intros (Hc & (snap & Hsnap & Hel) & l & r & Hl & Hr & Hl0 & Hr0). split; [done|].
      destruct (proj2 (Hdom u) Hc) as [legs Hw]. destruct (Hlegs u legs Hw) as (_ & _ & Hl' & Hr').
      exists legs. split; [done|]. split; [unfold owner_eligible, evaluate_eligibility; by rewrite lookup_fmap, Hsnap|].
      destruct Hl as (b & Hb & Hbu), Hl' as (b' & Hb' & Hbu'), Hr as (d & Hd & Hdu), Hr' as (d' & Hd' & Hdu').
      assert (b' = b) as -> by congruence. assert (d' = d) as -> by congruence. lia.
  - intros e He. destruct (settled_from _ _ _ _ _ Hset e He) as (e0 & He0 & _ & Hfin).
    destruct (Hraw e0 He0) as (legs & x & [P1 P2 _ P3 P4 P5 _ P6 P7 P8 P9]).
    destruct (Hlegs _ _ P1) as (_ & _ & Hl & Hr).
    pose proof (cap_amount_spec (uses_aggregate_cap (multi_position_cap_mode pairing) ownership) (cap_per_period pairing) x P8
      (λ c Hc, proj1 (Hcap c Hc))) as Hca. rewrite <- P9 in Hca. destruct Hca as (_ & _ & Hf & _).
    assert (Hkeep : ∀ a b, let e' := with_dollars e0 a b in be_earner_id e' = be_earner_id e0 ∧
      position_id e' = position_id e0 ∧ left_volume e' = left_volume e0 ∧ right_volume e' = right_volume e0 ∧
      matched_volume e' = matched_volume e0 ∧ be_percent e' = be_percent e0) by done.
    assert (Hsame : be_earner_id e = be_earner_id e0 ∧ position_id e = position_id e0 ∧ left_volume e = left_volume e0 ∧
      right_volume e = right_volume e0 ∧ matched_volume e = matched_volume e0 ∧ be_percent e = be_percent e0).
    { destruct Hfin as [->|[_ ->]]; apply Hkeep. }
    destruct Hsame as (-> & -> & -> & -> & -> & ->). rewrite P3, P4, P5, dec_min_units.
    split_and!; [done..|]. exists x. destruct legs as [l r]. split; [exact P7|]. intros Hcp.
    destruct Hfin as [->|[_ Heq]]; [|by rewrite Heq in Hcp]. cbn [with_dollars be_dollar_amount capped] in *. by rewrite (Hf Hcp).
Qed.


Lemma nodup_fmap_inj {A B} (f : A → B) (l : list A) x y : NoDup (f <$> l) → x ∈ l → y ∈ l → f x = f y → x = y.
Proof using Type.
  intros Hnd [i Hi]%list_elem_of_lookup [j Hj]%list_elem_of_lookup Heq.
  assert (i = j) as -> by (eapply (NoDup_lookup (f <$> l)); [done|by rewrite list_lookup_fmap, Hi|by rewrite list_lookup_fmap, Hj, Heq]).
  congruence.
Qed.

(** What a cycle-step result says of a member [u] that carries [x] forward: its
    exact legs, and what running the cycles on them pays and leaves. *)
Definition cycled (c : CycleStepConfig D) (places : N) (res : BinaryCalculationResult D) (u : Uuid) (x : LegVolumes D) : Prop :=
  ∃ legs total l r, has_legs tree volume prior u legs ∧
  leaves c ownership (evaluate_eligibility snapshots (eligibility plan)) u legs total l r ∧ 0 ≤ units total ∧
  units (left x) = clip (cs_carry_forward_cap c) (units l) ∧ units (right x) = clip (cs_carry_forward_cap c) (units r) ∧
  (u ∈ position_id <$> be_earnings res ↔ 0 < units total) ∧
  ∀ e, e ∈ be_earnings res → position_id e = u → be_earner_id e = resolve_owner u ownership ∧
    left_volume e = left legs ∧ right_volume e = right legs ∧
    (capped e = false → be_dollar_amount e = round_minor total (Z.of_N places)).

Lemma cycle_run_cycled config c res places working st :
  cycle_run tree plan snapshots volume prior ownership config c res places working st →
  ∀ u x, carry_forward res !! u = Some x → cycled c places res u x.
Proof using DecimalLaws0.
  intros [_ Hpr (Hnd & _ & _ & Hpost & Hraw) Hset Hmem Hcarry] u x Hx. pose proof Hpr as [_ Hcap Hdom Hlegs _].
  destruct (Hcarry u x Hx) as (l & r & Hlr & Hxl & Hxr).
  assert (Hat : ∀ legs, working !! u = Some legs → has_legs tree volume prior u legs).
  { intros legs Hw. destruct (Hlegs u legs Hw) as (_ & _ & ? & ?). split; [apply Hdom; eauto|done]. }
  destruct (decide (u ∈ position_id <$> st.2)) as [(e0 & -> & He0)%list_elem_of_fmap|Hno].
  - destruct (Hraw e0 He0) as (legs & total & l' & r' & [P1 P2 P3 P4 P5 P6 P7 P8] & Hpos).
    rewrite Hlr in Hpos. injection Hpos as <- <-. exists legs, total, l, r. split_and!; try done.
    + by apply Hat.
    + unfold leaves. by rewrite <- P2, P3.
    + lia.
    + rewrite (settled_positions _ _ _ _ _ Hset). split; [done|]. intros _. by apply list_elem_of_fmap_2.
    + intros e He Hpe. destruct (settled_from _ _ _ _ _ Hset e He) as (e1 & He1 & Hfin). destruct (finalized_owner _ _ _ _ Hfin) as [Hown Hpos].
      assert (e1 = e0) as -> by (apply (nodup_fmap_inj position_id st.2); [exact Hnd|done|done|congruence]).
      destruct Hfin as [_ Hfin].
      pose proof (cap_amount_spec (uses_aggregate_cap (cs_multi_position_cap_mode c) ownership) (cs_cap_per_period c) total
        (Z.lt_le_incl _ _ P7) (λ c Hc, proj1 (Hcap c Hc))) as Hca. rewrite <- P8 in Hca. destruct Hca as (_ & _ & Hf & _).
      assert (left_volume e = left_volume e0 ∧ right_volume e = right_volume e0) as [-> ->] by (by destruct Hfin as [->|[_ ->]]).
      split_and!; [congruence|done..|]. intros Hcp. destruct Hfin as [->|[_ Heq]]; [|by rewrite Heq in Hcp].
      cbn [with_dollars be_dollar_amount capped] in *. by rewrite (Hf Hcp).
  - destruct (Hpost u l r Hlr) as (legs & total & Hw & Hleave & _ & _ & Hiff).
    assert (H0 : units total = 0) by (destruct (decide (units total = 0)) as [|Hne]; [done|]; by apply Hiff in Hne).
    exists legs, total, l, r. split_and!; try done; [by apply Hat|lia| |].
    + rewrite (settled_positions _ _ _ _ _ Hset), H0. split; [done|lia].
    + intros e He Hpe. destruct Hno. rewrite <- (settled_positions _ _ _ _ _ Hset), <- Hpe. by apply list_elem_of_fmap_2.
Qed.

(** C10. Cycle steps pay, at every member, what running the cycles one at a time
    pays: in carry-forward mode the closed form of the code equals the loop that
    takes one full cycle after another off both legs, and adds the steps the rest
    reaches; in full-flush mode a full cycle pays every step once and flushes both
    legs. The legs it starts from are the exact leg volumes; an ineligible owner's
    are left alone. A member earns exactly when this total is positive, once, for
    the total rounded to the minor unit unless a cap cut it, and carries forward
    what the loop leaves of each leg, cut at the carry-forward cap. Nobody else
    earns or carries. *)
Theorem cycle_steps_equal_loop config res : sound_inputs tree plan structure →
  bc_mode (binary_commission structure) = CycleStepMode config → calculate = Ok res →
  ∃ c places, validate config = Ok c ∧ minor_units (base_currency (volume_config plan)) = Some places ∧
  NoDup (position_id <$> be_earnings res) ∧
  ∀ u, match carry_forward res !! u with
   | None => contains tree u = false ∧ u ∉ position_id <$> be_earnings res
   | Some x => contains tree u = true ∧ cycled c places res u x
   end.
Proof.
  intros Hin Hmode Hres.
  pose proof (cycle_spec tree plan structure snapshots volume prior ownership config Hin Hmode) as Hs.
  rewrite Hres in Hs. destruct Hs as (c & places & working & st & Hrun).
  pose proof Hrun as [Hval [Hpl _ Hdom _ _] (Hnd & Hsub & _) Hset Hmem _]. exists c, places. split_and!; [done..| |].
  - by rewrite (settled_permutation _ _ _ _ _ Hset).
  - intros u. specialize (Hmem u). destruct (carry_forward res !! u) as [x|] eqn:Hx.
    + split; [apply Hmem; eauto|]. by eapply cycle_run_cycled.
    + assert (Hu : contains tree u = false) by (destruct (contains tree u); [by destruct (proj2 Hmem eq_refl)|done]). split; [done|].
      rewrite (settled_positions _ _ _ _ _ Hset). intros Hin'%Hsub%sorted_positions_elem%Hdom. congruence.
Qed.


(** For an eligible position [CarryForward] and [NetOff] carry the same volume: the
    stronger leg loses the matched volume in both. *)
Lemma carry_forward_is_net_off (p q : PairingConfig D) cache u legs :
  volume_after_payout p = CarryForward → volume_after_payout q = NetOff →
  owner_eligible cache (resolve_owner u ownership) = true →
  pair_carry p ownership cache u legs = pair_carry q ownership cache u legs.
Proof.
  intros Hp Hq Hel. unfold pair_carry. rewrite Hp, Hq, Hel.
  destruct (Z.leb_spec (units (left legs)) (units (right legs))); f_equal; lia.
Qed.
End statements.
