(* ===== verification/BoardEngine.v ===== *)
(** * The board plan engine: [board_plan/engine.rs]

    The engine seats members on boards. A full board cycles: its top member
    leaves and re-enters another board or waits, displaced, and the board is split
    into one board per child of the top. A re-entry can fill another board, so
    cycles cascade up to a configured depth.

    [Uuid::new_v4()] is called once per board, when it receives its sequence
    number: [fresh s] is the id drawn for number [s]. A request changes the engine
    through [&mut self], so an error reply carries the engine as the call left it.
    A loop over the values of the boards map runs over [map_to_list]; the sorts
    make the order immaterial when sequence numbers are distinct. *)

From stdpp Require Import base numbers list gmap sorting strings.
From Stdlib Require Import ZArith Lia.
From S2P Require Import Prelude RustDecimal Dec TreeTypes ArenaCheck Currency Board.

Module Engine.
Inductive BoardPlanError :=
| MemberAlreadyExists (u : Uuid)
| MemberAwaitingReassignment (u : Uuid)
| SponsorNotFound (u : Uuid)
| BoardNotFound (b : Uuid)
| MemberNotFound (u : Uuid)
| NoBoardsAvailable
| BoardFull (board_id : Uuid) (filled total : nat)
| InvalidDimensions (width height : N).

Section engine.
Context {D : Type}.

Record BoardPlanEngine := mkEngine {
  width : N;
  height : N;
  total_positions : nat;
  boards : gmap Uuid Board.Board;
  member_boards : gmap Uuid Uuid;
  sponsor_map : gmap Uuid Uuid;
  displaced_members : list Uuid;
  next_board_seq : N;
  config : BoardPlanConfig (D := D);
}.

(** Field updates. *)
Definition with_boards (f : gmap Uuid Board.Board → gmap Uuid Board.Board) (e : BoardPlanEngine) : BoardPlanEngine :=
  mkEngine (width e) (height e) (total_positions e) (f (boards e)) (member_boards e) (sponsor_map e)
    (displaced_members e) (next_board_seq e) (config e).
Definition with_members (f : gmap Uuid Uuid → gmap Uuid Uuid) (e : BoardPlanEngine) : BoardPlanEngine :=
  mkEngine (width e) (height e) (total_positions e) (boards e) (f (member_boards e)) (sponsor_map e)
    (displaced_members e) (next_board_seq e) (config e).
Definition with_sponsors (f : gmap Uuid Uuid → gmap Uuid Uuid) (e : BoardPlanEngine) : BoardPlanEngine :=
  mkEngine (width e) (height e) (total_positions e) (boards e) (member_boards e) (f (sponsor_map e))
    (displaced_members e) (next_board_seq e) (config e).
Definition with_displaced (f : list Uuid → list Uuid) (e : BoardPlanEngine) : BoardPlanEngine :=
  mkEngine (width e) (height e) (total_positions e) (boards e) (member_boards e) (sponsor_map e)
    (f (displaced_members e)) (next_board_seq e) (config e).
Definition with_next_seq (s : N) (e : BoardPlanEngine) : BoardPlanEngine :=
  mkEngine (width e) (height e) (total_positions e) (boards e) (member_boards e) (sponsor_map e)
    (displaced_members e) s (config e).

Definition set_positions (f : list (option Uuid) → list (option Uuid)) (b : Board.Board) : Board.Board :=
  Board.mkBoard (Board.id b) (f (Board.positions b)) (Board.created_at b) (Board.seq b)
    (Board.last_activity_at b) (Board.parent_board_id b).
Definition touch (timestamp : Z) (b : Board.Board) : Board.Board :=
  Board.mkBoard (Board.id b) (Board.positions b) (Board.created_at b) (Board.seq b)
    timestamp (Board.parent_board_id b).

(** The results of the requests. *)
Record AddMemberResult := mkAdded { ar_board_id : Uuid; ar_position : nat; ar_cycle_events : list CycleEvent }.
Record RemoveMemberResult := mkRemoved { compacted : list Uuid; rr_cycle_events : list CycleEvent }.
Record StalledBoard := mkStalled {
  sb_board_id : Uuid;
  sb_last_activity_at : Z;
  filled_positions : nat;
  sb_total_positions : nat;
  sb_members : list Uuid;
}.
Record DissolutionResult := mkDissolved {
  dissolved_board_id : Uuid;
  dr_displaced_members : list Uuid;
  dr_cycle_events : list CycleEvent;
}.
Record CompressedMember := mkCompressed { cm_user_id : Uuid; cm_board_id : Uuid }.
Record CompressionResult := mkCompression { compressed : list CompressedMember; cr_cycle_events : list CycleEvent }.
Record BoardSummary := mkSummary {
  bs_id : Uuid;
  bs_filled_count : nat;
  bs_total_positions : nat;
  bs_created_at : Z;
  bs_last_activity_at : Z;
  bs_parent_board_id : option Uuid;
}.

(** A call on [&mut self] that returns a [Result]. *)
Definition reply (A : Type) : Type := outcome Empty_set (BoardPlanEngine * (A + BoardPlanError)).

(** Code that cannot fail, over the engine and the events collected so far. *)
Definition cycling : Type := BoardPlanEngine * list CycleEvent.

Section fresh.
Context (fresh : N → Uuid).

Definition new (width height : N) (config : BoardPlanConfig) (timestamp : Z) : outcome BoardPlanError BoardPlanEngine :=
  refuse_if (negb (bool_decide (2 ≤ width ≤ 5)%N)) (InvalidDimensions width height);;
  refuse_if (negb (bool_decide (1 ≤ height ≤ 4)%N)) (InvalidDimensions width height);;
  let total_positions := Board.total_positions width height in
  let initial_board := Board.new (fresh 0) total_positions timestamp None 0 in
  Ok (mkEngine width height total_positions {[Board.id initial_board := initial_board]} ∅ ∅ [] 1 config).

(** ** Queries *)
Definition dimensions (e : BoardPlanEngine) : N * N := (width e, height e).
Definition board_count (e : BoardPlanEngine) : nat := size (boards e).
Definition get_board (e : BoardPlanEngine) (board_id : Uuid) : option Board.Board := boards e !! board_id.
Definition get_member_board (e : BoardPlanEngine) (user_id : Uuid) : option Uuid := member_boards e !! user_id.

(** [(b.created_at, b.seq)]. *)
Definition age (x y : Board.Board) : comparison :=
  then_with (Z.compare (Board.created_at x) (Board.created_at y)) (N.compare (Board.seq x) (Board.seq y)).

Definition values (e : BoardPlanEngine) : list Board.Board := (map_to_list (boards e)).*2.

Definition list_boards (e : BoardPlanEngine) : list BoardSummary :=
  (λ b, mkSummary (Board.id b) (Board.filled_count b) (total_positions e) (Board.created_at b)
          (Board.last_activity_at b) (Board.parent_board_id b)) <$> sort_by age (values e).

Definition detect_stalled_boards (e : BoardPlanEngine) (cutoff_timestamp : Z) : list StalledBoard :=
  (λ b, mkStalled (Board.id b) (Board.last_activity_at b) (Board.filled_count b) (total_positions e) (Board.members b))
  <$> sort_by age (filter (λ b, (Board.last_activity_at b < cutoff_timestamp)%Z) (values e)).

(** ** Placement *)

(** [min_by_key]: the first of the least. *)
Definition older (held : option Board.Board) (b : Board.Board) : option Board.Board :=
  match held with
  | None => Some b
  | Some h => match age b h with Lt => Some b | _ => Some h end
  end.

Definition has_opening (b : Board.Board) : bool := bool_decide (is_Some (Board.first_open_position b)).

Definition oldest_board_with_opening (e : BoardPlanEngine) : outcome BoardPlanError Uuid :=
  ok_or (Board.id <$> foldl older None (filter (λ b, has_opening b = true) (values e))) NoBoardsAvailable.

Definition find_placement_board (e : BoardPlanEngine) (sponsor_id : Uuid) : outcome BoardPlanError Uuid :=
  match re_entry_position (config e) with
  | Bottom => oldest_board_with_opening e
  | SponsorBoard =>
      match member_boards e !! sponsor_id with
      | Some sponsor_board_id =>
          match boards e !! sponsor_board_id with
          | Some board => if has_opening board then Ok sponsor_board_id else oldest_board_with_opening e
          | None => oldest_board_with_opening e
          end
      | None => oldest_board_with_opening e
      end
  end.

(** The writes that seat [user_id] at [position] of a board. *)
Definition seat (e : BoardPlanEngine) (board_id : Uuid) (board : Board.Board) (position : nat) (user_id : Uuid)
  (timestamp : Z) : BoardPlanEngine :=
  with_members <[user_id := board_id]>
    (with_boards <[board_id := touch timestamp (set_positions <[position := Some user_id]> board)]> e).

(** ** Cycling *)
Definition new_board (e : BoardPlanEngine) (timestamp : Z) (parent_board_id : option Uuid)
  : outcome Empty_set (BoardPlanEngine * Board.Board) :=
  let seq := next_board_seq e in
  next ← u64_add seq 1;
  Ok (with_next_seq next e, Board.new (fresh seq) (total_positions e) timestamp parent_board_id seq).

(** One subtree member moves to its position on the new board; an index outside
    either array panics. *)
Definition move_member (board : Board.Board) (st : BoardPlanEngine * Board.Board) (entry : nat * nat)
  : outcome Empty_set (BoardPlanEngine * Board.Board) :=
  let '(e, new_board) := st in
  let '(new_pos, old_index) := entry in
  occupant ← expect (Board.positions board !! old_index);
  match occupant with
  | None => Ok (e, new_board)
  | Some member_id =>
      _ ← expect (Board.positions new_board !! new_pos);
      Ok (with_members <[member_id := Board.id new_board]> e, set_positions <[new_pos := Some member_id]> new_board)
  end.

(** The board of one child of the top. *)
Definition split_child (board : Board.Board) (timestamp : Z) (max_index : nat) (st : BoardPlanEngine * list Uuid)
  (child_index : nat) : outcome Empty_set (BoardPlanEngine * list Uuid) :=
  let '(e, new_board_ids) := st in
  subtree ← Board.subtree_indices child_index (width e) max_index;
  '(e, nb) ← new_board e timestamp (Some (Board.id board));
  '(e, nb) ← fold_outcome (move_member board) (e, nb) (enumerate subtree);
  Ok (with_boards <[Board.id nb := nb]> e, new_board_ids ++ [Board.id nb]).

(** [total_positions - 1] underflows on an empty array. *)
Definition split_board (e : BoardPlanEngine) (board : Board.Board) (timestamp : Z)
  : outcome Empty_set (BoardPlanEngine * list Uuid) :=
  assert_that (negb (total_positions e =? 0)%nat);;
  fold_outcome (split_child board timestamp (total_positions e - 1)) (e, []) (List.seq 1 (N.to_nat (width e))).

(** The re-entry of a member who cycled out, or its displacement. *)
Definition re_enter (e : BoardPlanEngine) (cycled : Uuid) (timestamp : Z) : BoardPlanEngine * option Uuid :=
  let displace := (with_displaced (λ l, l ++ [cycled]) e, None) in
  if re_entry_enabled (config e) then
    let sponsor_id := default cycled (sponsor_map e !! cycled) in
    match find_placement_board e sponsor_id with
    | Ok target_board_id =>
        match boards e !! target_board_id with
        | Some target =>
            match Board.first_open_position target with
            | Some pos => (seat e target_board_id target pos cycled timestamp, Some target_board_id)
            | None => displace
            end
        | None => displace
        end
    | _ => displace
    end
  else displace.

Definition board_is_full (e : BoardPlanEngine) (board_id : Uuid) : bool :=
  match boards e !! board_id with Some b => Board.is_full b | None => false end.

(** One cycle: what [process_cycles] does to a full board before it cascades. *)
Definition cycle_board (e : BoardPlanEngine) (board : Board.Board) (board_id cycled : Uuid) (timestamp : Z)
  : outcome Empty_set (BoardPlanEngine * CycleEvent) :=
  '(e, new_board_ids) ← split_board e board timestamp;
  let e := with_boards (delete board_id) e in
  let e := with_members (delete cycled) e in
  let '(e, re_entry) := re_enter e cycled timestamp in
  Ok (e, mkCycle board_id cycled new_board_ids re_entry).

(** [fuel] bounds the recursion: [max_cascade_depth] levels are enough. *)
Fixpoint process_cycles (fuel : nat) (st : cycling) (board_id : Uuid) (timestamp : Z) (depth : N)
  : outcome Empty_set cycling :=
  let '(e, cycle_events) := st in
  if (max_cascade_depth (config e) <=? depth)%N then Ok st
  else
    match fuel with
    | O => Hang
    | S fuel' =>
      match boards e !! board_id with
      | None => Ok st
      | Some board =>
          if negb (Board.is_full board) then Ok st
          else
            top ← expect (Board.positions board !! 0);
            match top with
            | None => Ok st
            | Some cycled =>
                '(e, event) ← cycle_board e board board_id cycled timestamp;
                let st := (e, cycle_events ++ [event]) in
                depth' ← u32_add depth 1;
                st ← match re_entry_board event with
                  | Some re_board_id =>
                      if board_is_full st.1 re_board_id then process_cycles fuel' st re_board_id timestamp depth' else Ok st
                  | None => Ok st
                  end;
                fold_outcome (λ st new_id,
                  if board_is_full st.1 new_id then process_cycles fuel' st new_id timestamp depth' else Ok st)
                  st (new_boards event)
            end
      end
    end.

(** [self.process_cycles(board_id, timestamp, cycle_events, 0)]. *)
Definition cascade (st : cycling) (board_id : Uuid) (timestamp : Z) : outcome Empty_set cycling :=
  process_cycles (N.to_nat (max_cascade_depth (config st.1))) st board_id timestamp 0.

Definition drain_full_boards (st : cycling) (timestamp : Z) : outcome Empty_set cycling :=
  let full := sort_by age (filter (λ b, Board.is_full b = true) (values st.1)) in
  fold_outcome (λ st board_id, cascade st board_id timestamp) st (Board.id <$> full).

(** One displaced member; one that finds no seat is pushed back. *)
Definition place_displaced (timestamp : Z) (st : cycling) (member_id : Uuid) : outcome Empty_set cycling :=
  let '(e, cycle_events) := st in
  let push_back := Ok (with_displaced (λ l, l ++ [member_id]) e, cycle_events) in
  match oldest_board_with_opening e with
  | Ok board_id =>
      match boards e !! board_id with
      | Some board =>
          match Board.first_open_position board with
          | Some pos =>
              let e := seat e board_id board pos member_id timestamp in
              if board_is_full e board_id then cascade (e, cycle_events) board_id timestamp else Ok (e, cycle_events)
          | None => push_back
          end
      | None => push_back
      end
  | _ => push_back
  end.

Definition place_displaced_members (st : cycling) (timestamp : Z) : outcome Empty_set cycling :=
  let '(e, cycle_events) := st in
  let displaced := displaced_members e in
  fold_outcome (place_displaced timestamp) (with_displaced (λ _, []) e, cycle_events) displaced.

(** ** Requests *)

(** What [add_member] refuses before it changes anything. *)
Definition add_member_refusal (e : BoardPlanEngine) (user_id sponsor_id : Uuid) : option BoardPlanError :=
  if bool_decide (is_Some (member_boards e !! user_id)) then Some (MemberAlreadyExists user_id)
  else if bool_decide (user_id ∈ displaced_members e) then Some (MemberAwaitingReassignment user_id)
  else
    let bootstrap := bool_decide (member_boards e = ∅) && bool_decide (sponsor_map e = ∅) in
    if negb bootstrap && negb (bool_decide (is_Some (member_boards e !! sponsor_id))) &&
       negb (bool_decide (sponsor_id ∈ displaced_members e))
    then Some (SponsorNotFound sponsor_id)
    else if bool_decide (boards e = ∅) then Some NoBoardsAvailable
    else None.

Definition add_member (e : BoardPlanEngine) (user_id sponsor_id : Uuid) (timestamp : Z) : reply AddMemberResult :=
  match add_member_refusal e user_id sponsor_id with
  | Some err => Ok (e, inr err)
  | None =>
      let e := with_sponsors <[user_id := sponsor_id]> e in
      st ← drain_full_boards (e, []) timestamp;
      '(e, cycle_events) ← place_displaced_members st timestamp;
      match find_placement_board e sponsor_id with
      | Ok board_id =>
          match boards e !! board_id with
          | None => Ok (e, inr (BoardNotFound board_id))
          | Some board =>
              match Board.first_open_position board with
              | None => Ok (e, inr NoBoardsAvailable)
              | Some position =>
                  let e := seat e board_id board position user_id timestamp in
                  '(e, cycle_events) ←
                    (if board_is_full e board_id then cascade (e, cycle_events) board_id timestamp
                     else Ok (e, cycle_events));
                  Ok (e, inl (mkAdded board_id position cycle_events))
              end
          end
      | Err err => Ok (e, inr err)
      | Panic => Panic
      | Hang => Hang
      end
  end.

(** One compacted member, and whether it moved. *)
Definition compact_member (board_id : Uuid) (st : BoardPlanEngine * Board.Board * list Uuid)
  (entry : nat * (nat * Uuid)) : outcome Empty_set (BoardPlanEngine * Board.Board * list Uuid) :=
  let '(e, board, moved) := st in
  let '(new_pos, (old_pos, member_id)) := entry in
  _ ← expect (Board.positions board !! new_pos);
  Ok (with_members <[member_id := board_id]> e, set_positions <[new_pos := Some member_id]> board,
      if bool_decide (new_pos ≠ old_pos) then moved ++ [member_id] else moved).

Definition compact_board (e : BoardPlanEngine) (board_id : Uuid) : outcome Empty_set (BoardPlanEngine * list Uuid) :=
  match boards e !! board_id with
  | None => Ok (e, [])
  | Some board =>
      let members_with_positions := omap (λ '(i, p), (λ uid, (i, uid)) <$> p) (enumerate (Board.positions board)) in
      let cleared := set_positions (fmap (λ _, None)) board in
      '(e, board, moved) ← fold_outcome (compact_member board_id) (e, cleared, []) (enumerate members_with_positions);
      Ok (with_boards <[board_id := board]> e, moved)
  end.

(** Clears the first position that holds [user_id]. *)
Definition vacate (user_id : Uuid) (b : Board.Board) : Board.Board :=
  match list_find (λ p, p = Some user_id) (Board.positions b) with
  | Some (pos, _) => set_positions <[pos := None]> b
  | None => b
  end.

Definition take_member_out (st : cycling) (user_id : Uuid) (timestamp : Z)
  : outcome Empty_set (cycling * (list Uuid + BoardPlanError)) :=
  let full_board :=
    match member_boards st.1 !! user_id with
    | Some board_id => if board_is_full st.1 board_id then Some board_id else None
    | None => None
    end in
  '(e, cycle_events) ← match full_board with Some board_id => cascade st board_id timestamp | None => Ok st end;
  match member_boards e !! user_id with
  | None => Ok (with_displaced (filter (λ m, m ≠ user_id)) e, cycle_events, inl [])
  | Some board_id =>
      match boards e !! board_id with
      | None => Ok (e, cycle_events, inr (BoardNotFound board_id))
      | Some board =>
          let e := with_boards <[board_id := touch timestamp (vacate user_id board)]> e in
          let e := with_members (delete user_id) e in
          '(e, moved) ← compact_board e board_id;
          Ok (e, cycle_events, inl moved)
      end
  end.

Definition enrolled (e : BoardPlanEngine) (user_id : Uuid) : bool :=
  bool_decide (is_Some (member_boards e !! user_id)) || bool_decide (user_id ∈ displaced_members e).

Definition remove_member (e : BoardPlanEngine) (user_id : Uuid) (timestamp : Z) : reply RemoveMemberResult :=
  if negb (enrolled e user_id) then Ok (e, inr (MemberNotFound user_id))
  else
    st ← drain_full_boards (e, []) timestamp;
    '((e, cycle_events), result) ← take_member_out st user_id timestamp;
    Ok (e, match result with inl moved => inl (mkRemoved moved cycle_events) | inr err => inr err end).

Definition displace_member (e : BoardPlanEngine) (member : Uuid) : BoardPlanEngine :=
  with_displaced (λ l, l ++ [member]) (with_members (delete member) e).

Definition dissolve_board (e : BoardPlanEngine) (board_id : Uuid) (timestamp : Z) : reply DissolutionResult :=
  match boards e !! board_id with
  | None => Ok (e, inr (BoardNotFound board_id))
  | Some board =>
      if Board.is_full board
      then Ok (e, inr (BoardFull board_id (Board.filled_count board) (length (Board.positions board))))
      else
        let e := with_boards (delete board_id) e in
        let members := Board.members board in
        let e := foldl displace_member e members in
        '(e, cycle_events) ← drain_full_boards (e, []) timestamp;
        Ok (e, inl (mkDissolved board_id members cycle_events))
  end.

(** The loop of [compress_inactive]; an error leaves it. *)
Fixpoint compress_seated (timestamp : Z) (st : cycling) (done : list CompressedMember) (seated : list (Uuid * Uuid))
  : outcome Empty_set (cycling * (list CompressedMember + BoardPlanError)) :=
  match seated with
  | [] => Ok (st, inl done)
  | (member_id, board_id) :: seated' =>
      if negb (enrolled st.1 member_id) then compress_seated timestamp st done seated'
      else
        '(st, result) ← take_member_out st member_id timestamp;
        match result with
        | inl _ => compress_seated timestamp st (done ++ [mkCompressed member_id board_id]) seated'
        | inr err => Ok (st, inr err)
        end
  end.

Definition compress_inactive (e : BoardPlanEngine) (inactive_members : list Uuid) (timestamp : Z) : reply CompressionResult :=
  let seated := omap (λ member_id, (λ board_id, (member_id, board_id)) <$> member_boards e !! member_id) inactive_members in
  st ← drain_full_boards (e, []) timestamp;
  '((e, cycle_events), result) ← compress_seated timestamp st [] seated;
  Ok (e, match result with inl done => inl (mkCompression done cycle_events) | inr err => inr err end).
End fresh.
End engine.
Arguments BoardPlanEngine : clear implicits.
End Engine.
