(* ===== verification/BoardWf.v ===== *)
(** * Well-formed board engines: [board_plan/engine.rs]

    The invariant of the engine, the counts that bound its cycles, and the two
    writes every operation is made of: seating a member on a board with an opening
    and adding one to the displaced pool. *)

From stdpp Require Import base numbers list gmap sorting strings list_numbers.
From Stdlib Require Import ZArith Lia.
From S2P Require Import Prelude RustDecimal Dec TreeTypes Currency Board BoardEngine.
Import Engine.

(** ** Sums over a map *)
Section msum.
Context {A : Type}.
Implicit Types m : gmap Uuid A.

Definition msum (f : A → nat) (m : gmap Uuid A) : nat := sum_list_with (λ e, f e.2) (map_to_list m).

Lemma msum_insert f m k x : m !! k = None → msum f (<[k := x]> m) = f x + msum f m.
Proof. intros Hk. unfold msum. by rewrite map_to_list_insert. Qed.

Lemma msum_delete f m k x : m !! k = Some x → msum f m = f x + msum f (delete k m).
Proof. intros Hk. unfold msum. by rewrite <- (map_to_list_delete m k x Hk). Qed.

Lemma msum_update f m k x y : m !! k = Some x → f x + msum f (<[k := y]> m) = f y + msum f m.
Proof.
  intros Hk. rewrite <- (insert_delete_eq m k y), msum_insert, (msum_delete f m k x Hk) by apply lookup_delete_eq. lia.
Qed.

Lemma msum_size m : msum (λ _, 1) m = size m.
Proof.
  unfold msum. rewrite <- length_map_to_list. generalize (map_to_list m). intros l.
  induction l as [|e l IH]; cbn; [done|]. by rewrite IH.
Qed.

Lemma msum_le f g m : (∀ k x, m !! k = Some x → f x ≤ g x) → msum f m ≤ msum g m.
Proof.
  unfold msum. intros H. assert (Hl : ∀ e, e ∈ map_to_list m → f e.2 ≤ g e.2).
  { intros [k x] Hx%elem_of_map_to_list. by eapply H. }
  revert Hl. generalize (map_to_list m). intros l Hl. clear H. induction l as [|e l IH]; cbn; [done|].
  pose proof (Hl e ltac:(left)). enough (sum_list_with (λ e, f e.2) l ≤ sum_list_with (λ e, g e.2) l) by lia.
  apply IH. intros x Hx. apply Hl. by right.
Qed.

Lemma msum_bound f m t : (∀ k x, m !! k = Some x → f x ≤ t) → msum f m ≤ t * size m.
Proof.
  intros H. etrans; [exact (msum_le f (λ _, t) m H)|]. rewrite <- msum_size. unfold msum.
  generalize (map_to_list m). intros l. induction l as [|x l IH]; cbn; lia.
Qed.

(** A sum below a uniform bound has a term below it. *)
Lemma msum_lt_bound f m t : msum f m < t * size m → ∃ k x, m !! k = Some x ∧ f x < t.
Proof.
  intros Hlt. destruct (decide (Exists (λ e, f e.2 < t) (map_to_list m))) as [He|He].
  - apply Exists_exists in He as ([k x] & Hx%elem_of_map_to_list & Hf). eauto.
  - exfalso. rewrite <- msum_size in Hlt. revert He Hlt. unfold msum. generalize (map_to_list m). intros l He Hlt.
    induction l as [|e l IH]; cbn in *; [lia|]. apply IH.
    + intros H. apply He. by apply Exists_cons_tl.
    + assert (t ≤ f e.2); [|lia]. destruct (decide (f e.2 < t)); [|lia]. exfalso. apply He. by apply Exists_cons_hd.
Qed.

Lemma msum_insert_all {B} (f : A → nat) (key : B → Uuid) (val : B → A) m (l : list B) :
  NoDup (key <$> l) → (∀ x, x ∈ l → m !! key x = None) →
  msum f (insert_all key val m l) = sum_list_with (λ x, f (val x)) l + msum f m.
Proof.
  revert m. induction l as [|x l IH]; intros m Hnd Hm; [done|]. rewrite fmap_cons in Hnd.
  apply NoDup_cons in Hnd as [Hx Hnd]. unfold insert_all. cbn [foldl]. fold (insert_all key val (<[key x := val x]> m) l).
  rewrite IH, msum_insert; [cbn; lia|apply Hm; left|done|]. intros y Hy. rewrite lookup_insert_ne; [apply Hm; by right|].
  intros Heq. apply Hx. rewrite Heq. by apply list_elem_of_fmap_2.
Qed.
End msum.

(** ** A board filled from position zero *)

(** [us] from position zero, the rest of [t] positions open. *)
Definition filled (t : nat) (us : list Uuid) : list (option Uuid) := (Some <$> us) ++ replicate (t - length us) None.

Definition packed (t : nat) (b : Board.Board) : Prop :=
  Board.positions b = filled t (Board.members b) ∧ length (Board.members b) ≤ t.

Lemma filled_open t us : length us < t → filled t us !! length us = Some None.
Proof.
  intros Hlt. unfold filled. rewrite lookup_app_r, length_fmap, Nat.sub_diag by (by rewrite length_fmap).
  apply lookup_replicate. split; [done|lia].
Qed.

Lemma filled_next t us u : length us < t → <[length us := Some u]> (filled t us) = filled t (us ++ [u]).
Proof.
  intros Hlt. unfold filled. rewrite fmap_app, <- app_assoc, length_app.
  replace (length us) with (length (Some <$> us) + 0) at 1 by (rewrite length_fmap; lia). rewrite insert_app_r.
  f_equal. destruct (t - length us) as [|n] eqn:E; [lia|]. cbn. do 2 f_equal. lia.
Qed.

Lemma omap_Some_id (ms : list Uuid) : omap (λ p, p) (Some <$> ms) = ms.
Proof. induction ms as [|u ms IH]; [done|]. cbn. by f_equal. Qed.

Lemma omap_replicate_None n : omap (λ p : option Uuid, p) (replicate n None) = [].
Proof. by induction n. Qed.

Lemma elem_of_members b u : u ∈ Board.members b ↔ Some u ∈ Board.positions b.
Proof. unfold Board.members. rewrite list_elem_of_omap. naive_solver. Qed.

(** The form a board takes when its positions are written from zero. *)
Lemma packed_intro t b ms : Board.positions b = filled t ms → length ms ≤ t →
  packed t b ∧ Board.members b = ms.
Proof.
  intros Hp Hl. assert (Hm : Board.members b = ms).
  { unfold Board.members. rewrite Hp. unfold filled. rewrite omap_app, omap_Some_id, omap_replicate_None. apply app_nil_r. }
  by rewrite <- Hm in Hp, Hl.
Qed.

Section packed.
Context (t : nat) (b : Board.Board) (Hb : packed t b).

Lemma packed_length : length (Board.positions b) = t.
Proof using Hb. destruct Hb as [Hp Hl]. rewrite Hp. unfold filled. rewrite length_app, length_fmap, length_replicate. lia. Qed.

Lemma packed_full : Board.is_full b = true ↔ length (Board.members b) = t.
Proof using Hb.
  destruct Hb as [Hp Hl]. unfold Board.is_full. rewrite forallb_forall. setoid_rewrite <- list_elem_of_In.
  setoid_rewrite bool_decide_eq_true. split.
  - intros H. destruct (decide (length (Board.members b) = t)) as [|Hn]; [done|].
    destruct (H None) as [? [=]]. rewrite Hp. unfold filled. apply elem_of_app. right. apply elem_of_replicate. split; [done|lia].
  - intros Heq p. rewrite Hp. unfold filled. rewrite Heq, Nat.sub_diag, app_nil_r. intros (u & -> & _)%list_elem_of_fmap. eauto.
Qed.

Lemma packed_open :
  Board.first_open_position b = if decide (length (Board.members b) < t) then Some (length (Board.members b)) else None.
Proof using Hb.
  destruct Hb as [Hp Hl]. unfold Board.first_open_position. case_decide as Hlt.
  - apply fmap_Some. exists (length (Board.members b), None). split; [|done]. apply list_find_Some. split_and!; [|done|].
    + rewrite Hp. by apply filled_open.
    + intros j y Hj Hlj. rewrite Hp in Hj. unfold filled in Hj. rewrite lookup_app_l in Hj by (by rewrite length_fmap).
      apply list_lookup_fmap_Some in Hj as (u & -> & _). done.
  - apply fmap_None. apply list_find_None. rewrite Hp. unfold filled. replace (t - _) with 0 by lia. rewrite app_nil_r.
    apply Forall_fmap, Forall_true. done.
Qed.

Lemma packed_has_opening : has_opening b = true ↔ length (Board.members b) < t.
Proof using Hb.
  unfold has_opening. rewrite bool_decide_eq_true, packed_open. case_decide; [naive_solver|].
  split; [by intros [? [=]]|lia].
Qed.

Lemma packed_top u ms : Board.members b = u :: ms → Board.positions b !! 0 = Some (Some u).
Proof using Hb. destruct Hb as [Hp _]. intros Hm. by rewrite Hp, Hm. Qed.

(** Seating at the first opening. *)
Lemma packed_seat pos u ts : Board.first_open_position b = Some pos →
  pos = length (Board.members b) ∧ pos < t ∧
  packed t (touch ts (set_positions <[pos := Some u]> b)) ∧
  Board.members (touch ts (set_positions <[pos := Some u]> b)) = Board.members b ++ [u].
Proof using Hb.
  rewrite packed_open. case_decide as Hlt; [|done]. intros [= <-]. split; [done|]. split; [done|].
  destruct Hb as [Hp Hl]. apply packed_intro; [|rewrite length_app; cbn; lia]. cbn [touch set_positions Board.positions].
  rewrite Hp at 1. by apply filled_next.
Qed.
End packed.

Lemma filled_count_members b : Board.filled_count b = length (Board.members b).
Proof.
  unfold Board.filled_count, Board.members. induction (Board.positions b) as [|[u|] l IH]; [done|..].
  - rewrite filter_cons_True by eauto. cbn [length]. by rewrite IH.
  - rewrite filter_cons_False by (by intros [? [=]]). exact IH.
Qed.

(** ** The oldest board *)

#[export] Instance age_comparator : Comparator age.
Proof. unfold age. apply then_with_comparator; [apply (on_key_comparator Board.created_at), _|apply (on_key_comparator Board.seq), _]. Qed.

(** [b] is no younger than any board of [l]. *)
Definition oldest_of (b : Board.Board) (l : list Board.Board) : Prop := b ∈ l ∧ ∀ x, x ∈ l → cmp_leb age b x = true.

Lemma older_spec l held : match foldl older held l with
  | Some b => oldest_of b (option_list held ++ l)
  | None => held = None ∧ l = []
  end.
Proof.
  revert held. induction l as [|x l IH]; intros held; cbn [foldl].
  - destruct held as [h|]; [|done]. cbn. split; [left|]. intros y [-> | []%elem_of_nil]%elem_of_cons.
    unfold cmp_leb. destruct (age h h) eqn:E; [done..|]. pose proof (cmp_flip (cmp := age) h h) as H. by rewrite E in H.
  - specialize (IH (older held x)). destruct (foldl older (older held x) l) as [b|].
    + destruct IH as [Hin Hle]. unfold older in Hin, Hle. destruct held as [h|]; cbn in *; [|done].
      destruct (age x h) eqn:E; cbn in *; (split; [set_solver|]); intros y [->|[->|Hy]%elem_of_cons]%elem_of_cons;
        try (apply Hle; set_solver).
      * eapply (cmp_leb_trans age); [apply Hle; left|]. unfold cmp_leb. by rewrite (cmp_flip (cmp := age) x h), E.
      * eapply (cmp_leb_trans age); [apply Hle; left|]. unfold cmp_leb. by rewrite E.
      * eapply (cmp_leb_trans age); [apply Hle; left|]. unfold cmp_leb. by rewrite (cmp_flip (cmp := age) x h), E.
    + destruct IH as [IH _]. unfold older in IH. destruct held as [h|]; [|done]. by destruct (age x h).
Qed.

Section wf.
Context {D : Type}.
Implicit Types e : BoardPlanEngine D.

Lemma elem_of_values e b : b ∈ values e ↔ ∃ k, boards e !! k = Some b.
Proof.
  unfold values. rewrite list_elem_of_fmap. split.
  - intros ([k x] & -> & Hx%elem_of_map_to_list). eauto.
  - intros [k Hk]. exists (k, b). by rewrite elem_of_map_to_list.
Qed.

(** ** The invariant *)
Record engine_wf e : Prop := {
  ew_width : (2 ≤ width e ≤ 5)%N;
  ew_height : (1 ≤ height e ≤ 4)%N;
  ew_total : total_positions e = Board.total_positions (width e) (height e);
  ew_id k b : boards e !! k = Some b → Board.id b = k;
  ew_packed k b : boards e !! k = Some b → packed (total_positions e) b;
  ew_nodup k b : boards e !! k = Some b → NoDup (Board.members b);
  ew_member u k : member_boards e !! u = Some k ↔ ∃ b, boards e !! k = Some b ∧ u ∈ Board.members b;
  ew_displaced_nodup : NoDup (displaced_members e);
  ew_displaced u : u ∈ displaced_members e → member_boards e !! u = None;
  ew_seq k b : boards e !! k = Some b → (Board.seq b < next_board_seq e)%N;
  ew_seq_inj k k' b b' : boards e !! k = Some b → boards e !! k' = Some b' → Board.seq b = Board.seq b' → k = k';
}.

(** Everyone the engine knows: seated or waiting. *)
Definition population e (u : Uuid) : Prop := is_Some (member_boards e !! u) ∨ u ∈ displaced_members e.

(** The dimensions of a tree with at least two levels. *)
Lemma wf_positions e : engine_wf e → 3 ≤ total_positions e ∧ N.to_nat (width e) + 1 ≤ total_positions e.
Proof.
  intros Hwf. destruct (ew_width e Hwf), (ew_height e Hwf). rewrite (ew_total e Hwf).
  assert (width e = 2 ∨ width e = 3 ∨ width e = 4 ∨ width e = 5)%N as Hws by lia.
  assert (height e = 1 ∨ height e = 2 ∨ height e = 3 ∨ height e = 4)%N as Hhs by lia.
  destruct Hws as [->|[->|[->| ->]]]; destruct Hhs as [->|[->|[->| ->]]]; split; apply Nat.leb_le; vm_compute; reflexivity.
Qed.

(** Two boards of the same age are one. *)
Lemma wf_age_inj e k k' b b' : engine_wf e → boards e !! k = Some b → boards e !! k' = Some b' → age b b' = Eq → b = b'.
Proof.
  intros Hwf Hb Hb' Hage. assert (k = k') as <-; [|congruence]. eapply ew_seq_inj; [done..|].
  unfold age, then_with in Hage. destruct (Z.compare_spec (Board.created_at b) (Board.created_at b')); [|done..].
  by apply N.compare_eq.
Qed.

(** *** Finding a board *)
Lemma oldest_spec e : engine_wf e →
  match oldest_board_with_opening e with
  | Ok k => ∃ b, boards e !! k = Some b ∧ length (Board.members b) < total_positions e ∧
      ∀ k' b', boards e !! k' = Some b' → length (Board.members b') < total_positions e → cmp_leb age b b' = true
  | Err err => err = NoBoardsAvailable ∧ ∀ k b, boards e !! k = Some b → length (Board.members b) = total_positions e
  | _ => False
  end.
Proof.
  intros Hwf. unfold oldest_board_with_opening.
  pose proof (older_spec (filter (λ b, has_opening b = true) (values e)) None) as H.
  destruct (foldl older None _) as [b|]; cbn in *.
  - destruct H as [[Ho [k Hk]%elem_of_values]%list_elem_of_filter Hle]. rewrite (ew_id e Hwf k b Hk).
    exists b. apply (packed_has_opening _ _ (ew_packed e Hwf k b Hk)) in Ho. split_and!; [done..|].
    intros k' b' Hk' Ho'. apply Hle, list_elem_of_filter. split; [|apply elem_of_values; eauto].
    by apply (packed_has_opening _ _ (ew_packed e Hwf k' b' Hk')).
  - destruct H as [_ H]. split; [done|]. intros k b Hk. pose proof (ew_packed e Hwf k b Hk) as Hp.
    destruct (decide (length (Board.members b) < total_positions e)) as [Hlt|]; [|destruct Hp; lia].
    assert (b ∈ filter (λ b, has_opening b = true) (values e)) as Hin; [|rewrite H in Hin; by apply elem_of_nil in Hin].
    apply list_elem_of_filter. split; [by apply (packed_has_opening _ _ Hp)|]. apply elem_of_values. eauto.
Qed.

(** *** Writes *)

(** A board is rewritten in place. *)
Lemma replace_wf e k b b1 f : engine_wf e → boards e !! k = Some b → Board.id b1 = Board.id b → Board.seq b1 = Board.seq b →
  packed (total_positions e) b1 → NoDup (Board.members b1) →
  (∀ v j, f (member_boards e) !! v = Some j ↔ j = k ∧ v ∈ Board.members b1 ∨ j ≠ k ∧ member_boards e !! v = Some j) →
  (∀ v, v ∈ displaced_members e → v ∉ Board.members b1) →
  engine_wf (with_members f (with_boards <[k := b1]> e)).
Proof.
  intros Hwf Hk Hid Hseq Hp Hnd Hf Hd.
  assert (Hat : ∀ j c, <[k := b1]> (boards e) !! j = Some c ↔ j = k ∧ c = b1 ∨ j ≠ k ∧ boards e !! j = Some c).
  { intros j c. rewrite lookup_insert_Some. naive_solver. }
  assert (Hsame : ∀ j c, <[k := b1]> (boards e) !! j = Some c → ∃ c0, boards e !! j = Some c0 ∧ Board.seq c = Board.seq c0).
  { intros j c [[-> ->]|[_ ?]]%Hat; eauto. }
  split; cbn.
  1-3: apply Hwf.
  - intros j c [[-> ->]|[_ Hj]]%Hat; [rewrite Hid|]; by apply (ew_id e Hwf).
  - intros j c [[-> ->]|[_ Hj]]%Hat; [done|by eapply (ew_packed e Hwf)].
  - intros j c [[-> ->]|[_ Hj]]%Hat; [done|by eapply (ew_nodup e Hwf)].
  - intros v j. rewrite Hf, (ew_member e Hwf). setoid_rewrite Hat. naive_solver.
  - apply Hwf.
  - intros v Hv. apply eq_None_not_Some. intros [j [[_ Hin]|[_ Hm]]%Hf]; [by eapply Hd|].
    by rewrite (ew_displaced e Hwf v Hv) in Hm.
  - intros j c (c0 & Hj & ->)%Hsame. by eapply (ew_seq e Hwf).
  - intros j j' c c' (c0 & Hj & ->)%Hsame (c0' & Hj' & ->)%Hsame. by eapply (ew_seq_inj e Hwf).
Qed.

(** Who sits on a board, by the index. *)
Lemma wf_seated e k b v : engine_wf e → boards e !! k = Some b → member_boards e !! v = Some k ↔ v ∈ Board.members b.
Proof. intros Hwf Hk. rewrite (ew_member e Hwf). naive_solver. Qed.

(** A member who is not in the engine takes a seat. *)
Lemma seat_wf e k b pos u ts : engine_wf e → ¬ population e u → boards e !! k = Some b →
  Board.first_open_position b = Some pos → engine_wf (seat e k b pos u ts).
Proof.
  intros Hwf Hu Hk Hpos. destruct (packed_seat _ _ (ew_packed e Hwf k b Hk) pos u ts Hpos) as (_ & _ & Hp & Hm).
  assert (Hnone : member_boards e !! u = None) by (apply eq_None_not_Some; intros ?; apply Hu; by left).
  pose proof (λ v, wf_seated e k b v Hwf Hk) as Hin.
  apply (replace_wf e k b); [done..| | |]; rewrite Hm.
  - apply NoDup_app. split_and!; [by eapply (ew_nodup e Hwf)| |apply NoDup_singleton].
    intros x Hx%Hin ->%list_elem_of_singleton. congruence.
  - intros v j. rewrite lookup_insert_Some, elem_of_app, list_elem_of_singleton, <- Hin.
    destruct (decide (u = v)) as [<-|]; [rewrite Hnone|]; destruct (decide (j = k)); naive_solver.
  - intros v Hv. rewrite elem_of_app, list_elem_of_singleton, <- Hin. intros [Hs | ->].
    + by rewrite (ew_displaced e Hwf v Hv) in Hs.
    + apply Hu. by right.
Qed.

Lemma seat_population e k b pos u ts v : population (seat e k b pos u ts) v ↔ population e v ∨ v = u.
Proof. unfold population. cbn. destruct (decide (u = v)) as [->|]; [rewrite lookup_insert_eq|rewrite lookup_insert_ne by done]; naive_solver. Qed.

(** A member who is not in the engine joins the pool. *)
Lemma displace_wf e u : engine_wf e → ¬ population e u → engine_wf (with_displaced (λ l, l ++ [u]) e).
Proof.
  intros Hwf Hu. destruct Hwf. split; cbn; try done.
  - apply NoDup_app. split_and!; [done| |apply NoDup_singleton]. intros x Hx ->%list_elem_of_singleton. apply Hu. by right.
  - intros v [Hv | ->%list_elem_of_singleton]%elem_of_app; [auto|]. apply eq_None_not_Some. intros ?. apply Hu. by left.
Qed.

Lemma displace_population e u v : population (with_displaced (λ l, l ++ [u]) e) v ↔ population e v ∨ v = u.
Proof. unfold population. cbn. rewrite elem_of_app, list_elem_of_singleton. tauto. Qed.

(** *** Counts *)

(** Seats taken. *)
Definition seats e : nat := msum (λ b, length (Board.members b)) (boards e).

(** Members beyond the first of each board. *)
Definition slack e : nat := msum (λ b, pred (length (Board.members b))) (boards e).

Lemma slack_le_seats e : slack e ≤ seats e.
Proof. apply msum_le. intros. lia. Qed.

(** Some board has an opening. *)
Definition roomy e : Prop := seats e < total_positions e * size (boards e).

Lemma seats_bound e : engine_wf e → seats e ≤ total_positions e * size (boards e).
Proof. intros Hwf. apply msum_bound. intros k b Hb. by apply (ew_packed e Hwf k b). Qed.

Lemma roomy_board e k b : engine_wf e → boards e !! k = Some b → length (Board.members b) < total_positions e → roomy e.
Proof.
  intros Hwf Hk Hlt. unfold roomy, seats. rewrite <- msum_size, (msum_delete _ _ k b Hk), (msum_delete (λ _, 1) _ k b Hk), msum_size.
  assert (msum (λ b, length (Board.members b)) (delete k (boards e)) ≤ total_positions e * size (delete k (boards e))); [|lia].
  apply msum_bound. intros j c [_ Hj]%lookup_delete_Some. by apply (ew_packed e Hwf j c).
Qed.

Lemma roomy_oldest e : engine_wf e → roomy e → ∃ k, oldest_board_with_opening e = Ok k.
Proof.
  intros Hwf Hr. pose proof (oldest_spec e Hwf) as H. destruct (oldest_board_with_opening e); [eauto| |done..].
  destruct H as [_ H]. apply msum_lt_bound in Hr as (k & b & Hk & Hlt). rewrite (H k b Hk) in Hlt. lia.
Qed.

Lemma seat_counts e k b pos u ts : engine_wf e → boards e !! k = Some b → Board.first_open_position b = Some pos →
  seats (seat e k b pos u ts) = S (seats e) ∧ slack e ≤ slack (seat e k b pos u ts) ≤ S (slack e) ∧
  size (boards (seat e k b pos u ts)) = size (boards e).
Proof.
  intros Hwf Hk Hpos. destruct (packed_seat _ _ (ew_packed e Hwf k b Hk) pos u ts Hpos) as (_ & _ & _ & Hm).
  unfold seats, slack. cbn. set (b1 := touch ts (set_positions <[pos := Some u]> b)) in *.
  pose proof (msum_update (λ b, length (Board.members b)) _ k b b1 Hk) as H1.
  pose proof (msum_update (λ b, pred (length (Board.members b))) _ k b b1 Hk) as H2. cbn beta in *.
  rewrite Hm, length_app in *. cbn in *. split_and!; [lia..|]. by rewrite map_size_insert_Some.
Qed.
End wf.
