(* ===== verification/BoardCycle.v ===== *)
(** * Splitting a full board: [split_board] of [board_plan/engine.rs]

    The subtrees of the top's children partition the other positions, so a split
    moves every member but the top to exactly one new board, filled from position
    zero. *)

From stdpp Require Import base numbers list gmap sorting strings list_numbers.
From Stdlib Require Import ZArith Lia.
From S2P Require Import Prelude RustDecimal Dec TreeTypes Currency Board BoardEngine BoardWf.
Import Engine.

(** ** The subtrees of the top's children *)
Section partition.
Context (w : N) (Hw : (1 ≤ w)%N) (max_index : nat).
Abbreviation k := (N.to_nat w).

Lemma top_child c : 1 ≤ c ≤ k ↔ @Board.parent_index Empty_set c w = Ok (Some 0).
Proof using Hw. rewrite <- (parent_of_child w Hw (E := Empty_set) 0 c), (elem_of_child_indices w Hw). lia. Qed.

Lemma descends_unique c c' i : 1 ≤ c ≤ k → 1 ≤ c' ≤ k → descends w c i → descends w c' i → c = c'.
Proof using Hw.
  intros Hc Hc' Hd. induction Hd as [|p i Hd IH Hp]; intros Hd'.
  - inversion Hd' as [|p i Hp Hpi]; [done|subst]. apply top_child in Hc. rewrite Hc in Hpi. simplify_eq.
    apply descends_le in Hp; [lia|done].
  - inversion Hd' as [|p' i' Hp' Hpi]; subst.
    + apply top_child in Hc'. rewrite Hc' in Hp. simplify_eq. apply descends_le in Hd; [lia|done].
    + rewrite Hp in Hpi. simplify_eq. by apply IH.
Qed.

Lemma descends_from_child i : 1 ≤ i → ∃ c, 1 ≤ c ≤ k ∧ descends w c i.
Proof using Hw.
  induction (lt_wf i) as [i _ IH]. intros Hi. destruct i as [|i]; [lia|].
  assert (Hp : @Board.parent_index Empty_set (S i) w = Ok (Some (i / k))).
  { unfold Board.parent_index. by rewrite bool_decide_eq_false_2 by lia. }
  pose proof (proj2 (parent_of_child w Hw (E := Empty_set) _ _) Hp) as Hc. rewrite (elem_of_child_indices w Hw) in Hc.
  destruct (decide (i / k = 0)) as [H0|H0].
  - exists (S i). split; [lia|constructor].
  - destruct (IH (i / k)) as (c & Hck & Hd); [nia|lia|]. exists c. split; [done|]. by eapply descends_child.
Qed.

Lemma sorted_NoDup (l : list nat) : StronglySorted lt l → NoDup l.
Proof.
  induction 1 as [|x l _ IH Hx]; constructor; [|done]. rewrite Forall_forall in Hx. intros Hin.
  specialize (Hx x Hin). lia.
Qed.

(** The index lists of the children's subtrees. *)
Definition subtrees_of (cs : list nat) (ls : list (list nat)) : Prop :=
  Forall2 (λ c l, @Board.subtree_indices Empty_set c w max_index = Ok l ∧ NoDup l ∧
    ∀ i, i ∈ l ↔ i ≤ max_index ∧ descends w c i) cs ls.

Lemma subtrees_exist cs : ∃ ls, subtrees_of cs ls.
Proof using Hw.
  induction cs as [|c cs [ls IH]]; [by exists []; constructor|].
  destruct (subtree_indices_spec w Hw c max_index (E := Empty_set)) as (l & Hl & Hs & Hi).
  exists (l :: ls). constructor; [|done]. split_and!; [done|by apply sorted_NoDup|done].
Qed.

Lemma subtrees_concat ls : subtrees_of (seq 1 k) ls → concat ls ≡ₚ seq 1 max_index.
Proof using Hw.
  intros Hls. apply NoDup_Permutation; [|apply NoDup_ListNoDup, List.seq_NoDup|].
  - assert (Hcs : ∀ c, c ∈ seq 1 k → 1 ≤ c ≤ k) by (intros c; rewrite elem_of_seq; lia).
    assert (Hnd : NoDup (seq 1 k)) by (apply NoDup_ListNoDup, List.seq_NoDup).
    revert Hcs Hnd. induction Hls as [|c l cs ls (_ & Hl & Hi) Hls IH]; intros Hcs Hnd; cbn; [constructor|].
    apply NoDup_cons in Hnd as [Hc Hnd].
    apply NoDup_app. split_and!; [done| |apply IH; [set_solver|done]].
    intros i [_ Hd]%Hi (l' & Hl' & Hi')%elem_of_concat.
    apply list_elem_of_lookup in Hl' as [j Hj]. destruct (Forall2_lookup_r _ _ _ _ _ Hls Hj) as (c' & Hc' & _ & _ & Hc2).
    destruct (proj1 (Hc2 i) Hi') as [_ Hd']. apply list_elem_of_lookup_2 in Hc'.
    apply Hc. rewrite (descends_unique c c' i); [done|apply Hcs; left|apply Hcs; by right|done..].
  - intros i. rewrite elem_of_concat, elem_of_seq. split.
    + intros (l & Hl & Hi). apply list_elem_of_lookup in Hl as [j Hj].
      destruct (Forall2_lookup_r _ _ _ _ _ Hls Hj) as (c & Hc & _ & _ & Hcl). destruct (proj1 (Hcl i) Hi) as [Hm Hd].
      apply list_elem_of_lookup_2, elem_of_seq in Hc. apply descends_le in Hd; [lia|done].
    + intros Hi. destruct (descends_from_child i) as (c & Hck & Hd); [lia|].
      assert (Hc : seq 1 k !! (c - 1) = Some c) by (apply lookup_seq; lia).
      destruct (Forall2_lookup_l _ _ _ _ _ Hls Hc) as (l & Hl & _ & _ & Hcl).
      exists l. split; [by eapply list_elem_of_lookup_2|]. apply Hcl. split; [lia|done].
Qed.

(** Each subtree holds its root, and not the top. *)
Lemma subtrees_each ls l : subtrees_of (seq 1 k) ls → k ≤ max_index → l ∈ ls → l ≠ [] ∧ ∀ i, i ∈ l → 1 ≤ i ≤ max_index.
Proof using Hw.
  intros Hls Hk Hl. split.
  - apply list_elem_of_lookup in Hl as [j Hj]. destruct (Forall2_lookup_r _ _ _ _ _ Hls Hj) as (c & Hc & _ & _ & Hcl).
    apply list_elem_of_lookup_2, elem_of_seq in Hc. intros ->. apply (not_elem_of_nil c), Hcl. split; [lia|constructor].
  - intros i Hi. assert (Hin : i ∈ concat ls) by (apply elem_of_concat; eauto).
    rewrite (subtrees_concat ls Hls), elem_of_seq in Hin. lia.
Qed.
End partition.

(** ** The new boards *)
Section split.
Context {D : Type} (fresh : N → Uuid).
Implicit Types e : BoardPlanEngine D.

(** The board of one subtree, holding [us]. *)
Definition kid (t : nat) (parent : Uuid) (ts : Z) (s : N) (us : list Uuid) : Board.Board :=
  Board.mkBoard (fresh s) (filled t us) ts s ts (Some parent).

Fixpoint kids (t : nat) (parent : Uuid) (ts : Z) (s : N) (groups : list (list Uuid)) : list Board.Board :=
  match groups with
  | [] => []
  | us :: groups' => kid t parent ts s us :: kids t parent ts (s + 1) groups'
  end.

(** The writes of the split, one new board at a time. *)
Definition adopt_kid e (b : Board.Board) : BoardPlanEngine D :=
  with_boards <[Board.id b := b]>
    (with_members (λ m, insert_all id (λ _, Board.id b) m (Board.members b)) (with_next_seq (Board.seq b + 1) e)).

Definition adopt e (bs : list Board.Board) : BoardPlanEngine D := foldl adopt_kid e bs.

Lemma kid_packed t parent ts s us : length us ≤ t →
  packed t (kid t parent ts s us) ∧ Board.members (kid t parent ts s us) = us.
Proof. intros. by apply packed_intro. Qed.

(** The members at the positions [l] of a board that holds [ms]. *)
Definition picked (ms : list Uuid) (l : list nat) : list Uuid := omap (λ i, ms !! i) l.

Lemma picked_cons ms i l u : ms !! i = Some u → picked ms (i :: l) = u :: picked ms l.
Proof. intros Hu. unfold picked. cbn [omap list_omap]. by rewrite Hu. Qed.

(** From position [length us] on, the loop writes the members it picks. *)
Lemma move_members_from board (ms : list Uuid) t parent ts s l us e : Board.positions board = Some <$> ms →
  (∀ i, i ∈ l → i < length ms) → length us + length l ≤ t →
  fold_outcome (move_member board) (e, kid t parent ts s us) (zip (seq (length us) (length l)) l) =
  Ok (with_members (λ m, insert_all id (λ _, fresh s) m (picked ms l)) e, kid t parent ts s (us ++ picked ms l)).
Proof.
  intros Hb. revert us e. induction l as [|i l IH]; intros us e Hi Hlen.
  { cbn. rewrite app_nil_r. by destruct e. }
  cbn [length seq zip zip_with fold_outcome]. destruct (lookup_lt_is_Some_2 ms i) as [u Hu]; [apply Hi; left|].
  assert (Hat : Board.positions (kid t parent ts s us) !! length us = Some None).
  { apply filled_open. cbn [length] in Hlen. lia. }
  assert (Hnext : set_positions <[length us := Some u]> (kid t parent ts s us) = kid t parent ts s (us ++ [u])).
  { unfold set_positions, kid. cbn. f_equal. apply filled_next. cbn [length] in Hlen. lia. }
  assert (Hstep : move_member board (e, kid t parent ts s us) (length us, i) =
    Ok (with_members <[u := fresh s]> e, kid t parent ts s (us ++ [u]))).
  { unfold move_member. rewrite Hb, list_lookup_fmap, Hu. cbn [expect fmap option_fmap option_map mbind outcome_bind].
    rewrite Hat. cbn [expect mbind outcome_bind]. by rewrite Hnext. }
  rewrite Hstep. cbn [mbind outcome_bind]. replace (S (length us)) with (length (us ++ [u])) by (rewrite length_app; cbn; lia).
  rewrite IH; [|intros j Hj; apply Hi; by right|rewrite length_app; cbn in *; lia].
  rewrite (picked_cons ms i l u Hu), <- app_assoc. done.
Qed.

Lemma picked_length ms l : (∀ i, i ∈ l → i < length ms) → length (picked ms l) = length l.
Proof.
  induction l as [|i l IH]; intros Hi; [done|].
  destruct (lookup_lt_is_Some_2 ms i) as [u Hu]; [apply Hi; left|]. rewrite (picked_cons ms i l u Hu). cbn. f_equal. apply IH. intros j Hj. apply Hi. by right.
Qed.

(** One child: a new board for its subtree, or the counter is exhausted. *)
Lemma split_child_spec board ms ts max l c e ids : Board.positions board = Some <$> ms →
  @Board.subtree_indices Empty_set c (width e) max = Ok l → (∀ i, i ∈ l → i < length ms) → length l ≤ total_positions e →
  split_child fresh board ts max (e, ids) c =
  if (next_board_seq e + 1 <=? u64_max)%N
  then Ok (adopt_kid e (kid (total_positions e) (Board.id board) ts (next_board_seq e) (picked ms l)),
           ids ++ [fresh (next_board_seq e)])
  else Panic.
Proof.
  intros Hb Hl Hi Hlen. unfold split_child. rewrite Hl. cbn [mbind outcome_bind]. unfold new_board, u64_add.
  destruct (N.leb_spec (next_board_seq e + 1) u64_max); [|done]. cbn [mbind outcome_bind].
  assert (Hnew : Board.new (fresh (next_board_seq e)) (total_positions e) ts (Some (Board.id board)) (next_board_seq e) =
    kid (total_positions e) (Board.id board) ts (next_board_seq e) []).
  { unfold Board.new, kid, filled. cbn. by rewrite Nat.sub_0_r. }
  rewrite Hnew. unfold enumerate. rewrite (move_members_from board ms) with (us := []) by done.
  cbn [mbind outcome_bind app]. unfold adopt_kid. cbn [Board.id kid]. repeat f_equal.
  pose proof (proj2 (kid_packed (total_positions e) (Board.id board) ts (next_board_seq e) (picked ms l)
    ltac:(by rewrite picked_length))) as Hm. by rewrite Hm.
Qed.

Lemma adopt_kid_frame e b :
  width (adopt_kid e b) = width e ∧ height (adopt_kid e b) = height e ∧
  total_positions (adopt_kid e b) = total_positions e ∧ sponsor_map (adopt_kid e b) = sponsor_map e ∧
  displaced_members (adopt_kid e b) = displaced_members e ∧ config (adopt_kid e b) = config e.
Proof. done. Qed.

Lemma split_children_spec board ms ts max ls cs e ids : Board.positions board = Some <$> ms →
  Forall2 (λ c l, @Board.subtree_indices Empty_set c (width e) max = Ok l) cs ls →
  (∀ l, l ∈ ls → (∀ i, i ∈ l → i < length ms) ∧ length l ≤ total_positions e) →
  fold_outcome (split_child fresh board ts max) (e, ids) cs =
  if (next_board_seq e + N.of_nat (length cs) <=? u64_max)%N || (length cs =? 0)
  then let bs := kids (total_positions e) (Board.id board) ts (next_board_seq e) (picked ms <$> ls) in
       Ok (adopt e bs, ids ++ (Board.id <$> bs))
  else Panic.
Proof.
  intros Hb Hls. revert ids. remember (width e) as w eqn:Hw. remember (total_positions e) as t eqn:Ht.
  revert e Hw Ht. induction Hls as [|c l cs ls Hl Hls IH]; intros e Hw Ht ids Hi.
  { cbn [length]. rewrite orb_true_r. cbn. by rewrite app_nil_r. }
  cbn [fold_outcome]. destruct (Hi l ltac:(left)) as [Hil Hlen]. subst w t.
  rewrite (split_child_spec board ms ts max l c e ids Hb Hl Hil Hlen).
  cbn [length].
  destruct (N.leb_spec (next_board_seq e + 1) u64_max) as [H1|H1]; cbn [mbind outcome_bind].
  - rewrite IH by (done || (intros; apply Hi; by right)).
    cbn [adopt_kid with_boards with_members with_next_seq next_board_seq total_positions kid Board.seq].
    replace (next_board_seq e + 1 + N.of_nat (length cs))%N with (next_board_seq e + N.of_nat (S (length cs)))%N by lia.
    replace ((next_board_seq e + N.of_nat (S (length cs)) <=? u64_max)%N || (S (length cs) =? 0))
      with ((next_board_seq e + N.of_nat (S (length cs)) <=? u64_max)%N || (length cs =? 0)).
    + destruct (_ || _); [|done]. cbn [fmap list_fmap kids]. rewrite <- app_assoc. done.
    + destruct cs as [|c' cs]; cbn [length Nat.eqb]; [|done]. destruct (N.leb_spec (next_board_seq e + N.of_nat 1) u64_max); [done|lia].
  - destruct (N.leb_spec (next_board_seq e + N.of_nat (S (length cs))) u64_max); [lia|done].
Qed.
End split.

(** * Cycles of the board engine: [process_cycles] of [board_plan/engine.rs]

    One cycle splits a full board and re-seats or displaces its top member. The
    file shows what a cycle does to a well-formed engine, relates the recursive
    cascade to a sequence of single cycles, and bounds their number. *)

(** ** The engine after a split *)
Section adopt.
Context {D : Type} (fresh : N → Uuid).
Implicit Types e : BoardPlanEngine D.

(** Who sits where on the boards [bs]. *)
Definition seatings (bs : list Board.Board) : list (Uuid * Uuid) :=
  concat ((λ b, (λ u, (u, Board.id b)) <$> Board.members b) <$> bs).

Lemma insert_all_pairs (m : gmap Uuid Uuid) (k : Uuid) us :
  insert_all id (λ _, k) m us = insert_all fst snd m ((λ u, (u, k)) <$> us).
Proof. revert m. induction us as [|u us IH]; intros m; [done|]. apply IH. Qed.

Lemma insert_all_app {A V} (f : A → Uuid) (g : A → V) m l l' :
  insert_all f g m (l ++ l') = insert_all f g (insert_all f g m l) l'.
Proof. apply foldl_app. Qed.

Lemma adopt_spec e bs :
  boards (adopt e bs) = insert_all Board.id id (boards e) bs ∧
  member_boards (adopt e bs) = insert_all fst snd (member_boards e) (seatings bs) ∧
  width (adopt e bs) = width e ∧ height (adopt e bs) = height e ∧
  total_positions (adopt e bs) = total_positions e ∧ sponsor_map (adopt e bs) = sponsor_map e ∧
  displaced_members (adopt e bs) = displaced_members e ∧ config (adopt e bs) = config e.
Proof.
  revert e. induction bs as [|b bs IH]; intros e; [done|]. cbn [adopt foldl]. fold (adopt (adopt_kid e b) bs).
  destruct (IH (adopt_kid e b)) as (-> & -> & -> & -> & -> & -> & -> & ->). split_and!; try done.
  unfold seatings. cbn [fmap list_fmap concat]. rewrite insert_all_app, <- insert_all_pairs. done.
Qed.

Lemma kids_lookup t p ts s groups i :
  kids fresh t p ts s groups !! i = kid fresh t p ts (s + N.of_nat i) <$> groups !! i.
Proof.
  revert s i. induction groups as [|us groups IH]; intros s [|i]; cbn [kids]; try done.
  - cbn. by rewrite N.add_0_r.
  - cbn [lookup list_lookup]. rewrite IH. by replace (s + 1 + N.of_nat i)%N with (s + N.of_nat (S i))%N by lia.
Qed.

Lemma kids_length t p ts s groups : length (kids fresh t p ts s groups) = length groups.
Proof. revert s. induction groups as [|us groups IH]; intros s; cbn; [done|]. by rewrite IH. Qed.

Lemma kids_members t p ts s groups : Forall (λ us, length us ≤ t) groups →
  Board.members <$> kids fresh t p ts s groups = groups.
Proof.
  intros H. revert s. induction H as [|us groups Hus _ IH]; intros s; [done|]. cbn [kids]. rewrite fmap_cons, IH.
  f_equal. by apply kid_packed.
Qed.

Lemma adopt_next t p ts e groups : next_board_seq (adopt e (kids fresh t p ts (next_board_seq e) groups)) =
  (next_board_seq e + N.of_nat (length groups))%N.
Proof.
  remember (next_board_seq e) as s eqn:Hs. revert e s Hs. induction groups as [|us groups IH]; intros e s Hs; cbn [kids].
  - cbn. lia.
  - cbn [adopt foldl]. fold (adopt (adopt_kid e (kid fresh t p ts s us)) (kids fresh t p ts (s + 1) groups)).
    rewrite (IH _ (s + 1)%N) by done. cbn [length]. lia.
Qed.
End adopt.

(** ** Picking every member but the top *)

Lemma picked_concat ms ls : concat (picked ms <$> ls) = picked ms (concat ls).
Proof. induction ls as [|l ls IH]; [done|]. cbn. rewrite IH. unfold picked. by rewrite omap_app. Qed.

Lemma picked_from ms k : k ≤ length ms → picked ms (seq k (length ms - k)) = drop k ms.
Proof.
  intros Hk. remember (length ms - k) as n eqn:Hn. revert k Hk Hn. induction n as [|n IH]; intros k Hk Hn; cbn [seq].
  - rewrite drop_ge by lia. done.
  - destruct (lookup_lt_is_Some_2 ms k) as [u Hu]; [lia|]. rewrite (picked_cons ms k _ u Hu), (drop_S ms u k Hu).
    f_equal. apply IH; lia.
Qed.

(** The groups of a split hold exactly the members below the top. *)
Lemma groups_members w ms ls : (1 ≤ w)%N → subtrees_of w (length ms - 1) (seq 1 (N.to_nat w)) ls → 1 ≤ length ms →
  concat (picked ms <$> ls) ≡ₚ drop 1 ms.
Proof.
  intros Hw Hls Hms. rewrite picked_concat, <- (picked_from ms 1 Hms). unfold picked.
  by rewrite (subtrees_concat w Hw _ ls Hls).
Qed.

(** ** One cycle *)
Section cycle.
Context {D : Type} (fresh : N → Uuid) `{!Inj (=) (=) fresh}.
Implicit Types e : BoardPlanEngine D.

(** No id still to be drawn names a board. *)
Definition fresh_for e : Prop := ∀ s, (next_board_seq e ≤ s)%N → boards e !! fresh s = None.

(** [e1] is [e] with the board [bid] of [top :: rest] split into [bs] and [top]
    taken out. *)
Record split_off e (bid top : Uuid) (rest : list Uuid) (e1 : BoardPlanEngine D) (bs : list Board.Board) : Prop := {
  so_wf : engine_wf e1;
  so_fresh : fresh_for e1;
  so_boards k b : boards e1 !! k = Some b ↔ (b ∈ bs ∧ k = Board.id b) ∨ (k ≠ bid ∧ boards e !! k = Some b);
  so_members : concat (Board.members <$> bs) ≡ₚ rest;
  so_each b : b ∈ bs → Board.members b ≠ [];
  so_count : length bs = N.to_nat (width e);
  so_population v : population e1 v ↔ population e v ∧ v ≠ top;
  so_frame : width e1 = width e ∧ height e1 = height e ∧ total_positions e1 = total_positions e ∧
    sponsor_map e1 = sponsor_map e ∧ displaced_members e1 = displaced_members e ∧ config e1 = config e;
  so_next : next_board_seq e1 = (next_board_seq e + width e)%N;
  so_seats : S (seats e1) = seats e;
  so_slack : slack e1 + N.to_nat (width e) = slack e;
  so_size : size (boards e1) + 1 = size (boards e) + N.to_nat (width e);
}.

Section split_facts.
Context e (Hwf : engine_wf e) (Hfresh : fresh_for e) (bid : Uuid) (board : Board.Board) (top : Uuid) (rest : list Uuid).
Context (Hbid : boards e !! bid = Some board) (Hms : Board.members board = top :: rest)
  (Hfull : S (length rest) = total_positions e).
Context (ts : Z) (groups : list (list Uuid)) (Hgroups : concat groups ≡ₚ rest)
  (Heach : ∀ us, us ∈ groups → us ≠ []) (Hcount : length groups = N.to_nat (width e)).

Let bs := kids fresh (total_positions e) (Board.id board) ts (next_board_seq e) groups.
Let e1 := with_members (delete top) (with_boards (delete bid) (adopt e bs)).

Lemma group_short : Forall (λ us, length us ≤ total_positions e) groups.
Proof using All.
  apply Forall_forall. intros us Hus. assert (length us ≤ length (concat groups)); [|rewrite Hgroups in *; lia].
  clear -Hus. induction groups as [|g gs IH]; [by apply elem_of_nil in Hus|]. cbn. rewrite length_app.
  apply elem_of_cons in Hus as [->|Hus]; [lia|]. specialize (IH Hus). lia.
Qed.

Lemma bs_members : Board.members <$> bs = groups.
Proof using All. apply kids_members, group_short. Qed.

Lemma bs_in b : b ∈ bs → ∃ i us, groups !! i = Some us ∧ i < length groups ∧
  b = kid fresh (total_positions e) (Board.id board) ts (next_board_seq e + N.of_nat i) us ∧
  packed (total_positions e) b ∧ Board.members b = us.
Proof using All.
  intros [i Hi]%list_elem_of_lookup. unfold bs in Hi. rewrite kids_lookup in Hi. apply fmap_Some in Hi as (us & Hus & ->).
  exists i, us. pose proof group_short as Hs. rewrite Forall_lookup in Hs. specialize (Hs i us Hus).
  destruct (kid_packed fresh (total_positions e) (Board.id board) ts (next_board_seq e + N.of_nat i) us Hs).
  split_and!; [done|by eapply lookup_lt_Some|done..].
Qed.

Lemma bs_ids : NoDup (Board.id <$> bs).
Proof using All.
  apply NoDup_alt. intros i j x Hi Hj. rewrite list_lookup_fmap in Hi, Hj. unfold bs in Hi, Hj.
  rewrite kids_lookup in Hi, Hj. destruct (groups !! i), (groups !! j); cbn in *; simplify_eq. lia.
Qed.

Lemma bs_new b : b ∈ bs → boards e !! Board.id b = None.
Proof using All. intros (i & us & _ & _ & -> & _)%bs_in. apply Hfresh. cbn. lia. Qed.

Lemma rest_nodup : NoDup (top :: rest).
Proof using All. rewrite <- Hms. by eapply ew_nodup. Qed.

Lemma seated_members u : (∃ k, (u, k) ∈ seatings bs) ↔ u ∈ rest.
Proof using All.
  rewrite <- Hgroups, <- bs_members. unfold seatings. setoid_rewrite elem_of_concat. setoid_rewrite list_elem_of_fmap. split.
  - intros (k & l & (b & -> & Hb) & Hu). apply list_elem_of_fmap in Hu as (v & [= -> ->] & Hv). eauto.
  - intros (l & (b & -> & Hb) & Hu). exists (Board.id b), ((λ u, (u, Board.id b)) <$> Board.members b). split; [eauto|].
    apply list_elem_of_fmap. eauto.
Qed.

Lemma elem_of_seatings u k : (u, k) ∈ seatings bs ↔ ∃ b, b ∈ bs ∧ k = Board.id b ∧ u ∈ Board.members b.
Proof using All.
  unfold seatings. rewrite elem_of_concat. setoid_rewrite list_elem_of_fmap. split.
  - intros (l & (b & -> & Hb) & (v & [= -> ->] & Hv)%list_elem_of_fmap). eauto.
  - intros (b & Hb & -> & Hu). eexists. split; [exists b; done|]. apply list_elem_of_fmap. eauto.
Qed.

Lemma seatings_nodup : NoDup (seatings bs).*1.
Proof using All.
  assert ((seatings bs).*1 = concat groups) as ->.
  { rewrite <- bs_members. unfold seatings. generalize bs. intros l. induction l as [|b l IH]; [done|]. cbn.
    rewrite fmap_app, IH. f_equal. rewrite <- list_fmap_compose. apply list_fmap_id. }
  rewrite Hgroups. pose proof rest_nodup as H. by apply NoDup_cons in H as [_ H].
Qed.

Lemma e1_boards k b : boards e1 !! k = Some b ↔ (b ∈ bs ∧ k = Board.id b) ∨ (k ≠ bid ∧ boards e !! k = Some b).
Proof using All.
  cbn. destruct (adopt_spec e bs) as (-> & _). rewrite lookup_delete_Some.
  destruct (decide (k ∈ Board.id <$> bs)) as [(c & -> & Hc)%list_elem_of_fmap|Hn].
  - rewrite (insert_all_in _ _ _ _ _ bs_ids Hc). pose proof (bs_new c Hc) as Hnew. rewrite Hnew. split.
    + intros [_ [= <-]]. by left.
    + intros [[Hb Heq]|[_ [=]]]. split; [congruence|]. f_equal. unfold id.
      pose proof (insert_all_in _ id (boards e) _ _ bs_ids Hb) as H1. rewrite <- Heq in H1.
      rewrite (insert_all_in _ id (boards e) _ _ bs_ids Hc) in H1. by simplify_eq.
  - rewrite insert_all_notin by done. split; [naive_solver|]. intros [[Hb ->]|?]; [|naive_solver].
    exfalso. apply Hn. by apply list_elem_of_fmap_2.
Qed.

Lemma e1_members u k : member_boards e1 !! u = Some k ↔
  (∃ b, b ∈ bs ∧ k = Board.id b ∧ u ∈ Board.members b) ∨ ((u ∉ top :: rest) ∧ member_boards e !! u = Some k).
Proof using All.
  cbn. destruct (adopt_spec e bs) as (_ & -> & _). rewrite lookup_delete_Some.
  pose proof rest_nodup as Hnd. apply NoDup_cons in Hnd as [Htop _].
  destruct (decide (u ∈ rest)) as [Hu|Hu].
  - pose proof Hu as Hu'. rewrite <- seated_members in Hu'. destruct Hu' as [k' Hk'].
    change u with ((u, k').1) at 2. rewrite (insert_all_in _ _ _ _ _ seatings_nodup Hk'). split.
    + intros [_ [= <-]]. left. by apply elem_of_seatings.
    + intros [H|[H _]]; [|set_solver]. split; [intros <-; done|]. apply elem_of_seatings in H.
      pose proof (insert_all_in fst snd (member_boards e) _ _ seatings_nodup H) as H1.
      pose proof (insert_all_in fst snd (member_boards e) _ _ seatings_nodup Hk') as H2. cbn [fst snd] in H1, H2 |- *. congruence.
  - assert (Hn : u ∉ (seatings bs).*1).
    { intros ([v k'] & -> & Hv)%list_elem_of_fmap. apply Hu. apply seated_members. eauto. }
    rewrite insert_all_notin by done. split.
    + intros [Hne Hm]. right. set_solver.
    + intros [(b & Hb & _ & Hub)|[Hnot Hm]]; [|set_solver]. exfalso. apply Hu, seated_members. exists (Board.id b).
      apply elem_of_seatings. eauto.
Qed.

Lemma e1_frame : width e1 = width e ∧ height e1 = height e ∧ total_positions e1 = total_positions e ∧
  sponsor_map e1 = sponsor_map e ∧ displaced_members e1 = displaced_members e ∧ config e1 = config e.
Proof using All. destruct (adopt_spec e bs) as (_ & _ & H). exact H. Qed.

Lemma e1_next : next_board_seq e1 = (next_board_seq e + width e)%N.
Proof using All. cbn. unfold bs. rewrite adopt_next, Hcount. lia. Qed.

(** A board that stays holds nobody of the split one. *)
Lemma others_apart k b u : k ≠ bid → boards e !! k = Some b → u ∈ Board.members b → u ∉ top :: rest.
Proof using All.
  intros Hk Hb Hu Hin. rewrite <- Hms in Hin. apply Hk.
  assert (member_boards e !! u = Some k) by (apply (ew_member e Hwf); eauto).
  assert (member_boards e !! u = Some bid) by (apply (ew_member e Hwf); eauto). congruence.
Qed.

Lemma group_of b : b ∈ bs → NoDup (Board.members b) ∧ ∀ u, u ∈ Board.members b → u ∈ rest.
Proof using All.
  intros Hb. assert (Hg : Board.members b ∈ groups) by (rewrite <- bs_members; by apply list_elem_of_fmap_2).
  pose proof rest_nodup as Hnd. apply NoDup_cons in Hnd as [_ Hnd]. rewrite <- Hgroups in Hnd. split.
  - clear -Hg Hnd. induction groups as [|g gs IH]; [by apply elem_of_nil in Hg|]. cbn in Hnd.
    apply NoDup_app in Hnd as (H1 & _ & H2). apply elem_of_cons in Hg as [->|Hg]; [done|by apply IH].
  - intros u Hu. rewrite <- Hgroups. apply elem_of_concat. eauto.
Qed.

Lemma e1_wf : engine_wf e1.
Proof using All.
  destruct e1_frame as (Hw & Hh & Ht & _ & Hd & _). pose proof rest_nodup as Hnd.
  split; rewrite ?Hw, ?Hh, ?Ht, ?Hd, ?e1_next.
  1-3: apply Hwf.
  - intros k b [[_ ->]|[_ Hb]]%e1_boards; [done|by apply (ew_id e Hwf)].
  - intros k b [[(i & us & _ & _ & _ & Hp & _)%bs_in _]|[_ Hb]]%e1_boards; [done|by apply (ew_packed e Hwf k)].
  - intros k b [[Hb _]|[_ Hb]]%e1_boards; [by apply group_of|by apply (ew_nodup e Hwf k)].
  - intros u k. rewrite e1_members, (ew_member e Hwf). setoid_rewrite e1_boards. split.
    + intros [(b & Hb & -> & Hu)|(Hn & b & Hb & Hu)]; [naive_solver|]. exists b. split; [|done]. right. split; [|done].
      intros ->. rewrite Hbid in Hb. simplify_eq. by rewrite Hms in Hu.
    + intros (b & [[Hb ->]|[Hk Hb]] & Hu); [left; eauto|right]. split; [by eapply others_apart|eauto].
  - apply Hwf.
  - intros u Hu. apply eq_None_not_Some. intros [k [(b & Hb & _ & Hub)|[_ Hm]]%e1_members].
    + apply group_of in Hub; [|done]. assert (member_boards e !! u = Some bid).
      { apply (ew_member e Hwf). exists board. split; [done|]. rewrite Hms. by right. }
      by rewrite (ew_displaced e Hwf u Hu) in *.
    + by rewrite (ew_displaced e Hwf u Hu) in Hm.
  - intros k b [[(i & us & _ & Hi & -> & _)%bs_in _]|[_ Hb]]%e1_boards; [cbn; lia|].
    pose proof (ew_seq e Hwf k b Hb). lia.
  - intros k k' b b' [[Hb ->]|[_ Hb]]%e1_boards [[Hb' ->]|[_ Hb']]%e1_boards Hs; [..|by eapply (ew_seq_inj e Hwf)].
    + apply bs_in in Hb as (i & us & _ & _ & -> & _). apply bs_in in Hb' as (i' & us' & _ & _ & -> & _). cbn in *. by rewrite Hs.
    + apply bs_in in Hb as (i & us & _ & _ & -> & _). pose proof (ew_seq e Hwf k' b' Hb'). cbn in *. lia.
    + apply bs_in in Hb' as (i & us & _ & _ & -> & _). pose proof (ew_seq e Hwf k b Hb). cbn in *. lia.
Qed.

Lemma e1_fresh : fresh_for e1.
Proof using All.
  intros s Hs. rewrite e1_next in Hs. apply eq_None_not_Some. intros [b [[Hb Heq]|[_ Hb]]%e1_boards].
  - apply bs_in in Hb as (i & us & _ & Hi & -> & _). cbn in Heq. apply Inj0 in Heq. rewrite Hcount in Hi. lia.
  - rewrite Hfresh in Hb; [done|lia].
Qed.

Lemma e1_population v : population e1 v ↔ population e v ∧ v ≠ top.
Proof using All.
  destruct e1_frame as (_ & _ & _ & _ & Hd & _). unfold population. rewrite Hd.
  assert (Htop : member_boards e !! top = Some bid) by (apply (ew_member e Hwf); exists board; rewrite Hms; split; [done|left]).
  assert (Hrest : ∀ u, u ∈ rest → member_boards e !! u = Some bid).
  { intros u Hu. apply (ew_member e Hwf). exists board. rewrite Hms. split; [done|by right]. }
  pose proof rest_nodup as Hnd. apply NoDup_cons in Hnd as [Hnt _]. split.
  - intros [[k [(b & Hb & _ & Hub)|[Hn Hm]]%e1_members]|Hdv].
    + apply group_of in Hub; [|done]. split; [left; rewrite (Hrest v Hub); eauto|]. by intros ->.
    + split; [left; eauto|]. set_solver.
    + split; [by right|]. intros ->. by rewrite (ew_displaced e Hwf top Hdv) in Htop.
  - intros [[[k Hk]|Hdv] Hne]; [|by right]. left. destruct (decide (v ∈ rest)) as [Hv|Hv].
    + apply seated_members in Hv as [k' (b & Hb & -> & Hu)%elem_of_seatings]. exists (Board.id b). apply e1_members. eauto.
    + exists k. apply e1_members. right. set_solver.
Qed.

(** Any sum over the boards trades the split board for the new ones. *)
Lemma e1_sum (f : Board.Board → nat) : f board + msum f (boards e1) = sum_list_with f bs + msum f (boards e).
Proof using All.
  cbn. destruct (adopt_spec e bs) as (-> & _).
  assert (Hlook : insert_all Board.id id (boards e) bs !! bid = Some board).
  { rewrite insert_all_notin; [done|]. intros (b & Heq & Hb)%list_elem_of_fmap. apply bs_new in Hb. congruence. }
  rewrite <- (msum_delete f _ bid board Hlook), msum_insert_all; [done|apply bs_ids|apply bs_new].
Qed.

Lemma split_facts_hold : split_off e bid top rest e1 bs.
Proof using All.
  assert (Hlen : sum_list_with (λ b, length (Board.members b)) bs = length rest).
  { rewrite <- Hgroups, <- bs_members. generalize bs. intros l. induction l as [|b l IH]; [done|]. cbn. by rewrite length_app, IH. }
  assert (Hpred : sum_list_with (λ b, pred (length (Board.members b))) bs + length bs = length rest).
  { rewrite <- Hlen. assert (Hne : ∀ b, b ∈ bs → Board.members b ≠ []).
    { intros b Hb. apply Heach. rewrite <- bs_members. by apply list_elem_of_fmap_2. }
    revert Hne. generalize bs. intros l Hne. induction l as [|b l IH]; [done|]. cbn.
    pose proof (Hne b ltac:(left)). destruct (Board.members b); [done|]. cbn.
    rewrite <- IH by (intros c Hc; apply Hne; by right). lia. }
  assert (Hone : sum_list_with (λ _, 1) bs = length bs) by (generalize bs; intros l; induction l as [|b l IH]; cbn; lia).
  assert (Hbs : length bs = N.to_nat (width e)) by (unfold bs; by rewrite kids_length).
  split.
  - apply e1_wf.
  - apply e1_fresh.
  - apply e1_boards.
  - by rewrite bs_members.
  - intros b Hb. apply Heach. rewrite <- bs_members. by apply list_elem_of_fmap_2.
  - done.
  - apply e1_population.
  - apply e1_frame.
  - apply e1_next.
  - pose proof (e1_sum (λ b, length (Board.members b))) as H. cbn beta in H. rewrite Hms in H. cbn [length] in H. unfold seats. lia.
  - pose proof (e1_sum (λ b, pred (length (Board.members b)))) as H. cbn beta in H. rewrite Hms in H. cbn [length pred] in H. unfold slack. lia.
  - pose proof (e1_sum (λ _, 1)) as H. cbn beta in H. rewrite !msum_size in H. lia.
Qed.
End split_facts.

(** The split of a full board, or an exhausted sequence counter. *)
Lemma split_board_spec e bid board top rest ts : engine_wf e → fresh_for e → boards e !! bid = Some board →
  Board.members board = top :: rest → Board.is_full board = true →
  if (next_board_seq e + width e <=? u64_max)%N
  then ∃ e0 bs ls, split_board fresh e board ts = Ok (e0, Board.id <$> bs) ∧
    split_off e bid top rest (with_members (delete top) (with_boards (delete bid) e0)) bs ∧
    Forall2 (λ c l, @Board.subtree_indices Empty_set c (width e) (total_positions e - 1) = Ok l)
      (seq 1 (N.to_nat (width e))) ls ∧
    Board.members <$> bs = picked (Board.members board) <$> ls
  else split_board fresh e board ts = Panic.
Proof using Inj0.
  intros Hwf Hf Hbid Hms Hfull. pose proof (ew_packed e Hwf bid board Hbid) as Hp.
  apply (packed_full _ _ Hp) in Hfull. destruct (wf_positions e Hwf) as [H3 Hwp]. destruct (ew_width e Hwf) as [Hw2 _].
  assert (Hpos : Board.positions board = Some <$> Board.members board).
  { rewrite (proj1 Hp). unfold filled. rewrite Hfull, Nat.sub_diag. apply app_nil_r. }
  assert (Hmax : total_positions e - 1 = length (Board.members board) - 1) by lia.
  destruct (subtrees_exist (width e) ltac:(lia) (total_positions e - 1) (seq 1 (N.to_nat (width e)))) as [ls Hls].
  assert (Heach : ∀ l, l ∈ ls → l ≠ [] ∧ ∀ i, i ∈ l → 1 ≤ i ≤ total_positions e - 1).
  { intros l Hl. apply (subtrees_each (width e) ltac:(lia) _ ls l Hls); [lia|done]. }
  assert (Hrange : ∀ l, l ∈ ls → (∀ i, i ∈ l → i < length (Board.members board)) ∧ length l ≤ total_positions e).
  { intros l Hl. split; [intros i Hi; apply (proj2 (Heach l Hl)) in Hi; lia|].
    apply list_elem_of_lookup in Hl as [j Hj]. destruct (Forall2_lookup_r _ _ _ _ _ Hls Hj) as (c & _ & _ & Hnd & _).
    rewrite <- (length_seq (total_positions e) 0). apply submseteq_length, NoDup_submseteq; [done|].
    intros i Hi. apply list_elem_of_lookup_2 in Hj. apply (proj2 (Heach l Hj)) in Hi. apply elem_of_seq. lia. }
  assert (Hseq : length (seq 1 (N.to_nat (width e))) = N.to_nat (width e)) by apply length_seq.
  assert (Hidx : Forall2 (λ c l, @Board.subtree_indices Empty_set c (width e) (total_positions e - 1) = Ok l) (seq 1 (N.to_nat (width e))) ls).
  { eapply Forall2_impl; [exact Hls|]. intros c l (H & _). exact H. }
  unfold split_board. destruct (Nat.eqb_spec (total_positions e) 0); [lia|]. cbn [negb assert_that mbind outcome_bind].
  rewrite (split_children_spec fresh board (Board.members board) ts _ ls _ e []); [|done| |done].
  - rewrite Hseq, N2Nat.id. destruct (Nat.eqb_spec (N.to_nat (width e)) 0); [lia|]. rewrite orb_false_r.
    destruct (next_board_seq e + width e <=? u64_max)%N; [|done]. eexists _, _, ls. split; [reflexivity|].
    assert (Hsum : S (length rest) = total_positions e) by (rewrite <- Hfull, Hms; done).
    assert (Hg : concat (picked (Board.members board) <$> ls) ≡ₚ rest).
    { rewrite (groups_members (width e)); [by rewrite Hms|lia|by rewrite <- Hmax|lia]. }
    split_and!.
    + apply (split_facts_hold e Hwf Hf bid board top rest Hbid Hms Hsum); [done|..].
      * intros us (l & -> & Hl)%list_elem_of_fmap. pose proof (picked_length _ _ (proj1 (Hrange l Hl))) as Hlen.
        intros Hnil. rewrite Hnil in Hlen. destruct l; [by apply Heach in Hl as [? _]|done].
      * rewrite length_fmap. apply Forall2_length in Hls. congruence.
    + exact Hidx.
    + apply kids_members. apply Forall_forall. intros us (l & -> & Hl)%list_elem_of_fmap.
      rewrite (picked_length _ _ (proj1 (Hrange l Hl))). by apply Hrange.
  - exact Hidx.
Qed.

(** ** Re-entry *)

Lemma split_off_roomy e bid top rest e1 bs : engine_wf e → split_off e bid top rest e1 bs → roomy e1.
Proof using Type.
  intros Hwf Hs. destruct (so_frame _ _ _ _ _ _ Hs) as (_ & _ & Ht & _). unfold roomy. rewrite Ht.
  pose proof (so_seats _ _ _ _ _ _ Hs). pose proof (so_size _ _ _ _ _ _ Hs). destruct (ew_width e Hwf).
  pose proof (seats_bound e Hwf). nia.
Qed.

(** Where a member goes when some board has an opening. *)
Lemma find_placement_spec e sponsor : engine_wf e → roomy e →
  ∃ k b, find_placement_board e sponsor = Ok k ∧ boards e !! k = Some b ∧ length (Board.members b) < total_positions e.
Proof using Type.
  intros Hwf Hr. destruct (roomy_oldest e Hwf Hr) as [k Hk]. pose proof (oldest_spec e Hwf) as H. rewrite Hk in H.
  destruct H as (b & Hb & Hlt & _). assert (Hold : ∃ k b, oldest_board_with_opening e = Ok k ∧ boards e !! k = Some b ∧
    length (Board.members b) < total_positions e) by eauto.
  unfold find_placement_board. destruct (re_entry_position (config e)); [exact Hold|].
  destruct (member_boards e !! sponsor) as [sb|]; [|exact Hold]. destruct (boards e !! sb) as [c|] eqn:Hc; [|exact Hold].
  destruct (has_opening c) eqn:Ho; [|exact Hold]. exists sb, c.
  by rewrite <- (packed_has_opening _ _ (ew_packed e Hwf sb c Hc)).
Qed.

(** [e2] is [e1] with [top] back: on a board when re-entry is enabled, in the pool
    otherwise. *)
Definition re_entered e1 top ts e2 (re : option Uuid) : Prop :=
  if re_entry_enabled (config e1)
  then ∃ k b pos, boards e1 !! k = Some b ∧ Board.first_open_position b = Some pos ∧
    find_placement_board e1 (default top (sponsor_map e1 !! top)) = Ok k ∧ e2 = seat e1 k b pos top ts ∧ re = Some k
  else e2 = with_displaced (λ l, l ++ [top]) e1 ∧ re = None.

Lemma re_enter_spec e1 top ts : engine_wf e1 → roomy e1 →
  re_entered e1 top ts (re_enter e1 top ts).1 (re_enter e1 top ts).2.
Proof using Type.
  intros Hwf Hr. unfold re_enter, re_entered. destruct (re_entry_enabled (config e1)); [|done].
  destruct (find_placement_spec e1 (default top (sponsor_map e1 !! top)) Hwf Hr) as (k & b & Hk & Hb & Hlt).
  rewrite Hk, Hb, (packed_open _ _ (ew_packed e1 Hwf k b Hb)), decide_True by done. cbn.
  exists k, b, (length (Board.members b)). split_and!; [done| |done..].
  by rewrite (packed_open _ _ (ew_packed e1 Hwf k b Hb)), decide_True.
Qed.

(** ** Cascades *)

(** One cycle of a full board. *)
Definition cycle ts e (event : CycleEvent) e2 : Prop :=
  ∃ rest e1 bs, (∃ board, boards e !! ce_board_id event = Some board ∧ Board.members board = cycled_member event :: rest ∧
      Board.is_full board = true) ∧
    split_off e (ce_board_id event) (cycled_member event) rest e1 bs ∧ new_boards event = Board.id <$> bs ∧
    re_entered e1 (cycled_member event) ts e2 (re_entry_board event).

(** Cycles one after another. *)
Inductive cycles ts : BoardPlanEngine D → list CycleEvent → BoardPlanEngine D → Prop :=
| cycles_nil e : cycles ts e [] e
| cycles_cons e event e1 events e2 : cycle ts e event e1 → cycles ts e1 events e2 → cycles ts e (event :: events) e2.

Lemma cycles_app ts e l1 e1 l2 e2 : cycles ts e l1 e1 → cycles ts e1 l2 e2 → cycles ts e (l1 ++ l2) e2.
Proof using Type. induction 1; [done|]. intros. cbn. econstructor; eauto. Qed.

(** What [n] cycles leave unchanged, and what they cost. *)
Record cycle_effect e (n : nat) e2 : Prop := {
  cy_wf : engine_wf e2;
  cy_fresh : fresh_for e2;
  cy_population v : population e2 v ↔ population e v;
  cy_frame : width e2 = width e ∧ height e2 = height e ∧ total_positions e2 = total_positions e ∧
    sponsor_map e2 = sponsor_map e ∧ config e2 = config e;
  cy_next : next_board_seq e2 = (next_board_seq e + width e * N.of_nat n)%N;
  cy_boards : size (boards e2) = size (boards e) + n * (N.to_nat (width e) - 1);
  cy_count : seats e2 + length (displaced_members e2) = seats e + length (displaced_members e);
  cy_cost : slack e2 + length (displaced_members e2) + n * (N.to_nat (width e) - 1) ≤
    slack e + length (displaced_members e);
  cy_displaced : if re_entry_enabled (config e) then displaced_members e2 = displaced_members e
    else length (displaced_members e2) = length (displaced_members e) + n;
}.

Lemma cycle_effect_refl e : engine_wf e → fresh_for e → cycle_effect e 0 e.
Proof using Type. intros Hwf Hf. split; try done; try lia. destruct (re_entry_enabled (config e)); lia || done. Qed.

Lemma cycle_effect_trans e n e1 m e2 : cycle_effect e n e1 → cycle_effect e1 m e2 → cycle_effect e (n + m) e2.
Proof using Type.
  intros [A1 A2 A3 (W & H & T & S & C) A5 A6 A7 A8 A9] [B1 B2 B3 (W' & H' & T' & S' & C') B5 B6 B7 B8 B9].
  rewrite ?W, ?C in *. split; try done.
  - intros v. by rewrite B3, A3.
  - split_and!; congruence.
  - rewrite B5, A5. lia.
  - rewrite B6, A6. lia.
  - lia.
  - lia.
  - destruct (re_entry_enabled (config e)); [congruence|lia].
Qed.

(** A seat taken by a member from outside. *)
Lemma seat_fresh e k b pos u ts : fresh_for e → boards e !! k = Some b → fresh_for (seat e k b pos u ts).
Proof using Type.
  intros Hf Hk s Hs. cbn. rewrite lookup_insert_ne; [by apply Hf|]. intros ->. rewrite Hf in Hk; done.
Qed.

Lemma cycle_once ts e event e2 : engine_wf e → fresh_for e → cycle ts e event e2 → cycle_effect e 1 e2 ∧ roomy e2.
Proof using Type.
  intros Hwf Hf (rest & e1 & bs & (board & Hbid & Hms & Hfull) & Hs & _ & Hre). set (top := cycled_member event) in *.
  destruct (so_frame _ _ _ _ _ _ Hs) as (W & H & T & S & Dd & C). pose proof (so_wf _ _ _ _ _ _ Hs) as Hwf1.
  pose proof (split_off_roomy _ _ _ _ _ _ Hwf Hs) as Hroom. destruct (ew_width e Hwf) as [Hw _].
  assert (Htop : population e top).
  { left. exists (ce_board_id event). apply (ew_member e Hwf). exists board. rewrite Hms. split; [done|left]. }
  assert (Hout : ¬ population e1 top) by (rewrite (so_population _ _ _ _ _ _ Hs); naive_solver).
  pose proof (so_seats _ _ _ _ _ _ Hs). pose proof (so_slack _ _ _ _ _ _ Hs). pose proof (so_size _ _ _ _ _ _ Hs).
  unfold re_entered in Hre. rewrite C in Hre. destruct (re_entry_enabled (config e)) eqn:Hen.
  - destruct Hre as (k & b & pos & Hk & Hpos & _ & -> & _).
    destruct (seat_counts e1 k b pos top ts Hwf1 Hk Hpos) as (K1 & K2 & K3). split; [split|].
    + by apply seat_wf.
    + apply seat_fresh; [apply Hs|done].
    + intros v. rewrite seat_population, (so_population _ _ _ _ _ _ Hs). destruct (decide (v = top)); naive_solver.
    + by split_and!.
    + cbn. rewrite (so_next _ _ _ _ _ _ Hs). lia.
    + lia.
    + cbn [seat with_members with_boards displaced_members]. rewrite Dd. lia.
    + cbn [seat with_members with_boards displaced_members]. rewrite Dd. lia.
    + by rewrite Hen.
    + unfold roomy in *. rewrite K1, K3. cbn [seat with_members with_boards total_positions].
      destruct (wf_positions e Hwf). rewrite T in *. pose proof (seats_bound e Hwf). nia.
  - destruct Hre as [-> _]. split; [split|].
    + by apply displace_wf.
    + apply Hs.
    + intros v. rewrite displace_population, (so_population _ _ _ _ _ _ Hs). destruct (decide (v = top)); naive_solver.
    + by split_and!.
    + cbn. rewrite (so_next _ _ _ _ _ _ Hs). lia.
    + cbn. lia.
    + cbn. rewrite length_app, Dd. unfold seats in *. cbn. lia.
    + cbn. rewrite length_app, Dd. unfold slack in *. cbn. lia.
    + rewrite Hen. cbn. by rewrite length_app, Dd.
    + exact Hroom.
Qed.

Lemma cycles_effect ts e events e2 : engine_wf e → fresh_for e → cycles ts e events e2 →
  cycle_effect e (length events) e2 ∧ (events ≠ [] ∨ roomy e → roomy e2).
Proof using Type.
  intros Hwf Hf Hc. revert Hwf Hf. induction Hc as [|e event e1 events e2 H1 _ IH]; intros Hwf Hf.
  - split; [by apply cycle_effect_refl|]. by intros [|].
  - destruct (cycle_once ts e event e1 Hwf Hf H1) as [He Hr]. destruct IH as [Heff Hroom]; [apply He..|]. split.
    + exact (cycle_effect_trans _ _ _ _ _ He Heff).
    + intros _. apply Hroom. by right.
Qed.
End cycle.
