(* ===== verification/BoardCascade.v ===== *)
(** * Cascades of the board engine: [board_plan/engine.rs]

    [process_cycles] recurses up to the configured depth. On a well-formed engine
    it performs a sequence of single cycles and stops; the only failure is the
    sequence counter, and a bound on the number of cycles excludes it. *)

From stdpp Require Import base numbers list gmap sorting strings list_numbers.
From Stdlib Require Import ZArith Lia.
From S2P Require Import Prelude RustDecimal Dec TreeTypes Currency Board BoardEngine BoardWf BoardCycle.
Import Engine.

Section cascade.
Context {D : Type} (fresh : N → Uuid) `{!Inj (=) (=) fresh} (ts : Z).
Implicit Types e : BoardPlanEngine D.

(** Sequence numbers are left for every cycle that [k] more members can cause. *)
Definition budget (k : nat) e : Prop :=
  (next_board_seq e + width e * N.of_nat (slack e + length (displaced_members e) + k) ≤ u64_max)%N.

(** What the configuration's types promise: [NonZeroU32]. *)
Definition depth_ok e : Prop := (1 ≤ max_cascade_depth (config e) ≤ u32_max)%N.

(** The engine between two requests. *)
Record engine_ok e : Prop := { eo_wf : engine_wf e; eo_fresh : fresh_for fresh e; eo_depth : depth_ok e }.

(** [m] performs cycles from [e] and appends their events to [events]; if it
    panics the sequence numbers were short. *)
Definition cascades e (events : list CycleEvent) (m : outcome Empty_set (cycling (D := D))) : Prop :=
  match m with
  | Ok (e2, all) => ∃ new, all = events ++ new ∧ cycles fresh ts e new e2
  | Panic => ¬ budget 0 e
  | _ => False
  end.

Lemma cycles_ok e events e2 : engine_ok e → cycles fresh ts e events e2 → engine_ok e2.
Proof using Type.
  intros [Hwf Hf Hd] Hc. destruct (cycles_effect fresh ts e events e2 Hwf Hf Hc) as [Heff _]. split; [apply Heff..|].
  destruct (cy_frame _ _ _ _ Heff) as (_ & _ & _ & _ & Hcfg). unfold depth_ok. by rewrite Hcfg.
Qed.

Lemma cycles_config e events e2 : engine_ok e → cycles fresh ts e events e2 → config e2 = config e.
Proof using Type.
  intros [Hwf Hf Hd] Hc. destruct (cycles_effect fresh ts e events e2 Hwf Hf Hc) as [Heff _]. apply Heff.
Qed.

Lemma cycles_budget k e events e2 : engine_ok e → cycles fresh ts e events e2 → budget k e → budget k e2.
Proof using Type.
  intros [Hwf Hf Hd] Hc. destruct (cycles_effect fresh ts e events e2 Hwf Hf Hc) as [Heff _]. unfold budget.
  destruct (cy_frame _ _ _ _ Heff) as (-> & _). rewrite (cy_next _ _ _ _ Heff). pose proof (cy_cost _ _ _ _ Heff).
  destruct (ew_width e Hwf) as [Hw _]. intros Hb.
  assert (slack e2 + length (displaced_members e2) + length events ≤ slack e + length (displaced_members e)) by nia. nia.
Qed.

Lemma cascades_ret e events : cascades e events (Ok (e, events)).
Proof using Type. exists []. rewrite app_nil_r. split; [done|constructor]. Qed.

Lemma cascades_after e new e1 events m : engine_ok e → cycles fresh ts e new e1 → cascades e1 (events ++ new) m →
  cascades e events m.
Proof using Type.
  intros Hok Hc Hm. destruct m as [[e2 all]| | |]; cbn in *; [|done| |done].
  - destruct Hm as (new' & -> & Hc'). exists (new ++ new'). split; [by rewrite app_assoc|]. by eapply cycles_app.
  - intros Hb. apply Hm. exact (cycles_budget 0 _ _ _ Hok Hc Hb).
Qed.

Lemma cascades_bind e events m k : engine_ok e → cascades e events m →
  (∀ e1 new, engine_ok e1 → config e1 = config e → cascades e1 (events ++ new) (k (e1, events ++ new))) →
  cascades e events (m ≫= k).
Proof using Type.
  intros Hok Hm Hk. destruct m as [[e1 all]| | |]; [|exact Hm..]. destruct Hm as (new & -> & Hc).
  eapply cascades_after; [done..|]. apply Hk; [by eapply cycles_ok|by eapply cycles_config].
Qed.

Lemma cascades_fold {A} (f : cycling → A → outcome Empty_set cycling) l e events :
  engine_ok e → (∀ e1 events x, engine_ok e1 → config e1 = config e → x ∈ l → cascades e1 events (f (e1, events) x)) →
  cascades e events (fold_outcome f (e, events) l).
Proof using Type.
  revert e events. induction l as [|x l IH]; intros e events Hok Hf; cbn [fold_outcome]; [apply cascades_ret|].
  apply cascades_bind; [done|apply Hf; [done..|left]|]. intros e1 new Hok1 Hcfg. apply IH; [done|].
  intros e2 events' y Hok2 Hcfg2 Hy. apply Hf; [done|congruence|by right].
Qed.

(** *** One full board *)

Lemma full_slack e bid board : engine_wf e → boards e !! bid = Some board → Board.is_full board = true → 1 ≤ slack e.
Proof using Type.
  intros Hwf Hb Hfull. apply (packed_full _ _ (ew_packed e Hwf bid board Hb)) in Hfull. unfold slack.
  rewrite (msum_delete _ _ bid board Hb). destruct (wf_positions e Hwf). lia.
Qed.

(** A cycle of a full board happens, or the counter is exhausted. *)
Lemma cycle_board_spec e bid board : engine_ok e → boards e !! bid = Some board → Board.is_full board = true →
  ∃ top, Board.positions board !! 0 = Some (Some top) ∧
  match cycle_board fresh e board bid top ts with
  | Ok (e2, event) => cycle fresh ts e event e2 ∧ ce_board_id event = bid
  | Panic => ¬ budget 0 e
  | _ => False
  end.
Proof using Inj0.
  intros [Hwf Hf _] Hb Hfull. pose proof (ew_packed e Hwf bid board Hb) as Hp. destruct (wf_positions e Hwf) as [H3 _].
  pose proof Hfull as Hlen. apply (packed_full _ _ Hp) in Hlen. destruct (Board.members board) as [|top rest] eqn:Hms; [cbn in Hlen; lia|].
  exists top. split; [by eapply packed_top|]. unfold cycle_board.
  pose proof (split_board_spec fresh e bid board top rest ts Hwf Hf Hb Hms Hfull) as Hsplit.
  destruct (N.leb_spec (next_board_seq e + width e) u64_max) as [Hroom|Hroom].
  - destruct Hsplit as (e0 & bs & ls & -> & Hs & _). cbn [mbind outcome_bind].
    pose proof (re_enter_spec _ top ts (so_wf _ _ _ _ _ _ _ Hs) (split_off_roomy fresh _ _ _ _ _ _ Hwf Hs)) as Hre.
    destruct (re_enter _ top ts) as [e2 re]. split; [|done]. eexists rest, _, bs. split_and!; [eauto|exact Hs|done|exact Hre].
  - rewrite Hsplit. cbn. unfold budget. pose proof (full_slack e bid board Hwf Hb Hfull). nia.
Qed.

(** *** The recursion *)

(** The cascade is a sequence of cycles, and a full board within the depth does
    cycle, which leaves an opening. *)
Lemma process_cycles_spec fuel e events bid depth : engine_ok e →
  (max_cascade_depth (config e) ≤ depth + N.of_nat fuel)%N →
  cascades e events (process_cycles fresh fuel (e, events) bid ts depth) ∧
  ((depth < max_cascade_depth (config e))%N → board_is_full e bid = true →
    match process_cycles fresh fuel (e, events) bid ts depth with Ok (e2, _) => roomy e2 | _ => True end).
Proof using Inj0.
  revert e events bid depth. induction fuel as [|fuel IH]; intros e events bid depth Hok Hfuel; cbn [process_cycles];
    destruct (N.leb_spec (max_cascade_depth (config e)) depth) as [|Hd];
    try (split; [apply cascades_ret|lia]); [lia|].
  assert (Hnot : board_is_full e bid = match boards e !! bid with Some b => Board.is_full b | None => false end) by done.
  destruct (boards e !! bid) as [board|] eqn:Hb; [|split; [apply cascades_ret|congruence]].
  destruct (Board.is_full board) eqn:Hfull; [|split; [apply cascades_ret|congruence]]. cbn [negb].
  destruct (cycle_board_spec e bid board Hok Hb Hfull) as (top & -> & Hcyc). cbn [expect mbind outcome_bind].
  destruct (cycle_board fresh e board bid top ts) as [[e1 event]| | |]; cbn [mbind outcome_bind]; [|done|split; [exact Hcyc|done]|done].
  destruct Hcyc as [Hcyc _]. pose proof Hok as [Hwf Hf [_ Hu32]]. unfold u32_add.
  destruct (N.leb_spec (depth + 1) u32_max); [|unfold u32_max in *; lia]. cbn [mbind outcome_bind].
  assert (Hc : cycles fresh ts e [event] e1) by (econstructor; [exact Hcyc|constructor]).
  pose proof (cycles_ok _ _ _ Hok Hc) as Hok1. pose proof (cycles_config _ _ _ Hok Hc) as Hcfg.
  match goal with |- cascades _ _ ?m ∧ _ => assert (Hrest : cascades e1 (events ++ [event]) m) end.
  { apply cascades_bind; [done| |].
    - destruct (re_entry_board event) as [re|]; [|apply cascades_ret]. destruct (board_is_full _ re); [|apply cascades_ret].
      apply IH; [done|rewrite Hcfg; lia].
    - intros e2 new Hok2 Hcfg2. apply cascades_fold; [done|]. intros e3 events3 id Hok3 Hcfg3 _. cbn [fst].
      destruct (board_is_full e3 id); [|apply cascades_ret]. apply IH; [done|]. rewrite Hcfg3, Hcfg2, Hcfg. lia. }
  split; [by eapply cascades_after|]. intros _ _. destruct (cycle_once fresh ts e event e1 Hwf Hf Hcyc) as [_ Hroom].
  destruct (_ ≫= _) as [[e2 all]| | |]; [|done..]. destruct Hrest as (new & _ & Hcs). destruct Hok1 as [Hwf1 Hf1 _].
  apply (cycles_effect fresh ts e1 new e2 Hwf1 Hf1 Hcs). by right.
Qed.

Lemma cascade_spec e events bid : engine_ok e →
  cascades e events (cascade fresh (e, events) bid ts) ∧
  (board_is_full e bid = true → match cascade fresh (e, events) bid ts with Ok (e2, _) => roomy e2 | _ => True end).
Proof using Inj0.
  intros Hok. unfold cascade. cbn [fst]. destruct (process_cycles_spec (N.to_nat (max_cascade_depth (config e))) e events bid 0 Hok) as [H1 H2]; [lia|].
  split; [done|]. apply H2. destruct (eo_depth e Hok). lia.
Qed.

(** ** Draining *)
Lemma drain_spec e events : engine_ok e →
  cascades e events (drain_full_boards fresh (e, events) ts) ∧
  (boards e ≠ ∅ → match drain_full_boards fresh (e, events) ts with Ok (e2, _) => roomy e2 | _ => True end).
Proof using Inj0.
  intros Hok. pose proof Hok as [Hwf Hf _]. unfold drain_full_boards. cbn [fst].
  assert (Hfull : ∀ b, b ∈ sort_by age (filter (λ b, Board.is_full b = true) (values e)) ↔ b ∈ values e ∧ Board.is_full b = true).
  { intros b. rewrite sort_by_perm, list_elem_of_filter. tauto. }
  assert (Hfold : ∀ l e events, engine_ok e → cascades e events (fold_outcome (λ st id, cascade fresh st id ts) (e, events) l)).
  { intros l e' events' Hok'. apply cascades_fold; [done|]. intros. by apply cascade_spec. }
  split; [by apply Hfold|]. intros Hne. destruct (sort_by age _) as [|b l] eqn:Hl; cbn [fmap list_fmap fold_outcome].
  - apply map_choose in Hne as (k & b & Hb). apply (roomy_board e k b Hwf Hb).
    destruct (ew_packed e Hwf k b Hb) as [_ Hle]. destruct (decide (length (Board.members b) = total_positions e)) as [Heq|]; [|lia].
    apply (packed_full _ _ (ew_packed e Hwf k b Hb)) in Heq. exfalso. apply (not_elem_of_nil b), Hfull.
    split; [apply elem_of_values; eauto|done].
  - assert (Hb : board_is_full e (Board.id b) = true).
    { destruct (proj1 (Hfull b) ltac:(left)) as [[k Hk]%elem_of_values Hbf]. unfold board_is_full.
      by rewrite (ew_id e Hwf k b Hk), Hk. }
    destruct (cascade_spec e events (Board.id b) Hok) as [Hc Hroom]. specialize (Hroom Hb).
    destruct (cascade fresh (e, events) (Board.id b) ts) as [[e1 all]| | |]; cbn [mbind outcome_bind]; [|done..].
    destruct Hc as (new & _ & Hc). pose proof (cycles_ok _ _ _ Hok Hc) as Hok1. specialize (Hfold (Board.id <$> l) e1 all Hok1).
    destruct (fold_outcome _ _ _) as [[e2 all']| | |]; [|done..]. destruct Hfold as (new' & _ & Hc').
    destruct Hok1 as [Hwf1 Hf1 _]. apply (cycles_effect fresh ts e1 new' e2 Hwf1 Hf1 Hc'). by right.
Qed.

(** ** Members who join *)

(** [e2] is [e] after the members [us] joined and [n] boards cycled. *)
Record joins e (us : list Uuid) (n : nat) e2 : Prop := {
  jo_ok : engine_ok e2;
  jo_population v : population e2 v ↔ population e v ∨ v ∈ us;
  jo_frame : width e2 = width e ∧ height e2 = height e ∧ total_positions e2 = total_positions e ∧
    sponsor_map e2 = sponsor_map e ∧ config e2 = config e;
  jo_next : next_board_seq e2 = (next_board_seq e + width e * N.of_nat n)%N;
  jo_boards : size (boards e2) = size (boards e) + n * (N.to_nat (width e) - 1);
  jo_cost : slack e2 + length (displaced_members e2) + n * (N.to_nat (width e) - 1) ≤
    slack e + length (displaced_members e) + length us;
  jo_displaced : re_entry_enabled (config e) = true → displaced_members e2 ⊆ displaced_members e;
}.

Lemma cycles_joins e events e2 : engine_ok e → cycles fresh ts e events e2 → joins e [] (length events) e2.
Proof using Type.
  intros Hok Hc. pose proof (cycles_ok _ _ _ Hok Hc) as Hok2. destruct Hok as [Hwf Hf _].
  destruct (cycles_effect fresh ts e events e2 Hwf Hf Hc) as [[_ _ H3 H4 H5 H6 _ H8 H9] _]. split; try done.
  - intros v. rewrite H3, elem_of_nil. tauto.
  - cbn [length]. lia.
  - intros Hen. rewrite Hen in H9. by rewrite H9.
Qed.

Lemma joins_trans e us n e1 vs m e2 : joins e us n e1 → joins e1 vs m e2 → joins e (us ++ vs) (n + m) e2.
Proof using Type.
  intros [A1 A2 (W & H & T & S & C) A4 A5 A6 A7] [B1 B2 (W' & H' & T' & S' & C') B4 B5 B6 B7].
  rewrite ?W, ?C in *. split; try done.
  - intros v. rewrite B2, A2, elem_of_app. tauto.
  - split_and!; congruence.
  - rewrite B4, A4. lia.
  - rewrite B5, A5. lia.
  - rewrite length_app. lia.
  - intros Hen. etrans; [by apply B7|by apply A7].
Qed.

Lemma joins_budget e us n e2 k : engine_ok e → joins e us n e2 → budget (length us + k) e → budget k e2.
Proof using Type.
  intros Hok Hj. unfold budget. destruct (jo_frame _ _ _ _ Hj) as (-> & _). rewrite (jo_next _ _ _ _ Hj).
  pose proof (jo_cost _ _ _ _ Hj). destruct (ew_width e (eo_wf e Hok)) as [Hw _]. intros Hb.
  assert (slack e2 + length (displaced_members e2) + n ≤ slack e + length (displaced_members e) + length us) by nia. nia.
Qed.

Lemma seat_joins e k b pos u : engine_ok e → ¬ population e u → boards e !! k = Some b →
  Board.first_open_position b = Some pos → joins e [u] 0 (seat e k b pos u ts).
Proof using Type.
  intros [Hwf Hf Hd] Hu Hk Hpos. destruct (seat_counts e k b pos u ts Hwf Hk Hpos) as (_ & K2 & K3). split.
  - split; [by apply seat_wf|by apply seat_fresh|done].
  - intros v. rewrite seat_population, list_elem_of_singleton. tauto.
  - done.
  - cbn. lia.
  - lia.
  - cbn [seat with_members with_boards displaced_members length]. lia.
  - done.
Qed.

(** [m] lets [us] join, leaves an opening and appends the events of its cycles. *)
Definition joining e (us : list Uuid) (events : list CycleEvent) (m : outcome Empty_set cycling) : Prop :=
  match m with
  | Ok (e2, all) => ∃ new, all = events ++ new ∧ joins e us (length new) e2 ∧ roomy e2
  | Panic => ¬ budget (length us) e
  | _ => False
  end.

Lemma joining_bind e us vs events m k : engine_ok e → joining e us events m →
  (∀ e1 new, joins e us (length new) e1 → roomy e1 → joining e1 vs (events ++ new) (k (e1, events ++ new))) →
  joining e (us ++ vs) events (m ≫= k).
Proof using Type.
  intros Hok Hm Hk. destruct m as [[e1 all]| | |]; cbn in *; [|done| |done].
  - destruct Hm as (new & -> & Hj & Hr). specialize (Hk e1 new Hj Hr).
    destruct (k (e1, events ++ new)) as [[e2 all]| | |]; cbn in *; [|done| |done].
    + destruct Hk as (new' & -> & Hj' & Hr'). exists (new ++ new'). rewrite app_assoc. split_and!; [done| |done].
      rewrite length_app. by eapply joins_trans.
    + rewrite length_app. intros Hb. apply Hk. by eapply joins_budget.
  - intros Hb. apply Hm. unfold budget in *. rewrite length_app in Hb. nia.
Qed.

(** A member takes a seat; the board cycles if that filled it. *)
Lemma seat_and_cascade e events k b pos u : engine_ok e → ¬ population e u → boards e !! k = Some b →
  Board.first_open_position b = Some pos →
  joining e [u] events
    (if board_is_full (seat e k b pos u ts) k then cascade fresh (seat e k b pos u ts, events) k ts
     else Ok (seat e k b pos u ts, events)).
Proof using Inj0.
  intros Hok Hu Hk Hpos. pose proof (seat_joins e k b pos u Hok Hu Hk Hpos) as Hj. pose proof (jo_ok _ _ _ _ Hj) as Hok1.
  destruct (board_is_full _ k) eqn:Hfull.
  - destruct (cascade_spec (seat e k b pos u ts) events k Hok1) as [Hc Hroom]. specialize (Hroom Hfull).
    destruct (cascade _ _ _ _) as [[e2 all]| | |]; [|done| |done].
    + destruct Hc as (new & -> & Hc). exists new. split_and!; [done| |done].
      exact (joins_trans _ _ _ _ _ _ _ Hj (cycles_joins _ _ _ Hok1 Hc)).
    + cbn in *. intros Hb. apply Hc. apply (joins_budget e [u] 0); done.
  - exists []. rewrite app_nil_r. split_and!; [done..|]. unfold board_is_full in Hfull. cbn in Hfull.
    rewrite lookup_insert_eq in Hfull. eapply roomy_board; [apply Hok1|cbn; apply lookup_insert_eq|].
    destruct (packed_seat _ _ (ew_packed e (eo_wf e Hok) k b Hk) pos u ts Hpos) as (_ & _ & Hp & _).
    pose proof (packed_full _ _ Hp) as Hpf. cbn [seat with_members with_boards total_positions].
    destruct (decide (length (Board.members (touch ts (set_positions <[pos:=Some u]> b))) = total_positions e)) as [Heq|].
    + apply Hpf in Heq. congruence.
    + destruct Hp. lia.
Qed.
End cascade.
