(* ===== verification/BoardRequests.v ===== *)
(** * Taking a member out: [take_member_out] and [compact_board] of [board_plan/engine.rs]

    The member's seat is cleared and the members behind it move up by one, so the
    board is filled from position zero again. *)

From stdpp Require Import base numbers list gmap sorting strings list_numbers.
From Stdlib Require Import ZArith Lia.
From S2P Require Import Prelude RustDecimal Dec TreeTypes Currency Board BoardEngine BoardWf BoardCycle BoardCascade.
Import Engine.

(** ** Members with their positions *)

(** The pairs of position and member that [compact_board] collects, from position [k]. *)
Definition with_pos (k : nat) (p : list (option Uuid)) : list (nat * Uuid) :=
  omap (λ '(i, q), (λ uid, (i, uid)) <$> q) (zip (seq k (length p)) p).

Lemma with_pos_app k p q : with_pos k (p ++ q) = with_pos k p ++ with_pos (k + length p) q.
Proof.
  revert k. induction p as [|o p IH]; intros k; cbn [app length].
  - by rewrite Nat.add_0_r.
  - unfold with_pos. cbn [length seq zip zip_with]. fold (with_pos (S k) p). destruct o; cbn; fold (with_pos (S k) (p ++ q));
      rewrite IH; (replace (k + S (length p)) with (S k + length p) by lia); done.
Qed.

Lemma with_pos_seated k ms : with_pos k (Some <$> ms) = zip (seq k (length ms)) ms.
Proof.
  revert k. induction ms as [|u ms IH]; intros k; [done|]. unfold with_pos. cbn [fmap list_fmap length seq zip zip_with].
  cbn. f_equal. apply IH.
Qed.

Lemma with_pos_open k n : with_pos k (replicate n None) = [].
Proof. revert k. induction n as [|n IH]; intros k; [done|]. apply IH. Qed.

(** Those whose new position, counted from [j], differs from the old one. *)
Definition movers (j : nat) (l : list (nat * Uuid)) : list Uuid :=
  omap (λ '(new_pos, (old_pos, u)), if bool_decide (new_pos ≠ old_pos) then Some u else None) (zip (seq j (length l)) l).

Lemma movers_cons j old u l :
  movers j ((old, u) :: l) = (if bool_decide (j ≠ old) then [u] else []) ++ movers (S j) l.
Proof. unfold movers. cbn [length seq zip zip_with]. cbn. by destruct (bool_decide (j ≠ old)). Qed.

Lemma movers_app j l l' : movers j (l ++ l') = movers j l ++ movers (j + length l) l'.
Proof.
  revert j. induction l as [|[old u] l IH]; intros j; cbn [app length]; [by rewrite Nat.add_0_r|].
  rewrite !movers_cons, IH, <- app_assoc. by replace (j + S (length l)) with (S j + length l) by lia.
Qed.

Lemma movers_shift d j ms : movers j (zip (seq (j + d) (length ms)) ms) = if decide (d = 0) then [] else ms.
Proof.
  revert j. induction ms as [|u ms IH]; intros j; [by case_decide|]. cbn [length seq zip zip_with].
  rewrite movers_cons. change (S (j + d)) with (S j + d). rewrite IH. case_decide as Hd.
  - by rewrite bool_decide_eq_false_2 by lia.
  - by rewrite bool_decide_eq_true_2 by lia.
Qed.

Section compact.
Context {D : Type} (ts : Z).
Implicit Types e : BoardPlanEngine D.

(** [b] holding [us] from position zero, among [t] positions. *)
Definition refilled (t : nat) (b : Board.Board) (us : list Uuid) : Board.Board :=
  set_positions (λ _, filled t us) b.

Lemma refilled_packed t b us : length us ≤ t → packed t (refilled t b us) ∧ Board.members (refilled t b us) = us.
Proof. intros. by apply packed_intro. Qed.

Lemma compact_members t b k l us e moved : length us + length l ≤ t →
  fold_outcome (compact_member k) (e, refilled t b us, moved) (zip (seq (length us) (length l)) l) =
  Ok (with_members (λ m, insert_all snd (λ _, k) m l) e, refilled t b (us ++ l.*2), moved ++ movers (length us) l).
Proof.
  revert us e moved. induction l as [|[old u] l IH]; intros us e moved Hlen.
  { cbn. rewrite !app_nil_r. by destruct e. }
  cbn [length seq zip zip_with fold_outcome]. cbn [length] in Hlen.
  assert (Hat : Board.positions (refilled t b us) !! length us = Some None).
  { apply filled_open. lia. }
  assert (Hnext : set_positions <[length us := Some u]> (refilled t b us) = refilled t b (us ++ [u])).
  { unfold refilled, set_positions. cbn. f_equal. apply filled_next. lia. }
  assert (Hstep : compact_member k (e, refilled t b us, moved) (length us, (old, u)) =
    Ok (with_members <[u := k]> e, refilled t b (us ++ [u]), moved ++ if bool_decide (length us ≠ old) then [u] else [])).
  { unfold compact_member. rewrite Hat. cbn [expect mbind outcome_bind]. rewrite Hnext.
    by destruct (bool_decide (length us ≠ old)); rewrite ?app_nil_r. }
  rewrite Hstep. cbn [mbind outcome_bind]. replace (S (length us)) with (length (us ++ [u])) by (rewrite length_app; cbn; lia).
  rewrite IH by (rewrite length_app; cbn; lia). rewrite movers_cons, fmap_cons, <- !app_assoc.
  replace (length (us ++ [u])) with (S (length us)) by (rewrite length_app; cbn; lia). done.
Qed.

(** The first seat of [u] is cleared. *)
Lemma vacate_spec t b pre u post : packed t b → Board.members b = pre ++ u :: post → u ∉ pre →
  vacate u b = set_positions (λ _, (Some <$> pre) ++ None :: (Some <$> post) ++ replicate (t - length (Board.members b)) None) b.
Proof.
  intros [Hp Hl] Hm Hpre. unfold vacate. rewrite Hm, length_app in Hl. cbn [length] in Hl.
  assert (Hpos : Board.positions b = (Some <$> pre) ++ Some u :: (Some <$> post) ++ replicate (t - length (Board.members b)) None).
  { rewrite Hp. unfold filled. rewrite Hm at 1. by rewrite fmap_app, fmap_cons, <- app_assoc. }
  assert (Hfind : list_find (λ p, p = Some u) (Board.positions b) = Some (length pre, Some u)).
  { apply list_find_Some. rewrite Hpos. split_and!; [|done|].
    - rewrite list_lookup_middle; [done|]. by rewrite length_fmap.
    - intros j y Hj Hlt. rewrite lookup_app_l in Hj by (by rewrite length_fmap). apply list_lookup_fmap_Some in Hj as (v & -> & Hv).
      intros [= ->]. apply Hpre. by eapply list_elem_of_lookup_2. }
  rewrite Hfind. unfold set_positions. f_equal. rewrite Hpos.
  replace (length pre) with (length (Some <$> pre) + 0) by (rewrite length_fmap; lia). by rewrite insert_app_r.
Qed.

Lemma insert_all_same (m : gmap Uuid Uuid) k (l : list (nat * Uuid)) : (∀ x, x ∈ l → m !! x.2 = Some k) →
  insert_all snd (λ _, k) m l = m.
Proof.
  revert m. induction l as [|x l IH]; intros m Hm; [done|]. unfold insert_all. cbn [foldl].
  rewrite insert_id by (apply Hm; left). apply IH. intros y Hy. apply Hm. by right.
Qed.

(** The engine after [u] left the board [k] and those behind moved up. *)
Definition unseat e (k : Uuid) (b : Board.Board) (u : Uuid) (stay : list Uuid) : BoardPlanEngine D :=
  with_members (delete u) (with_boards <[k := touch ts (refilled (total_positions e) b stay)]> e).

Lemma compact_spec e k b pre u post : engine_wf e → boards e !! k = Some b → Board.members b = pre ++ u :: post →
  compact_board (with_members (delete u) (with_boards <[k := touch ts (vacate u b)]> e)) k =
  Ok (unseat e k b u (pre ++ post), post).
Proof.
  intros Hwf Hk Hm. pose proof (ew_packed e Hwf k b Hk) as Hp. pose proof (ew_nodup e Hwf k b Hk) as Hnd. rewrite Hm in Hnd.
  apply NoDup_app in Hnd as (_ & Hpre & [Hpost _]%NoDup_cons).
  assert (Hu : u ∉ pre) by (intros H; apply (Hpre u H); left).
  rewrite (vacate_spec (total_positions e) b pre u post Hp Hm Hu).
  unfold compact_board. cbn [boards with_boards with_members]. rewrite lookup_insert_eq. unfold enumerate at 2.
  cbn [touch set_positions Board.positions]. fold (with_pos 0 ((Some <$> pre) ++ None :: (Some <$> post) ++
    replicate (total_positions e - length (Board.members b)) None)).
  assert (Hmwp : with_pos 0 ((Some <$> pre) ++ None :: (Some <$> post) ++ replicate (total_positions e - length (Board.members b)) None) =
    zip (seq 0 (length pre)) pre ++ zip (seq (length pre + 1) (length post)) post).
  { rewrite with_pos_app, with_pos_seated, length_fmap, Nat.add_0_l. f_equal. change (None :: ?l) with ([None] ++ l).
    rewrite with_pos_app. cbn [length]. rewrite with_pos_app, with_pos_seated, with_pos_open. by rewrite app_nil_r. }
  rewrite Hmwp. clear Hmwp. set (l := zip _ pre ++ zip _ post).
  assert (Hl2 : l.*2 = pre ++ post).
  { unfold l. by rewrite fmap_app, !snd_zip by (rewrite length_seq; lia). }
  destruct Hp as [_ Hle]. rewrite Hm, length_app in Hle. cbn [length] in Hle.
  assert (Hlen : length l = length pre + length post).
  { rewrite <- (length_fmap snd l), Hl2. apply length_app. }
  match goal with |- context [(_, set_positions (fmap _) ?b', [])] =>
    assert (Hclear : set_positions (fmap (λ _, None)) b' = refilled (total_positions e) (touch ts b) []) end.
  { unfold refilled, filled, set_positions, touch. cbn. f_equal. rewrite Nat.sub_0_r.
    rewrite (const_fmap _ _ None) by done. f_equal. rewrite length_app, length_fmap. cbn [length].
    rewrite length_app, length_fmap, length_replicate, Hm, length_app. cbn [length]. lia. }
  rewrite Hclear. unfold enumerate. rewrite (compact_members _ _ k l []) by (cbn; lia). cbn [mbind outcome_bind app].
  rewrite Hl2. unfold unseat, with_members, with_boards. cbn [boards member_boards]. rewrite insert_insert_eq, insert_all_same.
  - f_equal. f_equal. unfold l. pose proof (movers_shift 0 0 pre) as Hstay. cbn in Hstay.
    cbn [length]. rewrite movers_app, Hstay.
    replace (0 + length (zip (seq 0 (length pre)) pre)) with (length pre) by (rewrite length_zip_with, length_seq; lia).
    apply (movers_shift 1).
  - intros x Hx. assert (Hin : x.2 ∈ pre ++ post) by (rewrite <- Hl2; by apply list_elem_of_fmap_2).
    rewrite lookup_delete_ne.
    + apply (ew_member e Hwf). exists b. split; [done|]. rewrite Hm. set_solver.
    + intros ->. set_solver.
Qed.

(** ** The engine without the member *)
Lemma unseat_wf e k b pre u post : engine_wf e → boards e !! k = Some b → Board.members b = pre ++ u :: post →
  engine_wf (unseat e k b u (pre ++ post)).
Proof.
  intros Hwf Hk Hm. pose proof (ew_nodup e Hwf k b Hk) as Hnd. rewrite Hm, <- Permutation_middle in Hnd.
  apply NoDup_cons in Hnd as [Hout Hnd]. pose proof (λ v, wf_seated e k b v Hwf Hk) as Hin. rewrite Hm in Hin.
  destruct (refilled_packed (total_positions e) b (pre ++ post)) as [Hp1 Hm1].
  { destruct (ew_packed e Hwf k b Hk) as [_ Hle]. rewrite Hm, length_app in Hle. rewrite length_app. cbn in Hle. lia. }
  apply (replace_wf e k b); [done..| | |]; change (Board.members (touch _ ?b)) with (Board.members b); rewrite Hm1; [done|..].
  - intros v j. rewrite lookup_delete_Some. specialize (Hin v). destruct (decide (u = v)) as [<-|]; destruct (decide (j = k)) as [->|];
      rewrite ?Hin; set_solver.
  - intros v Hv Hs. pose proof (proj2 (Hin v)) as H. rewrite (ew_displaced e Hwf v Hv) in H. discriminate H. set_solver.
Qed.

(** [e2] is [e] without [u]: off its board, with those behind it moved up, or out
    of the pool. *)
Definition taken_out e (u : Uuid) e2 (moved : list Uuid) : Prop :=
  (∃ k b pre, boards e !! k = Some b ∧ Board.members b = pre ++ u :: moved ∧ e2 = unseat e k b u (pre ++ moved)) ∨
  (member_boards e !! u = None ∧ e2 = with_displaced (filter (λ m, m ≠ u)) e ∧ moved = []).

Record without e (u : Uuid) e2 : Prop := {
  wo_wf : engine_wf e2;
  wo_population v : population e2 v ↔ population e v ∧ v ≠ u;
  wo_frame : width e2 = width e ∧ height e2 = height e ∧ total_positions e2 = total_positions e ∧
    sponsor_map e2 = sponsor_map e ∧ config e2 = config e ∧ next_board_seq e2 = next_board_seq e;
  wo_boards k : is_Some (boards e2 !! k) ↔ is_Some (boards e !! k);
  wo_cost : slack e2 + length (displaced_members e2) ≤ slack e + length (displaced_members e);
}.

Lemma taken_out_without e u e2 moved : engine_wf e → taken_out e u e2 moved → without e u e2.
Proof.
  intros Hwf [(k & b & pre & Hk & Hm & ->)|(Hnone & -> & _)].
  - assert (Huk : member_boards e !! u = Some k) by (apply (wf_seated e k b u Hwf Hk); rewrite Hm; set_solver). split.
    + by apply unseat_wf.
    + intros v. unfold population. cbn. split.
      * intros [[j [Hne Hj]%lookup_delete_Some]|Hd]; [split; [left; eauto|done]|]. split; [by right|].
        intros ->. by rewrite (ew_displaced e Hwf u Hd) in Huk.
      * intros [[[j Hj]|Hd] Hne]; [|by right]. left. exists j. by apply lookup_delete_Some.
    + done.
    + intros j. cbn. destruct (decide (k = j)) as [<-|]; [rewrite lookup_insert_eq, Hk|rewrite lookup_insert_ne by done]; [|done].
      split; eauto.
    + cbn. unfold slack. cbn. destruct (refilled_packed (total_positions e) b (pre ++ moved)) as [_ Hm1].
      { destruct (ew_packed e Hwf k b Hk) as [_ Hle]. rewrite Hm, length_app in Hle. rewrite length_app. cbn in Hle. lia. }
      pose proof (msum_update (λ b, pred (length (Board.members b))) _ k b (touch ts (refilled (total_positions e) b (pre ++ moved))) Hk) as H.
      cbn beta in H. change (Board.members (touch ts ?b)) with (Board.members b) in H. rewrite Hm1, Hm, !length_app in H. cbn [length] in H. lia.
  - destruct Hwf. split; try done.
    + split; cbn; try done; [by apply NoDup_filter|]. intros v [_ Hv]%list_elem_of_filter. auto.
    + intros v. unfold population. cbn. rewrite list_elem_of_filter. split; [|naive_solver].
      intros [Hs|[? ?]]; [|naive_solver]. split; [by left|]. intros ->. rewrite Hnone in Hs. by destruct Hs.
    + cbn. pose proof (length_filter (λ m, m ≠ u) (displaced_members e)). unfold slack. cbn. lia.
Qed.
End compact.

Section take_out.
Context {D : Type} (fresh : N → Uuid) `{!Inj (=) (=) fresh} (ts : Z).
Implicit Types e : BoardPlanEngine D.

(** Cycles of the member's board if it is full, then the member is taken out. *)
Lemma take_member_out_spec e events u : engine_ok fresh e →
  match take_member_out fresh (e, events) u ts with
  | Ok ((e2, all), inl moved) => ∃ new e1, all = events ++ new ∧ cycles fresh ts e new e1 ∧ taken_out ts e1 u e2 moved
  | Panic => ¬ budget 0 e
  | _ => False
  end.
Proof using Inj0.
  intros Hok. unfold take_member_out. cbn [fst].
  match goal with |- match (match ?fb with Some _ => _ | None => _ end ≫= ?k) with _ => _ end =>
    assert (Hc : cascades fresh ts e events (match fb with Some b => cascade fresh (e, events) b ts | None => Ok (e, events) end)) end.
  { destruct (match member_boards e !! u with Some _ => _ | None => _ end); [by apply cascade_spec|apply cascades_ret]. }
  destruct (match (match member_boards e !! u with Some _ => _ | None => _ end) with Some _ => _ | None => _ end)
    as [[e1 all]| | |]; cbn [mbind outcome_bind]; [|done|exact Hc|done].
  destruct Hc as (new & -> & Hc). pose proof (cycles_ok _ _ _ _ _ Hok Hc) as [Hwf1 _ _].
  destruct (member_boards e1 !! u) as [k|] eqn:Hu.
  - destruct (proj1 (ew_member e1 Hwf1 u k) Hu) as (b & Hb & Hin). rewrite Hb.
    apply list_elem_of_split in Hin as (pre & post & Hm). rewrite (compact_spec ts e1 k b pre u post Hwf1 Hb Hm).
    cbn [mbind outcome_bind]. exists new, e1. split_and!; [done..|]. left. eauto 10.
  - exists new, e1. split_and!; [done..|]. by right.
Qed.
End take_out.

(** * Requests of the board engine: [board_plan/engine.rs]

    What adding, removing, dissolving and compressing do to a well-formed engine,
    on every branch. *)

Section requests.
Context {D : Type} (fresh : N → Uuid) `{!Inj (=) (=) fresh} (ts : Z).
Implicit Types e : BoardPlanEngine D.
Abbreviation ok := (engine_ok fresh).

(** ** Displaced members *)

Lemma joins_refl e : ok e → joins fresh e [] 0 e.
Proof. intros Hok. apply (cycles_joins fresh ts e [] e Hok). constructor. Qed.

Lemma place_displaced_spec e events u : ok e → roomy e → ¬ population e u →
  joining fresh e [u] events (place_displaced fresh ts (e, events) u).
Proof using Inj0.
  intros Hok Hr Hu. pose proof (eo_wf _ e Hok) as Hwf. destruct (roomy_oldest e Hwf Hr) as [k Hk].
  pose proof (oldest_spec e Hwf) as H. rewrite Hk in H. destruct H as (b & Hb & Hlt & _).
  assert (Hpos : Board.first_open_position b = Some (length (Board.members b))).
  { by rewrite (packed_open _ _ (ew_packed e Hwf k b Hb)), decide_True. }
  unfold place_displaced. rewrite Hk, Hb, Hpos. by apply seat_and_cascade.
Qed.

Lemma place_all_spec us e events : ok e → roomy e → NoDup us → (∀ u, u ∈ us → ¬ population e u) →
  joining fresh e us events (fold_outcome (place_displaced fresh ts) (e, events) us).
Proof using Inj0.
  revert e events. induction us as [|u us IH]; intros e events Hok Hr Hnd Hus; cbn [fold_outcome].
  - exists []. rewrite app_nil_r. split_and!; [done|by apply joins_refl|done].
  - apply NoDup_cons in Hnd as [Hu Hnd]. change (u :: us) with ([u] ++ us). apply joining_bind; [done| |].
    + apply place_displaced_spec; [done..|]. apply Hus. left.
    + intros e1 new Hj Hr1. apply IH; [apply Hj|done..|]. intros v Hv. rewrite (jo_population _ _ _ _ _ Hj).
      rewrite list_elem_of_singleton. intros [H | ->]; [|done]. by eapply Hus; [right|].
Qed.

Lemma cleared_ok e : ok e → ok (with_displaced (λ _, []) e).
Proof.
  intros [[] Hf Hd]. split; [|done..]. split; try done; cbn; [constructor|]. by intros u ?%elem_of_nil.
Qed.

(** Cycling every full board, then seating everyone who waits. *)
Lemma drain_and_place e : ok e → boards e ≠ ∅ →
  match (st ← drain_full_boards fresh (e, []) ts; place_displaced_members fresh st ts) with
  | Ok (e2, all) => joins fresh e [] (length all) e2 ∧ roomy e2 ∧
      (re_entry_enabled (config e) = true → displaced_members e2 = [])
  | Panic => ¬ budget 0 e
  | _ => False
  end.
Proof using Inj0.
  intros Hok Hne. destruct (drain_spec fresh ts e [] Hok) as [Hd Hr]. specialize (Hr Hne).
  destruct (drain_full_boards fresh (e, []) ts) as [[e1 all]| | |]; cbn [mbind outcome_bind]; [|done| exact Hd|done].
  destruct Hd as (new & Hall & Hc). cbn in Hall. subst all. pose proof (cycles_joins fresh ts _ _ _ Hok Hc) as Hj1.
  pose proof (jo_ok _ _ _ _ _ Hj1) as Hok1. pose proof (eo_wf _ _ Hok1) as Hwf1. unfold place_displaced_members.
  assert (Hnot : ∀ u, u ∈ displaced_members e1 → ¬ population (with_displaced (λ _, []) e1) u).
  { intros u Hu [[k Hk]|[]%elem_of_nil]. cbn in Hk. by rewrite (ew_displaced e1 Hwf1 u Hu) in Hk. }
  pose proof (place_all_spec (displaced_members e1) (with_displaced (λ _, []) e1) new (cleared_ok e1 Hok1) Hr
    (ew_displaced_nodup e1 Hwf1) Hnot) as Hp.
  destruct (fold_outcome _ _ _) as [[e2 all]| | |].
  - destruct Hp as (new' & -> & Hj & Hr2).
    assert (Hj2 : joins fresh e1 [] (length new') e2).
    { destruct Hj as [J1 J2 J3 J4 J5 J6 J7]. split; try done.
      - intros v. rewrite J2. unfold population. cbn. rewrite !elem_of_nil. tauto.
      - cbn in *. unfold slack in *. cbn in *. lia.
      - intros Hen. etrans; [by apply J7|]. apply list_subseteq_nil. }
    split_and!; [|done|].
    + rewrite length_app. exact (joins_trans _ _ _ _ _ _ _ _ Hj1 Hj2).
    + intros Hen. apply list_nil_subseteq. apply Hj. destruct (jo_frame _ _ _ _ _ Hj1) as (_ & _ & _ & _ & HC).
      cbn. by rewrite HC.
  - done.
  - intros Hb. apply Hp.
    apply (joins_budget fresh e [] _ e1 0 Hok Hj1) in Hb. unfold budget, slack in *. cbn in *. 
    by rewrite Nat.add_0_r in Hb |- *.
  - done.
Qed.

(** ** Adding a member *)

(** [e2] is [e] with [u] enrolled under [sponsor]. *)
Record added e (u sponsor : Uuid) e2 (r : AddMemberResult) : Prop := {
  ad_ok : ok e2;
  ad_population v : population e2 v ↔ population e v ∨ v = u;
  ad_sponsors : sponsor_map e2 = <[u := sponsor]> (sponsor_map e);
  ad_frame : width e2 = width e ∧ height e2 = height e ∧ total_positions e2 = total_positions e ∧ config e2 = config e;
  ad_next : next_board_seq e2 = (next_board_seq e + width e * N.of_nat (length (ar_cycle_events r)))%N;
  ad_boards : size (boards e2) = size (boards e) + length (ar_cycle_events r) * (N.to_nat (width e) - 1);
  ad_cost : length (ar_cycle_events r) * (N.to_nat (width e) - 1) ≤ slack e + length (displaced_members e) + 1;
  ad_displaced : re_entry_enabled (config e) = true → displaced_members e2 = [];
  ad_seat : ∃ e1 b, (∀ v, population e1 v ↔ population e v) ∧ find_placement_board e1 sponsor = Ok (ar_board_id r) ∧
    boards e1 !! ar_board_id r = Some b ∧ Board.first_open_position b = Some (ar_position r);
}.

(** Who may be added: nobody known, under a known sponsor or first of all. *)
Lemma add_member_allowed e u sponsor : add_member_refusal e u sponsor = None ↔
  ¬ population e u ∧ (member_boards e = ∅ ∧ sponsor_map e = ∅ ∨ population e sponsor) ∧ boards e ≠ ∅.
Proof.
  unfold add_member_refusal, population. repeat case_bool_decide; cbn; naive_solver.
Qed.

Lemma add_member_spec e u sponsor : ok e →
  match add_member_refusal e u sponsor with
  | Some err => add_member fresh e u sponsor ts = Ok (e, inr err)
  | None => match add_member fresh e u sponsor ts with
      | Ok (e2, inl r) => added e u sponsor e2 r
      | Panic => ¬ budget 1 e
      | _ => False
      end
  end.
Proof using Inj0.
  intros Hok. unfold add_member. destruct (add_member_refusal e u sponsor) as [err|] eqn:Href; [done|].
  apply add_member_allowed in Href as (Hu & _ & Hne).
  set (e0 := with_sponsors <[u := sponsor]> e).
  assert (Hok0 : ok e0) by (destruct Hok as [[] ? ?]; by split).
  pose proof (drain_and_place e0 Hok0 Hne) as Hdp. 
  destruct (drain_full_boards fresh (e0, []) ts) as [st| | |]; cbn [mbind outcome_bind] in *; [|done| |done].
  2: { intros Hb. apply Hdp. unfold budget, slack in *. cbn in *. lia. }
  destruct (place_displaced_members fresh st ts) as [[e1 events]| | |]; cbn [mbind outcome_bind] in *; [|done| |done].
  2: { intros Hb. apply Hdp. unfold budget, slack in *. cbn in *. lia. }
  destruct Hdp as (Hj1 & Hr1 & Hd1). pose proof (jo_ok _ _ _ _ _ Hj1) as Hok1. pose proof (eo_wf _ _ Hok1) as Hwf1.
  destruct (find_placement_spec e1 sponsor Hwf1 Hr1) as (k & b & Hk & Hb & Hlt). rewrite Hk, Hb.
  assert (Hpos : Board.first_open_position b = Some (length (Board.members b))).
  { by rewrite (packed_open _ _ (ew_packed e1 Hwf1 k b Hb)), decide_True. }
  rewrite Hpos. assert (Hu1 : ¬ population e1 u).
  { rewrite (jo_population _ _ _ _ _ Hj1), elem_of_nil. intros [|]; [by apply Hu|done]. }
  pose proof (seat_and_cascade fresh ts e1 events k b _ u Hok1 Hu1 Hb Hpos) as Hs.
  destruct (if board_is_full _ k then _ else _) as [[e2 all]| | |]; cbn [mbind outcome_bind]; [|done| |done].
  - destruct Hs as (new & -> & Hj2 & _). pose proof (joins_trans _ _ _ _ _ _ _ _ Hj1 Hj2) as [J1 J2 J3 J4 J5 J6 J7].
    rewrite <- length_app in *. split; cbn [ar_cycle_events ar_board_id ar_position]; try done.
    + intros v. rewrite J2. cbn [app]. rewrite list_elem_of_singleton. done.
    + apply J3.
    + destruct J3 as (? & ? & ? & _ & ?). by split_and!.
    + unfold slack in *. cbn in *. lia.
    + intros Hen. apply list_nil_subseteq. rewrite <- (Hd1 Hen). apply (jo_displaced _ _ _ _ _ Hj2).
      destruct (jo_frame _ _ _ _ _ Hj1) as (_ & _ & _ & _ & ->). done.
    + exists e1, b. split_and!; [|done..]. intros v. rewrite (jo_population _ _ _ _ _ Hj1), elem_of_nil. 
      change (population e0 v) with (population e v). tauto.
  - intros Hbud. apply Hs. apply (joins_budget fresh e0 [] _ e1 1 Hok0 Hj1). exact Hbud.
Qed.

(** ** Members who leave *)

(** [e2] is [e] without [us], after [n] cycles. *)
Record leaves e (us : list Uuid) (n : nat) e2 : Prop := {
  le_ok : ok e2;
  le_population v : population e2 v ↔ population e v ∧ v ∉ us;
  le_frame : width e2 = width e ∧ height e2 = height e ∧ total_positions e2 = total_positions e ∧
    sponsor_map e2 = sponsor_map e ∧ config e2 = config e;
  le_next : next_board_seq e2 = (next_board_seq e + width e * N.of_nat n)%N;
  le_cost : slack e2 + length (displaced_members e2) + n * (N.to_nat (width e) - 1) ≤ slack e + length (displaced_members e);
}.

Lemma leaves_trans e us n e1 vs m e2 : leaves e us n e1 → leaves e1 vs m e2 → leaves e (us ++ vs) (n + m) e2.
Proof.
  intros [A1 A2 (W & H & T & S & C) A4 A5] [B1 B2 (W' & H' & T' & S' & C') B4 B5]. rewrite ?W, ?C in *. split; try done.
  - intros v. rewrite B2, A2, elem_of_app. tauto.
  - split_and!; congruence.
  - rewrite B4, A4. lia.
  - lia.
Qed.

Lemma cycles_leaves e events e2 : ok e → cycles fresh ts e events e2 → leaves e [] (length events) e2.
Proof.
  intros Hok Hc. destruct (cycles_joins fresh ts e events e2 Hok Hc) as [J1 J2 J3 J4 J5 J6 _]. split; try done.
  - intros v. rewrite J2, elem_of_nil. tauto.
  - cbn in J6. lia.
Qed.

Lemma without_leaves e u e2 moved : ok e → taken_out ts e u e2 moved → leaves e [u] 0 e2.
Proof.
  intros [Hwf Hf Hd] Ht. destruct (taken_out_without ts e u e2 moved Hwf Ht) as [T1 T2 (W & H & T & S & C & Nx) T4 T5]. split.
  - split; [done| |unfold depth_ok; by rewrite C]. intros s Hs. apply eq_None_not_Some. intros Hs2.
    apply T4 in Hs2. rewrite Hf in Hs2; [by destruct Hs2|by rewrite <- Nx].
  - intros v. rewrite T2, list_elem_of_singleton. done.
  - by split_and!.
  - rewrite Nx. lia.
  - lia.
Qed.

Lemma leaves_budget e us n e2 : ok e → leaves e us n e2 → budget 0 e → budget 0 e2.
Proof.
  intros Hok Hl. unfold budget. destruct (le_frame _ _ _ _ Hl) as (-> & _). rewrite (le_next _ _ _ _ Hl).
  pose proof (le_cost _ _ _ _ Hl). destruct (ew_width e (eo_wf _ e Hok)) as [Hw _]. intros Hb.
  assert (slack e2 + length (displaced_members e2) + n ≤ slack e + length (displaced_members e)) by nia. nia.
Qed.

Lemma enrolled_population e u : enrolled e u = true ↔ population e u.
Proof. unfold enrolled, population. rewrite orb_true_iff, !bool_decide_eq_true. done. Qed.

Lemma remove_member_spec e u : ok e →
  if enrolled e u
  then match remove_member fresh e u ts with
    | Ok (e2, inl r) => leaves e [u] (length (rr_cycle_events r)) e2 ∧
        ∃ e1, cycles fresh ts e (rr_cycle_events r) e1 ∧ taken_out ts e1 u e2 (compacted r)
    | Panic => ¬ budget 0 e
    | _ => False
    end
  else remove_member fresh e u ts = Ok (e, inr (MemberNotFound u)).
Proof using Inj0.
  intros Hok. unfold remove_member. destruct (enrolled e u); [|done]. cbn [negb].
  destruct (drain_spec fresh ts e [] Hok) as [Hd _].
  destruct (drain_full_boards fresh (e, []) ts) as [[e1 all]| | |]; cbn [mbind outcome_bind]; [|done|exact Hd|done].
  destruct Hd as (new & Hall & Hc). cbn in Hall. subst all. pose proof (cycles_ok _ _ _ _ _ Hok Hc) as Hok1.
  pose proof (take_member_out_spec fresh ts e1 new u Hok1) as Ht.
  destruct (take_member_out fresh (e1, new) u ts) as [[[e2 all] [moved|err]]| | |]; cbn [mbind outcome_bind]; [|done|done| |done].
  - destruct Ht as (new' & e1' & -> & Hc' & Ht). pose proof (cycles_app _ _ _ _ _ _ _ Hc Hc') as Hcs.
    pose proof (cycles_ok _ _ _ _ _ Hok Hcs) as Hok'. split; cbn [rr_cycle_events compacted]; [|eauto].
    pose proof (leaves_trans _ _ _ _ _ _ _ (cycles_leaves _ _ _ Hok Hcs) (without_leaves _ _ _ _ Hok' Ht)) as Hl.
    by rewrite Nat.add_0_r in Hl.
  - intros Hb. apply Ht. exact (leaves_budget _ _ _ _ Hok (cycles_leaves _ _ _ Hok Hc) Hb).
Qed.

(** ** Compressing inactive members *)

(** The entries of [seated] that are compressed: each member once. *)
Definition compressed_of (e : BoardPlanEngine D) (seated : list (Uuid * Uuid)) (kept : list CompressedMember) : Prop :=
  ((λ c, (cm_user_id c, cm_board_id c)) <$> kept) `sublist_of` seated ∧ NoDup (cm_user_id <$> kept) ∧
  ∀ v, v ∈ cm_user_id <$> kept ↔ v ∈ seated.*1 ∧ population e v.

Lemma compress_seated_spec seated e events kept : ok e →
  match compress_seated fresh ts (e, events) kept seated with
  | Ok ((e2, all), inl kept2) => ∃ new more, all = events ++ new ∧ kept2 = kept ++ more ∧
      leaves e seated.*1 (length new) e2 ∧ compressed_of e seated more
  | Panic => ¬ budget 0 e
  | _ => False
  end.
Proof using Inj0.
  revert e events kept. induction seated as [|[u k] seated IH]; intros e events kept Hok; cbn [compress_seated].
  { exists [], []. rewrite !app_nil_r. split_and!; [done..| |].
    - apply (cycles_leaves e [] e Hok). constructor.
    - split_and!; [done|constructor|]. intros v. cbn. rewrite elem_of_nil. tauto. }
  cbn [fst]. destruct (enrolled e u) eqn:Hen; cbn [negb].
  - apply enrolled_population in Hen. pose proof (take_member_out_spec fresh ts e events u Hok) as Ht.
    destruct (take_member_out fresh (e, events) u ts) as [[[e1 all] [moved|err]]| | |]; cbn [mbind outcome_bind]; [|done|done|exact Ht|done].
    destruct Ht as (new & e1' & -> & Hc & Ht). pose proof (cycles_ok _ _ _ _ _ Hok Hc) as Hok'.
    pose proof (leaves_trans _ _ _ _ _ _ _ (cycles_leaves _ _ _ Hok Hc) (without_leaves _ _ _ _ Hok' Ht)) as Hl.
    specialize (IH e1 (events ++ new) (kept ++ [mkCompressed u k]) (le_ok _ _ _ _ Hl)).
    destruct (compress_seated _ _ _ _ _) as [[[e2 all] [kept2|err]]| | |]; [|done|done| |done].
    + destruct IH as (new' & more & -> & -> & Hl' & Hs & Hnd & Hin). exists (new ++ new'), (mkCompressed u k :: more).
      rewrite <- !app_assoc. split_and!; [done..| |].
      * rewrite length_app. pose proof (leaves_trans _ _ _ _ _ _ _ Hl Hl') as Hll. by rewrite Nat.add_0_r in Hll.
      * pose proof (le_population _ _ _ _ Hl) as Hpop. split_and!; cbn.
        { by apply sublist_skip. }
        { constructor; [|done]. rewrite Hin, Hpop. set_solver. }
        { intros v. rewrite !elem_of_cons, Hin, Hpop. cbn [app]. rewrite list_elem_of_singleton. destruct (decide (v = u)); naive_solver. }
    + intros Hb. apply IH. exact (leaves_budget _ _ _ _ Hok Hl Hb).
  - assert (Hout : ¬ population e u) by (rewrite <- enrolled_population, Hen; done).
    specialize (IH e events kept Hok). destruct (compress_seated _ _ _ _ _) as [[[e2 all] [kept2|err]]| | |]; [|done|done|done|done].
    destruct IH as (new & more & -> & -> & [L1 L2 L3 L4 L5] & Hs & Hnd & Hin). exists new, more. split_and!; [done..| |].
    + split; try done. intros v. rewrite L2, fmap_cons, elem_of_cons. cbn. destruct (decide (v = u)) as [->|]; naive_solver.
    + split_and!; [by apply sublist_cons|done|]. intros v. rewrite Hin, fmap_cons, elem_of_cons. cbn.
      destruct (decide (v = u)) as [->|]; naive_solver.
Qed.

(** The inactive members on a board, with it. *)
Definition seated_inactive e (inactive : list Uuid) : list (Uuid * Uuid) :=
  omap (λ u, (λ k, (u, k)) <$> member_boards e !! u) inactive.

Lemma elem_of_seated_inactive e inactive v : v ∈ (seated_inactive e inactive).*1 ↔ v ∈ inactive ∧ is_Some (member_boards e !! v).
Proof.
  unfold seated_inactive. rewrite list_elem_of_fmap. setoid_rewrite list_elem_of_omap. split.
  - intros ([w k] & -> & u & Hu & (k' & Hk & [= -> ->])%fmap_Some). eauto.
  - intros [Hv [k Hk]]. exists (v, k). split; [done|]. exists v. by rewrite Hk.
Qed.

Lemma compress_inactive_spec e inactive : ok e →
  match compress_inactive fresh e inactive ts with
  | Ok (e2, inl r) => leaves e (seated_inactive e inactive).*1 (length (cr_cycle_events r)) e2 ∧
      compressed_of e (seated_inactive e inactive) (compressed r)
  | Panic => ¬ budget 0 e
  | _ => False
  end.
Proof using Inj0.
  intros Hok. unfold compress_inactive. fold (seated_inactive e inactive). destruct (drain_spec fresh ts e [] Hok) as [Hd _].
  destruct (drain_full_boards fresh (e, []) ts) as [[e1 all]| | |]; cbn [mbind outcome_bind]; [|done|exact Hd|done].
  destruct Hd as (new & Hall & Hc). cbn in Hall. subst all. pose proof (cycles_leaves _ _ _ Hok Hc) as Hl.
  pose proof (compress_seated_spec (seated_inactive e inactive) e1 new [] (le_ok _ _ _ _ Hl)) as Hs.
  destruct (compress_seated _ _ _ _ _) as [[[e2 all] [kept|err]]| | |]; cbn [mbind outcome_bind]; [|done|done| |done].
  - destruct Hs as (new' & more & -> & -> & Hl' & S1 & S2 & S3). cbn [compressed cr_cycle_events app]. split.
    + rewrite length_app. exact (leaves_trans _ _ _ _ _ _ _ Hl Hl').
    + split_and!; [done..|]. intros v. rewrite S3, (le_population _ _ _ _ Hl), elem_of_nil. tauto.
  - intros Hb. apply Hs. exact (leaves_budget _ _ _ _ Hok Hl Hb).
Qed.

(** ** Dissolving a board *)

(** The engine after the board [k] with members [ms] was dissolved. *)
Definition dissolved e (k : Uuid) (ms : list Uuid) : BoardPlanEngine D :=
  foldl displace_member (with_boards (delete k) e) ms.

Lemma displace_all e ms :
  boards (foldl displace_member e ms) = boards e ∧
  displaced_members (foldl displace_member e ms) = displaced_members e ++ ms ∧
  (∀ v k, member_boards (foldl displace_member e ms) !! v = Some k ↔ (v ∉ ms) ∧ member_boards e !! v = Some k) ∧
  width (foldl displace_member e ms) = width e ∧ height (foldl displace_member e ms) = height e ∧
  total_positions (foldl displace_member e ms) = total_positions e ∧ sponsor_map (foldl displace_member e ms) = sponsor_map e ∧
  config (foldl displace_member e ms) = config e ∧ next_board_seq (foldl displace_member e ms) = next_board_seq e.
Proof.
  revert e. induction ms as [|u ms IH]; intros e; cbn [foldl].
  - rewrite app_nil_r. split_and!; try done. intros v k. rewrite elem_of_nil. tauto.
  - destruct (IH (displace_member e u)) as (-> & -> & Hm & -> & -> & -> & -> & -> & ->). split_and!; try done.
    + cbn. by rewrite <- app_assoc.
    + intros v k. rewrite Hm. cbn. rewrite lookup_delete_Some, elem_of_cons. naive_solver.
Qed.

Lemma dissolved_ok e k b : ok e → boards e !! k = Some b →
  ok (dissolved e k (Board.members b)) ∧ (∀ v, population (dissolved e k (Board.members b)) v ↔ population e v) ∧
  slack (dissolved e k (Board.members b)) + length (displaced_members (dissolved e k (Board.members b))) ≤
    slack e + length (displaced_members e) + 1.
Proof.
  intros [Hwf Hf Hd] Hk. unfold dissolved.
  destruct (displace_all (with_boards (delete k) e) (Board.members b)) as (Hb & Hdis & Hm & Hw & Hh & Ht & _ & Hc & Hn).
  cbn in *. pose proof (λ v, wf_seated e k b v Hwf Hk) as Hin. split_and!.
  - split; [split|..]; rewrite ?Hb, ?Hdis, ?Hw, ?Hh, ?Ht, ?Hn.
    1-3: apply Hwf.
    + intros j c [_ Hj]%lookup_delete_Some. by apply (ew_id e Hwf).
    + intros j c [_ Hj]%lookup_delete_Some. by apply (ew_packed e Hwf j).
    + intros j c [_ Hj]%lookup_delete_Some. by apply (ew_nodup e Hwf j).
    + intros v j. rewrite Hm, (ew_member e Hwf), <- Hin. setoid_rewrite lookup_delete_Some.
      rewrite (ew_member e Hwf). split.
      * intros (Hv & c & Hj & Hc'). exists c. split; [|done]. split; [|done]. intros <-. apply Hv. eauto.
      * intros (c & [Hne Hj] & Hv). split; [|eauto]. intros (c' & Hk' & Hv').
        assert (member_boards e !! v = Some j) by (apply (ew_member e Hwf); eauto).
        assert (member_boards e !! v = Some k) by (apply (ew_member e Hwf); eauto). congruence.
    + apply NoDup_app. split_and!; [apply Hwf| |by apply (ew_nodup e Hwf k)]. intros v Hv Hs%Hin.
      by rewrite (ew_displaced e Hwf v Hv) in Hs.
    + intros v Hv. apply eq_None_not_Some. intros [j [Hs Hj]%Hm]. apply elem_of_app in Hv as [Hv|Hv]; [|done].
      by rewrite (ew_displaced e Hwf v Hv) in Hj.
    + intros j c [_ Hj]%lookup_delete_Some. by eapply (ew_seq e Hwf).
    + intros j j' c c' [_ Hj]%lookup_delete_Some [_ Hj']%lookup_delete_Some. by eapply (ew_seq_inj e Hwf).
    + intros s Hs. rewrite Hn in Hs. rewrite Hb. apply lookup_delete_None. right. by apply Hf.
    + unfold depth_ok. by rewrite Hc.
  - intros v. unfold population. rewrite Hdis, elem_of_app. unfold is_Some. setoid_rewrite Hm. rewrite <- Hin. split.
    + intros [(j & _ & Hj)|[Hv|Hv]]; [left; eauto|by right|left; eauto].
    + intros [[j Hj]|Hv]; [|by right; left]. destruct (decide (j = k)) as [->|]; [by right; right|]. left. exists j.
      split; [rewrite <- Hin; congruence|done].
  - rewrite Hdis, length_app. unfold slack. rewrite Hb. pose proof (msum_delete (λ b, pred (length (Board.members b))) _ k b Hk). cbn beta in *. lia.
Qed.

Lemma dissolve_board_spec e k : ok e →
  match boards e !! k with
  | None => dissolve_board fresh e k ts = Ok (e, inr (BoardNotFound k))
  | Some b => if Board.is_full b
      then dissolve_board fresh e k ts = Ok (e, inr (BoardFull k (total_positions e) (total_positions e)))
      else match dissolve_board fresh e k ts with
        | Ok (e2, inl r) => dissolved_board_id r = k ∧ dr_displaced_members r = Board.members b ∧
            cycles fresh ts (dissolved e k (Board.members b)) (dr_cycle_events r) e2
        | Panic => ¬ budget 1 e
        | _ => False
        end
  end.
Proof using Inj0.
  intros Hok. unfold dissolve_board. destruct (boards e !! k) as [b|] eqn:Hk; [|done].
  pose proof (ew_packed e (eo_wf _ e Hok) k b Hk) as Hp. destruct (Board.is_full b) eqn:Hfull.
  - apply (packed_full _ _ Hp) in Hfull. by rewrite filled_count_members, Hfull, (packed_length _ _ Hp).
  - destruct (dissolved_ok e k b Hok Hk) as (Hok1 & _ & Hcost). fold (dissolved e k (Board.members b)).
    destruct (drain_spec fresh ts (dissolved e k (Board.members b)) [] Hok1) as [Hd _].
    destruct (drain_full_boards _ _ _) as [[e2 all]| | |]; cbn [mbind outcome_bind]; [|done| |done].
    + destruct Hd as (new & Hall & Hc). cbn in Hall. by subst all.
    + intros Hb. apply Hd. revert Hb Hcost. unfold budget, dissolved.
      destruct (displace_all (with_boards (delete k) e) (Board.members b)) as (_ & _ & _ & -> & _ & _ & _ & _ & ->). cbn. nia.
Qed.
End requests.
