(* ===== verification/BoardRestore.v ===== *)
(** * Restoring a board engine: [validate_restored] of [board_plan/engine.rs]

    The passes that check a deserialized engine, and the theorem that they accept
    exactly the well-formed engines whose sequence counter is in range. *)

From stdpp Require Import base numbers list gmap sorting strings list_numbers.
From Stdlib Require Import ZArith Lia.
From S2P Require Import Prelude RustDecimal Dec TreeTypes ArenaCheck ArenaRestore Currency Board BoardEngine BoardWf.
Import Engine.

Definition MAX_RESTORED_BOARD_SEQ : N := (u64_max / 2)%N.

Section restore.
Context {D : Type}.
Implicit Types e : BoardPlanEngine D.

(** What the walk over the boards collects. *)
Record BoardScan := mkBoardScan {
  placed : gset (Uuid * Uuid);
  sizing : option (Uuid * SnapshotConsistencyError);
  scan_seats : gmap Uuid Uuid;
  duplicate : option (Uuid * Uuid);
}.

Definition scan_occupant (board_id : Uuid) (s : BoardScan) (occupant : Uuid) : BoardScan :=
  mkBoardScan ({[(board_id, occupant)]} ∪ placed s) (sizing s) (<[occupant := board_id]> (scan_seats s))
    (if bool_decide (is_Some (scan_seats s !! occupant)) &&
        match duplicate s with None => true | Some (held, _) => (occupant <? held)%N end
     then Some (occupant, board_id) else duplicate s).

Definition scan_board (total : nat) (s : BoardScan) (entry : Uuid * Board.Board) : BoardScan :=
  let '(board_id, board) := entry in
  if bool_decide (length (Board.positions board) ≠ total)
  then mkBoardScan (placed s)
    (keep_lowest N.ltb (sizing s) board_id
       (Some (BoardPositionCountMismatch board_id (length (Board.positions board)) total)))
    (scan_seats s) (duplicate s)
  else foldl (scan_occupant board_id) s (Board.members board).

Definition scan_boards e : BoardScan :=
  foldl (scan_board (total_positions e)) (mkBoardScan ∅ None ∅ None) (map_to_list (boards e)).

(** The boards that hold [user_id], lowest first. *)
Definition boards_holding e (user_id : Uuid) : list Uuid :=
  sort_by N.compare ((filter (λ entry, user_id ∈ Board.members entry.2) (map_to_list (boards e))).*1).

Definition check_duplicate e (found : option (Uuid * Uuid)) : check_result :=
  match found with
  | None => Ok ()
  | Some (user_id, seen_on) =>
      match boards_holding e user_id with
      | first_board :: second_board :: _ => Err (MemberOnTwoBoards user_id first_board second_board)
      | _ => Err (MemberSeatedTwiceOnBoard user_id seen_on)
      end
  end.

Definition board_id_fault (key : Uuid) (board : Board.Board) : option SnapshotConsistencyError :=
  if bool_decide (key ≠ Board.id board) then Some (BoardIdMismatch key (Board.id board)) else None.

Definition member_fault e (placed : gset (Uuid * Uuid)) (user_id board_id : Uuid) : option SnapshotConsistencyError :=
  if bool_decide (boards e !! board_id = None) then Some (BoardAbsent user_id board_id)
  else if bool_decide ((board_id, user_id) ∉ placed) then Some (MemberNotOnBoard user_id board_id)
  else None.

Definition seat_fault e (user_id board_id : Uuid) : option SnapshotConsistencyError :=
  if bool_decide (member_boards e !! user_id ≠ Some board_id) then Some (OccupantNotIndexed user_id board_id) else None.

Fixpoint check_displaced e (listed : gset Uuid) (l : list Uuid) : check_result :=
  match l with
  | [] => Ok ()
  | user_id :: l' =>
      refuse_if (bool_decide (user_id ∈ listed)) (MemberDisplacedTwice user_id);;
      match member_boards e !! user_id with
      | Some board_id => Err (MemberDisplacedAndSeated user_id board_id)
      | None => check_displaced e ({[user_id]} ∪ listed) l'
      end
  end.

Definition gap_fault (board_id : Uuid) (board : Board.Board) : option SnapshotConsistencyError :=
  match Board.first_open_position board with
  | None => None
  | Some opening =>
      match list_find (λ p, is_Some p) (drop opening (Board.positions board)) with
      | None => None
      | Some (offset, _) => Some (BoardOccupantAboveOpening board_id opening (opening + offset))
      end
  end.

Definition seq_fault e (board_id : Uuid) (board : Board.Board) : option SnapshotConsistencyError :=
  if (next_board_seq e <=? Board.seq board)%N
  then Some (BoardSeqNotBelowCounter board_id (Board.seq board) (next_board_seq e)) else None.

(** The board joins the holders of its sequence number. *)
Definition add_holder (holders : gmap N (list Uuid)) (entry : Uuid * Board.Board) : gmap N (list Uuid) :=
  let '(board_id, board) := entry in
  <[Board.seq board := default [] (holders !! Board.seq board) ++ [board_id]]> holders.

(** The lowest repeated sequence number, named by its two lowest boards. *)
Definition check_repeated (holders : gmap N (list Uuid)) : check_result :=
  let entries := sort_by (λ x y, N.compare x.1 y.1) (map_to_list holders) in
  match list_find (λ entry, 1 < length entry.2) entries with
  | None => Ok ()
  | Some (_, (seq, held)) =>
      match sort_by N.compare held with
      | first_board :: second_board :: _ => Err (BoardSeqRepeated seq first_board second_board)
      | _ => Panic
      end
  end.

Definition validate_restored e : check_result :=
  refuse_if (negb (bool_decide (2 ≤ width e ≤ 5)%N) || negb (bool_decide (1 ≤ height e ≤ 4)%N))
    (BoardDimensionsOutOfRange (width e) (height e));;
  let expected := Board.total_positions (width e) (height e) in
  refuse_if (bool_decide (total_positions e ≠ expected))
    (BoardTotalPositionsMismatch (total_positions e) (width e) (height e) expected);;
  raise (lowest_fault N.ltb board_id_fault (map_to_list (boards e)));;
  let s := scan_boards e in
  raise (sizing s);;
  check_duplicate e (duplicate s);;
  raise (lowest_fault N.ltb (member_fault e (placed s)) (map_to_list (member_boards e)));;
  raise (lowest_fault N.ltb (seat_fault e) (map_to_list (scan_seats s)));;
  check_displaced e ∅ (displaced_members e);;
  raise (lowest_fault N.ltb gap_fault (map_to_list (boards e)));;
  refuse_if (MAX_RESTORED_BOARD_SEQ <? next_board_seq e)%N (BoardSeqCounterExhausted (next_board_seq e));;
  raise (lowest_fault N.ltb (seq_fault e) (map_to_list (boards e)));;
  check_repeated (foldl add_holder ∅ (map_to_list (boards e))).

(** ** The passes, one by one *)

Lemma raise_lowest {V} (check : Uuid → V → option SnapshotConsistencyError) (m : gmap Uuid V) :
  raise (lowest_fault N.ltb check (map_to_list m)) = Ok () ↔ ∀ k v, m !! k = Some v → check k v = None.
Proof.
  trans (lowest_fault N.ltb check (map_to_list m) = None).
  { destruct (lowest_fault _ _ _) as [[]|]; cbn; naive_solver. }
  rewrite lowest_fault_none. by setoid_rewrite elem_of_map_to_list.
Qed.

(** The occupants of the boards [l], with their board. *)
Definition occupants (l : list (Uuid * Board.Board)) : list (Uuid * Uuid) :=
  concat ((λ entry, (λ u, (entry.1, u)) <$> Board.members entry.2) <$> l).

Lemma scan_occupants_sizing l k s : sizing (foldl (scan_occupant k) s l) = sizing s.
Proof. revert s. induction l as [|u l IH]; intros s; [done|]. cbn [foldl]. by rewrite IH. Qed.

Lemma keep_lowest_some {F} fault (key : N) (f : F) : is_Some (keep_lowest N.ltb fault key (Some f)).
Proof. unfold keep_lowest. destruct fault as [[h ?]|]; [destruct (key <? h)%N|]; eauto. Qed.

Lemma scan_sizing total l s : sizing (foldl (scan_board total) s l) = None ↔
  sizing s = None ∧ ∀ entry, entry ∈ l → length (Board.positions entry.2) = total.
Proof.
  revert s. induction l as [|[k b] l IH]; intros s; cbn [foldl].
  { split; [intros H; split; [done|]; by intros ? ?%elem_of_nil|by intros [? _]]. }
  rewrite IH. cbn [scan_board]. case_bool_decide as Hb.
  - cbn [sizing]. destruct (keep_lowest_some (sizing s) k (BoardPositionCountMismatch k (length (Board.positions b)) total)) as [x ->].
    split; [by intros [? _]|]. intros [_ H]. exfalso. apply Hb. apply (H (k, b)). left.
  - rewrite scan_occupants_sizing. setoid_rewrite elem_of_cons. split.
    + intros [? H]. split; [done|]. intros entry [->|?]; [exact Hb|auto].
    + naive_solver.
Qed.

(** When every board has the right size the walk sees every occupant in turn. *)
Lemma scan_flat total l s : (∀ entry, entry ∈ l → length (Board.positions entry.2) = total) →
  foldl (scan_board total) s l = foldl (λ s o, scan_occupant o.1 s o.2) s (occupants l).
Proof.
  revert s. induction l as [|[k b] l IH]; intros s Hl; [done|]. cbn [foldl]. rewrite IH by (intros; apply Hl; by right).
  unfold occupants. cbn [fmap list_fmap concat fst snd]. rewrite foldl_app. f_equal. unfold scan_board.
  rewrite bool_decide_eq_false_2 by (intros H; apply H, (Hl (k, b)); left).
  generalize (Board.members b). intros us. revert s. induction us as [|u us IHu]; intros s; [done|]. apply IHu.
Qed.

Lemma scan_duplicate l s : duplicate (foldl (λ s o, scan_occupant o.1 s o.2) s l) = None ↔
  duplicate s = None ∧ NoDup l.*2 ∧ ∀ u, u ∈ l.*2 → scan_seats s !! u = None.
Proof.
  revert s. induction l as [|[k u] l IH]; intros s; cbn [foldl].
  { split; [intros H; split_and!; [done|constructor|by intros ? ?%elem_of_nil]|by intros [? _]]. }
  rewrite IH. cbn [scan_occupant fst snd duplicate scan_seats]. rewrite fmap_cons, NoDup_cons. setoid_rewrite elem_of_cons. cbn [snd].
  destruct (scan_seats s !! u) as [k'|] eqn:Hu.
  - rewrite bool_decide_eq_true_2 by eauto. cbn [andb]. split.
    + intros [H _]. destruct (duplicate s) as [[h ?]|]; [destruct (u <? h)%N|]; done.
    + intros (_ & _ & H). exfalso. rewrite (H u) in Hu by (by left). done.
  - rewrite bool_decide_eq_false_2 by (by intros [? [=]]). cbn [andb]. split.
    + intros (Hd & Hnd & Hs). split_and!; [done| |done|].
      * intros Hin. specialize (Hs u Hin). by rewrite lookup_insert_eq in Hs.
      * intros v [->|Hv]; [done|]. specialize (Hs v Hv). by apply lookup_insert_None in Hs as [? _].
    + intros (Hd & [Hnin Hnd] & Hs). split_and!; [done..|]. intros v Hv. rewrite lookup_insert_ne; [apply Hs; by right|].
      intros <-. done.
Qed.

Lemma scan_seats_all l s : scan_seats (foldl (λ s o, scan_occupant o.1 s o.2) s l) = insert_all snd fst (scan_seats s) l.
Proof. revert s. induction l as [|[k u] l IH]; intros s; [done|]. cbn [foldl]. by rewrite IH. Qed.

Lemma scan_placed l s o : o ∈ placed (foldl (λ s o, scan_occupant o.1 s o.2) s l) ↔ o ∈ placed s ∨ o ∈ l.
Proof.
  revert s. induction l as [|[k u] l IH]; intros s; cbn [foldl]; [set_solver|]. rewrite IH. cbn [scan_occupant placed fst snd]. set_solver.
Qed.

Lemma elem_of_occupants e k u : (k, u) ∈ occupants (map_to_list (boards e)) ↔ ∃ b, boards e !! k = Some b ∧ u ∈ Board.members b.
Proof.
  unfold occupants. rewrite elem_of_concat. setoid_rewrite list_elem_of_fmap. split.
  - intros (l & ([j b] & -> & Hj%elem_of_map_to_list) & (v & [= -> ->] & Hv)%list_elem_of_fmap). eauto.
  - intros (b & Hb & Hu). eexists. split; [exists (k, b); split; [reflexivity|by apply elem_of_map_to_list]|].
    apply list_elem_of_fmap. eauto.
Qed.

(** Each board's members are distinct and no two boards share one. *)
Lemma occupants_nodup e : NoDup (occupants (map_to_list (boards e))).*2 ↔
  (∀ k b, boards e !! k = Some b → NoDup (Board.members b)) ∧
  (∀ k k' b b' u, boards e !! k = Some b → boards e !! k' = Some b' → u ∈ Board.members b → u ∈ Board.members b' → k = k').
Proof.
  setoid_rewrite <- elem_of_map_to_list. pose proof (NoDup_fst_map_to_list (boards e)) as Hk. revert Hk.
  generalize (map_to_list (boards e)). intros l. induction l as [|[k b] l IH]; intros Hk.
  { cbn. split; [|intros; constructor]. intros _. split; intros * ?%elem_of_nil; done. }
  rewrite fmap_cons, NoDup_cons in Hk. destruct Hk as [Hkl Hk]. specialize (IH Hk).
  unfold occupants. cbn [fmap list_fmap concat fst snd]. fold (occupants l). rewrite fmap_app, <- list_fmap_compose.
  replace (snd ∘ (λ u, (k, u)) <$> Board.members b) with (Board.members b) by (symmetry; apply list_fmap_id).
  assert (Hin : ∀ u, u ∈ (occupants l).*2 ↔ ∃ k' b', (k', b') ∈ l ∧ u ∈ Board.members b').
  { intros u. rewrite list_elem_of_fmap. unfold occupants. setoid_rewrite elem_of_concat. setoid_rewrite list_elem_of_fmap. split.
    - intros ([j v] & -> & x & ([j' b'] & -> & Hj) & (v' & [= -> ->] & Hv)%list_elem_of_fmap). eauto.
    - intros (k' & b' & Hl & Hu). exists (k', u). split; [done|]. eexists. split; [exists (k', b'); done|]. apply list_elem_of_fmap. eauto. }
  rewrite NoDup_app, IH. split.
  - intros (Hnd & Hdis & Hnds & Hone). split.
    + intros k' b' [[= -> ->]|Hl]%elem_of_cons; eauto.
    + intros k1 k2 b1 b2 u [[= -> ->]|H1]%elem_of_cons [[= -> ->]|H2]%elem_of_cons Hu1 Hu2; [done|..|by eapply Hone].
      * exfalso. apply (Hdis u Hu1). apply Hin. eauto.
      * exfalso. apply (Hdis u Hu2). apply Hin. eauto.
  - intros [Hnd Hone]. split_and!.
    + apply (Hnd k). left.
    + intros u Hu (k' & b' & Hl & Hu')%Hin. apply Hkl. assert (k = k') as ->; [|by apply (list_elem_of_fmap_2 fst _ (k', b'))].
      eapply Hone; [left|right; exact Hl|done..].
    + intros k' b' Hl. apply (Hnd k'). by right.
    + intros k1 k2 b1 b2 u H1 H2. apply Hone; by right.
Qed.

Lemma duplicate_seat_ok e found : check_duplicate e found = Ok () ↔ found = None.
Proof. unfold check_duplicate. destruct found as [[u k]|]; [|done]. destruct (boards_holding e u) as [|? [|]]; done. Qed.

Lemma check_displaced_ok e listed l : check_displaced e listed l = Ok () ↔
  NoDup l ∧ ∀ u, u ∈ l → (u ∉ listed) ∧ member_boards e !! u = None.
Proof.
  revert listed. induction l as [|u l IH]; intros listed; cbn [check_displaced].
  { split; [|done]. split; [constructor|]. by intros ? ?%elem_of_nil. }
  rewrite refuse_bool, NoDup_cons. case_bool_decide as Hin; [split; [done|]; intros [_ H]; by destruct (H u ltac:(left))|].
  destruct (member_boards e !! u) as [k|] eqn:Hu.
  { split; [done|]. intros [_ H]. destruct (H u ltac:(left)). congruence. }
  rewrite IH. setoid_rewrite elem_of_cons. split.
  - intros [Hnd H]. split_and!; [|done|].
    + intros Hul. destruct (H u Hul). set_solver.
    + intros v [->|Hv]; [done|]. destruct (H v Hv). set_solver.
  - intros [[Hnl Hnd] H]. split; [done|]. intros v Hv. destruct (H v ltac:(by right)). split; [|done].
    assert (v ≠ u) by (intros ->; done). set_solver.
Qed.

Lemma all_seated (l : list (option Uuid)) : Forall is_Some l → ∃ us, l = Some <$> us.
Proof. induction 1 as [|p l [u ->] _ [us ->]]; [by exists []|by exists (u :: us)]. Qed.

(** No occupant above an opening: the board is filled from position zero. *)
Lemma gap_fault_packed t k b : length (Board.positions b) = t → gap_fault k b = None ↔ packed t b.
Proof.
  intros Hlen. unfold gap_fault. split.
  - unfold Board.first_open_position. destruct (list_find (λ p, p = None) (Board.positions b)) as [[i o]|] eqn:Hf; cbn.
    + apply list_find_Some in Hf as (Hi & -> & Hbefore). destruct (list_find _ (drop i _)) as [[? ?]|] eqn:Hg; [done|]. intros _.
      apply list_find_None in Hg. assert (Hsplit : Board.positions b = take i (Board.positions b) ++ drop i (Board.positions b)) by (by rewrite take_drop).
      destruct (all_seated (take i (Board.positions b))) as [us Hus].
      { apply Forall_lookup. intros j p Hj. apply lookup_take_Some in Hj as [Hj Hlt]. specialize (Hbefore j p Hj Hlt).
        destruct p; [eauto|done]. }
      pose proof (lookup_lt_Some _ _ _ Hi) as Hlt. assert (Hl : length us = i).
      { rewrite <- (length_fmap Some us), <- Hus, length_take. lia. }
      apply (packed_intro t b us); [|lia].
      rewrite Hsplit, Hus. unfold filled. f_equal. rewrite Hl, <- Hlen, <- length_drop.
      clear -Hg. induction Hg as [|p ps Hp _ IH]; [done|]. cbn. rewrite IH at 1. f_equal. destruct p; [by exfalso; apply Hp; eauto|done].
    + intros _. apply list_find_None in Hf. assert (Hall : Forall is_Some (Board.positions b)).
      { eapply Forall_impl; [exact Hf|]. intros [u|] H; [eauto|by exfalso; apply H]. }
      apply all_seated in Hall as [us Hus]. assert (length us = t) by (rewrite <- Hlen, Hus; apply eq_sym, length_fmap).
      apply (packed_intro t b us); [|lia]. unfold filled. replace (t - length us) with 0 by lia. by rewrite app_nil_r.
  - intros Hp. rewrite (packed_open t b Hp). case_decide; [|done]. destruct (list_find _ _) as [[j p]|] eqn:Hg; [|done].
    apply list_find_Some in Hg as (Hj & [u ->] & _). rewrite lookup_drop, (proj1 Hp) in Hj. unfold filled in Hj.
    rewrite lookup_app_r in Hj by (rewrite length_fmap; lia). apply lookup_replicate in Hj as [[=] _].
Qed.

Lemma holders_of l m q : default [] (foldl add_holder m l !! q) =
  default [] (m !! q) ++ (filter (λ entry, Board.seq entry.2 = q) l).*1.
Proof.
  revert m. induction l as [|[k b] l IH]; intros m; cbn [foldl]; [by rewrite app_nil_r|].
  rewrite IH, filter_cons. cbn [add_holder snd]. case_decide as Hq.
  - rewrite Hq, lookup_insert_eq, fmap_cons. cbn. by rewrite <- app_assoc.
  - by rewrite lookup_insert_ne.
Qed.

Lemma check_repeated_ok holders : check_repeated holders = Ok () ↔ ∀ q held, holders !! q = Some held → length held ≤ 1.
Proof.
  unfold check_repeated. set (entries := sort_by _ _).
  assert (Hin : ∀ q held, (q, held) ∈ entries ↔ holders !! q = Some held).
  { intros q held. unfold entries. by rewrite sort_by_perm, elem_of_map_to_list. }
  destruct (list_find (λ entry, 1 < length entry.2) entries) as [[i [q held]]|] eqn:Hf.
  - apply list_find_Some in Hf as (Hi & Hlt & _). cbn in Hlt. split.
    + pose proof (sort_by_perm N.compare held) as Hp%Permutation_length. destruct (sort_by N.compare held) as [|? [|]]; cbn in Hp; [lia..|done].
    + intros H. specialize (H q held). rewrite <- Hin in H. assert (length held ≤ 1); [|lia]. apply H. by eapply list_elem_of_lookup_2.
  - split; [|done]. intros _ q held Hq%Hin. apply list_find_None in Hf. rewrite Forall_forall in Hf. specialize (Hf _ Hq). cbn in Hf. lia.
Qed.

(** No sequence number is held twice. *)
Lemma seqs_unique e : check_repeated (foldl add_holder ∅ (map_to_list (boards e))) = Ok () ↔
  ∀ k k' b b', boards e !! k = Some b → boards e !! k' = Some b' → Board.seq b = Board.seq b' → k = k'.
Proof.
  rewrite check_repeated_ok. set (l := map_to_list (boards e)).
  pose proof (λ q, holders_of l ∅ q) as Hh. setoid_rewrite lookup_empty in Hh. cbn [default app] in Hh.
  assert (Hat : ∀ k b, boards e !! k = Some b ↔ (k, b) ∈ l) by (intros; symmetry; apply elem_of_map_to_list).
  pose proof (NoDup_fst_map_to_list (boards e)) as Hk. fold l in Hk. split.
  - intros H k k' b b' Hb%Hat Hb'%Hat Hs. specialize (Hh (Board.seq b)).
    assert (Hin : k ∈ (filter (λ entry, Board.seq entry.2 = Board.seq b) l).*1 ∧ k' ∈ (filter (λ entry, Board.seq entry.2 = Board.seq b) l).*1).
    { split; [apply (list_elem_of_fmap_2 fst _ (k, b))|apply (list_elem_of_fmap_2 fst _ (k', b'))]; by apply list_elem_of_filter. }
    rewrite <- Hh in Hin. destruct (foldl add_holder ∅ l !! Board.seq b) as [held|] eqn:Hheld; [|by destruct Hin as [?%elem_of_nil _]].
    specialize (H _ _ Hheld). cbn in Hin. destruct held as [|x [|]]; cbn in H; [by destruct Hin as [?%elem_of_nil _]| |lia].
    destruct Hin as [->%list_elem_of_singleton ->%list_elem_of_singleton]. done.
  - intros H q held Hheld. specialize (Hh q). rewrite Hheld in Hh. cbn in Hh. subst held.
    assert (Hnd : NoDup (filter (λ entry, Board.seq entry.2 = q) l).*1).
    { apply (sublist_NoDup _ l.*1); [done|]. apply fmap_sublist, sublist_filter. }
    destruct (filter _ l) as [|[k b] [|[k' b'] rest]] eqn:Hfl; cbn; [lia..|]. exfalso.
    assert (Hb : (k, b) ∈ filter (λ entry, Board.seq entry.2 = q) l) by (rewrite Hfl; left).
    assert (Hb' : (k', b') ∈ filter (λ entry, Board.seq entry.2 = q) l) by (rewrite Hfl; right; left).
    apply list_elem_of_filter in Hb as [Hq Hb], Hb' as [Hq' Hb']. cbn in Hq, Hq'. rewrite !fmap_cons in Hnd.
    apply NoDup_cons in Hnd as [Hnot _]. apply Hnot. rewrite (H k k' b b'); [left|by apply Hat..|congruence].
Qed.

(** What each pass accepts. *)
Definition passes e : Prop :=
  ((2 ≤ width e ≤ 5)%N ∧ (1 ≤ height e ≤ 4)%N) ∧ ¬ total_positions e ≠ Board.total_positions (width e) (height e) ∧
  (∀ k b, boards e !! k = Some b → board_id_fault k b = None) ∧
  (∀ k b, boards e !! k = Some b → length (Board.positions b) = total_positions e) ∧ duplicate (scan_boards e) = None ∧
  (∀ u k, member_boards e !! u = Some k → member_fault e (placed (scan_boards e)) u k = None) ∧
  (∀ u k, scan_seats (scan_boards e) !! u = Some k → seat_fault e u k = None) ∧
  (NoDup (displaced_members e) ∧ ∀ u, u ∈ displaced_members e → (u ∉ (∅ : gset Uuid)) ∧ member_boards e !! u = None) ∧
  (∀ k b, boards e !! k = Some b → gap_fault k b = None) ∧ (next_board_seq e ≤ MAX_RESTORED_BOARD_SEQ)%N ∧
  (∀ k b, boards e !! k = Some b → seq_fault e k b = None) ∧
  ∀ k k' b b', boards e !! k = Some b → boards e !! k' = Some b' → Board.seq b = Board.seq b' → k = k'.

Lemma validate_restored_passes e : validate_restored e = Ok () ↔ passes e.
Proof.
  unfold validate_restored, passes. rewrite !bind_unit_ok, !refuse_if_ok, !raise_lowest, duplicate_seat_ok, check_displaced_ok, seqs_unique.
  rewrite orb_false_iff, !negb_false_iff, !bool_decide_eq_true, bool_decide_eq_false, N.ltb_ge.
  assert (Hsize : raise (sizing (scan_boards e)) = Ok () ↔ ∀ k b, boards e !! k = Some b → length (Board.positions b) = total_positions e).
  { trans (sizing (scan_boards e) = None); [destruct (sizing _) as [[]|]; cbn; naive_solver|]. unfold scan_boards. rewrite scan_sizing.
    split; [intros [_ H] k b Hb%elem_of_map_to_list; by apply (H (k, b))|]. intros H. split; [done|].
    intros [k b] Hb%elem_of_map_to_list. by eapply H. }
  by rewrite Hsize.
Qed.

Lemma scan_boards_flat e : (∀ k b, boards e !! k = Some b → length (Board.positions b) = total_positions e) →
  scan_boards e = foldl (λ s o, scan_occupant o.1 s o.2) (mkBoardScan ∅ None ∅ None) (occupants (map_to_list (boards e))).
Proof. intros H. apply scan_flat. intros [k b] Hb%elem_of_map_to_list. by eapply H. Qed.

Lemma occupant_seats e u k : NoDup (occupants (map_to_list (boards e))).*2 →
  insert_all snd fst ∅ (occupants (map_to_list (boards e))) !! u = Some k ↔ ∃ b, boards e !! k = Some b ∧ u ∈ Board.members b.
Proof.
  intros Hnd. rewrite (insert_all_Some snd fst _ u k Hnd), <- elem_of_occupants. split; [|eauto].
  by intros ([? ?] & ? & ? & ?); simplify_eq/=.
Qed.

Lemma passes_wf e : passes e → engine_wf e ∧ (next_board_seq e ≤ MAX_RESTORED_BOARD_SEQ)%N.
Proof.
  intros ((Hw & Hh) & Ht & Hid & Hlen & Hdup & Hmem & Hseat & (Hdn & Hdd) & Hgap & Hmax & Hseq & Huniq). split; [|done].
  rewrite (scan_boards_flat e Hlen) in Hdup, Hmem, Hseat. apply scan_duplicate in Hdup as (_ & Hnd & _).
  rewrite scan_seats_all in Hseat. cbn [scan_seats] in Hseat.
  split; try done.
  + destruct (decide (total_positions e = Board.total_positions (width e) (height e))); [done|by exfalso; apply Ht].
  + intros k b Hb. specialize (Hid k b Hb). unfold board_id_fault in Hid. by case_bool_decide.
  + intros k b Hb. apply (gap_fault_packed _ k); eauto.
  + by apply occupants_nodup.
  + intros u k. rewrite <- (occupant_seats e u k Hnd). split.
    * intros Hu. specialize (Hmem u k Hu). unfold member_fault in Hmem. repeat case_bool_decide; [done..|].
      apply (occupant_seats e u k Hnd), elem_of_occupants. pose proof (scan_placed (occupants (map_to_list (boards e))) (mkBoardScan ∅ None ∅ None) (k, u)) as Hp.
      cbn [placed] in Hp. destruct (decide ((k, u) ∈ occupants (map_to_list (boards e)))); [done|]. set_solver.
    * intros Hu. specialize (Hseat u k Hu). unfold seat_fault in Hseat. case_bool_decide as H; [done|]. by destruct (decide (member_boards e !! u = Some k)).
  + intros u Hu. by apply Hdd.
  + intros k b Hb. specialize (Hseq k b Hb). unfold seq_fault in Hseq. by destruct (N.leb_spec (next_board_seq e) (Board.seq b)).
Qed.

Lemma wf_passes e : engine_wf e ∧ (next_board_seq e ≤ MAX_RESTORED_BOARD_SEQ)%N → passes e.
Proof.
  intros [Hwf Hmax]. assert (Hlen : ∀ k b, boards e !! k = Some b → length (Board.positions b) = total_positions e).
  { intros k b Hb. apply packed_length, (ew_packed e Hwf k b Hb). }
  assert (Hnd : NoDup (occupants (map_to_list (boards e))).*2).
  { apply occupants_nodup. split; [apply (ew_nodup e Hwf)|]. intros k k' b b' u Hb Hb' Hu Hu'.
    apply (wf_seated e k b u Hwf Hb) in Hu. apply (wf_seated e k' b' u Hwf Hb') in Hu'. congruence. }
  unfold passes. rewrite (scan_boards_flat e Hlen), scan_seats_all. cbn [scan_seats]. split_and!; try by apply Hwf.
  + rewrite (ew_total e Hwf). by intros [].
  + intros k b Hb. unfold board_id_fault. rewrite (ew_id e Hwf k b Hb). by rewrite bool_decide_eq_false_2 by (by intros []).
  + done.
  + apply scan_duplicate. split_and!; [done|done|]. intros u _. apply lookup_empty.
  + intros u k Hu. unfold member_fault. pose proof (proj1 (ew_member e Hwf u k) Hu) as (b & Hb & Hub).
    rewrite Hb, bool_decide_eq_false_2 by done. rewrite bool_decide_eq_false_2; [done|]. intros H. apply H, scan_placed. right.
    apply elem_of_occupants. eauto.
  + intros u k Hu. apply (occupant_seats e u k Hnd) in Hu. unfold seat_fault. rewrite (proj2 (ew_member e Hwf u k) Hu).
    by rewrite bool_decide_eq_false_2 by (by intros []).
  + intros u Hu. split; [set_solver|by apply (ew_displaced e Hwf)].
  + intros k b Hb. apply (gap_fault_packed (total_positions e)); [eauto|by apply (ew_packed e Hwf k)].
  + done.
  + intros k b Hb. unfold seq_fault. destruct (N.leb_spec (next_board_seq e) (Board.seq b)); [|done].
    pose proof (ew_seq e Hwf k b Hb). lia.
Qed.

Lemma board_restored_spec e : validate_restored e = Ok () ↔ engine_wf e ∧ (next_board_seq e ≤ MAX_RESTORED_BOARD_SEQ)%N.
Proof. rewrite validate_restored_passes. split; [apply passes_wf|apply wf_passes]. Qed.
End restore.
