(* ===== verification/BoardTheorems.v ===== *)
(** * What the board engine guarantees: [board_plan/engine.rs]

    The theorems hold of every live engine: one that [new] built or a restore
    accepted, after any requests. [fresh] is injective and its draws from the
    sequence counter on name no board yet: version 4 identifiers do not repeat. *)

From stdpp Require Import base numbers list gmap sorting strings list_numbers.
From Stdlib Require Import ZArith Lia.
From S2P Require Import Prelude RustDecimal Dec TreeTypes ArenaCheck Currency Board BoardEngine BoardWf BoardCycle BoardCascade BoardRequests BoardRestore.
Import Engine.

Section live.
Context {D : Type} (fresh : N → Uuid).

(** ** Live engines *)

Inductive request : BoardPlanEngine D → BoardPlanEngine D → Prop :=
| req_add e u sponsor ts e' r : add_member fresh e u sponsor ts = Ok (e', r) → request e e'
| req_remove e u ts e' r : remove_member fresh e u ts = Ok (e', r) → request e e'
| req_dissolve e k ts e' r : dissolve_board fresh e k ts = Ok (e', r) → request e e'
| req_compress e us ts e' r : compress_inactive fresh e us ts = Ok (e', r) → request e e'.

Inductive live : BoardPlanEngine D → Prop :=
| live_new w h cfg ts e : new fresh w h cfg ts = Ok e → depth_ok e → live e
| live_restored e : validate_restored e = Ok () → fresh_for fresh e → depth_ok e → live e
| live_request e e' : live e → request e e' → live e'.

Context `{!Inj (=) (=) fresh}.

Lemma new_engine_ok w h cfg ts (e : BoardPlanEngine D) : new fresh w h cfg ts = Ok e → depth_ok e → engine_ok fresh e.
Proof using Inj0.
  unfold new. rewrite !bind_unit_ok, !refuse_if_ok, !negb_false_iff, !bool_decide_eq_true. intros (Hw & Hh & [= <-]) Hd.
  set (b := Board.new (fresh 0) (Board.total_positions w h) ts None 0).
  assert (Hb : packed (Board.total_positions w h) b ∧ Board.members b = []).
  { apply packed_intro; [|cbn; lia]. unfold filled. cbn. by rewrite Nat.sub_0_r. }
  destruct Hb as [Hp Hm]. split; [split|..]; cbn [width height total_positions boards member_boards displaced_members next_board_seq];
    try done.
  - intros k c [<- <-]%lookup_singleton_Some. done.
  - intros k c [<- <-]%lookup_singleton_Some. done.
  - intros k c [<- <-]%lookup_singleton_Some. rewrite Hm. constructor.
  - intros u k. rewrite lookup_empty. split; [done|]. intros (c & [<- <-]%lookup_singleton_Some & Hu). rewrite Hm in Hu. by apply elem_of_nil in Hu.
  - constructor.
  - intros k c [<- <-]%lookup_singleton_Some. cbn. lia.
  - intros k k' c c' [<- <-]%lookup_singleton_Some [<- <-]%lookup_singleton_Some. done.
  - intros s Hs. cbn in *. apply lookup_singleton_None. intros Heq%Inj0. lia.
Qed.

Lemma request_ok e e' : engine_ok fresh e → request e e' → engine_ok fresh e'.
Proof using Inj0.
  intros Hok Hr. destruct Hr as [e u sponsor ts e' r Hr|e u ts e' r Hr|e k ts e' r Hr|e us ts e' r Hr].
  - pose proof (add_member_spec fresh ts e u sponsor Hok) as H. rewrite Hr in H.
    destruct (add_member_refusal e u sponsor); [by simplify_eq|]. destruct r; [by apply H|done].
  - pose proof (remove_member_spec fresh ts e u Hok) as H. rewrite Hr in H. destruct (enrolled e u); [|by simplify_eq].
    destruct r; [|done]. destruct H as [H _]. apply H.
  - pose proof (dissolve_board_spec fresh ts e k Hok) as H. rewrite Hr in H. destruct (boards e !! k) as [b|] eqn:Hk; [|by simplify_eq].
    destruct (Board.is_full b); [by simplify_eq|]. destruct r; [|done]. destruct H as (_ & _ & Hc).
    eapply cycles_ok; [|exact Hc]. by apply (dissolved_ok fresh e k b).
  - pose proof (compress_inactive_spec fresh ts e us Hok) as H. rewrite Hr in H. destruct r; [|done]. destruct H as [H _]. apply H.
Qed.

Lemma live_ok e : live e → engine_ok fresh e.
Proof using Inj0.
  induction 1 as [w h cfg ts e Hn Hd|e Hv Hf Hd|e e' _ IH Hr].
  - by eapply new_engine_ok.
  - split; [|done..]. by apply board_restored_spec in Hv as [? _].
  - by eapply request_ok.
Qed.

(** C17. Every live engine is one a restore accepts, as long as the sequence
    counter is within the range a restore allows: dimensions, board size, keys,
    seats and index, the displaced pool, filling from position zero and sequence
    numbers all agree after any sequence of requests, refused ones included. *)
Theorem board_engine_restorable e : live e → (next_board_seq e ≤ MAX_RESTORED_BOARD_SEQ)%N → validate_restored e = Ok ().
Proof using Inj0. intros Hl Hm. apply board_restored_spec. split; [|done]. by apply live_ok. Qed.

(** C18. Adding to a live engine is total: a refusal comes before any change (the
    member is known, the sponsor is not, or there is no board), and otherwise,
    with sequence numbers left, the member is enrolled under its sponsor, nobody
    else joins or leaves, nobody waits when re-entry is enabled, and the seat
    reported was the first opening of the board the plan prefers. No other error
    and no panic occurs. *)
Theorem add_member_total e u sponsor ts : live e → budget 1 e →
  match add_member_refusal e u sponsor with
  | Some err => add_member fresh e u sponsor ts = Ok (e, inr err)
  | None => ∃ e2 r, add_member fresh e u sponsor ts = Ok (e2, inl r) ∧ engine_wf e2 ∧
      (∀ v, population e2 v ↔ population e v ∨ v = u) ∧ sponsor_map e2 = <[u := sponsor]> (sponsor_map e) ∧
      (re_entry_enabled (config e) = true → displaced_members e2 = []) ∧
      ∃ (e1 : BoardPlanEngine D) b, (∀ v, population e1 v ↔ population e v) ∧ find_placement_board e1 sponsor = Ok (ar_board_id r) ∧
        boards e1 !! ar_board_id r = Some b ∧ Board.first_open_position b = Some (ar_position r)
  end.
Proof using Inj0.
  intros Hok%live_ok Hb. pose proof (add_member_spec fresh ts e u sponsor Hok) as H.
  destruct (add_member_refusal e u sponsor); [done|]. destruct (add_member _ _ _ _ _) as [[e2 [r|]]| | |]; try done.
  destruct H as [H1 H2 H3 _ _ _ _ H8 H9]. exists e2, r. split_and!; try done. apply H1.
Qed.

(** C19. A cascade is a finite sequence of single cycles, whatever the configured
    depth: the recursion never runs out of depth levels, it panics only for want
    of sequence numbers, and [n] cycles use [width * n] of those, add
    [(width - 1) * n] boards and keep everyone enrolled; [(width - 1) * n] is at
    most the number of members seated beyond the first of each board together
    with the displaced members waiting for a seat. *)
Theorem cascade_bounded e events bid ts : live e → budget 0 e →
  ∃ e2 new, cascade fresh (e, events) bid ts = Ok (e2, events ++ new) ∧ cycles fresh ts e new e2 ∧
    next_board_seq e2 = (next_board_seq e + width e * N.of_nat (length new))%N ∧
    size (boards e2) = size (boards e) + length new * (N.to_nat (width e) - 1) ∧
    (∀ v, population e2 v ↔ population e v) ∧
    length new * (N.to_nat (width e) - 1) ≤ slack e + length (displaced_members e).
Proof using Inj0.
  intros Hok%live_ok Hb. destruct (cascade_spec fresh ts e events bid Hok) as [H _].
  destruct (cascade _ _ _ _) as [[e2 all]| | |]; try done. destruct H as (new & -> & Hc). destruct Hok as [Hwf Hf _].
  destruct (cycles_effect fresh ts e new e2 Hwf Hf Hc) as [[_ _ C3 _ C5 C6 _ C8 _] _].
  exists e2, new. split_and!; try done. lia.
Qed.

(** Splitting a full board of a live engine makes one board per child of the
    top: its members are, in order, those at the indices of that child's subtree,
    seated from position zero. Together the new boards hold every member but the
    top exactly once, none of them is empty, and they replace the split board. *)
Theorem split_board_exact e bid board top rest ts : live e → budget 0 e → boards e !! bid = Some board →
  Board.members board = top :: rest → Board.is_full board = true →
  ∃ e0 bs ls, split_board fresh e board ts = Ok (e0, Board.id <$> bs) ∧
    Forall2 (λ c l, @Board.subtree_indices Empty_set c (width e) (total_positions e - 1) = Ok l)
      (seq 1 (N.to_nat (width e))) ls ∧
    Board.members <$> bs = picked (top :: rest) <$> ls ∧ concat (Board.members <$> bs) ≡ₚ rest ∧
    (∀ b, b ∈ bs → Board.members b ≠ []) ∧
    engine_wf (with_members (delete top) (with_boards (delete bid) e0)) ∧
    (∀ k b, boards (with_boards (delete bid) e0) !! k = Some b ↔
      (b ∈ bs ∧ k = Board.id b) ∨ (k ≠ bid ∧ boards e !! k = Some b)).
Proof using Inj0.
  intros Hok%live_ok Hb Hbid Hms Hfull. pose proof Hok as [Hwf Hf _].
  pose proof (split_board_spec fresh e bid board top rest ts Hwf Hf Hbid Hms Hfull) as H.
  destruct (N.leb_spec (next_board_seq e + width e) u64_max) as [Hn|Hn].
  - destruct H as (e0 & bs & ls & Hrun & Hs & Hls & Hm). rewrite Hms in Hm. exists e0, bs, ls.
    pose proof (so_boards _ _ _ _ _ _ _ Hs) as Hbs. split_and!; try done; first [exact Hbs|apply Hs].
  - pose proof (full_slack e bid board Hwf Hbid Hfull). unfold budget in Hb. nia.
Qed.

(** Removing from a live engine: an unknown member is refused with nothing
    changed; otherwise full boards cycle first, then the member leaves its board,
    exactly those behind it move up and are reported in order, or it leaves the
    displaced pool. Everyone else stays and sponsors are kept. *)
Theorem remove_member_exact e u ts : live e → budget 0 e →
  if enrolled e u
  then ∃ e1 e2 r, remove_member fresh e u ts = Ok (e2, inl r) ∧ cycles fresh ts e (rr_cycle_events r) e1 ∧
    taken_out ts e1 u e2 (compacted r) ∧ engine_wf e2 ∧ (∀ v, population e2 v ↔ population e v ∧ v ≠ u) ∧
    sponsor_map e2 = sponsor_map e
  else remove_member fresh e u ts = Ok (e, inr (MemberNotFound u)).
Proof using Inj0.
  intros Hok%live_ok Hb. pose proof (remove_member_spec fresh ts e u Hok) as H. destruct (enrolled e u); [|done].
  destruct (remove_member _ _ _ _) as [[e2 [r|]]| | |]; try done. destruct H as [Hl (e1 & Hc & Ht)]. exists e1, e2, r.
  split_and!; try done; [apply Hl| |apply Hl]. intros v. rewrite (le_population _ _ _ _ _ Hl), list_elem_of_singleton. done.
Qed.

(** Dissolving a board of a live engine: an unknown or full board is refused
    with nothing changed; otherwise the board is gone, its members are reported
    and wait in the pool behind those already there, in board order, before the
    full boards cycle, and nobody is lost. *)
Theorem dissolve_board_exact e k ts : live e → budget 1 e →
  match boards e !! k with
  | None => dissolve_board fresh e k ts = Ok (e, inr (BoardNotFound k))
  | Some b => if Board.is_full b
      then dissolve_board fresh e k ts = Ok (e, inr (BoardFull k (total_positions e) (total_positions e)))
      else ∃ e1 e2 r, dissolve_board fresh e k ts = Ok (e2, inl r) ∧ dissolved_board_id r = k ∧
        dr_displaced_members r = Board.members b ∧ boards e1 = delete k (boards e) ∧
        displaced_members e1 = displaced_members e ++ Board.members b ∧ cycles fresh ts e1 (dr_cycle_events r) e2 ∧
        engine_wf e2 ∧ ∀ v, population e2 v ↔ population e v
  end.
Proof using Inj0.
  intros Hok%live_ok Hb. pose proof (dissolve_board_spec fresh ts e k Hok) as H. destruct (boards e !! k) as [b|] eqn:Hk; [|done].
  destruct (Board.is_full b); [done|]. destruct (dissolve_board _ _ _ _) as [[e2 [r|]]| | |]; try done. destruct H as (Hid & Hdm & Hc).
  destruct (dissolved_ok fresh e k b Hok Hk) as (Hok1 & Hpop & _). exists (dissolved e k (Board.members b)), e2, r.
  destruct (displace_all (with_boards (delete k) e) (Board.members b)) as (Hbs & Hds & _).
  pose proof (cycles_joins fresh ts _ _ _ Hok1 Hc) as Hj. split_and!; try done; [apply Hj|].
  intros v. rewrite (jo_population _ _ _ _ _ Hj), elem_of_nil, Hpop. tauto.
Qed.

(** Compressing a live engine removes exactly the listed members who were on
    a board when the call started, each reported once with that board, in the
    order listed; the others stay, and no error or panic occurs. *)
Theorem compress_inactive_exact e inactive ts : live e → budget 0 e →
  ∃ e2 r, compress_inactive fresh e inactive ts = Ok (e2, inl r) ∧ engine_wf e2 ∧
    (∀ v, population e2 v ↔ population e v ∧ ¬ (v ∈ inactive ∧ is_Some (member_boards e !! v))) ∧
    ((λ c, (cm_user_id c, cm_board_id c)) <$> compressed r) `sublist_of` seated_inactive e inactive ∧
    NoDup (cm_user_id <$> compressed r) ∧
    ∀ v, v ∈ cm_user_id <$> compressed r ↔ v ∈ inactive ∧ is_Some (member_boards e !! v).
Proof using Inj0.
  intros Hok%live_ok Hb. pose proof (compress_inactive_spec fresh ts e inactive Hok) as H.
  destruct (compress_inactive _ _ _ _) as [[e2 [r|]]| | |]; try done. destruct H as (Hl & Hs & Hnd & Hin). exists e2, r.
  split_and!; try done; [apply Hl|..].
  - intros v. by rewrite (le_population _ _ _ _ _ Hl), elem_of_seated_inactive.
  - intros v. rewrite Hin, elem_of_seated_inactive. unfold population. tauto.
Qed.
End live.

(** A board engine snapshot is accepted exactly when it satisfies the
    engine's invariant and its sequence counter is within the restore limit. *)
Theorem board_validate_restored_iff {D} (e : BoardPlanEngine D) :
  validate_restored e = Ok () ↔ engine_wf e ∧ (next_board_seq e ≤ MAX_RESTORED_BOARD_SEQ)%N.
Proof. apply board_restored_spec. Qed.
