(* ===== verification/BoardExamples.v ===== *)
(** * A concrete board engine

    A restored engine of boards with three positions, one of them full, and a new
    one, on which the theorems of BoardTheorems.v are evaluated. *)

From stdpp Require Import base numbers list gmap sorting strings list_numbers.
From Stdlib Require Import ZArith Lia.
From S2P Require Import Prelude RustDecimal Dec TreeTypes Currency Board BoardEngine BoardWf BoardCycle BoardCascade BoardRequests BoardRestore BoardTheorems.
Import Engine Ref.

Module BoardWitness.
(** Identifiers are drawn from 1000 on. *)
Definition draw (s : N) : Uuid := (1000 + s)%N.

#[export] Instance draw_inj : Inj (=) (=) draw.
Proof. unfold draw. intros x y. lia. Defined.

(** Re-entry at the bottom, ten levels of cascade. *)
Definition cfg : BoardPlanConfig (D := rdec) := mkBoardPlan (Authored rd_one) true Bottom 2 10 3 false.

Definition full_board : Board.Board := Board.mkBoard 10 [Some 1; Some 2; Some 3]%N 100 0 100 None.
Definition open_board : Board.Board := Board.mkBoard 11 [Some 4; Some 5; None]%N 100 1 100 (Some 10%N).

(** Member 6 waits; boards 10 (full) and 11 (one opening). *)
Definition engine : BoardPlanEngine rdec :=
  mkEngine 2 1 3 {[10%N := full_board; 11%N := open_board]}
    {[1 := 10; 2 := 10; 3 := 10; 4 := 11; 5 := 11]}%N {[1 := 99; 2 := 1; 3 := 1; 4 := 2; 5 := 1; 6 := 1]}%N [6%N] 2 cfg.

Lemma engine_depth : depth_ok engine.
Proof. split; vm_compute; discriminate. Defined.

Lemma engine_fresh : fresh_for draw engine.
Proof.
  intros s Hs. cbn. unfold draw. rewrite lookup_insert_ne by lia. apply lookup_singleton_None. lia.
Defined.

Lemma engine_live : live draw engine.
Proof. apply live_restored; [vm_compute; reflexivity|apply engine_fresh|apply engine_depth]. Defined.

Lemma engine_budget : budget 1 engine.
Proof. unfold budget. vm_compute. discriminate. Defined.

Lemma engine_budget0 : budget 0 engine.
Proof. unfold budget. vm_compute. discriminate. Defined.

(** Board 10 cycles: member 1 re-enters board 11 and fills it, so it cycles as
    well and member 4 re-enters; seating 6 and then 7 fills two more boards. *)
Lemma add_member_total_witness :
  (res ← add_member draw engine 7 1 200;
   Ok (match res.2 with inl r => Some (ar_board_id r, ar_position r, cycled_member <$> ar_cycle_events r) | inr _ => None end)) =
    Ok (Some (1003, 2%nat, [1; 4; 2; 3])%N) ∧
  ∃ e2 r, add_member draw engine 7 1 200 = Ok (e2, inl r) ∧ (∀ v, population e2 v ↔ population engine v ∨ v = 7%N) ∧
    displaced_members e2 = [].
Proof.
  split; [vm_compute; reflexivity|]. pose proof (add_member_total draw engine 7 1 200 engine_live engine_budget) as H.
  assert (Hr : add_member_refusal engine 7 1 = None) by (vm_compute; reflexivity). rewrite Hr in H.
  destruct H as (e2 & r & H1 & _ & H3 & _ & H5 & _). exists e2, r. split; [exact H1|]. split; [exact H3|]. by apply H5.
Defined.

Lemma board_engine_restorable_witness :
  ∃ e' r, remove_member draw engine 5 200 = Ok (e', r) ∧ next_board_seq e' = 6%N ∧ validate_restored e' = Ok ().
Proof.
  destruct (remove_member draw engine 5 200) as [[e' r]| | |] eqn:Hr; [|exfalso; vm_compute in Hr; discriminate..].
  assert (Hn : next_board_seq e' = 6%N).
  { assert (Hs : (res ← remove_member draw engine 5 200; Ok (next_board_seq res.1)) = Ok 6%N) by (vm_compute; reflexivity).
    rewrite Hr in Hs. by injection Hs. }
  exists e', r. split; [done|]. split; [done|]. apply (board_engine_restorable draw e').
  - eapply live_request; [apply engine_live|]. by eapply req_remove.
  - rewrite Hn. vm_compute. discriminate.
Defined.

Lemma cascade_bounded_witness :
  ∃ e2 events, cascade draw (engine, []) 10 200 = Ok (e2, events) ∧ length events * 1 ≤ 4 ∧ (∀ v, population e2 v ↔ population engine v).
Proof.
  destruct (cascade_bounded draw engine [] 10 200 engine_live engine_budget0) as (e2 & new & H1 & _ & _ & _ & H5 & H6).
  exists e2, new. split; [exact H1|]. split; [|exact H5]. exact H6.
Defined.

Lemma split_board_exact_witness :
  ∃ e0 bs, split_board draw engine full_board 200 = Ok (e0, Board.id <$> bs) ∧ concat (Board.members <$> bs) ≡ₚ [2; 3]%N.
Proof.
  destruct (split_board_exact draw engine 10 full_board 1 [2; 3]%N 200) as (e0 & bs & ls & H1 & _ & _ & H4 & _).
  - apply engine_live.
  - apply engine_budget0.
  - vm_compute. reflexivity.
  - reflexivity.
  - reflexivity.
  - exists e0, bs. split; [exact H1|exact H4].
Defined.

(** Draining cycles 1 and 4; member 5 then leaves its board. *)
Lemma remove_member_exact_witness :
  (res ← remove_member draw engine 5 200;
   Ok (match res.2 with inl r => Some (compacted r, cycled_member <$> rr_cycle_events r) | inr _ => None end)) =
    Ok (Some ([], [1; 4]%N)) ∧
  ∃ e2 r, remove_member draw engine 5 200 = Ok (e2, inl r) ∧ ∀ v, population e2 v ↔ population engine v ∧ v ≠ 5%N.
Proof.
  split; [vm_compute; reflexivity|]. pose proof (remove_member_exact draw engine 5 200 engine_live engine_budget0) as H.
  assert (He : enrolled engine 5 = true) by (vm_compute; reflexivity). rewrite He in H.
  destruct H as (e1 & e2 & r & H1 & _ & _ & _ & H5 & _). exists e2, r. split; [exact H1|exact H5].
Defined.

(** Board 11 is dissolved and its members wait; board 10 then cycles. *)
Lemma dissolve_board_exact_witness :
  (res ← dissolve_board draw engine 11 200;
   Ok (match res.2 with inl r => Some (dr_displaced_members r, cycled_member <$> dr_cycle_events r) | inr _ => None end)) =
    Ok (Some ([4; 5], [1])%N) ∧
  ∃ e2 r, dissolve_board draw engine 11 200 = Ok (e2, inl r) ∧ ∀ v, population e2 v ↔ population engine v.
Proof.
  split; [vm_compute; reflexivity|]. pose proof (dissolve_board_exact draw engine 11 200 engine_live engine_budget) as H.
  assert (Hb : boards engine !! 11%N = Some open_board) by (vm_compute; reflexivity). rewrite Hb in H.
  change (Board.is_full open_board) with false in H. destruct H as (e1 & e2 & r & H1 & _ & _ & _ & _ & _ & _ & H8). exists e2, r. split; [exact H1|exact H8].
Defined.

(** Member 6 waits, so only 2 and 5 are compressed; the repeat is skipped. *)
Lemma compress_inactive_exact_witness :
  (res ← compress_inactive draw engine [2; 6; 5; 2]%N 200;
   Ok (match res.2 with inl r => Some ((λ c, (cm_user_id c, cm_board_id c)) <$> compressed r) | inr _ => None end)) =
    Ok (Some [(2, 10); (5, 11)]%N) ∧
  ∃ e2 r, compress_inactive draw engine [2; 6; 5; 2]%N 200 = Ok (e2, inl r) ∧ NoDup (cm_user_id <$> compressed r).
Proof.
  split; [vm_compute; reflexivity|].
  destruct (compress_inactive_exact draw engine [2; 6; 5; 2]%N 200 engine_live engine_budget0) as (e2 & r & H1 & _ & _ & _ & H5 & _).
  exists e2, r. split; [exact H1|exact H5].
Defined.

(** A new engine seats its first member at the top of its only board. *)
Example first_member :
  (e ← map_err (λ _, tt) (new draw 2 1 cfg 100); res ← map_err (Empty_set_rect (λ _, unit)) (add_member draw e 1 99 100);
   Ok (match res.2 with inl r => Some (ar_board_id r, ar_position r) | inr _ => None end)) = Ok (Some (1000%N, 0)).
Proof. vm_compute. reflexivity. Qed.
End BoardWitness.
