(* ===== verification/Rank.v ===== *)
(** * Rank qualification: [config/rank.rs] and [rank/]

    A distributor holds the highest rank of the ladder whose criteria they meet:
    volumes, the ranks of the people below them, products and history. The ranks
    of others are an input of the criteria, so the evaluator repeats passes over
    all distributors until nothing changes.

    The trees are any type with the navigator's operations ([dyn TreeNavigator]).
    Log lines are left out; a [usize] has 64 bits. *)

From stdpp Require Import base numbers list gmap sorting strings.
From Stdlib Require Import ZArith Lia.
From S2P Require Import Prelude RustDecimal Dec TreeTypes Arena Navigator CommissionTypes.

Module Rank.
(** ** Configuration *)

Record RankQualificationWindow := mkWindow {
  w_threshold_rank : string;
  qualifying_periods : N;
  window_periods : N;
}.

Record TenureRequirement := mkTenure { t_threshold_rank : string; periods : N }.

Inductive SearchMode := FirstLevels | AnyLevel.

Inductive GraceUnit := Days | Weeks | Months.
Record GracePeriod := mkGrace { gp_count : N; gp_unit : GraceUnit }.
Inductive DemotionPolicy := Grace (g : GracePeriod) | PromotionOnly.

Section types.
Context (D : Type).

Record DistributorCountRequirement := mkCount {
  dc_count : N;
  min_rank : string;
  search_mode : SearchMode;
  search_depth : option N;
  total_count : N;
  min_leg_group_volume : AuthoredDec D;
}.

Inductive LegPredicate :=
| ContainsRank (min_rank : string)
| ContainsPersonalVolume (min_personal_volume : AuthoredDec D).

Record LegQualityRequirement := mkLegQuality { lq_count : N; predicate : LegPredicate }.

Record StructureQualification := mkStructure {
  structure : string;
  sq_personal_volume : AuthoredDec D;
  group_volume : AuthoredDec D;
  max_group_volume_per_leg : AuthoredDec D;
  max_group_volume_per_leg_fraction : AuthoredDec D;
  min_retail_volume : AuthoredDec D;
  distributor_count : option DistributorCountRequirement;
  leg_quality : list LegQualityRequirement;
}.

Record RankQualification := mkQualification {
  structures : list StructureQualification;
  required_products : list string;
  window : option RankQualificationWindow;
  tenure : option TenureRequirement;
}.

Record RankDefinition := mkRankDefinition {
  name : string;
  ordinal : N;
  qualification : RankQualification;
  qualified_structures : list string;
  demotion_policy : DemotionPolicy;
}.

(** ** Inputs and results *)

Record DistributorPrimitives := mkPrimitives {
  personal_volume : AuthoredDec D;
  retail_volume : AuthoredDec D;
  status : string;
  has_order_in_period : bool;
  active_products : list string;
}.

(** Achieved ordinals by period; [Some None] is an unranked period. *)
Definition history_of : Type := gmap string (option N).

Record EvaluationInputs := mkInputs {
  distributors : gmap Uuid DistributorPrimitives;
  volume_sources : list (VolumeSource D);
  history_window : list string;
  history : gmap Uuid history_of;
}.

Inductive EvaluationError :=
| UnknownStructure (rank structure : string)
| UnknownMinRank (rank referenced : string)
| UnknownThresholdRank (rank referenced : string)
| TimeGateWithoutHistory (rank : string)
| DistributorNotInTree (u : Uuid) (structure : string)
| DistributorNotInInputs (u : Uuid)
| Numeric (e : NumericError D)
| RankEvaluationDidNotConverge (passes : N).

Inductive DistributorCountError :=
| CountTree (e : TreeError)
| CountUnknownMinRank (referenced : string)
| CountNumeric (e : NumericError D).

Inductive GroupVolumeError :=
| GroupTree (e : TreeError)
| GroupNumeric (e : NumericError D).

Inductive LegQualityError :=
| LegTree (e : TreeError)
| LegUnknownMinRank (referenced : string).
End types.

Inductive EvaluatedRank :=
| Qualified (rank : string) (ordinal : N)
| Unranked.

#[export] Instance EvaluatedRank_eq_dec : EqDecision EvaluatedRank.
Proof. solve_decision. Defined.

Arguments mkCount {D} _ _ _ _ _ _.
Arguments dc_count {D} _.
Arguments min_rank {D} _.
Arguments search_mode {D} _.
Arguments search_depth {D} _.
Arguments total_count {D} _.
Arguments min_leg_group_volume {D} _.
Arguments ContainsRank {D} _.
Arguments ContainsPersonalVolume {D} _.
Arguments mkLegQuality {D} _ _.
Arguments lq_count {D} _.
Arguments predicate {D} _.
Arguments mkStructure {D} _ _ _ _ _ _ _ _.
Arguments structure {D} _.
Arguments sq_personal_volume {D} _.
Arguments group_volume {D} _.
Arguments max_group_volume_per_leg {D} _.
Arguments max_group_volume_per_leg_fraction {D} _.
Arguments min_retail_volume {D} _.
Arguments distributor_count {D} _.
Arguments leg_quality {D} _.
Arguments mkQualification {D} _ _ _ _.
Arguments structures {D} _.
Arguments required_products {D} _.
Arguments window {D} _.
Arguments tenure {D} _.
Arguments mkRankDefinition {D} _ _ _ _ _.
Arguments name {D} _.
Arguments ordinal {D} _.
Arguments qualification {D} _.
Arguments qualified_structures {D} _.
Arguments demotion_policy {D} _.
Arguments mkPrimitives {D} _ _ _ _ _.
Arguments personal_volume {D} _.
Arguments retail_volume {D} _.
Arguments status {D} _.
Arguments has_order_in_period {D} _.
Arguments active_products {D} _.
Arguments mkInputs {D} _ _ _ _.
Arguments distributors {D} _.
Arguments volume_sources {D} _.
Arguments history_window {D} _.
Arguments history {D} _.
Arguments UnknownStructure {D} _ _.
Arguments UnknownMinRank {D} _ _.
Arguments UnknownThresholdRank {D} _ _.
Arguments TimeGateWithoutHistory {D} _.
Arguments DistributorNotInTree {D} _ _.
Arguments DistributorNotInInputs {D} _.
Arguments Numeric {D} _.
Arguments RankEvaluationDidNotConverge {D} _.
Arguments CountTree {D} _.
Arguments CountUnknownMinRank {D} _.
Arguments CountNumeric {D} _.
Arguments GroupTree {D} _.
Arguments GroupNumeric {D} _.

Abbreviation rank_map := (gmap Uuid EvaluatedRank).

(** A [for] loop that returns [Ok(true)], or [Ok(false)], at the first item that
    decides. *)
Fixpoint any_outcome {E A} (f : A → outcome E bool) (l : list A) : outcome E bool :=
  match l with
  | [] => Ok false
  | x :: l' => b ← f x; if b : bool then Ok true else any_outcome f l'
  end.

Fixpoint all_outcome {E A} (f : A → outcome E bool) (l : list A) : outcome E bool :=
  match l with
  | [] => Ok true
  | x :: l' => b ← f x; if b : bool then all_outcome f l' else Ok false
  end.

(** A criterion that returns [Ok(false)] when it is not met. *)
Definition and_also {E} (m k : outcome E bool) : outcome E bool :=
  b ← m; if b : bool then k else Ok false.
#[local] Infix "&&?" := and_also (at level 40, left associativity).

Section rank.
Context {D : Type} `{!DecimalOps D} {T : Type} `{!TreeNavigator T}.

(** ** The volume index *)
Definition VolumeIndex : Type := gmap Uuid D.

Definition cv_for (v : VolumeIndex) (u : Uuid) : D := default DZERO (v !! u).

Definition build (sources : list (VolumeSource D)) : outcome (NumericError D) VolumeIndex :=
  fold_outcome (λ (v : VolumeIndex) src,
    total ← try_add (cv_for v (vs_source_id src)) (dec (vs_cv_amount src));
    Ok (<[vs_source_id src := total]> v)) ∅ sources.

Record EvalCtx := mkCtx {
  ctx_distributors : gmap Uuid (DistributorPrimitives D);
  ctx_ranks : list (RankDefinition D);
  trees : gmap string T;
  volume_index : VolumeIndex;
  rank_ordinals : gmap string N;
  ctx_history_window : list string;
  ctx_history : gmap Uuid history_of;
}.

(** ** Criteria *)
Definition pv_meets (required : AuthoredDec D) (p : DistributorPrimitives D) : bool :=
  dec_leb (dec required) (dec (personal_volume p)).

Definition retail_meets (required : AuthoredDec D) (p : DistributorPrimitives D) : bool :=
  dec_leb (dec required) (dec (retail_volume p)).

Definition required_products_met (required : list string) (p : DistributorPrimitives D) : bool :=
  match required with
  | [] => true
  | _ => existsb (λ r, existsb (λ q, bool_decide (q = r)) (active_products p)) required
  end.

Definition effective_leg_cap (sq : StructureQualification D) : outcome (NumericError D) (option D) :=
  if dec_ltb DZERO (dec (max_group_volume_per_leg sq)) then Ok (Some (dec (max_group_volume_per_leg sq)))
  else
    cap ← try_mul (dec (max_group_volume_per_leg_fraction sq)) (dec (group_volume sq));
    Ok (if dec_ltb DZERO cap then Some cap else None).

(** A fraction cap becomes the fixed cap it resolves to. *)
Definition resolve_cap (sq : StructureQualification D) : outcome (NumericError D) (StructureQualification D) :=
  if dec_ltb DZERO (dec (max_group_volume_per_leg sq)) then Ok sq
  else
    cap ← effective_leg_cap sq;
    Ok match cap with
       | None => sq
       | Some cap =>
           mkStructure (structure sq) (sq_personal_volume sq) (group_volume sq) (Authored cap) (Authored DZERO)
             (min_retail_volume sq) (distributor_count sq) (leg_quality sq)
       end.

Definition resolve_rank (r : RankDefinition D) : outcome (NumericError D) (RankDefinition D) :=
  let q := qualification r in
  sqs ← map_outcome resolve_cap (structures q);
  Ok (mkRankDefinition (name r) (ordinal r) (mkQualification sqs (required_products q) (window q) (tenure q))
        (qualified_structures r) (demotion_policy r)).

Definition resolve_fraction_caps (ranks : list (RankDefinition D)) : outcome (NumericError D) (list (RankDefinition D)) :=
  map_outcome resolve_rank ranks.

(** Adding the volume of each node, from [start]. *)
Definition add_volumes (v : VolumeIndex) (start : D) (nodes : list Node) : outcome (NumericError D) D :=
  fold_outcome (λ total n, try_add total (cv_for v (user_id n))) start nodes.

Definition leg_volume (v : VolumeIndex) (tree : T) (u : Uuid) : outcome (GroupVolumeError D) D :=
  below ← map_err GroupTree (get_downline tree u 0);
  map_err GroupNumeric (add_volumes v (cv_for v u) below).

Definition capped_gv_meets (required : AuthoredDec D) (cap : option D) (u : Uuid) (tree : T) (v : VolumeIndex)
  (p : DistributorPrimitives D) : outcome (GroupVolumeError D) bool :=
  children ← map_err GroupTree (get_children tree u);
  gv ← fold_outcome (λ gv child,
    leg ← leg_volume v tree (user_id child);
    map_err GroupNumeric (try_add gv (match cap with Some c => dec_min leg c | None => leg end)))
    (dec (personal_volume p)) children;
  Ok (dec_leb (dec required) gv).

(** Does the node count: ranked high enough, with enough volume at and below it? *)
Definition counts (req : DistributorCountRequirement D) (min_ordinal : N) (tree : T) (v : VolumeIndex)
  (already : rank_map) (n : Node) : outcome (DistributorCountError D) bool :=
  match already !! user_id n with
  | Some (Qualified _ o) =>
      if (o <? min_ordinal)%N then Ok false
      else
        below ← map_err CountTree (get_downline tree (user_id n) 0);
        gv ← map_err CountNumeric (add_volumes v (cv_for v (user_id n)) below);
        Ok (dec_leb (dec (min_leg_group_volume req)) gv)
  | Some Unranked | None => Ok false
  end.

Definition distributor_count_meets (req : DistributorCountRequirement D) (u : Uuid) (tree : T) (v : VolumeIndex)
  (already : rank_map) (ordinals : gmap string N) : outcome (DistributorCountError D) bool :=
  min_ordinal ← ok_or (ordinals !! min_rank req) (CountUnknownMinRank (min_rank req));
  let depth := match search_mode req with FirstLevels => default 0%N (search_depth req) | AnyLevel => 0%N end in
  nodes ← map_err CountTree (get_downline tree u depth);
  if (N.of_nat (length nodes) <? total_count req)%N then Ok false
  else
    qualifying ← fold_outcome (λ (qualifying : N) n,
      b ← counts req min_ordinal tree v already n; Ok (if b : bool then qualifying + 1 else qualifying)%N) 0%N nodes;
    Ok (dc_count req <=? qualifying)%N.

Definition node_matches (p : LegPredicate D) (u : Uuid) (already : rank_map)
  (distributors : gmap Uuid (DistributorPrimitives D)) (ordinals : gmap string N) : outcome LegQualityError bool :=
  match p with
  | ContainsRank min_rank =>
      min_ordinal ← ok_or (ordinals !! min_rank) (LegUnknownMinRank min_rank);
      Ok match already !! u with
         | Some (Qualified _ o) => (min_ordinal <=? o)%N
         | Some Unranked | None => false
         end
  | ContainsPersonalVolume min_pv =>
      Ok match distributors !! u with
         | Some primitives => dec_leb (dec min_pv) (dec (personal_volume primitives))
         | None => false
         end
  end.

Definition leg_contains_match (p : LegPredicate D) (leg_root : Uuid) (tree : T) (already : rank_map)
  (distributors : gmap Uuid (DistributorPrimitives D)) (ordinals : gmap string N) : outcome LegQualityError bool :=
  b ← node_matches p leg_root already distributors ordinals;
  if b : bool then Ok true
  else
    below ← map_err LegTree (get_downline tree leg_root 0);
    any_outcome (λ n, node_matches p (user_id n) already distributors ordinals) below.

Definition leg_requirement_meets (req : LegQualityRequirement D) (children : list Node) (tree : T) (already : rank_map)
  (distributors : gmap Uuid (DistributorPrimitives D)) (ordinals : gmap string N) : outcome LegQualityError bool :=
  if (lq_count req =? 0)%N then Ok true
  else if (N.of_nat (length children) <? lq_count req)%N then Ok false
  else
    matching ← fold_outcome (λ (matching : N) child,
      b ← leg_contains_match (predicate req) (user_id child) tree already distributors ordinals;
      Ok (if b : bool then matching + 1 else matching)%N) 0%N children;
    Ok (lq_count req <=? matching)%N.

Definition leg_quality_meets (reqs : list (LegQualityRequirement D)) (u : Uuid) (tree : T) (already : rank_map)
  (distributors : gmap Uuid (DistributorPrimitives D)) (ordinals : gmap string N) : outcome LegQualityError bool :=
  match reqs with
  | [] => Ok true
  | _ =>
      children ← map_err LegTree (get_children tree u);
      all_outcome (λ req, leg_requirement_meets req children tree already distributors ordinals) reqs
  end.

Definition lookup_threshold (threshold : string) (ordinals : gmap string N) (rank_name : string)
  : outcome (EvaluationError D) N :=
  ok_or (ordinals !! threshold) (UnknownThresholdRank rank_name threshold).

(** Was the threshold reached in that period? *)
Definition reached (hist : option history_of) (threshold : N) (period : string) : bool :=
  match hist ≫= (λ h : history_of, h !! period) with
  | Some (Some o) => (threshold <=? o)%N
  | _ => false
  end.

Definition windowed_meets (w : RankQualificationWindow) (axis : list string) (hist : option history_of)
  (ordinals : gmap string N) (rank_name : string) : outcome (EvaluationError D) bool :=
  threshold ← lookup_threshold (w_threshold_rank w) ordinals rank_name;
  let m := N.to_nat (window_periods w) in
  if (length axis <? m)%nat then Ok false
  else
    let count := length (filter (λ p, reached hist threshold p = true) (take m axis)) in
    Ok (qualifying_periods w <=? N.of_nat count)%N.

Definition tenure_meets (t : TenureRequirement) (axis : list string) (hist : option history_of)
  (ordinals : gmap string N) (rank_name : string) : outcome (EvaluationError D) bool :=
  threshold ← lookup_threshold (t_threshold_rank t) ordinals rank_name;
  let x := N.to_nat (periods t) in
  if (length axis <? x)%nat then Ok false
  else Ok (forallb (reached hist threshold) (take x axis)).

(** ** A rank's criteria *)
Section evaluation.
Context (ctx : EvalCtx).

Definition group_error (u : Uuid) (sq : StructureQualification D) (e : GroupVolumeError D) : EvaluationError D :=
  match e with
  | GroupTree _ => DistributorNotInTree u (structure sq)
  | GroupNumeric e => Numeric e
  end.

Definition count_error (rank : string) (u : Uuid) (sq : StructureQualification D) (e : DistributorCountError D)
  : EvaluationError D :=
  match e with
  | CountTree _ => DistributorNotInTree u (structure sq)
  | CountUnknownMinRank referenced => UnknownMinRank rank referenced
  | CountNumeric e => Numeric e
  end.

Definition leg_error (rank : string) (u : Uuid) (sq : StructureQualification D) (e : LegQualityError)
  : EvaluationError D :=
  match e with
  | LegTree _ => DistributorNotInTree u (structure sq)
  | LegUnknownMinRank referenced => UnknownMinRank rank referenced
  end.

Definition structure_meets (r : RankDefinition D) (u : Uuid) (p : DistributorPrimitives D) (already : rank_map)
  (sq : StructureQualification D) : outcome (EvaluationError D) bool :=
  tree ← ok_or (trees ctx !! structure sq) (UnknownStructure (name r) (structure sq));
  refuse_if (negb (contains tree u)) (DistributorNotInTree u (structure sq));;
  Ok (pv_meets (sq_personal_volume sq) p)
  &&? Ok (retail_meets (min_retail_volume sq) p)
  &&? (cap ← map_err Numeric (effective_leg_cap sq);
       map_err (group_error u sq) (capped_gv_meets (group_volume sq) cap u tree (volume_index ctx) p))
  &&? match distributor_count sq with
      | Some req => map_err (count_error (name r) u sq)
          (distributor_count_meets req u tree (volume_index ctx) already (rank_ordinals ctx))
      | None => Ok true
      end
  &&? map_err (leg_error (name r) u sq)
        (leg_quality_meets (leg_quality sq) u tree already (ctx_distributors ctx) (rank_ordinals ctx)).

Definition satisfies (r : RankDefinition D) (u : Uuid) (already : rank_map) : outcome (EvaluationError D) bool :=
  match ctx_distributors ctx !! u with
  | None => Ok false
  | Some p =>
      let q := qualification r in
      let hist := ctx_history ctx !! u in
      Ok (required_products_met (required_products q) p)
      &&? all_outcome (structure_meets r u p already) (structures q)
      &&? match window q with
          | Some w => windowed_meets w (ctx_history_window ctx) hist (rank_ordinals ctx) (name r)
          | None => Ok true
          end
      &&? match tenure q with
          | Some t => tenure_meets t (ctx_history_window ctx) hist (rank_ordinals ctx) (name r)
          | None => Ok true
          end
  end.

(** ** The fixpoint *)
Definition evaluated (r : RankDefinition D) : EvaluatedRank := Qualified (name r) (ordinal r).

Definition evaluate_distributor (u : Uuid) (already : rank_map) : outcome (EvaluationError D) EvaluatedRank :=
  match ctx_ranks ctx with
  | [] => Ok Unranked
  | base :: higher =>
      fold_outcome (λ current r, b ← satisfies r u already; Ok (if b : bool then evaluated r else current))
        (evaluated base) higher
  end.

Definition evaluate_user (st : rank_map * bool) (u : Uuid) : outcome (EvaluationError D) (rank_map * bool) :=
  let '(already, changed) := st in
  r ← evaluate_distributor u already;
  if bool_decide (already !! u = Some r) then Ok (already, changed) else Ok (<[u := r]> already, true).

Definition pass (order : list Uuid) (already : rank_map) : outcome (EvaluationError D) (rank_map * bool) :=
  fold_outcome evaluate_user (already, false) order.

(** [saturating_mul] and [saturating_add] on [usize]. *)
Definition saturate (n : N) : N := N.min n u64_max.

Definition max_passes (order : list Uuid) : N :=
  saturate (saturate (N.of_nat (length order) * saturate (N.of_nat (length (ctx_ranks ctx)) + 1)) + 1).

Fixpoint run_passes (total : N) (order : list Uuid) (already : rank_map) (n : nat) : outcome (EvaluationError D) rank_map :=
  match n with
  | 0 => Err (RankEvaluationDidNotConverge total)
  | S n =>
      '(already, changed) ← pass order already;
      if changed : bool then run_passes total order already n else Ok already
  end.

Definition iterate_to_fixpoint (order : list Uuid) : outcome (EvaluationError D) rank_map :=
  run_passes (max_passes order) order ∅ (N.to_nat (max_passes order)).
End evaluation.

(** ** The evaluation of a period *)

(** A user's greatest depth over the trees that hold them. *)
Definition deepest (trees : list T) (u : Uuid) : outcome (EvaluationError D) (option N) :=
  fold_outcome (λ best tree,
    if contains tree u then
      match get_position tree u with
      | Ok pos => Ok (Some (N.max (default 0%N best) (tp_depth pos)))
      | Err _ => Ok best
      | Panic => Panic
      | Hang => Hang
      end
    else Ok best) None trees.

Definition order_compare (x y : Uuid * N) : comparison := then_with (N.compare y.2 x.2) (N.compare x.1 y.1).

Definition evaluation_order_for_users (trees : gmap string T) (users : list Uuid) : outcome (EvaluationError D) (list Uuid) :=
  depths ← map_outcome (deepest (map_to_list trees).*2) users;
  Ok (sort_by order_compare (omap (λ '(u, d), (λ d, (u, d)) <$> d) (zip users depths))).*1.

Definition ladder (ranks : list (RankDefinition D)) : list (RankDefinition D) :=
  sort_by (λ x y, N.compare (ordinal x) (ordinal y)) ranks.

Definition structures_above_lowest_rank (ranks : list (RankDefinition D)) : gset string :=
  list_to_set (structure <$> (drop 1 (ladder ranks) ≫= (λ r, structures (qualification r)))).

(** [Iterator::min]. *)
Definition least (l : list Uuid) : option Uuid :=
  foldl (λ best u, Some (from_option (N.min u) u best)) None l.

Definition require_every_tree_member (ranks : list (RankDefinition D)) (trees : gmap string T)
  (distributors : gmap Uuid (DistributorPrimitives D)) : outcome (EvaluationError D) unit :=
  let members := omap (λ s, trees !! s) (elements (structures_above_lowest_rank ranks)) ≫= user_ids in
  match least (filter (λ u, distributors !! u = None) members) with
  | Some u => Err (DistributorNotInInputs u)
  | None => Ok ()
  end.

Definition ordinals_of (ranks : list (RankDefinition D)) : gmap string N :=
  foldl (λ m r, <[name r := ordinal r]> m) ∅ ranks.

(** The first rank above the lowest with a time gate. *)
Definition time_gated (ranks : list (RankDefinition D)) : option (RankDefinition D) :=
  snd <$> list_find (λ r, is_Some (window (qualification r)) ∨ is_Some (tenure (qualification r))) (drop 1 ranks).

(** Whoever the passes did not rank holds the lowest rank. *)
Definition fill_base (ranks : list (RankDefinition D)) (users : list Uuid) (already : rank_map) : rank_map :=
  match ranks with
  | [] => already
  | base :: _ => foldl (λ (m : rank_map) u, match m !! u with Some _ => m | None => <[u := evaluated base]> m end) already users
  end.

Definition evaluate_ranks (ranks : list (RankDefinition D)) (trees : gmap string T) (inputs : EvaluationInputs D)
  : outcome (EvaluationError D) rank_map :=
  ranks_owned ← map_err Numeric (resolve_fraction_caps (ladder ranks));
  match (if bool_decide (history_window inputs = []) then time_gated ranks_owned else None) with
  | Some r => Err (TimeGateWithoutHistory (name r))
  | None =>
      require_every_tree_member ranks trees (distributors inputs);;
      volume ← map_err Numeric (build (volume_sources inputs));
      let user_ids := (map_to_list (distributors inputs)).*1 in
      order ← evaluation_order_for_users trees user_ids;
      let ctx := mkCtx (distributors inputs) ranks_owned trees volume (ordinals_of ranks_owned)
                   (history_window inputs) (history inputs) in
      already ← iterate_to_fixpoint ctx order;
      Ok (fill_base ranks_owned user_ids already)
  end.
End rank.
Arguments EvalCtx _ _ : clear implicits.
End Rank.
