(* ===== verification/RankFix.v ===== *)
(** * Rank criteria are monotone in the ranks of others

    Every criterion reads the ranks of other distributors through thresholds only.
    Raising those ranks can turn a refusal into a pass or into an error, never a
    pass into a refusal. *)

From stdpp Require Import base numbers list gmap sorting strings.
From Stdlib Require Import ZArith Lia.
From S2P Require Import Prelude RustDecimal Dec TreeTypes Arena Navigator CommissionTypes Rank.
Import Rank.

(** [u] is ranked with an ordinal of at least [o]. *)
Definition at_least (m : rank_map) (u : Uuid) (o : N) : Prop :=
  ∃ r o', m !! u = Some (Qualified r o') ∧ (o ≤ o')%N.

Definition below (m m' : rank_map) : Prop := ∀ u o, at_least m u o → at_least m' u o.

#[export] Instance below_preorder : PreOrder below.
Proof. split; [by intros m u o|]. intros x y z Hxy Hyz u o H. auto. Qed.

(** Whenever the second computation answers, so does the first, with a smaller
    answer. *)
Definition dominated {E A} (R : A → A → Prop) (x y : outcome E A) : Prop :=
  ∀ b, y = Ok b → ∃ a, x = Ok a ∧ R a b.

Definition implied (a b : bool) : Prop := a = true → b = true.
#[export] Instance implied_refl : Reflexive implied.
Proof. intros b H. exact H. Qed.

Section dominated.
Context {E : Type}.

Lemma dominated_refl {A} (R : A → A → Prop) `{!Reflexive R} (x : outcome E A) : dominated R x x.
Proof. intros b ->. eauto. Qed.

Lemma dominated_bind {A B} (R : A → A → Prop) (S : B → B → Prop) (x y : outcome E A) (f g : A → outcome E B) :
  dominated R x y → (∀ a b, R a b → dominated S (f a) (g b)) → dominated S (x ≫= f) (y ≫= g).
Proof.
  intros Hxy Hfg c Hc. destruct y as [b| | |]; try done. destruct (Hxy b eq_refl) as (a & -> & Hab). by apply (Hfg a b Hab).
Qed.

Lemma dominated_map_err {F A} (R : A → A → Prop) (f : E → F) (x y : outcome E A) :
  dominated R x y → dominated R (map_err f x) (map_err f y).
Proof. intros H b Hb. destruct y as [b'| | |]; simplify_eq/=. destruct (H b eq_refl) as (a & -> & ?). eauto. Qed.

Lemma and_also_dominated (m m' k k' : outcome E bool) :
  dominated implied m m' → dominated implied k k' → dominated implied (and_also m k) (and_also m' k').
Proof.
  intros Hm Hk. intros c Hc. unfold and_also in *. destruct m' as [b'| | |]; try done. destruct (Hm b' eq_refl) as (b & -> & Hb).
  cbn in *. destruct b; [|by exists false]. rewrite (Hb eq_refl) in Hc. by apply Hk.
Qed.

Lemma all_dominated {A} (f g : A → outcome E bool) l : (∀ x, x ∈ l → dominated implied (f x) (g x)) →
  dominated implied (all_outcome f l) (all_outcome g l).
Proof.
  induction l as [|x l IH]; intros H; [apply dominated_refl, _|]. cbn [all_outcome].
  apply (and_also_dominated (f x) (g x)); [apply H; left|]. apply IH. intros y Hy. apply H. by right.
Qed.

(** Counting the items that pass. *)
Lemma tally_dominated {A} (f g : A → outcome E bool) l n n' : (n ≤ n')%N → (∀ x, x ∈ l → dominated implied (f x) (g x)) →
  dominated N.le (fold_outcome (λ (n : N) x, b ← f x; Ok (if b : bool then n + 1 else n)%N) n l)
    (fold_outcome (λ (n : N) x, b ← g x; Ok (if b : bool then n + 1 else n)%N) n' l).
Proof.
  revert n n'. induction l as [|x l IH]; intros n n' Hn H; [intros b [= <-]; eauto|]. cbn [fold_outcome].
  eapply (dominated_bind N.le); [|intros a b Hab; apply IH; [done|intros y Hy; apply H; by right]].
  eapply (dominated_bind implied); [apply H; left|]. intros a b Hab c [= <-]. eexists. split; [done|].
  destruct a, b; [lia|by specialize (Hab eq_refl)|lia..].
Qed.
End dominated.

Section mono.
Context {D : Type} `{!DecimalOps D} {T : Type} `{!TreeNavigator T} (inv : T → Prop) `{!NavigatorLaws T inv}.
Context (m m' : rank_map) (Hm : below m m').

Lemma counts_mono (req : DistributorCountRequirement D) o (tree : T) (v : VolumeIndex) n :
  dominated implied (counts req o tree v m n) (counts req o tree v m' n).
Proof using Hm.
  unfold counts. destruct (m !! user_id n) as [[r k|]|] eqn:Hn; [|by (intros b _; exists false)..].
  destruct (N.ltb_spec k o) as [|Hk]; [by (intros b _; exists false)|].
  destruct (Hm (user_id n) o) as (r' & k' & -> & Hk'); [by exists r, k|].
  destruct (N.ltb_spec k' o); [lia|]. apply dominated_refl, _.
Qed.

Lemma count_meets_mono (req : DistributorCountRequirement D) u (tree : T) (v : VolumeIndex) ords :
  dominated implied (distributor_count_meets req u tree v m ords) (distributor_count_meets req u tree v m' ords).
Proof using Hm.
  unfold distributor_count_meets. eapply (dominated_bind eq); [apply dominated_refl, _|]. intros o _ <-.
  eapply (dominated_bind eq); [apply dominated_refl, _|]. intros nodes _ <-.
  destruct (_ <? _)%N; [apply dominated_refl, _|].
  eapply (dominated_bind N.le); [apply tally_dominated; [lia|intros; apply counts_mono]|].
  intros a b Hab c [= <-]. eexists. split; [done|]. unfold implied. rewrite !N.leb_le. lia.
Qed.

(** A node's match is a pure test once its rank name resolves. *)
Definition predicate_known (p : LegPredicate D) (ords : gmap string N) : Prop :=
  match p with ContainsRank r => is_Some (ords !! r) | ContainsPersonalVolume _ => True end.

Lemma node_matches_ok (p : LegPredicate D) u (l : rank_map) ds ords : predicate_known p ords →
  ∃ b, node_matches p u l ds ords = Ok b.
Proof. destruct p as [r|pv]; cbn; [intros [o ->]; cbn; eauto|eauto]. Qed.

Lemma node_matches_inv (p : LegPredicate D) u (l : rank_map) ds ords b :
  node_matches p u l ds ords = Ok b → predicate_known p ords.
Proof. destruct p as [r|pv]; cbn; [|done]. destruct (ords !! r) eqn:E; cbn; [eauto|done]. Qed.

Lemma node_matches_mono (p : LegPredicate D) u ds ords :
  dominated implied (node_matches p u m ds ords) (node_matches p u m' ds ords).
Proof using Hm.
  destruct p as [r|pv]; cbn; [|apply dominated_refl, _].
  destruct (ords !! r) as [o|]; cbn; [|by intros b ?]. intros b [= <-]. eexists. split; [done|].
  destruct (m !! u) as [[r1 k|]|] eqn:Hu; [|done..]. intros Hk%N.leb_le.
  destruct (Hm u o) as (r' & k' & -> & Hk'); [by exists r1, k|]. by apply N.leb_le.
Qed.

Lemma any_known {A} (f : A → outcome LegQualityError bool) l : (∀ x, x ∈ l → ∃ b, f x = Ok b) →
  ∃ b, any_outcome f l = Ok b ∧ (b = true ↔ ∃ x, x ∈ l ∧ f x = Ok true).
Proof.
  induction l as [|x l IH]; intros H; cbn [any_outcome].
  { exists false. split; [done|]. split; [done|]. by intros (? & ?%elem_of_nil & _). }
  destruct (H x) as [b Hb]; [left|]. rewrite Hb. cbn. destruct b.
  - exists true. split; [done|]. split; [|done]. intros _. exists x. split; [left|done].
  - destruct IH as (b & Hb' & Hiff); [intros y Hy; apply H; by right|]. exists b. split; [done|]. rewrite Hiff. split.
    + intros (y & Hy & ?). exists y. split; [by right|done].
    + intros (y & [->|Hy]%elem_of_cons & ?); [congruence|eauto].
Qed.

(** A leg of a well-formed tree can always be searched. *)
Lemma leg_contains_mono (p : LegPredicate D) u tree ds ords : inv tree → contains tree u = true →
  dominated implied (leg_contains_match p u tree m ds ords) (leg_contains_match p u tree m' ds ords).
Proof using Hm NavigatorLaws0.
  intros Ht Hu. destruct (nav_levels tree u Ht Hu 0) as (ns & Hns & _). unfold leg_contains_match. rewrite Hns. cbn [map_err].
  pose proof (node_matches_mono p u ds ords) as Hroot. intros b Hb.
  destruct (node_matches p u m' ds ords) as [b'| | |] eqn:H'; try done. pose proof (node_matches_inv _ _ _ _ _ _ H') as Hk.
  destruct (Hroot b' eq_refl) as (a & -> & Hab). cbn [mbind outcome_bind] in *.
  destruct (any_known (λ n, node_matches p (user_id n) m ds ords) ns) as (c & Hc & Hci); [intros; by apply node_matches_ok|].
  destruct (any_known (λ n, node_matches p (user_id n) m' ds ords) ns) as (c' & Hc' & Hci'); [intros; by apply node_matches_ok|].
  rewrite Hc' in Hb. destruct a; [rewrite (Hab eq_refl) in Hb; injection Hb as <-; exists true; split; [done|reflexivity]|]. exists c. split; [exact Hc|].
  intros (x & Hx & Hmx)%Hci. destruct b'; [by simplify_eq|]. injection Hb as <-. apply Hci'. exists x. split; [done|].
  pose proof (node_matches_mono p (user_id x) ds ords) as Hmono.
  destruct (node_matches_ok p (user_id x) m' ds ords Hk) as [b' Hb']. destruct (Hmono b' Hb') as (a & Ha & Hab').
  rewrite Hb'. f_equal. apply Hab'. congruence.
Qed.

Lemma leg_quality_mono (reqs : list (LegQualityRequirement D)) u tree ds ords : inv tree → contains tree u = true →
  dominated implied (leg_quality_meets reqs u tree m ds ords) (leg_quality_meets reqs u tree m' ds ords).
Proof using Hm NavigatorLaws0.
  intros Ht Hu. destruct reqs as [|req reqs]; [apply dominated_refl, _|]. unfold leg_quality_meets.
  destruct (nav_children tree u Ht Hu) as (cs & -> & Hcs). cbn [map_err mbind outcome_bind].
  apply all_dominated. intros r _. unfold leg_requirement_meets.
  destruct (_ =? _)%N; [apply dominated_refl, _|]. destruct (_ <? _)%N; [apply dominated_refl, _|].
  eapply (dominated_bind N.le); [apply tally_dominated; [lia|intros c Hc; apply leg_contains_mono; auto]|].
  intros a b Hab c [= <-]. eexists. split; [done|]. unfold implied. rewrite !N.leb_le. lia.
Qed.

Lemma satisfies_mono (ctx : EvalCtx D T) r u : (∀ s t, trees ctx !! s = Some t → inv t) →
  dominated implied (satisfies ctx r u m) (satisfies ctx r u m').
Proof using Hm NavigatorLaws0.
  intros Hinv. unfold satisfies.
  destruct (ctx_distributors ctx !! u) as [p|]; [|apply dominated_refl, _].
  repeat apply and_also_dominated; [apply dominated_refl, _| |apply dominated_refl, _..].
  apply all_dominated. intros sq _. unfold structure_meets.
  destruct (trees ctx !! structure sq) as [tree|] eqn:Ht; [|apply dominated_refl, _]. cbn [ok_or mbind outcome_bind].
  destruct (contains tree u) eqn:Hc; [|apply dominated_refl, _]. cbn [negb refuse_if mbind outcome_bind].
  repeat apply and_also_dominated; [apply dominated_refl, _..| |].
  - destruct (distributor_count sq); [|apply dominated_refl, _]. apply dominated_map_err, count_meets_mono.
  - apply dominated_map_err, leg_quality_mono; eauto.
Qed.
End mono.

(** * The passes reach the least fixpoint

    A distributor's rank is a level of the ladder. Levels only rise from pass to
    pass, so the passes end within their bound, at the least assignment of ranks
    in which everyone holds the highest rank they meet; they fail exactly when
    there is no such assignment. *)

(** The level of the last criterion that passed; 0 is the base. *)
Fixpoint top (bs : list bool) : nat :=
  match bs with
  | [] => 0
  | b :: bs' => match top bs' with 0 => if b then 1 else 0 | S k => S (S k) end
  end.

Lemma top_le bs : top bs ≤ length bs.
Proof. induction bs as [|b bs IH]; cbn; [done|]. destruct (top bs), b; lia. Qed.

Lemma top_mono bs bs' : Forall2 implied bs bs' → top bs ≤ top bs'.
Proof.
  induction 1 as [|b b' bs bs' Hb _ IH]; cbn; [done|].
  destruct (top bs), (top bs'), b, b'; try lia; by specialize (Hb eq_refl).
Qed.

Lemma map_outcome_dominated {E A B} (R : B → B → Prop) (f g : A → outcome E B) l :
  (∀ x, x ∈ l → dominated R (f x) (g x)) → dominated (Forall2 R) (map_outcome f l) (map_outcome g l).
Proof.
  induction l as [|x l IH]; intros H; [intros b [= <-]; eauto|]. cbn [map_outcome].
  eapply dominated_bind; [apply H; left|]. intros a b Hab.
  eapply dominated_bind; [apply IH; intros y Hy; apply H; by right|]. intros k k' Hk c [= <-]. eauto.
Qed.

(** Climbing the ladder keeps the last rank that passed. *)
Lemma climb_top {E A V} (f : A → outcome E bool) (g : A → V) (d cur : V) l :
  fold_outcome (λ v x, b ← f x; Ok (if b : bool then g x else v)) cur l =
  (λ bs, match top bs with 0 => cur | S k => from_option g d (l !! k) end) <$> map_outcome f l.
Proof.
  revert cur. induction l as [|x l IH]; intros cur; [done|]. cbn [fold_outcome map_outcome].
  destruct (f x) as [b| | |]; [|done..]. cbn [mbind outcome_bind]. rewrite IH.
  destruct (map_outcome f l) as [bs| | |]; [|done..]. cbn. f_equal. by destruct (top bs), b.
Qed.

Lemma sorted_lookup {A} (R : A → A → Prop) l i j x y : StronglySorted R l → l !! i = Some x → l !! j = Some y → i < j → R x y.
Proof.
  intros Hl. revert i j. induction Hl as [|z l Hl IH Hz]; intros [|i] [|j]; cbn; try done; try lia.
  - intros [= ->] Hy _. rewrite Forall_forall in Hz. apply Hz. by eapply list_elem_of_lookup_2.
  - intros Hx Hy ?. eapply IH; [done..|lia].
Qed.

Section fixpoint.
Context {D : Type} `{!DecimalOps D} {T : Type} `{!TreeNavigator T} (inv : T → Prop) `{!NavigatorLaws T inv}.
Context (ctx : EvalCtx D T) (Hinv : ∀ s t, trees ctx !! s = Some t → inv t).
Context (Hsorted : StronglySorted (λ a b, (ordinal a ≤ ordinal b)%N) (ctx_ranks ctx)).

Abbreviation height := (length (tail (ctx_ranks ctx))).

Definition value_at (p : nat) : EvaluatedRank := from_option evaluated Unranked (ctx_ranks ctx !! p).

Definition level_of (u : Uuid) (m : rank_map) : outcome (EvaluationError D) nat :=
  top <$> map_outcome (λ r, satisfies ctx r u m) (tail (ctx_ranks ctx)).

Lemma evaluate_level u m : evaluate_distributor ctx u m = value_at <$> level_of u m.
Proof using Type.
  clear Hsorted. unfold evaluate_distributor, level_of, value_at. destruct (ctx_ranks ctx) as [|base higher]; [done|].
  rewrite (climb_top _ _ Unranked). cbn [tail]. destruct (map_outcome _ higher) as [bs| | |]; [|done..].
  cbn. by destruct (top bs).
Qed.

Lemma level_mono u m m' : below m m' → dominated le (level_of u m) (level_of u m').
Proof using Hinv NavigatorLaws0.
  intros Hm p Hp. unfold level_of in *.
  pose proof (map_outcome_dominated implied (λ r, satisfies ctx r u m) (λ r, satisfies ctx r u m') (tail (ctx_ranks ctx))
    (λ r _, satisfies_mono inv m m' Hm ctx r u Hinv)) as Hdom.
  destruct (map_outcome (λ r, satisfies ctx r u m') _) as [bs'| | |]; simplify_eq/=.
  destruct (Hdom bs' eq_refl) as (bs & -> & Hbs). exists (top bs). split; [done|]. by apply top_mono.
Qed.

Lemma level_bound u m p : level_of u m = Ok p → p ≤ height.
Proof.
  unfold level_of. destruct (map_outcome _ _) as [bs| | |] eqn:H; intros [= <-].
  apply map_outcome_ok, Forall2_length in H. rewrite H. apply top_le.
Qed.

(** Higher levels have higher ordinals. *)
Lemma value_at_least p q r o : p ≤ q → q ≤ height → value_at p = Qualified r o →
  ∃ r' o', value_at q = Qualified r' o' ∧ (o ≤ o')%N.
Proof using Hsorted.
  unfold value_at. intros Hpq Hq Hp. destruct (ctx_ranks ctx !! p) as [x|] eqn:Hx; [|done]. injection Hp as <- <-.
  destruct (ctx_ranks ctx !! q) as [y|] eqn:Hy.
  2:{ apply lookup_ge_None in Hy. apply lookup_lt_Some in Hx. destruct (ctx_ranks ctx); cbn in *; lia. }
  exists (name y), (ordinal y). split; [done|]. destruct (decide (p = q)) as [->|Hne]; [by simplify_eq|].
  apply (sorted_lookup _ _ p q x y Hsorted Hx Hy). lia.
Qed.

(** ** Levels for ranks *)
Abbreviation levels := (gmap Uuid nat).
Definition ranked (P : levels) : rank_map := value_at <$> P.
Definition under (P Q : levels) : Prop := ∀ u p, P !! u = Some p → ∃ q, Q !! u = Some q ∧ p ≤ q.
Definition bounded (P : levels) : Prop := ∀ u p, P !! u = Some p → p ≤ height.
Definition rising (P : levels) : Prop := ∀ u p q, P !! u = Some p → level_of u (ranked P) = Ok q → p ≤ q.

Lemma ranked_lookup P u : ranked P !! u = value_at <$> P !! u.
Proof. apply lookup_fmap. Qed.

Lemma under_below P Q : bounded Q → under P Q → below (ranked P) (ranked Q).
Proof using Hsorted.
  intros HQ HPQ u o (r & k & Hu & Hk). rewrite ranked_lookup in Hu. apply fmap_Some in Hu as (p & Hp & Hv).
  destruct (HPQ u p Hp) as (q & Hq & Hpq). destruct (value_at_least p q r k Hpq (HQ u q Hq) (eq_sym Hv)) as (r' & k' & Hv' & ?).
  exists r', k'. rewrite ranked_lookup, Hq. cbn. rewrite Hv'. split; [done|lia].
Qed.

Lemma under_trans P Q R : under P Q → under Q R → under P R.
Proof. intros H1 H2 u p Hp. destruct (H1 u p Hp) as (q & Hq & ?). destruct (H2 u q Hq) as (r & Hr & ?). exists r. split; [done|lia]. Qed.

(** One evaluation. *)
Lemma raise_level P u p : rising P → bounded P → level_of u (ranked P) = Ok p →
  under P (<[u := p]> P) ∧ bounded (<[u := p]> P) ∧ rising (<[u := p]> P).
Proof using Hinv Hsorted NavigatorLaws0.
  intros Hr Hb Hp. assert (Hu : under P (<[u := p]> P)).
  { intros v q Hq. rewrite lookup_insert. case_decide as Hv; [subst v; exists p; split; [done|by eapply Hr]|eauto]. }
  assert (Hb' : bounded (<[u := p]> P)).
  { intros v q. rewrite lookup_insert. case_decide; [intros [= <-]; by eapply level_bound|apply Hb]. }
  split_and!; [done..|]. intros v q k Hq Hk.
  destruct (level_mono v _ _ (under_below _ _ Hb' Hu) k Hk) as (j & Hj & Hjk).
  rewrite lookup_insert in Hq. case_decide as Hv.
  - subst v. injection Hq as <-. assert (j = p) as -> by congruence. done.
  - pose proof (Hr v q j Hq Hj). lia.
Qed.

Lemma evaluate_user_inv P c u m c' : evaluate_user ctx (ranked P, c) u = Ok (m, c') →
  ∃ p, level_of u (ranked P) = Ok p ∧ m = ranked (<[u := p]> P) ∧
    ((c' = c ∧ ranked P !! u = Some (value_at p) ∧ m = ranked P) ∨ (c' = true ∧ P !! u ≠ Some p)).
Proof.
  unfold evaluate_user. rewrite evaluate_level. destruct (level_of u (ranked P)) as [p| | |]; [|done..]. cbn.
  assert (Hins : <[u := value_at p]> (ranked P) = ranked (<[u := p]> P)) by (unfold ranked; by rewrite fmap_insert).
  case_bool_decide as Hu; intros [= <- <-]; exists p; (split; [done|]).
  - rewrite <- Hins, (insert_id (ranked P)) by done. split; [done|]. by left.
  - split; [done|]. right. split; [done|]. intros Hp. apply Hu. by rewrite ranked_lookup, Hp.
Qed.

(** ** Fixpoints *)
Definition fixpoint_of (order : list Uuid) (m : rank_map) : Prop :=
  ∀ u, u ∈ order → ∃ r, m !! u = Some r ∧ evaluate_distributor ctx u m = Ok r.

(** The levels reached so far are at most those of a fixpoint. *)
Definition lower (order : list Uuid) (F : rank_map) (P : levels) : Prop :=
  ∀ u p, P !! u = Some p → u ∈ order ∧ ∃ q, level_of u F = Ok q ∧ p ≤ q.

Lemma fixpoint_level order F u : fixpoint_of order F → u ∈ order → ∃ q, level_of u F = Ok q ∧ F !! u = Some (value_at q).
Proof.
  intros HF Hu. destruct (HF u Hu) as (r & Hr & He). rewrite evaluate_level in He.
  destruct (level_of u F) as [q| | |]; simplify_eq/=. eauto.
Qed.

Lemma lower_below order F P : fixpoint_of order F → lower order F P → below (ranked P) F.
Proof using Hsorted.
  intros HF HP u o (r & k & Hu & Hk). rewrite ranked_lookup in Hu. apply fmap_Some in Hu as (p & Hp & Hv).
  destruct (HP u p Hp) as (Hin & q & Hq & Hpq). destruct (fixpoint_level order F u HF Hin) as (q' & Hq' & HFu). assert (q' = q) as -> by congruence.
  destruct (value_at_least p q r k Hpq (level_bound _ _ _ Hq) (eq_sym Hv)) as (r' & k' & Hv' & ?).
  exists r', k'. rewrite HFu, Hv'. split; [done|lia].
Qed.

Lemma lower_step order F P u : fixpoint_of order F → lower order F P → u ∈ order →
  ∃ p, level_of u (ranked P) = Ok p ∧ lower order F (<[u := p]> P).
Proof using Hinv Hsorted NavigatorLaws0.
  intros HF HP Hu. destruct (fixpoint_level order F u HF Hu) as (q & Hq & _).
  destruct (level_mono u _ _ (lower_below order F P HF HP) q Hq) as (p & Hp & Hpq). exists p. split; [done|].
  intros v k. rewrite lookup_insert. case_decide as Hv; [|apply HP]. intros [= <-]. subst v. eauto.
Qed.

(** ** One pass *)

(** A pass that ends at [m], having started at [P]. *)
Record pass_post (l : list Uuid) (P : levels) (c : bool) (m : rank_map) (c' : bool) (P' : levels) : Prop := {
  pp_map : m = ranked P';
  pp_rising : rising P';
  pp_bounded : bounded P';
  pp_under : under P P';
  pp_dom : dom P' = dom P ∪ list_to_set l;
  pp_changed : c' = true → c = true ∨ ∃ u, u ∈ l ∧ P !! u ≠ P' !! u;
  pp_lower order F : fixpoint_of order F → l ⊆ order → lower order F P → lower order F P';
  pp_settled : c' = false → m = ranked P ∧ ∀ u, u ∈ l → ∃ r, m !! u = Some r ∧ evaluate_distributor ctx u m = Ok r;
}.

Lemma pass_inv l P c m c' : rising P → bounded P → fold_outcome (evaluate_user ctx) (ranked P, c) l = Ok (m, c') →
  ∃ P', pass_post l P c m c' P'.
Proof using Hinv Hsorted NavigatorLaws0.
  revert P c. induction l as [|u l IH]; intros P c Hr Hb; cbn [fold_outcome].
  { intros [= <- <-]. exists P. split; try done; [by intros u p ?; exists p|set_solver|by left|].
    intros _. split; [done|]. by intros u ?%elem_of_nil. }
  intros H. apply bind_ok in H as ([m1 c1] & H1 & H). apply evaluate_user_inv in H1 as (p & Hp & -> & Hcase).
  destruct (raise_level P u p Hr Hb Hp) as (Hu1 & Hb1 & Hr1).
  destruct (IH _ _ Hr1 Hb1 H) as (P' & [E1 E2 E3 E4 E5 E6 EL E7]). exists P'. split; try done.
  - by eapply under_trans.
  - rewrite E5, dom_insert_L. set_solver.
  - intros Hc. destruct (E6 Hc) as [->|(v & Hv & Hne)].
    + destruct Hcase as [(-> & _)|(_ & Hne)]; [by left|]. right. exists u. split; [left|].
      destruct (E4 u p (lookup_insert_eq _ _ _)) as (q & Hq & Hpq). rewrite Hq. intros HP. apply Hne.
      pose proof (Hr u q p HP Hp). rewrite HP. f_equal. lia.
    + right. destruct (decide (v = u)) as [->|Hvu]; [|exists v; split; [by right|by rewrite lookup_insert_ne in Hne by done]].
      exists u. split; [left|]. rewrite lookup_insert_eq in Hne. destruct (E4 u p (lookup_insert_eq _ _ _)) as (q & Hq & Hpq).
      rewrite Hq in *. intros HP. pose proof (Hr u q p HP Hp). apply Hne. f_equal. lia.
  - intros order F HF Hl HP. apply (EL order F HF); [intros v Hv; apply Hl; by right|].
    destruct (lower_step order F P u HF HP) as (p' & Hp' & HP'); [apply Hl; left|]. assert (p' = p) as -> by congruence. done.
  - intros ->. destruct (E7 eq_refl) as [Hm Hset]. destruct Hcase as [(<- & Hv & Hm1)|(-> & _)].
    + rewrite Hm1 in Hm. split; [done|]. intros v [->|Hv']%elem_of_cons; [|by apply Hset]. subst m. exists (value_at p).
      split; [congruence|]. rewrite evaluate_level. rewrite Hm, Hp. done.
    + exfalso. clear -H. revert H. generalize (ranked (<[u := p]> P)). induction l as [|v l IH]; intros m0; cbn; [done|].
      intros H. apply bind_ok in H as ([m1 c1] & H1 & H). unfold evaluate_user in H1. apply bind_ok in H1 as (r & _ & H1).
      case_bool_decide; injection H1 as <- <-; by eapply IH.
Qed.

(** ** Termination *)
Definition weight (order : list Uuid) (P : levels) : nat := sum_list ((λ u, from_option S 0 (P !! u)) <$> order).

Lemma weight_under order P P' : under P P' → weight order P ≤ weight order P' ∧
  ((∃ u, u ∈ order ∧ P !! u ≠ P' !! u) → weight order P < weight order P').
Proof.
  intros HP. unfold weight.
  assert (Hle : ∀ u, from_option S 0 (P !! u) ≤ from_option S 0 (P' !! u)).
  { intros u. destruct (P !! u) as [p|] eqn:E; cbn; [|lia]. destruct (HP u p E) as (q & -> & ?). cbn. lia. }
  induction order as [|u order [IH1 IH2]]; cbn; [split; [done|]; by intros (? & ?%elem_of_nil & _)|]. specialize (Hle u).
  split; [lia|]. intros (v & [->|Hv]%elem_of_cons & Hne); [|assert (H := IH2 (ex_intro _ v (conj Hv Hne))); lia].
  destruct (P !! u) as [p|] eqn:E; [destruct (HP u p E) as (q & Hq & ?); rewrite Hq in *|destruct (P' !! u); [|done]]; cbn in *;
    [assert (p ≠ q) by congruence|]; lia.
Qed.

Lemma weight_bound order P : bounded P → weight order P ≤ length order * S height.
Proof.
  intros HP. unfold weight. induction order as [|u order IH]; cbn; [lia|].
  assert (from_option S 0 (P !! u) ≤ S height) by (destruct (P !! u) as [p|] eqn:E; cbn; [specialize (HP u p E)|]; lia). lia.
Qed.

Lemma lower_pass order F l P c : fixpoint_of order F → lower order F P → l ⊆ order →
  ∃ P' c', fold_outcome (evaluate_user ctx) (ranked P, c) l = Ok (ranked P', c') ∧ lower order F P'.
Proof using Hinv Hsorted NavigatorLaws0.
  intros HF. revert P c. induction l as [|u l IH]; intros P c HP Hl; cbn [fold_outcome]; [eauto|].
  destruct (lower_step order F P u HF HP) as (p & Hp & HP'); [apply Hl; left|].
  destruct (evaluate_user ctx (ranked P, c) u) as [[m1 c1]| | |] eqn:H1.
  - apply evaluate_user_inv in H1 as (p' & Hp' & -> & _). assert (p' = p) as -> by congruence. cbn [mbind outcome_bind].
    apply IH; [done|]. intros v Hv. apply Hl. by right.
  - exfalso. unfold evaluate_user in H1. rewrite evaluate_level, Hp in H1. cbn in H1. by case_bool_decide.
  - exfalso. unfold evaluate_user in H1. rewrite evaluate_level, Hp in H1. cbn in H1. by case_bool_decide.
  - exfalso. unfold evaluate_user in H1. rewrite evaluate_level, Hp in H1. cbn in H1. by case_bool_decide.
Qed.
End fixpoint.
