(* ===== verification/RankFaults.v ===== *)
(** * What a rank's criteria mean, and the errors they can report

    [meets] says a rank's criteria without loops or early returns, on exact
    numbers of units; [satisfies] decides it. Every error is true of the inputs. *)

From stdpp Require Import base numbers list gmap sorting strings.
From Stdlib Require Import ZArith Lia.
From S2P Require Import Prelude RustDecimal Dec TreeTypes Arena Navigator CommissionTypes Rank RankFix.
Import Rank.
Local Open Scope Z_scope.

Section spec.
Context {D : Type} `{!DecimalOps D} {T : Type} `{!TreeNavigator T} (ctx : EvalCtx D T).

(** A query's nodes. *)
Definition nodes_of (m : outcome TreeError (list Node)) : list Node := match m with Ok l => l | _ => [] end.

(** The volume at and below [u], in units. *)
Definition group_units (tree : T) (u : Uuid) : Z :=
  units (cv_for (volume_index ctx) u) +
  total_units ((λ n, cv_for (volume_index ctx) (user_id n)) <$> nodes_of (get_downline tree u 0)).

(** The cap on a leg: the fixed amount, or the fraction of the required volume. *)
Definition leg_cap (sq : StructureQualification D) (cap : option Z) : Prop :=
  let fixed := units (dec (max_group_volume_per_leg sq)) in
  if decide (0 < fixed) then cap = Some fixed
  else ∃ share, share * 10 ^ 28 = units (dec (max_group_volume_per_leg_fraction sq)) * units (dec (group_volume sq)) ∧
    cap = if decide (0 < share) then Some share else None.

Definition capped (cap : option Z) (z : Z) : Z := from_option (Z.min z) z cap.

Definition meets_volume (sq : StructureQualification D) (tree : T) (u : Uuid) (p : DistributorPrimitives D) : Prop :=
  ∃ cap, leg_cap sq cap ∧ units (dec (group_volume sq)) ≤ units (dec (personal_volume p)) +
    foldr (λ n t, capped cap (group_units tree (user_id n)) + t) 0 (nodes_of (get_children tree u)).

(** Who is in the team a count requirement looks at. *)
Definition team_of (req : DistributorCountRequirement D) (tree : T) (u : Uuid) : list Node :=
  nodes_of (get_downline tree u match search_mode req with FirstLevels => default 0%N (search_depth req) | AnyLevel => 0%N end).

Definition meets_count (req : DistributorCountRequirement D) (tree : T) (u : Uuid) (m : rank_map) : Prop :=
  let limit := match search_mode req with FirstLevels => default 0%N (search_depth req) | AnyLevel => 0%N end in
  let team := nodes_of (get_downline tree u limit) in
  ∃ o, rank_ordinals ctx !! min_rank req = Some o ∧ (total_count req ≤ N.of_nat (length team))%N ∧
    ∃ good, good `sublist_of` team ∧ (dc_count req ≤ N.of_nat (length good))%N ∧
      ∀ n, n ∈ good → at_least m (user_id n) o ∧ units (dec (min_leg_group_volume req)) ≤ group_units tree (user_id n).

Definition node_meets (p : LegPredicate D) (m : rank_map) (u : Uuid) : Prop :=
  match p with
  | ContainsRank r => ∃ o, rank_ordinals ctx !! r = Some o ∧ at_least m u o
  | ContainsPersonalVolume v => ∃ q, ctx_distributors ctx !! u = Some q ∧ units (dec v) ≤ units (dec (personal_volume q))
  end.

Definition meets_legs (req : LegQualityRequirement D) (tree : T) (u : Uuid) (m : rank_map) : Prop :=
  ∃ good, good `sublist_of` nodes_of (get_children tree u) ∧ (lq_count req ≤ N.of_nat (length good))%N ∧
    ∀ c, c ∈ good → node_meets (predicate req) m (user_id c) ∨
      ∃ n, n ∈ nodes_of (get_downline tree (user_id c) 0) ∧ node_meets (predicate req) m (user_id n).

Definition meets_structure (sq : StructureQualification D) (u : Uuid) (p : DistributorPrimitives D) (m : rank_map) : Prop :=
  ∃ tree, trees ctx !! structure sq = Some tree ∧ contains tree u = true ∧
    units (dec (sq_personal_volume sq)) ≤ units (dec (personal_volume p)) ∧
    units (dec (min_retail_volume sq)) ≤ units (dec (retail_volume p)) ∧
    meets_volume sq tree u p ∧
    (∀ req, distributor_count sq = Some req → meets_count req tree u m) ∧
    ∀ req, req ∈ leg_quality sq → meets_legs req tree u m.

(** The threshold was reached in [n] of the latest periods, or in all of them. *)
Definition reached_in (u : Uuid) (o : N) (period : string) : Prop :=
  ∃ h o', ctx_history ctx !! u = Some h ∧ h !! period = Some (Some o') ∧ (o ≤ o')%N.

Definition meets_window (w : RankQualificationWindow) (u : Uuid) : Prop :=
  let latest := take (N.to_nat (window_periods w)) (ctx_history_window ctx) in
  ∃ o, rank_ordinals ctx !! w_threshold_rank w = Some o ∧ length latest = N.to_nat (window_periods w) ∧
    ∃ good, good `sublist_of` latest ∧ (qualifying_periods w ≤ N.of_nat (length good))%N ∧ ∀ q, q ∈ good → reached_in u o q.

Definition meets_tenure (t : TenureRequirement) (u : Uuid) : Prop :=
  let latest := take (N.to_nat (periods t)) (ctx_history_window ctx) in
  ∃ o, rank_ordinals ctx !! t_threshold_rank t = Some o ∧ length latest = N.to_nat (periods t) ∧
    ∀ q, q ∈ latest → reached_in u o q.

Definition meets (r : RankDefinition D) (u : Uuid) (m : rank_map) : Prop :=
  let q := qualification r in
  ∃ p, ctx_distributors ctx !! u = Some p ∧
    (required_products q = [] ∨ ∃ x, x ∈ required_products q ∧ x ∈ active_products p) ∧
    (∀ sq, sq ∈ structures q → meets_structure sq u p m) ∧
    (∀ w, window q = Some w → meets_window w u) ∧
    (∀ t, tenure q = Some t → meets_tenure t u).

(** ** Errors that are true of the inputs *)
Definition names_rank (r : RankDefinition D) (k : string) : Prop :=
  ∃ sq, sq ∈ structures (qualification r) ∧
    ((∃ req, distributor_count sq = Some req ∧ min_rank req = k) ∨
     ∃ lq, lq ∈ leg_quality sq ∧ predicate lq = ContainsRank k).

(** The volume at and below [u] has a prefix whose exact total no decimal holds. *)
Definition group_refused (tree : T) (u : Uuid) (ne : NumericError D) : Prop :=
  sum_refused (units (cv_for (volume_index ctx) u))
    ((λ n, cv_for (volume_index ctx) (user_id n)) <$> nodes_of (get_downline tree u 0)) ne.

(** No fixed cap is set, and the fraction of the required volume is held by none. *)
Definition share_refused (sq : StructureQualification D) (ne : NumericError D) : Prop :=
  units (dec (max_group_volume_per_leg sq)) ≤ 0 ∧
  refused OpMul (units (dec (max_group_volume_per_leg_fraction sq)) * units (dec (group_volume sq))) 56 ne.

(** The personal volume and the capped legs up to some child. *)
Definition legs_refused (sq : StructureQualification D) (tree : T) (u : Uuid) (p : DistributorPrimitives D) (ne : NumericError D) : Prop :=
  ∃ cap pre post, leg_cap sq cap ∧ nodes_of (get_children tree u) = pre ++ post ∧ pre ≠ [] ∧
    refused OpAdd (units (dec (personal_volume p)) + foldr (λ n t, capped cap (group_units tree (user_id n)) + t) 0 pre) 28 ne.

(** The exact results a structure's criteria need, one of which no decimal holds. *)
Definition structure_refused (sq : StructureQualification D) (u : Uuid) (p : DistributorPrimitives D) (ne : NumericError D) : Prop :=
  ∃ tree, trees ctx !! structure sq = Some tree ∧ contains tree u = true ∧
  (share_refused sq ne ∨ legs_refused sq tree u p ne ∨
   (∃ n, n ∈ nodes_of (get_children tree u) ∧ group_refused tree (user_id n) ne) ∨
   ∃ req n, distributor_count sq = Some req ∧ n ∈ team_of req tree u ∧ group_refused tree (user_id n) ne).

Definition eval_fault (e : EvaluationError D) : Prop :=
  match e with
  | UnknownStructure r s => ∃ rk sq, rk ∈ tail (ctx_ranks ctx) ∧ name rk = r ∧ sq ∈ structures (qualification rk) ∧
      structure sq = s ∧ trees ctx !! s = None
  | UnknownMinRank r k => ∃ rk, rk ∈ tail (ctx_ranks ctx) ∧ name rk = r ∧ names_rank rk k ∧ rank_ordinals ctx !! k = None
  | UnknownThresholdRank r k => ∃ rk, rk ∈ tail (ctx_ranks ctx) ∧ name rk = r ∧ rank_ordinals ctx !! k = None ∧
      (w_threshold_rank <$> window (qualification rk) = Some k ∨ t_threshold_rank <$> tenure (qualification rk) = Some k)
  | DistributorNotInTree u s => is_Some (ctx_distributors ctx !! u) ∧ ∃ t, trees ctx !! s = Some t ∧ contains t u = false
  | Numeric ne => ∃ rk sq u p, rk ∈ tail (ctx_ranks ctx) ∧ sq ∈ structures (qualification rk) ∧
      ctx_distributors ctx !! u = Some p ∧ structure_refused sq u p ne
  | TimeGateWithoutHistory _ | DistributorNotInInputs _ | RankEvaluationDidNotConverge _ => False
  end.
End spec.

(** ** Loops that decide *)

(** [m] answers whether [P] holds, or fails with an error in [Q]. *)
Definition decides {E} (Q : E → Prop) (P : Prop) (m : outcome E bool) : Prop := returns (λ b, b = true ↔ P) Q m.

Section decides.
Context {E : Type} (Q : E → Prop).

Lemma decides_iff (P P' : Prop) m : decides Q P m → (P ↔ P') → decides Q P' m.
Proof. unfold decides. destruct m; cbn; try done. intros -> ->. done. Qed.

Lemma decides_ok P (b : bool) : (b = true ↔ P) → decides Q P (Ok b).
Proof. done. Qed.

Lemma and_also_decides P P' m k : decides Q P m → decides Q P' k → decides Q (P ∧ P') (and_also m k).
Proof.
  unfold decides, and_also. destruct m as [b| | |]; cbn; try done. destruct b, k as [b'| | |]; cbn; try done; intros H H'; naive_solver.
Qed.

Lemma all_decides {A} (P : A → Prop) f l : (∀ x, x ∈ l → decides Q (P x) (f x)) → decides Q (∀ x, x ∈ l → P x) (all_outcome f l).
Proof.
  induction l as [|x l IH]; intros H; cbn [all_outcome]; [apply decides_ok; split; [by intros _ x ?%elem_of_nil|done]|].
  eapply decides_iff; [apply and_also_decides; [apply H; left|apply IH; intros y Hy; apply H; by right]|].
  setoid_rewrite elem_of_cons. naive_solver.
Qed.

Lemma any_decides {A} (P : A → Prop) f l : (∀ x, x ∈ l → decides Q (P x) (f x)) → decides Q (∃ x, x ∈ l ∧ P x) (any_outcome f l).
Proof.
  induction l as [|x l IH]; intros H; cbn [any_outcome].
  { apply decides_ok. split; [done|]. by intros (x & ?%elem_of_nil & _). }
  pose proof (H x ltac:(left)) as Hx. unfold decides in *. destruct (f x) as [b| | |]; cbn in *; try done.
  destruct b; cbn; [split; [|done]; intros _; exists x; split; [left|by apply Hx]|].
  specialize (IH (λ y Hy, H y (list_elem_of_further _ _ _ Hy))). destruct (any_outcome f l) as [b| | |]; cbn in *; try done. rewrite IH. split.
  - intros (y & Hy & ?). exists y. split; [by right|done].
  - intros (y & [->|Hy]%elem_of_cons & HP); [by apply Hx in HP|eauto].
Qed.

(** Counting: [k] of the items satisfy [P]. *)
Lemma tally_decides {A} (P : A → Prop) f l (k n : N) : (∀ x, x ∈ l → decides Q (P x) (f x)) →
  returns (λ t, ∃ good, good `sublist_of` l ∧ (∀ x, x ∈ good → P x) ∧ t = (n + N.of_nat (length good))%N ∧
      ∀ good', good' `sublist_of` l → (∀ x, x ∈ good' → P x) → length good' ≤ length good)%nat Q
    (fold_outcome (λ (n : N) x, b ← f x; Ok (if b : bool then n + 1 else n)%N) n l).
Proof.
  revert n. induction l as [|x l IH]; intros n H; cbn [fold_outcome].
  { exists []. split_and!; [done|by intros ? ?%elem_of_nil|cbn; lia|]. intros g ->%sublist_nil_r _. done. }
  pose proof (H x ltac:(left)) as Hx. unfold decides in Hx. destruct (f x) as [b| | |]; cbn in *; try done.
  eapply returns_impl; [apply (IH (if b then n + 1 else n)%N); intros y Hy; apply H; by right|].
  intros t (good & Hs & HP & -> & Hmax). exists (if b then x :: good else good). split_and!.
  - destruct b; [by apply sublist_skip|by apply sublist_cons].
  - destruct b; [|done]. intros y [->|Hy]%elem_of_cons; [by apply Hx|auto].
  - destruct b; cbn; lia.
  - intros g Hg HPg. apply sublist_cons_r in Hg as [Hg|(g' & -> & Hg)].
    + specialize (Hmax g Hg HPg). destruct b; cbn; lia.
    + destruct b; cbn.
      * specialize (Hmax g' Hg (λ y Hy, HPg y (list_elem_of_further _ _ _ Hy))). lia.
      * exfalso. assert (false = true) by (apply Hx, HPg; left). done.
Qed.

Lemma count_decides {A} (P : A → Prop) f l (k : N) : (∀ x, x ∈ l → decides Q (P x) (f x)) →
  decides Q (∃ good, good `sublist_of` l ∧ (k ≤ N.of_nat (length good))%N ∧ ∀ x, x ∈ good → P x)
    (t ← fold_outcome (λ (n : N) x, b ← f x; Ok (if b : bool then n + 1 else n)%N) 0%N l; Ok (k <=? t)%N).
Proof.
  intros H. eapply returns_bind; [by apply (tally_decides P f l k 0)|]. intros t (good & Hs & HP & -> & Hmax). cbn. rewrite N.leb_le. split.
  - intros Hk. exists good. split_and!; [done|lia|done].
  - intros (g & Hg & Hk & HPg). specialize (Hmax g Hg HPg). lia.
Qed.
End decides.

(** ** The criteria decide their meaning *)
Section criteria.
Context {D : Type} `{!DecimalOps D, !DecimalLaws D} {T : Type} `{!TreeNavigator T} (inv : T → Prop) `{!NavigatorLaws T inv}.
Context (ctx : EvalCtx D T) (Hinv : ∀ s t, trees ctx !! s = Some t → inv t).

Lemma add_volumes_units v start ns : returns (λ t, units t = units start + total_units ((λ n, cv_for v (user_id n)) <$> ns))
  (sum_refused (units start) ((λ n, cv_for v (user_id n)) <$> ns)) (add_volumes v start ns : outcome (NumericError D) D).
Proof using DecimalLaws0.
  pose proof (refuses_sum_from start ((λ n, cv_for v (user_id n)) <$> ns)) as H. unfold add_volumes.
  assert (Hf : ∀ a, fold_outcome (λ total n, try_add total (cv_for v (user_id n))) a ns =
    fold_outcome try_add a ((λ n, cv_for v (user_id n)) <$> ns)).
  { clear H. induction ns as [|n ns IH]; intros a; [done|]. cbn. by destruct (try_add a _); cbn; [apply IH|..]. }
  by rewrite Hf.
Qed.

(** A refusal of the group volume of one of [ns]. *)
Definition some_group_refused (tree : T) (ns : list Node) (ne : NumericError D) : Prop :=
  ∃ n, n ∈ ns ∧ group_refused ctx tree (user_id n) ne.

Lemma leg_volume_units tree u : inv tree → contains tree u = true →
  returns (λ t, units t = group_units ctx tree u) (λ e, ∃ ne, e = GroupNumeric ne ∧ group_refused ctx tree u ne)
    (leg_volume (volume_index ctx) tree u).
Proof using DecimalLaws0 NavigatorLaws0.
  intros Ht Hu. unfold leg_volume, group_units, group_refused. destruct (nav_levels tree u Ht Hu 0) as (ns & -> & _).
  cbn [map_err mbind outcome_bind nodes_of]. eapply returns_map_err; [apply add_volumes_units|eauto].
Qed.

Lemma effective_cap_spec sq : returns (λ cap, leg_cap sq (units <$> cap)) (share_refused sq)
  (effective_leg_cap sq : outcome (NumericError D) _).
Proof using DecimalLaws0.
  unfold effective_leg_cap, leg_cap, share_refused. rewrite dec_ltb_units, zero_units.
  destruct (Z.ltb_spec 0 (units (dec (max_group_volume_per_leg sq)))).
  - cbn. by rewrite decide_True.
  - eapply returns_bind; [eapply returns_weaken; [apply refuses_mul|intros c Hc; exact Hc|done]|].
    intros cap Hcap. cbn. rewrite decide_False by lia. exists (units cap).
    split; [done|]. rewrite dec_ltb_units, zero_units. destruct (Z.ltb_spec 0 (units cap)); [by rewrite decide_True|by rewrite decide_False by lia].
Qed.

(** The total over the legs, capped. *)
Definition legs_total (tree : T) (cap : option D) (ns : list Node) : Z :=
  foldr (λ n t, capped (units <$> cap) (group_units ctx tree (user_id n)) + t) 0 ns.

Lemma legs_total_snoc tree cap ns n :
  legs_total tree cap (ns ++ [n]) = legs_total tree cap ns + capped (units <$> cap) (group_units ctx tree (user_id n)).
Proof using Type. clear Hinv. unfold legs_total. induction ns as [|x ns IH]; cbn; lia. Qed.

(** The sum over the legs. *)
Lemma sum_legs tree cap ns start : inv tree → (∀ n, n ∈ ns → contains tree (user_id n) = true) →
  returns (λ t, units t = units start + legs_total tree cap ns)
    (λ e, ∃ ne, e = GroupNumeric ne ∧ (some_group_refused tree ns ne ∨
      ∃ pre post, ns = pre ++ post ∧ pre ≠ [] ∧ refused OpAdd (units start + legs_total tree cap pre) 28 ne))
    (fold_outcome (λ gv child, leg ← leg_volume (volume_index ctx) tree (user_id child);
      map_err GroupNumeric (try_add gv (match cap with Some c => dec_min leg c | None => leg end))) start ns).
Proof using DecimalLaws0 NavigatorLaws0.
  clear Hinv. intros Ht Hns. apply (returns_fold _ (λ pre t, units t = units start + legs_total tree cap pre)); [cbn; lia|].
  intros pre n post t -> Hpre. eapply returns_bind.
  { eapply returns_weaken; [apply leg_volume_units; [done|apply Hns; set_solver]|intros leg Hleg; exact Hleg|].
    intros e (ne & -> & Hne). exists ne. split; [done|]. left. exists n. split; [set_solver|done]. }
  intros leg Hleg. assert (Hadd : units (match cap with Some c => dec_min leg c | None => leg end) =
    capped (units <$> cap) (group_units ctx tree (user_id n))).
  { rewrite <- Hleg. destruct cap; cbn; [apply dec_min_units|done]. }
  eapply returns_map_err; [eapply returns_weaken; [apply refuses_add| |intros e He; exact He]|].
  - intros t' Ht'. cbn beta in Ht'. rewrite legs_total_snoc. lia.
  - intros e He. exists e. split; [done|]. right. exists (pre ++ [n]), post. rewrite <- app_assoc. split_and!; [done|by destruct pre|].
    by rewrite legs_total_snoc, Z.add_assoc, <- Hpre, <- Hadd.
Qed.

Lemma leg_cap_unique sq cap cap' : leg_cap sq cap → leg_cap sq cap' → cap = cap'.
Proof.
  unfold leg_cap. case_decide; [congruence|]. intros (s & Hs & ->) (s' & Hs' & ->). assert (s = s') as -> by lia. done.
Qed.

Lemma capped_gv_decides sq u tree p cap : inv tree → contains tree u = true → leg_cap sq (units <$> cap) →
  decides (λ e, ∃ ne, e = GroupNumeric ne ∧ (some_group_refused tree (nodes_of (get_children tree u)) ne ∨ legs_refused ctx sq tree u p ne))
    (meets_volume ctx sq tree u p)
    (capped_gv_meets (group_volume sq) cap u tree (volume_index ctx) p).
Proof using DecimalLaws0 NavigatorLaws0.
  intros Ht Hu Hcap. unfold capped_gv_meets, meets_volume, legs_refused. destruct (nav_children tree u Ht Hu) as (cs & -> & Hcs).
  cbn [map_err mbind outcome_bind nodes_of]. eapply returns_bind; [eapply returns_weaken; [by apply (sum_legs tree cap)|intros t H; exact H|]|].
  - intros e (ne & -> & [Hg|(pre & post & Heq & Hne & Href)]); exists ne; (split; [done|]); [by left|]. right.
    by exists (units <$> cap), pre, post.
  - intros gv Hgv. cbn. rewrite dec_leb_units, Z.leb_le, Hgv. split.
    + intros H. exists (units <$> cap). split; [done|]. exact H.
    + intros (cap' & Hcap' & H). unfold legs_total. by rewrite (leg_cap_unique sq _ _ Hcap Hcap').
Qed.

(** The errors of the two team criteria. *)
Definition count_fault (req : DistributorCountRequirement D) (tree : T) (u : Uuid) (e : DistributorCountError D) : Prop :=
  match e with
  | CountTree _ => False
  | CountUnknownMinRank k => k = min_rank req ∧ rank_ordinals ctx !! k = None
  | CountNumeric ne => some_group_refused tree (team_of req tree u) ne
  end.

Definition leg_fault (reqs : list (LegQualityRequirement D)) (e : LegQualityError) : Prop :=
  match e with
  | LegTree _ => False
  | LegUnknownMinRank k => rank_ordinals ctx !! k = None ∧ ∃ lq, lq ∈ reqs ∧ predicate lq = ContainsRank k
  end.

Lemma counts_decides req u o tree m n : inv tree → contains tree (user_id n) = true → n ∈ team_of req tree u →
  decides (count_fault req tree u) (at_least m (user_id n) o ∧ units (dec (min_leg_group_volume req)) ≤ group_units ctx tree (user_id n))
    (counts req o tree (volume_index ctx) m n).
Proof using DecimalLaws0 NavigatorLaws0.
  intros Ht Hn Hin. unfold counts, at_least.
  destruct (m !! user_id n) as [[r k|]|]; [|apply decides_ok; split; [done|naive_solver]..].
  destruct (N.ltb_spec k o) as [Hk|Hk]; [apply decides_ok; split; [done|]; intros [(? & ? & [= <- <-] & ?) _]; lia|].
  unfold group_units. destruct (nav_levels tree _ Ht Hn 0) as (ns & Hns & _). rewrite Hns. cbn [map_err mbind outcome_bind nodes_of].
  pose proof (add_volumes_units (volume_index ctx) (cv_for (volume_index ctx) (user_id n)) ns) as H.
  destruct (add_volumes _ _ _); cbn in *; try done; [|exists n; split; [done|]; unfold group_refused; by rewrite Hns]. rewrite dec_leb_units, Z.leb_le, H. split; [intros ?; split; [eauto|done]|by intros []].
Qed.

Lemma count_meets_decides req u tree m : inv tree → contains tree u = true →
  decides (count_fault req tree u) (meets_count ctx req tree u m)
    (distributor_count_meets req u tree (volume_index ctx) m (rank_ordinals ctx)).
Proof using DecimalLaws0 NavigatorLaws0.
  intros Ht Hu. unfold distributor_count_meets, meets_count.
  destruct (rank_ordinals ctx !! min_rank req) as [o|] eqn:Ho; cbn [ok_or mbind outcome_bind]; [|done].
  set (limit := match search_mode req with FirstLevels => default 0%N (search_depth req) | AnyLevel => 0%N end). destruct (nav_levels tree u Ht Hu limit) as (ns & Hdown & Hns).
  assert (Hteam : team_of req tree u = ns) by (unfold team_of; fold limit; by rewrite Hdown).
  rewrite Hdown. cbn [map_err mbind outcome_bind nodes_of]. destruct (N.ltb_spec (N.of_nat (length ns)) (total_count req)) as [Hlt|Hge].
  { apply decides_ok. split; [done|]. intros (? & _ & ? & _). lia. }
  eapply decides_iff; [apply count_decides; intros n Hn; apply (counts_decides req u o tree m n); rewrite ?Hteam; auto|].
  split; [intros (g & ? & ? & ?); exists o; eauto 10|]. intros (o' & [= <-] & _ & g & ?). eauto.
Qed.

Lemma node_decides reqs p u m lq : lq ∈ reqs → predicate lq = p →
  decides (leg_fault reqs) (node_meets ctx p m u) (node_matches p u m (ctx_distributors ctx) (rank_ordinals ctx)).
Proof using DecimalLaws0.
  intros Hlq <-. destruct (predicate lq) as [r|v] eqn:Hp; cbn.
  - destruct (rank_ordinals ctx !! r) as [o|] eqn:Ho; cbn; [|split; [done|eauto]]. unfold at_least.
    destruct (m !! u) as [[r' k|]|]; cbn; [rewrite N.leb_le; split; [eauto 10|]|split; [done|]..]; intros (o' & [= <-] & ? & ? & ? & ?); naive_solver.
  - destruct (ctx_distributors ctx !! u) as [q|]; cbn; [rewrite dec_leb_units, Z.leb_le; split; [eauto|]|split; [done|]];
      intros (? & [=] & ?); by subst.
Qed.

Lemma leg_match_decides reqs lq c tree m : lq ∈ reqs → inv tree → contains tree (user_id c) = true →
  decides (leg_fault reqs) (node_meets ctx (predicate lq) m (user_id c) ∨
      ∃ n, n ∈ nodes_of (get_downline tree (user_id c) 0) ∧ node_meets ctx (predicate lq) m (user_id n))
    (leg_contains_match (predicate lq) (user_id c) tree m (ctx_distributors ctx) (rank_ordinals ctx)).
Proof using DecimalLaws0 NavigatorLaws0.
  intros Hlq Ht Hc. unfold leg_contains_match. destruct (nav_levels tree _ Ht Hc 0) as (ns & -> & _). cbn [map_err nodes_of].
  pose proof (node_decides reqs _ (user_id c) m lq Hlq eq_refl) as H. unfold decides in *.
  destruct (node_matches _ (user_id c) _ _ _) as [b| | |]; cbn in *; try done. destruct b; cbn; [naive_solver|].
  eapply decides_iff; [apply (any_decides _ (λ n, node_meets ctx (predicate lq) m (user_id n))); intros n _; by eapply node_decides|].
  naive_solver.
Qed.

Lemma leg_quality_decides reqs u tree m : inv tree → contains tree u = true →
  decides (leg_fault reqs) (∀ req, req ∈ reqs → meets_legs ctx req tree u m)
    (leg_quality_meets reqs u tree m (ctx_distributors ctx) (rank_ordinals ctx)).
Proof using DecimalLaws0 NavigatorLaws0.
  intros Ht Hu. unfold meets_legs. destruct (nav_children tree u Ht Hu) as (cs & Hcs & Hlive). rewrite Hcs. cbn [nodes_of].
  assert (Hall : decides (leg_fault reqs) (∀ req, req ∈ reqs → ∃ good, good `sublist_of` cs ∧ (lq_count req ≤ N.of_nat (length good))%N ∧
    ∀ c, c ∈ good → node_meets ctx (predicate req) m (user_id c) ∨
      ∃ n, n ∈ nodes_of (get_downline tree (user_id c) 0) ∧ node_meets ctx (predicate req) m (user_id n))
    (all_outcome (λ req, leg_requirement_meets req cs tree m (ctx_distributors ctx) (rank_ordinals ctx)) reqs)).
  2:{ destruct reqs; [exact Hall|]. unfold leg_quality_meets. rewrite Hcs. exact Hall. }
  apply all_decides. intros lq Hlq. unfold leg_requirement_meets. destruct (N.eqb_spec (lq_count lq) 0) as [->|Hne].
  { apply decides_ok. split; [|done]. intros _. exists []. split_and!; [apply sublist_nil_l|cbn; lia|by intros ? ?%elem_of_nil]. }
  destruct (N.ltb_spec (N.of_nat (length cs)) (lq_count lq)) as [Hlt|Hge].
  { apply decides_ok. split; [done|]. intros (g & Hg%sublist_length & ? & _). lia. }
  apply count_decides. intros c Hc. apply leg_match_decides; auto.
Qed.

(** ** History *)
Lemma reached_spec u o q : reached (ctx_history ctx !! u) o q = true ↔ reached_in ctx u o q.
Proof.
  unfold reached, reached_in. destruct (ctx_history ctx !! u) as [h|]; cbn; [|naive_solver].
  destruct (h !! q) as [[k|]|] eqn:Hq; [rewrite N.leb_le|..]; naive_solver.
Qed.

(** The errors of one rank. *)
Definition rank_fault (r : RankDefinition D) (u : Uuid) (e : EvaluationError D) : Prop :=
  match e with
  | UnknownStructure k s => k = name r ∧ trees ctx !! s = None ∧ ∃ sq, sq ∈ structures (qualification r) ∧ structure sq = s
  | UnknownMinRank k x => k = name r ∧ rank_ordinals ctx !! x = None ∧ names_rank r x
  | UnknownThresholdRank k x => k = name r ∧ rank_ordinals ctx !! x = None ∧
      (w_threshold_rank <$> window (qualification r) = Some x ∨ t_threshold_rank <$> tenure (qualification r) = Some x)
  | DistributorNotInTree v s => v = u ∧ is_Some (ctx_distributors ctx !! u) ∧ ∃ t, trees ctx !! s = Some t ∧ contains t u = false
  | Numeric ne => ∃ sq p, sq ∈ structures (qualification r) ∧ ctx_distributors ctx !! u = Some p ∧ structure_refused ctx sq u p ne
  | TimeGateWithoutHistory _ | DistributorNotInInputs _ | RankEvaluationDidNotConverge _ => False
  end.

Lemma windowed_decides r u w : window (qualification r) = Some w →
  decides (rank_fault r u) (meets_window ctx w u)
    (windowed_meets w (ctx_history_window ctx) (ctx_history ctx !! u) (rank_ordinals ctx) (name r)).
Proof.
  intros Hw. unfold windowed_meets, lookup_threshold, meets_window.
  destruct (rank_ordinals ctx !! w_threshold_rank w) as [o|] eqn:Ho; cbn [ok_or mbind outcome_bind].
  2:{ cbn. split_and!; [done..|]. left. by rewrite Hw. }
  set (k := N.to_nat (window_periods w)). destruct (Nat.ltb_spec (length (ctx_history_window ctx)) k) as [Hlt|Hge].
  { apply decides_ok. split; [done|]. intros (? & _ & Hlen & _). rewrite length_take in Hlen. lia. }
  apply decides_ok. rewrite N.leb_le. set (latest := take k (ctx_history_window ctx)). split.
  - intros Hn. exists o. split_and!; [done|unfold latest; rewrite length_take; lia|].
    exists (filter (λ p, reached (ctx_history ctx !! u) o p = true) latest). split_and!; [apply sublist_filter|done|].
    intros q [Hq _]%list_elem_of_filter. by apply reached_spec.
  - intros (o' & [= <-] & _ & g & Hg & Hn & HP). etrans; [exact Hn|].
    assert (length g ≤ length (filter (λ p, reached (ctx_history ctx !! u) o p = true) latest))%nat; [|lia].
    clear -Hg HP. induction Hg as [|q g l Hg IH|q g l Hg IH]; [cbn; lia|..].
    + rewrite filter_cons_True by (apply reached_spec, HP; left). cbn. apply le_n_S, IH. intros x Hx. apply HP. by right.
    + rewrite filter_cons. case_decide; cbn; [etrans; [apply IH, HP|lia]|apply IH, HP].
Qed.

Lemma tenure_decides r u t : tenure (qualification r) = Some t →
  decides (rank_fault r u) (meets_tenure ctx t u)
    (tenure_meets t (ctx_history_window ctx) (ctx_history ctx !! u) (rank_ordinals ctx) (name r)).
Proof.
  intros Ht. unfold tenure_meets, lookup_threshold, meets_tenure.
  destruct (rank_ordinals ctx !! t_threshold_rank t) as [o|] eqn:Ho; cbn [ok_or mbind outcome_bind].
  2:{ cbn. split_and!; [done..|]. right. by rewrite Ht. }
  set (k := N.to_nat (periods t)). destruct (Nat.ltb_spec (length (ctx_history_window ctx)) k) as [Hlt|Hge].
  { apply decides_ok. split; [done|]. intros (? & _ & Hlen & _). rewrite length_take in Hlen. lia. }
  apply decides_ok. rewrite forallb_forall. setoid_rewrite <- list_elem_of_In. setoid_rewrite reached_spec. split.
  - intros H. exists o. split_and!; [done|rewrite length_take; lia|done].
  - by intros (o' & [= <-] & _ & H).
Qed.

(** ** A structure's criteria, and a rank's *)
Lemma products_spec q p : required_products_met q p = true ↔ q = [] ∨ ∃ x, x ∈ q ∧ x ∈ @active_products D p.
Proof.
  destruct q as [|x q]; [cbn; naive_solver|]. unfold required_products_met. rewrite existsb_exists. setoid_rewrite existsb_exists.
  setoid_rewrite <- list_elem_of_In. setoid_rewrite bool_decide_eq_true. naive_solver.
Qed.

Lemma decides_map_err {E F} (Q : E → Prop) (Q' : F → Prop) (f : E → F) P m :
  decides Q P m → (∀ e, Q e → Q' (f e)) → decides Q' P (map_err f m).
Proof. unfold decides. destruct m; cbn; auto. Qed.

Lemma structure_decides r u p m sq : ctx_distributors ctx !! u = Some p → sq ∈ structures (qualification r) →
  decides (rank_fault r u) (meets_structure ctx sq u p m) (structure_meets ctx r u p m sq).
Proof using DecimalLaws0 NavigatorLaws0 Hinv.
  intros Hp Hsq. unfold structure_meets, meets_structure.
  destruct (trees ctx !! structure sq) as [tree|] eqn:Ht; cbn [ok_or mbind outcome_bind]; [|cbn; eauto].
  destruct (contains tree u) eqn:Hc; cbn [negb refuse_if mbind outcome_bind]; [|cbn; split_and!; eauto].
  assert (Hi : inv tree) by eauto. eapply decides_iff.
  { repeat apply and_also_decides.
    - apply decides_ok. unfold pv_meets. rewrite dec_leb_units. apply Z.leb_le.
    - apply decides_ok. unfold retail_meets. rewrite dec_leb_units. apply Z.leb_le.
    - pose proof (effective_cap_spec sq) as Hcap. destruct (effective_leg_cap sq) as [cap|ne| |]; cbn in *; try done.
      2: { exists sq, p. split_and!; [done..|]. exists tree. eauto. }
      eapply decides_map_err; [by apply (capped_gv_decides sq u tree p cap)|]. intros e (ne & -> & Hne). exists sq, p.
      split_and!; [done..|]. exists tree. split_and!; [done..|]. destruct Hne; eauto.
    - instantiate (1 := ∀ req, distributor_count sq = Some req → meets_count ctx req tree u m).
      destruct (distributor_count sq) as [req|] eqn:Hreq; [|by apply decides_ok].
      eapply decides_iff; [eapply decides_map_err; [by apply count_meets_decides|]|naive_solver].
      intros [|k|ne] He; cbn in *; [done| |]; cycle 1.
      { destruct He as (n & Hn & Hne). exists sq, p. split_and!; [done..|]. exists tree. split_and!; [done..|]. right. right. right. eauto. }
      destruct He as [-> He]. split_and!; [done..|]. exists sq. split; [done|]. left. eauto.
    - eapply decides_map_err; [by apply (leg_quality_decides (leg_quality sq))|].
      intros [|k] He; cbn in *; [done|]. destruct He as (He & lq & Hlq & Hk). split_and!; [done..|]. exists sq. split; [done|]. right. eauto. }
  split; [intros ((((? & ?) & ?) & ?) & ?); exists tree; eauto 10|]. intros (? & [= <-] & _ & ? & ? & ? & ? & ?). eauto 10.
Qed.

Lemma satisfies_decides r u m : decides (rank_fault r u) (meets ctx r u m) (satisfies ctx r u m).
Proof using DecimalLaws0 NavigatorLaws0 Hinv.
  unfold satisfies, meets. destruct (ctx_distributors ctx !! u) as [p|] eqn:Hp; [|apply decides_ok; split; [done|naive_solver]].
  eapply decides_iff.
  { repeat apply and_also_decides.
    - apply decides_ok, products_spec.
    - apply all_decides. intros sq Hsq. by apply structure_decides.
    - instantiate (1 := ∀ w, window (qualification r) = Some w → meets_window ctx w u).
      destruct (window (qualification r)) as [w|] eqn:Hw; [|by apply decides_ok].
      eapply decides_iff; [by apply windowed_decides|naive_solver].
    - instantiate (1 := ∀ t, tenure (qualification r) = Some t → meets_tenure ctx t u).
      destruct (tenure (qualification r)) as [t|] eqn:Ht; [|by apply decides_ok].
      eapply decides_iff; [by apply tenure_decides|naive_solver]. }
  split; [intros (((? & ?) & ?) & ?); exists p; eauto 10|]. intros (? & [= <-] & ? & ? & ? & ?). eauto 10.
Qed.

Lemma rank_fault_eval r u e : r ∈ tail (ctx_ranks ctx) → rank_fault r u e → eval_fault ctx e.
Proof.
  intros Hr. destruct e; cbn; try done.
  - intros (-> & ? & sq & ? & ?). exists r, sq. done.
  - intros (-> & ? & ?). exists r. done.
  - intros (-> & ? & ?). exists r. done.
  - intros (-> & ? & ?). done.
  - intros (sq & p & ? & ? & ?). exists r, sq, u, p. done.
Qed.
End criteria.
