(* ===== verification/RankTheorems.v ===== *)
(** * Rank qualification: the theorems

    What a distributor's evaluation returns, that the passes reach the least
    fixpoint whatever the order, and what [evaluate_ranks] returns. *)

From stdpp Require Import base numbers list gmap sorting strings.
From Stdlib Require Import ZArith Lia.
From S2P Require Import Prelude RustDecimal Dec TreeTypes Arena Navigator CommissionTypes Rank RankFix RankFaults.
Import Rank.

(** [r] is the highest rank whose criteria [u] meets, or the lowest rank. *)
Definition assigned {D T} `{!DecimalOps D, !TreeNavigator T} (ctx : EvalCtx D T) (m : rank_map) (u : Uuid) (r : EvaluatedRank) : Prop :=
  match ctx_ranks ctx with
  | [] => r = Unranked
  | _ => ∃ p rk, ctx_ranks ctx !! p = Some rk ∧ r = evaluated rk ∧ (p = 0 ∨ meets ctx rk u m) ∧
      ∀ q rk', p < q → ctx_ranks ctx !! q = Some rk' → ¬ meets ctx rk' u m
  end.

Lemma top_spec bs : (top bs = 0 ∨ bs !! pred (top bs) = Some true) ∧ ∀ k, top bs ≤ k → bs !! k ≠ Some true.
Proof.
  induction bs as [|b bs [IH1 IH2]]; cbn; [split; [by left|done]|]. destruct (top bs) as [|k] eqn:Ht.
  - split; [destruct b; [by right|by left]|]. intros [|j] Hj; cbn; [destruct b; [lia|done]|apply IH2; lia].
  - split; [right; by destruct IH1|]. intros [|j] Hj; cbn; [lia|apply IH2; lia].
Qed.

Section iteration.
Context {D : Type} `{!DecimalOps D, !DecimalLaws D} {T : Type} `{!TreeNavigator T} (inv : T → Prop) `{!NavigatorLaws T inv}.
Context (ctx : EvalCtx D T) (Hinv : ∀ s t, trees ctx !! s = Some t → inv t).

Lemma levels_known u m : returns (λ bs, Forall2 (λ r b, b = true ↔ meets ctx r u m) (tail (ctx_ranks ctx)) bs) (eval_fault ctx)
  (map_outcome (λ r, satisfies ctx r u m) (tail (ctx_ranks ctx))).
Proof using DecimalLaws0 NavigatorLaws0 Hinv.
  apply (returns_map (eval_fault ctx) (λ r b, b = true ↔ meets ctx r u m)). intros r Hr.
  pose proof (satisfies_decides inv ctx Hinv r u m) as H. unfold decides in H.
  destruct (satisfies ctx r u m); cbn in *; try done. by eapply rank_fault_eval.
Qed.

Lemma evaluate_decides u m : returns (assigned ctx m u) (eval_fault ctx) (evaluate_distributor ctx u m).
Proof using DecimalLaws0 NavigatorLaws0 Hinv.
  rewrite evaluate_level. unfold level_of. pose proof (levels_known u m) as H.
  destruct (map_outcome _ _) as [bs| | |]; cbn in *; try done. unfold assigned, value_at.
  destruct (ctx_ranks ctx) as [|base higher] eqn:Hr; [done|]. cbn [tail] in H.
  pose proof (Forall2_length _ _ _ H) as Hlen. destruct (top_spec bs) as [Ht Hmax]. pose proof (top_le bs) as Hle.
  destruct ((base :: higher) !! top bs) as [rk|] eqn:Hrk.
  2:{ apply lookup_ge_None in Hrk. cbn in Hrk. lia. }
  exists (top bs), rk. split_and!; [done..| |].
  - destruct Ht as [Ht|Ht]; [by left|]. destruct (top bs) as [|k]; [by left|]. right. cbn in Hrk, Ht.
    destruct (Forall2_lookup_lr _ _ _ _ _ _ H Hrk Ht) as [Hm _]. by apply Hm.
  - intros [|q] rk' Hq Hrk'; [lia|]. cbn in Hrk'. destruct (Forall2_lookup_l _ _ _ _ _ H Hrk') as (b & Hb & Hm).
    intros Hmeets. apply (Hmax q); [lia|]. rewrite Hb. f_equal. by apply Hm.
Qed.

Context (Hsorted : StronglySorted (λ a b, (ordinal a ≤ ordinal b)%N) (ctx_ranks ctx)).

Lemma pass_faults l st : returns (λ _, True) (eval_fault ctx) (fold_outcome (evaluate_user ctx) st l).
Proof using DecimalLaws0 NavigatorLaws0 Hinv.
  apply (returns_fold (eval_fault ctx) (λ _ _, True)); [done|]. intros pre x suf [m c] _ _. unfold evaluate_user.
  eapply returns_bind; [apply evaluate_decides|]. intros r _. by case_bool_decide.
Qed.

(** What the passes end with, and what it means that they fail. *)
Definition least_fixpoint (order : list Uuid) (m : rank_map) : Prop :=
  fixpoint_of ctx order m ∧ dom m = list_to_set order ∧ ∀ F, fixpoint_of ctx order F → below m F.

Definition no_fixpoint (order : list Uuid) (e : EvaluationError D) : Prop :=
  eval_fault ctx e ∧ ∀ F, ¬ fixpoint_of ctx order F.

Lemma run_passes_spec total order n P : rising ctx P → bounded ctx P → dom P ⊆ list_to_set order →
  length order * S (length (tail (ctx_ranks ctx))) < weight order P + n →
  (∀ F, fixpoint_of ctx order F → lower ctx order F P) →
  returns (least_fixpoint order) (no_fixpoint order) (run_passes ctx total order (ranked ctx P) n).
Proof using DecimalLaws0 NavigatorLaws0 Hinv Hsorted.
  revert P. induction n as [|n IH]; intros P Hr Hb Hdom Hn Hlow; [pose proof (weight_bound ctx order P Hb); lia|].
  cbn [run_passes]. unfold pass. pose proof (pass_faults order (ranked ctx P, false)) as Hf.
  destruct (fold_outcome (evaluate_user ctx) (ranked ctx P, false) order) as [[m c]|e| |] eqn:Hp; cbn in Hf; try done.
  - destruct (pass_inv inv ctx Hinv Hsorted order P false m c Hr Hb Hp) as (P' & [E1 E2 E3 E4 E5 E6 EL E7]). cbn [mbind outcome_bind].
    assert (HdomP : dom P' = list_to_set order) by (rewrite E5; set_solver).
    assert (Hlow' : ∀ F, fixpoint_of ctx order F → lower ctx order F P') by (intros F HF; apply (EL order F HF); auto).
    destruct c.
    + rewrite E1. apply IH; [done..|by rewrite HdomP| |done]. destruct (weight_under order P P' E4) as [_ Hlt].
      destruct (E6 eq_refl) as [|H]; [done|]. specialize (Hlt H). lia.
    + destruct (E7 eq_refl) as [_ Hset]. split_and!; [done| |].
      * rewrite E1. unfold ranked. by rewrite dom_fmap_L.
      * intros F HF. rewrite E1. apply (lower_below ctx Hsorted order F P' HF). auto.
  - cbn. split; [done|]. intros F HF. destruct (lower_pass inv ctx Hinv Hsorted order F order P false HF (Hlow F HF)) as (P' & c' & H & _); [done|].
    congruence.
Qed.

Lemma iterate_spec order : (N.of_nat (length order) * (N.of_nat (length (ctx_ranks ctx)) + 1) + 1 ≤ u64_max)%N →
  returns (least_fixpoint order) (no_fixpoint order) (iterate_to_fixpoint ctx order).
Proof using DecimalLaws0 NavigatorLaws0 Hinv Hsorted.
  intros Hsize. unfold iterate_to_fixpoint.
  assert (Hmax : max_passes ctx order = (N.of_nat (length order) * (N.of_nat (length (ctx_ranks ctx)) + 1) + 1)%N).
  { unfold max_passes, saturate. set (L := N.of_nat (length order)) in *. set (R := N.of_nat (length (ctx_ranks ctx))) in *.
    destruct (decide (L = 0%N)) as [->|HL].
    - rewrite N.mul_0_l. rewrite N.min_0_l, N.min_l by (unfold u64_max; lia). done.
    - assert (R + 1 ≤ L * (R + 1))%N by nia. rewrite !N.min_l by (rewrite ?N.min_l by lia; lia). done. }
  change ∅ with (ranked ctx ∅). apply run_passes_spec.
  - by intros u p q ?%lookup_empty_Some.
  - by intros u p ?%lookup_empty_Some.
  - rewrite dom_empty_L. set_solver.
  - rewrite Hmax. assert (length (tail (ctx_ranks ctx)) ≤ length (ctx_ranks ctx)) by (clear; destruct (ctx_ranks ctx); cbn; lia).
    rewrite N2Nat.inj_add, N2Nat.inj_mul, N2Nat.inj_add, !Nat2N.id. change (N.to_nat 1) with 1. nia.
  - by intros F _ u p ?%lookup_empty_Some.
Qed.

(** The least fixpoint is unique, and depends on the set of users only. *)
Lemma least_fixpoint_unique order order' m m' : (∀ u, u ∈ order ↔ u ∈ order') → least_fixpoint order m → least_fixpoint order' m' → m = m'.
Proof using DecimalLaws0 NavigatorLaws0 Hinv Hsorted.
  intros Ho (H1 & Hd & Hl) (H1' & Hd' & Hl'). apply map_eq. intros u. destruct (decide (u ∈ order)) as [Hu|Hu].
  - assert (Hf : fixpoint_of ctx order m') by (intros v Hv; apply H1'; by apply Ho).
    assert (Hf' : fixpoint_of ctx order' m) by (intros v Hv; apply H1; by apply Ho).
    destruct (fixpoint_level ctx order m u H1 Hu) as (p & Hp & ->).
    destruct (fixpoint_level ctx order m' u Hf Hu) as (q & Hq & ->).
    destruct (level_mono inv ctx Hinv u m m' (Hl _ Hf) q Hq) as (p' & Hp' & ?).
    destruct (level_mono inv ctx Hinv u m' m (Hl' _ Hf') p Hp) as (q' & Hq' & ?).
    assert (p' = p) as -> by congruence. assert (q' = q) as -> by congruence. assert (p = q) as -> by lia. done.
  - assert (u ∉ dom m) by (rewrite Hd; set_solver). assert (u ∉ dom m') by (rewrite Hd'; set_solver).
    rewrite !not_elem_of_dom in *. congruence.
Qed.
End iteration.

(** ** The inputs of a period *)
Section period.
Context {D : Type} `{!DecimalOps D, !DecimalLaws D} {T : Type} `{!TreeNavigator T} (inv : T → Prop) `{!NavigatorLaws T inv}.
Context (trees : gmap string T) (Hinv : ∀ s t, trees !! s = Some t → inv t).

Definition placed (u : Uuid) : Prop := ∃ s t, trees !! s = Some t ∧ contains t u = true.

Lemma deepest_spec u l best : (∀ t, t ∈ l → inv t) → ∃ d,
  fold_outcome (λ best tree,
    if contains tree u then
      match get_position tree u with
      | Ok pos => Ok (Some (N.max (default 0%N best) (tp_depth pos)))
      | Err _ => Ok best
      | Panic => Panic
      | Hang => Hang
      end
    else Ok best) best l = @Ok (EvaluationError D) _ d ∧ (is_Some d ↔ is_Some best ∨ ∃ t, t ∈ l ∧ contains t u = true).
Proof using NavigatorLaws0.
  revert best. induction l as [|t l IH]; intros best Hl; cbn [fold_outcome].
  { exists best. split; [done|]. split; [by left|]. intros [?|(? & ?%elem_of_nil & _)]; done. }
  destruct (contains t u) eqn:Hc.
  - destruct (nav_position t u (Hl t ltac:(left)) Hc) as [tp ->]. cbn [mbind outcome_bind].
    destruct (IH (Some (N.max (default 0%N best) (tp_depth tp)))) as (d & -> & Hd); [intros x Hx; apply Hl; by right|].
    exists d. split; [done|]. rewrite Hd. split; [|by left]. intros _. right. exists t. split; [left|done].
  - cbn [mbind outcome_bind]. destruct (IH best) as (d & -> & Hd); [intros x Hx; apply Hl; by right|]. exists d. split; [done|].
    rewrite Hd. setoid_rewrite elem_of_cons. split; [naive_solver|]. intros [?|(x & [->|?] & ?)]; [by left|congruence|eauto].
Qed.

Lemma order_spec users : ∃ order, evaluation_order_for_users trees users = @Ok (EvaluationError D) _ order ∧
  length order ≤ length users ∧ ∀ u, u ∈ order ↔ u ∈ users ∧ placed u.
Proof using NavigatorLaws0 Hinv.
  unfold evaluation_order_for_users.
  destruct (map_outcome_total (E := EvaluationError D) (λ u d, is_Some d ↔ placed u) (deepest (map_to_list trees).*2) users) as (ds & -> & Hds).
  { intros u _. destruct (deepest_spec u (map_to_list trees).*2 None) as (d & Hd & Hiff).
    - intros t ([s t'] & -> & H%elem_of_map_to_list)%list_elem_of_fmap. eauto.
    - exists d. split; [exact Hd|]. rewrite Hiff. split.
      + intros [[? ?]|(t & ([s t'] & -> & H%elem_of_map_to_list)%list_elem_of_fmap & Hc)]; [done|]. by exists s, t'.
      + intros (s & t & Hs & Hc). right. exists t. split; [|done]. apply list_elem_of_fmap. exists (s, t). by rewrite elem_of_map_to_list. }
  cbn [mbind outcome_bind]. eexists. split; [done|]. split.
  - rewrite length_fmap, sort_by_perm. pose proof (Forall2_length _ _ _ Hds).
    assert (∀ l : list (Uuid * option N), length (omap (λ '(u, d), (λ d, (u, d)) <$> d) l) ≤ length l) as Hlen.
    { induction l as [|[u [d|]] l IH]; cbn; lia. }
    etrans; [apply Hlen|]. rewrite length_zip_with. lia.
  - intros u. rewrite list_elem_of_fmap. setoid_rewrite sort_by_perm. setoid_rewrite list_elem_of_omap. split.
    + intros ([v d] & -> & [w o] & Hw & Ho). destruct o as [k|]; [|done]. cbn in Ho. injection Ho as -> ->. cbn.
      apply list_elem_of_lookup in Hw as [i Hw]. apply lookup_zip_Some in Hw as [Hv Hd].
      destruct (Forall2_lookup_lr _ _ _ _ _ _ Hds Hv Hd) as [H _]. split; [by eapply list_elem_of_lookup_2|]. by apply H.
    + intros [[i Hi]%list_elem_of_lookup Hp]. destruct (Forall2_lookup_l _ _ _ _ _ Hds Hi) as (d & Hd & Hiff).
      destruct (proj2 Hiff Hp) as [k ->]. exists (u, k). split; [done|]. exists (u, Some k). split; [|done].
      eapply list_elem_of_lookup_2, lookup_zip_Some. split; [exact Hi|exact Hd].
Qed.

(** ** Resolving caps keeps the ladder *)
Lemma resolve_keeps ranks ranks' : resolve_fraction_caps ranks = @Ok (NumericError D) _ ranks' →
  Forall2 (λ r r', name r' = name r ∧ ordinal r' = ordinal r ∧ window (qualification r') = window (qualification r) ∧
    tenure (qualification r') = tenure (qualification r)) ranks ranks'.
Proof.
  intros H%map_outcome_ok. eapply Forall2_impl; [exact H|]. intros r r' Hr. unfold resolve_rank in Hr.
  apply bind_ok in Hr as (sqs & _ & [= <-]). done.
Qed.

Lemma ladder_sorted (ranks : list (RankDefinition D)) : StronglySorted (λ a b, (ordinal a ≤ ordinal b)%N) (ladder ranks).
Proof.
  assert (Hle : ∀ x y : RankDefinition D, cmp_leb (λ x y, N.compare (ordinal x) (ordinal y)) x y = true ↔ (ordinal x ≤ ordinal y)%N).
  { intros x y. unfold cmp_leb. destruct (N.compare_spec (ordinal x) (ordinal y)); split; try done; lia. }
  assert (H : StronglySorted (λ x y, cmp_leb (λ x y, N.compare (ordinal x) (ordinal y)) x y = true) (ladder ranks)).
  { apply sort_by_sorted; [intros x y; rewrite !Hle; lia|intros x y z; rewrite !Hle; lia]. }
  induction H as [|x l _ IH Hx]; constructor; [done|]. eapply Forall_impl; [exact Hx|]. intros y. apply Hle.
Qed.

Lemma resolved_sorted ranks ranks' : resolve_fraction_caps (ladder ranks) = @Ok (NumericError D) _ ranks' →
  StronglySorted (λ a b, (ordinal a ≤ ordinal b)%N) ranks' ∧ length ranks' = length ranks.
Proof.
  intros H%resolve_keeps. pose proof (ladder_sorted ranks) as Hs. split.
  - induction H as [|r r' l l' Hr Hl IH]; [constructor|]. inversion Hs as [|? ? Hs' Hf]; subst. constructor; [auto|].
    destruct Hr as (_ & -> & _). clear -Hl Hf. induction Hl as [|x x' l l' Hx Hl IH]; [constructor|]. inversion Hf; subst. constructor; [|auto].
    destruct Hx as (_ & -> & _). done.
  - apply Forall2_length in H. rewrite <- H. apply Permutation_length, sort_by_perm.
Qed.

(** ** The remaining passes *)
Lemma least_spec l : match least l with None => l = [] | Some u => u ∈ l ∧ ∀ v, v ∈ l → (u ≤ v)%N end.
Proof.
  unfold least. assert (H : ∀ l best, match foldl (λ best u, Some (from_option (N.min u) u best)) best l with
    | None => best = None ∧ l = []
    | Some u => (best = Some u ∨ u ∈ l) ∧ (∀ b, best = Some b → (u ≤ b)%N) ∧ ∀ v, v ∈ l → (u ≤ v)%N end).
  { clear. induction l as [|x l IH]; intros best; cbn [foldl].
    - destruct best; [|done]. split_and!; [by left|intros ? [= <-]; lia|by intros ? ?%elem_of_nil].
    - specialize (IH (Some (from_option (N.min x) x best))).
      destruct (foldl _ (Some _) l) as [u|]; [|by destruct IH]. destruct IH as (H1 & H2 & H3). specialize (H2 _ eq_refl).
      split_and!.
      + destruct H1 as [[= Hu]|]; [|right; by right]. destruct best as [b|]; cbn in Hu; [|right; rewrite Hu; left].
        destruct (N.min_spec x b) as [[_ Hmin]|[_ Hmin]]; rewrite Hmin in Hu; [right; rewrite Hu; left|left; by rewrite Hu].
      + intros b ->. cbn in H2. lia.
      + intros v [->|Hv]%elem_of_cons; [|auto]. destruct best; cbn in H2; lia. }
  specialize (H l None). destruct (foldl _ None l); [|by destruct H]. destruct H as ([|?] & _ & ?); done.
Qed.

Lemma fill_base_lookup (ranks : list (RankDefinition D)) users already u : fill_base ranks users already !! u =
  match already !! u with
  | Some r => Some r
  | None => if decide (u ∈ users) then evaluated <$> head ranks else None
  end.
Proof.
  unfold fill_base. destruct ranks as [|base ranks]; cbn [head fmap option_fmap option_map].
  { by destruct (already !! u), (decide (u ∈ users)). }
  revert already. induction users as [|v users IH]; intros already; cbn [foldl].
  - rewrite decide_False by apply not_elem_of_nil. by destruct (already !! u).
  - rewrite IH. destruct (already !! v) as [r|] eqn:Hv.
    + destruct (already !! u) eqn:Hu; [done|]. apply decide_ext. rewrite elem_of_cons. split; [by right|]. intros [->|?]; [congruence|done].
    + rewrite lookup_insert. destruct (decide (v = u)) as [->|Hne].
      * rewrite Hv, decide_True by left. done.
      * destruct (already !! u); [done|]. apply decide_ext. rewrite elem_of_cons. naive_solver.
Qed.

Context (ranks : list (RankDefinition D)) (inputs : EvaluationInputs D).

Abbreviation context ranks' v :=
  (mkCtx (distributors inputs) ranks' trees v (ordinals_of ranks') (history_window inputs) (history inputs)).

(** The volume a list of sources brings [u]. *)
Definition volume_from (u : Uuid) (sources : list (VolumeSource D)) : Z :=
  total_units ((λ src, dec (vs_cv_amount src)) <$> filter (λ src, vs_source_id src = u) sources).

(** A fraction cap of the ladder, or the volume of one distributor over the first
    sources, is held by no decimal. *)
Definition caps_refused (l : list (RankDefinition D)) (ne : NumericError D) : Prop :=
  ∃ rk sq, rk ∈ l ∧ sq ∈ structures (qualification rk) ∧ share_refused sq ne.
Definition volumes_refused (sources : list (VolumeSource D)) (ne : NumericError D) : Prop :=
  ∃ pre src post, sources = pre ++ src :: post ∧ refused OpAdd (volume_from (vs_source_id src) (pre ++ [src])) 28 ne.

Definition period_fault (e : EvaluationError D) : Prop :=
  match e with
  | TimeGateWithoutHistory r => history_window inputs = [] ∧
      ∃ rk, rk ∈ tail (ladder ranks) ∧ name rk = r ∧ (is_Some (window (qualification rk)) ∨ is_Some (tenure (qualification rk)))
  | DistributorNotInInputs u => distributors inputs !! u = None ∧
      ∃ s t, s ∈ structures_above_lowest_rank ranks ∧ trees !! s = Some t ∧ contains t u = true
  | Numeric ne => caps_refused (ladder ranks) ne ∨ volumes_refused (volume_sources inputs) ne ∨
      ∃ ranks' v, resolve_fraction_caps (ladder ranks) = @Ok (NumericError D) _ ranks' ∧
      build (volume_sources inputs) = @Ok (NumericError D) _ v ∧ eval_fault (context ranks' v) (Numeric ne)
  | RankEvaluationDidNotConverge _ => False
  | _ => ∃ ranks' v, resolve_fraction_caps (ladder ranks) = @Ok (NumericError D) _ ranks' ∧
      build (volume_sources inputs) = @Ok (NumericError D) _ v ∧ eval_fault (context ranks' v) e
  end.

(** The ranks of a period: those of the distributors in some tree are the least
    fixpoint; the others hold the lowest rank. *)
Definition period_ranks (m : rank_map) : Prop :=
  ∃ ranks' v already order, resolve_fraction_caps (ladder ranks) = @Ok (NumericError D) _ ranks' ∧
    build (volume_sources inputs) = @Ok (NumericError D) _ v ∧
    (∀ u, u ∈ order ↔ is_Some (distributors inputs !! u) ∧ placed u) ∧
    least_fixpoint (context ranks' v) order already ∧
    ∀ u, m !! u = match already !! u with
                  | Some r => Some r
                  | None => if decide (is_Some (distributors inputs !! u)) then evaluated <$> head ranks' else None
                  end.

Lemma require_spec : returns (λ _, ∀ s t u, s ∈ structures_above_lowest_rank ranks → trees !! s = Some t → contains t u = true →
    is_Some (distributors inputs !! u)) period_fault (require_every_tree_member ranks trees (distributors inputs)).
Proof using NavigatorLaws0 Hinv.
  unfold require_every_tree_member. set (members := omap (λ s, trees !! s) (elements (structures_above_lowest_rank ranks)) ≫= user_ids).
  assert (Hmem : ∀ u, u ∈ members ↔ ∃ s t, s ∈ structures_above_lowest_rank ranks ∧ trees !! s = Some t ∧ contains t u = true).
  { intros u. unfold members. rewrite list_elem_of_bind. setoid_rewrite list_elem_of_omap. setoid_rewrite elem_of_elements. split.
    - intros (t & Hu & s & Hs & Ht). exists s, t. split_and!; [done..|]. by apply (nav_user_ids t u (Hinv s t Ht)).
    - intros (s & t & Hs & Ht & Hc). exists t. split; [|eauto]. by apply (nav_user_ids t u (Hinv s t Ht)). }
  pose proof (least_spec (filter (λ u, distributors inputs !! u = None) members)) as H. destruct (least _) as [u|]; cbn.
  - destruct H as [[Hn Hu]%list_elem_of_filter _]. split; [done|]. by apply Hmem.
  - intros s t u Hs Ht Hc. destruct (distributors inputs !! u) eqn:Hu; [eauto|]. exfalso.
    apply (not_elem_of_nil u). rewrite <- H. apply list_elem_of_filter. split; [done|]. apply Hmem. eauto.
Qed.

Lemma time_gated_spec ranks' r : resolve_fraction_caps (ladder ranks) = @Ok (NumericError D) _ ranks' → time_gated ranks' = Some r →
  ∃ rk, rk ∈ tail (ladder ranks) ∧ name rk = name r ∧ (is_Some (window (qualification rk)) ∨ is_Some (tenure (qualification rk))).
Proof.
  intros Hk%resolve_keeps. unfold time_gated. intros ([i x] & Hf & ->)%fmap_Some. apply list_find_Some in Hf as (Hi & Hg & _). cbn.
  rewrite lookup_drop in Hi. destruct (Forall2_lookup_r _ _ _ _ _ Hk Hi) as (rk & Hrk & Hn & _ & Hw & Ht).
  exists rk. split_and!; [|done|by rewrite <- Hw, <- Ht]. destruct (ladder ranks); [done|]. exact (list_elem_of_lookup_2 l i _ Hrk).
Qed.

Lemma volume_from_snoc u pre src : volume_from u (pre ++ [src]) =
  (volume_from u pre + if decide (vs_source_id src = u) then units (dec (vs_cv_amount src)) else 0)%Z.
Proof.
  unfold volume_from. rewrite filter_app, fmap_app, total_units_app, filter_cons. case_decide; cbn; lia.
Qed.

(** The volume index holds everyone's exact volume. *)
Lemma build_returns sources : returns (λ v, ∀ u, units (cv_for v u) = volume_from u sources) (volumes_refused sources)
  (build sources : outcome (NumericError D) _).
Proof using DecimalLaws0.
  unfold build. apply (returns_fold _ (λ pre v, ∀ u, units (cv_for v u) = volume_from u pre)).
  { intros u. exact zero_units. }
  intros pre src post v -> Hv. eapply returns_bind.
  - eapply returns_weaken; [apply refuses_add|intros t Ht; exact Ht|]. intros e He. exists pre, src, post. split; [done|].
    by rewrite volume_from_snoc, decide_True, <- Hv by done.
  - intros t Ht u. rewrite volume_from_snoc. unfold cv_for, VolumeIndex in *. rewrite lookup_insert. cbn beta in Ht.
    destruct (decide (vs_source_id src = u)) as [<-|Hne]; [cbn; by rewrite Ht, Hv|]. rewrite Hv. lia.
Qed.

Lemma resolve_returns l : returns (λ _, True) (caps_refused l) (resolve_fraction_caps l : outcome (NumericError D) _).
Proof using DecimalLaws0.
  eapply returns_impl; [apply (returns_map _ (λ _ _, True))|done]. intros r Hr. unfold resolve_rank.
  eapply returns_bind; [apply (returns_map _ (λ _ _, True))|done]. intros sq Hsq. unfold resolve_cap.
  destruct (dec_ltb _ _); [done|]. eapply returns_bind; [eapply returns_weaken; [apply effective_cap_spec|intros c Hc; exact Hc|]|done].
  intros e He. by exists r, sq.
Qed.

Lemma evaluate_ranks_spec : (N.of_nat (size (distributors inputs)) * (N.of_nat (length ranks) + 1) + 1 ≤ u64_max)%N →
  returns period_ranks period_fault (evaluate_ranks ranks trees inputs).
Proof using DecimalLaws0 NavigatorLaws0 Hinv.
  intros Hsize. unfold evaluate_ranks. pose proof (resolve_returns (ladder ranks)) as Hres.
  destruct (resolve_fraction_caps (ladder ranks)) as [ranks'|e| |] eqn:Hr; cbn in Hres; try done; [|by left]. cbn [map_err mbind outcome_bind].
  destruct (resolved_sorted ranks ranks' Hr) as [Hsorted Hlen].
  destruct (if bool_decide (history_window inputs = []) then time_gated ranks' else None) as [r|] eqn:Htg.
  { case_bool_decide as Hh; [|done]. cbn. split; [done|]. by eapply time_gated_spec. }
  eapply returns_bind; [apply require_spec|]. intros _ _. pose proof (build_returns (volume_sources inputs)) as Hbuild.
  destruct (build (volume_sources inputs)) as [v|e| |] eqn:Hv; cbn in Hbuild; try done; [|by right; left]. cbn [map_err mbind outcome_bind].
  destruct (order_spec (map_to_list (distributors inputs)).*1) as (order & Hord & Hol & Horder). rewrite Hord. cbn [mbind outcome_bind].
  assert (Hu : ∀ u, u ∈ (map_to_list (distributors inputs)).*1 ↔ is_Some (distributors inputs !! u)).
  { intros u. rewrite list_elem_of_fmap. split; [intros ([? ?] & -> & ?%elem_of_map_to_list); eauto|].
    intros [p Hp]. exists (u, p). by rewrite elem_of_map_to_list. }
  pose proof (iterate_spec inv (context ranks' v) Hinv Hsorted order) as Hit.
  assert (Hsz : length (map_to_list (distributors inputs)).*1 = size (distributors inputs)) by (rewrite length_fmap; apply length_map_to_list).
  cbn [ctx_ranks] in Hit. rewrite Hlen in Hit. specialize (Hit ltac:(nia)).
  destruct (iterate_to_fixpoint (context ranks' v) order) as [already|e| |]; cbn in Hit; try done; cbn [mbind outcome_bind].
  - exists ranks', v, already, order. split_and!; [done..| |done|].
    + intros u. by rewrite Horder, Hu.
    + intros u. rewrite fill_base_lookup. destruct (already !! u); [done|]. by apply decide_ext, Hu.
  - destruct Hit as [He _]. cbn. assert (Hctx : ∃ ranks'' v', resolve_fraction_caps (ladder ranks) = @Ok (NumericError D) _ ranks'' ∧
      build (volume_sources inputs) = @Ok (NumericError D) _ v' ∧ eval_fault (context ranks'' v') e) by (exists ranks', v; by rewrite Hr, Hv).
    destruct e; cbn in He; first [done|exact Hctx|right; right; exact Hctx].
Qed.
End period.

(** ** Results *)
Section results.
Context {D : Type} `{!DecimalOps D, !DecimalLaws D} {T : Type} `{!TreeNavigator T} (inv : T → Prop) `{!NavigatorLaws T inv}.

(** Evaluating one distributor returns the highest rank of the ladder whose
    criteria hold of them, the lowest rank when none does: criteria on exact
    volumes (each leg capped), on enough qualified people in the team and in
    enough legs, on products, and on history, stated without loops in [meets].
    An error names a structure, rank or tree membership that is indeed missing,
    or an exact result that no decimal holds; there is no panic. *)
Theorem evaluate_distributor_exact (ctx : EvalCtx D T) (u : Uuid) (already : rank_map) :
  (∀ s t, trees ctx !! s = Some t → inv t) →
  returns (assigned ctx already u) (eval_fault ctx) (evaluate_distributor ctx u already).
Proof using DecimalLaws0 NavigatorLaws0. intros Hinv. by apply (evaluate_decides inv). Qed.

(** C20. The passes always end within their bound, with the least assignment of
    ranks in which every distributor holds the highest rank they meet given the
    ranks of the others; they end with an error exactly when there is no such
    assignment, and never with the report that they did not converge. *)
Theorem rank_fixpoint_least (ctx : EvalCtx D T) (order : list Uuid) :
  (∀ s t, trees ctx !! s = Some t → inv t) →
  StronglySorted (λ a b, (ordinal a ≤ ordinal b)%N) (ctx_ranks ctx) →
  (N.of_nat (length order) * (N.of_nat (length (ctx_ranks ctx)) + 1) + 1 ≤ u64_max)%N →
  returns (least_fixpoint ctx order) (no_fixpoint ctx order) (iterate_to_fixpoint ctx order).
Proof using DecimalLaws0 NavigatorLaws0. intros Hinv Hsorted. by apply (iterate_spec inv). Qed.

(** The order in which distributors are evaluated does not matter: any two
    orders of the same distributors give the same ranks, and if one fails so does
    the other. *)
Theorem rank_order_irrelevant (ctx : EvalCtx D T) (order order' : list Uuid) (m : rank_map) :
  (∀ s t, trees ctx !! s = Some t → inv t) →
  StronglySorted (λ a b, (ordinal a ≤ ordinal b)%N) (ctx_ranks ctx) →
  (N.of_nat (length order) * (N.of_nat (length (ctx_ranks ctx)) + 1) + 1 ≤ u64_max)%N →
  order ≡ₚ order' → iterate_to_fixpoint ctx order = Ok m ↔ iterate_to_fixpoint ctx order' = Ok m.
Proof using DecimalLaws0 NavigatorLaws0.
  intros Hinv Hsorted Hsize Hp. assert (Hsize' := Hsize). rewrite Hp in Hsize'.
  assert (Hin : ∀ u, u ∈ order ↔ u ∈ order') by (intros u; by rewrite Hp).
  pose proof (iterate_spec inv ctx Hinv Hsorted order Hsize) as H.
  pose proof (iterate_spec inv ctx Hinv Hsorted order' Hsize') as H'.
  destruct (iterate_to_fixpoint ctx order) as [m1|e| |], (iterate_to_fixpoint ctx order') as [m2|e'| |]; cbn in H, H'; try done.
  - by rewrite (least_fixpoint_unique inv ctx Hinv Hsorted order order' m1 m2 Hin H H').
  - exfalso. destruct H as (H & _), H' as (_ & H'). apply (H' m1). intros u Hu. by apply H, Hin.
  - exfalso. destruct H as (_ & H), H' as (H' & _). apply (H m2). intros u Hu. by apply H', Hin.
Qed.

(** Resolving a fraction cap leaves the cap it stands for. *)
Lemma resolve_cap_same sq sq' : resolve_cap sq = @Ok (NumericError D) _ sq' →
  effective_leg_cap sq' = @effective_leg_cap D _ sq ∧ structure sq' = structure sq ∧ sq_personal_volume sq' = sq_personal_volume sq ∧
  group_volume sq' = group_volume sq ∧ min_retail_volume sq' = min_retail_volume sq ∧
  distributor_count sq' = distributor_count sq ∧ leg_quality sq' = leg_quality sq.
Proof using Type.
  unfold resolve_cap. destruct (dec_ltb DZERO (dec (max_group_volume_per_leg sq))) eqn:Hc; [by intros [= <-]|].
  intros H. apply bind_ok in H as (cap & Hcap & [= <-]). destruct cap as [cap|]; [|done]. split_and!; try done.
  rewrite Hcap. unfold effective_leg_cap in *. rewrite Hc in Hcap. apply bind_ok in Hcap as (c & _ & Hif).
  cbn [max_group_volume_per_leg dec]. destruct (dec_ltb DZERO c) eqn:Hpos; [|done]. injection Hif as <-. by rewrite Hpos.
Qed.

(** Resolving the fraction caps once, before the passes, decides nothing: a
    resolved rank is met by exactly the distributors the plan's rank is met by,
    with the same errors. *)
Theorem resolve_caps_irrelevant (ctx : EvalCtx D T) (r r' : RankDefinition D) (u : Uuid) (already : rank_map) :
  resolve_rank r = Ok r' → satisfies ctx r' u already = satisfies ctx r u already.
Proof using Type.
  unfold resolve_rank. intros H. apply bind_ok in H as (sqs & Hsqs & [= <-]). unfold satisfies.
  destruct (ctx_distributors ctx !! u) as [p|]; [|done]. cbn [qualification required_products window tenure name structures].
  do 3 f_equal. change (all_outcome (structure_meets ctx r u p already) sqs = all_outcome (structure_meets ctx r u p already) (structures (qualification r))).
  apply map_outcome_ok in Hsqs. induction Hsqs as [|sq sq' l l' Hsq _ IH]; [done|]. cbn [all_outcome]. rewrite IH.
  f_equal. destruct (resolve_cap_same sq sq' Hsq) as (Hcap & H1 & H2 & H3 & H4 & H5 & H6).
  unfold structure_meets, group_error, count_error, leg_error. by rewrite Hcap, H1, H2, H3, H4, H5, H6.
Qed.

(** C21. A period's evaluation never panics, never diverges and never reports that
    it did not converge. Distributors in some tree get the least fixpoint of the
    ladder with its caps resolved and the period's volume; the others the lowest
    rank; nobody else is ranked. Each error is true of the inputs: it names a
    missing history, structure, rank, tree membership or input, or an exact
    result that no decimal holds, with the kind of that refusal: a fraction cap,
    a distributor's volume over the first sources, or, of a distributor's
    criteria, the volume at and below a member or the capped total of the legs. *)
Theorem evaluate_ranks_exact (ranks : list (RankDefinition D)) (trees : gmap string T) (inputs : EvaluationInputs D) :
  (∀ s t, trees !! s = Some t → inv t) →
  (N.of_nat (size (distributors inputs)) * (N.of_nat (length ranks) + 1) + 1 ≤ u64_max)%N →
  returns (period_ranks trees ranks inputs) (period_fault trees ranks inputs) (evaluate_ranks ranks trees inputs).
Proof using DecimalLaws0 NavigatorLaws0. intros Hinv Hsize. by apply (evaluate_ranks_spec inv). Qed.
End results.
