(* ===== verification/RankExamples.v ===== *)
(** * A concrete rank evaluation

    Four distributors in two structures whose orders disagree: silver asks for a
    bronze below in the unilevel tree, gold for a silver below in the binary tree,
    so one deepest-first pass is not enough. *)

From stdpp Require Import base numbers list gmap sorting strings.
From Stdlib Require Import ZArith Lia.
From S2P Require Import Prelude RustDecimal Dec TreeTypes Arena ArenaWf Unilevel ArenaRestore SlotMap Binary Navigator TreeExamples CommissionTypes Rank RankFix RankFaults RankTheorems.
Import Ref Rank.

Module RankWitness.
#[local] Open Scope string_scope.

Abbreviation money m s := (Authored (of_mantissa m s)).
Abbreviation forest := (Unilevel.Unilevel.UnilevelTree + Binary.Binary.BinaryTree)%type.

(** 5 at the top, 1 and 2 below, 4 below 1. *)
Definition pair_ops : list BinarySpec.op :=
  [BinarySpec.AddRoot 5 0; BinarySpec.AddNode 1 5 0 5 0; BinarySpec.AddNode 2 5 1 5 0; BinarySpec.AddNode 4 1 0 5 0].
Definition pair : Binary.Binary.BinaryTree :=
  match run BinarySpec.exec Binary.Binary.new pair_ops with Ok (t, _) => t | _ => Binary.Binary.new end.

Definition trees : gmap string forest := {["main" := inl UnilevelWitness.tree; "pair" := inr pair]}.
Definition forest_wf : forest → Prop := sum_rect _ (λ t, arena_wf (Unilevel.Unilevel.arena t)) Binary.Binary.binary_wf.

Lemma pair_wf : Binary.Binary.binary_wf pair.
Proof.
  apply reachable_binary_wf. apply (BinaryWitness.binary_run_reachable pair_ops Binary.Binary.new _ [inl []; inl []; inl []; inl []]);
    [apply rtc_refl|]. vm_compute. reflexivity.
Qed.

Lemma trees_wf s t : trees !! s = Some t → forest_wf t.
Proof.
  unfold trees. rewrite lookup_insert_Some, lookup_singleton_Some. intros [[_ <-]|[_ [_ <-]]]; [|apply pair_wf].
  apply validate_restored_sound. vm_compute. reflexivity.
Qed.

Definition criteria s pv gv fraction count legs : StructureQualification rdec :=
  mkStructure s (money pv 0) (money gv 0) (money 0 0) (money fraction 1) (money 0 0) count legs.
Definition qualified sqs w t : RankQualification rdec := mkQualification sqs [] w t.

(** Bronze: the base. Silver: 50 personal and 120 group volume, no leg above 60%
    of it, one person of rank bronze below. Gold: a leg with a silver, and a
    silver in one of the last two periods. *)
Definition bronze : RankDefinition rdec := mkRankDefinition "bronze" 1 (qualified [] None None) [] PromotionOnly.
Definition silver : RankDefinition rdec :=
  mkRankDefinition "silver" 2
    (qualified [criteria "main" 50 120 6 (Some (mkCount 1 "bronze" AnyLevel None 1 (money 10 0))) []] None None) [] PromotionOnly.
Definition gold : RankDefinition rdec :=
  mkRankDefinition "gold" 3
    (qualified [criteria "pair" 50 0 0 None [mkLegQuality 1 (ContainsRank "silver")]] (Some (mkWindow "silver" 1 2)) None)
    [] (Grace (mkGrace 2 Months)).
Definition ranks : list (RankDefinition rdec) := [gold; bronze; silver].

Definition person pv : DistributorPrimitives rdec := mkPrimitives (money pv 0) (money 0 0) "active" true [].
Definition inputs : EvaluationInputs rdec :=
  mkInputs {[1%N := person 100; 2%N := person 80; 4%N := person 10; 5%N := person 60; 9%N := person 500]}
    [mkSource 2 (money 40 0); mkSource 4 (money 30 0); mkSource 5 (money 605 1)]
    ["2026-06"; "2026-05"] {[5%N := {["2026-06" := Some 2%N; "2026-05" := None]}]}.

Definition result : outcome (EvaluationError rdec) rank_map := evaluate_ranks ranks trees inputs.

(** More volume for 2 than 96 bits hold. *)
Definition flooded : EvaluationInputs rdec :=
  mkInputs (distributors inputs) [mkSource 2 (money (2 ^ 96 - 1) 0); mkSource 4 (money 1 0); mkSource 2 (money 1 0)]
    (history_window inputs) (history inputs).
Definition flood_error : NumericError rdec :=
  match evaluate_ranks ranks trees flooded with Err (Rank.Numeric x) => x | _ => mkNumericError OpMul rd_zero rd_zero Precision end.

(** 5 is gold through 1, which is evaluated after it; 9 is in no tree. *)
Lemma evaluate_ranks_exact_witness :
  ((λ m : rank_map, (λ u, m !! u) <$> [1; 2; 4; 5; 9; 3]%N) <$> result =
    Ok [Some (Qualified "silver" 2); Some (Qualified "silver" 2); Some (Qualified "bronze" 1);
        Some (Qualified "gold" 3); Some (Qualified "bronze" 1); None] ∧
  returns (period_ranks trees ranks inputs) (period_fault trees ranks inputs) (evaluate_ranks ranks trees inputs)) ∧
  evaluate_ranks ranks trees flooded = Err (Rank.Numeric flood_error) ∧ err_kind flood_error = Overflow ∧
  period_fault trees ranks flooded (Rank.Numeric flood_error).
Proof.
  split; [split; [vm_compute; reflexivity|]; apply (evaluate_ranks_exact forest_wf); [exact trees_wf|]; vm_compute; discriminate|].
  assert (E : evaluate_ranks ranks trees flooded = Err (Rank.Numeric flood_error)) by (vm_compute; reflexivity).
  split_and!; [exact E|vm_compute; reflexivity|].
  pose proof (evaluate_ranks_exact forest_wf ranks trees flooded trees_wf) as H. rewrite E in H. apply H. vm_compute. discriminate.
Defined.

Definition ranks' : list (RankDefinition rdec) := match resolve_fraction_caps (ladder ranks) with Ok l => l | _ => [] end.
Definition volume : gmap Uuid rdec := match build (volume_sources inputs) with Ok v => v | _ => ∅ end.
Definition ctx : EvalCtx rdec forest :=
  mkCtx (distributors inputs) ranks' trees volume (ordinals_of ranks') (history_window inputs) (history inputs).

Lemma ranks_sorted : StronglySorted (λ a b, (ordinal a ≤ ordinal b)%N) (ctx_ranks ctx).
Proof. apply (resolved_sorted ranks). vm_compute. reflexivity. Qed.

(** Nobody else is ranked yet, so 5 is not gold yet; 1 meets silver once someone
    below is bronze. *)
Lemma evaluate_distributor_exact_witness :
  evaluate_distributor ctx 5 ∅ = Ok (Qualified "bronze" 1) ∧
  evaluate_distributor ctx 1 {[4%N := Qualified "bronze" 1]} = Ok (Qualified "silver" 2) ∧
  returns (assigned ctx ∅ 5) (eval_fault ctx) (evaluate_distributor ctx 5 ∅).
Proof.
  split; [vm_compute; reflexivity|]. split; [vm_compute; reflexivity|].
  apply (evaluate_distributor_exact forest_wf). exact trees_wf.
Defined.

Definition order : list Uuid := [5; 4; 1; 2]%N.

Lemma rank_fixpoint_least_witness :
  evaluation_order_for_users trees [1; 2; 4; 5; 9]%N = @Ok (EvaluationError rdec) _ order ∧
  (λ m : rank_map, m !! 5%N) <$> iterate_to_fixpoint ctx order = Ok (Some (Qualified "gold" 3)) ∧
  returns (least_fixpoint ctx order) (no_fixpoint ctx order) (iterate_to_fixpoint ctx order).
Proof.
  split; [vm_compute; reflexivity|]. split; [vm_compute; reflexivity|].
  apply (rank_fixpoint_least forest_wf); [exact trees_wf|exact ranks_sorted|]. vm_compute. discriminate.
Defined.

Definition final : rank_map := match iterate_to_fixpoint ctx order with Ok m => m | _ => ∅ end.

Lemma rank_order_irrelevant_witness :
  iterate_to_fixpoint ctx order = Ok final ↔ iterate_to_fixpoint ctx [2; 1; 4; 5]%N = Ok final.
Proof.
  apply (rank_order_irrelevant forest_wf); [exact trees_wf|exact ranks_sorted|vm_compute; discriminate|].
  apply (Permutation_rev [5; 4; 1; 2]%N).
Defined.

Definition silver' : RankDefinition rdec := default silver (ranks' !! 1).

Lemma resolve_caps_irrelevant_witness :
  (dec ∘ max_group_volume_per_leg <$> head (structures (qualification silver')) = Some (of_mantissa 720 1)) ∧
  satisfies ctx silver' 1 final = satisfies ctx silver 1 final.
Proof.
  split; [vm_compute; reflexivity|]. apply (resolve_caps_irrelevant ctx silver silver'). vm_compute. reflexivity.
Defined.
End RankWitness.
