(* ===== verification/Collector.v ===== *)
(** * What every calculator's collector guarantees

    The emitters append walks and earnings to one collector. [collected] is what
    they maintain: walk [k] carries id [k]; an earning that names a walk is the paid
    step of that walk at its own level; and a walk pays a level at most once. A
    source that adds a [block] keeps it, a level walk is a sequence of blocks, and
    [assemble] renumbers the walks without losing it. *)

From stdpp Require Import base numbers list gmap sorting strings.
From Stdlib Require Import ZArith Lia.
From S2P Require Import Prelude RustDecimal Dec TreeTypes Navigator CommissionTypes Walk WalkSpec WalkPrepare Currency WalkOrder Calculators.

Section collector.
Context {D : Type} `{!DecimalOps D}.
Implicit Types (e : CommissionEarning D) (es new : list (CommissionEarning D)) (w : Walk) (ws : list Walk).

(** The step of [w] that explains [e]. *)
Definition explains w e : Prop :=
  walk_source_id w = source_id e ∧ (1 ≤ level e)%N ∧
  ∃ s, steps w !! N.to_nat (level e - 1) = Some s ∧ node_id s = earner_id e ∧ step_outcome s = Paid.

Definition referring es : list (CommissionEarning D) := filter (λ e, is_Some (walk e)) es.

Record collected es ws : Prop := {
  cl_ids k w : ws !! k = Some w → walk_index w = N.of_nat k;
  cl_step e i : e ∈ es → walk e = Some i → ∃ w, ws !! N.to_nat i = Some w ∧ explains w e;
  cl_once : NoDup ((λ e, (walk e, level e)) <$> referring es);
}.

(** What one source adds: walk [w] with id [k] and the earnings [new] it pays. *)
Record block (k : N) new w : Prop := {
  bl_index : walk_index w = k;
  bl_step e : e ∈ new → walk e = Some k ∧ explains w e;
  bl_once : NoDup (level <$> new);
}.

Lemma collected_nil : collected [] [].
Proof. split; [done|by intros e i ?%elem_of_nil|constructor]. Qed.

Lemma collected_carried es ws : collected es ws → carried es ws.
Proof.
  intros [Hids Hstep _] e i He Hi. destruct (Hstep e i He Hi) as (w & Hw & _).
  apply list_elem_of_fmap. exists w. split; [rewrite (Hids _ _ Hw); lia|by eapply list_elem_of_lookup_2].
Qed.

Lemma collected_ids_nodup es ws : collected es ws → NoDup (walk_index <$> ws).
Proof.
  intros [Hids _ _]. apply NoDup_alt. intros i j x. rewrite !list_lookup_fmap.
  intros (w & Hw & ->)%fmap_Some (w' & Hw' & Heq)%fmap_Some. rewrite (Hids _ _ Hw), (Hids _ _ Hw') in Heq. lia.
Qed.

Lemma explains_irrelevant w w' e : walk_source_id w = walk_source_id w' → steps w = steps w' → explains w e → explains w' e.
Proof. unfold explains. by intros -> ->. Qed.

(** Earnings that name no walk are no concern of the collector. *)
Lemma collected_unreferring es ws new : (∀ e, e ∈ new → walk e = None) → collected es ws → collected (es ++ new) ws.
Proof.
  intros Hn [Hids Hstep Honce]. split; [done| |].
  - intros e i [He|He]%elem_of_app Hi; [by apply Hstep|]. rewrite Hn in Hi by done. done.
  - unfold referring. rewrite filter_app, (filter_all_false _ new), app_nil_r; [done|].
    intros e He. rewrite Hn by done. by intros [? ?].
Qed.

Lemma collected_snoc es ws new w : collected es ws → block (N.of_nat (length ws)) new w → collected (es ++ new) (ws ++ [w]).
Proof.
  intros [Hids Hstep Honce] [Hi Hb Hn]. split.
  - intros k w' [Hk|[Hk Hw]]%lookup_app_Some; [by apply Hids|]. apply list_lookup_singleton_Some in Hw as [H0 ->].
    rewrite Hi. lia.
  - intros e i [He|He]%elem_of_app Hwalk.
    + destruct (Hstep e i He Hwalk) as (w' & Hw' & Hx). exists w'. split; [|done]. by apply lookup_app_l_Some.
    + destruct (Hb e He) as [Hk Hx]. exists w. split; [|done]. assert (i = N.of_nat (length ws)) as -> by congruence.
      rewrite Nat2N.id. by rewrite list_lookup_middle.
  - unfold referring. rewrite filter_app, fmap_app. rewrite (filter_all_true _ new).
    2: { apply Forall_forall. intros e He. destruct (Hb e He) as [-> _]. eauto. }
    apply NoDup_app. split_and!; [done| |].
    + intros [o l] (e & [= -> ->] & [_ He]%list_elem_of_filter)%list_elem_of_fmap (e' & [= Ho Hl] & He')%list_elem_of_fmap.
      destruct (Hb e' He') as [Hk _]. rewrite Hk in Ho. destruct (Hstep e _ He Ho) as (w' & Hw' & _).
      apply lookup_lt_Some in Hw'. lia.
    + apply (NoDup_fmap_1 snd). rewrite <- list_fmap_compose. exact Hn.
Qed.

Lemma collected_blocks ess nws es ws : collected es ws → length ess = length nws →
  (∀ i l w, ess !! i = Some l → nws !! i = Some w → block (N.of_nat (length ws + i)) l w) →
  collected (es ++ concat ess) (ws ++ nws).
Proof.
  revert nws es ws. induction ess as [|l ess IH]; intros [|w nws] es ws Hc Hlen Hb; try done; cbn.
  { by rewrite !app_nil_r. }
  rewrite (cons_middle w), !app_assoc. apply IH.
  - apply collected_snoc; [done|]. rewrite <- (Nat.add_0_r (length ws)). by apply (Hb 0).
  - by injection Hlen.
  - intros i l' w' Hl Hw. rewrite length_app. cbn. replace (length ws + 1 + i) with (length ws + S i) by lia.
    by apply (Hb (S i)).
Qed.

(** ** Level walks are blocks *)
Lemma paid_levels_elem l u n : (u, n) ∈ paid_levels l ↔
  (1 ≤ n)%N ∧ ∃ s, l !! N.to_nat (n - 1) = Some s ∧ node_id s = u ∧ step_outcome s = Paid.
Proof.
  unfold paid_levels. rewrite list_elem_of_omap. split.
  - intros ([i s] & Hi%elem_of_enumerate & Hs). destruct (step_outcome s) eqn:Ho; [|done]. injection Hs as <- <-.
    split; [lia|]. exists s. by replace (N.to_nat (N.of_nat i + 1 - 1)) with i by lia.
  - intros (Hn & s & Hs & <- & Ho). exists (N.to_nat (n - 1), s). rewrite elem_of_enumerate. split; [done|].
    rewrite Ho. do 2 f_equal. lia.
Qed.

Lemma paid_levels_nodup l : NoDup (paid_levels l).*2.
Proof.
  induction l as [|s l IH] using rev_ind; [constructor|]. rewrite paid_levels_snoc, fmap_app.
  destruct (step_outcome s); cbn; [|by rewrite app_nil_r]. apply NoDup_app. split_and!; [done| |apply NoDup_singleton].
  intros n ([u n'] & -> & (Hn & s' & Hs' & _)%paid_levels_elem)%list_elem_of_fmap Heq%list_elem_of_singleton.
  cbn in *. apply lookup_lt_Some in Hs'. lia.
Qed.
End collector.

Section level_blocks.
Context {D : Type} `{!DecimalOps D, !DecimalLaws D}.
Context {T : Type} `{!TreeNavigator T} (inv : T → Prop) `{!NavigatorLaws T inv}.
Context (tree : T) (Hinv : inv tree) (cfg : LevelWalkConfig (D := D)) (cache : gmap Uuid EligibilityResult).
Context (snapshots : gmap Uuid (DistributorSnapshot D)) (should_stop : Uuid → bool).
Context (Hdepth : (max_depth cfg ≤ 255)%N).

Lemma audited_block src k es w : audited tree cfg cache snapshots should_stop src k es w → block k es w.
Proof.
  intros Ha. destruct (au_walk _ _ _ _ _ _ _ _ _ Ha) as (Hi & Hsrc & _). split; [done| |].
  - intros e He. pose proof (au_good _ _ _ _ _ _ _ _ _ Ha) as Hg. rewrite Forall_forall in Hg.
    destruct (Hg e He) as (G1 & G2 & _). split; [done|]. split; [congruence|]. apply paid_levels_elem.
    rewrite <- (au_paid _ _ _ _ _ _ _ _ _ Ha). apply list_elem_of_fmap. by exists e.
  - pose proof (paid_levels_nodup (steps w)) as Hn. rewrite <- (au_paid _ _ _ _ _ _ _ _ _ Ha), <- list_fmap_compose in Hn. done.
Qed.

(** A level walk leaves a collector of one walk per source. *)
Lemma level_collected volume es ws : (N.of_nat (length volume) ≤ 2 ^ 32)%N →
  walk_level_commissions tree cfg cache snapshots volume should_stop [] = Ok (es, ws) →
  collected es ws ∧ length ws = length volume ∧ ∀ e, e ∈ es → is_Some (walk e).
Proof using All.
  intros Hlen Hrun. destruct (walk_level_audit inv tree Hinv cfg cache snapshots should_stop Hdepth volume es ws Hlen Hrun)
    as (ess & -> & L1 & L2 & Hall).
  assert (Hb : ∀ i l w, ess !! i = Some l → ws !! i = Some w → block (N.of_nat i) l w).
  { intros i l w Hl Hw. destruct (lookup_lt_is_Some_2 volume i) as [src Hsrc]; [rewrite <- L1; by eapply lookup_lt_Some|].
    destruct (Hall i src Hsrc) as (l' & w' & Hl' & Hw' & Ha). simplify_eq. by eapply audited_block. }
  split_and!; [|done|].
  - apply (collected_blocks ess ws [] [] collected_nil); [by rewrite L1|exact Hb].
  - intros e (l & [i Hi]%list_elem_of_lookup & He)%elem_of_concat.
    destruct (lookup_lt_is_Some_2 ws i) as [w Hw]; [rewrite L2, <- L1; by eapply lookup_lt_Some|].
    destruct (bl_step _ _ _ (Hb i l w Hi Hw) e He) as [-> _]. eauto.
Qed.
End level_blocks.

(** ** Assembly *)
Section assembly.
Context {D : Type} `{!DecimalOps D}.
Implicit Types (e : CommissionEarning D) (es : list (CommissionEarning D)) (ws : list Walk).

(** An earning less its reference, and with its money rounded. *)
Definition unreferred e : CommissionEarning D := with_walk e None.
Definition rounded (places : N) e : CommissionEarning D :=
  mkEarning (earner_id e) (source_id e) (level e) (rate e) (cv_amount e)
    (round_minor (dollar_amount e) (Z.of_N places)) (walk e).

Section remap.
Context (es : list (CommissionEarning D)) (ws : list Walk) (volume : list (VolumeSource D)) (ordinals : gmap string N) (places : N).
Context (Hc : collected es ws) (Hlen : (N.of_nat (length ws) ≤ 2 ^ 32)%N).
Abbreviation remap := (assign_indexes ws volume ordinals).2.
Abbreviation ws' := (assign_indexes ws volume ordinals).1.
Definition translate (p : option N * N) : option N * N := (i ← p.1; remap !! i, p.2).

(** The walk behind a reference, before and after. *)
Lemma referred e i : e ∈ es → walk e = Some i → ∃ w k, ws !! N.to_nat i = Some w ∧ explains w e ∧ walk_index w = i ∧
  remap !! i = Some (N.of_nat k) ∧ ws' !! k = Some (set_index w (N.of_nat k)).
Proof using Hc Hlen.
  intros He Hi. destruct (cl_step _ _ Hc e i He Hi) as (w & Hw & Hx).
  assert (walk_index w = i) as Hi' by (rewrite (cl_ids _ _ Hc _ _ Hw); lia).
  destruct (remapped volume ordinals ws w (collected_ids_nodup _ _ Hc) Hlen) as (k & Hk & Hk'); [by eapply list_elem_of_lookup_2|].
  exists w, k. rewrite Hi' in Hk. by split_and!.
Qed.

Lemma remap_separates i1 i2 x : remap !! i1 = Some x → remap !! i2 = Some x → i1 = i2.
Proof using Hc Hlen.
  pose proof (collected_ids_nodup _ _ Hc) as Hnd.
  intros (k1 & w1 & H1 & <- & ->)%(remap_Some _ _ _ _ _ Hnd) (k2 & w2 & H2 & <- & Hx)%(remap_Some _ _ _ _ _ Hnd).
  rewrite (position_small _ _ _ _ _ Hlen H1), (position_small _ _ _ _ _ Hlen H2) in Hx.
  assert (k1 = k2) as -> by lia. congruence.
Qed.

Lemma final_refers e : e ∈ es → is_Some (walk (final places remap e)) ↔ is_Some (walk e).
Proof using Hc Hlen.
  intros He. unfold final. cbn [walk]. destruct (walk e) as [i|] eqn:Hi; cbn [mbind option_bind]; [|done].
  destruct (referred e i He Hi) as (w & k & _ & _ & _ & Hr & _). rewrite Hr. split; eauto.
Qed.

Lemma translate_inj e1 e2 : e1 ∈ referring es → e2 ∈ referring es →
  translate (walk e1, level e1) = translate (walk e2, level e2) → (walk e1, level e1) = (walk e2, level e2).
Proof using Hc Hlen.
  intros [[i1 H1] He1]%list_elem_of_filter [[i2 H2] He2]%list_elem_of_filter. rewrite H1, H2. intros [= Hr ->].
  destruct (referred e1 i1 He1 H1) as (w1 & k1 & _ & _ & _ & R1 & _). change (remap !! i1 = remap !! i2) in Hr. rewrite R1 in Hr. symmetry in Hr.
  by rewrite (remap_separates _ _ _ R1 Hr).
Qed.

Lemma remapped_once : NoDup ((λ e, (walk e, level e)) <$> referring (sort_earnings (final places remap <$> es))).
Proof using Hc Hlen.
  unfold referring, sort_earnings. rewrite sort_by_perm, list_filter_fmap.
  rewrite (filter_iff_in _ (λ e, is_Some (walk e))) by (intros e He; by apply final_refers).
  change (NoDup ((λ e, (walk e, level e)) <$> (final places remap <$> referring es))). rewrite <- list_fmap_compose.
  change (NoDup ((λ e, translate (walk e, level e)) <$> referring es)).
  rewrite (list_fmap_compose (λ e, (walk e, level e)) translate). apply NoDup_fmap_2_strong; [|apply (cl_once _ _ Hc)].
  intros x y (e1 & -> & He1)%list_elem_of_fmap (e2 & -> & He2)%list_elem_of_fmap. by apply translate_inj.
Qed.

Lemma remapped_collected : collected (sort_earnings (final places remap <$> es)) ws'.
Proof using Hc Hlen.
  split; [| |exact remapped_once].
  - intros k w (w0 & Hk & ->)%assigned_lookup. cbn. by eapply position_small.
  - intros e' j He' Hj. unfold sort_earnings in He'. rewrite sort_by_perm in He'. apply list_elem_of_fmap in He' as (e & -> & He).
    unfold final in Hj. cbn [walk] in Hj. destruct (walk e) as [i|] eqn:Hi; cbn [mbind option_bind] in Hj; [|done].
    destruct (referred e i He Hi) as (w & k & _ & Hx & _ & Hr & Hk). rewrite Hr in Hj. injection Hj as <-.
    exists (set_index w (N.of_nat k)). rewrite Nat2N.id. split; [done|]. exact Hx.
Qed.
End remap.

(** Assembly succeeds, keeps the collector's promises, and the earnings but for the rounding. *)
Lemma assemble_collected {E} es ws volume ordinals identity places : collected es ws →
  (N.of_nat (length ws) ≤ 2 ^ 32)%N → ∃ res, assemble (E := E) es ws volume ordinals identity places = Ok res ∧
  collected (earnings res) (walks res) ∧ length (walks res) = length ws ∧ plan_identity res = identity ∧
  unreferred <$> earnings res ≡ₚ unreferred ∘ rounded places <$> es ∧
  ((∀ e, e ∈ es → is_Some (walk e)) → ∀ e, e ∈ earnings res → is_Some (walk e)).
Proof.
  intros Hc Hlen. eexists. split; [apply assemble_ok; [by eapply collected_ids_nodup|by apply collected_carried]|].
  cbn [earnings walks plan_identity]. split_and!.
  - by apply remapped_collected.
  - unfold assign_indexes. cbn [fst]. by rewrite length_fmap, length_enumerate, sorted_length.
  - done.
  - unfold sort_earnings. rewrite sort_by_perm, <- list_fmap_compose. done.
  - intros Hall e. unfold sort_earnings. rewrite sort_by_perm. intros (e0 & -> & He0)%list_elem_of_fmap.
    eapply final_refers; eauto.
Qed.
End assembly.

(** ** The refusals the calculators share *)
Section faults.
Context {D : Type} `{!DecimalOps D}.
Context {T : Type} `{!TreeNavigator T} (inv : T → Prop) `{!NavigatorLaws T inv}.
Context (tree : T) (plan : CompensationPlan D) (snapshots : gmap Uuid (DistributorSnapshot D)) (volume : list (VolumeSource D)).

(** What a refusal says of the inputs. *)
Definition calculation_fault (e : CalculationError D) : Prop :=
  match e with
  | UnknownCurrency c => c = base_currency (volume_config plan) ∧ minor_units c = None
  | UnknownSnapshotRank u _ => bad_rank plan snapshots u ∧ ∀ v, bad_rank plan snapshots v → (u ≤ v)%N
  | InvalidPersonalVolume u _ => bad_volume snapshots u ∧ ∀ v, bad_volume snapshots v → (u ≤ v)%N
  | DistributorNotInSnapshot u => contains tree u = true ∧ snapshots !! u = None ∧
      ∀ v, contains tree v = true → snapshots !! v = None → (u ≤ v)%N
  | e => source_fault tree volume e
  end.

Definition valid_inputs : Prop :=
  (∀ u, ¬ bad_rank plan snapshots u) ∧ (∀ u, ¬ bad_volume snapshots u) ∧
  ∀ u, contains tree u = true → is_Some (snapshots !! u).

Lemma source_fault_calculation e : source_fault tree volume e → calculation_fault e.
Proof. by destruct e. Qed.

Context (Hinv : inv tree).

Lemma validated : returns (λ _, valid_inputs) calculation_fault (validate_snapshots plan snapshots (user_ids tree)).
Proof using Hinv NavigatorLaws0.
  pose proof (validate_snapshots_spec plan snapshots (user_ids tree)) as Hval. unfold valid_inputs.
  destruct (validate_snapshots plan snapshots (user_ids tree)) as [[]|e| |]; cbn; [|destruct e; cbn; try done|done..];
    repeat setoid_rewrite (nav_user_ids tree _ Hinv) in Hval; naive_solver.
Qed.

Lemma source_validated src : valid_inputs → src ∈ volume →
  returns (λ _, good_source tree src) calculation_fault (_ ← validate_source tree snapshots src; Ok ()).
Proof using Hinv NavigatorLaws0.
  intros (_ & _ & Hcov) Hsrc. unfold validate_source, validate_cv, refuse_if, good_source.
  destruct (is_negative (dec (vs_cv_amount src))) eqn:Hneg; cbn [mbind outcome_bind returns]; [cbn; eauto|].
  destruct (contains tree (vs_source_id src)) eqn:Hc.
  - destruct (nav_upline tree _ Hinv Hc) as (ns & Hns & _). rewrite Hns. cbn.
    destruct (Hcov _ Hc) as [s Hs]. by rewrite bool_decide_eq_false_2 by congruence.
  - rewrite (nav_upline_unknown tree _ Hinv Hc). cbn. eauto.
Qed.
End faults.
