(* ===== verification/Generation.v ===== *)
(** * The generation calculator: [commission/generation.rs] and [config/generation.rs]

    Commissions by generations of qualified leaders. From each volume source the
    upline is walked and the leaders met are numbered; a leader is paid the rate of
    its number. In [ThresholdRank] mode the leaders are those at or above one rank;
    in [SameRank] mode each rank has its own pass, in which the leaders are those at
    or above it and only those exactly at it are paid.

    A [u8] counter that would pass 255 panics. Log lines and the debug assertion on
    the collector's length are left out. *)

From stdpp Require Import base numbers list gmap sorting strings.
From Stdlib Require Import ZArith Lia.
From S2P Require Import Prelude RustDecimal Dec TreeTypes Arena Unilevel Navigator CommissionTypes Walk Currency WalkOrder.

Module Generation.
Inductive GenerationBoundaryMode := ThresholdRank | SameRank.

Record GenerationCommissionConfig (D : Type) := mkGeneration {
  max_generations : N;
  max_generations_per_rank : gmap string N;
  rates : gmap N (AuthoredDec D);
  boundary_mode : GenerationBoundaryMode;
  boundary_rank : string;
  empty_generation_consumes_number : bool;
  volume_to_dollar_multiplier : option (AuthoredDec D);
  ineligible_creates_boundary : bool;
}.
Arguments mkGeneration {D} _ _ _ _ _ _ _ _.
Arguments max_generations {D} _.
Arguments max_generations_per_rank {D} _.
Arguments rates {D} _.
Arguments boundary_mode {D} _.
Arguments boundary_rank {D} _.
Arguments empty_generation_consumes_number {D} _.
Arguments volume_to_dollar_multiplier {D} _.
Arguments ineligible_creates_boundary {D} _.

Record GenerationStructureConfig (D : Type) := mkGenerationStructure {
  gs_name : string;
  level_commission : option (LevelCommissionConfig D);
  gs_compression : option CompressionConfig;
  generation_commission : GenerationCommissionConfig D;
  level_commissions_enabled : bool;
}.
Arguments mkGenerationStructure {D} _ _ _ _ _.
Arguments gs_name {D} _.
Arguments level_commission {D} _.
Arguments gs_compression {D} _.
Arguments generation_commission {D} _.
Arguments level_commissions_enabled {D} _.

Record GenerationEntry := mkEntry { ge_earner_id : Uuid; ge_generation : N }.

Definition u8_add {E} (a b : N) : outcome E N := if (a + b <=? 255)%N then Ok (a + b)%N else Panic.

Section generation.
Context {D : Type} `{!DecimalOps D}.
Abbreviation calc := (outcome (CalculationError D)).

Definition earner_max_generations (rank : string) (cfg : GenerationCommissionConfig D) : N :=
  default (max_generations cfg) (max_generations_per_rank cfg !! rank).

(** [values().copied().max()]: the greatest entry of the map. *)
Definition walk_depth (cfg : GenerationCommissionConfig D) : N :=
  match (map_to_list (max_generations_per_rank cfg)).*2 with
  | [] => max_generations cfg
  | x :: l => N.max (foldl N.max x l) (max_generations cfg)
  end.

(** ** Counting generations *)

(** The loop's variables. *)
Record climb := mkClimb {
  c_gen : N;
  c_steps : list WalkStep;
  c_results : list GenerationEntry;
}.

(** A node below the limit: leaders that pass the check are numbered, others may
    consume a number. *)
Definition climb_node {E} (breakaway_set : gset Uuid) (boundary_check : Uuid → bool) (empty_consumes : bool)
  (rank_of : Uuid → option string) (st : climb) (u : Uuid) : outcome E climb :=
  if bool_decide (u ∉ breakaway_set) then Ok st
  else if boundary_check u then
    gen ← u8_add (c_gen st) 1;
    Ok (mkClimb gen (c_steps st ++ [mkStep u Paid true (rank_of u)]) (c_results st ++ [mkEntry u gen]))
  else if empty_consumes then
    gen ← u8_add (c_gen st) 1;
    Ok (mkClimb gen (c_steps st ++ [mkStep u Forfeited true (rank_of u)]) (c_results st))
  else Ok st.

Fixpoint climb_nodes {E} (turn : climb → Uuid → outcome E climb) (max_generations : N) (st : climb) (upline : list Node)
  : outcome E (climb * WalkStop * option Uuid) :=
  match upline with
  | [] => Ok (st, RootReached, None)
  | n :: upline' =>
      if (max_generations <=? c_gen st)%N then Ok (st, MaxGenerationsReached, Some (user_id n))
      else st ← turn st (user_id n); climb_nodes turn max_generations st upline'
  end.

Definition count_generations_upward_instrumented {E} (tree : Unilevel.Unilevel.UnilevelTree) (start_id : Uuid)
  (breakaway_set : gset Uuid) (boundary_check : Uuid → bool) (max_generations : N) (empty_consumes : bool)
  (snapshots : option (gmap Uuid (DistributorSnapshot D))) (walks : list Walk) : outcome E (list GenerationEntry * list Walk) :=
  match get_upline tree start_id 0 with
  | Err _ => Ok ([], walks)
  | Panic => Panic
  | Hang => Hang
  | Ok upline =>
      let collector_id := (N.of_nat (length walks) mod 2 ^ 32)%N in
      let rank_of := λ u, rank <$> (s ← snapshots; s !! u) in
      '(st, why, at_) ← climb_nodes (climb_node breakaway_set boundary_check empty_consumes rank_of) max_generations
                          (mkClimb 0 [] []) upline;
      Ok (c_results st, walks ++ [mkWalk collector_id start_id Generation None None (c_steps st) why at_])
  end.

Definition count_generations_upward {E} (tree : Unilevel.Unilevel.UnilevelTree) (start_id : Uuid)
  (breakaway_set : gset Uuid) (boundary_check : Uuid → bool) (max_generations : N) (empty_consumes : bool)
  : outcome E (list GenerationEntry) :=
  '(entries, _) ← count_generations_upward_instrumented tree start_id breakaway_set boundary_check max_generations
                    empty_consumes None [];
  Ok entries.

(** ** Earnings *)
Definition is_payable (cache : gmap Uuid EligibilityResult) (u : Uuid) : bool :=
  match cache !! u with Some e => eligible e | None => false end.

Definition emit_one (source : VolumeSource D) (cfg : GenerationCommissionConfig D) (cache : gmap Uuid EligibilityResult)
  (multiplier : D) (collector_id : N) (es : list (CommissionEarning D)) (entry : GenerationEntry)
  : outcome (NumericError D) (list (CommissionEarning D)) :=
  if negb (is_payable cache (ge_earner_id entry)) then Ok es
  else
    let r := from_option dec DZERO (rates cfg !! ge_generation entry) in
    if dec_leb r DZERO then Ok es
    else
      let cv := dec (vs_cv_amount source) in
      x ← try_mul cv multiplier;
      x ← try_mul x r;
      Ok (es ++ [mkEarning (ge_earner_id entry) (vs_source_id source) (ge_generation entry) (Some r) cv x (Some collector_id)]).

Definition emit_generation_earnings (entries : list GenerationEntry) (source : VolumeSource D)
  (cfg : GenerationCommissionConfig D) (cache : gmap Uuid EligibilityResult) (multiplier : D) (collector_id : N)
  (es : list (CommissionEarning D)) : outcome (NumericError D) (list (CommissionEarning D)) :=
  fold_outcome (emit_one source cfg cache multiplier collector_id) es entries.

(** The users at or above an ordinal; an unknown rank is 0. *)
Definition ordinal_in (ordinals : gmap string N) (snap : DistributorSnapshot D) : N := default 0%N (ordinals !! rank snap).

Definition at_or_above (ordinals : gmap string N) (threshold : N) (snapshots : gmap Uuid (DistributorSnapshot D)) : gset Uuid :=
  dom (filter (λ e, (threshold ≤ ordinal_in ordinals e.2)%N) snapshots).

Definition boundary_check (cfg : GenerationCommissionConfig D) (cache : gmap Uuid EligibilityResult) (u : Uuid) : bool :=
  if ineligible_creates_boundary cfg then true else is_payable cache u.

(** The rank pairs present among the snapshots, by ordinal and then name. *)
Definition unique_ranks (ordinals : gmap string N) (snapshots : gmap Uuid (DistributorSnapshot D)) : list (string * N) :=
  let pairs : gset (string * N) :=
    list_to_set (omap (λ e, (λ o, (rank e.2, o)) <$> ordinals !! rank e.2) (map_to_list snapshots)) in
  sort_by (λ x y, then_with (x.2 ?= y.2)%N (String.compare x.1 y.1)) (elements pairs).

Definition with_rank (rank_name : string) (w : Walk) : Walk :=
  mkWalk (walk_index w) (walk_source_id w) (walk_kind w) (stream_id w) (Some rank_name) (steps w) (stop w) (stopped_at w).

Section calculation.
Context (tree : Unilevel.Unilevel.UnilevelTree) (cfg : GenerationCommissionConfig D) (ordinals : gmap string N).
Context (cache : gmap Uuid EligibilityResult) (snapshots : gmap Uuid (DistributorSnapshot D)) (multiplier : D).

(** One traversal: the entries that [keep] admits are paid; [stamp] marks the walk. *)
Definition pay_source (leaders : gset Uuid) (limit : N) (keep : GenerationEntry → bool) (stamp : Walk → Walk)
  (acc : list (CommissionEarning D) * list Walk) (source : VolumeSource D)
  : calc (list (CommissionEarning D) * list Walk) :=
  let '(es, ws) := acc in
  let collector_id := (N.of_nat (length ws) mod 2 ^ 32)%N in
  '(entries, ws) ← count_generations_upward_instrumented tree (vs_source_id source) leaders (boundary_check cfg cache) limit
                     (empty_generation_consumes_number cfg) (Some snapshots) ws;
  let k := N.to_nat collector_id in
  let ws := take k ws ++ (stamp <$> drop k ws) in
  es ← map_err Numeric (emit_generation_earnings (filter (λ e, keep e = true) entries) source cfg cache multiplier collector_id es);
  Ok (es, ws).

Definition threshold_rank (threshold : N) (volume : list (VolumeSource D)) (acc : list (CommissionEarning D) * list Walk)
  : calc (list (CommissionEarning D) * list Walk) :=
  let within := λ e, match snapshots !! ge_earner_id e with
                     | Some s => (ge_generation e <=? earner_max_generations (rank s) cfg)%N
                     | None => (ge_generation e <=? earner_max_generations EmptyString cfg)%N
                     end in
  fold_outcome (pay_source (at_or_above ordinals threshold snapshots) (walk_depth cfg) within (λ w, w)) acc volume.

Definition same_rank_pass (volume : list (VolumeSource D)) (acc : list (CommissionEarning D) * list Walk) (r : string * N)
  : calc (list (CommissionEarning D) * list Walk) :=
  let '(rank_name, ord) := r in
  let same := λ e, bool_decide (from_option (λ s, default 0%N (ordinals !! rank s)) 0%N (snapshots !! ge_earner_id e) = ord) in
  fold_outcome (pay_source (at_or_above ordinals ord snapshots) (earner_max_generations rank_name cfg) same (with_rank rank_name))
    acc volume.

Definition same_rank (volume : list (VolumeSource D)) (acc : list (CommissionEarning D) * list Walk)
  : calc (list (CommissionEarning D) * list Walk) :=
  fold_outcome (same_rank_pass volume) acc (unique_ranks ordinals snapshots).
End calculation.

(** The level commissions that may run beside the generations. *)
Definition level_part (tree : Unilevel.Unilevel.UnilevelTree) (plan : CompensationPlan D) (structure : GenerationStructureConfig D)
  (ordinals : gmap string N) (cache : gmap Uuid EligibilityResult) (snapshots : gmap Uuid (DistributorSnapshot D))
  (volume : list (VolumeSource D)) : calc (list (CommissionEarning D) * list Walk) :=
  if level_commissions_enabled structure then
    lc ← ok_or (level_commission structure)
           (ConfigError "generation level_commissions_enabled is true and level_commission is absent");
    let mult := default (vc_volume_to_dollar_multiplier (volume_config plan)) (lc_volume_to_dollar_multiplier lc) in
    let comp := gs_compression structure in
    let config := mkLevelWalkConfig (lc_max_depth lc) (dec (broad_commission_percent lc)) (dec mult) comp
                    (resolve_threshold_ordinal comp ordinals) ordinals (rate_table lc) None None in
    walk_level_commissions tree config cache snapshots volume (λ _, false) []
  else Ok ([], []).

Definition calculate_generation (tree : Unilevel.Unilevel.UnilevelTree) (plan : CompensationPlan D)
  (structure : GenerationStructureConfig D) (snapshots : gmap Uuid (DistributorSnapshot D))
  (volume : list (VolumeSource D)) (identity : PlanIdentity) : calc (CommissionCalculationResult D) :=
  minor_units ← plan_minor_units plan;
  validate_snapshots plan snapshots (user_ids tree);;
  let cfg := generation_commission structure in
  let ordinals := build_rank_ordinals plan in
  cache ← evaluate_eligibility snapshots tree (eligibility plan);
  let mult := dec (default (vc_volume_to_dollar_multiplier (volume_config plan)) (volume_to_dollar_multiplier cfg)) in
  acc ← level_part tree plan structure ordinals cache snapshots volume;
  for_each (λ src, _ ← validate_source tree snapshots src; Ok ()) volume;;
  '(es, ws) ← match boundary_mode cfg with
              | ThresholdRank =>
                  match ordinals !! boundary_rank cfg with
                  | Some threshold => threshold_rank tree cfg ordinals cache snapshots mult threshold volume acc
                  | None => Ok acc
                  end
              | SameRank => same_rank tree cfg ordinals cache snapshots mult volume acc
              end;
  assemble es ws volume ordinals identity minor_units.
End generation.
End Generation.
