(* ===== verification/GenerationSpec.v ===== *)
(** * How generations are numbered and paid

    The reference: the leaders of an upline that take a number are numbered from 1
    in upline order ([numbering]); nothing limits it. The counting loop returns the
    part of it up to its limit, and one traversal of the calculator pays the part
    that its filter, eligibility and the rate table admit. *)

From stdpp Require Import base numbers list gmap sorting strings.
From Stdlib Require Import ZArith Lia.
From S2P Require Import Prelude RustDecimal Dec TreeTypes Arena ArenaWf Unilevel Navigator CommissionTypes Walk WalkSpec Currency WalkOrder Generation.
Import Generation.

(** ** The numbering *)
Section numbering.
Context (leaders : gset Uuid) (check : Uuid → bool) (consumes : bool).

Definition takes_number (u : Uuid) : Prop := u ∈ leaders ∧ (check u = true ∨ consumes = true).
#[export] Instance takes_number_dec u : Decision (takes_number u).
Proof. unfold takes_number. apply _. Defined.

Fixpoint number_from (k : N) (us : list Uuid) : list GenerationEntry :=
  match us with
  | [] => []
  | u :: us' => mkEntry u (k + 1) :: number_from (k + 1) us'
  end.

Definition numbering (us : list Uuid) : list GenerationEntry := number_from 0 (filter takes_number us).

(** The first node met once [left] numbers are gone. *)
Fixpoint beyond (left : N) (us : list Uuid) : option Uuid :=
  match us with
  | [] => None
  | u :: us' => if (left =? 0)%N then Some u else beyond (if decide (takes_number u) then left - 1 else left) us'
  end.

Definition step_of (rank_of : Uuid → option string) (e : GenerationEntry) : WalkStep :=
  mkStep (ge_earner_id e) (if check (ge_earner_id e) then Paid else Forfeited) true (rank_of (ge_earner_id e)).

Definition within (limit : N) (l : list GenerationEntry) : list GenerationEntry :=
  filter (λ e, (ge_generation e ≤ limit)%N) l.

Definition passing (l : list GenerationEntry) : list GenerationEntry := filter (λ e, check (ge_earner_id e) = true) l.

Definition stop_of (o : option Uuid) : WalkStop * option Uuid :=
  match o with Some u => (MaxGenerationsReached, Some u) | None => (RootReached, None) end.

Lemma number_from_lookup k us i : number_from k us !! i = (λ u, mkEntry u (k + N.of_nat i + 1)) <$> us !! i.
Proof.
  revert k i. induction us as [|u us IH]; intros k [|i]; cbn; [done..| |].
  - do 2 f_equal. lia.
  - rewrite IH. destruct (us !! i); cbn; [|done]. do 2 f_equal. lia.
Qed.

Lemma number_from_above k us e : e ∈ number_from k us → (k < ge_generation e)%N.
Proof.
  intros [i Hi]%list_elem_of_lookup. rewrite number_from_lookup in Hi.
  apply fmap_Some in Hi as (u & _ & ->). cbn. lia.
Qed.

Lemma within_none limit k us : (limit ≤ k)%N → within limit (number_from k us) = [].
Proof. intros Hk. apply filter_all_false. intros e He%number_from_above. lia. Qed.

Lemma within_cons limit k u us : (k < limit)%N →
  within limit (number_from k (u :: us)) = mkEntry u (k + 1) :: within limit (number_from (k + 1) us).
Proof. intros Hk. unfold within. cbn [number_from]. rewrite filter_cons_True; [done|]. cbn. lia. Qed.

(** Position [i] of what stays within a limit has number [i + 1]. *)
Lemma within_lookup limit us i e : within limit (numbering us) !! i = Some e → ge_generation e = (N.of_nat i + 1)%N.
Proof.
  unfold numbering. assert (∀ k l i e, within limit (number_from k l) !! i = Some e →
    ge_generation e = (k + N.of_nat i + 1)%N) as H; [|intros He%H; lia].
  clear. intros k l. revert k. induction l as [|u l IH]; intros k i e; [done|].
  destruct (decide (k < limit)%N) as [Hk|Hk]; [|by rewrite within_none by lia].
  rewrite within_cons by done. destruct i as [|i]; cbn; [intros [= <-]; cbn; lia|]. intros H%IH. lia.
Qed.

Lemma within_length limit us : (N.of_nat (length (within limit (numbering us))) ≤ limit)%N.
Proof.
  destruct (length (within limit (numbering us))) as [|n] eqn:Hn; [lia|].
  destruct (lookup_lt_is_Some_2 (within limit (numbering us)) n) as [e He]; [lia|].
  pose proof (within_lookup _ _ _ _ He). apply list_elem_of_lookup_2, list_elem_of_filter in He as [He _]. lia.
Qed.

(** ** The counting loop *)
Context {E : Type} (rank_of : Uuid → option string) (limit : N) (Hlimit : (limit ≤ 255)%N).
Abbreviation node_turn := (climb_node (E := E) leaders check consumes rank_of).

Lemma passing_one e : passing [e] = if check (ge_earner_id e) then [e] else [].
Proof. unfold passing. rewrite filter_cons. case_decide as H; [by rewrite H|by destruct (check _)]. Qed.

Lemma climb_node_spec st u : (c_gen st < limit)%N → node_turn st u =
  Ok (if decide (takes_number u) then
        mkClimb (c_gen st + 1) (c_steps st ++ [step_of rank_of (mkEntry u (c_gen st + 1))])
          (c_results st ++ passing [mkEntry u (c_gen st + 1)])
      else st).
Proof using Hlimit.
  intros Hg. unfold climb_node, u8_add, step_of. rewrite passing_one.
  replace (c_gen st + 1 <=? 255)%N with true by (symmetry; apply N.leb_le; lia). cbn [ge_earner_id].
  destruct (decide (u ∈ leaders)) as [Hu|Hu].
  - rewrite bool_decide_eq_false_2 by (intros H; by apply H). destruct (check u) eqn:Hc; cbn [mbind outcome_bind].
    + by rewrite decide_True by (split; auto).
    + destruct consumes eqn:Hcon; cbn [mbind outcome_bind].
      * rewrite decide_True by (split; auto). by rewrite app_nil_r.
      * rewrite decide_False; [done|]. intros [_ [?|?]]; congruence.
  - rewrite bool_decide_eq_true_2 by done. rewrite decide_False; [done|]. by intros [? _].
Qed.

Lemma climb_nodes_spec ns st : (c_gen st ≤ limit)%N →
  let us := user_id <$> ns in
  let taken := within limit (number_from (c_gen st) (filter takes_number us)) in
  ∃ gen, climb_nodes node_turn limit st ns = Ok (mkClimb gen (c_steps st ++ (step_of rank_of <$> taken))
    (c_results st ++ passing taken), (stop_of (beyond (limit - c_gen st) us)).1, (stop_of (beyond (limit - c_gen st) us)).2).
Proof using Hlimit.
  revert st. induction ns as [|n ns IH]; intros st Hg; cbn zeta; cbn [climb_nodes fmap list_fmap beyond].
  { exists (c_gen st). cbn. rewrite !app_nil_r. by destruct st. }
  destruct (N.leb_spec limit (c_gen st)) as [Hl|Hl].
  { exists (c_gen st). rewrite within_none by done. replace (limit - c_gen st =? 0)%N with true by (symmetry; apply N.eqb_eq; lia).
    cbn. rewrite !app_nil_r. by destruct st. }
  rewrite climb_node_spec by done. cbn [mbind outcome_bind]. rewrite filter_cons.
  replace (limit - c_gen st =? 0)%N with false by (symmetry; apply N.eqb_neq; lia).
  destruct (decide (takes_number (user_id n))) as [Ht|Ht]; [|by apply IH].
  destruct (IH (mkClimb (c_gen st + 1) (c_steps st ++ [step_of rank_of (mkEntry (user_id n) (c_gen st + 1))])
    (c_results st ++ passing [mkEntry (user_id n) (c_gen st + 1)])) ltac:(cbn; lia)) as [gen Hgen].
  exists gen. rewrite Hgen. cbn [c_gen c_steps c_results]. rewrite within_cons by done.
  replace (limit - (c_gen st + 1))%N with (limit - c_gen st - 1)%N by lia. rewrite <- !app_assoc. f_equal. f_equal. f_equal. f_equal.
  unfold passing. by rewrite !filter_cons; destruct (decide _).
Qed.
End numbering.

(** ** One traversal *)
Section fold_lists.
Context {E S A B : Type}.

Lemma fold_outcome_fmap (f : S → A → outcome E S) (g : B → A) s l :
  fold_outcome f s (g <$> l) = fold_outcome (λ s b, f s (g b)) s l.
Proof. revert s. induction l as [|b l IH]; intros s; cbn; [done|]. by destruct (f s (g b)); cbn. Qed.

Lemma fold_outcome_concat (f : S → A → outcome E S) s ls :
  fold_outcome f s (concat ls) = fold_outcome (fold_outcome f) s ls.
Proof.
  revert s. induction ls as [|l ls IH]; intros s; cbn; [done|]. rewrite fold_outcome_app.
  by destruct (fold_outcome f s l); cbn.
Qed.
End fold_lists.

Definition upline_of (tree : Unilevel.Unilevel.UnilevelTree) (u : Uuid) : list Uuid :=
  match get_upline tree u 0 with Ok ns => user_id <$> ns | _ => [] end.

(** A traversal of the calculator: whose numbers it counts, how far, which of them
    it keeps and for which source. *)
Record job (D : Type) := mkJob {
  j_leaders : gset Uuid;
  j_limit : N;
  j_keep : GenerationEntry → bool;
  j_rank : option string;
  j_source : VolumeSource D;
}.
Arguments mkJob {D} _ _ _ _ _.
Arguments j_leaders {D} _.
Arguments j_limit {D} _.
Arguments j_keep {D} _.
Arguments j_rank {D} _.
Arguments j_source {D} _.

Section traversal.
Context {D : Type} `{!DecimalOps D, !DecimalLaws D}.
Context (tree : Unilevel.Unilevel.UnilevelTree) (cfg : GenerationCommissionConfig D).
Context (cache : gmap Uuid EligibilityResult) (snapshots : gmap Uuid (DistributorSnapshot D)) (multiplier : D).
Abbreviation check := (boundary_check cfg cache).
Abbreviation consumes := (empty_generation_consumes_number cfg).
Abbreviation numeric := (λ e : CalculationError D, ∃ x, e = Numeric x).

Definition rate_of (g : N) : D := from_option dec DZERO (rates cfg !! g).

Definition earns (e : GenerationEntry) : Prop :=
  is_payable cache (ge_earner_id e) = true ∧ (0 < units (rate_of (ge_generation e)))%Z.
#[export] Instance earns_dec e : Decision (earns e).
Proof. unfold earns. apply _. Defined.

Definition job_upline (j : job D) : list Uuid := upline_of tree (vs_source_id (j_source j)).

Definition job_numbers (j : job D) : list GenerationEntry :=
  within (j_limit j) (numbering (j_leaders j) check consumes (job_upline j)).

Definition job_dues (j : job D) : list GenerationEntry := filter (λ e, j_keep j e = true ∧ earns e) (job_numbers j).

Definition job_walk (k : N) (j : job D) : Walk :=
  let '(why, at_) := stop_of (beyond (j_leaders j) check consumes (j_limit j) (job_upline j)) in
  mkWalk k (vs_source_id (j_source j)) Generation None (j_rank j)
    (step_of check (λ u, rank <$> snapshots !! u) <$> job_numbers j) why at_.

(** The earning a due becomes; its amount is the exact product. *)
Definition pays (k : N) (src : VolumeSource D) (e : GenerationEntry) (c : CommissionEarning D) : Prop :=
  earner_id c = ge_earner_id e ∧ source_id c = vs_source_id src ∧ level c = ge_generation e ∧
  rate c = Some (rate_of (ge_generation e)) ∧ cv_amount c = dec (vs_cv_amount src) ∧ walk c = Some k ∧
  (units (dollar_amount c) * 10 ^ 56 =
   units (dec (vs_cv_amount src)) * units multiplier * units (rate_of (ge_generation e)))%Z.

Lemma payable_checks u : is_payable cache u = true → check u = true.
Proof. unfold boundary_check. by destruct (ineligible_creates_boundary cfg). Qed.

Lemma dues_passing (keep : GenerationEntry → bool) l :
  filter earns (filter (λ e, keep e = true) (passing check l)) = filter (λ e, keep e = true ∧ earns e) l.
Proof.
  unfold passing. rewrite !list_filter_filter. apply list_filter_iff. intros e.
  pose proof (payable_checks (ge_earner_id e)). unfold earns. naive_solver.
Qed.

Lemma emit_one_spec src k es e : returns (λ es', ∃ new, es' = es ++ new ∧ Forall2 (pays k src) (filter earns [e]) new)
  (λ _, True) (emit_one src cfg cache multiplier k es e).
Proof using DecimalLaws0.
  unfold emit_one. rewrite filter_cons. change (filter earns []) with (@nil GenerationEntry).
  destruct (is_payable cache (ge_earner_id e)) eqn:Hp; cbn [negb].
  2: { rewrite decide_False by (intros [? _]; congruence). exists []. rewrite app_nil_r. by split. }
  change (from_option dec DZERO (rates cfg !! ge_generation e)) with (rate_of (ge_generation e)).
  rewrite dec_leb_units, zero_units. destruct (Z.leb_spec (units (rate_of (ge_generation e))) 0) as [Hr|Hr].
  { rewrite decide_False by (intros [_ ?]; lia). exists []. rewrite app_nil_r. by split. }
  rewrite decide_True by (by split). pose proof (try_mul_spec (dec (vs_cv_amount src)) multiplier) as H1.
  destruct (try_mul _ multiplier) as [x| | |]; cbn [mbind outcome_bind]; [|done..].
  pose proof (try_mul_spec x (rate_of (ge_generation e))) as H2.
  destruct (try_mul x _) as [y| | |]; cbn [mbind outcome_bind]; [|done..].
  eexists. split; [done|]. constructor; [|constructor]. unfold pays. cbn. split_and!; [done..|].
  replace (10 ^ 56)%Z with (10 ^ 28 * 10 ^ 28)%Z by reflexivity. rewrite Z.mul_assoc, H2, <- H1. ring.
Qed.

Lemma emit_spec src k entries es :
  returns (λ es', ∃ new, es' = es ++ new ∧ Forall2 (pays k src) (filter earns entries) new) (λ _, True)
    (emit_generation_earnings entries src cfg cache multiplier k es).
Proof using DecimalLaws0.
  unfold emit_generation_earnings.
  apply (returns_fold _ (λ pre es', ∃ new, es' = es ++ new ∧ Forall2 (pays k src) (filter earns pre) new)).
  { exists []. rewrite app_nil_r. by split. }
  intros pre e post es1 _ (new & -> & Hn). eapply returns_impl; [apply emit_one_spec|]. cbn.
  intros es2 (new' & -> & Hn'). exists (new ++ new'). rewrite app_assoc, filter_app. split; [done|]. by apply Forall2_app.
Qed.

Definition stamp_of (r : option string) : Walk → Walk := match r with Some n => with_rank n | None => λ w, w end.

Definition run_job (acc : list (CommissionEarning D) * list Walk) (j : job D) :=
  pay_source tree cfg cache snapshots multiplier (j_leaders j) (j_limit j) (j_keep j) (stamp_of (j_rank j)) acc (j_source j).

Context (Hwf : arena_wf (Unilevel.Unilevel.arena tree)).

(** The counting loop on a member of a well-formed tree. *)
Lemma count_spec {E} leaders ck limit cons snaps u ws : (limit ≤ 255)%N → (N.of_nat (length ws) < 2 ^ 32)%N →
  contains tree u = true →
  let us := upline_of tree u in
  let taken := within limit (numbering leaders ck cons us) in
  let '(why, at_) := stop_of (beyond leaders ck cons limit us) in
  count_generations_upward_instrumented (E := E) (D := D) tree u leaders ck limit cons snaps ws =
  Ok (passing ck taken, ws ++ [mkWalk (N.of_nat (length ws)) u Generation None None
    (step_of ck (λ v, rank <$> (s ← snaps; s !! v)) <$> taken) why at_]).
Proof using Hwf.
  intros Hl Hw Hc. cbn zeta. destruct (nav_upline tree u Hwf Hc) as (ns & Hns & _).
  unfold count_generations_upward_instrumented, upline_of. rewrite Hns, (N.mod_small _ _ Hw).
  destruct (climb_nodes_spec leaders ck cons (E := E) (λ v, rank <$> (s ← snaps; s !! v)) limit Hl ns (mkClimb 0 [] [])
    ltac:(cbn; lia)) as [gen Hgen]. cbn [c_gen c_steps c_results app] in Hgen.
  rewrite N.sub_0_r in Hgen. rewrite Hgen. cbn [mbind outcome_bind c_steps c_results]. by destruct (stop_of _).
Qed.

Lemma run_job_spec es ws j : (j_limit j ≤ 255)%N → (N.of_nat (length ws) < 2 ^ 32)%N →
  contains tree (vs_source_id (j_source j)) = true →
  returns (λ acc, ∃ new, acc.1 = es ++ new ∧ acc.2 = ws ++ [job_walk (N.of_nat (length ws)) j] ∧
    Forall2 (pays (N.of_nat (length ws)) (j_source j)) (job_dues j) new) numeric (run_job (es, ws) j).
Proof using DecimalLaws0 Hwf.
  intros Hl Hw Hc. unfold run_job, pay_source.
  pose proof (count_spec (E := CalculationError D) (j_leaders j) check (j_limit j) consumes (Some snapshots) _ _ Hl Hw Hc) as Hcount.
  cbn zeta in Hcount. unfold job_walk. change (upline_of tree (vs_source_id (j_source j))) with (job_upline j) in Hcount.
  destruct (stop_of _) as [why at_]. rewrite Hcount. cbn [mbind outcome_bind]. rewrite (N.mod_small _ _ Hw), Nat2N.id.
  rewrite take_app_length, drop_app_length. eapply returns_bind.
  - eapply returns_map_err; [apply emit_spec|]. eauto.
  - intros es' (new & -> & Hn). cbn [returns fst snd]. exists new. split; [done|]. split.
    + destruct (j_rank j); reflexivity.
    + by rewrite dues_passing in Hn.
Qed.

(** A sequence of them. *)
Lemma run_jobs_spec jobs es ws : (∀ j, j ∈ jobs → (j_limit j ≤ 255)%N ∧ contains tree (vs_source_id (j_source j)) = true) →
  (N.of_nat (length ws) + N.of_nat (length jobs) ≤ 2 ^ 32)%N →
  returns (λ acc, ∃ ess, acc.1 = es ++ concat ess ∧
    acc.2 = ws ++ imap (λ i, job_walk (N.of_nat (length ws + i))) jobs ∧ length ess = length jobs ∧
    ∀ i j, jobs !! i = Some j → ∃ l, ess !! i = Some l ∧
      Forall2 (pays (N.of_nat (length ws + i)) (j_source j)) (job_dues j) l) numeric (fold_outcome run_job (es, ws) jobs).
Proof using DecimalLaws0 Hwf.
  revert es ws. induction jobs as [|j jobs IH]; intros es ws Hj Hlen; cbn [fold_outcome].
  { exists []. cbn. by rewrite !app_nil_r. }
  cbn in Hlen. destruct (Hj j) as [Hl Hc]; [left|]. eapply returns_bind; [apply run_job_spec; [done|lia|done]|].
  intros [es1 ws1]. cbn [fst snd]. intros (new & -> & -> & Hn).
  eapply returns_impl; [apply IH; [intros j' Hj'; apply Hj; by right|rewrite length_app; cbn; lia]|].
  intros [es2 ws2]. cbn [fst snd]. intros (ess & -> & -> & Hess & Hall). exists (new :: ess). cbn. rewrite <- !app_assoc. cbn.
  assert (Hs : ∀ i, length (ws ++ [job_walk (N.of_nat (length ws)) j]) + i = length ws + S i)
    by (intros i; rewrite length_app; cbn; lia).
  split_and!; [done| |by rewrite Hess|].
  - do 2 f_equal; [by rewrite Nat.add_0_r|]. apply imap_ext. intros i j' _. cbn. by rewrite Hs.
  - intros [|i] j' Hi; cbn in Hi.
    + injection Hi as <-. exists new. by rewrite Nat.add_0_r.
    + destruct (Hall i j' Hi) as (l & Hl' & Hp). exists l. by rewrite <- Hs.
Qed.
End traversal.
