(* ===== verification/GenerationTheorems.v ===== *)
(** * The generation calculator, end to end

    What is owed is stated without the traversal ([generation_dues]): the leaders of
    each source's upline are numbered without a limit, and each that is eligible and
    within its own cap is owed the rate of its number. The theorems: the counting
    loop is that numbering up to its limit; the calculator pays exactly what is owed
    beside the level commissions; every earning is a paid step of its walk; and the
    errors are true. *)

From stdpp Require Import base numbers list gmap sorting strings.
From Stdlib Require Import ZArith Lia.
From S2P Require Import Prelude RustDecimal Dec TreeTypes Arena ArenaWf Unilevel Navigator CommissionTypes Walk WalkSpec WalkPrepare Currency WalkOrder Calculators Collector Generation GenerationSpec.
Import Generation.

(** ** What is owed *)
Section owed.
Context {D : Type} `{!DecimalOps D, !DecimalLaws D}.
Context (tree : Unilevel.Unilevel.UnilevelTree) (cfg : GenerationCommissionConfig D) (ordinals : gmap string N).
Context (cache : gmap Uuid EligibilityResult) (snapshots : gmap Uuid (DistributorSnapshot D)).
Abbreviation check := (boundary_check cfg cache).
Abbreviation consumes := (empty_generation_consumes_number cfg).

Definition cap_of (u : Uuid) : N := earner_max_generations (from_option rank EmptyString (snapshots !! u)) cfg.

Definition held_ordinal (u : Uuid) : N := from_option (ordinal_in ordinals) 0%N (snapshots !! u).

(** The plan's ranks that somebody holds. *)
Definition held_ranks : list (string * N) :=
  filter (λ r, Exists (λ e, rank e.2 = r.1) (map_to_list snapshots)) (map_to_list ordinals).

(** The numbers of the leaders at or above [o] that [may] admits and that earn. *)
Definition source_dues (o : N) (may : GenerationEntry → Prop) `{!∀ e, Decision (may e)} (src : VolumeSource D)
  : list (VolumeSource D * GenerationEntry) :=
  pair src <$> filter (λ e, may e ∧ earns cfg cache e)
    (numbering (at_or_above ordinals o snapshots) check consumes (upline_of tree (vs_source_id src))).

Definition in_own_cap (e : GenerationEntry) : Prop := (ge_generation e ≤ cap_of (ge_earner_id e))%N.
Definition in_rank_cap (r : string * N) (e : GenerationEntry) : Prop :=
  (ge_generation e ≤ earner_max_generations r.1 cfg)%N ∧ held_ordinal (ge_earner_id e) = r.2.
#[export] Instance in_own_cap_dec e : Decision (in_own_cap e).
Proof. unfold in_own_cap. apply _. Defined.
#[export] Instance in_rank_cap_dec r e : Decision (in_rank_cap r e).
Proof. unfold in_rank_cap. apply _. Defined.

Definition generation_dues (volume : list (VolumeSource D)) : list (VolumeSource D * GenerationEntry) :=
  match boundary_mode cfg with
  | ThresholdRank =>
      match ordinals !! boundary_rank cfg with
      | Some threshold => concat (source_dues threshold in_own_cap <$> volume)
      | None => []
      end
  | SameRank => concat ((λ r, concat (source_dues r.2 (in_rank_cap r) <$> volume)) <$> held_ranks)
  end.

(** ** The traversals the calculator makes *)
Definition threshold_job (threshold : N) (src : VolumeSource D) : job D :=
  mkJob (at_or_above ordinals threshold snapshots) (walk_depth cfg)
    (λ e, match snapshots !! ge_earner_id e with
          | Some s => (ge_generation e <=? earner_max_generations (rank s) cfg)%N
          | None => (ge_generation e <=? earner_max_generations EmptyString cfg)%N
          end) None src.

Definition same_rank_job (r : string * N) (src : VolumeSource D) : job D :=
  mkJob (at_or_above ordinals r.2 snapshots) (earner_max_generations r.1 cfg)
    (λ e, bool_decide (from_option (λ s, default 0%N (ordinals !! rank s)) 0%N (snapshots !! ge_earner_id e) = r.2))
    (Some r.1) src.

Definition jobs (volume : list (VolumeSource D)) : list (job D) :=
  match boundary_mode cfg with
  | ThresholdRank =>
      match ordinals !! boundary_rank cfg with
      | Some threshold => threshold_job threshold <$> volume
      | None => []
      end
  | SameRank => concat ((λ r, same_rank_job r <$> volume) <$> unique_ranks ordinals snapshots)
  end.

Lemma jobs_run multiplier volume acc :
  match boundary_mode cfg with
  | ThresholdRank =>
      match ordinals !! boundary_rank cfg with
      | Some threshold => threshold_rank tree cfg ordinals cache snapshots multiplier threshold volume acc
      | None => Ok acc
      end
  | SameRank => same_rank tree cfg ordinals cache snapshots multiplier volume acc
  end = fold_outcome (run_job tree cfg cache snapshots multiplier) acc (jobs volume).
Proof.
  unfold jobs. destruct (boundary_mode cfg).
  - destruct (ordinals !! boundary_rank cfg) as [t|]; [|done]. rewrite fold_outcome_fmap. reflexivity.
  - rewrite fold_outcome_concat, fold_outcome_fmap. unfold same_rank. apply fold_outcome_ext. intros s [n o].
    rewrite fold_outcome_fmap. reflexivity.
Qed.

Lemma unique_ranks_perm : unique_ranks ordinals snapshots ≡ₚ held_ranks.
Proof.
  unfold unique_ranks. rewrite sort_by_perm. apply NoDup_Permutation.
  - apply NoDup_elements.
  - apply NoDup_filter, NoDup_map_to_list.
  - intros [n o]. rewrite elem_of_elements, elem_of_list_to_set, list_elem_of_omap. unfold held_ranks.
    rewrite list_elem_of_filter, elem_of_map_to_list, Exists_exists. cbn [fst]. split.
    + intros (e & He & (o' & Ho & [= -> ->])%fmap_Some). eauto.
    + intros [(e & He & <-) Ho]. exists e. rewrite Ho. eauto.
Qed.

Lemma unique_ranks_length : length (unique_ranks ordinals snapshots) ≤ size ordinals.
Proof.
  rewrite unique_ranks_perm. unfold held_ranks. etrans; [apply length_filter|]. by rewrite length_map_to_list.
Qed.

(** ** Caps *)
Lemma max_foldl_ge (l : list N) x y : y ∈ x :: l → (y ≤ foldl N.max x l)%N.
Proof.
  revert x y. induction l as [|z l IH]; intros x y; cbn.
  - intros ->%list_elem_of_singleton. lia.
  - intros [->|[->|Hy]%elem_of_cons]%elem_of_cons.
    + etrans; [|apply IH; left]. lia.
    + etrans; [|apply IH; left]. lia.
    + apply IH. by right.
Qed.

Lemma max_foldl_in (l : list N) x : foldl N.max x l ∈ x :: l.
Proof.
  revert x. induction l as [|z l IH]; intros x; cbn; [left|]. specialize (IH (N.max x z)).
  apply elem_of_cons in IH as [->|H]; [|by do 2 right]. destruct (N.max_spec x z) as [[_ ->]|[_ ->]]; [right; left|left].
Qed.

Lemma cap_within_depth r : (earner_max_generations r cfg ≤ walk_depth cfg)%N.
Proof.
  unfold earner_max_generations, walk_depth. destruct (max_generations_per_rank cfg !! r) as [m|] eqn:Hm; cbn.
  - apply elem_of_map_to_list in Hm. apply (list_elem_of_fmap_2 snd) in Hm. cbn in Hm.
    destruct ((map_to_list _).*2) as [|x l]; [by apply elem_of_nil in Hm|]. pose proof (max_foldl_ge l x m Hm). lia.
  - destruct ((map_to_list _).*2); lia.
Qed.

(** The generation numbers of the configuration fit a [u8]. *)
Definition caps_u8 : Prop :=
  (max_generations cfg ≤ 255)%N ∧ ∀ r m, max_generations_per_rank cfg !! r = Some m → (m ≤ 255)%N.

Lemma cap_u8 r : caps_u8 → (earner_max_generations r cfg ≤ 255)%N.
Proof. intros [H1 H2]. unfold earner_max_generations. destruct (_ !! r) eqn:Hm; cbn; [by eapply H2|done]. Qed.

Lemma walk_depth_u8 : caps_u8 → (walk_depth cfg ≤ 255)%N.
Proof.
  intros [H1 H2]. unfold walk_depth. destruct ((map_to_list _).*2) as [|x l] eqn:Hl; [done|].
  pose proof (max_foldl_in l x) as Hin. rewrite <- Hl in Hin. apply list_elem_of_fmap in Hin as ([r m] & Hx & Hm).
  apply elem_of_map_to_list in Hm. cbn in Hx. rewrite Hx. pose proof (H2 _ _ Hm). lia.
Qed.

Lemma jobs_limits volume j : caps_u8 → j ∈ jobs volume → (j_limit j ≤ 255)%N ∧ j_source j ∈ volume.
Proof.
  intros Hcap. unfold jobs. destruct (boundary_mode cfg).
  - destruct (ordinals !! boundary_rank cfg); [|by intros ?%elem_of_nil].
    intros (src & -> & Hsrc)%list_elem_of_fmap. split; [by apply walk_depth_u8|done].
  - intros (l & (r & -> & Hr)%list_elem_of_fmap & (src & -> & Hsrc)%list_elem_of_fmap)%elem_of_concat.
    split; [by apply cap_u8|done].
Qed.

Lemma concat_fmap_length {A B C} (f : A → B → C) (l : list A) (k : list B) :
  length (concat ((λ a, f a <$> k) <$> l)) = length l * length k.
Proof. induction l as [|a l IH]; cbn; [done|]. by rewrite length_app, length_fmap, IH. Qed.

Lemma jobs_length volume : length (jobs volume) ≤ length volume * (size ordinals + 1).
Proof.
  unfold jobs. destruct (boundary_mode cfg).
  - destruct (ordinals !! boundary_rank cfg); [rewrite length_fmap|cbn]; nia.
  - rewrite concat_fmap_length. pose proof unique_ranks_length. nia.
Qed.

(** ** The traversals pay what is owed *)
Definition job_owed (j : job D) : list (VolumeSource D * GenerationEntry) :=
  pair (j_source j) <$> job_dues tree cfg cache j.

Lemma threshold_job_owed t src : job_owed (threshold_job t src) = source_dues t in_own_cap src.
Proof.
  unfold job_owed, source_dues, job_dues, job_numbers, within. cbn [j_source j_keep j_limit j_leaders threshold_job].
  f_equal. rewrite list_filter_filter. apply list_filter_iff. intros e. unfold in_own_cap, cap_of.
  pose proof (cap_within_depth (from_option rank EmptyString (snapshots !! ge_earner_id e))) as Hd.
  destruct (snapshots !! ge_earner_id e) as [s|]; cbn in Hd |- *; rewrite N.leb_le; intuition lia.
Qed.

Lemma same_rank_job_owed r src : job_owed (same_rank_job r src) = source_dues r.2 (in_rank_cap r) src.
Proof.
  unfold job_owed, source_dues, job_dues, job_numbers, within. cbn [j_source j_keep j_limit j_leaders same_rank_job].
  f_equal. rewrite list_filter_filter. apply list_filter_iff. intros e. rewrite bool_decide_eq_true.
  unfold in_rank_cap, held_ordinal, ordinal_in. tauto.
Qed.

Lemma jobs_owed volume : concat (job_owed <$> jobs volume) ≡ₚ generation_dues volume.
Proof.
  unfold jobs, generation_dues. destruct (boundary_mode cfg).
  - destruct (ordinals !! boundary_rank cfg) as [t|]; [|done]. rewrite <- list_fmap_compose.
    erewrite list_fmap_ext; [done|]. intros ? src _. apply threshold_job_owed.
  - rewrite <- unique_ranks_perm. induction (unique_ranks ordinals snapshots) as [|r l IH]; [done|]. cbn.
    rewrite fmap_app, concat_app, IH. rewrite <- list_fmap_compose. erewrite list_fmap_ext; [done|].
    intros ? src _. apply same_rank_job_owed.
Qed.
End owed.

(** ** The whole calculation *)
Section calculation.
Context {D : Type} `{!DecimalOps D, !DecimalLaws D}.
Context (tree : Unilevel.Unilevel.UnilevelTree) (Hwf : arena_wf (Unilevel.Unilevel.arena tree)).
Context (plan : CompensationPlan D) (structure : GenerationStructureConfig D).
Context (snapshots : gmap Uuid (DistributorSnapshot D)) (volume : list (VolumeSource D)) (identity : PlanIdentity).
Abbreviation cfg := (generation_commission structure).
Abbreviation ordinals := (build_rank_ordinals plan).

(** The machine widths of the configuration, and a collector that fits a [u32]. *)
Definition generation_widths : Prop :=
  caps_u8 cfg ∧ (∀ lc, level_commission structure = Some lc → (lc_max_depth lc ≤ 255)%N) ∧
  (N.of_nat (length volume * (size ordinals + 2)) ≤ 2 ^ 32)%N.

Definition generation_multiplier : D :=
  dec (default (vc_volume_to_dollar_multiplier (volume_config plan)) (volume_to_dollar_multiplier cfg)).

(** What a refusal says of the inputs. *)
Definition generation_fault (e : CalculationError D) : Prop :=
  match e with
  | ConfigError _ => level_commissions_enabled structure = true ∧ level_commission structure = None
  | e => calculation_fault tree plan snapshots volume e
  end.

Lemma fault_in e : calculation_fault tree plan snapshots volume e → generation_fault e.
Proof. by destruct e. Qed.

Lemma level_part_spec cache : valid_inputs tree plan snapshots → generation_widths →
  returns (λ acc, collected acc.1 acc.2 ∧ length acc.2 ≤ length volume ∧ ∀ e, e ∈ acc.1 → is_Some (walk e)) generation_fault
    (level_part tree plan structure ordinals cache snapshots volume).
Proof using Hwf DecimalLaws0.
  intros (_ & _ & Hcov) (_ & Hdepth & Hsize). unfold level_part. destruct (level_commissions_enabled structure) eqn:Hen.
  2: { split_and!; [apply collected_nil|cbn; lia|by intros e ?%elem_of_nil]. }
  destruct (level_commission structure) as [lc|] eqn:Hlc; cbn [ok_or mbind outcome_bind]; [|cbn; by rewrite Hen, Hlc].
  match goal with |- returns _ _ (walk_level_commissions _ ?c _ _ _ _ _) => set (config := c) end.
  pose proof (walk_level_first_fault _ tree Hwf config cache snapshots (λ _, false) Hcov (Hdepth _ eq_refl) volume []) as Hf.
  destruct (walk_level_commissions _ _ _ _ _ _ _) as [[es ws]|e| |] eqn:Hw; cbn; [|apply fault_in, source_fault_calculation; eapply first_fault_source; exact Hf|done..].
  destruct (level_collected _ tree Hwf config cache snapshots (λ _, false) (Hdepth _ eq_refl) volume es ws) as (H1 & H2 & H3);
    [nia|done|]. split_and!; [done|lia|done].
Qed.

Lemma Forall2_concat_fmap {A B C} (R : B → C → Prop) (f : A → list B) (l : list A) (ess : list (list C)) :
  length ess = length l → (∀ i a, l !! i = Some a → ∃ es, ess !! i = Some es ∧ Forall2 R (f a) es) →
  Forall2 R (concat (f <$> l)) (concat ess).
Proof.
  revert ess. induction l as [|a l IH]; intros [|es ess] Hlen Hall; try done; cbn.
  destruct (Hall 0 a) as (es' & [= ->] & H); [done|]. apply Forall2_app; [done|]. apply IH; [by injection Hlen|].
  intros i. apply (Hall (S i)).
Qed.

(** A due and the earning that settles it. *)
Definition settles (p : VolumeSource D * GenerationEntry) (c : CommissionEarning D) : Prop :=
  earner_id c = ge_earner_id p.2 ∧ source_id c = vs_source_id p.1 ∧ level c = ge_generation p.2 ∧
  rate c = Some (rate_of cfg (ge_generation p.2)) ∧ cv_amount c = dec (vs_cv_amount p.1) ∧
  (units (dollar_amount c) * 10 ^ 56 =
   units (dec (vs_cv_amount p.1)) * units generation_multiplier * units (rate_of cfg (ge_generation p.2)))%Z.

Lemma pays_settles cache j k l : Forall2 (pays cfg generation_multiplier k (j_source j)) (job_dues tree cfg cache j) l →
  Forall2 settles (job_owed tree cfg cache j) l.
Proof.
  unfold job_owed. intros H. apply Forall2_fmap_l. eapply Forall2_impl; [exact H|].
  unfold pays, settles. cbn. naive_solver.
Qed.

(** A due's number is a paid step of its traversal's walk. *)
Lemma job_block cache k j l : Forall2 (pays cfg generation_multiplier k (j_source j)) (job_dues tree cfg cache j) l →
  block k l (job_walk tree cfg cache snapshots k j).
Proof.
  intros Hp. unfold job_walk. destruct (stop_of _) as [why at_]. split; [done| |].
  - intros c [i Hi]%list_elem_of_lookup. destruct (Forall2_lookup_r _ _ _ _ _ Hp Hi) as (e & He & P1 & P2 & P3 & P4 & P5 & P6 & _).
    split; [done|]. apply list_elem_of_lookup_2, list_elem_of_filter in He as [[_ [Hpay _]] He].
    apply list_elem_of_lookup in He as [n Hn]. pose proof (within_lookup _ _ _ _ _ _ _ Hn) as Hg.
    split; [done|]. rewrite P3, Hg. split; [lia|]. cbn [steps]. replace (N.to_nat (N.of_nat n + 1 - 1)) with n by lia.
    rewrite list_lookup_fmap, Hn. cbn. eexists. split; [done|]. cbn. rewrite P1. split; [done|].
    by rewrite payable_checks.
  - assert (level <$> l = ge_generation <$> job_dues tree cfg cache j) as ->.
    { clear -Hp. induction Hp as [|e c es cs H _ IH]; cbn; [done|]. destruct H as (_ & _ & -> & _). by rewrite IH. }
    apply NoDup_fmap_2_strong; [|apply NoDup_filter].
    + intros x y [_ [n Hn]%list_elem_of_lookup]%list_elem_of_filter [_ [m Hm]%list_elem_of_lookup]%list_elem_of_filter Heq.
      assert (n = m) as ->; [|congruence].
      rewrite (within_lookup _ _ _ _ _ _ _ Hn), (within_lookup _ _ _ _ _ _ _ Hm) in Heq. lia.
    + apply NoDup_alt. intros n m x Hn Hm. pose proof (within_lookup _ _ _ _ _ _ _ Hn) as H1.
      rewrite (within_lookup _ _ _ _ _ _ _ Hm) in H1. lia.
Qed.

(** *** The run *)

(** What a result is made of: the level part [les], and the earnings [gs] that
    settle the dues. *)
Definition accounted (cache : gmap Uuid EligibilityResult) (res : CommissionCalculationResult D) : Prop :=
  ∃ places les lws gs, minor_units (base_currency (volume_config plan)) = Some places ∧
    level_part tree plan structure ordinals cache snapshots volume = Ok (les, lws) ∧
    unreferred <$> earnings res ≡ₚ unreferred ∘ rounded places <$> les ++ gs ∧
    Forall2 settles (generation_dues tree cfg ordinals cache snapshots volume) gs.

Lemma jobs_settle cache les lws ess : let js := jobs cfg ordinals snapshots volume in
  collected les lws → (∀ e, e ∈ les → is_Some (walk e)) → length ess = length js →
  (∀ i j, js !! i = Some j → ∃ l, ess !! i = Some l ∧
    Forall2 (pays cfg generation_multiplier (N.of_nat (length lws + i)) (j_source j)) (job_dues tree cfg cache j) l) →
  collected (les ++ concat ess) (lws ++ imap (λ i, job_walk tree cfg cache snapshots (N.of_nat (length lws + i))) js) ∧
  (∀ e, e ∈ les ++ concat ess → is_Some (walk e)) ∧
  ∃ gs, concat ess ≡ₚ gs ∧ Forall2 settles (generation_dues tree cfg ordinals cache snapshots volume) gs.
Proof.
  intros js Hcol Href Hess Hpay.
  assert (Hb : ∀ i l, ess !! i = Some l → ∃ j, js !! i = Some j ∧
    block (N.of_nat (length lws + i)) l (job_walk tree cfg cache snapshots (N.of_nat (length lws + i)) j)).
  { intros i l Hi. destruct (lookup_lt_is_Some_2 js i) as [j Hj]; [rewrite <- Hess; by eapply lookup_lt_Some|].
    destruct (Hpay i j Hj) as (l' & Hl' & Hp). assert (l' = l) as -> by congruence. exists j. split; [done|by apply job_block]. }
  split_and!.
  - apply collected_blocks; [done|by rewrite length_imap|]. intros i l w Hi (j & Hj & ->)%list_lookup_imap_Some.
    destruct (Hb i l Hi) as (j' & Hj' & Hx). by simplify_eq.
  - intros e [He|(l & [i Hi]%list_elem_of_lookup & He)%elem_of_concat]%elem_of_app; [by apply Href|].
    destruct (Hb i l Hi) as (j & _ & Hx). destruct (bl_step _ _ _ Hx e He) as [-> _]. eauto.
  - eapply (Permutation_Forall2 (jobs_owed tree cfg ordinals cache snapshots volume)).
    apply Forall2_concat_fmap; [done|]. intros i j Hj. destruct (Hpay i j Hj) as (l & Hl & Hp).
    exists l. split; [done|]. by eapply pays_settles.
Qed.

Lemma generation_run : generation_widths → ∃ cache, evaluate_eligibility snapshots tree (eligibility plan) = Ok cache ∧
  returns (λ res, accounted cache res ∧ collected (earnings res) (walks res) ∧ (∀ e, e ∈ earnings res → is_Some (walk e)) ∧
      is_Some (minor_units (base_currency (volume_config plan))) ∧ valid_inputs tree plan snapshots ∧
      Forall (good_source tree) volume)
    generation_fault (calculate_generation tree plan structure snapshots volume identity).
Proof using Hwf DecimalLaws0.
  intros Hwid. destruct (evaluate_eligibility_spec _ tree Hwf snapshots (eligibility plan)) as (cache & Hcache & _).
  exists cache. split; [done|]. unfold calculate_generation, plan_minor_units.
  destruct (minor_units _) as [places|] eqn:Hcur; cbn [ok_or mbind outcome_bind]; [|done].
  eapply returns_seq; [eapply returns_weaken; [apply (validated _ tree plan snapshots volume Hwf)|done|apply fault_in]|].
  intros Hvalid. rewrite Hcache. cbn [mbind outcome_bind].
  pose proof (level_part_spec cache Hvalid Hwid) as Hlevel.
  destruct (level_part _ _ _ _ _ _ _) as [[les lws]|err| |] eqn:Hl; cbn [mbind outcome_bind]; [|done..].
  destruct Hlevel as (Hcol & Hlws & Href). cbn [fst snd] in *.
  eapply returns_seq.
  { apply returns_for_each. intros src Hsrc. eapply returns_weaken;
      [by apply (source_validated _ tree plan snapshots volume Hwf)|intros u H; exact H|apply fault_in]. }
  intros Hgood.
  rewrite (jobs_run tree cfg ordinals cache snapshots). fold generation_multiplier.
  destruct Hwid as (Hcap & _ & Hsize). pose proof (jobs_length cfg ordinals snapshots volume) as Hjl.
  eapply returns_bind.
  - eapply returns_weaken; [apply (run_jobs_spec tree cfg cache snapshots generation_multiplier Hwf)|intros acc H; exact H|].
    + intros j Hj. destruct (jobs_limits _ _ _ _ _ Hcap Hj) as [? Hsrc]. split; [done|].
      rewrite Forall_forall in Hgood. apply (Hgood _ Hsrc).
    + lia.
    + by intros e [x ->].
  - intros [es ws]. cbn [fst snd]. intros (ess & -> & -> & Hess & Hpay).
    destruct (jobs_settle cache les lws ess Hcol Href Hess Hpay) as (C1 & C2 & gs & Hgs & Hset).
    destruct (assemble_collected (E := CalculationError D) _ _ volume ordinals identity places C1) as (res & -> & R1 & _ & _ & R2 & R3).
    { rewrite length_app, length_imap. lia. }
    split_and!; [|done|by apply R3|done..]. exists places, les, lws, gs. split_and!; [done..| |done].
    by rewrite R2, Hgs.
Qed.
End calculation.

(** ** The public statements *)
Section statements.
Context {D : Type} `{!DecimalOps D, !DecimalLaws D}.
Implicit Types (plan : CompensationPlan D) (structure : GenerationStructureConfig D).

(** C23. The counting loop is the numbering up to its limit: it returns the
    boundary leaders with their numbers, records one consumed step per number,
    paid for those leaders and forfeited for the others, and stops either at the root
    or at the first ancestor met once the limit is used up. The generation counter
    never overflows. *)
Theorem count_generations_exact {E} tree u leaders ck limit cons (snaps : option (gmap Uuid (DistributorSnapshot D))) ws :
  arena_wf (Unilevel.Unilevel.arena tree) → (limit ≤ 255)%N → (N.of_nat (length ws) < 2 ^ 32)%N → contains tree u = true →
  let taken := within limit (numbering leaders ck cons (upline_of tree u)) in
  let '(why, at_) := stop_of (beyond leaders ck cons limit (upline_of tree u)) in
  count_generations_upward_instrumented (E := E) tree u leaders ck limit cons snaps ws =
  Ok (passing ck taken, ws ++ [mkWalk (N.of_nat (length ws)) u Generation None None
    (step_of ck (λ v, rank <$> (s ← snaps; s !! v)) <$> taken) why at_]) ∧
  (N.of_nat (length taken) ≤ limit)%N ∧ ∀ i e, taken !! i = Some e → ge_generation e = (N.of_nat i + 1)%N.
Proof.
  intros Hwf Hl Hw Hc. pose proof (count_spec (E := E) tree Hwf leaders ck limit cons snaps u ws Hl Hw Hc) as H.
  cbn zeta in *. destruct (stop_of _) as [why at_]. split_and!; [exact H|apply within_length|apply within_lookup].
Qed.

(** C22. The calculator pays exactly what is owed. Its earnings are those of the
    level walk and one per due: for each source, each leader of the upline that is
    eligible, has a positive rate at its number and is within its own cap (or, in
    same-rank mode, that of the rank whose pass it is), the numbering itself being
    unlimited; the amount is the exact product of volume, multiplier and rate,
    rounded once. Every earning names a walk of its own source in which its earner is
    the paid step of its level, and no walk pays a level twice. *)
Theorem calculate_generation_exact tree plan structure snapshots volume identity res :
  arena_wf (Unilevel.Unilevel.arena tree) → generation_widths plan structure volume →
  calculate_generation tree plan structure snapshots volume identity = Ok res →
  ∃ cache, evaluate_eligibility snapshots tree (eligibility plan) = Ok cache ∧
    accounted tree plan structure snapshots volume cache res ∧
    collected (earnings res) (walks res) ∧ ∀ e, e ∈ earnings res → is_Some (walk e).
Proof.
  intros Hwf Hw Hres. destruct (generation_run tree Hwf plan structure snapshots volume identity Hw) as (cache & Hc & Hr).
  rewrite Hres in Hr. destruct Hr as (H1 & H2 & H3 & _). exists cache. split_and!; done.
Qed.

(** The generation calculator's errors are true and complete: it never panics or
    diverges, a success means that every input passes its check, and a refusal names
    the least offending snapshot, a bad source, the unknown currency, the missing
    level configuration or a number that no decimal holds. *)
Theorem calculate_generation_errors tree plan structure snapshots volume identity :
  arena_wf (Unilevel.Unilevel.arena tree) → generation_widths plan structure volume →
  returns (λ _, is_Some (minor_units (base_currency (volume_config plan))) ∧ valid_inputs tree plan snapshots ∧
    Forall (good_source tree) volume)
    (generation_fault tree plan structure snapshots volume)
    (calculate_generation tree plan structure snapshots volume identity).
Proof.
  intros Hwf Hw. destruct (generation_run tree Hwf plan structure snapshots volume identity Hw) as (cache & _ & Hr).
  eapply returns_impl; [exact Hr|]. intros res (_ & _ & _ & H). exact H.
Qed.
End statements.

(** ** Empty generations *)
Definition with_empty_flag {D} (b : bool) (cfg : GenerationCommissionConfig D) : GenerationCommissionConfig D :=
  mkGeneration (max_generations cfg) (max_generations_per_rank cfg) (rates cfg) (boundary_mode cfg) (boundary_rank cfg) b
    (volume_to_dollar_multiplier cfg) (ineligible_creates_boundary cfg).

Definition set_empty_flag {D} (b : bool) (s : GenerationStructureConfig D) : GenerationStructureConfig D :=
  mkGenerationStructure (gs_name s) (level_commission s) (gs_compression s) (with_empty_flag b (generation_commission s))
    (level_commissions_enabled s).

Section empty_flag.
Context {D : Type} `{!DecimalOps D}.
Context (tree : Unilevel.Unilevel.UnilevelTree) (snapshots : gmap Uuid (DistributorSnapshot D)).

(** With a check that always passes nobody consumes a number without being one. *)
Lemma climb_always {E} leaders ck limit b b' rank_of st ns : (∀ v, ck v = true) →
  climb_nodes (climb_node (E := E) leaders ck b rank_of) limit st ns =
  climb_nodes (climb_node leaders ck b' rank_of) limit st ns.
Proof.
  intros Hck. assert (Hturn : ∀ st v, climb_node (E := E) leaders ck b rank_of st v = climb_node leaders ck b' rank_of st v)
    by (intros st' v; unfold climb_node; by rewrite Hck).
  revert st. induction ns as [|n ns IH]; intros st; cbn [climb_nodes]; [done|].
  rewrite Hturn. destruct (limit <=? c_gen st)%N; [done|]. destruct (climb_node _ _ _ _ _ _); cbn; auto.
Qed.

Lemma count_always {E} u leaders ck limit b b' snaps ws : (∀ v, ck v = true) →
  count_generations_upward_instrumented (E := E) (D := D) tree u leaders ck limit b snaps ws =
  count_generations_upward_instrumented tree u leaders ck limit b' snaps ws.
Proof.
  intros Hck. unfold count_generations_upward_instrumented. destruct (get_upline tree u 0) as [ns| | |]; [|done..].
  by rewrite (climb_always _ _ _ b b').
Qed.

Lemma pay_source_flag cache cfg b multiplier leaders limit keep stamp acc src : ineligible_creates_boundary cfg = true →
  pay_source tree (with_empty_flag b cfg) cache snapshots multiplier leaders limit keep stamp acc src =
  pay_source tree cfg cache snapshots multiplier leaders limit keep stamp acc src.
Proof.
  intros Hb. destruct acc as [es ws]. unfold pay_source.
  rewrite (count_always _ _ _ _ (empty_generation_consumes_number (with_empty_flag b cfg)) (empty_generation_consumes_number cfg)); [done|].
  intros v. unfold boundary_check. cbn. by rewrite Hb.
Qed.

(** When ineligible leaders create boundaries, which is the default, the
    switch for empty generations changes nothing: the result is the same with it on
    and off. *)
Theorem empty_generation_switch_inert plan (structure : GenerationStructureConfig D) volume identity b :
  ineligible_creates_boundary (generation_commission structure) = true →
  calculate_generation tree plan (set_empty_flag b structure) snapshots volume identity =
  calculate_generation tree plan structure snapshots volume identity.
Proof.
  intros Hb. pose proof (λ cache multiplier leaders limit keep stamp acc src,
    pay_source_flag cache (generation_commission structure) b multiplier leaders limit keep stamp acc src Hb) as Hpay.
  unfold calculate_generation.
  destruct (plan_minor_units plan); [|done..]. cbn [mbind outcome_bind].
  destruct (validate_snapshots _ _ _) as [[]| | |]; [|done..]. cbn [mbind outcome_bind].
  destruct (evaluate_eligibility _ _ _) as [cache| | |]; [|done..]. cbn [mbind outcome_bind].
  change (level_part tree plan (set_empty_flag b structure)) with (level_part tree plan structure).
  destruct (level_part _ _ _ _ _ _ _) as [acc| | |]; [|done..]. cbn [mbind outcome_bind].
  destruct (for_each _ _) as [[]| | |]; [|done..]. cbn [mbind outcome_bind].
  set (ordinals := build_rank_ordinals plan). f_equal. cbn [boundary_mode boundary_rank generation_commission set_empty_flag with_empty_flag].
  destruct (boundary_mode _).
  - destruct (ordinals !! _) as [t|]; [|done]. apply fold_outcome_ext. intros st src. apply Hpay.
  - apply fold_outcome_ext. intros st [n o]. apply fold_outcome_ext. intros st' src. apply Hpay.
Qed.
End empty_flag.
