(* ===== verification/Stairstep.v ===== *)
(** * The stairstep calculator: [commission/stairstep.rs] and [config/stairstep.rs]

    A leader whose rank reaches a threshold breaks away with the group below it.
    The first walk pays level commissions inside each group; the second pays
    overrides on the volume of each broken-away group, to the nearest ancestor that
    qualifies, by generations of leaders, or by a ladder of tiers. Log lines are left
    out. *)

From stdpp Require Import base numbers list gmap sorting strings.
From Stdlib Require Import ZArith Lia.
From S2P Require Import Prelude RustDecimal Dec TreeTypes Arena Unilevel Navigator CommissionTypes Walk Currency WalkOrder Generation.

Module Stairstep.
(** ** Configuration *)
Section config.
Context (D : Type).

Inductive MinOverride :=
| MinRate (value : AuthoredDec D)
| MinCurrency (value : AuthoredDec D).

Record DifferentialConfig := mkDifferential { d_rank_rates : gmap string (AuthoredDec D); min_override : MinOverride }.

Record FixedOverrideConfig := mkFixedOverride { f_rank_rates : gmap string (AuthoredDec D) }.

Inductive OverrideMode :=
| Differential (diff : DifferentialConfig)
| FixedOverride (fixed : FixedOverrideConfig).

Record BreakawayGenerationConfig := mkBreakawayGeneration {
  bg_max_generations : N;
  bg_rates : gmap N (AuthoredDec D);
  bg_boundary_rank : string;
}.

Record BreakawayTier := mkTier { min_split_out_groups : N; tier_rate : AuthoredDec D }.

Record MultiTierConfig := mkMultiTier { tiers : list BreakawayTier }.

Inductive OverrideStrategy :=
| SingleWalk (mode : OverrideMode) (generation_overrides : option BreakawayGenerationConfig)
| MultiTier (cfg : MultiTierConfig).

Record BreakawayConfig := mkBreakaway {
  threshold_rank : string;
  exclude_breakaway_gv : bool;
  overrides : OverrideStrategy;
}.

Record StairstepStructureConfig := mkStairstepStructure {
  ss_name : string;
  ss_level_commission : LevelCommissionConfig D;
  ss_compression : option CompressionConfig;
  breakaway : option BreakawayConfig;
}.

(** *** The wire form *)
Inductive OverrideCalculationTag := TagDifferential | TagFixedOverride.

Record SingleWalkWire := mkSingleWalkWire {
  override_calculation : OverrideCalculationTag;
  differential : option DifferentialConfig;
  fixed_override : option FixedOverrideConfig;
  wire_generation : option BreakawayGenerationConfig;
}.

Inductive OverrideStrategyWire :=
| SingleWalkW (w : SingleWalkWire)
| MultiTierW (cfg : MultiTierConfig).

Record BreakawayConfigWire := mkBreakawayWire {
  w_threshold_rank : string;
  w_exclude_breakaway_gv : bool;
  w_overrides : OverrideStrategyWire;
}.

(** [E::custom]: a message. *)
Definition into_strategy (w : SingleWalkWire) : outcome string OverrideStrategy :=
  mode ← match override_calculation w with
         | TagDifferential =>
             refuse_if (bool_decide (fixed_override w ≠ None))
               "fixed_override config must be null when override_calculation is differential";;
             diff ← ok_or (differential w) "differential config is required when override_calculation is differential"%string;
             Ok (Differential diff)
         | TagFixedOverride =>
             refuse_if (bool_decide (differential w ≠ None))
               "differential config must be null when override_calculation is fixed_override";;
             fixed ← ok_or (fixed_override w) "fixed_override config is required when override_calculation is fixed_override"%string;
             Ok (FixedOverride fixed)
         end;
  Ok (SingleWalk mode (wire_generation w)).

Definition single_walk_to_wire (mode : OverrideMode) (generation : option BreakawayGenerationConfig) : SingleWalkWire :=
  let '(tag, diff, fixed) := match mode with
                             | Differential diff => (TagDifferential, Some diff, None)
                             | FixedOverride fixed => (TagFixedOverride, None, Some fixed)
                             end in
  mkSingleWalkWire tag diff fixed generation.

(** The conversion after serde has read the wire form. *)
Definition from_wire (wire : BreakawayConfigWire) : outcome string BreakawayConfig :=
  overrides ← match w_overrides wire with
              | SingleWalkW single => into_strategy single
              | MultiTierW multi => Ok (MultiTier multi)
              end;
  Ok (mkBreakaway (w_threshold_rank wire) (w_exclude_breakaway_gv wire) overrides).

Definition to_wire (config : BreakawayConfig) : BreakawayConfigWire :=
  let overrides := match overrides config with
                   | SingleWalk mode generation_overrides => SingleWalkW (single_walk_to_wire mode generation_overrides)
                   | MultiTier multi => MultiTierW multi
                   end in
  mkBreakawayWire (threshold_rank config) (exclude_breakaway_gv config) overrides.
End config.
Arguments MinRate {D} _.
Arguments MinCurrency {D} _.
Arguments mkDifferential {D} _ _.
Arguments mkFixedOverride {D} _.
Arguments Differential {D} _.
Arguments FixedOverride {D} _.
Arguments mkBreakawayGeneration {D} _ _ _.
Arguments mkTier {D} _ _.
Arguments mkMultiTier {D} _.
Arguments SingleWalk {D} _ _.
Arguments MultiTier {D} _.
Arguments mkBreakaway {D} _ _ _.
Arguments mkStairstepStructure {D} _ _ _ _.
Arguments mkSingleWalkWire {D} _ _ _ _.
Arguments SingleWalkW {D} _.
Arguments MultiTierW {D} _.
Arguments mkBreakawayWire {D} _ _ _.
Arguments d_rank_rates {D} _.
Arguments min_override {D} _.
Arguments f_rank_rates {D} _.
Arguments bg_max_generations {D} _.
Arguments bg_rates {D} _.
Arguments bg_boundary_rank {D} _.
Arguments min_split_out_groups {D} _.
Arguments tier_rate {D} _.
Arguments tiers {D} _.
Arguments threshold_rank {D} _.
Arguments exclude_breakaway_gv {D} _.
Arguments overrides {D} _.
Arguments ss_name {D} _.
Arguments ss_level_commission {D} _.
Arguments ss_compression {D} _.
Arguments breakaway {D} _.
Arguments override_calculation {D} _.
Arguments differential {D} _.
Arguments fixed_override {D} _.
Arguments wire_generation {D} _.
Arguments w_threshold_rank {D} _.
Arguments w_exclude_breakaway_gv {D} _.
Arguments w_overrides {D} _.
Arguments into_strategy {D} _.
Arguments single_walk_to_wire {D} _ _.
Arguments from_wire {D} _.
Arguments to_wire {D} _.

(** ** Preparation *)
Inductive Gen1Payout (D : Type) :=
| Rate (r : D)
| PayCurrency (amount : D)
| Nothing.
Arguments Rate {D} r.
Arguments PayCurrency {D} amount.
Arguments Nothing {D}.

Record PrepResult (D : Type) := mkPrep {
  pr_eligibility : gmap Uuid EligibilityResult;
  breakaways : gset Uuid;
  group_volumes : gmap Uuid D;
  group_leaders : gmap Uuid Uuid;
  first_line_split_outs : gmap Uuid N;
}.
Arguments mkPrep {D} _ _ _ _ _.
Arguments pr_eligibility {D} _.
Arguments breakaways {D} _.
Arguments group_volumes {D} _.
Arguments group_leaders {D} _.
Arguments first_line_split_outs {D} _.

Section stairstep.
Context {D : Type} `{!DecimalOps D}.
Abbreviation calc := (outcome (CalculationError D)).
Abbreviation utree := Unilevel.Unilevel.UnilevelTree.

Definition identify_breakaways (structure : StairstepStructureConfig D) (snapshots : gmap Uuid (DistributorSnapshot D))
  (ordinals : gmap string N) : gset Uuid :=
  match breakaway structure with
  | None => ∅
  | Some b =>
      match ordinals !! threshold_rank b with
      | None => ∅
      | Some threshold => dom (filter (λ e, (threshold ≤ default 0 (ordinals !! rank e.2))%N) snapshots)
      end
  end.

Definition sorted_ids (set : gset Uuid) : list Uuid := sort_by N.compare (elements set).

Definition find_group_leader {E} (tree : utree) (u : Uuid) (breakaways : gset Uuid) : outcome E Uuid :=
  if bool_decide (u ∈ breakaways) then Ok u
  else
    match get_upline tree u 0 with
    | Err _ => Ok u
    | Panic => Panic
    | Hang => Hang
    | Ok upline =>
        Ok match list_find (λ n, user_id n ∈ breakaways) upline with
           | Some (_, n) => user_id n
           | None => from_option user_id u (last upline)
           end
    end.

(** One snapshot joins its group. *)
Definition add_to_group (tree : utree) (snapshots : gmap Uuid (DistributorSnapshot D)) (breakaways : gset Uuid)
  (acc : gmap Uuid D * gmap Uuid Uuid) (u : Uuid) : outcome (NumericError D) (gmap Uuid D * gmap Uuid Uuid) :=
  let '(volumes, leaders) := acc in
  snapshot ← expect (snapshots !! u);
  leader ← find_group_leader tree u breakaways;
  let leaders := <[u := leader]> leaders in
  total ← try_add (default DZERO (volumes !! leader)) (dec (personal_volume snapshot));
  Ok (<[leader := total]> volumes, leaders).

Definition build_group_volumes (tree : utree) (snapshots : gmap Uuid (DistributorSnapshot D)) (breakaways : gset Uuid)
  : outcome (NumericError D) (gmap Uuid D * gmap Uuid Uuid) :=
  fold_outcome (add_to_group tree snapshots breakaways) (∅, ∅) (sort_by N.compare (elements (dom snapshots))).

Definition count_split_out {E} (tree : utree) (breakaways : gset Uuid) (counts : gmap Uuid N) (b : Uuid)
  : outcome E (gmap Uuid N) :=
  match get_parent tree b with
  | Panic => Panic
  | Hang => Hang
  | Err _ | Ok None => Ok counts
  | Ok (Some parent) =>
      owner ← find_group_leader tree (user_id parent) breakaways;
      n ← u32_add (default 0%N (counts !! owner)) 1;
      Ok (<[owner := n]> counts)
  end.

Definition count_first_line_split_outs {E} (tree : utree) (breakaways : gset Uuid) : outcome E (gmap Uuid N) :=
  fold_outcome (count_split_out tree breakaways) ∅ (elements breakaways).

Definition prep (tree : utree) (plan : CompensationPlan D) (structure : StairstepStructureConfig D)
  (snapshots : gmap Uuid (DistributorSnapshot D)) (ordinals : gmap string N) : calc (PrepResult D) :=
  cache ← evaluate_eligibility snapshots tree (eligibility plan);
  let set := identify_breakaways structure snapshots ordinals in
  '(volumes, leaders) ← map_err Numeric (build_group_volumes tree snapshots set);
  split_outs ← count_first_line_split_outs tree set;
  Ok (mkPrep cache set volumes leaders split_outs).

(** ** Overrides *)
Definition resolve_gen1_payout (mode : OverrideMode D) (ancestor_rank breakaway_rank : string)
  : outcome (NumericError D) (Gen1Payout D) :=
  match mode with
  | Differential diff =>
      let rate_of := λ r, from_option dec DZERO (d_rank_rates diff !! r) in
      let ancestor_rate := rate_of ancestor_rank in
      gap ← try_sub ancestor_rate (rate_of breakaway_rank);
      if dec_ltb DZERO gap then Ok (Rate gap)
      else if dec_leb ancestor_rate DZERO then Ok Nothing
      else Ok match min_override diff with
              | MinRate v => if dec_ltb DZERO (dec v) then Rate (dec v) else Nothing
              | MinCurrency v => if dec_ltb DZERO (dec v) then PayCurrency (dec v) else Nothing
              end
  | FixedOverride fixed =>
      let r := from_option dec DZERO (f_rank_rates fixed !! ancestor_rank) in
      Ok (if dec_ltb DZERO r then Rate r else Nothing)
  end.

Definition payable (pr : PrepResult D) (u : Uuid) : bool :=
  match pr_eligibility pr !! u with Some e => eligible e | None => false end.

(** The rate and amount a resolved payout draws from the pool, if it is paid. *)
Definition draw (pool : D) (p : Gen1Payout D) : calc (option (option D * D)) :=
  match p with
  | Nothing => Ok None
  | Rate r => x ← try_mul_calc pool r; Ok (Some (Some r, x))
  | PayCurrency amount => if dec_ltb pool amount then Ok None else Ok (Some (None, amount))
  end.

Definition override_earning (earner source : Uuid) (lvl : N) (group_vol : D) (p : option D * D) : CommissionEarning D :=
  mkEarning earner source lvl p.1 group_vol p.2 None.

Section single.
Context (tree : utree) (snapshots : gmap Uuid (DistributorSnapshot D)) (pr : PrepResult D).
Context (broad_pct multiplier : D) (mode : OverrideMode D).

Definition pool_of (group_vol : D) : calc D := x ← try_mul_calc group_vol broad_pct; try_mul_calc x multiplier.

(** An ancestor met by the generation count. *)
Definition pay_generation (rates : gmap N (AuthoredDec D)) (source : Uuid) (breakaway_rank : string) (group_vol : D)
  (es : list (CommissionEarning D)) (entry : Generation.GenerationEntry) : calc (list (CommissionEarning D)) :=
  let earner := Generation.ge_earner_id entry in
  let generation := Generation.ge_generation entry in
  if negb (payable pr earner) then Ok es
  else
    pool ← pool_of group_vol;
    if (generation =? 1)%N then
      s ← ok_or (snapshots !! earner) (UplineNotInSnapshot earner);
      p ← map_err Numeric (resolve_gen1_payout mode (rank s) breakaway_rank);
      line ← draw pool p;
      Ok match line with
         | None => es
         | Some l => es ++ [override_earning earner source generation group_vol l]
         end
    else
      let r := from_option dec DZERO (rates !! generation) in
      if dec_ltb DZERO r then
        x ← try_mul_calc pool r;
        Ok (es ++ [override_earning earner source generation group_vol (Some r, x)])
      else Ok es.

(** Without generations the first ancestor that qualifies is paid. *)
Fixpoint pay_nearest (source : Uuid) (breakaway_rank : string) (group_vol : D) (es : list (CommissionEarning D))
  (upline : list Node) : calc (list (CommissionEarning D)) :=
  match upline with
  | [] => Ok es
  | n :: upline' =>
      if negb (payable pr (user_id n)) then pay_nearest source breakaway_rank group_vol es upline'
      else
        s ← ok_or (snapshots !! user_id n) (UplineNotInSnapshot (user_id n));
        pool ← pool_of group_vol;
        p ← map_err Numeric (resolve_gen1_payout mode (rank s) breakaway_rank);
        line ← draw pool p;
        match line with
        | None => pay_nearest source breakaway_rank group_vol es upline'
        | Some l => Ok (es ++ [override_earning (user_id n) source 1 group_vol l])
        end
  end.

Definition single_override (generations : option (BreakawayGenerationConfig D * gset Uuid))
  (es : list (CommissionEarning D)) (b : Uuid) : calc (list (CommissionEarning D)) :=
  let group_vol := default DZERO (group_volumes pr !! b) in
  if dec_leb group_vol DZERO then Ok es
  else
    s ← ok_or (snapshots !! b) (DistributorNotInSnapshot b);
    match generations with
    | Some (cfg, candidates) =>
        entries ← Generation.count_generations_upward (D := D) tree b candidates (λ _, true) (bg_max_generations cfg) false;
        fold_outcome (pay_generation (bg_rates cfg) b (rank s) group_vol) es entries
    | None =>
        match get_upline tree b 0 with
        | Err _ => Ok es
        | Panic => Panic
        | Hang => Hang
        | Ok upline => pay_nearest b (rank s) group_vol es upline
        end
    end.
End single.

(** The leaders that bound a generation, if the boundary rank is known. *)
Definition override_candidates (generation_overrides : option (BreakawayGenerationConfig D))
  (snapshots : gmap Uuid (DistributorSnapshot D)) (ordinals : gmap string N)
  : option (BreakawayGenerationConfig D * gset Uuid) :=
  cfg ← generation_overrides;
  boundary ← ordinals !! bg_boundary_rank cfg;
  Some (cfg, dom (filter (λ e, (boundary ≤ default 0 (ordinals !! rank e.2))%N) snapshots)).

Definition walk_single_overrides (tree : utree) (structure : StairstepStructureConfig D)
  (snapshots : gmap Uuid (DistributorSnapshot D)) (pr : PrepResult D) (ordinals : gmap string N) (multiplier : D)
  : calc (list (CommissionEarning D)) :=
  let broad_pct := dec (broad_commission_percent (ss_level_commission structure)) in
  b ← expect (breakaway structure);
  match overrides b with
  | MultiTier _ => Panic
  | SingleWalk mode generation_overrides =>
      fold_outcome (single_override tree snapshots pr broad_pct multiplier mode
        (override_candidates generation_overrides snapshots ordinals)) [] (sorted_ids (breakaways pr))
  end.

Definition qualifies_for_tier (pr : PrepResult D) (depth_floor : N) (tier : BreakawayTier D) (entry : Generation.GenerationEntry) : bool :=
  (depth_floor <=? Generation.ge_generation entry)%N && payable pr (Generation.ge_earner_id entry) &&
  (min_split_out_groups tier <=? default 0 (first_line_split_outs pr !! Generation.ge_earner_id entry))%N.

Definition pay_tier (pr : PrepResult D) (multiplier : D) (source : Uuid) (group_vol : D)
  (ancestors : list Generation.GenerationEntry) (es : list (CommissionEarning D)) (t : nat * BreakawayTier D)
  : outcome (NumericError D) (list (CommissionEarning D)) :=
  let '(tier_index, tier) := t in
  depth_floor ← Generation.u8_add (N.of_nat tier_index) 1;
  match list_find (λ entry, qualifies_for_tier pr depth_floor tier entry = true) ancestors with
  | None => Ok es
  | Some (_, entry) =>
      x ← try_mul group_vol multiplier;
      x ← try_mul x (dec (tier_rate tier));
      Ok (es ++ [override_earning (Generation.ge_earner_id entry) source depth_floor group_vol (Some (dec (tier_rate tier)), x)])
  end.

Definition tier_override (tree : utree) (config : MultiTierConfig D) (pr : PrepResult D) (multiplier : D)
  (es : list (CommissionEarning D)) (source : Uuid) : outcome (NumericError D) (list (CommissionEarning D)) :=
  let group_vol := default DZERO (group_volumes pr !! source) in
  if dec_leb group_vol DZERO then Ok es
  else
    ancestors ← Generation.count_generations_upward (D := D) tree source (breakaways pr) (λ _, true) 255 false;
    fold_outcome (pay_tier pr multiplier source group_vol ancestors) es (enumerate (tiers config)).

Definition walk_multi_tier_overrides (tree : utree) (config : MultiTierConfig D) (pr : PrepResult D) (multiplier : D)
  : outcome (NumericError D) (list (CommissionEarning D)) :=
  fold_outcome (tier_override tree config pr multiplier) [] (sorted_ids (breakaways pr)).

Definition walk_overrides (tree : utree) (structure : StairstepStructureConfig D)
  (snapshots : gmap Uuid (DistributorSnapshot D)) (pr : PrepResult D) (ordinals : gmap string N) (multiplier : D)
  : calc (list (CommissionEarning D)) :=
  match breakaway structure with
  | None => Ok []
  | Some b =>
      match overrides b with
      | SingleWalk _ _ => walk_single_overrides tree structure snapshots pr ordinals multiplier
      | MultiTier cfg => map_err Numeric (walk_multi_tier_overrides tree cfg pr multiplier)
      end
  end.

(** ** The calculator *)

(** The group boundary of a source: an ancestor led by somebody else. *)
Definition leaves_group (pr : PrepResult D) (source_leader : Uuid) (u : Uuid) : bool :=
  match group_leaders pr !! u with
  | Some leader => bool_decide (leader ≠ source_leader)
  | None => false
  end.

Definition walk_group (tree : utree) (config : LevelWalkConfig (D := D)) (snapshots : gmap Uuid (DistributorSnapshot D))
  (pr : PrepResult D) (acc : list (CommissionEarning D) * list Walk) (source : VolumeSource D)
  : calc (list (CommissionEarning D) * list Walk) :=
  let '(es, ws) := acc in
  let source_leader := default (vs_source_id source) (group_leaders pr !! vs_source_id source) in
  '(new, ws) ← walk_level_commissions tree config (pr_eligibility pr) snapshots [source] (leaves_group pr source_leader) ws;
  Ok (es ++ new, ws).

Definition calculate_stairstep (tree : utree) (plan : CompensationPlan D) (structure : StairstepStructureConfig D)
  (snapshots : gmap Uuid (DistributorSnapshot D)) (volume : list (VolumeSource D)) (identity : PlanIdentity)
  : calc (CommissionCalculationResult D) :=
  minor_units ← plan_minor_units plan;
  validate_snapshots plan snapshots (user_ids tree);;
  let ordinals := build_rank_ordinals plan in
  pr ← prep tree plan structure snapshots ordinals;
  let lc := ss_level_commission structure in
  let mult := dec (default (vc_volume_to_dollar_multiplier (volume_config plan)) (lc_volume_to_dollar_multiplier lc)) in
  let comp := ss_compression structure in
  let config := mkLevelWalkConfig (lc_max_depth lc) (dec (broad_commission_percent lc)) mult comp
                  (resolve_threshold_ordinal comp ordinals) ordinals (rate_table lc) None None in
  '(es, ws) ← fold_outcome (walk_group tree config snapshots pr) ([], []) volume;
  os ← walk_overrides tree structure snapshots pr ordinals mult;
  assemble (es ++ os) ws volume ordinals identity minor_units.
End stairstep.
End Stairstep.
