(* ===== verification/StairstepGroups.v ===== *)
(** * Breakaway groups

    Who leads whom, stated on the tree: a breakaway and the root lead themselves,
    everybody else is led by whoever leads its parent. The preparation pass assigns
    exactly these leaders, its group volumes are the exact sums over the groups, so
    nothing is lost or counted twice, and the split-out counts are numbers of
    breakaways. *)

From stdpp Require Import base numbers list gmap sorting strings.
From Stdlib Require Import ZArith Lia.
From S2P Require Import Prelude RustDecimal Dec Allocate TreeTypes Arena ArenaWf ArenaOps ArenaWalk Unilevel Navigator CommissionTypes Walk Currency BinaryLegs GenerationSpec Stairstep.
Import Stairstep.

(** ** Chains of ancestors *)
Section chains.
Context (tree : Unilevel.Unilevel.UnilevelTree) (Hwf : arena_wf (Unilevel.Unilevel.arena tree)).
Abbreviation a := (Unilevel.Unilevel.arena tree).

(** The upline of a member is its parent followed by the parent's own upline. *)
Lemma upline_parent u : contains tree u = true →
  (get_parent tree u = Ok None ∧ upline_of tree u = []) ∨
  ∃ p, get_parent tree u = Ok (Some p) ∧ contains tree (user_id p) = true ∧
    upline_of tree u = user_id p :: upline_of tree (user_id p).
Proof using Hwf.
  intros [i Hi]%contains_spec. destruct (resolve_live a Hwf u i Hi) as (n & Hn & Hu & Hnil).
  destruct (get_upline_exact a u i n 0 Hwf Hi Hn) as (l & Hup & Hpath & _).
  unfold upline_of, get_upline, get_parent, contains, unilevel_navigator. rewrite Hup.
  unfold Query.get_parent. rewrite (resolve_ok a u i Hi). cbn [mbind outcome_bind].
  rewrite (node_ok a i n Hn) by congruence. cbn [mbind outcome_bind].
  destruct (parent n) as [p|] eqn:Hp; [|left; inversion Hpath; subst; by split].
  right. destruct (wf_parent_live a Hwf i n p Hn Hp) as (np & Hnp & _ & Hl). exists np.
  rewrite (node_ok a p np Hnp Hl). split; [done|]. pose proof (live_indexed a Hwf p np Hnp Hl) as Hpi.
  split; [by apply contains_spec; exists p|]. destruct (get_upline_exact a _ p np 0 Hwf Hpi Hnp) as (l' & Hup' & Hpath' & _).
  rewrite Hup'. inversion Hpath as [|p' np' l0 Hnp' Hl0]; subst. assert (np' = np) as -> by congruence.
  rewrite (up_path_det _ _ _ _ _ Hl0 Hpath'). cbn. by rewrite (at_slots_cons _ _ _ _ Hnp).
Qed.

Lemma upline_outside u : contains tree u = false → upline_of tree u = [].
Proof using Hwf. intros Hc. unfold upline_of. by rewrite (nav_upline_unknown tree u Hwf Hc). Qed.

Lemma upline_known u v : v ∈ upline_of tree u → contains tree v = true.
Proof using Hwf.
  destruct (contains tree u) eqn:Hc; [|rewrite upline_outside by done; by intros ?%elem_of_nil].
  destruct (nav_upline tree u Hwf Hc) as (ns & Hns & _ & Hall). unfold upline_of. rewrite Hns.
  intros (n & -> & Hn)%list_elem_of_fmap. by apply Hall.
Qed.

(** Induction from the root down. *)
Lemma chain_ind (P : Uuid → Prop) :
  (∀ u, upline_of tree u = [] → P u) →
  (∀ u p, contains tree u = true → get_parent tree u = Ok (Some p) → upline_of tree u = user_id p :: upline_of tree (user_id p) →
    P (user_id p) → P u) → ∀ u, P u.
Proof using Hwf.
  intros Hroot Hstep u. remember (length (upline_of tree u)) as k eqn:Hk. revert u Hk.
  induction k as [|k IH]; intros u Hk.
  - apply Hroot. by apply nil_length_inv.
  - destruct (contains tree u) eqn:Hc; [|rewrite upline_outside in Hk by done; done].
    destruct (upline_parent u Hc) as [[_ H0]|(p & Hp & _ & Hup)]; [rewrite H0 in Hk; done|].
    apply (Hstep u p Hc Hp Hup). apply IH. rewrite Hup in Hk. by injection Hk.
Qed.

(** ** Leaders *)
Context (brk : gset Uuid).

(** The nearest breakaway of the chain, or its end. *)
Definition leader_of (u : Uuid) : Uuid :=
  match filter (λ v, v ∈ brk) (u :: upline_of tree u) with
  | b :: _ => b
  | [] => default u (last (upline_of tree u))
  end.

Lemma find_group_leader_spec {E} u : find_group_leader (E := E) tree u brk = Ok (leader_of u).
Proof using Hwf.
  unfold find_group_leader, leader_of. rewrite filter_cons. destruct (decide (u ∈ brk)) as [Hu|Hu].
  { by rewrite bool_decide_eq_true_2. }
  rewrite bool_decide_eq_false_2 by done. unfold upline_of. destruct (contains tree u) eqn:Hc.
  - destruct (nav_upline tree u Hwf Hc) as (ns & -> & _). f_equal. clear.
    assert (H : filter (λ v, v ∈ brk) (user_id <$> ns) =
      match list_find (λ n, user_id n ∈ brk) ns with
      | Some (i, n) => user_id n :: filter (λ v, v ∈ brk) (user_id <$> drop (S i) ns)
      | None => []
      end).
    { induction ns as [|n ns IH]; [done|]. cbn [fmap list_fmap list_find]. rewrite filter_cons. destruct (decide (user_id n ∈ brk)); [done|].
      rewrite IH. by destruct (list_find _ ns) as [[i m]|]. }
    rewrite H. destruct (list_find _ ns) as [[i m]|]; [done|]. rewrite fmap_last. by destruct (last ns).
  - by rewrite (nav_upline_unknown tree u Hwf Hc).
Qed.

Lemma leader_breakaway u : u ∈ brk → leader_of u = u.
Proof. intros Hu. unfold leader_of. by rewrite filter_cons_True. Qed.

Lemma leader_end u : upline_of tree u = [] → leader_of u = u.
Proof. intros Hu. unfold leader_of. rewrite Hu, filter_cons. by destruct (decide _). Qed.

Lemma leader_parent u p : u ∉ brk → upline_of tree u = p :: upline_of tree p → leader_of u = leader_of p.
Proof.
  intros Hu Hup. unfold leader_of. rewrite (filter_cons_False _ u) by done. rewrite Hup.
  destruct (filter _ (p :: upline_of tree p)); [|done]. rewrite last_cons. by destruct (last (upline_of tree p)).
Qed.

(** A leader leads itself, and is a breakaway or has nobody above. *)
Lemma leader_leads u : leader_of (leader_of u) = leader_of u ∧ (leader_of u ∈ brk ∨ upline_of tree (leader_of u) = []) ∧
  leader_of u ∈ u :: upline_of tree u.
Proof using Hwf.
  induction u as [u Hu|u p Hc Hp Hup IH] using chain_ind.
  - rewrite (leader_end u Hu). split_and!; [by apply leader_end|by right|left].
  - destruct (decide (u ∈ brk)) as [Hb|Hb].
    + rewrite (leader_breakaway u Hb). split_and!; [by apply leader_breakaway|by left|left].
    + rewrite (leader_parent u (user_id p) Hb Hup). destruct IH as (H1 & H2 & H3). split_and!; [done..|].
      rewrite Hup. by right.
Qed.
End chains.

(** ** Group volumes *)
Section volumes.
Context {D : Type} `{!DecimalOps D, !DecimalLaws D}.
Context (tree : Unilevel.Unilevel.UnilevelTree) (Hwf : arena_wf (Unilevel.Unilevel.arena tree)) (brk : gset Uuid).
Context (snapshots : gmap Uuid (DistributorSnapshot D)).
Abbreviation leader := (leader_of tree brk).

Definition personal_units (u : Uuid) : Z := from_option (λ s, units (dec (personal_volume s))) 0%Z (snapshots !! u).

(** The members of a group, out of a list. *)
Definition led_by (l : Uuid) (us : list Uuid) : list Uuid := filter (λ u, leader u = l) us.

Definition volume_of (us : list Uuid) : Z := sumZ (personal_units <$> us).

(** The groups of [us] with the volumes [volumes] and the leaders [leaders]. *)
Record grouped (us : list Uuid) (volumes : gmap Uuid D) (leaders : gmap Uuid Uuid) : Prop := {
  gr_leaders u : leaders !! u = if decide (u ∈ us) then Some (leader u) else None;
  gr_volumes l : match volumes !! l with
                 | Some v => led_by l us ≠ [] ∧ units v = volume_of (led_by l us)
                 | None => led_by l us = []
                 end;
}.

Lemma grouped_nil : grouped [] ∅ ∅.
Proof. split; [done|]. intros l. by rewrite lookup_empty. Qed.

Lemma led_by_snoc l us u : led_by l (us ++ [u]) = led_by l us ++ (if decide (leader u = l) then [u] else []).
Proof. unfold led_by. rewrite filter_app, filter_cons. by destruct (decide _). Qed.

Lemma volume_of_app us vs : volume_of (us ++ vs) = (volume_of us + volume_of vs)%Z.
Proof. unfold volume_of. by rewrite fmap_app, sumZ_app. Qed.

Lemma group_units us volumes leaders l : grouped us volumes leaders →
  units (default DZERO (volumes !! l)) = volume_of (led_by l us).
Proof using DecimalLaws0.
  intros Hg. pose proof (gr_volumes _ _ _ Hg l) as Hl. destruct (volumes !! l); cbn; [apply Hl|].
  rewrite Hl. apply zero_units.
Qed.

Lemma add_to_group_spec us volumes leaders u s : snapshots !! u = Some s → grouped us volumes leaders →
  returns (λ acc, grouped (us ++ [u]) acc.1 acc.2) (λ _, True) (add_to_group tree snapshots brk (volumes, leaders) u).
Proof using Hwf DecimalLaws0.
  intros Hs Hg. unfold add_to_group. rewrite Hs. cbn [expect mbind outcome_bind].
  rewrite (find_group_leader_spec tree Hwf). cbn [mbind outcome_bind].
  pose proof (returns_try_add (default DZERO (volumes !! leader u)) (dec (personal_volume s))) as Hadd.
  destruct (try_add _ _) as [total| | |]; cbn; [|done..]. rewrite (group_units _ _ _ _ Hg) in Hadd. split; cbn.
  - intros v. rewrite lookup_insert, (gr_leaders _ _ _ Hg). destruct (decide (u = v)) as [<-|Hne].
    + rewrite decide_True; [done|]. apply elem_of_app. right. left.
    + apply decide_ext. rewrite elem_of_app, list_elem_of_singleton. naive_solver.
  - intros l. rewrite lookup_insert, led_by_snoc. destruct (decide (leader u = l)) as [<-|Hne].
    + split; [by destruct (led_by _ us)|]. rewrite volume_of_app, Hadd. f_equal. unfold volume_of, personal_units. cbn.
      rewrite Hs. cbn. lia.
    + rewrite app_nil_r. apply (gr_volumes _ _ _ Hg).
Qed.

Lemma build_group_volumes_spec :
  returns (λ acc, grouped (sort_by N.compare (elements (dom snapshots))) acc.1 acc.2) (λ _, True)
    (build_group_volumes tree snapshots brk).
Proof using Hwf DecimalLaws0.
  unfold build_group_volumes. apply (returns_fold _ (λ us acc, grouped us acc.1 acc.2)); [apply grouped_nil|].
  intros pre u post [volumes leaders] Hl Hg. destruct (snapshots !! u) as [s|] eqn:Hs; [by eapply add_to_group_spec|].
  exfalso. apply not_elem_of_dom in Hs. apply Hs. apply elem_of_elements. rewrite <- (sort_by_perm N.compare), Hl.
  apply elem_of_app. right. left.
Qed.

Lemma sumZ_cons x l : sumZ (x :: l) = (x + sumZ l)%Z.
Proof. done. Qed.

Lemma led_by_cons l u us : led_by l (u :: us) = if decide (leader u = l) then u :: led_by l us else led_by l us.
Proof. exact (filter_cons (λ u, leader u = l) u us). Qed.

Lemma volume_of_cons u us : volume_of (u :: us) = (personal_units u + volume_of us)%Z.
Proof. done. Qed.

Lemma sum_indicator (k : Uuid) (x : Z) keys : NoDup keys → k ∈ keys →
  sumZ ((λ l, if decide (k = l) then x else 0%Z) <$> keys) = x.
Proof.
  induction keys as [|l keys IH]; [by intros _ ?%elem_of_nil|]. intros [Hl Hnd]%NoDup_cons Hk.
  cbn [fmap list_fmap]. rewrite sumZ_cons.
  destruct (decide (k = l)) as [<-|Hne].
  - assert (sumZ ((λ l, if decide (k = l) then x else 0%Z) <$> keys) = 0%Z) as ->; [|lia]. clear -Hl.
    induction keys as [|l keys IH]; [done|]. apply not_elem_of_cons in Hl as [Hl1 Hl2].
    cbn [fmap list_fmap]. rewrite sumZ_cons, decide_False by done. rewrite IH by done. done.
  - rewrite IH; [lia|done|]. apply elem_of_cons in Hk as [?|?]; done.
Qed.

Lemma sum_groups keys us : NoDup keys → (∀ u, u ∈ us → leader u ∈ keys) →
  sumZ ((λ l, volume_of (led_by l us)) <$> keys) = volume_of us.
Proof.
  intros Hnd. induction us as [|u us IH]; intros Hin.
  - clear. induction keys as [|l keys IH]; [done|]. cbn. exact IH.
  - transitivity (sumZ ((λ l, if decide (leader u = l) then personal_units u else 0%Z) <$> keys) +
      sumZ ((λ l, volume_of (led_by l us)) <$> keys))%Z.
    + clear. induction keys as [|l keys IH]; [done|]. cbn [fmap list_fmap]. rewrite !sumZ_cons, IH, led_by_cons.
      destruct (decide (leader u = l)); [rewrite volume_of_cons|]; lia.
    + rewrite sum_indicator, IH; [done|intros v Hv; apply Hin; by right|done|apply Hin; left].
Qed.

(** Summed over the leaders, the groups hold everyone's volume once. *)
Lemma groups_conserve us volumes leaders : grouped us volumes leaders →
  sumZ (units <$> (map_to_list volumes).*2) = volume_of us.
Proof using DecimalLaws0.
  intros Hg. rewrite <- (sum_groups (map_to_list volumes).*1).
  - f_equal. rewrite <- !list_fmap_compose. apply list_fmap_ext. intros i [l v] Hi. cbn.
    apply list_elem_of_lookup_2, elem_of_map_to_list in Hi. pose proof (gr_volumes _ _ _ Hg l) as Hl. rewrite Hi in Hl. apply Hl.
  - apply NoDup_fst_map_to_list.
  - intros u Hu. pose proof (gr_volumes _ _ _ Hg (leader u)) as Hl. destruct (volumes !! leader u) as [v|] eqn:Hv.
    + apply list_elem_of_fmap. exists (leader u, v). split; [done|by apply elem_of_map_to_list].
    + exfalso. assert (u ∈ led_by (leader u) us) as H by (by apply list_elem_of_filter). rewrite Hl in H. by apply elem_of_nil in H.
Qed.
End volumes.

(** ** Split-out counts *)
Section split_outs.
Context (tree : Unilevel.Unilevel.UnilevelTree) (Hwf : arena_wf (Unilevel.Unilevel.arena tree)) (brk : gset Uuid).

(** [b] is a first-line split-out of [x]: [x] leads its parent. *)
Definition split_out_of (x b : Uuid) : Prop :=
  match upline_of tree b with p :: _ => leader_of tree brk p = x | [] => False end.
#[export] Instance split_out_of_dec x b : Decision (split_out_of x b).
Proof. unfold split_out_of. destruct (upline_of tree b); apply _. Defined.

Definition split_outs (x : Uuid) (bs : list Uuid) : N := N.of_nat (length (filter (split_out_of x) bs)).

Lemma split_outs_snoc x bs b : split_outs x (bs ++ [b]) = (split_outs x bs + if decide (split_out_of x b) then 1 else 0)%N.
Proof. unfold split_outs. rewrite filter_app, length_app, filter_cons. destruct (decide _); cbn; lia. Qed.

Lemma split_out_none x b : upline_of tree b = [] → ¬ split_out_of x b.
Proof. unfold split_out_of. intros ->. tauto. Qed.

Lemma split_out_iff x b p l : upline_of tree b = p :: l → split_out_of x b ↔ leader_of tree brk p = x.
Proof. unfold split_out_of. by intros ->. Qed.

Lemma count_split_out_spec {E} bs counts b : (N.of_nat (length bs) < u32_max)%N →
  (∀ x, default 0%N (counts !! x) = split_outs x bs) →
  ∃ counts', count_split_out (E := E) tree brk counts b = Ok counts' ∧
    ∀ x, default 0%N (counts' !! x) = split_outs x (bs ++ [b]).
Proof using Hwf.
  intros Hlen Hc. unfold count_split_out. setoid_rewrite split_outs_snoc.
  destruct (contains tree b) eqn:Hb.
  2: { assert (get_parent tree b = Err (UserNotFound b)) as ->.
       { unfold get_parent, unilevel_navigator, Query.get_parent. unfold contains, unilevel_navigator, Query.contains in Hb.
         apply bool_decide_eq_false in Hb. apply eq_None_not_Some in Hb. unfold resolve. by rewrite Hb. }
       exists counts. split; [done|]. intros x.
       rewrite Hc, decide_False by (apply split_out_none, (upline_outside tree Hwf b Hb)). lia. }
  destruct (upline_parent tree Hwf b Hb) as [[-> Hup]|(p & -> & _ & Hup)].
  { exists counts. split; [done|]. intros x. rewrite Hc, decide_False by (by apply split_out_none). lia. }
  rewrite (find_group_leader_spec tree Hwf). cbn [mbind outcome_bind]. unfold u32_add.
  assert (split_outs (leader_of tree brk (user_id p)) bs ≤ N.of_nat (length bs))%N as Hle
    by (unfold split_outs; pose proof (length_filter (split_out_of (leader_of tree brk (user_id p))) bs); lia).
  rewrite Hc. replace (_ <=? u32_max)%N with true by (symmetry; apply N.leb_le; lia). cbn [mbind outcome_bind].
  eexists. split; [done|]. intros x. rewrite lookup_insert. pose proof (split_out_iff x b _ _ Hup) as Hiff.
  destruct (decide (leader_of tree brk (user_id p) = x)) as [<-|Hne].
  - rewrite decide_True by (by apply Hiff). done.
  - rewrite decide_False by (by rewrite Hiff). rewrite Hc. lia.
Qed.

Lemma count_first_line_split_outs_spec {E} : (N.of_nat (size brk) ≤ u32_max)%N →
  ∃ counts, count_first_line_split_outs (E := E) tree brk = Ok counts ∧
    ∀ x, default 0%N (counts !! x) = split_outs x (elements brk).
Proof using Hwf.
  intros Hsize. unfold count_first_line_split_outs.
  assert (∀ post pre counts, elements brk = pre ++ post → (∀ x, default 0%N (counts !! x) = split_outs x pre) →
    ∃ counts', fold_outcome (E := E) (count_split_out tree brk) counts post = Ok counts' ∧
      ∀ x, default 0%N (counts' !! x) = split_outs x (elements brk)) as H; [|by apply (H _ [])].
  induction post as [|b post IH]; intros pre counts Heq Hc; cbn [fold_outcome].
  { rewrite app_nil_r in Heq. exists counts. by rewrite Heq. }
  destruct (count_split_out_spec (E := E) pre counts b) as (counts' & -> & Hc'); [|done|].
  - unfold size, set_size in Hsize. cbn in Hsize. rewrite Heq, length_app in Hsize. cbn in Hsize. lia.
  - cbn [mbind outcome_bind]. apply (IH (pre ++ [b])); [by rewrite <- app_assoc|done].
Qed.
End split_outs.
