(* ===== verification/StairstepPay.v ===== *)
(** * What the overrides pay

    The payouts in units of 10^-28 and without the traversals: what an ancestor of a
    given rank draws from a breakaway's pool ([override_of], [covered]), the nearest
    ancestor that draws something, the generations, and the tiers. The override walk
    pays exactly these dues, each for the exact product or the fixed amount. *)

From stdpp Require Import base numbers list gmap sorting strings.
From Stdlib Require Import ZArith Lia.
From S2P Require Import Prelude RustDecimal Dec TreeTypes Arena ArenaWf Unilevel Navigator CommissionTypes Walk WalkSpec WalkPrepare Calculators Currency Generation GenerationSpec Stairstep StairstepGroups.
Import Generation Stairstep.
#[local] Open Scope Z_scope.

(** A payout: a share of the pool, or a fixed amount drawn from it. *)
Inductive share := ShareRate (r : Z) | ShareFixed (c : Z).

(** Who is owed what on which breakaway: a pool of [due_pool / due_scale] units. *)
Record override_due (D : Type) := mkDue {
  due_earner : Uuid;
  due_source : Uuid;
  due_level : N;
  due_cv : D;
  due_share : share;
  due_pool : Z;
  due_scale : Z;
}.
Arguments mkDue {D} _ _ _ _ _ _ _.
Arguments due_earner {D} _.
Arguments due_source {D} _.
Arguments due_level {D} _.
Arguments due_cv {D} _.
Arguments due_share {D} _.
Arguments due_pool {D} _.
Arguments due_scale {D} _.

Section payouts.
Context {D : Type} `{!DecimalOps D, !DecimalLaws D}.
Abbreviation numeric := (λ e : CalculationError D, ∃ x, e = Numeric x).

Definition rate_units (rates : gmap string (AuthoredDec D)) (r : string) : Z :=
  from_option (λ v, units (dec v)) 0 (rates !! r).

(** What an ancestor of rank [ar] gets on a breakaway of rank [br]. *)
Definition override_of (mode : OverrideMode D) (ar br : string) : option share :=
  match mode with
  | Differential diff =>
      let gap := rate_units (d_rank_rates diff) ar - rate_units (d_rank_rates diff) br in
      if 0 <? gap then Some (ShareRate gap)
      else if rate_units (d_rank_rates diff) ar <=? 0 then None
      else match min_override diff with
           | MinRate v => if 0 <? units (dec v) then Some (ShareRate (units (dec v))) else None
           | MinCurrency v => if 0 <? units (dec v) then Some (ShareFixed (units (dec v))) else None
           end
  | FixedOverride fixed =>
      if 0 <? rate_units (f_rank_rates fixed) ar then Some (ShareRate (rate_units (f_rank_rates fixed) ar)) else None
  end.

(** A fixed amount is paid only out of a pool that covers it. *)
Definition covered (pool : Z) (s : share) : option share :=
  match s with
  | ShareRate _ => Some s
  | ShareFixed c => if c * 10 ^ 56 <=? pool then Some s else None
  end.

Definition drawn (pool : Z) (mode : OverrideMode D) (ar br : string) : option share := override_of mode ar br ≫= covered pool.

(** The line that settles a share. *)
Definition line_settles (s : share) (pool scale : Z) (l : option D * D) : Prop :=
  match s with
  | ShareRate r => ∃ d, l.1 = Some d ∧ units d = r ∧ units l.2 * scale = pool * r
  | ShareFixed c => l.1 = None ∧ units l.2 = c
  end.

Definition settles_due (d : override_due D) (c : CommissionEarning D) : Prop :=
  earner_id c = due_earner d ∧ source_id c = due_source d ∧ level c = due_level d ∧ cv_amount c = due_cv d ∧ walk c = None ∧
  line_settles (due_share d) (due_pool d) (due_scale d) (rate c, dollar_amount c).

(** The model of a payout in units. *)
Definition payout_share (p : Gen1Payout D) : option share :=
  match p with
  | Rate r => Some (ShareRate (units r))
  | PayCurrency c => Some (ShareFixed (units c))
  | Nothing => None
  end.

Lemma rate_units_dec rates r : units (from_option dec DZERO (rates !! r)) = rate_units rates r.
Proof using DecimalLaws0. unfold rate_units. destruct (rates !! r); cbn; [done|apply zero_units]. Qed.

Lemma resolve_spec mode ar br :
  returns (λ p, payout_share p = override_of mode ar br) (λ _, True) (resolve_gen1_payout mode ar br).
Proof using DecimalLaws0.
  unfold resolve_gen1_payout, override_of. destruct mode as [diff|fixed].
  - eapply returns_bind; [apply returns_try_sub|]. cbn beta. intros gap. rewrite !rate_units_dec. intros <-.
    rewrite !dec_ltb_units, !dec_leb_units, rate_units_dec, zero_units.
    destruct (0 <? units gap); [done|]. destruct (_ <=? 0); [done|]. cbn.
    destruct (min_override diff) as [v|v]; rewrite dec_ltb_units, zero_units; by destruct (0 <? _).
  - cbn. rewrite dec_ltb_units, zero_units, rate_units_dec. destruct (0 <? _); cbn; [by rewrite rate_units_dec|done].
Qed.

Definition line_due (o : option share) (pool : Z) (line : option (option D * D)) : Prop :=
  match o, line with
  | Some s, Some l => line_settles s pool (10 ^ 84) l
  | None, None => True
  | _, _ => False
  end.

Lemma returns_mul_calc (x y : D) : returns (λ z, units z * 10 ^ 28 = units x * units y) numeric (try_mul_calc x y).
Proof using DecimalLaws0.
  unfold try_mul_calc. eapply returns_map_err; [apply returns_try_mul|]. eauto.
Qed.

Lemma draw_spec pool P p : units pool * 10 ^ 56 = P → returns (line_due (payout_share p ≫= covered P) P) numeric (draw pool p).
Proof using DecimalLaws0.
  intros HP. destruct p as [r|c|]; cbn [draw payout_share mbind option_bind covered].
  - eapply returns_bind; [apply returns_mul_calc|]. intros x Hx. cbn. exists r. split_and!; [done..|]. cbn in *.
    rewrite <- HP. replace (10 ^ 84) with (10 ^ 28 * 10 ^ 56) by reflexivity. rewrite Z.mul_assoc, Hx. ring.
  - rewrite dec_ltb_units. rewrite <- HP. destruct (Z.ltb_spec (units pool) (units c)) as [Hlt|Hge].
    + replace (units c * 10 ^ 56 <=? units pool * 10 ^ 56) with false; [done|]. symmetry. apply Z.leb_gt. nia.
    + replace (units c * 10 ^ 56 <=? units pool * 10 ^ 56) with true; [by cbn|]. symmetry. apply Z.leb_le. nia.
  - done.
Qed.

Lemma line_spec mode ar br pool P : units pool * 10 ^ 56 = P →
  returns (line_due (drawn P mode ar br) P) numeric (p ← map_err Numeric (resolve_gen1_payout mode ar br); draw pool p).
Proof using DecimalLaws0.
  intros HP. eapply returns_bind; [eapply returns_map_err; [apply resolve_spec|eauto]|].
  intros p Hp. unfold drawn. rewrite <- Hp. by apply draw_spec.
Qed.

Definition pool_units (group_vol broad_pct multiplier : D) : Z := units group_vol * units broad_pct * units multiplier.

Lemma pool_spec (group_vol broad_pct multiplier : D) :
  returns (λ pool, units pool * 10 ^ 56 = pool_units group_vol broad_pct multiplier) numeric (pool_of broad_pct multiplier group_vol).
Proof using DecimalLaws0.
  unfold pool_of, pool_units. eapply returns_bind; [apply returns_mul_calc|]. intros x Hx.
  eapply returns_impl; [apply returns_mul_calc|]. cbn. intros y Hy.
  replace (10 ^ 56) with (10 ^ 28 * 10 ^ 28) by reflexivity. rewrite Z.mul_assoc, Hy, <- Hx. ring.
Qed.
End payouts.

(** ** The walks *)
Lemma passing_always l : passing (λ _, true) l = l.
Proof. unfold passing. apply filter_all_true. by apply Forall_true. Qed.

Section walks.
Context {D : Type} `{!DecimalOps D, !DecimalLaws D}.
Context (tree : Unilevel.Unilevel.UnilevelTree) (Hwf : arena_wf (Unilevel.Unilevel.arena tree)).
Context (snapshots : gmap Uuid (DistributorSnapshot D)) (pr : PrepResult D).
Context (Hcovered : ∀ u, payable pr u = true → is_Some (snapshots !! u)).
Abbreviation numeric := (λ e : CalculationError D, ∃ x, e = Numeric x).

(** The leaders above [u], numbered: no limit matters to anyone outside the tree. *)
Lemma count_upward_spec {E} u leaders limit : (limit ≤ 255)%N →
  count_generations_upward (D := D) (E := E) tree u leaders (λ _, true) limit false =
  Ok (within limit (numbering leaders (λ _, true) false (upline_of tree u))).
Proof using Hwf.
  intros Hl. unfold count_generations_upward. destruct (contains tree u) eqn:Hc.
  - pose proof (count_spec (D := D) (E := E) tree Hwf leaders (λ _, true) limit false None u [] Hl eq_refl Hc) as H. cbn zeta in H.
    destruct (stop_of _) as [why at_]. rewrite H. cbn. by rewrite passing_always.
  - unfold count_generations_upward_instrumented. rewrite (nav_upline_unknown tree u Hwf Hc). cbn.
    by rewrite (upline_outside tree Hwf u Hc).
Qed.

Definition rank_name (u : Uuid) : string := from_option rank EmptyString (snapshots !! u).

Definition settled (ds : list (override_due D)) (es es' : list (CommissionEarning D)) : Prop :=
  ∃ new, es' = es ++ new ∧ Forall2 settles_due ds new.

Lemma settled_none es : settled [] es es.
Proof. exists []. rewrite app_nil_r. by split. Qed.

Lemma settled_one group_vol es u source lvl s P scale l : line_settles s P scale l →
  settled [mkDue u source lvl group_vol s P scale] es (es ++ [override_earning u source lvl group_vol l]).
Proof. intros Hl. eexists. split; [done|]. constructor; [|constructor]. by destruct l. Qed.

(** A loop whose turns settle their dues settles them all. *)
Lemma settled_fold {E A} (Q : E → Prop) (f : list (CommissionEarning D) → A → outcome E (list (CommissionEarning D)))
  (dues : A → list (override_due D)) (l : list A) es :
  (∀ es x, x ∈ l → returns (settled (dues x) es) Q (f es x)) →
  returns (settled (concat (dues <$> l)) es) Q (fold_outcome f es l).
Proof.
  intros Hf. apply (returns_fold _ (λ pre es', settled (concat (dues <$> pre)) es es')); [apply settled_none|].
  intros pre x post es1 -> (new & -> & Hn). eapply returns_impl; [apply Hf; apply elem_of_app; right; left|].
  intros es2 (new' & -> & Hn'). exists (new ++ new'). rewrite app_assoc. split; [done|].
  rewrite fmap_app, concat_app. cbn. rewrite app_nil_r. by apply Forall2_app.
Qed.

Section single.
Context (broad_pct multiplier : D) (mode : OverrideMode D).

(** The first ancestor that may earn and draws something. *)
Fixpoint nearest_due (group_vol : D) (source : Uuid) (us : list Uuid) : option (override_due D) :=
  match us with
  | [] => None
  | u :: us' =>
      let P := pool_units group_vol broad_pct multiplier in
      match (if payable pr u then drawn P mode (rank_name u) (rank_name source) else None) with
      | Some s => Some (mkDue u source 1 group_vol s P (10 ^ 84))
      | None => nearest_due group_vol source us'
      end
  end.

Definition generation_due (group_vol : D) (rates : gmap N (AuthoredDec D)) (source : Uuid) (e : GenerationEntry) : option (override_due D) :=
  let u := ge_earner_id e in
  let P := pool_units group_vol broad_pct multiplier in
  if payable pr u then
    s ← (if (ge_generation e =? 1)%N then drawn P mode (rank_name u) (rank_name source)
         else let r := from_option (λ v, units (dec v)) 0 (rates !! ge_generation e) in
              if 0 <? r then Some (ShareRate r) else None);
    Some (mkDue u source (ge_generation e) group_vol s P (10 ^ 84))
  else None.

Definition single_dues (generations : option (BreakawayGenerationConfig D * gset Uuid)) (b : Uuid) : list (override_due D) :=
  let group_vol := default DZERO (group_volumes pr !! b) in
  if units group_vol <=? 0 then []
  else
    match generations with
    | None => option_list (nearest_due group_vol b (upline_of tree b))
    | Some (cfg, candidates) =>
        omap (generation_due group_vol (bg_rates cfg) b)
          (within (bg_max_generations cfg) (numbering candidates (λ _, true) false (upline_of tree b)))
    end.

Lemma pay_nearest_spec group_vol source us ns es : us = user_id <$> ns →
  returns (settled (option_list (nearest_due group_vol source us)) es) numeric
    (pay_nearest snapshots pr broad_pct multiplier mode source (rank_name source) group_vol es ns).
Proof using DecimalLaws0 Hcovered.
  intros ->. induction ns as [|n ns IH]; cbn [fmap list_fmap nearest_due pay_nearest]; [apply settled_none|].
  destruct (payable pr (user_id n)) eqn:Hp; cbn [negb]; [|exact IH].
  destruct (Hcovered _ Hp) as [s Hs]. rewrite Hs. cbn [ok_or mbind outcome_bind].
  eapply returns_bind; [apply pool_spec|]. intros pool Hpool.
  assert (rank_name (user_id n) = rank s) as -> by (unfold rank_name; by rewrite Hs).
  pose proof (line_spec mode (rank s) (rank_name source) pool _ Hpool) as Hline.
  destruct (map_err Numeric (resolve_gen1_payout mode (rank s) (rank_name source))) as [p|e| |]; cbn [mbind outcome_bind] in *; [|done..].
  eapply returns_bind; [exact Hline|]. intros [l|]; destruct (drawn _ _ _ _) as [sh|]; cbn; try done; intros Hl.
  - by apply settled_one.
Qed.

Lemma pay_generation_spec group_vol source rates es e :
  returns (settled (option_list (generation_due group_vol rates source e)) es) numeric
    (pay_generation snapshots pr broad_pct multiplier mode rates source (rank_name source) group_vol es e).
Proof using DecimalLaws0 Hcovered.
  unfold pay_generation, generation_due. destruct (payable pr (ge_earner_id e)) eqn:Hp; cbn [negb]; [|apply settled_none].
  eapply returns_bind; [apply pool_spec|]. intros pool Hpool. destruct (ge_generation e =? 1)%N eqn:Hg.
  - apply N.eqb_eq in Hg. destruct (Hcovered _ Hp) as [s Hs]. rewrite Hs. cbn [ok_or mbind outcome_bind].
    assert (rank_name (ge_earner_id e) = rank s) as -> by (unfold rank_name; by rewrite Hs).
    pose proof (line_spec mode (rank s) (rank_name source) pool _ Hpool) as Hline.
    destruct (map_err Numeric (resolve_gen1_payout mode (rank s) (rank_name source))) as [p|err| |]; cbn [mbind outcome_bind] in *; [|done..].
    eapply returns_bind; [exact Hline|]. intros [l|]; destruct (drawn _ _ _ _) as [sh|]; cbn; try done; intros Hl.
    + by apply settled_one.
    + apply settled_none.
  - rewrite dec_ltb_units, zero_units.
    assert (units (from_option dec DZERO (rates !! ge_generation e)) = from_option (λ v, units (dec v)) 0 (rates !! ge_generation e)) as Hr
      by (destruct (rates !! ge_generation e); cbn; [done|apply zero_units]).
    rewrite Hr. destruct (0 <? _); cbn [mbind option_bind option_list]; [|apply settled_none].
    eapply returns_bind; [apply returns_mul_calc|]. intros x Hx. apply settled_one. cbn.
    eexists. split_and!; [done|exact Hr|]. rewrite <- Hpool, <- Hr.
    replace (10 ^ 84) with (10 ^ 28 * 10 ^ 56) by reflexivity. rewrite Z.mul_assoc, Hx. ring.
Qed.

Lemma concat_option_list {A B} (f : A → option B) l : concat (option_list ∘ f <$> l) = omap f l.
Proof. induction l as [|x l IH]; cbn; [done|]. rewrite IH. by destruct (f x). Qed.

Lemma single_override_spec generations es b : is_Some (snapshots !! b) →
  (∀ cfg c, generations = Some (cfg, c) → (bg_max_generations cfg ≤ 255)%N) →
  returns (settled (single_dues generations b) es) numeric
    (single_override tree snapshots pr broad_pct multiplier mode generations es b).
Proof using DecimalLaws0 Hcovered Hwf.
  intros [s Hs] Hmax. unfold single_override, single_dues. rewrite dec_leb_units, zero_units.
  destruct (units _ <=? 0); [apply settled_none|]. rewrite Hs. cbn [ok_or mbind outcome_bind].
  assert (rank s = rank_name b) as -> by (unfold rank_name; by rewrite Hs).
  destruct generations as [[cfg c]|].
  - rewrite (count_upward_spec b c) by (by eapply Hmax). cbn [mbind outcome_bind]. rewrite <- concat_option_list.
    apply settled_fold. intros es' e _. apply pay_generation_spec.
  - unfold upline_of. destruct (contains tree b) eqn:Hc.
    + destruct (nav_upline tree b Hwf Hc) as (ns & -> & _). by apply pay_nearest_spec.
    + rewrite (nav_upline_unknown tree b Hwf Hc). apply settled_none.
Qed.
End single.

(** *** Tiers *)
Definition tier_due (multiplier : D) (source : Uuid) (t : nat * BreakawayTier D) : option (override_due D) :=
  let group_vol := default DZERO (group_volumes pr !! source) in
  let floor := (N.of_nat t.1 + 1)%N in
  '(_, e) ← list_find (λ e, (floor ≤ ge_generation e)%N ∧ payable pr (ge_earner_id e) = true ∧
      (min_split_out_groups t.2 ≤ default 0 (first_line_split_outs pr !! ge_earner_id e))%N)
    (within 255 (numbering (breakaways pr) (λ _, true) false (upline_of tree source)));
  Some (mkDue (ge_earner_id e) source floor group_vol (ShareRate (units (dec (tier_rate t.2))))
    (units group_vol * units multiplier) (10 ^ 56)).

Definition tier_dues (multiplier : D) (config : MultiTierConfig D) (source : Uuid) : list (override_due D) :=
  if units (default DZERO (group_volumes pr !! source)) <=? 0 then []
  else omap (tier_due multiplier source) (enumerate (tiers config)).

Lemma qualifies_iff floor tier e : qualifies_for_tier pr floor tier e = true ↔
  (floor ≤ ge_generation e)%N ∧ payable pr (ge_earner_id e) = true ∧
  (min_split_out_groups tier ≤ default 0 (first_line_split_outs pr !! ge_earner_id e))%N.
Proof. unfold qualifies_for_tier. rewrite !andb_true_iff, !N.leb_le. tauto. Qed.

Lemma list_find_iff {A} (P Q : A → Prop) `{!∀ x, Decision (P x), !∀ x, Decision (Q x)} l :
  (∀ x, P x ↔ Q x) → list_find P l = list_find Q l.
Proof.
  intros Heq. induction l as [|x l IH]; cbn [list_find]; [done|]. rewrite IH. destruct (decide (P x)) as [Hp|Hp].
  - by rewrite decide_True by (by apply Heq).
  - by rewrite decide_False by (by rewrite <- Heq).
Qed.

Lemma pay_tier_spec multiplier source es t : (N.of_nat t.1 < 255)%N →
  returns (settled (option_list (tier_due multiplier source t)) es) (λ _, True)
    (pay_tier pr multiplier source (default DZERO (group_volumes pr !! source))
      (within 255 (numbering (breakaways pr) (λ _, true) false (upline_of tree source))) es t).
Proof using DecimalLaws0.
  destruct t as [i tier]. cbn [fst]. intros Hi. unfold pay_tier, u8_add, tier_due. cbn [fst snd].
  replace (N.of_nat i + 1 <=? 255)%N with true by (symmetry; apply N.leb_le; lia). cbn [mbind outcome_bind].
  rewrite (list_find_iff _ _ _ (qualifies_iff (N.of_nat i + 1) tier)).
  destruct (list_find _ _) as [[k e]|]; cbn [mbind option_bind option_list]; [|apply settled_none].
  eapply returns_bind; [apply returns_try_mul|]. intros x Hx. eapply returns_bind; [apply returns_try_mul|]. intros y Hy.
  apply settled_one. cbn in *. eexists. split_and!; [done..|].
  replace (10 ^ 56) with (10 ^ 28 * 10 ^ 28) by reflexivity. rewrite Z.mul_assoc, Hy, <- Hx. ring.
Qed.

Lemma tier_override_spec multiplier config es source : (length (tiers config) ≤ 255)%nat →
  returns (settled (tier_dues multiplier config source) es) (λ _, True) (tier_override tree config pr multiplier es source).
Proof using DecimalLaws0 Hwf.
  intros Hlen. unfold tier_override, tier_dues. rewrite dec_leb_units, zero_units.
  destruct (units _ <=? 0); [apply settled_none|]. rewrite count_upward_spec by lia. cbn [mbind outcome_bind].
  rewrite <- concat_option_list. apply settled_fold. intros es' [i t] Hi%elem_of_enumerate. apply pay_tier_spec. cbn.
  apply lookup_lt_Some in Hi. lia.
Qed.
End walks.
