(* ===== verification/StairstepTheorems.v ===== *)
(** * The stairstep calculator, end to end

    The theorems: the preparation assigns the leaders of the tree and sums each
    group exactly; the first walk is one audited level walk per source that never
    leaves the source's group; the overrides are exactly what is due; every level
    earning is explained by its walk; the errors are true; and a breakaway
    configuration survives its wire form. *)

From stdpp Require Import base numbers list gmap sorting strings.
From Stdlib Require Import ZArith Lia.
From S2P Require Import Prelude RustDecimal Dec Allocate TreeTypes Arena ArenaWf Unilevel Navigator CommissionTypes Walk WalkSpec WalkPrepare Currency WalkOrder Calculators Collector Generation GenerationSpec Stairstep StairstepGroups StairstepPay.
Import Stairstep.

(** ** The first walk *)
Section groups_walk.
Context {D : Type} `{!DecimalOps D, !DecimalLaws D}.
Context (tree : Unilevel.Unilevel.UnilevelTree) (Hwf : arena_wf (Unilevel.Unilevel.arena tree)).
Context (snapshots : gmap Uuid (DistributorSnapshot D)) (pr : PrepResult D) (config : LevelWalkConfig (D := D)).
Context (Hcov : ∀ u, contains tree u = true → is_Some (snapshots !! u)) (Hdepth : (max_depth config ≤ 255)%N).

Definition source_leader (src : VolumeSource D) : Uuid := default (vs_source_id src) (group_leaders pr !! vs_source_id src).

(** The walk of one source: audited, with the group as its boundary. *)
Definition group_walk (k : N) (src : VolumeSource D) (es : list (CommissionEarning D)) (w : Walk) : Prop :=
  audited tree config (pr_eligibility pr) snapshots (leaves_group pr (source_leader src)) src k es w.

Lemma walk_group_spec es ws src : (N.of_nat (length ws) < 2 ^ 32)%N →
  returns (λ acc, ∃ new w, acc.1 = es ++ new ∧ acc.2 = ws ++ [w] ∧ group_walk (N.of_nat (length ws)) src new w ∧ good_source tree src)
    (source_fault tree [src]) (walk_group tree config snapshots pr (es, ws) src).
Proof using All.
  intros Hlen. unfold walk_group, walk_level_commissions. cbn [fold_outcome].
  change (default (vs_source_id src) (group_leaders pr !! vs_source_id src)) with (source_leader src).
  pose proof (walk_source_fault_at _ tree Hwf config (pr_eligibility pr) snapshots (leaves_group pr (source_leader src)) Hcov Hdepth ([], ws) src) as Hf.
  destruct (walk_source _ _ _ _ _ _ _) as [[new ws']|e| |] eqn:Hw; cbn; [|eapply fault_at_source; [left|exact Hf]|done..].
  destruct (walk_source_audit _ tree Hwf config (pr_eligibility pr) snapshots (leaves_group pr (source_leader src)) Hdepth
    [] ws src new ws' Hlen Hw) as (new' & w & -> & -> & Ha). by exists new', w.
Qed.

Lemma source_fault_sub v v' e : (∀ x, x ∈ v → x ∈ v') → source_fault (D := D) tree v e → source_fault tree v' e.
Proof. intros Hin. destruct e; cbn; try done; intros (src & Hsrc & ?); exists src; by split; [apply Hin|]. Qed.

Lemma walk_groups_spec volume es ws : (N.of_nat (length ws) + N.of_nat (length volume) ≤ 2 ^ 32)%N →
  returns (λ acc, ∃ ess nws, acc.1 = es ++ concat ess ∧ acc.2 = ws ++ nws ∧ length ess = length volume ∧
      length nws = length volume ∧ Forall (good_source tree) volume ∧
      ∀ k src, volume !! k = Some src → ∃ ek w, ess !! k = Some ek ∧ nws !! k = Some w ∧
        group_walk (N.of_nat (length ws + k)) src ek w)
    (source_fault tree volume) (fold_outcome (walk_group tree config snapshots pr) (es, ws) volume).
Proof using All.
  revert es ws. induction volume as [|src volume IH]; intros es ws Hlen; cbn [fold_outcome].
  { exists [], []. cbn. rewrite !app_nil_r. by split_and!. }
  cbn in Hlen. eapply returns_bind.
  { eapply returns_weaken; [apply (walk_group_spec es ws src); lia|intros acc H; exact H|].
    intros e. apply source_fault_sub. intros x ->%list_elem_of_singleton. left. }
  intros [es1 ws1]. cbn [fst snd]. intros (new & w & -> & -> & Ha & Hg).
  eapply returns_weaken; [apply IH; rewrite length_app; cbn; lia| |].
  - intros [es2 ws2]. cbn [fst snd]. intros (ess & nws & -> & -> & L1 & L2 & Hgood & Hall). exists (new :: ess), (w :: nws). cbn.
    rewrite <- !app_assoc, L1, L2. split_and!; [done..|by constructor|].
    intros [|k] s Hs; cbn in Hs.
    + injection Hs as <-. exists new, w. by rewrite Nat.add_0_r.
    + destruct (Hall k s Hs) as (ek & w' & ? & ? & Ha'). exists ek, w'. split_and!; [done..|].
      rewrite length_app in Ha'. cbn in Ha'. by replace (length ws + S k)%nat with (length ws + 1 + k)%nat by lia.
  - intros e. apply source_fault_sub. intros x Hx. by right.
Qed.

Lemma group_blocks ess nws volume : length ess = length volume → length nws = length volume →
  (∀ k src, volume !! k = Some src → ∃ ek w, ess !! k = Some ek ∧ nws !! k = Some w ∧ group_walk (N.of_nat k) src ek w) →
  collected (concat ess) nws ∧ ∀ e, e ∈ concat ess → ∃ k src w ek, volume !! k = Some src ∧ nws !! k = Some w ∧
    e ∈ ek ∧ group_walk (N.of_nat k) src ek w.
Proof.
  intros L1 L2 Hall. split.
  - apply (collected_blocks ess nws [] [] collected_nil); [by rewrite L1|]. intros i l w Hl Hw.
    destruct (lookup_lt_is_Some_2 volume i) as [src Hsrc]; [rewrite <- L1; by eapply lookup_lt_Some|].
    destruct (Hall i src Hsrc) as (l' & w' & Hl' & Hw' & Ha). simplify_eq. exact (audited_block _ _ _ _ _ _ _ _ _ Ha).
  - intros e (l & [i Hi]%list_elem_of_lookup & He)%elem_of_concat.
    destruct (lookup_lt_is_Some_2 volume i) as [src Hsrc]; [rewrite <- L1; by eapply lookup_lt_Some|].
    destruct (Hall i src Hsrc) as (l' & w & Hl' & Hw & Ha). assert (l' = l) as -> by congruence. by exists i, src, w, l.
Qed.
End groups_walk.

(** ** The calculation *)
Section calculation.
Context {D : Type} `{!DecimalOps D, !DecimalLaws D}.
Context (tree : Unilevel.Unilevel.UnilevelTree) (Hwf : arena_wf (Unilevel.Unilevel.arena tree)).
Context (plan : CompensationPlan D) (structure : StairstepStructureConfig D).
Context (snapshots : gmap Uuid (DistributorSnapshot D)) (volume : list (VolumeSource D)) (identity : PlanIdentity).
Abbreviation ordinals := (build_rank_ordinals plan).
Abbreviation lc := (ss_level_commission structure).

(** The machine widths of the configuration, and sizes that fit a [u32]. *)
Definition stairstep_widths : Prop :=
  (lc_max_depth lc ≤ 255)%N ∧ (N.of_nat (length volume) ≤ 2 ^ 32)%N ∧ (N.of_nat (size snapshots) ≤ u32_max)%N ∧
  match overrides <$> breakaway structure with
  | Some (SingleWalk _ (Some g)) => (bg_max_generations g ≤ 255)%N
  | Some (MultiTier cfg) => (length (tiers cfg) ≤ 255)%nat
  | _ => True
  end.

Definition stairstep_multiplier : D :=
  dec (default (vc_volume_to_dollar_multiplier (volume_config plan)) (lc_volume_to_dollar_multiplier lc)).

Definition stairstep_config : LevelWalkConfig (D := D) :=
  mkLevelWalkConfig (lc_max_depth lc) (dec (broad_commission_percent lc)) stairstep_multiplier (ss_compression structure)
    (resolve_threshold_ordinal (ss_compression structure) ordinals) ordinals (rate_table lc) None None.

(** Somebody at or above the threshold rank, if there is one. *)
Definition breaks_away (u : Uuid) : Prop :=
  ∃ b t s, breakaway structure = Some b ∧ ordinals !! threshold_rank b = Some t ∧ snapshots !! u = Some s ∧
    (t ≤ default 0 (ordinals !! rank s))%N.

Definition everyone : list Uuid := sort_by N.compare (elements (dom snapshots)).

Lemma everyone_in u : u ∈ everyone ↔ is_Some (snapshots !! u).
Proof. unfold everyone. by rewrite sort_by_perm, elem_of_elements, elem_of_dom. Qed.

(** What the preparation delivers. *)
Record prepared (pr : PrepResult D) : Prop := {
  pp_cache : evaluate_eligibility snapshots tree (eligibility plan) = Ok (pr_eligibility pr);
  pp_breakaways u : u ∈ breakaways pr ↔ breaks_away u;
  pp_groups : grouped tree (breakaways pr) snapshots everyone (group_volumes pr) (group_leaders pr);
  pp_split_outs x : default 0%N (first_line_split_outs pr !! x) = split_outs tree (breakaways pr) x (elements (breakaways pr));
}.

Lemma identify_spec u : u ∈ identify_breakaways structure snapshots ordinals ↔ breaks_away u.
Proof.
  unfold identify_breakaways, breaks_away. destruct (breakaway structure) as [b|]; [|set_solver].
  destruct (ordinals !! threshold_rank b) as [t|] eqn:Ht.
  - rewrite elem_of_dom. split.
    + intros [s [Hs Hr]%map_lookup_filter_Some]. by exists b, t, s.
    + intros (b' & t' & s & [= <-] & Ht' & Hs & Hr). exists s. apply map_lookup_filter_Some. split; [done|]. cbn. congruence.
  - split; [set_solver|]. intros (b' & t' & s & [= <-] & Ht' & _). congruence.
Qed.

Lemma identify_size : size (identify_breakaways structure snapshots ordinals) ≤ size snapshots.
Proof.
  rewrite <- (size_dom snapshots). apply subseteq_size. intros u (b & t & s & _ & _ & Hs & _)%identify_spec.
  apply elem_of_dom. eauto.
Qed.

Lemma prep_spec : (N.of_nat (size snapshots) ≤ u32_max)%N →
  returns prepared (λ e, ∃ x, e = Numeric x) (prep tree plan structure snapshots ordinals).
Proof using Hwf DecimalLaws0.
  intros Hsize. unfold prep. destruct (evaluate_eligibility_spec _ tree Hwf snapshots (eligibility plan)) as (cache & Hcache & _).
  rewrite Hcache. cbn [mbind outcome_bind]. set (set := identify_breakaways structure snapshots ordinals).
  eapply returns_bind; [eapply returns_map_err; [apply (build_group_volumes_spec tree Hwf set)|eauto]|].
  intros [volumes leaders] Hg. cbn [fst snd] in Hg.
  destruct (count_first_line_split_outs_spec (E := CalculationError D) tree Hwf set) as (counts & -> & Hc).
  { unfold set. pose proof identify_size. lia. }
  cbn [mbind outcome_bind]. by split; [|apply identify_spec|..].
Qed.

(** What the overrides owe. *)
Definition override_dues (pr : PrepResult D) : list (override_due D) :=
  match overrides <$> breakaway structure with
  | None => []
  | Some (SingleWalk mode g) =>
      concat (single_dues tree snapshots pr (dec (broad_commission_percent lc)) stairstep_multiplier mode
        (override_candidates g snapshots ordinals) <$> sorted_ids (breakaways pr))
  | Some (MultiTier cfg) => concat (tier_dues tree pr stairstep_multiplier cfg <$> sorted_ids (breakaways pr))
  end.

Lemma overrides_spec pr : stairstep_widths → prepared pr →
  returns (λ os, Forall2 settles_due (override_dues pr) os) (λ e, ∃ x, e = Numeric x)
    (walk_overrides tree structure snapshots pr ordinals stairstep_multiplier).
Proof using Hwf DecimalLaws0.
  intros (_ & _ & _ & Hmax) [Hcache Hb _ _].
  assert (Hcovered : ∀ u, payable pr u = true → is_Some (snapshots !! u)).
  { destruct (evaluate_eligibility_spec _ tree Hwf snapshots (eligibility plan)) as (cache & Hcache' & Hspec).
    intros u Hu. unfold payable in Hu. assert (cache = pr_eligibility pr) as -> by congruence.
    rewrite Hspec in Hu. destruct (snapshots !! u); [eauto|done]. }
  assert (Hsnap : ∀ b, b ∈ sorted_ids (breakaways pr) → is_Some (snapshots !! b)).
  { intros b. unfold sorted_ids. rewrite sort_by_perm, elem_of_elements, Hb. intros (? & ? & s & _ & _ & Hs & _). eauto. }
  assert (Hsettled : ∀ ds os, settled ds [] os → Forall2 settles_due ds os) by (by intros ds os (new & -> & Hn)).
  unfold walk_overrides, walk_single_overrides, override_dues. destruct (breakaway structure) as [b|]; [|constructor].
  cbn [fmap option_fmap option_map] in *. destruct (overrides b) as [mode g|cfg] eqn:Ho; cbn [expect mbind outcome_bind].
  - rewrite Ho. eapply returns_impl; [|apply Hsettled]. apply settled_fold. intros es x Hx.
    apply single_override_spec; [done|done|by apply Hsnap|]. unfold override_candidates.
    intros cfg c. destruct g as [g|]; [|done]. cbn. destruct (ordinals !! _); cbn; [|done]. by intros [= <- _].
  - eapply returns_map_err; [|intros e _; by exists e]. eapply returns_impl; [|apply Hsettled].
    apply settled_fold. intros es x Hx. by apply tier_override_spec.
Qed.

(** *** The first walk stays in the group *)
Lemma leaders_known pr u : prepared pr → is_Some (snapshots !! u) →
  group_leaders pr !! u = Some (leader_of tree (breakaways pr) u).
Proof.
  intros Hp Hu. rewrite (gr_leaders _ _ _ _ _ _ (pp_groups pr Hp)), decide_True; [done|].
  by apply everyone_in.
Qed.

Lemma group_walk_inside pr k src es w e : prepared pr → is_Some (snapshots !! vs_source_id src) →
  group_walk tree snapshots pr stairstep_config k src es w → e ∈ es →
  source_id e = vs_source_id src ∧ leader_of tree (breakaways pr) (earner_id e) = leader_of tree (breakaways pr) (source_id e).
Proof.
  intros Hp Hsrc Ha He. destruct (audited_block _ _ _ _ _ _ _ _ _ Ha) as [_ Hb _].
  destruct (Hb e He) as (_ & Hid & _ & s & Hs & Hn & _). destruct (au_walk _ _ _ _ _ _ _ _ _ Ha) as (_ & Hws & _).
  apply list_elem_of_lookup_2 in Hs. destruct (au_steps _ _ _ _ _ _ _ _ _ Ha s Hs) as (_ & Hstop & snap & Hsnap & _).
  assert (source_id e = vs_source_id src) as -> by congruence. split; [done|]. rewrite <- Hn. unfold leaves_group, source_leader in Hstop.
  rewrite (leaders_known pr (node_id s) Hp), (leaders_known pr _ Hp Hsrc) in Hstop by eauto. cbn in Hstop.
  apply bool_decide_eq_false in Hstop. by apply dec_stable in Hstop.
Qed.

(** *** The run *)

(** What a result is made of: one audited walk inside its group per source, and
    the earnings [os] that settle the override dues. *)
Definition stairstep_accounted (pr : PrepResult D) (res : CommissionCalculationResult D) : Prop :=
  ∃ places ess (ws : list Walk) os, minor_units (base_currency (volume_config plan)) = Some places ∧
    unreferred <$> earnings res ≡ₚ unreferred ∘ rounded places <$> concat ess ++ os ∧
    Forall2 settles_due (override_dues pr) os ∧ length ess = length volume ∧
    ∀ k src, volume !! k = Some src → ∃ ek w, ess !! k = Some ek ∧ ws !! k = Some w ∧
      group_walk tree snapshots pr stairstep_config (N.of_nat k) src ek w ∧
      ∀ e, e ∈ ek → source_id e = vs_source_id src ∧
        leader_of tree (breakaways pr) (earner_id e) = leader_of tree (breakaways pr) (source_id e).

Lemma stairstep_run : stairstep_widths →
  returns (λ res, (∃ pr, prepared pr ∧ stairstep_accounted pr res) ∧ collected (earnings res) (walks res) ∧
      length (walks res) = length volume ∧
      is_Some (minor_units (base_currency (volume_config plan))) ∧ valid_inputs tree plan snapshots ∧
      Forall (good_source tree) volume)
    (calculation_fault tree plan snapshots volume) (calculate_stairstep tree plan structure snapshots volume identity).
Proof using Hwf DecimalLaws0.
  intros Hwid. unfold calculate_stairstep, plan_minor_units.
  destruct (minor_units _) as [places|] eqn:Hcur; cbn [ok_or mbind outcome_bind]; [|done].
  eapply returns_seq; [apply (validated _ tree plan snapshots volume Hwf)|]. intros Hvalid.
  pose proof Hwid as (Hdepth & Hvol & Hsize & _).
  eapply returns_bind; [eapply returns_weaken; [by apply prep_spec|intros pr H; exact H|by intros e [x ->]]|].
  intros pr Hp. fold stairstep_multiplier. fold stairstep_config.
  eapply returns_bind.
  { eapply returns_weaken; [apply (walk_groups_spec tree Hwf snapshots pr stairstep_config); [apply Hvalid|done|cbn; lia]
      |intros acc H; exact H|apply source_fault_calculation]. }
  intros [es ws]. cbn [fst snd]. intros (ess & nws & -> & -> & L1 & L2 & Hgood & Hall). cbn [app] in *.
  eapply returns_bind; [eapply returns_weaken; [by apply overrides_spec|intros os H; exact H|by intros e [x ->]]|].
  intros os Hos.
  destruct (group_blocks tree snapshots pr stairstep_config ess nws volume L1 L2 Hall) as [Hcol _].
  assert (Hcol' : collected (concat ess ++ os) nws).
  { apply collected_unreferring; [|done]. intros e [i Hi]%list_elem_of_lookup.
    destruct (Forall2_lookup_r _ _ _ _ _ Hos Hi) as (d & _ & _ & _ & _ & _ & Hw & _). done. }
  destruct (assemble_collected (E := CalculationError D) _ _ volume ordinals identity places Hcol') as (res & -> & R1 & R2 & _ & R3 & _);
    [by rewrite L2|].
  split_and!; [|done|by rewrite R2|done..]. exists pr. split; [done|]. exists places, ess, nws, os. split_and!; [done..|].
  intros k src Hsrc. destruct (Hall k src Hsrc) as (ek & w & H1 & H2 & Ha). exists ek, w. split_and!; [done..|].
  intros e He. apply (group_walk_inside pr (N.of_nat k) src ek w); [done| |done|done].
  destruct Hvalid as (_ & _ & Hcov). apply Hcov. rewrite Forall_forall in Hgood.
  destruct (Hgood src) as [_ ?]; [by eapply list_elem_of_lookup_2|done].
Qed.
End calculation.

(** ** The public statements *)
Section statements.
Context {D : Type} `{!DecimalOps D, !DecimalLaws D}.
Implicit Types (plan : CompensationPlan D) (structure : StairstepStructureConfig D).

(** C25. Groups partition the network. The preparation gives everybody one leader, a
    breakaway and the top leading themselves and everybody else being led by the
    leader of the parent; each group's volume is the exact sum of its members'
    personal volumes; and the groups together hold everyone's volume exactly once. *)
Theorem group_volumes_exact tree snapshots brk :
  arena_wf (Unilevel.Unilevel.arena tree) →
  returns (λ '(volumes, leaders), (∀ u, leaders !! u = (λ _, leader_of tree brk u) <$> snapshots !! u) ∧
      (∀ l, units (default DZERO (volumes !! l)) = volume_of snapshots (led_by tree brk l (everyone snapshots))) ∧
      sumZ (units <$> (map_to_list volumes).*2) = volume_of snapshots (everyone snapshots) ∧
      ∀ u, if decide (u ∈ brk) then leader_of tree brk u = u
           else match upline_of tree u with [] => leader_of tree brk u = u | p :: _ => leader_of tree brk u = leader_of tree brk p end)
    (λ _, True) (build_group_volumes (D := D) tree snapshots brk).
Proof.
  intros Hwf. eapply returns_impl; [apply (build_group_volumes_spec tree Hwf brk snapshots)|].
  intros [volumes leaders]. cbn [fst snd]. intros Hg. split_and!.
  - intros u. rewrite (gr_leaders _ _ _ _ _ _ Hg). fold (everyone snapshots). pose proof (everyone_in snapshots u) as Hu.
    destruct (snapshots !! u); cbn; [rewrite decide_True by (apply Hu; eauto)|rewrite decide_False; [done|]]; [done|].
    intros H%Hu. by apply is_Some_None in H.
  - intros l. by apply (group_units tree brk snapshots _ volumes leaders).
  - by apply (groups_conserve tree brk snapshots _ volumes leaders).
  - intros u. destruct (decide (u ∈ brk)) as [Hb|Hb]; [by apply leader_breakaway|].
    destruct (contains tree u) eqn:Hc.
    + destruct (upline_parent tree Hwf u Hc) as [[_ Hup]|(p & _ & _ & Hup)]; rewrite Hup; [by apply leader_end|].
      by apply leader_parent.
    + rewrite (upline_outside tree Hwf u Hc). by apply leader_end, upline_outside.
Qed.

(** C24. The stairstep calculator pays exactly what is owed. On the groups and
    split-out counts of the tree: one level walk per source that pays only members of
    the source's own group, each earning the exact product at its rank's rate; and
    one earning per override due: for each breakaway group with volume, the nearest
    eligible ancestor that draws from its pool, the leaders by generation, or the
    nearest qualifying ancestor of each tier. Amounts are rounded once. The result has
    one walk per source; a level earning is the paid step of its level in its walk,
    and no walk pays a level twice. *)
Theorem calculate_stairstep_exact tree plan structure snapshots volume identity res :
  arena_wf (Unilevel.Unilevel.arena tree) → stairstep_widths structure snapshots volume →
  calculate_stairstep tree plan structure snapshots volume identity = Ok res →
  ∃ pr, prepared tree plan structure snapshots pr ∧ stairstep_accounted tree plan structure snapshots volume pr res ∧
    collected (earnings res) (walks res) ∧ length (walks res) = length volume.
Proof.
  intros Hwf Hw Hres. pose proof (stairstep_run tree Hwf plan structure snapshots volume identity Hw) as Hr.
  rewrite Hres in Hr. destruct Hr as ((pr & H1 & H2) & H3 & H4 & _). exists pr. split_and!; done.
Qed.

(** The stairstep calculator never panics or diverges; a success means that every
    input passes its check, and a refusal is true of the inputs. The upline and
    snapshot errors of the override walk are never reported. *)
Theorem calculate_stairstep_errors tree plan structure snapshots volume identity :
  arena_wf (Unilevel.Unilevel.arena tree) → stairstep_widths structure snapshots volume →
  returns (λ _, is_Some (minor_units (base_currency (volume_config plan))) ∧ valid_inputs tree plan snapshots ∧
      Forall (good_source tree) volume)
    (calculation_fault tree plan snapshots volume)
    (calculate_stairstep tree plan structure snapshots volume identity).
Proof.
  intros Hwf Hw. eapply returns_impl; [apply (stairstep_run tree Hwf plan structure snapshots volume identity Hw)|].
  intros res (_ & _ & _ & H). exact H.
Qed.
End statements.

(** A breakaway configuration survives its wire form: writing and reading it back
    gives the configuration, and the only wire form that reads as a configuration is
    the one it is written as; a wire form with the configuration of the other mode, or
    without its own, is refused. *)
Theorem breakaway_wire_roundtrip {D} (config : BreakawayConfig D) (wire : BreakawayConfigWire D) :
  from_wire (to_wire config) = Ok config ∧ (from_wire wire = Ok config → wire = to_wire config) ∧
  match w_overrides wire with
  | MultiTierW _ => ∃ c, from_wire wire = Ok c
  | SingleWalkW s =>
      (∃ c, from_wire wire = Ok c) ↔
      match override_calculation s with
      | TagDifferential => is_Some (differential s) ∧ fixed_override s = None
      | TagFixedOverride => is_Some (fixed_override s) ∧ differential s = None
      end
  end.
Proof.
  split_and!.
  - destruct config as [? ? [[|] ?|?]]; reflexivity.
  - destruct wire as [? ? [[[|] [|] [|] ?]|?]]; cbn; try done; intros [= <-]; reflexivity.
  - destruct wire as [? ? [[[|] [|] [|] ?]|?]]; cbn; try done; [..|by eexists];
    (split; [intros [c H]; done || eauto|]); intros [? ?]; naive_solver.
Qed.
