(* ===== verification/PeriodExamples.v ===== *)
(** * Concrete binary, generation and stairstep periods

    Each period is a module. The first is a binary tree of five positions, three of them owned by member 1, with leg
    volumes carried in, on which the theorems about pairing, caps, cycles and
    carry are evaluated. *)

From stdpp Require Import base numbers list gmap sorting strings.
From Stdlib Require Import ZArith Lia.
From S2P Require Import Prelude RustDecimal Dec Allocate Ratio TreeTypes Arena ArenaWf Binary Navigator CommissionTypes Walk Currency BinaryCommission BinaryLegs BinaryCalc BinaryCycle BinaryTheorems TreeExamples Unilevel ArenaRestore WalkSpec WalkPrepare WalkOrder Calculators CommissionExamples Collector Generation GenerationSpec GenerationTheorems Stairstep StairstepGroups StairstepPay StairstepTheorems.
Import Ref.

Module PairWitness.
Import RatioWitness.
#[local] Open Scope string_scope.
#[local] Open Scope Z_scope.
Abbreviation money m s := (Authored (of_mantissa m s)).

(** 2 and 3 below 1; 4 and 5 below 2. *)
Definition ops : list BinarySpec.op :=
  [BinarySpec.AddRoot 1 0; BinarySpec.AddNode 2 1 0 1 0; BinarySpec.AddNode 3 1 1 1 0;
  BinarySpec.AddNode 4 2 0 1 0; BinarySpec.AddNode 5 2 1 1 0].
Definition tree : Binary.Binary.BinaryTree :=
  match run BinarySpec.exec Binary.Binary.new ops with Ok (t, _) => t | _ => Binary.Binary.new end.

Lemma pair_tree_wf : Binary.Binary.binary_wf tree.
Proof.
  apply reachable_binary_wf. apply (BinaryWitness.binary_run_reachable ops Binary.Binary.new _ [inl []; inl []; inl []; inl []; inl []]).
  - apply rtc_refl.
  - vm_compute. reflexivity.
Qed.

Definition elig : CommissionEligibility rdec := mkEligibility (money 50 0) false [] [].
Definition plan : CompensationPlan rdec :=
  mkPlan (mkVolumeConfig "USD" (money 1 0)) [mkRank "bronze" 1] elig.
Definition snap : DistributorSnapshot rdec := mkSnapshot "bronze" (money 100 0) "active" true.
Definition snapshots : gmap Uuid (DistributorSnapshot rdec) := {[1%N := snap; 4%N := snap; 5%N := snap]}.

(** Positions 1, 2 and 3 are one owner's. *)
Definition owners : option (gmap Uuid Uuid) := Some {[2%N := 1%N; 3%N := 1%N]}.
Definition volume : list (VolumeSource rdec) :=
  [mkSource 4 (money 30000 2); mkSource 5 (money 100 0); mkSource 3 (money 250 0); mkSource 4 (money 5 1)].
Definition prior : gmap Uuid (LegVolumes rdec) := {[1%N := mkLegs rd_zero (of_mantissa 40 0)]}.

(** Pairing by volume ratio at 10%, an owner held to 20.00. *)
Definition pairing : PairingConfig rdec :=
  mkPairing (money 1 1) VolumeRatio (Some (money 20 0)) CarryForward (Some (money 150 0)) Aggregate.
Definition structure : BinaryStructureConfig rdec := mkBinaryStructure "main" (mkBinaryCommission None (Pairing pairing)).

Definition result := calculate_binary_pairing tree plan structure snapshots volume prior owners.
Definition res : BinaryCalculationResult rdec := match result with Ok r => r | _ => mkBinaryResult [] ∅ end.

Lemma pair_result_ok : result = Ok res.
Proof. vm_compute. reflexivity. Qed.

Definition amounts (r : BinaryCalculationResult rdec) : list (Uuid * Uuid * Z * Z * (Z * Z) * bool) :=
  (λ e, (be_earner_id e, position_id e, units (left_volume e) / 10 ^ 26, units (right_volume e) / 10 ^ 26,
     (mantissa (be_dollar_amount e), scale (be_dollar_amount e)), capped e)) <$> be_earnings r.

(** Cycles of 50 and 200, paying 5 and 20. *)
Definition steps : list (CycleStep rdec) :=
  [mkCycleStep (money 200 0) (money 20 0); mkCycleStep (money 50 0) (money 5 0)].
Definition cycles : CycleStepConfig rdec := mkCycleStepConfig steps CarryForward (Some (money 28 0)) None PerPosition.
Definition cycle_structure : BinaryStructureConfig rdec :=
  mkBinaryStructure "main" (mkBinaryCommission None (CycleStepMode cycles)).
Definition cycle_result_ := calculate_binary_pairing tree plan cycle_structure snapshots volume prior owners.
Definition cres : BinaryCalculationResult rdec := match cycle_result_ with Ok r => r | _ => mkBinaryResult [] ∅ end.

Lemma cycle_ok : cycle_result_ = Ok cres.
Proof. vm_compute. reflexivity. Qed.

Lemma pair_sound : sound_inputs tree plan structure.
Proof. split; [exact pair_tree_wf|vm_compute; discriminate|vm_compute; reflexivity]. Qed.
Lemma cycle_sound : sound_inputs tree plan cycle_structure.
Proof. split; [exact pair_tree_wf|vm_compute; discriminate|vm_compute; reflexivity]. Qed.

(** Pairing by the weaker leg. More volume for 4 than 96 bits hold is refused; and so is
    a tenth of a leg that has 28 places already. *)
Definition weaker : BinaryStructureConfig rdec :=
  mkBinaryStructure "main" (mkBinaryCommission None (Pairing (mkPairing (money 1 1) WeakerLeg None CarryForward None Aggregate))).
Definition flood : list (VolumeSource rdec) := [mkSource 5 (money 1 0); mkSource 4 (money (2 ^ 96 - 1) 0); mkSource 4 (money 1 0)].
Definition fine : list (VolumeSource rdec) := [mkSource 4 (money (10 ^ 28 + 1) 28); mkSource 5 (money (10 ^ 28 + 1) 28)].
Definition blame (volume : list (VolumeSource rdec)) : NumericError rdec :=
  match calculate_binary_pairing tree plan weaker snapshots volume ∅ owners with
  | Err (Numeric x) => x
  | _ => mkNumericError OpSub rd_zero rd_zero Precision
  end.

Lemma refused_runs volume : volume = flood ∨ volume = fine →
  calculate_binary_pairing tree plan weaker snapshots volume ∅ owners = Err (Numeric (blame volume)).
Proof. intros [->| ->]; vm_compute; reflexivity. Qed.

Lemma weaker_sound : sound_inputs tree plan weaker.
Proof. split; [exact pair_tree_wf|vm_compute; discriminate|vm_compute; reflexivity]. Qed.


(** The first earning: position 1, with 400.50 on the left and 250 + 40 on the right. *)
Definition first : BinaryCommissionEarning rdec :=
  default (mkBinaryEarning 0 0 rd_zero rd_zero rd_zero rd_zero rd_zero rd_zero false) (be_earnings res !! 0%nat).
Lemma first_in : first ∈ be_earnings res.
Proof. apply (list_elem_of_lookup_2 (be_earnings res) 0). vm_compute. reflexivity. Qed.

Lemma pairing_earnings_exact_witness :
  amounts res = [(1%N, 1%N, 40050, 29000, (1726, 2), true); (1%N, 2%N, 30050, 10000, (274, 2), true)] ∧
  leg_volume tree volume (position_id first) 0 (from_option left DZERO (prior !! position_id first)) (left_volume first) ∧
  ∃ raw, pair_amount pairing (binary_multiplier plan structure) (mkLegs (left_volume first) (right_volume first)) raw.
Proof.
  split; [vm_compute; reflexivity|].
  destruct (pairing_earnings_exact tree plan structure snapshots volume prior owners pairing res pair_sound eq_refl pair_result_ok)
  as (places & _ & _ & H). destruct (H first first_in) as (_ & H1 & _ & _ & _ & raw & H2 & _).
  exact (conj H1 (ex_intro _ raw H2)).
Defined.


Lemma cycle_steps_equal_loop_witness :
  amounts cres = [(1%N, 1%N, 40050, 29000, (28, 0), true); (1%N, 2%N, 30050, 10000, (5, 0), false)] ∧
  ((λ l, (units (left l) / 10 ^ 26, units (right l) / 10 ^ 26)) <$> carry_forward cres) !! 3%N = Some (0, 0) ∧
  ∃ c places, validate cycles = Ok c ∧ minor_units "USD" = Some places ∧ NoDup (position_id <$> be_earnings cres) ∧
  ∀ u, u ∈ [1; 2; 3]%N → ∃ x, carry_forward cres !! u = Some x ∧ cycled tree plan snapshots volume prior owners c places cres u x.
Proof.
  split; [vm_compute; reflexivity|]. split; [vm_compute; reflexivity|].
  destruct (cycle_steps_equal_loop tree plan cycle_structure snapshots volume prior owners cycles cres cycle_sound eq_refl cycle_ok)
  as (c & places & H1 & H2 & H3 & H4). exists c, places. split; [exact H1|]. split; [exact H2|]. split; [exact H3|]. intros u Hu.
  specialize (H4 u). destruct (carry_forward cres !! u) as [x|]; [exists x; exact (conj eq_refl (proj2 H4))|].
  exfalso. destruct H4 as [H4 _]. repeat (apply elem_of_cons in Hu as [->|Hu]; [vm_compute in H4; discriminate|]). by apply not_elem_of_nil in Hu.
Defined.

End PairWitness.

(** ** A concrete generation period

    The period of CommissionExamples.v under a generation structure: a silent
    member 2 that takes a number and is not paid, level commissions beside the
    generations, and a same-rank variant. *)

Module GenerationWitness.
Import Generation.
#[local] Open Scope string_scope.
Import CommissionWitness.

Definition gen_cfg (mode : GenerationBoundaryMode) : GenerationCommissionConfig rdec :=
  mkGeneration 3 {["gold" := 2%N]} {[1%N := money 10 2; 2%N := money 5 2; 3%N := money 1 2]} mode "gold" false None true.
Definition gen_structure (mode : GenerationBoundaryMode) : GenerationStructureConfig rdec :=
  mkGenerationStructure "gen" (Some lc) None (gen_cfg mode) true.

(** 2 is not active any more. *)
Definition people : gmap Uuid (DistributorSnapshot rdec) :=
  <[2%N := mkSnapshot "gold" (money 100 0) "lapsed" true]> snapshots.

Definition gen_result (mode : GenerationBoundaryMode) :=
  calculate_generation tree plan (gen_structure mode) people volume identity.
Definition gen_res (mode : GenerationBoundaryMode) : CommissionCalculationResult rdec :=
  match gen_result mode with Ok r => r | _ => mkResult [] [] identity end.

Lemma gen_result_ok mode : gen_result mode = Ok (gen_res mode).
Proof. destruct mode; vm_compute; reflexivity. Qed.

Lemma gen_widths mode : generation_widths plan (gen_structure mode) volume.
Proof.
  split; [|split].
  - split; [vm_compute; discriminate|]. intros r m. cbn. rewrite lookup_singleton_Some. intros [_ <-]. discriminate.
  - intros l [= <-]. vm_compute. discriminate.
  - vm_compute. discriminate.
Qed.

(** From 5, golds 2 and 1 take numbers 1 and 2; with a limit of 1 the walk stops at 1. *)
Lemma count_generations_exact_witness :
  count_generations_upward (D := rdec) (E := unit) tree 5 {[1%N; 2%N]} (λ _, true) 1 false = Ok [mkEntry 2 1] ∧
  let taken := within 1 (numbering {[1%N; 2%N]} (λ _, true) false (upline_of tree 5)) in
  let '(why, at_) := stop_of (beyond {[1%N; 2%N]} (λ _, true) false 1 (upline_of tree 5)) in
  count_generations_upward_instrumented (E := unit) (D := rdec) tree 5 {[1%N; 2%N]} (λ _, true) 1 false (Some people) [] =
  Ok (passing (λ _, true) taken, [mkWalk (N.of_nat 0) 5 Generation None None
    (step_of (λ _, true) (λ v, rank <$> (s ← Some people; s !! v)) <$> taken) why at_]) ∧
  (N.of_nat (length taken) ≤ 1)%N ∧ ∀ i e, taken !! i = Some e → ge_generation e = (N.of_nat i + 1)%N.
Proof.
  split; [vm_compute; reflexivity|].
  apply (count_generations_exact tree 5 {[1%N; 2%N]} (λ _, true) 1 false (Some people) [] tree_wf); reflexivity || discriminate.
Defined.

(** 2 takes the first number and is not paid: 1 is paid 5% as the second generation
    of both sources, beside the level commissions. *)
Lemma calculate_generation_exact_witness :
  paid (gen_res ThresholdRank) =
    [(1%N, 4%N, 2%N, (220%Z, 2%Z), Some 1%N); (1%N, 4%N, 2%N, (500%Z, 2%Z), Some 3%N);
     (1%N, 5%N, 2%N, (500%Z, 2%Z), Some 2%N); (4%N, 5%N, 1%N, (120%Z, 2%Z), Some 0%N)] ∧
  ∃ cache, Walk.evaluate_eligibility people tree elig = Ok cache ∧
    accounted tree plan (gen_structure ThresholdRank) people volume cache (gen_res ThresholdRank) ∧
    collected (earnings (gen_res ThresholdRank)) (walks (gen_res ThresholdRank)) ∧
    ∀ e, e ∈ earnings (gen_res ThresholdRank) → is_Some (walk e).
Proof.
  split; [vm_compute; reflexivity|].
  exact (calculate_generation_exact tree plan (gen_structure ThresholdRank) people volume identity _ tree_wf
    (gen_widths _) (gen_result_ok _)).
Defined.

(** In same-rank mode bronze 4 is the first bronze generation of 5. *)
Example same_rank_period :
  paid (gen_res SameRank) =
    [(1%N, 4%N, 2%N, (220%Z, 2%Z), Some 1%N); (1%N, 4%N, 2%N, (500%Z, 2%Z), Some 5%N);
     (1%N, 5%N, 2%N, (500%Z, 2%Z), Some 4%N); (4%N, 5%N, 1%N, (120%Z, 2%Z), Some 0%N);
     (4%N, 5%N, 1%N, (1000%Z, 2%Z), Some 2%N)].
Proof. vm_compute. reflexivity. Qed.

(** Level commissions without their configuration. *)
Definition bare : GenerationStructureConfig rdec := mkGenerationStructure "gen" None None (gen_cfg ThresholdRank) true.

Lemma bare_widths : generation_widths plan bare volume.
Proof. destruct (gen_widths ThresholdRank) as (H1 & _ & H2). split; [exact H1|split; [by intros l [=]|exact H2]]. Qed.

Lemma calculate_generation_errors_witness :
  calculate_generation tree plan bare people volume identity =
    Err (ConfigError "generation level_commissions_enabled is true and level_commission is absent") ∧
  level_commissions_enabled bare = true ∧ level_commission bare = None.
Proof.
  assert (E : calculate_generation tree plan bare people volume identity =
    Err (ConfigError "generation level_commissions_enabled is true and level_commission is absent")) by (vm_compute; reflexivity).
  split; [exact E|].
  pose proof (calculate_generation_errors tree plan bare people volume identity tree_wf bare_widths) as H.
  rewrite E in H. exact H.
Defined.

Lemma empty_generation_switch_inert_witness :
  calculate_generation tree plan (set_empty_flag true (gen_structure SameRank)) people volume identity = gen_result SameRank.
Proof. exact (empty_generation_switch_inert tree people plan (gen_structure SameRank) volume identity true eq_refl). Defined.

(** The switch does matter once ineligible leaders create no boundary. *)
Example empty_generation_switch_matters :
  let cfg b := mkGeneration 3 {["gold" := 2%N]} {[1%N := money 10 2; 2%N := money 5 2]} ThresholdRank "gold" b None false in
  let run b := (λ r, level <$> earnings r) <$>
    calculate_generation tree plan (mkGenerationStructure "gen" None None (cfg b) false) people volume identity in
  run false = Ok [1%N; 1%N] ∧ run true = Ok [2%N; 2%N].
Proof. vm_compute. split; reflexivity. Qed.
End GenerationWitness.

(** ** A concrete stairstep period

    The tree of CommissionExamples.v with three breakaways (the golds 2 and 5 and the
    diamond 1): a differential with a currency floor, generations, and tiers. *)

Module StairstepWitness.
Import Stairstep.
#[local] Open Scope string_scope.
Import CommissionWitness.

Definition stair_plan : CompensationPlan rdec :=
  mkPlan (mkVolumeConfig "USD" (money 1 0)) [mkRank "bronze" 1; mkRank "gold" 2; mkRank "diamond" 3] elig.
Definition climbers : gmap Uuid (DistributorSnapshot rdec) :=
  {[1%N := mkSnapshot "diamond" (money 100 0) "active" true; 2%N := mkSnapshot "gold" (money 100 0) "active" true;
    4%N := mkSnapshot "bronze" (money 5000 2) "active" true; 5%N := mkSnapshot "gold" (money 80 0) "active" true]}.

Definition differential_mode : OverrideMode rdec :=
  Differential (mkDifferential {["gold" := money 5 2; "diamond" := money 9 2]} (MinCurrency (money 3 0))).
Definition nearest : OverrideStrategy rdec := SingleWalk differential_mode None.
Definition by_generation : OverrideStrategy rdec :=
  SingleWalk differential_mode (Some (mkBreakawayGeneration 2 {[2%N := money 2 2]} "gold")).
Definition by_tier : OverrideStrategy rdec :=
  MultiTier (mkMultiTier [Stairstep.mkTier 0 (money 4 2); Stairstep.mkTier 1 (money 1 2)]).
Definition stair (o : OverrideStrategy rdec) : StairstepStructureConfig rdec :=
  mkStairstepStructure "stair" lc None (Some (mkBreakaway "gold" true o)).

Definition stair_result (o : OverrideStrategy rdec) :=
  calculate_stairstep tree stair_plan (stair o) climbers volume identity.
Definition stair_res (o : OverrideStrategy rdec) : CommissionCalculationResult rdec :=
  match stair_result o with Ok r => r | _ => mkResult [] [] identity end.

Lemma stair_nearest_ok : stair_result nearest = Ok (stair_res nearest).
Proof. vm_compute. reflexivity. Qed.
Lemma stair_widths o : (match o with
    | SingleWalk _ (Some g) => (bg_max_generations g ≤ 255)%N
    | MultiTier cfg => (length (tiers cfg) ≤ 255)%nat
    | _ => True
    end) → stairstep_widths (stair o) climbers volume.
Proof. intros Ho. split_and!; [vm_compute; discriminate..|]. exact Ho. Qed.

(** 4 is in the group of 2, which holds 150; the three groups hold 330. *)
Lemma group_volumes_exact_witness :
  (λ r, (units <$> r.1 !! 2%N, r.2 !! 4%N)) <$> build_group_volumes tree climbers {[1%N; 2%N; 5%N]} =
    Ok (Some (150 * 10 ^ 28)%Z, Some 2%N) ∧
  returns (λ '(volumes, leaders), (∀ u, leaders !! u = (λ _, leader_of tree {[1%N; 2%N; 5%N]} u) <$> climbers !! u) ∧
      (∀ l, units (default DZERO (volumes !! l)) =
        volume_of climbers (led_by tree {[1%N; 2%N; 5%N]} l (everyone climbers))) ∧
      sumZ (units <$> (map_to_list volumes).*2) = volume_of climbers (everyone climbers) ∧
      ∀ u, if decide (u ∈ ({[1%N; 2%N; 5%N]} : gset Uuid)) then leader_of tree {[1%N; 2%N; 5%N]} u = u
           else match upline_of tree u with
                | [] => leader_of tree {[1%N; 2%N; 5%N]} u = u
                | p :: _ => leader_of tree {[1%N; 2%N; 5%N]} u = leader_of tree {[1%N; 2%N; 5%N]} p
                end)
    (λ _, True) (build_group_volumes tree climbers {[1%N; 2%N; 5%N]}).
Proof. split; [vm_compute; reflexivity|]. exact (group_volumes_exact tree climbers {[1%N; 2%N; 5%N]} tree_wf). Defined.

(** The order of 4 pays 2, its leader, and stops there. On the leg of 5, 2 has no gap
    and takes the floor of 3; on the leg of 2, 1 takes 4% of 40% of 150. *)
Lemma calculate_stairstep_exact_witness :
  paid (stair_res nearest) = [(1%N, 2%N, 1%N, (240%Z, 2%Z), None); (2%N, 4%N, 1%N, (400%Z, 2%Z), Some 1%N);
    (2%N, 5%N, 1%N, (3%Z, 0%Z), None)] ∧
  ∃ pr, prepared tree stair_plan (stair nearest) climbers pr ∧
    stairstep_accounted tree stair_plan (stair nearest) climbers volume pr (stair_res nearest) ∧
    collected (earnings (stair_res nearest)) (walks (stair_res nearest)) ∧ length (walks (stair_res nearest)) = length volume.
Proof.
  split; [vm_compute; reflexivity|].
  exact (calculate_stairstep_exact tree stair_plan (stair nearest) climbers volume identity _ tree_wf
    (stair_widths nearest I) stair_nearest_ok).
Defined.

(** The first tier pays the nearest breakaway above; the second the next one with a
    split-out group. *)
Example stair_tiers :
  paid (stair_res by_tier) = [(1%N, 2%N, 1%N, (600%Z, 2%Z), None); (1%N, 5%N, 2%N, (80%Z, 2%Z), None);
    (2%N, 4%N, 1%N, (400%Z, 2%Z), Some 1%N); (2%N, 5%N, 1%N, (320%Z, 2%Z), None)].
Proof. vm_compute. reflexivity. Qed.

(** A generation limit of 2: 1 is the second gold leader above 5. *)
Example stair_generations :
  paid (stair_res by_generation) = [(1%N, 2%N, 1%N, (240%Z, 2%Z), None); (1%N, 5%N, 2%N, (64%Z, 2%Z), None);
    (2%N, 4%N, 1%N, (400%Z, 2%Z), Some 1%N); (2%N, 5%N, 1%N, (3%Z, 0%Z), None)].
Proof. vm_compute. reflexivity. Qed.

Lemma calculate_stairstep_errors_witness :
  calculate_stairstep tree stair_plan (stair nearest) climbers [mkSource 7 (money 1 0)] identity = Err (SourceNotInTree 7) ∧
  ∃ src, src ∈ [mkSource 7%N (money 1 0)] ∧ vs_source_id src = 7%N ∧ contains tree 7 = false.
Proof.
  assert (E : calculate_stairstep tree stair_plan (stair nearest) climbers [mkSource 7 (money 1 0)] identity = Err (SourceNotInTree 7))
    by (vm_compute; reflexivity).
  split; [exact E|].
  pose proof (calculate_stairstep_errors tree stair_plan (stair nearest) climbers [mkSource 7 (money 1 0)] identity tree_wf) as H.
  rewrite E in H. apply H. split_and!; [vm_compute; discriminate..|exact I].
Defined.

(** A differential with a leftover fixed override is refused. *)
Lemma breakaway_wire_roundtrip_witness :
  from_wire (D := rdec) (mkBreakawayWire "gold" true (SingleWalkW (mkSingleWalkWire TagDifferential None (Some (mkFixedOverride ∅)) None))) =
    Err "fixed_override config must be null when override_calculation is differential" ∧
  to_wire (mkBreakaway "gold" true by_tier) = to_wire (mkBreakaway "gold" true by_tier).
Proof.
  split; [vm_compute; reflexivity|].
  destruct (breakaway_wire_roundtrip (mkBreakaway "gold" true by_tier) (to_wire (mkBreakaway "gold" true by_tier))) as (_ & H & _).
  exact (H eq_refl).
Defined.
End StairstepWitness.
