(* ===== verification/Streamline.v ===== *)
(** * The streamline engine: [streamline/engine.rs]

    A stream is a unilevel tree used as a chain: each new member is placed under
    the stream's bottom. The engine indexes which streams a member is on and which
    a user owns, and creates, freezes and destroys streams as allowances change.

    A request changes the engine through [&mut self], so an error reply carries the
    engine as the call left it. The error of a failed tree operation is kept where
    the code formats it into a message. *)

From stdpp Require Import base numbers list gmap sorting strings.
From Stdlib Require Import ZArith Lia.
From S2P Require Import Prelude TreeTypes Arena ArenaCheck Unilevel.

Module Streamline.
Inductive StreamlineError :=
| MemberAlreadyExists (u : Uuid)
| MemberNotFound (u : Uuid)
| SponsorNotFound (u : Uuid)
| StreamNotFound (s : N)
| StreamFrozen (s : N)
| SponsorDoesNotOwnStream (u : Uuid) (s : N)
| NoStreamsAvailable
| NoOwnedStreams (u : Uuid)
| StreamChoiceNotAllowed
| TreeFailed (err : TreeError)
| NilUserId.

Inductive StreamAssignmentMode := SponsorStream | RoundRobin.

Record StreamlineConfig := mkConfig {
  assignment_mode : StreamAssignmentMode;
  enrollment_stream_choice : bool;
  freeze_on_demotion : bool;
}.

Record Stream := mkStream {
  id : N;
  tree : Unilevel.UnilevelTree;
  owner_id : Uuid;
  frozen : bool;
  created_at : Z;
  bottom : option Uuid;
}.

Record StreamlineEngine := mkEngine {
  streams : gmap N Stream;
  user_streams : gmap Uuid (list N);
  stream_owners : gmap Uuid (list N);
  next_stream_id : N;
  config : StreamlineConfig;
}.

Record AddMemberResult := mkAdded { stream_id : N; position : N }.
Record FreezeResult := mkFreeze {
  fr_frozen : list N;
  fr_unfrozen : list N;
  fr_created : list N;
  fr_destroyed : list N;
}.
Record StreamSummary := mkSummary {
  ss_id : N;
  ss_owner_id : Uuid;
  member_count : nat;
  ss_frozen : bool;
  ss_created_at : Z;
}.
Record StreamPosition := mkPosition { sp_stream_id : N; sp_position : N; sp_frozen : bool }.

(** Field updates. *)
Definition with_streams (f : gmap N Stream → gmap N Stream) (e : StreamlineEngine) : StreamlineEngine :=
  mkEngine (f (streams e)) (user_streams e) (stream_owners e) (next_stream_id e) (config e).
Definition with_users (f : gmap Uuid (list N) → gmap Uuid (list N)) (e : StreamlineEngine) : StreamlineEngine :=
  mkEngine (streams e) (f (user_streams e)) (stream_owners e) (next_stream_id e) (config e).
Definition with_owners (f : gmap Uuid (list N) → gmap Uuid (list N)) (e : StreamlineEngine) : StreamlineEngine :=
  mkEngine (streams e) (user_streams e) (f (stream_owners e)) (next_stream_id e) (config e).
Definition with_next (n : N) (e : StreamlineEngine) : StreamlineEngine :=
  mkEngine (streams e) (user_streams e) (stream_owners e) n (config e).
Definition set_tree (t : Unilevel.UnilevelTree) (s : Stream) : Stream :=
  mkStream (id s) t (owner_id s) (frozen s) (created_at s) (bottom s).
Definition set_owner (o : Uuid) (s : Stream) : Stream :=
  mkStream (id s) (tree s) o (frozen s) (created_at s) (bottom s).
Definition set_frozen (b : bool) (s : Stream) : Stream :=
  mkStream (id s) (tree s) (owner_id s) b (created_at s) (bottom s).
Definition set_bottom (o : option Uuid) (s : Stream) : Stream :=
  mkStream (id s) (tree s) (owner_id s) (frozen s) (created_at s) o.

(** [entry(k).or_default().push(x)]. *)
Definition push_at (k : Uuid) (x : N) (m : gmap Uuid (list N)) : gmap Uuid (list N) :=
  <[k := default [] (m !! k) ++ [x]]> m.

(** A call on [&mut self] that returns a [Result]. *)
Abbreviation reply A := (outcome Empty_set (StreamlineEngine * (A%type + StreamlineError)%type)).

(** [Result::ok] on a tree operation. *)
Definition tree_ok {A} (m : outcome TreeError A) : outcome Empty_set (option A) :=
  match m with Ok a => Ok (Some a) | Err _ => Ok None | Panic => Panic | Hang => Hang end.

(** [Result::expect] on a tree operation. *)
Definition tree_expect {A} (m : outcome TreeError A) : outcome Empty_set A :=
  match m with Ok a => Ok a | Err _ | Panic => Panic | Hang => Hang end.

(** [map_err(TreeError)?] on a tree operation of a request that has reached [e]. *)
Definition try_tree {A B} (e : StreamlineEngine) (m : outcome TreeError A) (k : A → reply B) : reply B :=
  match m with Ok a => k a | Err err => Ok (e, inr (TreeFailed err)) | Panic => Panic | Hang => Hang end.

(** [?] on a call that has changed the engine. *)
Definition and_then {A B} (m : reply A) (k : StreamlineEngine → A → reply B) : reply B :=
  '(e, result) ← m;
  match result with
  | inl a => k e a
  | inr err => Ok (e, inr err)
  end.

Definition tree_users (s : Stream) : list Uuid := Query.user_ids (Unilevel.arena (tree s)).
Definition tree_contains (s : Stream) (u : Uuid) : bool := Query.contains (Unilevel.arena (tree s)) u.

(** ** Construction and queries *)
Definition new (config : StreamlineConfig) (timestamp : Z) : StreamlineEngine :=
  mkEngine {[1%N := mkStream 1 Unilevel.new nil_uuid false timestamp None]} ∅ ∅ 2 config.

Definition stream_count (e : StreamlineEngine) : nat := size (streams e).
Definition get_stream (e : StreamlineEngine) (s : N) : option Stream := streams e !! s.
Definition active_streams (e : StreamlineEngine) : list Stream :=
  filter (λ s, frozen s = false) (map_to_list (streams e)).*2.
Definition contains_member (e : StreamlineEngine) (u : Uuid) : bool := bool_decide (is_Some (user_streams e !! u)).
Definition member_ids (e : StreamlineEngine) : list Uuid := (map_to_list (user_streams e)).*1.
Definition get_member_streams (e : StreamlineEngine) (u : Uuid) : option (list N) := user_streams e !! u.

Definition list_streams (e : StreamlineEngine) : list StreamSummary :=
  sort_by (λ x y, then_with (Z.compare (ss_created_at x) (ss_created_at y)) (N.compare (ss_id x) (ss_id y)))
    ((λ s, mkSummary (id s) (owner_id s) (length (tree_users s)) (frozen s) (created_at s)) <$> (map_to_list (streams e)).*2).

Definition member_position (e : StreamlineEngine) (u : Uuid) (positions : list StreamPosition) (s : N)
  : outcome StreamlineError (list StreamPosition) :=
  match streams e !! s with
  | None => Ok positions
  | Some stream =>
      match Unilevel.get_position (tree stream) u with
      | Ok pos => Ok (positions ++ [mkPosition s (tp_depth pos) (frozen stream)])
      | Err _ => Ok positions
      | Panic => Panic
      | Hang => Hang
      end
  end.

Definition get_member_info (e : StreamlineEngine) (u : Uuid) : outcome StreamlineError (list StreamPosition) :=
  stream_ids ← ok_or (user_streams e !! u) (MemberNotFound u);
  fold_outcome (member_position e u) [] stream_ids.

(** ** Streams *)
Definition create_stream (e : StreamlineEngine) (owner : Uuid) (timestamp : Z) : outcome Empty_set (StreamlineEngine * N) :=
  let s := next_stream_id e in
  next ← u32_add s 1;
  let e := with_next next e in
  let e := with_streams <[s := mkStream s Unilevel.new owner false timestamp None]> e in
  Ok (with_owners (push_at owner s) e, s).

Definition create_one (owner : Uuid) (timestamp : Z) (st : StreamlineEngine * list N) (_ : nat)
  : outcome Empty_set (StreamlineEngine * list N) :=
  let '(e, ids) := st in
  '(e, s) ← create_stream e owner timestamp;
  Ok (e, ids ++ [s]).

Definition create_streams (e : StreamlineEngine) (owner : Uuid) (timestamp : Z) (count : N)
  : outcome Empty_set (StreamlineEngine * list N) :=
  fold_outcome (create_one owner timestamp) (e, []) (seq 0 (N.to_nat count)).

(** [as u32] of a length. *)
Definition len_u32 {A} (l : list A) : N := (N.of_nat (length l) mod 4294967296)%N.

Definition expand_streams (e : StreamlineEngine) (u : Uuid) (total_allowed : N) (timestamp : Z) : reply (list N) :=
  if negb (bool_decide (is_Some (user_streams e !! u))) && negb (bool_decide (is_Some (stream_owners e !! u)))
  then Ok (e, inr (MemberNotFound u))
  else
    let current_count := from_option len_u32 0%N (stream_owners e !! u) in
    if (total_allowed <=? current_count)%N then Ok (e, inl [])
    else
      '(e, new_ids) ← create_streams e u timestamp (total_allowed - current_count);
      Ok (e, inl new_ids).

(** ** Placement *)

(** The first unfrozen stream of the owner's list. *)
Definition first_unfrozen (e : StreamlineEngine) (owned : list N) : option N :=
  snd <$> list_find (λ s, from_option (λ st, negb (frozen st)) false (streams e !! s) = true) owned.

(** One turn of the search for the unfrozen stream with the fewest members. *)
Definition fewer (e : StreamlineEngine) (best : option (N * nat)) (s : N) : option (N * nat) :=
  match streams e !! s with
  | None => best
  | Some stream =>
      if frozen stream then best
      else
        let count := length (tree_users stream) in
        match best with
        | None => Some (s, count)
        | Some (_, best_count) => if (count <? best_count)%nat then Some (s, count) else best
        end
  end.

Definition find_placement_stream (e : StreamlineEngine) (sponsor : Uuid) (override : option N) : outcome StreamlineError N :=
  match override with
  | Some override_id =>
      refuse_if (negb (enrollment_stream_choice (config e))) StreamChoiceNotAllowed;;
      stream ← ok_or (streams e !! override_id) (StreamNotFound override_id);
      refuse_if (frozen stream) (StreamFrozen override_id);;
      owned ← ok_or (stream_owners e !! sponsor) (SponsorDoesNotOwnStream sponsor override_id);
      refuse_if (negb (bool_decide (override_id ∈ (owned : list N)))) (SponsorDoesNotOwnStream sponsor override_id);;
      Ok override_id
  | None =>
      owned ← ok_or (stream_owners e !! sponsor) (NoOwnedStreams sponsor);
      match assignment_mode (config e) with
      | SponsorStream => ok_or (first_unfrozen e owned) NoStreamsAvailable
      | RoundRobin => ok_or (fst <$> foldl (fewer e) None owned) NoStreamsAvailable
      end
  end.

Definition bootstrap_first_member (e : StreamlineEngine) (u : Uuid) (timestamp : Z) : reply AddMemberResult :=
  '(e, s) ← (if bool_decide (is_Some (streams e !! 1%N)) then Ok (with_owners (push_at u 1) e, 1%N)
             else create_stream e u timestamp);
  stream ← expect (streams e !! s);
  '(t, _) ← tree_expect (Unilevel.add_root (tree stream) u timestamp);
  let stream := set_bottom (Some u) (set_owner u (set_tree t stream)) in
  let e := with_streams <[s := stream]> e in
  Ok (with_users (push_at u s) e, inl (mkAdded s 0)).

(** The append to the bottom of the chain, and the position it reports. *)
Definition append (e : StreamlineEngine) (stream : Stream) (u sponsor : Uuid) (timestamp : Z)
  (k : Unilevel.UnilevelTree * N → reply AddMemberResult) : reply AddMemberResult :=
  match bottom stream with
  | Some bottom_id =>
      try_tree e (Unilevel.add_node (tree stream) u bottom_id sponsor timestamp) (λ '(t, _),
        p ← tree_expect (Query.get_parent (Unilevel.arena t) u);
        np ← expect p;
        k (t, depth np + 1)%N)
  | None =>
      '(t, _) ← tree_expect (Unilevel.add_root (tree stream) u timestamp);
      k (t, 0%N)
  end.

Definition add_member (e : StreamlineEngine) (u sponsor : Uuid) (timestamp : Z) (override : option N) : reply AddMemberResult :=
  if is_nil u then Ok (e, inr NilUserId)
  else if bool_decide (is_Some (user_streams e !! u)) then Ok (e, inr (MemberAlreadyExists u))
  else if bool_decide (user_streams e = ∅) then bootstrap_first_member e u timestamp
  else if negb (bool_decide (is_Some (user_streams e !! sponsor))) && negb (bool_decide (is_Some (stream_owners e !! sponsor)))
  then Ok (e, inr (SponsorNotFound sponsor))
  else
    match find_placement_stream e sponsor override with
    | Err err => Ok (e, inr err)
    | Panic => Panic
    | Hang => Hang
    | Ok target =>
        stream ← expect (streams e !! target);
        append e stream u sponsor timestamp (λ '(t, position),
          let e := with_streams <[target := set_bottom (Some u) (set_tree t stream)]> e in
          Ok (with_users (push_at u target) e, inl (mkAdded target position)))
    end.

(** ** Allowances *)

(** A member's stream list without [s]; an empty list leaves the index. *)
Definition retain_other (s : N) (m : gmap Uuid (list N)) (u : Uuid) : gmap Uuid (list N) :=
  match m !! u with
  | None => m
  | Some l =>
      let l' := filter (λ x, x ≠ s) l in
      if bool_decide (l' = []) then delete u m else <[u := l']> m
  end.

(** The owner's streams with creation time and whether frozen, oldest first. *)
Definition entry : Type := N * Z * bool.
Definition owned_sorted (e : StreamlineEngine) (owned : list N) : list entry :=
  sort_by (λ x y : entry, Z.compare x.1.2 y.1.2)
    (omap (λ s, (λ st, (id st, created_at st, frozen st)) <$> streams e !! s) owned).

Definition freeze_one (st : StreamlineEngine * list N) (s : N) : StreamlineEngine * list N :=
  let '(e, done) := st in
  match streams e !! s with
  | Some stream => (with_streams <[s := set_frozen true stream]> e, done ++ [s])
  | None => (e, done)
  end.

Definition destroy_one (u : Uuid) (st : StreamlineEngine * list N) (s : N) : StreamlineEngine * list N :=
  let '(e, done) := st in
  let '(e, done) :=
    match streams e !! s with
    | Some stream => (with_users (λ m, foldl (retain_other s) m (tree_users stream)) (with_streams (delete s) e), done ++ [s])
    | None => (e, done)
    end in
  (with_owners (λ m, match m !! u with Some l => <[u := filter (λ x, x ≠ s) l]> m | None => m end) e, done).

Definition drop_empty_owner (u : Uuid) (m : gmap Uuid (list N)) : gmap Uuid (list N) :=
  if bool_decide (m !! u = Some []) then delete u m else m.

(** The loop over frozen streams stops when none remain to unfreeze. *)
Definition unfreeze_one (st : StreamlineEngine * list N * N) (s : N) : StreamlineEngine * list N * N :=
  let '(e, done, remaining) := st in
  if (remaining =? 0)%N then st
  else
    match streams e !! s with
    | Some stream => (with_streams <[s := set_frozen false stream]> e, done ++ [s], (remaining - 1)%N)
    | None => st
    end.

Definition update_stream_allowance (e : StreamlineEngine) (u : Uuid) (total_allowed : N) (timestamp : Z) : reply FreezeResult :=
  match stream_owners e !! u with
  | None => Ok (e, inr (NoOwnedStreams u))
  | Some owned_ids =>
      let sorted := owned_sorted e owned_ids in
      let active := filter (λ x : entry, x.2 = false) sorted in
      let active_count := len_u32 active in
      if (total_allowed <? active_count)%N then
        let excess := take (N.to_nat (active_count - total_allowed)) (reverse (active.*1.*1)) in
        if freeze_on_demotion (config e) then
          let '(e, done) := foldl freeze_one (e, []) excess in
          Ok (e, inl (mkFreeze done [] [] []))
        else
          let '(e, done) := foldl (destroy_one u) (e, []) excess in
          Ok (with_owners (drop_empty_owner u) e, inl (mkFreeze [] [] [] done))
      else if (active_count <? total_allowed)%N then
        let frozen_ids := (filter (λ x : entry, x.2 = true) sorted).*1.*1 in
        let '(e, unfrozen, remaining) := foldl unfreeze_one (e, [], (total_allowed - active_count)%N) frozen_ids in
        '(e, created) ← create_streams e u timestamp remaining;
        Ok (e, inl (mkFreeze [] unfrozen created []))
      else Ok (e, inl (mkFreeze [] [] [] []))
  end.

(** ** Removal *)

(** A member of the chain below the removed one: user, sponsor, enrolment. *)
Definition link : Type := Uuid * Uuid * Z.

(** A node with its sponsor; one without a sponsor names itself. *)
Definition link_of (a : Arena) (n : Node) : outcome Empty_set link :=
  sponsor ← tree_ok (Query.get_sponsor a (user_id n));
  Ok (user_id n, from_option user_id (user_id n) (mjoin sponsor), enrolled_at n).

Definition chain_below (a : Arena) (u : Uuid) : outcome Empty_set (list link) :=
  nodes ← tree_ok (Query.get_downline a u 0);
  map_outcome (link_of a) (default [] nodes).

(** Lift the descendants out, from the leaf up. *)
Fixpoint detach_all (e : StreamlineEngine) (s : N) (stream : Stream) (below : list link) : reply Stream :=
  match below with
  | [] => Ok (e, inl stream)
  | (d, _, _) :: below' =>
      try_tree e (Unilevel.remove_node (tree stream) d) (λ '(t, _),
        let stream := set_tree t stream in
        let e := with_users (λ m, retain_other s m d) (with_streams <[s := stream]> e) in
        detach_all e s stream below')
  end.

(** Put them back under the parent of the removed member; its recruits are
    sponsored by the member they are now placed under. *)
Fixpoint attach_all (e : StreamlineEngine) (s : N) (stream : Stream) (removed : Uuid) (current_parent : option Uuid)
  (below : list link) : reply Stream :=
  match below with
  | [] => Ok (e, inl stream)
  | (d, original_sponsor, at_) :: below' =>
      let sponsor := if bool_decide (original_sponsor = removed) then default d current_parent else original_sponsor in
      try_tree e (match current_parent with
                  | Some p => Unilevel.add_node (tree stream) d p sponsor at_
                  | None => Unilevel.add_root (tree stream) d at_
                  end) (λ '(t, _),
        let stream := set_tree t stream in
        let stream := match below' with [] => set_bottom (Some d) stream | _ => stream end in
        let e := with_users (push_at d s) (with_streams <[s := stream]> e) in
        attach_all e s stream removed (Some d) below')
  end.

(** The first user without a parent. *)
Fixpoint find_top (a : Arena) (users : list Uuid) : outcome Empty_set (option Uuid) :=
  match users with
  | [] => Ok None
  | v :: users' =>
      p ← tree_ok (Query.get_parent a v);
      match mjoin p with
      | None => Ok (Some v)
      | Some _ => find_top a users'
      end
  end.

(** The stream passes from [u] to the member at its top, or to nobody. *)
Definition transfer (e : StreamlineEngine) (s : N) (stream : Stream) (u : Uuid) : outcome Empty_set StreamlineEngine :=
  if bool_decide (owner_id stream = u) then
    new_owner ← find_top (Unilevel.arena (tree stream)) (tree_users stream);
    match new_owner with
    | Some v => Ok (with_owners (push_at v s) (with_streams <[s := set_owner v stream]> e))
    | None => Ok (with_streams <[s := set_owner nil_uuid stream]> e)
    end
  else Ok e.

(** One stream of the removed member. *)
Definition remove_from_stream (e : StreamlineEngine) (u : Uuid) (s : N) (removed_from : list N) : reply (list N) :=
  match streams e !! s with
  | None => Ok (e, inl removed_from)
  | Some stream =>
      if negb (tree_contains stream u) then Ok (e, inl removed_from)
      else
        let a := Unilevel.arena (tree stream) in
        descendants ← chain_below a u;
        parent ← tree_ok (Query.get_parent a u);
        let parent_id := user_id <$> mjoin parent in
        and_then (detach_all e s stream (reverse descendants)) (λ e stream,
          try_tree e (Unilevel.remove_node (tree stream) u) (λ '(t, _),
            let stream := set_tree t stream in
            let e := with_streams <[s := stream]> e in
            and_then (attach_all e s stream u parent_id descendants) (λ e stream,
              let stream := match descendants with [] => set_bottom parent_id stream | _ => stream end in
              let stream := match tree_users stream with [] => set_bottom None stream | _ => stream end in
              let e := with_streams <[s := stream]> e in
              e ← transfer e s stream u;
              Ok (e, inl (removed_from ++ [s])))))
  end.

Fixpoint remove_from_streams (e : StreamlineEngine) (u : Uuid) (ids removed_from : list N) : reply (list N) :=
  match ids with
  | [] => Ok (e, inl removed_from)
  | s :: ids' => and_then (remove_from_stream e u s removed_from) (λ e removed_from, remove_from_streams e u ids' removed_from)
  end.

(** A stream the removed user owned without being on it. *)
Definition transfer_owned (u : Uuid) (e : StreamlineEngine) (s : N) : outcome Empty_set StreamlineEngine :=
  match streams e !! s with
  | Some stream => transfer e s stream u
  | None => Ok e
  end.

Definition remove_member (e : StreamlineEngine) (u : Uuid) (timestamp : Z) : reply (list N) :=
  match user_streams e !! u with
  | None => Ok (e, inr (MemberNotFound u))
  | Some stream_ids =>
      let e := with_users (delete u) e in
      and_then (remove_from_streams e u stream_ids []) (λ e removed_from,
        e ← match stream_owners e !! u with
            | Some owned_ids => fold_outcome (transfer_owned u) (with_owners (delete u) e) owned_ids
            | None => Ok e
            end;
        Ok (e, inl removed_from))
  end.
End Streamline.
