(* ===== verification/StreamTree.v ===== *)
(** * Chains: the shape of a stream's tree

    A stream's tree is a chain: every node but the top hangs under the one before
    it and was recruited by someone above it. [chain_net] is the network of a
    chain written as a list from the top; appending to the bottom and removing the
    bottom are appending to and shortening that list. *)

From stdpp Require Import base numbers list gmap sorting strings.
From Stdlib Require Import ZArith Lia.
From S2P Require Import Prelude TreeTypes Arena ArenaWf Members Unilevel ArenaOps ArenaWalk Navigator Streamline.
Import Streamline.

(** One position: user, sponsor and enrolment time. *)
Record rung := mkRung { r_user : Uuid; r_sponsor : option Uuid; r_at : Z }.

(** The recruits of [u] along the chain. *)
Definition recruits (l : list rung) (u : Uuid) : list Uuid := r_user <$> filter (λ r, r_sponsor r = Some u) l.

Definition rung_member (l : list rung) (i : nat) (r : rung) : member :=
  mkMember (if decide (i = 0) then None else r_user <$> l !! (i - 1)) (r_sponsor r)
    (option_list (r_user <$> l !! S i)) (recruits l (r_user r)) (N.of_nat i) (r_at r).

Definition chain_net (l : list rung) : network :=
  list_to_map ((λ '(i, r), (r_user r, rung_member l i r)) <$> enumerate l).

(** Distinct users, none nil; only the top is unsponsored, and a sponsor is above. *)
Record chain_wf (l : list rung) : Prop := {
  cw_nodup : NoDup (r_user <$> l);
  cw_nil r : r ∈ l → r_user r ≠ nil_uuid;
  cw_sponsor i r : l !! i = Some r →
    if decide (i = 0) then r_sponsor r = None else ∃ s, r_sponsor r = Some s ∧ s ∈ r_user <$> take i l;
}.

Lemma chain_lookup l u m : NoDup (r_user <$> l) →
  chain_net l !! u = Some m ↔ ∃ i r, l !! i = Some r ∧ r_user r = u ∧ m = rung_member l i r.
Proof.
  intros Hnd. unfold chain_net. rewrite <- elem_of_list_to_map.
  - rewrite list_elem_of_fmap. split.
    + intros ([i r] & [= -> ->] & Hi%elem_of_enumerate). eauto.
    + intros (i & r & Hi & <- & ->). exists (i, r). split; [done|]. by apply elem_of_enumerate.
  - rewrite <- list_fmap_compose. replace (fst ∘ _ <$> enumerate l) with (r_user <$> l); [done|].
    rewrite <- (enumerate_snd l) at 1. rewrite <- list_fmap_compose. apply list_fmap_ext. by intros ? [? ?].
Qed.

Lemma chain_lookup_at l i r : NoDup (r_user <$> l) → l !! i = Some r → chain_net l !! r_user r = Some (rung_member l i r).
Proof. intros Hnd Hi. apply chain_lookup; eauto. Qed.

Lemma chain_is_Some l u : NoDup (r_user <$> l) → is_Some (chain_net l !! u) ↔ u ∈ r_user <$> l.
Proof.
  intros Hnd. unfold is_Some. setoid_rewrite (chain_lookup l u _ Hnd). rewrite list_elem_of_fmap. split.
  - intros (m & i & r & Hi & <- & _). exists r. split; [done|]. by eapply list_elem_of_lookup_2.
  - intros (r & -> & [i Hi]%list_elem_of_lookup). eauto 10.
Qed.

Lemma chain_None l u : NoDup (r_user <$> l) → chain_net l !! u = None ↔ u ∉ r_user <$> l.
Proof. intros Hnd. rewrite <- (chain_is_Some l u Hnd), eq_None_not_Some. done. Qed.

(** Positions are determined by their user. *)
Lemma rung_inj l i j r r' : NoDup (r_user <$> l) → l !! i = Some r → l !! j = Some r' → r_user r = r_user r' → i = j.
Proof.
  intros Hnd Hi Hj He. eapply NoDup_lookup; [exact Hnd|by rewrite list_lookup_fmap, Hi|]. rewrite list_lookup_fmap, Hj. cbn. by rewrite He.
Qed.

Lemma recruits_app l l' u : recruits (l ++ l') u = recruits l u ++ recruits l' u.
Proof. unfold recruits. by rewrite filter_app, fmap_app. Qed.

(** Nobody is recruited by a user who is not above. *)
Lemma recruits_none l u : chain_wf l → u ∉ r_user <$> l → recruits l u = [].
Proof.
  intros Hl Hu. unfold recruits. rewrite (filter_all_false _ l); [done|]. intros r [i Hi]%list_elem_of_lookup Hs.
  pose proof (cw_sponsor l Hl i r Hi) as H. case_decide; [congruence|]. destruct H as (s & Hs' & Hin). assert (s = u) as -> by congruence.
  apply Hu. apply list_elem_of_fmap in Hin as (x & -> & Hx). apply list_elem_of_fmap. exists x. split; [done|].
  apply elem_of_take in Hx as (j & Hj & _). by eapply list_elem_of_lookup_2.
Qed.

(** A well-formed chain's prefix is one, and so is one more rung at its end. *)
Lemma chain_wf_snoc l r : chain_wf (l ++ [r]) ↔
  chain_wf l ∧ (r_user r ∉ r_user <$> l) ∧ r_user r ≠ nil_uuid ∧
  match l with [] => r_sponsor r = None | _ => ∃ s, r_sponsor r = Some s ∧ s ∈ r_user <$> l end.
Proof.
  split.
  - intros [H1 H2 H3]. rewrite fmap_app, NoDup_app in H1. destruct H1 as (Hnd & Hdis & _). split_and!.
    + split; [done|intros x Hx; apply H2; set_solver|]. intros i x Hi. pose proof (lookup_lt_Some _ _ _ Hi).
      specialize (H3 i x). rewrite lookup_app_l, take_app_le in H3 by lia. by apply H3.
    + intros Hin. apply (Hdis _ Hin). apply list_elem_of_singleton. done.
    + apply H2. set_solver.
    + specialize (H3 (length l) r). rewrite list_lookup_middle, take_app_length in H3 by done. specialize (H3 eq_refl).
      destruct l; [exact H3|]. exact H3.
  - intros ([H1 H2 H3] & Hnew & Hnil & Hs). split.
    + rewrite fmap_app, NoDup_app. split_and!; [done| |apply NoDup_singleton]. intros x Hx ->%list_elem_of_singleton. done.
    + intros x [Hx | ->%list_elem_of_singleton]%elem_of_app; [by apply H2|done].
    + intros i x Hi. destruct (decide (i < length l)) as [Hlt|Hge].
      * rewrite lookup_app_l in Hi by done. rewrite take_app_le by lia. by apply H3.
      * assert (i = length l) as ->. { apply lookup_lt_Some in Hi. rewrite length_app in Hi. cbn in Hi. lia. }
        rewrite list_lookup_middle in Hi by done. simplify_eq. rewrite take_app_length. destruct l; [exact Hs|exact Hs].
Qed.

(** ** The bottom of the chain *)
Section bottom.
Context (l : list rung) (r : rung) (Hwf : chain_wf (l ++ [r])).

Let Hparts := proj1 (chain_wf_snoc l r) Hwf.
Abbreviation u := (r_user r).

Lemma bottom_nodup : NoDup (r_user <$> l) ∧ NoDup (r_user <$> l ++ [r]).
Proof using All. destruct Hparts as ([H _ _] & _). split; [done|apply Hwf]. Qed.

(** The rungs above the bottom, with and without it. *)
Lemma rung_member_snoc i x : l !! i = Some x → rung_member (l ++ [r]) i x =
  mkMember (m_parent (rung_member l i x)) (r_sponsor x)
    (m_children (rung_member l i x) ++ if decide (S i = length l) then [u] else [])
    (m_sponsored (rung_member l i x) ++ if decide (r_sponsor r = Some (r_user x)) then [u] else []) (N.of_nat i) (r_at x).
Proof using All.
  intros Hi. pose proof (lookup_lt_Some _ _ _ Hi) as Hlt. unfold rung_member. cbn. f_equal.
  - case_decide; [done|]. by rewrite lookup_app_l by lia.
  - case_decide as He.
    + rewrite He, list_lookup_middle by done. rewrite (lookup_ge_None_2 l) by lia. done.
    + rewrite lookup_app_l by lia. by rewrite app_nil_r.
  - rewrite recruits_app. f_equal. unfold recruits. rewrite filter_cons. by case_decide.
Qed.

Lemma bottom_member : rung_member (l ++ [r]) (length l) r =
  mkMember (r_user <$> last l) (r_sponsor r) [] [] (N.of_nat (length l)) (r_at r).
Proof using All.
  destruct Hparts as (Hl & Hnew & _ & Hs). unfold rung_member. f_equal.
  - rewrite last_lookup. destruct l as [|x l'] eqn:E; [done|]. rewrite decide_False by done. rewrite <- E in *.
    rewrite lookup_app_l by (rewrite E; cbn; lia). by replace (pred (length l)) with (length l - 1) by lia.
  - by rewrite lookup_ge_None_2 by (rewrite length_app; cbn; lia).
  - rewrite recruits_app, (recruits_none l u Hl Hnew). unfold recruits. rewrite filter_cons. case_decide as He; [|done].
    destruct l; [congruence|]. destruct Hs as (s & Hs & Hin). rewrite He in Hs. by simplify_eq.
Qed.

Lemma chain_snoc_lookup v : chain_net (l ++ [r]) !! v = if decide (v = u) then Some (rung_member (l ++ [r]) (length l) r)
  else (λ '(i, x), rung_member (l ++ [r]) i x) <$> (list_find (λ x, r_user x = v) l).
Proof using All.
  destruct bottom_nodup as [Hnd Hnd']. case_decide as Hv.
  - subst v. apply chain_lookup_at; [done|]. by apply list_lookup_middle.
  - destruct (list_find (λ x, r_user x = v) l) as [[i x]|] eqn:Hf; cbn.
    + apply list_find_Some in Hf as (Hi & <- & _). apply chain_lookup_at; [done|]. by apply lookup_app_l_Some.
    + apply chain_None; [done|]. rewrite fmap_app, elem_of_app. intros [(x & -> & Hx)%list_elem_of_fmap|?%list_elem_of_singleton]; [|done].
      apply list_find_None in Hf. rewrite Forall_forall in Hf. by eapply Hf.
Qed.

Lemma chain_old_lookup v : chain_net l !! v = (λ '(i, x), rung_member l i x) <$> (list_find (λ x, r_user x = v) l).
Proof using All.
  destruct bottom_nodup as [Hnd _]. destruct (list_find (λ x, r_user x = v) l) as [[i x]|] eqn:Hf; cbn.
  - apply list_find_Some in Hf as (Hi & <- & _). by apply chain_lookup_at.
  - apply chain_None; [done|]. intros (x & -> & Hx)%list_elem_of_fmap. apply list_find_None in Hf. rewrite Forall_forall in Hf. by eapply Hf.
Qed.

Lemma last_is i x : l !! i = Some x → r_user <$> last l = Some (r_user x) ↔ S i = length l.
Proof using All.
  intros Hi. rewrite last_lookup. split.
  - intros (y & Hy & He)%fmap_Some. pose proof (rung_inj l _ _ _ _ (proj1 bottom_nodup) Hi Hy He). apply lookup_lt_Some in Hi. lia.
  - intros He. assert (pred (length l) = i) as -> by lia. by rewrite Hi.
Qed.

(** Appending under the last user. *)
Lemma chain_append p s : r_user <$> last l = Some p → r_sponsor r = Some s →
  place (λ c, c ++ [u]) u p s (N.of_nat (length l)) (r_at r) (chain_net l) = chain_net (l ++ [r]).
Proof using All.
  intros Hp Hs. apply map_eq. intros v. unfold place. rewrite lookup_insert, chain_snoc_lookup.
  destruct (decide (u = v)) as [<-|Hv]; [rewrite decide_True by done; by rewrite bottom_member, Hp, Hs|]. rewrite decide_False by done.
  rewrite !lookup_alter_at, chain_old_lookup. destruct (list_find (λ x, r_user x = v) l) as [[i x]|] eqn:Hf; cbn; [|by repeat case_decide].
  apply list_find_Some in Hf as (Hi & <- & _). rewrite (rung_member_snoc i x Hi).
  rewrite (decide_ext (p = r_user x) (S i = length l)) by (rewrite <- (last_is i x Hi), Hp; naive_solver).
  rewrite (decide_ext (r_sponsor r = Some (r_user x)) (s = r_user x)) by (rewrite Hs; naive_solver).
  destruct (decide (S i = length l)), (decide (s = r_user x)); cbn; unfold m_with_children, m_with_sponsored, rung_member; cbn; rewrite ?app_nil_r; done.
Qed.

(** The bottom leaves; it has recruited nobody. *)
Lemma chain_shorten : leave u (rung_member (l ++ [r]) (length l) r) (chain_net (l ++ [r])) = chain_net l.
Proof using All.
  rewrite bottom_member. apply map_eq. intros v. unfold leave. rewrite map_lookup_imap, lookup_delete, chain_old_lookup, chain_snoc_lookup.
  destruct (decide (u = v)) as [<-|Hv].
  { cbn. symmetry. apply fmap_None. apply list_find_None, Forall_forall. intros x Hx He. destruct Hparts as (_ & Hnew & _).
    apply Hnew. rewrite <- He. by apply list_elem_of_fmap_2. }
  rewrite decide_False by done. destruct (list_find (λ x, r_user x = v) l) as [[i x]|] eqn:Hf; cbn; [|done]. f_equal.
  apply list_find_Some in Hf as (Hi & <- & _). rewrite (rung_member_snoc i x Hi).
  destruct Hparts as (Hl & Hnew & _). rewrite (decide_ext (r_user <$> last l = Some (r_user x)) (S i = length l)) by (by apply last_is).
  assert (Hin : ∀ y, y ∈ l → r_user y ≠ u) by (intros y Hy He; apply Hnew; rewrite <- He; by apply list_elem_of_fmap_2).
  assert (Hsp : r_sponsor x ≠ Some u).
  { intros He. pose proof (recruits_none l u Hl Hnew) as Hr. unfold recruits in Hr. apply fmap_nil_inv in Hr.
    apply (not_elem_of_nil x). rewrite <- Hr. apply list_elem_of_filter. split; [done|]. by eapply list_elem_of_lookup_2. }
  assert (Hch : filter (λ w, w ≠ u) (m_children (rung_member l i x)) = m_children (rung_member l i x)).
  { apply filter_all_true. cbn. destruct (l !! S i) as [y|] eqn:Hy; repeat constructor. apply Hin. by eapply list_elem_of_lookup_2. }
  assert (Hrc : filter (λ w, w ≠ u) (m_sponsored (rung_member l i x)) = m_sponsored (rung_member l i x)).
  { apply filter_all_true, Forall_forall. intros w (y & -> & [_ Hy]%list_elem_of_filter)%list_elem_of_fmap. by apply Hin. }
  assert (Hrec : rung_member l i x = mkMember (m_parent (rung_member l i x)) (r_sponsor x) (m_children (rung_member l i x))
    (m_sponsored (rung_member l i x)) (N.of_nat i) (r_at x)) by done.
  assert (Hu : filter (λ w, w ≠ u) [u] = []) by (by rewrite filter_cons_False by (by intros [])).
  assert (Hd : ∀ l' (P : Prop) `{!Decision P}, filter (λ w, w ≠ u) l' = l' →
    (if decide P then filter (λ w, w ≠ u) (l' ++ if decide P then [u] else []) else l' ++ if decide P then [u] else []) = l').
  { intros l' P ? Hl'. destruct (decide P); [rewrite filter_app, Hl', Hu|]; by rewrite app_nil_r. }
  pose proof (Hd _ (S i = length l) _ Hch) as Hch'. pose proof (Hd _ (r_sponsor r = Some (r_user x)) _ Hrc) as Hrc'.
  unfold m_with_sponsor, m_with_sponsored, m_with_children.
  destruct (decide (S i = length l)), (decide (r_sponsor r = Some (r_user x))); cbn [m_parent m_sponsor m_children m_sponsored m_depth m_enrolled_at] in *;
    rewrite ?app_nil_r; rewrite decide_False by done; rewrite ?Hch', ?Hrc'; exact (eq_sym Hrec).
Qed.
End bottom.

(** * Streams are chains

    [chain_of t l]: the unilevel tree [t] is well formed and its network is the
    chain [l], written from the top. On such a tree appending to the bottom and
    removing the bottom always succeed and lengthen or shorten the list, and the
    queries the streamline engine makes read the list. *)

Definition users (l : list rung) : list Uuid := r_user <$> l.

Definition chain_of (t : Unilevel.UnilevelTree) (l : list rung) : Prop :=
  arena_wf (Unilevel.arena t) ∧ members (Unilevel.arena t) = chain_net l ∧ chain_wf l.

Lemma chain_wf_nil : chain_wf [].
Proof. split; [constructor|by intros r ?%elem_of_nil|done]. Qed.

Lemma chain_of_new : chain_of Unilevel.new [].
Proof. split_and!; [apply arena_new_wf|done|apply chain_wf_nil]. Qed.

(** ** Reading a rung *)
Section reading.
Context (t : Unilevel.UnilevelTree) (l : list rung) (Hc : chain_of t l).
Abbreviation a := (Unilevel.arena t).

Lemma chain_nodup : NoDup (users l).
Proof using Hc. destruct Hc as (_ & _ & H). apply (cw_nodup l H). Qed.

Lemma chain_arena : arena_wf a.
Proof using Hc. apply Hc. Qed.

Lemma chain_contains u : Query.contains a u = bool_decide (u ∈ users l).
Proof using Hc.
  destruct Hc as (Hwf & Hm & Hl). unfold Query.contains. apply bool_decide_ext.
  rewrite <- (members_is_Some a Hwf), Hm. apply chain_is_Some, (cw_nodup l Hl).
Qed.

Lemma chain_user_ids u : u ∈ Query.user_ids a ↔ u ∈ users l.
Proof using Hc.
  pose proof (nav_user_ids (T := Unilevel.UnilevelTree) t u chain_arena) as H. cbn in H. rewrite H, chain_contains.
  apply bool_decide_eq_true.
Qed.

Lemma user_ids_nodup (b : Arena) : NoDup (Query.user_ids b).
Proof. apply NoDup_fst_map_to_list. Qed.

Lemma chain_user_ids_perm : Query.user_ids a ≡ₚ users l.
Proof using Hc. apply NoDup_Permutation; [apply user_ids_nodup|apply chain_nodup|apply chain_user_ids]. Qed.

(** The slot and node of a rung. *)
Lemma chain_node i r : l !! i = Some r → ∃ idx n, index a !! r_user r = Some idx ∧ nodes a !! idx = Some n ∧
  user_id n = r_user r ∧ r_user r ≠ nil_uuid ∧ member_of a n = rung_member l i r.
Proof using Hc.
  intros Hi. destruct Hc as (Hwf & Hm & Hl). pose proof (chain_lookup_at l i r (cw_nodup l Hl) Hi) as H. rewrite <- Hm in H.
  apply (members_Some a Hwf) in H as (idx & n & H1 & H2 & H3 & H4 & H5). by exists idx, n.
Qed.

Definition slot_of (r : rung) : NodeIndex := default 0 (index a !! r_user r).

Lemma slot_node i r : l !! i = Some r → ∃ n, nodes a !! slot_of r = Some n ∧ user_id n = r_user r ∧ user_id n ≠ nil_uuid ∧
  depth n = N.of_nat i ∧ enrolled_at n = r_at r ∧ uid a <$> sponsor n = r_sponsor r ∧
  uid a <$> parent n = (if decide (i = 0) then None else r_user <$> l !! (i - 1)).
Proof using Hc.
  intros Hi. destruct (chain_node i r Hi) as (idx & n & H1 & H2 & H3 & H4 & [= H5 H6 H7 H8 H9 H10]). exists n. unfold slot_of.
  rewrite H1. cbn. by rewrite H3.
Qed.

Lemma slot_inj i j r r' : l !! i = Some r → l !! j = Some r' → slot_of r = slot_of r' → i = j.
Proof using Hc.
  intros Hi Hj He. destruct (slot_node i r Hi) as (n & Hn & _ & _ & Hd & _). destruct (slot_node j r' Hj) as (n' & Hn' & _ & _ & Hd' & _).
  rewrite He in Hn. assert (n = n') as -> by congruence. lia.
Qed.

(** The slot of a live user is that of its rung. *)
Lemma live_slot idx n : nodes a !! idx = Some n → user_id n ≠ nil_uuid → ∃ i r, l !! i = Some r ∧ idx = slot_of r.
Proof using Hc.
  intros Hn Hl. pose proof (live_indexed a chain_arena idx n Hn Hl) as Hidx.
  assert (user_id n ∈ users l) as Hu.
  { destruct Hc as (Hwf & Hm & Hw). unfold users. rewrite <- (chain_is_Some l), <- Hm by apply (cw_nodup l Hw).
    apply (members_is_Some a Hwf). eauto. }
  apply list_elem_of_fmap in Hu as (r & Hr & [i Hi]%list_elem_of_lookup). exists i, r. split; [done|].
  unfold slot_of. by rewrite <- Hr, Hidx.
Qed.

Lemma uid_slot i r idx : l !! i = Some r → uid a idx = r_user r → idx = slot_of r.
Proof using Hc.
  intros Hi Hu. destruct (slot_node i r Hi) as (n & Hn & Hun & Hl & _). eapply (uid_inj a chain_arena); [exact Hn|done|congruence].
Qed.

(** The path up from a rung. *)
Lemma chain_up_path i r : l !! i = Some r → ∃ n, nodes a !! slot_of r = Some n ∧
  up_path a parent (parent n) (reverse (slot_of <$> take i l)).
Proof using Hc.
  revert r. induction i as [|i IH]; intros r Hi.
  - destruct (slot_node 0 r Hi) as (n & Hn & _ & _ & _ & _ & _ & Hp). exists n. split; [done|].
    rewrite decide_True in Hp by done. apply fmap_None in Hp. rewrite Hp. constructor.
  - destruct (slot_node (S i) r Hi) as (n & Hn & _ & _ & _ & _ & _ & Hp). exists n. split; [done|].
    rewrite decide_False in Hp by done. replace (S i - 1) with i in Hp by lia.
    destruct (lookup_lt_is_Some_2 l i) as [r' Hr']; [apply lookup_lt_Some in Hi; lia|]. rewrite Hr' in Hp.
    apply fmap_Some in Hp as (p & Hp & Hu).
    rewrite (take_S_r _ _ _ Hr'), fmap_app, reverse_app. cbn. rewrite Hp.
    rewrite (uid_slot i r' p Hr' (eq_sym Hu)). destruct (IH r' Hr') as (n' & Hn' & Hup). by econstructor.
Qed.

Lemma chain_below_iff i r idx : l !! i = Some r → below a (slot_of r) idx ↔
  idx ∈ slot_of <$> drop (S i) l.
Proof using Hc.
  intros Hi. split.
  - intros (n & path & Hn & Hup & Hin). destruct (decide (user_id n = nil_uuid)) as [Hnil|Hl].
    { exfalso. destruct (wf_tomb a chain_arena idx n Hn Hnil) as (Hp & _). rewrite Hp in Hup.
      inversion Hup; subst. by apply elem_of_nil in Hin. }
    destruct (live_slot idx n Hn Hl) as (j & r' & Hj & ->). destruct (chain_up_path j r' Hj) as (n' & Hn' & Hup').
    assert (n' = n) as -> by congruence. rewrite (up_path_det _ _ _ _ _ Hup Hup') in Hin.
    rewrite elem_of_reverse in Hin. apply list_elem_of_fmap in Hin as (r'' & He & (k & Hk & Hlt)%elem_of_take).
    pose proof (slot_inj _ _ _ _ Hi Hk He) as ->. apply list_elem_of_fmap. exists r'. split; [done|].
    apply list_elem_of_lookup. exists (j - S k). rewrite lookup_drop. by replace (S k + (j - S k)) with j by lia.
  - intros (r' & -> & [k Hk]%list_elem_of_lookup)%list_elem_of_fmap. rewrite lookup_drop in Hk.
    destruct (chain_up_path _ r' Hk) as (n & Hn & Hup). exists n. eexists. split_and!; [done|exact Hup|].
    rewrite elem_of_reverse. apply list_elem_of_fmap_2. apply elem_of_take. exists i. split; [done|lia].
Qed.

(** ** Queries *)

Lemma slot_index i r : l !! i = Some r → index a !! r_user r = Some (slot_of r).
Proof using Hc. intros Hi. destruct (chain_node i r Hi) as (idx & n & H1 & _). unfold slot_of. by rewrite H1. Qed.

Lemma depth_slot i r : l !! i = Some r → depth_at a (slot_of r) = N.of_nat i.
Proof using Hc. intros Hi. destruct (slot_node i r Hi) as (n & Hn & _ & _ & Hd & _). unfold depth_at. by rewrite Hn. Qed.

(** The node reached through an edge that names the user of rung [j]. *)
Lemma edge_node (o : option NodeIndex) j r : l !! j = Some r → uid a <$> o = Some (r_user r) →
  ∃ n, o = Some (slot_of r) ∧ nodes a !! slot_of r = Some n ∧ user_id n = r_user r ∧ user_id n ≠ nil_uuid ∧ depth n = N.of_nat j.
Proof using Hc.
  intros Hj (idx & -> & He)%fmap_Some. rewrite (uid_slot j r idx Hj (eq_sym He)).
  destruct (slot_node j r Hj) as (n & Hn & Hu & Hl & Hd & _). by exists n.
Qed.

Lemma chain_get_parent i r : l !! i = Some r → ∃ o, Query.get_parent a (r_user r) = Ok o ∧
  (i = 0 → o = None) ∧ (∀ r', i ≠ 0 → l !! (i - 1) = Some r' → ∃ n, o = Some n ∧ user_id n = r_user r' ∧ depth n = N.of_nat (i - 1)).
Proof using Hc.
  intros Hi. unfold Query.get_parent. rewrite (resolve_ok a _ _ (slot_index i r Hi)). cbn [mbind outcome_bind].
  destruct (slot_node i r Hi) as (n & Hn & _ & Hl & _ & _ & _ & Hp). rewrite (node_ok a _ n Hn Hl). cbn [mbind outcome_bind].
  destruct (decide (i = 0)) as [->|Hne].
  - apply fmap_None in Hp. rewrite Hp. exists None. split_and!; [done|done|done].
  - destruct (lookup_lt_is_Some_2 l (i - 1)) as [r' Hr']; [apply lookup_lt_Some in Hi; lia|]. rewrite Hr' in Hp.
    destruct (edge_node (parent n) (i - 1) r' Hr' Hp) as (n' & -> & Hn' & Hu' & Hl' & Hd'). rewrite (node_ok a _ n' Hn' Hl').
    exists (Some n'). split_and!; [done|done|]. intros r'' _ Hr''. assert (r'' = r') as -> by congruence. by exists n'.
Qed.

(** The user above position [i]. *)
Definition above (i : nat) : option Uuid := if decide (i = 0) then None else r_user <$> l !! (i - 1).

Lemma chain_parent_id i r : l !! i = Some r → ∃ o, Query.get_parent a (r_user r) = Ok o ∧ user_id <$> o = above i.
Proof using Hc.
  intros Hi. destruct (chain_get_parent i r Hi) as (o & Ho & H1 & H2). exists o. split; [done|]. unfold above.
  case_decide as He; [by rewrite H1|]. destruct (lookup_lt_is_Some_2 l (i - 1)) as [r' Hr']; [apply lookup_lt_Some in Hi; lia|].
  destruct (H2 r' He Hr') as (n & -> & Hu & _). rewrite Hr'. cbn. by rewrite Hu.
Qed.

(** A rung as the removal reads it: without a sponsor it names itself. *)
Definition rung_link (r : rung) : link := (r_user r, default (r_user r) (r_sponsor r), r_at r).

Lemma chain_link i r n : l !! i = Some r → nodes a !! slot_of r = Some n → link_of a n = Ok (rung_link r).
Proof using Hc.
  intros Hi Hn. destruct (slot_node i r Hi) as (n' & Hn' & Hu & _ & _ & Hat & Hs & _). assert (n' = n) as -> by congruence.
  unfold link_of, Query.get_sponsor, rung_link. rewrite Hu, (resolve_ok a _ _ (slot_index i r Hi)). cbn [mbind outcome_bind].
  unfold Arena.get_sponsor. rewrite (slot_ok a _ n Hn). cbn [mbind outcome_bind].
  pose proof (cw_sponsor l (proj2 (proj2 Hc)) i r Hi) as Hsp. destruct (decide (i = 0)).
  - rewrite Hsp in *. apply fmap_None in Hs. rewrite Hs. cbn. by rewrite Hat.
  - destruct Hsp as (s & Hs' & Hin). rewrite Hs' in *. apply list_elem_of_fmap in Hin as (r' & -> & (j & Hj & _)%elem_of_take).
    destruct (edge_node (sponsor n) j r' Hj Hs) as (n2 & -> & Hn2 & Hu2 & _). rewrite (slot_ok a _ n2 Hn2). cbn. by rewrite Hat, Hu2.
Qed.

Lemma chain_links k : ∀ i, i + k = length l →
  map_outcome (link_of a) (at_slots a (slot_of <$> drop i l)) = Ok (rung_link <$> drop i l).
Proof using Hc.
  induction k as [|k IH]; intros i Hk.
  - rewrite drop_ge by lia. done.
  - destruct (lookup_lt_is_Some_2 l i) as [r Hr]; [lia|]. rewrite (drop_S l r i Hr).
    destruct (slot_node i r Hr) as (n & Hn & _). cbn [fmap list_fmap]. rewrite (at_slots_cons a _ n _ Hn). cbn [map_outcome].
    rewrite (chain_link i r n Hr Hn). cbn [mbind outcome_bind]. rewrite (IH (S i)) by lia. done.
Qed.

Lemma slots_nodup i : NoDup (slot_of <$> drop i l).
Proof using Hc.
  apply NoDup_alt. intros j k x Hj Hk. rewrite list_lookup_fmap in Hj, Hk. rewrite lookup_drop in Hj, Hk.
  destruct (l !! (i + j)) as [r|] eqn:Hr; [|done]. destruct (l !! (i + k)) as [r'|] eqn:Hr'; [|done]. cbn in *.
  assert (i + j = i + k); [|lia]. eapply slot_inj; [exact Hr|exact Hr'|congruence].
Qed.

Lemma slots_sorted k : ∀ i, i + k = length l → StronglySorted (λ x y, (depth_at a x ≤ depth_at a y)%N) (slot_of <$> drop i l).
Proof using Hc.
  induction k as [|k IH]; intros i Hk.
  - rewrite drop_ge by lia. constructor.
  - destruct (lookup_lt_is_Some_2 l i) as [r Hr]; [lia|]. rewrite (drop_S l r i Hr). cbn [fmap list_fmap]. constructor; [apply IH; lia|].
    apply Forall_fmap, Forall_forall. intros r' [j Hj]%list_elem_of_lookup. rewrite lookup_drop in Hj. cbn.
    rewrite (depth_slot i r Hr), (depth_slot _ r' Hj). lia.
Qed.

(** The members below a rung, nearest first. *)
Lemma chain_below_links i r : l !! i = Some r → chain_below a (r_user r) = Ok (rung_link <$> drop (S i) l).
Proof using Hc.
  intros Hi. pose proof (lookup_lt_Some _ _ _ Hi) as Hlt. destruct (slot_node i r Hi) as (n & Hn & _). unfold chain_below.
  destruct (get_downline_exact a _ _ n 0 chain_arena (slot_index i r Hi) Hn) as (ds & -> & _ & Hnd & Hin & Hsort).
  cbn [tree_ok mbind outcome_bind default]. assert (ds = slot_of <$> drop (S i) l) as ->; [|apply (chain_links (length l - S i)); lia].
  eapply StronglySorted_unique_strong; [|exact Hsort|apply (slots_sorted (length l - S i)); lia|].
  - intros x y Hx Hy Hxy Hyx. apply Hin in Hx as [Hx _]. rewrite (chain_below_iff i r x Hi) in Hx.
    apply list_elem_of_fmap in Hx as (r1 & -> & [j1 Hj1]%list_elem_of_lookup), Hy as (r2 & -> & [j2 Hj2]%list_elem_of_lookup).
    rewrite lookup_drop in Hj1, Hj2. rewrite (depth_slot _ r1 Hj1), (depth_slot _ r2 Hj2) in *.
    assert (S i + j1 = S i + j2) as He by lia. rewrite He in Hj1. congruence.
  - apply NoDup_Permutation; [done|apply slots_nodup|]. intros x. rewrite Hin, (chain_below_iff i r x Hi). naive_solver.
Qed.

Lemma chain_get_position i r : l !! i = Some r → ∃ tp, Unilevel.get_position t (r_user r) = Ok tp ∧ tp_depth tp = N.of_nat i.
Proof using Hc.
  intros Hi. destruct (slot_node i r Hi) as (n & Hn & _ & Hl & Hd & _). unfold Unilevel.get_position.
  rewrite (resolve_ok a _ _ (slot_index i r Hi)). cbn [mbind outcome_bind].
  destruct (get_position_ok (E := TreeError) a chain_arena _ n Hn Hl) as (tp & -> & _ & Hdep & _). exists tp. by rewrite Hdep.
Qed.

(** The member without a parent is the first of the chain. *)
Lemma find_top_chain us : (∀ u, u ∈ us → u ∈ users l) → (∀ u, r_user <$> head l = Some u → u ∈ us) →
  find_top a us = Ok (r_user <$> head l).
Proof using Hc.
  induction us as [|v us IH]; intros Hus Hhd; cbn [find_top].
  - destruct l as [|r ?]; [done|]. exfalso. by eapply elem_of_nil, Hhd.
  - assert (v ∈ users l) as (r & -> & [i Hi]%list_elem_of_lookup)%list_elem_of_fmap by (apply Hus; left).
    destruct (chain_get_parent i r Hi) as (o & -> & H1 & H2). cbn [tree_ok mbind outcome_bind mjoin option_join].
    destruct (decide (i = 0)) as [->|Hne].
    + rewrite (H1 eq_refl). rewrite head_lookup, Hi. done.
    + destruct (lookup_lt_is_Some_2 l (i - 1)) as [r' Hr']; [apply lookup_lt_Some in Hi; lia|].
      destruct (H2 r' Hne Hr') as (n & -> & _). apply IH; [intros u Hu; apply Hus; by right|].
      intros u Hu. destruct (proj1 (elem_of_cons _ _ _) (Hhd u Hu)) as [->|?]; [|done]. exfalso.
      rewrite head_lookup in Hu. apply fmap_Some in Hu as (r0 & Hr0 & He).
      apply Hne. eapply (rung_inj l); [apply chain_nodup|exact Hi|exact Hr0|done].
Qed.
End reading.

(** ** Growing and shrinking at the bottom *)

Lemma chain_of_wf_snoc l r : chain_wf (l ++ [r]) → chain_wf l.
Proof. intros H. by apply chain_wf_snoc in H as [? _]. Qed.

Lemma chain_net_nil l : chain_wf l → chain_net l = ∅ → l = [].
Proof.
  intros Hl He. destruct l as [|r l]; [done|]. pose proof (chain_lookup_at (r :: l) 0 r (cw_nodup _ Hl) eq_refl) as H.
  by rewrite He in H.
Qed.

Lemma chain_add_root t u at_ : chain_of t [] → u ≠ nil_uuid →
  ∃ t' idx, Unilevel.add_root t u at_ = Ok (t', idx) ∧ chain_of t' [mkRung u None at_].
Proof.
  intros (Hwf & Hm & Hl) Hu. pose proof (Unilevel.add_root_refines t u at_ Hwf) as H. rewrite Hm in H.
  unfold Unilevel.spec_add_root in H. rewrite (decide_False (P := u = nil_uuid)) in H by done.
  rewrite decide_False in H by (intros Hne; by apply Hne). destruct (Unilevel.add_root t u at_) as [[t' idx]| | |] eqn:Ha; try done.
  injection H as H. exists t', idx. split; [done|]. split_and!; [by eapply Unilevel.add_root_inv| |].
  - rewrite H. apply map_eq. intros v. cbn. rewrite insert_empty. done.
  - apply (chain_wf_snoc []). split_and!; [apply chain_wf_nil|by intros ?%elem_of_nil|done|done].
Qed.

(** Appending under the last user: refused when the sponsor is elsewhere. *)
Lemma chain_add_bottom t l b u s at_ : chain_of t (l ++ [b]) → u ≠ nil_uuid → u ∉ users (l ++ [b]) →
  match Unilevel.add_node t u (r_user b) s at_ with
  | Ok (t', _) => s ∈ users (l ++ [b]) ∧ (N.of_nat (length l) < u32_max)%N ∧ chain_of t' ((l ++ [b]) ++ [mkRung u (Some s) at_])
  | Err err => (s ∉ users (l ++ [b])) ∧ err = TreeTypes.SponsorNotFound s
  | Panic => s ∈ users (l ++ [b]) ∧ (u32_max ≤ N.of_nat (length l))%N
  | Hang => False
  end.
Proof.
  intros (Hwf & Hm & Hl) Hu Hnew. pose proof (cw_nodup _ Hl) as Hnd. pose proof (Unilevel.add_node_refines t u (r_user b) s at_ Hwf) as H. rewrite Hm in H.
  unfold Unilevel.spec_add_node in H. rewrite (decide_False (P := u = nil_uuid)) in H by done.
  rewrite decide_False in H by (by rewrite chain_is_Some).
  rewrite (chain_lookup_at _ (length l) b Hnd) in H by (by apply list_lookup_middle).
  destruct (decide (s ∈ users (l ++ [b]))) as [Hs|Hs].
  2: { rewrite (proj2 (chain_None _ s Hnd) Hs) in H. by destruct (Unilevel.add_node _ _ _ _ _) as [[]| | |]; simplify_eq/=. }
  destruct (proj2 (chain_is_Some _ s Hnd) Hs) as [ms Hms]. rewrite Hms in H. cbn [rung_member m_depth] in H.
  destruct (N.ltb_spec (N.of_nat (length l)) u32_max) as [Hd|Hd]; [|by destruct (Unilevel.add_node _ _ _ _ _) as [[]| | |]; simplify_eq/=].
  destruct (Unilevel.add_node t u (r_user b) s at_) as [[t' idx]| | |] eqn:Ha; simplify_eq/=. split_and!; [done|done|].
  assert (chain_wf ((l ++ [b]) ++ [mkRung u (Some s) at_])) as Hwf'.
  { apply chain_wf_snoc. split_and!; [done|done|done|]. destruct (l ++ [b]) eqn:E; [by apply app_nil in E as [_ [=]]|]. eauto. }
  split_and!; [|rewrite H|done].
  - destruct (Unilevel.add_node_inv _ _ _ _ _ _ _ Hwf Ha) as (? & ? & ? & ? & _ & _ & _ & _ & _ & H' & _). exact H'.
  - rewrite <- (chain_append _ _ Hwf' (r_user b) s); [|by rewrite last_snoc|done]. cbn [r_user r_at]. f_equal. rewrite length_app. cbn. lia.
Qed.

Lemma chain_remove_bottom t l r : chain_of t (l ++ [r]) →
  ∃ t' moved, Unilevel.remove_node t (r_user r) = Ok (t', moved) ∧ chain_of t' l.
Proof.
  intros (Hwf & Hm & Hl). pose proof (Unilevel.remove_node_refines t (r_user r) Hwf) as H. rewrite Hm in H.
  unfold Unilevel.spec_remove_node in H. rewrite (chain_lookup_at _ (length l) r (cw_nodup _ Hl)) in H by (by apply list_lookup_middle).
  rewrite (bottom_member l r Hl) in H. cbn [m_children m_sponsored] in H.
  rewrite decide_False in H by (intros Hne; by apply Hne). rewrite decide_False in H by (intros [Hne _]; by apply Hne).
  destruct (Unilevel.remove_node t (r_user r)) as [[t' moved]| | |] eqn:Ha; try done. injection H as H _.
  exists t', moved. split; [done|]. split_and!; [|rewrite H|by eapply chain_of_wf_snoc].
  - destruct (Unilevel.remove_node_inv _ _ _ _ Hwf Ha) as (? & ? & _ & _ & _ & _ & H' & _). exact H'.
  - rewrite <- (chain_shorten l r Hl), (bottom_member l r Hl). done.
Qed.
