(* ===== verification/StreamSpec.v ===== *)
(** * The promise of a streamline engine, as lines of members

    Without arenas, cached bottoms or a membership index: a stream is a list of
    rungs with an owner, and every request is an edit of those lists. Each request
    of the engine is stated here in that form and keeps the invariant of the lines;
    [StreamRefine] proves they agree. *)

From stdpp Require Import base numbers list gmap sorting strings list_numbers.
From Stdlib Require Import ZArith Lia.
From S2P Require Import Prelude TreeTypes StreamTree Streamline.
Import Streamline.

Record line := mkLine { ln_owner : Uuid; ln_frozen : bool; ln_created : Z; ln_chain : list rung }.
Record lines := mkLines { by_id : gmap N line; owned_by : gmap Uuid (list N); next_id : N }.

Definition line_with_chain (f : list rung → list rung) (ln : line) : line := mkLine (ln_owner ln) (ln_frozen ln) (ln_created ln) (f (ln_chain ln)).
Definition line_with_frozen (b : bool) (ln : line) : line := mkLine (ln_owner ln) b (ln_created ln) (ln_chain ln).
Definition line_with_owner (u : Uuid) (ln : line) : line := mkLine u (ln_frozen ln) (ln_created ln) (ln_chain ln).
Definition edit (f : gmap N line → gmap N line) (L : lines) : lines := mkLines (f (by_id L)) (owned_by L) (next_id L).
Definition edit_owned (f : gmap Uuid (list N) → gmap Uuid (list N)) (L : lines) : lines := mkLines (by_id L) (f (owned_by L)) (next_id L).

(** The line a user stands on. *)
Definition on_line (u : Uuid) (x : N * line) : Prop := u ∈ users (ln_chain x.2).
#[export] Instance on_line_dec u x : Decision (on_line u x).
Proof. unfold on_line. apply _. Defined.
Definition seat_of (L : lines) (u : Uuid) : option N := fst <$> head (filter (on_line u) (map_to_list (by_id L))).

Abbreviation answer A := (outcome Empty_set (lines * (A%type + StreamlineError)%type)).

(** ** Opening lines *)
Definition open_lines (L : lines) (u : Uuid) (at_ : Z) (count : N) : outcome Empty_set (lines * list N) :=
  if (u32_max <? next_id L + count)%N then Panic
  else
    let ids := (λ i, next_id L + N.of_nat i)%N <$> seq 0 (N.to_nat count) in
    Ok (mkLines (foldl (λ m k, <[k := mkLine u false at_ []]> m) (by_id L) ids)
          (if bool_decide (ids = []) then owned_by L else <[u := default [] (owned_by L !! u) ++ ids]> (owned_by L))
          (next_id L + count)%N, ids).

Definition spec_expand (L : lines) (u : Uuid) (total : N) (at_ : Z) : answer (list N) :=
  if bool_decide (seat_of L u = None) && bool_decide (owned_by L !! u = None) then Ok (L, inr (MemberNotFound u))
  else
    '(L, ids) ← open_lines L u at_ (total - N.of_nat (length (default [] (owned_by L !! u))));
    Ok (L, inl ids).

(** ** Enrolment *)
Definition is_open (L : lines) (k : N) : Prop := from_option (λ ln, negb (ln_frozen ln)) false (by_id L !! k) = true.
#[export] Instance is_open_dec L k : Decision (is_open L k).
Proof. unfold is_open. apply _. Defined.

Definition size_of (L : lines) (k : N) : nat := from_option (λ ln, length (ln_chain ln)) 0 (by_id L !! k).

(** The first of the shortest. *)
Fixpoint shortest (L : lines) (ids : list N) : option N :=
  match ids with
  | [] => None
  | k :: ids' =>
      match shortest L ids' with
      | None => Some k
      | Some k' => if (size_of L k' <? size_of L k)%nat then Some k' else Some k
      end
  end.

Definition target_line (c : StreamlineConfig) (L : lines) (sponsor : Uuid) (choice : option N) : N + StreamlineError :=
  match choice with
  | Some k =>
      if negb (enrollment_stream_choice c) then inr StreamChoiceNotAllowed
      else match by_id L !! k with
           | None => inr (StreamNotFound k)
           | Some ln =>
               if ln_frozen ln then inr (StreamFrozen k)
               else if bool_decide (k ∈ default [] (owned_by L !! sponsor)) then inl k
               else inr (SponsorDoesNotOwnStream sponsor k)
           end
  | None =>
      match owned_by L !! sponsor with
      | None => inr (NoOwnedStreams sponsor)
      | Some ids =>
          let open := filter (is_open L) ids in
          match (match assignment_mode c with SponsorStream => head open | RoundRobin => shortest L open end) with
          | Some k => inl k
          | None => inr NoStreamsAvailable
          end
      end
  end.

(** One more at the bottom of line [k]. *)
Definition join_line (L : lines) (k : N) (u : Uuid) (sponsor : option Uuid) (at_ : Z) : lines :=
  edit (alter (line_with_chain (λ l, l ++ [mkRung u sponsor at_])) k) L.

(** The first member of all takes line 1 when there still is one. *)
Definition found (L : lines) (u : Uuid) (at_ : Z) : answer AddMemberResult :=
  '(L, k) ← (if bool_decide (is_Some (by_id L !! 1%N)) then Ok (edit_owned (push_at u 1) L, 1%N)
             else '(L, ids) ← open_lines L u at_ 1; Ok (L, default 0%N (head ids)));
  Ok (join_line (edit (alter (line_with_owner u) k) L) k u None at_, inl (mkAdded k 0)).

Definition spec_add (c : StreamlineConfig) (L : lines) (u sponsor : Uuid) (at_ : Z) (choice : option N) : answer AddMemberResult :=
  if is_nil u then Ok (L, inr NilUserId)
  else if bool_decide (is_Some (seat_of L u)) then Ok (L, inr (MemberAlreadyExists u))
  else if bool_decide (map_Forall (λ _ ln, ln_chain ln = []) (by_id L)) then found L u at_
  else if bool_decide (seat_of L sponsor = None) && bool_decide (owned_by L !! sponsor = None) then Ok (L, inr (SponsorNotFound sponsor))
  else match target_line c L sponsor choice with
       | inr err => Ok (L, inr err)
       | inl k =>
           let chain := from_option ln_chain [] (by_id L !! k) in
           if bool_decide (chain = []) then Ok (join_line L k u None at_, inl (mkAdded k 0))
           else if negb (bool_decide (sponsor ∈ users chain)) then Ok (L, inr (TreeFailed (TreeTypes.SponsorNotFound sponsor)))
           else if (u32_max <? N.of_nat (length chain))%N then Panic
           else Ok (join_line L k u (Some sponsor) at_, inl (mkAdded k (N.of_nat (length chain))))
       end.

(** ** Allowances *)
Definition own_table (L : lines) (ids : list N) : list entry :=
  sort_by (λ x y : entry, Z.compare x.1.2 y.1.2) (omap (λ k, (λ ln, (k, ln_created ln, ln_frozen ln)) <$> by_id L !! k) ids).

Definition freeze_lines (b : bool) (ids : list N) (L : lines) : lines :=
  edit (λ m, foldl (λ m k, alter (line_with_frozen b) k m) m ids) L.

Definition close_lines (u : Uuid) (ids : list N) (L : lines) : lines :=
  let kept := filter (λ k, k ∉ ids) (default [] (owned_by L !! u)) in
  mkLines (foldl (λ m k, delete k m) (by_id L) ids)
    (if bool_decide (kept = []) then delete u (owned_by L) else <[u := kept]> (owned_by L)) (next_id L).

Definition spec_allow (c : StreamlineConfig) (L : lines) (u : Uuid) (total : N) (at_ : Z) : answer FreezeResult :=
  match owned_by L !! u with
  | None => Ok (L, inr (NoOwnedStreams u))
  | Some ids =>
      let active := (filter (λ x : entry, x.2 = false) (own_table L ids)).*1.*1 in
      let idle := (filter (λ x : entry, x.2 = true) (own_table L ids)).*1.*1 in
      let count := N.of_nat (length active) in
      if (total <? count)%N then
        let excess := take (N.to_nat (count - total)) (reverse active) in
        if freeze_on_demotion c then Ok (freeze_lines true excess L, inl (mkFreeze excess [] [] []))
        else Ok (close_lines u excess L, inl (mkFreeze [] [] [] excess))
      else
        let back := take (N.to_nat (total - count)) idle in
        '(L, ids) ← open_lines (freeze_lines false back L) u at_ (total - count - N.of_nat (length back));
        Ok (L, inl (mkFreeze [] back ids []))
  end.

(** ** Removal *)

(** The members below the removed [u], now under [prev]: its recruits are
    sponsored by the member directly above them. *)
Fixpoint rehang (u : Uuid) (prev : option Uuid) (l : list rung) : list rung :=
  match l with
  | [] => []
  | r :: l' =>
      mkRung (r_user r) (p ← prev; if decide (r_sponsor r = Some u) then Some p else r_sponsor r) (r_at r) :: rehang u (Some (r_user r)) l'
  end.

Definition splice_out (u : Uuid) (l : list rung) : list rung :=
  match list_find (λ r, r_user r = u) l with
  | None => l
  | Some (i, _) => take i l ++ rehang u (r_user <$> last (take i l)) (drop (S i) l)
  end.

(** Line [k] passes to the member at its top. *)
Definition hand_over (L : lines) (k : N) : lines :=
  match by_id L !! k with
  | None => L
  | Some ln =>
      match r_user <$> head (ln_chain ln) with
      | Some v => edit_owned (push_at v k) (edit <[k := line_with_owner v ln]> L)
      | None => edit <[k := line_with_owner nil_uuid ln]> L
      end
  end.

Definition spec_remove (L : lines) (u : Uuid) : answer (list N) :=
  match seat_of L u with
  | None => Ok (L, inr (MemberNotFound u))
  | Some k =>
      let left := default [] (owned_by L !! u) in
      let heirs := if bool_decide (k ∈ left) then k :: filter (λ j, j ≠ k) left else left in
      let L := edit (alter (line_with_chain (splice_out u)) k) (edit_owned (delete u) L) in
      Ok (foldl hand_over L heirs, inl [k])
  end.

(** * Well-formed lines

    [lines_wf]: the invariant of the abstract streams. Chains are well formed and
    disjoint, so a member stands on one line only; the owner lists name exactly
    the lines with that owner, each once; ids stay below the cursor; line 1 belongs
    to the member at its top. *)

Definition seated (B : gmap N line) (k : N) (u : Uuid) : Prop := ∃ ln, B !! k = Some ln ∧ u ∈ users (ln_chain ln).

Definition owns (L : lines) (u : Uuid) (k : N) : Prop := ∃ ids, owned_by L !! u = Some ids ∧ k ∈ ids.
Definition owner_is (L : lines) (k : N) (u : Uuid) : Prop := ∃ ln, by_id L !! k = Some ln ∧ ln_owner ln = u.

Definition top (ln : line) : Uuid := default nil_uuid (r_user <$> head (ln_chain ln)).

(** The chains: well formed, disjoint, within the depth of a tree. *)
Record chains_wf (B : gmap N line) : Prop := {
  lw_chain k ln : B !! k = Some ln → chain_wf (ln_chain ln) ∧ (N.of_nat (length (ln_chain ln)) ≤ u32_max + 1)%N;
  lw_seat k k' u : seated B k u → seated B k' u → k = k';
}.

Record lines_wf (L : lines) : Prop := {
  lw_chains : chains_wf (by_id L);
  lw_owner u k : owns L u k ↔ u ≠ nil_uuid ∧ owner_is L k u;
  lw_owned u ids : owned_by L !! u = Some ids → NoDup ids ∧ ids ≠ [];
  lw_ids k : is_Some (by_id L !! k) → (1 ≤ k < next_id L)%N;
  lw_next : (2 ≤ next_id L ≤ u32_max)%N;
  lw_first ln : by_id L !! 1%N = Some ln → ln_owner ln = top ln;
}.

(** ** Maps edited over a list of keys *)
Lemma foldl_insert_lookup {V} (f : N → V) ids (m : gmap N V) k :
  foldl (λ m k, <[k := f k]> m) m ids !! k = if decide (k ∈ ids) then Some (f k) else m !! k.
Proof.
  revert m. induction ids as [|j ids IH]; intros m; cbn [foldl]; [done|]. rewrite IH.
  destruct (decide (k ∈ ids)); [rewrite decide_True by (by right); done|].
  destruct (decide (k = j)) as [->|Hne]; [rewrite decide_True by left; by rewrite lookup_insert_eq|].
  rewrite decide_False by (rewrite elem_of_cons; naive_solver). by rewrite lookup_insert_ne.
Qed.

Lemma foldl_delete_lookup {V} ids (m : gmap N V) k :
  foldl (λ m k, delete k m) m ids !! k = if decide (k ∈ ids) then None else m !! k.
Proof.
  revert m. induction ids as [|j ids IH]; intros m; cbn [foldl]; [done|]. rewrite IH.
  destruct (decide (k ∈ ids)); [rewrite decide_True by (by right); done|].
  destruct (decide (k = j)) as [->|Hne]; [rewrite decide_True by left; by rewrite lookup_delete_eq|].
  rewrite decide_False by (rewrite elem_of_cons; naive_solver). by rewrite lookup_delete_ne.
Qed.

(** An idempotent edit. *)
Lemma foldl_alter_lookup {V} (f : V → V) ids (m : gmap N V) k : (∀ x, f (f x) = f x) →
  foldl (λ m k, alter f k m) m ids !! k = if decide (k ∈ ids) then f <$> m !! k else m !! k.
Proof.
  intros Hf. revert m. induction ids as [|j ids IH]; intros m; cbn [foldl]; [done|]. rewrite IH, lookup_alter.
  destruct (decide (k ∈ ids)) as [Hin|Hin].
  - rewrite (decide_True (P := k ∈ j :: ids)) by (by right). case_decide as He; [|done]. subst j. destruct (m !! k); cbn; [by rewrite Hf|done].
  - destruct (decide (j = k)) as [->|Hne]; [rewrite decide_True by left; done|].
    rewrite decide_False by (rewrite elem_of_cons; naive_solver). done.
Qed.

Lemma push_at_lookup u k (m : gmap Uuid (list N)) v :
  push_at u k m !! v = if decide (u = v) then Some (default [] (m !! u) ++ [k]) else m !! v.
Proof. unfold push_at. rewrite lookup_insert. done. Qed.

(** ** Seats *)
Lemma seat_of_Some L u k : chains_wf (by_id L) → seat_of L u = Some k ↔ seated (by_id L) k u.
Proof.
  intros Hwf. unfold seat_of, seated. assert (Hin : ∀ j ln, (j, ln) ∈ filter (on_line u) (map_to_list (by_id L)) ↔
    by_id L !! j = Some ln ∧ u ∈ users (ln_chain ln)).
  { intros j ln. rewrite list_elem_of_filter, elem_of_map_to_list. unfold on_line. cbn. naive_solver. }
  split.
  - intros ([j ln] & Hh & ->)%fmap_Some. exists ln. apply Hin. apply head_Some_elem_of. done.
  - intros (ln & Hln & Hu). destruct (filter (on_line u) (map_to_list (by_id L))) as [|[j ln'] rest] eqn:Hf.
    { exfalso. apply (not_elem_of_nil (k, ln)), Hin. done. }
    cbn. f_equal. destruct (proj1 (Hin j ln') ltac:(left)) as [Hj Hu']. eapply lw_seat; [done| |]; eexists; eauto.
Qed.

Lemma seat_of_None L u : chains_wf (by_id L) → seat_of L u = None ↔ ∀ k, ¬ seated (by_id L) k u.
Proof.
  intros Hwf. destruct (seat_of L u) as [k|] eqn:Hs.
  - apply seat_of_Some in Hs; [|done]. naive_solver.
  - split; [|done]. intros _ k Hk. apply (seat_of_Some L u k Hwf) in Hk. congruence.
Qed.

Lemma seated_not_nil B k u : chains_wf B → seated B k u → u ≠ nil_uuid.
Proof.
  intros Hwf (ln & Hln & Hu). apply list_elem_of_fmap in Hu as (r & -> & Hr).
  destruct (lw_chain B Hwf k ln Hln) as [Hc _]. by eapply cw_nil.
Qed.

(** Chains that keep their members keep the seats. *)
Lemma seated_insert B k ln j u : seated (<[k := ln]> B) j u ↔ (j = k ∧ u ∈ users (ln_chain ln)) ∨ (j ≠ k ∧ seated B j u).
Proof. unfold seated. destruct (decide (j = k)) as [->|Hne]; [setoid_rewrite lookup_insert_eq|setoid_rewrite lookup_insert_ne; [|done]]; naive_solver. Qed.

(** ** Chains under edits *)
Lemma chains_wf_sub B B' : (∀ k ln', B' !! k = Some ln' → ln_chain ln' = [] ∨ ∃ ln, B !! k = Some ln ∧ ln_chain ln' = ln_chain ln) →
  chains_wf B → chains_wf B'.
Proof.
  intros Hsub [Hc Hs]. assert (Hseat : ∀ k u, seated B' k u → seated B k u).
  { intros k u (ln' & Hln' & Hu). destruct (Hsub k ln' Hln') as [He|(ln & Hln & He)]; rewrite He in Hu; [by apply elem_of_nil in Hu|]. by exists ln. }
  split; [|eauto]. intros k ln' Hln'. destruct (Hsub k ln' Hln') as [->|(ln & Hln & ->)]; [|by eapply Hc].
  split; [apply chain_wf_nil|cbn; lia].
Qed.

Lemma chains_wf_set B k ln f : chains_wf B → B !! k = Some ln → chain_wf (f (ln_chain ln)) →
  (N.of_nat (length (f (ln_chain ln))) ≤ u32_max + 1)%N →
  (∀ u, u ∈ users (f (ln_chain ln)) → u ∈ users (ln_chain ln) ∨ ∀ j, ¬ seated B j u) → chains_wf (alter (line_with_chain f) k B).
Proof.
  intros [Hc Hs] Hk Hwf Hlen Hsub.
  assert (Halt : ∀ j ln', alter (line_with_chain f) k B !! j = Some ln' →
    (j = k ∧ ln' = line_with_chain f ln) ∨ (j ≠ k ∧ B !! j = Some ln')).
  { intros j ln' Hj. destruct (decide (j = k)) as [->|Hne].
    - rewrite lookup_alter_eq, Hk in Hj. left. cbn in Hj. by simplify_eq.
    - rewrite lookup_alter_ne in Hj by done. by right. }
  assert (Hseat : ∀ j u, seated (alter (line_with_chain f) k B) j u →
    (j = k ∧ ((u ∈ users (ln_chain ln)) ∨ ∀ i, ¬ seated B i u)) ∨ (j ≠ k ∧ seated B j u)).
  { intros j u (ln' & Hln' & Hu). destruct (Halt j ln' Hln') as [[-> ->]|[Hne Hj]]; [left; split; [done|by apply Hsub]|right; split; [done|by exists ln']]. }
  split.
  - intros j ln' Hj. destruct (Halt j ln' Hj) as [[-> ->]|[_ Hj']]; [done|by eapply Hc].
  - intros j j' u H1%Hseat H2%Hseat. destruct H1 as [[-> [Hu|Hno]]|[Hne Hj]], H2 as [[-> [Hu'|Hno']]|[Hne' Hj']]; try done.
    + exfalso. apply Hne'. eapply Hs; [exact Hj'|]. by exists ln.
    + by destruct (Hno j').
    + exfalso. apply Hne. eapply Hs; [exact Hj|]. by exists ln.
    + by destruct (Hno' j).
    + by eapply Hs.
Qed.

(** ** Opening *)
Lemma opened_ids n count k : k ∈ ((λ i, n + N.of_nat i)%N <$> seq 0 (N.to_nat count)) ↔ (n ≤ k < n + count)%N.
Proof.
  rewrite list_elem_of_fmap. split.
  - intros (i & -> & Hi%elem_of_seq). lia.
  - intros Hk. exists (N.to_nat (k - n)). rewrite elem_of_seq. lia.
Qed.

Lemma opened_nodup n count : NoDup ((λ i, n + N.of_nat i)%N <$> seq 0 (N.to_nat count)).
Proof. apply NoDup_fmap_2; [intros i j; lia|apply NoDup_seq]. Qed.

Lemma open_lines_wf L u at_ count L' ids : lines_wf L → u ≠ nil_uuid → open_lines L u at_ count = Ok (L', ids) → lines_wf L'.
Proof.
  intros [Hc Ho Hod Hids Hnext Hf] Hu. unfold open_lines. destruct (N.ltb_spec u32_max (next_id L + count)) as [|Hle]; [done|].
  pose proof (opened_ids (next_id L) count) as Hin. pose proof (opened_nodup (next_id L) count) as Hnd.
  set (fresh := (λ i, next_id L + N.of_nat i)%N <$> seq 0 (N.to_nat count)) in *. intros [= <- <-].
  assert (Hfresh : ∀ k, k ∈ fresh → by_id L !! k = None).
  { intros k Hk%Hin. destruct (by_id L !! k) eqn:E; [|done]. specialize (Hids k ltac:(eauto)). lia. }
  assert (Hown : ∀ v, (if bool_decide (fresh = []) then owned_by L else <[u := default [] (owned_by L !! u) ++ fresh]> (owned_by L)) !! v =
    if decide (u = v ∧ fresh ≠ []) then Some (default [] (owned_by L !! u) ++ fresh) else owned_by L !! v).
  { intros v. case_bool_decide as He; [by rewrite decide_False by naive_solver|]. rewrite lookup_insert.
    destruct (decide (u = v)) as [->|]; [by rewrite decide_True|by rewrite decide_False by naive_solver]. }
  split; cbn [by_id owned_by next_id].
  - eapply chains_wf_sub; [|exact Hc]. intros k ln'. rewrite foldl_insert_lookup. case_decide; [intros [= <-]; by left|eauto].
  - intros v k. unfold owns, owner_is. cbn [by_id owned_by]. setoid_rewrite Hown. setoid_rewrite foldl_insert_lookup.
    specialize (Ho v k). unfold owns, owner_is in Ho.
    destruct (decide (k ∈ fresh)) as [Hk|Hk].
    + rewrite (Hfresh k Hk) in Ho. assert (fresh ≠ []) as Hne by (intros He; rewrite He in Hk; by apply elem_of_nil in Hk).
      destruct (decide (u = v)) as [<-|Hv].
      * rewrite decide_True by done. split; [intros _; split; [done|]; eauto|]. intros _. eexists. split; [done|]. apply elem_of_app. by right.
      * rewrite decide_False by naive_solver. rewrite Ho. naive_solver.
    + rewrite <- Ho. case_decide as Hd; [|done]. destruct Hd as [<- Hne]. split.
      * intros (? & [= <-] & [Hin'|?]%elem_of_app); [|done]. destruct (owned_by L !! u) as [l|]; [|by apply elem_of_nil in Hin']. eauto.
      * intros (l & -> & Hl). eexists. split; [done|]. cbn. apply elem_of_app. by left.
  - intros v ids. rewrite Hown. case_decide as Hd; [|apply Hod]. destruct Hd as [<- Hne]. intros [= <-]. split.
    + apply NoDup_app. split_and!; [|intros k Hk Hk'|done].
      * destruct (owned_by L !! u) as [l|] eqn:E; [by apply (Hod _ _ E)|constructor].
      * apply Hfresh in Hk'. destruct (owned_by L !! u) as [l|] eqn:E; [|by apply elem_of_nil in Hk].
        destruct (proj1 (Ho u k)) as (_ & ln & Hln & _); [by exists l|]. congruence.
    + intros [_ He]%app_nil. done.
  - intros k. rewrite foldl_insert_lookup. case_decide as Hk; [apply Hin in Hk; lia|]. intros H%Hids. lia.
  - lia.
  - intros ln. rewrite foldl_insert_lookup, decide_False by (rewrite Hin; lia). apply Hf.
Qed.

(** ** Joining *)
Lemma join_chains L k ln u s at_ : lines_wf L → by_id L !! k = Some ln → chain_wf (ln_chain ln ++ [mkRung u s at_]) →
  (N.of_nat (length (ln_chain ln)) ≤ u32_max)%N → (∀ j, ¬ seated (by_id L) j u) → chains_wf (by_id (join_line L k u s at_)).
Proof.
  intros Hwf Hk Hc Hlen Hu. apply (chains_wf_set _ _ _ _ (lw_chains L Hwf) Hk Hc); [rewrite length_app; cbn; lia|].
  intros v. unfold users. rewrite fmap_app, elem_of_app. intros [Hv|Hv%list_elem_of_singleton]; [by left|]. right. by rewrite Hv.
Qed.

Lemma join_wf L k ln u s at_ : lines_wf L → by_id L !! k = Some ln → chain_wf (ln_chain ln ++ [mkRung u s at_]) →
  (N.of_nat (length (ln_chain ln)) ≤ u32_max)%N → (∀ j, ¬ seated (by_id L) j u) → (k = 1%N → ln_chain ln ≠ []) → lines_wf (join_line L k u s at_).
Proof.
  intros Hwf Hk Hc Hlen Hu H1. pose proof (join_chains L k ln u s at_ Hwf Hk Hc Hlen Hu) as Hch.
  destruct Hwf as [_ Ho Hod Hids Hnext Hf]. split; [done| |done| |done|].
  - intros v j. rewrite (Ho v j). unfold owner_is. cbn [join_line edit by_id]. destruct (decide (j = k)) as [->|Hne].
    + rewrite lookup_alter_eq, Hk. cbn. naive_solver.
    + by rewrite lookup_alter_ne.
  - intros j. cbn [join_line edit by_id next_id]. rewrite lookup_alter_is_Some. apply Hids.
  - intros ln'. cbn [join_line edit by_id]. destruct (decide (k = 1%N)) as [->|Hne].
    + rewrite lookup_alter_eq, Hk. intros [= <-]. specialize (Hf ln Hk). specialize (H1 eq_refl). unfold top in *. cbn.
      rewrite Hf. by destruct (ln_chain ln).
    + rewrite lookup_alter_ne by done. apply Hf.
Qed.

Lemma chain_wf_single u at_ : u ≠ nil_uuid → chain_wf [mkRung u None at_].
Proof. intros Hu. apply (chain_wf_snoc []). split_and!; [apply chain_wf_nil|by intros ?%elem_of_nil|done|done]. Qed.

(** The founder of line 1. *)
Lemma found_wf L ln u at_ : lines_wf L → by_id L !! 1%N = Some ln → ln_chain ln = [] → u ≠ nil_uuid → (∀ j, ¬ seated (by_id L) j u) →
  lines_wf (join_line (edit (alter (line_with_owner u) 1%N) (edit_owned (push_at u 1%N) L)) 1%N u None at_).
Proof.
  intros Hwf H1 Hch Hu Hno. destruct Hwf as [Hc Ho Hod Hids Hnext Hf].
  assert (Hat : ∀ j, by_id (join_line (edit (alter (line_with_owner u) 1%N) (edit_owned (push_at u 1%N) L)) 1%N u None at_) !! j =
    if decide (j = 1%N) then Some (mkLine u (ln_frozen ln) (ln_created ln) [mkRung u None at_]) else by_id L !! j).
  { intros j. cbn. case_decide as Hj; [subst j|by rewrite !lookup_alter_ne]. rewrite lookup_alter_eq, lookup_alter_eq, H1. cbn.
    unfold line_with_chain, line_with_owner. cbn. by rewrite Hch. }
  assert (Hnil : ln_owner ln = nil_uuid) by (rewrite (Hf ln H1); unfold top; by rewrite Hch).
  assert (Hfree : ∀ v ids, owned_by L !! v = Some ids → 1%N ∉ ids).
  { intros v ids Hv Hin. destruct (proj1 (Ho v 1%N)) as (Hvn & ln' & Hln' & Hl); [by exists ids|]. congruence. }
  split.
  - split.
    + intros j ln'. rewrite Hat. case_decide; [intros [= <-]; cbn; split; [by apply chain_wf_single|lia]|]. apply (lw_chain _ Hc).
    + assert (Hs : ∀ j v, seated (by_id (join_line (edit (alter (line_with_owner u) 1%N) (edit_owned (push_at u 1%N) L)) 1%N u None at_)) j v →
        (j = 1%N ∧ v = u) ∨ (j ≠ 1%N ∧ seated (by_id L) j v)).
      { intros j v (ln' & Hln' & Hv). rewrite Hat in Hln'. case_decide; [|right; split; [done|by exists ln']].
        injection Hln' as <-. left. split; [done|]. by apply list_elem_of_singleton in Hv. }
      intros j j' v [[-> ->]|[Hj Hsj]]%Hs [[-> Hv]|[Hj' Hsj']]%Hs; try subst v; try done; try (by edestruct Hno).
      by eapply (lw_seat _ Hc).
  - intros v j. unfold owns, owner_is. cbn [owned_by join_line edit edit_owned] in *. setoid_rewrite push_at_lookup. setoid_rewrite Hat.
    specialize (Ho v j). unfold owns, owner_is in Ho. destruct (decide (u = v)) as [<-|Hv].
    + destruct (decide (j = 1%N)) as [->|Hj].
      * split; [intros _; split; [done|]; eauto|]. intros _. eexists. split; [done|]. apply elem_of_app. right. by apply list_elem_of_singleton.
      * rewrite <- Ho. split.
        -- intros (? & [= <-] & [Hin| ->%list_elem_of_singleton]%elem_of_app); [|done]. destruct (owned_by L !! u) as [l|]; [eauto|by apply elem_of_nil in Hin].
        -- intros (l & -> & Hl). eexists. split; [done|]. apply elem_of_app. by left.
    + rewrite Ho. destruct (decide (j = 1%N)) as [->|Hj]; [|done]. rewrite H1. split; [|naive_solver]. intros (Hvn & ? & [= <-] & He). congruence.
  - intros v ids. cbn [owned_by join_line edit edit_owned]. rewrite push_at_lookup. case_decide as Hv; [subst v|apply Hod]. intros [= <-].
    split; [|by intros [_ ?]%app_nil]. apply NoDup_app. destruct (owned_by L !! u) as [l|] eqn:E; cbn.
    + split_and!; [by apply (Hod _ _ E)| |apply NoDup_singleton]. intros j Hj ->%list_elem_of_singleton. by eapply Hfree.
    + split_and!; [constructor|by intros j ?%elem_of_nil|apply NoDup_singleton].
  - intros j. rewrite Hat. case_decide as Hj; [subst j|apply Hids]. intros _. apply Hids. by rewrite H1.
  - done.
  - intros ln'. rewrite Hat, decide_True by done. by intros [= <-].
Qed.

(** ** Freezing and closing *)
Lemma freeze_lines_at b ids L k : by_id (freeze_lines b ids L) !! k = if decide (k ∈ ids) then line_with_frozen b <$> by_id L !! k else by_id L !! k.
Proof. apply (foldl_alter_lookup (line_with_frozen b)). done. Qed.

Lemma freeze_lines_wf b ids L : lines_wf L → lines_wf (freeze_lines b ids L).
Proof.
  intros [Hc Ho Hod Hids Hnext Hf]. assert (Hat : ∀ k ln', by_id (freeze_lines b ids L) !! k = Some ln' →
    ∃ ln, by_id L !! k = Some ln ∧ ln_chain ln' = ln_chain ln ∧ ln_owner ln' = ln_owner ln).
  { intros k ln'. rewrite freeze_lines_at. case_decide; [|eauto]. intros (ln & Hln & ->)%fmap_Some. eauto. }
  assert (Hat' : ∀ k ln, by_id L !! k = Some ln → ∃ ln', by_id (freeze_lines b ids L) !! k = Some ln' ∧ ln_owner ln' = ln_owner ln).
  { intros k ln Hln. rewrite freeze_lines_at, Hln. case_decide; cbn; eauto. }
  split; [| |done| |done|].
  - eapply chains_wf_sub; [|exact Hc]. intros k ln' (ln & Hln & He & _)%Hat. eauto.
  - intros v k. change (owns (freeze_lines b ids L) v k) with (owns L v k). rewrite (Ho v k). unfold owner_is. split; intros (Hv & ln & Hln & He).
    + destruct (Hat' k ln Hln) as (ln' & Hln' & He'). split; [done|]. exists ln'. by rewrite He'.
    + destruct (Hat k ln Hln) as (ln' & Hln' & _ & He'). split; [done|]. exists ln'. by rewrite <- He'.
  - intros k [ln' (ln & Hln & _)%Hat]. apply Hids. eauto.
  - intros ln' (ln & Hln & He & He')%Hat. rewrite He', (Hf ln Hln). unfold top. by rewrite He.
Qed.

Lemma close_lines_wf u ids L : lines_wf L → (∀ k, k ∈ ids → owns L u k) → lines_wf (close_lines u ids L).
Proof.
  intros [Hc Ho Hod Hids Hnext Hf] Hown. assert (Hat : ∀ k, by_id (close_lines u ids L) !! k = if decide (k ∈ ids) then None else by_id L !! k)
    by apply foldl_delete_lookup.
  set (kept := filter (λ k, k ∉ ids) (default [] (owned_by L !! u))) in *.
  assert (Hod' : ∀ v, owned_by (close_lines u ids L) !! v = if decide (u = v) then (if decide (kept = []) then None else Some kept) else owned_by L !! v).
  { intros v. unfold close_lines. cbn [owned_by]. fold kept. case_bool_decide as Hk.
    - rewrite lookup_delete. destruct (decide (u = v)); [by rewrite (decide_True (P := kept = []))|done].
    - rewrite lookup_insert. destruct (decide (u = v)); [by rewrite (decide_False (P := kept = []))|done]. }
  split.
  - eapply chains_wf_sub; [|exact Hc]. intros k ln'. rewrite Hat. destruct (decide (k ∈ ids)); [done|eauto].
  - intros v k. unfold owns, owner_is. setoid_rewrite Hod'. setoid_rewrite Hat. pose proof (Ho v k) as Hvk. unfold owns, owner_is in Hvk.
    destruct (decide (k ∈ ids)) as [Hk|Hk].
    + split; [|naive_solver]. destruct (decide (u = v)) as [<-|Hv].
      * destruct (decide (kept = [])); [naive_solver|]. intros (? & [= <-] & [Hx _]%list_elem_of_filter). done.
      * intros (l & Hl & Hin). destruct (proj1 Hvk) as (_ & ln & Hln & He); [eauto|]. destruct (Hown k Hk) as (l' & Hl' & Hin').
        destruct (proj1 (Ho u k)) as (_ & ln2 & Hln2 & He2); [by exists l'|]. congruence.
    + rewrite <- Hvk. destruct (decide (u = v)) as [<-|Hv]; [|done]. subst kept. split.
      * destruct (decide (filter _ _ = [])); [naive_solver|]. intros (? & [= <-] & [_ Hx]%list_elem_of_filter). destruct (owned_by L !! u) as [l|]; [eauto|by apply elem_of_nil in Hx].
      * intros (l & Hl & Hin). rewrite Hl. change (default [] (Some l)) with l. assert (k ∈ filter (λ k, k ∉ ids) l) as Hk' by (by apply list_elem_of_filter).
        rewrite decide_False by (intros He; rewrite He in Hk'; by apply elem_of_nil in Hk'). eauto.
  - intros v l. rewrite Hod'. destruct (decide (u = v)) as [<-|Hv]; [|apply Hod]. destruct (decide (kept = [])); [done|]. intros [= <-]. split; [|done].
    apply NoDup_filter. destruct (owned_by L !! u) as [l|] eqn:E; [by apply (Hod _ _ E)|constructor].
  - intros k. rewrite Hat. destruct (decide (k ∈ ids)); [by intros []|apply Hids].
  - done.
  - intros ln. rewrite Hat. destruct (decide (1%N ∈ ids)); [done|apply Hf].
Qed.

(** * Splicing a member out of a line

    The members below the removed one keep their order, users and enrolment;
    its recruits are sponsored by the member now directly above them. *)

(** [l] can hang under the chain [above] once [u] is gone. *)
Record hangs (u : Uuid) (above l : list rung) : Prop := {
  hg_nodup : NoDup (users (above ++ l));
  hg_gone : u ∉ users (above ++ l);
  hg_nil r : r ∈ l → r_user r ≠ nil_uuid;
  hg_sponsor i r : l !! i = Some r → ∃ s, r_sponsor r = Some s ∧ (s = u ∨ s ∈ users (above ++ take i l));
}.

Definition rehung (u : Uuid) (prev : option Uuid) (r : rung) : rung :=
  mkRung (r_user r) (p ← prev; if decide (r_sponsor r = Some u) then Some p else r_sponsor r) (r_at r).

Lemma rehang_cons u prev r l : rehang u prev (r :: l) = rehung u prev r :: rehang u (Some (r_user r)) l.
Proof. done. Qed.

Lemma rehang_users u prev l : users (rehang u prev l) = users l.
Proof. revert prev. induction l as [|r l IH]; intros prev; [done|]. rewrite rehang_cons. unfold users in *. cbn. by rewrite IH. Qed.

Lemma rehang_length u prev l : length (rehang u prev l) = length l.
Proof. rewrite <- (length_fmap r_user), <- (length_fmap r_user l). f_equal. apply rehang_users. Qed.

Section step.
Context (u : Uuid) (l1 : list rung) (r : rung) (l2 : list rung) (Hh : hangs u l1 (r :: l2)).

Abbreviation r' := (rehung u (r_user <$> last l1) r).

Lemma users_middle : users ((l1 ++ [r']) ++ l2) = users (l1 ++ r :: l2).
Proof using All. unfold users. rewrite !fmap_app. cbn. by rewrite <- app_assoc. Qed.

Lemma hangs_step : hangs u (l1 ++ [r']) l2.
Proof using All.
  destruct Hh as [H1 H2 H3 H4]. split.
  - by rewrite users_middle.
  - by rewrite users_middle.
  - intros x Hx. apply H3. by right.
  - intros i x Hi. destruct (H4 (S i) x Hi) as (s & Hs & Hor). exists s. split; [done|]. destruct Hor as [->|Hin]; [by left|right].
    unfold users in *. rewrite !fmap_app in *. cbn in *. set_solver.
Qed.

(** The sponsor of the first to hang: on the chain, and never the removed one. *)
Lemma rehung_sponsor p : r_user <$> last l1 = Some p → ∃ s, r_sponsor r' = Some s ∧ s ∈ users l1 ∧
  s = (if decide (default (r_user r) (r_sponsor r) = u) then p else default (r_user r) (r_sponsor r)).
Proof using All.
  intros Hp. destruct (hg_sponsor _ _ _ Hh 0 r eq_refl) as (s & Hs & Hor). unfold rehung. rewrite Hp, Hs. cbn.
  rewrite app_nil_r in Hor. destruct (decide (s = u)) as [->|Hne].
  - rewrite decide_True by done. exists p. split_and!; [done| |done].
    apply fmap_Some in Hp as (x & Hx & ->). apply list_elem_of_fmap_2. rewrite last_lookup in Hx. by eapply list_elem_of_lookup_2.
  - rewrite decide_False by naive_solver. exists s. split_and!; [done| |done]. by destruct Hor.
Qed.

Lemma hung_fresh : (r_user r ∉ users l1) ∧ r_user r ≠ nil_uuid.
Proof using All.
  destruct Hh as [H1 _ H3 _]. split; [|apply H3; left]. unfold users in H1. rewrite fmap_app, NoDup_app in H1.
  intros Hin. destruct H1 as (_ & H1 & _). apply (H1 _ Hin). left.
Qed.

Lemma hung_wf : chain_wf l1 → chain_wf (l1 ++ [r']).
Proof using All.
  intros Hl. destruct hung_fresh as [Hf Hn]. apply chain_wf_snoc. split_and!; [done|done|done|].
  pose proof rehung_sponsor as Hs. destruct (r_user <$> last l1) as [p|] eqn:Hp.
  - destruct (Hs p eq_refl) as (s & Hs' & Hin & _). destruct l1; [done|]. by exists s.
  - apply fmap_None, last_None in Hp. by destruct l1.
Qed.
End step.

Lemma rehang_wf u l2 : ∀ l1, chain_wf l1 → hangs u l1 l2 → chain_wf (l1 ++ rehang u (r_user <$> last l1) l2).
Proof.
  induction l2 as [|r l2 IH]; intros l1 Hl Hh; [by rewrite app_nil_r|]. rewrite rehang_cons, cons_middle, app_assoc.
  specialize (IH _ (hung_wf u l1 r l2 Hh Hl) (hangs_step u l1 r l2 Hh)). by rewrite last_snoc in IH.
Qed.

(** ** The spliced chain *)
Section splice.
Context (l : list rung) (i : nat) (r : rung) (Hl : chain_wf l) (Hi : l !! i = Some r).

Lemma find_rung : list_find (λ x, r_user x = r_user r) l = Some (i, r).
Proof using All.
  apply list_find_Some. split_and!; [done|done|]. intros j y Hj Hlt He.
  pose proof (rung_inj l _ _ _ _ (cw_nodup l Hl) Hi Hj (eq_sym He)). lia.
Qed.

Lemma splice_at : splice_out (r_user r) l = take i l ++ rehang (r_user r) (r_user <$> last (take i l)) (drop (S i) l).
Proof using All. unfold splice_out. by rewrite find_rung. Qed.

Lemma split_rung : l = take i l ++ r :: drop (S i) l.
Proof using All. by rewrite take_drop_middle. Qed.

Lemma prefix_wf : chain_wf (take i l).
Proof using All.
  destruct Hl as [H1 H2 H3]. split.
  - rewrite fmap_take. eapply sublist_NoDup; [exact H1|apply sublist_take].
  - intros x (j & Hj & _)%elem_of_take. apply H2. by eapply list_elem_of_lookup_2.
  - intros j x Hj. apply lookup_take_Some in Hj as [Hj Hlt]. rewrite take_take, Nat.min_l by lia. by apply H3.
Qed.

Lemma splice_hangs : hangs (r_user r) (take i l) (drop (S i) l).
Proof using All.
  pose proof (cw_nodup l Hl) as Hnd. rewrite split_rung in Hnd. rewrite fmap_app, fmap_cons, NoDup_app, NoDup_cons in Hnd.
  destruct Hnd as (H1 & H2 & H3 & H4). split.
  - unfold users. rewrite fmap_app, NoDup_app. split_and!; [done| |done]. intros x Hx Hx'. apply (H2 x Hx). by right.
  - unfold users. rewrite fmap_app, elem_of_app. intros [Hx|Hx]; [apply (H2 _ Hx); left|done].
  - intros x Hx. apply (cw_nil l Hl). rewrite split_rung. apply elem_of_app. right. by right.
  - intros j x Hj. rewrite lookup_drop in Hj. pose proof (cw_sponsor l Hl _ x Hj) as Hs. rewrite decide_False in Hs by lia.
    destruct Hs as (s & Hs & Hin). exists s. split; [done|]. rewrite split_rung in Hin. pose proof (lookup_lt_Some _ _ _ Hi) as Hlt.
    rewrite take_app, length_take, (take_ge (take i l)) in Hin by (rewrite length_take; lia).
    replace (S i + j - i `min` length l) with (S j) in Hin by lia. unfold users. rewrite fmap_app in *. cbn in Hin. set_solver.
Qed.

Lemma splice_wf : chain_wf (splice_out (r_user r) l).
Proof using All. rewrite splice_at. apply rehang_wf; [apply prefix_wf|apply splice_hangs]. Qed.

Lemma splice_users_app : users (splice_out (r_user r) l) = users (take i l) ++ users (drop (S i) l).
Proof using All. rewrite splice_at. unfold users at 1. rewrite fmap_app. f_equal. apply rehang_users. Qed.

Lemma splice_users v : v ∈ users (splice_out (r_user r) l) ↔ v ∈ users l ∧ v ≠ r_user r.
Proof using All.
  rewrite splice_users_app. pose proof (hg_gone _ _ _ splice_hangs) as Hg. assert (users l = users (take i l) ++ r_user r :: users (drop (S i) l)) as ->.
  { rewrite split_rung at 1. unfold users. by rewrite fmap_app. }
  unfold users in *. rewrite !fmap_app in *. set_solver.
Qed.

Lemma splice_length : S (length (splice_out (r_user r) l)) = length l.
Proof using All.
  rewrite splice_at, length_app, rehang_length, length_take, length_drop. apply lookup_lt_Some in Hi. lia.
Qed.
End splice.

Lemma splice_head u l r : head l = Some r → r_user r ≠ u → head (splice_out u l) = Some r.
Proof.
  intros Hh Hr. unfold splice_out. destruct l as [|x l]; [done|]. injection Hh as ->. cbn [list_find]. rewrite decide_False by done.
  by destruct (list_find _ l) as [[i y]|].
Qed.

(** ** Handing over *)
Definition heir (B : gmap N line) (k : N) : option Uuid := ln ← B !! k; r_user <$> head (ln_chain ln).

Definition handed (ln : line) : line := line_with_owner (top ln) ln.

Lemma hand_over_by_id L k : by_id (hand_over L k) = alter handed k (by_id L).
Proof.
  unfold hand_over. destruct (by_id L !! k) as [ln|] eqn:Hk.
  - assert (alter handed k (by_id L) = <[k := handed ln]> (by_id L)) as ->.
    { apply map_eq. intros j. rewrite lookup_alter, lookup_insert. case_decide; [|done]. subst j. by rewrite Hk. }
    unfold handed, top. by destruct (r_user <$> head (ln_chain ln)).
  - symmetry. apply map_eq. intros j. rewrite lookup_alter. case_decide; [|done]. subst j. by rewrite Hk.
Qed.

Lemma hand_over_owned L k : owned_by (hand_over L k) = match heir (by_id L) k with Some v => push_at v k (owned_by L) | None => owned_by L end.
Proof. unfold hand_over, heir. destruct (by_id L !! k) as [ln|]; [|done]. cbn. by destruct (head (ln_chain ln)). Qed.

Lemma hand_over_next ids : ∀ L, next_id (foldl hand_over L ids) = next_id L.
Proof.
  induction ids as [|k ids IH]; intros L; [done|]. cbn. rewrite IH. unfold hand_over. destruct (by_id L !! k) as [ln|]; [|done].
  by destruct (r_user <$> head (ln_chain ln)).
Qed.

Lemma hand_overs_by_id ids : ∀ L, by_id (foldl hand_over L ids) = foldl (λ m k, alter handed k m) (by_id L) ids.
Proof. induction ids as [|k ids IH]; intros L; [done|]. cbn. by rewrite IH, hand_over_by_id. Qed.

Lemma handed_lookup ids L k : by_id (foldl hand_over L ids) !! k = if decide (k ∈ ids) then handed <$> by_id L !! k else by_id L !! k.
Proof. rewrite hand_overs_by_id. by apply foldl_alter_lookup. Qed.

Lemma heir_hand_over L j k : heir (by_id (hand_over L j)) k = heir (by_id L) k.
Proof. rewrite hand_over_by_id. unfold heir. rewrite lookup_alter. case_decide; [subst j|done]. by destruct (by_id L !! k). Qed.

(** Each heir's list grows by the lines it inherits, in order. *)
Lemma hand_overs_owned ids v : ∀ L, owned_by (foldl hand_over L ids) !! v =
  if decide (filter (λ k, heir (by_id L) k = Some v) ids = []) then owned_by L !! v
  else Some (default [] (owned_by L !! v) ++ filter (λ k, heir (by_id L) k = Some v) ids).
Proof.
  induction ids as [|k ids IH]; intros L; [done|]. cbn [foldl]. rewrite IH.
  assert (Hf : filter (λ j, heir (by_id (hand_over L k)) j = Some v) ids = filter (λ j, heir (by_id L) j = Some v) ids).
  { apply list_filter_iff. intros j. by rewrite heir_hand_over. }
  rewrite Hf, hand_over_owned, filter_cons. destruct (decide (heir (by_id L) k = Some v)) as [Hk|Hk].
  - rewrite Hk, push_at_lookup. rewrite (decide_True (P := v = v)) by done.
    rewrite (decide_False (P := k :: _ = [])) by done. case_decide as He; [by rewrite He|]. f_equal. cbn. by rewrite <- app_assoc.
  - destruct (heir (by_id L) k) as [w|]; [|done]. rewrite push_at_lookup, (decide_False (P := w = v)) by congruence. done.
Qed.

Lemma heir_top B k v : chains_wf B → heir B k = Some v ↔ v ≠ nil_uuid ∧ ∃ ln, B !! k = Some ln ∧ top ln = v.
Proof.
  intros Hc. unfold heir. destruct (B !! k) as [ln|] eqn:Hk; cbn; [|naive_solver].
  trans (v ≠ nil_uuid ∧ top ln = v); [|naive_solver]. unfold top.
  destruct (head (ln_chain ln)) as [r|] eqn:Hh; cbn; [|split; [done|]; intros [Hv He]; congruence].
  assert (r_user r ≠ nil_uuid) as Hr.
  { destruct (lw_chain B Hc k ln Hk) as [Hw _]. apply (cw_nil _ Hw). by apply head_Some_elem_of. }
  naive_solver.
Qed.

Lemma heir_seated B k v : heir B k = Some v → seated B k v.
Proof.
  unfold heir. intros (ln & Hln & Hh)%bind_Some. apply fmap_Some in Hh as (r & Hr & ->). exists ln. split; [done|].
  apply list_elem_of_fmap_2. by apply head_Some_elem_of.
Qed.

(** ** The lines without [u] *)
Section removed.
Context (L : lines) (u : Uuid) (k : N) (ln : line) (Hwf : lines_wf L) (Hk : by_id L !! k = Some ln) (Hu : u ∈ users (ln_chain ln)).

Definition heirs : list N :=
  let left := default [] (owned_by L !! u) in if bool_decide (k ∈ left) then k :: filter (λ j, j ≠ k) left else left.

Definition bare : lines := edit (alter (line_with_chain (splice_out u)) k) (edit_owned (delete u) L).

Lemma spec_remove_at : spec_remove L u = Ok (foldl hand_over bare heirs, inl [k]).
Proof using All.
  unfold spec_remove. destruct (seat_of_Some L u k (lw_chains L Hwf)) as [_ ->]; [done|]. by exists ln.
Qed.

Lemma splice_facts : chain_wf (splice_out u (ln_chain ln)) ∧ S (length (splice_out u (ln_chain ln))) = length (ln_chain ln) ∧
  ∀ v, v ∈ users (splice_out u (ln_chain ln)) ↔ v ∈ users (ln_chain ln) ∧ v ≠ u.
Proof using Hwf Hk Hu.
  destruct (lw_chain _ (lw_chains L Hwf) k ln Hk) as [Hc _]. apply list_elem_of_fmap in Hu as (r & He & [i Hi]%list_elem_of_lookup). rewrite He.
  split_and!; [by eapply splice_wf|by eapply splice_length|by eapply splice_users].
Qed.

Lemma bare_chains : chains_wf (by_id bare).
Proof using Hwf Hk Hu.
  destruct splice_facts as (H1 & H2 & H3). apply (chains_wf_set _ _ ln _ (lw_chains L Hwf) Hk H1).
  - destruct (lw_chain _ (lw_chains L Hwf) k ln Hk) as [_ Hlen]. lia.
  - intros v Hv. left. by apply H3.
Qed.

Lemma bare_at j : by_id bare !! j = if decide (j = k) then Some (line_with_chain (splice_out u) ln) else by_id L !! j.
Proof using Hk. cbn. case_decide as He; [subst j; by rewrite lookup_alter_eq, Hk|by rewrite lookup_alter_ne]. Qed.

Lemma bare_seated j v : seated (by_id bare) j v ↔ seated (by_id L) j v ∧ v ≠ u.
Proof using Hwf Hk Hu.
  destruct splice_facts as (_ & _ & H3). unfold seated. rewrite bare_at. case_decide as Hj.
  - subst j. rewrite Hk. split.
    + intros (? & [= <-] & Hv). cbn in Hv. apply H3 in Hv as [Hv Hne]. eauto.
    + intros [(? & [= <-] & Hv) Hne]. eexists. split; [done|]. cbn. by apply H3.
  - split; [|naive_solver]. intros Hs. split; [done|]. intros ->. apply Hj. eapply (lw_seat _ (lw_chains L Hwf)); [exact Hs|by exists ln].
Qed.

Lemma heirs_perm : heirs ≡ₚ default [] (owned_by L !! u).
Proof using Hwf.
  unfold heirs. set (left := default [] (owned_by L !! u)). assert (NoDup left) as Hnd.
  { subst left. destruct (owned_by L !! u) as [l|] eqn:E; [by apply (lw_owned L Hwf u l E)|constructor]. }
  case_bool_decide as Hin; [|done]. apply NoDup_Permutation; [|done|].
  - constructor; [by intros [? _]%list_elem_of_filter|by apply NoDup_filter].
  - intros j. rewrite elem_of_cons, list_elem_of_filter. destruct (decide (j = k)) as [->|]; naive_solver.
Qed.

Lemma heirs_nodup : NoDup heirs.
Proof using Hwf. rewrite heirs_perm. destruct (owned_by L !! u) as [l|] eqn:E; [by apply (lw_owned L Hwf u l E)|constructor]. Qed.

Lemma heirs_owner j : j ∈ heirs ↔ u ≠ nil_uuid ∧ owner_is L j u.
Proof using Hwf.
  rewrite heirs_perm, <- (lw_owner L Hwf u j). unfold owns. destruct (owned_by L !! u) as [l|]; cbn; [naive_solver|].
  rewrite elem_of_nil. naive_solver.
Qed.

Lemma removed_not_nil : u ≠ nil_uuid.
Proof using Hwf Hk Hu. eapply seated_not_nil; [apply (lw_chains L Hwf)|by exists ln]. Qed.

Lemma bare_owner j v : owner_is bare j v ↔ owner_is L j v.
Proof using Hk. clear Hu. unfold owner_is. rewrite bare_at. case_decide; [subst j; rewrite Hk; cbn; naive_solver|done]. Qed.

Lemma handed_owner j v : owner_is (foldl hand_over bare heirs) j v ↔
  (j ∈ heirs ∧ ∃ l', by_id bare !! j = Some l' ∧ top l' = v) ∨ ((j ∉ heirs) ∧ owner_is L j v).
Proof using Hk.
  unfold owner_is at 1. rewrite handed_lookup. destruct (decide (j ∈ heirs)) as [Hj|Hj].
  - clear Hu Hk. destruct (by_id bare !! j) as [l'|]; cbn; naive_solver.
  - fold (owner_is bare j v). rewrite bare_owner. clear Hu Hk. naive_solver.
Qed.

Lemma bare_owned v : owned_by bare !! v = if decide (u = v) then None else owned_by L !! v.
Proof using. apply lookup_delete. Qed.

(** The owner lists after the lines were handed over. *)
Lemma handed_owns v j : owns (foldl hand_over bare heirs) v j ↔
  (∃ ids, owned_by bare !! v = Some ids ∧ j ∈ ids) ∨ j ∈ filter (λ k, heir (by_id bare) k = Some v) heirs.
Proof using.
  unfold owns. rewrite hand_overs_owned. set (js := filter _ heirs). set (o := owned_by bare !! v).
  destruct (decide (js = [])) as [->|Hne]; [rewrite elem_of_nil; clear; naive_solver|]. split.
  + intros (? & [= <-] & [Hin|Hin]%elem_of_app); [left|by right]. destruct o as [ids|]; [eauto|by apply elem_of_nil in Hin].
  + intros [(ids & -> & Hin)|Hin]; (eexists; split; [done|]; apply elem_of_app; auto).
Qed.

Lemma kept_owns v j : (∃ ids, owned_by bare !! v = Some ids ∧ j ∈ ids) ↔ (j ∉ heirs) ∧ v ≠ nil_uuid ∧ owner_is L j v.
Proof using Hwf Hk Hu.
  rewrite heirs_owner, bare_owned. pose proof removed_not_nil as Hnil. case_decide as Huv; [subst v; clear Hu Hk; naive_solver|].
  fold (owns L v j). rewrite (lw_owner L Hwf v j). split; [|clear; naive_solver].
  intros [Hv Ho]. split; [|done]. intros [_ Ho']. destruct Ho as (? & ? & ?), Ho' as (? & ? & ?). congruence.
Qed.

Lemma handed_nodup v ids : owned_by (foldl hand_over bare heirs) !! v = Some ids → NoDup ids ∧ ids ≠ [].
Proof using Hwf Hk Hu.
  rewrite hand_overs_owned. set (js := filter _ heirs).
  assert (Hold : ∀ l, owned_by bare !! v = Some l → NoDup l ∧ l ≠ []) by (intros l; rewrite bare_owned; case_decide; [done|apply (lw_owned L Hwf)]).
  destruct (decide (js = [])) as [|Hne]; [apply Hold|]. pose proof (kept_owns v) as Hkept. destruct (owned_by bare !! v) as [l|].
  - intros He. assert (l ++ js = ids) as <- by (by injection He). split; [|by intros [_ ?]%app_nil]. apply NoDup_app.
    split_and!; [by apply (Hold l)| |apply NoDup_filter, heirs_nodup]. intros j Hin [_ Hj]%list_elem_of_filter.
    destruct (proj1 (Hkept j)) as [Hno _]; [eauto|done].
  - intros He. assert (js = ids) as <- by (by injection He). split; [apply NoDup_filter, heirs_nodup|done].
Qed.

Lemma spec_remove_wf : lines_wf (foldl hand_over bare heirs).
Proof using Hwf Hk Hu.
  pose proof bare_chains as Hbc. split.
  - eapply chains_wf_sub; [|exact Hbc]. intros j ln'. rewrite handed_lookup. case_decide; [|eauto]. intros (l' & Hl' & ->)%fmap_Some. eauto.
  - intros v j. rewrite handed_owner, handed_owns, kept_owns, list_elem_of_filter, (heir_top _ _ _ Hbc). clear. naive_solver.
  - apply handed_nodup.
  - intros j. rewrite hand_over_next, handed_lookup. cbn [next_id bare edit edit_owned]. intros Hj. apply (lw_ids L Hwf).
    assert (is_Some (by_id bare !! j)) as Hb by (case_decide; [by apply fmap_is_Some in Hj|done]).
    rewrite bare_at in Hb. case_decide; [subst j; by rewrite Hk|done].
  - rewrite hand_over_next. apply (lw_next L Hwf).
  - intros ln'. rewrite handed_lookup. case_decide as H1; [by intros (l' & Hl' & ->)%fmap_Some|]. rewrite bare_at. case_decide as He; [|apply (lw_first L Hwf)].
    intros [= <-]. assert (by_id L !! 1%N = Some ln) as Hk1 by congruence. pose proof (lw_first L Hwf ln Hk1) as Hf. cbn [ln_owner line_with_chain]. rewrite Hf.
    unfold top in *. cbn [ln_chain line_with_chain]. destruct (head (ln_chain ln)) as [r|] eqn:Hh; [|destruct (ln_chain ln); [by apply elem_of_nil in Hu|done]].
    rewrite (splice_head u _ r Hh); [done|]. intros Hr. apply H1, heirs_owner. split; [apply removed_not_nil|]. exists ln. split; [done|]. by rewrite Hf.
Qed.
End removed.
