(* ===== verification/StreamRefine.v ===== *)
(** * The engine and its lines

    [tracks]: the streams and the membership index of an engine show the lines
    [B]; [sim] adds the owner lists, the cursor and the configuration. The loops of
    the engine are stated on [tracks]. *)

From stdpp Require Import base numbers list gmap sorting strings.
From Stdlib Require Import ZArith Lia.
From S2P Require Import Prelude TreeTypes Arena Unilevel StreamTree Streamline StreamSpec.
Import Streamline.

Record represents (k : N) (s : Stream) (ln : line) : Prop := {
  rep_id : id s = k;
  rep_owner : owner_id s = ln_owner ln;
  rep_frozen : frozen s = ln_frozen ln;
  rep_created : created_at s = ln_created ln;
  rep_chain : chain_of (tree s) (ln_chain ln);
  rep_bottom : bottom s = r_user <$> last (ln_chain ln);
}.

Definition shows (S : gmap N Stream) (B : gmap N line) : Prop := ∀ k, option_Forall2 (represents k) (S !! k) (B !! k).
Definition indexed (U : gmap Uuid (list N)) (B : gmap N line) : Prop := ∀ u ids, U !! u = Some ids ↔ ∃ k, ids = [k] ∧ seated B k u.

Record sim (c : StreamlineConfig) (e : StreamlineEngine) (L : lines) : Prop := {
  sim_wf : lines_wf L;
  sim_streams : shows (streams e) (by_id L);
  sim_users : indexed (user_streams e) (by_id L);
  sim_owners : stream_owners e = owned_by L;
  sim_next : next_stream_id e = next_id L;
  sim_config : config e = c;
}.

(** A reply agrees with its specification. *)
Definition agrees {A} (c : StreamlineConfig) (m : reply A) (m' : answer A) : Prop :=
  match m, m' with
  | Ok (e', r), Ok (L', r') => sim c e' L' ∧ r = r'
  | Panic, Panic => True
  | _, _ => False
  end.

(** ** Reading *)
Lemma shows_Some S B k ln : shows S B → B !! k = Some ln → ∃ s, S !! k = Some s ∧ represents k s ln.
Proof. intros H Hk. specialize (H k). rewrite Hk in H. inversion H; subst. eauto. Qed.

Lemma shows_back S B k s : shows S B → S !! k = Some s → ∃ ln, B !! k = Some ln ∧ represents k s ln.
Proof. intros H Hk. specialize (H k). rewrite Hk in H. inversion H; subst. eauto. Qed.

Lemma shows_None S B k : shows S B → S !! k = None ↔ B !! k = None.
Proof. intros H. specialize (H k). inversion H; naive_solver. Qed.

Lemma indexed_seat U L u : indexed U (by_id L) → chains_wf (by_id L) → U !! u = (λ k, [k]) <$> seat_of L u.
Proof.
  intros HU Hc. destruct (seat_of L u) as [k|] eqn:Hs; cbn.
  - apply HU. exists k. split; [done|]. by apply seat_of_Some.
  - destruct (U !! u) as [ids|] eqn:E; [|done]. apply HU in E as (k & _ & Hk). pose proof (proj1 (seat_of_None L u Hc) Hs k). done.
Qed.

Lemma shows_insert S B k s ln : shows S B → represents k s ln → shows (<[k := s]> S) (<[k := ln]> B).
Proof.
  intros H Hr j. destruct (decide (j = k)) as [->|Hne]; [rewrite !lookup_insert_eq; by constructor|].
  rewrite !lookup_insert_ne by done. apply H.
Qed.

Lemma shows_delete S B k : shows S B → shows (delete k S) (delete k B).
Proof.
  intros H j. destruct (decide (j = k)) as [->|Hne]; [rewrite !lookup_delete_eq; constructor|].
  rewrite !lookup_delete_ne by done. apply H.
Qed.

(** Equal chains, equal index. *)
Lemma indexed_same U B B' : (∀ k u, seated B' k u ↔ seated B k u) → indexed U B → indexed U B'.
Proof. intros Hs HU u ids. rewrite (HU u ids). by setoid_rewrite Hs. Qed.

Lemma rep_set_frozen b k s ln : represents k s ln → represents k (set_frozen b s) (line_with_frozen b ln).
Proof. by intros []. Qed.

Lemma rep_set_owner v k s ln : represents k s ln → represents k (set_owner v s) (line_with_owner v ln).
Proof. by intros []. Qed.

Lemma rep_users k s ln : represents k s ln → tree_users s ≡ₚ users (ln_chain ln).
Proof. intros []. by apply chain_user_ids_perm. Qed.

Lemma rep_count k s ln : represents k s ln → length (tree_users s) = length (ln_chain ln).
Proof. intros H. rewrite (rep_users k s ln H). unfold users. apply length_fmap. Qed.

(** ** The index under the loops *)
Lemma retain_lookup k us : ∀ (m : gmap Uuid (list N)) v, NoDup us →
  foldl (retain_other k) m us !! v = if decide (v ∈ us)
    then l ← m !! v; (if decide (filter (λ x, x ≠ k) l = []) then None else Some (filter (λ x, x ≠ k) l)) else m !! v.
Proof.
  induction us as [|w us IH]; intros m v Hnd; [done|]. apply NoDup_cons in Hnd as [Hw Hnd]. cbn [foldl]. rewrite (IH _ v Hnd).
  assert (Hr : ∀ x, retain_other k m w !! x = if decide (x = w)
    then l ← m !! w; (if decide (filter (λ x, x ≠ k) l = []) then None else Some (filter (λ x, x ≠ k) l)) else m !! x).
  { intros x. unfold retain_other. destruct (m !! w) as [l|] eqn:E; cbn.
    - case_bool_decide as Hf.
      + rewrite (decide_True (P := filter _ _ = [])) by done. rewrite lookup_delete. case_decide; case_decide; congruence.
      + rewrite (decide_False (P := filter _ _ = [])) by done. rewrite lookup_insert. case_decide; case_decide; congruence.
    - case_decide; congruence. }
  rewrite Hr. destruct (decide (v = w)) as [->|Hne].
  - rewrite (decide_False (P := w ∈ us)) by done. rewrite (decide_True (P := w ∈ w :: us)) by left. done.
  - destruct (decide (v ∈ us)); [rewrite (decide_True (P := v ∈ w :: us)) by (by right)|rewrite (decide_False (P := v ∈ w :: us)) by (rewrite elem_of_cons; naive_solver)]; done.
Qed.

Lemma pushes_lookup k us : ∀ (m : gmap Uuid (list N)) v, NoDup us →
  foldl (λ m d, push_at d k m) m us !! v = if decide (v ∈ us) then Some (default [] (m !! v) ++ [k]) else m !! v.
Proof.
  induction us as [|w us IH]; intros m v Hnd; [done|]. apply NoDup_cons in Hnd as [Hw Hnd]. cbn [foldl]. rewrite (IH _ v Hnd), push_at_lookup.
  destruct (decide (w = v)) as [->|Hne].
  - rewrite (decide_False (P := v ∈ us)) by done. rewrite (decide_True (P := v ∈ v :: us)) by left. done.
  - destruct (decide (v ∈ us)); [rewrite (decide_True (P := v ∈ w :: us)) by (by right)|rewrite (decide_False (P := v ∈ w :: us)) by (rewrite elem_of_cons; naive_solver)]; done.
Qed.

(** A destroyed stream takes its members off the index. *)
Lemma indexed_destroy U B k ln us : indexed U B → chains_wf B → B !! k = Some ln → NoDup us → (∀ v, v ∈ us ↔ v ∈ users (ln_chain ln)) →
  indexed (foldl (retain_other k) U us) (delete k B).
Proof.
  intros HU Hc Hk Hnd Hus v ids. rewrite (retain_lookup k us U v Hnd).
  assert (Hdel : ∀ j, seated (delete k B) j v ↔ j ≠ k ∧ seated B j v).
  { intros j. unfold seated. destruct (decide (j = k)) as [->|Hne]; [rewrite lookup_delete_eq|rewrite lookup_delete_ne by done]; naive_solver. }
  setoid_rewrite Hdel. destruct (decide (v ∈ us)) as [Hv|Hv].
  - assert (seated B k v) as Hs by (exists ln; split; [done|by apply Hus]). rewrite (proj2 (HU v [k])) by eauto. cbn [mbind option_bind].
    rewrite decide_True by (by rewrite filter_cons_False by naive_solver). split; [done|]. intros (j & _ & Hj & Hs'). by destruct (Hj (lw_seat B Hc _ _ _ Hs' Hs)).
  - rewrite (HU v ids). split; [|naive_solver]. intros (j & -> & Hj). exists j. split_and!; [done| |done]. intros ->.
    apply Hv, Hus. destruct Hj as (ln' & Hln' & Hv'). congruence.
Qed.

(** * The engine's requests implement the edits of lines

    For each request of [streamline/engine.rs], [agrees]: from related states the
    engine and the specification give the same reply, or panic together, and end
    in related states. *)

(** ** Creating streams *)
Definition fresh_ids (n : N) (count : nat) : list N := (λ i, n + N.of_nat i)%N <$> seq 0 count.

Lemma fresh_ids_S n count : fresh_ids n (S count) = fresh_ids n count ++ [(n + N.of_nat count)%N].
Proof. unfold fresh_ids. by rewrite seq_S, fmap_app. Qed.

Lemma fresh_ids_nil n count : fresh_ids n count = [] → count = 0.
Proof. by destruct count. Qed.

(** The engine after [count] more streams. *)
Definition created (e : StreamlineEngine) (u : Uuid) (at_ : Z) (count : nat) : StreamlineEngine :=
  let ids := fresh_ids (next_stream_id e) count in
  mkEngine (foldl (λ m k, <[k := mkStream k Unilevel.new u false at_ None]> m) (streams e) ids) (user_streams e)
    (if bool_decide (ids = []) then stream_owners e else <[u := default [] (stream_owners e !! u) ++ ids]> (stream_owners e))
    (next_stream_id e + N.of_nat count) (config e).

Lemma create_closed e u at_ count : (next_stream_id e ≤ u32_max)%N →
  fold_outcome (create_one u at_) (e, []) (seq 0 count) =
  if (u32_max <? next_stream_id e + N.of_nat count)%N then Panic
  else Ok (created e u at_ count, fresh_ids (next_stream_id e) count).
Proof.
  intros Hn. induction count as [|count IH].
  { cbn. rewrite N.add_0_r. destruct (N.ltb_spec u32_max (next_stream_id e)); [lia|]. unfold created. cbn. rewrite N.add_0_r. by destruct e. }
  rewrite seq_S, fold_outcome_app, IH. clear IH.
  destruct (N.ltb_spec u32_max (next_stream_id e + N.of_nat count)) as [|Hle]; [destruct (N.ltb_spec u32_max (next_stream_id e + N.of_nat (S count))); [done|lia]|].
  cbn [mbind outcome_bind fold_outcome]. unfold create_one, create_stream. cbn [created next_stream_id]. unfold u32_add.
  destruct (N.leb_spec (next_stream_id e + N.of_nat count + 1) u32_max) as [H1|H1];
    (destruct (N.ltb_spec u32_max (next_stream_id e + N.of_nat (S count))) as [H2|H2]; try lia); [|done].
  cbn [mbind outcome_bind]. rewrite fresh_ids_S. f_equal. f_equal. unfold created, with_owners, with_streams, with_next. cbn [streams user_streams stream_owners next_stream_id config].
  rewrite fresh_ids_S, foldl_app. cbn [foldl]. rewrite (bool_decide_eq_false_2 (_ ++ _ = [])) by (by intros [_ ?]%app_nil). f_equal; [|lia].
  case_bool_decide as He.
  - rewrite He. done.
  - unfold push_at. rewrite lookup_insert_eq. cbn. rewrite insert_insert_eq. by rewrite <- app_assoc.
Qed.

Lemma rep_fresh k u at_ : represents k (mkStream k Unilevel.new u false at_ None) (mkLine u false at_ []).
Proof. split; try done. apply chain_of_new. Qed.

Lemma create_agrees c e L u at_ count : sim c e L → u ≠ nil_uuid →
  match create_streams e u at_ count, open_lines L u at_ count with
  | Ok (e', ids), Ok (L', ids') => sim c e' L' ∧ ids = ids'
  | Panic, Panic => True
  | _, _ => False
  end.
Proof.
  intros Hsim Hu. pose proof (open_lines_wf L u at_ count) as Hwf. destruct Hsim as [Hw Hs HU Ho Hn Hc].
  unfold create_streams. rewrite create_closed by (rewrite Hn; apply (lw_next L Hw)). unfold open_lines in *.
  rewrite Hn, N2Nat.id. destruct (u32_max <? next_id L + count)%N; [done|]. split; [|done].
  specialize (Hwf _ _ Hw Hu eq_refl). split; cbn [streams user_streams stream_owners next_stream_id config created].
  - exact Hwf.
  - intros k. cbn [by_id]. rewrite Hn, !foldl_insert_lookup. unfold fresh_ids. case_decide; [constructor; apply rep_fresh|apply Hs].
  - eapply indexed_same; [|exact HU]. intros k v. unfold seated. cbn [by_id]. rewrite foldl_insert_lookup. case_decide as Hk; [|done].
    apply opened_ids in Hk. split; [intros (? & [= <-] & ?%elem_of_nil); done|]. intros (ln & Hln & _).
    pose proof (lw_ids L Hw k ltac:(eauto)). lia.
  - rewrite Ho, Hn. done.
  - rewrite Hn. cbn. lia.
  - done.
Qed.

(** ** What the guards read *)
Section guards.
Context (c : StreamlineConfig) (e : StreamlineEngine) (L : lines) (Hsim : sim c e L).

Lemma member_seat u : user_streams e !! u = (λ k, [k]) <$> seat_of L u.
Proof using Hsim. apply indexed_seat; [apply (sim_users _ _ _ Hsim)|apply (lw_chains L), Hsim]. Qed.

Lemma absent_owner u : negb (bool_decide (is_Some (stream_owners e !! u))) = bool_decide (owned_by L !! u = None).
Proof using Hsim. rewrite (sim_owners _ _ _ Hsim). by destruct (owned_by L !! u). Qed.

Lemma member_known u : bool_decide (is_Some (user_streams e !! u)) = bool_decide (is_Some (seat_of L u)).
Proof using Hsim. rewrite member_seat. apply bool_decide_ext. by rewrite fmap_is_Some. Qed.

Lemma absent_member u : negb (bool_decide (is_Some (user_streams e !! u))) = bool_decide (seat_of L u = None).
Proof using Hsim. rewrite member_seat. by destruct (seat_of L u). Qed.

Lemma known_not_nil u : bool_decide (seat_of L u = None) && bool_decide (owned_by L !! u = None) = false → u ≠ nil_uuid.
Proof using Hsim.
  pose proof (sim_wf _ _ _ Hsim) as Hw. intros H. destruct (seat_of L u) as [k|] eqn:Hs.
  - apply (seat_of_Some L u k (lw_chains L Hw)) in Hs. by eapply seated_not_nil; [apply (lw_chains L Hw)|].
  - destruct (owned_by L !! u) as [ids|] eqn:Ho; [|by rewrite !bool_decide_eq_true_2 in H].
    destruct (lw_owned L Hw u ids Ho) as [_ Hne]. destruct ids as [|k ids]; [done|].
    apply (lw_owner L Hw u k). exists (k :: ids). split; [done|left].
Qed.

Lemma owned_length u ids : owned_by L !! u = Some ids → (N.of_nat (length ids) ≤ u32_max)%N.
Proof using Hsim.
  pose proof (sim_wf _ _ _ Hsim) as Hw. intros Ho. destruct (lw_owned L Hw u ids Ho) as [Hnd _].
  assert (length ids ≤ length (fresh_ids 0 (N.to_nat (next_id L)))) as Hle.
  { apply submseteq_length, NoDup_submseteq; [done|]. intros k Hk. apply opened_ids.
    destruct (proj1 (lw_owner L Hw u k)) as (_ & ln & Hln & _); [by exists ids|]. pose proof (lw_ids L Hw k ltac:(eauto)). lia. }
  unfold fresh_ids in Hle. rewrite length_fmap, length_seq in Hle. pose proof (lw_next L Hw). lia.
Qed.

Lemma len_u32_small {A} (l : list A) : (N.of_nat (length l) ≤ u32_max)%N → len_u32 l = N.of_nat (length l).
Proof using. intros H. unfold len_u32. apply N.mod_small. unfold u32_max in H. lia. Qed.

Lemma owned_count u : from_option len_u32 0%N (stream_owners e !! u) = N.of_nat (length (default [] (owned_by L !! u))).
Proof using Hsim.
  rewrite (sim_owners _ _ _ Hsim). destruct (owned_by L !! u) as [ids|] eqn:Ho; [|done]. cbn.
  apply len_u32_small, (owned_length u ids Ho).
Qed.

Lemma sim_refused {A} (err : StreamlineError) : agrees (A := A) c (Ok (e, inr err)) (Ok (L, inr err)).
Proof using Hsim. by split. Qed.

Lemma expand_agrees u total at_ : agrees c (expand_streams e u total at_) (spec_expand L u total at_).
Proof using Hsim.
  unfold expand_streams, spec_expand. rewrite absent_member, absent_owner.
  destruct (bool_decide (seat_of L u = None) && bool_decide (owned_by L !! u = None)) eqn:Hk; [apply sim_refused|].
  rewrite owned_count. set (n := N.of_nat _). pose proof (create_agrees c e L u at_ (total - n) Hsim (known_not_nil u Hk)) as Hcr.
  destruct (N.leb_spec total n) as [Hle|Hlt].
  - replace (total - n)%N with 0%N in * by lia. unfold create_streams in Hcr. cbn in Hcr.
    destruct (open_lines L u at_ 0) as [[L' ids]| | |]; [|done..]. destruct Hcr as [Hs <-]. by split.
  - destruct (create_streams e u at_ (total - n)) as [[e' ids]| | |], (open_lines L u at_ (total - n)) as [[L' ids']| | |]; try done.
    destruct Hcr as [Hs <-]. by split.
Qed.
End guards.

(** ** Choosing a stream *)
Lemma list_find_filter {A} (P : A → Prop) `{∀ x, Decision (P x)} (l : list A) : snd <$> list_find P l = head (filter P l).
Proof.
  induction l as [|x l IH]; [done|]. cbn [list_find]. rewrite filter_cons. case_decide; [done|]. rewrite <- IH.
  by destruct (list_find P l) as [[]|].
Qed.

Section placing.
Context (c : StreamlineConfig) (e : StreamlineEngine) (L : lines) (Hsim : sim c e L).

Lemma open_stream k : from_option (λ st, negb (frozen st)) false (streams e !! k) = true ↔ is_open L k.
Proof using Hsim.
  unfold is_open. pose proof (sim_streams _ _ _ Hsim k) as H. inversion H as [s ln Hr Hs Hl|Hs Hl]; cbn; [|done].
  by rewrite (rep_frozen _ _ _ Hr).
Qed.

Lemma first_unfrozen_head ids : first_unfrozen e ids = head (filter (is_open L) ids).
Proof using Hsim. unfold first_unfrozen. rewrite list_find_filter. f_equal. apply list_filter_iff, open_stream. Qed.

Lemma fewer_step best k : fewer e best k = if decide (is_open L k) then
    match best with Some (_, n) => if (size_of L k <? n)%nat then Some (k, size_of L k) else best | None => Some (k, size_of L k) end
  else best.
Proof using Hsim.
  unfold fewer. destruct (decide (is_open L k)) as [Ho|Ho]; unfold is_open in Ho; pose proof (sim_streams _ _ _ Hsim k) as H;
    inversion H as [s ln Hr Hs Hl|Hs Hl]; rewrite <- Hl in Ho; cbn in Ho; rewrite ?(rep_frozen _ _ _ Hr); try done.
  - apply negb_true_iff in Ho. rewrite Ho, (rep_count _ _ _ Hr). unfold size_of. by rewrite <- Hl.
  - by destruct (ln_frozen ln).
Qed.

Lemma fewer_shortest ids : ∀ best, fst <$> foldl (fewer e) best ids =
  match best, shortest L (filter (is_open L) ids) with
  | None, o => o
  | Some (k, n), None => Some k
  | Some (k, n), Some k' => if (size_of L k' <? n)%nat then Some k' else Some k
  end.
Proof using Hsim.
  induction ids as [|s ids IH]; intros best; [by destruct best as [[]|]|]. cbn [foldl]. rewrite IH, fewer_step, filter_cons.
  destruct (decide (is_open L s)); [|done]. cbn [shortest]. destruct best as [[k n]|]; [|done].
  destruct (shortest L (filter (is_open L) ids)) as [k'|]; destruct (Nat.ltb_spec (size_of L s) n); try done;
    (destruct (Nat.ltb_spec (size_of L k') (size_of L s)), (Nat.ltb_spec (size_of L k') n); try lia); try done;
    destruct (Nat.ltb_spec (size_of L s) n); done || lia.
Qed.

Lemma placement_agrees sponsor choice : find_placement_stream e sponsor choice =
  match target_line c L sponsor choice with inl k => Ok k | inr err => Err err end.
Proof using Hsim.
  unfold find_placement_stream, target_line. rewrite (sim_config _ _ _ Hsim), (sim_owners _ _ _ Hsim). destruct choice as [k|].
  - destruct (enrollment_stream_choice c); [|done]. cbn [negb refuse_if mbind outcome_bind].
    pose proof (sim_streams _ _ _ Hsim k) as H. inversion H as [s ln Hr Hs Hl|Hs Hl]; [|done]. cbn [ok_or mbind outcome_bind].
    rewrite (rep_frozen _ _ _ Hr). destruct (ln_frozen ln); [done|]. cbn [refuse_if mbind outcome_bind].
    destruct (owned_by L !! sponsor) as [ids|]; cbn [ok_or mbind outcome_bind]; [|done].
    change (default [] (Some ids)) with ids. by destruct (bool_decide (k ∈ ids)).
  - destruct (owned_by L !! sponsor) as [ids|]; [|done]. cbn [ok_or mbind outcome_bind]. destruct (assignment_mode c).
    + rewrite first_unfrozen_head. by destruct (head _).
    + rewrite fewer_shortest. by destruct (shortest _ _).
Qed.

(** A chosen line exists and belongs to the sponsor. *)
Lemma shortest_elem ids k : shortest L ids = Some k → k ∈ ids.
Proof using.
  revert k. induction ids as [|j ids IH]; intros k; [done|]. cbn. destruct (shortest L ids) as [k'|].
  - specialize (IH k' eq_refl). case_match; intros [= <-]; [by right|left].
  - intros [= <-]. left.
Qed.

Lemma target_owned sponsor choice k : target_line c L sponsor choice = inl k →
  ∃ ln, by_id L !! k = Some ln ∧ ln_owner ln = sponsor ∧ sponsor ≠ nil_uuid.
Proof using Hsim.
  intros H. assert (owns L sponsor k) as Ho.
  { unfold target_line in H. destruct choice as [k'|].
    - destruct (enrollment_stream_choice c); [|done]. cbn in H. destruct (by_id L !! k') as [ln|]; [|done]. destruct (ln_frozen ln); [done|].
      case_bool_decide as Hin; [|done]. injection H as <-. destruct (owned_by L !! sponsor) as [ids|] eqn:E; [by exists ids|by apply elem_of_nil in Hin].
    - destruct (owned_by L !! sponsor) as [ids|] eqn:E; [|done]. exists ids. split; [done|].
      assert (k ∈ filter (is_open L) ids) as Hk; [|by apply list_elem_of_filter in Hk as [_ ?]].
      destruct (assignment_mode c); case_match eqn:Hk; simplify_eq; [by apply head_Some_elem_of|by apply shortest_elem]. }
  destruct (proj1 (lw_owner L (sim_wf _ _ _ Hsim) sponsor k) Ho) as (Hn & ln & Hln & He). eauto.
Qed.
End placing.

(** ** Enrolment *)
Lemma shows_alter S B k s' ln f : shows S B → B !! k = Some ln → represents k s' (f ln) → shows (<[k := s']> S) (alter f k B).
Proof.
  intros H Hln Hr. intros j. destruct (decide (j = k)) as [->|Hne].
  - rewrite lookup_insert_eq, lookup_alter_eq, Hln. by constructor.
  - rewrite lookup_insert_ne, lookup_alter_ne by done. apply H.
Qed.

(** One more on line [k]: the index gains one entry. *)
Lemma indexed_join U B k ln u r : indexed U B → B !! k = Some ln → (∀ j, ¬ seated B j u) → r_user r = u →
  indexed (push_at u k U) (alter (line_with_chain (λ l, l ++ [r])) k B).
Proof.
  intros HU Hk Hu Hr v ids. rewrite push_at_lookup.
  assert (Hs : ∀ j, seated (alter (line_with_chain (λ l, l ++ [r])) k B) j v ↔ seated B j v ∨ (j = k ∧ v = u)).
  { intros j. unfold seated. destruct (decide (j = k)) as [->|Hne]; [rewrite lookup_alter_eq, Hk|rewrite lookup_alter_ne by done; naive_solver].
    cbn. split.
    - intros (? & [= <-] & Hv). cbn in Hv. unfold users in Hv. rewrite fmap_app, elem_of_app in Hv. destruct Hv as [Hv|Hv%list_elem_of_singleton]; [left; eauto|right; split; congruence].
    - intros Hor. eexists. split; [done|]. cbn. unfold users. rewrite fmap_app, elem_of_app.
      destruct Hor as [(? & [= <-] & Hv)|[_ ->]]; [by left|right; subst u; by apply list_elem_of_singleton]. }
  setoid_rewrite Hs. destruct (decide (u = v)) as [<-|Hne].
  - assert (U !! u = None) as ->. { destruct (U !! u) as [l|] eqn:E; [|done]. apply HU in E as (j & _ & Hj). by destruct (Hu j). }
    cbn. split; [intros [= <-]; eauto|]. intros (j & -> & [Hj|[-> _]]); [by destruct (Hu j)|done].
  - rewrite (HU v ids). naive_solver.
Qed.

(** One stream is a list of one. *)
Lemma create_one_stream e u at_ : create_streams e u at_ 1 = ('(e', k) ← create_stream e u at_; Ok (e', [k])).
Proof. unfold create_streams. change (seq 0 (N.to_nat 1)) with [0]. cbn [fold_outcome]. unfold create_one. by destruct (create_stream e u at_) as [[]| | |]. Qed.

Lemma open_one L u at_ L' k : open_lines L u at_ 1 = Ok (L', [k]) →
  k = next_id L ∧ by_id L' = <[k := mkLine u false at_ []]> (by_id L) ∧ owned_by L' = push_at u k (owned_by L) ∧ next_id L' = (next_id L + 1)%N.
Proof.
  unfold open_lines. destruct (u32_max <? next_id L + 1)%N; [done|]. change (seq 0 (N.to_nat 1)) with [0]. cbn [fmap list_fmap foldl].
  intros [= <- Hk]. rewrite Hk. split_and!; try done. by rewrite <- Hk, N.add_0_r.
Qed.

Lemma set_owner_same u s : owner_id s = u → ∀ t, set_owner u (set_tree t s) = set_tree t s.
Proof. intros <- t. by destruct s. Qed.

Lemma alter_owner_same u k L ln : by_id L !! k = Some ln → ln_owner ln = u → edit (alter (line_with_owner u) k) L = L.
Proof.
  intros Hk Ho. destruct L as [B O n]. unfold edit. cbn in *. f_equal. apply map_eq. intros j. rewrite lookup_alter. case_decide; [|done].
  subst j. rewrite Hk. cbn. f_equal. subst u. by destruct ln.
Qed.

(** The engine and the lines after [u] joined line [k]. *)
Lemma sim_join c S U L k s ln t u rs at_ : shows S (by_id L) → indexed U (by_id L) → (∀ j, ¬ seated (by_id L) j u) →
  S !! k = Some s → by_id L !! k = Some ln → represents k s ln → chain_of t (ln_chain ln ++ [mkRung u rs at_]) →
  lines_wf (join_line L k u rs at_) →
  sim c (mkEngine (<[k := set_bottom (Some u) (set_tree t s)]> S) (push_at u k U) (owned_by L) (next_id L) c) (join_line L k u rs at_).
Proof.
  intros HS HU Hno Hk Hln [] Hc Hw. split; cbn; try done.
  - eapply shows_alter; [done|exact Hln|]. split; try done. cbn. by rewrite last_snoc.
  - by eapply indexed_join.
Qed.

Section enrolment.
Context (c : StreamlineConfig) (e : StreamlineEngine) (L : lines) (Hsim : sim c e L).
Context (u : Uuid) (at_ : Z) (Hu : u ≠ nil_uuid) (Hnew : ∀ j, ¬ seated (by_id L) j u).

Lemma engine_eta : e = mkEngine (streams e) (user_streams e) (owned_by L) (next_id L) c.
Proof using Hsim. destruct Hsim as [_ _ _ Ho Hn Hc]. destruct e. cbn in *. by subst. Qed.

(** The first member of all. *)
Lemma found_agrees : map_Forall (λ _ ln, ln_chain ln = []) (by_id L) → agrees c (bootstrap_first_member e u at_) (found L u at_).
Proof using All.
  intros Hempty. unfold bootstrap_first_member, found. pose proof (sim_wf _ _ _ Hsim) as Hw.
  destruct (by_id L !! 1%N) as [ln|] eqn:H1.
  - destruct (shows_Some _ _ _ _ (sim_streams _ _ _ Hsim) H1) as (s & Hs & Hrep). rewrite Hs. cbn [mbind outcome_bind].
    rewrite !bool_decide_eq_true_2 by eauto. cbn [mbind outcome_bind streams with_owners]. rewrite Hs. cbn [expect mbind outcome_bind].
    pose proof (Hempty _ _ H1) as Hch. cbn in Hch. pose proof (rep_chain _ _ _ Hrep) as Hc. rewrite Hch in Hc.
    destruct (chain_add_root _ u at_ Hc Hu) as (t & idx & -> & Ht). cbn [tree_expect mbind outcome_bind].
    split; [|done]. rewrite engine_eta. unfold with_users, with_streams, with_owners. cbn [streams user_streams stream_owners next_stream_id config].
    assert (shows (<[1%N := set_owner u s]> (streams e)) (alter (line_with_owner u) 1%N (by_id L))) as HS.
    { eapply shows_alter; [apply Hsim|exact H1|]. by apply rep_set_owner. }
    assert (Hseat : ∀ k v, seated (alter (line_with_owner u) 1%N (by_id L)) k v ↔ seated (by_id L) k v).
    { intros k v. unfold seated. rewrite lookup_alter. case_decide; [subst k; rewrite H1; cbn; naive_solver|done]. }
    pose proof (sim_join c _ (user_streams e) (edit (alter (line_with_owner u) 1%N) (edit_owned (push_at u 1%N) L)) 1%N (set_owner u s) (line_with_owner u ln) t u None at_ HS) as Hj.
    cbn [by_id owned_by next_id edit edit_owned] in Hj. rewrite insert_insert_eq in Hj. apply Hj; clear Hj.
    + eapply indexed_same; [exact Hseat|apply Hsim].
    + intros j. by rewrite Hseat.
    + apply lookup_insert_eq.
    + by rewrite lookup_alter_eq, H1.
    + by apply rep_set_owner.
    + cbn. by rewrite Hch.
    + by apply (found_wf L ln).
  - rewrite (proj2 (shows_None _ _ 1%N (sim_streams _ _ _ Hsim)) H1). rewrite !bool_decide_eq_false_2 by (by intros []).
    pose proof (create_agrees c e L u at_ 1 Hsim Hu) as Hcr. rewrite create_one_stream in Hcr.
    destruct (create_stream e u at_) as [[e' k]| | |], (open_lines L u at_ 1) as [[L' ids]| | |] eqn:Hop; try done. cbn [mbind outcome_bind] in Hcr.
    destruct Hcr as [Hsim' <-]. cbn [mbind outcome_bind]. change (default 0%N (head [k])) with k. destruct (open_one L u at_ L' k Hop) as (Hk & Hby & _ & _).
    assert (Hln : by_id L' !! k = Some (mkLine u false at_ [])) by (rewrite Hby; apply lookup_insert_eq).
    destruct (shows_Some _ _ _ _ (sim_streams _ _ _ Hsim') Hln) as (s & Hs & Hrep). rewrite Hs. cbn [expect mbind outcome_bind].
    destruct (chain_add_root (tree s) u at_ (rep_chain _ _ _ Hrep) Hu) as (t & idx & -> & Ht). cbn [tree_expect mbind outcome_bind]. split; [|done].
    rewrite (set_owner_same u _ (rep_owner _ _ _ Hrep)), (alter_owner_same u k L' _ Hln eq_refl).
    assert (Hno : ∀ j, ¬ seated (by_id L') j u).
    { intros j (l & Hl & Hin). rewrite Hby, lookup_insert in Hl. case_decide; [injection Hl as <-; by apply elem_of_nil in Hin|]. apply (Hnew j). by exists l. }
    assert (lines_wf (join_line L' k u None at_)) as Hw'.
    { eapply join_wf; [apply Hsim'|exact Hln|by apply chain_wf_single|cbn; lia|done|]. pose proof (lw_next L Hw). lia. }
    pose proof (sim_join c _ _ L' k s _ t u None at_ (sim_streams _ _ _ Hsim') (sim_users _ _ _ Hsim') Hno Hs Hln Hrep Ht Hw') as Hj.
    unfold with_users, with_streams. by rewrite (sim_owners _ _ _ Hsim'), (sim_next _ _ _ Hsim'), (sim_config _ _ _ Hsim').
Qed.

(** The member appended to the line [k] its sponsor owns. *)
Lemma append_agrees sponsor k ln : by_id L !! k = Some ln → ln_owner ln = sponsor → sponsor ≠ nil_uuid →
  agrees c
    (stream ← expect (streams e !! k);
     append e stream u sponsor at_ (λ '(t, position),
       let e := with_streams <[k := set_bottom (Some u) (set_tree t stream)]> e in
       Ok (with_users (push_at u k) e, inl (mkAdded k position))))
    (if bool_decide (ln_chain ln = []) then Ok (join_line L k u None at_, inl (mkAdded k 0))
     else if negb (bool_decide (sponsor ∈ users (ln_chain ln))) then Ok (L, inr (TreeFailed (TreeTypes.SponsorNotFound sponsor)))
     else if (u32_max <? N.of_nat (length (ln_chain ln)))%N then Panic
     else Ok (join_line L k u (Some sponsor) at_, inl (mkAdded k (N.of_nat (length (ln_chain ln)))))).
Proof using All.
  intros Hk Ho Hsn. pose proof (sim_wf _ _ _ Hsim) as Hw. destruct (shows_Some _ _ _ _ (sim_streams _ _ _ Hsim) Hk) as (s & Hs & Hrep).
  rewrite Hs. cbn [expect mbind outcome_bind]. unfold append. rewrite (rep_bottom _ _ _ Hrep).
  pose proof (rep_chain _ _ _ Hrep) as Hc.
  assert (Hjoin : ∀ t rs, chain_of t (ln_chain ln ++ [mkRung u rs at_]) → lines_wf (join_line L k u rs at_) →
    sim c (with_users (push_at u k) (with_streams <[k := set_bottom (Some u) (set_tree t s)]> e)) (join_line L k u rs at_)).
  { intros t rs Ht Hw'. pose proof (sim_join c _ _ L k s _ t u rs at_ (sim_streams _ _ _ Hsim) (sim_users _ _ _ Hsim) Hnew Hs Hk Hrep Ht Hw') as Hj.
    unfold with_users, with_streams. by rewrite (sim_owners _ _ _ Hsim), (sim_next _ _ _ Hsim), (sim_config _ _ _ Hsim). }
  destruct (last (ln_chain ln)) as [b|] eqn:Hb.
  - apply last_Some in Hb as [l Hl]. rewrite bool_decide_eq_false_2 by (rewrite Hl; by intros [_ ?]%app_nil).
    cbn [fmap option_fmap option_map]. assert (u ∉ users (ln_chain ln)) as Hun by (intros Hin; apply (Hnew k); by exists ln).
    rewrite Hl in Hc, Hun. pose proof (chain_add_bottom (tree s) l b u sponsor at_ Hc Hu Hun) as Ha.
    assert (Hlen : length (ln_chain ln) = S (length l)) by (rewrite Hl, length_app; cbn; lia).
    rewrite Hlen. rewrite <- Hl in Ha.
    destruct (Unilevel.add_node (tree s) u (r_user b) sponsor at_) as [[t idx]|err| |]; cbn [try_tree].
    + destruct Ha as (Hin & Hd & Ht). rewrite (bool_decide_eq_true_2 (sponsor ∈ _)) by done. cbn [negb].
      destruct (N.ltb_spec u32_max (N.of_nat (S (length l)))); [lia|].
      assert (((ln_chain ln) ++ [mkRung u (Some sponsor) at_]) !! S (length l) = Some (mkRung u (Some sponsor) at_)) as Hlast by (by apply list_lookup_middle).
      destruct (chain_get_parent t _ Ht (S (length l)) _ Hlast) as (o & Hpar & _ & Hp).
      destruct (Hp b) as (np & -> & _ & Hdep); [done| |].
      { rewrite Hl, <- app_assoc. apply list_lookup_middle. lia. }
      cbn [r_user] in Hpar. rewrite Hpar. cbn [tree_expect mbind outcome_bind expect]. split; [|rewrite Hdep; do 2 f_equal; lia].
      apply Hjoin; [done|]. eapply join_wf; [done|exact Hk|apply Ht|rewrite Hlen; lia|done|]. intros _ He. by rewrite He in Hlen.
    + destruct Ha as [Hin ->]. rewrite (bool_decide_eq_false_2 (sponsor ∈ _)) by done. by split.
    + destruct Ha as [Hin Hd]. rewrite (bool_decide_eq_true_2 (sponsor ∈ _)) by done. cbn [negb].
      destruct (N.ltb_spec u32_max (N.of_nat (S (length l)))); [done|lia].
    + done.
  - apply last_None in Hb. rewrite Hb in *. rewrite bool_decide_eq_true_2 by done. cbn [fmap option_fmap option_map].
    destruct (chain_add_root (tree s) u at_ Hc Hu) as (t & idx & -> & Ht). cbn [tree_expect mbind outcome_bind]. split; [|done].
    apply Hjoin; [done|]. eapply join_wf; [done|exact Hk|rewrite Hb; by apply chain_wf_single|rewrite Hb; cbn; lia|done|].
    intros ->. pose proof (lw_first L Hw ln Hk) as Hf. unfold top in Hf. rewrite Hb in Hf. cbn in Hf. congruence.
Qed.
End enrolment.

Lemma nobody_indexed U B : indexed U B → bool_decide (U = ∅) = bool_decide (map_Forall (λ _ ln, ln_chain ln = []) B).
Proof.
  intros HU. apply bool_decide_ext. split.
  - intros -> k ln Hk. destruct (ln_chain ln) as [|r l] eqn:E; [done|]. exfalso.
    assert (@None (list N) = Some [k]) as [=]. apply (HU (r_user r)). exists k. split; [done|]. exists ln. split; [done|]. rewrite E. left.
  - intros Hf. apply map_eq. intros u. rewrite lookup_empty. destruct (U !! u) as [ids|] eqn:E; [|done]. exfalso.
    apply HU in E as (k & _ & ln & Hln & Hin). specialize (Hf k ln Hln). cbn in Hf. rewrite Hf in Hin. by apply elem_of_nil in Hin.
Qed.

Lemma add_agrees c e L u sponsor at_ choice : sim c e L → agrees c (add_member e u sponsor at_ choice) (spec_add c L u sponsor at_ choice).
Proof.
  intros Hsim. pose proof (sim_wf _ _ _ Hsim) as Hw. unfold add_member, spec_add. destruct (is_nil u) eqn:Hnil; [by apply sim_refused|].
  rewrite (member_known c e L Hsim). case_bool_decide as Hseat; [by apply sim_refused|].
  assert (Hu : u ≠ nil_uuid) by (intros ->; done).
  assert (Hnew : ∀ j, ¬ seated (by_id L) j u) by (apply (seat_of_None L u (lw_chains L Hw)), eq_None_not_Some, Hseat).
  rewrite (nobody_indexed _ _ (sim_users _ _ _ Hsim)). case_bool_decide as Hempty; [by apply found_agrees|].
  rewrite (absent_member c e L Hsim), (absent_owner c e L Hsim). destruct (_ && _); [by apply sim_refused|].
  rewrite (placement_agrees c e L Hsim). destruct (target_line c L sponsor choice) as [k|err] eqn:Ht; [|by apply sim_refused].
  destruct (target_owned c e L Hsim _ _ _ Ht) as (ln & Hln & Ho & Hsn). rewrite Hln. by apply append_agrees.
Qed.

(** * Stream allowances

    [update_stream_allowance] implements [spec_allow]: the loops that freeze,
    destroy and unfreeze streams edit every listed line once. *)

Lemma alter_at {V} (f : V → V) (m : gmap N V) k x : m !! k = Some x → alter f k m = <[k := f x]> m.
Proof. intros Hk. apply map_eq. intros j. rewrite lookup_alter, lookup_insert. case_decide; [subst j; by rewrite Hk|done]. Qed.

Definition refreeze (b : bool) (ids : list N) (e : StreamlineEngine) : StreamlineEngine :=
  with_streams (λ m, foldl (λ m k, alter (set_frozen b) k m) m ids) e.

Lemma refreeze_nil b e : refreeze b [] e = e.
Proof. by destruct e. Qed.

Lemma freeze_loop ids : ∀ e done, (∀ k, k ∈ ids → is_Some (streams e !! k)) → foldl freeze_one (e, done) ids = (refreeze true ids e, done ++ ids).
Proof.
  induction ids as [|k ids IH]; intros e done Hin; [by rewrite refreeze_nil, app_nil_r|]. cbn [foldl]. unfold freeze_one at 2.
  destruct (Hin k ltac:(left)) as [s Hs]. rewrite Hs, IH.
  - rewrite <- app_assoc. f_equal. unfold refreeze, with_streams. cbn. by rewrite (alter_at _ _ k s Hs).
  - intros j Hj. cbn. rewrite lookup_insert. case_decide; [eauto|]. apply Hin. by right.
Qed.

Lemma unfreeze_loop ids : ∀ e done rem, (∀ k, k ∈ ids → is_Some (streams e !! k)) →
  foldl unfreeze_one (e, done, rem) ids =
  (refreeze false (take (N.to_nat rem) ids) e, done ++ take (N.to_nat rem) ids, (rem - N.of_nat (length (take (N.to_nat rem) ids)))%N).
Proof.
  induction ids as [|k ids IH]; intros e done rem Hin.
  - rewrite take_nil, refreeze_nil, app_nil_r. cbn. by rewrite N.sub_0_r.
  - cbn [foldl]. unfold unfreeze_one at 2. destruct (N.eqb_spec rem 0) as [->|Hne].
    + rewrite IH by (intros j Hj; apply Hin; by right). cbn. done.
    + destruct (Hin k ltac:(left)) as [s Hs]. rewrite Hs, IH.
      * replace (N.to_nat rem) with (S (N.to_nat (rem - 1))) by lia. cbn [take length]. rewrite <- app_assoc. f_equal; [|lia]. f_equal.
        unfold refreeze, with_streams. cbn. by rewrite (alter_at _ _ k s Hs).
      * intros j Hj. cbn. rewrite lookup_insert. case_decide; [eauto|]. apply Hin. by right.
Qed.

Lemma refreeze_sim c e L b ids : sim c e L → sim c (refreeze b ids e) (freeze_lines b ids L).
Proof.
  intros [Hw HS HU Ho Hn Hc]. split; cbn; try done.
  - by apply freeze_lines_wf.
  - intros k. rewrite !foldl_alter_lookup by done. specialize (HS k). case_decide; [|done]. inversion HS; [|constructor]. constructor.
    by apply rep_set_frozen.
  - eapply indexed_same; [|exact HU]. intros k v. unfold seated. rewrite foldl_alter_lookup by done. case_decide; [|done].
    destruct (by_id L !! k) as [ln|]; cbn; naive_solver.
Qed.

(** ** Destroying *)
Record destroyed (u : Uuid) (ids : list N) (e : StreamlineEngine) (B : gmap N line) (e' : StreamlineEngine) : Prop := {
  ds_shows : shows (streams e') (foldl (λ m k, delete k m) B ids);
  ds_index : indexed (user_streams e') (foldl (λ m k, delete k m) B ids);
  ds_owners : ∀ l, stream_owners e !! u = Some l → stream_owners e' = <[u := filter (λ k, k ∉ ids) l]> (stream_owners e);
  ds_next : next_stream_id e' = next_stream_id e;
  ds_config : config e' = config e;
}.

Lemma destroy_loop u ids : ∀ e B done, shows (streams e) B → indexed (user_streams e) B → chains_wf B → NoDup ids →
  (∀ k, k ∈ ids → is_Some (B !! k)) → ∃ e', foldl (destroy_one u) (e, done) ids = (e', done ++ ids) ∧ destroyed u ids e B e'.
Proof.
  induction ids as [|k ids IH]; intros e B done HS HU Hc Hnd Hin.
  { exists e. rewrite app_nil_r. split; [done|]. split; try done. intros l Hl. rewrite filter_all_true, insert_id; try done.
    apply Forall_forall. by intros x _ ?%elem_of_nil. }
  apply NoDup_cons in Hnd as [Hk Hnd]. destruct (Hin k ltac:(left)) as [ln Hln]. destruct (shows_Some _ _ _ _ HS Hln) as (s & Hs & Hrep).
  cbn [foldl]. unfold destroy_one at 2. rewrite Hs.
  set (e1 := with_owners _ _). destruct (IH e1 (delete k B) (done ++ [k])) as (e' & He' & Hd).
  - by apply shows_delete.
  - eapply indexed_destroy; [done|done|exact Hln|apply user_ids_nodup|]. intros v. by rewrite (rep_users _ _ _ Hrep).
  - eapply chains_wf_sub; [|exact Hc]. intros j ln' Hj. right. exists ln'. split; [|done]. by apply lookup_delete_Some in Hj as [_ ?].
  - done.
  - intros j Hj. rewrite lookup_delete_ne by (intros ->; done). apply Hin. by right.
  - exists e'. rewrite He', <- app_assoc. split; [done|]. destruct Hd as [H1 H2 H3 H4 H5]. split; [done|done| |done|done].
    intros l Hl. assert (stream_owners e1 = <[u := filter (λ x, x ≠ k) l]> (stream_owners e)) as He1 by (subst e1; cbn; by rewrite Hl).
    rewrite (H3 (filter (λ x, x ≠ k) l)) by (rewrite He1; apply lookup_insert_eq). rewrite He1, insert_insert_eq. f_equal.
    rewrite list_filter_filter. apply list_filter_iff. intros x. rewrite elem_of_cons. naive_solver.
Qed.

(** ** The owner's streams *)
Section owner.
Context (c : StreamlineConfig) (e : StreamlineEngine) (L : lines) (Hsim : sim c e L).
Context (u : Uuid) (ids : list N) (Hids : owned_by L !! u = Some ids).

Lemma owned_sorted_table l : owned_sorted e l = own_table L l.
Proof using Hsim.
  unfold owned_sorted, own_table. f_equal. induction l as [|k l IH]; [done|]. cbn. rewrite IH.
  pose proof (sim_streams _ _ _ Hsim k) as H. inversion H as [s ln Hr Hs Hl|Hs Hl]; cbn; [|done].
  by rewrite (rep_id _ _ _ Hr), (rep_created _ _ _ Hr), (rep_frozen _ _ _ Hr).
Qed.

Lemma owned_live k : k ∈ ids → owns L u k ∧ ∃ ln, by_id L !! k = Some ln.
Proof using Hsim Hids.
  intros Hk. assert (owns L u k) as Ho by (by exists ids). split; [done|].
  destruct (proj1 (lw_owner L (sim_wf _ _ _ Hsim) u k) Ho) as (_ & ln & Hln & _). eauto.
Qed.

Lemma table_ids l : (∀ k, k ∈ l → ∃ ln, by_id L !! k = Some ln) →
  (omap (λ k, (λ ln, (k, ln_created ln, ln_frozen ln)) <$> by_id L !! k) l).*1.*1 = l.
Proof using. induction l as [|k l IH]; intros Hl; [done|]. destruct (Hl k ltac:(left)) as [ln Hln]. cbn. rewrite Hln. cbn. f_equal. apply IH. intros j Hj. apply Hl. by right. Qed.

Lemma own_table_perm : (own_table L ids).*1.*1 ≡ₚ ids.
Proof using Hsim Hids. unfold own_table. rewrite sort_by_perm, table_ids; [done|]. intros k Hk. by apply owned_live. Qed.

(** The entries with the flag [b]. *)
Definition flagged (b : bool) : list N := (filter (λ x : entry, x.2 = b) (own_table L ids)).*1.*1.

Lemma flagged_sub b : sublist (flagged b) (own_table L ids).*1.*1.
Proof using. unfold flagged. do 2 apply fmap_sublist. apply sublist_filter. Qed.

Lemma flagged_in b k : k ∈ flagged b → k ∈ ids.
Proof using Hsim Hids. intros Hk. rewrite <- own_table_perm. eapply elem_of_sublist; [exact Hk|apply flagged_sub]. Qed.

Lemma flagged_nodup b : NoDup (flagged b).
Proof using Hsim Hids.
  eapply sublist_NoDup; [|apply flagged_sub]. rewrite own_table_perm. apply (lw_owned L (sim_wf _ _ _ Hsim) u ids Hids).
Qed.

Lemma flagged_length b : (N.of_nat (length (flagged b)) ≤ u32_max)%N.
Proof using Hsim Hids.
  pose proof (sublist_length _ _ (flagged_sub b)) as H1. pose proof (Permutation_length own_table_perm) as H2.
  pose proof (owned_length c e L Hsim u ids Hids). lia.
Qed.
End owner.

(** The newest [ex] of the owner's streams destroyed. *)
Lemma destroy_sim c e L u ids ex : sim c e L → owned_by L !! u = Some ids → NoDup ex → (∀ k, k ∈ ex → owns L u k ∧ ∃ ln, by_id L !! k = Some ln) →
  ∃ e', foldl (destroy_one u) (e, []) ex = (e', ex) ∧ sim c (with_owners (drop_empty_owner u) e') (close_lines u ex L).
Proof.
  intros Hsim Hids Hnd Hex. pose proof (sim_wf _ _ _ Hsim) as Hw. destruct (destroy_loop u ex e (by_id L) []) as (e' & He' & [H1 H2 H3 H4 H5]).
  { apply Hsim. } { apply Hsim. } { apply (lw_chains L Hw). } { done. } { intros k Hk. destruct (Hex k Hk) as (_ & ln & Hln). eauto. }
  exists e'. split; [done|]. split; cbn; [|done|done| |by rewrite H4, (sim_next _ _ _ Hsim)|by rewrite H5, (sim_config _ _ _ Hsim)].
  - apply close_lines_wf; [done|]. intros k Hk. by apply Hex.
  - rewrite (H3 ids) by (by rewrite (sim_owners _ _ _ Hsim)). rewrite Hids, (sim_owners _ _ _ Hsim). change (default [] (Some ids)) with ids.
    unfold drop_empty_owner. rewrite lookup_insert_eq. destruct (decide (filter (λ k, k ∉ ex) ids = [])) as [He|He].
    + rewrite !bool_decide_eq_true_2 by congruence. by rewrite delete_insert_eq.
    + rewrite !bool_decide_eq_false_2 by congruence. done.
Qed.

Lemma allow_agrees c e L u total at_ : sim c e L → agrees c (update_stream_allowance e u total at_) (spec_allow c L u total at_).
Proof.
  intros Hsim. unfold update_stream_allowance, spec_allow. rewrite (sim_owners _ _ _ Hsim). destruct (owned_by L !! u) as [ids|] eqn:Hids; [|by apply sim_refused].
  rewrite (owned_sorted_table c e L Hsim). fold (flagged L ids false). fold (flagged L ids true).
  assert (Hlive : ∀ b k, k ∈ flagged L ids b → owns L u k ∧ ∃ ln, by_id L !! k = Some ln).
  { intros b k Hk. eapply (owned_live c e L Hsim u ids Hids), (flagged_in c e L Hsim u ids Hids b k Hk). }
  assert (Hdom : ∀ b k, k ∈ flagged L ids b → is_Some (streams e !! k)).
  { intros b k (_ & ln & Hln)%Hlive. destruct (shows_Some _ _ _ _ (sim_streams _ _ _ Hsim) Hln) as (s & Hs & _). eauto. }
  assert (Hcount : len_u32 (filter (λ x : entry, x.2 = false) (own_table L ids)) = N.of_nat (length (flagged L ids false))).
  { pose proof (flagged_length c e L Hsim u ids Hids false) as Hlen. unfold flagged in *. rewrite !length_fmap in *. by apply len_u32_small. }
  rewrite Hcount. set (n := N.of_nat (length (flagged L ids false))). destruct (N.ltb_spec total n) as [Hlt|Hge].
  - set (excess := take (N.to_nat (n - total)) (reverse (flagged L ids false))). rewrite (sim_config _ _ _ Hsim).
    assert (Hex : ∀ k, k ∈ excess → k ∈ flagged L ids false).
    { intros k (i & Hi & _)%elem_of_take. apply list_elem_of_lookup_2 in Hi. by rewrite elem_of_reverse in Hi. }
    destruct (freeze_on_demotion c).
    + rewrite freeze_loop by (intros k Hk; by eapply Hdom, Hex). split; [by apply refreeze_sim|done].
    + destruct (destroy_sim c e L u ids excess Hsim Hids) as (e' & -> & Hsim'); [| |by split].
      * eapply sublist_NoDup; [|apply sublist_take]. rewrite reverse_Permutation. apply (flagged_nodup c e L Hsim u ids Hids).
      * intros k Hk. by eapply Hlive, Hex.
  - assert (Hnil : u ≠ nil_uuid). { apply (known_not_nil c e L Hsim). rewrite Hids. by rewrite andb_comm. }
    pose proof (refreeze_sim c e L false (take (N.to_nat (total - n)) (flagged L ids true)) Hsim) as Hre.
    pose proof (create_agrees c _ _ u at_ (total - n - N.of_nat (length (take (N.to_nat (total - n)) (flagged L ids true)))) Hre Hnil) as Hcr.
    destruct (N.ltb_spec n total) as [Hlt|Hle].
    + rewrite unfreeze_loop by (intros k Hk; by eapply Hdom). cbn [app].
      destruct (create_streams _ u at_ _) as [[e' new]| | |], (open_lines _ u at_ _) as [[L' new']| | |]; try done.
      destruct Hcr as [Hs <-]. by split.
    + replace (total - n)%N with 0%N in * by lia. cbn [N.to_nat take length] in *. change (N.to_nat 0) with 0 in *. cbn [take length] in *.
      rewrite refreeze_nil in Hcr. unfold create_streams in Hcr. cbn [N.sub N.of_nat] in *. cbn in Hcr.
      destruct (open_lines _ u at_ _) as [[L' new']| | |]; try done. destruct Hcr as [Hs <-]. by split.
Qed.

(** * Removing a member

    [remove_member] implements [spec_remove]: the chain below the member is lifted
    out and hung under the member's parent, the index loses the member alone, and
    each stream the member owned passes to the member at its top. *)

(** The engine with stream [k] and the index replaced. *)
Definition rewired (k : N) (s : Stream) (f : gmap Uuid (list N) → gmap Uuid (list N)) (e : StreamlineEngine) : StreamlineEngine :=
  with_users f (with_streams <[k := s]> e).

Lemma rewired_rewired k s s' f g e : rewired k s' g (rewired k s f e) = rewired k s' (g ∘ f) e.
Proof. unfold rewired, with_users, with_streams. cbn. by rewrite insert_insert_eq. Qed.

Lemma rewired_same k s e : streams e !! k = Some s → rewired k s (λ m, m) e = e.
Proof. intros H. unfold rewired, with_users, with_streams. cbn. rewrite insert_id by done. by destruct e. Qed.

Lemma rewired_at k s f e : streams (rewired k s f e) !! k = Some s.
Proof. apply lookup_insert_eq. Qed.

Lemma set_tree_same s : set_tree (tree s) s = s.
Proof. by destruct s. Qed.

(** ** Lifting out *)
Lemma detach_ok k l2 : ∀ e s l1, streams e !! k = Some s → chain_of (tree s) (l1 ++ l2) →
  ∃ t, chain_of t l1 ∧ detach_all e k s (rung_link <$> reverse l2) =
    Ok (rewired k (set_tree t s) (λ m, foldl (retain_other k) m (users (reverse l2))) e, inl (set_tree t s)).
Proof.
  induction l2 as [|r l2 IH] using rev_ind; intros e s l1 Hs Hc.
  - rewrite app_nil_r in Hc. exists (tree s). split; [done|]. cbn. by rewrite set_tree_same, rewired_same.
  - rewrite app_assoc in Hc. rewrite reverse_snoc. cbn [fmap list_fmap users]. unfold rung_link at 1. cbn [detach_all].
    destruct (chain_remove_bottom _ _ _ Hc) as (t & moved & -> & Ht). cbn [try_tree]. fold (rewired k (set_tree t s) (λ m, retain_other k m (r_user r)) e).
    destruct (IH (rewired k (set_tree t s) (λ m, retain_other k m (r_user r)) e) (set_tree t s) l1) as (t' & Ht' & Hrun); [apply rewired_at|done|].
    exists t'. split; [done|]. by rewrite Hrun, rewired_rewired.
Qed.

(** ** Hanging back *)
Definition hung_stream (t : Unilevel.UnilevelTree) (l : list rung) (s : Stream) : Stream :=
  match last l with Some r => set_bottom (Some (r_user r)) (set_tree t s) | None => set_tree t s end.

Lemma attach_ok k u l2 : ∀ e s l1, streams e !! k = Some s → chain_of (tree s) l1 → hangs u l1 l2 →
  (N.of_nat (length l1 + length l2) ≤ u32_max + 1)%N →
  ∃ t, chain_of t (l1 ++ rehang u (r_user <$> last l1) l2) ∧ attach_all e k s u (r_user <$> last l1) (rung_link <$> l2) =
    Ok (rewired k (hung_stream t l2 s) (λ m, foldl (λ m d, push_at d k m) m (users l2)) e, inl (hung_stream t l2 s)).
Proof.
  induction l2 as [|r l2 IH]; intros e s l1 Hs Hc Hh Hlen.
  - exists (tree s). rewrite app_nil_r. split; [done|]. cbn. by rewrite set_tree_same, rewired_same.
  - cbn [fmap list_fmap]. unfold rung_link at 1. cbn [attach_all]. destruct (hung_fresh u l1 r l2 Hh) as [Hf Hn].
    assert (∃ t idx, match r_user <$> last l1 with
        | Some p => Unilevel.add_node (tree s) (r_user r) p (if bool_decide (default (r_user r) (r_sponsor r) = u) then default (r_user r) (r_user <$> last l1) else default (r_user r) (r_sponsor r)) (r_at r)
        | None => Unilevel.add_root (tree s) (r_user r) (r_at r) end = Ok (t, idx) ∧ chain_of t (l1 ++ [rehung u (r_user <$> last l1) r])) as (t & idx & Hadd & Ht).
    { destruct (last l1) as [b|] eqn:Hb.
      - destruct (rehung_sponsor u l1 r l2 Hh (r_user b)) as (sp & Hsp & Hin & Hspe); [by rewrite Hb|]. rewrite Hb in Hsp. pose proof Hb as Hb'.
        apply last_Some in Hb as [l Hl]. cbn [fmap option_fmap option_map default]. change (Datatypes.id (r_user b)) with (r_user b).
        assert (sp = if bool_decide (default (r_user r) (r_sponsor r) = u) then r_user b else default (r_user r) (r_sponsor r)) as <-
          by (rewrite Hspe; by case_decide; case_bool_decide).
        rewrite Hl in Hc, Hf, Hin. pose proof (chain_add_bottom (tree s) l b (r_user r) sp (r_at r) Hc Hn Hf) as Ha.
        assert (N.of_nat (length l) < u32_max)%N as Hd by (rewrite Hl, length_app in Hlen; cbn in Hlen; lia).
        destruct (Unilevel.add_node _ _ _ _ _) as [[t idx]| | |]; [|naive_solver|naive_solver lia|done]. exists t, idx. split; [done|].
        destruct Ha as (_ & _ & Ht). rewrite Hl. unfold rehung in *. cbn [fmap option_fmap option_map r_sponsor] in *. by rewrite Hsp.
      - apply last_None in Hb. subst l1. cbn. by apply chain_add_root. }
    rewrite Hadd. cbn [try_tree]. set (s' := match rung_link <$> l2 with [] => _ | _ => _ end).
    assert (Hs' : s' = match l2 with [] => set_bottom (Some (r_user r)) (set_tree t s) | _ => set_tree t s end) by (by destruct l2).
    fold (rewired k s' (push_at (r_user r) k) e).
    destruct (IH (rewired k s' (push_at (r_user r) k) e) s' (l1 ++ [rehung u (r_user <$> last l1) r])) as (t' & Ht' & Hrun).
    + apply rewired_at.
    + rewrite Hs'. by destruct l2.
    + by apply hangs_step.
    + rewrite length_app. cbn in *. lia.
    + exists t'. rewrite last_snoc in Ht', Hrun. cbn [fmap option_fmap option_map r_user rehung] in Ht', Hrun.
      split; [by rewrite rehang_cons, cons_middle, app_assoc|]. rewrite Hrun, rewired_rewired.
      assert (hung_stream t' l2 s' = hung_stream t' (r :: l2) s) as ->; [|done].
      rewrite Hs'. unfold hung_stream. destruct l2 as [|x l2]; [done|]. rewrite last_cons_cons. destruct (last (x :: l2)) eqn:E; [done|by apply last_None in E].
Qed.

(** ** Everything but the invariant of the lines *)
Record follows (c : StreamlineConfig) (e : StreamlineEngine) (L : lines) : Prop := {
  fo_streams : shows (streams e) (by_id L);
  fo_users : indexed (user_streams e) (by_id L);
  fo_owners : stream_owners e = owned_by L;
  fo_next : next_stream_id e = next_id L;
  fo_config : config e = c;
}.

Lemma follows_sim c e L : lines_wf L → follows c e L → sim c e L.
Proof. by intros Hw []. Qed.

Definition owner_at (u : Uuid) (L : lines) (k : N) : Prop := ln_owner <$> by_id L !! k = Some u.
#[export] Instance owner_at_dec u L k : Decision (owner_at u L k).
Proof. unfold owner_at. apply _. Defined.

Definition pass (u : Uuid) (L : lines) (k : N) : lines := if decide (owner_at u L k) then hand_over L k else L.

Lemma transfer_follows c e L k s u : follows c e L → streams e !! k = Some s → ∃ e', transfer e k s u = Ok e' ∧ follows c e' (pass u L k).
Proof.
  intros [HS HU Ho Hn Hc] Hs. destruct (shows_back _ _ _ _ HS Hs) as (ln & Hln & Hrep). unfold transfer, pass.
  assert (Hat : owner_at u L k ↔ ln_owner ln = u) by (unfold owner_at; rewrite Hln; cbn; naive_solver).
  rewrite (rep_owner _ _ _ Hrep). destruct (decide (owner_at u L k)) as [He|He].
  2: { rewrite bool_decide_eq_false_2 by (by rewrite <- Hat). by exists e. }
  rewrite bool_decide_eq_true_2 by (by apply Hat). pose proof (rep_chain _ _ _ Hrep) as Hch.
  assert (Hpres : ∀ v, r_user <$> head (ln_chain ln) = Some v → v ∈ tree_users s).
  { intros v (r & Hr & ->)%fmap_Some. rewrite (rep_users _ _ _ Hrep). apply list_elem_of_fmap_2. by apply head_Some_elem_of. }
  rewrite (find_top_chain _ _ Hch); [|intros v Hv; by rewrite (rep_users _ _ _ Hrep) in Hv|exact Hpres].
  cbn [mbind outcome_bind]. unfold hand_over. rewrite Hln.
  assert (Hset : ∀ v, shows (<[k := set_owner v s]> (streams e)) (<[k := line_with_owner v ln]> (by_id L)) ∧
    indexed (user_streams e) (<[k := line_with_owner v ln]> (by_id L))).
  { intros v. split; [apply shows_insert; [done|by apply rep_set_owner]|]. eapply indexed_same; [|exact HU]. intros j w.
    rewrite seated_insert. cbn. destruct (decide (j = k)) as [->|]; [|naive_solver]. split; [intros [[_ ?]|[? ?]]; [by exists ln|done]|].
    intros (ln' & Hln' & Hw). left. split; [done|]. assert (ln' = ln) as -> by congruence. done. }
  destruct (r_user <$> head (ln_chain ln)) as [v|]; (eexists; split; [done|]).
  - destruct (Hset v). split; cbn; try done. by rewrite Ho.
  - destruct (Hset nil_uuid). by split.
Qed.

Lemma transfers_follow c u ids : ∀ e L, follows c e L → ∃ e', fold_outcome (transfer_owned u) e ids = Ok e' ∧ follows c e' (foldl (pass u) L ids).
Proof.
  induction ids as [|k ids IH]; intros e L Hf; [by exists e|]. cbn [fold_outcome foldl]. destruct (streams e !! k) as [s|] eqn:Hs.
  - assert (transfer_owned u e k = transfer e k s u) as -> by (unfold transfer_owned; by rewrite Hs).
    destruct (transfer_follows c e L k s u Hf Hs) as (e1 & -> & Hf1). cbn [mbind outcome_bind]. by apply IH.
  - assert (transfer_owned u e k = Ok e) as -> by (unfold transfer_owned; by rewrite Hs). cbn [mbind outcome_bind]. assert (pass u L k = L) as ->; [|by apply IH]. unfold pass. rewrite decide_False; [done|].
    unfold owner_at. by rewrite (proj1 (shows_None _ _ k (fo_streams _ _ _ Hf)) Hs).
Qed.

Lemma filter_ext_elem {A} (P Q : A → Prop) `{∀ x, Decision (P x)} `{∀ x, Decision (Q x)} (l : list A) :
  (∀ x, x ∈ l → P x ↔ Q x) → filter P l = filter Q l.
Proof.
  induction l as [|x l IH]; intros Hl; [done|]. rewrite !filter_cons, IH by (intros y Hy; apply Hl; by right).
  by rewrite (decide_ext (P x) (Q x)) by (apply Hl; left).
Qed.

Lemma owner_at_other u L j k : j ≠ k → owner_at u (hand_over L k) j ↔ owner_at u L j.
Proof. intros Hne. unfold owner_at. rewrite hand_over_by_id, lookup_alter_ne by done. done. Qed.

Lemma passes_filter u ids : ∀ L, NoDup ids → foldl (pass u) L ids = foldl hand_over L (filter (owner_at u L) ids).
Proof.
  induction ids as [|k ids IH]; intros L Hnd; [done|]. apply NoDup_cons in Hnd as [Hk Hnd]. cbn [foldl]. rewrite (IH _ Hnd), filter_cons. unfold pass.
  destruct (decide (owner_at u L k)); [|done]. cbn [foldl]. f_equal. apply filter_ext_elem. intros j Hj. apply owner_at_other. by intros ->.
Qed.

(** ** One stream without the member *)
Section removal.
Context (c : StreamlineConfig) (e : StreamlineEngine) (L : lines) (Hsim : sim c e L).
Context (k : N) (ln : line) (i : nat) (r : rung) (Hk : by_id L !! k = Some ln) (Hi : ln_chain ln !! i = Some r).

Abbreviation u := (r_user r).
Abbreviation l := (ln_chain ln).
Abbreviation gone := (with_users (delete u) e).

Lemma removed_wf : chain_wf l ∧ (N.of_nat (length l) ≤ u32_max + 1)%N.
Proof using Hsim Hk. apply (lw_chain _ (lw_chains L (sim_wf _ _ _ Hsim)) k ln Hk). Qed.

Lemma removed_user : u ∈ users l.
Proof using Hi. apply list_elem_of_fmap_2. by eapply list_elem_of_lookup_2. Qed.

Lemma below_users v : v ∈ users (drop (S i) l) → v ≠ u ∧ v ∈ users l.
Proof using Hsim Hk Hi.
  intros Hv. pose proof (hg_gone _ _ _ (splice_hangs l i r (proj1 removed_wf) Hi)) as Hg. split.
  - intros ->. apply Hg. unfold users. rewrite fmap_app, elem_of_app. by right.
  - apply list_elem_of_fmap in Hv as (x & -> & Hx). apply list_elem_of_fmap_2. rewrite (split_rung l i r (proj1 removed_wf) Hi).
    apply elem_of_app. right. by right.
Qed.

(** Lifting the members below and hanging them back leaves the index alone. *)
Lemma index_restored (us us' : list Uuid) : us ≡ₚ users (drop (S i) l) → us' ≡ₚ users (drop (S i) l) →
  foldl (λ m d, push_at d k m) (foldl (retain_other k) (delete u (user_streams e)) us) us' = delete u (user_streams e).
Proof using Hsim Hk Hi.
  intros Hus Hus'. assert (NoDup (users (drop (S i) l))) as Hnd.
  { unfold users. rewrite fmap_drop. eapply sublist_NoDup; [apply (cw_nodup l (proj1 removed_wf))|apply sublist_drop]. }
  apply map_eq. intros v. rewrite pushes_lookup, retain_lookup by (by rewrite ?Hus, ?Hus').
  assert (v ∈ us' ↔ v ∈ us) as Hin by (by rewrite Hus, Hus'). destruct (decide (v ∈ us')) as [Hv|Hv].
  - rewrite (decide_True (P := v ∈ us)) by (by apply Hin). rewrite Hus' in Hv. apply below_users in Hv as [Hne Hv].
    rewrite lookup_delete_ne by done. rewrite (proj2 (sim_users _ _ _ Hsim v [k])) by (exists k; split; [done|]; by exists ln).
    cbn [mbind option_bind]. rewrite decide_True by (by rewrite filter_cons_False by naive_solver). done.
  - rewrite (decide_False (P := v ∈ us)) by (by rewrite <- Hin). done.
Qed.

(** The stream the removal leaves. *)
Definition settled (t : Unilevel.UnilevelTree) (s : Stream) : Stream :=
  let s := hung_stream t (drop (S i) l) s in
  let s := match rung_link <$> drop (S i) l with [] => set_bottom (r_user <$> last (take i l)) s | _ => s end in
  match tree_users s with [] => set_bottom None s | _ => s end.

Lemma settled_rep t s : represents k s ln → chain_of t (splice_out u l) → represents k (settled t s) (line_with_chain (splice_out u) ln).
Proof using All.
  intros [] Ht. destruct removed_wf as [Hwf _].
  assert (Hb : r_user <$> last (splice_out u l) = last (users (take i l) ++ users (drop (S i) l))) by (rewrite <- fmap_last; fold (users (splice_out u l)); by rewrite (splice_users_app l i r)).
  unfold settled. set (s1 := match rung_link <$> drop (S i) l with [] => _ | _ => _ end).
  assert (Hs1 : tree s1 = t ∧ id s1 = id s ∧ owner_id s1 = owner_id s ∧ frozen s1 = frozen s ∧ created_at s1 = created_at s ∧
    bottom s1 = r_user <$> last (splice_out u l)).
  { rewrite Hb, last_app. unfold users. rewrite !fmap_last. subst s1. unfold hung_stream. destruct (drop (S i) l) as [|x d] eqn:Hd; [by split_and!|].
    destruct (last (x :: d)) eqn:E; [by split_and!|by apply last_None in E]. }
  destruct Hs1 as (H1 & H2 & H3 & H4 & H5 & H6).
  assert (Hp : tree_users s1 ≡ₚ users (splice_out u l)) by (unfold tree_users; rewrite H1; by apply chain_user_ids_perm).
  destruct (tree_users s1) as [|x us] eqn:E.
  - apply Permutation_nil_l, eq_sym, fmap_nil_inv in Hp. split; cbn; try congruence. by rewrite Hp.
  - split; cbn; congruence.
Qed.

Lemma remove_one done : ∃ s', represents k s' (line_with_chain (splice_out u) ln) ∧
  remove_from_stream gone u k done = (e' ← transfer (rewired k s' (λ m, m) gone) k s' u; Ok (e', inl (done ++ [k]))).
Proof using All.
  destruct removed_wf as [Hwf Hlen]. destruct (shows_Some _ _ _ _ (sim_streams _ _ _ Hsim) Hk) as (s & Hs & Hrep).
  pose proof (rep_chain _ _ _ Hrep) as Hc. unfold remove_from_stream. cbn [streams with_users with_streams] in *. rewrite Hs.
  unfold tree_contains. rewrite (chain_contains _ _ Hc), bool_decide_eq_true_2 by apply removed_user. cbn [negb].
  rewrite (chain_below_links _ _ Hc i r Hi). cbn [mbind outcome_bind].
  destruct (chain_parent_id _ _ Hc i r Hi) as (o & -> & Ho). cbn [tree_ok mbind outcome_bind mjoin option_join]. rewrite Ho.
  assert (above l i = r_user <$> last (take i l)) as Habove.
  { pose proof (lookup_lt_Some _ _ _ Hi). unfold above. rewrite last_lookup, length_take. case_decide as H0; [subst i; done|].
    rewrite lookup_take_lt by lia. by replace (pred (i `min` length l)) with (i - 1) by lia. }
  assert (Hsplit : l = (take i l ++ [r]) ++ drop (S i) l) by (rewrite <- app_assoc; by apply split_rung).
  rewrite Hsplit in Hc. destruct (detach_ok k (drop (S i) l) gone s (take i l ++ [r]) Hs Hc) as (t1 & Ht1 & Hdet).
  rewrite <- fmap_reverse, Hdet. cbn [and_then mbind outcome_bind].
  destruct (chain_remove_bottom _ _ _ Ht1) as (t2 & moved & Hrm & Ht2). cbn [tree set_tree]. rewrite Hrm. cbn [try_tree].
  set (e2 := with_streams _ _). assert (e2 = rewired k (set_tree t2 s) (λ m, foldl (retain_other k) m (users (reverse (drop (S i) l)))) gone) as He2.
  { subst e2. unfold rewired, with_users, with_streams. cbn. by rewrite insert_insert_eq. }
  rewrite He2, Habove. clear e2 He2.
  destruct (attach_ok k u (drop (S i) l) (rewired k (set_tree t2 s) (λ m, foldl (retain_other k) m (users (reverse (drop (S i) l)))) gone)
    (set_tree t2 s) (take i l)) as (t3 & Ht3 & Hatt).
  { apply rewired_at. } { done. } { by apply splice_hangs. }
  { apply (f_equal length) in Hsplit. rewrite !length_app in Hsplit. cbn in Hsplit. lia. }
  change (set_tree t2 (set_tree t1 s)) with (set_tree t2 s). rewrite Hatt. cbn [mbind outcome_bind]. rewrite rewired_rewired.
  rewrite <- (splice_at l i r Hwf Hi) in Ht3.
  assert (hung_stream t3 (drop (S i) l) (set_tree t2 s) = hung_stream t3 (drop (S i) l) s) as -> by (unfold hung_stream; by destruct (last (drop (S i) l))).
  exists (settled t3 s). split; [by apply settled_rep|].
  set (e3 := rewired k _ _ gone). change ((e' ← transfer (with_streams <[k := settled t3 s]> e3) k (settled t3 s) u; Ok (e', inl (done ++ [k]))) =
    (e' ← transfer (rewired k (settled t3 s) (λ m, m) gone) k (settled t3 s) u; @Ok Empty_set _ (e', @inl (list N) StreamlineError (done ++ [k])))).
  assert (with_streams <[k := settled t3 s]> e3 = rewired k (settled t3 s) (λ m, m) gone) as ->; [|done].
  subst e3. unfold rewired, with_users, with_streams. cbn. rewrite insert_insert_eq, index_restored; [done| |done].
  unfold users. by rewrite reverse_Permutation.
Qed.
End removal.

(** ** The whole request *)
Section whole.
Context (c : StreamlineConfig) (e : StreamlineEngine) (L : lines) (Hsim : sim c e L).
Context (u : Uuid) (k : N) (ln : line) (Hk : by_id L !! k = Some ln) (Hu : u ∈ users (ln_chain ln)).

Abbreviation Hw := (sim_wf c e L Hsim).
Abbreviation spliced := (edit (alter (line_with_chain (splice_out u)) k) L).
Abbreviation stripped := (bare L u k).

Lemma spliced_follows s' : represents k s' (line_with_chain (splice_out u) ln) →
  follows c (rewired k s' (λ m, m) (with_users (delete u) e)) spliced.
Proof using All.
  intros Hrep. pose proof (sim_users _ _ _ Hsim) as HU. split; cbn; [| |apply Hsim|apply Hsim|apply Hsim].
  - eapply shows_alter; [apply Hsim|exact Hk|done].
  - intros v ids. rewrite lookup_delete. change (alter (line_with_chain (splice_out u)) k (by_id L)) with (by_id stripped).
    setoid_rewrite (bare_seated L u k ln Hw Hk Hu). case_decide as Hv; [naive_solver|]. rewrite (HU v ids). naive_solver.
Qed.

Lemma owner_stripped j v : owner_at v stripped j ↔ owner_is L j v.
Proof using All.
  unfold owner_at, owner_is. rewrite (bare_at L u k ln Hk). case_decide as Hj; [subst j; rewrite Hk; cbn; naive_solver|].
  destruct (by_id L !! j); cbn; naive_solver.
Qed.

Lemma user_not_nil : u ≠ nil_uuid.
Proof using All. eapply seated_not_nil; [apply (lw_chains L Hw)|by exists ln]. Qed.

Lemma heir_not_user j : heir (by_id stripped) j ≠ Some u.
Proof using All. intros Hj%heir_seated. by apply (bare_seated L u k ln Hw Hk Hu) in Hj as [_ ?]. Qed.

(** Dropping the member's owner list commutes with passing line [k] on. *)
Lemma pass_strip : edit_owned (delete u) (pass u spliced k) = pass u stripped k.
Proof using All.
  unfold pass. assert (owner_at u spliced k ↔ owner_at u stripped k) as He by done. rewrite (decide_ext _ _ _ _ He). case_decide; [|done].
  pose proof (heir_not_user k) as Hh. unfold hand_over, heir in *. change (by_id spliced) with (by_id stripped) in *.
  destruct (by_id stripped !! k) as [l'|]; [|done]. cbn in Hh. destruct (r_user <$> head (ln_chain l')) as [v|] eqn:E; [|done].
  unfold edit_owned, edit, bare. cbn. f_equal. apply map_eq. intros w. rewrite lookup_delete, !push_at_lookup, !lookup_delete.
  destruct (decide (u = w)) as [<-|]; [rewrite decide_False by congruence; done|]. case_decide; [subst w; by rewrite decide_False|done].
Qed.

Lemma pass_owned : owned_by (pass u spliced k) !! u = owned_by L !! u.
Proof using All.
  unfold pass. case_decide; [|done]. rewrite hand_over_owned. pose proof (heir_not_user k) as Hh. change (by_id spliced) with (by_id stripped).
  destruct (heir (by_id stripped) k) as [v|]; [|done]. rewrite push_at_lookup. by rewrite decide_False by congruence.
Qed.

Lemma passes_heirs ids : owned_by L !! u = Some ids → foldl (pass u) (pass u stripped k) ids = foldl hand_over stripped (heirs L u k).
Proof using All.
  intros Hids. destruct (lw_owned L Hw u ids Hids) as [Hnd _]. rewrite (passes_filter _ _ _ Hnd).
  assert (Hown : ∀ j, j ∈ ids ↔ owner_at u stripped j).
  { intros j. rewrite owner_stripped. pose proof (lw_owner L Hw u j) as H. unfold owns in H. rewrite Hids in H. pose proof user_not_nil. naive_solver. }
  unfold heirs. rewrite Hids. change (default [] (Some ids)) with ids. case_bool_decide as Hin.
  - assert (pass u stripped k = hand_over stripped k) as -> by (unfold pass; by rewrite decide_True by (by apply Hown)). cbn [foldl]. f_equal. apply filter_ext_elem. intros j Hj.
    destruct (decide (j = k)) as [->|Hne]; [|rewrite owner_at_other by done; pose proof (proj1 (Hown j) Hj); naive_solver].
    split; [|done]. unfold owner_at. rewrite hand_over_by_id, lookup_alter_eq. rewrite (bare_at L u k ln Hk), decide_True by done. cbn.
    intros [= Htop]. exfalso. pose proof (proj2 (heir_top (by_id stripped) k u (bare_chains L u k ln Hw Hk Hu))) as Hh.
    apply (heir_not_user k), Hh. split; [apply user_not_nil|]. eexists. rewrite (bare_at L u k ln Hk), decide_True by done. done.
  - assert (pass u stripped k = stripped) as -> by (unfold pass; by rewrite decide_False by (by rewrite <- Hown)). f_equal. apply filter_all_true, Forall_forall. intros j Hj. by apply Hown.
Qed.

Lemma no_heirs : owned_by L !! u = None → pass u spliced k = stripped ∧ heirs L u k = [].
Proof using All.
  intros Hno. split; [|unfold heirs; by rewrite Hno]. unfold pass. rewrite decide_False.
  - unfold bare, edit, edit_owned. cbn. by rewrite delete_id.
  - change (owner_at u spliced k) with (owner_at u stripped k). rewrite owner_stripped. intros Ho.
    destruct (proj2 (lw_owner L Hw u k)) as (ids & Hids & _); [split; [apply user_not_nil|done]|]. congruence.
Qed.
End whole.

Lemma remove_agrees c e L u at_ : sim c e L → agrees c (remove_member e u at_) (spec_remove L u).
Proof.
  intros Hsim. pose proof (sim_wf _ _ _ Hsim) as Hw. unfold remove_member. rewrite (member_seat c e L Hsim).
  destruct (seat_of L u) as [k|] eqn:Hseat; [|unfold spec_remove; rewrite Hseat; by apply sim_refused].
  apply (seat_of_Some L u k (lw_chains L Hw)) in Hseat as (ln & Hk & Hu). rewrite (spec_remove_at L u k ln Hw Hk Hu).
  pose proof Hu as Hu'. apply list_elem_of_fmap in Hu' as (r & Hr & [i Hi]%list_elem_of_lookup).
  cbn [fmap option_fmap option_map remove_from_streams]. destruct (remove_one c e L Hsim k ln i r Hk Hi []) as (s' & Hrep & Hrun). rewrite <- Hr in Hrun, Hrep.
  rewrite Hrun. destruct (transfer_follows c _ _ k s' u (spliced_follows c e L Hsim u k ln Hk Hu s' Hrep)) as (e1 & -> & Hf1).
  { apply lookup_insert_eq. }
  cbn [and_then mbind outcome_bind]. rewrite (fo_owners _ _ _ Hf1), (pass_owned c e L Hsim u k ln Hk Hu).
  destruct (owned_by L !! u) as [ids|] eqn:Hids.
  - destruct (transfers_follow c u ids (with_owners (delete u) e1) (pass u (bare L u k) k)) as (e2 & -> & Hf2).
    { rewrite <- (pass_strip c e L Hsim u k ln Hk Hu). destruct Hf1 as [H1 H2 H3 H4 H5]. split; try done. cbn. by rewrite H3. }
    split; [|done]. rewrite (passes_heirs c e L Hsim u k ln Hk Hu ids Hids) in Hf2. apply follows_sim; [|done]. by eapply spec_remove_wf.
  - destruct (no_heirs c e L Hsim u k ln Hk Hu Hids) as [He Hh]. rewrite He in Hf1. rewrite Hh. split; [|done].
    apply follows_sim; [|done]. pose proof (spec_remove_wf L u k ln Hw Hk Hu) as Hw'. by rewrite Hh in Hw'.
Qed.
