(* ===== verification/StreamRestore.v ===== *)
(** * Restoring a streamline engine: [validate_restored] of [streamline/engine.rs]

    The passes over a deserialized engine and what they accept. *)

From stdpp Require Import base numbers list gmap sorting strings.
From Stdlib Require Import ZArith Lia.
From S2P Require Import Prelude TreeTypes Arena ArenaCheck ArenaWf ArenaRestore Unilevel Streamline.
Import Streamline.

(** [stream.tree.validate_restored()], its error as a value. *)
Definition tree_fault (t : Unilevel.UnilevelTree) : outcome SnapshotConsistencyError (option SnapshotConsistencyError) :=
  match ArenaCheck.validate_restored (Unilevel.arena t) with
  | Ok _ => Ok None
  | Err source => Ok (Some source)
  | Panic => Panic
  | Hang => Hang
  end.

Definition bottom_fault (s : Stream) : option SnapshotConsistencyError :=
  match bottom s with
  | Some bottom_id => if tree_contains s bottom_id then None else Some (StreamBottomNotInTree (id s) bottom_id)
  | None => match tree_users s with [] => None | us => Some (StreamBottomMissing (id s) (length us)) end
  end.

Definition stream_fault (key : N) (s : Stream) : outcome SnapshotConsistencyError (option SnapshotConsistencyError) :=
  if bool_decide (key ≠ id s) then Ok (Some (StreamIdMismatch key (id s)))
  else
    source ← tree_fault (tree s);
    Ok match source with
       | Some source => Some (TreeTypes.Stream (id s) source)
       | None => bottom_fault s
       end.

Definition check_streams (e : StreamlineEngine) : check_result :=
  nested ← fold_outcome (λ nested '(key, s), found ← stream_fault key s; Ok (keep_lowest N.ltb nested key found)) None (map_to_list (streams e));
  raise nested.

(** [keys().copied().max()]. *)
Definition highest_key (e : StreamlineEngine) : option N :=
  foldl (λ held '(key, _), Some (from_option (N.max key) key held)) None (map_to_list (streams e)).

Definition check_cursor (e : StreamlineEngine) : check_result :=
  match highest_key e with
  | Some highest => refuse_if (next_stream_id e <=? highest)%N (StreamIdCursorNotPastEnd (next_stream_id e) highest)
  | None => Ok ()
  end;;
  refuse_if (next_stream_id e =? u32_max)%N (StreamIdCursorExhausted (next_stream_id e)).

Definition indexed_pairs (e : StreamlineEngine) : gset (Uuid * N) :=
  list_to_set (concat ((λ entry : Uuid * list N, pair entry.1 <$> entry.2) <$> map_to_list (user_streams e))).

Definition pair_ltb (x y : N * Uuid) : bool := (x.1 <? y.1)%N || ((x.1 =? y.1)%N && (x.2 <? y.2)%N).

Definition unindexed_fault (pairs : gset (Uuid * N)) (x : N * Uuid) (_ : ()) : option SnapshotConsistencyError :=
  if bool_decide ((x.2, x.1) ∈ pairs) then None else Some (TreeUserNotIndexed x.1 x.2).

Definition seats (e : StreamlineEngine) : list ((N * Uuid) * ()) :=
  concat ((λ s, (λ u, ((id s, u), ())) <$> tree_users s) <$> (map_to_list (streams e)).*2).

(** [find_map] over a list of streams. *)
Definition first_fault (check : N → option SnapshotConsistencyError) (ids : list N) : option SnapshotConsistencyError :=
  head (omap check ids).

Definition member_fault (e : StreamlineEngine) (u : Uuid) (ids : list N) : option SnapshotConsistencyError :=
  match ids with
  | [] => Some (UserStreamsEntryEmpty u)
  | _ =>
      first_fault (λ k, match streams e !! k with
                        | None => Some (StreamAbsent u k)
                        | Some s => if tree_contains s u then None else Some (UserNotInStreamTree u k)
                        end) ids
  end.

Definition owner_fault (e : StreamlineEngine) (u : Uuid) (ids : list N) : option SnapshotConsistencyError :=
  first_fault (λ k, match streams e !! k with
                    | None => Some (OwnerStreamAbsent u k)
                    | Some s => if bool_decide (owner_id s ≠ u) then Some (StreamOwnerMismatch u k (owner_id s)) else None
                    end) ids.

Definition validate_restored (e : StreamlineEngine) : check_result :=
  check_streams e;;
  check_cursor e;;
  raise (lowest_fault pair_ltb (unindexed_fault (indexed_pairs e)) (seats e));;
  raise (lowest_fault N.ltb (member_fault e) (map_to_list (user_streams e)));;
  raise (lowest_fault N.ltb (owner_fault e) (map_to_list (stream_owners e))).

(** ** What the passes accept *)
Definition stream_ok (key : N) (s : Stream) : Prop :=
  id s = key ∧ arena_wf (Unilevel.arena (tree s)) ∧
  match bottom s with Some b => tree_contains s b = true | None => tree_users s = [] end.

(** An engine whose indexes agree with its streams. *)
Record restorable (e : StreamlineEngine) : Prop := {
  rs_stream k s : streams e !! k = Some s → stream_ok k s;
  rs_below k : is_Some (streams e !! k) → (k < next_stream_id e)%N;
  rs_room : next_stream_id e ≠ u32_max;
  rs_indexed k s u : streams e !! k = Some s → u ∈ tree_users s → ∃ ids, user_streams e !! u = Some ids ∧ k ∈ ids;
  rs_member u ids : user_streams e !! u = Some ids → ids ≠ [];
  rs_seat u ids k : user_streams e !! u = Some ids → k ∈ ids → ∃ s, streams e !! k = Some s ∧ tree_contains s u = true;
  rs_owner u ids k : stream_owners e !! u = Some ids → k ∈ ids → ∃ s, streams e !! k = Some s ∧ owner_id s = u;
}.

Lemma raise_none {K} (o : option (K * SnapshotConsistencyError)) : raise o = Ok () ↔ o = None.
Proof. destruct o as [[]|]; cbn; naive_solver. Qed.

Lemma raise_lowest_map {V} (check : N → V → option SnapshotConsistencyError) (m : gmap N V) :
  raise (lowest_fault N.ltb check (map_to_list m)) = Ok () ↔ ∀ k v, m !! k = Some v → check k v = None.
Proof. rewrite raise_none, lowest_fault_none. by setoid_rewrite elem_of_map_to_list. Qed.

Lemma stream_fault_none k s : stream_fault k s = Ok None ↔ stream_ok k s.
Proof.
  unfold stream_fault, stream_ok. case_bool_decide as Hk; [naive_solver|]. assert (id s = k ↔ True) as -> by naive_solver.
  rewrite <- (validate_restored_spec (Unilevel.arena (tree s))). unfold tree_fault, bottom_fault.
  destruct (ArenaCheck.validate_restored _) as [[]|err| |]; cbn; [|naive_solver..].
  destruct (bottom s) as [b|]; [destruct (tree_contains s b); naive_solver|]. destruct (tree_users s); naive_solver.
Qed.

Lemma check_streams_ok e : check_streams e = Ok () ↔ ∀ k s, streams e !! k = Some s → stream_ok k s.
Proof.
  unfold check_streams. setoid_rewrite <- elem_of_map_to_list. generalize (map_to_list (streams e)). intros l.
  assert (H : ∀ l o, (nested ← fold_outcome (λ nested '(key, s), found ← stream_fault key s; Ok (keep_lowest N.ltb nested key found)) o l; raise nested) = Ok () ↔
    o = None ∧ ∀ k s, (k, s) ∈ l → stream_ok k s).
  { clear l. induction l as [|[k s] l IH]; intros o; cbn [fold_outcome].
    - cbn [mbind outcome_bind]. rewrite raise_none. split; [|naive_solver]. intros ->. split; [done|]. by intros k s ?%elem_of_nil.
    - pose proof (stream_fault_none k s) as Hk. destruct (stream_fault k s) as [[err|]| | |] eqn:E; cbn [mbind outcome_bind].
      + rewrite IH. split; [|intros [_ H]; exfalso; specialize (H k s ltac:(left)); apply Hk in H; done].
        intros [Hn _]. exfalso. unfold keep_lowest in Hn. destruct o as [[h f]|]; [destruct (k <? h)%N|]; done.
      + rewrite IH. cbn [keep_lowest]. assert (stream_ok k s) as Hok by (by apply Hk). setoid_rewrite elem_of_cons. naive_solver.
      + split; [done|]. intros [_ H]. exfalso. specialize (H k s ltac:(left)). apply Hk in H. done.
      + split; [done|]. intros [_ H]. exfalso. specialize (H k s ltac:(left)). apply Hk in H. done.
      + split; [done|]. intros [_ H]. exfalso. specialize (H k s ltac:(left)). apply Hk in H. done. }
  rewrite H. naive_solver.
Qed.

Lemma highest_key_spec (l : list (N * Stream)) : ∀ o n, (∀ h, o = Some h → (h < n)%N) ∧ (∀ k s, (k, s) ∈ l → (k < n)%N) ↔
  ∀ h, foldl (λ held '(key, _), Some (from_option (N.max key) key held)) o l = Some h → (h < n)%N.
Proof.
  induction l as [|[k s] l IH]; intros o n; cbn [foldl].
  - split; [intros [H _]; exact H|]. intros H. split; [done|]. by intros k s ?%elem_of_nil.
  - rewrite <- IH. setoid_rewrite elem_of_cons. split.
    + intros [Ho Hl]. split; [|intros k' s' H; apply (Hl k' s'); by right]. intros h [= <-]. specialize (Hl k s ltac:(by left)).
      destruct o as [h|]; cbn; [specialize (Ho h eq_refl); lia|done].
    + intros [Ho Hl]. specialize (Ho _ eq_refl). split.
      * intros h ->. cbn in Ho. lia.
      * intros k' s' [[= -> ->]|Hin]; [|by eapply Hl]. destruct o; cbn in Ho; lia.
Qed.

Lemma check_cursor_ok e : check_cursor e = Ok () ↔ (∀ k, is_Some (streams e !! k) → (k < next_stream_id e)%N) ∧ next_stream_id e ≠ u32_max.
Proof.
  unfold check_cursor. rewrite bind_unit_ok, refuse_if_ok, N.eqb_neq.
  assert (match highest_key e with Some h => refuse_if (next_stream_id e <=? h)%N (StreamIdCursorNotPastEnd (next_stream_id e) h) | None => Ok () end = Ok () ↔
    ∀ h, highest_key e = Some h → (h < next_stream_id e)%N) as ->.
  { destruct (highest_key e) as [h|]; [rewrite refuse_if_ok, N.leb_gt; naive_solver|naive_solver]. }
  unfold highest_key. rewrite <- highest_key_spec. setoid_rewrite elem_of_map_to_list. unfold is_Some. naive_solver.
Qed.

Lemma first_fault_none check ids : first_fault check ids = None ↔ ∀ k, k ∈ ids → check k = None.
Proof.
  unfold first_fault. induction ids as [|k ids IH]; cbn; [split; [by intros _ k ?%elem_of_nil|done]|].
  setoid_rewrite elem_of_cons. destruct (check k) eqn:E; cbn; naive_solver.
Qed.

Lemma indexed_pairs_elem e u k : (u, k) ∈ indexed_pairs e ↔ ∃ ids, user_streams e !! u = Some ids ∧ k ∈ ids.
Proof.
  unfold indexed_pairs. rewrite elem_of_list_to_set, elem_of_concat. setoid_rewrite list_elem_of_fmap. split.
  - intros (xs & ([v ids] & -> & Hin%elem_of_map_to_list) & Hk). cbn in Hk. apply list_elem_of_fmap in Hk as (j & [= -> ->] & Hj). eauto.
  - intros (ids & Hin & Hk). exists (pair u <$> ids). split; [|by apply list_elem_of_fmap_2]. exists (u, ids). split; [done|]. by apply elem_of_map_to_list.
Qed.

Lemma seats_elem e k u : ((k, u), ()) ∈ seats e ↔ ∃ j s, streams e !! j = Some s ∧ id s = k ∧ u ∈ tree_users s.
Proof.
  unfold seats. rewrite elem_of_concat. split.
  - intros (xs & (s & -> & Hs)%list_elem_of_fmap & Hk). apply list_elem_of_fmap in Hs as ([j s'] & -> & Hin%elem_of_map_to_list).
    apply list_elem_of_fmap in Hk as (v & [= -> ->] & Hv). eauto.
  - intros (j & s & Hs & <- & Hu). exists ((λ u, ((id s, u), ())) <$> tree_users s). split; [|by apply (list_elem_of_fmap_2 (λ u, ((id s, u), ())))].
    apply list_elem_of_fmap. exists s. split; [done|]. apply list_elem_of_fmap. exists (j, s). split; [done|]. by apply elem_of_map_to_list.
Qed.

(** The passes accept exactly the engines whose indexes agree. *)
Lemma streamline_restored_spec e : validate_restored e = Ok () ↔ restorable e.
Proof.
  unfold validate_restored. rewrite !bind_unit_ok, check_streams_ok, check_cursor_ok, !raise_lowest_map, raise_none, lowest_fault_none.
  assert (Hun : (∀ x v, (x, v) ∈ seats e → unindexed_fault (indexed_pairs e) x v = None) ↔
    ∀ j s u, streams e !! j = Some s → u ∈ tree_users s → ∃ ids, user_streams e !! u = Some ids ∧ id s ∈ ids).
  { unfold unindexed_fault. split.
    - intros H j s u Hs Hu. apply indexed_pairs_elem. specialize (H (id s, u) ()). rewrite seats_elem in H. cbn in H.
      specialize (H ltac:(eauto)). by case_bool_decide.
    - intros H [k u] [] (j & s & Hs & <- & Hu)%seats_elem. cbn. rewrite bool_decide_eq_true_2; [done|]. apply indexed_pairs_elem. eauto. }
  assert (Hmem : (∀ u ids, user_streams e !! u = Some ids → member_fault e u ids = None) ↔
    ∀ u ids, user_streams e !! u = Some ids → ids ≠ [] ∧ ∀ k, k ∈ ids → ∃ s, streams e !! k = Some s ∧ tree_contains s u = true).
  { apply forall_proper; intros u. apply forall_proper; intros ids. apply forall_proper; intros _. unfold member_fault.
    destruct ids as [|k0 ids]; [naive_solver|]. rewrite first_fault_none. split.
    - intros H. split; [done|]. intros k Hk. specialize (H k Hk). destruct (streams e !! k) as [s|]; [|done].
      destruct (tree_contains s u) eqn:E; [eauto|done].
    - intros [_ H] k Hk. destruct (H k Hk) as (s & -> & ->). done. }
  assert (Hown : (∀ u ids, stream_owners e !! u = Some ids → owner_fault e u ids = None) ↔
    ∀ u ids, stream_owners e !! u = Some ids → ∀ k, k ∈ ids → ∃ s, streams e !! k = Some s ∧ owner_id s = u).
  { apply forall_proper; intros u. apply forall_proper; intros ids. apply forall_proper; intros _. unfold owner_fault.
    rewrite first_fault_none. apply forall_proper; intros k. apply forall_proper; intros _.
    destruct (streams e !! k) as [s|]; [case_bool_decide; naive_solver|naive_solver]. }
  rewrite Hun, Hmem, Hown. split.
  - intros (H1 & [H2 H3] & H4 & H5 & H6). split; try done.
    + intros k s u Hs Hu. destruct (H4 k s u Hs Hu) as (ids & Hids & Hk). destruct (H1 k s Hs) as [<- _]. eauto.
    + intros u ids Hu. by apply (H5 u ids Hu).
    + intros u ids k Hu. by apply (H5 u ids Hu).
    + intros u ids k Hu. by apply (H6 u ids Hu).
  - intros [H1 H2 H3 H4 H5 H6 H7]. split_and!; try done.
    + intros j s u Hs Hu. destruct (H4 j s u Hs Hu) as (ids & Hids & Hk). destruct (H1 j s Hs) as [-> _]. eauto.
    + intros u ids Hu. split; [by eapply H5|]. intros k. by eapply H6.
    + intros u ids Hu k. by eapply H7.
Qed.
