(* ===== verification/StreamlineTheorems.v ===== *)
(** * What a streamline engine guarantees

    Requests and their sequences refine the lines of [StreamSpec]; from there: the
    invariant of every reachable engine, the effect of an enrolment and of a
    removal as the position query sees them, when an enrolment is refused, and
    that a reachable engine can be restored. *)

From stdpp Require Import base numbers list gmap sorting strings.
From Stdlib Require Import ZArith Lia.
From S2P Require Import Prelude TreeTypes Arena ArenaCheck ArenaWf ArenaRestore Unilevel StreamTree Streamline StreamSpec StreamRefine StreamRestore.
Import Streamline.

(** ** Requests *)
Inductive request :=
| Enrol (u sponsor : Uuid) (at_ : Z) (choice : option N)
| Leave (u : Uuid) (at_ : Z)
| Expand (u : Uuid) (total : N) (at_ : Z)
| Allow (u : Uuid) (total : N) (at_ : Z).

Inductive response :=
| Enrolled (r : AddMemberResult)
| LeftStreams (ids : list N)
| Expanded (ids : list N)
| Allowed (r : FreezeResult)
| Refused (err : StreamlineError).

Definition respond {S A} (f : A → response) (m : outcome Empty_set (S * (A + StreamlineError))) : outcome Empty_set (S * response) :=
  '(s, r) ← m; Ok (s, match r with inl a => f a | inr err => Refused err end).

Definition exec (e : StreamlineEngine) (q : request) : outcome Empty_set (StreamlineEngine * response) :=
  match q with
  | Enrol u sponsor at_ choice => respond Enrolled (add_member e u sponsor at_ choice)
  | Leave u at_ => respond LeftStreams (remove_member e u at_)
  | Expand u total at_ => respond Expanded (expand_streams e u total at_)
  | Allow u total at_ => respond Allowed (update_stream_allowance e u total at_)
  end.

Definition spec_exec (c : StreamlineConfig) (L : lines) (q : request) : outcome Empty_set (lines * response) :=
  match q with
  | Enrol u sponsor at_ choice => respond Enrolled (spec_add c L u sponsor at_ choice)
  | Leave u at_ => respond LeftStreams (spec_remove L u)
  | Expand u total at_ => respond Expanded (spec_expand L u total at_)
  | Allow u total at_ => respond Allowed (spec_allow c L u total at_)
  end.

Fixpoint run {S} (step : S → request → outcome Empty_set (S * response)) (s : S) (qs : list request) : outcome Empty_set (S * list response) :=
  match qs with
  | [] => Ok (s, [])
  | q :: qs' => '(s, r) ← step s q; '(s, rs) ← run step s qs'; Ok (s, r :: rs)
  end.

(** The lines of a new engine: one, unowned and empty. *)
Definition first_line (at_ : Z) : lines := mkLines {[1%N := mkLine nil_uuid false at_ []]} ∅ 2.

Lemma new_sim c at_ : sim c (new c at_) (first_line at_).
Proof.
  assert (Hat : ∀ k ln, by_id (first_line at_) !! k = Some ln → k = 1%N ∧ ln = mkLine nil_uuid false at_ []).
  { intros k ln. cbn [by_id first_line]. rewrite lookup_singleton_Some. by intros [<- <-]. }
  assert (Hseat : ∀ k u, ¬ seated (by_id (first_line at_)) k u).
  { intros k u (ln & [-> ->]%Hat & Hin). by apply elem_of_nil in Hin. }
  split; try done.
  - split.
    + split; [|intros k k' u Hs; by destruct (Hseat k u)]. intros k ln [-> ->]%Hat. split; [apply chain_wf_nil|cbn; lia].
    + intros u k. split; [intros (ids & Hids & _); done|]. intros (Hu & ln & [-> ->]%Hat & He). cbn in He. congruence.
    + done.
    + intros k [ln [-> _]%Hat]. cbn. lia.
    + cbn. unfold u32_max. lia.
    + intros ln [_ ->]%Hat. done.
  - intros k. cbn. rewrite !lookup_singleton. case_decide; [subst k; constructor; apply rep_fresh|constructor].
  - intros u ids. split; [done|]. intros (k & _ & Hk). by destruct (Hseat k u).
Qed.

Lemma exec_agrees c e L q : sim c e L →
  match exec e q, spec_exec c L q with Ok (e', r), Ok (L', r') => sim c e' L' ∧ r = r' | Panic, Panic => True | _, _ => False end.
Proof.
  intros Hsim. assert (Hr : ∀ A (f : A → response) m m', agrees c m m' →
    match respond f m, respond f m' with Ok (e', r), Ok (L', r') => sim c e' L' ∧ r = r' | Panic, Panic => True | _, _ => False end).
  { intros A f m m' H. unfold agrees in H. destruct m as [[e' r]| | |], m' as [[L' r']| | |]; try done. destruct H as [H <-]. by split. }
  destruct q; cbn [exec spec_exec]; apply Hr; auto using add_agrees, remove_agrees, expand_agrees, allow_agrees.
Qed.

Lemma run_agrees c qs : ∀ e L, sim c e L →
  match run exec e qs, run (spec_exec c) L qs with Ok (e', rs), Ok (L', rs') => sim c e' L' ∧ rs = rs' | Panic, Panic => True | _, _ => False end.
Proof.
  induction qs as [|q qs IH]; intros e L Hsim; [done|]. cbn [run]. pose proof (exec_agrees c e L q Hsim) as Hq.
  destruct (exec e q) as [[e1 r]| | |], (spec_exec c L q) as [[L1 r']| | |]; try done. destruct Hq as [Hs <-]. cbn [mbind outcome_bind].
  specialize (IH e1 L1 Hs). destruct (run exec e1 qs) as [[e2 rs]| | |], (run (spec_exec c) L1 qs) as [[L2 rs']| | |]; try done.
  destruct IH as [Hs2 <-]. by split.
Qed.

(** C26. A whole sequence of requests on a new engine has the responses the lines
    prescribe, refusals included, and ends with the streams, the membership index
    and the owner lists those lines describe. The engine panics exactly where the
    specification does: past stream id 2^32 - 1 or member 2^32 of one stream. *)
Theorem streamline_refines_lines c at_ qs :
  match run exec (new c at_) qs, run (spec_exec c) (first_line at_) qs with
  | Ok (e, rs), Ok (L, rs') => sim c e L ∧ rs = rs'
  | Panic, Panic => True
  | _, _ => False
  end.
Proof. apply run_agrees, new_sim. Qed.

(** ** Reachable engines *)
Inductive live (c : StreamlineConfig) : StreamlineEngine → Prop :=
| live_new at_ : live c (new c at_)
| live_step e q e' r : live c e → exec e q = Ok (e', r) → live c e'.

Lemma live_sim c e : live c e → ∃ L, sim c e L.
Proof.
  induction 1 as [at_|e q e' r _ (L & Hsim) He]; [exists (first_line at_); apply new_sim|].
  pose proof (exec_agrees c e L q Hsim) as Hq. rewrite He in Hq. destruct (spec_exec c L q) as [[L' r']| | |]; try done. exists L'. apply Hq.
Qed.

Lemma rep_contains k s ln u : represents k s ln → tree_contains s u = bool_decide (u ∈ users (ln_chain ln)).
Proof. intros H. unfold tree_contains. apply chain_contains, H. Qed.


(** ** Restoring *)
Lemma sim_stream_ok c e L k s : sim c e L → streams e !! k = Some s → stream_ok k s ∧ (k < next_stream_id e)%N.
Proof.
  intros [Hw HS _ _ Hn _] Hs. destruct (shows_back _ _ _ _ HS Hs) as (ln & Hln & Hrep). split; [|rewrite Hn; apply (lw_ids L Hw); eauto].
  pose proof (rep_contains _ _ _ (default nil_uuid (bottom s)) Hrep) as Hb.
  pose proof (rep_users _ _ _ Hrep) as Hu. destruct Hrep as [H1 _ _ _ H5 H6]. split_and!; [done|apply H5|]. rewrite H6 in *.
  destruct (last (ln_chain ln)) as [r|] eqn:E; cbn in *.
  - rewrite Hb. apply bool_decide_eq_true_2, list_elem_of_fmap_2. rewrite last_lookup in E. by eapply list_elem_of_lookup_2.
  - apply last_None in E. rewrite E in Hu. by apply Permutation_nil_r in Hu.
Qed.

Lemma sim_restorable c e L : sim c e L → next_stream_id e ≠ u32_max → restorable e.
Proof.
  intros Hsim Hroom. pose proof (λ k s, sim_stream_ok c e L k s Hsim) as Hok. destruct Hsim as [Hw HS HU Ho Hn Hc]. split.
  - intros k s Hs. by apply Hok.
  - intros k [s Hs]. by eapply Hok.
  - done.
  - intros k s u Hs Hu. destruct (shows_back _ _ _ _ HS Hs) as (ln & Hln & Hrep). exists [k]. split; [|left]. apply HU. exists k. split; [done|].
    exists ln. split; [done|]. by rewrite <- (rep_users _ _ _ Hrep).
  - by intros u ids (k & -> & _)%HU.
  - intros u ids k (j & -> & ln & Hln & Hin)%HU Hk. apply list_elem_of_singleton in Hk as ->.
    destruct (shows_Some _ _ _ _ HS Hln) as (s & Hs & Hrep). exists s. split; [done|]. rewrite (rep_contains _ _ _ _ Hrep). by apply bool_decide_eq_true_2.
  - intros u ids k. rewrite Ho. intros Hids Hk. destruct (proj1 (lw_owner L Hw u k)) as (_ & ln & Hln & He); [by exists ids|].
    destruct (shows_Some _ _ _ _ HS Hln) as (s & Hs & Hrep). exists s. split; [done|]. by rewrite (rep_owner _ _ _ Hrep).
Qed.

(** A restored engine is accepted exactly when every stream is filed under its
    own id with a well-formed tree that holds its recorded bottom (an empty tree
    has none), the id cursor is past every stream and can still advance, the
    membership index and the trees name each other, and every listed stream has
    that owner. *)
Theorem streamline_validate_restored_iff e : validate_restored e = Ok () ↔ restorable e.
Proof. exact (streamline_restored_spec e). Qed.

(** C31. Every reachable engine can be saved and restored, up to the last stream id:
    a cursor at 2^32 - 1, which the engine itself can reach, is refused. *)
Theorem streamline_restorable c e : live c e →
  validate_restored e = if (next_stream_id e =? u32_max)%N then Err (StreamIdCursorExhausted u32_max) else Ok ().
Proof.
  intros (L & Hsim)%live_sim.
  destruct (N.eqb_spec (next_stream_id e) u32_max) as [He|Hne]; [|by apply streamline_restored_spec; eapply sim_restorable].
  unfold validate_restored. rewrite (proj2 (check_streams_ok e)) by (intros k s Hs; by eapply sim_stream_ok). cbn [mbind outcome_bind].
  assert (∀ h, highest_key e = Some h → (h < next_stream_id e)%N) as Hh.
  { apply highest_key_spec. split; [done|]. intros k s Hs%elem_of_map_to_list. by eapply sim_stream_ok. }
  unfold check_cursor. destruct (highest_key e) as [h|].
  - specialize (Hh h eq_refl). destruct (N.leb_spec (next_stream_id e) h); [lia|]. by rewrite He.
  - by rewrite He.
Qed.

(** ** Positions *)
Section positions.
Context (c : StreamlineConfig) (e : StreamlineEngine) (L : lines) (Hsim : sim c e L).

Lemma info_seated k ln i r : by_id L !! k = Some ln → ln_chain ln !! i = Some r →
  get_member_info e (r_user r) = Ok [mkPosition k (N.of_nat i) (ln_frozen ln)].
Proof using Hsim.
  intros Hk Hi. destruct (shows_Some _ _ _ _ (sim_streams _ _ _ Hsim) Hk) as (s & Hs & Hrep). unfold get_member_info.
  assert (user_streams e !! r_user r = Some [k]) as ->.
  { apply (sim_users _ _ _ Hsim). exists k. split; [done|]. exists ln. split; [done|]. apply list_elem_of_fmap_2. by eapply list_elem_of_lookup_2. }
  cbn [ok_or mbind outcome_bind fold_outcome]. unfold member_position. rewrite Hs.
  destruct (chain_get_position _ _ (rep_chain _ _ _ Hrep) i r Hi) as (tp & -> & ->). cbn. by rewrite (rep_frozen _ _ _ Hrep).
Qed.

Lemma info_absent v : (∀ k, ¬ seated (by_id L) k v) → get_member_info e v = Err (MemberNotFound v).
Proof using Hsim.
  intros Hv. unfold get_member_info. destruct (user_streams e !! v) as [ids|] eqn:E; [|done].
  apply (sim_users _ _ _ Hsim) in E as (k & _ & Hk). by destruct (Hv k).
Qed.

(** A member's rung, or none. *)
Lemma seat_cases v : (∀ k, ¬ seated (by_id L) k v) ∨ ∃ k ln i r, by_id L !! k = Some ln ∧ ln_chain ln !! i = Some r ∧ r_user r = v.
Proof using Hsim.
  destruct (seat_of L v) as [k|] eqn:E.
  - apply (seat_of_Some L v k (lw_chains L (sim_wf _ _ _ Hsim))) in E as (ln & Hln & Hin). right.
    apply list_elem_of_fmap in Hin as (r & -> & [i Hi]%list_elem_of_lookup). by exists k, ln, i, r.
  - left. by apply (seat_of_None L v (lw_chains L (sim_wf _ _ _ Hsim))).
Qed.

Lemma info_cases v : get_member_info e v = Err (MemberNotFound v) ∨ ∃ p, get_member_info e v = Ok [p].
Proof using Hsim. destruct (seat_cases v) as [Hno|(k & ln & i & r & Hk & Hi & <-)]; [left; by apply info_absent|right]. eexists. by eapply info_seated. Qed.
End positions.

(** Unchanged chains, unchanged positions. *)
Lemma info_same c c' e L e' L' v : sim c e L → sim c' e' L' → (∀ k, seated (by_id L') k v → seated (by_id L) k v) →
  (∀ k ln i r, by_id L !! k = Some ln → ln_chain ln !! i = Some r → r_user r = v →
    ∃ ln', by_id L' !! k = Some ln' ∧ ln_chain ln' !! i = Some r ∧ ln_frozen ln' = ln_frozen ln) →
  get_member_info e' v = get_member_info e v.
Proof.
  intros Hsim Hsim' Hback Hforth. destruct (seat_cases c e L Hsim v) as [Hno|(k & ln & i & r & Hk & Hi & <-)].
  - rewrite (info_absent _ _ _ Hsim v Hno). apply (info_absent _ _ _ Hsim'). intros k Hk. by apply (Hno k), Hback.
  - destruct (Hforth k ln i r Hk Hi eq_refl) as (ln' & Hk' & Hi' & Hf). rewrite (info_seated _ _ _ Hsim k ln i r Hk Hi), (info_seated _ _ _ Hsim' k ln' i r Hk' Hi').
    by rewrite Hf.
Qed.

(** ** Enrolment *)

(** A refused enrolment has changed nothing. *)
Lemma add_refused e u sponsor at_ choice e' err : add_member e u sponsor at_ choice = Ok (e', inr err) → e' = e.
Proof.
  unfold add_member, bootstrap_first_member. destruct (is_nil u); [congruence|]. destruct (bool_decide _); [congruence|].
  destruct (bool_decide _).
  - intros H. exfalso. destruct (if bool_decide _ then _ else _) as [[e1 k]| | |]; try done. cbn [mbind outcome_bind] in H.
    destruct (streams e1 !! k) as [s|]; [|done]. cbn [expect mbind outcome_bind] in H. by destruct (tree_expect _) as [[]| | |].
  - destruct (_ && _); [congruence|]. destruct (find_placement_stream e sponsor choice) as [k|err'| |]; [|congruence|done|done].
    destruct (streams e !! k) as [s|]; [|done]. cbn [expect mbind outcome_bind]. unfold append. destruct (bottom s) as [b|].
    + unfold try_tree. destruct (Unilevel.add_node _ _ _ _ _) as [[t idx]|err'| |]; [|congruence|done|done].
      destruct (tree_expect _) as [p| | |]; [|done..]. cbn [mbind outcome_bind]. by destruct p.
    + by destruct (tree_expect _) as [[t idx]| | |].
Qed.

(** The joined line, read back. *)
Lemma join_line_at L k ln u s at_ j : by_id L !! k = Some ln → by_id (join_line L k u s at_) !! j =
  if decide (j = k) then Some (line_with_chain (λ l, l ++ [mkRung u s at_]) ln) else by_id L !! j.
Proof. intros Hk. cbn. case_decide; [subst j; by rewrite lookup_alter_eq, Hk|by rewrite lookup_alter_ne]. Qed.

Lemma joined_info c e L c' e' L0 k ln u s at_ : sim c e L → sim c' e' (join_line L0 k u s at_) → by_id L0 !! k = Some ln →
  (∀ j l0, by_id L0 !! j = Some l0 → l0.(ln_chain) = [] ∨ ∃ l1, by_id L !! j = Some l1 ∧ ln_chain l1 = ln_chain l0 ∧ ln_frozen l1 = ln_frozen l0) →
  (∀ j l1, by_id L !! j = Some l1 → ∃ l0, by_id L0 !! j = Some l0 ∧ ln_chain l1 = ln_chain l0 ∧ ln_frozen l1 = ln_frozen l0) →
  get_member_info e' u = Ok [mkPosition k (N.of_nat (length (ln_chain ln))) (ln_frozen ln)] ∧
  ∀ v, v ≠ u → get_member_info e' v = get_member_info e v.
Proof.
  intros Hsim Hsim' Hk Hback Hforth. pose proof (join_line_at L0 k ln u s at_) as Hat. split.
  - change u with (r_user (mkRung u s at_)) at 1. eapply (info_seated _ _ _ Hsim' k (line_with_chain (λ l, l ++ [mkRung u s at_]) ln)).
    + rewrite Hat by done. by rewrite decide_True.
    + by apply list_lookup_middle.
  - intros v Hv. eapply info_same; [exact Hsim|exact Hsim'| |].
    + intros j (l' & Hl' & Hin). rewrite Hat in Hl' by done. assert (∃ l0, by_id L0 !! j = Some l0 ∧ v ∈ users (ln_chain l0)) as (l0 & Hl0 & Hin0).
      { case_decide; [|eauto]. subst j. injection Hl' as <-. cbn in Hin. unfold users in Hin. rewrite fmap_app, elem_of_app in Hin.
        destruct Hin as [?|?%list_elem_of_singleton]; [eauto|done]. }
      destruct (Hback j l0 Hl0) as [He|(l1 & Hl1 & He & _)]; [rewrite He in Hin0; by apply elem_of_nil in Hin0|]. exists l1. by rewrite He.
    + intros j l1 i r Hl1 Hi Hr. destruct (Hforth j l1 Hl1) as (l0 & Hl0 & He & Hf). rewrite He in Hi. rewrite Hat by done.
      case_decide as Hj; [|exists l0; split_and!; [done|done|by rewrite Hf]]. subst j. assert (l0 = ln) as -> by congruence. eexists. split; [done|].
      split; [by apply lookup_app_l_Some|done].
Qed.

(** What a granted enrolment does to the lines. *)
Lemma spec_add_granted c e L u sponsor at_ choice L' a : sim c e L → spec_add c L u sponsor at_ choice = Ok (L', inl a) →
  ∃ L0 ln s, L' = join_line L0 (stream_id a) u s at_ ∧ by_id L0 !! stream_id a = Some ln ∧
    position a = N.of_nat (length (ln_chain ln)) ∧ size_of L (stream_id a) = length (ln_chain ln) ∧
    from_option ln_frozen false (by_id L !! stream_id a) = ln_frozen ln ∧
    (∀ j l0, by_id L0 !! j = Some l0 → ln_chain l0 = [] ∨ ∃ l1, by_id L !! j = Some l1 ∧ ln_chain l1 = ln_chain l0 ∧ ln_frozen l1 = ln_frozen l0) ∧
    (∀ j l1, by_id L !! j = Some l1 → ∃ l0, by_id L0 !! j = Some l0 ∧ ln_chain l1 = ln_chain l0 ∧ ln_frozen l1 = ln_frozen l0).
Proof.
  intros Hsim H. pose proof (sim_wf _ _ _ Hsim) as Hw. unfold spec_add in H. destruct (is_nil u); [done|]. destruct (bool_decide (is_Some _)); [done|]. case_bool_decide as Hempty.
  - unfold found in H. case_bool_decide as H1.
    + destruct H1 as [ln H1]. cbn [mbind outcome_bind] in H. injection H as <- <-. cbn [stream_id position].
      exists (edit (alter (line_with_owner u) 1%N) (edit_owned (push_at u 1%N) L)), (line_with_owner u ln), None.
      pose proof (Hempty _ _ H1) as Hch. cbn in Hch. unfold size_of. rewrite H1. cbn. rewrite Hch.
      split_and!; try done; [by rewrite lookup_alter_eq, H1| |]; intros j l0; rewrite lookup_alter; case_decide as Hj; try (subst j; rewrite H1).
      * intros [= <-]. left. done.
      * eauto.
      * intros [= <-]. by eexists.
      * eauto.
    + destruct (open_lines L u at_ 1) as [[L1 ids]| | |] eqn:Hop; try done. cbn [mbind outcome_bind] in H.
      assert (∃ k, ids = [k]) as [k ->]. { unfold open_lines in Hop. destruct (_ <? _)%N; [done|]. injection Hop as _ <-. by eexists. }
      destruct (open_one L u at_ L1 k Hop) as (Hk & Hby & _ & _). change (default 0%N (head [k])) with k in H. injection H as <- <-. cbn [stream_id position].
      assert (Hln : by_id L1 !! k = Some (mkLine u false at_ [])) by (rewrite Hby; apply lookup_insert_eq).
      assert (Hfree : by_id L !! k = None). { destruct (by_id L !! k) eqn:E; [|done]. pose proof (lw_ids L Hw k ltac:(eauto)). lia. }
      rewrite (alter_owner_same u k L1 _ Hln eq_refl). exists L1, (mkLine u false at_ []), None. unfold size_of. rewrite Hfree.
      split_and!; try done; intros j l0; rewrite Hby, lookup_insert; case_decide as Hj; try (subst j).
      * intros [= <-]. by left.
      * eauto.
      * congruence.
      * eauto.
  - destruct (_ && _); [done|]. destruct (target_line c L sponsor choice) as [k|] eqn:Ht; [|done].
    destruct (target_owned c e L Hsim sponsor choice k Ht) as (ln & Hln & _). rewrite Hln in H. cbn [from_option] in H.
    assert (∃ s, L' = join_line L k u s at_ ∧ a = mkAdded k (N.of_nat (length (ln_chain ln)))) as (s & -> & ->).
    { case_bool_decide as He; [injection H as <- <-; rewrite He; eauto|]. destruct (negb _); [done|]. destruct (_ <? _)%N; [done|]. injection H as <- <-. eauto. }
    cbn [stream_id position]. exists L, ln, s. unfold size_of. rewrite Hln. split_and!; try done; eauto.
Qed.

(** A refused enrolment changes nothing. A granted one reports the stream and
    the number of members that were on it, which is the position a query then
    finds the new member at; every other member's position is unchanged. *)
Theorem enrol_exact c e u sponsor at_ choice e' r : live c e → add_member e u sponsor at_ choice = Ok (e', r) →
  match r with
  | inr _ => e' = e
  | inl a =>
      position a = N.of_nat (from_option (λ s, length (tree_users s)) 0 (streams e !! stream_id a)) ∧
      get_member_info e' u = Ok [mkPosition (stream_id a) (position a) (from_option frozen false (streams e !! stream_id a))] ∧
      ∀ v, v ≠ u → get_member_info e' v = get_member_info e v
  end.
Proof.
  intros (L & Hsim)%live_sim H. destruct r as [a|err]; [|by eapply add_refused].
  pose proof (add_agrees c e L u sponsor at_ choice Hsim) as Ha. rewrite H in Ha. unfold agrees in Ha.
  destruct (spec_add c L u sponsor at_ choice) as [[L' r]| | |] eqn:Hspec; try done. destruct Ha as [Hsim' <-].
  destruct (spec_add_granted c e L _ _ _ _ _ _ Hsim Hspec) as (L0 & ln & s & -> & Hk & Hp & Hsize & Hf & Hback & Hforth).
  destruct (joined_info c e L c e' L0 _ ln u s at_ Hsim Hsim' Hk Hback Hforth) as [Hu Hv]. split_and!; [| |done].
  - rewrite Hp, <- Hsize. unfold size_of. pose proof (sim_streams _ _ _ Hsim (stream_id a)) as Hs. inversion Hs as [st l1 Hr E1 E2|E1 E2]; cbn; [|done].
    by rewrite (rep_count _ _ _ Hr).
  - rewrite Hu, Hp, <- Hf. pose proof (sim_streams _ _ _ Hsim (stream_id a)) as Hs. inversion Hs as [st l1 Hr E1 E2|E1 E2]; cbn; [|done].
    by rewrite (rep_frozen _ _ _ Hr).
Qed.

(** C30. When the stream chosen for a sponsor's recruit is not empty and the sponsor
    does not stand on it, the enrolment is refused and nothing changes: the same
    stream is chosen again, so the sponsor cannot enrol anybody without naming
    another stream. A stream opened for a rank is such a stream from its second
    member on, because its owner stands elsewhere. *)
Theorem enrol_stuck c e u sponsor at_ choice k s : live c e → u ≠ nil_uuid → user_streams e !! u = None →
  find_placement_stream e sponsor choice = Ok k → streams e !! k = Some s → tree_users s ≠ [] → tree_contains s sponsor = false →
  add_member e u sponsor at_ choice = Ok (e, inr (TreeFailed (TreeTypes.SponsorNotFound sponsor))).
Proof.
  intros (L & Hsim)%live_sim Hu Hnew Hplace Hs Hne Hout. pose proof (sim_wf _ _ _ Hsim) as Hw.
  rewrite (placement_agrees c e L Hsim) in Hplace. destruct (target_line c L sponsor choice) as [k'|] eqn:Ht; [|done]. injection Hplace as ->.
  destruct (target_owned c e L Hsim _ _ _ Ht) as (ln & Hln & Ho & Hsn). destruct (shows_back _ _ _ _ (sim_streams _ _ _ Hsim) Hs) as (ln' & Hln' & Hrep).
  assert (ln' = ln) as -> by congruence. assert (Hch : ln_chain ln ≠ []).
  { intros He. pose proof (rep_users _ _ _ Hrep) as Hp. rewrite He in Hp. by apply Permutation_nil_r in Hp. }
  assert (Hspec : spec_add c L u sponsor at_ choice = Ok (L, inr (TreeFailed (TreeTypes.SponsorNotFound sponsor)))).
  { unfold spec_add. unfold is_nil. rewrite bool_decide_eq_false_2 by done.
    rewrite (member_seat c e L Hsim) in Hnew. apply fmap_None in Hnew. rewrite Hnew. rewrite bool_decide_eq_false_2 by (by intros []).
    rewrite bool_decide_eq_false_2 by (intros H; by apply Hch, (H k ln Hln)).
    destruct (proj2 (lw_owner L Hw sponsor k)) as (ids & Hids & _); [split; [done|by exists ln]|].
    rewrite Hids. rewrite (bool_decide_eq_false_2 (Some ids = None)), andb_false_r by done. rewrite Ht, Hln. cbn [from_option].
    rewrite bool_decide_eq_false_2 by done. rewrite (rep_contains _ _ _ _ Hrep) in Hout. apply bool_decide_eq_false in Hout.
    by rewrite bool_decide_eq_false_2. }
  pose proof (add_agrees c e L u sponsor at_ choice Hsim) as Ha. rewrite Hspec in Ha.
  destruct (add_member e u sponsor at_ choice) as [[e' r]| | |] eqn:E; try done. destruct Ha as [_ ->]. by rewrite (add_refused _ _ _ _ _ _ _ E).
Qed.
