(* ===== verification/StreamlineChanges.v ===== *)
(** * Removals and allowances

    The effect of a removal on everybody's position and on the streams the member
    owned, and the number and choice of streams after an allowance update. *)

From stdpp Require Import base numbers list gmap sorting strings.
From Stdlib Require Import ZArith Lia.
From S2P Require Import Prelude TreeTypes Arena Unilevel StreamTree Streamline StreamSpec StreamRefine StreamlineTheorems.
Import Streamline.

(** ** Removal *)

(** A member left on the spliced chain: one place up when it stood below. *)
Lemma splice_lookup l i r j x : chain_wf l → l !! i = Some r → l !! j = Some x → j ≠ i →
  ∃ x', splice_out (r_user r) l !! (if (i <? j)%nat then j - 1 else j) = Some x' ∧ r_user x' = r_user x.
Proof.
  intros Hl Hi Hj Hne. pose proof (splice_users_app l i r Hl Hi) as Hu. unfold users in Hu. pose proof (lookup_lt_Some _ _ _ Hi) as Hlt.
  assert ((r_user <$> splice_out (r_user r) l) !! (if (i <? j)%nat then j - 1 else j) = Some (r_user x)) as H.
  { rewrite Hu, fmap_take, fmap_drop. destruct (Nat.ltb_spec i j) as [Hij|Hij].
    - rewrite lookup_app_r, length_take, length_fmap, lookup_drop by (rewrite length_take, length_fmap; lia).
      replace (S i + (j - 1 - i `min` length l)) with j by lia. by rewrite list_lookup_fmap, Hj.
    - rewrite lookup_app_l, lookup_take_lt by (rewrite ?length_take, ?length_fmap; lia). by rewrite list_lookup_fmap, Hj. }
  rewrite list_lookup_fmap in H. apply fmap_Some in H as (x' & Hx' & He). eauto.
Qed.

(** The lines after the removal. *)
Section after.
Context (L : lines) (u : Uuid) (k : N) (ln : line) (Hwf : lines_wf L) (Hk : by_id L !! k = Some ln) (Hu : u ∈ users (ln_chain ln)).

Abbreviation after := (foldl hand_over (bare L u k) (heirs L u k)).

Lemma after_at j l0 : by_id L !! j = Some l0 → ∃ l1, by_id after !! j = Some l1 ∧ ln_frozen l1 = ln_frozen l0 ∧
  ln_chain l1 = (if decide (j = k) then splice_out u (ln_chain l0) else ln_chain l0) ∧
  ln_owner l1 = (if decide (ln_owner l0 = u) then top l1 else ln_owner l0).
Proof using All.
  intros Hj. rewrite handed_lookup, (bare_at L u k ln Hk).
  assert (j ∈ heirs L u k ↔ ln_owner l0 = u) as Hin.
  { rewrite (heirs_owner L u k Hwf). unfold owner_is. rewrite Hj. split; [intros (_ & ? & [= <-] & He); done|]. intros He. split; [|eauto].
    eapply seated_not_nil; [apply (lw_chains L Hwf)|by exists ln]. }
  destruct (decide (j = k)) as [->|Hne].
  - assert (l0 = ln) as -> by congruence. destruct (decide (k ∈ heirs L u k)) as [Hi|Hi]; (eexists; split; [done|]; cbn; split_and!; try done).
    + by rewrite decide_True by (by apply Hin).
    + by rewrite decide_False by (by rewrite <- Hin).
  - rewrite Hj. destruct (decide (j ∈ heirs L u k)) as [Hi|Hi]; (eexists; split; [done|]; cbn; split_and!; try done).
    + by rewrite decide_True by (by apply Hin).
    + by rewrite decide_False by (by rewrite <- Hin).
Qed.

Lemma after_seated j v : seated (by_id after) j v ↔ seated (by_id L) j v ∧ v ≠ u.
Proof using All.
  rewrite <- (bare_seated L u k ln Hwf Hk Hu). unfold seated. rewrite handed_lookup. case_decide; [|done].
  destruct (by_id (bare L u k) !! j) as [l0|]; cbn; naive_solver.
Qed.
End after.

(** C28. A member can always be removed. The index loses that member alone; members
    below it on its stream move up one place and everyone else keeps theirs; every
    stream the member owned passes to the member at its top, or to nobody when it
    is empty, and no other stream changes owner. *)
Theorem remove_compacts c e u at_ p : live c e → get_member_info e u = Ok [p] →
  ∃ e', remove_member e u at_ = Ok (e', inl [sp_stream_id p]) ∧ user_streams e' = delete u (user_streams e) ∧
    (∀ v q, v ≠ u → get_member_info e v = Ok [q] → get_member_info e' v = Ok [mkPosition (sp_stream_id q)
      (if (sp_stream_id q =? sp_stream_id p)%N && (sp_position p <? sp_position q)%N then sp_position q - 1 else sp_position q)%N (sp_frozen q)]) ∧
    (∀ j s, streams e !! j = Some s → ∃ s' l, streams e' !! j = Some s' ∧ chain_of (tree s') l ∧ frozen s' = frozen s ∧
      owner_id s' = if decide (owner_id s = u) then default nil_uuid (r_user <$> head l) else owner_id s).
Proof.
  intros (L & Hsim)%live_sim Hp. pose proof (sim_wf _ _ _ Hsim) as Hw.
  destruct (seat_cases c e L Hsim u) as [Hno|(k & ln & i & r & Hk & Hi & Hr)]; [rewrite (info_absent c e L Hsim u Hno) in Hp; done|].
  assert (Hu : u ∈ users (ln_chain ln)) by (rewrite <- Hr; apply list_elem_of_fmap_2; by eapply list_elem_of_lookup_2).
  rewrite <- Hr, (info_seated c e L Hsim k ln i r Hk Hi) in Hp. injection Hp as <-. cbn [sp_stream_id sp_position].
  pose proof (remove_agrees c e L u at_ Hsim) as Ha. rewrite (spec_remove_at L u k ln Hw Hk Hu) in Ha.
  destruct (remove_member e u at_) as [[e' r']| | |]; try done. destruct Ha as [Hsim' ->]. exists e'. split; [done|].
  pose proof (after_at L u k ln Hw Hk Hu) as Hat. split_and!.
  - apply map_eq. intros v. apply option_eq. intros ids. rewrite (sim_users _ _ _ Hsim' v ids). setoid_rewrite (after_seated L u k ln Hw Hk Hu).
    rewrite lookup_delete_Some, (sim_users _ _ _ Hsim v ids). naive_solver.
  - intros v q Hv Hq. destruct (seat_cases c e L Hsim v) as [Hno|(j & l0 & m & x & Hj & Hm & Hx)]; [rewrite (info_absent c e L Hsim v Hno) in Hq; done|].
    rewrite <- Hx, (info_seated c e L Hsim j l0 m x Hj Hm) in Hq. injection Hq as <-. cbn [sp_stream_id sp_position sp_frozen].
    destruct (Hat j l0 Hj) as (l1 & Hl1 & Hf & Hch & _). rewrite <- Hf.
    destruct (N.eqb_spec j k) as [->|Hjk]; cbn [andb].
    + assert (l0 = ln) as -> by congruence. rewrite decide_True in Hch by done. destruct (lw_chain _ (lw_chains L Hw) k ln Hk) as [Hcw _].
      destruct (splice_lookup _ i r m x Hcw Hi Hm) as (x' & Hx' & He); [intros ->; congruence|]. rewrite Hr, <- Hch in Hx'.
      pose proof (info_seated c e' _ Hsim' k l1 _ x' Hl1 Hx') as Hinfo. rewrite He, Hx in Hinfo. rewrite Hinfo. repeat f_equal.
      destruct (Nat.ltb_spec i m), (N.ltb_spec (N.of_nat i) (N.of_nat m)); lia.
    + rewrite decide_False in Hch by done. rewrite <- Hch in Hm. pose proof (info_seated c e' _ Hsim' j l1 m x Hl1 Hm) as Hinfo. by rewrite Hx in Hinfo.
  - intros j s Hs. destruct (shows_back _ _ _ _ (sim_streams _ _ _ Hsim) Hs) as (l0 & Hl0 & Hrep).
    destruct (Hat j l0 Hl0) as (l1 & Hl1 & Hf & _ & Ho). destruct (shows_Some _ _ _ _ (sim_streams _ _ _ Hsim') Hl1) as (s' & Hs' & Hrep').
    exists s', (ln_chain l1). split_and!; [done|apply Hrep'|by rewrite (rep_frozen _ _ _ Hrep'), (rep_frozen _ _ _ Hrep)|].
    rewrite (rep_owner _ _ _ Hrep'), (rep_owner _ _ _ Hrep). exact Ho.
Qed.

(** ** Allowances *)
Lemma StronglySorted_sublist {A} (R : A → A → Prop) l k : sublist l k → StronglySorted R k → StronglySorted R l.
Proof.
  induction 1 as [|x l k Hs IH|x l k Hs IH]; [done| |]; intros Hk; apply StronglySorted_inv in Hk as [Hk Hx]; [|by apply IH].
  constructor; [by apply IH|]. apply Forall_forall. intros y Hy. apply (proj1 (Forall_forall _ _) Hx). by eapply elem_of_sublist.
Qed.

Lemma StronglySorted_map {A B} (R : A → A → Prop) (R' : B → B → Prop) (f : A → B) l :
  (∀ x y, x ∈ l → y ∈ l → R x y → R' (f x) (f y)) → StronglySorted R l → StronglySorted R' (f <$> l).
Proof.
  intros HR Hl. induction Hl as [|x l Hl IH Hx]; [constructor|]. rewrite fmap_cons. constructor.
  - apply IH. intros y z Hy Hz. apply HR; by right.
  - apply Forall_fmap, Forall_forall. intros z Hz. apply HR; [left|by right|]. by apply (proj1 (Forall_forall _ _) Hx).
Qed.

Definition created_at_of (L : lines) (k : N) : Z := from_option ln_created 0%Z (by_id L !! k).

Section table.
Context (c : StreamlineConfig) (e : StreamlineEngine) (L : lines) (Hsim : sim c e L).
Context (u : Uuid) (ids : list N) (Hids : owned_by L !! u = Some ids).

Lemma own_table_elem x : x ∈ own_table L ids ↔ x.1.1 ∈ ids ∧ ∃ ln, by_id L !! x.1.1 = Some ln ∧ x = (x.1.1, ln_created ln, ln_frozen ln).
Proof using.
  unfold own_table. rewrite sort_by_perm, list_elem_of_omap. split.
  - intros (k & Hk & (ln & Hln & ->)%fmap_Some). cbn. split; [done|]. by exists ln.
  - intros (Hk & ln & Hln & He). exists x.1.1. split; [done|]. rewrite Hln. cbn. by rewrite <- He.
Qed.

Lemma flagged_elem b k : k ∈ flagged L ids b ↔ k ∈ ids ∧ ∃ ln, by_id L !! k = Some ln ∧ ln_frozen ln = b.
Proof using.
  unfold flagged. rewrite list_elem_of_fmap. split.
  - intros (y & -> & (x & -> & [Hb Hx]%list_elem_of_filter)%list_elem_of_fmap). apply own_table_elem in Hx as (Hk & ln & Hln & He).
    split; [done|]. exists ln. split; [done|]. by rewrite <- Hb, He.
  - intros (Hk & ln & Hln & <-). exists (k, ln_created ln). split; [done|]. apply list_elem_of_fmap. exists (k, ln_created ln, ln_frozen ln).
    split; [done|]. apply list_elem_of_filter. split; [done|]. apply own_table_elem. split; [done|]. by exists ln.
Qed.

(** Oldest first. *)
Lemma flagged_sorted b : StronglySorted (λ j k, (created_at_of L j ≤ created_at_of L k)%Z) (flagged L ids b).
Proof using.
  eapply StronglySorted_sublist; [apply flagged_sub|]. rewrite <- list_fmap_compose.
  eapply (StronglySorted_map (λ x y : entry, (x.1.2 ≤ y.1.2)%Z)).
  - intros x y (_ & lx & Hx & Ex)%own_table_elem (_ & ly & Hy & Ey)%own_table_elem. cbn. unfold created_at_of. rewrite Hx, Hy. cbn.
    rewrite Ex, Ey. done.
  - rewrite <- (list_fmap_id (own_table L ids)). eapply (StronglySorted_map (λ x y, cmp_leb (λ x y : entry, Z.compare x.1.2 y.1.2) x y = true)).
    + intros x y _ _. unfold cmp_leb, Datatypes.id. destruct (Z.compare_spec x.1.2 y.1.2); [intros _; lia|intros _; lia|done].
    + apply sort_by_sorted; unfold cmp_leb.
      * intros x y. destruct (Z.compare_spec x.1.2 y.1.2), (Z.compare_spec y.1.2 x.1.2); auto; lia.
      * intros x y z. destruct (Z.compare_spec x.1.2 y.1.2), (Z.compare_spec y.1.2 z.1.2), (Z.compare_spec x.1.2 z.1.2); auto; lia.
Qed.

Lemma owned_nodup : NoDup ids.
Proof using Hsim Hids. apply (lw_owned L (sim_wf _ _ _ Hsim) u ids Hids). Qed.
End table.

(** The owner's streams that take part in placement and pay, and those that do not. *)
Definition active_of (e : StreamlineEngine) (u : Uuid) : list N :=
  filter (λ k, frozen <$> streams e !! k = Some false) (default [] (stream_owners e !! u)).
Definition idle_of (e : StreamlineEngine) (u : Uuid) : list N :=
  filter (λ k, frozen <$> streams e !! k = Some true) (default [] (stream_owners e !! u)).

Definition flag_of (L : lines) (u : Uuid) (b : bool) : list N :=
  filter (λ k, ln_frozen <$> by_id L !! k = Some b) (default [] (owned_by L !! u)).

Lemma sim_flag c e L : sim c e L → ∀ k, frozen <$> streams e !! k = ln_frozen <$> by_id L !! k.
Proof. intros [_ HS _ _ _ _] k. specialize (HS k). inversion HS as [s ln Hr E1 E2|]; cbn; [|done]. by rewrite (rep_frozen _ _ _ Hr). Qed.

Lemma active_flag c e L u : sim c e L → active_of e u = flag_of L u false ∧ idle_of e u = flag_of L u true.
Proof.
  intros Hsim. unfold active_of, idle_of, flag_of. rewrite (sim_owners _ _ _ Hsim).
  split; apply list_filter_iff; intros k; by rewrite (sim_flag c e L Hsim).
Qed.

Lemma created_sim c e L k : sim c e L → from_option created_at 0%Z (streams e !! k) = created_at_of L k.
Proof. intros [_ HS _ _ _ _]. specialize (HS k). unfold created_at_of. inversion HS as [s ln Hr E1 E2|]; cbn; [|done]. apply (rep_created _ _ _ Hr). Qed.

Lemma drop_elem_nodup {A} (l : list A) m x : NoDup l → x ∈ drop m l ↔ x ∈ l ∧ x ∉ take m l.
Proof.
  intros Hnd. rewrite <- (take_drop m l) in Hnd |- * at 2. apply NoDup_app in Hnd as (_ & Hd & _). rewrite elem_of_app. split.
  - intros Hx. split; [by right|]. intros Hx'. by apply (Hd x).
  - intros [[Hx|Hx] Hn]; [done|done].
Qed.

Section allowed.
Context (c : StreamlineConfig) (e : StreamlineEngine) (L : lines) (Hsim : sim c e L).
Context (u : Uuid) (ids : list N) (Hids : owned_by L !! u = Some ids).

Abbreviation A := (flagged L ids false).
Abbreviation I := (flagged L ids true).

Lemma flag_elem L' b k : k ∈ flag_of L' u b ↔ k ∈ default [] (owned_by L' !! u) ∧ ∃ ln, by_id L' !! k = Some ln ∧ ln_frozen ln = b.
Proof using. unfold flag_of. rewrite list_elem_of_filter, fmap_Some. naive_solver. Qed.

Lemma flag_nodup L' b : lines_wf L' → NoDup (flag_of L' u b).
Proof using.
  intros Hw. apply NoDup_filter. destruct (owned_by L' !! u) as [l|] eqn:E; [by apply (lw_owned L' Hw u l E)|constructor].
Qed.

(** Freezing or closing the newest leaves the rest of the active ones. *)
Lemma fewer_active m L' : lines_wf L' →
  (∀ k, k ∈ flag_of L' u false ↔ k ∈ A ∧ k ∉ take m (reverse A)) → flag_of L' u false ≡ₚ drop m (reverse A).
Proof using Hsim Hids.
  intros Hw Hin. assert (NoDup (reverse A)) as Hnd by (rewrite reverse_Permutation; by eapply flagged_nodup).
  apply NoDup_Permutation; [by apply flag_nodup|eapply sublist_NoDup; [exact Hnd|apply sublist_drop]|].
  intros k. rewrite Hin, (drop_elem_nodup _ _ _ Hnd), elem_of_reverse. done.
Qed.

Lemma frozen_active m : flag_of (freeze_lines true (take m (reverse A)) L) u false ≡ₚ drop m (reverse A).
Proof using Hsim Hids.
  apply fewer_active; [apply freeze_lines_wf, Hsim|]. intros k. rewrite flag_elem, flagged_elem. cbn [owned_by freeze_lines edit]. rewrite Hids.
  change (default [] (Some ids)) with ids. change (by_id (edit _ L)) with (by_id (freeze_lines true (take m (reverse A)) L)). rewrite freeze_lines_at.
  destruct (decide (k ∈ take m (reverse A))) as [Hk|Hk]; [|naive_solver]. destruct (by_id L !! k) as [ln|]; cbn; naive_solver.
Qed.

Lemma closed_active m : flag_of (close_lines u (take m (reverse A)) L) u false ≡ₚ drop m (reverse A).
Proof using Hsim Hids.
  assert (Hex : ∀ k, k ∈ take m (reverse A) → k ∈ A).
  { intros k (i & Hi & _)%elem_of_take. apply list_elem_of_lookup_2 in Hi. by rewrite elem_of_reverse in Hi. }
  apply fewer_active.
  - apply close_lines_wf; [apply Hsim|]. intros k Hk%Hex. exists ids. split; [done|]. by eapply flagged_in.
  - intros k. rewrite flag_elem, flagged_elem. unfold close_lines. cbn [owned_by by_id]. rewrite Hids. change (default [] (Some ids)) with ids.
    rewrite foldl_delete_lookup. set (ex := take m (reverse A)) in *.
    assert (default [] ((if bool_decide (filter (λ k, k ∉ ex) ids = []) then delete u (owned_by L) else <[u := filter (λ k, k ∉ ex) ids]> (owned_by L)) !! u) =
      filter (λ k, k ∉ ex) ids) as ->. { case_bool_decide as He; [rewrite lookup_delete_eq, He|rewrite lookup_insert_eq]; done. }
    rewrite list_elem_of_filter. destruct (decide (k ∈ ex)); naive_solver.
Qed.

(** Unfreezing the oldest and opening new ones adds to the active ones. *)
Lemma grown_flags m L' at_ count new : open_lines (freeze_lines false (take m I) L) u at_ count = Ok (L', new) → u ≠ nil_uuid →
  flag_of L' u false ≡ₚ A ++ take m I ++ new ∧ flag_of L' u true ≡ₚ drop m I.
Proof using Hsim Hids.
  intros Hop Hu. pose proof (open_lines_wf _ _ _ _ _ _ (freeze_lines_wf false (take m I) L (sim_wf _ _ _ Hsim)) Hu Hop) as Hw'.
  assert (Hnd : NoDup I) by (by eapply flagged_nodup). pose proof (flagged_nodup c e L Hsim u ids Hids false) as HndA.
  assert (Hback : ∀ k, k ∈ take m I → k ∈ I) by (intros k (i & Hi & _)%elem_of_take; by eapply list_elem_of_lookup_2).
  unfold open_lines in Hop. destruct (u32_max <? _)%N; [done|]. pose proof (opened_ids (next_id L) count) as Hfr.
  pose proof (opened_nodup (next_id L) count) as Hndf. injection Hop as <- <-. cbn [next_id freeze_lines edit owned_by] in *. rewrite Hids in *.
  change (default [] (Some ids)) with ids in *. set (new := (λ i, next_id L + N.of_nat i)%N <$> seq 0 (N.to_nat count)) in *.
  assert (Hnew : ∀ k, k ∈ new → by_id L !! k = None).
  { intros k Hk%Hfr. destruct (by_id L !! k) eqn:E; [|done]. pose proof (lw_ids L (sim_wf _ _ _ Hsim) k ltac:(eauto)). lia. }
  assert (Hold : ∀ b k, k ∈ flagged L ids b → k ∉ new).
  { intros b k [_ (ln & Hln & _)]%flagged_elem Hk%Hnew. congruence. }
  assert (Hin : ∀ b k, k ∈ flag_of (mkLines (foldl (λ m k, <[k := mkLine u false at_ []]> m) (foldl (λ m k, alter (line_with_frozen false) k m) (by_id L) (take m I)) new)
      (if bool_decide (new = []) then owned_by L else <[u := ids ++ new]> (owned_by L)) (next_id L + count)) u b ↔
    (k ∈ new ∧ b = false) ∨ (k ∈ take m I ∧ b = false) ∨ (k ∈ flagged L ids b ∧ k ∉ take m I)).
  { intros b k. rewrite flag_elem. cbn [owned_by by_id]. rewrite foldl_insert_lookup, foldl_alter_lookup by done. rewrite flagged_elem.
    assert (default [] ((if bool_decide (new = []) then owned_by L else <[u := ids ++ new]> (owned_by L)) !! u) = ids ++ new) as ->.
    { case_bool_decide as He; [rewrite Hids, He, app_nil_r|rewrite lookup_insert_eq]; done. }
    rewrite elem_of_app. destruct (decide (k ∈ new)) as [Hk|Hk].
    - assert (k ∉ take m I) as Hk1 by (intros Hk'%Hback; by apply (Hold true k)). rewrite (Hnew k Hk). naive_solver.
    - destruct (decide (k ∈ take m I)) as [Hk'|Hk'].
      + pose proof (Hback k Hk') as [Hkid (ln & Hln & Hf)]%flagged_elem. rewrite Hln. cbn. naive_solver.
      + naive_solver. }
  split.
  - apply NoDup_Permutation; [by apply flag_nodup| |].
    + apply NoDup_app. split_and!; [done| |].
      * intros k [Hkid (ln & Hln & Hf)]%flagged_elem Hk. apply elem_of_app in Hk as [Hk|Hk].
        -- apply Hback, flagged_elem in Hk as (_ & ln' & Hln' & Hf'). congruence.
        -- apply Hnew in Hk. congruence.
      * apply NoDup_app. split_and!; [eapply sublist_NoDup; [exact Hnd|apply sublist_take]| |done]. intros k Hk%Hback. by eapply Hold.
    + intros k. rewrite Hin, !elem_of_app. assert (k ∈ A → k ∉ take m I) as Hd; [|naive_solver].
      intros [_ (ln & Hln & Hf)]%flagged_elem Hk. apply Hback, flagged_elem in Hk as (_ & ln' & Hln' & Hf'). congruence.
  - apply NoDup_Permutation; [by apply flag_nodup|eapply sublist_NoDup; [exact Hnd|apply sublist_drop]|].
    intros k. rewrite Hin, (drop_elem_nodup _ _ _ Hnd). naive_solver.
Qed.
End allowed.

(** Only a destroyed stream takes members off the index. *)
Lemma same_index c e L e' L' : sim c e L → sim c e' L' → (∀ k u, seated (by_id L') k u ↔ seated (by_id L) k u) → user_streams e' = user_streams e.
Proof.
  intros Hs Hs' H. apply map_eq. intros v. apply option_eq. intros ids. rewrite (sim_users _ _ _ Hs v ids), (sim_users _ _ _ Hs' v ids).
  by setoid_rewrite H.
Qed.

Lemma freeze_seated b ids L k u : seated (by_id (freeze_lines b ids L)) k u ↔ seated (by_id L) k u.
Proof. unfold seated. rewrite freeze_lines_at. case_decide; [|done]. destruct (by_id L !! k); cbn; naive_solver. Qed.

Lemma open_seated L u at_ count L' ids k v : lines_wf L → open_lines L u at_ count = Ok (L', ids) → seated (by_id L') k v ↔ seated (by_id L) k v.
Proof.
  intros Hw. unfold open_lines. destruct (_ <? _)%N; [done|]. intros [= <- _]. unfold seated. cbn [by_id]. rewrite foldl_insert_lookup.
  case_decide as Hk; [|done]. apply opened_ids in Hk. split; [intros (? & [= <-] & ?%elem_of_nil); done|]. intros (ln & Hln & _).
  pose proof (lw_ids L Hw k ltac:(eauto)). lia.
Qed.

(** The newest active streams go, the oldest idle ones come back. *)
Lemma newest_first L ids m j k : k ∈ take m (reverse (flagged L ids false)) → j ∈ drop m (reverse (flagged L ids false)) →
  (created_at_of L j ≤ created_at_of L k)%Z.
Proof.
  intros Hk Hj. pose proof (flagged_sorted L ids false) as Hs. set (R := reverse (flagged L ids false)) in *.
  assert (flagged L ids false = reverse (drop m R) ++ reverse (take m R)) as He.
  { rewrite <- reverse_app, take_drop. subst R. by rewrite reverse_involutive. }
  rewrite He in Hs. eapply (StronglySorted_app_1_elem_of (λ j k, (created_at_of L j ≤ created_at_of L k)%Z)); [exact Hs| |]; by rewrite elem_of_reverse.
Qed.

Lemma oldest_first L ids m j k : k ∈ take m (flagged L ids true) → j ∈ drop m (flagged L ids true) → (created_at_of L k ≤ created_at_of L j)%Z.
Proof.
  intros Hk Hj. pose proof (flagged_sorted L ids true) as Hs. rewrite <- (take_drop m (flagged L ids true)) in Hs.
  by eapply (StronglySorted_app_1_elem_of (λ j k, (created_at_of L j ≤ created_at_of L k)%Z)).
Qed.

(** C29. An allowance update leaves exactly the allowed number of active streams.
    The streams frozen or destroyed are the newest of the active ones, the streams
    unfrozen the oldest of the idle ones, and new streams are opened only when no
    idle one is left; no member loses a place unless a stream is destroyed. *)
Theorem allowance_exact c e u total at_ e' r : live c e → update_stream_allowance e u total at_ = Ok (e', inl r) →
  N.of_nat (length (active_of e' u)) = total ∧
  (∀ k j, k ∈ fr_frozen r ++ fr_destroyed r → j ∈ active_of e' u →
    (from_option created_at 0 (streams e !! j) ≤ from_option created_at 0 (streams e !! k))%Z) ∧
  (∀ k j, k ∈ fr_unfrozen r → j ∈ idle_of e' u →
    (from_option created_at 0 (streams e !! k) ≤ from_option created_at 0 (streams e !! j))%Z) ∧
  (fr_created r ≠ [] → idle_of e' u = []) ∧
  (fr_destroyed r = [] → user_streams e' = user_streams e).
Proof.
  intros (L & Hsim)%live_sim H. pose proof (allow_agrees c e L u total at_ Hsim) as Ha. rewrite H in Ha. clear H. unfold agrees in Ha.
  destruct (spec_allow c L u total at_) as [[L' r']| | |] eqn:Hspec; try done. destruct Ha as [Hsim' <-].
  destruct (active_flag c e' L' u Hsim') as [-> ->]. setoid_rewrite (created_sim c e L _ Hsim).
  unfold spec_allow in Hspec. destruct (owned_by L !! u) as [ids|] eqn:Hids; [|done]. fold (flagged L ids false) (flagged L ids true) in Hspec.
  set (n := N.of_nat (length (flagged L ids false))) in *. destruct (N.ltb_spec total n) as [Hlt|Hge].
  - set (m := N.to_nat (n - total)) in *. assert (Hlen : N.of_nat (length (drop m (reverse (flagged L ids false)))) = total) by (rewrite length_drop, length_reverse; lia).
    assert (Hact : flag_of L' u false ≡ₚ drop m (reverse (flagged L ids false))).
    { destruct (freeze_on_demotion c); injection Hspec as <- _; [by eapply frozen_active|by eapply closed_active]. }
    assert (Hr : r = mkFreeze (take m (reverse (flagged L ids false))) [] [] [] ∧ L' = freeze_lines true (take m (reverse (flagged L ids false))) L ∨
      r = mkFreeze [] [] [] (take m (reverse (flagged L ids false)))) by (destruct (freeze_on_demotion c); injection Hspec as <- <-; auto).
    rewrite Hact. split; [done|]. split.
    { intros k j Hk Hj. rewrite Hact in Hj. eapply newest_first; [|exact Hj]. destruct Hr as [[-> _]| ->]; cbn in Hk; by rewrite ?app_nil_r in Hk. }
    destruct Hr as [[-> ->]| ->]; cbn [fr_unfrozen fr_created fr_destroyed]; split_and!; try done; try (by intros k j ?%elem_of_nil).
    + intros _. eapply same_index; [exact Hsim|exact Hsim'|]. apply freeze_seated.
    + intros Hnil. apply (f_equal length) in Hnil. rewrite length_take, length_reverse in Hnil. cbn in Hnil. lia.
  - set (m := N.to_nat (total - n)) in *. set (back := take m (flagged L ids true)) in *.
    destruct (open_lines (freeze_lines false back L) u at_ _) as [[L1 new]| | |] eqn:Hop; try done. cbn [mbind outcome_bind] in Hspec.
    injection Hspec as <- <-. assert (Hu : u ≠ nil_uuid). { apply (known_not_nil c e L Hsim). rewrite Hids. by rewrite andb_comm. }
    destruct (grown_flags c e L Hsim u ids Hids m L1 at_ _ new Hop Hu) as [Hact Hidle]. fold back in Hact.
    assert (Hnew : length new = N.to_nat (total - n - N.of_nat (length back))).
    { unfold open_lines in Hop. destruct (_ <? _)%N; [done|]. injection Hop as _ <-. by rewrite length_fmap, length_seq. }
    cbn [fr_frozen fr_destroyed fr_unfrozen fr_created app]. rewrite Hact, !length_app. split_and!.
    + assert (length back ≤ m) by (subst back; rewrite length_take; lia). lia.
    + by intros k j ?%elem_of_nil.
    + intros k j Hk Hj. rewrite Hidle in Hj. by eapply oldest_first.
    + intros Hne. apply Permutation_nil_r. rewrite Hidle. assert (length new ≠ 0) by (by destruct new).
      rewrite drop_ge; [done|]. subst back. rewrite length_take in Hnew. lia.
    + intros _. eapply same_index; [exact Hsim|exact Hsim'|]. intros k v.
      rewrite (open_seated _ _ _ _ _ _ k v (freeze_lines_wf false back L (sim_wf _ _ _ Hsim)) Hop). apply freeze_seated.
Qed.
