(* ===== verification/StreamlineCommission.v ===== *)
(** * The streamline calculator: [config/streamline.rs] and [commission/streamline.rs]

    Each unfrozen stream of a streamline engine is walked as a level commission
    whose compression thresholds depend on the level: the ancestor that takes
    level [n] is the first one left whose rank reaches the threshold declared for
    [n]. The model keeps the fields the calculator reads; the stream settings of
    the configuration are those of Streamline.v. *)

From stdpp Require Import base numbers list gmap sorting strings pretty.
From Stdlib Require Import ZArith Lia Ascii.
From S2P Require Import Prelude RustDecimal Dec TreeTypes Arena Unilevel Navigator CommissionTypes Walk Currency WalkOrder Streamline.

(** ** [{:?}] on a string

    The escapes of [str]'s [Debug]. A byte above 127 is part of a character that is
    written as it is; the escapes of unprintable characters outside ASCII are not
    modelled. *)
Definition quote : ascii := ascii_of_nat 34.
Definition backslash : ascii := ascii_of_nat 92.

Definition hex_digit (n : nat) : ascii := ascii_of_nat (if n <? 10 then 48 + n else 87 + n).
Definition hex_byte (n : nat) : list ascii :=
  if n <? 16 then [hex_digit n] else [hex_digit (n / 16); hex_digit (n mod 16)].

Definition escape_debug (c : ascii) : list ascii :=
  let n := nat_of_ascii c in
  if n =? 0 then [backslash; "0"%char]
  else if n =? 9 then [backslash; "t"%char]
  else if n =? 10 then [backslash; "n"%char]
  else if n =? 13 then [backslash; "r"%char]
  else if (n =? 34) || (n =? 92) then [backslash; c]
  else if (n <? 32) || (n =? 127) then [backslash; "u"%char; "{"%char] ++ hex_byte n ++ ["}"%char]
  else [c].

Definition debug_string (s : string) : string :=
  String.string_of_list_ascii ([quote] ++ concat (escape_debug <$> String.list_ascii_of_string s) ++ [quote]).

(** ** Configuration *)
Section config.
Context (D : Type).

Record StreamlineLevel := mkStreamlineLevel {
  sl_level : N;
  sl_min_rank : string;
  sl_percent : AuthoredDec D;
}.

Record StreamConfig := mkStreamConfig {
  additional_streams : gmap string N;
  sc_assignment_mode : Streamline.StreamAssignmentMode;
  sc_enrollment_stream_choice : bool;
  sc_freeze_on_demotion : bool;
}.

Record StreamlineCommissionConfig := mkStreamlineCommission {
  sc_volume_to_dollar_multiplier : option (AuthoredDec D);
  sc_max_depth : N;
  sc_levels : list StreamlineLevel;
  sc_stream_config : option StreamConfig;
}.

Record StreamlineStructureConfig := mkStreamlineStructure {
  sl_name : string;
  streamline_commission : StreamlineCommissionConfig;
}.
End config.

Arguments mkStreamlineLevel {D} _ _ _.
Arguments sl_level {D} _.
Arguments sl_min_rank {D} _.
Arguments sl_percent {D} _.
Arguments mkStreamlineCommission {D} _ _ _ _.
Arguments sc_volume_to_dollar_multiplier {D} _.
Arguments sc_max_depth {D} _.
Arguments sc_levels {D} _.
Arguments sc_stream_config {D} _.
Arguments mkStreamlineStructure {D} _ _.
Arguments sl_name {D} _.
Arguments streamline_commission {D} _.

Section calculator.
Context {D : Type} `{!DecimalOps D}.
Abbreviation calc := (outcome (CalculationError D)).

(** ** The thresholds *)

(** [iter().map(|l| l.level).max()] of a non-empty table. *)
Definition max_level (levels : list (StreamlineLevel D)) : N := foldr N.max 0%N (sl_level <$> levels).

(** The rank a level asks for. *)
Definition level_ordinal (ordinals : gmap string N) (l : StreamlineLevel D) : calc N :=
  if bool_decide (sl_min_rank l = EmptyString) then Ok 0%N
  else ok_or (ordinals !! sl_min_rank l)
    (ConfigError ("streamline level " +:+ pretty (sl_level l) +:+ " references unknown rank " +:+ debug_string (sl_min_rank l))%string).

(** One turn of the loop that fills the slots; an index out of range panics. *)
Definition place_threshold (ordinals : gmap string N) (slots : list (option N)) (l : StreamlineLevel D) : calc (list (option N)) :=
  refuse_if (sl_level l <? 1)%N (ConfigError "streamline dynamic_compression level 0 is invalid; levels are 1-based"%string);;
  o ← level_ordinal ordinals l;
  let i := (N.to_nat (sl_level l) - 1)%nat in
  if decide (i < length slots) then Ok (<[i := Some o]> slots) else Panic.

(** A slot nothing was placed in. *)
Definition filled_slot (e : nat * option N) : calc N :=
  ok_or e.2 (ConfigError ("streamline dynamic_compression has no entry for level " +:+ pretty (N.of_nat (e.1 + 1)))%string).

Definition level_thresholds (ordinals : gmap string N) (levels : list (StreamlineLevel D)) : calc (list N) :=
  refuse_if (bool_decide (levels = [])) (ConfigError "streamline dynamic_compression is empty; no level can pay"%string);;
  slots ← fold_outcome (place_threshold ordinals) (replicate (N.to_nat (max_level levels)) None) levels;
  map_outcome filled_slot (enumerate slots).

(** ** The rates *)
Definition level_rates (levels : list (StreamlineLevel D)) : gmap N (AuthoredDec D) :=
  foldl (λ m l, <[sl_level l := sl_percent l]> m) ∅ levels.

Definition same_rates (plan : CompensationPlan D) (levels : list (StreamlineLevel D)) : gmap string (gmap N (AuthoredDec D)) :=
  foldl (λ m r, <[rank_name r := level_rates levels]> m) ∅ (ranks plan).

(** ** The calculation *)
Definition validate_stream_source (engine : Streamline.StreamlineEngine) (snapshots : gmap Uuid (DistributorSnapshot D))
  (source : VolumeSource D) : calc unit :=
  validate_cv source;;
  refuse_if (negb (Streamline.contains_member engine (vs_source_id source))) (SourceNotInTree (vs_source_id source));;
  refuse_if (bool_decide (snapshots !! vs_source_id source = None)) (SourceNotInSnapshot (vs_source_id source)).

(** Streams in id order. *)
Definition ordered_streams (engine : Streamline.StreamlineEngine) : list Streamline.Stream :=
  sort_by (λ a b, Streamline.id a ?= Streamline.id b)%N (Streamline.active_streams engine).

Definition set_stream (s : N) (w : Walk) : Walk :=
  mkWalk (walk_index w) (walk_source_id w) (walk_kind w) (Some s) (walk_rank w) (steps w) (stop w) (stopped_at w).

Definition stream_volume (volume : list (VolumeSource D)) (stream : Streamline.Stream) : list (VolumeSource D) :=
  filter (λ v, contains (Streamline.tree stream) (vs_source_id v) = true) volume.

(** One stream: its walks join the collector and carry its id. *)
Definition walk_stream (plan : CompensationPlan D) (config : LevelWalkConfig (D := D)) (snapshots : gmap Uuid (DistributorSnapshot D))
  (volume : list (VolumeSource D)) (acc : list (CommissionEarning D) * list Walk) (stream : Streamline.Stream)
  : calc (list (CommissionEarning D) * list Walk) :=
  let '(all_earnings, walks) := acc in
  cache ← evaluate_eligibility snapshots (Streamline.tree stream) (eligibility plan);
  let own := stream_volume volume stream in
  if bool_decide (own = []) then Ok (all_earnings, walks)
  else
    let from := length walks in
    '(new, walks) ← walk_level_commissions (Streamline.tree stream) config cache snapshots own (λ _, false) walks;
    Ok (all_earnings ++ new, take from walks ++ (set_stream (Streamline.id stream) <$> drop from walks)).

Definition stream_walk_config (plan : CompensationPlan D) (structure : StreamlineStructureConfig D) (thresholds : list N)
  : LevelWalkConfig (D := D) :=
  let sc := streamline_commission structure in
  let mult := default (vc_volume_to_dollar_multiplier (volume_config plan)) (sc_volume_to_dollar_multiplier sc) in
  mkLevelWalkConfig (sc_max_depth sc) DONE (dec mult) None None (build_rank_ordinals plan) (same_rates plan (sc_levels sc)) None
    (Some thresholds).

Definition calculate_streamline (engine : Streamline.StreamlineEngine) (plan : CompensationPlan D)
  (structure : StreamlineStructureConfig D) (snapshots : gmap Uuid (DistributorSnapshot D))
  (volume : list (VolumeSource D)) (identity : PlanIdentity)
  : calc (CommissionCalculationResult D) :=
  minor_units ← plan_minor_units plan;
  let ordinals := build_rank_ordinals plan in
  thresholds ← level_thresholds ordinals (sc_levels (streamline_commission structure));
  validate_snapshots plan snapshots (Streamline.member_ids engine);;
  for_each (validate_stream_source engine snapshots) volume;;
  let config := stream_walk_config plan structure thresholds in
  '(es, ws) ← fold_outcome (walk_stream plan config snapshots volume) ([], []) (ordered_streams engine);
  assemble es ws volume ordinals identity minor_units.
End calculator.
