(* ===== verification/StreamlinePay.v ===== *)
(** * Who a stream pays

    The threshold table, the walk of one source and the run over the streams, each
    against a reference: [level_entry] is the table's entry for a level, [seats]
    the ancestors that take the levels, and [jobs] the sources the run walks. *)

From stdpp Require Import base numbers list gmap sorting strings pretty.
From Stdlib Require Import ZArith Lia.
From S2P Require Import Prelude RustDecimal Dec TreeTypes Arena ArenaWf Unilevel Navigator CommissionTypes Walk WalkSpec WalkPrepare Currency WalkOrder Calculators Collector GenerationSpec StairstepGroups StreamTree Streamline StreamlineCommission.

(** ** The table *)
Section table.
Context {D : Type} `{!DecimalOps D}.
Implicit Types (levels pre : list (StreamlineLevel D)) (l : StreamlineLevel D).

(** The entry for a level: the last one declared for it. *)
Definition level_entry levels (n : N) : option (StreamlineLevel D) := last (filter (λ l, sl_level l = n) levels).

Lemma level_entry_snoc levels l n : level_entry (levels ++ [l]) n = if decide (sl_level l = n) then Some l else level_entry levels n.
Proof.
  unfold level_entry. rewrite filter_app. cbn. unfold filter at 2, list_filter. cbn.
  destruct (decide (sl_level l = n)); [apply last_snoc|by rewrite app_nil_r].
Qed.

Lemma level_entry_Some levels n l : level_entry levels n = Some l → l ∈ levels ∧ sl_level l = n.
Proof.
  unfold level_entry. rewrite last_lookup. intros H%list_elem_of_lookup_2. by apply list_elem_of_filter in H as [? ?].
Qed.

Lemma level_entry_is_Some levels n : is_Some (level_entry levels n) ↔ ∃ l, l ∈ levels ∧ sl_level l = n.
Proof.
  split; [intros [l Hl%level_entry_Some]; eauto|]. intros (l & Hl & Hn). unfold level_entry. apply last_is_Some.
  intros Hnil. apply (not_elem_of_nil l). rewrite <- Hnil. by apply list_elem_of_filter.
Qed.

Lemma level_rates_lookup levels n : level_rates levels !! n = sl_percent <$> level_entry levels n.
Proof.
  induction levels as [|l levels IH] using rev_ind; [done|]. unfold level_rates. rewrite foldl_snoc, level_entry_snoc.
  destruct (decide (sl_level l = n)) as [<-|Hne]; [by rewrite lookup_insert_eq|by rewrite lookup_insert_ne].
Qed.

Lemma same_rates_lookup (plan : CompensationPlan D) levels r :
  same_rates plan levels !! r = if decide (r ∈ rank_name <$> ranks plan) then Some (level_rates levels) else None.
Proof.
  unfold same_rates. induction (ranks plan) as [|x l IH] using rev_ind; [done|]. rewrite foldl_snoc, fmap_app.
  destruct (decide (rank_name x = r)) as [<-|Hne].
  - rewrite lookup_insert_eq, decide_True; [done|]. apply elem_of_app. right. left.
  - rewrite lookup_insert_ne, IH by done. apply decide_ext. rewrite elem_of_app. cbn. rewrite list_elem_of_singleton. naive_solver.
Qed.

Lemma max_level_le levels l : l ∈ levels → (sl_level l ≤ max_level levels)%N.
Proof.
  unfold max_level. induction levels as [|x levels IH]; [by intros ?%elem_of_nil|]. cbn.
  intros [->|Hl]%elem_of_cons; [lia|]. specialize (IH Hl). lia.
Qed.

Context (ordinals : gmap string N).

(** The ordinal an entry asks for. *)
Definition required l : N :=
  if bool_decide (sl_min_rank l = EmptyString) then 0%N else default 0%N (ordinals !! sl_min_rank l).

Definition entry_ok l : Prop := (1 ≤ sl_level l)%N ∧ (sl_min_rank l = EmptyString ∨ is_Some (ordinals !! sl_min_rank l)).

(** A table the calculator accepts: no level twice is not asked for; no level is missing. *)
Definition table_ok levels : Prop :=
  levels ≠ [] ∧ Forall entry_ok levels ∧ ∀ n, (1 ≤ n ≤ max_level levels)%N → is_Some (level_entry levels n).

Definition not_ok levels (e : CalculationError D) : Prop := ∃ why, e = ConfigError why ∧ ¬ table_ok levels.

Lemma level_ordinal_spec l : returns (λ o, o = required l ∧ (sl_min_rank l = EmptyString ∨ is_Some (ordinals !! sl_min_rank l)))
  (λ e, ∃ why, e = ConfigError why ∧ ¬ entry_ok l) (level_ordinal ordinals l).
Proof.
  unfold level_ordinal, required, entry_ok. destruct (bool_decide_reflect (sl_min_rank l = EmptyString)) as [He|He]; [by split; [|left]|].
  destruct (ordinals !! sl_min_rank l) as [o|] eqn:Ho; cbn; [eauto|]. eexists. split; [done|].
  intros [_ [?|[? ?]]]; congruence.
Qed.

(** The slots after the entries [pre]. *)
Definition slots_of (m : nat) pre (slots : list (option N)) : Prop :=
  length slots = m ∧ Forall entry_ok pre ∧
  ∀ n, (1 ≤ n)%N → (N.to_nat n ≤ m)%nat → slots !! (N.to_nat n - 1) = Some (required <$> level_entry pre n).

Lemma place_threshold_spec m pre slots l : slots_of m pre slots → (N.to_nat (sl_level l) ≤ m)%nat →
  returns (slots_of m (pre ++ [l])) (λ e, ∃ why, e = ConfigError why ∧ ¬ entry_ok l) (place_threshold ordinals slots l).
Proof.
  intros (Hlen & Hpre & Hslots) Hm. unfold place_threshold, refuse_if. destruct (N.ltb_spec (sl_level l) 1) as [H1|H1]; cbn [mbind outcome_bind].
  { cbn. eexists. split; [done|]. unfold entry_ok. lia. }
  eapply returns_bind; [apply level_ordinal_spec|]. intros o [-> Hr]. rewrite decide_True by lia. split_and!.
  - by rewrite length_insert.
  - apply Forall_app. split; [done|]. apply Forall_singleton. by split.
  - intros n Hn Hnm. rewrite level_entry_snoc. destruct (decide (sl_level l = n)) as [<-|Hne].
    + rewrite list_lookup_insert_eq by lia. done.
    + rewrite list_lookup_insert_ne by lia. by apply Hslots.
Qed.

(** The thresholds are those of the entries, level by level; a refusal means the
    table is not acceptable. *)
Lemma level_thresholds_spec levels : returns (λ ts, table_ok levels ∧ ∀ n, (1 ≤ n)%N →
      ts !! N.to_nat (n - 1) = required <$> level_entry levels n)
    (not_ok levels) (level_thresholds ordinals levels).
Proof.
  unfold level_thresholds, refuse_if. destruct (bool_decide_reflect (levels = [])) as [->|Hne]; cbn [mbind outcome_bind].
  { cbn. eexists. split; [done|]. by intros [? _]. }
  eapply (returns_bind _ (slots_of (N.to_nat (max_level levels)) levels)).
  { apply (returns_fold _ (λ pre s, slots_of (N.to_nat (max_level levels)) pre s)).
    - split_and!; [by rewrite length_replicate|constructor|]. intros n H1 H2. cbn. apply lookup_replicate. split; [done|lia].
    - intros pre l post s Heq Hs. eapply returns_weaken; [apply place_threshold_spec; [done|]|done|].
      + assert (Hl : l ∈ levels) by (rewrite Heq; apply elem_of_app; right; left). pose proof (max_level_le levels l Hl). lia.
      + intros e (why & -> & Hbad). eexists. split; [done|]. intros (_ & Hall & _). apply Hbad. rewrite Forall_forall in Hall. apply Hall.
        rewrite Heq. apply elem_of_app. right. left. }
  intros slots (Hlen & Hall & Hslots). eapply returns_weaken; [apply (returns_map (not_ok levels) (λ (x : nat * option N) o, x.2 = Some o))| |intros e H; exact H].
  - intros [i o] Hi%elem_of_enumerate. unfold filled_slot. cbn [fst snd]. destruct o as [o|]; [done|]. cbn. eexists. split; [done|].
    intros (_ & _ & Hfull). specialize (Hslots (N.of_nat (i + 1)) ltac:(lia)). pose proof (lookup_lt_Some _ _ _ Hi) as Hlt.
    destruct (Hfull (N.of_nat (i + 1))) as [l Hl]; [lia|]. rewrite Nat2N.id, Hl in Hslots. replace (i + 1 - 1)%nat with i in Hslots by lia.
    rewrite Hi in Hslots. specialize (Hslots ltac:(lia)). done.
  - intros ts Hts. assert (Hat : ∀ i, ts !! i = slots !! i ≫= id).
    { intros i. destruct (ts !! i) as [t|] eqn:Ht.
      - destruct (Forall2_lookup_r _ _ _ _ _ Hts Ht) as ([j o] & Hj & Ho). rewrite enumerate_lookup in Hj.
        destruct (slots !! i); cbn in *; [|done]. by simplify_eq.
      - destruct (slots !! i) as [o|] eqn:Hs; [|done]. exfalso. apply lookup_ge_None in Ht. apply lookup_lt_Some in Hs.
        apply Forall2_length in Hts. rewrite length_enumerate in Hts. lia. }
    assert (Hfull : ∀ n, (1 ≤ n ≤ max_level levels)%N → is_Some (level_entry levels n)).
    { intros n Hn. specialize (Hslots n ltac:(lia) ltac:(lia)). specialize (Hat (N.to_nat n - 1)%nat). rewrite Hslots in Hat. cbn in Hat.
      destruct (level_entry levels n); [eauto|]. cbn in Hat. apply lookup_ge_None in Hat. apply Forall2_length in Hts.
      rewrite length_enumerate in Hts. lia. }
    split; [by split_and!|]. intros n Hn. rewrite Hat. replace (N.to_nat (n - 1)) with (N.to_nat n - 1)%nat by lia.
    destruct (decide (N.to_nat n ≤ N.to_nat (max_level levels))%nat) as [Hle|Hgt]; [by rewrite Hslots|].
    destruct (level_entry levels n) as [l|] eqn:Hl.
    + apply level_entry_Some in Hl as [Hl <-]. pose proof (max_level_le levels l Hl). lia.
    + rewrite (proj2 (lookup_ge_None _ _)); [done|lia].
Qed.
End table.

(** ** The walk of one source *)
Section seats.
Context {D : Type} `{!DecimalOps D, !DecimalLaws D}.
Context (plan : CompensationPlan D) (structure : StreamlineStructureConfig D) (snapshots : gmap Uuid (DistributorSnapshot D)).
Abbreviation ordinals := (build_rank_ordinals plan).
Abbreviation levels := (sc_levels (streamline_commission structure)).

(** The rank of a member, and whether it reaches what a level asks for. *)
Definition rank_of (u : Uuid) : N := default 0%N (s ← snapshots !! u; ordinals !! rank s).
Definition admits (n : N) (u : Uuid) : bool :=
  match level_entry levels n with Some l => (required ordinals l <=? rank_of u)%N | None => true end.

(** Who takes the levels from [n] on, going up: each level goes to the first
    ancestor left that it admits, for as long as there is room. *)
Fixpoint seats (room : nat) (n : N) (upline : list Uuid) : list (Uuid * N) :=
  match upline, room with
  | u :: above, S room' => if admits n u then (u, n) :: seats room' (n + 1) above else seats room n above
  | _, _ => []
  end.

(** The rate of a level. *)
Definition percent_at (n : N) : D := from_option (λ l, dec (sl_percent l)) DZERO (level_entry levels n).

(** What a stream's eligibility table says of somebody, and whether a seat earns. *)
Context (tree : Unilevel.UnilevelTree).
Definition standing (u : Uuid) : option EligibilityResult :=
  eligibility_of tree snapshots (eligibility plan) u <$> snapshots !! u.
Definition earns (x : Uuid * N) : bool :=
  match standing x.1 with
  | Some r => eligible r && match max_earning_depth r with Some m => (x.2 <=? m)%N | None => true end &&
              dec_ltb DZERO (percent_at x.2)
  | None => false
  end.

Definition step_of (x : Uuid * N) : WalkStep :=
  mkStep x.1 (if earns x then Paid else Forfeited) true (rank <$> snapshots !! x.1).

Definition stream_multiplier : D :=
  dec (default (vc_volume_to_dollar_multiplier (volume_config plan)) (sc_volume_to_dollar_multiplier (streamline_commission structure))).

(** The earning that settles a seat: the exact product of volume, multiplier and rate. *)
Definition settles_seat (src : VolumeSource D) (k : N) (x : Uuid * N) (e : CommissionEarning D) : Prop :=
  earner_id e = x.1 ∧ level e = x.2 ∧ source_id e = vs_source_id src ∧ rate e = Some (percent_at x.2) ∧
  cv_amount e = dec (vs_cv_amount src) ∧ walk e = Some k ∧
  (units (dollar_amount e) * 10 ^ 56 = units (dec (vs_cv_amount src)) * units stream_multiplier * units (percent_at x.2))%Z.

Context (ts : list N) (Hts : ∀ n, (1 ≤ n)%N → ts !! N.to_nat (n - 1) = required ordinals <$> level_entry levels n).
Abbreviation cfg := (stream_walk_config plan structure ts).
Context (cache : gmap Uuid EligibilityResult) (Hcache : ∀ u, cache !! u = standing u).
Context (Hranks : ∀ u, ¬ bad_rank plan snapshots u).
Context (Hdepth : (sc_max_depth (streamline_commission structure) ≤ 255)%N).

Lemma compressed_admits n b u s : (1 ≤ n)%N → snapshots !! u = Some s → compressed cfg n b s = negb (admits n u).
Proof using Hts Hdepth.
  intros Hn Hs. unfold compressed, admits, rank_of, ordinal_of. cbn [stream_walk_config dynamic_thresholds rank_ordinals].
  rewrite (Hts n Hn), Hs. cbn [mbind option_bind]. destruct (level_entry levels n) as [l|]; cbn; [|done].
  destruct (N.leb_spec (required ordinals l) (default 0 (ordinals !! rank s))%N), (N.ltb_spec 0 (required ordinals l)),
    (N.ltb_spec (default 0 (ordinals !! rank s)) (required ordinals l))%N; cbn; try done; lia.
Qed.

Lemma rate_percent n u s : snapshots !! u = Some s → rate_at cfg s n = percent_at n.
Proof using Hranks.
  intros Hs. unfold rate_at, percent_at. cbn [stream_walk_config walk_rates]. rewrite same_rates_lookup, decide_True.
  - cbn [mbind option_bind]. rewrite level_rates_lookup. by destruct (level_entry levels n).
  - apply dec_stable. intros Hn. by apply (Hranks u); exists s.
Qed.

Context (src : VolumeSource D) (k : N).
Abbreviation visit_here := (visit cfg cache snapshots (λ _, false) src k).

(** A seat is taken or passed over. *)
Lemma visit_seat st n s t : (1 ≤ ws_level st ≤ max_depth cfg)%N → snapshots !! user_id n = Some s → visit_here st n = Ok t →
  if admits (ws_level st) (user_id n)
  then ∃ st', t = Go st' ∧ ws_level st' = (ws_level st + 1)%N ∧
    ws_steps st' = ws_steps st ++ [step_of (user_id n, ws_level st)] ∧
    ∃ new, ws_earnings st' = ws_earnings st ++ new ∧
      Forall2 (settles_seat src k) (filter (λ x, earns x = true) [(user_id n, ws_level st)]) new
  else t = Go st.
Proof using All.
  intros [Hlo Hhi] Hs Hv. pose proof (visit_inv cfg cache snapshots (λ _, false) src k Hdepth st n t Hv) as Hvis. cbn [stream_walk_config max_depth] in Hhi.
  assert (Hu8 : as_u8 (ws_level st) = ws_level st) by (apply N.mod_small; lia).
  assert (Hsat : u16_saturating_add (ws_level st) 1 = (ws_level st + 1)%N) by (unfold u16_saturating_add; lia).
  unfold visit in Hv. cbn [stream_walk_config max_depth pass_up passed_up] in Hv. rewrite (proj2 (N.ltb_ge _ _) Hhi), Hs, Hu8 in Hv.
  unfold passed_up in Hv. cbn [stream_walk_config pass_up ok_or mbind outcome_bind] in Hv.
  rewrite (compressed_admits _ _ _ _ Hlo Hs), (rate_percent _ _ _ Hs), Hcache in Hv. unfold standing in Hv. rewrite Hs in Hv. cbn [fmap option_fmap option_map] in Hv.
  destruct (admits (ws_level st) (user_id n)); [|by injection Hv]. cbn [negb] in Hv.
  assert (Hforf : earns (user_id n, ws_level st) = false → t = Go (forfeit st n s) → ∃ st', t = Go st' ∧ ws_level st' = (ws_level st + 1)%N ∧
    ws_steps st' = ws_steps st ++ [step_of (user_id n, ws_level st)] ∧ ∃ new, ws_earnings st' = ws_earnings st ++ new ∧
      Forall2 (settles_seat src k) (filter (λ x, earns x = true) [(user_id n, ws_level st)]) new).
  { intros He ->. eexists. split; [done|]. unfold step_of. rewrite He, filter_cons_False by congruence. cbn [forfeit ws_level ws_steps ws_earnings fst]. rewrite Hs.
    split_and!; [done..|]. exists []. rewrite app_nil_r. split; [done|constructor]. }
  set (r := eligibility_of tree snapshots (eligibility plan) (user_id n) s) in *.
  assert (Hearns : earns (user_id n, ws_level st) = eligible r && match max_earning_depth r with Some m => (ws_level st <=? m)%N | None => true end && dec_ltb DZERO (percent_at (ws_level st))).
  { unfold earns, standing. cbn [fst snd]. by rewrite Hs. }
  destruct (eligible r); cbn [negb andb] in *; [|apply Hforf; [done|by injection Hv]].
  assert (Hdeep : match max_earning_depth r with Some m => (m <? ws_level st)%N | None => false end =
    negb match max_earning_depth r with Some m => (ws_level st <=? m)%N | None => true end).
  { destruct (max_earning_depth r); [|done]. apply N.ltb_antisym. }
  cbn [mbind option_bind] in Hv. rewrite Hdeep in Hv.
  destruct (match max_earning_depth r with Some m => (ws_level st <=? m)%N | None => true end); cbn [negb andb] in *; [|apply Hforf; [done|by injection Hv]].
  destruct (dec_ltb DZERO (percent_at (ws_level st))); [|apply Hforf; [done|by injection Hv]].
  apply bind_ok in Hv as (x1 & H1%try_mul_calc_units & Hv). apply bind_ok in Hv as (x2 & H2%try_mul_calc_units & Hv).
  apply bind_ok in Hv as (x & H3%try_mul_calc_units & Hv). injection Hv as <-. eexists. split; [done|].
  unfold step_of. rewrite Hearns, filter_cons_True by done. cbn [ws_level ws_steps ws_earnings fst]. rewrite Hs. split_and!; [done..|].
  eexists. split; [done|]. constructor; [|constructor]. unfold settles_seat. cbn. split_and!; [done..|].
  cbn [stream_walk_config broad_pct multiplier] in H1, H2. fold stream_multiplier in H2. rewrite one_units in H1.
  replace (10 ^ 56)%Z with (10 ^ 28 * 10 ^ 28)%Z by reflexivity. rewrite Z.mul_assoc, H3, <- Z.mul_assoc, (Z.mul_comm (units _) (10 ^ 28)), Z.mul_assoc, H2.
  assert (units x1 = units (dec (vs_cv_amount src))) as -> by lia. done.
Qed.

(** The walk fills the seats. *)
Lemma walk_seats upline st room st' why at_ : (1 ≤ ws_level st)%N → (ws_level st + N.of_nat room = max_depth cfg + 1)%N →
  (∀ n, n ∈ upline → is_Some (snapshots !! user_id n)) → walk_nodes visit_here st upline = Ok (st', why, at_) →
  let taken := seats room (ws_level st) (user_id <$> upline) in
  ws_steps st' = ws_steps st ++ (step_of <$> taken) ∧
  ∃ new, ws_earnings st' = ws_earnings st ++ new ∧ Forall2 (settles_seat src k) (filter (λ x, earns x = true) taken) new.
Proof using All.
  revert st room. induction upline as [|n upline IH]; intros st room Hlo Hroom Hcov Hrun; cbn [walk_nodes] in Hrun; cbn [fmap list_fmap seats].
  { simplify_eq. cbn. rewrite app_nil_r. split; [done|]. exists []. rewrite app_nil_r. split; [done|constructor]. }
  apply bind_ok in Hrun as (t & Ht & Hrun). destruct room as [|room].
  { unfold visit in Ht. rewrite (proj2 (N.ltb_lt _ _)) in Ht by lia. simplify_eq. cbn. rewrite app_nil_r. split; [done|]. exists [].
    rewrite app_nil_r. split; [done|constructor]. }
  destruct (Hcov n) as [s Hs]; [left|]. assert (Hcov' : ∀ m, m ∈ upline → is_Some (snapshots !! user_id m)) by (intros m Hm; apply Hcov; by right).
  apply (visit_seat st n s t) in Ht; [|lia|done]. destruct (admits (ws_level st) (user_id n)).
  - destruct Ht as (st1 & -> & Hl1 & Hs1 & new1 & He1 & Hn1). destruct (IH st1 room) as (Hs2 & new2 & He2 & Hn2); [lia|lia|done|done|].
    rewrite Hl1 in Hs2, Hn2. rewrite Hs2, Hs1, <- app_assoc. split; [done|]. exists (new1 ++ new2). rewrite He2, He1, app_assoc. split; [done|].
    change ((user_id n, ws_level st) :: ?l) with ([(user_id n, ws_level st)] ++ l). rewrite filter_app. by apply Forall2_app.
  - subst t. by apply (IH st (S room)).
Qed.
(** The exact product of a seat that earns is held by no decimal. *)
Definition seat_refused (x : Uuid * N) (e : CalculationError D) : Prop :=
  ∃ ne, e = Numeric ne ∧ earns x = true ∧
  product_refused [dec (vs_cv_amount src); DONE; stream_multiplier; percent_at x.2] ne.

Lemma visit_seat_refused st n e : (1 ≤ ws_level st ≤ max_depth cfg)%N → is_Some (snapshots !! user_id n) → visit_here st n = Err e →
  admits (ws_level st) (user_id n) = true ∧ seat_refused (user_id n, ws_level st) e.
Proof using All.
  intros [Hlo Hhi] [s Hs] Hv. split.
  - destruct (admits (ws_level st) (user_id n)) eqn:Had; [done|]. unfold visit in Hv. rewrite (proj2 (N.ltb_ge _ _) Hhi), Hs in Hv.
    unfold passed_up in Hv. cbn [stream_walk_config pass_up ok_or mbind outcome_bind] in Hv.
    by rewrite (compressed_admits _ _ _ _ Hlo Hs), Had in Hv.
  - pose proof (visit_refuses cfg cache snapshots (λ _, false) Hdepth src k st n ltac:(eauto) Hlo) as H. rewrite Hv in H.
    destruct H as (ne & s' & r & -> & _ & (Hs' & -> & Hpos & el & He & Hel & Hm) & Href). exists ne.
    assert (s' = s) as -> by congruence. rewrite (rate_percent _ _ _ Hs) in *. split_and!; [done| |exact Href].
    unfold earns. cbn [fst snd]. rewrite <- Hcache, He, Hel, Hpos. cbn [andb]. rewrite andb_true_r.
    destruct (max_earning_depth el) as [m|]; [|done]. by apply N.leb_le, Hm.
Qed.

(** A refused walk was refused at a seat. *)
Lemma walk_seats_refused upline st room e : (1 ≤ ws_level st)%N → (ws_level st + N.of_nat room = max_depth cfg + 1)%N →
  (∀ n, n ∈ upline → is_Some (snapshots !! user_id n)) → walk_nodes visit_here st upline = Err e →
  ∃ x, x ∈ seats room (ws_level st) (user_id <$> upline) ∧ seat_refused x e.
Proof using All.
  revert st room. induction upline as [|n upline IH]; intros st room Hlo Hroom Hcov Hrun; cbn [walk_nodes] in Hrun; cbn [fmap list_fmap seats]; [done|].
  destruct room as [|room].
  { assert (visit_here st n = Ok (Break MaxDepthReached)) as Hb; [|by rewrite Hb in Hrun].
    unfold visit. by rewrite (proj2 (N.ltb_lt _ _)) by lia. }
  destruct (Hcov n) as [s Hs]; [left|]. assert (Hcov' : ∀ m, m ∈ upline → is_Some (snapshots !! user_id m)) by (intros m Hm; apply Hcov; by right).
  destruct (visit_here st n) as [t|e'| |] eqn:Ht; cbn [mbind outcome_bind] in Hrun; [| |done..].
  - apply (visit_seat st n s t) in Ht; [|lia|done]. destruct (admits (ws_level st) (user_id n)).
    + destruct Ht as (st1 & -> & Hl1 & _). destruct (IH st1 room) as (x & Hx & Href); [lia|lia|done|done|].
      rewrite Hl1 in Hx. exists x. split; [by right|done].
    + subst t. by apply (IH st (S room)).
  - injection Hrun as ->. destruct (visit_seat_refused st n e) as [-> Href]; [lia|eauto|done|]. eexists. split; [left|done].
Qed.
End seats.

(** ** The upline of a line *)

(** The members above the one at [i], nearest first. *)
Lemma chain_upline t l (Hc : chain_of t l) i r : l !! i = Some r → upline_of t (r_user r) = reverse (take i (users l)).
Proof.
  pose proof (chain_arena t l Hc) as Hwf. revert r. induction i as [|i IH]; intros r Hi.
  all: assert (Hin : contains t (r_user r) = true) by
    (cbn; rewrite (chain_contains t l Hc); apply bool_decide_eq_true_2, list_elem_of_fmap_2; by eapply list_elem_of_lookup_2).
  all: destruct (chain_parent_id t l Hc _ r Hi) as (o & Ho & Hu); unfold above in Hu.
  - rewrite decide_True in Hu by done. apply fmap_None in Hu as ->.
    destruct (upline_parent t Hwf _ Hin) as [[_ ->]|(p & Hp & _)]; [done|]. cbn in Hp. congruence.
  - rewrite decide_False in Hu by done. replace (S i - 1) with i in Hu by lia.
    destruct (lookup_lt_is_Some_2 l i) as [r' Hr']; [apply lookup_lt_Some in Hi; lia|]. rewrite Hr' in Hu. apply fmap_Some in Hu as (n & -> & Hn).
    destruct (upline_parent t Hwf _ Hin) as [[Hp _]|(p & Hp & _ & ->)]; cbn in Hp; [congruence|]. assert (p = n) as -> by congruence.
    rewrite <- Hn, (IH r' Hr'). rewrite (take_S_r _ _ (r_user r')); [by rewrite reverse_snoc|]. unfold users. by rewrite list_lookup_fmap, Hr'.
Qed.

(** ** Loops that append

    Each element of a loop adds some earnings and one walk to a collector. *)
Section appended.
Context {X A B : Type} (R : nat → X → list A → B → Prop).

(** [acc] is the collector [(as0, bs0)] with what the elements [xs] added. *)
Definition appended (xs : list X) (as0 : list A) (bs0 : list B) (acc : list A * list B) : Prop :=
  ∃ ess nws, acc = (as0 ++ concat ess, bs0 ++ nws) ∧ length ess = length xs ∧ length nws = length xs ∧
    ∀ i x, xs !! i = Some x → ∃ l b, ess !! i = Some l ∧ nws !! i = Some b ∧ R (length bs0 + i) x l b.

Lemma appended_nil as0 bs0 : appended [] as0 bs0 (as0, bs0).
Proof. exists [], []. cbn. rewrite !app_nil_r. by split_and!. Qed.

Lemma appended_one x as0 bs0 l b : R (length bs0) x l b → appended [x] as0 bs0 (as0 ++ l, bs0 ++ [b]).
Proof.
  intros HR. exists [l], [b]. cbn. rewrite app_nil_r. split_and!; [done..|]. intros i y [-> ->]%list_lookup_singleton_Some.
  exists l, b. by rewrite Nat.add_0_r.
Qed.

Lemma appended_app xs ys as0 bs0 acc acc' : appended xs as0 bs0 acc → appended ys acc.1 acc.2 acc' → appended (xs ++ ys) as0 bs0 acc'.
Proof.
  intros (ess & nws & -> & L1 & L2 & H) (ess' & nws' & -> & L1' & L2' & H'). cbn [fst snd] in *. exists (ess ++ ess'), (nws ++ nws').
  rewrite concat_app, !app_assoc, !length_app. split_and!; [done|lia|lia|]. intros i x [Hi|[Hle Hi]]%lookup_app_Some.
  - destruct (H i x Hi) as (l & b & ? & ? & ?). exists l, b. split_and!; [by apply lookup_app_l_Some..|done].
  - destruct (H' _ x Hi) as (l & b & ? & ? & HR). exists l, b. rewrite !lookup_app_r by lia. rewrite L1, L2.
    split_and!; [done..|]. rewrite length_app, L2 in HR. by replace (length bs0 + i) with (length bs0 + length xs + (i - length xs)) by lia.
Qed.

Lemma appended_length xs as0 bs0 acc : appended xs as0 bs0 acc → length acc.2 = length bs0 + length xs.
Proof. intros (ess & nws & -> & _ & L & _). cbn. rewrite length_app. lia. Qed.

Lemma appended_fold {E} (Q : E → Prop) (f : list A * list B → X → outcome E (list A * list B)) xs as0 bs0 :
  (∀ a b x, x ∈ xs → length b < length bs0 + length xs → returns (appended [x] a b) Q (f (a, b) x)) →
  returns (appended xs as0 bs0) Q (fold_outcome f (as0, bs0) xs).
Proof.
  intros Hf. apply (returns_fold Q (λ pre, appended pre as0 bs0)); [apply appended_nil|].
  intros pre x post [a b] -> Hp. pose proof (appended_length _ _ _ _ Hp) as Hl. cbn in Hl.
  eapply returns_impl; [apply Hf; [set_solver|rewrite Hl, length_app; cbn; lia]|]. intros acc Hx. by eapply appended_app.
Qed.
End appended.

Lemma appended_impl {X A B} (R R' : nat → X → list A → B → Prop) xs as0 bs0 acc :
  (∀ k x l b, R k x l b → R' k x l b) → appended R xs as0 bs0 acc → appended R' xs as0 bs0 acc.
Proof. intros HR (ess & nws & H1 & H2 & H3 & H4). exists ess, nws. split_and!; [done..|]. naive_solver. Qed.

(** ** The run over the streams *)
Section streams.
Context {D : Type} `{!DecimalOps D, !DecimalLaws D}.
Context (plan : CompensationPlan D) (structure : StreamlineStructureConfig D) (snapshots : gmap Uuid (DistributorSnapshot D)).
Context (ts : list N) (Hts : ∀ n, (1 ≤ n)%N → ts !! N.to_nat (n - 1) =
  required (build_rank_ordinals plan) <$> level_entry (sc_levels (streamline_commission structure)) n).
Context (Hranks : ∀ u, ¬ bad_rank plan snapshots u).
Context (Hdepth : (sc_max_depth (streamline_commission structure) ≤ 255)%N).
Abbreviation cfg := (stream_walk_config plan structure ts).
Abbreviation room := (N.to_nat (sc_max_depth (streamline_commission structure))).

(** The record of a source on a stream: the ancestors that took the levels, and the
    earnings of those that earn there. *)
Record stream_walk (s : Streamline.Stream) (src : VolumeSource D) (k : N) (es : list (CommissionEarning D)) (w : Walk) : Prop := {
  sw_source : walk_source_id w = vs_source_id src;
  sw_stream : stream_id w = Some (Streamline.id s);
  sw_steps : steps w = step_of plan structure snapshots (Streamline.tree s) <$>
    seats plan structure snapshots room 1 (upline_of (Streamline.tree s) (vs_source_id src));
  sw_paid : Forall2 (settles_seat plan structure src k)
    (filter (λ x, earns plan structure snapshots (Streamline.tree s) x = true)
      (seats plan structure snapshots room 1 (upline_of (Streamline.tree s) (vs_source_id src)))) es;
}.

Lemma source_seats tree cache (Hwf : arena_wf (Unilevel.arena tree)) es ws src es' ws' :
  (∀ u, cache !! u = standing plan snapshots tree u) → (∀ u, contains tree u = true → is_Some (snapshots !! u)) →
  (N.of_nat (length ws) < 2 ^ 32)%N → walk_source tree cfg cache snapshots (λ _, false) (es, ws) src = Ok (es', ws') →
  let taken := seats plan structure snapshots room 1 (upline_of tree (vs_source_id src)) in
  ∃ new w, es' = es ++ new ∧ ws' = ws ++ [w] ∧ block (N.of_nat (length ws)) new w ∧
    steps w = step_of plan structure snapshots tree <$> taken ∧ walk_source_id w = vs_source_id src ∧
    Forall2 (settles_seat plan structure src (N.of_nat (length ws))) (filter (λ x, earns plan structure snapshots tree x = true) taken) new.
Proof using All.
  intros Hcache Hcov Hlen Hrun.
  destruct (walk_source_audit _ tree Hwf cfg cache snapshots (λ _, false) Hdepth es ws src es' ws' Hlen Hrun) as (new & w & -> & -> & Ha).
  exists new, w. split_and!; [done..|exact (audited_block _ _ _ _ _ _ _ _ _ Ha)| | |]; cycle 1.
  { by destruct (au_walk _ _ _ _ _ _ _ _ _ Ha) as (_ & ? & _). }
  all: unfold walk_source in Hrun; apply bind_ok in Hrun as (ns & Hsrc & Hrun); apply validate_source_ok in Hsrc as (Hup & _ & _);
    rewrite (N.mod_small _ _ Hlen) in Hrun; apply bind_ok in Hrun as ([[st why] at_] & Hrun & [= He Hw]).
  all: assert (Hknown : ∀ n, n ∈ ns → is_Some (snapshots !! user_id n)) by
    (intros n Hn; apply Hcov; destruct (contains tree (vs_source_id src)) eqn:Hc;
      [destruct (nav_upline tree _ Hwf Hc) as (ns' & Hns & _ & Hlive); apply Hlive; congruence
      |rewrite (nav_upline_unknown tree _ Hwf Hc) in Hup; done]).
  all: destruct (walk_seats plan structure snapshots tree ts Hts cache Hcache Hranks Hdepth src (N.of_nat (length ws)) ns (mkWalkState 1 [] es) room st why at_ ltac:(cbn; lia)
    ltac:(cbn; lia) Hknown Hrun) as (Hsteps & new' & He' & Hnew); cbn [ws_level ws_steps ws_earnings app] in *.
  all: unfold upline_of; rewrite Hup.
  - assert (new = new') as -> by (apply (app_inv_head es); congruence). exact Hnew.
  - apply (app_inv_head ws) in Hw. injection Hw as <-. exact Hsteps.
Qed.

(** The same before its walk is stamped. *)
Definition plain_walk (tree : Unilevel.UnilevelTree) (k : nat) (src : VolumeSource D) (es : list (CommissionEarning D)) (w : Walk) : Prop :=
  let taken := seats plan structure snapshots room 1 (upline_of tree (vs_source_id src)) in
  block (N.of_nat k) es w ∧ steps w = step_of plan structure snapshots tree <$> taken ∧ walk_source_id w = vs_source_id src ∧
  Forall2 (settles_seat plan structure src (N.of_nat k)) (filter (λ x, earns plan structure snapshots tree x = true) taken) es.

(** A refusal of the walk of [src]: that of one of its seats. *)
Definition source_refused (tree : Unilevel.UnilevelTree) (src : VolumeSource D) (e : CalculationError D) : Prop :=
  ∃ x, x ∈ seats plan structure snapshots room 1 (upline_of tree (vs_source_id src)) ∧
  seat_refused plan structure snapshots tree src x e.

(** A refusal of the run: that of a source on one of its streams. *)
Definition run_refused (volume : list (VolumeSource D)) (ss : list Streamline.Stream) (e : CalculationError D) : Prop :=
  ∃ s src, s ∈ ss ∧ src ∈ volume ∧ contains (Streamline.tree s) (vs_source_id src) = true ∧
  source_refused (Streamline.tree s) src e.

(** A source the calculation has accepted. *)
Definition accepted (src : VolumeSource D) : Prop := is_negative (dec (vs_cv_amount src)) = false.

Lemma stream_walks tree cache (Hwf : arena_wf (Unilevel.arena tree)) own ws :
  (∀ u, cache !! u = standing plan snapshots tree u) → (∀ u, contains tree u = true → is_Some (snapshots !! u)) →
  (∀ src, src ∈ own → accepted src ∧ contains tree (vs_source_id src) = true) →
  (N.of_nat (length ws + length own) ≤ 2 ^ 32)%N →
  returns (appended (plain_walk tree) own [] ws) (λ e, ∃ src, src ∈ own ∧ source_refused tree src e)
    (walk_level_commissions tree cfg cache snapshots own (λ _, false) ws).
Proof using All.
  intros Hcache Hcov Hown Hlen. apply appended_fold. intros es ws' src Hin Hlt. destruct (Hown src Hin) as [Hcv Htree].
  destruct (nav_upline tree _ Hwf Htree) as (ns & Hup & _ & Hlive).
  assert (Hknown : ∀ n, n ∈ ns → is_Some (snapshots !! user_id n)) by (intros n Hn; by apply Hcov, Hlive).
  assert (Hrefused : ∀ e, walk_source tree cfg cache snapshots (λ _, false) (es, ws') src = Err e → source_refused tree src e).
  { intros e. unfold walk_source, validate_source, validate_cv, refuse_if. rewrite Hcv. cbn [mbind outcome_bind]. rewrite Hup.
    cbn [map_err mbind outcome_bind]. destruct (Hcov _ Htree) as [s Hs]. rewrite bool_decide_eq_false_2 by congruence. cbn [mbind outcome_bind].
    destruct (walk_nodes _ _ ns) as [[[st why] at_]|e'| |] eqn:Hrun; cbn [mbind outcome_bind]; [done| |done..]. intros [= ->].
    unfold source_refused, upline_of. rewrite Hup.
    apply (walk_seats_refused plan structure snapshots tree ts Hts cache Hcache Hranks Hdepth src _ ns _ room) in Hrun; [done|cbn; lia|cbn; lia|done]. }
  pose proof (walk_source_fault_at _ tree Hwf cfg cache snapshots (λ _, false) Hcov Hdepth (es, ws') src) as Hf.
  destruct (walk_source tree cfg cache snapshots (λ _, false) (es, ws') src) as [[es1 ws1]|e| |] eqn:Hrun; cbn [returns]; [|by eauto|done..].
  destruct (source_seats tree cache Hwf es ws' src es1 ws1 Hcache Hcov ltac:(lia) Hrun) as (new & w & -> & -> & H1 & H2 & H3 & H4).
  by apply appended_one.
Qed.

(** The sources a run walks, stream by stream. *)
Definition jobs (volume : list (VolumeSource D)) (ss : list Streamline.Stream) : list (Streamline.Stream * VolumeSource D) :=
  concat ((λ s, pair s <$> stream_volume volume s) <$> ss).

Definition job_done (k : nat) (x : Streamline.Stream * VolumeSource D) (es : list (CommissionEarning D)) (w : Walk) : Prop :=
  block (N.of_nat k) es w ∧ stream_walk x.1 x.2 (N.of_nat k) es w.

Lemma appended_stamp s own es ws new ws' : appended (plain_walk (Streamline.tree s)) own [] ws (new, ws') →
  appended job_done (pair s <$> own) es ws (es ++ new, take (length ws) ws' ++ (set_stream (Streamline.id s) <$> drop (length ws) ws')).
Proof.
  intros (ess & nws & [= -> ->] & L1 & L2 & H). rewrite take_app_length, drop_app_length. exists ess, (set_stream (Streamline.id s) <$> nws).
  rewrite !length_fmap. split_and!; [done..|]. intros i [s' src] Hi. apply list_lookup_fmap_Some in Hi as (src' & [= -> ->] & Hi).
  destruct (H i src' Hi) as (l & w & Hl & Hw & [B1 B2 B3] & Hst & Hsrc & Hpaid). exists l, (set_stream (Streamline.id s) w).
  rewrite list_lookup_fmap, Hw. split_and!; [done..|]. split; [|by split]. by split.
Qed.

Lemma walk_stream_spec volume s es ws (Hwf : arena_wf (Unilevel.arena (Streamline.tree s))) :
  (∀ u, contains (Streamline.tree s) u = true → is_Some (snapshots !! u)) → (∀ src, src ∈ volume → accepted src) →
  (N.of_nat (length ws + length (stream_volume volume s)) ≤ 2 ^ 32)%N →
  returns (appended job_done (jobs volume [s]) es ws) (run_refused volume [s]) (walk_stream plan cfg snapshots volume (es, ws) s).
Proof using All.
  intros Hcov Hacc Hlen. unfold walk_stream, jobs. cbn [fmap list_fmap concat]. rewrite app_nil_r.
  destruct (evaluate_eligibility_spec _ (Streamline.tree s) Hwf snapshots (eligibility plan)) as (cache & -> & Hcache). cbn [mbind outcome_bind].
  destruct (bool_decide_reflect (stream_volume volume s = [])) as [->|_]; [apply appended_nil|].
  eapply returns_bind.
  - eapply returns_weaken; [apply (stream_walks (Streamline.tree s) cache Hwf (stream_volume volume s) ws Hcache Hcov)|intros acc H; exact H|].
    + intros src [H1 H2]%list_elem_of_filter. split; [by apply Hacc|done].
    + done.
    + intros e (src & [H1 H2]%list_elem_of_filter & He). exists s, src. split_and!; [left|done..].
  - intros [new ws'] Hn. cbn [returns]. by apply appended_stamp.
Qed.

Lemma jobs_app volume ss ss' : jobs volume (ss ++ ss') = jobs volume ss ++ jobs volume ss'.
Proof. unfold jobs. by rewrite fmap_app, concat_app. Qed.

(** The whole run. *)
Lemma streams_run volume ss :
  (∀ s, s ∈ ss → arena_wf (Unilevel.arena (Streamline.tree s)) ∧ ∀ u, contains (Streamline.tree s) u = true → is_Some (snapshots !! u)) →
  (∀ src, src ∈ volume → accepted src) → (N.of_nat (length (jobs volume ss)) ≤ 2 ^ 32)%N →
  returns (appended job_done (jobs volume ss) [] []) (run_refused volume ss) (fold_outcome (walk_stream plan cfg snapshots volume) ([], []) ss).
Proof using All.
  intros Hss Hacc Hlen. apply (returns_fold _ (λ pre, appended job_done (jobs volume pre) [] [])); [apply appended_nil|].
  intros pre s post [es ws] -> Hp. pose proof (appended_length _ _ _ _ _ Hp) as Hl. cbn in Hl.
  destruct (Hss s) as [Hwf Hcov]; [set_solver|]. eapply returns_weaken; [apply (walk_stream_spec volume s es ws Hwf Hcov Hacc)| |].
  - rewrite Hl. rewrite jobs_app, length_app in Hlen. unfold jobs in Hlen at 2. cbn in Hlen. rewrite length_app, length_fmap in Hlen. lia.
  - intros acc Hx. rewrite jobs_app. by eapply appended_app.
  - intros e (s' & src & ->%list_elem_of_singleton & He). exists s, src. split; [set_solver|done].
Qed.
End streams.
