(* ===== verification/StreamlineCalc.v ===== *)
(** * The streamline calculator, end to end

    On every engine that requests can lead to, a result is explained stream by
    stream: the unfrozen streams are walked once per source they hold, each level
    goes to the first ancestor in line that reaches the level's rank, and pays its
    exact product when that ancestor is eligible. A refusal is true of the inputs. *)

From stdpp Require Import base numbers list gmap sorting strings.
From Stdlib Require Import ZArith Lia.
From S2P Require Import Prelude RustDecimal Dec TreeTypes Arena ArenaWf Unilevel Navigator CommissionTypes Walk WalkSpec WalkPrepare Currency WalkOrder Calculators Collector GenerationSpec StairstepGroups StreamTree Streamline StreamSpec StreamRefine StreamlineTheorems StreamlineCommission StreamlinePay.

(** ** Sources and streams *)

(** Filters on disjoint conditions take the elements of their union apart. *)
Lemma concat_filters {A B} (P : B → A → bool) (Q : A → bool) (bs : list B) (l : list A) :
  NoDup bs → (∀ b b' a, b ∈ bs → b' ∈ bs → P b a = true → P b' a = true → b = b') → (∀ a, a ∈ l → Q a = true ↔ ∃ b, b ∈ bs ∧ P b a = true) →
  concat ((λ b, filter (λ a, P b a = true) l) <$> bs) ≡ₚ filter (λ a, Q a = true) l.
Proof.
  intros Hnd Hone. induction l as [|a l IH]; intros HQ.
  { clear. by induction bs as [|b bs IH]. }
  assert (Hl : concat ((λ b, filter (λ a, P b a = true) l) <$> bs) ≡ₚ filter (λ a, Q a = true) l) by (apply IH; intros; apply HQ; by right).
  destruct (decide (Q a = true)) as [Ha|Ha].
  - rewrite filter_cons_True by done. rewrite <- Hl. destruct (proj1 (HQ a ltac:(left)) Ha) as (b & Hb & Hp).
    apply list_elem_of_split in Hb as (pre & post & ->). rewrite !fmap_app, !fmap_cons, !concat_app. cbn [concat].
    rewrite filter_cons_True by done. apply NoDup_app in Hnd as (_ & Hd & [Hb _]%NoDup_cons).
    rewrite (list_fmap_ext (λ b0, filter (λ a, P b0 a = true) (a :: l)) (λ b0, filter (λ a, P b0 a = true) l) pre).
    + rewrite (list_fmap_ext (λ b0, filter (λ a, P b0 a = true) (a :: l)) (λ b0, filter (λ a, P b0 a = true) l) post); [by rewrite Permutation_middle|].
      intros i x Hx%list_elem_of_lookup_2. apply filter_cons_False. intros Hpx. apply Hb.
      rewrite (Hone b x a); [done|set_solver|set_solver|done|done].
    + intros i x Hx%list_elem_of_lookup_2. apply filter_cons_False. intros Hpx. apply (Hd x Hx), elem_of_cons. left.
      apply (Hone x b a); [set_solver|set_solver|done|done].
  - rewrite filter_cons_False by done. rewrite <- Hl. erewrite list_fmap_ext; [reflexivity|].
    intros i x Hx%list_elem_of_lookup_2. apply filter_cons_False. intros Hpx. apply Ha, HQ; [left|]. eauto.
Qed.

Lemma concat_fmap_lists {A B} (f : A → B) (ls : list (list A)) : f <$> concat ls = concat ((λ l : list A, f <$> l) <$> ls).
Proof. induction ls as [|l ls IH]; [done|]. cbn. by rewrite fmap_app, IH. Qed.

Section engine.
Context (c : Streamline.StreamlineConfig) (e : Streamline.StreamlineEngine) (Hlive : live c e).

Lemma ordered_elem s : s ∈ ordered_streams e ↔ ∃ k, Streamline.streams e !! k = Some s ∧ Streamline.frozen s = false.
Proof.
  unfold ordered_streams, Streamline.active_streams. rewrite sort_by_perm, list_elem_of_filter, list_elem_of_fmap. split.
  - intros (Hf & [k s'] & -> & Hin%elem_of_map_to_list). by exists k.
  - intros (k & Hk & Hf). split; [done|]. exists (k, s). by rewrite elem_of_map_to_list.
Qed.

(** What a live engine says of its streams. *)
Lemma live_stream k s : Streamline.streams e !! k = Some s → Streamline.id s = k ∧
  ∃ l, chain_of (Streamline.tree s) l ∧ ∀ u, contains (Streamline.tree s) u = true ↔ Streamline.user_streams e !! u = Some [k].
Proof using Hlive.
  intros Hs. destruct (live_sim c e Hlive) as (L & [Hw HS HU _ _ _]). destruct (shows_back _ _ _ _ HS Hs) as (ln & Hln & Hrep).
  split; [apply Hrep|]. exists (ln_chain ln). split; [apply Hrep|]. intros u.
  change (contains (Streamline.tree s) u) with (Streamline.tree_contains s u). rewrite (rep_contains _ _ _ _ Hrep), bool_decide_eq_true, (HU u [k]). split.
  - intros Hin. exists k. split; [done|]. by exists ln.
  - intros (k' & [= <-] & ln' & Hln' & Hin). congruence.
Qed.

Lemma live_wf s : s ∈ ordered_streams e → arena_wf (Unilevel.arena (Streamline.tree s)).
Proof using Hlive. intros (k & Hs & _)%ordered_elem. destruct (live_stream k s Hs) as (_ & l & Hc & _). by eapply chain_arena. Qed.

Lemma live_member s u : s ∈ ordered_streams e → contains (Streamline.tree s) u = true → Streamline.contains_member e u = true.
Proof using Hlive.
  intros (k & Hs & _)%ordered_elem Hu. destruct (live_stream k s Hs) as (_ & l & _ & Hin). apply Hin in Hu.
  apply bool_decide_eq_true_2. eauto.
Qed.

Lemma live_streams_once s s' u : s ∈ ordered_streams e → s' ∈ ordered_streams e →
  contains (Streamline.tree s) u = true → contains (Streamline.tree s') u = true → s = s'.
Proof using Hlive.
  intros (k & Hs & _)%ordered_elem (k' & Hs' & _)%ordered_elem Hu Hu'. destruct (live_stream k s Hs) as (_ & l & _ & Hin).
  destruct (live_stream k' s' Hs') as (_ & l' & _ & Hin'). apply Hin in Hu. apply Hin' in Hu'. congruence.
Qed.

Lemma ordered_nodup : NoDup (ordered_streams e).
Proof using Hlive.
  unfold ordered_streams, Streamline.active_streams. rewrite sort_by_perm. apply NoDup_filter.
  apply NoDup_fmap_2_strong; [|apply NoDup_map_to_list]. intros [k s] [k' s'] H1%elem_of_map_to_list H2%elem_of_map_to_list Heq. cbn in Heq. subst s'.
  destruct (live_stream k s H1) as [<- _], (live_stream k' s H2) as [<- _]. done.
Qed.

(** Somebody on an unfrozen stream. *)
Definition on_open_stream (u : Uuid) : bool := existsb (λ s, contains (Streamline.tree s) u) (ordered_streams e).

Context {D : Type} (volume : list (VolumeSource D)).

(** The run walks each source on an unfrozen stream once, and no other. *)
Lemma jobs_sources : (jobs volume (ordered_streams e)).*2 ≡ₚ filter (λ v, on_open_stream (vs_source_id v) = true) volume.
Proof using Hlive.
  unfold jobs, stream_volume. rewrite concat_fmap_lists, <- list_fmap_compose.
  rewrite <- (concat_filters (λ s v, contains (Streamline.tree s) (vs_source_id v)) (λ v, on_open_stream (vs_source_id v))
    (ordered_streams e) volume ordered_nodup).
  - erewrite list_fmap_ext; [reflexivity|]. intros i s _. cbn. by rewrite <- list_fmap_compose, list_fmap_id.
  - intros s s' v. apply live_streams_once.
  - intros v _. unfold on_open_stream. rewrite existsb_exists. by setoid_rewrite list_elem_of_In.
Qed.
End engine.

(** ** The calculation *)
Section calculation.
Context {D : Type} `{!DecimalOps D, !DecimalLaws D}.
Context (c : Streamline.StreamlineConfig) (e : Streamline.StreamlineEngine) (Hlive : live c e).
Context (plan : CompensationPlan D) (structure : StreamlineStructureConfig D) (snapshots : gmap Uuid (DistributorSnapshot D)).
Context (volume : list (VolumeSource D)) (identity : PlanIdentity).
Context (Hdepth : (sc_max_depth (streamline_commission structure) ≤ 255)%N) (Hvolume : (N.of_nat (length volume) ≤ 2 ^ 32)%N).
Abbreviation js := (jobs volume (ordered_streams e)).

(** What a refusal says of the inputs. *)
Definition streamline_fault (err : CalculationError D) : Prop :=
  match err with
  | UnknownCurrency code => code = base_currency (volume_config plan) ∧ minor_units code = None
  | ConfigError _ => ¬ table_ok (build_rank_ordinals plan) (sc_levels (streamline_commission structure))
  | UnknownSnapshotRank u _ => bad_rank plan snapshots u ∧ ∀ v, bad_rank plan snapshots v → (u ≤ v)%N
  | InvalidPersonalVolume u _ => bad_volume snapshots u ∧ ∀ v, bad_volume snapshots v → (u ≤ v)%N
  | DistributorNotInSnapshot u => Streamline.contains_member e u = true ∧ snapshots !! u = None ∧
      ∀ v, Streamline.contains_member e v = true → snapshots !! v = None → (u ≤ v)%N
  | InvalidCvAmount u a => ∃ src, src ∈ volume ∧ vs_source_id src = u ∧ vs_cv_amount src = a ∧ is_negative (dec a) = true
  | SourceNotInTree u => (∃ src, src ∈ volume ∧ vs_source_id src = u) ∧ Streamline.contains_member e u = false
  | Numeric ne => run_refused plan structure snapshots volume (ordered_streams e) (Numeric ne)
  | _ => False
  end.

(** What a result says of them. *)
Record streamline_inputs : Prop := {
  si_currency : is_Some (minor_units (base_currency (volume_config plan)));
  si_table : table_ok (build_rank_ordinals plan) (sc_levels (streamline_commission structure));
  si_ranks u : ¬ bad_rank plan snapshots u;
  si_volumes u : ¬ bad_volume snapshots u;
  si_covered u : Streamline.contains_member e u = true → is_Some (snapshots !! u);
  si_sources src : src ∈ volume → is_negative (dec (vs_cv_amount src)) = false ∧ Streamline.contains_member e (vs_source_id src) = true;
}.

(** A walk but for its number. *)
Definition unnumbered (w : Walk) : Walk := set_index w 0.

(** What a result is made of: for each source on an unfrozen stream, its walk up the
    part of the line above it and the earnings of the seats that pay. *)
Definition streamline_accounted (res : CommissionCalculationResult D) : Prop :=
  ∃ places ess ws, minor_units (base_currency (volume_config plan)) = Some places ∧
    length ess = length js ∧ length ws = length js ∧
    unreferred <$> earnings res ≡ₚ unreferred ∘ rounded places <$> concat ess ∧
    unnumbered <$> walks res ≡ₚ unnumbered <$> ws ∧
    ∀ k s src, js !! k = Some (s, src) → ∃ l i r es w, chain_of (Streamline.tree s) l ∧ l !! i = Some r ∧ r_user r = vs_source_id src ∧
      upline_of (Streamline.tree s) (vs_source_id src) = reverse (take i (users l)) ∧
      ess !! k = Some es ∧ ws !! k = Some w ∧ stream_walk plan structure snapshots s src (N.of_nat k) es w.

Lemma member_ids_in u : u ∈ Streamline.member_ids e ↔ Streamline.contains_member e u = true.
Proof.
  unfold Streamline.member_ids, Streamline.contains_member. rewrite bool_decide_eq_true, list_elem_of_fmap. split.
  - intros ([v ids] & -> & Hin%elem_of_map_to_list). eauto.
  - intros [ids Hids]. exists (u, ids). by rewrite elem_of_map_to_list.
Qed.

Lemma snapshots_checked : returns (λ _, (∀ u, ¬ bad_rank plan snapshots u) ∧ (∀ u, ¬ bad_volume snapshots u) ∧
    ∀ u, Streamline.contains_member e u = true → is_Some (snapshots !! u))
  streamline_fault (validate_snapshots plan snapshots (Streamline.member_ids e)).
Proof.
  pose proof (validate_snapshots_spec plan snapshots (Streamline.member_ids e)) as Hval.
  destruct (validate_snapshots plan snapshots (Streamline.member_ids e)) as [[]|err| |]; cbn [returns]; [|destruct err; cbn; try done|done..];
    repeat setoid_rewrite member_ids_in in Hval; naive_solver.
Qed.

Lemma source_checked src : src ∈ volume → (∀ u, Streamline.contains_member e u = true → is_Some (snapshots !! u)) →
  returns (λ _, is_negative (dec (vs_cv_amount src)) = false ∧ Streamline.contains_member e (vs_source_id src) = true)
    streamline_fault (validate_stream_source e snapshots src).
Proof.
  intros Hin Hcov. unfold validate_stream_source, validate_cv, refuse_if. destruct (is_negative (dec (vs_cv_amount src))) eqn:Hneg; cbn [mbind outcome_bind].
  { cbn. eauto. }
  destruct (Streamline.contains_member e (vs_source_id src)) eqn:Hm; cbn [negb mbind outcome_bind]; [|cbn; eauto].
  destruct (Hcov _ Hm) as [s Hs]. by rewrite bool_decide_eq_false_2 by congruence.
Qed.

Lemma job_place k s src : js !! k = Some (s, src) → s ∈ ordered_streams e ∧ contains (Streamline.tree s) (vs_source_id src) = true.
Proof.
  intros (l & Hl & Hin)%list_elem_of_lookup_2%elem_of_concat. apply list_elem_of_fmap in Hl as (s' & -> & Hs').
  apply list_elem_of_fmap in Hin as (src' & [= -> ->] & [Hc _]%list_elem_of_filter). done.
Qed.

Lemma jobs_bound : length js ≤ length volume.
Proof using Hlive.
  rewrite <- (length_fmap snd js), (jobs_sources c e Hlive volume). apply length_filter.
Qed.

(** The place of a job in its line. *)
Lemma job_line k s src : js !! k = Some (s, src) → ∃ l i r, chain_of (Streamline.tree s) l ∧ l !! i = Some r ∧
  r_user r = vs_source_id src ∧ upline_of (Streamline.tree s) (vs_source_id src) = reverse (take i (users l)).
Proof using Hlive.
  intros [(j & Hj & _)%ordered_elem Hc]%job_place. destruct (live_stream c e Hlive j s Hj) as (_ & l & Hch & _). cbn in Hc.
  rewrite (chain_contains _ l Hch) in Hc. apply bool_decide_eq_true, list_elem_of_fmap in Hc as (r & Hr & [i Hi]%list_elem_of_lookup).
  exists l, i, r. rewrite Hr, (chain_upline _ l Hch i r Hi). done.
Qed.

Lemma assembled_walks es ws places res : collected es ws →
  assemble (E := CalculationError D) es ws volume (build_rank_ordinals plan) identity places = Ok res →
  unnumbered <$> walks res ≡ₚ unnumbered <$> ws.
Proof.
  intros Hc Hres. rewrite assemble_ok in Hres; [|by eapply collected_ids_nodup|by apply collected_carried]. injection Hres as <-. cbn [walks].
  unfold assign_indexes. cbn [fst]. rewrite <- list_fmap_compose.
  rewrite <- (sort_by_perm (walk_compare (build_rank_ordinals plan) (first_positions volume)) ws) at 2.
  generalize (sort_by (walk_compare (build_rank_ordinals plan) (first_positions volume)) ws). intros l.
  assert (Heq : (unnumbered ∘ number_walk) <$> enumerate l = unnumbered <$> l); [|by rewrite Heq].
  apply list_eq. intros i. rewrite !list_lookup_fmap, enumerate_lookup. by destruct (l !! i).
Qed.

Lemma streamline_run : returns (λ res, streamline_inputs ∧ streamline_accounted res ∧ collected (earnings res) (walks res))
  streamline_fault (calculate_streamline e plan structure snapshots volume identity).
Proof using Hlive Hdepth Hvolume DecimalLaws0.
  unfold calculate_streamline, plan_minor_units. destruct (minor_units _) as [places|] eqn:Hcur; cbn [ok_or mbind outcome_bind]; [|done].
  eapply returns_bind; [eapply returns_weaken; [apply level_thresholds_spec|intros ts H; exact H|by intros err (why & -> & Hbad)]|].
  intros ts [Htable Hts]. eapply returns_seq; [apply snapshots_checked|]. intros (Hranks & Hvols & Hcov).
  eapply returns_seq; [eapply returns_for_each; intros src Hin; by apply source_checked|]. intros Hsrc. rewrite Forall_forall in Hsrc.
  eapply returns_bind.
  { eapply returns_weaken; [apply (streams_run plan structure snapshots ts Hts Hranks Hdepth volume (ordered_streams e))|intros acc H; exact H|].
    - intros s Hs. split; [by eapply live_wf|]. intros u Hu. apply Hcov. by eapply live_member.
    - intros src Hin. by apply Hsrc.
    - pose proof jobs_bound. lia.
    - intros err Herr. assert (∃ ne, err = Numeric ne) as [ne ->] by (destruct Herr as (? & ? & _ & _ & _ & ? & _ & ne & -> & _); eauto). exact Herr. }
  intros acc (ess & nws & -> & L1 & L2 & Hall). cbn [app] in *.
  assert (Hcol : collected (concat ess) nws).
  { apply (collected_blocks ess nws [] [] collected_nil); [by rewrite L1|]. intros i l w Hl Hw.
    destruct (lookup_lt_is_Some_2 js i) as [j Hj]; [rewrite <- L1; by eapply lookup_lt_Some|].
    destruct (Hall i j Hj) as (l' & w' & Hl' & Hw' & Hb & _). simplify_eq. exact Hb. }
  destruct (assemble_collected (E := CalculationError D) _ _ volume (build_rank_ordinals plan) identity places Hcol) as (res & Hres & R1 & _ & _ & R3 & _);
    [rewrite L2; pose proof jobs_bound; lia|].
  rewrite Hres. split_and!; [by split|..|done]. exists places, ess, nws. split_and!; [done..|by eapply assembled_walks|].
  intros k s src Hk. destruct (job_line k s src Hk) as (l & i & r & H1 & H2 & H3 & H4). destruct (Hall k (s, src) Hk) as (es & w & H5 & H6 & _ & H7).
  by exists l, i, r, es, w.
Qed.
End calculation.

(** ** The public statements *)
Section statements.
Context {D : Type} `{!DecimalOps D, !DecimalLaws D}.
Implicit Types (plan : CompensationPlan D) (structure : StreamlineStructureConfig D).

(** C32. The streamline calculator pays exactly what the lines owe. Each source on an
    unfrozen stream is walked once, up the part of its line above it, and no other
    source is. Level by level the next ancestor in line whose rank reaches what the
    table asks for that level takes the level; it is paid exactly when it is
    eligible, the level is within its own limit and the level's rate is positive,
    and then the exact product of volume, multiplier and that rate, rounded once.
    The walks carry the ids of their streams, an earning is the paid step of its
    level in its walk, and no walk pays a level twice. *)
Theorem calculate_streamline_exact c e plan structure snapshots volume identity res :
  live c e → (sc_max_depth (streamline_commission structure) ≤ 255)%N → (N.of_nat (length volume) ≤ 2 ^ 32)%N →
  calculate_streamline e plan structure snapshots volume identity = Ok res →
  streamline_accounted e plan structure snapshots volume res ∧ collected (earnings res) (walks res) ∧
  (jobs volume (ordered_streams e)).*2 ≡ₚ filter (λ v, on_open_stream e (vs_source_id v) = true) volume.
Proof.
  intros Hl Hd Hv Hres. pose proof (streamline_run c e Hl plan structure snapshots volume identity Hd Hv) as Hr. rewrite Hres in Hr.
  destruct Hr as (_ & H1 & H2). split_and!; [done..|]. by apply (jobs_sources c).
Qed.

(** C33. The streamline calculator never panics or diverges. A success means that
    the currency is known, the table has an entry for every level up to its deepest one,
    with known ranks, and every snapshot and source passes its check; a refusal is true
    of the inputs. A numeric refusal is about a source on an open stream and an ancestor
    in line that earns a level from it: the exact product, factor by factor, is held by
    no decimal, with the kind of that refusal. No source is refused for want of a
    snapshot and no ancestor is found without one. *)
Theorem calculate_streamline_errors c e plan structure snapshots volume identity :
  live c e → (sc_max_depth (streamline_commission structure) ≤ 255)%N → (N.of_nat (length volume) ≤ 2 ^ 32)%N →
  returns (λ _, streamline_inputs e plan structure snapshots volume) (streamline_fault e plan structure snapshots volume)
    (calculate_streamline e plan structure snapshots volume identity).
Proof.
  intros Hl Hd Hv. eapply returns_impl; [apply (streamline_run c e Hl plan structure snapshots volume identity Hd Hv)|]. by intros res [H _].
Qed.

(** With no ranks asked for, the levels go to the nearest ancestors in turn. *)
Theorem monoline_seats plan structure snapshots room upline :
  Forall (λ l, sl_min_rank l = EmptyString) (sc_levels (streamline_commission structure)) →
  seats plan structure snapshots room 1 upline = imap (λ i u, (u, (1 + N.of_nat i)%N)) (take room upline).
Proof.
  intros Hall. assert (Hadm : ∀ n u, admits plan structure snapshots n u = true).
  { intros n u. unfold admits. destruct (level_entry _ n) as [l|] eqn:Hl; [|done]. apply level_entry_Some in Hl as [Hl _].
    rewrite Forall_forall in Hall. unfold required. rewrite (bool_decide_eq_true_2 _ (Hall l Hl)). apply N.leb_le. lia. }
  cut (∀ n, seats plan structure snapshots room n upline = imap (λ i u, (u, (n + N.of_nat i)%N)) (take room upline)); [done|].
  revert room. induction upline as [|u upline IH]; intros [|room] n; [done..|]. cbn [seats take]. rewrite Hadm, IH, imap_cons, N.add_0_r. f_equal.
  apply imap_ext. intros i x _. cbn. f_equal. lia.
Qed.
End statements.
