(* ===== verification/StreamlineExamples.v ===== *)
(** * A streamline engine at work

    Concrete engines on which the streamline theorems are applied. *)

From stdpp Require Import base numbers list gmap sorting strings.
From Stdlib Require Import ZArith Lia.
From S2P Require Import Prelude RustDecimal Dec TreeTypes Arena Unilevel CommissionTypes Walk WalkOrder Calculators CommissionExamples Collector StreamTree Streamline StreamRestore StreamlineTheorems StreamlineChanges StreamlineCommission StreamlinePay StreamlineCalc.
Import Streamline.

(** The engine the requests lead to. *)
Definition final (e : StreamlineEngine) (qs : list request) : StreamlineEngine :=
  match run exec e qs with Ok (e', _) => e' | _ => e end.

Lemma run_live c qs : ∀ e e' rs, live c e → run exec e qs = Ok (e', rs) → live c e'.
Proof.
  induction qs as [|q qs IH]; intros e e' rs Hl; cbn [run]; [by intros [= <- _]|].
  destruct (exec e q) as [[e1 r]| | |] eqn:E; try done. cbn [mbind outcome_bind].
  destruct (run exec e1 qs) as [[e2 rs2]| | |] eqn:E2; try done. intros [= <- _]. by eapply IH; [eapply live_step|].
Qed.

Lemma final_live c e qs : live c e → live c (final e qs).
Proof. intros Hl. unfold final. destruct (run exec e qs) as [[e' rs]| | |] eqn:E; try done. by eapply run_live. Qed.

(** One founder who sponsors two more; streams are frozen on demotion. *)
Definition by_sponsor : StreamlineConfig := mkConfig SponsorStream false true.
Definition line_of_three : StreamlineEngine := final (new by_sponsor 100) [Enrol 1 99 101 None; Enrol 2 1 102 None; Enrol 3 1 103 None].

Lemma line_of_three_live : live by_sponsor line_of_three.
Proof. apply final_live, live_new. Qed.

(** The same requests with two more streams for the founder. *)
Definition three_streams : StreamlineEngine := final line_of_three [Expand 1 2 110; Expand 1 3 120].

Lemma three_streams_live : live by_sponsor three_streams.
Proof. apply final_live, line_of_three_live. Qed.

(** The founder's second stream has taken its first recruit. *)
Definition in_turn : StreamlineConfig := mkConfig RoundRobin false true.
Definition two_streams : StreamlineEngine :=
  final (new in_turn 100) [Enrol 1 99 101 None; Expand 1 2 102; Enrol 2 1 103 None; Enrol 3 1 104 None].

Lemma two_streams_live : live in_turn two_streams.
Proof. apply final_live, live_new. Qed.


Lemma streamline_restorable_witness : validate_restored three_streams = Ok ().
Proof. exact (streamline_restorable by_sponsor three_streams three_streams_live). Defined.

Lemma enrol_exact_witness : ∃ e', add_member line_of_three 4 1 104 None = Ok (e', inl (mkAdded 1 3)) ∧
  get_member_info e' 4 = Ok [mkPosition 1 3 false] ∧ get_member_info e' 2 = get_member_info line_of_three 2.
Proof.
  destruct (add_member line_of_three 4 1 104 None) as [[e' r]| | |] eqn:E; [|vm_compute in E; discriminate E..].
  assert (Hr : r = inl (mkAdded 1 3)). { apply (f_equal (λ m, match m with Ok (_, r) => Some r | _ => None end)) in E. vm_compute in E. by injection E. }
  subst r. destruct (enrol_exact by_sponsor line_of_three 4 1 104 None e' (inl (mkAdded 1 3)) line_of_three_live E) as (_ & H1 & H2).
  exists e'. split; [done|]. split; [exact H1|by apply H2].
Defined.

Lemma enrol_stuck_witness : add_member two_streams 4 1 105 None = Ok (two_streams, inr (TreeFailed (TreeTypes.SponsorNotFound 1%N))).
Proof.
  destruct (streams two_streams !! 2%N) as [s|] eqn:Hs; [|vm_compute in Hs; discriminate Hs].
  apply (enrol_stuck in_turn two_streams 4 1 105 None 2 s two_streams_live); [done|vm_compute; reflexivity|vm_compute; reflexivity|exact Hs| |].
  - intros Hn. apply (f_equal (λ o, from_option tree_users [] o)) in Hs. cbn [from_option] in Hs. rewrite Hn in Hs. vm_compute in Hs. discriminate Hs.
  - apply (f_equal (λ o, from_option (λ s, tree_contains s 1) false o)) in Hs. cbn [from_option] in Hs. rewrite <- Hs. vm_compute. reflexivity.
Defined.

Lemma remove_compacts_witness : ∃ e', remove_member line_of_three 2 200 = Ok (e', inl [1%N]) ∧
  get_member_info e' 1 = Ok [mkPosition 1 0 false] ∧ get_member_info e' 3 = Ok [mkPosition 1 1 false].
Proof.
  destruct (remove_compacts by_sponsor line_of_three 2 200 (mkPosition 1 1 false) line_of_three_live) as (e' & Hrun & _ & Hpos & _); [vm_compute; reflexivity|].
  exists e'. split; [exact Hrun|]. split.
  - exact (Hpos 1%N (mkPosition 1 0 false) ltac:(done) ltac:(vm_compute; reflexivity)).
  - exact (Hpos 3%N (mkPosition 1 2 false) ltac:(done) ltac:(vm_compute; reflexivity)).
Defined.

Lemma allowance_exact_witness : ∃ e', update_stream_allowance three_streams 1 1 200 = Ok (e', inl (mkFreeze [3%N; 2%N] [] [] [])) ∧
  length (active_of e' 1) = 1 ∧ user_streams e' = user_streams three_streams.
Proof.
  destruct (update_stream_allowance three_streams 1 1 200) as [[e' r]| | |] eqn:E; [|vm_compute in E; discriminate E..].
  assert (Hr : r = inl (mkFreeze [3%N; 2%N] [] [] [])). { apply (f_equal (λ m, match m with Ok (_, r) => Some r | _ => None end)) in E. vm_compute in E. by injection E. }
  subst r. destruct (allowance_exact by_sponsor three_streams 1 1 200 e' _ three_streams_live E) as (H1 & _ & _ & _ & H2).
  exists e'. split; [done|]. split; [lia|by apply H2].
Defined.

(** ** A period

    The line 1, 2, 3: level 1 asks for gold and pays 10%, level 2 pays anybody 5%. *)
Module StreamlineWitness.
Import Ref CommissionWitness.
#[local] Open Scope string_scope.

Definition stream_structure : StreamlineStructureConfig rdec :=
  mkStreamlineStructure "line" (mkStreamlineCommission None 2
    [mkStreamlineLevel 1 "gold" (money 10 2); mkStreamlineLevel 2 EmptyString (money 5 2)] None).
Definition stream_plan : CompensationPlan rdec :=
  mkPlan (mkVolumeConfig "USD" (money 1 0)) [mkRank "bronze" 1; mkRank "gold" 2] (mkEligibility (money 50 0) true ["active"] []).
Definition members : gmap Uuid (DistributorSnapshot rdec) :=
  {[1%N := mkSnapshot "gold" (money 100 0) "active" true; 2%N := mkSnapshot "bronze" (money 100 0) "active" true;
    3%N := mkSnapshot "gold" (money 80 0) "active" true]}.
Definition orders : list (VolumeSource rdec) := [mkSource 3 (money 9999 2); mkSource 2 (money 100 0)].
Definition stream_result := calculate_streamline line_of_three stream_plan stream_structure members orders identity.
Definition stream_res : CommissionCalculationResult rdec := match stream_result with Ok r => r | _ => mkResult [] [] identity end.

Lemma stream_ok : stream_result = Ok stream_res.
Proof. vm_compute. reflexivity. Qed.

(** 2 is passed over at level 1, so 1 takes it for both sources. *)
Lemma calculate_streamline_exact_witness : paid stream_res = [(1%N, 2%N, 1%N, (1000%Z, 2%Z), Some 1%N); (1%N, 3%N, 1%N, (1000%Z, 2%Z), Some 0%N)] ∧
  streamline_accounted line_of_three stream_plan stream_structure members orders stream_res.
Proof.
  split; [vm_compute; reflexivity|].
  refine (proj1 (calculate_streamline_exact by_sponsor line_of_three stream_plan stream_structure members orders identity stream_res line_of_three_live _ _ stream_ok));
    vm_compute; discriminate.
Defined.

(** A table that declares level 2 twice and level 1 never. *)
Definition gap : StreamlineStructureConfig rdec :=
  mkStreamlineStructure "line" (mkStreamlineCommission None 2
    [mkStreamlineLevel 2 EmptyString (money 5 2); mkStreamlineLevel 2 "gold" (money 10 2)] None).

(** An amount whose tenth needs a 29th place. *)
Definition fine_orders : list (VolumeSource rdec) := [mkSource 3 (money (2 ^ 96 - 1) 28)].
Definition stream_error : NumericError rdec :=
  match calculate_streamline line_of_three stream_plan stream_structure members fine_orders identity with
  | Err (Numeric x) => x
  | _ => mkNumericError OpAdd rd_zero rd_zero Overflow
  end.

Lemma calculate_streamline_errors_witness :
  (calculate_streamline line_of_three stream_plan gap members orders identity =
    Err (ConfigError "streamline dynamic_compression has no entry for level 1") ∧
  ¬ table_ok (build_rank_ordinals stream_plan) (sc_levels (streamline_commission gap))) ∧
  calculate_streamline line_of_three stream_plan stream_structure members fine_orders identity = Err (Numeric stream_error) ∧
  err_kind stream_error = Precision ∧
  run_refused stream_plan stream_structure members fine_orders (ordered_streams line_of_three) (Numeric stream_error).
Proof.
  assert (E : calculate_streamline line_of_three stream_plan gap members orders identity =
    Err (ConfigError "streamline dynamic_compression has no entry for level 1")) by (vm_compute; reflexivity).
  assert (F : calculate_streamline line_of_three stream_plan stream_structure members fine_orders identity = Err (Numeric stream_error))
    by (vm_compute; reflexivity).
  pose proof (calculate_streamline_errors by_sponsor line_of_three stream_plan gap members orders identity line_of_three_live
    ltac:(vm_compute; discriminate) ltac:(vm_compute; discriminate)) as H. rewrite E in H.
  pose proof (calculate_streamline_errors by_sponsor line_of_three stream_plan stream_structure members fine_orders identity line_of_three_live
    ltac:(vm_compute; discriminate) ltac:(vm_compute; discriminate)) as K. rewrite F in K.
  split; [split; [exact E|exact H]|]. split_and!; [exact F|vm_compute; reflexivity|exact K].
Defined.
End StreamlineWitness.
