(* ===== verification/PlanConfig.v ===== *)
(** * The compensation plan: [config/mod.rs] and the records it is made of

    [config/bonus.rs], [config/payout.rs], [config/period.rs],
    [config/placement.rs], [config/volume.rs] and the root of [config/mod.rs]. The
    structures are those of the calculators' files. A date is the number of its day.
    [engine_plan] is what the level calculators read of a plan. *)

From stdpp Require Import base numbers list gmap strings.
From Stdlib Require Import ZArith Lia.
From S2P Require Import Prelude RustDecimal Dec TreeTypes CommissionTypes Board BinaryCommission Rank Generation Stairstep StreamlineCommission.

Module Plan.
Inductive AmountType := Fixed | Percentage.
Inductive RankSkipMode := HighestOnly | EachRankPassed.
Inductive BlockerMode := SameRankBlocks | HigherRankBlocks | SameOrHigherBlocks.
Inductive InfinityRateMode := FlatRate | DecreasingRates.
Inductive PoolQualificationMode := RankBased | VelocityBased | Combined.
Inductive VelocityTimeframe := PeriodFrame | DaysFrame.
Inductive PoolShareMode := EqualShare | RankWeighted | VolumeWeighted.
Inductive CapEnforcement := ProRata | PriorityReduction | HardStop.
Inductive PeriodLength := Week | SemiMonth | Month | Quarter.
Inductive DonatedPlacementRestriction := OwnDownline | DirectChildrenOnly.
Inductive BinaryPlacementPreference := Balanced | PreferLeft | PreferRight.

Record PeriodConfig := mkPeriod { period_length : PeriodLength; start_date : Z; payout_lag_days : N }.

Record HoldingTankConfig := mkHoldingTank {
  tank_enabled : bool;
  expiration_days : N;
  allow_sponsor_change : bool;
  applicable_structures : list string;
}.

Record BinaryPlacementConfig := mkBinaryPlacement {
  default_preference : BinaryPlacementPreference;
  allow_user_preference : bool;
  spillover_enabled : bool;
}.

Record PlacementConfig := mkPlacement {
  donated_placement : option DonatedPlacementRestriction;
  holding_tank : option HoldingTankConfig;
  binary_placement : option BinaryPlacementConfig;
}.

Record RankTrackingConfig := mkRankTracking { track_achieved_rank : bool }.
Record RankFeaturesConfig := mkRankFeatures { constraints_enabled : bool; overrides_enabled : bool }.
Record BoardCyclingConfig := mkBoardCycling { reserved : option bool }.

Section records.
Context {D : Type}.

(** ** Bonuses *)
Record MatchingBonusConfig := mkMatching {
  mb_max_depth : N;
  mb_rates : gmap N (AuthoredDec D);
  matched_commission_types : list string;
}.
Record SponsorBonusConfig := mkSponsorBonus {
  sb_amount : AuthoredDec D;
  sb_amount_type : AmountType;
  qualifying_products : list string;
}.
Record FastStartBonusConfig := mkFastStart {
  window_days : N;
  enhanced_rate_table : gmap string (gmap N (AuthoredDec D));
}.
Record RankAdvancementBonusConfig := mkRankAdvancement {
  amounts : gmap string (AuthoredDec D);
  pay_once_only : bool;
}.
Record LeadershipDevelopmentBonusConfig := mkLeadership {
  ld_max_depth : N;
  ld_rates : gmap N (AuthoredDec D);
  rank_skip_mode : RankSkipMode;
}.
Record InfinityBonusConfig := mkInfinity {
  blocker_mode : BlockerMode;
  flat_rate : option (AuthoredDec D);
  decreasing_rates : option (gmap N (AuthoredDec D));
  rate_mode : InfinityRateMode;
}.
Record LifestyleTier := mkLifestyleTier {
  lt_min_rank : string;
  lt_amount : AuthoredDec D;
  grace_periods : N;
}.
Record LifestyleBonusConfig := mkLifestyle { lifestyle_tiers : list LifestyleTier }.
Record VelocityQualification := mkVelocity {
  volume_target : AuthoredDec D;
  timeframe : VelocityTimeframe;
  timeframe_days : option N;
}.
Record PoolQualification := mkPoolQualification {
  pq_mode : PoolQualificationMode;
  pq_min_rank : option string;
  velocity : option VelocityQualification;
}.
Record PoolShares := mkPoolShares {
  share_mode : PoolShareMode;
  equal_share_cap : option (AuthoredDec D);
}.
Record PoolBonusConfig := mkPool {
  pool_name : string;
  source_percent : AuthoredDec D;
  pool_qualification : PoolQualification;
  shares : PoolShares;
  require_admin_confirmation : bool;
}.
Record MatrixCompletionBonusConfig := mkMatrixCompletion {
  per_level_amounts : gmap N (AuthoredDec D);
  full_matrix_amount : AuthoredDec D;
}.
Record PositionBonusConfig := mkPositionBonus {
  pb_amount : AuthoredDec D;
  pb_amount_type : AmountType;
  sponsored_only : bool;
}.
Record BonusConfig := mkBonuses {
  matching : option MatchingBonusConfig;
  sponsor_bonus : option SponsorBonusConfig;
  fast_start : option FastStartBonusConfig;
  rank_advancement : option RankAdvancementBonusConfig;
  leadership_development : option LeadershipDevelopmentBonusConfig;
  infinity : option InfinityBonusConfig;
  lifestyle : option LifestyleBonusConfig;
  pool : option (list PoolBonusConfig);
  matrix_completion : option MatrixCompletionBonusConfig;
  position_bonus : option PositionBonusConfig;
  bonus_board_cycling : option BoardCyclingConfig;
}.

(** ** Payout *)
Record PayoutMethod := mkPayoutMethod { method_type : string; fee : AuthoredDec D }.
Record PayoutConfig := mkPayout {
  currency : string;
  minimum_payout : AuthoredDec D;
  allow_partial_payout : bool;
  payment_methods : list PayoutMethod;
}.
Record CapsConfig := mkCaps {
  per_distributor_cap : option (AuthoredDec D);
  company_payout_cap_percent : AuthoredDec D;
  enforcement : CapEnforcement;
  enable_clawback : bool;
}.

(** ** The plan *)
Record VolumeConfig := mkVolume {
  inhibit_signup_volume : bool;
  base_currency : string;
  volume_to_dollar_multiplier : AuthoredDec D;
  deduct_qualifying_volume : bool;
}.

Record BoardPlanStructureConfig := mkBoardStructure {
  board_name : string;
  board_width : N;
  board_height : N;
  board_cycling : BoardPlanConfig (D := D);
}.

Inductive StructureConfig :=
| Unilevel (c : UnilevelStructureConfig D)
| Binary (c : BinaryStructureConfig D)
| Matrix (c : MatrixStructureConfig D)
| Stairstep (c : Stairstep.StairstepStructureConfig D)
| Generation (c : Generation.GenerationStructureConfig D)
| Streamline (c : StreamlineStructureConfig D)
| BoardPlan (c : BoardPlanStructureConfig).

Record CompensationPlan := mkCompensationPlan {
  name : string;
  version : N;
  structures : list StructureConfig;
  period : PeriodConfig;
  volume : VolumeConfig;
  ranks : list (Rank.RankDefinition D);
  rank_tracking : RankTrackingConfig;
  rank_features : RankFeaturesConfig;
  plan_eligibility : CommissionEligibility D;
  bonuses : BonusConfig;
  payout : PayoutConfig;
  caps : CapsConfig;
  placement : PlacementConfig;
}.

(** What the calculators read. *)
Definition engine_plan (p : CompensationPlan) : CommissionTypes.CompensationPlan D :=
  mkPlan (mkVolumeConfig (base_currency (volume p)) (volume_to_dollar_multiplier (volume p)))
    ((λ r, mkRank (Rank.name r) (Rank.ordinal r)) <$> ranks p) (plan_eligibility p).

Definition with_structures (f : list StructureConfig → list StructureConfig) (p : CompensationPlan) : CompensationPlan :=
  mkCompensationPlan (name p) (version p) (f (structures p)) (period p) (volume p) (ranks p) (rank_tracking p) (rank_features p)
    (plan_eligibility p) (bonuses p) (payout p) (caps p) (placement p).
End records.
End Plan.
