(* ===== verification/PlanValidate.v ===== *)
(** * Plan validation: [config/validate.rs] and [config/minor_units.rs]

    [CompensationPlan::validate] is what a plan passes before the engine keeps it.
    It checks every section in turn and returns the first violation with a message
    that names it; on the way it sorts the steps of cycle-step configurations, so
    the model returns the plan with its structures normalised. The worker drops a
    plan that is refused, so what a refused plan was changed to is left out. A
    [BTreeMap] is visited in the order of its keys. *)

From stdpp Require Import base numbers list gmap sorting strings pretty.
From Stdlib Require Import ZArith Lia.
From S2P Require Import Prelude RustDecimal Dec TreeTypes CommissionTypes Currency Board BinaryCommission Rank Generation Stairstep StreamlineCommission PlanConfig.
Import Plan.

Module Validate.
Section checks.
Context {D : Type} `{!DecimalOps D}.
Abbreviation verdict := (outcome string unit).
#[local] Open Scope string_scope.

(** ** Numbers *)
Definition check_fraction (field : string) (v : AuthoredDec D) : verdict :=
  refuse_if (is_negative (dec v) || dec_ltb DONE (dec v)) (field +:+ " must be a fraction in [0.0, 1.0], got " +:+ show v).

Definition check_positive (field : string) (v : AuthoredDec D) : verdict :=
  refuse_if (dec_leb (dec v) DZERO) (field +:+ " must be greater than 0, got " +:+ show v).

Definition check_non_negative (field : string) (v : AuthoredDec D) : verdict :=
  refuse_if (is_negative (dec v)) (field +:+ " must be non-negative, got " +:+ show v).

Definition check_min_override (v : Stairstep.MinOverride D) : verdict :=
  match v with
  | Stairstep.MinRate value => check_fraction "differential min_override" value
  | Stairstep.MinCurrency value => check_non_negative "differential min_override" value
  end.

Definition check_optional_positive (field : string) (v : option (AuthoredDec D)) : verdict :=
  match v with Some x => check_positive field x | None => Ok () end.

Definition check_optional_non_negative (field : string) (v : option (AuthoredDec D)) : verdict :=
  match v with Some x => check_non_negative field x | None => Ok () end.

(** ** Tables *)

(** The entries of a [BTreeMap] in the order of its keys. *)
Definition by_name {V} (m : gmap string V) : list (string * V) := sort_by (λ a b, String.compare a.1 b.1) (map_to_list m).
Definition by_number {V} (m : gmap N V) : list (N * V) := sort_by (λ a b, a.1 ?= b.1)%N (map_to_list m).

(** [field[key]]. *)
Definition at_key (field key : string) : string := field +:+ "[" +:+ key +:+ "]".

Definition check_named_rates (field : string) (m : gmap string (AuthoredDec D)) : verdict :=
  for_each (λ e, check_fraction (at_key field e.1) e.2) (by_name m).
Definition check_numbered_rates (field : string) (m : gmap N (AuthoredDec D)) : verdict :=
  for_each (λ e, check_fraction (at_key field (pretty e.1)) e.2) (by_number m).

(** ** The structures *)
Definition level_commission_validate (c : LevelCommissionConfig D) : verdict :=
  check_fraction "broad_commission_percent" (broad_commission_percent c);;
  check_optional_positive "volume_to_dollar_multiplier" (lc_volume_to_dollar_multiplier c);;
  refuse_if (lc_max_depth c <? 1)%N ("commissionable_depth must be >= 1, got " +:+ pretty (lc_max_depth c));;
  for_each (λ e, check_numbered_rates (at_key "rate_table" e.1) e.2) (by_name (rate_table c)).

Definition matrix_params_validate (c : MatrixStructureParams) : verdict :=
  refuse_if (mp_width c <? 2)%N ("matrix width must be >= 2, got " +:+ pretty (mp_width c));;
  refuse_if (match mp_spillover c with DepthFirst => true | _ => false end)
    "matrix spillover_direction 'depth_first' is not supported by the engine".

Definition pairing_validate (c : PairingConfig D) : verdict :=
  check_fraction "pairing percent" (percent c);;
  check_optional_non_negative "cap_per_period" (cap_per_period c);;
  check_optional_non_negative "carry_forward_cap" (carry_forward_cap c).

(** A cycle-step configuration comes back with its steps sorted. *)
Definition binary_validate (c : BinaryCommissionConfig D) : outcome string (BinaryCommissionConfig D) :=
  check_optional_positive "volume_to_dollar_multiplier" (bc_volume_to_dollar_multiplier c);;
  match bc_mode c with
  | Pairing pairing => pairing_validate pairing;; Ok c
  | CycleStepMode cycle =>
      cycle ← BinaryCommission.validate cycle;
      Ok (mkBinaryCommission (bc_volume_to_dollar_multiplier c) (CycleStepMode cycle))
  end.

Definition check_contiguous (count : nat) (e : nat * StreamlineLevel D) : verdict :=
  refuse_if (negb (N.to_nat (sl_level e.2) =? e.1 + 1)%nat)
    ("dynamic_compression levels must be a contiguous ascending run starting at 1, got " +:+ pretty (sl_level e.2) +:+
     " at position " +:+ pretty e.1 +:+ " (table has " +:+ pretty count +:+ " entries)").

Definition streamline_validate (c : StreamlineCommissionConfig D) : verdict :=
  check_optional_positive "volume_to_dollar_multiplier" (sc_volume_to_dollar_multiplier c);;
  refuse_if (sc_max_depth c <? 1)%N ("commissionable_depth must be >= 1, got " +:+ pretty (sc_max_depth c));;
  refuse_if (bool_decide (sc_levels c = [])) "dynamic_compression must have at least one level";;
  for_each (check_contiguous (length (sc_levels c))) (enumerate (sc_levels c));;
  refuse_if (N.to_nat (sc_max_depth c) <? length (sc_levels c))%nat
    ("commissionable_depth (" +:+ pretty (sc_max_depth c) +:+ ") must be >= number of levels (" +:+ pretty (length (sc_levels c)) +:+ ")");;
  for_each (λ l, check_fraction ("dynamic_compression level " +:+ pretty (sl_level l) +:+ " percent") (sl_percent l)) (sc_levels c).

Definition generation_validate (c : Generation.GenerationCommissionConfig D) : verdict :=
  refuse_if (Generation.max_generations c <? 1)%N ("max_generations must be >= 1, got " +:+ pretty (Generation.max_generations c));;
  check_optional_positive "volume_to_dollar_multiplier" (Generation.volume_to_dollar_multiplier c);;
  check_numbered_rates "generation_rates" (Generation.rates c).

Definition override_mode_validate (mode : Stairstep.OverrideMode D) : verdict :=
  match mode with
  | Stairstep.Differential diff =>
      check_named_rates "differential rank_rates" (Stairstep.d_rank_rates diff);;
      check_min_override (Stairstep.min_override diff)
  | Stairstep.FixedOverride fixed => check_named_rates "fixed_override rank_rates" (Stairstep.f_rank_rates fixed)
  end.

Definition breakaway_generation_validate (g : Stairstep.BreakawayGenerationConfig D) : verdict :=
  refuse_if (Stairstep.bg_max_generations g <? 1)%N
    ("breakaway max_generations must be >= 1, got " +:+ pretty (Stairstep.bg_max_generations g));;
  check_numbered_rates "breakaway generation_rates" (Stairstep.bg_rates g).

Definition multi_tier_validate (multi : Stairstep.MultiTierConfig D) : verdict :=
  refuse_if (bool_decide (Stairstep.tiers multi = [])) "multi_tier breakaway must have at least one tier";;
  refuse_if (255 <? length (Stairstep.tiers multi))%nat
    ("multi_tier breakaway supports at most 255 tiers, got " +:+ pretty (length (Stairstep.tiers multi)));;
  for_each (λ e, check_fraction ("multi_tier tier " +:+ pretty (e.1 + 1) +:+ " rate") (Stairstep.tier_rate e.2))
    (enumerate (Stairstep.tiers multi)).

Definition breakaway_validate (c : Stairstep.BreakawayConfig D) : verdict :=
  match Stairstep.overrides c with
  | Stairstep.SingleWalk mode generation_overrides =>
      override_mode_validate mode;;
      match generation_overrides with Some g => breakaway_generation_validate g | None => Ok () end
  | Stairstep.MultiTier multi => multi_tier_validate multi
  end.

Definition structure_name (s : StructureConfig (D := D)) : string :=
  match s with
  | Plan.Unilevel c => us_name c
  | Plan.Binary c => bs_name c
  | Plan.Matrix c => ms_name c
  | Plan.Stairstep c => Stairstep.ss_name c
  | Plan.Generation c => Generation.gs_name c
  | Plan.Streamline c => sl_name c
  | Plan.BoardPlan c => board_name c
  end.

(** [map_err] at the end of [StructureConfig::validate]. A [?] in an arm returns
    before it. *)
Definition in_structure {A} (s : StructureConfig (D := D)) (m : outcome string A) : outcome string A :=
  map_err (λ e, "structure '" +:+ structure_name s +:+ "': " +:+ e) m.

Definition structure_validate (s : StructureConfig (D := D)) : outcome string (StructureConfig (D := D)) :=
  match s with
  | Plan.Unilevel c => in_structure s (level_commission_validate (us_level_commission c));; Ok s
  | Plan.Binary c =>
      b ← in_structure s (binary_validate (binary_commission c));
      Ok (Plan.Binary (mkBinaryStructure (bs_name c) b))
  | Plan.Matrix c =>
      in_structure s (matrix_params_validate (ms_matrix_params c);; level_commission_validate (ms_level_commission c));; Ok s
  | Plan.Stairstep c =>
      level_commission_validate (Stairstep.ss_level_commission c);;
      match Stairstep.breakaway c with Some b => breakaway_validate b | None => Ok () end;;
      Ok s
  | Plan.Generation c =>
      generation_validate (Generation.generation_commission c);;
      match Generation.level_commission c with Some l => level_commission_validate l | None => Ok () end;;
      in_structure s (refuse_if (Generation.level_commissions_enabled c && bool_decide (Generation.level_commission c = None))
        "level_commissions_enabled is true and level_commission is null or absent");;
      Ok s
  | Plan.Streamline c => in_structure s (streamline_validate (streamline_commission c));; Ok s
  | Plan.BoardPlan c => in_structure s (check_non_negative "cycle_commission" (cycle_commission (board_cycling c)));; Ok s
  end.

(** ** Currency and minor units *)
Definition check_currency (p : CompensationPlan (D := D)) : verdict :=
  let base := base_currency (volume p) in
  refuse_if (bool_decide (minor_units base = None)) ("volume: base_currency " +:+ debug_string base +:+ " is not in the minor-unit table");;
  refuse_if (bool_decide (currency (payout p) ≠ base))
    ("payout: base_currency " +:+ debug_string (currency (payout p)) +:+ " does not match volume base_currency " +:+ debug_string base).

(** The closure [check] of [check_whole_minor_units]. *)
Definition check_whole (code : string) (places : N) (field : string) (v : AuthoredDec D) : verdict :=
  if dec_eqb (round_minor (dec v) (Z.of_N places)) (dec v) then Ok ()
  else Err (field +:+ " " +:+ show v +:+ " is not a whole number of " +:+ code +:+ " minor units, which have " +:+
            pretty places +:+ " decimal places").

Definition check_option (check : string → AuthoredDec D → verdict) (field : string) (v : option (AuthoredDec D)) : verdict :=
  match v with Some x => check field x | None => Ok () end.

(** The money of a structure. *)
Definition structure_money (check : string → AuthoredDec D → verdict) (s : StructureConfig (D := D)) : verdict :=
  let at_ := "structure '" +:+ structure_name s +:+ "'" in
  match s with
  | Plan.Binary c =>
      match bc_mode (binary_commission c) with
      | Pairing p => check_option check (at_ +:+ ": pairing cap_per_period") (cap_per_period p)
      | CycleStepMode cs =>
          check_option check (at_ +:+ ": cycle_step cap_per_period") (cs_cap_per_period cs);;
          for_each (λ e, check (at_ +:+ ": cycle_step steps[" +:+ pretty e.1 +:+ "] amount") (amount e.2)) (enumerate (cs_steps cs))
      end
  | Plan.BoardPlan c => check (at_ +:+ ": board_cycling cycle_commission") (cycle_commission (board_cycling c))
  | Plan.Stairstep c =>
      match Stairstep.overrides <$> Stairstep.breakaway c with
      | Some (Stairstep.SingleWalk (Stairstep.Differential diff) _) =>
          match Stairstep.min_override diff with
          | Stairstep.MinCurrency value => check (at_ +:+ ": differential min_override") value
          | Stairstep.MinRate _ => Ok ()
          end
      | _ => Ok ()
      end
  | Plan.Unilevel _ | Plan.Matrix _ | Plan.Generation _ | Plan.Streamline _ => Ok ()
  end.

(** The money of the bonuses. *)
Definition bonus_money (check : string → AuthoredDec D → verdict) (b : BonusConfig (D := D)) : verdict :=
  match matrix_completion b with
  | Some mc =>
      check "bonuses: matrix_completion full_matrix" (full_matrix_amount mc);;
      for_each (λ e, check (at_key "bonuses: matrix_completion per_level" (pretty e.1)) e.2) (by_number (per_level_amounts mc))
  | None => Ok ()
  end;;
  match rank_advancement b with
  | Some ra => for_each (λ e, check (at_key "bonuses: rank_advancement amounts" e.1) e.2) (by_name (amounts ra))
  | None => Ok ()
  end;;
  match lifestyle b with
  | Some l => for_each (λ e, check ("bonuses: lifestyle tiers[" +:+ pretty e.1 +:+ "] amount") (lt_amount e.2)) (enumerate (lifestyle_tiers l))
  | None => Ok ()
  end;;
  match sponsor_bonus b with
  | Some s => match sb_amount_type s with Fixed => check "bonuses: sponsor amount" (sb_amount s) | Percentage => Ok () end
  | None => Ok ()
  end;;
  match position_bonus b with
  | Some s => match pb_amount_type s with Fixed => check "bonuses: position amount" (pb_amount s) | Percentage => Ok () end
  | None => Ok ()
  end;;
  for_each (λ e, check_option check ("bonuses: pool[" +:+ pretty e.1 +:+ "] equal_share_cap") (equal_share_cap (shares e.2)))
    (enumerate (default [] (pool b))).

Definition check_whole_minor_units (p : CompensationPlan (D := D)) : verdict :=
  match minor_units (base_currency (volume p)) with
  | None => Ok ()
  | Some places =>
      let check := check_whole (base_currency (volume p)) places in
      for_each (structure_money check) (structures p);;
      bonus_money check (bonuses p);;
      check "payout: minimum_amount" (minimum_payout (payout p));;
      check_option check "caps: per_distributor_per_period" (per_distributor_cap (caps p))
  end.

(** ** The rank ladder *)
Definition check_rank_ladder_non_empty (p : CompensationPlan (D := D)) : verdict :=
  refuse_if (bool_decide (length (ranks p) = 0)) "ranks: the plan defines no ranks".

Definition check_rank_floor (e : nat * Rank.RankDefinition D) : verdict :=
  refuse_if (bool_decide (Rank.name e.2 = EmptyString)) ("ranks: rank at index " +:+ pretty e.1 +:+ " has an empty name");;
  refuse_if (Rank.ordinal e.2 =? 0)%N
    ("ranks: rank at index " +:+ pretty e.1 +:+ " ('" +:+ Rank.name e.2 +:+ "') has ordinal 0; ordinals start at 1").

Definition check_rank_name_and_ordinal_floor (p : CompensationPlan (D := D)) : verdict :=
  for_each check_rank_floor (enumerate (ranks p)).

(** The loop keeps the names by ordinal and the ordinal before. *)
Definition ascend (st : gmap N string * option N) (r : Rank.RankDefinition D) : outcome string (gmap N string * option N) :=
  let '(seen, previous) := st in
  match seen !! Rank.ordinal r with
  | Some other => Err ("ranks: rank '" +:+ Rank.name r +:+ "' has duplicate ordinal " +:+ pretty (Rank.ordinal r) +:+ " (same as '" +:+ other +:+ "')")
  | None => Ok ()
  end;;
  match previous with
  | Some before => refuse_if (Rank.ordinal r <=? before)%N
      ("ranks: rank '" +:+ Rank.name r +:+ "' ordinal " +:+ pretty (Rank.ordinal r) +:+ " is not ascending (previous was " +:+ pretty before +:+ ")")
  | None => Ok ()
  end;;
  Ok (<[Rank.ordinal r := Rank.name r]> seen, Some (Rank.ordinal r)).

Definition check_rank_ordinals_ascending (p : CompensationPlan (D := D)) : verdict :=
  fold_outcome ascend (∅, None) (ranks p);; Ok ().

(** A name that a [HashSet] of the names before it already holds. *)
Definition once (message : string → string) (seen : gset string) (x : string) : outcome string (gset string) :=
  refuse_if (bool_decide (x ∈ seen)) (message x);; Ok ({[x]} ∪ seen).

Definition check_unique_rank_names (p : CompensationPlan (D := D)) : verdict :=
  fold_outcome (once (λ x, "ranks: duplicate rank name '" +:+ x +:+ "'")) ∅ (Rank.name <$> ranks p);; Ok ().

Definition check_unique_structure_names (p : CompensationPlan (D := D)) : verdict :=
  fold_outcome (once (λ x, "structures: duplicate structure name '" +:+ x +:+ "'")) ∅ (structure_name <$> structures p);; Ok ().

(** Where a rank's requirement is. *)
Definition rank_at_structure (r : Rank.RankDefinition D) (sq : Rank.StructureQualification D) : string :=
  "ranks: rank '" +:+ Rank.name r +:+ "' structure '" +:+ Rank.structure sq +:+ "'".

Definition check_thresholds (r : Rank.RankDefinition D) (sq : Rank.StructureQualification D) : verdict :=
  let at_ := rank_at_structure r sq in
  check_non_negative (at_ +:+ " personal_volume") (Rank.sq_personal_volume sq);;
  check_non_negative (at_ +:+ " group_volume") (Rank.group_volume sq);;
  check_non_negative (at_ +:+ " min_retail_volume") (Rank.min_retail_volume sq);;
  match Rank.distributor_count sq with
  | Some dc => check_non_negative (at_ +:+ " distributor_count.min_leg_group_volume") (Rank.min_leg_group_volume dc)
  | None => Ok ()
  end;;
  for_each (λ e, match Rank.predicate e.2 with
                 | Rank.ContainsPersonalVolume v =>
                     check_non_negative (at_ +:+ " leg_quality[" +:+ pretty e.1 +:+ "].predicate.min_personal_volume") v
                 | Rank.ContainsRank _ => Ok ()
                 end) (enumerate (Rank.leg_quality sq)).

Definition check_rank_thresholds_non_negative (p : CompensationPlan (D := D)) : verdict :=
  for_each (λ r, for_each (check_thresholds r) (Rank.structures (Rank.qualification r))) (ranks p).

(** [min_by_key(|r| r.ordinal)]: the first of the lowest. *)
Definition base_rank (l : list (Rank.RankDefinition D)) : option (Rank.RankDefinition D) :=
  foldl (λ held r, match held with
                   | None => Some r
                   | Some h => if (Rank.ordinal r <? Rank.ordinal h)%N then Some r else held
                   end) None l.

(** [{:?}] on a list of strings. *)
Definition debug_strings (l : list string) : string :=
  "[" +:+ String.concat ", " (debug_string <$> l) +:+ "]".

Definition refuse_base (r : Rank.RankDefinition D) (b : bool) (what : string) : verdict :=
  refuse_if b ("ranks: base rank '" +:+ Rank.name r +:+ "' " +:+ what +:+ "; the lowest rank must require nothing").

Definition base_structure (r : Rank.RankDefinition D) (sq : Rank.StructureQualification D) : verdict :=
  let on := " on structure '" +:+ Rank.structure sq +:+ "'" in
  for_each (λ e, refuse_base r (negb (is_zero (dec e.2))) ("sets " +:+ e.1 +:+ " " +:+ show e.2 +:+ on))
    [("personal_volume", Rank.sq_personal_volume sq); ("group_volume", Rank.group_volume sq);
     ("min_retail_volume", Rank.min_retail_volume sq)];;
  refuse_base r (bool_decide (is_Some (Rank.distributor_count sq))) ("sets distributor_count" +:+ on);;
  refuse_base r (bool_decide (length (Rank.leg_quality sq) ≠ 0)) ("sets leg_quality" +:+ on).

Definition check_base_rank_requires_nothing (p : CompensationPlan (D := D)) : verdict :=
  match base_rank (ranks p) with
  | None => Ok ()
  | Some base =>
      let q := Rank.qualification base in
      refuse_base base (bool_decide (Rank.required_products q ≠ [])) ("requires products " +:+ debug_strings (Rank.required_products q));;
      refuse_base base (bool_decide (is_Some (Rank.window q))) "has a window";;
      refuse_base base (bool_decide (is_Some (Rank.tenure q))) "has a tenure requirement";;
      for_each (base_structure base) (Rank.structures q)
  end.

Definition check_leg_caps (r : Rank.RankDefinition D) (sq : Rank.StructureQualification D) : verdict :=
  let at_ := rank_at_structure r sq in
  check_non_negative (at_ +:+ " max_group_volume_per_leg") (Rank.max_group_volume_per_leg sq);;
  check_fraction (at_ +:+ " max_group_volume_per_leg_fraction") (Rank.max_group_volume_per_leg_fraction sq);;
  refuse_if (dec_ltb DZERO (dec (Rank.max_group_volume_per_leg sq)) && dec_ltb DZERO (dec (Rank.max_group_volume_per_leg_fraction sq)))
    (at_ +:+ " sets both max_group_volume_per_leg and max_group_volume_per_leg_fraction").

Definition check_per_leg_caps (p : CompensationPlan (D := D)) : verdict :=
  for_each (λ r, for_each (check_leg_caps r) (Rank.structures (Rank.qualification r))) (ranks p).

(** ** The plan *)
Definition volume_validate (v : VolumeConfig (D := D)) : verdict :=
  check_positive "volume_to_dollar_multiplier" (volume_to_dollar_multiplier v).

Definition caps_validate (c : CapsConfig (D := D)) : verdict :=
  check_fraction "company_payout_cap_percent" (company_payout_cap_percent c);;
  check_optional_non_negative "per_distributor cap" (per_distributor_cap c).

Definition plan_validate (p : CompensationPlan (D := D)) : outcome string (CompensationPlan (D := D)) :=
  map_err (λ e, "volume: " +:+ e) (volume_validate (volume p));;
  map_err (λ e, "caps: " +:+ e) (caps_validate (caps p));;
  check_currency p;;
  check_whole_minor_units p;;
  check_rank_ladder_non_empty p;;
  check_rank_name_and_ordinal_floor p;;
  check_rank_ordinals_ascending p;;
  check_unique_rank_names p;;
  check_rank_thresholds_non_negative p;;
  check_base_rank_requires_nothing p;;
  check_per_leg_caps p;;
  check_unique_structure_names p;;
  structures ← map_outcome structure_validate (structures p);
  Ok (with_structures (λ _, structures) p).
End checks.
End Validate.
