(* ===== verification/PlanSpec.v ===== *)
(** * What a valid plan is

    The invariants of a plan on exact values, without loops or messages; each check
    of PlanValidate.v decides its part ([decides]). PlanTheorems.v collects them. *)

From stdpp Require Import base numbers list gmap sorting strings pretty.
From Stdlib Require Import ZArith Lia.
From S2P Require Import Prelude RustDecimal Dec Allocate TreeTypes CommissionTypes Currency Board BinaryCommission BinaryCalc BinaryCycle Rank Generation Stairstep StreamlineCommission PlanConfig PlanValidate.
Import Plan Validate.
#[local] Open Scope Z_scope.

(** ** Deciding a property *)

(** The check passes exactly when [P] holds, and always answers. *)
Definition decides (m : outcome string unit) (P : Prop) : Prop := returns (λ _, P) (λ _, ¬ P) m.

Lemma decides_refuse b e P : (b = false ↔ P) → decides (refuse_if b e) P.
Proof. unfold decides. destruct b; cbn; naive_solver. Qed.

Lemma decides_skip : decides (Ok ()) True.
Proof. done. Qed.

Lemma decides_seq m k P Q : decides m P → decides k Q → decides (m;; k) (P ∧ Q).
Proof. unfold decides. destruct m, k; cbn; naive_solver. Qed.

Lemma decided_iff m P Q : decides m P → (P ↔ Q) → decides m Q.
Proof. unfold decides. destruct m; cbn; naive_solver. Qed.

Lemma decided_map_err f m P : decides m P → decides (map_err f m) P.
Proof. unfold decides. by destruct m. Qed.

Lemma decides_for_each {A} (f : A → outcome string unit) (P : A → Prop) l :
  (∀ x, x ∈ l → decides (f x) (P x)) → decides (for_each f l) (Forall P l).
Proof.
  induction l as [|x l IH]; intros Hf; cbn [for_each].
  - eapply decided_iff; [apply decides_skip|]. by split; [constructor|].
  - eapply decided_iff; [apply decides_seq; [apply Hf; left|apply IH; intros y Hy; apply Hf; by right]|]. by rewrite Forall_cons.
Qed.

Lemma decides_option {A} (f : A → outcome string unit) (P : A → Prop) o : (∀ x, decides (f x) (P x)) →
  decides (match o with Some x => f x | None => Ok () end) (∀ x, o = Some x → P x).
Proof.
  intros Hf. destruct o as [x|].
  - eapply decided_iff; [apply (Hf x)|]. naive_solver.
  - eapply decided_iff; [apply decides_skip|]. naive_solver.
Qed.

(** The same for a check that also returns a value: exactly [r]. *)
Definition yields {A} (m : outcome string A) (P : Prop) (r : A) : Prop := returns (λ x, P ∧ x = r) (λ _, ¬ P) m.

Lemma yields_ok {A} (r : A) : yields (Ok r) True r.
Proof. done. Qed.

Lemma yields_seq {A} m (k : outcome string A) P Q r : decides m P → yields k Q r → yields (m;; k) (P ∧ Q) r.
Proof. unfold decides, yields. destruct m, k; cbn; naive_solver. Qed.

Lemma yields_bind {A B} (m : outcome string A) (k : A → outcome string B) P Q a r :
  yields m P a → yields (k a) Q r → yields (m ≫= k) (P ∧ Q) r.
Proof. unfold yields. intros Hm Hk. destruct m as [x|e| |]; cbn in *; [|naive_solver..]. destruct Hm as [HP ->]. destruct (k a); cbn in *; naive_solver. Qed.

Lemma yields_iff {A} (m : outcome string A) P Q r : yields m P r → (P ↔ Q) → yields m Q r.
Proof. unfold yields. destruct m; cbn; naive_solver. Qed.

Lemma yields_map_err {A} f (m : outcome string A) P r : yields m P r → yields (map_err f m) P r.
Proof. unfold yields. by destruct m. Qed.

Lemma yields_map {A B} (f : A → outcome string B) (P : A → Prop) (g : A → B) l :
  (∀ x, x ∈ l → yields (f x) (P x) (g x)) → yields (map_outcome f l) (Forall P l) (g <$> l).
Proof.
  induction l as [|x l IH]; intros Hf; cbn [map_outcome].
  - eapply yields_iff; [apply yields_ok|]. by split; [constructor|].
  - eapply yields_iff.
    + eapply yields_bind; [apply Hf; left|]. eapply yields_bind; [apply IH; intros y Hy; apply Hf; by right|apply yields_ok].
    + rewrite Forall_cons. naive_solver.
Qed.

Lemma passed {A} m P (r : A) : decides m P → yields (m;; Ok r) P r.
Proof. intros H. eapply yields_iff; [apply yields_seq; [exact H|apply yields_ok]|]. naive_solver. Qed.

(** *** Loops over sorted and numbered entries *)
Lemma forall_by_name {V} (P : string * V → Prop) (m : gmap string V) : Forall P (by_name m) ↔ ∀ k v, m !! k = Some v → P (k, v).
Proof.
  unfold by_name. rewrite sort_by_perm, Forall_forall. split.
  - intros H k v Hk. apply H. by apply elem_of_map_to_list.
  - intros H [k v] Hk. apply H. by apply elem_of_map_to_list.
Qed.

Lemma forall_by_number {V} (P : N * V → Prop) (m : gmap N V) : Forall P (by_number m) ↔ ∀ k v, m !! k = Some v → P (k, v).
Proof.
  unfold by_number. rewrite sort_by_perm, Forall_forall. split.
  - intros H k v Hk. apply H. by apply elem_of_map_to_list.
  - intros H [k v] Hk. apply H. by apply elem_of_map_to_list.
Qed.

Lemma forall_enumerate {A} (P : A → Prop) (l : list A) : Forall (λ e : nat * A, P e.2) (enumerate l) ↔ Forall P l.
Proof.
  rewrite !Forall_forall. split.
  - intros H x [i Hi]%list_elem_of_lookup. apply (H (i, x)). by apply elem_of_enumerate.
  - intros H [i x] Hi%elem_of_enumerate. apply H. by eapply list_elem_of_lookup_2.
Qed.

Lemma decides_numbered {A} (f : nat * A → outcome string unit) (P : A → Prop) l :
  (∀ i x, decides (f (i, x)) (P x)) → decides (for_each f (enumerate l)) (Forall P l).
Proof.
  intros Hf. eapply decided_iff; [apply (decides_for_each _ (λ e : nat * A, P e.2)); intros [i x] _; apply Hf|].
  apply forall_enumerate.
Qed.

(** ** Numbers *)
Section spec.
Context {D : Type} `{!DecimalOps D, !DecimalLaws D}.
Implicit Types (v : AuthoredDec D) (p : CompensationPlan (D := D)).

Definition fraction v : Prop := 0 ≤ units (dec v) ≤ 10 ^ 28.
Definition positive v : Prop := 0 < units (dec v).
Definition non_negative v : Prop := 0 ≤ units (dec v).
Definition if_set (P : AuthoredDec D → Prop) (o : option (AuthoredDec D)) : Prop := ∀ v, o = Some v → P v.
(** A whole number of minor units. *)
Definition whole (places : N) v : Prop := (10 ^ (28 - Z.of_N places) | units (dec v)).

Lemma check_fraction_spec f v : decides (check_fraction f v) (fraction v).
Proof using DecimalLaws0.
  apply decides_refuse. rewrite is_negative_units, dec_ltb_units, one_units, orb_false_iff, !Z.ltb_ge. done.
Qed.

Lemma check_positive_spec f v : decides (check_positive f v) (positive v).
Proof using DecimalLaws0. apply decides_refuse. rewrite dec_leb_units, zero_units, Z.leb_gt. done. Qed.

Lemma check_non_negative_spec f v : decides (check_non_negative f v) (non_negative v).
Proof using DecimalLaws0. apply decides_refuse. rewrite is_negative_units, Z.ltb_ge. done. Qed.

Lemma check_optional_positive_spec f o : decides (check_optional_positive f o) (if_set positive o).
Proof using DecimalLaws0. apply (decides_option (check_positive f)). intros v. apply check_positive_spec. Qed.

Lemma check_optional_non_negative_spec f o : decides (check_optional_non_negative f o) (if_set non_negative o).
Proof using DecimalLaws0. apply (decides_option (check_non_negative f)). intros v. apply check_non_negative_spec. Qed.

Lemma check_named_rates_spec f m : decides (check_named_rates f m) (∀ k v, m !! k = Some v → fraction v).
Proof using DecimalLaws0.
  eapply decided_iff; [apply (decides_for_each _ (λ e : string * AuthoredDec D, fraction e.2)); intros e _; apply check_fraction_spec|].
  by rewrite forall_by_name.
Qed.

Lemma check_numbered_rates_spec f m : decides (check_numbered_rates f m) (∀ k v, m !! k = Some v → fraction v).
Proof using DecimalLaws0.
  eapply decided_iff; [apply (decides_for_each _ (λ e : N * AuthoredDec D, fraction e.2)); intros e _; apply check_fraction_spec|].
  by rewrite forall_by_number.
Qed.

Lemma check_whole_spec code places f v : (places ≤ 4)%N → decides (check_whole code places f v) (whole places v).
Proof using DecimalLaws0.
  intros Hp. unfold decides, check_whole. pose proof (round_minor_fixed (dec v) places Hp) as H.
  destruct (dec_eqb _ _); cbn; unfold whole; [by apply H|]. intros Hw. by apply H in Hw.
Qed.

(** ** Structures *)
Record level_ok (c : LevelCommissionConfig D) : Prop := {
  lo_broad : fraction (broad_commission_percent c);
  lo_multiplier : if_set positive (lc_volume_to_dollar_multiplier c);
  lo_depth : (1 ≤ lc_max_depth c)%N;
  lo_rates rank levels n v : rate_table c !! rank = Some levels → levels !! n = Some v → fraction v;
}.

Lemma level_commission_validate_spec c : decides (level_commission_validate c) (level_ok c).
Proof using DecimalLaws0.
  eapply decided_iff.
  { repeat (apply decides_seq; [first [apply check_fraction_spec|apply check_optional_positive_spec|apply decides_refuse; reflexivity]|]).
    apply (decides_for_each _ (λ e : string * gmap N (AuthoredDec D), ∀ k v, e.2 !! k = Some v → fraction v)). intros e _. apply check_numbered_rates_spec. }
  rewrite forall_by_name, N.ltb_ge. cbn. split; [intros (H1 & H2 & H3 & H4); by split; [..|eauto]|intros []; naive_solver].
Qed.

Definition matrix_ok (c : MatrixStructureParams) : Prop := (2 ≤ mp_width c)%N ∧ mp_spillover c = BreadthFirst.

Lemma matrix_params_validate_spec c : decides (matrix_params_validate c) (matrix_ok c).
Proof.
  apply decides_seq; apply decides_refuse; [apply N.ltb_ge|]. by destruct (mp_spillover c).
Qed.

Definition pairing_ok (c : PairingConfig D) : Prop :=
  fraction (percent c) ∧ if_set non_negative (cap_per_period c) ∧ if_set non_negative (carry_forward_cap c).

Lemma pairing_validate_spec c : decides (pairing_validate c) (pairing_ok c).
Proof using DecimalLaws0.
  apply decides_seq; [apply check_fraction_spec|]. apply decides_seq; apply check_optional_non_negative_spec.
Qed.

Record streamline_ok (c : StreamlineCommissionConfig D) : Prop := {
  so_multiplier : if_set positive (sc_volume_to_dollar_multiplier c);
  so_depth : (1 ≤ sc_max_depth c)%N;
  so_nonempty : sc_levels c ≠ [];
  so_contiguous i l : sc_levels c !! i = Some l → sl_level l = N.of_nat (i + 1);
  so_room : (length (sc_levels c) ≤ N.to_nat (sc_max_depth c))%nat;
  so_percents : Forall (λ l, fraction (sl_percent l)) (sc_levels c);
}.

Lemma streamline_validate_spec c : decides (streamline_validate c) (streamline_ok c).
Proof using DecimalLaws0.
  eapply decided_iff.
  { apply decides_seq; [apply check_optional_positive_spec|]. apply decides_seq; [apply decides_refuse, N.ltb_ge|].
    apply decides_seq; [apply decides_refuse, bool_decide_eq_false|].
    apply decides_seq; [apply (decides_for_each _ (λ e : nat * StreamlineLevel D, sl_level e.2 = N.of_nat (e.1 + 1)))|].
    - intros [i l] _. apply decides_refuse. rewrite negb_false_iff, Nat.eqb_eq. cbn. lia.
    - apply decides_seq; [apply decides_refuse, Nat.ltb_ge|]. apply decides_for_each. intros l _. apply check_fraction_spec. }
  rewrite (Forall_forall _ (enumerate _)). split.
  - intros (H1 & H2 & H3 & H4 & H5 & H6). split; [done..| |done|done]. intros i l Hi. apply (H4 (i, l)). by apply elem_of_enumerate.
  - intros [H1 H2 H3 H4 H5 H6]. split_and!; [done..| |done|done]. intros [i l] Hi%elem_of_enumerate. by apply H4.
Qed.

Record generation_ok (c : Generation.GenerationCommissionConfig D) : Prop := {
  go_generations : (1 ≤ Generation.max_generations c)%N;
  go_multiplier : if_set positive (Generation.volume_to_dollar_multiplier c);
  go_rates n v : Generation.rates c !! n = Some v → fraction v;
}.

Lemma generation_validate_spec c : decides (generation_validate c) (generation_ok c).
Proof using DecimalLaws0.
  eapply decided_iff.
  { apply decides_seq; [apply decides_refuse, N.ltb_ge|]. apply decides_seq; [apply check_optional_positive_spec|]. apply check_numbered_rates_spec. }
  split; [intros (H1 & H2 & H3); by split|by intros []].
Qed.

Definition override_mode_ok (mode : Stairstep.OverrideMode D) : Prop :=
  match mode with
  | Stairstep.Differential diff => (∀ r v, Stairstep.d_rank_rates diff !! r = Some v → fraction v) ∧
      match Stairstep.min_override diff with Stairstep.MinRate v => fraction v | Stairstep.MinCurrency v => non_negative v end
  | Stairstep.FixedOverride fixed => ∀ r v, Stairstep.f_rank_rates fixed !! r = Some v → fraction v
  end.

Definition breakaway_ok (c : Stairstep.BreakawayConfig D) : Prop :=
  match Stairstep.overrides c with
  | Stairstep.SingleWalk mode g => override_mode_ok mode ∧
      ∀ g', g = Some g' → (1 ≤ Stairstep.bg_max_generations g')%N ∧ ∀ n v, Stairstep.bg_rates g' !! n = Some v → fraction v
  | Stairstep.MultiTier multi => Stairstep.tiers multi ≠ [] ∧ (length (Stairstep.tiers multi) ≤ 255)%nat ∧
      Forall (λ t, fraction (Stairstep.tier_rate t)) (Stairstep.tiers multi)
  end.

Lemma override_mode_validate_spec mode : decides (override_mode_validate mode) (override_mode_ok mode).
Proof using DecimalLaws0.
  destruct mode as [diff|fixed]; cbn [override_mode_validate override_mode_ok]; [|apply check_named_rates_spec].
  apply decides_seq; [apply check_named_rates_spec|]. destruct (Stairstep.min_override diff); [apply check_fraction_spec|apply check_non_negative_spec].
Qed.

Lemma breakaway_validate_spec c : decides (breakaway_validate c) (breakaway_ok c).
Proof using DecimalLaws0.
  unfold breakaway_validate, breakaway_ok. destruct (Stairstep.overrides c) as [mode g|multi].
  - apply decides_seq; [apply override_mode_validate_spec|]. apply decides_option. intros g'.
    apply decides_seq; [apply decides_refuse, N.ltb_ge|apply check_numbered_rates_spec].
  - apply decides_seq; [apply decides_refuse, bool_decide_eq_false|]. apply decides_seq; [apply decides_refuse, Nat.ltb_ge|].
    apply decides_numbered. intros i t. apply check_fraction_spec.
Qed.

(** *** Cycle steps *)
Abbreviation thr s := (units (dec (threshold s))).

Record cycle_ok (c : CycleStepConfig D) : Prop := {
  co_nonempty : cs_steps c ≠ [];
  co_positive : Forall (λ s, positive (threshold s) ∧ positive (amount s)) (cs_steps c);
  co_distinct : NoDup ((λ s, thr s) <$> cs_steps c);
  co_mode : volume_after_cycle c ≠ NetOff;
  co_cap : if_set non_negative (cs_cap_per_period c);
  co_carry_cap : if_set non_negative (cs_carry_forward_cap c);
}.

(** The configuration with its steps in order. *)
Definition in_order (c : CycleStepConfig D) : CycleStepConfig D :=
  mkCycleStepConfig (sort_steps (cs_steps c)) (volume_after_cycle c) (cs_cap_per_period c) (cs_carry_forward_cap c)
    (cs_multi_position_cap_mode c).

Lemma check_duplicate_spec (l : list (CycleStep D)) : StronglySorted (λ a b, thr a ≤ thr b) l →
  decides (check_duplicate l) (NoDup ((λ s, thr s) <$> l)).
Proof using DecimalLaws0.
  induction 1 as [|a l Hl IH Ha]; [eapply decided_iff; [apply decides_skip|]; split; [constructor|done]|].
  destruct l as [|b l]; [eapply decided_iff; [apply decides_skip|]; split; [intros _; apply NoDup_singleton|done]|].
  cbn [check_duplicate]. eapply decided_iff; [apply decides_seq; [apply decides_refuse; reflexivity|exact IH]|].
  rewrite compare_units, !fmap_cons, (NoDup_cons (thr a)), elem_of_cons.
  apply StronglySorted_inv in Hl as [_ Hb]. apply Forall_cons in Ha as [Hab _].
  assert (Hin : thr a ∈ (λ s, thr s) <$> l → thr a = thr b).
  { intros (s & Hs & Hin)%list_elem_of_fmap. rewrite Forall_forall in Hb. specialize (Hb s Hin). lia. }
  destruct (Z.compare_spec (thr a) (thr b)); split; intros [H1 H2]; (split; [|exact H2]); try done; try (intros [He|He]; [lia|apply Hin in He; lia]).
  exfalso. apply H1. by left.
Qed.

Lemma sort_steps_sorted l : StronglySorted (λ a b : CycleStep D, thr a ≤ thr b) (sort_steps l).
Proof using DecimalLaws0.
  pose proof step_comparator as Hc. pose proof (sort_sorted (λ a b : CycleStep D, dcompare (dec (threshold a)) (dec (threshold b))) l) as Hs.
  fold (sort_steps l) in Hs. clear -Hs DecimalLaws0. induction Hs as [|x k _ IH Hx]; constructor; [done|].
  eapply Forall_impl; [exact Hx|]. intros y. unfold cmp_leb. rewrite compare_units.
  destruct (Z.compare_spec (thr x) (thr y)); [lia|lia|done].
Qed.

Lemma step_check_spec (s : CycleStep D) : decides (check_step s) (positive (threshold s) ∧ positive (amount s)).
Proof using DecimalLaws0.
  apply decides_seq; apply decides_refuse; rewrite dec_leb_units, zero_units, Z.leb_gt; done.
Qed.

Lemma cap_check_spec cap why : decides (BinaryCommission.check_non_negative (D := D) cap why) (if_set non_negative cap).
Proof using DecimalLaws0.
  apply (decides_option (λ v, refuse_if (is_negative (dec v)) why)). intros v. apply decides_refuse. rewrite is_negative_units, Z.ltb_ge. done.
Qed.

Lemma cycle_validate_spec c : yields (BinaryCommission.validate c) (cycle_ok c) (in_order c).
Proof using DecimalLaws0.
  eapply yields_iff.
  { apply yields_seq; [apply decides_refuse, bool_decide_eq_false|].
    apply yields_seq; [apply decides_for_each; intros s _; apply step_check_spec|].
    apply yields_seq; [apply check_duplicate_spec, sort_steps_sorted|].
    apply yields_seq; [apply decides_refuse; reflexivity|].
    apply yields_seq; [apply cap_check_spec|]. apply yields_seq; [apply cap_check_spec|apply yields_ok]. }
  unfold sort_steps. rewrite (sort_by_perm (λ a b : CycleStep D, dcompare (dec (threshold a)) (dec (threshold b))) (cs_steps c)). split.
  - intros (H1 & H2 & H3 & H4 & H5 & H6 & _). split; try done; [intros Hn; apply H1; by rewrite Hn|by destruct (volume_after_cycle c)].
  - intros [H1 H2 H3 H4 H5 H6]. split_and!; try done; [|by destruct (volume_after_cycle c)]. by intros ?%nil_length_inv.
Qed.

(** *** All structures *)
Definition binary_ok (c : BinaryCommissionConfig D) : Prop :=
  if_set positive (bc_volume_to_dollar_multiplier c) ∧
  match bc_mode c with Pairing pairing => pairing_ok pairing | CycleStepMode cycle => cycle_ok cycle end.

Definition structure_ok (s : StructureConfig (D := D)) : Prop :=
  match s with
  | Plan.Unilevel c => level_ok (us_level_commission c)
  | Plan.Binary c => binary_ok (binary_commission c)
  | Plan.Matrix c => matrix_ok (ms_matrix_params c) ∧ level_ok (ms_level_commission c)
  | Plan.Stairstep c => level_ok (Stairstep.ss_level_commission c) ∧ ∀ b, Stairstep.breakaway c = Some b → breakaway_ok b
  | Plan.Generation c => generation_ok (Generation.generation_commission c) ∧
      (∀ l, Generation.level_commission c = Some l → level_ok l) ∧
      (Generation.level_commissions_enabled c = true → is_Some (Generation.level_commission c))
  | Plan.Streamline c => streamline_ok (streamline_commission c)
  | Plan.BoardPlan c => non_negative (cycle_commission (board_cycling c))
  end.

(** A structure as validation leaves it. *)
Definition normal (s : StructureConfig (D := D)) : StructureConfig (D := D) :=
  match s with
  | Plan.Binary c =>
      let b := binary_commission c in
      match bc_mode b with
      | CycleStepMode cycle =>
          Plan.Binary (mkBinaryStructure (bs_name c) (mkBinaryCommission (bc_volume_to_dollar_multiplier b) (CycleStepMode (in_order cycle))))
      | Pairing _ => s
      end
  | _ => s
  end.

Lemma binary_validate_spec c : yields (binary_validate c) (binary_ok c)
  match bc_mode c with
  | Pairing _ => c
  | CycleStepMode cycle => mkBinaryCommission (bc_volume_to_dollar_multiplier c) (CycleStepMode (in_order cycle))
  end.
Proof using DecimalLaws0.
  unfold binary_validate, binary_ok. apply yields_seq; [apply check_optional_positive_spec|].
  destruct (bc_mode c) as [pairing|cycle]; [apply passed, pairing_validate_spec|].
  eapply yields_iff; [eapply yields_bind; [apply cycle_validate_spec|apply yields_ok]|]. naive_solver.
Qed.

Lemma structure_validate_spec s : yields (structure_validate s) (structure_ok s) (normal s).
Proof using DecimalLaws0.
  unfold structure_validate, in_structure. destruct s as [c|c|c|c|c|c|c]; cbn [structure_ok normal].
  - apply passed, decided_map_err, level_commission_validate_spec.
  - eapply yields_iff; [eapply yields_bind; [apply yields_map_err, binary_validate_spec|]|].
    + destruct c as [n [mult [pairing|cycle]]]; apply yields_ok.
    + naive_solver.
  - apply passed, decided_map_err, decides_seq; [apply matrix_params_validate_spec|apply level_commission_validate_spec].
  - apply yields_seq; [apply level_commission_validate_spec|]. apply passed, decides_option. intros b. apply breakaway_validate_spec.
  - apply yields_seq; [apply generation_validate_spec|]. apply yields_seq; [apply decides_option; intros l; apply level_commission_validate_spec|].
    apply passed, decided_map_err, decides_refuse. rewrite andb_false_iff, bool_decide_eq_false.
    destruct (Generation.level_commissions_enabled c), (Generation.level_commission c); naive_solver.
  - apply passed, decided_map_err, streamline_validate_spec.
  - apply passed, decided_map_err, check_non_negative_spec.
Qed.
End spec.

(** ** Money *)
Section money.
Context {D : Type} `{!DecimalOps D, !DecimalLaws D}.

(** Every amount of money of a structure, of the bonuses and of the plan. *)
Definition structure_amounts (s : StructureConfig (D := D)) : list (AuthoredDec D) :=
  match s with
  | Plan.Binary c =>
      match bc_mode (binary_commission c) with
      | Pairing p => option_list (cap_per_period p)
      | CycleStepMode cs => option_list (cs_cap_per_period cs) ++ (amount <$> cs_steps cs)
      end
  | Plan.BoardPlan c => [cycle_commission (board_cycling c)]
  | Plan.Stairstep c =>
      match Stairstep.overrides <$> Stairstep.breakaway c with
      | Some (Stairstep.SingleWalk (Stairstep.Differential diff) _) =>
          match Stairstep.min_override diff with Stairstep.MinCurrency v => [v] | Stairstep.MinRate _ => [] end
      | _ => []
      end
  | _ => []
  end.

Definition if_fixed (t : AmountType) (v : AuthoredDec D) : list (AuthoredDec D) := match t with Fixed => [v] | Percentage => [] end.

Definition bonus_amounts (b : BonusConfig (D := D)) : list (AuthoredDec D) :=
  from_option (λ mc, full_matrix_amount mc :: (map_to_list (per_level_amounts mc)).*2) [] (matrix_completion b) ++
  from_option (λ ra, (map_to_list (amounts ra)).*2) [] (rank_advancement b) ++
  from_option (λ l, lt_amount <$> lifestyle_tiers l) [] (lifestyle b) ++
  from_option (λ s, if_fixed (sb_amount_type s) (sb_amount s)) [] (sponsor_bonus b) ++
  from_option (λ s, if_fixed (pb_amount_type s) (pb_amount s)) [] (position_bonus b) ++
  concat ((λ x, option_list (equal_share_cap (shares x))) <$> default [] (pool b)).

Definition plan_amounts (p : CompensationPlan (D := D)) : list (AuthoredDec D) :=
  concat (structure_amounts <$> structures p) ++ bonus_amounts (bonuses p) ++ [minimum_payout (payout p)] ++
  option_list (per_distributor_cap (caps p)).

Context (check : string → AuthoredDec D → outcome string unit) (W : AuthoredDec D → Prop) (Hcheck : ∀ f v, decides (check f v) (W v)).

Lemma decides_both m k l l' : decides m (Forall W l) → decides k (Forall W l') → decides (m;; k) (Forall W (l ++ l')).
Proof. intros Hm Hk. eapply decided_iff; [by apply decides_seq|]. by rewrite Forall_app. Qed.

Lemma decides_none : decides (Ok ()) (Forall W []).
Proof. eapply decided_iff; [apply decides_skip|]. by split. Qed.

Lemma decides_one f v : decides (check f v) (Forall W [v]).
Proof using Hcheck. eapply decided_iff; [apply Hcheck|]. by rewrite Forall_singleton. Qed.

Lemma check_option_spec f o : decides (check_option check f o) (Forall W (option_list o)).
Proof using Hcheck. destruct o; [apply decides_one|apply decides_none]. Qed.

Lemma decides_numbered_amounts {A} (g : nat * A → string) (a : A → AuthoredDec D) l :
  decides (for_each (λ e : nat * A, check (g e) (a e.2)) (enumerate l)) (Forall W (a <$> l)).
Proof using Hcheck. eapply decided_iff; [apply (decides_numbered _ (λ x, W (a x))); intros i x; apply Hcheck|]. by rewrite Forall_fmap. Qed.

Lemma decides_map_amounts {K} `{Countable K} (m : gmap K (AuthoredDec D)) (l : list (K * AuthoredDec D)) (g : K * AuthoredDec D → string) :
  l ≡ₚ map_to_list m → decides (for_each (λ e, check (g e) e.2) l) (Forall W (map_to_list m).*2).
Proof using Hcheck.
  intros Hl. eapply decided_iff; [apply (decides_for_each _ (λ e : K * AuthoredDec D, W e.2)); intros e _; apply Hcheck|].
  by rewrite Hl, Forall_fmap.
Qed.

Lemma structure_money_spec s : decides (structure_money check s) (Forall W (structure_amounts s)).
Proof using Hcheck.
  unfold structure_money. destruct s as [c|c|c|c|c|c|c]; cbn [structure_amounts]; try apply decides_none.
  - destruct (bc_mode (binary_commission c)) as [p|cs]; [apply check_option_spec|]. apply decides_both; [apply check_option_spec|].
    apply decides_numbered_amounts.
  - destruct (Stairstep.overrides <$> Stairstep.breakaway c) as [[[diff|fixed] g|multi]|]; try apply decides_none.
    destruct (Stairstep.min_override diff); [apply decides_none|apply decides_one].
  - apply decides_one.
Qed.

Lemma decides_set {A} (f : A → outcome string unit) (g : A → list (AuthoredDec D)) o : (∀ x, decides (f x) (Forall W (g x))) →
  decides (match o with Some x => f x | None => Ok () end) (Forall W (from_option g [] o)).
Proof. intros Hf. destruct o; [apply Hf|apply decides_none]. Qed.

Lemma bonus_money_spec b : decides (bonus_money check b) (Forall W (bonus_amounts b)).
Proof using Hcheck.
  unfold bonus_money, bonus_amounts. repeat apply decides_both.
  - apply decides_set. intros mc. apply (decides_both _ _ [_]); [apply decides_one|]. apply decides_map_amounts. apply sort_by_perm.
  - apply decides_set. intros ra. apply decides_map_amounts. apply sort_by_perm.
  - apply decides_set. intros l. apply decides_numbered_amounts.
  - apply decides_set. intros s. destruct (sb_amount_type s); [apply decides_one|apply decides_none].
  - apply decides_set. intros s. destruct (pb_amount_type s); [apply decides_one|apply decides_none].
  - eapply decided_iff; [apply (decides_numbered _ (λ x, Forall W (option_list (equal_share_cap (shares x))))); intros i x; apply check_option_spec|].
    by rewrite Forall_concat, Forall_fmap.
Qed.
End money.

(** ** The rank ladder *)
Section ladder.
Context {D : Type} `{!DecimalOps D, !DecimalLaws D}.
Implicit Types (r : Rank.RankDefinition D) (sq : Rank.StructureQualification D) (p : CompensationPlan (D := D)).

Definition ordinals_of p : list N := Rank.ordinal <$> ranks p.

(** Ordinals that rise from 1 on. *)
Definition ascending (l : list N) : Prop := StronglySorted N.lt (0%N :: l).

(** The loop's state after the ranks [pre]. *)
Definition ascended (pre : list (Rank.RankDefinition D)) (st : gmap N string * option N) : Prop :=
  StronglySorted N.lt (Rank.ordinal <$> pre) ∧ st.2 = last (Rank.ordinal <$> pre) ∧
  ∀ o, is_Some (st.1 !! o) ↔ o ∈ Rank.ordinal <$> pre.

Lemma sorted_snoc (l : list N) x : StronglySorted N.lt (l ++ [x]) ↔ StronglySorted N.lt l ∧ ∀ y, last l = Some y → (y < x)%N.
Proof.
  split.
  - intros H. split; [by eapply StronglySorted_app_1_l|]. intros y Hy. eapply StronglySorted_app_1_elem_of; [exact H| |left].
    rewrite last_lookup in Hy. by eapply list_elem_of_lookup_2.
  - intros [Hl Hx]. apply StronglySorted_app_2; [|done|by repeat constructor]. intros y z Hy ->%list_elem_of_singleton.
    destruct (last l) as [m|] eqn:Hm; [|apply last_None in Hm as ->; by apply elem_of_nil in Hy].
    apply last_Some in Hm as [k ->]. specialize (Hx m eq_refl). apply elem_of_app in Hy as [Hy|Hy%list_elem_of_singleton]; [|by subst].
    assert (y < m)%N; [|lia]. eapply StronglySorted_app_1_elem_of; [exact Hl|done|left].
Qed.

Lemma ascended_snoc pre r seen previous : ascended pre (seen, previous) → (∀ y, previous = Some y → (y < Rank.ordinal r)%N) →
  ascended (pre ++ [r]) (<[Rank.ordinal r := Rank.name r]> seen, Some (Rank.ordinal r)).
Proof.
  intros (Hs & Hprev & Hseen) Hlt. unfold ascended. cbn [fst snd] in *. subst previous.
  assert (Heq : Rank.ordinal <$> pre ++ [r] = (Rank.ordinal <$> pre) ++ [Rank.ordinal r]) by (by rewrite fmap_app). rewrite Heq. split_and!.
  - by apply sorted_snoc.
  - by rewrite last_snoc.
  - intros o. rewrite lookup_insert_is_Some, elem_of_app, list_elem_of_singleton, Hseen. destruct (decide (Rank.ordinal r = o)); naive_solver.
Qed.

Lemma ascend_spec pre r st : ascended pre st →
  returns (ascended (pre ++ [r])) (λ _, ¬ StronglySorted N.lt ((Rank.ordinal <$> pre) ++ [Rank.ordinal r])) (ascend st r).
Proof.
  destruct st as [seen previous]. intros Hp. pose proof Hp as (Hs & Hprev & Hseen). cbn [fst snd] in *. unfold ascend.
  destruct (seen !! Rank.ordinal r) as [other|] eqn:Hdup; cbn [mbind outcome_bind returns].
  { intros Hbad. assert (Hin : Rank.ordinal r ∈ Rank.ordinal <$> pre) by (apply Hseen; eauto).
    apply (N.lt_irrefl (Rank.ordinal r)). eapply (StronglySorted_app_1_elem_of N.lt); [exact Hbad|done|left]. }
  destruct previous as [before|]; cbn [mbind outcome_bind]; [|by apply (ascended_snoc pre r seen None)].
  unfold refuse_if. destruct (N.leb_spec (Rank.ordinal r) before) as [Hle|Hlt]; cbn [mbind outcome_bind returns].
  - intros [_ Hx]%sorted_snoc. specialize (Hx before (eq_sym Hprev)). lia.
  - apply (ascended_snoc pre r seen (Some before)); [done|]. by intros y [= <-].
Qed.

Lemma check_ascending_spec p : decides (check_rank_ordinals_ascending p) (StronglySorted N.lt (ordinals_of p)).
Proof.
  unfold check_rank_ordinals_ascending, ordinals_of, decides.
  assert (Hf : returns (ascended (ranks p)) (λ _, ¬ StronglySorted N.lt (Rank.ordinal <$> ranks p)) (fold_outcome ascend (∅, None) (ranks p))).
  { apply returns_fold.
    - split_and!; [constructor|done|]. intros o. split; [by intros [? ?]|by intros ?%elem_of_nil].
    - intros pre r post st Heq Hst. eapply returns_weaken; [by apply ascend_spec|done|]. intros e Hbad Hall. apply Hbad.
      rewrite Heq in Hall. rewrite (cons_middle r), app_assoc, !fmap_app in Hall. by eapply StronglySorted_app_1_l. }
  destruct (fold_outcome ascend (∅, None) (ranks p)) as [st| | |]; cbn in *; [apply Hf|done..].
Qed.

(** Names seen once. *)
Lemma once_spec (message : string → string) (l : list string) :
  decides (fold_outcome (once message) ∅ l;; Ok ()) (NoDup l).
Proof.
  assert (Hf : returns (λ s : gset string, NoDup l ∧ ∀ x, x ∈ s ↔ x ∈ l) (λ _, ¬ NoDup l) (fold_outcome (once message) ∅ l)).
  { apply (returns_fold _ (λ pre s, NoDup pre ∧ ∀ x, x ∈ s ↔ x ∈ pre)).
    - split; [constructor|set_solver].
    - intros pre x post s -> [Hnd Hs]. unfold once, refuse_if. destruct (bool_decide_reflect (x ∈ s)) as [Hin|Hout]; cbn [mbind outcome_bind returns].
      + intros (_ & Hd & _)%NoDup_app. apply (Hd x); [by apply Hs|left].
      + split; [|set_solver]. apply NoDup_app. split_and!; [done| |apply NoDup_singleton]. set_solver. }
  unfold decides. destruct (fold_outcome (once message) ∅ l); cbn in *; [apply Hf|done..].
Qed.

Lemma check_floor_spec p : decides (check_rank_name_and_ordinal_floor p)
  (Forall (λ r, Rank.name r ≠ EmptyString ∧ Rank.ordinal r ≠ 0%N) (ranks p)).
Proof.
  apply decides_numbered. intros i r. apply decides_seq; apply decides_refuse; [apply bool_decide_eq_false|]. cbn. by rewrite N.eqb_neq.
Qed.

Lemma ascending_floor p : StronglySorted N.lt (ordinals_of p) ∧ Forall (λ r, Rank.ordinal r ≠ 0%N) (ranks p) ↔ ascending (ordinals_of p).
Proof.
  unfold ascending, ordinals_of. split.
  - intros [Hs Hf]. constructor; [done|]. rewrite Forall_fmap. eapply Forall_impl; [exact Hf|]. cbn. lia.
  - intros H. apply StronglySorted_inv in H as [Hs Hf]. split; [done|]. rewrite Forall_fmap in Hf. eapply Forall_impl; [exact Hf|]. cbn. lia.
Qed.

(** On an ascending ladder the lowest rank is the first. *)
Lemma base_rank_head (l : list (Rank.RankDefinition D)) : StronglySorted N.lt (Rank.ordinal <$> l) → base_rank l = head l.
Proof.
  destruct l as [|r l]; [done|]. cbn. intros H. apply StronglySorted_inv in H as [_ Hr]. unfold base_rank. cbn.
  induction l as [|x l IH]; [done|]. cbn in *. apply Forall_cons in Hr as [Hx Hl]. rewrite (proj2 (N.ltb_ge _ _)) by lia. by apply IH.
Qed.

Record requires_nothing r : Prop := {
  rn_products : Rank.required_products (Rank.qualification r) = [];
  rn_window : Rank.window (Rank.qualification r) = None;
  rn_tenure : Rank.tenure (Rank.qualification r) = None;
  rn_structures : Forall (λ sq, units (dec (Rank.sq_personal_volume sq)) = 0 ∧ units (dec (Rank.group_volume sq)) = 0 ∧
    units (dec (Rank.min_retail_volume sq)) = 0 ∧ Rank.distributor_count sq = None ∧ Rank.leg_quality sq = [])
    (Rank.structures (Rank.qualification r));
}.

Lemma refuse_zero r v what : decides (refuse_base r (negb (is_zero (dec v))) what) (units (dec v) = 0).
Proof using DecimalLaws0. apply decides_refuse. by rewrite negb_false_iff, is_zero_units. Qed.

Lemma refuse_set {A} (o : option A) r what : decides (refuse_base r (bool_decide (is_Some o)) what) (o = None).
Proof. apply decides_refuse. rewrite bool_decide_eq_false, <- eq_None_not_Some. done. Qed.

Lemma base_structure_spec r sq : decides (base_structure r sq) (units (dec (Rank.sq_personal_volume sq)) = 0 ∧ units (dec (Rank.group_volume sq)) = 0 ∧
    units (dec (Rank.min_retail_volume sq)) = 0 ∧ Rank.distributor_count sq = None ∧ Rank.leg_quality sq = []).
Proof using DecimalLaws0.
  eapply decided_iff.
  - apply decides_seq; [apply (decides_for_each _ (λ e : string * AuthoredDec D, units (dec e.2) = 0)); intros e _; apply refuse_zero|].
    apply decides_seq; [apply refuse_set|]. apply decides_refuse, bool_decide_eq_false.
  - rewrite !Forall_cons, Forall_nil. cbn. split.
    + intros ((H1 & H2 & H3 & _) & H4 & H5). split_and!; try done. apply nil_length_inv. by apply dec_stable.
    + intros (H1 & H2 & H3 & H4 & ->). naive_solver.
Qed.

Lemma check_base_spec p : StronglySorted N.lt (ordinals_of p) →
  decides (check_base_rank_requires_nothing p) (∀ r, head (ranks p) = Some r → requires_nothing r).
Proof using DecimalLaws0.
  intros Hs. unfold check_base_rank_requires_nothing. rewrite base_rank_head by done.
  eapply (decides_option (λ base, _) requires_nothing). intros r. eapply decided_iff.
  - apply decides_seq; [apply decides_refuse, bool_decide_eq_false|]. apply decides_seq; [apply refuse_set|]. apply decides_seq; [apply refuse_set|].
    apply decides_for_each. intros sq _. apply base_structure_spec.
  - split; [intros (H1 & H2 & H3 & H4); split; try done; by apply dec_stable|]. intros [H1 H2 H3 H4]. naive_solver.
Qed.

Record thresholds_ok sq : Prop := {
  to_personal : non_negative (Rank.sq_personal_volume sq);
  to_group : non_negative (Rank.group_volume sq);
  to_retail : non_negative (Rank.min_retail_volume sq);
  to_count dc : Rank.distributor_count sq = Some dc → non_negative (Rank.min_leg_group_volume dc);
  to_legs : Forall (λ lq, match Rank.predicate lq with Rank.ContainsPersonalVolume v => non_negative v | Rank.ContainsRank _ => True end) (Rank.leg_quality sq);
}.

Lemma check_thresholds_spec r sq : decides (check_thresholds r sq) (thresholds_ok sq).
Proof using DecimalLaws0.
  eapply decided_iff.
  - repeat (apply decides_seq; [apply check_non_negative_spec|]). apply decides_seq.
    + apply (decides_option (λ dc, check_non_negative _ (Rank.min_leg_group_volume dc)) (λ dc, non_negative (Rank.min_leg_group_volume dc))).
      intros dc. apply check_non_negative_spec.
    + apply decides_numbered. intros i lq. cbn [snd]. instantiate (1 := λ lq, match Rank.predicate lq with Rank.ContainsPersonalVolume v => non_negative v | Rank.ContainsRank _ => True end).
      cbn. destruct (Rank.predicate lq); [apply decides_skip|apply check_non_negative_spec].
  - split; [intros (H1 & H2 & H3 & H4 & H5); by split|intros []; naive_solver].
Qed.

Definition leg_caps_ok sq : Prop :=
  non_negative (Rank.max_group_volume_per_leg sq) ∧ fraction (Rank.max_group_volume_per_leg_fraction sq) ∧
  ¬ (positive (Rank.max_group_volume_per_leg sq) ∧ positive (Rank.max_group_volume_per_leg_fraction sq)).

Lemma check_leg_caps_spec r sq : decides (check_leg_caps r sq) (leg_caps_ok sq).
Proof using DecimalLaws0.
  apply decides_seq; [apply check_non_negative_spec|]. apply decides_seq; [apply check_fraction_spec|]. apply decides_refuse.
  rewrite !dec_ltb_units, zero_units, andb_false_iff, !Z.ltb_ge. unfold positive. lia.
Qed.

(** A check of every requirement of every rank. *)
Lemma requirements_spec (f : Rank.RankDefinition D → Rank.StructureQualification D → outcome string unit) (P : Rank.StructureQualification D → Prop) p :
  (∀ r sq, decides (f r sq) (P sq)) →
  decides (for_each (λ r, for_each (f r) (Rank.structures (Rank.qualification r))) (ranks p))
    (Forall (λ r, Forall P (Rank.structures (Rank.qualification r))) (ranks p)).
Proof. intros Hf. apply decides_for_each. intros r _. apply decides_for_each. intros sq _. apply Hf. Qed.
End ladder.
