(* ===== verification/PlanTheorems.v ===== *)
(** * Plans the engine keeps

    [plan_validate] decides [plan_ok] and normalises; and on a plan it accepts the
    calculators never blame the configuration. *)

From stdpp Require Import base numbers list gmap sorting strings.
From Stdlib Require Import ZArith Lia.
From S2P Require Import Prelude RustDecimal Dec Allocate Ratio TreeTypes Arena ArenaWf Unilevel Binary Navigator CommissionTypes Walk WalkPrepare Currency WalkOrder Calculators Matrix MatrixSpec MatrixCalculator Board BinaryCommission BinaryLegs BinaryCalc BinaryCycle BinaryTheorems Rank Collector Generation GenerationTheorems Stairstep StairstepTheorems Streamline StreamlineTheorems StreamlineCommission StreamlinePay StreamlineCalc CommissionExamples StreamlineExamples PlanConfig PlanValidate PlanSpec.
Import Plan Validate.
#[local] Open Scope Z_scope.

Section plan.
Context {D : Type} `{!DecimalOps D, !DecimalLaws D}.
Implicit Types p : CompensationPlan (D := D).

(** A plan whose every number, name and table is as the calculators assume. *)
Record plan_ok p : Prop := {
  pk_multiplier : positive (volume_to_dollar_multiplier (volume p));
  pk_company_cap : fraction (company_payout_cap_percent (caps p));
  pk_person_cap : if_set non_negative (per_distributor_cap (caps p));
  pk_currency : currency (payout p) = base_currency (volume p);
  pk_money : ∃ places, minor_units (base_currency (volume p)) = Some places ∧ Forall (whole places) (plan_amounts p);
  pk_ranks : ranks p ≠ [];
  pk_rank_names : NoDup (Rank.name <$> ranks p) ∧ EmptyString ∉ Rank.name <$> ranks p;
  pk_ordinals : ascending (ordinals_of p);
  pk_thresholds : Forall (λ r, Forall thresholds_ok (Rank.structures (Rank.qualification r))) (ranks p);
  pk_base r : head (ranks p) = Some r → requires_nothing r;
  pk_leg_caps : Forall (λ r, Forall leg_caps_ok (Rank.structures (Rank.qualification r))) (ranks p);
  pk_structure_names : NoDup (structure_name <$> structures p);
  pk_structures : Forall structure_ok (structures p);
}.

Lemma check_currency_spec p : decides (check_currency p)
  (is_Some (minor_units (base_currency (volume p))) ∧ currency (payout p) = base_currency (volume p)).
Proof.
  apply decides_seq; apply decides_refuse; rewrite bool_decide_eq_false; [by rewrite not_eq_None_Some|].
  split; [apply dec_stable|]. naive_solver.
Qed.

Lemma check_whole_minor_units_spec p : decides (check_whole_minor_units p)
  (∀ places, minor_units (base_currency (volume p)) = Some places → Forall (whole places) (plan_amounts p)).
Proof using DecimalLaws0.
  unfold check_whole_minor_units. destruct (minor_units (base_currency (volume p))) as [places|] eqn:Hm.
  2: { eapply decided_iff; [apply decides_skip|]. naive_solver. }
  assert (Hc : ∀ f v, decides (check_whole (base_currency (volume p)) places f v) (whole (D := D) places v)).
  { intros f v. apply check_whole_spec. by eapply minor_units_bound. }
  eapply (decided_iff _ (Forall (whole places) (plan_amounts p))); [|naive_solver].
  unfold plan_amounts. apply decides_both.
  - eapply decided_iff; [apply (decides_for_each _ (λ s, Forall (whole places) (structure_amounts s))); intros s _; by apply structure_money_spec|].
    by rewrite Forall_concat, Forall_fmap.
  - apply decides_both; [by apply bonus_money_spec|]. apply decides_both; [by apply decides_one|by apply check_option_spec].
Qed.

Lemma yields_then {A} m (k : outcome string A) P Q r : decides m P → (P → yields k Q r) → yields (m;; k) (P ∧ Q) r.
Proof. unfold decides, yields. intros Hm Hk. destruct m; cbn in *; [|naive_solver..]. specialize (Hk Hm). destruct k; cbn in *; naive_solver. Qed.

Lemma plan_validate_spec p : yields (plan_validate p) (plan_ok p) (with_structures (fmap normal) p).
Proof using DecimalLaws0.
  eapply yields_iff.
  { apply yields_then; [apply decided_map_err, check_positive_spec|]. intros _.
    apply yields_then; [apply decided_map_err, decides_seq; [apply check_fraction_spec|apply check_optional_non_negative_spec]|]. intros _.
    apply yields_then; [apply check_currency_spec|]. intros _. apply yields_then; [apply check_whole_minor_units_spec|]. intros _.
    apply yields_then; [apply decides_refuse, bool_decide_eq_false|]. intros _. apply yields_then; [apply check_floor_spec|]. intros _.
    apply yields_then; [apply check_ascending_spec|]. intros Hs. apply yields_then; [apply once_spec|]. intros _.
    apply yields_then; [apply requirements_spec; intros r sq; apply check_thresholds_spec|]. intros _.
    apply yields_then; [by apply check_base_spec|]. intros _.
    apply yields_then; [apply requirements_spec; intros r sq; apply check_leg_caps_spec|]. intros _. apply yields_then; [apply once_spec|]. intros _.
    eapply yields_bind; [apply (yields_map _ structure_ok normal); intros s _; apply structure_validate_spec|]. apply yields_ok. }
  rewrite Forall_and.
  assert (Hn : Forall (λ r : Rank.RankDefinition D, Rank.name r ≠ EmptyString) (ranks p) ↔ EmptyString ∉ Rank.name <$> ranks p).
  { rewrite Forall_forall, list_elem_of_fmap. split; [intros H (r & Hr & Hin); by apply (H r)|]. intros H r Hr He. apply H. by exists r. }
  pose proof (ascending_floor p) as Ha. split.
  - intros (H1 & [H2 H3] & [[places H4] H5] & H6 & H7 & [H8 H9] & H10 & H11 & H12 & H13 & H14 & H15 & H16 & _).
    split; try done; [by exists places; auto|by intros Hnil; apply H7; rewrite Hnil|by split; [|apply Hn]|by apply Ha].
  - intros [H1 H2 H3 H4 (places & H5 & H6) H7 [H8 H9] H10 H11 H12 H13 H14 H15]. apply Ha in H10 as [H10 H10'].
    split_and!; try done; [intros q Hq; by assert (q = places) as -> by congruence|by intros ?%nil_length_inv|by apply Hn].
Qed.

(** ** Validation settles a plan *)
Lemma in_order_again (c : CycleStepConfig D) : cycle_ok c → in_order (in_order c) = in_order c.
Proof using DecimalLaws0.
  intros Hc. unfold in_order. cbn [cs_steps volume_after_cycle cs_cap_per_period cs_carry_forward_cap cs_multi_position_cap_mode]. f_equal.
  pose proof step_comparator as Hcmp. unfold sort_steps. symmetry. apply sort_unique; [exact Hcmp| |symmetry; apply sort_by_perm].
  intros x y [i Hi]%list_elem_of_lookup [j Hj]%list_elem_of_lookup. rewrite compare_units. intros Heq%Z.compare_eq.
  pose proof (co_distinct c Hc) as Hnd. assert (i = j) as ->; [|congruence].
  eapply (NoDup_lookup _ i j (units (dec (threshold x))) Hnd); rewrite list_lookup_fmap; [by rewrite Hi|by rewrite Hj, Heq].
Qed.

Lemma cycle_ok_in_order (c : CycleStepConfig D) : cycle_ok c → cycle_ok (in_order c).
Proof.
  assert (Hp : cs_steps (in_order c) ≡ₚ cs_steps c) by apply sort_by_perm.
  intros [H1 H2 H3 H4 H5 H6]. split; try done.
  - intros Hn. apply H1. rewrite Hn in Hp. by apply Permutation_nil_l in Hp.
  - by rewrite Hp.
  - by rewrite Hp.
Qed.

Lemma normal_ok (s : StructureConfig (D := D)) : structure_ok s → structure_ok (normal s) ∧ normal (normal s) = normal s.
Proof using DecimalLaws0.
  destruct s as [c|[n [mult [pairing|cycle]]]|c|c|c|c|c]; try done. cbn. intros [H1 H2]. split.
  - split; [done|]. by apply cycle_ok_in_order.
  - by rewrite in_order_again.
Qed.

Lemma normal_name (s : StructureConfig (D := D)) : structure_name (normal s) = structure_name s.
Proof. by destruct s as [c|[n [mult [pairing|cycle]]]|c|c|c|c|c]. Qed.

Lemma normal_amounts (s : StructureConfig (D := D)) : structure_amounts (normal s) ≡ₚ structure_amounts s.
Proof.
  destruct s as [c|[n [mult [pairing|cycle]]]|c|c|c|c|c]; try done. cbn. apply Permutation_app_head. unfold sort_steps. by rewrite sort_by_perm.
Qed.

Lemma concat_perm {A B} (f g : A → list B) (l : list A) : (∀ x, x ∈ l → f x ≡ₚ g x) → concat (f <$> l) ≡ₚ concat (g <$> l).
Proof.
  induction l as [|x l IH]; intros Hf; [done|]. cbn. rewrite (Hf x) by left. rewrite IH; [done|]. intros y Hy. apply Hf. by right.
Qed.

Lemma settled_ok p : plan_ok p → plan_ok (with_structures (fmap normal) p) ∧
  with_structures (fmap normal) (with_structures (fmap normal) p) = with_structures (fmap normal) p.
Proof using DecimalLaws0.
  intros [H1 H2 H3 H4 (places & H5 & H6) H7 H8 H9 H10 H11 H12 H13 H14]. split.
  - split; cbn [with_structures structures volume caps payout ranks]; try done.
    + exists places. split; [done|]. unfold plan_amounts in *. cbn [with_structures structures bonuses payout caps].
      rewrite <- list_fmap_compose, (concat_perm _ structure_amounts); [done|]. intros s _. apply normal_amounts.
    + rewrite <- list_fmap_compose. erewrite list_fmap_ext; [exact H13|]. intros i s _. apply normal_name.
    + rewrite Forall_fmap. eapply Forall_impl; [exact H14|]. intros s Hs. by apply normal_ok.
  - unfold with_structures. cbn. f_equal. rewrite <- list_fmap_compose. apply list_fmap_ext. intros i s Hs%list_elem_of_lookup_2.
    rewrite Forall_forall in H14. cbn. by apply normal_ok, H14.
Qed.
End plan.

(** ** The calculators on a plan that was accepted *)

(** An error that blames the plan. *)
Definition blames_plan {D} (e : CalculationError D) : Prop :=
  match e with
  | UnknownCurrency _ | ConfigError _ | PairingPercentOutOfRange _ | NegativeCap _ | CapNotWholeMinorUnits _ _ => True
  | _ => False
  end.

(** A calculation that answers, and never with such an error. *)
Definition trusted {D A} (m : outcome (CalculationError D) A) : Prop := returns (λ _, True) (λ e, ¬ blames_plan e) m.

Section trust.
Context {D : Type} `{!DecimalOps D, !DecimalLaws D, !DivisionLaws D}.
Context (p : CompensationPlan (D := D)) (Hp : plan_ok p).
Abbreviation plan := (engine_plan p).

Lemma known_currency : is_Some (minor_units (CommissionTypes.base_currency (volume_config plan))).
Proof using Hp. destruct (pk_money p Hp) as (places & Hm & _). by exists places. Qed.

Lemma known_structure s : s ∈ structures p → structure_ok s.
Proof using Hp. pose proof (pk_structures p Hp) as H. rewrite Forall_forall in H. apply H. Qed.

Lemma trusted_weaken {A} (P : A → Prop) (Q : CalculationError D → Prop) m :
  returns P Q m → (∀ e, Q e → ¬ blames_plan e) → trusted m.
Proof. intros H HQ. eapply returns_weaken; [exact H|done|exact HQ]. Qed.

Lemma fault_trusted {T} `{!TreeNavigator T} (tree : T) snapshots volume e : calculation_fault tree plan snapshots volume e → ¬ blames_plan e.
Proof using Hp. intros Hf Hb. destruct known_currency as [places Hm]. destruct e; try done. destruct Hf as [-> Hn]. congruence. Qed.

(** Multipliers are positive, the plan's or the structure's. *)
Lemma positive_default o : if_set positive o → 0 < units (dec (default (vc_volume_to_dollar_multiplier (volume_config plan)) o)).
Proof using Hp. intros Ho. destruct o as [v|]; cbn; [by apply Ho|apply (pk_multiplier p Hp)]. Qed.

(** The money of a structure is whole. *)
Lemma whole_amount s v places : s ∈ structures p → v ∈ structure_amounts s → minor_units (base_currency (volume p)) = Some places → whole places v.
Proof using Hp.
  intros Hs Hv Hm. destruct (pk_money p Hp) as (q & Hq & Hall). assert (q = places) as -> by congruence. rewrite Forall_forall in Hall.
  apply Hall. unfold plan_amounts. apply elem_of_app. left. apply elem_of_concat. exists (structure_amounts s). split; [by apply list_elem_of_fmap_2|done].
Qed.

Lemma binary_cap_ok c v : Plan.Binary c ∈ structures p → binary_cap c = Some v → non_negative v ∧ ∀ places,
  minor_units (base_currency (volume p)) = Some places → whole places v.
Proof using Hp.
  intros Hs Hv. pose proof (known_structure _ Hs) as [_ Hok]. unfold binary_cap in Hv. split.
  - destruct (bc_mode (binary_commission c)) as [pairing|cycle]; [destruct Hok as (_ & H & _); by apply H|by apply (co_cap _ Hok)].
  - intros places. apply (whole_amount (Plan.Binary c)); [done|]. cbn. destruct (bc_mode (binary_commission c)); rewrite Hv; cbn; [left|left].
Qed.

Lemma cycle_accepted (c : CycleStepConfig D) why : cycle_ok c → BinaryCommission.validate c ≠ Err why.
Proof using DecimalLaws0. intros Hc Hv. pose proof (cycle_validate_spec c) as H. rewrite Hv in H. by apply H. Qed.

Lemma binary_fault_trusted c tree snapshots volume prior ownership pay e : Plan.Binary c ∈ structures p →
  binary_fault tree plan c snapshots volume prior ownership pay e → ¬ blames_plan e.
Proof using Hp DecimalLaws0.
  intros Hs. pose proof (known_structure _ Hs) as [_ Hok]. destruct known_currency as [places Hm]. cbn in Hm.
  intros Hf Hb. destruct e; try done; cbn in Hf.
  - destruct Hf as (cycle & Hmode & Hv). rewrite Hmode in Hok. by eapply cycle_accepted.
  - destruct Hf as (pairing & Hmode & -> & Hout). rewrite Hmode in Hok. destruct Hok as ([H1 H2] & _). lia.
  - destruct Hf as [Hc Hneg]. destruct (binary_cap_ok c _ Hs Hc) as [H _]. unfold non_negative in H. lia.
  - destruct Hf as (Hc & -> & q & Hq & Hn). destruct (binary_cap_ok c _ Hs Hc) as [_ H]. by apply Hn, H.
  - destruct Hf as [-> Hn]. congruence.
Qed.

Lemma trusted_binary c tree snapshots volume prior ownership : Plan.Binary c ∈ structures p → Binary.Binary.binary_wf tree →
  Z.of_nat (length (user_ids tree)) < 2 ^ 64 → trusted (calculate_binary_pairing tree plan c snapshots volume prior ownership).
Proof using Hp DecimalLaws0 DivisionLaws0.
  intros Hs Hwf Hlen. assert (Hin : sound_inputs tree plan c).
  { split; [done| |done]. unfold binary_multiplier. apply Z.lt_le_incl, positive_default. apply (known_structure _ Hs). }
  destruct (bc_mode (binary_commission c)) as [pairing|cycle] eqn:Hmode.
  - eapply trusted_weaken; [by apply (pairing_spec tree plan c snapshots volume prior ownership pairing)|].
    intros e He. by eapply binary_fault_trusted.
  - eapply trusted_weaken; [by apply (cycle_spec tree plan c snapshots volume prior ownership cycle)|].
    intros e He. by eapply binary_fault_trusted.
Qed.

Lemma trusted_unilevel c tree snapshots sources identity : arena_wf (Unilevel.Unilevel.arena tree) →
  (lc_max_depth (us_level_commission c) ≤ 255)%N → (N.of_nat (length sources) ≤ 2 ^ 32)%N →
  trusted (calculate_unilevel tree plan c snapshots sources identity).
Proof using Hp DecimalLaws0.
  intros Hwf Hd Hv. destruct (calculate_unilevel_steps tree Hwf plan c snapshots sources identity) as (cache & pu & _ & ->).
  unfold plan_minor_units. destruct known_currency as [places ->]. cbn [ok_or mbind outcome_bind].
  pose proof (level_tail_errors _ tree Hwf plan (unilevel_config plan c pu) cache snapshots sources identity places Hd Hv) as H.
  destruct (level_tail _ _ _ _ _ _ _ _) as [r|e| |]; [done| |done..]. intros Hb.
  destruct e; try done; by destruct H as (? & ? & ? & _ & _ & []).
Qed.

Lemma trusted_matrix c tree snapshots sources identity : matrix_wf tree →
  (lc_max_depth (ms_level_commission c) ≤ 255)%N → (N.of_nat (length sources) ≤ 2 ^ 32)%N →
  trusted (calculate_matrix tree plan c snapshots sources identity).
Proof using Hp DecimalLaws0.
  intros Hwf Hd Hv. pose proof (calculate_matrix_errors tree plan c snapshots sources identity Hwf Hd Hv) as H.
  destruct known_currency as [places Hm]. destruct (calculate_matrix _ _ _ _ _ _) as [r|e| |]; [done| |done..].
  intros Hb. destruct e; try done; try (by destruct H as (_ & ? & _ & ? & ? & ? & _ & _ & H)). destruct H as [-> Hn]. congruence.
Qed.

Lemma trusted_stairstep c tree snapshots sources identity : Plan.Stairstep c ∈ structures p → arena_wf (Unilevel.Unilevel.arena tree) →
  (lc_max_depth (Stairstep.ss_level_commission c) ≤ 255)%N → (N.of_nat (length sources) ≤ 2 ^ 32)%N →
  (N.of_nat (size snapshots) ≤ u32_max)%N →
  (∀ m g, Stairstep.overrides <$> Stairstep.breakaway c = Some (Stairstep.SingleWalk m (Some g)) → (Stairstep.bg_max_generations g ≤ 255)%N) →
  trusted (Stairstep.calculate_stairstep tree plan c snapshots sources identity).
Proof using Hp DecimalLaws0.
  intros Hs Hwf Hd Hv Hz Hg. pose proof (known_structure _ Hs) as [_ Hb].
  eapply trusted_weaken; [apply (stairstep_run tree Hwf plan c snapshots sources identity)|intros e; apply fault_trusted].
  split_and!; [done..|]. destruct (Stairstep.breakaway c) as [b|] eqn:Hbr; [|done]. specialize (Hb b eq_refl). cbn in *. unfold breakaway_ok in Hb.
  destruct (Stairstep.overrides b) as [m [g|]|multi]; [by eapply Hg|done|apply Hb].
Qed.

Lemma trusted_generation c tree snapshots sources identity : Plan.Generation c ∈ structures p → arena_wf (Unilevel.Unilevel.arena tree) →
  generation_widths plan c sources → trusted (Generation.calculate_generation tree plan c snapshots sources identity).
Proof using Hp DecimalLaws0.
  intros Hs Hwf Hw. pose proof (known_structure _ Hs) as (_ & _ & Hl).
  destruct (generation_run tree Hwf plan c snapshots sources identity Hw) as (cache & _ & Hr).
  eapply trusted_weaken; [exact Hr|]. intros e. unfold generation_fault. pose proof (fault_trusted tree snapshots sources e) as Hf.
  destruct e; try exact Hf. intros [He Hn] _. apply Hl in He. rewrite Hn in He. by destruct He.
Qed.

Lemma max_level_bound (levels : list (StreamlineLevel D)) b : (∀ l, l ∈ levels → (sl_level l ≤ b)%N) → (max_level levels ≤ b)%N.
Proof.
  unfold max_level. induction levels as [|l ls IH]; intros Hall; cbn; [lia|]. apply N.max_lub; [apply Hall; left|].
  apply IH. intros x Hx. apply Hall. by right.
Qed.

(** A table that passed validation has every level once, in order. *)
Lemma table_accepted c : streamline_ok c →
  Forall (λ l, sl_min_rank l = EmptyString ∨ sl_min_rank l ∈ Rank.name <$> ranks p) (sc_levels c) →
  table_ok (build_rank_ordinals plan) (sc_levels c).
Proof using Hp.
  intros Hc Hr. split_and!; [apply (so_nonempty c Hc)| |].
  - rewrite Forall_forall in *. intros l Hl. split.
    + apply list_elem_of_lookup in Hl as [i Hi]. rewrite (so_contiguous c Hc i l Hi). lia.
    + destruct (Hr l Hl) as [He|Hin]; [by left|]. right. unfold build_rank_ordinals. cbn [engine_plan CommissionTypes.ranks].
      clear -Hin. induction (ranks p) as [|r rs IH] using rev_ind; [by apply elem_of_nil in Hin|]. rewrite fmap_app, foldl_app. cbn.
      destruct (decide (Rank.name r = sl_min_rank l)) as [->|Hne]; [rewrite lookup_insert_eq; eauto|]. rewrite lookup_insert_ne by done.
      apply IH. rewrite fmap_app in Hin. apply elem_of_app in Hin as [Hin|Hin]; [done|]. apply list_elem_of_singleton in Hin. congruence.
  - intros n Hn. apply level_entry_is_Some. assert (Hmax : (max_level (sc_levels c) ≤ N.of_nat (length (sc_levels c)))%N).
    { apply max_level_bound. intros l [i Hi]%list_elem_of_lookup. rewrite (so_contiguous c Hc i l Hi). apply lookup_lt_Some in Hi. lia. }
    destruct (lookup_lt_is_Some_2 (sc_levels c) (N.to_nat n - 1)) as [l Hl]; [lia|]. exists l.
    split; [by eapply list_elem_of_lookup_2|]. rewrite (so_contiguous c Hc _ l Hl). lia.
Qed.

Lemma trusted_streamline c config engine snapshots sources identity : Plan.Streamline c ∈ structures p → live config engine →
  (sc_max_depth (streamline_commission c) ≤ 255)%N → (N.of_nat (length sources) ≤ 2 ^ 32)%N →
  Forall (λ l, sl_min_rank l = EmptyString ∨ sl_min_rank l ∈ Rank.name <$> ranks p) (sc_levels (streamline_commission c)) →
  trusted (calculate_streamline engine plan c snapshots sources identity).
Proof using Hp DecimalLaws0.
  intros Hs Hl Hd Hv Hr. pose proof (known_structure _ Hs) as Hok.
  eapply trusted_weaken; [by apply (streamline_run config engine Hl plan c snapshots sources identity)|].
  intros e Hf Hb. destruct known_currency as [places Hm]. destruct e; try done; cbn in Hf; [|destruct Hf as [-> Hn]; cbn in Hm; congruence].
  apply Hf. by apply table_accepted.
Qed.
End trust.

(** ** The public statements *)
Section statements.
Context {D : Type} `{!DecimalOps D, !DecimalLaws D, !DivisionLaws D}.
Implicit Types p : CompensationPlan (D := D).

(** C34. Validation decides exactly what a plan must satisfy: it always answers; it
    accepts a plan exactly when every percentage is a fraction, every multiplier is
    positive, every cap and threshold is in range, every amount of money is a whole
    number of minor units of a known currency, the ladder's ordinals ascend from 1
    with distinct names and a base rank that asks for nothing, the level and tier
    tables are complete and structure names are distinct. It changes nothing but
    the order of cycle steps, and accepts its own result unchanged. *)
Theorem plan_validate_exact p :
  match plan_validate p with
  | Ok p' => plan_ok p ∧ p' = with_structures (fmap normal) p ∧ plan_validate p' = Ok p'
  | Err _ => ¬ plan_ok p
  | Panic | Hang => False
  end.
Proof.
  pose proof (plan_validate_spec p) as H. unfold yields in H. destruct (plan_validate p) as [p'|e| |]; [|done..].
  destruct H as [Hok ->]. split_and!; [done..|]. destruct (settled_ok p Hok) as [Hok' Heq].
  pose proof (plan_validate_spec (with_structures (fmap normal) p)) as H. unfold yields in H.
  destruct (plan_validate (with_structures (fmap normal) p)) as [p''|e| |]; [|done..]. destruct H as [_ ->]. by rewrite Heq.
Qed.

(** C35. On a plan that validation accepted no calculator blames the plan. Whatever
    the tree, the snapshots and the volume, the unilevel, matrix, binary, generation,
    stairstep and streamline calculators answer and never with an unknown currency, a
    percentage out of range, a negative or fractional cap or a configuration error;
    the streamline one provided that the ranks its table names are in the ladder,
    which validation does not check. *)
Theorem validated_plan_trusted p p' : plan_validate p = Ok p' →
  (∀ c tree snapshots sources identity, Plan.Unilevel c ∈ structures p' → arena_wf (Unilevel.Unilevel.arena tree) →
    (lc_max_depth (us_level_commission c) ≤ 255)%N → (N.of_nat (length sources) ≤ 2 ^ 32)%N →
    trusted (calculate_unilevel tree (engine_plan p') c snapshots sources identity)) ∧
  (∀ c tree snapshots sources identity, Plan.Matrix c ∈ structures p' → matrix_wf tree →
    (lc_max_depth (ms_level_commission c) ≤ 255)%N → (N.of_nat (length sources) ≤ 2 ^ 32)%N →
    trusted (calculate_matrix tree (engine_plan p') c snapshots sources identity)) ∧
  (∀ c tree snapshots sources prior ownership, Plan.Binary c ∈ structures p' → Binary.Binary.binary_wf tree →
    Z.of_nat (length (user_ids tree)) < 2 ^ 64 →
    trusted (calculate_binary_pairing tree (engine_plan p') c snapshots sources prior ownership)) ∧
  (∀ c tree snapshots sources identity, Plan.Generation c ∈ structures p' → arena_wf (Unilevel.Unilevel.arena tree) →
    generation_widths (engine_plan p') c sources →
    trusted (Generation.calculate_generation tree (engine_plan p') c snapshots sources identity)) ∧
  (∀ c tree snapshots sources identity, Plan.Stairstep c ∈ structures p' → arena_wf (Unilevel.Unilevel.arena tree) →
    (lc_max_depth (Stairstep.ss_level_commission c) ≤ 255)%N → (N.of_nat (length sources) ≤ 2 ^ 32)%N →
    (N.of_nat (size snapshots) ≤ u32_max)%N →
    (∀ m g, Stairstep.overrides <$> Stairstep.breakaway c = Some (Stairstep.SingleWalk m (Some g)) → (Stairstep.bg_max_generations g ≤ 255)%N) →
    trusted (Stairstep.calculate_stairstep tree (engine_plan p') c snapshots sources identity)) ∧
  (∀ c config engine snapshots sources identity, Plan.Streamline c ∈ structures p' → live config engine →
    (sc_max_depth (streamline_commission c) ≤ 255)%N → (N.of_nat (length sources) ≤ 2 ^ 32)%N →
    Forall (λ l, sl_min_rank l = EmptyString ∨ sl_min_rank l ∈ Rank.name <$> ranks p') (sc_levels (streamline_commission c)) →
    trusted (calculate_streamline engine (engine_plan p') c snapshots sources identity)).
Proof.
  intros Hv. pose proof (plan_validate_spec p) as H. rewrite Hv in H. destruct H as [Hok ->]. apply settled_ok in Hok as [Hok _].
  split_and!; intros; [by apply trusted_unilevel|by apply trusted_matrix|by apply trusted_binary|by apply trusted_generation
    |by apply trusted_stairstep|by eapply trusted_streamline].
Qed.

(** The structure under another name. *)
Definition renamed (n : string) (s : StructureConfig (D := D)) : StructureConfig (D := D) :=
  match s with
  | Plan.Unilevel c => Plan.Unilevel (mkUnilevelStructure n (us_level_commission c) (us_compression c) (us_pass_up c))
  | Plan.Binary c => Plan.Binary (mkBinaryStructure n (binary_commission c))
  | Plan.Matrix c => Plan.Matrix (mkMatrixStructure n (ms_matrix_params c) (ms_level_commission c) (ms_compression c) (ms_pruning c))
  | Plan.Stairstep c => Plan.Stairstep (Stairstep.mkStairstepStructure n (Stairstep.ss_level_commission c) (Stairstep.ss_compression c) (Stairstep.breakaway c))
  | Plan.Generation c => Plan.Generation (Generation.mkGenerationStructure n (Generation.level_commission c) (Generation.gs_compression c)
      (Generation.generation_commission c) (Generation.level_commissions_enabled c))
  | Plan.Streamline c => Plan.Streamline (mkStreamlineStructure n (streamline_commission c))
  | Plan.BoardPlan c => Plan.BoardPlan (mkBoardStructure n (board_width c) (board_height c) (board_cycling c))
  end.

(** The message of a refusal that names the structure. *)
Definition naming (n why : string) : string := "structure '" +:+ n +:+ "': " +:+ why.

(** The checks of a generation structure that come before the one that names it. *)
Definition generation_own (c : Generation.GenerationStructureConfig D) : outcome string unit :=
  generation_validate (Generation.generation_commission c);;
  match Generation.level_commission c with Some l => level_commission_validate l | None => Ok () end.

(** C36. Which refusals name their structure. The message of a refused unilevel,
    binary, matrix, streamline or board structure names it, and under another name
    it is the same message with that name. Every refusal of a stairstep structure is
    the same whatever the structure is called. A refusal of a generation structure by
    the checks on its generation commission or its level commission is the same
    whatever it is called; past those the only refusal is that of an enabled and
    absent level commission, and it names the structure. *)
Theorem structure_error_named (s : StructureConfig (D := D)) e : structure_validate s = Err e →
  match s with
  | Plan.Stairstep _ => ∀ n, structure_validate (renamed n s) = Err e
  | Plan.Generation c =>
      match generation_own c with
      | Err why => e = why ∧ ∀ n, structure_validate (renamed n s) = Err why
      | _ => Generation.level_commissions_enabled c = true ∧ Generation.level_commission c = None ∧
          ∀ n, structure_validate (renamed n s) = Err (naming n "level_commissions_enabled is true and level_commission is null or absent") ∧
          e = naming (Generation.gs_name c) "level_commissions_enabled is true and level_commission is null or absent"
      end
  | _ => ∃ why, e = naming (structure_name s) why ∧ ∀ n, structure_validate (renamed n s) = Err (naming n why)
  end.
Proof.
  assert (Hmap : ∀ A B s' (m : outcome string A) (k : A → outcome string B) e', (∀ a, ∃ b, k a = Ok b) → (in_structure (D := D) s' m ≫= k) = Err e' →
    ∃ why, m = Err why ∧ e' = naming (structure_name s') why).
  { intros A B s' [a|why| |] k e' Hk; cbn; [|intros [= <-]; by exists why|done..]. destruct (Hk a) as [b ->]. done. }
  destruct s as [c|c|c|c|c|c|c]; cbn [structure_validate renamed]; intros He;
    try (apply Hmap in He as (why & Hw & ->); [|by eauto]; exists why; split; [done|]; intros n; cbn in *; by rewrite Hw).
  - intros n. cbn in *. destruct (level_commission_validate (Stairstep.ss_level_commission c)) as [|e1| |]; cbn in *; [|done..].
    by destruct (Stairstep.breakaway c) as [b|]; [destruct (breakaway_validate b)|].
  - unfold generation_own. destruct (generation_validate (Generation.generation_commission c)) as [[]|e1| |] eqn:H1; cbn in He |- *;
      [|injection He as ->; split; [done|]; intros n; cbn; by rewrite H1|done..].
    destruct (match Generation.level_commission c with Some l => level_commission_validate l | None => Ok () end) as [[]|e2| |] eqn:H2;
      cbn in He |- *; [|injection He as ->; split; [done|]; intros n; cbn; by rewrite H1|done..].
    destruct (Generation.level_commissions_enabled c), (Generation.level_commission c); cbn in *; try done.
    injection He as <-. split_and!; [done..|]. intros n. by rewrite H1.
Qed.
End statements.

(** ** A plan

    The level, streamline and cycle structures of the example periods in one plan. *)
Module PlanWitness.
Import Ref RatioWitness CommissionWitness StreamlineExamples.StreamlineWitness.
#[local] Open Scope string_scope.

Definition no_requirement (s : string) : Rank.StructureQualification rdec :=
  Rank.mkStructure s (money 0 0) (money 0 0) (money 0 0) (money 0 0) (money 0 0) None [].
Definition team (s : string) : Rank.StructureQualification rdec :=
  Rank.mkStructure s (money 50 0) (money 500 0) (money 0 0) (money 5 1) (money 0 0) None [].
Definition rank_of_plan (n : string) (o : N) (q : Rank.StructureQualification rdec) : Rank.RankDefinition rdec :=
  Rank.mkRankDefinition n o (Rank.mkQualification [q] [] None None) [Rank.structure q] Rank.PromotionOnly.

(** Cycle steps out of order. *)
Definition cycle : BinaryStructureConfig rdec :=
  mkBinaryStructure "legs" (mkBinaryCommission None (CycleStepMode (mkCycleStepConfig
    [mkCycleStep (money 500 0) (money 40 0); mkCycleStep (money 100 0) (money 15 0)] CarryForward None None PerPosition))).
Definition cycle_sorted : BinaryStructureConfig rdec :=
  mkBinaryStructure "legs" (mkBinaryCommission None (CycleStepMode (mkCycleStepConfig
    [mkCycleStep (money 100 0) (money 15 0); mkCycleStep (money 500 0) (money 40 0)] CarryForward None None PerPosition))).

Definition a_plan_of (ss : list (StructureConfig (D := rdec))) : Plan.CompensationPlan (D := rdec) :=
  mkCompensationPlan "plan" 2 ss (mkPeriod Month 0 14) (mkVolume false "USD" (money 1 0) false)
    [rank_of_plan "bronze" 1 (no_requirement "main"); rank_of_plan "gold" 2 (team "main")]
    (mkRankTracking true) (mkRankFeatures false false) elig
    (mkBonuses None None None None None None None None None None None)
    (mkPayout "USD" (money 25 0) false []) (mkCaps (Some (money 5000 0)) (money 45 2) ProRata false) (mkPlacement None None None).
Definition a_plan := a_plan_of [Plan.Unilevel CommissionWitness.structure; Plan.Binary cycle; Plan.Streamline stream_structure].
Definition a_plan' := a_plan_of [Plan.Unilevel CommissionWitness.structure; Plan.Binary cycle_sorted; Plan.Streamline stream_structure].

(** Two structures of one name. *)
Definition bad_plan := a_plan_of [Plan.Unilevel CommissionWitness.structure; Plan.Unilevel CommissionWitness.structure].

Lemma a_plan_accepted : plan_validate a_plan = Ok a_plan'.
Proof. vm_compute. reflexivity. Qed.

Lemma bad_plan_refused : plan_validate bad_plan = Err "structures: duplicate structure name 'main'".
Proof. vm_compute. reflexivity. Qed.

(** The plan is accepted and its steps put in order; a plan with two structures of one name is not. *)
Lemma plan_validate_exact_witness : plan_ok a_plan ∧ a_plan' = with_structures (fmap normal) a_plan ∧ plan_validate a_plan' = Ok a_plan' ∧ ¬ plan_ok bad_plan.
Proof.
  pose proof (plan_validate_exact a_plan) as H. rewrite a_plan_accepted in H. destruct H as (H1 & H2 & H3). split_and!; [exact H1|exact H2|exact H3|].
  pose proof (plan_validate_exact bad_plan) as H. rewrite bad_plan_refused in H. exact H.
Defined.

Lemma validated_plan_trusted_witness : plan_validate a_plan = Ok a_plan' ∧
  trusted (calculate_unilevel CommissionWitness.tree (engine_plan a_plan') CommissionWitness.structure CommissionWitness.snapshots
    CommissionWitness.volume identity) ∧
  trusted (calculate_streamline StreamlineExamples.line_of_three (engine_plan a_plan') stream_structure members orders identity).
Proof.
  split; [exact a_plan_accepted|]. destruct (validated_plan_trusted a_plan a_plan' a_plan_accepted) as (H1 & _ & _ & _ & _ & H6). split.
  - apply H1; [left|exact tree_wf|exact depth_ok|exact volume_ok].
  - apply (H6 stream_structure StreamlineExamples.by_sponsor); [right; right; left|exact StreamlineExamples.line_of_three_live|vm_compute; discriminate..|].
    apply Forall_cons; split; [right; vm_compute; right; left|]. apply Forall_cons; split; [left; reflexivity|constructor].
Defined.

(** A stairstep structure with no level to pay: its refusal does not say which. *)
Definition unnamed : StructureConfig (D := rdec) :=
  Plan.Stairstep (Stairstep.mkStairstepStructure "stair" (mkLevelCommission (money 40 2) None 0 ∅) None None).

(** A generation structure whose level commission is enabled and absent: it does. *)
Definition half_set : Generation.GenerationStructureConfig rdec :=
  Generation.mkGenerationStructure "gen" None None
    (Generation.mkGeneration 1 {["gold" := 1%N]} {[1%N := money 10 2]} Generation.ThresholdRank "gold" false None true) true.
Definition absent (n : string) : string := naming n "level_commissions_enabled is true and level_commission is null or absent".

Lemma structure_error_named_witness :
  (structure_validate unnamed = Err "commissionable_depth must be >= 1, got 0" ∧
  ∀ n, structure_validate (renamed n unnamed) = Err "commissionable_depth must be >= 1, got 0") ∧
  structure_validate (Plan.Generation half_set) = Err (absent "gen") ∧
  ∀ n, structure_validate (renamed n (Plan.Generation half_set)) = Err (absent n).
Proof.
  assert (E : structure_validate unnamed = Err "commissionable_depth must be >= 1, got 0") by (vm_compute; reflexivity).
  assert (F : structure_validate (Plan.Generation half_set) = Err (absent "gen")) by (vm_compute; reflexivity).
  assert (G : generation_own half_set = Ok ()) by (vm_compute; reflexivity).
  split; [split; [exact E|exact (structure_error_named unnamed _ E)]|]. split; [exact F|]. intros n.
  pose proof (structure_error_named (Plan.Generation half_set) _ F) as H. cbv iota beta in H. rewrite G in H.
  exact (proj1 (proj2 (proj2 H) n)).
Defined.
End PlanWitness.
